(* ===== verification/_CoqProject ===== *)
-Q . S2P
Prelude.v
Text.v
Monad.v
Files.v
Control.v
Table.v
TextSearch.v
CopyTypes.v
Journal.v
JournalSink.v
CopyFile.v
CopyWp.v
CopyProof.v
CopySafety.v
SyncPath.v
SyncTypes.v
SyncDecide.v
SyncDb.v
SyncEngine.v
CopyBridge.v
SyncWp.v
SyncRound.v
SyncSafety.v
Debounce.v
Watch.v
Queue.v
Registry.v
Versioning.v
ChunkTypes.v
ChunkStore.v
ChunkWp.v
ChunkFile.v
ChunkFileSafety.v
Repository.v
RepoWp.v
RepoOps.v
RepoRestore.v
RepoVerify.v
RepoRecord.v
RepoSystem.v
RepoProps.v
RepoDemo.v
RepoReport.v
Mount.v
RepoWitness.v
Filter.v
TreeTypes.v
TreeCopy.v
TreeLaws.v
TreePlan.v
TreeSafety.v
TreeLive.v
TreeBridge.v
TreeMove.v
TreeDemo.v
AuditFormat.v
AuditLog.v
AuditProps.v
Schedule.v
BackupSchedule.v
DryRun.v
Translate.v
Power.v
PowerRunner.v
Scan.v
SparseCopy.v
Platform.v
Parallel.v
StdIo.v
Hash.v
Provenance.v
Sidecar.v
Shred.v
ShredProof.v
ShredTree.v
Helper.v
