(* ===== verification/Prelude.v ===== *)
(** * Freally File Manager: a verification library

    Freally copies files, keeps folders in sync, watches trees for changes,
    queues the jobs and keeps old versions.  This library models the core of
    its Rust crates and proves what their callers rely on.

    ** The program's parts and where they are modelled

    The copy engine ([freally-core]: [engine.rs], [options.rs], [error.rs],
    [event.rs], [safety.rs], [control.rs]).  [copy_file] copies one file:
    guards, fast-copy hook, resume probe, copy loop, metadata, verify pass,
    cleanup.
    - [CopyTypes]: options, errors, events, reports, buffer sizing, and the
      trait [JournalSink] as a class with its laws.
    - [CopyFile]: every stage of [copy_file] in the state monad of [Monad], in
      the order of the source.  An environment ([CopyEnv]) numbers the outside
      calls and decides each one: it works, fails with an error kind, or the
      process dies there; it also picks the size of each read, how much of a
      buffered write reaches the file when, what the disk stores, and the
      clock.  The steering flags seen are a list.
    - [CopyWp], [CopyProof]: the calculus of early exits, one lemma per stage,
      and what each stage does without any assumption.  [CopySafety]: the
      theorems.
    - [SparseCopy] ([sparse.rs] and the sparse branch of [engine.rs]): files
      with holes, range by range, and their theorem.
    - [Control]: the atomic byte and notification of both control handles, one
      step per access.

    The platform's copies ([freally-platform]: [dispatcher.rs],
    [reflink_path.rs], [hook.rs], [native/linux.rs], [native/parallel.rs]).
    - [Platform]: the block clone, [copy_file_range] and [sendfile] behind the
      engine's hook, and the engine with the hook installed.
    - [Parallel]: the copy in parallel chunks, a machine with one action per
      access of the workers, the reporter and the caller.

    The resume journal ([freally-journal]: [journal.rs], [types.rs],
    [schema.rs], [sink.rs]).
    - [Journal]: the operations as transactions over three ordered tables, and
      their theorems over arbitrary runs of operations.
    - [JournalSink]: the batching sink with its pending checkpoints, the
      instance [freally_sink] of the engine's class, and what a crash can lose.

    The sync engine ([freally-sync]: [engine.rs], [walker.rs], [clock.rs],
    [db.rs], [types.rs], [error.rs], [control.rs]).
    - [SyncPath] (relative paths and conflict names), [SyncTypes] (version
      vectors and the public types), [SyncDecide] ([decide_action]), [SyncDb]
      (the pair database behind the class [BaselineStore]).
    - [SyncEngine]: [sync] with the scan of both roots, the plan, the three
      executors, history, events, pause and cancel, over a [World] and a fault
      oracle.  It calls the copy engine through the class [CopyEngine], which
      [CopyBridge] discharges from [CopyFile.copy_file].
    - [SyncWp], [SyncRound]: the rules per call, the contract of one action,
      the loop and the round.  [SyncSafety]: the theorems.

    The live mirror ([freally-watch]): [Debounce] ([debounce.rs], [filter.rs],
    [event.rs], the atomic-save tracker) and [Watch] ([watcher.rs]: handlers,
    rescans, pump).

    Queues ([queue.rs] of [freally-core]): [Queue] is one queue with its
    events and control signals, [Registry] the shared registry over a heap of
    queues, with the two halves of [route] as separate steps.

    Retention ([versioning.rs] of [freally-core]): [Versioning].

    The chunk store and the snapshot repository ([freally-chunk]:
    [types.rs], [compress.rs], [store.rs], [backend.rs], [chunker.rs],
    [manifest.rs], [sink.rs], [repository.rs], [diff.rs], [report.rs],
    [cdr.rs]).
    - [ChunkTypes]: manifests, digests in hex, codecs, the binary locator rows.
    - [ChunkStore]: the pack files and the index, every operation of
      [ChunkStore] call by call, in an environment ([ChunkWorld]) that decides
      each call and draws the identifiers.  [ChunkFile]: chunking, ingestion,
      materialising files and ranges.
    - [Repository]: the catalog and all operations of [Repository] over it;
      [replicate_to] runs over a pair of repositories, each in its own world.
    - [ChunkWp], [ChunkFileSafety]: the invariants of disk and memory, what
      each store operation keeps, and which errors are explained by a failed
      call.  [RepoWp] (names of restored files, the invariant), [RepoOps]
      (collection, compaction, retention), [RepoRestore], [RepoVerify]
      (opening, verification, repair), [RepoRecord] (recording, replication):
      the contracts.  [RepoSystem]: runs of the whole, with failures, deaths,
      restarts and user edits.  [RepoProps]: the theorems over every reachable
      state.  [RepoReport]: differences, reports, the exchange form of
      manifests.  [RepoDemo], [RepoWitness]: a concrete world and the theorems
      along a run in it.

    Mounts ([freally-mount]: [tree.rs], [fuse_filesystem.rs],
    [fuse_backend.rs]): [Mount] is the tree of a snapshot or of the history,
    the inode map and the read callback over the chunk store.

    Tree copies and moves ([freally-core]: [tree.rs], [collision.rs],
    [filter.rs]).
    - [Filter]: the compiled filters and the two predicates of the walk, over
      an abstract glob set.  [TreeTypes]: trees on disk, the calls of the
      operating system, options, reports and [resolve] of a collision, in an
      environment ([TreeEnv]) that numbers the calls and may refuse each one;
      and [enumerate_streaming] with its batches.
    - [TreeCopy]: the walker, the dispatcher, the bounded channel and the
      spawned tasks as a machine whose next mover is free; one file is copied
      through the class [TreeCopier].
    - [TreeLaws]: what the calls and the copier ([TreeCopierLaws]) change.
      [TreePlan], [TreeSafety]: the invariants of the machine.  [TreeLive]:
      where it can get stuck, and its measure.
      [TreeBridge]: the copier's laws from [CopyFile.copy_file].
      [TreeMove]: [move_file] and [move_tree].  [TreeDemo]: a concrete tree,
      the witnesses, and what goes wrong.

    The disk-backed scan ([freally-core]: [scan/]): [Scan] is the walker, the
    writer, the hashing workers and the database of one scan as a machine, the
    index of scans and the cursor that reads the rows.

    The audit log ([freally-audit]: [lib.rs], [format.rs], [verify.rs],
    [layer.rs], [worm.rs]).
    - [AuditFormat]: events, the five line formats with their escapes, the
      extractors of the chain column and how they meet.
    - [AuditLog]: the sink with its chain, restart and rotation over a file
      whose calls may fail, [verify_chain], and the tracing layer.
      [AuditProps]: the theorems and their witnesses.

    Hashes and provenance ([freally-hash], [freally-provenance]): [StdIo] (the
    error kinds of the standard library), [Hash] (the streaming hash with its
    pauses and events, the comparison of two files), [Sidecar] (sidecar
    files), [Provenance] (signed manifests: the sink, the encoders, the
    verifier, the theorems).

    Secure deletion ([freally-secure-delete]: [method.rs], [pattern.rs],
    [engine.rs], [tree.rs]): [Shred] is the code over a medium that may not
    keep what is written, [ShredProof] follows one file, [ShredTree] a tree.

    The privileged helper ([freally-helper]): [Helper] is requests,
    capabilities, the handler, the session loop and the command that starts
    it.

    Planning and translating a copy ([freally-core]: [dryrun.rs],
    [translate.rs]).
    - [DryRun]: the plan of a copy over a snapshot of both trees.
    - [Translate]: names, lengths and line endings between platforms, over the
      class [HostPath].

    Schedules, bandwidth and power ([freally-shape], [freally-power], and
    [power.rs], [state.rs], [cloud_commands.rs] of the desktop application).
    - [Schedule]: the bandwidth schedule's grammar and its lookup.
      [BackupSchedule]: when a source is due, over the class [Zone].
    - [Power]: rules, events and the action they give.  [PowerRunner]: the
      subscriber that applies it to a [Queue], the shape and the cloud
      transfers, the rate the shape has otherwise, and what the subscriber
      does not do.

    Shared: this file (tactics, machine integers, results, list lemmas),
    [Text] (Rust string and path operations), [Monad] (state with early exits
    and its [wp]), [Files] (regular files and trees), [Table] (ordered
    key-value tables and row codecs, standing for [redb] and [serde]),
    [TextSearch] (searching, splitting and number parsing as Rust's [str] has
    them).

    ** What the theorems show

    - Copy engine: a finished copy has the source's bytes and touches nothing
      else, whatever fails ([copy_is_exact]); a verified copy does so even on
      a disk that garbles writes ([verified_copy_is_exact]); nothing disturbed,
      it succeeds ([undisturbed_copy_succeeds]); after any number of attempts
      that failed or died anywhere, the first undisturbed one completes from
      the journal's checkpoint ([interrupted_copy_resumes]); failures clean up
      ([failed_copy_cleans_up]); overwritten bytes are snapshotted first
      ([overwritten_version_is_snapshotted]); [fail_if_exists] holds on the
      plain path ([fail_if_exists_spares_destination]).  Two lemmas mark where
      this ends: a file copied onto itself, and a source that changed between
      two attempts.  A sparse copy has the same bytes
      ([sparse_copy_is_exact]); so has a copy through the fast paths of the
      platform, whichever of them did it ([platform_copy_is_exact]), and a
      copy in parallel chunks under every schedule
      ([parallel_copy_is_exact]), which can end unless a worker failed before
      its chunk was written ([parallel_copy_can_end]).
    - Journal: ids are never reused, [unfinished] and [delete_job] are exact,
      [finish_file] adds what it says, and the sink loses at most the reports
      of one flush interval.
    - Sync: no byte that is not the last-synced version is lost, whatever
      fails: it is at its own path, at a side of its key or under a conflict
      name ([sync_keeps_data]); a healthy two-way round converges
      ([sync_converges]); settled keys are left alone in every mode; dry runs
      only read; the decision refines the table of what changed on each side;
      version vectors form a lattice order; joined paths stay under their root
      and conflict names are fresh.
    - Watch: every removal is reported, temps of atomic saves are filtered and
      collapse to one modification, flushing partitions the queue, the pump
      and its rescans terminate.
    - Queues: steering signals match job states, terminal states are final
      under the user's operations, reordering moves one job, merging keeps
      every job, routing hits the queue of the destination's drive.
    - Retention: the newest and the held versions are never pruned, counts,
      ages and generations are respected, bucket floors are calendar dates.
    - Chunk store and repository, over every state a run can reach (with
      failures, deaths, torn appends, restarts and replications in it): a
      snapshot restores byte for byte as long as it is in the catalog
      ([recorded_snapshot_restores]), the catalog stays whole, collection and
      compaction keep every referenced chunk and reclaim exactly the others,
      stored chunks read back and packs stay bounded, range reads are slices,
      retention removes what its policy says ([prune_removes_condemned]),
      restores stay below their root
      and count what they do, [verify] is exact, a walked tree is recorded
      whole, and replication brings every snapshot over.  An operation is
      assumed to start in a process that is in step with its pack
      ([ChunkWp.in_step]): after an append that stopped half-way the code goes
      on with a wrong offset until it is restarted
      ([RepoWitness.torn_append_misplaces_next]).  Locator rows and
      digests survive their encodings.  A difference counts what the second
      snapshot adds ([diff_is_exact]), a report says what the catalog holds
      ([report_is_exact]), and the exchange form of a manifest is read back,
      malformed ones refused ([cdr_round_trip]).
    - Mounts: a mounted snapshot shows its files at their paths and reads give
      slices of their bytes ([mounted_file_reads_back]).
    - Tree copies, in every order of the tasks and with any call refused: the
      report counts every entry that the walk yields and the filters keep
      exactly once and says the truth about it, under the policies that write
      to an entry's own name ([tree_copy_reports_the_truth]); under them nothing
      outside the destination is written ([tree_copy_is_confined]); the
      machine ends ([tree_copy_terminates]) and can only hang after a
      cancellation during a long walk ([hang_needs_a_cancelled_long_walk]).
      What a move across devices takes from the source has arrived, unless
      its name was taken, and what the walk did not see stays
      ([moved_tree_arrives], [moved_file_is_never_lost]).  The enumeration and
      the filters equal their plain specifications ([enumeration_exact]).
    - Scans: the rows of a finished scan are, but for their order, the entries
      of the walk that its filters pass, even after any number of interrupted
      attempts over the same tree ([interrupted_scan_is_whole]), and a run can end unless it was cancelled
      while the walker waits at a full channel ([scan_can_end]).
    - Audit log: a log written without a refused call, of events that the
      format can hold on a line, verifies however often it is reopened
      ([healthy_log_verifies]); a changed line that still
      verifies exhibits a collision of the hash ([tampering_needs_a_collision]);
      sensitive fields never reach the file ([sensitive_fields_leave_no_trace]).
    - Hashes and provenance: a finished comparison compares the contents
      ([verify_pair_compares_contents]); a sidecar that is written parses back
      exactly when its paths are plain ([written_sidecar_parses_back]); the manifest of a job whose files are
      still there verifies ([finalized_manifest_verifies]), and a report
      without differences under a trusted key means unchanged files, up to a
      collision or a forgery ([clean_signed_report_means_unchanged]).
    - Secure deletion: a file that is gone was overwritten by every pass of
      its method, each confirmed ([shredded_file_was_overwritten]), and so was
      every file that left a tree, unless its name was drawn for another file
      and it was replaced ([shredded_tree_was_overwritten],
      [rename_replaces_the_namesake]).
    - Helper: every file a session changes was asked for, under a capability
      that the command line and the session both granted
      ([helper_acts_only_as_granted]); a retry answered with success copied
      the file ([elevated_retry_is_exact]); the helper reads its command line
      as the caller meant it ([spawned_helper_is_as_asked]).
    - Plans and names: the dry run judges every readable leaf exactly once
      ([plan_judges_every_leaf]); a translated name is never a device
      ([translated_name_is_no_device]) and line endings become uniform.
    - Schedules: the lookup is the meaning of the text
      ([schedule_lookup_is_its_meaning]); a backup is due exactly when a fire
      has passed since it last ran ([due_when_a_fire_has_passed]).
    - Power: the action is the first strictest rule ([action_is_strictest]);
      applying it pauses and resumes exactly the jobs it should
      ([policy_steers_exactly_its_jobs]), and after each event of a run the
      rules in force are enforced on jobs, gate and shape and nothing of the
      earlier ones is left ([rules_in_force_are_enforced]).
    - Waiting: the copy engine's pause loop cannot miss a wake-up, the sync
      engine's can.

    A proved lemma whose name says what goes wrong (for instance
    [Queue.completed_overrides_cancelled], [Registry.route_prune_race],
    [CopySafety.copy_onto_itself_loses_the_file]) records a behaviour of the
    code that its documentation does not promise.

    ** Bounds and fuel

    Machine integers are [Z] with their wrap-around or saturation written out
    ([wrap64], [sat_add64], ...).  The copy and verify loops run on fuel: two
    more than the bytes of the file plus the flags still to be seen, computed
    when the loop starts; each turn consumes a byte or a flag, and the stage
    lemmas show that the fuel never runs out ([SStuck] is not a result).  The
    watcher's rescans take fuel bounded by the size of the tree, with
    [run_pump_terminates].  A tree copy takes at most fifteen steps per entry
    (with its retries), four per batch and five more; its channel holds two
    batches, or 1024 on the scan path.  Range reads of a pack take one more than the bytes wanted, the
    streaming chunker a measure of the bytes left ([ChunkFile.chunk_reader]),
    the walk of [snapshot_source] the number of nodes of the tree; none runs
    out ([XStuck] is not a result).  The loops over a range, over
    [copy_file_range] and [sendfile], over a pass of the shredder and over a
    file that is hashed or copied by the helper take one more than the bytes
    there are, since every turn moves at least one or is the last.  All other
    recursions are structural.

    ** Interfaces and hypotheses

    [redb] tables, row codecs, the operating system's calls, the hash
    functions and platform hooks are parameters.  Where a theorem needs a
    hash to tell byte strings apart it says so ([Inj]); where it needs the
    disk to store what it is given it says so ([honest]); a hook is assumed to
    write to the destination only and to have copied the bytes when it says
    it has ([hook_law]).  The chunk store asks more carefully, since no hash of 32 bytes is
    injective: [DigestLaws] names a set of byte strings, closed under taking
    parts, on which the digest is ([in_play]), and contents are taken from it.
    [WorldLaws] asks that identifiers drawn by calls that work differ, and the
    laws of zstd and FastCDC are those of their documentation.
    A tree copy sees one file's copy as one step of the machine, [walkdir] as
    the list of what it yields, and symbolic links only through what the
    calls say they resolve to ([OsLaws]); [tree_of] and [room_at] describe the
    source and the free destination of a move.
    The audit theorems ask the same of their digest ([AuditLaws],
    [DigestLength]) and name the runs in which no call failed.  When a backup
    is due is shown for time zones of a constant offset.  What a name becomes
    under the host's path functions is assumed only for the names at hand.
    The allocated ranges a sparse copy asks for are ordered and cover every
    byte that is not zero ([extents_law]); a block clone that says it worked
    has the source's bytes ([reflink_law]); random bytes come in the number
    asked for ([RngLaw]), a medium that keeps what is written says so
    ([keeps_bytes]), a refused call does not claim that a file is missing
    ([honest_calls]), and the walk of a tree to be shredded yields what is
    below its root ([walk_ok]); signatures and digests have
    [ProvenanceLaws].  A report presumes that one digest has one length
    ([sized]) and a mount that no path of a snapshot runs through another
    ([separate]).
    The lease that orders recording against collection is modelled by running
    operations one at a time.  Every such hypothesis is met in a demo module,
    and the witnesses compute there with the real sink, store and engine.

    ** What is not modelled

    In [copy_file]: the cloud and transform branches, symbolic links, the
    snapshot fallback and retry when the source is locked, bandwidth shaping
    and security metadata; file metadata is one time stamp.  Concurrent
    writers to the files being copied.  Of the platform's copies, those of
    macOS and Windows.  In the repository: passphrase key slots, progress
    callbacks, and metadata errors during a walk.  In a tree copy: the times
    of directories, rates and progress ticks, and the symbolic links of
    Windows.  In a mount: the session with the kernel and WinFsp.  Of secure
    deletion: whole drives.  The token bucket itself (the [governor] crate),
    the probes of the power bus, and the wire forms of the desktop
    application.  Servers, the mobile companion, plugins, encryption, the
    user interface and the build tooling stay outside. *)
From Stdlib Require Export Ascii ZArith Lia.
From Stdlib Require String.
From stdpp Require Export base gmap sets list strings sorting relations.
From stdpp Require Import options.

#[global] Arguments String.append !_ _ / : simpl nomatch.

(** ** Tactics *)

(** Close a goal whose statement is decidable by evaluating the decision. *)
Ltac by_decide := apply (bool_decide_unpack _); vm_compute; exact I.

(** Split every conjunction of the goal and close the easy parts. *)
Ltac split_done := split_and?; try done.

(** ** Machine integers

    A [u64] is a [Z] in the range [0 .. 2^64 - 1].  [wrap64] is what an
    unchecked [+= 1] does in a release build, the [sat_] operations are Rust's
    [saturating_add], [saturating_sub] and [saturating_mul]. *)

Definition U64_MAX : Z := 18446744073709551615.

Definition wrap64 (x : Z) : Z := (x mod (U64_MAX + 1))%Z.

Definition sat_add64 (a b : Z) : Z := Z.min U64_MAX (a + b).

Definition sat_sub64 (a b : Z) : Z := Z.max 0 (a - b).

Definition sat_mul64 (a b : Z) : Z := Z.min U64_MAX (a * b).

Definition is_u64 (x : Z) : Prop := (0 <= x <= U64_MAX)%Z.

#[export] Instance is_u64_dec x : Decision (is_u64 x).
Proof. unfold is_u64. solve_decision. Defined.

Lemma wrap64_id x : is_u64 x -> wrap64 x = x.
Proof. unfold is_u64, wrap64, U64_MAX. intros H. apply Z.mod_small. lia. Qed.

Lemma wrap64_u64 x : is_u64 (wrap64 x).
Proof.
  unfold is_u64, wrap64. pose proof (Z.mod_pos_bound x (U64_MAX + 1)) as H.
  unfold U64_MAX in *. lia.
Qed.

Lemma sat_add64_u64 a b : (0 <= a)%Z -> (0 <= b)%Z -> is_u64 (sat_add64 a b).
Proof. unfold is_u64, sat_add64, U64_MAX. lia. Qed.

Lemma sat_sub64_u64 a b : is_u64 a -> is_u64 b -> is_u64 (sat_sub64 a b).
Proof. unfold is_u64, sat_sub64, U64_MAX. lia. Qed.

#[export] Hint Resolve wrap64_u64 sat_sub64_u64 : core.

(** ** Fallible results

    Rust's [Result<A, E>], with the [?] operator as a bind. *)

Inductive result (E A : Type) : Type :=
| Ok (a : A)
| Err (e : E).
Arguments Ok {E A} a.
Arguments Err {E A} e.

Definition result_bind {E A B} (r : result E A) (f : A -> result E B) : result E B :=
  match r with
  | Ok a => f a
  | Err e => Err e
  end.

Definition ok_or {E A} (o : option A) (e : E) : result E A :=
  match o with
  | Some a => Ok a
  | None => Err e
  end.

Declare Scope result_scope.
Delimit Scope result_scope with result.
Notation "'let?' x := r 'in' k" := (result_bind r (fun x => k))
  (at level 10, x pattern, r at level 100, k at level 200)
  : result_scope.
Open Scope result_scope.

Lemma result_bind_Ok {E A B} (r : result E A) (f : A -> result E B) b :
  result_bind r f = Ok b -> exists a, r = Ok a /\ f a = Ok b.
Proof. destruct r; simpl; [eauto | discriminate]. Qed.

(** ** Stable sorting

    [slice::sort_by_key] is a stable sort; [sort_by leb] is the insertion
    sort with the same result. *)

Section stable_sort.
Context {A : Type} (leb : A -> A -> bool).

Fixpoint sort_insert (x : A) (l : list A) : list A :=
  match l with
  | [] => [x]
  | y :: l' => if leb x y then x :: y :: l' else y :: sort_insert x l'
  end.

Fixpoint sort_by (l : list A) : list A :=
  match l with
  | [] => []
  | x :: l' => sort_insert x (sort_by l')
  end.

Lemma sort_insert_perm x l : sort_insert x l ≡ₚ x :: l.
Proof.
  induction l as [|y l IH]; simpl; [done|].
  destruct (leb x y); [done|]. rewrite IH. constructor.
Qed.

Lemma sort_by_perm l : sort_by l ≡ₚ l.
Proof.
  induction l as [|x l IH]; simpl; [done|].
  by rewrite sort_insert_perm, IH.
Qed.

Lemma elem_of_sort_by x l : x ∈ sort_by l <-> x ∈ l.
Proof. by rewrite sort_by_perm. Qed.

Context (leb_trans : forall x y z, leb x y = true -> leb y z = true -> leb x z = true).
Context (leb_total : forall x y, leb x y = true \/ leb y x = true).

Lemma sort_insert_sorted x l :
  StronglySorted (fun a b => leb a b = true) l ->
  StronglySorted (fun a b => leb a b = true) (sort_insert x l).
Proof using leb_trans leb_total.
  induction 1 as [|y l Hl IH Hy]; simpl; [by repeat constructor|].
  destruct (leb x y) eqn:Hxy.
  - constructor; [by constructor|]. constructor; [done|].
    eapply Forall_impl; [exact Hy|]. intros z Hz. simpl in Hz. eauto.
  - constructor; [done|]. rewrite sort_insert_perm. constructor; [|done].
    destruct (leb_total x y); congruence.
Qed.

Lemma sort_by_sorted l : StronglySorted (fun a b => leb a b = true) (sort_by l).
Proof using leb_trans leb_total.
  induction l as [|x l IH]; simpl; [constructor|]. by apply sort_insert_sorted.
Qed.
End stable_sort.

(** ** Strictly increasing key-value tables, fuelled search and list lemmas *)

(** The first element at or after position [n] that satisfies [p], looking at
    [fuel] candidates; [None] when all of them fail. *)
Fixpoint first_from {A} (p : A -> bool) (f : N -> A) (n : N) (fuel : nat) : option A :=
  match fuel with
  | O => None
  | S k => if p (f n) then Some (f n) else first_from p f (N.succ n) k
  end.

Lemma first_from_sound {A} (p : A -> bool) f fuel : forall n x,
  first_from p f n fuel = Some x ->
  p x = true /\ exists i, (n <= i < n + N.of_nat fuel)%N /\ x = f i
     /\ forall j, (n <= j < i)%N -> p (f j) = false.
Proof.
  induction fuel as [|k IH]; intros n x H; simpl in H; [done|].
  destruct (p (f n)) eqn:Hp.
  - injection H as <-. split; [done|]. exists n. repeat split; [lia..|]. lia.
  - destruct (IH _ _ H) as (? & i & Hi & -> & Hj). split; [done|].
    exists i. split; [lia|]. split; [done|]. intros j Hjr.
    destruct (decide (j = n)) as [->|]; [done|]. apply Hj. lia.
Qed.

Lemma first_from_none {A} (p : A -> bool) f fuel : forall n,
  first_from p f n fuel = None ->
  forall i, (n <= i < n + N.of_nat fuel)%N -> p (f i) = false.
Proof.
  induction fuel as [|k IH]; intros n H i Hi; simpl in H; [lia|].
  destruct (p (f n)) eqn:Hp; [done|].
  destruct (decide (i = n)) as [->|]; [done|]. apply (IH _ H). lia.
Qed.

(** More than [size s] distinct candidates cannot all lie in [s]. *)
Lemma candidates_le_size {A} `{Countable A} (s : gset A) (f : N -> A) (fuel : nat) :
  (forall i j, (1 <= i < 1 + N.of_nat fuel)%N -> (1 <= j < 1 + N.of_nat fuel)%N ->
     f i = f j -> i = j) ->
  (forall i, (1 <= i < 1 + N.of_nat fuel)%N -> f i ∈ s) -> (fuel <= size s)%nat.
Proof.
  intros Hinj Hin.
  assert (NoDup ((fun i => f (N.of_nat i)) <$> seq 1 fuel)) as Hnd.
  { apply NoDup_fmap_2_strong; [|apply NoDup_seq].
    intros x y Hx%elem_of_seq Hy%elem_of_seq E. apply Hinj in E; lia. }
  transitivity (size (list_to_set (C := gset A) ((fun i => f (N.of_nat i)) <$> seq 1 fuel))).
  - by rewrite size_list_to_set, length_fmap, length_seq.
  - apply subseteq_size. intros x [y [-> Hy%elem_of_seq]]%elem_of_list_to_set%list_elem_of_fmap.
    apply Hin. lia.
Qed.

(** A sublist of a sorted list is sorted. *)
Lemma StronglySorted_sublist {A} (R : relation A) l k :
  l `sublist_of` k -> StronglySorted R k -> StronglySorted R l.
Proof.
  induction 1 as [|x l k Hlk IH|x l k Hlk IH]; intros Hs; inversion Hs; subst; [done| |auto].
  constructor; [auto|]. rewrite Forall_forall in *. intros y Hy.
  eauto using elem_of_sublist.
Qed.

(** Adding the elements of a list to a set. *)
Lemma size_union_list_le {A} `{Countable A} (s : gset A) (l : list A) :
  (size (s ∪ list_to_set l) <= size s + length l)%nat.
Proof.
  revert s. induction l as [|x l IH]; intros s; simpl.
  - rewrite union_empty_r_L. lia.
  - rewrite union_assoc_L. etrans; [apply IH|].
    rewrite size_union_alt.
    assert (size (({[x]} : gset A) ∖ s) <= 1)%nat; [|lia].
    rewrite <- (size_singleton (C := gset A) x). apply subseteq_size, subseteq_difference_l. done.
Qed.
