(* ===== verification/Text.v ===== *)
(** * Text: the string operations of Rust's standard library that the sources use

    A [str] is a Coq [string], read as its UTF-8 bytes.  The operations are
    executable and come with the lemmas the components share. *)
From S2P Require Import Prelude.
From stdpp Require Import options.

(** A [Path] is the list of its components. *)
Abbreviation path := (list string) (only parsing).

(** [Path::parent]. *)
Definition parent (p : path) : option path :=
  match p with [] => None | _ => Some (take (length p - 1) p) end.

(** [Path::starts_with]. *)
Fixpoint path_starts_with (p base : path) : bool :=
  match base, p with
  | [], _ => true
  | _ :: _, [] => false
  | b :: base', x :: p' => String.eqb b x && path_starts_with p' base'
  end.

(** ** Characters *)

Definition ascii_in (lo hi : N) (c : ascii) : bool :=
  ((lo <=? N_of_ascii c) && (N_of_ascii c <=? hi))%N.

Definition is_digit (c : ascii) : bool := ascii_in 48 57 c.

Definition to_lower_char (c : ascii) : ascii :=
  if ascii_in 65 90 c then ascii_of_N (N_of_ascii c + 32) else c.

(** ** [contains], [starts_with], [ends_with], [strip_prefix] *)

Fixpoint has_char (p : ascii -> bool) (s : string) : bool :=
  match s with
  | EmptyString => false
  | String c s' => p c || has_char p s'
  end.

Definition contains_char (c : ascii) (s : string) : bool := has_char (Ascii.eqb c) s.

Fixpoint contains_str (sub s : string) : bool :=
  String.prefix sub s ||
  match s with
  | EmptyString => false
  | String _ s' => contains_str sub s'
  end.

Fixpoint str_strip_prefix (p s : string) : option string :=
  match p, s with
  | EmptyString, _ => Some s
  | String a p', String b s' => if Ascii.eqb a b then str_strip_prefix p' s' else None
  | String _ _, EmptyString => None
  end.

Fixpoint str_rev_app (s acc : string) : string :=
  match s with
  | EmptyString => acc
  | String c s' => str_rev_app s' (String c acc)
  end.
Definition str_rev (s : string) : string := str_rev_app s "".

Definition starts_with (p s : string) : bool := String.prefix p s.
Definition ends_with (suf s : string) : bool := String.prefix (str_rev suf) (str_rev s).

Fixpoint to_ascii_lowercase (s : string) : string :=
  match s with
  | EmptyString => EmptyString
  | String c s' => String (to_lower_char c) (to_ascii_lowercase s')
  end.

(** [char::is_control] over UTF-8: the ASCII controls, and the C1 block
    [U+0080 .. U+009F], which is encoded [C2 80 .. C2 9F]. *)
Fixpoint has_control_except (keep : ascii -> bool) (s : string) : bool :=
  match s with
  | EmptyString => false
  | String c s' =>
      ((ascii_in 0 31 c || ascii_in 127 127 c) && negb (keep c))
      || (ascii_in 194 194 c &&
          match s' with String d _ => ascii_in 128 159 d | EmptyString => false end)
      || has_control_except keep s'
  end.

(** ** [split], [rfind], [split_once] *)

(** [s.split(c)]: never empty, the separators removed. *)
Fixpoint split_on (c : ascii) (s : string) : list string :=
  match s with
  | EmptyString => [EmptyString]
  | String a s' =>
      match split_on c s' with
      | h :: t => if Ascii.eqb a c then EmptyString :: h :: t else String a h :: t
      | [] => [EmptyString]
      end
  end.

(** [s.rsplit_once(c)]: what stands before and after the last [c]. *)
Fixpoint rsplit_once (c : ascii) (s : string) : option (string * string) :=
  match s with
  | EmptyString => None
  | String a s' =>
      match rsplit_once c s' with
      | Some (l, r) => Some (String a l, r)
      | None => if Ascii.eqb a c then Some (EmptyString, s') else None
      end
  end.

(** [s.split_once(c)]: what stands before and after the first [c]. *)
Fixpoint split_once (c : ascii) (s : string) : option (string * string) :=
  match s with
  | EmptyString => None
  | String a s' =>
      if Ascii.eqb a c then Some (EmptyString, s')
      else match split_once c s' with
           | Some (l, r) => Some (String a l, r)
           | None => None
           end
  end.

(** [iter.join(sep)] *)
Fixpoint str_join (sep : string) (l : list string) : string :=
  match l with
  | [] => ""
  | [x] => x
  | x :: l' => x +:+ sep +:+ str_join sep l'
  end.

(** [str::replace] of one character. *)
Fixpoint replace_char (a b : ascii) (s : string) : string :=
  match s with
  | EmptyString => EmptyString
  | String c s => String (if Ascii.eqb c a then b else c) (replace_char a b s)
  end.

Definition to_slashes (s : string) : string := replace_char "\" "/" s.

(** ** File names *)

(** [Path::file_stem] and [Path::extension] of a name: a leading dot is no
    separator. *)
Definition stem_ext (name : string) : string * option string :=
  match rsplit_once "." name with
  | Some (EmptyString, _) | None => (name, None)
  | Some (stem, ext) => (stem, Some ext)
  end.

(** ** Lemmas *)

Lemma parent_snoc (p : path) n : parent (p ++ [n]) = Some p.
Proof.
  unfold parent. destruct (p ++ [n]) eqn:Hpn; [by destruct p|]. rewrite <- Hpn.
  rewrite length_app. simpl. by rewrite Nat.add_sub, take_app_length.
Qed.

Lemma path_starts_with_prefix (p base : path) : path_starts_with p base = true <-> base `prefix_of` p.
Proof.
  revert p. induction base as [|b base IH]; intros p.
  { destruct p; split; try done; intros _; apply prefix_nil. }
  destruct p as [|x p]; simpl; [by split; [|intros ?%prefix_nil_inv]|].
  rewrite andb_true_iff, String.eqb_eq, IH. split.
  - intros [-> ?]. by apply prefix_cons.
  - intros H. by split; [apply prefix_cons_inv_1 in H|apply prefix_cons_inv_2 in H].
Qed.

Lemma str_app_assoc (a b c : string) : (a +:+ b) +:+ c = a +:+ (b +:+ c).
Proof. induction a as [|x a IH]; simpl; [done | by rewrite IH]. Qed.

Lemma str_app_nil_r (a : string) : a +:+ "" = a.
Proof. induction a as [|x a IH]; simpl; [done | by rewrite IH]. Qed.

Lemma str_app_length (a b : string) :
  String.length (a +:+ b) = (String.length a + String.length b)%nat.
Proof. induction a as [|x a IH]; simpl; [done | by rewrite IH]. Qed.

Lemma str_app_inj_r (a b t : string) : a +:+ t = b +:+ t -> a = b.
Proof.
  revert b. induction a as [|x a IH]; intros [|y b] H; simpl in H; [done| | |].
  - exfalso. apply (f_equal String.length) in H. simpl in H.
    rewrite str_app_length in H. lia.
  - exfalso. apply (f_equal String.length) in H. simpl in H.
    rewrite str_app_length in H. lia.
  - injection H as -> H. by rewrite (IH _ H).
Qed.

Lemma has_char_app p a b : has_char p (a +:+ b) = has_char p a || has_char p b.
Proof.
  induction a as [|x a IH]; simpl; [done|]. by rewrite IH, orb_assoc.
Qed.

Lemma contains_char_app c a b : contains_char c (a +:+ b) = contains_char c a || contains_char c b.
Proof. apply has_char_app. Qed.

Lemma split_on_not_nil c s : split_on c s <> [].
Proof.
  induction s as [|a s IH]; simpl; [done|].
  destruct (split_on c s); [done|]. by destruct (Ascii.eqb a c).
Qed.

Lemma split_on_join c s : str_join (String c "") (split_on c s) = s.
Proof.
  induction s as [|a s IH]; [done|]. simpl.
  pose proof (split_on_not_nil c s) as Hn.
  destruct (split_on c s) as [|h t]; [done|].
  destruct (Ascii.eqb_spec a c) as [->|]; simpl in *; destruct t; simpl in *; by rewrite IH.
Qed.

Lemma split_on_no_sep c s : Forall (fun x => contains_char c x = false) (split_on c s).
Proof.
  induction s as [|a s IH]; simpl; [by repeat constructor|].
  destruct (split_on c s) as [|h t]; [by repeat constructor|].
  apply Forall_cons in IH as [Hh Ht].
  destruct (Ascii.eqb_spec a c) as [->|Hne]; constructor; try done; [by constructor|].
  unfold contains_char in *. simpl. rewrite Hh, orb_false_r.
  apply Ascii.eqb_neq. congruence.
Qed.

Lemma rsplit_once_spec c s :
  match rsplit_once c s with
  | Some (l, r) => s = l +:+ String c r /\ contains_char c r = false
  | None => contains_char c s = false
  end.
Proof.
  induction s as [|a s IH]; simpl; [done|].
  destruct (rsplit_once c s) as [[l r]|].
  - destruct IH as [-> ?]. done.
  - unfold contains_char in *. simpl. destruct (Ascii.eqb_spec a c) as [->|Hne].
    + done.
    + rewrite IH, orb_false_r. apply Ascii.eqb_neq. congruence.
Qed.

Lemma rsplit_once_app c l r :
  contains_char c r = false -> rsplit_once c (l +:+ String c r) = Some (l, r).
Proof.
  intros Hr. induction l as [|a l IH]; simpl.
  - pose proof (rsplit_once_spec c r) as H. destruct (rsplit_once c r) as [[x y]|].
    + destruct H as [-> _]. rewrite contains_char_app in Hr. unfold contains_char in Hr.
      simpl in Hr. rewrite Ascii.eqb_refl, orb_true_r in Hr. done.
    + by rewrite Ascii.eqb_refl.
  - by rewrite IH.
Qed.
