(* ===== verification/Monad.v ===== *)
(** * State with early exits

    Code that threads a state through fallible calls runs in [SM S E]: a
    function from the state to a value or an exception, and the state reached.
    [let!] sequences like an expression followed by [?].  [wp] is the calculus
    the proofs about such code use. *)
From S2P Require Import Prelude.
From stdpp Require Import options.

Definition SM (S E A : Type) : Type := S -> result E A * S.

Section monad.
Context {S E : Type}.

Definition ret {A} (a : A) : SM S E A := fun s => (Ok a, s).
Definition throw {A} (e : E) : SM S E A := fun s => (Err e, s).
Definition bind {A B} (m : SM S E A) (f : A -> SM S E B) : SM S E B :=
  fun s => match m s with
           | (Ok a, s') => f a s'
           | (Err e, s') => (Err e, s')
           end.

(** Read a part of the state, and change it. *)
Definition gets {A} (f : S -> A) : SM S E A := fun s => (Ok (f s), s).
Definition modify (f : S -> S) : SM S E unit := fun s => (Ok tt, f s).
End monad.

Declare Scope monad_scope.
Delimit Scope monad_scope with monad.
Notation "'let!' x := m 'in' k" := (bind m (fun x => k))
  (at level 10, x pattern, m at level 100, k at level 200) : monad_scope.
Notation "m ;; k" := (bind m (fun _ => k)) (at level 100, right associativity) : monad_scope.

(** [wp m Q s]: running [m] from [s] ends in a result and a state that satisfy
    [Q]. *)
Section wp.
Context {S E : Type}.

Definition wp {A} (m : SM S E A) (Q : result E A -> S -> Prop) (s : S) : Prop :=
  Q (fst (m s)) (snd (m s)).

Lemma wp_ret {A} (a : A) (Q : result E A -> S -> Prop) s : Q (Ok a) s -> wp (ret a) Q s.
Proof. done. Qed.

Lemma wp_throw {A} e (Q : result E A -> S -> Prop) s : Q (Err e) s -> wp (throw e) Q s.
Proof. done. Qed.

Lemma wp_gets {A} (f : S -> A) (Q : result E A -> S -> Prop) s : Q (Ok (f s)) s -> wp (gets f) Q s.
Proof. done. Qed.

Lemma wp_modify f (Q : result E unit -> S -> Prop) s : Q (Ok tt) (f s) -> wp (modify f) Q s.
Proof. done. Qed.

Lemma wp_bind {A B} (m : SM S E A) (f : A -> SM S E B) Q s :
  wp m (fun r s' => match r with Ok a => wp (f a) Q s' | Err e => Q (Err e) s' end) s ->
  wp (bind m f) Q s.
Proof. unfold wp, bind. destruct (m s) as [[a|e] s']; done. Qed.

Lemma wp_mono {A} (m : SM S E A) (Q Q' : result E A -> S -> Prop) s :
  wp m Q s -> (forall r s', Q r s' -> Q' r s') -> wp m Q' s.
Proof. unfold wp. auto. Qed.

Lemma wp_and {A} (m : SM S E A) (Q Q' : result E A -> S -> Prop) s :
  wp m Q s -> wp m Q' s -> wp m (fun r s' => Q r s' /\ Q' r s') s.
Proof. by split. Qed.

(** Sequencing with an intermediate condition. *)
Lemma wp_seq {A B} (m : SM S E A) (f : A -> SM S E B) R Q s :
  wp m R s ->
  (forall a s', R (Ok a) s' -> wp (f a) Q s') ->
  (forall e s', R (Err e) s' -> Q (Err e) s') ->
  wp (bind m f) Q s.
Proof.
  intros Hm Hf He. apply wp_bind. eapply wp_mono; [exact Hm|]. intros [a|e] s'; auto.
Qed.
End wp.
