(* ===== verification/Files.v ===== *)
(** * Regular files

    A file tree maps paths to regular files; a path is the list of its
    components.  The bytes of a file are a list of bytes, so prefixes (what a
    resumed copy keeps) and concatenation (what a copy loop builds up) are
    those of lists. *)
From S2P Require Import Prelude.
From S2P Require Import Text.
From Stdlib Require Export Strings.Byte.
From stdpp Require Import options.

Abbreviation bytes := (list byte) (only parsing).
Abbreviation Digest := string (only parsing).

#[export] Instance byte_eq_dec : EqDecision byte := Byte.byte_eq_dec.

Record File := { content : bytes; f_mtime_ms : Z }.
Abbreviation FileTree := (gmap path File) (only parsing).

Definition text (s : string) : bytes := String.list_byte_of_string s.

Lemma text_inj a b : text a = text b -> a = b.
Proof.
  unfold text. intros H. rewrite <- (String.string_of_list_byte_of_string a), H.
  apply String.string_of_list_byte_of_string.
Qed.

(** [metadata(p).len()] *)
Definition file_len (f : File) : Z := Z.of_nat (length (content f)).

(** Bytes land at an offset of an open file. *)
Definition splice (off : nat) (b c : bytes) : bytes := take off c ++ b ++ drop (off + length b) c.

Lemma length_splice off b c : (off + length b <= length c)%nat -> length (splice off b c) = length c.
Proof. intros H. unfold splice. rewrite !length_app, length_take, length_drop. lia. Qed.

Lemma splice_before off b c i : (i < off)%nat -> (off <= length c)%nat -> splice off b c !! i = c !! i.
Proof. intros H Hc. unfold splice. rewrite lookup_app_l by (rewrite length_take; lia). by rewrite lookup_take_lt. Qed.

Lemma splice_inside off b c i : (off <= i < off + length b)%nat -> (off <= length c)%nat -> splice off b c !! i = b !! (i - off)%nat.
Proof.
  intros H Hc. unfold splice. assert (Ht : length (take off c) = off) by (rewrite length_take; lia).
  rewrite lookup_app_r by lia. rewrite Ht, lookup_app_l by lia. done.
Qed.

Lemma splice_after off b c i : (off + length b <= i)%nat -> (off + length b <= length c)%nat -> splice off b c !! i = c !! i.
Proof.
  intros H Hc. unfold splice. assert (Ht : length (take off c) = off) by (rewrite length_take; lia).
  rewrite lookup_app_r by lia. rewrite lookup_app_r by lia. rewrite Ht, lookup_drop. f_equal. lia.
Qed.
