(* ===== verification/Control.v ===== *)
(** * Steering handles ([freally-core/src/control.rs], [freally-sync/src/control.rs])

    Both crates steer a running task through an atomic byte and a [Notify].
    The two [wait_while_paused] loops differ in one point: the copy engine
    arms its waiter before it reads the flag, the sync engine reads the flag
    first.  The model keeps every atomic access a separate step, so the
    interleavings of a waiter with its steering callers are explicit.

    [Notify] is tokio's: a [Notified] future receives every [notify_waiters]
    call made after the future was created, and none made before.  It is
    modelled by counting the calls; a future remembers the count it saw. *)
From S2P Require Import Prelude.
From stdpp Require Import options.
Open Scope Z_scope.

(** ** The shared cell *)

Definition RUNNING : Z := 0.
Definition PAUSED : Z := 1.
Definition CANCELLED : Z := 2.

Record Shared := { flag : Z; wakes : N }.

Definition control_new : Shared := {| flag := RUNNING; wakes := 0 |}.

(** [compare_exchange]: the new cell and whether the exchange happened. *)
Definition compare_exchange (s : Shared) (expected new : Z) : Shared * bool :=
  if flag s =? expected then ({| flag := new; wakes := wakes s |}, true) else (s, false).

Definition notify_waiters (s : Shared) : Shared := {| flag := flag s; wakes := N.succ (wakes s) |}.

(** The atomic halves of the three operations.  [resume] and [cancel] notify
    in a second step; the boolean says whether that step is due. *)
Definition pause_cas (s : Shared) : Shared := fst (compare_exchange s RUNNING PAUSED).
Definition resume_cas (s : Shared) : Shared * bool := compare_exchange s PAUSED RUNNING.
Definition cancel_store (s : Shared) : Shared := {| flag := CANCELLED; wakes := wakes s |}.

(** The operations run without interference. *)
Definition pause (s : Shared) : Shared := pause_cas s.
Definition resume (s : Shared) : Shared :=
  let '(s', due) := resume_cas s in if due then notify_waiters s' else s'.
Definition cancel (s : Shared) : Shared := notify_waiters (cancel_store s).

Definition is_paused (s : Shared) : bool := flag s =? PAUSED.
Definition is_cancelled (s : Shared) : bool := flag s =? CANCELLED.

(** ** The waiters *)

(** Where a waiter stands: about to arm, armed and about to read the flag,
    about to create its future after a read, parked on its future, returned.
    The copy engine's loop goes [Arm], [Armed], [Parked]; the sync engine's
    goes [Read], [Create], [Parked]. *)
Inductive Waiter (R : Type) :=
| Arm
| Armed (seen : N)
| Read
| Create
| Parked (seen : N)
| Returned (r : R).
Arguments Arm {R}. Arguments Armed {R} seen. Arguments Read {R}. Arguments Create {R}.
Arguments Parked {R} seen. Arguments Returned {R} r.

(** [CopyControl::wait_while_paused]; [None]: the waiter cannot move. *)
Definition copy_wait_step (s : Shared) (w : Waiter unit) : option (Waiter unit) :=
  match w with
  | Arm => Some (Armed (wakes s))
  | Armed seen => Some (if negb (flag s =? PAUSED) then Returned tt else Parked seen)
  | Parked seen => if (seen <? wakes s)%N then Some Arm else None
  | _ => None
  end.

Inductive SyncState := SRunning | SPaused | SCancelled.

Definition sync_state_of_u8 (v : Z) : SyncState :=
  if v =? 0 then SRunning else if v =? 1 then SPaused else SCancelled.

Definition u8_of_sync_state (s : SyncState) : Z :=
  match s with SRunning => 0 | SPaused => 1 | SCancelled => 2 end.

Definition sync_state (s : Shared) : SyncState := sync_state_of_u8 (flag s).

(** [SyncControl::wait_while_paused]: [true] for [Ok(())], [false] for
    [Err(Cancelled)]. *)
Definition sync_wait_step (s : Shared) (w : Waiter bool) : option (Waiter bool) :=
  match w with
  | Read =>
      Some match sync_state s with
           | SRunning => Returned true
           | SCancelled => Returned false
           | SPaused => Create
           end
  | Create => Some (Parked (wakes s))
  | Parked seen => if (seen <? wakes s)%N then Some Read else None
  | _ => None
  end.

(** ** Interleavings of one waiter with any number of steering callers *)
Section system.
Context {R : Type} (wait_step : Shared -> Waiter R -> option (Waiter R)).

(** [due]: the callers that changed the flag and have not notified yet. *)
Record Sys := { cell : Shared; due : nat; waiter : Waiter R }.

Inductive step : Sys -> Sys -> Prop :=
| step_pause s n w :
    step {| cell := s; due := n; waiter := w |}
         {| cell := pause_cas s; due := n; waiter := w |}
| step_resume s n w s' :
    resume_cas s = (s', true) ->
    step {| cell := s; due := n; waiter := w |} {| cell := s'; due := S n; waiter := w |}
| step_cancel s n w :
    step {| cell := s; due := n; waiter := w |}
         {| cell := cancel_store s; due := S n; waiter := w |}
| step_notify s n w :
    step {| cell := s; due := S n; waiter := w |}
         {| cell := notify_waiters s; due := n; waiter := w |}
| step_wait s n w w' :
    wait_step s w = Some w' ->
    step {| cell := s; due := n; waiter := w |} {| cell := s; due := n; waiter := w' |}.

Definition reachable (w0 : Waiter R) (x : Sys) : Prop :=
  rtc step {| cell := control_new; due := 0; waiter := w0 |} x.

(** The waiter running alone for at most [k] of its own steps. *)
Fixpoint wait_alone (k : nat) (s : Shared) (w : Waiter R) : Waiter R :=
  match k with
  | O => w
  | S k' => match wait_step s w with Some w' => wait_alone k' s w' | None => w end
  end.
End system.
Arguments Sys R : clear implicits.

(** ** Lemmas *)

Lemma compare_exchange_cases s e n :
  (flag s = e /\ compare_exchange s e n = ({| flag := n; wakes := wakes s |}, true)) \/
  (flag s <> e /\ compare_exchange s e n = (s, false)).
Proof.
  unfold compare_exchange. destruct (Z.eqb_spec (flag s) e); [left | right]; done.
Qed.

Lemma pause_cas_cases s :
  (flag s = RUNNING /\ pause_cas s = {| flag := PAUSED; wakes := wakes s |}) \/ pause_cas s = s.
Proof.
  unfold pause_cas.
  destruct (compare_exchange_cases s RUNNING PAUSED) as [[? ->]|[? ->]]; [left | right]; done.
Qed.

Lemma resume_cas_true s s' :
  resume_cas s = (s', true) -> flag s = PAUSED /\ s' = {| flag := RUNNING; wakes := wakes s |}.
Proof.
  unfold resume_cas.
  destruct (compare_exchange_cases s PAUSED RUNNING) as [[? ->]|[? ->]]; [|done].
  by intros [= <-].
Qed.

(** What holds of every reachable state of the copy engine's waiter: an armed
    waiter has not outrun the counter, and a parked one has a reason. *)
Definition copy_inv (x : Sys unit) : Prop :=
  match waiter x with
  | Armed seen => (seen <= wakes (cell x))%N
  | Parked seen =>
      (seen <= wakes (cell x))%N /\
      (flag (cell x) = PAUSED \/ (seen < wakes (cell x))%N \/ (0 < due x)%nat)
  | Arm | Returned _ => True
  | Read | Create => False
  end.

Lemma copy_inv_step x y : copy_inv x -> step copy_wait_step x y -> copy_inv y.
Proof.
  intros Hinv Hstep. destruct Hstep as [s n w|s n w s' Hr|s n w|s n w|s n w w' Hw];
    unfold copy_inv in *; simpl in *.
  - destruct (pause_cas_cases s) as [[_ ->]| ->]; [|done]. destruct w; simpl in *; intuition lia.
  - apply resume_cas_true in Hr as [_ ->]. destruct w; simpl in *; intuition lia.
  - destruct w; simpl in *; intuition lia.
  - destruct w; simpl in *; intuition lia.
  - destruct w; simpl in *; try done; [injection Hw as <-; simpl; lia | |].
    + injection Hw as <-. destruct (Z.eqb_spec (flag s) PAUSED); simpl; [|done]. auto.
    + destruct (_ <? _)%N; [|done]. by injection Hw as <-.
Qed.

Lemma copy_inv_reachable x : reachable copy_wait_step Arm x -> copy_inv x.
Proof.
  intros H. assert (forall y z, rtc (step copy_wait_step) y z -> copy_inv y -> copy_inv z) as Hrtc.
  { intros y z. induction 1; eauto using copy_inv_step. }
  by apply (Hrtc _ _ H).
Qed.

(** ** Properties *)

(** The copy engine's pause loop loses no wake-up: in every interleaving
    with pause, resume and cancel, a waiter that is parked although the flag
    is not [PAUSED] has a notification that already fired for it or is about
    to; and once the callers are done notifying and the flag is not [PAUSED],
    the waiter returns within four of its own steps. *)
Theorem copy_wait_no_lost_wakeup x :
  reachable copy_wait_step Arm x -> flag (cell x) <> PAUSED ->
  (forall seen, waiter x = Parked seen -> (seen < wakes (cell x))%N \/ (0 < due x)%nat) /\
  (due x = 0%nat -> wait_alone copy_wait_step 4 (cell x) (waiter x) = Returned tt).
Proof.
  intros Hr Hf. apply copy_inv_reachable in Hr. destruct x as [s n w]. unfold copy_inv in Hr.
  simpl in *. apply Z.eqb_neq in Hf as Hfb. split.
  - intros seen ->. intuition.
  - intros ->. destruct w as [|seen| | |seen|[]]; simpl in *; rewrite ?Hfb; try done.
    destruct Hr as [_ [?|[Hlt|?]]]; [done| |lia].
    apply N.ltb_lt in Hlt. rewrite Hlt. simpl. by rewrite Hfb.
Qed.

Lemma copy_wait_no_lost_wakeup_witness :
  let x := {| cell := {| flag := RUNNING; wakes := 1 |}; due := 0; waiter := Parked 0 |} in
  reachable copy_wait_step Arm x /\ wait_alone copy_wait_step 4 (cell x) (waiter x) = Returned tt.
Proof.
  simpl. assert (reachable copy_wait_step Arm
    {| cell := {| flag := RUNNING; wakes := 1 |}; due := 0; waiter := Parked 0 |}) as H.
  { unfold reachable. eapply rtc_l; [apply step_pause|]. simpl.
    eapply rtc_l; [eapply step_wait; reflexivity|].
    eapply rtc_l; [eapply step_wait; reflexivity|].
    eapply rtc_l; [eapply step_resume; reflexivity|].
    eapply rtc_l; [apply step_notify|]. apply rtc_refl. }
  split; [exact H|]. apply (copy_wait_no_lost_wakeup _ H); [discriminate | reflexivity].
Defined.

(** The sync engine's pause loop can lose a wake-up: an interleaving is
    reachable in which the flag is back to running, every caller has
    notified, and the waiter is parked on a future created after the
    notification, so it cannot move however long it is left alone.  A cancel
    instead of the resume is lost in the same way. *)
Theorem sync_wait_lost_wakeup :
  exists x y,
    reachable sync_wait_step Read x /\ sync_state (cell x) = SRunning /\
    reachable sync_wait_step Read y /\ sync_state (cell y) = SCancelled /\
    forall k, wait_alone sync_wait_step k (cell x) (waiter x) = Parked 1 /\ due x = 0%nat /\
              wait_alone sync_wait_step k (cell y) (waiter y) = Parked 1 /\ due y = 0%nat.
Proof.
  exists {| cell := {| flag := RUNNING; wakes := 1 |}; due := 0; waiter := Parked 1 |}.
  exists {| cell := {| flag := CANCELLED; wakes := 1 |}; due := 0; waiter := Parked 1 |}.
  split_and!; try done.
  - unfold reachable. eapply rtc_l; [apply step_pause|]. simpl.
    eapply rtc_l; [eapply step_wait; reflexivity|].
    eapply rtc_l; [eapply step_resume; reflexivity|].
    eapply rtc_l; [apply step_notify|].
    eapply rtc_l; [eapply step_wait; reflexivity|]. apply rtc_refl.
  - unfold reachable. eapply rtc_l; [apply step_pause|]. simpl.
    eapply rtc_l; [eapply step_wait; reflexivity|].
    eapply rtc_l; [apply step_cancel|].
    eapply rtc_l; [apply step_notify|].
    eapply rtc_l; [eapply step_wait; reflexivity|]. apply rtc_refl.
  - intros k. destruct k; done.
Qed.

(** Cancellation is terminal for both handles. *)
Lemma cancel_terminal s :
  is_cancelled s = true -> flag (pause s) = CANCELLED /\ flag (resume s) = CANCELLED.
Proof.
  unfold is_cancelled. intros H%Z.eqb_eq. unfold pause, pause_cas, resume, resume_cas, compare_exchange.
  rewrite H. done.
Qed.

Lemma sync_state_round_trip s : sync_state_of_u8 (u8_of_sync_state s) = s.
Proof. by destruct s. Qed.
