(* ===== verification/Table.v ===== *)
(** * Key-value tables and row codecs

    The crates keep their durable state in [redb] tables whose rows are JSON
    strings written by [serde_json].  Neither library is part of the
    repository: what the crates rely on is stated here as two interfaces, and
    every component that stores rows is written against them.  The instances
    at the end show that the interfaces can be met. *)
From S2P Require Import Prelude.
From stdpp Require Import options.

(** ** A table: [get], [insert], [remove] and iteration in key order

    [le] is the key order of the table ([redb] sorts keys). *)
Class Table (K V T : Type) (le : K -> K -> Prop) `{EqDecision K} := {
  tbl_get : K -> T -> option V;
  tbl_insert : K -> V -> T -> T;
  tbl_remove : K -> T -> T;
  tbl_iter : T -> list (K * V);
  tbl_get_insert : forall k v t k',
    tbl_get k' (tbl_insert k v t) = if decide (k = k') then Some v else tbl_get k' t;
  tbl_get_remove : forall k t k',
    tbl_get k' (tbl_remove k t) = if decide (k = k') then None else tbl_get k' t;
  tbl_iter_get : forall t k v, (k, v) ∈ tbl_iter t <-> tbl_get k t = Some v;
  tbl_iter_nodup : forall t, NoDup (tbl_iter t).*1;
  tbl_iter_sorted : forall t, StronglySorted le (tbl_iter t).*1;
}.
Arguments tbl_get {K V T le _ _} k t.
Arguments tbl_insert {K V T le _ _} k v t.
Arguments tbl_remove {K V T le _ _} k t.
Arguments tbl_iter {K V T le _ _} t.

(** ** A codec: rows are stored encoded and decoding may fail *)
Class Codec (A J : Type) := {
  enc : A -> J;
  dec : J -> option A;
  dec_enc : forall a, dec (enc a) = Some a;
}.

#[export] Instance identity_codec {A} : Codec A A := {| enc := id; dec := Some; dec_enc := fun _ => eq_refl |}.

(** ** Derived laws *)
Section table.
Context {K V T : Type} {le : K -> K -> Prop} `{EqDecision K, !Table K V T le}.

Lemma tbl_get_insert_eq k v (t : T) : tbl_get k (tbl_insert k v t) = Some v.
Proof. rewrite tbl_get_insert. by rewrite decide_True. Qed.

Lemma tbl_get_insert_ne k k' v (t : T) : k <> k' -> tbl_get k' (tbl_insert k v t) = tbl_get k' t.
Proof. intros. rewrite tbl_get_insert. by rewrite decide_False. Qed.

Lemma tbl_get_remove_eq k (t : T) : tbl_get k (tbl_remove k t) = None.
Proof. rewrite tbl_get_remove. by rewrite decide_True. Qed.

Lemma tbl_get_remove_ne k k' (t : T) : k <> k' -> tbl_get k' (tbl_remove k t) = tbl_get k' t.
Proof. intros. rewrite tbl_get_remove. by rewrite decide_False. Qed.
End table.

(** ** Range scans: the rows with keys from [lo] up to, but not including, [hi] *)
Section range.
Context {K V T : Type} {le : K -> K -> Prop} `{!EqDecision K, !Table K V T le, !RelDecision le}.

Definition tbl_range (lo hi : K) (t : T) : list (K * V) :=
  filter (fun kv => le lo kv.1 /\ ~ le hi kv.1) (tbl_iter t).

Lemma elem_of_tbl_range lo hi t k v :
  (k, v) ∈ tbl_range lo hi t <-> le lo k /\ ~ le hi k /\ tbl_get k t = Some v.
Proof using Type. unfold tbl_range. rewrite list_elem_of_filter, tbl_iter_get. simpl. tauto. Qed.

Lemma filter_fst_sublist (P : K * V -> Prop) `{!forall x, Decision (P x)} (l : list (K * V)) :
  (filter P l).*1 `sublist_of` l.*1.
Proof using Type.
  induction l as [|x l IH]; [done|]. rewrite filter_cons.
  case_decide; simpl; by constructor.
Qed.

Lemma tbl_range_sorted lo hi t : StronglySorted le (tbl_range lo hi t).*1.
Proof using Type.
  eapply StronglySorted_sublist; [apply filter_fst_sublist|]. apply tbl_iter_sorted.
Qed.

Lemma tbl_range_nodup lo hi t : NoDup (tbl_range lo hi t).*1.
Proof using Type. eapply sublist_NoDup; [|apply filter_fst_sublist]. apply tbl_iter_nodup. Qed.

(** Removing a list of keys. *)
Definition tbl_remove_all (ks : list K) (t : T) : T := foldl (fun t k => tbl_remove k t) t ks.

Lemma tbl_get_remove_all ks k (t : T) :
  tbl_get k (tbl_remove_all ks t) = if decide (k ∈ ks) then None else tbl_get k t.
Proof using Type.
  unfold tbl_remove_all. revert t. induction ks as [|k' ks IH]; intros t; simpl; [done|].
  rewrite IH. destruct (decide (k ∈ ks)) as [Hin|Hnin].
  - rewrite decide_True; [done|by right].
  - rewrite tbl_get_remove. destruct (decide (k' = k)) as [->|Hne].
    + rewrite decide_True; [done|by left].
    + rewrite decide_False; [done|]. intros [->|?]%elem_of_cons; done.
Qed.
End range.

(** ** The [gmap] instance *)
Section gmap_table.
Context {K V : Type} `{Countable K} (le : K -> K -> Prop).
Context `{!RelDecision le, !Total le, !Transitive le}.

Definition gmap_iter (m : gmap K V) : list (K * V) :=
  omap (fun k => (fun v => (k, v)) <$> m !! k) (merge_sort le (elements (dom m))).

Lemma gmap_iter_elem m k v : (k, v) ∈ gmap_iter m <-> m !! k = Some v.
Proof using Type.
  unfold gmap_iter. rewrite list_elem_of_omap. split.
  - intros (k' & _ & E). destruct (m !! k') as [v'|] eqn:Hk; simpl in E; [|done].
    by injection E as -> ->.
  - intros E. exists k. rewrite E, merge_sort_Permutation, elem_of_elements, elem_of_dom.
    split; [eauto | done].
Qed.

Lemma omap_fst_sublist (m : gmap K V) (l : list K) :
  (omap (fun k => (fun v => (k, v)) <$> m !! k) l).*1 `sublist_of` l.
Proof using Type.
  induction l as [|k l IH]; simpl; [done|].
  destruct (m !! k); simpl; by constructor.
Qed.

Program Definition gmap_table : Table K V (gmap K V) le := {|
  tbl_get k m := m !! k;
  tbl_insert k v m := <[k := v]> m;
  tbl_remove k m := delete k m;
  tbl_iter m := gmap_iter m;
|}.
Next Obligation. intros. apply lookup_insert. Qed.
Next Obligation. intros. apply lookup_delete. Qed.
Next Obligation. intros. apply gmap_iter_elem. Qed.
Next Obligation.
  intros m. eapply sublist_NoDup; [|apply omap_fst_sublist].
  rewrite merge_sort_Permutation. apply NoDup_elements.
Qed.
Next Obligation.
  intros m. eapply (StronglySorted_sublist _ _ (merge_sort le (elements (dom m)))); [apply omap_fst_sublist|].
  by apply StronglySorted_merge_sort.
Qed.
End gmap_table.

#[export] Instance string_table V : Table string V (gmap string V) String.le := gmap_table String.le.
#[export] Instance Z_le_total : Total Z.le.
Proof. intros x y. lia. Qed.

#[export] Instance Z_table V : Table Z V (gmap Z V) Z.le := gmap_table Z.le.

(** Pairs, ordered lexicographically as [redb] orders composite keys. *)
Definition pair_le (a b : Z * Z) : Prop :=
  (a.1 < b.1 \/ (a.1 = b.1 /\ a.2 <= b.2))%Z.

#[export] Instance pair_le_dec : RelDecision pair_le.
Proof. intros a b. unfold pair_le. apply _. Defined.
#[export] Instance pair_le_total : Total pair_le.
Proof. intros a b. unfold pair_le. lia. Qed.
#[export] Instance pair_le_trans : Transitive pair_le.
Proof. intros a b c. unfold pair_le. lia. Qed.

#[export] Instance pair_table V : Table (Z * Z) V (gmap (Z * Z) V) pair_le := gmap_table pair_le.
