(* ===== verification/TextSearch.v ===== *)
(** * Searching and splitting text

    [str::find], [str::rfind], [str::split_inclusive], [str::trim] and
    [str::trim_end_matches] with the lemmas that tell where the first match of
    a pattern lies in a text put together from pieces.

    The second part splits and reads words and numbers as Rust's [str] does. *)
From S2P Require Import Prelude.
From S2P Require Import Text.
From stdpp Require Import options.

(** The text before and after the first occurrence of [p] ([find], sliced). *)
Fixpoint find_once (p s : string) : option (string * string) :=
  match str_strip_prefix p s with
  | Some rest => Some (EmptyString, rest)
  | None =>
      match s with
      | EmptyString => None
      | String a s' => match find_once p s' with Some (l, r) => Some (String a l, r) | None => None end
      end
  end.

(** The text after the first occurrence. *)
Definition find_after (p s : string) : option string := snd <$> find_once p s.

(** The text before and after the last occurrence of [p] ([rfind]). *)
Fixpoint rfind_once (p s : string) : option (string * string) :=
  match s with
  | EmptyString => match str_strip_prefix p s with Some rest => Some (EmptyString, rest) | None => None end
  | String a s' =>
      match rfind_once p s' with
      | Some (l, r) => Some (String a l, r)
      | None => match str_strip_prefix p s with Some rest => Some (EmptyString, rest) | None => None end
      end
  end.

(** [s.split_inclusive(c)] *)
Fixpoint split_inclusive (c : ascii) (s : string) : list string :=
  match s with
  | EmptyString => []
  | String a s' =>
      if Ascii.eqb a c then String a EmptyString :: split_inclusive c s'
      else match split_inclusive c s' with
           | h :: t => String a h :: t
           | [] => [String a EmptyString]
           end
  end.

Definition NL : ascii := ascii_of_N 10.
Definition CR : ascii := ascii_of_N 13.
Definition TAB : ascii := ascii_of_N 9.
Definition QUOTE : ascii := ascii_of_N 34.
Definition BACKSLASH : ascii := ascii_of_N 92.
Definition str1 (c : ascii) : string := String c EmptyString.

(** [s.trim_end_matches(['\r', '\n'])] *)
Fixpoint trim_line_end (s : string) : string :=
  match s with
  | EmptyString => EmptyString
  | String a s' =>
      match trim_line_end s' with
      | EmptyString => if Ascii.eqb a CR || Ascii.eqb a NL then EmptyString else str1 a
      | t => String a t
      end
  end.

(** [s.trim().is_empty()]: only white space in the sense of
    [char::is_whitespace], over UTF-8. *)
Fixpoint is_blank (s : string) : bool :=
  match s with
  | EmptyString => true
  | String a s1 =>
      if ascii_in 9 13 a || ascii_in 32 32 a then is_blank s1
      else match s1 with
           | EmptyString => false
           | String b s2 =>
               if ascii_in 194 194 a && (ascii_in 133 133 b || ascii_in 160 160 b) then is_blank s2
               else match s2 with
                    | EmptyString => false
                    | String c s3 =>
                        if (ascii_in 225 225 a && ascii_in 154 154 b && ascii_in 128 128 c)
                           || (ascii_in 226 226 a && ascii_in 128 128 b
                               && (ascii_in 128 138 c || ascii_in 168 169 c || ascii_in 175 175 c))
                           || (ascii_in 226 226 a && ascii_in 129 129 b && ascii_in 159 159 c)
                           || (ascii_in 227 227 a && ascii_in 128 128 b && ascii_in 128 128 c)
                        then is_blank s3 else false
                    end
           end
  end.

(** A printable ASCII character is not white space. *)
Lemma is_blank_plain a s : ascii_in 33 126 a = true -> is_blank (String a s) = false.
Proof.
  intros Ha. assert (Hn : forall lo hi, (126 < lo)%N -> ascii_in lo hi a = false).
  { intros lo hi Hlo. unfold ascii_in in *. apply andb_true_iff in Ha as [_ H%N.leb_le].
    apply andb_false_iff. left. apply N.leb_gt. lia. }
  assert (Hs : ascii_in 9 13 a || ascii_in 32 32 a = false).
  { unfold ascii_in in *. apply andb_true_iff in Ha as [H%N.leb_le _].
    apply orb_false_iff. split; apply andb_false_iff; right; apply N.leb_gt; lia. }
  cbn [is_blank]. rewrite Hs. destruct s as [|b [|c s]]; [done|by rewrite Hn|].
  by rewrite !Hn.
Qed.

(** ** Pieces *)

Lemma strip_prefix_spec p s r : str_strip_prefix p s = Some r <-> s = p +:+ r.
Proof.
  revert s. induction p as [|a p IH]; intros s; simpl; [split; [by intros [= ->]|by intros ->]|].
  destruct s as [|b s]; [done|]. destruct (Ascii.eqb_spec a b) as [->|Hne].
  - rewrite IH. split; [by intros ->|by intros [= ->]].
  - split; [done|]. by intros [= -> _].
Qed.

Lemma prefix_strip p s : String.prefix p s = match str_strip_prefix p s with Some _ => true | None => false end.
Proof.
  revert s. induction p as [|a p IH]; intros [|b s]; simpl; try done.
  destruct (ascii_dec a b) as [->|Hne]; [by rewrite Ascii.eqb_refl|].
  by rewrite (proj2 (Ascii.eqb_neq a b) Hne).
Qed.

Lemma strip_prefix_contains p s : contains_str p s = false -> str_strip_prefix p s = None.
Proof.
  destruct s; cbn [contains_str]; rewrite prefix_strip; by destruct (str_strip_prefix p _).
Qed.

Lemma contains_tail p a s : contains_str p (String a s) = false -> contains_str p s = false.
Proof. simpl. by intros [_ ?]%orb_false_iff. Qed.

(** [p] reaches over [c] only when [c] is its last character. *)
Lemma strip_prefix_over p q c a b r :
  contains_char c p = false -> contains_str p a = false ->
  str_strip_prefix (p +:+ q) (a +:+ String c b) = Some r -> False.
Proof.
  revert a. induction p as [|x p IH]; intros a Hc Ha H.
  { by destruct a. }
  unfold contains_char in Hc. simpl in Hc. apply orb_false_iff in Hc as [Hx Hc].
  destruct a as [|y a]; simpl in H.
  - destruct (Ascii.eqb_spec x c) as [->|]; [by rewrite Ascii.eqb_refl in Hx|done].
  - destruct (Ascii.eqb_spec x y) as [->|]; [|done].
    destruct (contains_str p a) eqn:Hpa; [|by apply (IH a)].
    apply strip_prefix_spec in H. clear IH.
    assert (Hpre : exists t, a = p +:+ t).
    { clear -H Hc. revert a H. induction p as [|z p IHp]; intros a H; [by exists a|].
      unfold contains_char in Hc. simpl in Hc. apply orb_false_iff in Hc as [Hz Hc].
      destruct a as [|w a]; simpl in H; injection H as Hw H.
      - subst z. by rewrite Ascii.eqb_refl in Hz.
      - subst w. destruct (IHp Hc a H) as [t ->]. by exists t. }
    destruct Hpre as [t ->].
    assert (Hno : str_strip_prefix (String y p) (String y (p +:+ t)) = None) by by apply strip_prefix_contains.
    simpl in Hno. rewrite Ascii.eqb_refl in Hno.
    assert (str_strip_prefix p (p +:+ t) = Some t) by by apply strip_prefix_spec. congruence.
Qed.

(** The first match of [p], possibly followed by the separator itself, is not
    in a piece that does not contain [p]. *)
Lemma find_once_skip p q c a b :
  contains_char c p = false -> contains_str p a = false ->
  find_once (p +:+ q) (a +:+ String c b) =
    match find_once (p +:+ q) (String c b) with Some (l, r) => Some (a +:+ l, r) | None => None end.
Proof.
  intros Hc. induction a as [|x a IH]; intros Ha.
  { change ("" +:+ String c b) with (String c b). by destruct (find_once (p +:+ q) (String c b)) as [[??]|]. }
  change (String x a +:+ String c b) with (String x (a +:+ String c b)).
  remember (String c b) as cb eqn:Ecb. cbn [find_once].
  destruct (str_strip_prefix (p +:+ q) (String x (a +:+ cb))) as [r|] eqn:H; subst cb.
  { exfalso. by apply (strip_prefix_over p q c (String x a) b r). }
  rewrite IH by by eapply contains_tail.
  destruct (find_once (p +:+ q) (String c b)) as [[l r]|]; done.
Qed.

Lemma contains_find p s : contains_str p s = match find_once p s with Some _ => true | None => false end.
Proof.
  induction s as [|a s IH]; cbn [contains_str find_once]; rewrite prefix_strip.
  - by destruct (str_strip_prefix p "").
  - destruct (str_strip_prefix p (String a s)); simpl; [done|]. rewrite IH.
    by destruct (find_once p s) as [[? ?]|].
Qed.

(** A pattern without [c] is found on one side of [c] or the other. *)
Lemma contains_sep p c a b :
  p <> EmptyString -> contains_char c p = false -> contains_str p a = false ->
  contains_str p (a +:+ String c b) = contains_str p b.
Proof.
  intros Hp Hc Ha. rewrite contains_find.
  rewrite <- (str_app_nil_r p) at 1. rewrite find_once_skip by done. rewrite str_app_nil_r.
  rewrite contains_find. cbn [find_once].
  assert (str_strip_prefix p (String c b) = None) as ->.
  { destruct p as [|x p]; [done|]. simpl. destruct (Ascii.eqb_spec x c) as [->|]; [|done].
    unfold contains_char in Hc. simpl in Hc. by rewrite Ascii.eqb_refl in Hc. }
  by destruct (find_once p b) as [[??]|].
Qed.

Lemma find_once_here p s : find_once p (p +:+ s) = Some (EmptyString, s).
Proof.
  assert (H : str_strip_prefix p (p +:+ s) = Some s) by by apply strip_prefix_spec.
  revert H. generalize (p +:+ s). intros [|a t] H; cbn [find_once]; by rewrite H.
Qed.

Lemma find_after_here p s : find_after p (p +:+ s) = Some s.
Proof. unfold find_after. by rewrite find_once_here. Qed.

Lemma find_after_cons p a s : str_strip_prefix p (String a s) = None -> find_after p (String a s) = find_after p s.
Proof. unfold find_after. cbn [find_once]. intros ->. by destruct (find_once p s) as [[??]|]. Qed.

Lemma find_after_sep p q c a b :
  contains_char c p = false -> contains_str p a = false ->
  find_after (p +:+ q) (a +:+ String c b) = find_after (p +:+ q) (String c b).
Proof.
  intros Hc Ha. unfold find_after. rewrite find_once_skip by done.
  by destruct (find_once (p +:+ q) (String c b)) as [[??]|].
Qed.

Lemma contains_app_l p a b : contains_str p (a +:+ b) = false -> contains_str p a = false.
Proof.
  rewrite !contains_find. induction a as [|x a IH]; intros H.
  - destruct (find_once p "") as [[l r]|] eqn:E; [|done]. cbn [find_once] in E.
    destruct (str_strip_prefix p "") as [r'|] eqn:E'; [|done]. apply strip_prefix_spec in E'.
    destruct p; [|done]. change ("" +:+ b) with b in H. by destruct b.
  - change (String x a +:+ b) with (String x (a +:+ b)) in H. cbn [find_once] in *.
    destruct (str_strip_prefix p (String x (a +:+ b))) as [r|] eqn:E; [done|].
    destruct (str_strip_prefix p (String x a)) as [r|] eqn:E'.
    + apply strip_prefix_spec in E'. assert (str_strip_prefix p (String x (a +:+ b)) = Some (r +:+ b)); [|congruence].
      apply strip_prefix_spec. change (String x (a +:+ b)) with (String x a +:+ b). by rewrite E', str_app_assoc.
    + assert (Hs : match find_once p (a +:+ b) with Some _ => true | None => false end = false).
      { by destruct (find_once p (a +:+ b)) as [[??]|]. }
      specialize (IH Hs). by destruct (find_once p a) as [[??]|].
Qed.

(** ** Lines *)

Lemma split_inclusive_line c a s :
  contains_char c a = false -> split_inclusive c (a +:+ String c s) = (a +:+ str1 c) :: split_inclusive c s.
Proof.
  induction a as [|x a IH]; simpl; [by rewrite Ascii.eqb_refl|].
  unfold contains_char in *. simpl. intros [Hx Ha]%orb_false_iff. rewrite (IH Ha).
  assert (Ascii.eqb x c = false) as ->; [|done]. by rewrite Ascii.eqb_sym.
Qed.

Lemma concat_cons h t : String.concat "" (h :: t) = h +:+ String.concat "" t.
Proof. destruct t; simpl; [by rewrite str_app_nil_r|done]. Qed.

Lemma concat_app a b : String.concat "" (a ++ b) = String.concat "" a +:+ String.concat "" b.
Proof.
  induction a as [|x a IH]; [done|]. change ((x :: a) ++ b) with (x :: (a ++ b)).
  by rewrite !concat_cons, IH, str_app_assoc.
Qed.

Lemma split_inclusive_concat c s : String.concat "" (split_inclusive c s) = s.
Proof.
  induction s as [|a s IH]; [done|]. cbn [split_inclusive].
  destruct (Ascii.eqb a c); [by rewrite concat_cons, IH|].
  destruct (split_inclusive c s) as [|h t]; [by rewrite <- IH|].
  rewrite concat_cons in IH |- *. simpl. by rewrite IH.
Qed.

Lemma trim_line_end_nl s x :
  x <> NL -> x <> CR -> trim_line_end (s +:+ str1 x +:+ str1 NL) = s +:+ str1 x.
Proof.
  intros H1 H2. induction s as [|a s IH]; simpl.
  - assert (Ascii.eqb x CR = false) as -> by by apply Ascii.eqb_neq.
    by assert (Ascii.eqb x NL = false) as -> by by apply Ascii.eqb_neq.
  - unfold str1 in *. simpl in IH. rewrite IH. by destruct s.
Qed.

Lemma split_on_app c a b : split_on c (a +:+ String c b) = split_on c a ++ split_on c b.
Proof.
  induction a as [|x a IH]; simpl.
  - pose proof (split_on_not_nil c b). destruct (split_on c b); [done|]. by rewrite Ascii.eqb_refl.
  - rewrite IH. pose proof (split_on_not_nil c a). destruct (split_on c a); [done|]. simpl.
    by destruct (Ascii.eqb x c).
Qed.

Lemma split_on_none c a : contains_char c a = false -> split_on c a = [a].
Proof.
  unfold contains_char. induction a as [|x a IH]; [done|]. cbn [has_char split_on].
  intros [Hx Ha]%orb_false_iff. rewrite (IH Ha), Ascii.eqb_sym. by rewrite Hx.
Qed.

Lemma split_on_contains p c a :
  contains_str p a = false -> Forall (fun x => contains_str p x = false) (split_on c a).
Proof.
  induction a as [|x a IH]; intros Ha; [by repeat constructor|].
  specialize (IH (contains_tail _ _ _ Ha)). cbn [split_on].
  assert (H0 : contains_str p "" = false) by by apply (contains_app_l p "" (String x a)).
  pose proof (split_on_join c a) as Hj. destruct (split_on c a) as [|h t]; [by constructor|].
  apply Forall_cons in IH as [Hh Ht].
  destruct (Ascii.eqb x c).
  - constructor; [done|]. by constructor.
  - constructor; [|done]. subst a. destruct t; [done|].
    by apply (contains_app_l p (String x h) (String c "" +:+ str_join (String c "") (s :: t))).
Qed.

Lemma split_once_app c l r : contains_char c l = false -> split_once c (l +:+ String c r) = Some (l, r).
Proof.
  unfold contains_char. induction l as [|x l IH]; [simpl; by rewrite Ascii.eqb_refl|]. cbn [has_char].
  intros [Hx Hl]%orb_false_iff. simpl. by rewrite Ascii.eqb_sym, Hx, (IH Hl).
Qed.

Lemma str_join_cons sep x y l : str_join sep (x :: y :: l) = x +:+ sep +:+ str_join sep (y :: l).
Proof. done. Qed.

(** * Words and numbers in text

    [split_whitespace], [trim] and the parsers of unsigned integers of Rust's
    standard library. *)

(** The bytes of the white-space character a text starts with, 0 if none. *)
Definition ws_len (s : string) : nat :=
  match s with
  | EmptyString => 0
  | String a s1 =>
      if ascii_in 9 13 a || ascii_in 32 32 a then 1
      else match s1 with
           | EmptyString => 0
           | String b s2 =>
               if ascii_in 194 194 a && (ascii_in 133 133 b || ascii_in 160 160 b) then 2
               else match s2 with
                    | EmptyString => 0
                    | String c _ =>
                        if (ascii_in 225 225 a && ascii_in 154 154 b && ascii_in 128 128 c)
                           || (ascii_in 226 226 a && ascii_in 128 128 b
                               && (ascii_in 128 138 c || ascii_in 168 169 c || ascii_in 175 175 c))
                           || (ascii_in 226 226 a && ascii_in 129 129 b && ascii_in 159 159 c)
                           || (ascii_in 227 227 a && ascii_in 128 128 b && ascii_in 128 128 c)
                        then 3 else 0
                    end
           end
  end%nat.

Definition flush_word (w : string) : list string := if String.eqb w "" then [] else [w].

(** [skip] bytes of a separator are still to be passed over. *)
Fixpoint words (skip : nat) (w s : string) : list string :=
  match s with
  | EmptyString => flush_word w
  | String a s' =>
      match skip with
      | S k => words k w s'
      | O =>
          match ws_len s with
          | O => words O (w +:+ str1 a) s'
          | S k => flush_word w ++ words k "" s'
          end
      end
  end.

(** [s.split_whitespace()] *)
Definition split_whitespace (s : string) : list string := words 0 "" s.

Fixpoint trim_start_from (skip : nat) (s : string) : string :=
  match s with
  | EmptyString => EmptyString
  | String a s' =>
      match skip with
      | S k => trim_start_from k s'
      | O => match ws_len s with O => s | S k => trim_start_from k s' end
      end
  end.

Fixpoint trim_end (s : string) : string :=
  if is_blank s then EmptyString
  else match s with EmptyString => EmptyString | String a s' => String a (trim_end s') end.

(** [s.trim()] *)
Definition trim (s : string) : string := trim_end (trim_start_from 0 s).

(** ** Unsigned integers *)

Fixpoint digits_value (max acc : Z) (s : string) : option Z :=
  match s with
  | EmptyString => Some acc
  | String c s' =>
      if is_digit c then
        let acc := (acc * 10 + (Z.of_N (N_of_ascii c) - 48))%Z in
        if (max <? acc)%Z then None else digits_value max acc s'
      else None
  end.

(** [s.parse::<uN>()]: an optional plus sign, then digits, in range. *)
Definition parse_uint (max : Z) (s : string) : option Z :=
  let digits := match s with String c s' => if Ascii.eqb c "+" then s' else s | EmptyString => s end in
  match digits with EmptyString => None | _ => digits_value max 0 digits end.

Definition U32_MAX : Z := 4294967295.
Definition parse_u32 : string -> option Z := parse_uint U32_MAX.
Definition parse_u64 : string -> option Z := parse_uint U64_MAX.

(** ** Lemmas *)

(** A text of characters that are not white space is one word. *)
Lemma ws_len_plain a s : ascii_in 33 126 a = true -> ws_len (String a s) = 0%nat.
Proof.
  intros Ha. assert (Hn : forall lo hi, (126 < lo)%N -> ascii_in lo hi a = false).
  { intros lo hi Hlo. unfold ascii_in in *. apply andb_true_iff in Ha as [_ H%N.leb_le].
    apply andb_false_iff. left. apply N.leb_gt. lia. }
  assert (Hs : ascii_in 9 13 a || ascii_in 32 32 a = false).
  { unfold ascii_in in *. apply andb_true_iff in Ha as [H%N.leb_le _].
    apply orb_false_iff. split; apply andb_false_iff; right; apply N.leb_gt; lia. }
  unfold ws_len. rewrite Hs. destruct s as [|b [|c s]]; [done|by rewrite Hn|]. by rewrite !Hn.
Qed.

Lemma digits_value_bound max acc s v : (0 <= acc <= max)%Z -> digits_value max acc s = Some v -> (0 <= v <= max)%Z.
Proof.
  revert acc. induction s as [|c s IH]; intros acc Ha; simpl; [by intros [= <-]|].
  destruct (is_digit c) eqn:Hc; [|done]. destruct (Z.ltb_spec max (acc * 10 + (Z.of_N (N_of_ascii c) - 48))); [done|].
  apply IH. split; [|lia]. unfold is_digit, ascii_in in Hc. apply andb_true_iff in Hc as [Hc%N.leb_le _]. lia.
Qed.

Lemma parse_uint_bound max s v : (0 <= max)%Z -> parse_uint max s = Some v -> (0 <= v <= max)%Z.
Proof.
  intros Hm. unfold parse_uint. destruct s as [|c s]; [done|].
  destruct (Ascii.eqb c "+"); [destruct s; [done|]|]; by apply digits_value_bound.
Qed.
