(* ===== verification/CopyTypes.v ===== *)
(** * What the copy engine shares with its collaborators ([freally-core])

    The resume plan and the [JournalSink] trait of [options.rs].  The trait is
    an interface: the engine is verified against its laws and
    [freally-journal] discharges them. *)
From S2P Require Import Prelude.
From S2P Require Import Text.
From S2P Require Import Files.
From stdpp Require Import options.
Open Scope Z_scope.

Inductive CoreResumePlan :=
| CResume (offset : Z) (src_hash_at_offset : Digest)
| CRestart
| CAlreadyComplete (final_hash : Digest).

(** The plan a checkpoint of [bytes] bytes stands for. *)
Definition checkpoint_plan (bytes : Z) (h : Digest) : CoreResumePlan :=
  if bytes =? 0 then CRestart else CResume bytes h.

(** The trait, with what the engine relies on: a sink offers a plan for a file
    only when the engine reported it, now or before the process restarted.
    [js_restart] is a new sink over what is on disk; [js_offers s i p] says
    that the sink may answer [p] for file [i] if nothing more is reported.
    Nothing obliges a sink to offer the latest plan: it may batch, and its
    disk may fail. *)
Class JournalSink (S : Type) := {
  js_checkpoint : S -> Z -> path -> Z -> Z -> Digest -> S;
  js_finish_file : S -> Z -> Digest -> S;
  js_resume_plan : S -> Z -> CoreResumePlan * S;
  js_finish_job_succeeded : S -> S;
  js_finish_job_failed : S -> S;
  js_finish_job_cancelled : S -> S;
  js_restart : S -> S;
  js_offers : S -> Z -> CoreResumePlan -> Prop;
  js_checkpoint_offers : forall s i d b t h i' p,
    js_offers (js_checkpoint s i d b t h) i' p ->
    js_offers s i' p \/ (i' = i /\ p = checkpoint_plan b h);
  js_finish_file_offers : forall s i h i' p,
    js_offers (js_finish_file s i h) i' p ->
    js_offers s i' p \/ (i' = i /\ p = CAlreadyComplete h);
  js_resume_plan_answer : forall s i,
    (js_resume_plan s i).1 = CRestart \/ js_offers s i (js_resume_plan s i).1;
  js_resume_plan_offers : forall s i i' p,
    js_offers (js_resume_plan s i).2 i' p -> js_offers s i' p;
  js_finish_job_offers : forall s i p,
    js_offers (js_finish_job_succeeded s) i p \/ js_offers (js_finish_job_failed s) i p \/
    js_offers (js_finish_job_cancelled s) i p -> js_offers s i p;
  js_restart_offers : forall s i p, js_offers (js_restart s) i p -> js_offers s i p;
}.

(** ** Errors, events and reports ([error.rs], [event.rs]) *)

Inductive CopyErrorKind :=
| NotFound | PermissionDenied | DiskFull | Interrupted | VerifyFailed | PathEscape
| SparsenessMismatch | IoOther.

Record CopyError := { ce_kind : CopyErrorKind; ce_src : path; ce_dst : path }.

(** [CopyError::from_io], given the kind the OS error maps to. *)
Definition from_io (src dst : path) (k : CopyErrorKind) : CopyError :=
  {| ce_kind := k; ce_src := src; ce_dst := dst |}.

Definition copy_cancelled (src dst : path) : CopyError :=
  {| ce_kind := Interrupted; ce_src := src; ce_dst := dst |}.

Definition path_escape (src dst : path) : CopyError :=
  {| ce_kind := PathEscape; ce_src := src; ce_dst := dst |}.

Definition verify_failed (src dst : path) : CopyError :=
  {| ce_kind := VerifyFailed; ce_src := src; ce_dst := dst |}.

Inductive ResumeAbortReason :=
| DstLengthMismatch | DstReadFailed | CompleteHashMismatch | DstShrunk | PrefixHashMismatch
| VerifyIncompatible.

(** The events of a single-file copy; times and rates are left out. *)
Inductive CopyEvent :=
| Started (src dst : path) (total_bytes : Z)
| Progress (bytes total : Z)
| Paused
| Resumed
| Completed (bytes : Z)
| EvFailed (err : CopyError)
| VerifyStarted (algorithm : string) (total_bytes : Z)
| VerifyProgress (bytes total : Z)
| VerifyCompleted (algorithm : string) (src_digest dst_digest : Digest)
| EvVerifyFailed (algorithm : string) (src_digest dst_digest : Digest)
| ResumeAborted (reason : ResumeAbortReason) (offset : Z)
| SparsenessNotSupported.

Record CopyReport := { cr_src : path; cr_dst : path; cr_bytes : Z }.

(** ** Options ([options.rs]) *)

Record Verifier := { v_name : string; v_hash : bytes -> Digest }.

Inductive CopyStrategy := Auto | AlwaysAsync | AlwaysFast | NoReflink | ParallelChunks.

Inductive FastCopyHookOutcome := HookDone (r : CopyReport) | HookNotSupported | HookErr (e : CopyError).

(** The [FastCopyHook] trait: given the tree, the paths and the number of the
    call, the tree it leaves and its answer. *)
Abbreviation FastCopyHook := (FileTree -> path -> path -> nat -> FileTree * FastCopyHookOutcome) (only parsing).

Record CopyOptions := {
  buffer_size : Z;
  fsync_on_close : bool;
  preserve_times : bool;
  preserve_permissions : bool;
  keep_partial : bool;
  fail_if_exists : bool;
  verify : option Verifier;
  fsync_before_verify : bool;
  strategy : CopyStrategy;
  fast_copy_hook : option FastCopyHook;
  journaled : bool;
  journal_file_idx : Z;
  dest_jail_root : option path;
  versioning_enabled : bool;
}.

Definition DEFAULT_BUFFER_SIZE : Z := 1024 * 1024.
Definition MIN_BUFFER_SIZE : Z := 64 * 1024.
Definition MAX_BUFFER_SIZE : Z := 16 * 1024 * 1024.

(** [CopyOptions::default] on the fields above. *)
Definition default_copy_options : CopyOptions :=
  {| buffer_size := DEFAULT_BUFFER_SIZE; fsync_on_close := false; preserve_times := true;
     preserve_permissions := true; keep_partial := false; fail_if_exists := false; verify := None;
     fsync_before_verify := true; strategy := Auto; fast_copy_hook := None; journaled := false;
     journal_file_idx := 0; dest_jail_root := None; versioning_enabled := false |}.

Definition clamp (x lo hi : Z) : Z := Z.min (Z.max x lo) hi.

Definition clamped_buffer_size (o : CopyOptions) : Z :=
  clamp (buffer_size o) MIN_BUFFER_SIZE MAX_BUFFER_SIZE.

Definition HUGE_FILE_THRESHOLD : Z := 4 * 1024 * 1024 * 1024.
Definition HUGE_FILE_BUFFER : Z := 4 * 1024 * 1024.

Definition buffer_size_for_file (o : CopyOptions) (file_size : Z) : Z :=
  let configured := clamped_buffer_size o in
  if file_size =? 0 then MIN_BUFFER_SIZE
  else
    let file_cap := Z.min (sat_add64 file_size (MIN_BUFFER_SIZE - 1)) (Z.max configured MIN_BUFFER_SIZE) in
    let base := Z.max file_cap MIN_BUFFER_SIZE in
    if (HUGE_FILE_THRESHOLD <=? file_size) && (base <? HUGE_FILE_BUFFER)
    then clamp HUGE_FILE_BUFFER MIN_BUFFER_SIZE MAX_BUFFER_SIZE
    else clamp base MIN_BUFFER_SIZE MAX_BUFFER_SIZE.

(** The buffer is never empty and never above the ceiling. *)
Lemma buffer_size_bounds o n :
  MIN_BUFFER_SIZE <= buffer_size_for_file o n <= MAX_BUFFER_SIZE.
Proof.
  unfold buffer_size_for_file, clamp, MIN_BUFFER_SIZE, MAX_BUFFER_SIZE, HUGE_FILE_BUFFER.
  destruct (n =? 0); [lia|]. destruct (_ && _); lia.
Qed.
