(* ===== verification/Journal.v ===== *)
(** * The resume journal ([freally-journal]: [journal.rs], [types.rs])

    Jobs, per-file checkpoints and the id allocator live in three [redb]
    tables.  Every call is one transaction: [redb] commits it whole or not at
    all, and the boolean each operation takes says whether the database
    carried it out ([begin_job] runs two transactions and takes two).

    The second part shows what it guarantees over every run of its
    operations: exact listings, ids that are never reused, statuses that follow
    the calls. *)
From S2P Require Import Prelude.
From S2P Require Import Text.
From S2P Require Import Files.
From S2P Require Import Table.
From stdpp Require Import options.
Open Scope Z_scope.

(** ** Records *)

Inductive JobStatus := JRunning | JPaused | JSucceeded | JFailed | JCancelled.

Definition is_unfinished (s : JobStatus) : bool :=
  match s with JRunning | JPaused => true | _ => false end.

Record JobRecord := {
  kind : string;
  src_root : path;
  dst_root : option path;
  status : JobStatus;
  started_at_ms : Z;
  files_total : Z;
  bytes_total : Z;
  files_done : Z;
  bytes_done : Z;
  remote_backend_name : option string;
}.

Definition job_record_new (kind : string) (src : path) (dst : option path) (now : Z) : JobRecord :=
  {| kind := kind; src_root := src; dst_root := dst; status := JRunning; started_at_ms := now;
     files_total := 0; bytes_total := 0; files_done := 0; bytes_done := 0;
     remote_backend_name := None |}.

Definition with_status (r : JobRecord) (s : JobStatus) : JobRecord :=
  {| kind := kind r; src_root := src_root r; dst_root := dst_root r; status := s;
     started_at_ms := started_at_ms r; files_total := files_total r; bytes_total := bytes_total r;
     files_done := files_done r; bytes_done := bytes_done r;
     remote_backend_name := remote_backend_name r |}.

Definition with_done (r : JobRecord) (files bytes : Z) : JobRecord :=
  {| kind := kind r; src_root := src_root r; dst_root := dst_root r; status := status r;
     started_at_ms := started_at_ms r; files_total := files_total r; bytes_total := bytes_total r;
     files_done := files; bytes_done := bytes; remote_backend_name := remote_backend_name r |}.

Inductive FileStatus := InFlight | Finished | FFailed.

Record FileCheckpoint := {
  file_idx : Z;
  cp_bytes_done : Z;
  expected_total : Z;
  hash_so_far : Digest;
  final_hash : option Digest;
  cp_status : FileStatus;
  last_checkpoint : Z;
  last_checkpoint_at_ms : Z;
  dst_path : path;
}.

Record UnfinishedJob := { row_id : Z; u_record : JobRecord; u_files : list FileCheckpoint }.

Inductive ResumePlan :=
| Resume (offset : Z) (src_hash_at_offset : Digest)
| Restart
| AlreadyComplete (final : Digest).

Inductive JournalError :=
| JNoDataDir | JIo (p : path) | JDatabase | JNotFound (job : Z) | JCodec | JSchema (version : Z).

Definition JOURNAL_SCHEMA_VERSION : Z := 1.
Definition SEQ_KEY_SCHEMA_VERSION : string := "schema-version".
Definition SEQ_KEY_NEXT_ROW_ID : string := "next-row-id".

Section journal.
Context {TJ TF TS J : Type}.
Context {TBJ : Table Z J TJ Z.le} {TBF : Table (Z * Z) J TF pair_le} {TBS : Table string Z TS String.le}.
Context {CJ : Codec JobRecord J} {CF : Codec FileCheckpoint J}.

Record Journal := { t_jobs : TJ; t_files : TF; t_seq : TS }.

Definition with_jobs (t : Journal) (x : TJ) : Journal :=
  {| t_jobs := x; t_files := t_files t; t_seq := t_seq t |}.
Definition with_files (t : Journal) (x : TF) : Journal :=
  {| t_jobs := t_jobs t; t_files := x; t_seq := t_seq t |}.
Definition with_seq (t : Journal) (x : TS) : Journal :=
  {| t_jobs := t_jobs t; t_files := t_files t; t_seq := x |}.

(** A write transaction: the body's effect is kept when the body returns
    [Ok] and the commit goes through; in every other case nothing is. *)
Definition write_txn {A} (ok : bool) (t : Journal)
    (body : result JournalError (A * Journal)) : result JournalError A * Journal :=
  if ok then match body with Ok (a, t') => (Ok a, t') | Err e => (Err e, t) end
  else (Err JDatabase, t).

Definition read_txn {A} (ok : bool) (r : result JournalError A) : result JournalError A :=
  if ok then r else Err JDatabase.

(** [serde_json::from_str(v)?] *)
Definition decode {A} `{!Codec A J} (v : J) : result JournalError A := ok_or (dec v) JCodec.

(** ** Opening *)

Definition open (ok : bool) (t : Journal) : result JournalError unit * Journal :=
  write_txn ok t
    match tbl_get SEQ_KEY_SCHEMA_VERSION (t_seq t) with
    | None => Ok (tt, with_seq t (tbl_insert SEQ_KEY_SCHEMA_VERSION JOURNAL_SCHEMA_VERSION (t_seq t)))
    | Some v => if JOURNAL_SCHEMA_VERSION <? v then Err (JSchema v) else Ok (tt, t)
    end.

(** ** Jobs *)

Definition next_row_id (t : Journal) : Z := default 1 (tbl_get SEQ_KEY_NEXT_ROW_ID (t_seq t)).

Definition allocate_row_id (ok : bool) (t : Journal) : result JournalError Z * Journal :=
  write_txn ok t
    (let next := next_row_id t in
     Ok (next, with_seq t (tbl_insert SEQ_KEY_NEXT_ROW_ID (wrap64 (next + 1)) (t_seq t)))).

Definition begin_job (ok_id ok_row : bool) (t : Journal) (record : JobRecord)
    : result JournalError Z * Journal :=
  let record := with_status record JRunning in
  match allocate_row_id ok_id t with
  | (Ok id, t1) => write_txn ok_row t1 (Ok (id, with_jobs t1 (tbl_insert id (enc record) (t_jobs t1))))
  | (Err e, t1) => (Err e, t1)
  end.

Definition finish_job (ok : bool) (t : Journal) (job : Z) (s : JobStatus)
    : result JournalError unit * Journal :=
  write_txn ok t
    (let? prev := ok_or (tbl_get job (t_jobs t)) (JNotFound job) in
     let? rec := decode prev in
     Ok (tt, with_jobs t (tbl_insert job (enc (with_status rec s)) (t_jobs t)))).

(** ** Checkpoints *)

Definition checkpoint (ok : bool) (now : Z) (t : Journal) (job idx : Z) (dst : path)
    (done total : Z) (hash : Digest) : result JournalError Z * Journal :=
  write_txn ok t
    (let? prev_seq :=
       match tbl_get (job, idx) (t_files t) with
       | Some v => let? prev := decode v in Ok (last_checkpoint prev)
       | None => Ok 0
       end in
     let next_seq := wrap64 (prev_seq + 1) in
     let cp := {| file_idx := idx; cp_bytes_done := done; expected_total := total;
                  hash_so_far := hash; final_hash := None; cp_status := InFlight;
                  last_checkpoint := next_seq; last_checkpoint_at_ms := now; dst_path := dst |} in
     Ok (next_seq, with_files t (tbl_insert (job, idx) (enc cp) (t_files t)))).

Definition finished_checkpoint (cp : FileCheckpoint) (now : Z) (final : Digest) : FileCheckpoint :=
  {| file_idx := file_idx cp; cp_bytes_done := Z.max (expected_total cp) (cp_bytes_done cp);
     expected_total := expected_total cp; hash_so_far := hash_so_far cp;
     final_hash := Some final; cp_status := Finished;
     last_checkpoint := wrap64 (last_checkpoint cp + 1); last_checkpoint_at_ms := now;
     dst_path := dst_path cp |}.

Definition finish_file (ok : bool) (now : Z) (t : Journal) (job idx : Z) (final : Digest)
    : result JournalError unit * Journal :=
  write_txn ok t
    (let? prev := ok_or (tbl_get (job, idx) (t_files t)) (JNotFound job) in
     let? cp := decode prev in
     let bytes_added := sat_sub64 (expected_total cp) (cp_bytes_done cp) in
     let t1 := with_files t (tbl_insert (job, idx) (enc (finished_checkpoint cp now final)) (t_files t)) in
     let? prev_job := ok_or (tbl_get job (t_jobs t1)) (JNotFound job) in
     let? rec := decode prev_job in
     let rec' := with_done rec (sat_add64 (files_done rec) 1)
                   (sat_add64 (bytes_done rec) bytes_added) in
     Ok (tt, with_jobs t1 (tbl_insert job (enc rec') (t_jobs t1)))).

(** ** Queries *)

Definition job_rows (t : Journal) (job : Z) : list ((Z * Z) * J) :=
  tbl_range (job, 0) (wrap64 (job + 1), 0) (t_files t).

(** Rows that do not decode are left out here ([.ok()]). *)
Definition job_files (t : Journal) (job : Z) : list FileCheckpoint :=
  omap (fun kv => dec kv.2) (job_rows t job).

Fixpoint unfinished_loop (t : Journal) (rows : list (Z * J))
    : result JournalError (list UnfinishedJob) :=
  match rows with
  | [] => Ok []
  | (k, v) :: rest =>
      let? rec := decode (A := JobRecord) v in
      if negb (is_unfinished (status rec)) then unfinished_loop t rest
      else
        let? out := unfinished_loop t rest in
        Ok ({| row_id := k; u_record := rec; u_files := job_files t k |} :: out)
  end.

Definition unfinished (ok : bool) (t : Journal) : result JournalError (list UnfinishedJob) :=
  read_txn ok (unfinished_loop t (tbl_iter (t_jobs t))).

Definition resume_plan (ok : bool) (t : Journal) (job idx : Z) : result JournalError ResumePlan :=
  read_txn ok
    match tbl_get (job, idx) (t_files t) with
    | None => Ok Restart
    | Some v =>
        let? cp := decode v in
        match final_hash cp with
        | Some h => Ok (AlreadyComplete h)
        | None =>
            if cp_bytes_done cp =? 0 then Ok Restart
            else Ok (Resume (cp_bytes_done cp) (hash_so_far cp))
        end
    end.

Definition job (ok : bool) (t : Journal) (id : Z) : result JournalError JobRecord :=
  read_txn ok (let? v := ok_or (tbl_get id (t_jobs t)) (JNotFound id) in decode v).

Definition by_idx (a b : FileCheckpoint) : bool := file_idx a <=? file_idx b.

Definition files (ok : bool) (t : Journal) (id : Z) : result JournalError (list FileCheckpoint) :=
  read_txn ok (Ok (sort_by by_idx (job_files t id))).

Definition delete_job (ok : bool) (t : Journal) (id : Z) : result JournalError unit * Journal :=
  write_txn ok t
    (let t1 := with_jobs t (tbl_remove id (t_jobs t)) in
     Ok (tt, with_files t1 (tbl_remove_all (job_rows t1 id).*1 (t_files t1)))).

(** ** Well-formed journals: what every operation preserves *)

Definition job_view (t : Journal) (id : Z) : option JobRecord := tbl_get id (t_jobs t) ≫= dec.
Definition file_view (t : Journal) (job idx : Z) : option FileCheckpoint :=
  tbl_get (job, idx) (t_files t) ≫= dec.

Record journal_wf (t : Journal) : Prop := {
  wf_jobs : forall id v, tbl_get id (t_jobs t) = Some v ->
    1 <= id < next_row_id t /\ is_Some (dec (A := JobRecord) v);
  wf_files : forall job idx v, tbl_get (job, idx) (t_files t) = Some v ->
    is_u64 idx /\ exists cp, dec v = Some cp /\ file_idx cp = idx;
  wf_next : 1 <= next_row_id t <= U64_MAX;
}.

(** The calls of the public interface, with what the database did to them. *)
Inductive JournalOp :=
| OpOpen (ok : bool)
| OpBegin (ok_id ok_row : bool) (r : JobRecord)
| OpCheckpoint (ok : bool) (now job idx : Z) (dst : path) (done total : Z) (h : Digest)
| OpFinishFile (ok : bool) (now job idx : Z) (h : Digest)
| OpFinishJob (ok : bool) (job : Z) (s : JobStatus)
| OpDelete (ok : bool) (job : Z).

Definition apply_op (t : Journal) (o : JournalOp) : Journal :=
  match o with
  | OpOpen ok => (open ok t).2
  | OpBegin a b r => (begin_job a b t r).2
  | OpCheckpoint ok now j i dst d n h => (checkpoint ok now t j i dst d n h).2
  | OpFinishFile ok now j i h => (finish_file ok now t j i h).2
  | OpFinishJob ok j s => (finish_job ok t j s).2
  | OpDelete ok j => (delete_job ok t j).2
  end.

Definition op_in_range (o : JournalOp) : Prop :=
  match o with OpCheckpoint _ _ _ i _ _ _ _ => is_u64 i | _ => True end.

(** *** Transactions *)

Lemma write_txn_cases {A} ok t (body : result JournalError (A * Journal)) :
  (exists a t', body = Ok (a, t') /\ ok = true /\ write_txn ok t body = (Ok a, t')) \/
  exists e, write_txn ok t body = (Err e, t).
Proof using Type.
  destruct ok; simpl; [|eauto]. destruct body as [[a t']|e]; [left; eauto 10|eauto].
Qed.

Lemma next_row_id_insert t v :
  next_row_id (with_seq t (tbl_insert SEQ_KEY_NEXT_ROW_ID v (t_seq t))) = v.
Proof using Type. unfold next_row_id. simpl. by rewrite tbl_get_insert_eq. Qed.

Lemma next_row_id_other t k v :
  k <> SEQ_KEY_NEXT_ROW_ID ->
  next_row_id (with_seq t (tbl_insert k v (t_seq t))) = next_row_id t.
Proof using Type. intros H. unfold next_row_id. simpl. by rewrite tbl_get_insert_ne. Qed.

(** *** What each operation does to the two tables *)

Lemma allocate_row_id_spec ok t :
  next_row_id t < U64_MAX -> 1 <= next_row_id t ->
  (exists t', allocate_row_id ok t = (Ok (next_row_id t), t') /\
     next_row_id t' = next_row_id t + 1 /\ t_jobs t' = t_jobs t /\ t_files t' = t_files t) \/
  exists e, allocate_row_id ok t = (Err e, t).
Proof using Type.
  intros H1 H2. unfold allocate_row_id. destruct ok; simpl; [left|eauto].
  eexists. split; [done|]. rewrite next_row_id_insert, wrap64_id; [done|].
  unfold is_u64. lia.
Qed.

(** A job that begins gets the next id, whatever the database does; the id
    counts as used even when its row could not be written. *)
Lemma begin_job_cases a b t r :
  next_row_id t < U64_MAX -> 1 <= next_row_id t ->
  (exists t', begin_job a b t r = (Ok (next_row_id t), t') /\
     next_row_id t' = next_row_id t + 1 /\ t_files t' = t_files t /\
     t_jobs t' = tbl_insert (next_row_id t) (enc (with_status r JRunning)) (t_jobs t)) \/
  exists e t', begin_job a b t r = (Err e, t') /\ t_jobs t' = t_jobs t /\ t_files t' = t_files t /\
     next_row_id t <= next_row_id t' <= next_row_id t + 1.
Proof using Type.
  intros H1 H2. unfold begin_job.
  destruct (allocate_row_id_spec a t H1 H2) as [(t1 & -> & Hn & Hj & Hf)|[e ->]].
  - destruct b; simpl.
    + left. eexists. split; [done|]. unfold next_row_id in *. simpl. by rewrite Hj.
    + right. eexists _, t1. split_and!; [done..|lia|lia].
  - right. eexists _, t. split_and!; [done..|lia|lia].
Qed.

Lemma finish_job_cases ok t j s :
  (exists r, job_view t j = Some r /\
     finish_job ok t j s = (Ok tt, with_jobs t (tbl_insert j (enc (with_status r s)) (t_jobs t)))) \/
  exists e, finish_job ok t j s = (Err e, t).
Proof using Type.
  unfold finish_job, job_view, decode.
  destruct (tbl_get j (t_jobs t)) as [v|]; [|destruct ok; simpl; eauto].
  destruct (dec (A := JobRecord) v) as [r|] eqn:Hd; destruct ok; simpl; rewrite ?Hd; simpl; eauto.
Qed.

Lemma checkpoint_cases ok now t j i dst d n h :
  (exists s, let cp := {| file_idx := i; cp_bytes_done := d; expected_total := n; hash_so_far := h;
                final_hash := None; cp_status := InFlight; last_checkpoint := s;
                last_checkpoint_at_ms := now; dst_path := dst |} in
     s = wrap64 (default 0 (last_checkpoint <$> file_view t j i) + 1) /\
     checkpoint ok now t j i dst d n h
       = (Ok s, with_files t (tbl_insert (j, i) (enc cp) (t_files t)))) \/
  exists e, checkpoint ok now t j i dst d n h = (Err e, t).
Proof using Type.
  unfold checkpoint, file_view, decode.
  destruct (tbl_get (j, i) (t_files t)) as [v|]; [|destruct ok; simpl; eauto].
  destruct (dec (A := FileCheckpoint) v) as [cp|] eqn:Hd; destruct ok; simpl; rewrite ?Hd; simpl; eauto.
Qed.

Lemma finish_file_cases ok now t j i h :
  (exists cp r, file_view t j i = Some cp /\ job_view t j = Some r /\
     let r' := with_done r (sat_add64 (files_done r) 1)
                 (sat_add64 (bytes_done r) (sat_sub64 (expected_total cp) (cp_bytes_done cp))) in
     finish_file ok now t j i h
       = (Ok tt, with_jobs (with_files t (tbl_insert (j, i) (enc (finished_checkpoint cp now h)) (t_files t)))
                   (tbl_insert j (enc r') (t_jobs t)))) \/
  exists e, finish_file ok now t j i h = (Err e, t).
Proof using Type.
  unfold finish_file, file_view, job_view, decode.
  destruct (tbl_get (j, i) (t_files t)) as [v|]; [|destruct ok; simpl; eauto].
  destruct (dec (A := FileCheckpoint) v) as [cp|] eqn:Hd; [|destruct ok; simpl; rewrite ?Hd; eauto].
  destruct (tbl_get j (t_jobs t)) as [w|] eqn:Hj;
    [|destruct ok; simpl; rewrite ?Hd; simpl; rewrite ?Hj; eauto].
  destruct (dec (A := JobRecord) w) as [r|] eqn:Hr; destruct ok; simpl; rewrite ?Hd; simpl;
    rewrite ?Hj; simpl; rewrite ?Hr; simpl; eauto 10.
Qed.
End journal.
Arguments Journal : clear implicits.
Arguments JournalOp : clear implicits.

(** * What the resume journal guarantees

    Ids are never reused, a scan over a job's files finds that job's files and
    no others, and [unfinished] lists exactly the jobs that were begun, not
    deleted, and last left running or paused. *)

Section journal.
Context {TJ TF TS J : Type}.
Context {TBJ : Table Z J TJ Z.le} {TBF : Table (Z * Z) J TF pair_le} {TBS : Table string Z TS String.le}.
Context {CJ : Codec JobRecord J} {CF : Codec FileCheckpoint J}.
#[local] Abbreviation journal := (Journal TJ TF TS).
#[local] Abbreviation wf := (journal_wf (CJ := CJ) (CF := CF)).

(** ** The rows of one job *)

Lemma elem_of_job_rows (t : journal) job a b v :
  wf t -> is_u64 job -> job < U64_MAX ->
  ((a, b), v) ∈ job_rows t job <-> a = job /\ tbl_get (a, b) (t_files t) = Some v.
Proof using Type.
  intros Hwf Hu Hj. unfold job_rows. rewrite elem_of_tbl_range, wrap64_id by (unfold is_u64 in *; lia).
  unfold pair_le. simpl. split.
  - intros (H1 & H2 & Hv). split; [|done].
    destruct (wf_files t Hwf _ _ _ Hv) as [[Hb _] _]. lia.
  - intros [-> Hv]. destruct (wf_files t Hwf _ _ _ Hv) as [[Hb _] _]. split_and!; [lia|lia|done].
Qed.

Lemma elem_of_job_files (t : journal) job cp :
  wf t -> is_u64 job -> job < U64_MAX ->
  cp ∈ job_files t job <-> file_view t job (file_idx cp) = Some cp.
Proof using Type.
  intros Hwf Hu Hj. unfold job_files. rewrite list_elem_of_omap. unfold file_view. split.
  - intros ([[a b] v] & Hin & Hd). simpl in Hd. apply elem_of_job_rows in Hin as [-> Hv]; [|done..].
    destruct (wf_files t Hwf _ _ _ Hv) as (_ & cp' & Hd' & <-).
    assert (cp' = cp) as -> by congruence. by rewrite Hv.
  - intros (v & Hv & Hd)%bind_Some. exists ((job, file_idx cp), v). split; [|done].
    by apply elem_of_job_rows.
Qed.

(** The files of a job come in the order of their indices. *)
Lemma job_files_sorted (t : journal) job :
  wf t -> is_u64 job -> job < U64_MAX -> StronglySorted Z.lt (file_idx <$> job_files t job).
Proof using Type.
  intros Hwf Hu Hj. unfold job_files.
  assert (forall kv, kv ∈ job_rows t job -> kv.1.1 = job /\
            exists cp, dec kv.2 = Some cp /\ file_idx cp = kv.1.2) as Hrow.
  { intros [[a b] v] [-> Hv]%elem_of_job_rows; [|done..]. split; [done|].
    by destruct (wf_files t Hwf _ _ _ Hv) as (_ & ?). }
  pose proof (tbl_range_sorted (job, 0) (wrap64 (job + 1), 0) (t_files t)) as Hs.
  pose proof (tbl_range_nodup (job, 0) (wrap64 (job + 1), 0) (t_files t)) as Hnd.
  fold (job_rows t job) in *. induction (job_rows t job) as [|kv rows IH]; [constructor|].
  apply NoDup_cons in Hnd as [Hni Hnd]. inversion Hs as [|? ? Hs' Hall]; subst.
  destruct (Hrow kv) as (Hk & cp & Hd & Hi); [left|]. simpl. rewrite Hd. simpl.
  assert (forall kv', kv' ∈ rows -> kv'.1.1 = job /\
            exists cp, dec kv'.2 = Some cp /\ file_idx cp = kv'.1.2) as Hrow'.
  { intros kv' ?. apply Hrow. by right. }
  constructor; [by apply IH|]. apply Forall_forall. intros i (cp' & -> & Hin)%list_elem_of_fmap.
  apply list_elem_of_omap in Hin as (kv' & Hin & Hd').
  destruct (Hrow' kv' Hin) as (Hk' & cp'' & Hd'' & Hi'). assert (cp'' = cp') as -> by congruence.
  rewrite Hi, Hi'. rewrite Forall_forall in Hall.
  specialize (Hall kv'.1 (list_elem_of_fmap_2 fst _ _ Hin)).
  assert (kv.1 <> kv'.1) as Hne.
  { intros E. apply Hni. rewrite E. by apply list_elem_of_fmap_2. }
  destruct kv as [[a b] v], kv' as [[a' b'] v']. simpl in *. unfold pair_le in Hall. simpl in Hall.
  destruct Hall as [?|[_ ?]]; [lia|]. assert (b <> b') by congruence. lia.
Qed.

Lemma delete_job_cases ok (t : journal) j :
  (exists t', delete_job ok t j = (Ok tt, t') /\ t_seq t' = t_seq t /\
     t_jobs t' = tbl_remove j (t_jobs t) /\
     t_files t' = tbl_remove_all (job_rows t j).*1 (t_files t)) \/
  exists e, delete_job ok t j = (Err e, t).
Proof using Type. unfold delete_job. destruct ok; simpl; eauto 10. Qed.

(** ** The invariant *)

Lemma wf_put_job (t : journal) id (r : JobRecord) :
  wf t -> 1 <= id < next_row_id t -> wf (with_jobs t (tbl_insert id (enc r) (t_jobs t))).
Proof using Type.
  intros [H1 H2 H3] Hid. split; [|done|done]. intros k v. simpl. rewrite tbl_get_insert.
  case_decide as E; [|apply H1]. intros [= <-]. subst. split; [done|]. rewrite dec_enc. eauto.
Qed.

Lemma wf_put_file (t : journal) job (cp : FileCheckpoint) :
  wf t -> is_u64 (file_idx cp) ->
  wf (with_files t (tbl_insert (job, file_idx cp) (enc cp) (t_files t))).
Proof using Type.
  intros [H1 H2 H3] Hi. split; [done| |done]. intros j i v. simpl. rewrite tbl_get_insert.
  case_decide as E; [|apply H2]. intros [= <-]. simplify_eq. split; [done|].
  exists cp. split; [apply dec_enc|done].
Qed.

Lemma wf_job_id (t : journal) j r : wf t -> job_view t j = Some r -> 1 <= j < next_row_id t.
Proof using Type. intros Hwf (v & Hv & _)%bind_Some. by destruct (wf_jobs t Hwf j v Hv). Qed.

Lemma file_view_idx (t : journal) j i cp : wf t -> file_view t j i = Some cp -> file_idx cp = i /\ is_u64 i.
Proof using Type.
  intros Hwf (v & Hv & Hd)%bind_Some. destruct (wf_files t Hwf j i v Hv) as (Hu & cp' & Hd' & Hi).
  split; [congruence|done].
Qed.

Lemma apply_op_next (t : journal) o :
  wf t -> next_row_id t < U64_MAX ->
  next_row_id t <= next_row_id (apply_op t o) <= next_row_id t + 1.
Proof using Type.
  intros Hwf Hn. pose proof (wf_next t Hwf) as H1. destruct o as [ok|ok_id ok_row r|ok now job idx dst don total h|ok now job idx h|ok job s|ok job]; simpl.
  - unfold open, write_txn. destruct ok; simpl; [|lia].
    destruct (tbl_get SEQ_KEY_SCHEMA_VERSION (t_seq t)); [destruct (_ <? _); simpl; lia|].
    simpl. rewrite next_row_id_other by done. lia.
  - destruct (begin_job_cases ok_id ok_row t r) as [(t' & -> & ? & _)|(e & t' & -> & _ & _ & ?)];
      simpl; lia.
  - destruct (checkpoint_cases ok now t job idx dst don total h) as [(s & _ & ->)|[e ->]];
      unfold next_row_id; simpl; lia.
  - destruct (finish_file_cases ok now t job idx h) as [(cp & r & _ & _ & ->)|[e ->]];
      unfold next_row_id; simpl; lia.
  - destruct (finish_job_cases ok t job s) as [(r & _ & ->)|[e ->]]; unfold next_row_id; simpl; lia.
  - destruct (delete_job_cases ok t job) as [(t' & -> & E & _)|[e ->]]; unfold next_row_id; simpl;
      rewrite ?E; lia.
Qed.

Lemma wf_grow (t t' : journal) :
  wf t -> t_jobs t' = t_jobs t -> t_files t' = t_files t ->
  next_row_id t <= next_row_id t' <= U64_MAX -> wf t'.
Proof using Type.
  intros [H1 H2 H3] Ej Ef Hn. split; rewrite ?Ej, ?Ef; [|done|lia].
  intros id v Hv. destruct (H1 id v Hv). split; [lia|done].
Qed.

Lemma apply_op_wf (t : journal) o :
  wf t -> op_in_range o -> next_row_id t < U64_MAX -> wf (apply_op t o).
Proof using Type.
  intros Hwf Hr Hn. pose proof (wf_next t Hwf) as H1. pose proof (apply_op_next t o Hwf Hn) as Hnext.
  destruct o as [ok|ok_id ok_row r|ok now job idx dst don total h|ok now job idx h|ok job s|ok job]; simpl in *.
  - unfold open, write_txn in *. destruct ok; simpl in *; [|done].
    destruct (tbl_get SEQ_KEY_SCHEMA_VERSION (t_seq t)); simpl in *; [by destruct (_ <? _)|].
    eapply wf_grow; [done..|lia].
  - destruct (begin_job_cases ok_id ok_row t r) as [(t' & E & Hn' & Ef & Ej)|(e & t' & E & Ej & Ef & ?)];
      [lia|lia| |]; rewrite E; simpl.
    + assert (wf {| t_jobs := t_jobs t; t_files := t_files t; t_seq := t_seq t' |}) as Hwf1.
      { eapply wf_grow; [done..|]. unfold next_row_id in *. simpl. lia. }
      assert (t' = with_jobs {| t_jobs := t_jobs t; t_files := t_files t; t_seq := t_seq t' |}
                     (tbl_insert (next_row_id t) (enc (with_status r JRunning)) (t_jobs t))) as ->.
      { destruct t'; simpl in *. by subst. }
      apply (wf_put_job {| t_jobs := t_jobs t |}); [done|]. unfold next_row_id in *. simpl in *. lia.
    + eapply wf_grow; [done..|lia].
  - destruct (checkpoint_cases ok now t job idx dst don total h) as [(s & _ & ->)|[e ->]]; [|done].
    by apply (wf_put_file t job {| file_idx := idx |}).
  - destruct (finish_file_cases ok now t job idx h) as [(cp & r & Hcp & Hjob & ->)|[e ->]]; [|done].
    destruct (file_view_idx t job idx cp Hwf Hcp) as [<- Hu].
    apply (wf_put_job (with_files t _)); [by apply (wf_put_file t job (finished_checkpoint cp now h))|].
    pose proof (wf_job_id t job r Hwf Hjob). unfold next_row_id in *. simpl. done.
  - destruct (finish_job_cases ok t job s) as [(r & Hjob & ->)|[e ->]]; [|done].
    apply wf_put_job; [done|]. by eapply wf_job_id.
  - destruct (delete_job_cases ok t job) as [(t' & -> & Es & Ej & Ef)|[e ->]]; [|done]. simpl.
    assert (next_row_id t' = next_row_id t) as En by (unfold next_row_id; by rewrite Es).
    destruct Hwf as [W1 W2 W3]. split; rewrite ?En, ?Ej, ?Ef; [| |done].
    + intros id v. rewrite tbl_get_remove. case_decide; [done|]. apply W1.
    + intros j i v. rewrite tbl_get_remove_all. case_decide; [done|]. apply W2.
Qed.

(** ** Runs *)

Definition run (t : journal) (ops : list JournalOp) : journal := foldl apply_op t ops.

(** The ids [begin_job] handed out during a run. *)
Fixpoint begun (t : journal) (ops : list JournalOp) : list Z :=
  match ops with
  | [] => []
  | o :: rest =>
      match o with
      | OpBegin a b r => match (begin_job a b t r).1 with Ok id => [id] | Err _ => [] end
      | _ => []
      end ++ begun (apply_op t o) rest
  end.

(** What a run did to the status of the jobs, read off the results alone. *)
Definition spec_step (m : gmap Z JobStatus) (t : journal) (o : JournalOp) : gmap Z JobStatus :=
  match o with
  | OpBegin a b r => match (begin_job a b t r).1 with Ok id => <[id := JRunning]> m | Err _ => m end
  | OpFinishJob ok j s => match (finish_job ok t j s).1 with Ok _ => <[j := s]> m | Err _ => m end
  | OpDelete ok j => match (delete_job ok t j).1 with Ok _ => delete j m | Err _ => m end
  | _ => m
  end.

Fixpoint spec_run (m : gmap Z JobStatus) (t : journal) (ops : list JournalOp) : gmap Z JobStatus :=
  match ops with
  | [] => m
  | o :: rest => spec_run (spec_step m t o) (apply_op t o) rest
  end.

Definition blank (t : journal) : Prop :=
  (forall id, tbl_get id (t_jobs t) = None) /\ (forall k, tbl_get k (t_files t) = None) /\
  tbl_get SEQ_KEY_NEXT_ROW_ID (t_seq t) = None.

Lemma blank_wf (t : journal) : blank t -> wf t.
Proof using Type.
  intros (Hj & Hf & Hs). split.
  - intros id v. by rewrite Hj.
  - intros j i v. by rewrite Hf.
  - unfold next_row_id. rewrite Hs. unfold U64_MAX. simpl. lia.
Qed.

Definition runnable (t : journal) (ops : list JournalOp) : Prop :=
  Forall op_in_range ops /\ next_row_id t + Z.of_nat (length ops) <= U64_MAX.

Lemma runnable_cons (t : journal) o ops :
  wf t -> runnable t (o :: ops) ->
  wf (apply_op t o) /\ runnable (apply_op t o) ops /\ next_row_id t < U64_MAX.
Proof using Type.
  intros Hwf [[Ho Hops]%Forall_cons Hn]. cbn [length] in Hn.
  assert (next_row_id t < U64_MAX) as Hlt by lia.
  pose proof (apply_op_next t o Hwf Hlt). split_and!; [by apply apply_op_wf| |done].
  split; [done|lia].
Qed.

Lemma begun_bounds ops : forall (t : journal), wf t -> runnable t ops ->
  StronglySorted Z.lt (begun t ops) /\ Forall (fun id => next_row_id t <= id) (begun t ops).
Proof using Type.
  induction ops as [|o ops IH]; intros t Hwf Hrun; cbn [begun]; [by repeat constructor|].
  destruct (runnable_cons t o ops Hwf Hrun) as (Hwf' & Hrun' & Hlt).
  destruct (IH _ Hwf' Hrun') as [IH1 IH2]. pose proof (apply_op_next t o Hwf Hlt) as [Hn1 Hn2].
  assert (Forall (fun id => next_row_id t <= id) (begun (apply_op t o) ops)) as Hge.
  { eapply Forall_impl; [exact IH2|]. intros id. simpl. lia. }
  destruct o as [ok|ok_id ok_row r|ok now job idx dst don total h|ok now job idx h|ok job s|ok job]; cbn [app]; try done. pose proof (wf_next t Hwf) as H1.
  destruct (begin_job_cases ok_id ok_row t r) as [(t' & E & Hn' & _)|(e & t' & E & _)]; [lia|lia| |];
    cbn [apply_op] in *; rewrite E in *; simpl in *; [|done].
  split; constructor; [done| |lia|done].
  eapply Forall_impl; [exact IH2|]. intros id. simpl. lia.
Qed.

(** The rows of the job table and the statuses of the specification agree. *)
Definition tracks (m : gmap Z JobStatus) (t : journal) : Prop :=
  forall id, status <$> job_view t id = m !! id.

Lemma job_view_put (t : journal) id (r : JobRecord) id' :
  job_view (with_jobs t (tbl_insert id (enc r) (t_jobs t))) id'
  = if decide (id = id') then Some r else job_view t id'.
Proof using Type.
  unfold job_view. simpl. rewrite tbl_get_insert. case_decide; [apply dec_enc|done].
Qed.

Lemma tracks_put m (t : journal) id (r : JobRecord) :
  tracks m t -> tracks (<[id := status r]> m) (with_jobs t (tbl_insert id (enc r) (t_jobs t))).
Proof using Type.
  intros H id'. rewrite job_view_put, lookup_insert. case_decide; [done|]. apply H.
Qed.

Lemma tracks_same m (t t' : journal) : t_jobs t' = t_jobs t -> tracks m t -> tracks m t'.
Proof using Type. intros E H id. unfold job_view. rewrite E. apply H. Qed.

Lemma tracks_step m (t : journal) o :
  wf t -> next_row_id t < U64_MAX -> tracks m t -> tracks (spec_step m t o) (apply_op t o).
Proof using Type.
  intros Hwf Hlt Ht. pose proof (wf_next t Hwf) as H1. destruct o as [ok|ok_id ok_row r|ok now job idx dst don total h|ok now job idx h|ok job s|ok job]; simpl.
  - unfold open, write_txn. destruct ok; simpl; [|done].
    destruct (tbl_get SEQ_KEY_SCHEMA_VERSION (t_seq t)); [by destruct (_ <? _)|done].
  - destruct (begin_job_cases ok_id ok_row t r) as [(t' & E & _ & _ & Ej)|(e & t' & E & Ej & _)];
      [lia|lia| |]; rewrite E; simpl; [|by eapply tracks_same].
    eapply (tracks_same _ (with_jobs t _)); [by rewrite Ej|].
    by apply (tracks_put m t _ (with_status r JRunning)).
  - destruct (checkpoint_cases ok now t job idx dst don total h) as [(s & _ & ->)|[e ->]]; done.
  - destruct (finish_file_cases ok now t job idx h) as [(cp & r & _ & Hr & ->)|[e ->]]; [|done].
    intros id. rewrite <- Ht. unfold job_view in *. simpl. rewrite tbl_get_insert.
    case_decide; [|done]. subst. rewrite Hr. simpl. by rewrite dec_enc.
  - destruct (finish_job_cases ok t job s) as [(r & Hr & ->)|[e ->]]; [|done].
    by apply (tracks_put m t job (with_status r s)).
  - destruct (delete_job_cases ok t job) as [(t' & -> & _ & Ej & _)|[e ->]]; [|done]. simpl.
    intros id. unfold job_view. rewrite Ej, tbl_get_remove, lookup_delete.
    case_decide; [done|]. apply Ht.
Qed.

Lemma spec_run_tracks ops : forall m (t : journal), wf t -> runnable t ops -> tracks m t ->
  wf (run t ops) /\ tracks (spec_run m t ops) (run t ops) /\ next_row_id (run t ops) <= U64_MAX.
Proof using Type.
  induction ops as [|o ops IH]; intros m t Hwf Hrun Ht.
  - split_and!; [done..|]. by destruct (wf_next t Hwf).
  - destruct (runnable_cons t o ops Hwf Hrun) as (Hwf' & Hrun' & Hlt). simpl.
    apply IH; [done..|]. by apply tracks_step.
Qed.

Definition unfinished_of (t : journal) (kv : Z * J) : option UnfinishedJob :=
  r ← dec kv.2; if is_unfinished (status r)
                then Some {| row_id := kv.1; u_record := r; u_files := job_files t kv.1 |} else None.

Lemma unfinished_loop_eq (t : journal) (rows : list (Z * J)) :
  Forall (fun kv => is_Some (dec (A := JobRecord) kv.2)) rows ->
  unfinished_loop t rows = Ok (omap (unfinished_of t) rows).
Proof using Type.
  induction 1 as [|[k v] rows [r Hr] _ IH]; [done|]. simpl in *. unfold decode, unfinished_of. simpl.
  rewrite Hr. simpl. destruct (is_unfinished (status r)); simpl; [|done]. by rewrite IH.
Qed.

Lemma omap_ids_sublist (t : journal) (rows : list (Z * J)) :
  (row_id <$> omap (unfinished_of t) rows) `sublist_of` rows.*1.
Proof using Type.
  induction rows as [|[k v] rows IH]; [done|]. simpl. unfold unfinished_of at 1. simpl.
  destruct (dec v) as [r|]; simpl; [|by constructor].
  destruct (is_unfinished (status r)); simpl; by constructor.
Qed.

Lemma unfinished_open s : is_unfinished s = true <-> s = JRunning \/ s = JPaused.
Proof using Type. destruct s; simpl; (split; [auto|by intros [[=]|[=]]]); done. Qed.

(** ** The theorems *)

(** Row ids are never reused.  In every run of journal calls, with any
    transactions failing, jobs deleted and the file reopened in between, the
    ids [begin_job] returns are strictly increasing and start at the counter
    the journal had. *)
Theorem journal_ids_never_reused (t : journal) ops :
  wf t -> runnable t ops ->
  StronglySorted Z.lt (begun t ops) /\ Forall (fun id => next_row_id t <= id) (begun t ops).
Proof using Type. intros Hwf Hrun. by apply begun_bounds. Qed.

(** [unfinished] lists exactly the open jobs.  After any run on a new
    journal, with any transactions failing, it returns, in the order the jobs
    were begun, each job that was begun and not deleted since and whose last
    recorded status is running or paused; with each comes every checkpoint
    row of that job and of no other, by ascending file index. *)
Theorem unfinished_lists_open_jobs (t : journal) ops :
  blank t -> runnable t ops ->
  exists l, unfinished true (run t ops) = Ok l /\
    StronglySorted Z.le (row_id <$> l) /\ NoDup (row_id <$> l) /\
    (forall id, id ∈ row_id <$> l <->
       exists s, spec_run ∅ t ops !! id = Some s /\ (s = JRunning \/ s = JPaused)) /\
    (forall u, u ∈ l -> StronglySorted Z.lt (file_idx <$> u_files u) /\
       forall cp, cp ∈ u_files u <-> file_view (run t ops) (row_id u) (file_idx cp) = Some cp).
Proof using Type.
  intros Hb Hrun. pose proof (blank_wf t Hb) as Hwf0. destruct Hb as (Hj & Hf & Hs).
  destruct (spec_run_tracks ops ∅ t Hwf0 Hrun) as (Hwf & Ht & Hn).
  { intros id. unfold job_view. by rewrite Hj, lookup_empty. }
  set (t' := run t ops) in *. unfold unfinished, read_txn. rewrite unfinished_loop_eq.
  2: { apply Forall_forall. intros [k v] Hin%tbl_iter_get. simpl. by destruct (wf_jobs t' Hwf k v Hin). }
  eexists. split; [done|]. split_and!.
  - eapply StronglySorted_sublist; [apply omap_ids_sublist|]. apply tbl_iter_sorted.
  - eapply sublist_NoDup; [|apply omap_ids_sublist]. apply tbl_iter_nodup.
  - intros id. rewrite <- Ht, list_elem_of_fmap. split.
    + intros (u & -> & ([k v] & Hin%tbl_iter_get & E)%list_elem_of_omap).
      unfold unfinished_of in E. simpl in E. apply bind_Some in E as (r & Hd & E).
      destruct (is_unfinished (status r)) eqn:Hu; [|done]. injection E as <-. simpl.
      exists (status r). split; [|by apply unfinished_open]. unfold job_view. rewrite Hin. simpl. by rewrite Hd.
    + intros (s & (r & (v & Hv & Hd)%bind_Some & ->)%fmap_Some & Hu%unfinished_open).
      eexists. split; [|apply list_elem_of_omap; exists (id, v); split; [by apply tbl_iter_get|]].
      2: { unfold unfinished_of. simpl. rewrite Hd. simpl. by rewrite Hu. }
      done.
  - intros u ([k v] & Hin%tbl_iter_get & E)%list_elem_of_omap.
    unfold unfinished_of in E. simpl in E. apply bind_Some in E as (r & Hd & E).
    destruct (is_unfinished (status r)); [|done]. injection E as <-. simpl.
    destruct (wf_jobs t' Hwf k v Hin) as [[Hk1 Hk2] _]. assert (is_u64 k) by (unfold is_u64; lia).
    split; [apply job_files_sorted; [done..|lia]|]. intros cp. apply elem_of_job_files; [done..|lia].
Qed.

(** Discarding a job removes its row and all its checkpoints, and nothing
    else, whatever other jobs have ids next to it. *)
Theorem delete_job_exact (t : journal) id :
  wf t -> is_u64 id -> id < U64_MAX ->
  let t' := (delete_job true t id).2 in
  (forall j, job_view t' j = if decide (j = id) then None else job_view t j) /\
  (forall j i, file_view t' j i = if decide (j = id) then None else file_view t j i) /\
  next_row_id t' = next_row_id t.
Proof using Type.
  intros Hwf Hu Hid. destruct (delete_job_cases true t id) as [(t' & E & Es & Ej & Ef)|[e E]]; [|done].
  rewrite E. simpl. split_and!.
  - intros j. unfold job_view. rewrite Ej, tbl_get_remove.
    destruct (decide (id = j)) as [->|]; [by rewrite decide_True|by rewrite decide_False].
  - intros j i. unfold file_view. rewrite Ef, tbl_get_remove_all.
    destruct (decide (j = id)) as [->|Hne].
    + destruct (tbl_get (id, i) (t_files t)) as [v|] eqn:Hv; [|by case_decide].
      rewrite decide_True; [done|]. apply list_elem_of_fmap. exists ((id, i), v).
      split; [done|]. by apply elem_of_job_rows.
    + rewrite decide_False; [done|]. intros ([[a b] v] & [= -> ->] & Hin)%list_elem_of_fmap.
      by apply elem_of_job_rows in Hin as [-> _].
  - unfold next_row_id. by rewrite Es.
Qed.

(** Finishing a file.  Its checkpoint becomes final, and a later resume
    skips the file; the job's totals grow by one file, also when the file had
    been finished before, and by the bytes after the last checkpoint only;
    a file that never reached a checkpoint is not recorded at all. *)
Theorem finish_file_totals (t : journal) now j i h :
  wf t ->
  let '(res, t') := finish_file true now t j i h in
  match file_view t j i, job_view t j with
  | Some cp, Some r =>
      res = Ok tt /\ resume_plan true t' j i = Ok (AlreadyComplete h) /\
      exists r', job_view t' j = Some r' /\
        files_done r' = sat_add64 (files_done r) 1 /\
        bytes_done r' = sat_add64 (bytes_done r)
                          (Z.max 0 (expected_total cp - cp_bytes_done cp)) /\
        status r' = status r
  | _, _ => res = Err (JNotFound j) /\ t' = t
  end.
Proof using Type.
  intros Hwf. unfold file_view, job_view, finish_file, write_txn, resume_plan, decode.
  destruct (tbl_get (j, i) (t_files t)) as [v|] eqn:Hv; [|done].
  destruct (wf_files t Hwf _ _ _ Hv) as (_ & cp & Hd & _). simpl. rewrite Hd. simpl.
  destruct (tbl_get j (t_jobs t)) as [w|] eqn:Hw; [|done].
  destruct (wf_jobs t Hwf _ _ Hw) as (_ & r & Hr). simpl. rewrite Hr. simpl.
  rewrite !tbl_get_insert_eq. simpl. rewrite !dec_enc. simpl. split_and!; [done..|]. eauto.
Qed.
End journal.

(** ** A journal over finite maps *)
Module JournalDemo.
(** Rows of the two kinds, told apart. *)
Definition row : Type := JobRecord + FileCheckpoint.
#[export] Instance job_codec : Codec JobRecord row :=
  {| enc := inl; dec v := match v with inl a => Some a | inr _ => None end;
     dec_enc _ := eq_refl |}.
#[export] Instance file_codec : Codec FileCheckpoint row :=
  {| enc := inr; dec v := match v with inr a => Some a | inl _ => None end;
     dec_enc _ := eq_refl |}.
Abbreviation journal := (Journal (gmap Z row) (gmap (Z * Z) row) (gmap string Z)).
Definition empty : journal := {| t_jobs := ∅; t_files := ∅; t_seq := ∅ |}.
Definition rec : JobRecord := job_record_new "copy" ["src"] (Some ["dst"]) 0.

Lemma empty_blank : blank empty.
Proof. by split_and!. Qed.

(** Two jobs, the row of a third lost, the first finished. *)
Definition ops : list JournalOp :=
  [OpOpen true; OpBegin true true rec; OpBegin true false rec; OpBegin true true rec;
   OpCheckpoint true 5 3 0 ["dst"] 20000 50000 "h"; OpFinishJob true 1 JSucceeded].

Lemma ops_runnable : runnable empty ops.
Proof. split; [repeat constructor; done|]. vm_compute. done. Qed.

(** One file finished twice: the job counts two. *)
Lemma finished_twice_counts_twice :
  let t := run empty [OpBegin true true rec; OpCheckpoint true 5 1 0 ["dst"] 20000 50000 "h";
                      OpFinishFile true 6 1 0 "f"; OpFinishFile true 7 1 0 "f"] in
  (files_done <$> job_view t 1) = Some 2 /\ (bytes_done <$> job_view t 1) = Some 30000.
Proof. vm_compute. done. Qed.
End JournalDemo.
#[local] Existing Instances JournalDemo.job_codec JournalDemo.file_codec.

Lemma journal_ids_never_reused_witness :
  begun JournalDemo.empty JournalDemo.ops = [1; 3] /\
  StronglySorted Z.lt (begun JournalDemo.empty JournalDemo.ops).
Proof.
  split; [vm_compute; reflexivity|].
  apply (journal_ids_never_reused JournalDemo.empty JournalDemo.ops).
  - apply blank_wf, JournalDemo.empty_blank.
  - apply JournalDemo.ops_runnable.
Defined.

Lemma unfinished_lists_open_jobs_witness :
  exists l, unfinished true (run JournalDemo.empty JournalDemo.ops) = Ok l /\
    3 ∈ row_id <$> l /\ 1 ∉ row_id <$> l.
Proof.
  destruct (unfinished_lists_open_jobs JournalDemo.empty JournalDemo.ops
    JournalDemo.empty_blank JournalDemo.ops_runnable) as (l & E & _ & _ & Hin & _).
  exists l. split; [exact E|]. rewrite !Hin. split.
  - exists JRunning. split; [vm_compute; reflexivity|by left].
  - intros (s & Hs & Hu). vm_compute in Hs. injection Hs as <-. destruct Hu as [Hu|Hu]; discriminate Hu.
Defined.

Lemma delete_job_exact_witness :
  file_view (delete_job true (run JournalDemo.empty JournalDemo.ops) 3).2 3 0 = None /\
  job_view (delete_job true (run JournalDemo.empty JournalDemo.ops) 3).2 1
    = Some (with_status JournalDemo.rec JSucceeded).
Proof.
  destruct (delete_job_exact (run JournalDemo.empty JournalDemo.ops) 3) as (Hj & Hf & _).
  - apply (spec_run_tracks _ ∅); [apply blank_wf, JournalDemo.empty_blank|apply JournalDemo.ops_runnable|].
    intros id. vm_compute. done.
  - vm_compute. by split.
  - vm_compute. done.
  - split; [rewrite Hf|rewrite Hj]; vm_compute; reflexivity.
Defined.

Lemma finish_file_totals_witness :
  let t := run JournalDemo.empty JournalDemo.ops in
  (finish_file true 9 t 3 0 "f").1 = Ok tt /\ (finish_file true 9 t 3 1 "f").1 = Err (JNotFound 3).
Proof.
  intros t. assert (journal_wf t) as Hwf.
  { apply (spec_run_tracks _ ∅); [apply blank_wf, JournalDemo.empty_blank|apply JournalDemo.ops_runnable|].
    intros id. vm_compute. done. }
  pose proof (finish_file_totals t 9 3 0 "f" Hwf) as H1.
  pose proof (finish_file_totals t 9 3 1 "f" Hwf) as H2.
  destruct (finish_file true 9 t 3 0 "f") as [r1 t1], (finish_file true 9 t 3 1 "f") as [r2 t2].
  destruct (file_view t 3 0) as [cp|] eqn:E1; [|vm_compute in E1; discriminate E1].
  destruct (job_view t 3) as [r|] eqn:E2; [|vm_compute in E2; discriminate E2].
  destruct (file_view t 3 1) as [cp'|] eqn:E3; [vm_compute in E3; discriminate E3|].
  split; [apply H1|apply H2].
Defined.
