(* ===== verification/JournalSink.v ===== *)
(** * The batching journal sink ([freally-journal/src/sink.rs])

    The engine reports progress often; the sink keeps the latest report of
    each file in memory and writes through at most once per second, except for
    the first report of a file and for terminal states.  Journal failures are
    swallowed ([let _ = ...]): the oracle [txn_ok] decides each transaction. *)
From S2P Require Import Prelude.
From S2P Require Import Text.
From S2P Require Import Files.
From S2P Require Import Table.
From S2P Require Import CopyTypes.
From S2P Require Import Journal.
From stdpp Require Import options.
Open Scope Z_scope.

Definition FLUSH_INTERVAL : Z := 1000.

Record PendingCheckpoint := {
  p_dst : path; p_bytes_done : Z; p_expected_total : Z; p_hash_so_far : Digest;
}.

(** Which transactions the database carries out, and the clock. *)
Class SinkEnv := { txn_ok : N -> bool; now_ms : N -> Z }.

Section sink.
Context {TJ TF TS J : Type}.
Context {TBJ : Table Z J TJ Z.le} {TBF : Table (Z * Z) J TF pair_le} {TBS : Table string Z TS String.le}.
Context {CJ : Codec JobRecord J} {CF : Codec FileCheckpoint J} {SE : SinkEnv}.
#[local] Abbreviation journal := (Journal TJ TF TS).

(** The sink and its [BatchState]; [tick] counts transactions and clock reads. *)
Record Sink := {
  sk_journal : journal;
  sk_job : Z;
  pending : gmap Z PendingCheckpoint;
  seen_on_disk : gset Z;
  last_flush : Z;
  tick : N;
}.

Definition sink_new (t : journal) (job : Z) (n : N) : Sink :=
  {| sk_journal := t; sk_job := job; pending := ∅; seen_on_disk := ∅; last_flush := now_ms n;
     tick := (n + 1)%N |}.

Definition with_journal (s : Sink) (t : journal) : Sink :=
  {| sk_journal := t; sk_job := sk_job s; pending := pending s; seen_on_disk := seen_on_disk s;
     last_flush := last_flush s; tick := (tick s + 1)%N |}.

Definition with_batch (s : Sink) (p : gmap Z PendingCheckpoint) (seen : gset Z) (flushed : Z) : Sink :=
  {| sk_journal := sk_journal s; sk_job := sk_job s; pending := p; seen_on_disk := seen;
     last_flush := flushed; tick := (tick s + 1)%N |}.

(** [let _ = self.journal.checkpoint(...)] *)
Definition write_through (s : Sink) (e : Z * PendingCheckpoint) : Sink :=
  let p := e.2 in
  with_journal s (checkpoint (txn_ok (tick s)) (now_ms (tick s)) (sk_journal s) (sk_job s) e.1
                    (p_dst p) (p_bytes_done p) (p_expected_total p) (p_hash_so_far p)).2.

Definition flush_pending_for (s : Sink) (idx : Z) : Sink :=
  match pending s !! idx with
  | Some p => write_through (with_batch s (delete idx (pending s)) (seen_on_disk s) (last_flush s)) (idx, p)
  | None => s
  end.

(** [drain()]: the pending map is emptied; its entries come in no particular
    order. *)
Definition flush_all (s : Sink) : Sink :=
  foldl write_through (with_batch s ∅ (seen_on_disk s) (last_flush s)) (map_to_list (pending s)).

Definition sink_checkpoint (s : Sink) (idx : Z) (dst : path) (done total : Z) (h : Digest) : Sink :=
  let entry := {| p_dst := dst; p_bytes_done := done; p_expected_total := total; p_hash_so_far := h |} in
  let pend := <[idx := entry]> (pending s) in
  let force_first := bool_decide (idx ∉ seen_on_disk s) in
  let now := now_ms (tick s) in
  if force_first || (FLUSH_INTERVAL <=? now - last_flush s) then
    foldl write_through (with_batch s ∅ (seen_on_disk s ∪ dom pend) now) (map_to_list pend)
  else with_batch s pend (seen_on_disk s) (last_flush s).

Definition sink_finish_file (s : Sink) (idx : Z) (final : Digest) : Sink :=
  let s1 := flush_pending_for s idx in
  with_journal s1 (finish_file (txn_ok (tick s1)) (now_ms (tick s1)) (sk_journal s1) (sk_job s1) idx final).2.

Definition core_plan (r : result JournalError ResumePlan) : CoreResumePlan :=
  match r with
  | Ok (Resume offset h) => CResume offset h
  | Ok Restart => CRestart
  | Ok (AlreadyComplete h) => CAlreadyComplete h
  | Err _ => CRestart
  end.

Definition sink_resume_plan (s : Sink) (idx : Z) : CoreResumePlan * Sink :=
  let s1 := flush_pending_for s idx in
  (core_plan (resume_plan (txn_ok (tick s1)) (sk_journal s1) (sk_job s1) idx),
   with_journal s1 (sk_journal s1)).

Definition finish_job_as (s : Sink) (st : JobStatus) : Sink :=
  let s1 := flush_all s in
  with_journal s1 (finish_job (txn_ok (tick s1)) (sk_journal s1) (sk_job s1) st).2.

Definition finish_job_succeeded (s : Sink) : Sink := finish_job_as s JSucceeded.
Definition finish_job_failed (s : Sink) : Sink := finish_job_as s JFailed.
Definition finish_job_cancelled (s : Sink) : Sink := finish_job_as s JCancelled.

(** ** What the sink may answer *)

(** The plan on disk for a file, as [Journal::resume_plan] reads it. *)
Definition disk_plan (t : journal) (job idx : Z) : CoreResumePlan :=
  core_plan (resume_plan true t job idx).

Definition pending_plan (p : PendingCheckpoint) : CoreResumePlan :=
  checkpoint_plan (p_bytes_done p) (p_hash_so_far p).

Definition offers (s : Sink) (idx : Z) (p : CoreResumePlan) : Prop :=
  p = disk_plan (sk_journal s) (sk_job s) idx \/
  exists e, pending s !! idx = Some e /\ p = pending_plan e.

Lemma disk_plan_put (t : journal) job job' idx idx' (cp : FileCheckpoint) :
  disk_plan (with_files t (tbl_insert (job', idx') (enc cp) (t_files t))) job idx
  = if decide ((job', idx') = (job, idx))
    then match final_hash cp with
         | Some h => CAlreadyComplete h
         | None => checkpoint_plan (cp_bytes_done cp) (hash_so_far cp)
         end
    else disk_plan t job idx.
Proof using Type.
  unfold disk_plan, resume_plan, read_txn, decode. simpl. rewrite tbl_get_insert.
  case_decide as E; [|done]. rewrite dec_enc. simpl. unfold checkpoint_plan.
  destruct (final_hash cp); [done|]. by destruct (_ =? _).
Qed.

Lemma write_through_fields s e :
  sk_job (write_through s e) = sk_job s /\ pending (write_through s e) = pending s /\
  seen_on_disk (write_through s e) = seen_on_disk s /\ last_flush (write_through s e) = last_flush s.
Proof using Type. done. Qed.

(** Writing one entry through moves its plan to disk, or loses it. *)
Lemma write_through_disk s e idx :
  let s' := write_through s e in
  disk_plan (sk_journal s') (sk_job s) idx = disk_plan (sk_journal s) (sk_job s) idx \/
  (idx = e.1 /\ disk_plan (sk_journal s') (sk_job s) idx = pending_plan e.2).
Proof using Type.
  simpl. destruct (checkpoint_cases (txn_ok (tick s)) (now_ms (tick s)) (sk_journal s) (sk_job s) e.1
    (p_dst e.2) (p_bytes_done e.2) (p_expected_total e.2) (p_hash_so_far e.2)) as [(q & _ & E)|[er E]];
    rewrite E; simpl; [|by left].
  rewrite disk_plan_put. case_decide as Heq; [|by left]. right. by simplify_eq.
Qed.

Lemma fold_write_fields l : forall s, let s' := foldl write_through s l in
  sk_job s' = sk_job s /\ pending s' = pending s /\ seen_on_disk s' = seen_on_disk s /\
  last_flush s' = last_flush s.
Proof using Type. induction l as [|e l IH]; intros s; [done|]. apply (IH (write_through s e)). Qed.

Lemma fold_write_disk l : forall s idx,
  let s' := foldl write_through s l in
  disk_plan (sk_journal s') (sk_job s) idx = disk_plan (sk_journal s) (sk_job s) idx \/
  exists e, (idx, e) ∈ l /\ disk_plan (sk_journal s') (sk_job s) idx = pending_plan e.
Proof using Type.
  induction l as [|[i e] l IH]; intros s idx; [by left|]. cbn [foldl].
  destruct (IH (write_through s (i, e)) idx) as [E|(e' & Hin & E)].
  - destruct (write_through_disk s (i, e) idx) as [E'|[-> E']].
    + left. simpl in *. by rewrite E.
    + right. exists e. split; [left|]. simpl in *. by rewrite E.
  - right. exists e'. split; [by right|done].
Qed.

(** Draining [m] into the journal offers nothing new. *)
Lemma drain_offers s m seen fl idx p :
  offers (foldl write_through (with_batch s ∅ seen fl) (map_to_list m)) idx p ->
  p = disk_plan (sk_journal s) (sk_job s) idx \/ exists e, m !! idx = Some e /\ p = pending_plan e.
Proof using Type.
  intros H. set (s0 := with_batch s ∅ seen fl) in *.
  destruct (fold_write_fields (map_to_list m) s0) as (Ej & Ep & _).
  destruct H as [->|(e & He & _)].
  - rewrite Ej. destruct (fold_write_disk (map_to_list m) s0 idx) as [E|(e & Hin & E)].
    + left. by rewrite E.
    + right. exists e. rewrite E. by apply elem_of_map_to_list in Hin.
  - rewrite Ep in He. simpl in He. by rewrite lookup_empty in He.
Qed.

Lemma flush_pending_for_offers s i idx p :
  offers (flush_pending_for s i) idx p -> offers s idx p.
Proof using Type.
  unfold flush_pending_for. destruct (pending s !! i) as [e|] eqn:He; [|done].
  set (s0 := with_batch s (delete i (pending s)) (seen_on_disk s) (last_flush s)).
  intros [->|(e' & He' & ->)].
  - destruct (write_through_disk s0 (i, e) idx) as [E|[-> E]].
    + left. by apply E.
    + right. exists e. split; [done|]. by apply E.
  - right. exists e'. split; [|done]. simpl in He'. by apply lookup_delete_Some in He' as [_ ?].
Qed.

Lemma with_journal_offers s t idx p :
  disk_plan t (sk_job s) idx = disk_plan (sk_journal s) (sk_job s) idx ->
  offers (with_journal s t) idx p -> offers s idx p.
Proof using Type. intros E [->|H]; [left; by rewrite <- E|by right]. Qed.

Lemma finish_file_disk ok now (t : journal) job i h idx :
  disk_plan (finish_file ok now t job i h).2 job idx = disk_plan t job idx \/
  (idx = i /\ disk_plan (finish_file ok now t job i h).2 job idx = CAlreadyComplete h).
Proof using Type.
  destruct (finish_file_cases ok now t job i h) as [(cp & r & _ & _ & ->)|[e ->]]; [|by left].
  cbn [snd]. set (t1 := with_files t _).
  assert (disk_plan (with_jobs t1 (tbl_insert job (enc (with_done r (sat_add64 (files_done r) 1)
            (sat_add64 (bytes_done r) (sat_sub64 (expected_total cp) (cp_bytes_done cp))))) (t_jobs t)))
            job idx = disk_plan t1 job idx) as -> by done.
  unfold t1. rewrite disk_plan_put. case_decide as E; [|by left]. right. by simplify_eq.
Qed.

Lemma sink_finish_file_offers s i h idx p :
  offers (sink_finish_file s i h) idx p -> offers s idx p \/ (idx = i /\ p = CAlreadyComplete h).
Proof using Type.
  unfold sink_finish_file. set (s1 := flush_pending_for s i).
  destruct (finish_file_disk (txn_ok (tick s1)) (now_ms (tick s1)) (sk_journal s1) (sk_job s1) i h idx)
    as [E|[-> E]].
  - intros H. left. apply (flush_pending_for_offers s i). by eapply with_journal_offers.
  - intros [->|H]; [by right|]. left. apply (flush_pending_for_offers s i). by right.
Qed.

Lemma finish_job_disk ok (t : journal) job st idx :
  disk_plan (finish_job ok t job st).2 job idx = disk_plan t job idx.
Proof using Type. by destruct (finish_job_cases ok t job st) as [(r & _ & ->)|[e ->]]. Qed.

Lemma finish_job_as_offers s st idx p : offers (finish_job_as s st) idx p -> offers s idx p.
Proof using Type.
  intros H%with_journal_offers; [|apply finish_job_disk]. by apply drain_offers in H.
Qed.

(** A sink over the same file after a restart: what was pending is gone. *)
Definition sink_restart (s : Sink) : Sink := sink_new (sk_journal s) (sk_job s) (tick s).

#[export] Program Instance freally_sink : JournalSink Sink := {|
  js_checkpoint := sink_checkpoint;
  js_finish_file := sink_finish_file;
  js_resume_plan := sink_resume_plan;
  js_finish_job_succeeded := finish_job_succeeded;
  js_finish_job_failed := finish_job_failed;
  js_finish_job_cancelled := finish_job_cancelled;
  js_restart := sink_restart;
  js_offers := offers;
|}.
Next Obligation.
  intros s i d b t h i' p. unfold sink_checkpoint.
  set (entry := {| p_dst := d; p_bytes_done := b; p_expected_total := t; p_hash_so_far := h |}).
  assert (forall e, <[i := entry]> (pending s) !! i' = Some e ->
            offers s i' (pending_plan e) \/ (i' = i /\ pending_plan e = checkpoint_plan b h)) as Hpend.
  { intros e [[<- <-]|[_ He]]%lookup_insert_Some; [by right|]. left. right. eauto. }
  destruct (_ || _).
  - intros [->|(e & He & ->)]%drain_offers; [left; by left|auto].
  - intros [->|(e & He & ->)]; [left; by left|]. apply Hpend, He.
Qed.
Next Obligation. intros s i h i' p. apply sink_finish_file_offers. Qed.
Next Obligation.
  intros s i. unfold sink_resume_plan. simpl. set (s1 := flush_pending_for s i).
  destruct (txn_ok (tick s1)); [|by left]. right. apply (flush_pending_for_offers s i). by left.
Qed.
Next Obligation.
  intros s i i' p H. apply (flush_pending_for_offers s i).
  by eapply with_journal_offers; [|exact H].
Qed.
Next Obligation. intros s i p [H|[H|H]]; by eapply finish_job_as_offers. Qed.
Next Obligation. intros s i p [->|(e & He & _)]; [by left|]. simpl in He. by rewrite lookup_empty in He. Qed.

(** ** How much a crash can lose *)

Definition healthy_db : Prop := forall n, txn_ok n = true.

Definition files_decode (t : journal) : Prop :=
  forall j i v, tbl_get (j, i) (t_files t) = Some v -> is_Some (dec (A := FileCheckpoint) v).

(** File [idx] has a row on disk: a crash now still finds it. *)
Definition recorded (s : Sink) (idx : Z) : Prop :=
  is_Some (file_view (sk_journal s) (sk_job s) idx).

(** Every file whose report reached the sink has a row on disk. *)
Definition sink_ok (s : Sink) : Prop :=
  files_decode (sk_journal s) /\
  (forall idx, idx ∈ seen_on_disk s -> recorded s idx) /\
  (forall idx, is_Some (pending s !! idx) -> idx ∈ seen_on_disk s).

Lemma file_view_put (t : journal) job idx (cp : FileCheckpoint) job' idx' :
  file_view (with_files t (tbl_insert (job, idx) (enc cp) (t_files t))) job' idx'
  = if decide ((job, idx) = (job', idx')) then Some cp else file_view t job' idx'.
Proof using Type.
  unfold file_view. simpl. rewrite tbl_get_insert. case_decide; [apply dec_enc|done].
Qed.

Lemma write_through_ok s e :
  healthy_db -> files_decode (sk_journal s) ->
  let s' := write_through s e in
  files_decode (sk_journal s') /\
  disk_plan (sk_journal s') (sk_job s) e.1 = pending_plan e.2 /\ recorded s' e.1 /\
  (forall idx, recorded s idx -> recorded s' idx) /\
  (forall idx, idx <> e.1 ->
     disk_plan (sk_journal s') (sk_job s) idx = disk_plan (sk_journal s) (sk_job s) idx).
Proof using Type.
  intros Hok Hdec. unfold write_through, recorded. cbn [sk_journal with_journal sk_job].
  destruct (checkpoint_cases (txn_ok (tick s)) (now_ms (tick s)) (sk_journal s) (sk_job s) e.1
    (p_dst e.2) (p_bytes_done e.2) (p_expected_total e.2) (p_hash_so_far e.2)) as [(q & _ & E)|[er E]].
  2: { exfalso. rewrite Hok in E. unfold checkpoint, write_txn, decode in E.
       destruct (tbl_get (sk_job s, e.1) (t_files (sk_journal s))) as [v|] eqn:Hv; [|done].
       destruct (Hdec _ _ _ Hv) as [cp Hd]. by rewrite Hd in E. }
  rewrite E. cbn [snd]. split_and!.
  - intros j i v. simpl. rewrite tbl_get_insert. case_decide; [|apply Hdec].
    intros [= <-]. rewrite dec_enc. eauto.
  - by rewrite disk_plan_put, decide_True.
  - rewrite file_view_put, decide_True; eauto.
  - intros idx H. rewrite file_view_put. case_decide; eauto.
  - intros idx Hne. rewrite disk_plan_put, decide_False; congruence.
Qed.

Lemma fold_write_ok l : forall s,
  healthy_db -> files_decode (sk_journal s) -> NoDup l.*1 ->
  let s' := foldl write_through s l in
  files_decode (sk_journal s') /\
  (forall idx e, (idx, e) ∈ l -> disk_plan (sk_journal s') (sk_job s) idx = pending_plan e /\
                                 recorded s' idx) /\
  (forall idx, recorded s idx -> recorded s' idx) /\
  (forall idx, idx ∉ l.*1 ->
     disk_plan (sk_journal s') (sk_job s) idx = disk_plan (sk_journal s) (sk_job s) idx).
Proof using Type.
  induction l as [|[i e] l IH]; intros s Hok Hdec Hnd; cbn [foldl].
  { split_and!; [done| |done|done]. intros idx e ?%elem_of_nil. done. }
  cbn [fmap list_fmap fst] in *. apply NoDup_cons in Hnd as [Hni Hnd].
  destruct (write_through_ok s (i, e) Hok Hdec) as (D1 & P1 & R1 & K1 & F1).
  destruct (IH _ Hok D1 Hnd) as (D2 & P2 & K2 & F2). cbn [fst snd] in *.
  split_and!; [done| |auto|].
  - intros idx e' [[= -> ->]|Hin]%elem_of_cons; [|by apply P2]. split; [|by apply K2].
    rewrite <- P1. by apply F2.
  - intros idx [Hne Hnin]%not_elem_of_cons. rewrite <- F1 by done. by apply F2.
Qed.

(** Draining [m] puts every entry on disk. *)
Lemma drain_ok s m seen fl :
  healthy_db -> files_decode (sk_journal s) ->
  let s' := foldl write_through (with_batch s ∅ seen fl) (map_to_list m) in
  files_decode (sk_journal s') /\ sk_job s' = sk_job s /\ pending s' = ∅ /\
  seen_on_disk s' = seen /\ last_flush s' = fl /\
  (forall idx e, m !! idx = Some e -> disk_plan (sk_journal s') (sk_job s) idx = pending_plan e /\
                                      recorded s' idx) /\
  (forall idx, recorded s idx -> recorded s' idx).
Proof using Type.
  intros Hok Hdec. set (s0 := with_batch s ∅ seen fl).
  destruct (fold_write_fields (map_to_list m) s0) as (Ej & Ep & Es & El).
  destruct (fold_write_ok (map_to_list m) s0) as (D & P & K & _); [done|done|apply NoDup_fst_map_to_list|].
  split_and!; [done..| |done]. intros idx e He. apply P. by apply elem_of_map_to_list.
Qed.

(** What a crash can lose.  While the database works, the first report of
    a file is on disk when the call returns, and later reports are at most
    one second old while they are only in memory: after each report either
    everything reported is on disk and the file's plan there is this report,
    or the last write-through is less than [FLUSH_INTERVAL] old; and no
    reported file is ever without a row. *)
Theorem sink_loses_at_most_an_interval s idx dst b total h :
  healthy_db -> sink_ok s ->
  let now := now_ms (tick s) in
  let s' := sink_checkpoint s idx dst b total h in
  sink_ok s' /\ recorded s' idx /\
  ((pending s' = ∅ /\ last_flush s' = now /\
    disk_plan (sk_journal s') (sk_job s') idx = checkpoint_plan b h) \/
   (now - last_flush s' < FLUSH_INTERVAL /\ idx ∈ seen_on_disk s)).
Proof using Type.
  intros Hok (Hdec & Hseen & Hpend). cbn zeta. unfold sink_checkpoint.
  set (entry := {| p_dst := dst; p_bytes_done := b; p_expected_total := total; p_hash_so_far := h |}).
  set (m := <[idx := entry]> (pending s)).
  assert (m !! idx = Some entry) as Hm by apply lookup_insert_eq.
  assert (let s' := foldl write_through (with_batch s ∅ (seen_on_disk s ∪ dom m) (now_ms (tick s)))
                      (map_to_list m) in
    sink_ok s' /\ recorded s' idx /\ pending s' = ∅ /\ last_flush s' = now_ms (tick s) /\
    disk_plan (sk_journal s') (sk_job s') idx = checkpoint_plan b h) as Hflush.
  { destruct (drain_ok s m (seen_on_disk s ∪ dom m) (now_ms (tick s)) Hok Hdec)
      as (D & Ej & Ep & Es & El & P & K). set (s' := foldl _ _ _) in *.
    split_and!; [split_and!; [done| |]|by eapply P|done|done|].
    - intros i. rewrite Es. intros [Hi|[e He]%elem_of_dom]%elem_of_union; [by apply K, Hseen|].
      by eapply P.
    - intros i. rewrite Ep, lookup_empty. by intros [? ?].
    - rewrite Ej. by apply (P idx entry). }
  cbn zeta in Hflush. destruct Hflush as (F1 & F2 & F3 & F4 & F5).
  case_bool_decide as Hnew; cbn [orb]; [by split_and!; [..|left]|].
  destruct (FLUSH_INTERVAL <=? now_ms (tick s) - last_flush s) eqn:Ef; [by split_and!; [..|left]|].
  apply Z.leb_gt in Ef. split_and!; [split_and!; [done..|]| |right; simpl; split; [lia|done]].
  - intros i [e He]. simpl in *. unfold m in He. apply lookup_insert_Some in He as [[<- _]|[_ He]]; [done|]. eauto.
  - by apply Hseen.
Qed.
End sink.
Arguments Sink : clear implicits.

(** ** A sink over the journal of finite maps *)
Module SinkDemo.
#[export] Instance env : SinkEnv := {| txn_ok _ := true; now_ms n := 10 * Z.of_N n |}.
#[export] Existing Instances JournalDemo.job_codec JournalDemo.file_codec.
Abbreviation sink := (Sink (gmap Z JournalDemo.row) (gmap (Z * Z) JournalDemo.row) (gmap string Z)).
Definition journal : JournalDemo.journal := (begin_job true true JournalDemo.empty JournalDemo.rec).2.
Definition s : sink := sink_new journal 1 0.

Lemma s_ok : sink_ok s.
Proof. split_and!; [by intros j i v|by intros i ?%elem_of_empty|by intros i [e He]]. Qed.

Lemma healthy : healthy_db.
Proof. done. Qed.
End SinkDemo.
#[local] Existing Instances SinkDemo.env JournalDemo.job_codec JournalDemo.file_codec.

Lemma sink_loses_at_most_an_interval_witness :
  recorded (sink_checkpoint SinkDemo.s 0 ["dst"] 20000 50000 "h") 0 /\
  disk_plan (sk_journal (sink_checkpoint SinkDemo.s 0 ["dst"] 20000 50000 "h")) 1 0 = CResume 20000 "h".
Proof.
  destruct (sink_loses_at_most_an_interval SinkDemo.s 0 ["dst"] 20000 50000 "h" SinkDemo.healthy
    SinkDemo.s_ok) as (_ & Hr & [(_ & _ & Hd)|(_ & Hin)]).
  - split; [exact Hr|]. exact Hd.
  - vm_compute in Hin. discriminate Hin.
Defined.
