(* ===== verification/CopyFile.v ===== *)
(** * Copying one file ([freally-core/src/engine.rs]: [copy_file] and its helpers)

    The dense path of the copy engine: path guards, the fast-copy hook, the
    resume probe, the copy loop with pause and cancel, checkpoints, metadata,
    the verify pass and the cleanup after a failure.  The journal is any
    [JournalSink].

    Outside calls are numbered.  The environment decides the fate of each one
    ([io]: it works, it fails, or the process dies there), how much a read
    returns, how many buffered bytes a write lets through, what the disk makes
    of them, whether the progress interval has elapsed, and the clock.  Flag
    loads of the steering handle are a list of the values seen; after its end
    every load sees [RUNNING], and [CANCELLED] stays. *)
From S2P Require Import Prelude.
From S2P Require Import Text.
From S2P Require Import Monad.
From S2P Require Import Files.
From S2P Require Import Control.
From S2P Require Import CopyTypes.
From stdpp Require Import options.
Open Scope Z_scope.
#[local] Open Scope monad_scope.

Inductive IoOutcome := Fine | Fails (k : CopyErrorKind) | Dies.

Class CopyEnv := {
  io : nat -> IoOutcome;
  chunk : nat -> nat;
  drain : nat -> nat;
  disk : nat -> bytes -> bytes;
  due : nat -> bool;
  wall : nat -> Z;
  b3 : bytes -> Digest;
  canonicalize : path -> option path;
}.

(** ** Lexical path guard ([safety.rs]) *)

Inductive PathSafetyError := ParentTraversal | EmptyPath | NulByte | ControlChar.

Fixpoint bad_byte (s : string) : option PathSafetyError :=
  match s with
  | EmptyString => None
  | String c s' =>
      let n := N_of_ascii c in
      if (n =? 0)%N then Some NulByte
      else if negb (n =? 9)%N && ((n <? 32)%N || (n =? 127)%N) then Some ControlChar
      else bad_byte s'
  end.

Fixpoint first_bad (p : path) : option PathSafetyError :=
  match p with
  | [] => None
  | c :: p' => match bad_byte c with Some e => Some e | None => first_bad p' end
  end.

Definition validate_path_no_traversal (p : path) : option PathSafetyError :=
  match p with
  | [] => Some EmptyPath
  | _ => match first_bad p with
         | Some e => Some e
         | None => if bool_decide (".." ∈ p) then Some ParentTraversal else None
         end
  end.

(** How a copy ends short of a report: a typed error, the death of the
    process, or (never, see the theorems) a loop out of fuel. *)
Inductive Stop := SErr (e : CopyError) | SDied | SStuck.

Inductive ResumeDecision :=
| FreshStart
| ResumeAt (offset : Z) (prefix_bytes_hash : Digest)
| DoneAlready (final_hash : Digest).

Definition PROGRESS_MIN_BYTES : Z := 16 * 1024.

Section engine.
Context {S : Type} {JS : JournalSink S} {EN : CopyEnv}.

Record CopyWorld := {
  c_files : FileTree;
  c_calls : nat;
  c_flags : list Z;
  c_events : list CopyEvent;
  c_sink : S;
  c_snapshots : list (path * bytes);
}.
#[local] Abbreviation CM := (SM CopyWorld Stop).

Definition set_cfiles (fs : FileTree) (w : CopyWorld) : CopyWorld :=
  {| c_files := fs; c_calls := c_calls w; c_flags := c_flags w; c_events := c_events w;
     c_sink := c_sink w; c_snapshots := c_snapshots w |}.
Definition set_calls (n : nat) (w : CopyWorld) : CopyWorld :=
  {| c_files := c_files w; c_calls := n; c_flags := c_flags w; c_events := c_events w;
     c_sink := c_sink w; c_snapshots := c_snapshots w |}.
Definition set_flags (l : list Z) (w : CopyWorld) : CopyWorld :=
  {| c_files := c_files w; c_calls := c_calls w; c_flags := l; c_events := c_events w;
     c_sink := c_sink w; c_snapshots := c_snapshots w |}.
Definition add_event (e : CopyEvent) (w : CopyWorld) : CopyWorld :=
  {| c_files := c_files w; c_calls := c_calls w; c_flags := c_flags w; c_events := c_events w ++ [e];
     c_sink := c_sink w; c_snapshots := c_snapshots w |}.
Definition set_sink (s : S) (w : CopyWorld) : CopyWorld :=
  {| c_files := c_files w; c_calls := c_calls w; c_flags := c_flags w; c_events := c_events w;
     c_sink := s; c_snapshots := c_snapshots w |}.
Definition add_snapshot (x : path * bytes) (w : CopyWorld) : CopyWorld :=
  {| c_files := c_files w; c_calls := c_calls w; c_flags := c_flags w; c_events := c_events w;
     c_sink := c_sink w; c_snapshots := c_snapshots w ++ [x] |}.

(** ** Outside calls *)

(** Make a call: [None] when it works, the error kind when it fails. *)
Definition call : CM (option CopyErrorKind) :=
  let! n := gets c_calls in
  modify (set_calls (n + 1)) ;;
  match io n with
  | Fine => ret None
  | Fails k => ret (Some k)
  | Dies => throw SDied
  end.

(** [call().await.map_err(|e| CopyError::from_io(src, dst, e))?] *)
Definition call_or (src dst : path) : CM unit :=
  let! r := call in
  match r with None => ret tt | Some k => throw (SErr (from_io src dst k)) end.

Definition emit (e : CopyEvent) : CM unit := modify (add_event e).

Definition file_at (p : path) : CM (option File) := gets (fun w => c_files w !! p).

(** Append bytes to the open file [p]: what the disk makes of them lands.
    Writes are at the end of the file because opening truncated it, or
    [set_len] cut it back to the offset the cursor was then moved to.  (A
    resume at offset 0 would write over the old bytes instead; a checkpoint
    of no bytes asks for a restart, so no journal offers one.) *)
Definition append_bytes (p : path) (b : bytes) : CM unit :=
  let! w := gets id in
  match c_files w !! p with
  | Some f => modify (set_cfiles (<[p := {| content := content f ++ disk (c_calls w) b;
                                            f_mtime_ms := wall (c_calls w) |}]> (c_files w)))
  | None => ret tt
  end.

(** ** Steering *)

Definition load : CM Z :=
  let! l := gets c_flags in
  match l with
  | [] => ret RUNNING
  | v :: r => if v =? CANCELLED then ret v else (modify (set_flags r) ;; ret v)
  end.

Fixpoint wait_flags (l : list Z) : list Z :=
  match l with
  | [] => []
  | v :: r => if v =? PAUSED then wait_flags r else if v =? CANCELLED then l else r
  end.

Definition wait_paused : CM unit := modify (fun w => set_flags (wait_flags (c_flags w)) w).

(** ** The buffered writer *)

(** [writer.write_all(buf)]: the bytes join the buffer and some of it
    reaches the file, also when the call fails. *)
Definition write_all (src dst : path) (pending buf : bytes) : CM (option CopyError * bytes) :=
  let! n := gets c_calls in
  let! r := call in
  let all := pending ++ buf in
  append_bytes dst (take (drain n) all) ;;
  ret (match r with None => None | Some k => Some (from_io src dst k) end, drop (drain n) all).

(** [writer.flush()] *)
Definition flush (dst : path) (pending : bytes) : CM (option CopyErrorKind * bytes) :=
  let! r := call in
  match r with
  | None => append_bytes dst pending ;; ret (None, [])
  | Some k => ret (Some k, pending)
  end.

(** ** Ending with an error *)

Definition finalize_error (opts : CopyOptions) (dst : path) (e : CopyError) : CM CopyReport :=
  (if keep_partial opts then ret tt
   else
     let! r := call in
     match r with
     | None => modify (fun w => set_cfiles (delete dst (c_files w)) w)
     | Some _ => ret tt
     end) ;;
  emit (EvFailed e) ;;
  throw (SErr e).

(** ** The resume probe *)

(** [hash_dst_prefix]: [None] when the file cannot be read that far. *)
Definition hash_dst_prefix (p : path) (n : Z) : CM (option Digest) :=
  let! o := call in
  match o with
  | Some _ => ret None
  | None =>
      let! r := call in
      let! f := file_at p in
      match r, f with
      | None, Some f =>
          if n <=? file_len f then ret (Some (b3 (take (Z.to_nat n) (content f)))) else ret None
      | _, _ => ret None
      end
  end.

Definition abort_resume (reason : ResumeAbortReason) (offset : Z) : CM ResumeDecision :=
  emit (ResumeAborted reason offset) ;; ret FreshStart.

Definition decide_resume (dst : path) (expected_total : Z) (opts : CopyOptions) : CM ResumeDecision :=
  if negb (journaled opts) then ret FreshStart
  else
    let! r := call in
    let! f := file_at dst in
    match r, f with
    | None, Some f =>
        let dst_len := file_len f in
        if dst_len =? 0 then ret FreshStart
        else
          let! s := gets c_sink in
          let '(plan, s') := js_resume_plan s (journal_file_idx opts) in
          modify (set_sink s') ;;
          match plan with
          | CRestart => ret FreshStart
          | CAlreadyComplete final =>
              if negb (dst_len =? expected_total) then abort_resume DstLengthMismatch 0
              else
                let! h := hash_dst_prefix dst dst_len in
                match h with
                | None => abort_resume DstReadFailed 0
                | Some computed =>
                    if String.eqb computed final then ret (DoneAlready final)
                    else abort_resume CompleteHashMismatch 0
                end
          | CResume offset src_hash =>
              match verify opts with
              | Some _ => abort_resume VerifyIncompatible offset
              | None =>
                  if dst_len <? offset then abort_resume DstShrunk offset
                  else
                    let! h := hash_dst_prefix dst offset in
                    match h with
                    | None => abort_resume DstReadFailed offset
                    | Some computed =>
                        if String.eqb computed src_hash then ret (ResumeAt offset computed)
                        else abort_resume PrefixHashMismatch offset
                    end
              end
          end
    | _, _ => ret FreshStart
    end.

(** [prime_blake3_from_dst_prefix]: the prefix bytes, fewer when the file is
    shorter. *)
Definition prime_prefix (src dst : path) (n : Z) : CM bytes :=
  call_or src dst ;;
  call_or src dst ;;
  let! f := file_at dst in
  ret (take (Z.to_nat n) (default [] (content <$> f))).

(** ** Versioning: a snapshot of what is about to be overwritten *)

Definition maybe_snapshot_before_overwrite (opts : CopyOptions) (dst : path) : CM unit :=
  if negb (versioning_enabled opts) then ret tt
  else
    let! r := call in
    let! f := file_at dst in
    match r, f with
    | None, Some f =>
        let! s := call in
        match s with
        | None => modify (add_snapshot (dst, content f))
        | Some _ => ret tt
        end
    | _, _ => ret tt
    end.

(** ** Opening the destination *)

Definition open_dst (src dst : path) (opts : CopyOptions) (fresh : bool) : CM unit :=
  call_or src dst ;;
  let! f := file_at dst in
  let! n := gets c_calls in
  match f with
  | Some f =>
      if fresh then
        if fail_if_exists opts then throw (SErr (from_io src dst IoOther))
        else modify (fun w => set_cfiles (<[dst := {| content := []; f_mtime_ms := wall n |}]> (c_files w)) w)
      else ret tt
  | None =>
      if fresh
      then modify (fun w => set_cfiles (<[dst := {| content := []; f_mtime_ms := wall n |}]> (c_files w)) w)
      else throw (SErr (from_io src dst NotFound))
  end.

(** [set_len] to the resumed prefix, then seek both files. *)
Definition rewind_dst (src dst : path) (offset : Z) : CM unit :=
  call_or src dst ;;
  let! n := gets c_calls in
  modify (fun w =>
    match c_files w !! dst with
    | Some f => set_cfiles (<[dst := {| content := take (Z.to_nat offset) (content f);
                                        f_mtime_ms := wall n |}]> (c_files w)) w
    | None => w
    end) ;;
  call_or src dst ;;
  call_or src dst.

(** ** The copy loop *)

(** [copied] doubles as the read position; [hashed] is what the verify
    hasher has been fed, [jhashed] what the journal hasher has. *)
Record LoopState := {
  copied : Z;
  pending_bytes : bytes;
  hashed : bytes;
  jhashed : bytes;
  last_emit_bytes : Z;
  first_progress_emitted : bool;
  was_paused : bool;
}.

Definition loop_start (offset : Z) (primed : bytes) : LoopState :=
  {| copied := offset; pending_bytes := []; hashed := []; jhashed := primed;
     last_emit_bytes := offset; first_progress_emitted := false; was_paused := false |}.

(** [reader.fill_buf()]: a non-empty piece of what is left, at most one
    buffer; empty at the end of the file. *)
Definition fill_buf (p : path) (buf_size pos : Z) : CM (result CopyErrorKind bytes) :=
  let! n := gets c_calls in
  let! r := call in
  match r with
  | Some k => ret (Err k)
  | None =>
      let! f := file_at p in
      ret (Ok (take (Nat.max 1 (Nat.min (chunk n) (Z.to_nat buf_size)))
                    (drop (Z.to_nat pos) (default [] (content <$> f)))))
  end.

(** The pause half of an iteration; [true]: cancelled while waiting. *)
Definition pause_point (paused_before : bool) : CM bool :=
  (if paused_before then ret tt else emit Paused) ;;
  wait_paused ;;
  let! c := load in
  if c =? CANCELLED then ret true else (emit Resumed ;; ret false).

(** [flush], [sync_data] and the journal checkpoint; neither failure stops
    the copy. *)
Definition journal_checkpoint (opts : CopyOptions) (dst : path) (total : Z) (l : LoopState)
    : CM LoopState :=
  if negb (journaled opts) then ret l
  else
    let! (_, pend) := flush dst (pending_bytes l) in
    call ;;
    modify (fun w => set_sink (js_checkpoint (c_sink w) (journal_file_idx opts) dst (copied l) total
                                 (b3 (jhashed l))) w) ;;
    ret {| copied := copied l; pending_bytes := pend; hashed := hashed l; jhashed := jhashed l;
           last_emit_bytes := last_emit_bytes l;
           first_progress_emitted := first_progress_emitted l; was_paused := was_paused l |}.

Definition progress_point (opts : CopyOptions) (dst : path) (total : Z) (l : LoopState)
    : CM LoopState :=
  let! n := gets c_calls in
  if (PROGRESS_MIN_BYTES <=? sat_sub64 (copied l) (last_emit_bytes l))
     && (negb (first_progress_emitted l) || due n)
  then
    emit (Progress (copied l) total) ;;
    journal_checkpoint opts dst total
      {| copied := copied l; pending_bytes := pending_bytes l; hashed := hashed l;
         jhashed := jhashed l; last_emit_bytes := copied l; first_progress_emitted := true;
         was_paused := was_paused l |}
  else ret l.

(** What the loop ends with: [Ok] at the end of the source, or the error. *)
Fixpoint copy_loop (fuel : nat) (src dst : path) (opts : CopyOptions) (buf_size total : Z)
    (l : LoopState) : CM (result CopyError LoopState) :=
  match fuel with
  | O => throw SStuck
  | Datatypes.S fuel =>
      let! c := load in
      if c =? CANCELLED then ret (Err (copy_cancelled src dst))
      else
        let! p := load in
        if p =? PAUSED then
          let! stop := pause_point (was_paused l) in
          if stop then ret (Err (copy_cancelled src dst))
          else copy_loop fuel src dst opts buf_size total
                 {| copied := copied l; pending_bytes := pending_bytes l; hashed := hashed l;
                    jhashed := jhashed l; last_emit_bytes := last_emit_bytes l;
                    first_progress_emitted := first_progress_emitted l; was_paused := false |}
        else
          let! b := fill_buf src buf_size (copied l) in
          match b with
          | Err k => ret (Err (from_io src dst k))
          | Ok [] => ret (Ok l)
          | Ok buf =>
              let! (e, pend) := write_all src dst (pending_bytes l) buf in
              match e with
              | Some e => ret (Err e)
              | None =>
                  let! l' := progress_point opts dst total
                    {| copied := copied l + Z.of_nat (length buf); pending_bytes := pend;
                       hashed := hashed l ++ buf; jhashed := jhashed l ++ buf;
                       last_emit_bytes := last_emit_bytes l;
                       first_progress_emitted := first_progress_emitted l;
                       was_paused := was_paused l |} in
                  copy_loop fuel src dst opts buf_size total l'
              end
          end
  end.

(** ** After the loop *)

(** [set_file_times] and [set_permissions]. *)
Definition preserve_metadata (src dst : path) (opts : CopyOptions) (mtime : Z)
    : CM (option CopyError) :=
  let! t :=
    if preserve_times opts then
      let! r := call in
      match r with
      | Some k => ret (Some (from_io src dst k))
      | None =>
          modify (fun w =>
            match c_files w !! dst with
            | Some f => set_cfiles (<[dst := {| content := content f; f_mtime_ms := mtime |}]> (c_files w)) w
            | None => w
            end) ;;
          ret None
      end
    else ret None in
  match t with
  | Some e => ret (Some e)
  | None =>
      if preserve_permissions opts then
        let! r := call in ret (match r with Some k => Some (from_io src dst k) | None => None end)
      else ret None
  end.

(** The re-read of the destination: [Ok] with its bytes, or the error. *)
Fixpoint verify_loop (fuel : nat) (src dst : path) (opts : CopyOptions) (total processed last : Z)
    (acc : bytes) : CM (result CopyError bytes) :=
  match fuel with
  | O => throw SStuck
  | Datatypes.S fuel =>
      let! c := load in
      if c =? CANCELLED then ret (Err (copy_cancelled src dst))
      else
        let! p := load in
        if p =? PAUSED then
          wait_paused ;;
          let! c := load in
          if c =? CANCELLED then ret (Err (copy_cancelled src dst))
          else verify_loop fuel src dst opts total processed last acc
        else
          let! b := fill_buf dst (clamped_buffer_size opts) processed in
          match b with
          | Err k => ret (Err (from_io src dst k))
          | Ok [] => ret (Ok acc)
          | Ok buf =>
              let processed := processed + Z.of_nat (length buf) in
              let! n := gets c_calls in
              if (PROGRESS_MIN_BYTES <=? sat_sub64 processed last) && due n then
                emit (VerifyProgress processed total) ;;
                verify_loop fuel src dst opts total processed processed (acc ++ buf)
              else verify_loop fuel src dst opts total processed last (acc ++ buf)
          end
  end.

(** Iterations a loop over [p] can take: one per byte or per flag seen. *)
Definition loop_fuel (p : path) : CM nat :=
  let! w := gets id in
  ret (2 + length (default [] (content <$> c_files w !! p)) + length (c_flags w))%nat.

Definition run_verify_pass (src dst : path) (opts : CopyOptions) (v : Verifier) (src_bytes : bytes)
    : CM (option CopyError) :=
  let src_digest := v_hash v src_bytes in
  let! m := call in
  let! f := file_at dst in
  match m, f with
  | Some k, _ => ret (Some (from_io src dst k))
  | None, None => ret (Some (from_io src dst NotFound))
  | None, Some f =>
      let total := file_len f in
      emit (VerifyStarted (v_name v) total) ;;
      let! o := call in
      match o with
      | Some k => ret (Some (from_io src dst k))
      | None =>
          let! fuel := loop_fuel dst in
          let! r := verify_loop fuel src dst opts total 0 0 [] in
          match r with
          | Err e => ret (Some e)
          | Ok dst_bytes =>
              let dst_digest := v_hash v dst_bytes in
              if String.eqb src_digest dst_digest
              then emit (VerifyCompleted (v_name v) src_digest dst_digest) ;; ret None
              else emit (EvVerifyFailed (v_name v) src_digest dst_digest) ;;
                   ret (Some (verify_failed src dst))
          end
      end
  end.

(** Finalise the journal entry and report. *)
Definition report_done (src dst : path) (opts : CopyOptions) (l : LoopState) : CM CopyReport :=
  (if journaled opts
   then modify (fun w => set_sink (js_finish_file (c_sink w) (journal_file_idx opts) (b3 (jhashed l))) w)
   else ret tt) ;;
  emit (Completed (copied l)) ;;
  ret {| cr_src := src; cr_dst := dst; cr_bytes := copied l |}.

(** Metadata, the last progress event and the verify pass. *)
Definition settle_copy (src dst : path) (opts : CopyOptions) (mtime total : Z) (l : LoopState)
    : CM CopyReport :=
  let! me := preserve_metadata src dst opts mtime in
  match me with
  | Some e => finalize_error opts dst e
  | None =>
      emit (Progress (copied l) total) ;;
      let! ve := match verify opts with
                 | Some v => run_verify_pass src dst opts v (hashed l)
                 | None => ret None
                 end in
      match ve with
      | Some e => finalize_error opts dst e
      | None => report_done src dst opts l
      end
  end.

(** The [Ok] arm after the loop. *)
Definition finish_copy (src dst : path) (opts : CopyOptions) (mtime total : Z) (l : LoopState)
    : CM CopyReport :=
  let! (fe, _) := flush dst (pending_bytes l) in
  match fe with
  | Some k => finalize_error opts dst (from_io src dst k)
  | None =>
      let should_fsync :=
        fsync_on_close opts
        || (match verify opts with Some _ => true | None => false end && fsync_before_verify opts) in
      let! se := if should_fsync then call else ret None in
      match se with
      | Some k => finalize_error opts dst (from_io src dst k)
      | None => settle_copy src dst opts mtime total l
      end
  end.

(** ** The whole copy *)

Definition resume_offset (d : ResumeDecision) : Z := match d with ResumeAt o _ => o | _ => 0 end.
Definition is_fresh (d : ResumeDecision) : bool := match d with FreshStart => true | _ => false end.

(** Open the source, snapshot what a fresh start overwrites, open the
    destination and move to the resumed offset. *)
Definition open_files (src dst : path) (opts : CopyOptions) (d : ResumeDecision) : CM unit :=
  call_or src dst ;;
  (if is_fresh d && negb (fail_if_exists opts) then maybe_snapshot_before_overwrite opts dst else ret tt) ;;
  open_dst src dst opts (is_fresh d) ;;
  (if 0 <? resume_offset d then rewind_dst src dst (resume_offset d) else ret tt).

(** Prime the journal hasher, run the loop and finish or clean up. *)
Definition run_loop (src dst : path) (opts : CopyOptions) (src_meta : File) (d : ResumeDecision)
    : CM CopyReport :=
  let total := file_len src_meta in
  let buf_size := buffer_size_for_file opts total in
  let! primed := if is_fresh d then ret [] else prime_prefix src dst (resume_offset d) in
  let! fuel := loop_fuel src in
  let! r := copy_loop fuel src dst opts buf_size total (loop_start (resume_offset d) primed) in
  match r with
  | Ok l => finish_copy src dst opts (f_mtime_ms src_meta) total l
  | Err e => finalize_error opts dst e
  end.

(** The dense path, from the resume probe on; [src_meta] is the source as
    its metadata was read. *)
Definition dense_copy (src dst : path) (opts : CopyOptions) (src_meta : File) : CM CopyReport :=
  let total := file_len src_meta in
  let! decision := decide_resume dst total opts in
  match decision with
  | DoneAlready final =>
      modify (fun w => set_sink (js_finish_file (c_sink w) (journal_file_idx opts) final) w) ;;
      emit (Started src dst total) ;;
      emit (Completed total) ;;
      ret {| cr_src := src; cr_dst := dst; cr_bytes := total |}
  | _ =>
      open_files src dst opts decision ;;
      emit (Started src dst total) ;;
      run_loop src dst opts src_meta decision
  end.

Definition escapes_jail (opts : CopyOptions) (dst : path) : bool :=
  match dest_jail_root opts with
  | None => false
  | Some jail =>
      let p := default [] (parent dst) in
      let canon_parent := default p (canonicalize p) in
      let canon_jail := default jail (canonicalize jail) in
      negb (path_starts_with canon_parent canon_jail)
  end.

(** Hand the copy to the hook: [None] falls through to the dense path. *)
Definition run_hook (hook : FastCopyHook) (src dst : path) (opts : CopyOptions)
    : CM (option CopyReport) :=
  let! n := gets c_calls in
  let! fs := gets c_files in
  let '(fs', outcome) := hook fs src dst n in
  modify (fun w => set_calls (n + 1) (set_cfiles fs' w)) ;;
  match outcome with
  | HookDone report => ret (Some report)
  | HookNotSupported =>
      match strategy opts with
      | AlwaysFast =>
          emit (EvFailed (from_io src dst IoOther)) ;; throw (SErr (from_io src dst IoOther))
      | _ => ret None
      end
  | HookErr e =>
      let! r := finalize_error opts dst e in ret (Some r)
  end.

(** The hook runs when one is configured and neither [verify] nor the
    strategy rules it out. *)
Definition try_fast_copy (src dst : path) (opts : CopyOptions) : CM (option CopyReport) :=
  match verify opts, strategy opts, fast_copy_hook opts with
  | Some _, _, _ | _, AlwaysAsync, _ | _, _, None => ret None
  | None, _, Some hook =>
      (if fail_if_exists opts then ret tt else maybe_snapshot_before_overwrite opts dst) ;;
      run_hook hook src dst opts
  end.

(** The hook, or else the dense path. *)
Definition plain_copy (src dst : path) (opts : CopyOptions) (src_meta : File) : CM CopyReport :=
  let! fast := try_fast_copy src dst opts in
  match fast with
  | Some report => ret report
  | None => dense_copy src dst opts src_meta
  end.

Definition copy_file (src dst : path) (opts : CopyOptions) : CM CopyReport :=
  match validate_path_no_traversal src, validate_path_no_traversal dst with
  | Some _, _ | _, Some _ => throw (SErr (path_escape src dst))
  | None, None =>
      if escapes_jail opts dst then throw (SErr (path_escape src dst))
      else
        call_or src dst ;;
        let! m := file_at src in
        match m with
        | None => throw (SErr (from_io src dst NotFound))
        | Some src_meta => plain_copy src dst opts src_meta
        end
  end.
End engine.
Arguments CopyWorld : clear implicits.
