(* ===== verification/CopyWp.v ===== *)
(** * The copy engine, call by call

    The section fixes one copy: the tree [F] it starts from, the source file
    [f], the steering flags and the sink.  [base] is what every point of the
    copy keeps: the files other than the destination are those of [F], and
    whatever the journal offers for this file is true of the source's bytes.
    [G] stands for the assumption that every outside call works and nothing is
    refused, [H] for the assumption that moreover nobody cancels and the disk
    is honest: under [H] the copy cannot fail. *)
From S2P Require Import Prelude.
From S2P Require Import Text.
From S2P Require Import Monad.
From S2P Require Import Files.
From S2P Require Import Control.
From S2P Require Import CopyTypes.
From S2P Require Import CopyFile.
From stdpp Require Import options.
Open Scope Z_scope.
#[local] Open Scope monad_scope.

(** What a resume plan claims about the source's bytes. *)
Definition plan_true `{!CopyEnv} (b : bytes) (p : CoreResumePlan) : Prop :=
  match p with
  | CResume o h => 0 < o <= Z.of_nat (length b) /\ h = b3 (take (Z.to_nat o) b)
  | CRestart => True
  | CAlreadyComplete h => h = b3 b
  end.

Section engine.
Context {S : Type} {JS : JournalSink S} {EN : CopyEnv}.
#[local] Abbreviation CM := (SM (CopyWorld S) Stop).

(** The journal tells the truth about a source with bytes [b]. *)
Definition truthful (idx : Z) (b : bytes) (s : S) : Prop :=
  forall p, js_offers s idx p -> plan_true b p.

Definition honest : Prop := forall n b, disk n b = b.

Context (src dst : path) (opts : CopyOptions) (F : FileTree) (f : File) (G H : Prop).
Context (Hne : src <> dst) (Hsrc : F !! src = Some f) (Hio : G -> forall n, io n = Fine) (HG : H -> G).
#[local] Abbreviation b := (content f).
#[local] Abbreviation idx := (journal_file_idx opts).

Record base (w : CopyWorld S) : Prop := {
  b_frame : forall p, p <> dst -> c_files w !! p = F !! p;
  b_true : truthful idx b (c_sink w);
  b_flags : H -> CANCELLED ∉ c_flags w;
}.

Lemma base_src w : base w -> c_files w !! src = Some f.
Proof using Hne Hsrc. intros B. by rewrite (b_frame w B). Qed.

(** The part of the world that matters is as it was. *)
Definition quiet (w w' : CopyWorld S) : Prop :=
  c_files w' = c_files w /\ c_sink w' = c_sink w /\ c_flags w' = c_flags w.

#[export] Instance quiet_preorder : PreOrder quiet.
Proof using Type.
  unfold quiet. split; [done|]. intros ??? (?&?&?) (?&?&?). split_and!; congruence.
Qed.

Lemma base_quiet w w' : quiet w w' -> base w -> base w'.
Proof using Type. intros (Ef&Es&El) [B1 B2 B3]. split; by rewrite ?Ef, ?Es, ?El. Qed.

(** Only the destination changed. *)
Lemma base_files w fs :
  (forall p, p <> dst -> fs !! p = c_files w !! p) -> base w -> base (set_cfiles fs w).
Proof using Type. intros Hfs [B1 B2 B3]. split; [|done|done]. intros p Hp. simpl. by rewrite Hfs, B1. Qed.

(** How the copy may stop early: when only the verdict on the copy can be
    bad ([G]), the partial destination is gone. *)
Definition stopped (e : Stop) (w : CopyWorld S) : Prop :=
  base w /\ e <> SStuck /\ ~ H /\ (G -> keep_partial opts = false -> c_files w !! dst = None).

(** A computation that stops early only when something went wrong. *)
Definition ends {A} (m : CM A) (Q : A -> CopyWorld S -> Prop) (w : CopyWorld S) : Prop :=
  wp m (fun r w' => match r with Ok a => Q a w' | Err e => stopped e w' end) w.

Lemma ends_ret {A} (a : A) (Q : A -> CopyWorld S -> Prop) w : Q a w -> ends (ret a) Q w.
Proof using Type. done. Qed.

Lemma ends_throw {A} e (Q : A -> CopyWorld S -> Prop) w : stopped e w -> ends (throw e) Q w.
Proof using Type. done. Qed.

Lemma ends_bind {A B} (m : CM A) (k : A -> CM B) Q w :
  ends m (fun a w' => ends (k a) Q w') w -> ends (bind m k) Q w.
Proof using Type.
  unfold ends, wp, bind. destruct (m w) as [[a|e] w']; done.
Qed.

Lemma ends_mono {A} (m : CM A) (Q Q' : A -> CopyWorld S -> Prop) w :
  ends m Q w -> (forall a w', Q a w' -> Q' a w') -> ends m Q' w.
Proof using Type. unfold ends, wp. destruct (m w) as [[a|e] w']; simpl; auto. Qed.

Lemma ends_gets {A} (g : CopyWorld S -> A) (Q : A -> CopyWorld S -> Prop) w : Q (g w) w -> ends (gets g) Q w.
Proof using Type. done. Qed.

Lemma ends_modify g (Q : unit -> CopyWorld S -> Prop) w : Q tt (g w) -> ends (modify g) Q w.
Proof using Type. done. Qed.

Lemma ends_emit e (Q : unit -> CopyWorld S -> Prop) w :
  (forall w', quiet w w' -> Q tt w') -> ends (emit e) Q w.
Proof using Type. intros HQ. by apply HQ. Qed.

Lemma not_G n (e : IoOutcome) : io n = e -> e <> Fine -> ~ G.
Proof using Hio. intros E He HH. rewrite Hio in E by done. congruence. Qed.

Lemma stopped_fault e w : base w -> e <> SStuck -> ~ G -> stopped e w.
Proof using HG. intros. split_and!; [done|done|auto|done]. Qed.

Lemma ends_call (Q : option CopyErrorKind -> CopyWorld S -> Prop) w :
  base w ->
  (forall w', quiet w w' -> Q None w') ->
  (forall w' k, quiet w w' -> ~ G -> Q (Some k) w') ->
  ends call Q w.
Proof using Hio HG.
  intros B H1 H2. unfold call. apply ends_bind, ends_gets, ends_bind, ends_modify.
  assert (quiet w (set_calls (c_calls w + 1) w)) as Hq by done.
  destruct (io (c_calls w)) eqn:E.
  - by apply H1.
  - apply H2; [done|]. by eapply not_G.
  - apply stopped_fault; [by eapply base_quiet|done|]. by eapply not_G.
Qed.

Lemma ends_call_or (Q : unit -> CopyWorld S -> Prop) w :
  base w -> (forall w', quiet w w' -> Q tt w') -> ends (call_or src dst) Q w.
Proof using Hio HG.
  intros B HQ. apply ends_bind, ends_call; [done|auto|].
  intros w' k Hq HnG. apply stopped_fault; [by eapply base_quiet|done|done].
Qed.

(** ** The flags *)

Definition flags_left (w w' : CopyWorld S) : Prop :=
  c_files w' = c_files w /\ c_sink w' = c_sink w /\ c_flags w' `suffix_of` c_flags w.

Lemma base_flags_left w w' : flags_left w w' -> base w -> base w'.
Proof using Type.
  intros (Ef&Es&[k El]) [B1 B2 B3]. split; rewrite ?Ef, ?Es; [done|done|].
  intros HH Hin. apply (B3 HH). rewrite El. apply elem_of_app. by right.
Qed.

Lemma flags_left_trans w1 w2 w3 : flags_left w1 w2 -> flags_left w2 w3 -> flags_left w1 w3.
Proof using Type. intros (?&?&?) (?&?&?). split_and!; [congruence..|by etrans]. Qed.

Lemma quiet_flags_left w w' : quiet w w' -> flags_left w w'.
Proof using Type. intros (?&?&E). split_and!; [done..|by rewrite E]. Qed.

Lemma ends_load (Q : Z -> CopyWorld S -> Prop) w :
  base w ->
  (forall v w', flags_left w w' -> (v = CANCELLED -> ~ H) ->
     (v = PAUSED -> (length (c_flags w') < length (c_flags w))%nat) -> Q v w') ->
  ends load Q w.
Proof using Type.
  intros B HQ. unfold load. apply ends_bind, ends_gets.
  destruct (c_flags w) as [|v r] eqn:E.
  - apply ends_ret, HQ; [split_and!; [done..|by rewrite E]|done|done].
  - destruct (Z.eqb_spec v CANCELLED) as [->|Hv].
    + apply ends_ret, HQ; [split_and!; [done..|by rewrite E]| |done].
      intros _ HH. apply (b_flags w B HH). rewrite E. left.
    + apply ends_bind, ends_modify, ends_ret, HQ; [|done|].
      * split_and!; [done..|]. simpl. rewrite E. by exists [v].
      * intros _. simpl. lia.
Qed.

Lemma wait_flags_suffix l : wait_flags l `suffix_of` l.
Proof using Type.
  induction l as [|v r IH]; simpl; [done|].
  destruct (v =? PAUSED); [by apply suffix_cons_r|]. destruct (v =? CANCELLED); [done|].
  by exists [v].
Qed.

Lemma ends_wait_paused (Q : unit -> CopyWorld S -> Prop) w :
  (forall w', flags_left w w' -> Q tt w') -> ends wait_paused Q w.
Proof using Type.
  intros HQ. apply ends_modify, HQ. split_and!; [done..|]. apply wait_flags_suffix.
Qed.

(** ** The destination *)

(** The destination is a file with some bytes; what the engine wrote there
    is [t] when the disk is honest. *)
Definition holds (t : bytes) (w : CopyWorld S) : Prop :=
  exists g, c_files w !! dst = Some g /\ (honest -> content g = t).

Lemma holds_quiet t w w' : c_files w' = c_files w -> holds t w -> holds t w'.
Proof using Type. intros E. unfold holds. by rewrite E. Qed.

Lemma ends_append (x : bytes) t (Q : unit -> CopyWorld S -> Prop) w :
  base w -> holds t w ->
  (forall w', base w' -> holds (t ++ x) w' -> c_flags w' = c_flags w -> c_sink w' = c_sink w -> Q tt w') ->
  ends (append_bytes dst x) Q w.
Proof using Type.
  intros B (g & Hg & Ht) HQ. unfold append_bytes. apply ends_bind, ends_gets.
  change (id w) with w. rewrite Hg. apply ends_modify, HQ; [| |done|done].
  - apply base_files; [|done]. intros p Hp. by apply lookup_insert_ne.
  - eexists. simpl. rewrite lookup_insert_eq. split; [done|]. intros Hh. simpl.
    by rewrite (Hh _ x), Ht.
Qed.

Lemma ends_write_all (pend buf t : bytes) (Q : option CopyError * bytes -> CopyWorld S -> Prop) w :
  base w -> holds t w ->
  (forall e pend' t' w', base w' -> holds t' w' -> t' ++ pend' = t ++ pend ++ buf ->
     c_flags w' = c_flags w -> (is_Some e -> ~ G) -> Q (e, pend') w') ->
  ends (write_all src dst pend buf) Q w.
Proof using Hio HG.
  intros B Ht HQ. unfold write_all. apply ends_bind, ends_gets, ends_bind.
  set (k := drain (c_calls w)). set (all := pend ++ buf).
  assert (forall w' r, quiet w w' -> (is_Some r -> ~ G) ->
    ends (append_bytes dst (take k all) ;;
          ret (match r with None => None | Some x => Some (from_io src dst x) end, drop k all)) Q w') as Hgo.
  { intros w' r Hq Hr. pose proof Hq as (Ef&_&El). apply ends_bind.
    apply (ends_append _ t); [by eapply base_quiet|by eapply holds_quiet|].
    intros w2 B2 H2 El2 _. apply ends_ret, (HQ _ _ (t ++ take k all)); [done..| |congruence|].
    - by rewrite <- app_assoc, take_drop.
    - intros [x Hx]. apply Hr. destruct r; [eauto|done]. }
  apply ends_call; [done| |].
  - intros w' Hq. apply (Hgo w' None Hq). by intros [? ?].
  - intros w' x Hq HnH. by apply (Hgo w' (Some x) Hq).
Qed.

Lemma ends_flush (pend t : bytes) (Q : option CopyErrorKind * bytes -> CopyWorld S -> Prop) w :
  base w -> holds t w ->
  (forall e pend' t' w', base w' -> holds t' w' -> t' ++ pend' = t ++ pend ->
     c_flags w' = c_flags w -> c_sink w' = c_sink w ->
     match e with None => pend' = [] | Some _ => ~ G end -> Q (e, pend') w') ->
  ends (flush dst pend) Q w.
Proof using Hio HG.
  intros B Ht HQ. unfold flush. apply ends_bind, ends_call; [done| |].
  - intros w' Hq. pose proof Hq as (Ef&Es&El). apply ends_bind.
    apply (ends_append _ t); [by eapply base_quiet|by eapply holds_quiet|].
    intros w2 B2 H2 El2 Es2. apply ends_ret, (HQ _ _ (t ++ pend)); [done..| |congruence|congruence|done].
    by rewrite app_nil_r.
  - intros w' k Hq HnH. pose proof Hq as (Ef&Es&El).
    apply ends_ret, (HQ _ _ t); [by eapply base_quiet|by eapply holds_quiet|done..].
Qed.

(** ** Ending with an error *)

(** Nothing goes wrong under [H], so an error can be reported at will. *)
Lemma ends_finalize_error {Q : CopyReport -> CopyWorld S -> Prop} e w :
  base w -> ~ H -> ends (finalize_error opts dst e) Q w.
Proof using Hio HG.
  intros B HnH. unfold finalize_error. apply ends_bind.
  assert (forall w', base w' -> (G -> keep_partial opts = false -> c_files w' !! dst = None) ->
    ends (emit (EvFailed e) ;; throw (SErr e)) Q w') as Hgo.
  { intros w' B' Hgone. apply ends_bind, ends_emit. intros w2 Hq. apply ends_throw.
    split_and!; [by eapply base_quiet|done|done|]. destruct Hq as (->&_). done. }
  destruct (keep_partial opts) eqn:Ek; [by apply ends_ret, Hgo|].
  apply ends_bind, ends_call; [done| |].
  - intros w' Hq. apply ends_modify, Hgo.
    + apply base_files; [|by eapply base_quiet]. intros p Hp. by apply lookup_delete_ne.
    + intros _ _. apply lookup_delete_eq.
  - intros w' k Hq HnG. apply ends_ret, Hgo; [by eapply base_quiet|done].
Qed.
End engine.
