(* ===== verification/CopyProof.v ===== *)
(** * The copy engine, stage by stage: probe, loop, verify, finish

    Each stage is shown to keep [base] and to end in the state the next one
    needs; [ends_copy_file] composes them.

    The second part holds the rules of single calls that need no assumption
    on the environment. *)
From S2P Require Import Prelude.
From S2P Require Import Text.
From S2P Require Import Monad.
From S2P Require Import Files.
From S2P Require Import Control.
From S2P Require Import CopyTypes.
From S2P Require Import CopyFile.
From S2P Require Import CopyWp.
From stdpp Require Import options.
Open Scope Z_scope.
#[local] Open Scope monad_scope.

(** Reading on from a prefix. *)
Lemma take_next {A} (l : list A) n k :
  take n l ++ take k (drop n l) = take (n + length (take k (drop n l))) l.
Proof.
  rewrite <- take_take_drop. f_equal. rewrite length_take.
  destruct (decide (k <= length (drop n l))%nat).
  - by rewrite Nat.min_l.
  - rewrite Nat.min_r, firstn_all by lia. by rewrite take_ge by lia.
Qed.

Lemma take_to_nat_all {A} (l : list A) n : n = Z.of_nat (length l) -> take (Z.to_nat n) l = l.
Proof. intros ->. rewrite Nat2Z.id. by apply take_ge. Qed.

(** An error of a call refutes the assumption that none fails. *)
Ltac by_fault :=
  let HH := fresh in
  intros HH; match goal with E : is_Some _ -> ~ _ |- _ => apply E; eauto end.

Section engine.
Context {S : Type} {JS : JournalSink S} {EN : CopyEnv}.
#[local] Abbreviation CM := (SM (CopyWorld S) Stop).
Context (src dst : path) (opts : CopyOptions) (F : FileTree) (f : File) (G H : Prop).
Context (Hne : src <> dst) (Hsrc : F !! src = Some f) (Hio : G -> forall n, io n = Fine) (HG : H -> G).
Context (Hinj : Inj (=) (=) b3).
#[local] Abbreviation b := (content f).
#[local] Abbreviation base := (CopyWp.base dst opts F f H).
#[local] Abbreviation stopped := (CopyWp.stopped dst opts F f G H).
#[local] Abbreviation ends := (CopyWp.ends dst opts F f G H).
#[local] Abbreviation holds := (CopyWp.holds dst).
#[local] Abbreviation quiet := (CopyWp.quiet (S := S)).

(** ** The resume probe *)

Lemma ends_hash_prefix n g (Q : option Digest -> CopyWorld S -> Prop) w :
  base w -> c_files w !! dst = Some g ->
  (forall w', quiet w w' -> Q None w') ->
  (forall w', quiet w w' -> n <= file_len g -> Q (Some (b3 (take (Z.to_nat n) (content g)))) w') ->
  ends (hash_dst_prefix dst n) Q w.
Proof using Hio HG.
  intros B Hg H1 H2. unfold hash_dst_prefix. apply ends_bind, ends_call; [done..| |].
  2: { intros w' k Hq _. by apply ends_ret, H1. }
  intros w1 Hq1. apply ends_bind, ends_call; [done|done|by eapply base_quiet| |].
  - intros w2 Hq2. assert (quiet w w2) as Hq by (by etrans). apply ends_bind, ends_gets.
    destruct Hq as (Ef&Es&El). rewrite Ef, Hg. destruct (n <=? file_len g) eqn:E; apply ends_ret.
    + apply H2; [by split_and!|lia].
    + apply H1. by split_and!.
  - intros w2 k Hq2 _. apply ends_bind, ends_gets, ends_ret, H1. by etrans.
Qed.

Definition decision_ok (d : ResumeDecision) (w : CopyWorld S) : Prop :=
  match d with
  | FreshStart => True
  | ResumeAt o _ =>
      verify opts = None /\ journaled opts = true /\ 0 < o <= Z.of_nat (length b) /\
      exists g, c_files w !! dst = Some g /\ o <= file_len g /\
        take (Z.to_nat o) (content g) = take (Z.to_nat o) b
  | DoneAlready h =>
      journaled opts = true /\ h = b3 b /\ exists g, c_files w !! dst = Some g /\ content g = b
  end.

Definition same_tree (w w' : CopyWorld S) : Prop :=
  c_files w' = c_files w /\ c_flags w' = c_flags w.

Lemma ends_abort r o w0 w (Q : ResumeDecision -> CopyWorld S -> Prop) :
  base w -> same_tree w0 w ->
  (forall d w', base w' -> same_tree w0 w' -> decision_ok d w' -> Q d w') ->
  ends (abort_resume r o) Q w.
Proof using Type.
  intros B (Ef&El) HQ. apply ends_bind, ends_emit. intros w' Hq. apply ends_ret, HQ; [| |done].
  - by eapply base_quiet.
  - destruct Hq as (?&_&?). split; congruence.
Qed.

Lemma ends_decide_resume (Q : ResumeDecision -> CopyWorld S -> Prop) w :
  base w ->
  (forall d w', base w' -> same_tree w w' -> decision_ok d w' -> Q d w') ->
  ends (decide_resume dst (file_len f) opts) Q w.
Proof using Hio HG Hinj.
  intros B HQ. unfold decide_resume. destruct (journaled opts) eqn:Ej; cbn [negb].
  2: { apply ends_ret, HQ; done. }
  assert (forall w', base w' -> same_tree w w' -> ends (ret FreshStart) Q w') as Hfresh.
  { intros w' B' Hs. apply ends_ret, HQ; done. }
  apply ends_bind, ends_call; [done..| |].
  2: { intros w1 k Hq _. apply ends_bind, ends_gets, Hfresh; [by eapply base_quiet|].
       destruct Hq as (?&_&?). by split. }
  intros w1 Hq1. assert (base w1) as B1 by (by eapply base_quiet).
  assert (same_tree w w1) as Hs1 by (destruct Hq1 as (?&_&?); by split).
  apply ends_bind, ends_gets. destruct (c_files w1 !! dst) as [g|] eqn:Hg; [|by apply Hfresh].
  destruct (file_len g =? 0); [by apply Hfresh|].
  apply ends_bind, ends_gets.
  pose proof (js_resume_plan_answer (c_sink w1) (journal_file_idx opts)) as Hans.
  pose proof (js_resume_plan_offers (c_sink w1) (journal_file_idx opts)) as Hoff.
  destruct (js_resume_plan _ _) as [plan s']. cbn [fst snd] in *.
  apply ends_bind, ends_modify. set (w2 := set_sink s' w1).
  assert (base w2) as B2.
  { destruct B1 as [P1 P2 P3]. split; [done| |done]. intros p Hp. apply P2, Hoff, Hp. }
  assert (same_tree w w2) as Hs2 by done. assert (c_files w2 !! dst = Some g) as Hg2 by done.
  assert (plan_true b plan) as Hplan.
  { destruct Hans as [->|Hans]; [done|]. by apply (b_true _ _ _ _ _ w1 B1). }
  assert (forall w3, quiet w2 w3 -> base w3 /\ same_tree w w3 /\ c_files w3 !! dst = Some g) as Hq.
  { intros w3 Hq. split; [by eapply base_quiet|]. destruct Hq as (Ef&_&El), Hs2 as (?&?).
    split; [split; congruence|congruence]. }
  destruct plan as [offset h| |h]; [| |].
  - destruct (verify opts) eqn:Ev; [by eapply ends_abort|].
    destruct (file_len g <? offset); [by eapply ends_abort|].
    apply ends_bind. eapply ends_hash_prefix; [done|done| |].
    + intros w3 (B3&Hs3&Hg3)%Hq. by eapply ends_abort.
    + intros w3 (B3&Hs3&Hg3)%Hq Hlen. destruct (String.eqb_spec (b3 (take (Z.to_nat offset) (content g))) h) as [E|].
      2: { by eapply ends_abort. }
      apply ends_ret, HQ; [done..|]. destruct Hplan as [Hr ->]. apply Hinj in E.
      split_and!; [done|done|lia|lia|]. exists g. by split_and!.
  - by apply Hfresh.
  - simpl in Hplan. subst h. destruct (Z.eqb_spec (file_len g) (file_len f)) as [El|]; cbn [negb].
    2: { by eapply ends_abort. }
    apply ends_bind. eapply ends_hash_prefix; [done|done| |].
    + intros w3 (B3&Hs3&Hg3)%Hq. by eapply ends_abort.
    + intros w3 (B3&Hs3&Hg3)%Hq _.
      destruct (String.eqb_spec (b3 (take (Z.to_nat (file_len g)) (content g))) (b3 b)) as [E|].
      2: { by eapply ends_abort. }
      apply Hinj in E. rewrite take_to_nat_all in E by done.
      apply ends_ret, HQ; [done..|]. split_and!; [done|done|]. by exists g.
Qed.

(** ** Opening *)

Lemma ends_prime o g (Q : bytes -> CopyWorld S -> Prop) w :
  base w -> c_files w !! dst = Some g ->
  (forall w', quiet w w' -> Q (take (Z.to_nat o) (content g)) w') ->
  ends (prime_prefix src dst o) Q w.
Proof using Hio HG.
  intros B Hg HQ. unfold prime_prefix. apply ends_bind, ends_call_or; [done..|].
  intros w1 Hq1. apply ends_bind, ends_call_or; [done|done|by eapply base_quiet|].
  intros w2 Hq2. assert (quiet w w2) as Hq by (by etrans). apply ends_bind, ends_gets, ends_ret.
  pose proof Hq as (Ef&_&_). rewrite Ef, Hg. by apply HQ.
Qed.

Lemma ends_snapshot (Q : unit -> CopyWorld S -> Prop) w :
  base w -> (forall w', base w' -> same_tree w w' -> Q tt w') ->
  ends (maybe_snapshot_before_overwrite opts dst) Q w.
Proof using Hio HG.
  intros B HQ. unfold maybe_snapshot_before_overwrite.
  destruct (versioning_enabled opts); cbn [negb]; [|by apply ends_ret, HQ].
  assert (forall w', quiet w w' -> base w' /\ same_tree w w') as Hq.
  { intros w' Hq. split; [by eapply base_quiet|]. destruct Hq as (?&_&?). by split. }
  apply ends_bind, ends_call; [done..| |].
  2: { intros w1 k Hq1 _. apply ends_bind, ends_gets, ends_ret, HQ; by apply Hq. }
  intros w1 Hq1. destruct (Hq w1 Hq1) as [B1 _]. apply ends_bind, ends_gets.
  destruct (c_files w1 !! dst); [|apply ends_ret, HQ; by apply Hq].
  apply ends_bind, ends_call; [done..| |].
  - intros w2 Hq2. assert (quiet w w2) as Hq' by (by etrans). destruct (Hq w2 Hq') as [B2 Hs2].
    apply ends_modify, HQ; [|done]. destruct B2 as [P1 P2 P3]. by split.
  - intros w2 k Hq2 _. assert (quiet w w2) as Hq' by (by etrans).
    apply ends_ret, HQ; by apply Hq.
Qed.

Lemma ends_open_fresh (Q : unit -> CopyWorld S -> Prop) w :
  base w -> (G -> fail_if_exists opts = false) ->
  (forall w', base w' -> (exists g, c_files w' !! dst = Some g /\ content g = []) -> Q tt w') ->
  ends (open_dst src dst opts true) Q w.
Proof using Hio HG.
  intros B HH HQ. unfold open_dst. apply ends_bind, ends_call_or; [done..|]. intros w1 Hq.
  assert (base w1) as B1 by (by eapply base_quiet).
  apply ends_bind, ends_gets, ends_bind, ends_gets.
  assert (ends (modify (fun w => set_cfiles (<[dst := {| content := []; f_mtime_ms := wall (c_calls w1) |}]>
            (c_files w)) w)) Q w1) as Hcreate.
  { apply ends_modify, HQ.
    - apply base_files; [|done]. intros p Hp. by apply lookup_insert_ne.
    - eexists. simpl. rewrite lookup_insert_eq. by split. }
  destruct (c_files w1 !! dst); [|done]. destruct (fail_if_exists opts) eqn:Ef; [|done].
  apply ends_throw, stopped_fault; [done..|]. intros HP. by apply HH in HP.
Qed.

(** The resumed destination is cut back to the prefix both files share. *)
Lemma ends_rewind o g (Q : unit -> CopyWorld S -> Prop) w :
  base w -> c_files w !! dst = Some g ->
  (forall g' w', base w' -> c_files w' !! dst = Some g' -> content g' = take (Z.to_nat o) (content g) -> Q tt w') ->
  ends (rewind_dst src dst o) Q w.
Proof using Hio HG.
  intros B Hg HQ. unfold rewind_dst. apply ends_bind, ends_call_or; [done..|].
  intros w2 Hq2. pose proof Hq2 as (Ef2&_&_).
  apply ends_bind, ends_gets, ends_bind, ends_modify. rewrite Ef2, Hg.
  set (g' := {| content := take _ _; f_mtime_ms := _ |}). set (w3 := set_cfiles _ w2).
  assert (base w3) as B3.
  { apply base_files; [|by eapply base_quiet]. intros p Hp. by rewrite Ef2, lookup_insert_ne. }
  apply ends_bind, ends_call_or; [done..|]. intros w4 Hq4. pose proof Hq4 as (Ef4&_&_).
  apply ends_call_or; [done|done|by eapply base_quiet|]. intros w5 Hq5. pose proof Hq5 as (Ef5&_&_).
  apply (HQ g'); [|rewrite Ef5, Ef4; simpl; by rewrite lookup_insert_eq|done].
  eapply base_quiet; [|exact B3]. by etrans.
Qed.

(** The files are open: the destination holds what both share so far. *)
Lemma ends_open_files d (Q : unit -> CopyWorld S -> Prop) w :
  base w -> decision_ok d w -> (forall h, d <> DoneAlready h) -> (G -> fail_if_exists opts = false) ->
  (forall w', base w' -> (exists g, c_files w' !! dst = Some g /\
                                    content g = take (Z.to_nat (resume_offset d)) b) -> Q tt w') ->
  ends (open_files src dst opts d) Q w.
Proof using Hio HG.
  intros B Hd Hnd HH HQ. unfold open_files. apply ends_bind, ends_call_or; [done..|]. intros w1 Hq1.
  pose proof Hq1 as (Ef1&_&_). assert (base w1) as B1 by (by eapply base_quiet).
  apply ends_bind. destruct d as [|o h|h]; [| |by destruct (Hnd h)]; cbn [is_fresh resume_offset andb].
  - assert (forall w2, base w2 -> ends (open_dst src dst opts true ;; (if 0 <? 0 then rewind_dst src dst 0 else ret tt))
              Q w2) as Hgo.
    { intros w2 B2. apply ends_bind, ends_open_fresh; [done..|].
      intros w3 B3 (g & Hg & Hc). apply ends_ret, HQ; [done|]. by exists g. }
    destruct (negb (fail_if_exists opts)); [|by apply ends_ret, Hgo].
    apply ends_snapshot; [done|]. intros w2 B2 _. by apply Hgo.
  - destruct Hd as (_ & _ & Ho & g & Hg & _ & Htake). apply ends_ret, ends_bind. unfold open_dst.
    apply ends_bind, ends_call_or; [done..|]. intros w2 Hq2. pose proof Hq2 as (Ef2&_&_).
    assert (base w2) as B2 by (by eapply base_quiet).
    apply ends_bind, ends_gets, ends_bind, ends_gets. rewrite Ef2, Ef1, Hg. apply ends_ret.
    destruct (Z.ltb_spec 0 o) as [_|]; [|lia]. apply (ends_rewind o g); [done|congruence|].
    intros g' w3 B3 Hg' Hc'. apply HQ; [done|]. exists g'. split; [done|]. by rewrite Hc', Htake.
Qed.

(** ** Reading *)

Lemma ends_fill_buf p c bs pos (Q : result CopyErrorKind bytes -> CopyWorld S -> Prop) w :
  base w -> content <$> c_files w !! p = Some c -> 0 <= pos <= Z.of_nat (length c) -> 0 < bs ->
  (forall w' k, quiet w w' -> ~ G -> Q (Err k) w') ->
  (forall w' buf, quiet w w' -> take (Z.to_nat pos) c ++ buf = take (Z.to_nat (pos + Z.of_nat (length buf))) c ->
     pos + Z.of_nat (length buf) <= Z.of_nat (length c) ->
     (buf = [] -> pos = Z.of_nat (length c)) -> Q (Ok buf) w') ->
  ends (fill_buf p bs pos) Q w.
Proof using Hio HG.
  intros B Hc Hpos Hbs H1 H2. unfold fill_buf. apply ends_bind, ends_gets, ends_bind, ends_call; [done..| |].
  2: { intros w1 k Hq HnH. by apply ends_ret, H1. }
  intros w1 Hq. apply ends_bind, ends_gets, ends_ret. pose proof Hq as (Ef&_&_). rewrite Ef, Hc. simpl.
  set (k := Nat.max 1 (Nat.min (chunk (c_calls w)) (Z.to_nat bs))).
  set (buf := take k (drop (Z.to_nat pos) c)).
  assert (length buf = Nat.min k (length c - Z.to_nat pos))%nat as Hlen.
  { unfold buf. by rewrite length_take, length_drop. }
  assert (1 <= k)%nat by (unfold k; lia).
  apply H2; [done| |lia|].
  - unfold buf. rewrite take_next. f_equal. fold buf. lia.
  - intros E. rewrite E in Hlen. simpl in Hlen. lia.
Qed.

(** ** The loop *)

Record loop_inv (l : LoopState) (w : CopyWorld S) : Prop := {
  li_range : 0 <= copied l <= Z.of_nat (length b);
  li_dst : exists t, holds t w /\ t ++ pending_bytes l = take (Z.to_nat (copied l)) b;
  li_hashed : verify opts <> None -> hashed l = take (Z.to_nat (copied l)) b;
  li_jhashed : journaled opts = true -> jhashed l = take (Z.to_nat (copied l)) b;
}.

Lemma loop_inv_files l w w' : c_files w' = c_files w -> loop_inv l w -> loop_inv l w'.
Proof using Type.
  intros E [I1 (t & It & Ip) I3 I4]. split; [done| |done|done].
  exists t. split; [|done]. by eapply holds_quiet.
Qed.

Lemma ends_checkpoint total l (Q : LoopState -> CopyWorld S -> Prop) w :
  base w -> loop_inv l w ->
  (forall l' w', base w' -> loop_inv l' w' -> copied l' = copied l -> c_flags w' = c_flags w -> Q l' w') ->
  ends (journal_checkpoint opts dst total l) Q w.
Proof using Hio HG.
  intros B I HQ. unfold journal_checkpoint. destruct (journaled opts) eqn:Ej; cbn [negb].
  2: { apply ends_ret, HQ; done. }
  destruct I as [Hr (t & Ht & Hp) Hh Hjh]. apply ends_bind. eapply ends_flush; [done..|].
  intros e pend t' w1 B1 Ht1 Hp1 El1 _ _. apply ends_bind.
  assert (forall w2, quiet w1 w2 -> ends
    (modify (fun w => set_sink (js_checkpoint (c_sink w) (journal_file_idx opts) dst (copied l) total
                                  (b3 (jhashed l))) w) ;;
     ret {| copied := copied l; pending_bytes := pend; hashed := hashed l; jhashed := jhashed l;
            last_emit_bytes := last_emit_bytes l;
            first_progress_emitted := first_progress_emitted l; was_paused := was_paused l |}) Q w2) as Hgo.
  { intros w2 Hq. pose proof Hq as (Ef&_&El). assert (base w2) as [P1 P2 P3] by (by eapply base_quiet).
    apply ends_bind, ends_modify, ends_ret, HQ; [| |done|simpl; congruence].
    - split; [done| |done]. intros p [Hp'|[_ ->]]%js_checkpoint_offers; [by apply P2|].
      unfold checkpoint_plan. destruct (Z.eqb_spec (copied l) 0); [done|]. split; [lia|]. by rewrite Hjh.
    - split; [done| |done|done]. exists t'. split; [by eapply holds_quiet|]. simpl. congruence. }
  apply ends_call; auto.
Qed.

Lemma ends_progress total l (Q : LoopState -> CopyWorld S -> Prop) w :
  base w -> loop_inv l w ->
  (forall l' w', base w' -> loop_inv l' w' -> copied l' = copied l -> c_flags w' = c_flags w -> Q l' w') ->
  ends (progress_point opts dst total l) Q w.
Proof using Hio HG.
  intros B I HQ. unfold progress_point. apply ends_bind, ends_gets.
  destruct (_ && _); [|by apply ends_ret, HQ].
  apply ends_bind, ends_emit. intros w1 Hq. pose proof Hq as (Ef&_&El).
  apply ends_checkpoint; [by eapply base_quiet| |].
  - destruct I as [Hr (t & Ht & Hp) Hh Hjh]. split; [done| |done|done].
    exists t. split; [|done]. by eapply holds_quiet.
  - intros l' w' B' I' Hc El'. apply HQ; [done|done|done|congruence].
Qed.

Lemma ends_pause paused (Q : bool -> CopyWorld S -> Prop) w :
  base w ->
  (forall s w', flags_left w w' -> (s = true -> ~ H) -> Q s w') ->
  ends (pause_point paused) Q w.
Proof using Type.
  intros B HQ. unfold pause_point. apply ends_bind.
  assert (forall w1, quiet w w1 -> ends (wait_paused ;;
    let! c := load in if c =? CANCELLED then ret true else (emit Resumed ;; ret false)) Q w1) as Hgo.
  { intros w1 Hq. apply ends_bind, ends_wait_paused. intros w2 Hl2.
    assert (flags_left w w2) as Hl by (eapply flags_left_trans; [by apply quiet_flags_left|done]).
    apply ends_bind, ends_load; [by eapply base_flags_left|].
    intros v w3 Hl3 Hv _. assert (flags_left w w3) by (by eapply flags_left_trans).
    destruct (Z.eqb_spec v CANCELLED) as [->|]; [by apply ends_ret, HQ; auto|].
    apply ends_bind, ends_emit. intros w4 Hq4. apply ends_ret, HQ; [|done].
    eapply flags_left_trans; [done|]. by apply quiet_flags_left. }
  destruct paused; [by apply ends_ret, Hgo|]. by apply ends_emit.
Qed.

Lemma flags_left_length (w w' : CopyWorld S) :
  flags_left w w' -> (length (c_flags w') <= length (c_flags w))%nat.
Proof using Type. intros (_&_&Hs). by apply suffix_length. Qed.

Lemma ends_copy_loop bs total fuel : forall l w,
  0 < bs -> base w -> loop_inv l w ->
  (Z.to_nat (Z.of_nat (length b) - copied l) + length (c_flags w) < fuel)%nat ->
  ends (copy_loop fuel src dst opts bs total l)
       (fun r w' => base w' /\ match r with
                                | Ok l' => loop_inv l' w' /\ copied l' = Z.of_nat (length b)
                                | Err _ => ~ H
                                end) w.
Proof using Hne Hsrc Hio HG.
  induction fuel as [|fuel IH]; intros l w Hbs B I Hfuel; [lia|]. cbn [copy_loop].
  apply ends_bind, ends_load; [done|]. intros c w1 Hl1 Hc _.
  assert (base w1) as B1 by (by eapply base_flags_left).
  destruct (Z.eqb_spec c CANCELLED) as [->|_]; [apply ends_ret; auto|].
  apply ends_bind, ends_load; [done|]. intros p w2 Hl2 _ Hp.
  assert (base w2) as B2 by (by eapply base_flags_left).
  pose proof (flags_left_length _ _ Hl1) as Hn1. pose proof (flags_left_length _ _ Hl2) as Hn2.
  assert (loop_inv l w2) as I2.
  { eapply loop_inv_files; [|exact I]. destruct Hl1 as (?&_&_), Hl2 as (?&_&_). congruence. }
  destruct (Z.eqb_spec p PAUSED) as [->|_].
  - apply ends_bind, ends_pause; [done|]. intros stop w3 Hl3 Hstop.
    assert (base w3) as B3 by (by eapply base_flags_left).
    destruct stop; [apply ends_ret; auto|].
    apply IH; [done|done| |].
    + assert (loop_inv l w3) as [J1 J2 J3 J4]; [|by split].
      eapply loop_inv_files; [|exact I2]. by destruct Hl3 as (?&_&_).
    + simpl. pose proof (flags_left_length _ _ Hl3). specialize (Hp eq_refl). lia.
  - destruct I2 as [Hr (t & Ht & Hpd) Hh Hjh].
    apply ends_bind, (ends_fill_buf _ b); [done| |done|done| |].
    + by rewrite (base_src src dst opts F f H).
    + intros w3 k Hq3 HnH. apply ends_ret. split; [by eapply base_quiet|auto].
    + intros w3 buf Hq3 Hnext Hle Hempty. pose proof Hq3 as (Ef3&_&El3).
      assert (base w3) as B3 by (by eapply base_quiet).
      assert (holds t w3) as Ht3 by (by eapply holds_quiet).
      destruct buf as [|x buf].
      { apply ends_ret. split; [done|]. split; [|by apply Hempty].
        split; [done| |done|done]. by exists t. }
      set (bf := x :: buf) in *. apply ends_bind, (ends_write_all _ _ _ F f G H Hio HG _ _ t); [done..|].
      intros e pend t' w4 B4 Ht4 Hp4 El4 He.
      assert (0 < length bf)%nat as Hlen by (simpl; lia). clearbody bf. 
      destruct e as [e|]; [apply ends_ret; split; [done|by_fault]|].
      apply ends_bind, ends_progress; [done| |].
      * assert (forall h, h = take (Z.to_nat (copied l)) b ->
                  h ++ bf = take (Z.to_nat (copied l + Z.of_nat (length bf))) b) as Hsnoc.
        { intros h ->. exact Hnext. }
        split; simpl; [lia| |auto|auto]. exists t'. split; [done|].
        rewrite Hp4, app_assoc. by apply Hsnoc.
      * intros l' w5 B5 I5 Hc5 El5. apply IH; [done..|]. rewrite Hc5, El5, El4, El3. simpl in *. lia.
Qed.

(** ** After the loop *)

(** The destination is the file [g], and nothing else changed. *)
Definition at_dst (g : File) (w : CopyWorld S) : Prop := c_files w !! dst = Some g.

Lemma ends_metadata g (Q : option CopyError -> CopyWorld S -> Prop) w :
  base w -> at_dst g w ->
  (forall e g' w', base w' -> at_dst g' w' -> content g' = content g ->
     (is_Some e -> ~ G) ->
     (e = None -> preserve_times opts = true -> f_mtime_ms g' = f_mtime_ms f) -> Q e w') ->
  ends (preserve_metadata src dst opts (f_mtime_ms f)) Q w.
Proof using Hio HG.
  intros B Hg HQ. unfold preserve_metadata. apply ends_bind.
  assert (forall w1 g1, base w1 -> at_dst g1 w1 -> content g1 = content g ->
    (preserve_times opts = true -> f_mtime_ms g1 = f_mtime_ms f) ->
    ends (if preserve_permissions opts then
            let! r := call in ret (match r with Some k => Some (from_io src dst k) | None => None end)
          else ret None) Q w1) as Hperm.
  { intros w1 g1 B1 Hg1 Hc1 Hm1. destruct (preserve_permissions opts).
    - assert (forall w2 r, quiet w1 w2 -> (is_Some r -> ~ G) ->
        ends (ret (match r with Some k => Some (from_io src dst k) | None => None end)) Q w2) as Hend.
      { intros w2 r Hq Hr. pose proof Hq as (Ef&_&_). apply ends_ret, (HQ _ g1);
          [by eapply base_quiet|unfold at_dst in *; congruence|done| |done].
        intros [e He]. apply Hr. destruct r; [eauto|done]. }
      apply ends_bind, ends_call; [done..| |].
      + intros w2 Hq. apply (Hend w2 None Hq). by intros [? ?].
      + intros w2 k Hq HnH. by apply (Hend w2 (Some k) Hq).
    - by apply ends_ret, (HQ _ g1). }
  destruct (preserve_times opts) eqn:Ept; [|by apply ends_ret, (Hperm w g)].
  apply ends_bind, ends_call; [done..| |].
  - intros w1 Hq. pose proof Hq as (Ef&_&_). apply ends_bind, ends_modify, ends_ret.
    unfold at_dst in Hg. rewrite Ef, Hg.
    eapply (Hperm _ {| content := content g; f_mtime_ms := f_mtime_ms f |}); [| |done|done].
    + apply base_files; [|by eapply base_quiet]. intros p Hp. by rewrite Ef, lookup_insert_ne.
    + unfold at_dst. simpl. by rewrite lookup_insert_eq.
  - intros w1 k Hq HnH. pose proof Hq as (Ef&_&_). apply ends_ret, ends_ret, (HQ _ g);
      [by eapply base_quiet|unfold at_dst in *; congruence|done|done|done].
Qed.

Lemma ends_verify_loop g total fuel : forall pos last acc w,
  base w -> at_dst g w -> 0 <= pos <= file_len g -> acc = take (Z.to_nat pos) (content g) ->
  (Z.to_nat (file_len g - pos) + length (c_flags w) < fuel)%nat ->
  ends (verify_loop fuel src dst opts total pos last acc)
       (fun r w' => base w' /\ at_dst g w' /\
          match r with Ok x => x = content g | Err _ => ~ H end) w.
Proof using Hio HG.
  induction fuel as [|fuel IH]; intros pos last acc w B Hg Hpos Hacc Hfuel; [lia|]. cbn [verify_loop].
  assert (forall w', flags_left w w' -> base w' /\ at_dst g w') as Hleft.
  { intros w' Hl. split; [by eapply base_flags_left|]. destruct Hl as (Ef&_). unfold at_dst in *. congruence. }
  apply ends_bind, ends_load; [done|]. intros c w1 Hl1 Hc _. destruct (Hleft _ Hl1) as [B1 G1].
  destruct (Z.eqb_spec c CANCELLED) as [->|_]; [apply ends_ret; auto|].
  apply ends_bind, ends_load; [done|]. intros p w2 Hl2 _ Hp.
  assert (flags_left w w2) as Hl by (by eapply flags_left_trans).
  destruct (Hleft _ Hl) as [B2 G2].
  pose proof (flags_left_length _ _ Hl1) as Hn1. pose proof (flags_left_length _ _ Hl2) as Hn2.
  destruct (Z.eqb_spec p PAUSED) as [->|_].
  - apply ends_bind, ends_wait_paused. intros w3 Hl3.
    assert (flags_left w w3) as Hl3' by (by eapply flags_left_trans). destruct (Hleft _ Hl3') as [B3 G3].
    apply ends_bind, ends_load; [done|]. intros v w4 Hl4 Hv _.
    assert (flags_left w w4) as Hl4' by (by eapply flags_left_trans). destruct (Hleft _ Hl4') as [B4 G4].
    destruct (Z.eqb_spec v CANCELLED) as [->|_]; [apply ends_ret; auto|].
    apply IH; [done..|]. pose proof (flags_left_length _ _ Hl3). pose proof (flags_left_length _ _ Hl4).
    specialize (Hp eq_refl). lia.
  - apply ends_bind, (ends_fill_buf _ (content g)); [done| |done| | |].
    + unfold at_dst in G2. by rewrite G2.
    + unfold clamped_buffer_size, clamp, MIN_BUFFER_SIZE, MAX_BUFFER_SIZE. lia.
    + intros w3 k Hq HnH. pose proof Hq as (Ef&_&_). apply ends_ret.
      split_and!; [by eapply base_quiet| |auto].
      unfold at_dst in *. congruence.
    + intros w3 buf Hq3 Hnext Hle Hempty. pose proof Hq3 as (Ef3&_&El3).
      assert (base w3) as B3 by (by eapply base_quiet).
      assert (at_dst g w3) as G3 by (unfold at_dst in *; congruence).
      destruct buf as [|x buf].
      { apply ends_ret. split_and!; [done|done|]. rewrite Hacc. by apply take_to_nat_all, Hempty. }
      set (bf := x :: buf) in *. apply ends_bind, ends_gets.
      assert (0 < length bf)%nat as Hlen by (simpl; lia). clearbody bf.
      destruct (_ && _).
      * apply ends_bind, ends_emit. intros w4 Hq4. pose proof Hq4 as (Ef4&_&El4).
        apply IH; [by eapply base_quiet|unfold at_dst in *; congruence|unfold file_len in *; lia| |].
        -- by rewrite Hacc, Hnext.
        -- rewrite El4, El3. unfold file_len in *. lia.
      * apply IH; [done|done|unfold file_len in *; lia| |].
        -- by rewrite Hacc, Hnext.
        -- rewrite El3. unfold file_len in *. lia.
Qed.

Lemma ends_verify_pass v g (Q : option CopyError -> CopyWorld S -> Prop) w :
  base w -> at_dst g w -> (H -> content g = b) ->
  (forall e w', base w' -> at_dst g w' -> (is_Some e -> ~ H) ->
     (e = None -> v_hash v (content g) = v_hash v b) -> Q e w') ->
  ends (run_verify_pass src dst opts v b) Q w.
Proof using Hio HG.
  intros B Hg HHb HQ. unfold run_verify_pass.
  assert (forall w' e, quiet w w' -> ~ H -> ends (ret (Some e)) Q w') as Herr.
  { intros w' e Hq HnH. pose proof Hq as (Ef&_&_). apply ends_ret, HQ;
      [by eapply base_quiet|unfold at_dst in *; congruence|done|done]. }
  apply ends_bind, ends_call; [done..| |].
  2: { intros w1 k Hq HnH. apply ends_bind, ends_gets, Herr; auto. }
  intros w1 Hq1. apply ends_bind, ends_gets. pose proof Hq1 as (Ef1&_&El1).
  unfold at_dst in Hg. rewrite Ef1, Hg.
  apply ends_bind, ends_emit. intros w2 Hq2. assert (quiet w w2) as Hq2' by (by etrans).
  apply ends_bind, ends_call; [done|done|by eapply base_quiet| |].
  2: { intros w3 k Hq3 HnH. apply Herr; [by etrans|auto]. }
  intros w3 Hq3. assert (quiet w w3) as Hq3' by (by etrans). pose proof Hq3' as (Ef3&_&El3).
  apply ends_bind, ends_bind, ends_gets, ends_ret. change (id w3) with w3. rewrite Ef3, Hg.
  change (default [] (content <$> Some g)) with (content g).
  apply ends_bind. eapply ends_mono.
  { apply (ends_verify_loop g); [by eapply base_quiet|unfold at_dst; congruence|unfold file_len; lia|done|].
    unfold file_len. rewrite Z.sub_0_r, Nat2Z.id. lia. }
  intros r w4 (B4 & G4 & Hr). destruct r as [x|e]; [subst x|by apply ends_ret, HQ].
  destruct (String.eqb_spec (v_hash v b) (v_hash v (content g))) as [E|E].
  - apply ends_bind, ends_emit. intros w5 Hq5. pose proof Hq5 as (Ef5&_&_). apply ends_ret, HQ;
      [by eapply base_quiet|unfold at_dst in *; congruence|by intros [? ?]|done].
  - apply ends_bind, ends_emit. intros w5 Hq5. pose proof Hq5 as (Ef5&_&_). apply ends_ret, HQ;
      [by eapply base_quiet|unfold at_dst in *; congruence| |done].
    intros _ HH. apply E. by rewrite HHb.
Qed.

(** What a finished copy leaves at the destination. *)
Definition copied_ok (g : File) : Prop :=
  (honest -> content g = b) /\
  (forall v, verify opts = Some v -> v_hash v (content g) = v_hash v b).

Context (Hhonest : H -> honest).

Definition finished (rep : CopyReport) (w : CopyWorld S) : Prop :=
  base w /\ cr_bytes rep = file_len f /\
  exists g, at_dst g w /\ copied_ok g /\
    (preserve_times opts = true -> f_mtime_ms g = f_mtime_ms f).

Lemma ends_report_done l g w :
  base w -> at_dst g w -> copied_ok g -> (preserve_times opts = true -> f_mtime_ms g = f_mtime_ms f) ->
  copied l = Z.of_nat (length b) -> (journaled opts = true -> jhashed l = b) ->
  ends (report_done src dst opts l) finished w.
Proof using Type.
  intros B GD Hok Hmt Hc Hjh. unfold report_done. apply ends_bind.
  assert (forall w1, base w1 -> at_dst g w1 ->
    ends (emit (Completed (copied l)) ;; ret {| cr_src := src; cr_dst := dst; cr_bytes := copied l |})
      finished w1) as Hemit.
  { intros w1 B1 G1. apply ends_bind, ends_emit. intros w2 Hq. pose proof Hq as (Ef&_&_).
    apply ends_ret. split_and!; [by eapply base_quiet|done|]. exists g. split_and!; [|done|done].
    unfold at_dst in *. congruence. }
  destruct (journaled opts) eqn:Ej; [|by apply ends_ret, Hemit].
  apply ends_modify, Hemit; [|done]. destruct B as [P1 P2 P3]. split; [done| |done].
  intros p [Hpl|[_ ->]]%js_finish_file_offers; [by apply P2|]. simpl. by rewrite Hjh.
Qed.

Lemma ends_settle total l g w :
  base w -> at_dst g w -> (honest -> content g = b) ->
  copied l = Z.of_nat (length b) -> (verify opts <> None -> hashed l = b) ->
  (journaled opts = true -> jhashed l = b) ->
  ends (settle_copy src dst opts (f_mtime_ms f) total l) finished w.
Proof using Hio HG Hhonest.
  intros B GD Hho Hc Hh Hjh. unfold settle_copy. apply ends_bind, (ends_metadata g); [done..|].
  intros me g1 w1 B1 G1 Hc1 Hme Hmt. destruct me as [e|]; [apply ends_finalize_error; [done..|by_fault]|].
  apply ends_bind, ends_emit. intros w2 Hq. pose proof Hq as (Ef&_&_).
  assert (base w2) as B2 by (by eapply base_quiet).
  assert (at_dst g1 w2) as G2 by (unfold at_dst in *; congruence).
  apply ends_bind. destruct (verify opts) as [v|] eqn:Ev.
  - rewrite Hh by done. apply (ends_verify_pass v g1); [done|done| |].
    { intros HH. rewrite Hc1. auto. }
    intros ve w3 B3 G3 Hve Hv. destruct ve as [e|]; [apply ends_finalize_error; [done..|by_fault]|].
    apply (ends_report_done _ g1); [done|done| |auto|done|done]. split; [by rewrite Hc1|].
    intros v' E. simplify_eq. auto.
  - apply ends_ret, (ends_report_done _ g1); [done|done| |auto|done|done]. split; [by rewrite Hc1|].
    intros v' E. congruence.
Qed.

Lemma ends_finish total l w :
  base w -> loop_inv l w -> copied l = Z.of_nat (length b) ->
  ends (finish_copy src dst opts (f_mtime_ms f) total l) finished w.
Proof using Hio HG Hhonest.
  intros B [Hr (t & Ht & Hp) Hh Hjh] Hc. rewrite Hc, Nat2Z.id, firstn_all in *.
  unfold finish_copy. apply ends_bind, (ends_flush _ _ F f G H Hio HG _ t); [done..|].
  intros fe pend t' w1 B1 (g & Hg & Hgt) Hp1 _ _ Hfe.
  destruct fe as [k|]; [apply ends_finalize_error; auto|]. subst pend. rewrite app_nil_r, Hp in Hp1. subst t'.
  apply ends_bind. destruct (_ || _); [|by apply ends_ret, (ends_settle _ _ g)].
  apply ends_call; [done..| |].
  - intros w2 Hq. pose proof Hq as (Ef&_&_). apply (ends_settle _ _ g); try done.
    + by eapply base_quiet.
    + unfold at_dst. congruence.
  - intros w2 k Hq HnH. apply ends_finalize_error; [done|done|by eapply base_quiet|auto].
Qed.

(** ** The whole copy *)

Definition dense_done (rep : CopyReport) (w : CopyWorld S) : Prop :=
  base w /\ cr_bytes rep = file_len f /\
  exists g, at_dst g w /\ copied_ok g /\
    (journaled opts = false -> preserve_times opts = true -> f_mtime_ms g = f_mtime_ms f).

Lemma buffer_positive n : 0 < buffer_size_for_file opts n.
Proof using Type. pose proof (buffer_size_bounds opts n). unfold MIN_BUFFER_SIZE in *. lia. Qed.

Lemma ends_run_loop d g w :
  base w -> decision_ok d w -> c_files w !! dst = Some g ->
  content g = take (Z.to_nat (resume_offset d)) b ->
  ends (run_loop src dst opts f d) dense_done w.
Proof using Hne Hsrc Hio HG Hhonest.
  intros B Hd Hg Hc. unfold run_loop.
  assert (0 <= resume_offset d <= Z.of_nat (length b)) as Hoff.
  { destruct d as [|o h|h]; simpl; [lia| |lia]. destruct Hd as (_&_&?&_). lia. }
  assert (verify opts <> None -> resume_offset d = 0) as Hv.
  { destruct d as [|o h|h]; simpl; [done| |done]. destruct Hd as (Hv&_). congruence. }
  apply ends_bind.
  assert (forall w1 primed, base w1 -> c_files w1 !! dst = Some g ->
    primed = take (Z.to_nat (resume_offset d)) b ->
    ends (let! fuel := loop_fuel src in
          let! r := copy_loop fuel src dst opts (buffer_size_for_file opts (file_len f)) (file_len f)
                      (loop_start (resume_offset d) primed) in
          match r with
          | Ok l => finish_copy src dst opts (f_mtime_ms f) (file_len f) l
          | Err e => finalize_error opts dst e
          end) dense_done w1) as Hgo.
  { intros w1 primed B1 Hg1 Hj. apply ends_bind, ends_bind, ends_gets, ends_ret. change (id w1) with w1.
    rewrite (base_src src dst opts F f H Hne Hsrc w1 B1). change (default [] (content <$> Some f)) with b.
    apply ends_bind. eapply ends_mono.
    { apply ends_copy_loop; [apply buffer_positive|done| |].
      - split; simpl; [done| | |done].
        + exists (take (Z.to_nat (resume_offset d)) b). rewrite app_nil_r. split; [|done]. by exists g.
        + intros E. by rewrite Hv.
      - simpl. lia. }
    intros r w2 [B2 Hr]. destruct r as [l|e]; [|by apply ends_finalize_error].
    destruct Hr as [I Hl]. eapply ends_mono; [by apply ends_finish|].
    intros rep w3 (B3 & Hb & g' & GD & Hok & Hmt). split_and!; [done|done|]. by exists g'. }
  destruct d as [|o h|h]; cbn [is_fresh resume_offset].
  - by apply ends_ret, Hgo.
  - apply (ends_prime o g); [done|done|]. intros w1 Hq. pose proof Hq as (Ef&_&_).
    apply Hgo; [by eapply base_quiet|congruence|]. by rewrite Hc, take_take, Nat.min_id.
  - apply (ends_prime 0 g); [done|done|]. intros w1 Hq. pose proof Hq as (Ef&_&_).
    apply Hgo; [by eapply base_quiet|congruence|done].
Qed.

Lemma ends_dense w :
  base w -> (G -> fail_if_exists opts = false) -> ends (dense_copy src dst opts f) dense_done w.
Proof using Hne Hsrc Hio HG Hhonest Hinj.
  intros B HH. unfold dense_copy. apply ends_bind, ends_decide_resume; [done..|].
  intros d w1 B1 _ Hd.
  assert ((forall h, d <> DoneAlready h) -> ends (open_files src dst opts d ;;
            emit (Started src dst (file_len f)) ;; run_loop src dst opts f d) dense_done w1) as Hgo.
  { intros Hnd. apply ends_bind, ends_open_files; [done..|]. intros w2 B2 (g & Hg & Hc).
    apply ends_bind, ends_emit. intros w3 Hq3. pose proof Hq3 as (Ef3&_&_).
    apply (ends_run_loop d g); [by eapply base_quiet| |congruence|done].
    destruct d as [|o h|h]; [done| |by destruct (Hnd h)]. destruct Hd as (?&?&?&g1&_&_&_).
    split_and!; [done|done|lia|lia|]. exists g. split_and!; [congruence| |].
    - unfold file_len. rewrite Hc, length_take. simpl. lia.
    - by rewrite Hc, take_take, Nat.min_id. }
  destruct d as [|o h|h]; [by apply Hgo|by apply Hgo|].
  destruct Hd as (Hj & -> & g & Hg & Hc). apply ends_bind, ends_modify, ends_bind, ends_emit.
  intros w2 Hq2. pose proof Hq2 as (Ef2&_&_). apply ends_bind, ends_emit. intros w3 Hq3.
  pose proof Hq3 as (Ef3&_&_). apply ends_ret. split_and!.
  - eapply base_quiet; [etrans; [exact Hq2|exact Hq3]|]. destruct B1 as [P1 P2 P3].
    split; [done| |done]. intros p [Hpl|[_ ->]]%js_finish_file_offers; [by apply P2|done].
  - done.
  - exists g. split_and!; [unfold at_dst; rewrite Ef3, Ef2; exact Hg|split; [done|by intros; rewrite Hc]|].
    intros E. congruence.
Qed.

(** ** The fast-copy hook *)

(** What the engine relies on: a hook writes to the destination only, and
    one that reports success has copied the bytes. *)
Definition hook_law (hook : FastCopyHook) : Prop :=
  forall fs n g, fs !! src = Some g -> let '(fs', out) := hook fs src dst n in
    (forall p, p <> dst -> fs' !! p = fs !! p) /\
    match out with
    | HookDone rep => cr_bytes rep = file_len g /\ exists g', fs' !! dst = Some g' /\ content g' = content g
    | _ => True
    end.

Definition copy_done (rep : CopyReport) (w : CopyWorld S) : Prop :=
  base w /\ cr_bytes rep = file_len f /\
  exists g, at_dst g w /\ copied_ok g /\
    (journaled opts = false -> fast_copy_hook opts = None -> preserve_times opts = true ->
     f_mtime_ms g = f_mtime_ms f).

Definition fast_done (r : option CopyReport) (w : CopyWorld S) : Prop :=
  match r with Some rep => copy_done rep w | None => base w end.

Lemma ends_run_hook hook w :
  base w -> fast_copy_hook opts = Some hook -> verify opts = None -> hook_law hook -> ~ G ->
  ends (run_hook hook src dst opts) fast_done w.
Proof using Hne Hsrc Hio HG.
  intros B Eh Ev Hlaw HnH. unfold run_hook. apply ends_bind, ends_gets, ends_bind, ends_gets.
  pose proof (Hlaw (c_files w) (c_calls w) f (base_src _ _ _ _ _ _ Hne Hsrc w B)) as HL.
  destruct (hook (c_files w) src dst (c_calls w)) as [fs' out]. destruct HL as [Hfr Hout].
  apply ends_bind, ends_modify.
  assert (base (set_calls (c_calls w + 1) (set_cfiles fs' w))) as B2.
  { eapply base_quiet; [|by apply (base_files _ _ _ _ _ w fs')]. done. }
  destruct out as [rep| |e].
  - destruct Hout as (Hrep & g & Hg & Hc). apply ends_ret. split_and!; [done|done|].
    exists g. split_and!; [done| |congruence]. split; [done|]. intros v E. congruence.
  - destruct (strategy opts); try by apply ends_ret.
    apply ends_bind, ends_emit. intros w3 Hq. apply ends_throw, stopped_fault; [done|by eapply base_quiet|done|done].
  - apply ends_bind. apply ends_finalize_error; auto.
Qed.

Lemma ends_try_fast w :
  base w -> (forall hook, fast_copy_hook opts = Some hook -> hook_law hook) ->
  (G -> fast_copy_hook opts = None) ->
  ends (try_fast_copy src dst opts) fast_done w.
Proof using Hne Hsrc Hio HG.
  intros B Hlaw HH. unfold try_fast_copy.
  destruct (verify opts) as [v|] eqn:Ev; [by apply ends_ret|].
  assert (forall hook, fast_copy_hook opts = Some hook ->
    ends ((if fail_if_exists opts then ret tt else maybe_snapshot_before_overwrite opts dst) ;;
          run_hook hook src dst opts) fast_done w) as Hgo.
  { intros hook Eh. assert (~ G) as HnG by (intros HP%HH; congruence). apply ends_bind.
    destruct (fail_if_exists opts); [by apply ends_ret, ends_run_hook; auto|].
    apply ends_snapshot; [done|]. intros w1 B1 _. apply ends_run_hook; auto. }
  destruct (strategy opts); try (by apply ends_ret);
    (destruct (fast_copy_hook opts) as [hook|] eqn:Eh; [by apply Hgo|by apply ends_ret]).
Qed.

(** ** [copy_file] *)

Lemma ends_plain_copy w :
  base w -> (forall hook, fast_copy_hook opts = Some hook -> hook_law hook) ->
  (G -> fast_copy_hook opts = None /\ fail_if_exists opts = false) ->
  ends (plain_copy src dst opts f) copy_done w.
Proof using Hne Hsrc Hio HG Hhonest Hinj.
  intros B Hlaw HH. unfold plain_copy. apply ends_bind. eapply ends_mono.
  { apply ends_try_fast; [done..|]. by intros (?&_)%HH. }
  intros [rep|] w2; [by intros; apply ends_ret|]. intros B2.
  eapply ends_mono; [apply ends_dense; [done|]; by intros (_&?)%HH|].
  intros rep w3 (B3 & Hb & g & GD & Hok & Hmt). split_and!; [done|done|]. exists g. split_and!; auto.
Qed.

Lemma ends_copy_file w :
  base w -> (forall hook, fast_copy_hook opts = Some hook -> hook_law hook) ->
  (G -> fast_copy_hook opts = None /\ fail_if_exists opts = false /\
        validate_path_no_traversal src = None /\ validate_path_no_traversal dst = None /\
        escapes_jail opts dst = false) ->
  ends (copy_file src dst opts) copy_done w.
Proof using Hne Hsrc Hio HG Hhonest Hinj.
  intros B Hlaw HH. unfold copy_file.
  assert (~ G -> ends (throw (SErr (path_escape src dst))) copy_done w) as Hesc.
  { intros HnG. by apply ends_throw, stopped_fault. }
  destruct (validate_path_no_traversal src); [apply Hesc; by intros (_&_&?&_)%HH|].
  destruct (validate_path_no_traversal dst); [apply Hesc; by intros (_&_&_&?&_)%HH|].
  destruct (escapes_jail opts dst); [apply Hesc; by intros (_&_&_&_&?)%HH|].
  apply ends_bind, ends_call_or; [done..|]. intros w1 Hq1. apply ends_bind, ends_gets.
  assert (base w1) as B1 by (by eapply base_quiet). rewrite (base_src src dst opts F f H Hne Hsrc w1 B1).
  apply ends_plain_copy; [done..|]. by intros (?&?&_)%HH.
Qed.
End engine.

(** * The copy engine, call by call, without assumptions

    The rules of [CopyWp] when any call may fail, any flag may be seen and the
    disk stores what it likes: what is left is that only the destination
    changes, that the journal tells the truth and that no loop runs dry. *)

Section engine.
Context {S : Type} {JS : JournalSink S} {EN : CopyEnv}.
#[local] Abbreviation CM := (SM (CopyWorld S) Stop).
Context (src dst : path) (opts : CopyOptions) (F : FileTree) (f : File).
#[local] Abbreviation base := (CopyWp.base dst opts F f False).
#[local] Abbreviation ends := (CopyWp.ends dst opts F f False False).
#[local] Abbreviation quiet := (CopyWp.quiet (S := S)).
#[local] Abbreviation stopped := (CopyWp.stopped dst opts F f False False).

Lemma may_stop e w : base w -> e <> SStuck -> stopped e w.
Proof using Type. intros B He. split_and!; [done|done|by intros []|by intros []]. Qed.

Lemma no_calls_law : False -> forall n, io n = Fine.
Proof using Type. done. Qed.

#[local] Hint Resolve no_calls_law : core.

Lemma may_call (Q : option CopyErrorKind -> CopyWorld S -> Prop) w :
  base w -> (forall r w', quiet w w' -> base w' -> Q r w') -> ends call Q w.
Proof using Type.
  intros B HQ. apply ends_call; [done|done|done| |].
  - intros w' Hq. apply HQ; [done|by eapply base_quiet].
  - intros w' k Hq _. apply HQ; [done|by eapply base_quiet].
Qed.

Lemma may_call_or (Q : unit -> CopyWorld S -> Prop) w :
  base w -> (forall w', quiet w w' -> base w' -> Q tt w') -> ends (call_or src dst) Q w.
Proof using Type. intros B HQ. apply ends_call_or; [done|done|done|]. intros w' Hq. apply HQ; [done|by eapply base_quiet]. Qed.

Lemma may_error {Q : CopyReport -> CopyWorld S -> Prop} e w : base w -> ends (finalize_error opts dst e) Q w.
Proof using Type. intros B. apply ends_finalize_error; [by intros []..|done|by intros []]. Qed.

Lemma may_emit e (Q : unit -> CopyWorld S -> Prop) w : base w -> (forall w', quiet w w' -> base w' -> Q tt w') -> ends (emit e) Q w.
Proof using Type. intros B HQ. apply ends_emit. intros w' Hq. apply HQ; [done|by eapply base_quiet]. Qed.
End engine.
