(* ===== verification/CopySafety.v ===== *)
(** * The copy engine: what a caller can rely on

    Consequences of the stage lemmas: a finished copy is exact, faults and
    cancellation never spoil anything but the destination, a copy that nothing
    disturbs succeeds, verified copies are equal whatever the disk did, an
    interrupted copy can be resumed, refused paths and existing destinations
    are left alone, and an overwritten version is snapshotted first. *)
From S2P Require Import Prelude.
From S2P Require Import Text.
From S2P Require Import Monad.
From S2P Require Import Files.
From S2P Require Import Control.
From S2P Require Import Table.
From S2P Require Import CopyTypes.
From S2P Require Import Journal.
From S2P Require Import JournalSink.
From S2P Require Import CopyFile.
From S2P Require Import CopyWp.
From S2P Require Import CopyProof.
From stdpp Require Import options.
Open Scope Z_scope.
#[local] Open Scope monad_scope.

(** Everything the engine asks for is granted: the paths pass the guards, the
    destination may be replaced and no hook takes over. *)
Record granted {EN : CopyEnv} (src dst : path) (opts : CopyOptions) : Prop := {
  gr_src : validate_path_no_traversal src = None;
  gr_dst : validate_path_no_traversal dst = None;
  gr_jail : escapes_jail opts dst = false;
  gr_replace : fail_if_exists opts = false;
  gr_hook : fast_copy_hook opts = None;
}.

Definition calls_work {EN : CopyEnv} : Prop := forall n, io n = Fine.

(** Nothing disturbs the copy. *)
Record undisturbed {EN : CopyEnv} (src dst : path) (opts : CopyOptions) (flags : list Z) : Prop := {
  ud_granted : granted src dst opts;
  ud_calls : calls_work;
  ud_disk : honest;
  ud_flags : CANCELLED ∉ flags;
}.

Section copies.
Context {S : Type} {JS : JournalSink S}.

(** Files other than the destination are untouched. *)
Definition spared (dst : path) (w w' : CopyWorld S) : Prop :=
  forall p, p <> dst -> c_files w' !! p = c_files w !! p.

Definition hook_lawful (src dst : path) (opts : CopyOptions) : Prop :=
  forall hook, fast_copy_hook opts = Some hook -> hook_law src dst hook.

Lemma granted_lawful {EN : CopyEnv} src dst opts : granted src dst opts -> hook_lawful src dst opts.
Proof. intros Hgr hook Eh. rewrite (gr_hook _ _ _ Hgr) in Eh. done. Qed.

Section one.
Context {EN : CopyEnv} (src dst : path) (opts : CopyOptions) (f : File) (w : CopyWorld S).
Context (Hne : src <> dst) (Hsrc : c_files w !! src = Some f) (Hinj : Inj (=) (=) b3).
Context (Htrue : truthful (journal_file_idx opts) (content f) (c_sink w)).
#[local] Abbreviation b := (content f).

Lemma copy_outcome (G H : Prop) :
  (G -> calls_work) -> (H -> G) -> (H -> honest) -> (H -> CANCELLED ∉ c_flags w) ->
  (G -> granted src dst opts) -> hook_lawful src dst opts ->
  ends dst opts (c_files w) f G H (copy_file src dst opts) (copy_done dst opts (c_files w) f H) w.
Proof using Hne Hsrc Hinj Htrue.
  intros Hio HG Hhon Hfl Hgr Hlaw. apply ends_copy_file; try done.
  intros HP. destruct (Hgr HP). by split_and!.
Qed.

Lemma copy_outcome_any :
  hook_lawful src dst opts ->
  ends dst opts (c_files w) f False False (copy_file src dst opts)
       (copy_done dst opts (c_files w) f False) w.
Proof using Hne Hsrc Hinj Htrue. intros Hlaw. by apply copy_outcome. Qed.

Lemma copy_frame_any :
  hook_lawful src dst opts ->
  let w' := (copy_file src dst opts w).2 in
  spared dst w w' /\ truthful (journal_file_idx opts) b (c_sink w').
Proof using Hne Hsrc Hinj Htrue.
  intros Hlaw. pose proof (copy_outcome_any Hlaw) as Hc. unfold ends, wp in Hc.
  by destruct (copy_file src dst opts w) as [[rep|e] w']; destruct Hc as [[B1 B2 _] _].
Qed.
End one.

(** ** One copy *)

(** C2: Copying one file to another, whatever the calls, the flags and the
    schedule do: no other file changes, the journal still tells the truth
    about the source, and the engine always comes to an end.  When it reports
    success it reports the source's length, and on a disk that stores what it
    is given the destination has the source's bytes (and, on the plain path,
    its modification time). *)
Theorem copy_is_exact {EN : CopyEnv} src dst opts f (w : CopyWorld S) :
  src <> dst -> c_files w !! src = Some f -> Inj (=) (=) b3 ->
  truthful (journal_file_idx opts) (content f) (c_sink w) -> hook_lawful src dst opts ->
  let '(r, w') := copy_file src dst opts w in
  spared dst w w' /\ truthful (journal_file_idx opts) (content f) (c_sink w') /\
  match r with
  | Ok rep =>
      cr_bytes rep = file_len f /\
      exists g, c_files w' !! dst = Some g /\ (honest -> content g = content f) /\
        (journaled opts = false -> fast_copy_hook opts = None -> preserve_times opts = true ->
         f_mtime_ms g = f_mtime_ms f)
  | Err e => e <> SStuck
  end.
Proof.
  intros Hne Hsrc Hinj Htrue Hlaw.
  pose proof (copy_frame_any src dst opts f w Hne Hsrc Hinj Htrue Hlaw) as [Hfr Htr].
  pose proof (copy_outcome_any src dst opts f w Hne Hsrc Hinj Htrue Hlaw) as Hc. unfold ends, wp in Hc.
  destruct (copy_file src dst opts w) as [[rep|e] w']; (split; [done|split; [done|]]).
  - destruct Hc as (_ & Hb & g & Hg & [Hok _] & Hmt). split; [done|]. exists g. by split_and!.
  - by destruct Hc as (_ & He & _).
Qed.

(** C32: A verified copy that reports success is exact even on a disk that
    garbles what it is given, when the verify hash tells the bytes apart. *)
Theorem verified_copy_is_exact {EN : CopyEnv} src dst opts v f (w : CopyWorld S) rep w' :
  src <> dst -> c_files w !! src = Some f -> Inj (=) (=) b3 ->
  truthful (journal_file_idx opts) (content f) (c_sink w) ->
  verify opts = Some v -> Inj (=) (=) (v_hash v) -> hook_lawful src dst opts ->
  copy_file src dst opts w = (Ok rep, w') ->
  exists g, c_files w' !! dst = Some g /\ content g = content f.
Proof.
  intros Hne Hsrc Hinj Htrue Hv Hvinj Hlaw E.
  pose proof (copy_outcome_any src dst opts f w Hne Hsrc Hinj Htrue Hlaw) as Hc. unfold ends, wp in Hc.
  rewrite E in Hc. destruct Hc as (_ & _ & g & Hg & [_ Hver] & _). exists g. split; [done|].
  by apply Hvinj, Hver.
Qed.

(** When nothing disturbs it the copy succeeds, and the destination is
    the source, byte for byte. *)
Theorem undisturbed_copy_succeeds {EN : CopyEnv} src dst opts f (w : CopyWorld S) :
  src <> dst -> c_files w !! src = Some f -> Inj (=) (=) b3 ->
  truthful (journal_file_idx opts) (content f) (c_sink w) -> undisturbed src dst opts (c_flags w) ->
  exists rep w' g, copy_file src dst opts w = (Ok rep, w') /\ c_files w' !! dst = Some g /\
    content g = content f /\ spared dst w w'.
Proof.
  intros Hne Hsrc Hinj Htrue [Hgr Hio Hhon Hfl].
  pose proof (copy_outcome src dst opts f w Hne Hsrc Hinj Htrue True True (fun _ => Hio) id (fun _ => Hhon)
    (fun _ => Hfl) (fun _ => Hgr) (granted_lawful _ _ _ Hgr)) as Hc. unfold ends, wp in Hc.
  destruct (copy_file src dst opts w) as [[rep|e] w'].
  - destruct Hc as ([Hfr _ _] & _ & g & Hg & [Hok _] & _). exists rep, w', g. split_and!; auto.
  - destruct Hc as (_ & _ & HnH & _). by destruct (HnH I).
Qed.

(** C33: A copy that fails although every call worked (it was cancelled, or
    the verify pass found a difference) takes its partial destination away
    with it, unless it was told to keep it. *)
Theorem failed_copy_cleans_up {EN : CopyEnv} src dst opts f (w : CopyWorld S) e w' :
  src <> dst -> c_files w !! src = Some f -> Inj (=) (=) b3 ->
  truthful (journal_file_idx opts) (content f) (c_sink w) ->
  granted src dst opts -> calls_work -> keep_partial opts = false ->
  copy_file src dst opts w = (Err e, w') -> c_files w' = delete dst (c_files w).
Proof.
  intros Hne Hsrc Hinj Htrue Hgr Hio Hkp E.
  pose proof (copy_outcome src dst opts f w Hne Hsrc Hinj Htrue True False (fun _ => Hio) (fun _ => I)
    (False_ind _) (False_ind _) (fun _ => Hgr) (granted_lawful _ _ _ Hgr)) as Hc. unfold ends, wp in Hc.
  rewrite E in Hc. destruct Hc as ([Hfr _ _] & _ & _ & Hgone).
  apply map_eq. intros p. destruct (decide (p = dst)) as [->|Hp].
  - rewrite lookup_delete_eq. by apply Hgone.
  - rewrite lookup_delete_ne by done. by apply Hfr.
Qed.

(** ** Several attempts *)

(** Another attempt at the same copy: the sink is opened anew over what the
    journal has on disk, and the flags start over. *)
Definition retry (src dst : path) (opts : CopyOptions) (EN : CopyEnv) (flags : list Z) (w : CopyWorld S)
    : result Stop CopyReport * CopyWorld S :=
  copy_file src dst opts (set_sink (js_restart (c_sink w)) (set_flags flags w)).

Definition attempts (src dst : path) (opts : CopyOptions) (l : list (CopyEnv * list Z)) (w : CopyWorld S)
    : CopyWorld S :=
  foldl (fun w a => (retry src dst opts a.1 a.2 w).2) w l.

Lemma truthful_env (E1 E2 : CopyEnv) idx b (s : S) :
  @b3 E1 = @b3 E2 -> truthful (EN := E1) idx b s -> truthful (EN := E2) idx b s.
Proof. intros E Ht p Hp. specialize (Ht p Hp). destruct p; simpl in *; rewrite <- ?E; done. Qed.

Lemma truthful_restart {EN : CopyEnv} idx b (s : S) : truthful idx b s -> truthful idx b (js_restart s).
Proof. intros Ht p Hp. by apply Ht, js_restart_offers. Qed.

Lemma attempts_keep (EN : CopyEnv) src dst opts f l : forall w,
  src <> dst -> c_files w !! src = Some f -> Inj (=) (=) (@b3 EN) ->
  truthful (journal_file_idx opts) (content f) (c_sink w) -> hook_lawful src dst opts ->
  Forall (fun a : CopyEnv * list Z => @b3 a.1 = @b3 EN) l ->
  spared dst w (attempts src dst opts l w) /\
  truthful (journal_file_idx opts) (content f) (c_sink (attempts src dst opts l w)).
Proof.
  induction l as [|[E1 fl] l IH]; intros w Hne Hsrc Hinj Htrue Hlaw Hl; [done|].
  inversion Hl as [|?? Eb Hl']; subst. simpl in Eb.
  destruct (copy_frame_any (EN := E1) src dst opts f (set_sink (js_restart (c_sink w)) (set_flags fl w)))
    as [Hfr Htr]; [done|done|by rewrite Eb| |done|].
  { apply truthful_restart. by apply (truthful_env EN). }
  destruct (IH (retry src dst opts E1 fl w).2) as [Hfr2 Htr2]; [done| |done| |done|done|].
  - by rewrite Hfr.
  - by apply (truthful_env E1).
  - split; [|done]. intros p Hp. change (c_files (attempts src dst opts l (retry src dst opts E1 fl w).2) !! p = c_files w !! p).
    rewrite Hfr2 by done. by apply Hfr.
Qed.

(** C1: Attempts at a copy may fail or die anywhere, any number of times, on
    disks that garble what they are given: the first one that nothing
    disturbs, resumed from whatever the journal then offers, leaves the
    source's bytes at the destination. *)
Theorem interrupted_copy_resumes {EN : CopyEnv} src dst opts f l flags (w : CopyWorld S) :
  src <> dst -> c_files w !! src = Some f -> Inj (=) (=) (@b3 EN) ->
  truthful (journal_file_idx opts) (content f) (c_sink w) ->
  Forall (fun a : CopyEnv * list Z => @b3 a.1 = @b3 EN) l -> undisturbed src dst opts flags ->
  let w1 := attempts src dst opts l w in
  exists rep w2 g, retry src dst opts EN flags w1 = (Ok rep, w2) /\ c_files w2 !! dst = Some g /\
    content g = content f /\ spared dst w w2.
Proof.
  intros Hne Hsrc Hinj Htrue Hl [Hgr Hio Hhon Hfl] w1. pose proof (granted_lawful _ _ _ Hgr) as Hlaw.
  destruct (attempts_keep EN src dst opts f l w) as [Hfr Htr]; [done..|]. fold w1 in Hfr, Htr.
  pose proof (copy_outcome src dst opts f (set_sink (js_restart (c_sink w1)) (set_flags flags w1)) Hne
    ltac:(simpl; by rewrite Hfr) Hinj (truthful_restart _ _ _ Htr) True True (fun _ => Hio) id (fun _ => Hhon)
    (fun _ => Hfl) (fun _ => Hgr) Hlaw) as Hc.
  unfold retry. unfold ends, wp in Hc. destruct (copy_file src dst opts _) as [[rep|e] w2].
  - destruct Hc as ([Hfr2 _ _] & _ & g & Hg & [Hok _] & _).
    exists rep, w2, g. split_and!; [done|done|by apply Hok|]. intros p Hp. rewrite Hfr2 by done. by apply Hfr.
  - destruct Hc as (_ & _ & HnH & _). by destruct (HnH I).
Qed.

(** ** What is refused *)

(** A path that fails the lexical guard, or a destination whose parent
    resolves outside the jail, is refused before any call is made. *)
Theorem guards_refuse_first {EN : CopyEnv} src dst opts (w : CopyWorld S) :
  validate_path_no_traversal src <> None \/ validate_path_no_traversal dst <> None \/
    escapes_jail opts dst = true ->
  copy_file src dst opts w = (Err (SErr (path_escape src dst)), w).
Proof.
  intros Hbad. unfold copy_file. destruct (validate_path_no_traversal src); [done|].
  destruct (validate_path_no_traversal dst); [done|].
  destruct Hbad as [?|[?| ->]]; done.
Qed.

Section refusal.
Context {EN : CopyEnv} (fs : FileTree).

(** The tree is [fs] afterwards, and there is no report. *)
Definition refuses {A} (m : SM (CopyWorld S) Stop A) (w : CopyWorld S) : Prop :=
  wp m (fun r w' => c_files w' = fs /\ forall a, r <> Ok a) w.

Definition looks {A} (m : SM (CopyWorld S) Stop A) (w : CopyWorld S) : Prop :=
  wp m (fun _ w' => c_files w' = fs) w.

Lemma refuses_bind {A B} (m : SM (CopyWorld S) Stop A) (k : A -> SM (CopyWorld S) Stop B) w :
  looks m w -> (forall a w', c_files w' = fs -> refuses (k a) w') -> refuses (bind m k) w.
Proof using Type.
  unfold refuses, looks, wp, bind. intros Hm Hk.
  destruct (m w) as [[a|e] w']; [by apply Hk|by split].
Qed.

Lemma looks_call w : c_files w = fs -> looks call w.
Proof using Type.
  intros E. unfold looks, wp, call, bind, gets, modify. simpl. by destruct (io (c_calls w)).
Qed.

Lemma looks_call_or src dst w : c_files w = fs -> looks (call_or src dst) w.
Proof using Type.
  intros E. pose proof (looks_call w E) as Hc. unfold looks, wp, call_or, bind in *.
  by destruct (call w) as [[[k|]|e] w'].
Qed.

(** A later part refuses, or the first one does. *)
Lemma refuses_ret {A B} (a : A) (k : A -> SM (CopyWorld S) Stop B) w :
  refuses (k a) w -> refuses (bind (ret a) k) w.
Proof using Type. done. Qed.

Lemma refuses_gets {A B} (q : CopyWorld S -> A) (k : A -> SM (CopyWorld S) Stop B) w :
  refuses (k (q w)) w -> refuses (bind (gets q) k) w.
Proof using Type. done. Qed.

Lemma refuses_first {A B} (m : SM (CopyWorld S) Stop A) (k : A -> SM (CopyWorld S) Stop B) w :
  refuses m w -> refuses (bind m k) w.
Proof using Type.
  unfold refuses, wp, bind. intros [Hf Hr]. destruct (m w) as [[a|e] w']; [by destruct (Hr a)|by split].
Qed.

Lemma refuses_throw {A} e w : c_files w = fs -> refuses (throw (A := A) e) w.
Proof using Type. by split. Qed.
End refusal.

Lemma open_refuses {EN : CopyEnv} src dst opts g (w : CopyWorld S) :
  fail_if_exists opts = true -> c_files w !! dst = Some g ->
  refuses (c_files w) (open_files src dst opts FreshStart) w.
Proof.
  intros Hfe Hg. unfold open_files. rewrite Hfe. cbn [negb is_fresh andb].
  apply refuses_bind; [by apply looks_call_or|]. intros _ w1 E1. apply refuses_ret, refuses_first.
  apply refuses_bind; [by apply looks_call_or|]. intros _ w2 E2. apply refuses_gets, refuses_gets.
  rewrite E2, Hg, Hfe. by apply refuses_throw.
Qed.

(** With [fail_if_exists] and no hook or journal, a destination that
    exists is refused: the copy reports no success and the tree is untouched,
    whatever the calls do. *)
Theorem fail_if_exists_spares_destination {EN : CopyEnv} src dst opts g (w : CopyWorld S) :
  fail_if_exists opts = true -> fast_copy_hook opts = None -> journaled opts = false ->
  c_files w !! dst = Some g ->
  let '(r, w') := copy_file src dst opts w in c_files w' = c_files w /\ forall rep, r <> Ok rep.
Proof.
  intros Hfe Hhook Hj Hg. assert (refuses (c_files w) (copy_file src dst opts) w) as Hr.
  2: { unfold refuses, wp in Hr. by destruct (copy_file src dst opts w). }
  unfold copy_file. destruct (validate_path_no_traversal src); [by apply refuses_throw|].
  destruct (validate_path_no_traversal dst); [by apply refuses_throw|].
  destruct (escapes_jail opts dst); [by apply refuses_throw|].
  apply refuses_bind; [by apply looks_call_or|]. intros _ w1 E1. apply refuses_gets.
  destruct (c_files w1 !! src) as [m|]; [|by apply refuses_throw]. unfold plain_copy, try_fast_copy. rewrite Hhook.
  assert (refuses (c_files w) (dense_copy src dst opts m) w1) as Hd.
  { unfold dense_copy, decide_resume. rewrite Hj. apply refuses_ret, refuses_first.
    rewrite <- E1. apply (open_refuses _ _ _ g); [done|congruence]. }
  by destruct (verify opts), (strategy opts); apply refuses_ret.
Qed.

(** ** What is kept of the overwritten version *)

Section snapshots.
Context {EN : CopyEnv}.

(** No computation drops a snapshot. *)
Definition keeps {A} (m : SM (CopyWorld S) Stop A) : Prop :=
  forall w, c_snapshots w ⊆ c_snapshots (m w).2.

Lemma keeps_bind {A B} (m : SM (CopyWorld S) Stop A) (k : A -> SM (CopyWorld S) Stop B) :
  keeps m -> (forall a, keeps (k a)) -> keeps (bind m k).
Proof using Type.
  unfold keeps, bind. intros Hm Hk w. specialize (Hm w). destruct (m w) as [[a|e] w']; [|done].
  etrans; [exact Hm|apply Hk].
Qed.

Lemma keeps_ret {A} (a : A) : keeps (ret a).
Proof using Type. intros w. reflexivity. Qed.

Lemma keeps_throw {A} e : keeps (throw (A := A) e).
Proof using Type. intros w. reflexivity. Qed.

Lemma keeps_gets {A} (q : CopyWorld S -> A) : keeps (gets q).
Proof using Type. intros w. reflexivity. Qed.

Lemma keeps_modify g : (forall w, c_snapshots w ⊆ c_snapshots (g w)) -> keeps (modify g).
Proof using Type. intros Hg w. exact (Hg w). Qed.
End snapshots.

Create HintDb keeps.
#[local] Hint Resolve keeps_ret keeps_throw keeps_gets : keeps.
#[local] Hint Extern 5 (_ ⊆ _) => set_solver : keeps.

(** Split a computation along its binds and branches. *)
Ltac keeps :=
  repeat match goal with
  | |- forall _, keeps _ => intros ?
  | |- keeps (bind _ _) => apply keeps_bind; [|intros ?]
  | |- keeps (modify _) => apply keeps_modify; intros ?
  | |- keeps (match ?x with _ => _ end) => destruct x
  | |- keeps (if ?x then _ else _) => destruct x
  | |- _ ⊆ c_snapshots (match ?x with _ => _ end) => destruct x
  end; auto with keeps.

Section snapshots.
Context {EN : CopyEnv}.

Lemma keeps_call : keeps call.
Proof using Type. unfold call. keeps. Qed.
#[local] Hint Resolve keeps_call : keeps.

Lemma keeps_call_or src dst : keeps (call_or src dst).
Proof using Type. unfold call_or. keeps. Qed.

Lemma keeps_append p x : keeps (append_bytes p x).
Proof using Type. unfold append_bytes. keeps. Qed.

Lemma keeps_load : keeps load.
Proof using Type. unfold load. keeps. Qed.
#[local] Hint Resolve keeps_call_or keeps_append keeps_load : keeps.

Lemma keeps_flush p x : keeps (flush p x).
Proof using Type. unfold flush. keeps. Qed.

Lemma keeps_write_all src dst x y : keeps (write_all src dst x y).
Proof using Type. unfold write_all. keeps. Qed.

Lemma keeps_fill_buf p n x : keeps (fill_buf p n x).
Proof using Type. unfold fill_buf, file_at. keeps. Qed.

Lemma keeps_finalize_error opts dst e : keeps (finalize_error opts dst e).
Proof using Type. unfold finalize_error, emit. keeps. Qed.
#[local] Hint Resolve keeps_flush keeps_write_all keeps_fill_buf keeps_finalize_error : keeps.

Lemma keeps_progress_point opts dst n l : keeps (progress_point opts dst n l).
Proof using Type. unfold progress_point, journal_checkpoint, emit. keeps. Qed.
#[local] Hint Resolve keeps_progress_point : keeps.

Lemma keeps_copy_loop src dst opts bs n fuel : forall l, keeps (copy_loop fuel src dst opts bs n l).
Proof using Type.
  induction fuel as [|fuel IH]; intros l; cbn [copy_loop]; unfold pause_point, wait_paused, emit; keeps.
Qed.

Lemma keeps_verify_loop src dst opts n fuel : forall p l acc, keeps (verify_loop fuel src dst opts n p l acc).
Proof using Type.
  induction fuel as [|fuel IH]; intros p l acc; cbn [verify_loop]; unfold wait_paused, emit; keeps.
Qed.
#[local] Hint Resolve keeps_copy_loop keeps_verify_loop : keeps.

Lemma keeps_finish_copy src dst opts t n l : keeps (finish_copy src dst opts t n l).
Proof using Type.
  unfold finish_copy, settle_copy, report_done, preserve_metadata, run_verify_pass, loop_fuel, file_at, emit.
  keeps.
Qed.
#[local] Hint Resolve keeps_finish_copy : keeps.

Lemma keeps_run_loop src dst opts m d : keeps (run_loop src dst opts m d).
Proof using Type. unfold run_loop, loop_fuel, prime_prefix, file_at. keeps. Qed.

Lemma keeps_snapshot opts dst : keeps (maybe_snapshot_before_overwrite opts dst).
Proof using Type. unfold maybe_snapshot_before_overwrite, file_at. keeps. Qed.
#[local] Hint Resolve keeps_run_loop keeps_snapshot : keeps.

Lemma keeps_decide_resume dst n opts : keeps (decide_resume dst n opts).
Proof using Type. unfold decide_resume, abort_resume, hash_dst_prefix, file_at, emit. keeps. Qed.

Lemma keeps_open_files src dst opts d : keeps (open_files src dst opts d).
Proof using Type. unfold open_files, open_dst, rewind_dst, file_at. keeps. Qed.
#[local] Hint Resolve keeps_decide_resume keeps_open_files : keeps.

Lemma keeps_dense_copy src dst opts m : keeps (dense_copy src dst opts m).
Proof using Type. unfold dense_copy, emit. keeps. Qed.

Lemma keeps_run_hook hook src dst opts : keeps (run_hook hook src dst opts).
Proof using Type. unfold run_hook, emit. keeps. Qed.

Definition takes {A} (x : path * bytes) (m : SM (CopyWorld S) Stop A) (w : CopyWorld S) : Prop :=
  x ∈ c_snapshots (m w).2.

Lemma takes_bind {A B} x (m : SM (CopyWorld S) Stop A) (k : A -> SM (CopyWorld S) Stop B) w :
  takes x m w -> (forall a, keeps (k a)) -> takes x (bind m k) w.
Proof using Type.
  unfold takes, bind. intros Hm Hk. destruct (m w) as [[a|e] w']; [|done]. by apply Hk.
Qed.

Lemma call_works (w : CopyWorld S) : calls_work -> call w = (Ok None, set_calls (c_calls w + 1)%nat w).
Proof using Type. intros Hio. unfold call, bind, gets, modify. simpl. by rewrite Hio. Qed.

Lemma bind_call {B} (k : option CopyErrorKind -> SM (CopyWorld S) Stop B) w :
  calls_work -> bind call k w = k None (set_calls (c_calls w + 1)%nat w).
Proof using Type. intros Hio. unfold bind at 1. by rewrite call_works. Qed.

Lemma bind_gets {A B} (q : CopyWorld S -> A) (k : A -> SM (CopyWorld S) Stop B) w :
  bind (gets q) k w = k (q w) w.
Proof using Type. done. Qed.

Lemma takes_after_call {B} x src dst (k : unit -> SM (CopyWorld S) Stop B) w :
  calls_work -> takes x (k tt) (set_calls (c_calls w + 1)%nat w) -> takes x (bind (call_or src dst) k) w.
Proof using Type. intros Hio Hk. unfold takes, call_or, bind at 1 2. by rewrite call_works. Qed.

Lemma takes_snapshot opts dst g w :
  calls_work -> versioning_enabled opts = true -> c_files w !! dst = Some g ->
  takes (dst, content g) (maybe_snapshot_before_overwrite opts dst) w.
Proof using Type.
  intros Hio Hv Hg. unfold takes, maybe_snapshot_before_overwrite. rewrite Hv. cbn [negb].
  rewrite bind_call by done. unfold file_at. rewrite bind_gets. cbn [c_files set_calls]. rewrite Hg.
  rewrite bind_call by done. unfold modify. simpl. set_solver.
Qed.
End snapshots.
#[local] Hint Resolve keeps_run_loop keeps_snapshot keeps_decide_resume keeps_open_files keeps_dense_copy
  keeps_run_hook keeps_call keeps_call_or : keeps.

(** With versioning on and the calls working, the bytes a copy overwrites
    are in the snapshot store before they are lost, and stay there however
    the copy ends. *)
Theorem overwritten_version_is_snapshotted {EN : CopyEnv} src dst opts f g (w : CopyWorld S) :
  calls_work -> versioning_enabled opts = true -> fail_if_exists opts = false -> journaled opts = false ->
  validate_path_no_traversal src = None -> validate_path_no_traversal dst = None ->
  escapes_jail opts dst = false -> c_files w !! src = Some f -> c_files w !! dst = Some g ->
  (dst, content g) ∈ c_snapshots (copy_file src dst opts w).2.
Proof.
  intros Hio Hv Hfe Hj Hs Hd Hjail Hf Hg. change (takes (dst, content g) (copy_file src dst opts) w).
  unfold copy_file. rewrite Hs, Hd, Hjail. apply takes_after_call; [done|].
  set (w1 := set_calls _ w). assert (c_files w1 !! src = Some f /\ c_files w1 !! dst = Some g) as [Hf1 Hg1] by done.
  clearbody w1. unfold takes, file_at. rewrite bind_gets, Hf1.
  change (takes (dst, content g) (let! fast := try_fast_copy src dst opts in
    match fast with Some report => ret report | None => dense_copy src dst opts f end) w1).
  assert (takes (dst, content g) (dense_copy src dst opts f) w1) as Hdense.
  { unfold dense_copy, decide_resume. rewrite Hj. cbn [negb].
    change (takes (dst, content g) (open_files src dst opts FreshStart ;;
      emit (Started src dst (file_len f)) ;; run_loop src dst opts f FreshStart) w1).
    apply takes_bind; [|unfold emit; keeps]. unfold open_files. rewrite Hfe. cbn [negb is_fresh andb].
    apply takes_after_call; [done|]. apply takes_bind; [by apply takes_snapshot|].
    unfold open_dst, rewind_dst, file_at. keeps. }
  assert (forall hook, takes (dst, content g)
    (let! fast := (maybe_snapshot_before_overwrite opts dst ;; run_hook hook src dst opts) in
     match fast with Some report => ret report | None => dense_copy src dst opts f end) w1) as Hhook.
  { intros hook. apply takes_bind; [|keeps]. apply takes_bind; [|keeps]. by apply takes_snapshot. }
  unfold try_fast_copy. rewrite Hfe.
  by destruct (verify opts), (strategy opts), (fast_copy_hook opts) as [hook|].
Qed.
End copies.

(** ** A deployment *)

Module CopyDemo.
Import SinkDemo.

(** Reads of four bytes, writes that let two through, a hash that is the
    bytes themselves; [fate] decides the calls and [lay] the disk. *)
Definition deploy (fate : nat -> IoOutcome) (lay : bytes -> bytes) (step : nat) : CopyEnv :=
  {| io := fate; chunk _ := step; drain _ := 2%nat; disk _ := lay; due _ := true; wall n := Z.of_nat n;
     b3 := String.string_of_list_byte; canonicalize := Some |}.
#[export] Instance sound : CopyEnv := deploy (fun _ => Fine) id 4.

Definition quick : CopyEnv := deploy (fun _ => Fine) id (Z.to_nat 17000).

(** The process dies at call [n]. *)
Definition dies_at (n : nat) : CopyEnv := deploy (fun k => if (k =? n)%nat then Dies else Fine) id (Z.to_nat 17000).

Lemma b3_inj fate lay step : Inj (=) (=) (@b3 (deploy fate lay step)).
Proof.
  intros x y E. simpl in E.
  by rewrite <- (String.list_byte_of_string_of_list_byte x), E, String.list_byte_of_string_of_list_byte.
Qed.

Definition sha : Verifier := {| v_name := "sha"; v_hash := String.string_of_list_byte |}.

Definition opts (v : option Verifier) (journal exclusive versions : bool) : CopyOptions :=
  {| buffer_size := DEFAULT_BUFFER_SIZE; fsync_on_close := false; preserve_times := true;
     preserve_permissions := true; keep_partial := false; fail_if_exists := exclusive; verify := v;
     fsync_before_verify := true; strategy := Auto; fast_copy_hook := None; journaled := journal;
     journal_file_idx := 0; dest_jail_root := None; versioning_enabled := versions |}.

Definition mtime : Z := 7.
Definition source : File := {| content := text "hello world"; f_mtime_ms := mtime |}.
Definition old : File := {| content := text "old"; f_mtime_ms := 1 |}.

Definition world (f : File) (flags : list Z) : CopyWorld sink :=
  {| c_files := {[ ["a"] := f; ["b"] := old ]}; c_calls := 0; c_flags := flags; c_events := [];
     c_sink := s; c_snapshots := [] |}.

(** A fresh job offers nothing. *)
Lemma fresh_true `{!CopyEnv} i b : truthful i b s.
Proof.
  intros p [->|(e & He & _)]; [|change ((∅ : gmap Z PendingCheckpoint) !! i = Some e) in He; by rewrite lookup_empty in He].
  assert (disk_plan (sk_journal s) (sk_job s) i = CRestart) as ->; [|done].
  unfold disk_plan, resume_plan, read_txn. simpl. unfold decode. by rewrite lookup_empty.
Qed.

Lemma opts_granted v j r : granted ["a"] ["b"] (opts v j false r).
Proof. by split. Qed.

Lemma calm_run v j r : undisturbed ["a"] ["b"] (opts v j false r) [].
Proof. split; [apply opts_granted|done|done|by intros ?%not_elem_of_nil]. Qed.
End CopyDemo.
Import CopyDemo.
#[local] Existing Instances SinkDemo.env JournalDemo.job_codec JournalDemo.file_codec.

Lemma run_pair {A B} (x : A * B) a : x.1 = a -> x = (a, x.2).
Proof. destruct x. simpl. by intros ->. Qed.

Lemma copy_is_exact_witness :
  let '(r, w') := copy_file ["a"] ["b"] (opts None true false false) (world source [PAUSED; PAUSED; RUNNING]) in
  exists rep g, r = Ok rep /\ c_files w' !! ["b"] = Some g /\ content g = text "hello world".
Proof.
  pose proof (copy_is_exact ["a"] ["b"] (opts None true false false) source (world source [PAUSED; PAUSED; RUNNING])
    ltac:(done) ltac:(done) (b3_inj _ _ _) (fresh_true _ _) ltac:(done)) as Hc.
  assert (is_Some (match (copy_file ["a"] ["b"] (opts None true false false)
    (world source [PAUSED; PAUSED; RUNNING])).1 with Ok rep => Some rep | Err _ => None end)) as Hok
    by (vm_compute; eauto).
  destruct (copy_file ["a"] ["b"] _ _) as [[rep|e] w']; [|by destruct Hok].
  destruct Hc as (_ & _ & _ & g & Hg & Hgc & _). exists rep, g. split_and!; [done|done|by apply Hgc].
Defined.

Definition verified_run := copy_file ["a"] ["b"] (opts (Some sha) false false false) (world source []).
Definition cancelled_run :=
  copy_file ["a"] ["b"] (opts None false false false) (world source [RUNNING; RUNNING; CANCELLED]).

Lemma verified_copy_is_exact_witness :
  exists g, c_files verified_run.2 !! ["b"] = Some g /\ content g = text "hello world".
Proof.
  assert (verified_run.1 = Ok {| cr_src := ["a"]; cr_dst := ["b"]; cr_bytes := 11 |}) as E
    by (vm_compute; reflexivity).
  exact (verified_copy_is_exact ["a"] ["b"] (opts (Some sha) false false false) sha source (world source [])
    _ verified_run.2 ltac:(done) ltac:(done) (b3_inj _ _ _) (fresh_true _ _) ltac:(done) (b3_inj (fun _ => Fine) id 4)
    ltac:(done) (run_pair verified_run _ E)).
Defined.

Lemma undisturbed_copy_succeeds_witness :
  exists rep w' g, copy_file ["a"] ["b"] (opts (Some sha) true false true) (world source []) = (Ok rep, w') /\
    c_files w' !! ["b"] = Some g /\ content g = content source /\ spared ["b"] (world source []) w'.
Proof.
  apply undisturbed_copy_succeeds; [done|done|apply (b3_inj (fun _ => Fine) id 4)|apply fresh_true|apply calm_run].
Defined.

Lemma failed_copy_cleans_up_witness :
  c_files cancelled_run.2 = delete ["b"] (c_files (world source [])).
Proof.
  assert (cancelled_run.1 = Err (SErr (copy_cancelled ["a"] ["b"]))) as E by (vm_compute; reflexivity).
  exact (failed_copy_cleans_up ["a"] ["b"] (opts None false false false) source
    (world source [RUNNING; RUNNING; CANCELLED]) _ cancelled_run.2 ltac:(done) ltac:(done) (b3_inj _ _ _)
    (fresh_true _ _) (opts_granted _ _ _) ltac:(done) ltac:(done) (run_pair cancelled_run _ E)).
Defined.

(** A file of 20,000 bytes, read in pieces of 17,000: the first attempt dies
    after its checkpoint, the second while it is probing, the third resumes. *)
Definition large : File := {| content := repeat x61 (Z.to_nat 20000); f_mtime_ms := mtime |}.
Definition crashes : list (CopyEnv * list Z) := [(dies_at 8, []); (dies_at 10, [PAUSED])].

Lemma interrupted_copy_resumes_witness :
  let w1 := attempts ["a"] ["b"] (opts None true false false) crashes (world large []) in
  exists rep w2 g, retry ["a"] ["b"] (opts None true false false) sound [] w1 = (Ok rep, w2) /\
    c_files w2 !! ["b"] = Some g /\ content g = content large /\ spared ["b"] (world large []) w2.
Proof.
  apply (interrupted_copy_resumes (EN := sound)).
  - done.
  - done.
  - apply (b3_inj (fun _ => Fine) id 4).
  - apply fresh_true.
  - repeat constructor.
  - apply calm_run.
Defined.

Lemma guards_refuse_first_witness :
  copy_file ["a"] ["b"; ".."; "c"] (opts None false false false) (world source [])
  = (Err (SErr (path_escape ["a"] ["b"; ".."; "c"])), world source []).
Proof. apply guards_refuse_first. right. left. done. Defined.

Lemma fail_if_exists_spares_destination_witness :
  let '(r, w') := copy_file ["a"] ["b"] (opts None false true false) (world source []) in
  c_files w' = c_files (world source []) /\ forall rep, r <> Ok rep.
Proof. by apply (fail_if_exists_spares_destination _ _ _ old). Defined.

Lemma overwritten_version_is_snapshotted_witness :
  (["b"], text "old") ∈ c_snapshots (copy_file ["a"] ["b"] (opts None false false true) (world source [CANCELLED])).2.
Proof. by apply (overwritten_version_is_snapshotted _ _ _ source old). Defined.

(** ** Where the guarantees stop *)

(** A file copied onto itself is emptied, and the copy reports success. *)
Lemma copy_onto_itself_loses_the_file :
  let '(r, w') := copy_file ["a"] ["a"] (opts None false false false) (world source []) in
  r = Ok {| cr_src := ["a"]; cr_dst := ["a"]; cr_bytes := 0 |} /\ content <$> c_files w' !! ["a"] = Some [].
Proof. vm_compute. done. Qed.

(** A source changed after a finished copy, its length kept, is not copied
    again: the journal knows the old bytes and the engine compares only the
    destination with it. *)
Lemma resume_trusts_changed_source :
  let copy := copy_file (EN := quick) ["a"] ["b"] (opts None true false false) in
  let w1 := (copy (world large [])).2 in
  let changed := {| content := repeat x62 (Z.to_nat 20000); f_mtime_ms := mtime + 1 |} in
  let w2 := (copy (set_cfiles (<[["a"] := changed]> (c_files w1)) w1)).2 in
  last (c_events w2) = Some (Completed 20000) /\
  (fun g => head (content g)) <$> c_files w2 !! ["b"] = Some (head (content large)).
Proof. vm_compute. done. Qed.

(** The third attempt reads only what the first had not checkpointed. *)
Example third_attempt_resumes :
  let w2 := attempts ["a"] ["b"] (opts None true false false) crashes (world large []) in
  let w3 := (retry ["a"] ["b"] (opts None true false false) quick [] w2).2 in
  file_len <$> c_files w2 !! ["b"] = Some 17000 /\
  drop (length (c_events w2)) (c_events w3) = [Started ["a"] ["b"] 20000; Progress 20000 20000; Completed 20000].
Proof. vm_compute. split; reflexivity. Qed.
