(* ===== verification/SyncPath.v ===== *)
(** * Paths of the sync engine ([walker.rs] and the naming half of [engine.rs])

    A [Path] is the list of its components.  [join_relpath] is the guard that
    turns a database key into a path under a pair root; the conflict-name
    functions build the file name under which a losing side is preserved. *)
From S2P Require Import Prelude.
From S2P Require Import Text.
From stdpp Require Import options.

Definition slash : ascii := "/"%char.
Definition dot : ascii := "."%char.
Definition backslash : ascii := "\"%char.
Definition tab_char : ascii := "009"%char.

(** ** [join_relpath] *)

Definition nonempty (s : string) : bool := match s with EmptyString => false | _ => true end.

(** The loop over the segments: [push] each one, give up on a bad one. *)
Fixpoint push_segments (p : path) (segs : list string) : option path :=
  match segs with
  | [] => Some p
  | seg :: rest =>
      if String.eqb seg ".." || contains_char backslash seg then None
      else push_segments (p ++ [seg]) rest
  end.

Definition join_relpath (root : path) (relpath : string) : option path :=
  if contains_str ".." relpath || contains_char "000"%char relpath then None
  else if has_control_except (Ascii.eqb tab_char) relpath then None
  else if starts_with "/" relpath || starts_with "\" relpath || contains_char ":"%char relpath
       then None
  else push_segments root (filter nonempty (split_on slash relpath)).

(** [normalize_relpath] on a path relative to the root: its components joined
    with forward slashes. *)
Definition normalize_relpath (p : path) : string := str_join "/" p.

(** [Path::join] with a relative name. *)
Definition path_join (p : path) (name : string) : path :=
  p ++ filter nonempty (split_on slash name).

(** ** Conflict file names *)

Definition split_last_dot (s : string) : string * option string :=
  let '(before, last_segment) :=
    match rsplit_once slash s with
    | Some (d, seg) => (d +:+ "/", seg)
    | None => ("", s)
    end in
  match rsplit_once dot last_segment with
  | Some (stem, ext) =>
      if nonempty stem && nonempty ext then (before +:+ stem, Some ext) else (s, None)
  | None => (s, None)
  end.

(** [{n:06}] for the sequence numbers the engine uses ([u32], at most
    [MAX_SEQ]): six digits, seven for one million. *)
Definition digit_char (d : N) : ascii := ascii_of_N (48 + d mod 10).

Fixpoint digits (k : nat) (n : N) : string :=
  match k with
  | O => ""
  | S k' => digits k' (n / 10) +:+ String (digit_char n) ""
  end.

Definition pad6 (n : N) : string := digits (if (n <? 1000000)%N then 6 else 7) n.

Definition conflict_preservation_name_with_seq
    (ts relpath host_label : string) (seq : option N) : string :=
  let '(stem, ext) := split_last_dot relpath in
  let file_stem := match rsplit_once slash stem with Some (_, x) => x | None => stem end in
  let seq_suffix := match seq with Some n => "-" +:+ pad6 n | None => "" end in
  match ext with
  | Some ext =>
      file_stem +:+ ".sync-conflict-" +:+ ts +:+ "-" +:+ host_label +:+ seq_suffix +:+ "." +:+ ext
  | None => file_stem +:+ ".sync-conflict-" +:+ ts +:+ "-" +:+ host_label +:+ seq_suffix
  end.

Definition conflict_preservation_name (ts relpath host_label : string) : string :=
  conflict_preservation_name_with_seq ts relpath host_label None.

Definition MAX_SEQ : N := 1000000.

(** The names [unique_conflict_path] tries, in order: attempt [0] is the bare
    name, attempt [k] carries the sequence number [k].  Every attempt reads
    the clock again, so it has a timestamp of its own. *)
Definition conflict_candidate (dir : path) (ts : N -> string) (relpath host : string) (k : N)
    : path :=
  path_join dir
    (conflict_preservation_name_with_seq (ts k) relpath host
       (if (k =? 0)%N then None else Some k)).

Definition unique_conflict_path (path_exists : path -> bool) (ts : N -> string)
    (dir : path) (relpath host : string) : path :=
  let bare := conflict_candidate dir ts relpath host 0 in
  if negb (path_exists bare) then bare
  else match first_from (fun p => negb (path_exists p)) (conflict_candidate dir ts relpath host)
               1 (N.to_nat MAX_SEQ) with
       | Some p => p
       | None => path_join dir
           (conflict_preservation_name_with_seq (ts (MAX_SEQ + 1)%N) relpath host (Some MAX_SEQ))
       end.

(** ** Lemmas *)

(** The safe components: what [join_relpath] lets through. *)
Definition safe_segment (s : string) : Prop :=
  s <> "" /\ s <> ".." /\ contains_char slash s = false /\ contains_char backslash s = false
  /\ contains_char ":"%char s = false /\ contains_char "000"%char s = false.

Lemma push_segments_spec segs : forall p q,
  push_segments p segs = Some q <->
  q = p ++ segs /\ Forall (fun s => s <> ".." /\ contains_char backslash s = false) segs.
Proof.
  induction segs as [|s segs IH]; intros p q; simpl.
  - rewrite app_nil_r. split; [intros [= ->]; done | intros [-> _]; done].
  - destruct (String.eqb_spec s "..") as [->|Hs]; simpl.
    { split; [done|]. intros [_ H]. apply Forall_cons in H as [[? _] _]. done. }
    destruct (contains_char backslash s) eqn:Hb.
    { split; [done|]. intros [_ H]. apply Forall_cons in H as [[_ ?] _]. congruence. }
    rewrite IH, <- app_assoc, Forall_cons. simpl. intuition auto.
Qed.

Lemma contains_char_split c sep s x :
  contains_char c s = false -> x ∈ split_on sep s -> contains_char c x = false.
Proof.
  revert x. unfold contains_char.
  induction s as [|a s IH]; intros x Hs Hx; simpl in *.
  { apply list_elem_of_singleton in Hx as ->. done. }
  apply orb_false_iff in Hs as [Ha Hs].
  pose proof (split_on_not_nil sep s). destruct (split_on sep s) as [|h t]; [done|].
  destruct (Ascii.eqb a sep).
  - apply elem_of_cons in Hx as [->|Hx]; [done|]. auto.
  - apply elem_of_cons in Hx as [->|Hx]; simpl.
    + rewrite Ha. simpl. apply IH; [done|]. left.
    + apply IH; [done|]. by right.
Qed.

(** The relative components a key stands for. *)
Definition relpath_segments (relpath : string) : list string :=
  filter nonempty (split_on slash relpath).

Lemma join_relpath_Some root relpath p :
  join_relpath root relpath = Some p ->
  p = root ++ relpath_segments relpath /\ Forall safe_segment (relpath_segments relpath).
Proof.
  unfold join_relpath, relpath_segments.
  destruct (contains_str _ _) eqn:H1; [done|]. simpl.
  destruct (contains_char "000"%char relpath) eqn:H2; [done|].
  destruct (has_control_except _ _) eqn:H3; [done|].
  destruct (starts_with "/" relpath || starts_with "\" relpath) eqn:H4; [done|]. simpl.
  destruct (contains_char ":"%char relpath) eqn:H5; [done|].
  rewrite push_segments_spec. intros [-> H]. split; [done|].
  rewrite Forall_forall in *. intros s Hs. specialize (H s Hs) as [Hdd Hbs].
  apply list_elem_of_filter in Hs as [Hne Hin].
  pose proof (split_on_no_sep slash relpath) as Hsep. rewrite Forall_forall in Hsep.
  repeat split; eauto using contains_char_split. by intros ->.
Qed.

(** A key is clean when it is the normal form of the path it stands for; the
    keys the walker produces are. *)
Definition clean (relpath : string) : Prop :=
  normalize_relpath (relpath_segments relpath) = relpath.

Lemma join_relpath_inj root a b p :
  clean a -> clean b -> join_relpath root a = Some p -> join_relpath root b = Some p -> a = b.
Proof.
  intros Ha Hb [Ea _]%join_relpath_Some [Eb _]%join_relpath_Some. subst p.
  apply app_inv_head in Eb. rewrite <- Ha, <- Hb. by rewrite Eb.
Qed.

(** ** The shape of conflict names *)

Lemma digit_char_inj a b : digit_char a = digit_char b -> (a mod 10 = b mod 10)%N.
Proof.
  unfold digit_char. intros H. apply (f_equal N_of_ascii) in H.
  pose proof (N.mod_lt a 10). pose proof (N.mod_lt b 10).
  rewrite !N_ascii_embedding in H by lia. lia.
Qed.

Lemma digit_char_not d c : (N_of_ascii c < 48)%N -> Ascii.eqb c (digit_char d) = false.
Proof.
  intros Hc. apply Ascii.eqb_neq. intros ->. unfold digit_char in Hc.
  pose proof (N.mod_lt d 10). pose proof (N.le_0_l (d mod 10)).
  rewrite N_ascii_embedding in Hc by lia. lia.
Qed.

Lemma digit_char_not_dash d : Ascii.eqb "-" (digit_char d) = false.
Proof. by apply digit_char_not. Qed.

Lemma digit_char_not_slash d : Ascii.eqb slash (digit_char d) = false.
Proof. by apply digit_char_not. Qed.

Lemma digits_no c k : (forall d, Ascii.eqb c (digit_char d) = false) ->
  forall n, contains_char c (digits k n) = false.
Proof.
  intros Hc. induction k as [|k IH]; intros n; simpl; [done|].
  rewrite contains_char_app, IH. unfold contains_char. simpl. by rewrite Hc.
Qed.

Lemma digits_length k n : String.length (digits k n) = k.
Proof. revert n. induction k; intros n; simpl; [done|]. rewrite str_app_length, IHk. simpl. lia. Qed.

Lemma str_snoc_inj a b x y : a +:+ String x "" = b +:+ String y "" -> a = b /\ x = y.
Proof.
  revert b. induction a as [|c a IH]; intros [|d b] H; simpl in H.
  - injection H as ->. done.
  - exfalso. injection H as -> H. apply (f_equal String.length) in H.
    rewrite str_app_length in H. simpl in H. lia.
  - exfalso. injection H as -> H. apply (f_equal String.length) in H.
    rewrite str_app_length in H. simpl in H. lia.
  - injection H as -> H. apply IH in H as [-> ->]. done.
Qed.

Lemma digits_inj k : forall n m,
  (n < 10 ^ N.of_nat k)%N -> (m < 10 ^ N.of_nat k)%N -> digits k n = digits k m -> n = m.
Proof.
  induction k as [|k IH]; intros n m Hn Hm H; simpl in H; [simpl in *; lia|].
  apply str_snoc_inj in H as [H Hd%digit_char_inj].
  rewrite Nat2N.inj_succ, N.pow_succ_r' in Hn, Hm.
  apply IH in H; [| apply N.Div0.div_lt_upper_bound; lia..].
  pose proof (N.div_mod' n 10). pose proof (N.div_mod' m 10). lia.
Qed.

Lemma pad6_inj n m : (n <= MAX_SEQ)%N -> (m <= MAX_SEQ)%N -> pad6 n = pad6 m -> n = m.
Proof.
  unfold pad6, MAX_SEQ. intros Hn Hm H.
  pose proof (f_equal String.length H) as Hl. rewrite !digits_length in Hl.
  destruct (N.ltb_spec n 1000000), (N.ltb_spec m 1000000); try done; [|lia].
  apply digits_inj in H; simpl; lia.
Qed.

(** Every conflict name is a fixed prefix, the sequence suffix and a fixed
    suffix; none of the three parts holds a slash when the host label and the
    timestamp hold none. *)
Lemma conflict_name_shape relpath host :
  contains_char slash host = false ->
  exists front back,
    contains_char slash front = false /\ contains_char slash back = false /\
    forall ts seq,
      conflict_preservation_name_with_seq ts relpath host seq
      = (front +:+ ts +:+ "-" +:+ host) +:+
        (match seq with Some n => "-" +:+ pad6 n | None => "" end) +:+ back.
Proof.
  intros Hh. unfold conflict_preservation_name_with_seq.
  assert (forall ext, (split_last_dot relpath).2 = Some ext -> contains_char slash ext = false) as Hext.
  { intros ext. unfold split_last_dot.
    pose proof (rsplit_once_spec slash relpath) as Hs.
    destruct (rsplit_once slash relpath) as [[d seg]|].
    - destruct Hs as [_ Hs]. pose proof (rsplit_once_spec dot seg) as Hd.
      destruct (rsplit_once dot seg) as [[st ex]|]; [|done].
      destruct (_ && _); simpl; [|done]. intros [= <-]. destruct Hd as [-> _].
      rewrite contains_char_app in Hs. apply orb_false_iff in Hs as [_ Hs]. exact Hs.
    - pose proof (rsplit_once_spec dot relpath) as Hd.
      destruct (rsplit_once dot relpath) as [[st ex]|]; [|done].
      destruct (_ && _); simpl; [|done]. intros [= <-]. destruct Hd as [-> _].
      rewrite contains_char_app in Hs. apply orb_false_iff in Hs as [_ Hs]. exact Hs. }
  destruct (split_last_dot relpath) as [stem ext]. simpl in Hext.
  set (fs := match rsplit_once slash stem with Some (_, x) => x | None => stem end).
  assert (contains_char slash fs = false) as Hfs.
  { unfold fs. pose proof (rsplit_once_spec slash stem) as H.
    destruct (rsplit_once slash stem) as [[??]|]; [by destruct H | done]. }
  exists (fs +:+ ".sync-conflict-"), (match ext with Some e => "." +:+ e | None => "" end).
  split; [rewrite contains_char_app, Hfs; done|]. split.
  { destruct ext as [e|]; [|done]. rewrite contains_char_app. rewrite (Hext e eq_refl). done. }
  intros ts seq. destruct ext; rewrite ?str_app_nil_r, !str_app_assoc; done.
Qed.

Lemma split_on_no_char c s : contains_char c s = false -> split_on c s = [s].
Proof.
  unfold contains_char. induction s as [|a s IH]; simpl; [done|].
  intros H. apply orb_false_iff in H as [Ha Hs]. rewrite (IH Hs).
  rewrite Ascii.eqb_sym in Ha. by rewrite Ha.
Qed.

Lemma path_join_plain p name :
  contains_char slash name = false -> name <> "" -> path_join p name = p ++ [name].
Proof.
  intros H Hn. unfold path_join. rewrite split_on_no_char by done.
  destruct name; [done|]. done.
Qed.

Lemma conflict_name_plain ts relpath host seq :
  contains_char slash host = false -> contains_char slash ts = false ->
  let n := conflict_preservation_name_with_seq ts relpath host seq in
  contains_char slash n = false /\ n <> "".
Proof.
  intros Hh Ht n. destruct (conflict_name_shape relpath host Hh) as (fr & bk & Hf & Hb & E).
  unfold n. rewrite E. split.
  - rewrite !contains_char_app, Hf, Hb, Ht, Hh. destruct seq; [|done].
    rewrite contains_char_app. unfold pad6.
    by rewrite digits_no by apply digit_char_not_slash.
  - intros H. apply (f_equal String.length) in H. rewrite !str_app_length in H. simpl in H. lia.
Qed.

Lemma conflict_name_seq_inj t1 t2 relpath host n m :
  contains_char slash host = false -> (n <= MAX_SEQ)%N -> (m <= MAX_SEQ)%N ->
  conflict_preservation_name_with_seq t1 relpath host (Some n)
  = conflict_preservation_name_with_seq t2 relpath host (Some m) -> n = m.
Proof.
  intros Hh Hn Hm. destruct (conflict_name_shape relpath host Hh) as (fr & bk & _ & _ & E).
  rewrite !E. rewrite <- !str_app_assoc. intros H%str_app_inj_r.
  assert (forall t k, rsplit_once "-" ((((fr +:+ t) +:+ "-") +:+ host) +:+ "-" +:+ pad6 k)
    = Some (((fr +:+ t) +:+ "-") +:+ host, pad6 k)) as Hr.
  { intros t k. change ("-" +:+ pad6 k) with (String "-" (pad6 k)).
    apply rsplit_once_app, digits_no, digit_char_not_dash. }
  rewrite !(str_app_assoc _ "-" (pad6 _)) in H.
  apply (f_equal (rsplit_once "-")) in H. rewrite !Hr in H. injection H as _ H.
  by apply pad6_inj.
Qed.

Lemma conflict_candidate_inj ts dir relpath host i j :
  contains_char slash host = false -> (forall k, contains_char slash (ts k) = false) ->
  (1 <= i <= MAX_SEQ)%N -> (1 <= j <= MAX_SEQ)%N ->
  conflict_candidate dir ts relpath host i = conflict_candidate dir ts relpath host j -> i = j.
Proof.
  unfold conflict_candidate. intros Hh Ht Hi Hj.
  destruct (N.eqb_spec i 0), (N.eqb_spec j 0); try lia.
  rewrite !path_join_plain by (apply conflict_name_plain; auto).
  intros [= E]%app_inv_head. by apply conflict_name_seq_inj in E; [| |lia..].
Qed.

(** Joining depends on the root only as a prefix. *)
Definition safe_key (relpath : string) : bool :=
  match join_relpath [] relpath with Some _ => true | None => false end.

Lemma push_segments_prefix segs : forall p,
  push_segments p segs = (fun q => p ++ q) <$> push_segments [] segs.
Proof.
  intros p. destruct (push_segments p segs) as [q|] eqn:E.
  - apply push_segments_spec in E as [-> H].
    assert (push_segments [] segs = Some segs) as -> by (apply push_segments_spec; by split).
    done.
  - destruct (push_segments [] segs) as [q|] eqn:E'; [|done].
    apply push_segments_spec in E' as [-> H].
    assert (push_segments p segs = Some (p ++ segs)); [by apply push_segments_spec | congruence].
Qed.

Lemma join_relpath_eq root relpath :
  join_relpath root relpath =
  if safe_key relpath then Some (root ++ relpath_segments relpath) else None.
Proof.
  unfold safe_key, join_relpath, relpath_segments.
  destruct (_ || _); [done|]. destruct (has_control_except _ _); [done|].
  destruct (_ || _ || _); [done|]. rewrite push_segments_prefix.
  destruct (push_segments [] _) as [q|] eqn:E; [|done]. simpl.
  apply push_segments_spec in E as [-> _]. done.
Qed.

Lemma first_from_ext {A} (p q : A -> bool) f fuel : (forall x, p x = q x) ->
  forall n, first_from p f n fuel = first_from q f n fuel.
Proof. intros H. induction fuel as [|k IH]; intros n; simpl; [done|]. by rewrite H, IH. Qed.

Lemma unique_conflict_path_ext p q ts dir relpath host :
  (forall x, p x = q x) ->
  unique_conflict_path p ts dir relpath host = unique_conflict_path q ts dir relpath host.
Proof.
  intros H. unfold unique_conflict_path. rewrite H.
  rewrite (first_from_ext (fun x => negb (p x)) (fun x => negb (q x))); [done|].
  intros x. by rewrite H.
Qed.

(** Whatever the search returns is a conflict name in the directory. *)
Lemma unique_conflict_path_shape path_exists ts dir relpath host :
  exists k seq, unique_conflict_path path_exists ts dir relpath host
    = path_join dir (conflict_preservation_name_with_seq (ts k) relpath host seq).
Proof.
  unfold unique_conflict_path, conflict_candidate. destruct (negb _); [by eexists _, _|].
  destruct (first_from _ _ _ _) as [q|] eqn:E; [|by eexists _, _].
  apply first_from_sound in E as (_ & i & _ & -> & _). by eexists _, _.
Qed.

Lemma unique_conflict_path_free (files : gset path) ts dir relpath host :
  contains_char slash host = false -> (forall k, contains_char slash (ts k) = false) ->
  (size files < N.to_nat MAX_SEQ)%nat ->
  let p := unique_conflict_path (fun q => bool_decide (q ∈ files)) ts dir relpath host in
  (p ∉ files) /\ (exists name, p = dir ++ [name] /\ contains_char slash name = false).
Proof.
  intros Hh Ht Hsize p.
  assert (exists k, p = conflict_candidate dir ts relpath host k /\ p ∉ files) as (k & Hk & Hf).
  { unfold p, unique_conflict_path.
    case_bool_decide as Hbare; cbn [negb]; [|by exists 0%N].
    destruct (first_from _ _ _ _) as [q|] eqn:Hff.
    - apply first_from_sound in Hff as (Hq & i & _ & -> & _). exists i.
      split; [done|]. by apply negb_true_iff, bool_decide_eq_false in Hq.
    - exfalso. apply (Nat.lt_irrefl (N.to_nat MAX_SEQ)).
      eapply Nat.le_lt_trans; [|exact Hsize].
      apply (candidates_le_size files (conflict_candidate dir ts relpath host)).
      + intros i j Hi Hj. rewrite N2Nat.id in Hi, Hj.
        apply conflict_candidate_inj; auto; lia.
      + intros i Hi. pose proof (first_from_none _ _ _ _ Hff i Hi) as H.
        by apply negb_false_iff, bool_decide_eq_true in H. }
  split; [done|]. rewrite Hk. unfold conflict_candidate.
  eexists. split; [by apply path_join_plain; apply conflict_name_plain|].
  by apply conflict_name_plain.
Qed.

(** The components of a real path: no file name is empty or holds a slash. *)
Definition plain_segment (s : string) : Prop := nonempty s = true /\ contains_char slash s = false.

Lemma split_on_app_sep a s :
  contains_char slash a = false -> split_on slash (a +:+ "/" +:+ s) = a :: split_on slash s.
Proof.
  unfold contains_char. induction a as [|c a IH]; intros Ha.
  - simpl. pose proof (split_on_not_nil slash s). by destruct (split_on slash s).
  - cbn [has_char] in Ha. apply orb_false_iff in Ha as [Hc Ha]. specialize (IH Ha).
    rewrite Ascii.eqb_sym in Hc. simpl in *. by rewrite IH, Hc.
Qed.

(** A walked path and its key determine each other. *)
Lemma segments_of_normalized rel :
  Forall plain_segment rel -> relpath_segments (normalize_relpath rel) = rel.
Proof.
  unfold relpath_segments, normalize_relpath. intros H.
  assert (rel = [] \/ split_on slash (str_join "/" rel) = rel) as [->|E]; [|done|].
  { induction H as [|a rel [Hn Hs] H IH]; [by left|right]. destruct rel as [|b rel].
    - simpl. by apply split_on_no_char.
    - destruct IH as [|IH]; [done|]. change (str_join "/" (a :: b :: rel))
        with (a +:+ "/" +:+ str_join "/" (b :: rel)). rewrite split_on_app_sep by done. by rewrite IH. }
  rewrite E. clear E. induction H as [|a rel [Hn Hs] H IH]; [done|].
  rewrite filter_cons_True by (by rewrite Hn). by rewrite IH.
Qed.

Lemma clean_normalized rel : Forall plain_segment rel -> clean (normalize_relpath rel).
Proof. intros H. unfold clean. by rewrite segments_of_normalized. Qed.

(** ** Properties *)

(** Every path [join_relpath] returns lies under the root it was given:
    it is the root followed by the components of the key, none of which is
    empty, [..], or holds a separator, a drive colon or a NUL, so no key of
    the sync database escapes the pair root; a key with a [..] anywhere is
    refused; and two different keys in normal form never reach the same file. *)
Theorem join_relpath_confined root relpath :
  (forall p, join_relpath root relpath = Some p ->
     p = root ++ relpath_segments relpath /\ Forall safe_segment (relpath_segments relpath) /\
     (forall other, clean relpath -> clean other -> join_relpath root other = Some p ->
        other = relpath)) /\
  (contains_str ".." relpath = true -> join_relpath root relpath = None).
Proof.
  split.
  - intros p H. destruct (join_relpath_Some _ _ _ H) as [Hp Hs]. split_and!; [done..|].
    intros other Hc Ho H'. by eapply join_relpath_inj.
  - intros H. unfold join_relpath. by rewrite H.
Qed.

Lemma join_relpath_confined_witness :
  join_relpath ["srv"; "pair"] "a/b.txt" = Some ["srv"; "pair"; "a"; "b.txt"] /\
  join_relpath ["srv"; "pair"] "../../etc/passwd" = None /\
  join_relpath ["srv"; "pair"] "notes..txt" = None.
Proof.
  split; [vm_compute; reflexivity|].
  split; apply join_relpath_confined; vm_compute; reflexivity.
Defined.

(** As long as fewer than a million files exist, [unique_conflict_path]
    returns a path no file has, and that path is a direct child of the
    directory it was asked for: renaming the losing side there overwrites
    nothing.  The clock may move between the attempts. *)
Theorem unique_conflict_path_fresh (files : gset path) ts dir relpath host :
  contains_char slash host = false -> (forall k, contains_char slash (ts k) = false) ->
  (size files < N.to_nat MAX_SEQ)%nat ->
  let p := unique_conflict_path (fun q => bool_decide (q ∈ files)) ts dir relpath host in
  (p ∉ files) /\ (exists name, p = dir ++ [name] /\ contains_char slash name = false).
Proof. apply unique_conflict_path_free. Qed.

Lemma unique_conflict_path_fresh_witness :
  let files := {[ ["r"; "a.sync-conflict-20260101-000000-nas.txt"] ]} : gset path in
  let p := unique_conflict_path (fun q => bool_decide (q ∈ files))
             (fun _ => "20260101-000000") ["r"] "d/a.txt" "nas" in
  p = ["r"; "a.sync-conflict-20260101-000000-nas-000001.txt"] /\ p ∉ files.
Proof.
  set (files := {[ ["r"; "a.sync-conflict-20260101-000000-nas.txt"] ]} : gset path).
  assert (size files < N.to_nat MAX_SEQ)%nat as Hs.
  { unfold files. rewrite size_singleton. unfold MAX_SEQ. lia. }
  split; [vm_compute; reflexivity|].
  apply (unique_conflict_path_fresh files (fun _ => "20260101-000000") ["r"] "d/a.txt" "nas");
    [vm_compute; reflexivity | intros _; vm_compute; reflexivity | exact Hs].
Defined.

(** When every candidate exists and the clock does not move, the search gives
    up and returns a path that exists, so the rename that follows replaces an
    earlier preservation file instead of failing. *)
Lemma unique_conflict_path_saturated exists_ t dir relpath host :
  (forall k, (k <= MAX_SEQ)%N ->
     exists_ (conflict_candidate dir (fun _ => t) relpath host k) = true) ->
  exists_ (unique_conflict_path exists_ (fun _ => t) dir relpath host) = true.
Proof.
  intros H. unfold unique_conflict_path. rewrite (H 0%N) by (unfold MAX_SEQ; lia). cbn [negb].
  destruct (first_from _ _ _ _) as [q|] eqn:Hff.
  - apply first_from_sound in Hff as (Hq & i & Hi & -> & _). rewrite N2Nat.id in Hi.
    by rewrite H in Hq by lia.
  - apply (H MAX_SEQ). lia.
Qed.
