(* ===== verification/SyncTypes.v ===== *)
(** * Version vectors and types of the sync crate ([clock.rs], [types.rs], [error.rs])

    The data of [clock.rs], its operations, and the laws that make them a
    vector clock: [compare] decides the pointwise order, [merge_from] is the
    join of that order and [resolve_concurrent] strictly descends both of its
    arguments.

    The second part holds the public types of the sync crate and the rows of
    its database. *)
From S2P Require Import Prelude.
From S2P Require Import Text.
From S2P Require Import Files.
From S2P Require Import SyncPath.
From stdpp Require Import options.
Open Scope Z_scope.

(** A device id is a 128-bit UUID; only equality matters. *)
Abbreviation DeviceId := Z (only parsing).

(** ** Data *)

Record VersionVector := VV { vv_map : gmap DeviceId Z }.

Inductive VvCompare := Equal | Descends | Ancestor | Concurrent.

#[export] Instance VvCompare_eq_dec : EqDecision VvCompare.
Proof. solve_decision. Defined.
#[export] Instance VersionVector_eq_dec : EqDecision VersionVector.
Proof. solve_decision. Defined.

(** ** Operations *)

Definition vv_new : VersionVector := VV ∅.

Definition first_write (device : DeviceId) : VersionVector := VV {[ device := 1 ]}.

(** [*self.0.entry(device).or_insert(0) += 1] *)
Definition increment (v : VersionVector) (device : DeviceId) : VersionVector :=
  VV (<[ device := wrap64 (default 0 (vv_map v !! device) + 1) ]> (vv_map v)).

(** One turn of the [merge_from] loop: the entry is created when missing and
    raised when the other side's counter is larger. *)
Definition merge_step (d : DeviceId) (v : Z) (self : gmap DeviceId Z) : gmap DeviceId Z :=
  let cell := default 0 (self !! d) in
  <[ d := if cell <? v then v else cell ]> self.

Definition merge_from (self other : VersionVector) : VersionVector :=
  VV (map_fold merge_step (vv_map self) (vv_map other)).

Definition dominates (self other : VersionVector) : bool :=
  forallb (fun '(d, v_other) => negb (default 0 (vv_map self !! d) <? v_other))
          (map_to_list (vv_map other)).

Definition compare (self other : VersionVector) : VvCompare :=
  match dominates self other, dominates other self with
  | true, true => Equal
  | true, false => Descends
  | false, true => Ancestor
  | false, false => Concurrent
  end.

Definition resolve_concurrent (a b : VersionVector) (resolver : DeviceId) : VersionVector :=
  increment (merge_from (merge_from vv_new a) b) resolver.

(** ** The order the clock implements *)

(** The counter of a device, [0] when it never wrote. *)
Definition vv_get (v : VersionVector) (d : DeviceId) : Z := default 0 (vv_map v !! d).

Definition vv_wf (v : VersionVector) : Prop := map_Forall (fun _ x => is_u64 x) (vv_map v).

Definition vv_le (a b : VersionVector) : Prop := forall d, vv_get a d <= vv_get b d.

(** Two vectors are equivalent when no device tells them apart; a stored
    counter of [0] is the same as no counter. *)
#[export] Instance vv_equiv : Equiv VersionVector := fun a b => forall d, vv_get a d = vv_get b d.

#[export] Instance vv_equivalence : Equivalence (≡@{VersionVector}).
Proof.
  split.
  - intros a d. done.
  - intros a b H d. by rewrite H.
  - intros a b c H1 H2 d. by rewrite H1, H2.
Qed.

#[export] Instance vv_le_preorder : PreOrder vv_le.
Proof. split; [intros a d; lia | intros a b c H1 H2 d; specialize (H1 d); specialize (H2 d); lia]. Qed.

#[export] Instance vv_get_proper : Proper ((≡) ==> (=) ==> (=)) vv_get.
Proof. intros a b H d ? <-. apply H. Qed.

#[export] Instance vv_le_proper : Proper ((≡) ==> (≡) ==> iff) vv_le.
Proof. intros a a' Ha b b' Hb. split; intros H d; specialize (H d); by rewrite ?Ha, ?Hb in *. Qed.

#[export] Instance vv_wf_dec v : Decision (vv_wf v).
Proof. unfold vv_wf. apply _. Defined.

Lemma vv_le_antisym a b : vv_le a b -> vv_le b a -> a ≡ b.
Proof. intros H1 H2 d. specialize (H1 d). specialize (H2 d). lia. Qed.

Lemma vv_get_nonneg v d : vv_wf v -> 0 <= vv_get v d.
Proof.
  intros H. unfold vv_get. destruct (vv_map v !! d) eqn:E; simpl; [|lia].
  apply H in E. unfold is_u64 in E. lia.
Qed.

Lemma vv_wf_new : vv_wf vv_new.
Proof. apply map_Forall_empty. Qed.

Lemma vv_wf_insert d x m : vv_wf (VV m) -> is_u64 x -> vv_wf (VV (<[d := x]> m)).
Proof. intros. by apply map_Forall_insert_2. Qed.

(** ** Operations through [vv_get] *)

Lemma vv_get_new d : vv_get vv_new d = 0.
Proof. unfold vv_get, vv_new. simpl. by rewrite lookup_empty. Qed.

Lemma vv_get_increment v d d' :
  vv_get (increment v d) d' = if decide (d = d') then wrap64 (vv_get v d + 1) else vv_get v d'.
Proof.
  unfold vv_get, increment. simpl. rewrite lookup_insert. by case_decide.
Qed.

Lemma merge_step_lookup d v m d' :
  default 0 (merge_step d v m !! d')
  = if decide (d = d') then Z.max (default 0 (m !! d)) v else default 0 (m !! d').
Proof.
  unfold merge_step. rewrite lookup_insert. case_decide; [|done]. simpl.
  destruct (Z.ltb_spec (default 0 (m !! d)) v); lia.
Qed.

Lemma map_fold_merge_lookup m0 m d :
  map_Forall (fun _ x => is_u64 x) m0 -> map_Forall (fun _ x => is_u64 x) m ->
  default 0 (map_fold merge_step m0 m !! d)
  = Z.max (default 0 (m0 !! d)) (default 0 (m !! d)).
Proof.
  intros H0. revert m.
  refine (map_fold_weak_ind (M := gmap Z)
    (fun r m => map_Forall (fun _ x => is_u64 x) m ->
       default 0 (r !! d) = Z.max (default 0 (m0 !! d)) (default 0 (m !! d)))
    merge_step m0 _ _).
  - intros _. rewrite lookup_empty. simpl.
    destruct (m0 !! d) eqn:E; simpl; [|lia]. apply H0 in E. unfold is_u64 in E. lia.
  - intros d' x m r Hm IH Hwf. rewrite map_Forall_insert in Hwf by done.
    destruct Hwf as [Hx Hwf]. specialize (IH Hwf).
    rewrite merge_step_lookup, lookup_insert. case_decide as Hd; [|done].
    subst d'. rewrite IH, Hm. simpl. unfold is_u64 in Hx. lia.
Qed.

Lemma vv_get_merge_from a b d :
  vv_wf a -> vv_wf b -> vv_get (merge_from a b) d = Z.max (vv_get a d) (vv_get b d).
Proof. intros. by apply map_fold_merge_lookup. Qed.

Lemma vv_wf_increment v d : vv_wf v -> vv_wf (increment v d).
Proof. intros. apply vv_wf_insert; [by destruct v | auto]. Qed.

Lemma vv_wf_merge_from a b : vv_wf a -> vv_wf b -> vv_wf (merge_from a b).
Proof.
  intros Ha Hb. unfold merge_from. revert Hb. unfold vv_wf. simpl. generalize (vv_map b).
  refine (map_fold_weak_ind (M := gmap Z)
    (fun r m => map_Forall (fun _ x => is_u64 x) m -> map_Forall (fun _ x => is_u64 x) r)
    merge_step (vv_map a) _ _).
  - done.
  - intros d x m r Hm IH Hwf. rewrite map_Forall_insert in Hwf by done.
    destruct Hwf as [Hx Hwf]. specialize (IH Hwf). unfold merge_step.
    apply map_Forall_insert_2; [|done].
    destruct (r !! d) eqn:E; simpl; [apply IH in E|]; case_match; unfold is_u64, U64_MAX in *; lia.
Qed.

#[export] Hint Resolve vv_wf_new vv_wf_increment vv_wf_merge_from : core.

Lemma dominates_spec a b : vv_wf a -> dominates a b = true <-> vv_le b a.
Proof.
  intros Ha. unfold dominates. rewrite forallb_forall. split.
  - intros H d. unfold vv_get. destruct (vv_map b !! d) as [x|] eqn:E; simpl.
    + apply elem_of_map_to_list, list_elem_of_In in E. specialize (H _ E).
      simpl in H. apply negb_true_iff, Z.ltb_ge in H. done.
    + by apply vv_get_nonneg.
  - intros H [d x] Hin. apply list_elem_of_In, elem_of_map_to_list in Hin.
    specialize (H d). unfold vv_get in H. rewrite Hin in H. simpl in H.
    by apply negb_true_iff, Z.ltb_ge.
Qed.

Lemma compare_cases a b :
  vv_wf a -> vv_wf b ->
  (compare a b = Equal <-> a ≡ b) /\
  (compare a b = Descends <-> vv_le b a /\ ~ vv_le a b) /\
  (compare a b = Ancestor <-> vv_le a b /\ ~ vv_le b a) /\
  (compare a b = Concurrent <-> ~ vv_le a b /\ ~ vv_le b a).
Proof.
  intros Ha Hb. pose proof (dominates_spec a b Ha) as H1.
  pose proof (dominates_spec b a Hb) as H2. unfold compare.
  assert (a ≡ b <-> vv_le a b /\ vv_le b a) as ->.
  { split; [intros E; split; by rewrite E | intros [??]; by apply vv_le_antisym]. }
  rewrite <- H1, <- H2. destruct (dominates a b), (dominates b a); intuition congruence.
Qed.

Lemma compare_iff a b :
  vv_wf a -> vv_wf b -> (compare a b = Descends <-> vv_le b a /\ ~ vv_le a b).
Proof. intros Ha Hb. apply (compare_cases a b Ha Hb). Qed.

(** ** Properties *)

(** [compare] decides the pointwise order on write counters: [Equal] is
    equality of every device's counter, [Descends] and [Ancestor] are the two
    strict orders, [Concurrent] is incomparability. *)
Theorem compare_decides_order a b :
  vv_wf a -> vv_wf b ->
  (compare a b = Equal <-> a ≡ b) /\
  (compare a b = Descends <-> vv_le b a /\ ~ vv_le a b) /\
  (compare a b = Ancestor <-> vv_le a b /\ ~ vv_le b a) /\
  (compare a b = Concurrent <-> ~ vv_le a b /\ ~ vv_le b a).
Proof. apply compare_cases. Qed.

Lemma compare_decides_order_witness :
  let a := increment (first_write 1) 1 in
  let b := increment (first_write 1) 2 in
  compare a b = Concurrent /\ ~ vv_le a b.
Proof.
  simpl. pose (a := increment (first_write 1) 1). pose (b := increment (first_write 1) 2).
  assert (vv_wf a) as Ha by by_decide.
  assert (vv_wf b) as Hb by by_decide.
  assert (compare a b = Concurrent) as E by (vm_compute; reflexivity).
  split; [exact E|].
  exact (proj1 (proj1 (proj2 (proj2 (proj2 (compare_decides_order a b Ha Hb)))) E)).
Defined.

(** [merge_from] is the least upper bound of the clock order, and
    [resolve_concurrent] strictly descends both vectors it reconciles as long
    as the resolver's counter has not reached [u64::MAX]; the result differs
    from the join only at the resolver, where it is one past the maximum. *)
Theorem resolve_concurrent_descends a b r :
  vv_wf a -> vv_wf b -> vv_get a r < U64_MAX -> vv_get b r < U64_MAX ->
  let c := resolve_concurrent a b r in
  vv_wf c /\ compare c a = Descends /\ compare c b = Descends /\
  (forall d, vv_get c d =
     Z.max (vv_get a d) (vv_get b d) + (if decide (d = r) then 1 else 0)) /\
  (forall u, vv_wf u -> vv_le a u -> vv_le b u -> vv_le (merge_from a b) u).
Proof.
  intros Ha Hb Har Hbr c.
  assert (vv_wf c) as Hc by (unfold c, resolve_concurrent; auto).
  assert (forall d, vv_get c d =
     Z.max (vv_get a d) (vv_get b d) + (if decide (d = r) then 1 else 0)) as Hget.
  { intros d. unfold c, resolve_concurrent. rewrite vv_get_increment.
    rewrite !vv_get_merge_from, !vv_get_new by auto.
    pose proof (vv_get_nonneg a d Ha). pose proof (vv_get_nonneg a r Ha).
    repeat case_decide; subst; try congruence; [|lia].
    rewrite wrap64_id by (unfold is_u64; lia). lia. }
  assert (forall x, vv_wf x -> (x = a \/ x = b) -> compare c x = Descends) as Hcmp.
  { intros x Hx Hor. apply (compare_iff c x Hc Hx). split.
    - intros d. rewrite Hget. destruct Hor as [-> | ->]; case_decide; lia.
    - intros Hle. specialize (Hle r). rewrite Hget, decide_True in Hle by done.
      destruct Hor as [-> | ->]; lia. }
  split; [done|]. split; [apply Hcmp; auto|]. split; [apply Hcmp; auto|]. split; [done|].
  intros u Hu H1 H2 d. rewrite vv_get_merge_from by auto.
  specialize (H1 d). specialize (H2 d). lia.
Qed.

Lemma resolve_concurrent_descends_witness :
  let a := increment (first_write 1) 1 in
  let b := increment (first_write 1) 2 in
  compare (resolve_concurrent a b 3) a = Descends.
Proof.
  simpl. pose (a := increment (first_write 1) 1). pose (b := increment (first_write 1) 2).
  assert (vv_wf a) as Ha by by_decide.
  assert (vv_wf b) as Hb by by_decide.
  assert (vv_get a 3 < U64_MAX) as H1 by (vm_compute; reflexivity).
  assert (vv_get b 3 < U64_MAX) as H2 by (vm_compute; reflexivity).
  exact (proj1 (proj2 (resolve_concurrent_descends a b 3 Ha Hb H1 H2))).
Defined.

(** * Public types of the sync crate ([types.rs], [error.rs], rows of [db.rs]) *)

(** A BLAKE3 digest: 32 raw bytes. *)

(** ** Configuration *)

Record SyncPair := {
  left : path;
  right : path;
  db_path : path;
  label : string;
  host_label : option string;
}.

Definition SyncPair_new (lbl : string) (l r : path) : SyncPair :=
  {| left := l; right := r; db_path := l ++ [".freally-sync.db"]; label := lbl; host_label := None |}.

Definition with_db_path (p : SyncPair) (d : path) : SyncPair :=
  {| left := left p; right := right p; db_path := d; label := label p; host_label := host_label p |}.

Definition with_host_label (p : SyncPair) (h : string) : SyncPair :=
  {| left := left p; right := right p; db_path := db_path p; label := label p; host_label := Some h |}.

Inductive Direction := LeftToRight | RightToLeft.

Definition flip (d : Direction) : Direction :=
  match d with LeftToRight => RightToLeft | RightToLeft => LeftToRight end.

Inductive SyncMode := TwoWay | MirrorLeftToRight | MirrorRightToLeft | ContributeLeftToRight.

(** The one field of [SyncOptions] the reconciliation logic reads; buffer
    sizes, fsync and the copy hook are handed to the copy engine. *)
Record SyncOptions := { dry_run : bool }.

(** ** Observations and decisions *)

Record FileMeta := { mtime_ms : Z; size : Z; blake3 : Digest }.

Record SideState := { ss_relpath : string; meta : option FileMeta }.

Inductive ConflictKind := ConcurrentWrite | DeleteEdit | AddAdd | CorruptEqual.

Inductive SyncAction :=
| Noop (relpath : string)
| Copy (relpath : string) (direction : Direction)
| Delete (relpath : string) (direction : Direction)
| KeepConflict (relpath : string) (winner loser : Direction) (kind : ConflictKind).

Definition action_relpath (a : SyncAction) : string :=
  match a with
  | Noop r | Copy r _ | Delete r _ | KeepConflict r _ _ _ => r
  end.

Record Conflict := {
  c_relpath : string;
  c_kind : ConflictKind;
  c_winner : Direction;
  c_loser : Direction;
  loser_preservation_path : path;
}.

Record SyncReport := {
  applied_left : Z;
  applied_right : Z;
  deleted_left : Z;
  deleted_right : Z;
  conflicts : list Conflict;
  elapsed_ms : Z;
  cancelled : bool;
}.

Definition report_default : SyncReport :=
  {| applied_left := 0; applied_right := 0; deleted_left := 0; deleted_right := 0;
     conflicts := []; elapsed_ms := 0; cancelled := false |}.

Inductive SyncEvent :=
| WalkStarted (side : Direction)
| WalkCompleted (side : Direction) (files_total : Z)
| ActionPlanned (action : SyncAction)
| ActionStarted (action : SyncAction)
| ActionCompleted (action : SyncAction)
| EvConflict (c : Conflict)
| Finished (report : SyncReport).

(** ** Errors; the texts and the inner causes of the variants are dropped *)

Inductive SyncError :=
| RootNotAccessible (p : path) (reason : string)
| Io (p : path)
| Database
| CodecError
| Propagation (relpath : string)
| Cancelled
| UnsafeRelpath (relpath : string).

(** ** Database rows *)

Record FileRecord := {
  vv : VersionVector;
  r_mtime_ms : Z;
  r_size : Z;
  r_blake3 : Digest;
}.

Inductive HistoryKind := HPropagated | HDeleted | HConflict | HCorrupt | HNoop.

Record HistoryEntry := {
  timestamp_ms : Z;
  seq : Z;
  h_relpath : string;
  h_kind : HistoryKind;
  h_direction : option Direction;
  vv_before : option VersionVector;
  vv_after : option VersionVector;
}.

#[export] Instance Direction_eq_dec : EqDecision Direction.
Proof. solve_decision. Defined.
#[export] Instance SyncMode_eq_dec : EqDecision SyncMode.
Proof. solve_decision. Defined.
#[export] Instance ConflictKind_eq_dec : EqDecision ConflictKind.
Proof. solve_decision. Defined.
#[export] Instance FileMeta_eq_dec : EqDecision FileMeta.
Proof. solve_decision. Defined.
#[export] Instance SyncAction_eq_dec : EqDecision SyncAction.
Proof. solve_decision. Defined.
#[export] Instance Conflict_eq_dec : EqDecision Conflict.
Proof. solve_decision. Defined.
#[export] Instance FileRecord_eq_dec : EqDecision FileRecord.
Proof. solve_decision. Defined.
#[export] Instance HistoryKind_eq_dec : EqDecision HistoryKind.
Proof. solve_decision. Defined.
#[export] Instance HistoryEntry_eq_dec : EqDecision HistoryEntry.
Proof. solve_decision. Defined.

Lemma flip_involutive d : flip (flip d) = d.
Proof. by destruct d. Qed.
