(* ===== verification/SyncDecide.v ===== *)
(** * The conflict matrix ([decide_action] and its helpers in [engine.rs])

    The decision for one relative path from the two walk observations and the
    last-synced baseline row.  The functions are pure in the source and stay
    so here; the theorems characterise the decision by what changed since the
    baseline. *)
From S2P Require Import Prelude.
From S2P Require Import Text.
From S2P Require Import SyncTypes.
From stdpp Require Import options.
Open Scope Z_scope.

Definition matches_baseline (current : option FileMeta) (baseline : option FileRecord) : bool :=
  match current, baseline with
  | Some c, Some b => String.eqb (blake3 c) (r_blake3 b) && (size c =? r_size b)
  | _, _ => false
  end.

Definition direction_allowed (mode : SyncMode) (direction : Direction) : option unit :=
  match mode, direction with
  | TwoWay, _ => Some tt
  | MirrorLeftToRight, LeftToRight => Some tt
  | MirrorRightToLeft, RightToLeft => Some tt
  | ContributeLeftToRight, LeftToRight => Some tt
  | _, _ => None
  end.

Definition pick_winner_by_mtime (left right : FileMeta) : Direction * Direction :=
  if mtime_ms left <? mtime_ms right then (RightToLeft, LeftToRight) else (LeftToRight, RightToLeft).

Definition is_contribute (mode : SyncMode) : bool :=
  match mode with ContributeLeftToRight => true | _ => false end.

(** The arm [(true, true, true)]: both sides present, baseline known. *)
Definition decide_both (relpath : string) (l r : FileMeta) (baseline : FileRecord) (mode : SyncMode)
    : SyncAction :=
  match matches_baseline (Some l) (Some baseline), matches_baseline (Some r) (Some baseline) with
  | true, true => Noop relpath
  | true, false => if is_contribute mode then Noop relpath else Copy relpath RightToLeft
  | false, true => Copy relpath LeftToRight
  | false, false =>
      if String.eqb (blake3 l) (blake3 r) then Noop relpath
      else let '(winner, loser) := pick_winner_by_mtime l r in
           KeepConflict relpath winner loser ConcurrentWrite
  end.

Definition decide_action (relpath : string) (left right : SideState)
    (baseline : option FileRecord) (mode : SyncMode) : SyncAction :=
  let lm := meta left in
  let rm := meta right in
  match lm, rm with
  | None, None => Noop relpath
  | Some l, Some r =>
      if String.eqb (blake3 l) (blake3 r) then Noop relpath
      else match baseline with
           | None =>
               let '(winner, loser) := pick_winner_by_mtime l r in
               KeepConflict relpath winner loser AddAdd
           | Some b => decide_both relpath l r b mode
           end
  | Some l, None =>
      match baseline with
      | None =>
          match direction_allowed mode LeftToRight with
          | Some _ => Copy relpath LeftToRight
          | None => Noop relpath
          end
      | Some _ =>
          if matches_baseline lm baseline then
            if is_contribute mode then Copy relpath LeftToRight else Delete relpath RightToLeft
          else KeepConflict relpath LeftToRight RightToLeft DeleteEdit
      end
  | None, Some r =>
      match baseline with
      | None =>
          match direction_allowed mode RightToLeft with
          | Some _ => Copy relpath RightToLeft
          | None => Noop relpath
          end
      | Some _ =>
          if matches_baseline rm baseline then
            if is_contribute mode then Noop relpath else Delete relpath LeftToRight
          else KeepConflict relpath RightToLeft LeftToRight DeleteEdit
      end
  end.

(** ** What changed: the specification the matrix implements *)

Inductive Change := Unchanged | Edited | Created | Removed | NeverThere.

(** A side compared with the baseline. *)
Definition change (m : option FileMeta) (baseline : option FileRecord) : Change :=
  match m, baseline with
  | None, None => NeverThere
  | None, Some _ => Removed
  | Some _, None => Created
  | Some c, Some b => if matches_baseline (Some c) (Some b) then Unchanged else Edited
  end.

Definition same_content (a b : option FileMeta) : bool :=
  match a, b with
  | None, None => true
  | Some x, Some y => String.eqb (blake3 x) (blake3 y)
  | _, _ => false
  end.

Definition newer_side (l r : option FileMeta) : Direction :=
  match l, r with
  | Some a, Some b => if mtime_ms a <? mtime_ms b then RightToLeft else LeftToRight
  | None, Some _ => RightToLeft
  | _, _ => LeftToRight
  end.

(** Reconciliation as a table over the changes: agreeing sides need nothing, a
    change on one side propagates, a change on both is a conflict the later
    write wins (a surviving edit wins over a deletion). *)
Definition two_way_spec (relpath : string) (l r : option FileMeta) (b : option FileRecord)
    : SyncAction :=
  if same_content l r then Noop relpath
  else match change l b, change r b with
       | (Edited | Created), (Unchanged | NeverThere) => Copy relpath LeftToRight
       | (Unchanged | NeverThere), (Edited | Created) => Copy relpath RightToLeft
       | Removed, Unchanged => Delete relpath LeftToRight
       | Unchanged, Removed => Delete relpath RightToLeft
       | (Edited | Created | Removed), (Edited | Created | Removed) =>
           let w := newer_side l r in
           KeepConflict relpath w (flip w)
             (match l, r, b with
              | Some _, Some _, None => AddAdd
              | Some _, Some _, Some _ => ConcurrentWrite
              | _, _, _ => DeleteEdit
              end)
       | _, _ => Noop relpath
       end.

(** C40: in two-way mode the conflict matrix implements the reconciliation
    table: for every pair of observations and every baseline the action is the
    one the changes on the two sides call for. *)
Theorem decide_action_refines_table relpath l r b :
  decide_action relpath {| ss_relpath := relpath; meta := l |}
                        {| ss_relpath := relpath; meta := r |} b TwoWay
  = two_way_spec relpath l r b.
Proof.
  unfold decide_action, two_way_spec, decide_both, pick_winner_by_mtime. simpl.
  destruct l as [l|], r as [r|], b as [b|]; simpl; try done;
    repeat (case_match; simplify_eq; simpl; try done).
Qed.

(** ** Inverting a decision: what a planned action says about the two sides *)

Definition side_of {A} (d : Direction) (l r : A) : A :=
  match d with LeftToRight => l | RightToLeft => r end.

Section invert.
Context (relpath : string) (left right : SideState) (b : option FileRecord) (mode : SyncMode).
#[local] Abbreviation sm d := (side_of d (meta left) (meta right)).

(** A planned copy has a source, and overwrites only what the baseline covers. *)
Definition copy_fact (d : Direction) : Prop :=
  is_Some (sm d) /\ (sm (flip d) = None \/ matches_baseline (sm (flip d)) b = true).

Definition delete_fact (d : Direction) : Prop :=
  sm d = None /\ is_Some (sm (flip d)) /\ matches_baseline (sm (flip d)) b = true.

Definition conflict_fact (winner loser : Direction) : Prop :=
  loser = flip winner /\ is_Some (sm winner).

Definition action_fact (a : SyncAction) : Prop :=
  match a with
  | Noop r => r = relpath /\ (mode = TwoWay -> same_content (meta left) (meta right) = true)
  | Copy r d => r = relpath /\ copy_fact d
  | Delete r d => r = relpath /\ delete_fact d
  | KeepConflict r w l _ => r = relpath /\ conflict_fact w l
  end.
End invert.

Lemma same_hash_baseline l r x :
    matches_baseline (Some l) (Some x) = true -> matches_baseline (Some r) (Some x) = true ->
    String.eqb (blake3 l) (blake3 r) = true.
Proof.
  unfold matches_baseline. rewrite !andb_true_iff, !String.eqb_eq. intros [-> _] [-> _]. done.
  Qed.

#[local] Ltac solve_fact :=
    simpl; unfold copy_fact, delete_fact, conflict_fact; simpl;
    repeat match goal with H : meta _ = _ |- _ => rewrite H; clear H end; simpl;
    split_and?; first [reflexivity | by eexists | by left | by right | discriminate
                      | intros; reflexivity | assumption].

Lemma decide_action_fact relpath left right b mode :
  action_fact relpath left right b mode (decide_action relpath left right b mode).
Proof.
    unfold decide_action, decide_both, pick_winner_by_mtime.
    destruct (meta left) as [l|] eqn:Hl, (meta right) as [r|] eqn:Hr;
      [| destruct b as [x|].. | solve_fact].
    - destruct (String.eqb (blake3 l) (blake3 r)) eqn:E; [split; rewrite ?Hl, ?Hr; done|].
      destruct b as [x|]; [|destruct (_ <? _); solve_fact].
      destruct (matches_baseline (Some l) (Some x)) eqn:El;
        destruct (matches_baseline (Some r) (Some x)) eqn:Er.
      + pose proof (same_hash_baseline _ _ _ El Er). congruence.
      + destruct mode; solve_fact.
      + solve_fact.
      + destruct (_ <? _); solve_fact.
    - destruct (matches_baseline (Some l) (Some x)) eqn:El; [destruct mode|]; solve_fact.
    - destruct mode; solve_fact.
    - destruct (matches_baseline (Some r) (Some x)) eqn:Er; [destruct mode|]; solve_fact.
    - destruct mode; solve_fact.
  Qed.

(** Where an action may write: the sides whose canonical path it can change. *)
Definition writes_side (a : SyncAction) (d : Direction) : bool :=
  match a with
  | Noop _ => false
  | Copy _ dir | Delete _ dir => bool_decide (d = flip dir)
  | KeepConflict _ _ loser _ => bool_decide (d = loser)
  end.

(** The version vectors take no part in the decision, and the
    [CorruptEqual] conflict the documentation describes is never produced:
    replacing the vector of the baseline leaves the action as it is. *)
Theorem decide_action_ignores_clocks relpath l r b v mode :
  decide_action relpath l r
    (Some {| vv := v; r_mtime_ms := r_mtime_ms b; r_size := r_size b; r_blake3 := r_blake3 b |}) mode
  = decide_action relpath l r (Some b) mode /\
  forall rp w lo, decide_action relpath l r (Some b) mode <> KeepConflict rp w lo CorruptEqual.
Proof.
  unfold decide_action, decide_both, matches_baseline, pick_winner_by_mtime. simpl.
  split; [done|]. intros rp w lo. repeat (case_match; simplify_eq; try done).
Qed.

(** One-way modes.  Contribute never deletes anywhere; a file that exists
    only on the receiving side of a left-to-right mirror is left in place; but
    a one-way mode still writes the protected side when both sides changed or
    when only the protected side changed in the opposite mirror. *)
Theorem decide_action_one_way relpath l r b mode :
  (mode = ContributeLeftToRight -> forall rp d, decide_action relpath l r b mode <> Delete rp d) /\
  (meta l = None -> b = None -> mode = MirrorLeftToRight ->
     decide_action relpath l r b mode = Noop relpath) /\
  (exists l' r' b', writes_side (decide_action relpath l' r' b' ContributeLeftToRight) LeftToRight
                    = true) /\
  (exists l' r' b', writes_side (decide_action relpath l' r' b' MirrorRightToLeft) RightToLeft
                    = true).
Proof.
  split_and!.
  - intros -> rp d. unfold decide_action, decide_both, pick_winner_by_mtime. simpl.
    repeat (case_match; simplify_eq; try done).
  - intros Hl -> ->. unfold decide_action. rewrite Hl. by destruct (meta r).
  - exists {| ss_relpath := relpath; meta := Some {| mtime_ms := 1; size := 1; blake3 := "a" |} |}.
    exists {| ss_relpath := relpath; meta := Some {| mtime_ms := 2; size := 1; blake3 := "b" |} |}.
    by exists None.
  - exists {| ss_relpath := relpath; meta := Some {| mtime_ms := 1; size := 1; blake3 := "a" |} |}.
    exists {| ss_relpath := relpath; meta := Some {| mtime_ms := 2; size := 1; blake3 := "b" |} |}.
    exists (Some {| vv := SyncTypes.vv_new; r_mtime_ms := 2; r_size := 1; r_blake3 := "b" |}).
    reflexivity.
Qed.

Lemma decide_action_one_way_witness :
  let f := {| mtime_ms := 5; size := 3; blake3 := "x" |} in
  decide_action "extra" {| ss_relpath := "extra"; meta := None |}
    {| ss_relpath := "extra"; meta := Some f |} None MirrorLeftToRight = Noop "extra".
Proof. simpl. by apply decide_action_one_way. Defined.
