(* ===== verification/SyncDb.v ===== *)
(** * The per-pair state store ([crates/freally-sync/src/db.rs])

    [SyncDb] is written against the table and codec interfaces of [Table].
    [BaselineStore] is what the engine relies on; [syncdb_store] discharges it. *)
From S2P Require Import Prelude.
From S2P Require Import Table.
From S2P Require Import SyncTypes.
From stdpp Require Import options.
Open Scope Z_scope.

(** ** What the engine expects of its store

    [bs_view] is the abstract baseline: the record a key has, if any. *)
Class BaselineStore (DB : Type) := {
  bs_device_id : DB -> Z;
  bs_get_file : DB -> string -> result SyncError (option FileRecord);
  bs_put_file : DB -> string -> FileRecord -> DB;
  bs_delete_file : DB -> string -> DB;
  bs_all_files : DB -> result SyncError (list (string * FileRecord));
  bs_append_history : DB -> HistoryEntry -> DB;
  bs_view : DB -> string -> option FileRecord;
  bs_ok : DB -> Prop;
  bs_get_view : forall db k, bs_ok db -> bs_get_file db k = Ok (bs_view db k);
  bs_all_view : forall db, bs_ok db ->
    exists l, bs_all_files db = Ok l /\ forall k r, (k, r) ∈ l <-> bs_view db k = Some r;
  bs_put_view : forall db k r k',
    bs_view (bs_put_file db k r) k' = if decide (k = k') then Some r else bs_view db k';
  bs_delete_view : forall db k k',
    bs_view (bs_delete_file db k) k' = if decide (k = k') then None else bs_view db k';
  bs_history_view : forall db e k, bs_view (bs_append_history db e) k = bs_view db k;
  bs_put_ok : forall db k r, bs_ok db -> bs_ok (bs_put_file db k r);
  bs_delete_ok : forall db k, bs_ok db -> bs_ok (bs_delete_file db k);
  bs_history_ok : forall db e, bs_ok db -> bs_ok (bs_append_history db e);
}.
#[export] Hint Resolve bs_put_ok bs_delete_ok bs_history_ok : core.

(** ** The store itself *)
Section syncdb.
(** Encoded rows, and the three tables. *)
Context {J TD TF TH : Type}.
Context `{!Table string string TD String.le, !Table string J TF String.le, !Table (Z * Z) J TH pair_le}.
Context `{!Codec FileRecord J, !Codec HistoryEntry J}.

Record SyncDb := {
  t_device : TD;
  t_files : TF;
  t_history : TH;
  device_id : Z;
}.

Definition DEVICE_SELF_KEY : string := "self".

(** [Uuid::from_bytes]: sixteen bytes, most significant first. *)
Fixpoint uuid_of_bytes (acc : Z) (s : string) : Z :=
  match s with
  | EmptyString => acc
  | String c s' => uuid_of_bytes (acc * 256 + Z.of_N (N_of_ascii c)) s'
  end.

Fixpoint uuid_bytes (k : nat) (id : Z) : string :=
  match k with
  | O => ""
  | S k' => uuid_bytes k' (id / 256) +:+ String (ascii_of_N (Z.to_N (id mod 256))) ""
  end.

(** The device half of [open]: reuse a sixteen-byte row, otherwise persist
    the fresh id [Uuid::new_v4] produced. *)
Definition open (dev : TD) (files : TF) (hist : TH) (fresh : Z) : SyncDb :=
  let existing :=
    match tbl_get DEVICE_SELF_KEY dev with
    | Some bytes => if (String.length bytes =? 16)%nat then Some (uuid_of_bytes 0 bytes) else None
    | None => None
    end in
  match existing with
  | Some id => {| t_device := dev; t_files := files; t_history := hist; device_id := id |}
  | None =>
      {| t_device := tbl_insert DEVICE_SELF_KEY (uuid_bytes 16 fresh) dev;
         t_files := files; t_history := hist; device_id := fresh |}
  end.

Definition with_files (db : SyncDb) (t : TF) : SyncDb :=
  {| t_device := t_device db; t_files := t; t_history := t_history db; device_id := device_id db |}.

Definition get_file (db : SyncDb) (relpath : string) : result SyncError (option FileRecord) :=
  match tbl_get relpath (t_files db) with
  | None => Ok None
  | Some v => let? r := ok_or (dec v) CodecError in Ok (Some r)
  end.

Definition put_file (db : SyncDb) (relpath : string) (record : FileRecord) : SyncDb :=
  with_files db (tbl_insert relpath (enc record) (t_files db)).

Definition delete_file (db : SyncDb) (relpath : string) : SyncDb :=
  with_files db (tbl_remove relpath (t_files db)).

Fixpoint decode_rows {A} `{!Codec A J} {K} (rows : list (K * J)) : result SyncError (list (K * A)) :=
  match rows with
  | [] => Ok []
  | (k, v) :: rest =>
      let? r := ok_or (dec v) CodecError in
      let? rs := decode_rows rest in
      Ok ((k, r) :: rs)
  end.

Definition all_files (db : SyncDb) : result SyncError (list (string * FileRecord)) :=
  decode_rows (tbl_iter (t_files db)).

Definition append_history (db : SyncDb) (e : HistoryEntry) : SyncDb :=
  {| t_device := t_device db; t_files := t_files db;
     t_history := tbl_insert (timestamp_ms e, seq e) (enc e) (t_history db);
     device_id := device_id db |}.

(** Newest first: by timestamp, then by sequence number. *)
Definition newer_first (a b : HistoryEntry) : bool :=
  (timestamp_ms b <? timestamp_ms a)
  || ((timestamp_ms a =? timestamp_ms b) && (seq b <=? seq a)).

Definition recent_history (db : SyncDb) (limit : nat) : result SyncError (list HistoryEntry) :=
  let? rows := decode_rows (A := HistoryEntry) (tbl_iter (t_history db)) in
  Ok (take limit (sort_by newer_first rows.*2)).

(** ** The store meets the engine's interface *)

Definition view (db : SyncDb) (k : string) : option FileRecord :=
  tbl_get k (t_files db) ≫= dec.

Definition decodable (db : SyncDb) : Prop :=
  forall k v, tbl_get k (t_files db) = Some v -> is_Some (dec (A := FileRecord) v).

Lemma decode_rows_spec {A} `{!Codec A J} {K} (rows : list (K * J)) :
  (forall k v, (k, v) ∈ rows -> is_Some (dec (A := A) v)) ->
  exists l, decode_rows (A := A) rows = Ok l /\
    forall k r, (k, r) ∈ l <-> exists v, (k, v) ∈ rows /\ dec v = Some r.
Proof using Type.
  induction rows as [|[k v] rows IH]; intros Hdec; simpl.
  { exists []. split; [done|]. intros k r. split; [by intros ?%elem_of_nil|].
    intros (v & ?%elem_of_nil & _). done. }
  destruct (Hdec k v) as [r Hr]; [left|]. rewrite Hr. simpl.
  destruct IH as (l & -> & Hl); [intros; eapply Hdec; by right|]. simpl.
  eexists. split; [done|]. intros k' r'. rewrite elem_of_cons, Hl. split.
  - intros [[= -> ->]|(v' & ? & ?)]; [exists v; by split; [left|]|exists v'; by split; [right|]].
  - intros (v' & [[= -> ->]|?]%elem_of_cons & ?); [left; congruence | right; eauto].
Qed.

Lemma get_file_view db k : decodable db -> get_file db k = Ok (view db k).
Proof using Type.
  intros H. unfold get_file, view. destruct (tbl_get k (t_files db)) as [v|] eqn:E; [|done].
  simpl. destruct (H k v E) as [r Hr]. by rewrite Hr.
Qed.

Lemma view_insert db k r k' :
  view (put_file db k r) k' = if decide (k = k') then Some r else view db k'.
Proof using Type.
  unfold view, put_file. simpl. rewrite tbl_get_insert. case_decide; [apply dec_enc | done].
Qed.

Lemma view_delete db k k' :
  view (delete_file db k) k' = if decide (k = k') then None else view db k'.
Proof using Type.
  unfold view, delete_file. simpl. rewrite tbl_get_remove. by case_decide.
Qed.

#[export] Program Instance syncdb_store : BaselineStore SyncDb := {|
  bs_device_id := device_id;
  bs_get_file := get_file;
  bs_put_file := put_file;
  bs_delete_file := delete_file;
  bs_all_files := all_files;
  bs_append_history := append_history;
  bs_view := view;
  bs_ok := decodable;
|}.
Next Obligation. intros. by apply get_file_view. Qed.
Next Obligation.
  intros db H. destruct (decode_rows_spec (A := FileRecord) (tbl_iter (t_files db))) as (l & Hl & Hin).
  { intros k v Hkv%tbl_iter_get. eauto. }
  exists l. split; [done|]. intros k r. rewrite Hin. unfold view. split.
  - intros (v & Hv%tbl_iter_get & Hd). by rewrite Hv.
  - intros (v & Hv & Hd)%bind_Some. exists v. by rewrite tbl_iter_get.
Qed.
Next Obligation. intros. apply view_insert. Qed.
Next Obligation. intros. apply view_delete. Qed.
Next Obligation. done. Qed.
Next Obligation.
  intros db k r H k' v. unfold put_file. simpl. rewrite tbl_get_insert.
  case_decide; [|by apply H]. intros [= <-]. rewrite dec_enc. eauto.
Qed.
Next Obligation.
  intros db k H k' v. unfold delete_file. simpl. rewrite tbl_get_remove.
  case_decide; [done|]. by apply H.
Qed.
Next Obligation. intros db e H k v. apply H. Qed.
End syncdb.
Arguments SyncDb : clear implicits.
