(* ===== verification/SyncEngine.v ===== *)
(** * One reconciliation round ([engine.rs]: [sync] and the action executors)

    The round runs over a [World]: the regular files of both roots, the pair
    database, the steering requests still to be observed and the events sent
    so far.  Every call that can fail for an outside reason first asks the
    fault oracle [io_fault], numbered by the clock [w_tick], so the theorems
    quantify over every pattern of I/O errors.

    The copy engine is used through [CopyEngine], the pair database through
    [BaselineStore]. *)
From S2P Require Import Prelude.
From S2P Require Import Text.
From S2P Require Import Monad.
From S2P Require Import Files.
From S2P Require Import Control.
From S2P Require Import SyncTypes.
From S2P Require Import SyncPath.
From S2P Require Import SyncDb.
From S2P Require Import SyncDecide.
From stdpp Require Import options.
Open Scope Z_scope.

(** The environment of a round: which of its calls fail (numbered by the clock
    of the run), the wall clock and its text form, BLAKE3, the two metadata
    probes of a root, and the text of a device id. *)
Class SyncEnv := {
  io_fault : N -> bool;
  clock_ms : N -> Z;
  stamp : N -> string;
  hash : bytes -> Digest;
  root_exists : path -> bool;
  root_is_dir : path -> bool;
  uuid_text : Z -> string;
}.


(** What the sync engine relies on [copy_file] for, when it copies a file to
    another path: nothing but the destination changes, success means the
    destination holds the source's bytes, and a copy of an existing file
    between paths that pass the engine's guard succeeds in a run without
    faults.  [CopyBridge] discharges it from the engine. *)
Class CopyEngine `{!SyncEnv} := {
  copy_file : FileTree -> path -> path -> N -> FileTree * bool;
  copy_accepts : path -> bool;
  copy_frame : forall fs s d n p, s <> d -> p <> d -> fst (copy_file fs s d n) !! p = fs !! p;
  copy_success : forall fs s d n, s <> d -> snd (copy_file fs s d n) = true ->
    exists f g, fs !! s = Some f /\ fst (copy_file fs s d n) !! d = Some g /\ content g = content f;
  copy_available : forall fs s d n, s <> d -> copy_accepts s = true -> copy_accepts d = true ->
    is_Some (fs !! s) -> io_fault n = false -> snd (copy_file fs s d n) = true;
}.

(** How a computation ends short of a value: a typed error, or a panic of one
    of the [expect]s. *)
Inductive Exn := Failed (e : SyncError) | Panicked.

Section world.
Context {DB : Type}.

Record World := {
  w_files : FileTree;
  w_db : DB;
  w_tick : N;
  w_ctrl : list SyncState;
  w_events : list SyncEvent;
}.

(** ** The monad of the round *)

#[local] Abbreviation M := (SM World Exn).

Definition set_files (fs : FileTree) : M unit := fun w =>
  (Ok tt, {| w_files := fs; w_db := w_db w; w_tick := w_tick w; w_ctrl := w_ctrl w;
             w_events := w_events w |}).
Definition set_db (db : DB) : M unit := fun w =>
  (Ok tt, {| w_files := w_files w; w_db := db; w_tick := w_tick w; w_ctrl := w_ctrl w;
             w_events := w_events w |}).
Definition emit (e : SyncEvent) : M unit := fun w =>
  (Ok tt, {| w_files := w_files w; w_db := w_db w; w_tick := w_tick w; w_ctrl := w_ctrl w;
             w_events := w_events w ++ [e] |}).
(** Let [k] observations of the clock pass; the value is the first of them. *)
Definition ticks (k : N) : M N := fun w =>
  (Ok (w_tick w), {| w_files := w_files w; w_db := w_db w; w_tick := (w_tick w + k)%N;
                     w_ctrl := w_ctrl w; w_events := w_events w |}).
Definition get_files : M FileTree := fun w => (Ok (w_files w), w).
Definition get_db : M DB := fun w => (Ok (w_db w), w).
Definition lift {A} (r : result SyncError A) : M A :=
  match r with Ok a => ret a | Err e => throw (Failed e) end.
(** [m.ok()] *)
Definition try_ {A} (m : M A) : M (option A) := fun w =>
  match m w with
  | (Ok a, w') => (Ok (Some a), w')
  | (Err (Failed _), w') => (Ok None, w')
  | (Err Panicked, w') => (Err Panicked, w')
  end.
End world.
Arguments World : clear implicits.
Abbreviation M DB := (SM (World DB) Exn).
#[local] Open Scope monad_scope.

Section engine.
Context {DB : Type} {ST : BaselineStore DB} {EN : SyncEnv} {CE : CopyEngine}.

Definition fallible (e : SyncError) : M DB unit :=
  let! n := ticks 1 in if io_fault n then throw (Failed e) else ret tt.

Fixpoint mfold {A B} (f : A -> B -> M DB B) (l : list A) (acc : B) : M DB B :=
  match l with
  | [] => ret acc
  | x :: l' => let! acc' := f x acc in mfold f l' acc'
  end.


(** ** Steering: the loads of the control byte, in order.  After the last
    request every load sees [Running]. *)

Fixpoint wait_list (l : list SyncState) : bool * list SyncState :=
  match l with
  | [] => (true, [])
  | SRunning :: r => (true, r)
  | SCancelled :: r => (false, SCancelled :: r)
  | SPaused :: r => wait_list r
  end.

Definition set_ctrl (l : list SyncState) : M DB unit := fun w =>
  (Ok tt, {| w_files := w_files w; w_db := w_db w; w_tick := w_tick w; w_ctrl := l;
             w_events := w_events w |}).

Definition wait_while_paused : M DB unit := fun w =>
  let '(go, rest) := wait_list (w_ctrl w) in
  (set_ctrl rest ;; if go then ret tt else throw (Failed Cancelled)) w.

Definition is_cancelled : M DB bool := fun w =>
  match w_ctrl w with
  | SCancelled :: _ => (Ok true, w)
  | _ :: rest => (set_ctrl rest ;; ret false) w
  | [] => (Ok false, w)
  end.

(** ** The file system calls *)

Definition path_exists (p : path) : M DB bool :=
  let! fs := get_files in ret (bool_decide (is_Some (fs !! p))).

Definition create_dir_all (p : path) : M DB unit := fallible (Io p).

Definition remove_file (p : path) : M DB unit :=
  fallible (Io p) ;;
  let! fs := get_files in
  match fs !! p with
  | Some _ => set_files (delete p fs)
  | None => throw (Failed (Io p))
  end.

Definition rename (src dst : path) : M DB unit :=
  fallible (Io src) ;;
  let! fs := get_files in
  match fs !! src with
  | Some f => set_files (<[dst := f]> (delete src fs))
  | None => throw (Failed (Io src))
  end.

Definition meta_of (f : File) : FileMeta :=
  {| mtime_ms := f_mtime_ms f; size := file_len f;
     blake3 := hash (content f) |}.

Definition read_file_meta (p : path) : M DB FileMeta :=
  fallible (Io p) ;;
  let! fs := get_files in
  match fs !! p with
  | Some f => ret (meta_of f)
  | None => throw (Failed (Io p))
  end.

Definition run_copy (src dst : path) (relpath : string) : M DB unit :=
  let! n := ticks 1 in
  let! fs := get_files in
  let '(fs', ok) := copy_file fs src dst n in
  set_files fs' ;;
  if ok then ret tt else throw (Failed (Propagation relpath)).

(** ** The database calls *)

Definition db_get_file (relpath : string) : M DB (option FileRecord) :=
  fallible Database ;; let! db := get_db in lift (bs_get_file db relpath).
Definition db_put_file (relpath : string) (r : FileRecord) : M DB unit :=
  fallible Database ;; let! db := get_db in set_db (bs_put_file db relpath r).
Definition db_delete_file (relpath : string) : M DB unit :=
  fallible Database ;; let! db := get_db in set_db (bs_delete_file db relpath).
Definition db_append_history (e : HistoryEntry) : M DB unit :=
  fallible Database ;; let! db := get_db in set_db (bs_append_history db e).
Definition db_all_files : M DB (list (string * FileRecord)) :=
  fallible Database ;; let! db := get_db in lift (bs_all_files db).

(** ** The walk ([walker.rs]) *)

Fixpoint strip_root (root p : path) : option path :=
  match root, p with
  | [], _ => Some p
  | a :: root', b :: p' => if String.eqb a b then strip_root root' p' else None
  | _ :: _, [] => None
  end.

Definition scan_entry (root : path) (skip : list string) (e : path * File)
    (out : gmap string SideState) : M DB (gmap string SideState) :=
  match strip_root root (fst e) with
  | None => ret out
  | Some rel =>
      fallible (Io (fst e)) ;;
      if bool_decide (default "" (last rel) ∈ skip) then ret out
      else
        let relpath := normalize_relpath rel in
        let! m := read_file_meta (fst e) in
        ret (<[relpath := {| ss_relpath := relpath; meta := Some m |}]> out)
  end.

Definition scan_side (root : path) (skip : list string) : M DB (gmap string SideState) :=
  if negb (root_exists root) then throw (Failed (RootNotAccessible root "path does not exist"))
  else if negb (root_is_dir root)
    then throw (Failed (RootNotAccessible root "path is not a directory"))
  else let! fs := get_files in mfold (scan_entry root skip) (map_to_list fs) ∅.

(** ** Applying one action *)

Definition side_root (pair : SyncPair) (d : Direction) : path :=
  match d with LeftToRight => left pair | RightToLeft => right pair end.

Definition unsafe_or (relpath : string) (o : option path) : M DB path :=
  lift (ok_or o (UnsafeRelpath relpath)).

Definition create_parent (p : path) : M DB unit :=
  match parent p with Some d => create_dir_all d | None => ret tt end.

Definition apply_copy (pair : SyncPair) (relpath : string) (direction : Direction) : M DB unit :=
  let src_root := side_root pair direction in
  let dst_root := side_root pair (flip direction) in
  let! src := unsafe_or relpath (join_relpath src_root relpath) in
  let! dst := unsafe_or relpath (join_relpath dst_root relpath) in
  create_parent dst ;;
  run_copy src dst relpath.

Inductive DeleteOutcome := Deleted | RaceAbortedAsConflict (c : Conflict).

Definition apply_delete (pair : SyncPair) (relpath : string) (direction : Direction)
    (baseline : option FileRecord) : M DB DeleteOutcome :=
  let src_root := side_root pair direction in
  let dst_root := side_root pair (flip direction) in
  let! src := unsafe_or relpath (join_relpath src_root relpath) in
  let! dst := unsafe_or relpath (join_relpath dst_root relpath) in
  let! src_exists := path_exists src in
  if src_exists then
    let! new_meta := try_ (read_file_meta src) in
    let differs_from_baseline :=
      match new_meta, baseline with
      | Some m, Some b => negb (String.eqb (blake3 m) (r_blake3 b)) || negb (size m =? r_size b)
      | Some _, None => true
      | None, _ => true
      end in
    if differs_from_baseline then
      let loser := direction in
      let winner := match direction with LeftToRight => RightToLeft | RightToLeft => LeftToRight end in
      ret (RaceAbortedAsConflict
             {| c_relpath := relpath; c_kind := DeleteEdit; c_winner := winner; c_loser := loser;
                loser_preservation_path := src |})
    else ret Deleted
  else
    let! dst_exists := path_exists dst in
    (if dst_exists then remove_file dst else ret tt) ;;
    ret Deleted.

Definition choose_conflict_path (dir : path) (relpath host : string) : M DB path :=
  let! n := ticks (MAX_SEQ + 2)%N in
  let! fs := get_files in
  ret (unique_conflict_path (fun p => bool_decide (is_Some (fs !! p)))
         (fun k => stamp (n + k)%N) dir relpath host).

Definition apply_conflict (pair : SyncPair) (relpath : string) (winner loser : Direction)
    (kind : ConflictKind) (host : string) : M DB Conflict :=
  let loser_root := side_root pair loser in
  let winner_root := side_root pair winner in
  let! loser_path := unsafe_or relpath (join_relpath loser_root relpath) in
  let! winner_path := unsafe_or relpath (join_relpath winner_root relpath) in
  let preservation_dir := default loser_root (parent loser_path) in
  let! preservation_path := choose_conflict_path preservation_dir relpath host in
  let! loser_exists := path_exists loser_path in
  let loser_has_content :=
    match kind with
    | ConcurrentWrite | AddAdd | CorruptEqual => true
    | DeleteEdit => loser_exists
    end in
  (if loser_has_content && loser_exists then
     create_parent preservation_path ;; rename loser_path preservation_path
   else ret tt) ;;
  let! winner_exists := path_exists winner_path in
  (if winner_exists then create_parent loser_path ;; run_copy winner_path loser_path relpath
   else ret tt) ;;
  ret {| c_relpath := relpath; c_kind := kind; c_winner := winner; c_loser := loser;
         loser_preservation_path := preservation_path |}.

(** ** Executing one action: report, baseline and history follow the files *)

Record Exec := { report : SyncReport; history_seq : Z }.

Definition count_applied (r : SyncReport) (d : Direction) : SyncReport :=
  match d with
  | LeftToRight => {| applied_left := applied_left r; applied_right := applied_right r + 1;
      deleted_left := deleted_left r; deleted_right := deleted_right r;
      conflicts := conflicts r; elapsed_ms := elapsed_ms r; cancelled := cancelled r |}
  | RightToLeft => {| applied_left := applied_left r + 1; applied_right := applied_right r;
      deleted_left := deleted_left r; deleted_right := deleted_right r;
      conflicts := conflicts r; elapsed_ms := elapsed_ms r; cancelled := cancelled r |}
  end.

Definition count_deleted (r : SyncReport) (d : Direction) : SyncReport :=
  match d with
  | LeftToRight => {| applied_left := applied_left r; applied_right := applied_right r;
      deleted_left := deleted_left r; deleted_right := deleted_right r + 1;
      conflicts := conflicts r; elapsed_ms := elapsed_ms r; cancelled := cancelled r |}
  | RightToLeft => {| applied_left := applied_left r; applied_right := applied_right r;
      deleted_left := deleted_left r + 1; deleted_right := deleted_right r;
      conflicts := conflicts r; elapsed_ms := elapsed_ms r; cancelled := cancelled r |}
  end.

Definition add_conflict (r : SyncReport) (c : Conflict) : SyncReport :=
  {| applied_left := applied_left r; applied_right := applied_right r;
     deleted_left := deleted_left r; deleted_right := deleted_right r;
     conflicts := conflicts r ++ [c]; elapsed_ms := elapsed_ms r; cancelled := cancelled r |}.

Definition set_elapsed (r : SyncReport) (ms : Z) (c : bool) : SyncReport :=
  {| applied_left := applied_left r; applied_right := applied_right r;
     deleted_left := deleted_left r; deleted_right := deleted_right r;
     conflicts := conflicts r; elapsed_ms := ms; cancelled := c |}.

(** One history row, stamped with the next sequence number of the run. *)
Definition log_history (x : Exec) (relpath : string) (kind : HistoryKind) (dir : Direction)
    (after : option VersionVector) : M DB Z :=
  let s := history_seq x + 1 in
  let! n := ticks 1 in
  db_append_history {| timestamp_ms := clock_ms n; seq := s; h_relpath := relpath; h_kind := kind;
                       h_direction := Some dir; vv_before := None; vv_after := after |} ;;
  ret s.

Definition record_of (v : VersionVector) (m : FileMeta) : FileRecord :=
  {| vv := v; r_mtime_ms := mtime_ms m; r_size := size m; r_blake3 := blake3 m |}.

Definition side_meta (side : gmap string SideState) (relpath : string) : option FileMeta :=
  side !! relpath ≫= meta.

Definition default_vv (b : option FileRecord) : VersionVector := default vv_new (vv <$> b).

Definition exec_noop (L R : gmap string SideState) (me : Z) (relpath : string) (x : Exec) : M DB Exec :=
  let left_meta := side_meta L relpath in
  let right_meta := side_meta R relpath in
  let agreed_meta :=
    match left_meta, right_meta with
    | Some l, Some r => if String.eqb (blake3 l) (blake3 r) then Some l else None
    | _, _ => None
    end in
  match agreed_meta with
  | Some m =>
      let! baseline := db_get_file relpath in
      let needs_update :=
        match baseline with
        | Some b => negb (String.eqb (r_blake3 b) (blake3 m)) || negb (r_size b =? size m)
        | None => true
        end in
      (if needs_update
       then db_put_file relpath (record_of (increment (default_vv baseline) me) m)
       else ret tt) ;;
      ret x
  | None =>
      match left_meta, right_meta with
      | None, None =>
          let! baseline := db_get_file relpath in
          match baseline with
          | Some _ => db_delete_file relpath ;; ret x
          | None => ret x
          end
      | _, _ => ret x
      end
  end.

Definition exec_copy (pair : SyncPair) (L R : gmap string SideState) (me : Z)
    (relpath : string) (direction : Direction) (x : Exec) : M DB Exec :=
  apply_copy pair relpath direction ;;
  match (match direction with LeftToRight => L | RightToLeft => R end) !! relpath with
  | None => throw Panicked
  | Some side_state =>
      match meta side_state with
      | None => throw Panicked
      | Some m =>
          let! baseline := db_get_file relpath in
          let v := increment (default_vv baseline) me in
          db_put_file relpath (record_of v m) ;;
          let! s := log_history x relpath HPropagated direction (Some v) in
          ret {| report := count_applied (report x) direction; history_seq := s |}
      end
  end.

Definition exec_delete (pair : SyncPair) (relpath : string) (direction : Direction) (x : Exec)
    : M DB Exec :=
  let! baseline := db_get_file relpath in
  let! outcome := apply_delete pair relpath direction baseline in
  match outcome with
  | Deleted =>
      db_delete_file relpath ;;
      let! s := log_history x relpath HDeleted direction None in
      ret {| report := count_deleted (report x) direction; history_seq := s |}
  | RaceAbortedAsConflict c =>
      let! s := log_history x relpath HConflict (c_winner c) None in
      emit (EvConflict c) ;;
      ret {| report := add_conflict (report x) c; history_seq := s |}
  end.

Definition exec_conflict (pair : SyncPair) (L R : gmap string SideState) (me : Z) (host : string)
    (relpath : string) (winner loser : Direction) (kind : ConflictKind) (x : Exec) : M DB Exec :=
  let! c := apply_conflict pair relpath winner loser kind host in
  let left_meta := side_meta L relpath in
  let right_meta := side_meta R relpath in
  let! baseline := db_get_file relpath in
  let bump := fun (m : option FileMeta) =>
    match m with Some _ => increment (default_vv baseline) me | None => default_vv baseline end in
  let merged := resolve_concurrent (bump left_meta) (bump right_meta) me in
  let winner_meta := match winner with LeftToRight => left_meta | RightToLeft => right_meta end in
  (match winner_meta with
   | Some m => db_put_file relpath (record_of merged m)
   | None => ret tt
   end) ;;
  let hk := match kind with CorruptEqual => HCorrupt | _ => HConflict end in
  let! s := log_history x relpath hk winner (Some merged) in
  emit (EvConflict c) ;;
  ret {| report := add_conflict (report x) c; history_seq := s |}.

Definition exec_action (pair : SyncPair) (L R : gmap string SideState) (me : Z) (host : string)
    (a : SyncAction) (x : Exec) : M DB Exec :=
  match a with
  | Noop relpath => exec_noop L R me relpath x
  | Copy relpath direction => exec_copy pair L R me relpath direction x
  | Delete relpath direction => exec_delete pair relpath direction x
  | KeepConflict relpath winner loser kind =>
      exec_conflict pair L R me host relpath winner loser kind x
  end.

(** The execution loop; the boolean says that a cancel stopped it. *)
Fixpoint exec_loop (pair : SyncPair) (L R : gmap string SideState) (me : Z) (host : string)
    (actions : list SyncAction) (x : Exec) : M DB (Exec * bool) :=
  match actions with
  | [] => ret (x, false)
  | a :: rest =>
      wait_while_paused ;;
      let! stop := is_cancelled in
      if stop then ret (x, true)
      else
        emit (ActionStarted a) ;;
        let! x' := exec_action pair L R me host a x in
        emit (ActionCompleted a) ;;
        exec_loop pair L R me host rest x'
  end.

(** ** Planning *)

Definition side_state_of (side : gmap string SideState) (relpath : string) : SideState :=
  default {| ss_relpath := relpath; meta := None |} (side !! relpath).

Fixpoint plan_loop (L R : gmap string SideState) (mode : SyncMode) (relpaths : list string)
    : M DB (list SyncAction) :=
  match relpaths with
  | [] => ret []
  | relpath :: rest =>
      wait_while_paused ;;
      let! baseline := db_get_file relpath in
      let action := decide_action relpath (side_state_of L relpath) (side_state_of R relpath)
                      baseline mode in
      emit (ActionPlanned action) ;;
      let! actions := plan_loop L R mode rest in
      ret (action :: actions)
  end.

(** The keys of both walks and of the baseline, in [BTreeSet] order. *)
Definition relpath_universe (L R : gmap string SideState) (rows : list (string * FileRecord))
    : list string :=
  merge_sort String.le (elements (dom L ∪ dom R ∪ list_to_set rows.*1 : gset string)).

Definition short_device (id : Z) : string := String.substring 0 8 (uuid_text id).

Definition host_of (pair : SyncPair) (me : Z) : string :=
  default ("device-" +:+ short_device me) (host_label pair).

Definition elapsed (start now : N) : Z := Z.max 0 (clock_ms now - clock_ms start).

(** ** [sync] *)

Definition walk (root : path) (d : Direction) : M DB (gmap string SideState) :=
  wait_while_paused ;;
  emit (WalkStarted d) ;;
  let! side := scan_side root [".freally-sync.db"] in
  emit (WalkCompleted d (Z.of_nat (base.size side))) ;;
  ret side.

Definition sync (pair : SyncPair) (mode : SyncMode) (opts : SyncOptions) : M DB SyncReport :=
  let! start := ticks 1 in
  fallible Database ;;
  let! L := walk (left pair) LeftToRight in
  let! R := walk (right pair) RightToLeft in
  let! rows := db_all_files in
  let! actions := plan_loop L R mode (relpath_universe L R rows) in
  let! db := get_db in
  let me := bs_device_id db in
  let host := host_of pair me in
  if dry_run opts then
    let! now := ticks 1 in
    let r := set_elapsed report_default (elapsed start now) false in
    emit (Finished r) ;; ret r
  else
    let! (x, stop) := exec_loop pair L R me host actions
                         {| report := report_default; history_seq := 0 |} in
    let! now := ticks 1 in
    let r := set_elapsed (report x) (elapsed start now) stop in
    emit (Finished r) ;; ret r.
End engine.
