(* ===== verification/CopyBridge.v ===== *)
(** * The copy engine under the sync engine ([run_copy] of [freally-sync/src/engine.rs])

    The sync engine hands every file to [copy_file] with the options of its
    hook factory, a fresh steering handle and no journal.  [sync_copier] builds
    what [SyncEngine.CopyEngine] promises out of the verified copy engine. *)
From S2P Require Import Prelude.
From S2P Require Import Text.
From S2P Require Import Monad.
From S2P Require Import Files.
From S2P Require Import Control.
From S2P Require Import SyncEngine.
From S2P Require Import CopyTypes.
From S2P Require Import CopyFile.
From S2P Require Import CopyWp.
From S2P Require Import CopyProof.
From S2P Require Import CopySafety.
From stdpp Require Import options.
Open Scope Z_scope.

(** [journal: None] *)
#[export] Program Instance no_journal : JournalSink unit := {|
  js_checkpoint s _ _ _ _ _ := s;
  js_finish_file s _ _ := s;
  js_resume_plan s _ := (CRestart, s);
  js_finish_job_succeeded s := s;
  js_finish_job_failed s := s;
  js_finish_job_cancelled s := s;
  js_restart s := s;
  js_offers _ _ _ := False;
|}.
Solve Obligations with done || tauto || (by left).

(** [DefaultCopyHookFactory::build] *)
Definition build_options (copy_buffer_size : Z) (fsync : bool) : CopyOptions :=
  {| buffer_size := copy_buffer_size; fsync_on_close := fsync;
     preserve_times := preserve_times default_copy_options;
     preserve_permissions := preserve_permissions default_copy_options;
     keep_partial := keep_partial default_copy_options;
     fail_if_exists := fail_if_exists default_copy_options; verify := verify default_copy_options;
     fsync_before_verify := fsync_before_verify default_copy_options;
     strategy := strategy default_copy_options; fast_copy_hook := fast_copy_hook default_copy_options;
     journaled := journaled default_copy_options;
     journal_file_idx := journal_file_idx default_copy_options;
     dest_jail_root := dest_jail_root default_copy_options;
     versioning_enabled := versioning_enabled default_copy_options |}.

Section bridge.
Context {SE : SyncEngine.SyncEnv} (calls : N -> CopyEnv) (buffer : Z) (fsync : bool).

(** The disk stores what it is given, BLAKE3 tells the bytes apart, and the
    sync engine's fault oracle covers the calls of the copies. *)
Context (Hhonest : forall n, honest (EN := calls n)) (Hinj : forall n, Inj (=) (=) (@b3 (calls n))).
Context (Hfault : forall n, SyncEngine.io_fault n = false -> calls_work (EN := calls n)).

Definition start (fs : FileTree) : CopyWorld unit :=
  {| c_files := fs; c_calls := 0; c_flags := []; c_events := []; c_sink := tt; c_snapshots := [] |}.

(** The copy at tick [n] of the round: the tree it leaves and whether it
    reported success. *)
Definition engine_copy (fs : FileTree) (s d : path) (n : N) : FileTree * bool :=
  let '(r, w) := copy_file (EN := calls n) s d (build_options buffer fsync) (start fs) in
  (c_files w, match r with Ok _ => true | Err _ => false end).

Definition accepts (p : path) : bool := bool_decide (validate_path_no_traversal p = None).

Lemma start_true n i b fs : truthful (EN := calls n) i b (c_sink (start fs)).
Proof using Type. by intros p []. Qed.

(** A copy of a missing file changes nothing and fails. *)
Lemma engine_copy_missing fs s d n :
  fs !! s = None -> engine_copy fs s d n = (fs, false).
Proof using Type.
  intros Hs. unfold engine_copy, copy_file.
  destruct (validate_path_no_traversal s); [done|]. destruct (validate_path_no_traversal d); [done|].
  cbn [escapes_jail build_options dest_jail_root default_copy_options].
  unfold call_or, call, bind, gets, modify. simpl. destruct (io 0); simpl; [|done|done].
  unfold file_at, gets. simpl. by rewrite Hs.
Qed.

Lemma build_lawful s d : hook_lawful s d (build_options buffer fsync).
Proof using Type. by intros ? [=]. Qed.

#[program] Definition sync_copier : SyncEngine.CopyEngine := {|
  SyncEngine.copy_file := engine_copy;
  SyncEngine.copy_accepts := accepts;
|}.
Next Obligation.
  intros fs s d n p Hsd Hp. destruct (fs !! s) as [f|] eqn:Hs; [|by rewrite engine_copy_missing].
  pose proof (copy_frame_any (EN := calls n) s d (build_options buffer fsync) f (start fs) Hsd Hs (Hinj n)
    (start_true n _ _ fs) (build_lawful s d)) as [Hfr _].
  unfold engine_copy. destruct (copy_file s d _ (start fs)) as [r w]. by apply Hfr.
Qed.
Next Obligation.
  intros fs s d n Hsd. destruct (fs !! s) as [f|] eqn:Hs; [|by rewrite engine_copy_missing].
  pose proof (copy_outcome_any (EN := calls n) s d (build_options buffer fsync) f (start fs) Hsd Hs (Hinj n)
    (start_true n _ _ fs) (build_lawful s d)) as Hc. unfold ends, wp in Hc.
  unfold engine_copy. destruct (copy_file s d _ (start fs)) as [[rep|e] w]; [|done]. intros _.
  destruct Hc as (_ & _ & g & Hg & [Hok _] & _). exists f, g. split_and!; [done|done|by apply Hok].
Qed.
Next Obligation.
  intros fs s d n Hsd Ha%bool_decide_eq_true Hb%bool_decide_eq_true [f Hs] Hio%Hfault.
  assert (granted (EN := calls n) s d (build_options buffer fsync)) as Hgr by done.
  pose proof (copy_outcome (EN := calls n) s d (build_options buffer fsync) f (start fs) Hsd Hs (Hinj n)
    (start_true n _ _ fs) True True (fun _ => Hio) id (fun _ => Hhonest n)
    (fun _ => not_elem_of_nil _) (fun _ => Hgr) (build_lawful s d)) as Hc. unfold ends, wp in Hc.
  unfold engine_copy. destruct (copy_file s d _ (start fs)) as [[rep|e] w]; [done|].
  destruct Hc as (_ & _ & HnH & _). by destruct (HnH I).
Qed.
End bridge.
