(* ===== verification/SyncWp.v ===== *)
(** * Reasoning about the round: a weakest-precondition calculus for [SyncEngine]

    One rule per primitive of the monad and per file-system or database call,
    then the rules of the three functions that touch both roots:
    [apply_copy], [apply_delete] and [apply_conflict].

    The second part puts them together for one action of the plan: what it
    may change, what it keeps and where it ends. *)
From S2P Require Import Prelude.
From S2P Require Import Text.
From S2P Require Import Monad.
From S2P Require Import Files.
From S2P Require Import Control.
From S2P Require Import SyncTypes.
From S2P Require Import SyncPath.
From S2P Require Import SyncDb.
From S2P Require Import SyncDecide.
From S2P Require Import SyncEngine.
From stdpp Require Import options.
Open Scope Z_scope.
#[local] Open Scope monad_scope.

Section engine.
Context {DB : Type} {ST : BaselineStore DB} {EN : SyncEnv} {CE : CopyEngine}.

(** The part of the world the specifications speak about. *)
Definition same_core (w w' : World DB) : Prop :=
  w_files w' = w_files w /\ w_db w' = w_db w /\ w_ctrl w' = w_ctrl w.

#[export] Instance same_core_preorder : PreOrder same_core.
Proof using Type. unfold same_core. split; [done|]. intros ??? (?&?&?) (?&?&?). split_and!; congruence. Qed.

Lemma wp_ticks k Q (w : World DB) : (forall w', same_core w w' -> Q (Ok (w_tick w)) w') -> wp (ticks k) Q w.
Proof using Type. intros H. apply H. done. Qed.

Lemma wp_emit e Q (w : World DB) : (forall w', same_core w w' -> Q (Ok tt) w') -> wp (emit e) Q w.
Proof using Type. intros H. apply H. done. Qed.

(** Every outcome of an I/O call: it fails only when the oracle says so. *)
Definition NoFaults : Prop := forall n, io_fault n = false.

Lemma wp_fallible e Q (w : World DB) :
  (forall w', same_core w w' -> Q (Ok tt) w') ->
  (forall w', same_core w w' -> ~ NoFaults -> Q (Err (Failed e)) w') ->
  wp (fallible e) Q w.
Proof using Type.
  intros H1 H2. unfold fallible. apply wp_bind, wp_ticks. intros w' Hc.
  destruct (io_fault (w_tick w)) eqn:E.
  - apply H2; [done|]. intros H. by rewrite H in E.
  - by apply H1.
Qed.

Lemma wp_get_files Q (w : World DB) : Q (Ok (w_files w)) w -> wp get_files Q w.
Proof using Type. done. Qed.

Lemma wp_get_db Q (w : World DB) : Q (Ok (w_db w)) w -> wp get_db Q w.
Proof using Type. done. Qed.

Lemma wp_set_files fs Q (w : World DB) :
  (forall w', w_files w' = fs -> w_db w' = w_db w -> w_ctrl w' = w_ctrl w -> Q (Ok tt) w') ->
  wp (set_files fs) Q w.
Proof using Type. intros H. by apply H. Qed.

Lemma wp_set_db db Q (w : World DB) :
  (forall w', w_files w' = w_files w -> w_db w' = db -> w_ctrl w' = w_ctrl w -> Q (Ok tt) w') ->
  wp (set_db db) Q w.
Proof using Type. intros H. by apply H. Qed.

Lemma wp_path_exists p Q (w : World DB) :
  Q (Ok (bool_decide (is_Some (w_files w !! p)))) w -> wp (path_exists p) Q w.
Proof using Type. done. Qed.

Lemma wp_db_get_file rel Q (w : World DB) :
  bs_ok (w_db w) ->
  (forall w', same_core w w' -> Q (Ok (bs_view (w_db w) rel)) w') ->
  (forall w' e, same_core w w' -> ~ NoFaults -> Q (Err (Failed e)) w') ->
  wp (db_get_file rel) Q w.
Proof using Type.
  intros Hok H1 H2. unfold db_get_file. apply wp_bind, wp_fallible; [|eauto].
  intros w' Hc. apply wp_bind, wp_get_db. destruct Hc as (Hf & Hd & Hctl).
  rewrite Hd, bs_get_view by done. by apply H1.
Qed.

(** The database moved to [db]; the files and the steering did not. *)
Definition db_moved (db : DB) (w w' : World DB) : Prop :=
  w_files w' = w_files w /\ w_db w' = db /\ w_ctrl w' = w_ctrl w.

Lemma wp_db_put_file rel r Q (w : World DB) :
  (forall w', db_moved (bs_put_file (w_db w) rel r) w w' -> Q (Ok tt) w') ->
  (forall w' e, same_core w w' -> ~ NoFaults -> Q (Err (Failed e)) w') ->
  wp (db_put_file rel r) Q w.
Proof using Type.
  intros H1 H2. unfold db_put_file. apply wp_bind, wp_fallible; [|eauto].
  intros w1 (?&Hd&?). apply wp_bind, wp_get_db, wp_set_db. intros w2 ???. apply H1.
  unfold db_moved. rewrite Hd in *. split_and!; congruence.
Qed.

Lemma wp_db_delete_file rel Q (w : World DB) :
  (forall w', db_moved (bs_delete_file (w_db w) rel) w w' -> Q (Ok tt) w') ->
  (forall w' e, same_core w w' -> ~ NoFaults -> Q (Err (Failed e)) w') ->
  wp (db_delete_file rel) Q w.
Proof using Type.
  intros H1 H2. unfold db_delete_file. apply wp_bind, wp_fallible; [|eauto].
  intros w1 (?&Hd&?). apply wp_bind, wp_get_db, wp_set_db. intros w2 ???. apply H1.
  unfold db_moved. rewrite Hd in *. split_and!; congruence.
Qed.

Lemma wp_log_history x rel k d v Q (w : World DB) :
  (forall w' s e, db_moved (bs_append_history (w_db w) e) w w' -> Q (Ok s) w') ->
  (forall w' e, same_core w w' -> ~ NoFaults -> Q (Err (Failed e)) w') ->
  wp (log_history x rel k d v) Q w.
Proof using Type.
  intros H1 H2. unfold log_history, db_append_history. apply wp_bind, wp_ticks. intros w1 Hc1.
  apply wp_bind, wp_bind, wp_fallible.
  - intros w2 Hc2. apply wp_bind, wp_get_db, wp_set_db. intros w3 ???. apply wp_ret.
    destruct Hc1 as (?&Hd1&?), Hc2 as (?&Hd2&?). eapply H1. rewrite Hd2, Hd1 in *.
    unfold db_moved. split_and!; [congruence|eassumption|congruence].
  - intros w2 Hc2 HF. apply H2; [by etrans | done].
Qed.

(** Nothing outside [ps] differs between the two file trees. *)
Definition only_at (ps : list path) (w w' : World DB) : Prop :=
  w_db w' = w_db w /\ w_ctrl w' = w_ctrl w /\
  forall p, p ∉ ps -> w_files w' !! p = w_files w !! p.

Lemma wp_run_copy src dst rel (Q : result Exn unit -> World DB -> Prop) w :
  src <> dst ->
  (forall w' f g, only_at [dst] w w' -> w_files w !! src = Some f ->
     w_files w' !! dst = Some g -> content g = content f -> Q (Ok tt) w') ->
  (forall w' e, only_at [dst] w w' ->
     ~ (NoFaults /\ copy_accepts src = true /\ copy_accepts dst = true /\ is_Some (w_files w !! src)) ->
     Q (Err (Failed e)) w') ->
  wp (run_copy src dst rel) Q w.
Proof using Type.
  intros Hne H1 H2. unfold run_copy. apply wp_bind, wp_ticks. intros w1 (Hf & Hd & Hctl).
  apply wp_bind, wp_get_files. rewrite Hf.
  pose proof (copy_frame (w_files w) src dst (w_tick w)) as Hframe.
  pose proof (copy_success (w_files w) src dst (w_tick w)) as Hsucc.
  pose proof (copy_available (w_files w) src dst (w_tick w)) as Havail.
  destruct (copy_file (w_files w) src dst (w_tick w)) as [fs' ok]. simpl in *.
  apply wp_bind, wp_set_files. intros w2 Hf2 Hd2 Hctl2.
  assert (only_at [dst] w w2) as Hat.
  { split_and!; [congruence..|]. intros p Hp. rewrite Hf2. apply Hframe; [done|]. intros ->. apply Hp. left. }
  destruct ok.
  - destruct (Hsucc Hne eq_refl) as (f & g & Hs & Hg & Hc). apply wp_ret. eapply H1; eauto. congruence.
  - apply wp_throw, H2; [done|]. intros (HF & Ha1 & Ha2 & Hs). by specialize (Havail Hne Ha1 Ha2 Hs (HF _)).
Qed.

Lemma wp_create_parent p Q (w : World DB) :
  (forall w', same_core w w' -> Q (Ok tt) w') ->
  (forall w' e, same_core w w' -> ~ NoFaults -> Q (Err (Failed e)) w') ->
  wp (create_parent p) Q w.
Proof using Type.
  intros H1 H2. unfold create_parent. destruct (parent p).
  - apply wp_fallible; eauto.
  - apply wp_ret, H1. done.
Qed.

Lemma wp_rename src dst Q (w : World DB) :
  (forall w' f, w_files w !! src = Some f -> w_files w' = <[dst := f]> (delete src (w_files w)) ->
     w_db w' = w_db w -> w_ctrl w' = w_ctrl w -> Q (Ok tt) w') ->
  (forall w' e, same_core w w' -> ~ (NoFaults /\ is_Some (w_files w !! src)) ->
     Q (Err (Failed e)) w') ->
  wp (rename src dst) Q w.
Proof using Type.
  intros H1 H2. unfold rename. apply wp_bind, wp_fallible.
  - intros w1 (Hf & Hd & Hctl). apply wp_bind, wp_get_files. rewrite Hf.
    destruct (w_files w !! src) as [f|] eqn:E.
    + apply wp_set_files. intros w2 ???. eapply H1; [done| congruence..].
    + apply wp_throw, H2; [done|]. intros [_ [? ?]]. done.
  - intros w1 Hc HF. apply H2; [done|]. by intros [? _].
Qed.

Lemma wp_remove_file p Q (w : World DB) :
  (forall w', is_Some (w_files w !! p) -> w_files w' = delete p (w_files w) ->
     w_db w' = w_db w -> w_ctrl w' = w_ctrl w -> Q (Ok tt) w') ->
  (forall w' e, same_core w w' -> ~ (NoFaults /\ is_Some (w_files w !! p)) ->
     Q (Err (Failed e)) w') ->
  wp (remove_file p) Q w.
Proof using Type.
  intros H1 H2. unfold remove_file. apply wp_bind, wp_fallible.
  - intros w1 (Hf & Hd & Hctl). apply wp_bind, wp_get_files. rewrite Hf.
    destruct (w_files w !! p) as [f|] eqn:E.
    + apply wp_set_files. intros w2 ???. eapply H1; [done | congruence..].
    + apply wp_throw, H2; [done|]. intros [_ [? ?]]. done.
  - intros w1 Hc HF. apply H2; [done|]. by intros [? _].
Qed.

Lemma wp_choose_conflict_path dir rel host Q (w : World DB) :
  (forall w' ts, same_core w w' -> (exists n, ts = fun k => stamp (n + k)%N) ->
     Q (Ok (unique_conflict_path (fun p => bool_decide (is_Some (w_files w !! p))) ts dir rel host)) w') ->
  wp (choose_conflict_path dir rel host) Q w.
Proof using Type.
  intros H. unfold choose_conflict_path. apply wp_bind, wp_ticks. intros w1 Hc.
  apply wp_bind, wp_get_files, wp_ret. destruct Hc as (Hf&?&?). rewrite Hf.
  apply H; [done | eauto].
Qed.

(** ** The executors, file system part *)

Definition cpath (pair : SyncPair) (d : Direction) (relpath : string) : path :=
  side_root pair d ++ relpath_segments relpath.

(** A key the round can propagate: the walk's guard takes it, and the copy
    engine's guard takes the paths it joins to. *)
Definition key_ok (pair : SyncPair) (relpath : string) : Prop :=
  safe_key relpath = true /\ forall d, copy_accepts (cpath pair d relpath) = true.

Lemma unsafe_not_ok pair rel : safe_key rel = false -> ~ key_ok pair rel.
Proof using Type. intros E [E' _]. congruence. Qed.

Lemma wp_unsafe_or {A} rel root (k : path -> M DB A) Q (w : World DB) :
  (safe_key rel = true -> wp (k (root ++ relpath_segments rel)) Q w) ->
  (safe_key rel = false -> Q (Err (Failed (UnsafeRelpath rel))) w) ->
  wp (bind (unsafe_or rel (join_relpath root rel)) k) Q w.
Proof using Type.
  intros H1 H2. rewrite join_relpath_eq. destruct (safe_key rel).
  - apply wp_bind. by apply H1.
  - by apply H2.
Qed.

Lemma only_at_core ps w w' : same_core w w' -> only_at ps w w'.
Proof using Type. intros (Hf&?&?). split_and!; [done..|]. intros. by rewrite Hf. Qed.

Lemma only_at_trans ps w1 w2 w3 : only_at ps w1 w2 -> only_at ps w2 w3 -> only_at ps w1 w3.
Proof using Type.
  intros (?&?&H1) (?&?&H2). split_and!; [congruence..|]. intros p Hp.
  by rewrite H2, H1.
Qed.

Lemma only_at_weaken ps qs w w' : (forall p, p ∈ ps -> p ∈ qs) -> only_at ps w w' -> only_at qs w w'.
Proof using Type. intros Hsub (?&?&H). split_and!; [done..|]. intros p Hp. apply H. auto. Qed.

Lemma wp_apply_copy pair rel d Q (w : World DB) :
  let src := cpath pair d rel in
  let dst := cpath pair (flip d) rel in
  src <> dst ->
  (forall w' f g, only_at [dst] w w' -> w_files w !! src = Some f ->
     w_files w' !! dst = Some g -> content g = content f -> Q (Ok tt) w') ->
  (forall w' e, only_at [dst] w w' ->
     ~ (NoFaults /\ key_ok pair rel /\ is_Some (w_files w !! src)) -> Q (Err (Failed e)) w') ->
  wp (apply_copy pair rel d) Q w.
Proof using Type.
  intros src dst Hne H1 H2. unfold apply_copy.
  apply wp_unsafe_or; intros Hs; [|apply H2; [by apply only_at_core|]; intros (_&Hk&_); by eapply unsafe_not_ok].
  apply wp_unsafe_or; intros Hs2; [|apply H2; [by apply only_at_core|]; intros (_&Hk&_); by eapply unsafe_not_ok].
  apply wp_bind, wp_create_parent.
  - intros w1 Hc. pose proof Hc as (Hf&_&_). apply wp_run_copy; [done| |].
    + intros w2 f g Hat Hsrc Hdst Hfg. eapply H1; eauto; [|by rewrite <- Hf].
      eapply only_at_trans; [by apply only_at_core | done].
    + intros w2 e Hat HN. apply H2; [eapply only_at_trans; [by apply only_at_core | done]|].
      intros (?&[_ Hk]&?). apply HN. rewrite Hf. split_and!; [done|apply Hk|apply Hk|done].
  - intros w1 e Hc HN. apply H2; [by apply only_at_core|]. by intros (?&_&_).
Qed.

Lemma wp_apply_delete pair rel d b Q (w : World DB) :
  let src := cpath pair d rel in
  let dst := cpath pair (flip d) rel in
  w_files w !! src = None ->
  (forall w', w_files w' = delete dst (w_files w) -> w_db w' = w_db w -> w_ctrl w' = w_ctrl w ->
     Q (Ok Deleted) w') ->
  (forall w' e, same_core w w' -> ~ (NoFaults /\ key_ok pair rel) -> Q (Err (Failed e)) w') ->
  wp (apply_delete pair rel d b) Q w.
Proof using Type.
  intros src dst Hsrc H1 H2. unfold apply_delete.
  apply wp_unsafe_or; intros Hs; [|apply H2; [done|]; intros (_&Hk); by eapply unsafe_not_ok].
  apply wp_unsafe_or; intros Hs2; [|apply H2; [done|]; intros (_&Hk); by eapply unsafe_not_ok].
  fold src dst. apply wp_bind, wp_path_exists. fold (cpath pair d rel) (cpath pair (flip d) rel).
  fold src dst. rewrite Hsrc. rewrite bool_decide_eq_false_2 by (by intros [? ?]).
  apply wp_bind, wp_path_exists. fold dst. destruct (bool_decide _) eqn:E.
  - apply bool_decide_eq_true in E. apply wp_bind, wp_remove_file.
    + intros w1 _ Hf Hd Hc. by apply wp_ret, H1.
    + intros w1 e Hc HN. apply H2; [done|]. intros [? _]; apply HN; by split.
  - apply bool_decide_eq_false in E. apply wp_bind, wp_ret, wp_ret. apply H1; [|done..].
    rewrite delete_id; [done|]. by apply eq_None_not_Some.
Qed.

(** The directory and the names a preservation file of [rel] can have. *)
Definition conflict_dir (pair : SyncPair) (d : Direction) (rel : string) : path :=
  default (side_root pair d) (parent (cpath pair d rel)).

Definition conflict_path (pair : SyncPair) (d : Direction) (rel host : string) (n : N)
    (seq : option N) : path :=
  path_join (conflict_dir pair d rel) (conflict_preservation_name_with_seq (stamp n) rel host seq).

(** The preservation path is free: plain host label and time stamps, and
    fewer than a million files. *)
Definition roomy (host : string) (w : World DB) : Prop :=
  contains_char slash host = false /\ (forall n, contains_char slash (stamp n) = false) /\
  (base.size (w_files w) < N.to_nat MAX_SEQ)%nat.

Definition fresh_conflict (pair : SyncPair) (d : Direction) (rel host : string) (w : World DB)
    (q : path) : Prop :=
  w_files w !! q = None /\ exists n seq, q = conflict_path pair d rel host n seq.

Lemma roomy_fresh pair d rel host w ts :
  roomy host w -> (exists n, ts = fun k => stamp (n + k)%N) ->
  fresh_conflict pair d rel host w
    (unique_conflict_path (fun p => bool_decide (is_Some (w_files w !! p))) ts
       (conflict_dir pair d rel) rel host).
Proof using Type.
  intros (Hh & Hst & Hsz) [n ->]. split.
  - assert (base.size (dom (w_files w)) < N.to_nat MAX_SEQ)%nat as Hsz'.
    { by rewrite size_dom. }
    pose proof (unique_conflict_path_free (dom (w_files w)) (fun k => stamp (n + k)%N)
      (conflict_dir pair d rel) rel host Hh (fun k => Hst _) Hsz') as [Hfree _].
    apply not_elem_of_dom in Hfree. erewrite unique_conflict_path_ext; [exact Hfree|].
    intros p. apply bool_decide_ext. by rewrite elem_of_dom.
  - destruct (unique_conflict_path_shape (fun p => bool_decide (is_Some (w_files w !! p)))
      (fun k => stamp (n + k)%N) (conflict_dir pair d rel) rel host) as (k & seq & ->).
    by exists (n + k)%N, seq.
Qed.

Lemma wp_apply_conflict pair rel winner kind host Q (w : World DB) :
  let loser := flip winner in
  let lp := cpath pair loser rel in
  let wpath := cpath pair winner rel in
  lp <> wpath -> roomy host w ->
  (forall w' c P, fresh_conflict pair loser rel host w P -> only_at [lp; P] w w' ->
     (forall f, w_files w !! lp = Some f -> w_files w' !! P = Some f) ->
     (forall f, w_files w !! wpath = Some f ->
        exists g, w_files w' !! lp = Some g /\ content g = content f) -> Q (Ok c) w') ->
  (forall w' e P, fresh_conflict pair loser rel host w P -> only_at [lp; P] w w' ->
     (forall f, w_files w !! lp = Some f -> w_files w' !! lp = Some f \/ w_files w' !! P = Some f) ->
     ~ (NoFaults /\ key_ok pair rel) -> Q (Err (Failed e)) w') ->
  wp (apply_conflict pair rel winner loser kind host) Q w.
Proof using Type.
  intros loser lp wpath Hne Hroom H1 H2. unfold apply_conflict.
  assert (exists q, fresh_conflict pair loser rel host w q) as [q0 Hq0].
  { eexists. by apply (roomy_fresh pair loser rel host w (fun k => stamp (0 + k)%N)); eauto. }
  apply wp_unsafe_or; intros Hs;
    [|eapply H2; [exact Hq0 | by apply only_at_core | by left | intros [_ Hk]; by eapply unsafe_not_ok]].
  apply wp_unsafe_or; intros Hs2;
    [|eapply H2; [exact Hq0 | by apply only_at_core | by left | intros [_ Hk]; by eapply unsafe_not_ok]].
  fold (cpath pair loser rel) (cpath pair winner rel). fold lp wpath.
  apply wp_bind, wp_choose_conflict_path. intros w1 ts Hc1 Hts.
  fold (conflict_dir pair loser rel).
  pose proof (roomy_fresh pair loser rel host w ts Hroom Hts) as HP.
  set (P := unique_conflict_path _ ts _ rel host) in *. destruct HP as [HPfree HPshape].
  pose proof Hc1 as (Hf1 & _ & _).
  apply wp_bind, wp_path_exists. rewrite Hf1.
  (* The second phase: copy the winner over the loser's path. *)
  assert (forall w2, only_at [lp; P] w w2 ->
    (forall f, w_files w !! lp = Some f -> w_files w2 !! P = Some f) ->
    wp (bind (path_exists wpath) (fun winner_exists =>
          (if winner_exists then create_parent lp ;; run_copy wpath lp rel else ret tt) ;;
          ret {| c_relpath := rel; c_kind := kind; c_winner := winner; c_loser := loser;
                 loser_preservation_path := P |})) Q w2) as Hphase2.
  { intros w2 Hat2 Hkept. apply wp_bind, wp_path_exists.
    pose proof Hat2 as (_ & _ & Hfr2).
    assert (is_Some (w_files w !! wpath) -> w_files w2 !! wpath = w_files w !! wpath) as Hw2.
    { intros [f Hf]. apply Hfr2. rewrite !not_elem_of_cons. split_and!; [done| |apply not_elem_of_nil].
      intros E. congruence. }
    assert (lp <> P \/ w_files w !! lp = None) as HlpP.
    { destruct (w_files w !! lp) eqn:E; [left|by right]. intros E'. congruence. }
    case_bool_decide as Hex.
    - apply wp_bind, wp_bind, wp_create_parent.
      + intros w3 Hc3. pose proof Hc3 as (Hf3&_&_). apply wp_run_copy; [congruence| |].
        * intros w4 f g Hat4 Hsrc Hg Hcont. apply wp_ret.
          assert (only_at [lp; P] w w4) as Hat.
          { eapply only_at_trans; [exact Hat2|]. eapply only_at_trans; [by apply only_at_core|].
            eapply only_at_weaken; [|exact Hat4]. intros ? ->%list_elem_of_singleton. left. }
          eapply H1; [by split | exact Hat | |].
          { intros f' Hf'. destruct Hat4 as (_&_&Hfr4). rewrite Hfr4, Hf3; [by apply Hkept|].
            intros ->%list_elem_of_singleton. destruct HlpP; congruence. }
          { intros f' Hf'. exists g. split; [done|]. rewrite Hcont.
            rewrite Hf3 in Hsrc. rewrite Hw2 in Hsrc by eauto. congruence. }
        * intros w4 e Hat4 HN. eapply H2; [by split | | |].
          { eapply only_at_trans; [exact Hat2|]. eapply only_at_trans; [by apply only_at_core|].
            eapply only_at_weaken; [|exact Hat4]. intros ? ->%list_elem_of_singleton. left. }
          { intros f' Hf'. right. destruct Hat4 as (_&_&Hfr4). rewrite Hfr4, Hf3; [by apply Hkept|].
            intros ->%list_elem_of_singleton. destruct HlpP; congruence. }
          { intros [? [_ Hk]]. apply HN. rewrite Hf3. split_and!; [done|apply Hk|apply Hk|done]. }
      + intros w3 e Hc3 HN. eapply H2; [by split | | |by intros [? _]].
        { eapply only_at_trans; [exact Hat2 | by apply only_at_core]. }
        { intros f' Hf'. right. destruct Hc3 as (Hf3&_&_). rewrite Hf3. by apply Hkept. }
    - apply wp_bind, wp_ret, wp_ret. eapply H1; [by split | exact Hat2 | exact Hkept |].
      intros f Hf. exfalso. apply Hex. rewrite Hw2; eauto. }
  (* The first phase: move the loser's file out of the way. *)
  destruct (w_files w !! lp) as [f|] eqn:Hlp.
  - rewrite bool_decide_eq_true_2 by eauto. assert (match kind with DeleteEdit => true | _ => true end = true) as Hk by (by destruct kind).
    rewrite Hk. cbn [andb].
    apply wp_bind, wp_bind, wp_create_parent.
    + intros w2 Hc2. apply wp_rename.
      * intros w3 f' Hf' Hf3 Hd3 Hctl3. apply Hphase2.
        { pose proof Hc2 as (Hf2&Hd2&Hctl2). destruct Hc1 as (_&Hd1&Hctl1).
          split_and!; [congruence..|]. intros p Hp. rewrite !not_elem_of_cons in Hp.
          destruct Hp as (?&?&_). rewrite Hf3, lookup_insert_ne, lookup_delete_ne by congruence.
          congruence. }
        { intros f'' Hf''. rewrite Hf3, lookup_insert_eq. destruct Hc2 as (Hf2&_&_).
          rewrite Hf2, Hf1 in Hf'. congruence. }
      * intros w3 e Hc3 HN. eapply (H2 w3 e P); [by split | | |].
        { apply only_at_core. by etrans; [|etrans]. }
        { intros f'' Hf''. left. destruct Hc2 as (Hf2&_&_), Hc3 as (Hf3&_&_). congruence. }
        { intros [? _]. apply HN. destruct Hc2 as (Hf2&_&_). rewrite Hf2, Hf1, Hlp. eauto. }
    + intros w2 e Hc2 HN. eapply (H2 w2 e P); [by split | | |by intros [? _]].
      { apply only_at_core. by etrans. }
      { intros f'' Hf''. left. destruct Hc2 as (Hf2&_&_). congruence. }
  - rewrite bool_decide_eq_false_2 by (by intros [? ?]). rewrite andb_false_r.
    apply wp_bind, wp_ret. apply Hphase2; [by apply only_at_core | done].
Qed.

End engine.

(** * One action of the round: what it may change, keeps and reaches

    [exec_post] is the contract of every executor: the files outside the two
    paths of the key and one fresh preservation name are untouched, every
    byte string in the tree survives unless it is the last-synced version of
    the key, and a successful two-way action leaves both sides and the
    baseline in agreement. *)

Section engine.
Context {DB : Type} {ST : BaselineStore DB} {EN : SyncEnv} {CE : CopyEngine}.

(** ** One action: what it may change, what it keeps, what it reaches *)

Definition baseline_matches (f : File) (b : option FileRecord) : bool :=
  matches_baseline (Some (meta_of f)) b.

(** What the walk recorded for a key is what the disk holds. *)
Definition seen (pair : SyncPair) (L R : gmap string SideState) (w : World DB) (rel : string) : Prop :=
  forall d, side_meta (side_of d L R) rel = meta_of <$> w_files w !! cpath pair d rel.

(** Both sides of a key hold the same bytes, and the baseline says so. *)
Definition settled (pair : SyncPair) (w : World DB) (rel : string) : Prop :=
  content <$> w_files w !! cpath pair LeftToRight rel
    = content <$> w_files w !! cpath pair RightToLeft rel /\
  match w_files w !! cpath pair LeftToRight rel with
  | Some f => baseline_matches f (bs_view (w_db w) rel) = true
  | None => bs_view (w_db w) rel = None
  end.

Definition both (pair : SyncPair) (rel : string) : list path :=
  [cpath pair LeftToRight rel; cpath pair RightToLeft rel].

(** The bytes of [f], held at [p] before, are still in the tree: at [p] or at
    one of the paths [ps]. *)
Definition still_at (ps : list path) (p : path) (f : File) (fs : FileTree) : Prop :=
  exists p' g, (p' = p \/ p' ∈ ps) /\ fs !! p' = Some g /\ content g = content f.

Definition files_step (pair : SyncPair) (rel host : string) (w : World DB) (fs : FileTree) : Prop :=
  exists d P, fresh_conflict pair d rel host w P /\
    (forall p, p ∉ both pair rel ++ [P] -> fs !! p = w_files w !! p) /\
    (forall p f, w_files w !! p = Some f ->
       still_at (both pair rel ++ [P]) p f fs \/
       (p ∈ both pair rel /\ baseline_matches f (bs_view (w_db w) rel) = true)).

Definition step_ok (pair : SyncPair) (rel host : string) (w w' : World DB) : Prop :=
  w_ctrl w' = w_ctrl w /\ bs_ok (w_db w') /\
  (forall k, k <> rel -> bs_view (w_db w') k = bs_view (w_db w) k) /\
  files_step pair rel host w (w_files w').

Definition exec_post (pair : SyncPair) (rel host : string) (mode : SyncMode) (w : World DB)
    (r : result Exn Exec) (w' : World DB) : Prop :=
  step_ok pair rel host w w' /\
  match r with
  | Ok _ => mode = TwoWay -> settled pair w' rel
  | Err (Failed _) => ~ (NoFaults /\ key_ok pair rel)
  | Err Panicked => False
  end.

Lemma elem_of_both pair d rel : cpath pair d rel ∈ both pair rel.
Proof using Type. unfold both. rewrite !elem_of_cons. destruct d; auto. Qed.

Lemma fresh_exists pair d rel host (w : World DB) :
  roomy host w -> exists P, fresh_conflict pair d rel host w P.
Proof using Type.
  intros H. eexists. apply (roomy_fresh pair d rel host w (fun k => stamp (0 + k)%N)); eauto.
Qed.

Lemma files_step_dst pair rel host (w : World DB) d fs :
  roomy host w ->
  (forall p, p <> cpath pair d rel -> fs !! p = w_files w !! p) ->
  (forall f, w_files w !! cpath pair d rel = Some f ->
     baseline_matches f (bs_view (w_db w) rel) = true) ->
  files_step pair rel host w fs.
Proof using Type.
  intros Hroom Hfr Hb. destruct (fresh_exists pair d rel host w Hroom) as [P HP].
  exists d, P. split_and!; [done| |].
  - intros p Hp. apply Hfr. intros ->. apply Hp, elem_of_app. left. apply elem_of_both.
  - intros p f Hf. destruct (decide (p = cpath pair d rel)) as [->|Hne].
    + right. split; [apply elem_of_both | by apply Hb].
    + left. exists p, f. rewrite Hfr by done. auto.
Qed.

Lemma files_step_same pair rel host (w : World DB) fs :
  roomy host w -> fs = w_files w -> files_step pair rel host w fs.
Proof using Type.
  intros Hroom ->. destruct (fresh_exists pair LeftToRight rel host w Hroom) as [P HP].
  exists LeftToRight, P. split_and!; [done..|]. intros p f Hf. left. exists p, f. auto.
Qed.

Lemma exec_post_err pair rel host mode (w : World DB) e (w' : World DB) :
  step_ok pair rel host w w' -> ~ (NoFaults /\ key_ok pair rel) ->
  exec_post pair rel host mode w (Err (Failed e)) w'.
Proof using Type. by split. Qed.

Lemma seen_file pair L R (w : World DB) rel d f :
  seen pair L R w rel -> w_files w !! cpath pair d rel = Some f ->
  side_meta (side_of d L R) rel = Some (meta_of f).
Proof using Type. intros H Hf. by rewrite H, Hf. Qed.

Lemma seen_some pair L R (w : World DB) rel d m :
  seen pair L R w rel -> side_meta (side_of d L R) rel = Some m ->
  exists f, w_files w !! cpath pair d rel = Some f /\ m = meta_of f.
Proof using Type.
  intros H Hm. rewrite H in Hm. destruct (w_files w !! _) as [f|]; [|done].
  simplify_eq/=. eauto.
Qed.

Lemma seen_none pair L R (w : World DB) rel d :
  seen pair L R w rel -> side_meta (side_of d L R) rel = None ->
  w_files w !! cpath pair d rel = None.
Proof using Type. intros H Hm. rewrite H in Hm. by destruct (w_files w !! _). Qed.

Lemma record_of_matches v f : baseline_matches f (Some (record_of v (meta_of f))) = true.
Proof using Type. unfold baseline_matches. simpl. by rewrite String.eqb_refl, Z.eqb_refl. Qed.

Lemma baseline_matches_content f g b :
  content g = content f -> baseline_matches f b = baseline_matches g b.
Proof using Type. unfold baseline_matches, matches_baseline, meta_of, file_len. by intros ->. Qed.

(** Both sides hold [m]'s bytes and the baseline row was written from [m]. *)
Lemma settled_intro pair (w : World DB) rel f g v :
  w_files w !! cpath pair LeftToRight rel = Some f ->
  w_files w !! cpath pair RightToLeft rel = Some g -> content f = content g ->
  (exists h, content h = content f /\ bs_view (w_db w) rel = Some (record_of v (meta_of h))) ->
  settled pair w rel.
Proof using Type.
  intros Hf Hg Hfg (h & Hh & Hv). unfold settled. rewrite Hf, Hg. simpl.
  split; [by rewrite Hfg|]. rewrite Hv, (baseline_matches_content f h) by done.
  apply record_of_matches.
Qed.

Lemma settled_dir pair (w : World DB) rel d f g :
  w_files w !! cpath pair d rel = Some f -> w_files w !! cpath pair (flip d) rel = Some g ->
  content f = content g ->
  (exists h v, content h = content f /\ bs_view (w_db w) rel = Some (record_of v (meta_of h))) ->
  settled pair w rel.
Proof using Type.
  intros Hf Hg Hfg (h & v & Hh & Hv). destruct d; simpl in *.
  - eapply settled_intro; eauto.
  - eapply settled_intro; [exact Hg | exact Hf | by symmetry|]. exists h. split; [congruence|done].
Qed.

Lemma wp_exec_copy pair L R me host rel d x mode (w : World DB) :
  roomy host w -> bs_ok (w_db w) -> seen pair L R w rel ->
  cpath pair d rel <> cpath pair (flip d) rel ->
  is_Some (side_meta (side_of d L R) rel) ->
  (side_meta (side_of (flip d) L R) rel = None \/
   matches_baseline (side_meta (side_of (flip d) L R) rel) (bs_view (w_db w) rel) = true) ->
  wp (exec_copy pair L R me rel d x) (exec_post pair rel host mode w) w.
Proof using Type.
  intros Hroom Hok Hseen Hne [m Hm] Hover.
  destruct (seen_some _ _ _ _ _ _ _ Hseen Hm) as (f & Hf & ->).
  assert (forall w', only_at [cpath pair (flip d) rel] w w' ->
            files_step pair rel host w (w_files w')) as Hstep.
  { intros w' (_&_&Hfr). apply (files_step_dst _ _ _ _ (flip d)); [done| |].
    - intros p Hp. apply Hfr. by rewrite list_elem_of_singleton.
    - intros g Hg. pose proof (seen_file _ _ _ _ _ _ _ Hseen Hg) as Hmeta.
      destruct Hover as [H|H]; [congruence|]. by rewrite Hmeta in H. }
  unfold exec_copy. apply wp_bind, wp_apply_copy; [done| |].
  - intros w1 f' g Hat Hf' Hg Hcont. pose proof Hat as (Hd1 & Hc1 & Hfr).
    assert (f' = f) as -> by congruence.
    unfold side_meta in Hm. fold (side_of d L R).
    destruct (side_of d L R !! rel) as [ss|]; [|done]. simpl in Hm. rewrite Hm.
    assert (forall w2, w_files w2 = w_files w1 -> w_db w2 = w_db w1 -> w_ctrl w2 = w_ctrl w1 ->
              step_ok pair rel host w w2) as Hearly.
    { intros w2 H1 H2 H3. split_and!; [congruence|congruence| |rewrite H1; auto].
      intros k _. congruence. }
    apply wp_bind, wp_db_get_file; [congruence| |].
    2: { intros w2 e (?&?&?) HN. apply exec_post_err; [auto|]. by intros [? _]. }
    intros w2 (Hf2 & Hd2 & Hc2). apply wp_bind, wp_db_put_file.
    2: { intros w3 e (?&?&?) HN. apply exec_post_err; [apply Hearly; congruence|]. by intros [? _]. }
    set (v := increment _ me). intros w3 (Hf3 & Hd3 & Hc3).
    assert (forall w4, w_files w4 = w_files w1 -> (forall k, bs_view (w_db w4) k = bs_view (w_db w3) k) ->
              bs_ok (w_db w4) -> w_ctrl w4 = w_ctrl w1 -> step_ok pair rel host w w4) as Hlate.
    { intros w4 H1 H2 H3 H4. split_and!; [congruence|done| |rewrite H1; auto].
      intros k Hk. rewrite H2, Hd3, bs_put_view, decide_False by done. congruence. }
    assert (bs_ok (w_db w3)) as Hok3 by (rewrite Hd3, Hd2, Hd1; auto).
    apply wp_bind, wp_log_history.
    + intros w4 s e (Hf4 & Hd4 & Hc4). apply wp_ret. split.
      { apply Hlate; [congruence| |rewrite Hd4; auto|congruence]. intros k.
        by rewrite Hd4, bs_history_view. }
      intros _. apply (settled_dir pair w4 rel d f g); [| |done|].
      * rewrite Hf4, Hf3, Hf2, Hfr; [done|]. by rewrite list_elem_of_singleton.
      * congruence.
      * exists f, v. split; [done|]. rewrite Hd4, bs_history_view, Hd3, bs_put_view.
        by rewrite decide_True.
    + intros w4 e (Hf4 & Hd4 & Hc4) HN. apply exec_post_err; [|by intros [? _]].
      apply Hlate; [congruence| |congruence|congruence]. intros k. congruence.
  - intros w1 e Hat HN. pose proof Hat as (Hd1 & Hc1 & Hfr). apply exec_post_err.
    + split_and!; [done|congruence|intros; congruence|auto].
    + intros [H1 H2]. apply HN. rewrite Hf. eauto.
Qed.

(** A step that leaves the files alone and whose database differs at most at
    [rel]. *)
Lemma step_ok_db pair rel host (w w' : World DB) :
  roomy host w -> w_files w' = w_files w -> w_ctrl w' = w_ctrl w -> bs_ok (w_db w') ->
  (forall k, k <> rel -> bs_view (w_db w') k = bs_view (w_db w) k) -> step_ok pair rel host w w'.
Proof using Type. intros. split_and!; [done..|]. by apply files_step_same. Qed.

Lemma wp_exec_delete pair rel host d x mode (w : World DB) :
  roomy host w -> bs_ok (w_db w) -> w_files w !! cpath pair d rel = None ->
  (forall g, w_files w !! cpath pair (flip d) rel = Some g ->
     baseline_matches g (bs_view (w_db w) rel) = true) ->
  wp (exec_delete pair rel d x) (exec_post pair rel host mode w) w.
Proof using Type.
  intros Hroom Hok Hsrc Hover. unfold exec_delete. apply wp_bind, wp_db_get_file; [done| |].
  2: { intros w1 e (Hf&Hd&Hc) HN. apply exec_post_err; [|by intros [? _]].
       apply step_ok_db; congruence. }
  intros w1 (Hf1 & Hd1 & Hc1). apply wp_bind, wp_apply_delete; [congruence| |].
  2: { intros w2 e (Hf2&Hd2&Hc2) HN. apply exec_post_err; [|done].
       apply step_ok_db; congruence. }
  intros w2 Hf2 Hd2 Hc2. rewrite Hf1 in Hf2.
  assert (forall w3, w_files w3 = w_files w2 -> w_ctrl w3 = w_ctrl w2 -> bs_ok (w_db w3) ->
            (forall k, k <> rel -> bs_view (w_db w3) k = bs_view (w_db w) k) ->
            step_ok pair rel host w w3) as Hstep.
  { intros w3 H1 H2 H3 H4. split_and!; [congruence|done|done|].
    apply (files_step_dst _ _ _ _ (flip d)); [done| |done].
    intros p Hp. rewrite H1, Hf2. by apply lookup_delete_ne. }
  apply wp_bind, wp_db_delete_file.
  2: { intros w3 e (Hf3&Hd3&Hc3) HN. apply exec_post_err; [|by intros [? _]].
       apply Hstep; congruence. }
  intros w3 (Hf3&Hd3&Hc3).
  assert (bs_ok (w_db w3)) as Hok3 by (rewrite Hd3, Hd2, Hd1; auto).
  assert (forall k, bs_view (w_db w3) k = if decide (rel = k) then None else bs_view (w_db w) k)
    as Hv3 by (intros k; rewrite Hd3, bs_delete_view, Hd2, Hd1; done).
  apply wp_bind, wp_log_history.
  - intros w4 s e (Hf4&Hd4&Hc4). apply wp_ret. split.
    { apply Hstep; [congruence..| |].
      - rewrite Hd4. auto.
      - intros k Hk. by rewrite Hd4, bs_history_view, Hv3, decide_False. }
    intros _. unfold settled. rewrite Hf4, Hf3, Hf2, Hd4, bs_history_view, Hv3, decide_True by done.
    destruct d; simpl in *; rewrite lookup_delete_eq;
      (destruct (decide (cpath pair LeftToRight rel = cpath pair RightToLeft rel)) as [E|E];
       [rewrite ?E, ?lookup_delete_eq; done | rewrite ?lookup_delete_ne, Hsrc by done; done]).
  - intros w4 e (Hf4&Hd4&Hc4) HN. apply exec_post_err; [|by intros [? _]].
    apply Hstep; [congruence..|]. intros k Hk. by rewrite Hd4, Hv3, decide_False.
Qed.

Lemma wp_exec_noop pair L R me host rel x mode (w : World DB) :
  Inj (=) (=) hash ->
  roomy host w -> bs_ok (w_db w) -> seen pair L R w rel ->
  (mode = TwoWay -> same_content (side_meta L rel) (side_meta R rel) = true) ->
  wp (exec_noop L R me rel x) (exec_post pair rel host mode w) w.
Proof using Type.
  intros Hinj Hroom Hok Hseen Hsame.
  pose proof (Hseen LeftToRight) as HL. pose proof (Hseen RightToLeft) as HR. simpl in HL, HR.
  unfold exec_noop. rewrite HL, HR in *.
  assert (forall w1, same_core w w1 -> step_ok pair rel host w w1) as Hcore.
  { intros w1 (H1&H2&H3). apply step_ok_db; congruence. }
  destruct (w_files w !! cpath pair LeftToRight rel) as [f|] eqn:Ef;
    destruct (w_files w !! cpath pair RightToLeft rel) as [g|] eqn:Eg; simpl in *.
  - destruct (String.eqb_spec (hash (content f)) (hash (content g))) as [Ehash|].
    2: { apply wp_ret. split; [by apply Hcore|]. intros Hm. by specialize (Hsame Hm). }
    pose proof (Hinj _ _ Ehash) as Econt.
    assert (forall w1, w_files w1 = w_files w -> baseline_matches f (bs_view (w_db w1) rel) = true ->
              settled pair w1 rel) as Hset.
    { intros w1 H1 H2. unfold settled. rewrite H1, Ef, Eg. simpl. by rewrite Econt. }
    apply wp_bind, wp_db_get_file; [done| |].
    2: { intros w1 e Hc HN. apply exec_post_err; [auto|by intros [? _]]. }
    intros w1 Hc1. pose proof Hc1 as (Hf1&Hd1&Hctl1).
    destruct (match bs_view (w_db w) rel with Some b => _ | None => true end) eqn:Eneed.
    + apply wp_bind, wp_db_put_file.
      2: { intros w2 e Hc2 HN. apply exec_post_err; [|by intros [? _]]. apply Hcore. by etrans. }
      intros w2 (Hf2&Hd2&Hctl2). apply wp_ret. rewrite Hd1 in Hd2. split.
      * apply step_ok_db; [done|congruence..| |].
        { rewrite Hd2. auto. }
        { intros k Hk. rewrite Hd2, bs_put_view, decide_False; done. }
      * intros _. apply Hset; [congruence|]. rewrite Hd2, bs_put_view, decide_True by done.
        apply record_of_matches.
    + apply wp_bind, wp_ret, wp_ret. split; [by apply Hcore|]. intros _. apply Hset; [done|].
      rewrite Hd1. destruct (bs_view (w_db w) rel) as [b|]; [|done].
      apply orb_false_iff in Eneed as [E1%negb_false_iff E2%negb_false_iff].
      apply String.eqb_eq in E1. apply Z.eqb_eq in E2.
      unfold baseline_matches. simpl. by rewrite E1, E2, String.eqb_refl, Z.eqb_refl.
  - apply wp_ret. split; [by apply Hcore|]. intros Hm. by specialize (Hsame Hm).
  - apply wp_ret. split; [by apply Hcore|]. intros Hm. by specialize (Hsame Hm).
  - apply wp_bind, wp_db_get_file; [done| |].
    2: { intros w1 e Hc HN. apply exec_post_err; [auto|by intros [? _]]. }
    intros w1 Hc1. pose proof Hc1 as (Hf1&Hd1&Hctl1).
    destruct (bs_view (w_db w) rel) as [b|] eqn:Eb.
    + apply wp_bind, wp_db_delete_file.
      2: { intros w2 e Hc2 HN. apply exec_post_err; [|by intros [? _]]. apply Hcore. by etrans. }
      intros w2 (Hf2&Hd2&Hctl2). apply wp_ret. rewrite Hd1 in Hd2. split.
      * apply step_ok_db; [done|congruence..| |].
        { rewrite Hd2. auto. }
        { intros k Hk. rewrite Hd2, bs_delete_view, decide_False; done. }
      * intros _. unfold settled. rewrite Hf2, Hf1, Ef, Eg, Hd2, bs_delete_view, decide_True; done.
    + apply wp_ret. split; [by apply Hcore|]. intros _. unfold settled.
      rewrite Hf1, Ef, Eg, Hd1. done.
Qed.

Lemma wp_exec_conflict pair L R me host rel winner kind x mode (w : World DB) :
  roomy host w -> bs_ok (w_db w) -> seen pair L R w rel ->
  cpath pair winner rel <> cpath pair (flip winner) rel ->
  is_Some (side_meta (side_of winner L R) rel) ->
  wp (exec_conflict pair L R me host rel winner (flip winner) kind x)
     (exec_post pair rel host mode w) w.
Proof using Type.
  intros Hroom Hok Hseen Hne [m Hm].
  destruct (seen_some _ _ _ _ _ _ _ Hseen Hm) as (f & Hf & ->).
  set (lp := cpath pair (flip winner) rel) in *. set (wpath := cpath pair winner rel) in *.
  (* The files: the loser's bytes stay at [lp] or move to [P]. *)
  assert (forall w' P, fresh_conflict pair (flip winner) rel host w P -> only_at [lp; P] w w' ->
    (forall f, w_files w !! lp = Some f -> w_files w' !! lp = Some f \/ w_files w' !! P = Some f) ->
    files_step pair rel host w (w_files w')) as Hfiles.
  { intros w' P HP (_&_&Hfr) Hkept. exists (flip winner), P. split_and!; [done| |].
    - intros p Hp. apply Hfr. rewrite !not_elem_of_cons. rewrite not_elem_of_app in Hp.
      destruct Hp as [Hb Hp]. rewrite list_elem_of_singleton in Hp.
      split_and!; [|done|apply not_elem_of_nil]. intros ->. apply Hb, elem_of_both.
    - intros p g Hg. left.
      destruct (decide (p = lp)) as [->|Hlp].
      { destruct (Hkept g Hg) as [H|H]; [exists lp, g; auto|].
        exists P, g. split_and!; [right|done..]. rewrite elem_of_app, list_elem_of_singleton. auto. }
      exists p, g. split_and!; [auto| |done]. rewrite Hfr; [done|].
      rewrite !not_elem_of_cons. split_and!; [done| |apply not_elem_of_nil].
      destruct HP as [HP _]. intros ->. congruence. }
  assert (forall w' P, fresh_conflict pair (flip winner) rel host w P -> only_at [lp; P] w w' ->
    (forall f, w_files w !! lp = Some f -> w_files w' !! lp = Some f \/ w_files w' !! P = Some f) ->
    forall w2, w_files w2 = w_files w' -> w_ctrl w2 = w_ctrl w' -> bs_ok (w_db w2) ->
      (forall k, k <> rel -> bs_view (w_db w2) k = bs_view (w_db w) k) ->
      step_ok pair rel host w w2) as Hstep.
  { intros w' P HP Hat Hkept w2 H1 H2 H3 H4. pose proof Hat as (_&Hc&_).
    split_and!; [congruence|done..|]. rewrite H1. eauto. }
  unfold exec_conflict. apply wp_bind, wp_apply_conflict; [done|done| |].
  2: { intros w1 e P HP Hat Hkept HN. pose proof Hat as (Hd&_&_).
       apply exec_post_err; [|done]. eapply Hstep; eauto; rewrite ?Hd; done. }
  fold lp wpath. intros w1 c P HP Hat Hkept Hcopied. pose proof Hat as (Hd1&Hc1&Hfr).
  destruct (Hcopied f Hf) as (g & Hg & Hcont).
  assert (w_files w1 !! wpath = Some f) as Hwf.
  { rewrite Hfr; [done|]. rewrite !not_elem_of_cons. split_and!; [done| |apply not_elem_of_nil].
    destruct HP as [HP _]. intros E. rewrite E in Hf. congruence. }
  specialize (Hstep w1 P HP Hat (fun f Hf => or_intror (Hkept f Hf))).
  apply wp_bind, wp_db_get_file; [congruence| |].
  2: { intros w2 e (Hf2&Hd2&Hc2) HN. apply exec_post_err; [|by intros [? _]].
       apply Hstep; congruence. }
  intros w2 (Hf2&Hd2&Hc2).
  assert (match winner with LeftToRight => side_meta L rel | RightToLeft => side_meta R rel end
          = Some (meta_of f)) as -> by (by destruct winner).
  apply wp_bind, wp_db_put_file.
  2: { intros w3 e (Hf3&Hd3&Hc3) HN. apply exec_post_err; [|by intros [? _]].
       apply Hstep; congruence. }
  set (v := resolve_concurrent _ _ me). intros w3 (Hf3&Hd3&Hc3).
  assert (bs_ok (w_db w3)) as Hok3 by (rewrite Hd3, Hd2, Hd1; auto).
  assert (forall k, bs_view (w_db w3) k
            = if decide (rel = k) then Some (record_of v (meta_of f)) else bs_view (w_db w) k)
    as Hv3 by (intros k; rewrite Hd3, bs_put_view, Hd2, Hd1; done).
  apply wp_bind, wp_log_history.
  2: { intros w4 e (Hf4&Hd4&Hc4) HN. apply exec_post_err; [|by intros [? _]].
       apply Hstep; [congruence..|]. intros k Hk. by rewrite Hd4, Hv3, decide_False. }
  intros w4 s e (Hf4&Hd4&Hc4). apply wp_bind, wp_emit. intros w5 (Hf5&Hd5&Hc5). apply wp_ret.
  assert (forall k, bs_view (w_db w5) k = bs_view (w_db w3) k) as Hv5.
  { intros k. by rewrite Hd5, Hd4, bs_history_view. }
  split.
  - apply Hstep; [congruence..| |].
    + rewrite Hd5, Hd4. auto.
    + intros k Hk. by rewrite Hv5, Hv3, decide_False.
  - intros _. apply (settled_dir pair w5 rel winner f g); fold lp wpath; [congruence..|].
    exists f, v. split; [done|]. by rewrite Hv5, Hv3, decide_True.
Qed.

Lemma meta_side_state side rel : meta (side_state_of side rel) = side_meta side rel.
Proof using Type. unfold side_state_of, side_meta. by destruct (side !! rel). Qed.

(** The action the planner chooses for its key, given the baseline [db]. *)
Definition planned (L R : gmap string SideState) (mode : SyncMode) (db : DB) (a : SyncAction) : Prop :=
  let rel := action_relpath a in
  a = decide_action rel (side_state_of L rel) (side_state_of R rel) (bs_view db rel) mode.

Lemma planned_fact L R mode db a :
  planned L R mode db a ->
  action_fact (action_relpath a) (side_state_of L (action_relpath a))
    (side_state_of R (action_relpath a)) (bs_view db (action_relpath a)) mode a.
Proof using Type. intros H. rewrite H at 5. apply decide_action_fact. Qed.

Lemma side_of_meta {L R : gmap string SideState} d rel :
  side_of d (meta (side_state_of L rel)) (meta (side_state_of R rel))
  = side_meta (side_of d L R) rel.
Proof using Type. destruct d; apply meta_side_state. Qed.

(** Neither side of the key, nor its baseline row, has changed. *)
Definition unmoved (pair : SyncPair) (k : string) (w w' : World DB) : Prop :=
  (forall d, w_files w' !! cpath pair d k = w_files w !! cpath pair d k) /\
  bs_view (w_db w') k = bs_view (w_db w) k.

Lemma unmoved_same pair k (w w' : World DB) :
  w_files w' = w_files w -> w_db w' = w_db w -> unmoved pair k w w'.
Proof using Type. intros Hf Hd. split; [intros d|]; by rewrite ?Hf, ?Hd. Qed.

Lemma unmoved_trans pair k (w1 w2 w3 : World DB) :
  unmoved pair k w1 w2 -> unmoved pair k w2 w3 -> unmoved pair k w1 w3.
Proof using Type. intros [H1 H2] [H3 H4]. split; [intros d; by rewrite H3|by rewrite H4]. Qed.

(** A settled key is planned as [Noop], and executing that writes nothing. *)
Lemma settled_planned pair L R mode (w : World DB) a :
  let rel := action_relpath a in
  seen pair L R w rel -> settled pair w rel -> planned L R mode (w_db w) a -> a = Noop rel.
Proof using Type.
  intros rel Hseen [Hc _] Hp. subst rel. unfold planned in Hp. rewrite Hp at 1. clear Hp.
  pose proof (Hseen LeftToRight) as HL. pose proof (Hseen RightToLeft) as HR. simpl in HL, HR.
  unfold decide_action. rewrite !meta_side_state, HL, HR.
  destruct (w_files w !! cpath pair LeftToRight (action_relpath a)) as [f|],
    (w_files w !! cpath pair RightToLeft (action_relpath a)) as [g|]; simplify_eq/=; [|done].
  by rewrite Hc, String.eqb_refl.
Qed.

Lemma wp_exec_noop_settled pair L R me rel x (w : World DB) :
  bs_ok (w_db w) -> seen pair L R w rel -> settled pair w rel ->
  wp (exec_noop L R me rel x) (fun _ w' => unmoved pair rel w w') w.
Proof using Type.
  intros Hok Hseen [Hc Hb].
  pose proof (Hseen LeftToRight) as HL. pose proof (Hseen RightToLeft) as HR. simpl in HL, HR.
  unfold exec_noop. rewrite HL, HR.
  destruct (w_files w !! cpath pair LeftToRight rel) as [f|],
    (w_files w !! cpath pair RightToLeft rel) as [g|]; simplify_eq/=.
  - rewrite Hc, String.eqb_refl. apply wp_bind, wp_db_get_file; [done| |].
    2: { intros w1 e (?&?&_) _. by apply unmoved_same. }
    intros w1 (?&?&_). unfold baseline_matches, matches_baseline in Hb.
    destruct (bs_view (w_db w) rel) as [b|]; [|done]. simpl in Hb.
    apply andb_true_iff in Hb as [E1%String.eqb_eq E2%Z.eqb_eq].
    change (blake3 (meta_of f)) with (hash (content f)).
    change (size (meta_of f)) with (file_len f).
    rewrite E1, E2, String.eqb_refl, Z.eqb_refl.
    apply wp_bind, wp_ret, wp_ret. by apply unmoved_same.
  - apply wp_bind, wp_db_get_file; [done| |]; rewrite ?Hb.
    + intros w1 (?&?&_). apply wp_ret. by apply unmoved_same.
    + intros w1 e (?&?&_) _. by apply unmoved_same.
Qed.

Lemma wp_exec_action_post pair L R me host a x mode (w : World DB) :
  Inj (=) (=) hash ->
  let rel := action_relpath a in
  roomy host w -> bs_ok (w_db w) -> seen pair L R w rel ->
  cpath pair LeftToRight rel <> cpath pair RightToLeft rel ->
  planned L R mode (w_db w) a ->
  wp (exec_action pair L R me host a x) (exec_post pair rel host mode w) w.
Proof using Type.
  intros Hinj rel Hroom Hok Hseen Hne Hplan%planned_fact. unfold rel in *. clear rel.
  assert (forall d, cpath pair d (action_relpath a) <> cpath pair (flip d) (action_relpath a)) as Hne'.
  { by intros []. }
  destruct a as [rel|rel d|rel d|rel win lo k]; cbn [exec_action action_relpath] in *;
    destruct Hplan as [_ Hfact].
  - apply wp_exec_noop; [done..|]. by rewrite <- !meta_side_state.
  - destruct Hfact as [Hsrc Hdst]. rewrite !side_of_meta in *. by apply wp_exec_copy.
  - destruct Hfact as (Hnone & _ & Hb). rewrite !side_of_meta in *.
    apply wp_exec_delete; [done..| |].
    + by eapply seen_none.
    + intros g Hg. by rewrite (seen_file _ _ _ _ _ _ _ Hseen Hg) in Hb.
  - destruct Hfact as [-> Hw]. rewrite side_of_meta in Hw. by apply wp_exec_conflict.
Qed.

(** The contract of an executed action. *)
Lemma wp_exec_action pair L R me host a x mode (w : World DB) :
  Inj (=) (=) hash ->
  let rel := action_relpath a in
  roomy host w -> bs_ok (w_db w) -> seen pair L R w rel ->
  cpath pair LeftToRight rel <> cpath pair RightToLeft rel ->
  planned L R mode (w_db w) a ->
  wp (exec_action pair L R me host a x)
     (fun r w' => exec_post pair rel host mode w r w' /\
                  (settled pair w rel -> unmoved pair rel w w')) w.
Proof using Type.
  intros Hinj rel Hroom Hok Hseen Hne Hplan. apply wp_and; [by apply wp_exec_action_post|].
  unfold wp. intros Hset. pose proof (settled_planned _ _ _ _ _ _ Hseen Hset Hplan) as E.
  rewrite E. cbn [exec_action]. by apply wp_exec_noop_settled.
Qed.
End engine.
