(* ===== verification/SyncRound.v ===== *)
(** * The whole round: the loop, the walk, the planner and [sync]

    [loop_post] lifts the contract of one action to the loop by induction;
    [wp_sync] composes the walks, the planner and the loop.  The theorems of
    this file are the guarantees of a reconciliation round. *)
From S2P Require Import Prelude.
From S2P Require Import Text.
From S2P Require Import Monad.
From S2P Require Import Files.
From S2P Require Import Control.
From S2P Require Import SyncTypes.
From S2P Require Import SyncPath.
From S2P Require Import SyncDb.
From S2P Require Import SyncDecide.
From S2P Require Import SyncEngine.
From S2P Require Import SyncWp.
From stdpp Require Import options.
Open Scope Z_scope.
#[local] Open Scope monad_scope.

Section engine.
Context {DB : Type} {ST : BaselineStore DB} {EN : SyncEnv} {CE : CopyEngine}.

(** ** The whole loop *)

(** The keys of a round name distinct files, and no preservation file can
    take the name of one of them. *)
Record separated (pair : SyncPair) (host : string) (keys : list string) : Prop := {
  sep_paths : forall d1 d2 r1 r2, r1 ∈ keys -> r2 ∈ keys ->
    cpath pair d1 r1 = cpath pair d2 r2 -> d1 = d2 /\ r1 = r2;
  sep_conflicts : forall d r n seq d' r', r ∈ keys -> r' ∈ keys ->
    conflict_path pair d r host n seq <> cpath pair d' r';
}.

Lemma files_step_size pair rel host w fs :
  files_step pair rel host w fs -> (base.size fs <= base.size (w_files w) + 3)%nat.
Proof using Type.
  intros (d & P & _ & Hfr & _).
  assert (dom fs ⊆ dom (w_files w) ∪ list_to_set (both pair rel ++ [P])) as Hsub.
  { intros p. rewrite elem_of_union, elem_of_list_to_set, !elem_of_dom.
    destruct (decide (p ∈ both pair rel ++ [P])) as [|Hp]; [by right|].
    rewrite Hfr by done. by left. }
  apply subseteq_size in Hsub. rewrite !size_dom in Hsub. etrans; [exact Hsub|].
  etrans; [apply size_union_list_le|]. by rewrite size_dom.
Qed.

(** Where the bytes of the file at [p] can be after a round on [rels]: where
    they were or, if [p] is a side of one of these keys, at a side of that key
    or in a preservation file of it. *)
Definition moves_to (pair : SyncPair) (host : string) (rels : list string) (p p' : path) : Prop :=
  p' = p \/ exists rel, rel ∈ rels /\ p ∈ both pair rel /\
    (p' ∈ both pair rel \/ exists d n seq, p' = conflict_path pair d rel host n seq).

Lemma moves_to_mono pair host rels rels' p p' :
  (forall r, r ∈ rels -> r ∈ rels') -> moves_to pair host rels p p' -> moves_to pair host rels' p p'.
Proof using Type. intros Hsub [?|(r & ? & ? & ?)]; [by left|]. right. exists r. auto. Qed.

(** What is left of a file of [w] in [w']: its bytes are at such a place, or it
    was the last-synced version of one of the keys [rels]. *)
Definition kept (pair : SyncPair) (host : string) (rels : list string) (w w' : World DB) : Prop :=
  forall p f, w_files w !! p = Some f ->
    (exists p' g, moves_to pair host rels p p' /\ w_files w' !! p' = Some g /\ content g = content f) \/
    (exists rel, rel ∈ rels /\ p ∈ both pair rel /\
       baseline_matches f (bs_view (w_db w) rel) = true).

(** What a run of actions on [rels] leaves alone, given the keys of the round. *)
Definition frame (pair : SyncPair) (keys rels : list string) (w w' : World DB) : Prop :=
  (forall p f, (forall r, r ∈ rels -> p ∉ both pair r) -> w_files w !! p = Some f ->
     w_files w' !! p = Some f) /\
  (forall d k, k ∈ keys -> k ∉ rels -> w_files w' !! cpath pair d k = w_files w !! cpath pair d k) /\
  (forall k, k ∉ rels -> bs_view (w_db w') k = bs_view (w_db w) k).

(** The settled keys among [rels] stay as they are. *)
Definition calm (pair : SyncPair) (rels : list string) (w w' : World DB) : Prop :=
  forall k, k ∈ rels -> settled pair w k -> unmoved pair k w w'.

Definition loop_post (pair : SyncPair) (host : string) (keys : list string) (mode : SyncMode)
    (actions : list SyncAction) (w : World DB) (r : result Exn (Exec * bool)) (w' : World DB) : Prop :=
  let rels := action_relpath <$> actions in
  kept pair host rels w w' /\ frame pair keys rels w w' /\ bs_ok (w_db w') /\
  calm pair rels w w' /\
  match r with
  | Ok (_, false) => mode = TwoWay -> forall k, k ∈ rels -> settled pair w' k
  | Ok (_, true) => w_ctrl w <> []
  | Err (Failed _) => ~ (NoFaults /\ w_ctrl w = [] /\ Forall (key_ok pair) rels)
  | Err Panicked => False
  end.

Lemma step_cpath pair keys host rel (w w' : World DB) d k :
  separated pair host keys -> rel ∈ keys -> step_ok pair rel host w w' ->
  k ∈ keys -> k <> rel -> w_files w' !! cpath pair d k = w_files w !! cpath pair d k.
Proof using Type.
  intros Hsep Hrel (_&_&_&(d'&P&[_ (n&seq&->)]&Hfr&_)) Hk Hne. apply Hfr.
  unfold both. simpl. rewrite !not_elem_of_cons.
  split_and!; try apply not_elem_of_nil.
  - intros E. apply (sep_paths _ _ _ Hsep) in E as [_ ?]; done.
  - intros E. apply (sep_paths _ _ _ Hsep) in E as [_ ?]; done.
  - intros E. symmetry in E. by apply (sep_conflicts _ _ _ Hsep) in E.
Qed.

Lemma settled_ext pair (w w' : World DB) k :
  (forall d, w_files w' !! cpath pair d k = w_files w !! cpath pair d k) ->
  bs_view (w_db w') k = bs_view (w_db w) k -> settled pair w k -> settled pair w' k.
Proof using Type. intros Hf Hv. unfold settled. by rewrite !Hf, Hv. Qed.

Lemma kept_step pair keys host rel rels (w w1 w' : World DB) :
  separated pair host keys -> rel ∈ keys -> (forall r, r ∈ rels -> r ∈ keys) -> rel ∉ rels ->
  step_ok pair rel host w w1 -> kept pair host rels w1 w' -> kept pair host (rel :: rels) w w'.
Proof using Type.
  intros Hsep Hrel Hrels Hnot (_&_&Hview&(d&P&[HP (n&seq&->)]&Hfr&Hk1)) Hk p f Hf.
  destruct (decide (p ∈ both pair rel)) as [Hin|Hout].
  2: { assert (w_files w1 !! p = Some f) as Hf1.
       { rewrite Hfr; [done|]. rewrite not_elem_of_app, list_elem_of_singleton. split; [done|congruence]. }
       destruct (Hk p f Hf1) as [(p' & g & Hm & Hg)|(r & Hr & Hpr & Hb)].
       - left. exists p', g. split; [|done]. eapply moves_to_mono; [|done]. intros; by right.
       - right. exists r. assert (r <> rel) as Hne by (by intros ->).
         rewrite Hview in Hb by done. split_and!; [by right|done..]. }
  destruct (Hk1 p f Hf) as [(p1 & g & Hp1 & Hg & Hcont)|[Hp Hb]].
  2: { right. exists rel. split_and!; [left|done..]. }
  assert (p1 ∈ both pair rel \/ p1 = conflict_path pair d rel host n seq) as Hp1'.
  { destruct Hp1 as [->|[?| ->%list_elem_of_singleton]%elem_of_app]; auto. }
  assert (forall r, r ∈ rels -> p1 ∉ both pair r) as Hno.
  { intros r Hr Hpr. assert (r <> rel) as Hne by (by intros ->).
    assert (exists d', p1 = cpath pair d' r) as [d' ->].
    { unfold both in Hpr. rewrite !elem_of_cons in Hpr. destruct Hpr as [E|[E|E]]; [eauto..|by apply elem_of_nil in E]. }
    unfold both in Hp1'. rewrite !elem_of_cons in Hp1'. destruct Hp1' as [[E|[E|E]]|E].
    - apply (sep_paths _ _ _ Hsep) in E as [_ ?]; [done|auto..].
    - apply (sep_paths _ _ _ Hsep) in E as [_ ?]; [done|auto..].
    - by apply elem_of_nil in E.
    - symmetry in E. apply (sep_conflicts _ _ _ Hsep) in E; [done|auto..]. }
  destruct (Hk p1 g Hg) as [(p2 & h & [->|(r & Hr & Hpr & _)] & Hh & Hcont2)|(r & Hr & Hpr & _)].
  - left. exists p1, h. split; [|split; [done|congruence]]. right. exists rel. split; [left|]. split; [done|].
    destruct Hp1' as [?|E]; [by left|right; eauto].
  - by destruct (Hno r Hr).
  - by destruct (Hno r Hr).
Qed.

Lemma frame_step pair keys host rel rels (w w1 w' : World DB) :
  separated pair host keys -> rel ∈ keys -> step_ok pair rel host w w1 ->
  frame pair keys rels w1 w' -> frame pair keys (rel :: rels) w w'.
Proof using Type.
  intros Hsep Hrel Hstep (F1 & F2 & F3). pose proof Hstep as (_&_&Hview&(d&P&[HP _]&Hfr&_)).
  split_and!.
  - intros p f Hp Hf. apply F1; [intros r Hr; apply Hp; by right|]. rewrite Hfr; [done|].
    rewrite not_elem_of_app, list_elem_of_singleton. split; [apply Hp; left|congruence].
  - intros d' k Hk Hnk. rewrite not_elem_of_cons in Hnk. destruct Hnk.
    rewrite F2 by done. by apply (step_cpath pair keys host rel).
  - intros k Hnk. rewrite not_elem_of_cons in Hnk. destruct Hnk. rewrite F3; auto.
Qed.

Lemma kept_refl pair host rels (w w' : World DB) : w_files w' = w_files w -> kept pair host rels w w'.
Proof using Type. intros E p f Hf. left. exists p, f. rewrite E. split; [by left|done]. Qed.

Lemma kept_mono pair host rels rels' (w w' : World DB) :
  (forall r, r ∈ rels -> r ∈ rels') -> kept pair host rels w w' -> kept pair host rels' w w'.
Proof using Type.
  intros Hsub H p f Hf. destruct (H p f Hf) as [(p' & g & Hm & ?)|(r&?&?)].
  - left. exists p', g. split; [by eapply moves_to_mono|done].
  - right. exists r. auto.
Qed.

Lemma kept_core pair host rels (w w1 w' : World DB) :
  w_files w1 = w_files w -> w_db w1 = w_db w -> kept pair host rels w1 w' -> kept pair host rels w w'.
Proof using Type. intros Hf Hd. unfold kept. by rewrite Hf, Hd. Qed.

Lemma frame_refl pair keys rels (w w' : World DB) :
  w_files w' = w_files w -> w_db w' = w_db w -> frame pair keys rels w w'.
Proof using Type. intros E E'. unfold frame. rewrite E, E'. split_and!; auto. Qed.

Lemma wp_wait_while_paused Q (w : World DB) :
  (forall w', w_files w' = w_files w -> w_db w' = w_db w -> (w_ctrl w = [] -> w_ctrl w' = []) ->
     Q (Ok tt) w') ->
  (forall w', w_files w' = w_files w -> w_db w' = w_db w -> w_ctrl w <> [] ->
     Q (Err (Failed Cancelled)) w') ->
  wp wait_while_paused Q w.
Proof using Type.
  intros H1 H2. unfold wp, wait_while_paused. destruct (wait_list (w_ctrl w)) as [go rest] eqn:E.
  destruct go; simpl.
  - apply H1; [done..|]. simpl. intros Hw. rewrite Hw in E. simpl in E. congruence.
  - apply H2; [done..|]. intros Hw. by rewrite Hw in E.
Qed.

Lemma wp_is_cancelled Q (w : World DB) :
  (forall w', w_files w' = w_files w -> w_db w' = w_db w -> (w_ctrl w = [] -> w_ctrl w' = []) ->
     Q (Ok false) w') ->
  (w_ctrl w <> [] -> Q (Ok true) w) ->
  wp is_cancelled Q w.
Proof using Type.
  intros H1 H2. unfold wp, is_cancelled. destruct (w_ctrl w) as [|[] r] eqn:E; simpl.
  - by apply H1.
  - by apply H1.
  - by apply H1.
  - by apply H2.
Qed.

Lemma calm_refl pair rels (w w' : World DB) :
  w_files w' = w_files w -> w_db w' = w_db w -> calm pair rels w w'.
Proof using Type. intros Hf Hd k _ _. by apply unmoved_same. Qed.

Lemma calm_step pair keys host rel rels (w w1 w' : World DB) :
  separated pair host keys -> rel ∈ keys -> (forall r, r ∈ rels -> r ∈ keys) -> rel ∉ rels ->
  step_ok pair rel host w w1 -> (settled pair w rel -> unmoved pair rel w w1) ->
  frame pair keys rels w1 w' -> calm pair rels w1 w' -> calm pair (rel :: rels) w w'.
Proof using Type.
  intros Hsep Hrel Hrels Hnot Hstep Hun (_&F2&F3) Hcalm k [->|Hk]%elem_of_cons Hset.
  - eapply unmoved_trans; [by apply Hun|]. split; [intros d; by apply F2|by apply F3].
  - assert (unmoved pair k w w1) as [U1 U2].
    { pose proof Hstep as (_&_&Hv&_). assert (k <> rel) by (by intros ->).
      split; [intros d; eapply step_cpath; eauto|by apply Hv]. }
    eapply unmoved_trans; [by split|]. apply Hcalm; [done|]. by eapply settled_ext.
Qed.

Lemma frame_roomy pair host rel w w' n :
  step_ok pair rel host w w' -> roomy host w ->
  (base.size (w_files w) + 3 * S n < N.to_nat MAX_SEQ)%nat ->
  (base.size (w_files w') + 3 * n < N.to_nat MAX_SEQ)%nat.
Proof using Type. intros (_&_&_&Hf%files_step_size) _ H. lia. Qed.

(** What the loop needs of the actions still to run. *)
Definition ready (pair : SyncPair) (L R : gmap string SideState) (mode : SyncMode) (w : World DB)
    (a : SyncAction) : Prop :=
  seen pair L R w (action_relpath a) /\ planned L R mode (w_db w) a.

Lemma ready_step pair L R mode keys host rel (w w' : World DB) a :
  separated pair host keys -> rel ∈ keys -> step_ok pair rel host w w' ->
  action_relpath a ∈ keys -> action_relpath a <> rel ->
  ready pair L R mode w a -> ready pair L R mode w' a.
Proof using Type.
  intros Hsep Hrel Hstep Ha Hne [Hseen Hplan]. split.
  - intros d. rewrite (step_cpath pair keys host rel w w') by done. apply Hseen.
  - unfold planned. destruct Hstep as (_&_&Hv&_). by rewrite Hv.
Qed.

Lemma ready_core pair L R mode (w w' : World DB) a :
  w_files w' = w_files w -> w_db w' = w_db w -> ready pair L R mode w a -> ready pair L R mode w' a.
Proof using Type. intros Hf Hd [H1 H2]. unfold ready, seen, planned. by rewrite Hf, Hd. Qed.

Lemma loop_post_core pair host keys mode actions (w0 w : World DB) r (w' : World DB) :
  w_files w = w_files w0 -> w_db w = w_db w0 -> (w_ctrl w0 = [] -> w_ctrl w = []) ->
  loop_post pair host keys mode actions w r w' -> loop_post pair host keys mode actions w0 r w'.
Proof using Type.
  intros Hf Hd Hc (H1 & H2 & H3 & Hcalm & H4). split_and!; [| |done| |].
  - by eapply kept_core.
  - unfold frame in *. by rewrite <- Hf, <- Hd.
  - unfold calm, settled, unmoved in *. by rewrite <- Hf, <- Hd.
  - destruct r as [[? []]|[e|]]; [|done| |done].
    + intros H. apply H4. auto.
    + intros (?&?&?). apply H4. auto.
Qed.

Lemma sep_ne pair host keys r :
  separated pair host keys -> r ∈ keys -> cpath pair LeftToRight r <> cpath pair RightToLeft r.
Proof using Type. intros H Hr E. by apply (sep_paths _ _ _ H) in E as [? _]. Qed.

Lemma wp_exec_loop pair L R me host mode keys actions : forall x w,
  Inj (=) (=) hash -> separated pair host keys ->
  contains_char slash host = false -> (forall n, contains_char slash (stamp n) = false) ->
  NoDup (action_relpath <$> actions) -> (forall a, a ∈ actions -> action_relpath a ∈ keys) ->
  (base.size (w_files w) + 3 * length actions < N.to_nat MAX_SEQ)%nat ->
  bs_ok (w_db w) -> (forall a, a ∈ actions -> ready pair L R mode w a) ->
  wp (exec_loop pair L R me host actions x) (loop_post pair host keys mode actions w) w.
Proof using Type.
  induction actions as [|a rest IH]; intros x w Hinj Hsep Hh Hst Hnd Hkeys Hsz Hok Hready.
  { apply wp_ret. split_and!; [by apply kept_refl|by apply frame_refl|done|by apply calm_refl|].
    intros _ k Hk. by apply elem_of_nil in Hk. }
  cbn [exec_loop]. cbn [fmap list_fmap] in Hnd. apply NoDup_cons in Hnd as [Hnot Hnd].
  set (rel := action_relpath a) in *.
  assert (rel ∈ keys) as Hrel by (apply Hkeys; left).
  apply wp_bind, wp_wait_while_paused.
  2: { intros w1 Hf Hd Hc. split_and!; [by apply kept_refl|by apply frame_refl|by rewrite Hd|by apply calm_refl|].
       by intros (_&?&_). }
  intros w1 Hf1 Hd1 Hc1. apply wp_bind, wp_is_cancelled.
  2: { intros Hc. apply wp_ret. split_and!; [by apply kept_refl|by apply frame_refl|by rewrite Hd1|by apply calm_refl|].
       simpl. auto. }
  intros w2 Hf2 Hd2 Hc2. apply wp_bind, wp_emit. intros w3 (Hf3 & Hd3 & Hc3).
  assert (w_files w3 = w_files w) as Hf by congruence.
  assert (w_db w3 = w_db w) as Hd by congruence.
  assert (w_ctrl w = [] -> w_ctrl w3 = []) as Hc by (rewrite Hc3; auto).
  apply wp_mono with (Q := loop_post pair host keys mode (a :: rest) w3);
    [|intros r w'; by apply loop_post_core].
  clear w1 w2 Hf1 Hf2 Hf3 Hd1 Hd2 Hd3 Hc1 Hc2 Hc3 Hc.
  assert (forall b, b ∈ a :: rest -> ready pair L R mode w3 b) as Hready3.
  { intros b Hb. eapply ready_core; eauto. }
  rewrite <- Hd in Hok. rewrite <- Hf in Hsz. clear Hf Hd Hready. rename w3 into w0.
  assert (roomy host w0) as Hroom.
  { split_and!; [done|done|]. cbn [length] in Hsz. lia. }
  destruct (Hready3 a) as [Hseen Hplan]; [left|].
  apply wp_bind. eapply wp_mono.
  { apply wp_exec_action; eauto. by eapply sep_ne. }
  intros r w1 [[Hstep Hr] Hun]. fold rel in Hstep, Hun. destruct r as [x'|e].
  - apply wp_bind, wp_emit. intros w2 (Hf2&Hd2&Hc2).
    assert (step_ok pair rel host w0 w2) as Hstep2.
    { destruct Hstep as (S1&S2&S3&S4). split_and!; rewrite ?Hf2, ?Hd2, ?Hc2; auto. }
    eapply wp_mono.
    { apply IH; [done..| | | |].
      - intros b Hb. apply Hkeys. by right.
      - eapply frame_roomy; eauto.
      - by destruct Hstep2 as (_&?&_).
      - intros b Hb. apply (ready_step pair L R mode keys host rel w0 w2); [done..| | |].
        + apply Hkeys. by right.
        + intros E. apply Hnot. rewrite <- E. by apply list_elem_of_fmap_2.
        + apply Hready3. by right. }
    intros r w' (K & F & O & C & P). unfold loop_post. cbn [fmap list_fmap].
    assert (forall r', r' ∈ action_relpath <$> rest -> r' ∈ keys) as Hin.
    { intros r' (b & -> & Hb)%list_elem_of_fmap. apply Hkeys. by right. }
    split_and!.
    + by apply (kept_step pair keys host rel _ w0 w2).
    + by apply (frame_step pair keys host rel _ w0 w2).
    + done.
    + apply (calm_step pair keys host rel _ w0 w2); try done.
      intros [U1 U2]%Hun. split; [intros d|]; by rewrite ?Hf2, ?Hd2.
    + destruct r as [[x2 []]|[e|]]; [| | |done].
      * destruct Hstep2 as (Hctl&_). congruence.
      * intros Hm k [->|Hk]%elem_of_cons; [|by apply P].
        destruct F as (_ & F2 & F3). apply (settled_ext pair w2); auto.
        apply (settled_ext pair w1); [intros; by rewrite Hf2|by rewrite Hd2|auto].
      * intros (HN & Hctl & [_ Hsafe]%Forall_cons). apply P. split_and!; [done| |done].
        destruct Hstep2 as (Hctl2&_). congruence.
  - destruct e as [e|]; [|done].
    assert (kept pair host [rel] w0 w1) as HK.
    { apply (kept_step pair keys host rel [] w0 w1 w1); try done.
      - intros r' Hr'. by apply elem_of_nil in Hr'.
      - by apply not_elem_of_nil.
      - by apply kept_refl. }
    assert (frame pair keys [rel] w0 w1) as HF.
    { apply (frame_step pair keys host rel [] w0 w1 w1); [done..|]. by apply frame_refl. }
    assert (calm pair (rel :: (action_relpath <$> rest)) w0 w1) as HC.
    { apply (calm_step pair keys host rel _ w0 w1 w1);
        [done|done| |done|done|done|by apply frame_refl|by apply calm_refl].
      intros r' (b & -> & Hb)%list_elem_of_fmap. apply Hkeys. by right. }
    split_and!.
    + eapply kept_mono; [|exact HK]. intros r' ->%list_elem_of_singleton. left.
    + destruct HF as (F1 & F2 & F3). split_and!.
      * intros p f Hp. apply F1. intros r' ->%list_elem_of_singleton. apply Hp. left.
      * intros d k Hk Hnk. apply F2; [done|]. rewrite list_elem_of_singleton. intros ->. apply Hnk. left.
      * intros k Hnk. apply F3. rewrite list_elem_of_singleton. intros ->. apply Hnk. left.
    + by destruct Hstep as (_&?&_).
    + done.
    + intros (HN & _ & [Hs _]%Forall_cons). by apply Hr.
Qed.

(** ** The walk and the planner *)

Lemma strip_root_Some root p rel : strip_root root p = Some rel <-> p = root ++ rel.
Proof using Type.
  revert p. induction root as [|a root IH]; intros p; simpl.
  - split; [by intros [= ->]|by intros ->].
  - destruct p as [|b p]; [by split|]. destruct (String.eqb_spec a b) as [->|Hne].
    + rewrite IH. split; [by intros ->|by intros [= ->]].
    + split; [done|]. congruence.
Qed.

Definition skipped (skip : list string) (rel : path) : Prop := default "" (last rel) ∈ skip.

(** The files of a tree carry real names below [root]. *)
Definition tidy (root : path) (fs : FileTree) : Prop :=
  forall p f rel, fs !! p = Some f -> p = root ++ rel -> Forall plain_segment rel.

(** [out] records exactly the entries [l] of the tree [fs] below [root]. *)
Definition scanned (root : path) (skip : list string) (fs : FileTree) (l : list (path * File))
    (out : gmap string SideState) : Prop :=
  (forall k ss, out !! k = Some ss -> exists rel f, fs !! (root ++ rel) = Some f /\
     ~ skipped skip rel /\ k = normalize_relpath rel /\ meta ss = Some (meta_of f)) /\
  (forall rel f, (root ++ rel, f) ∈ l -> ~ skipped skip rel ->
     exists ss, out !! normalize_relpath rel = Some ss).

Lemma wp_scan_entry root skip e out Q (w : World DB) :
  w_files w !! fst e = Some (snd e) ->
  (forall w' out', same_core w w' ->
     match strip_root root (fst e) with
     | Some rel => ~ skipped skip rel /\
         out' = <[normalize_relpath rel := {| ss_relpath := normalize_relpath rel;
                                              meta := Some (meta_of (snd e)) |}]> out
         \/ skipped skip rel /\ out' = out
     | None => out' = out
     end -> Q (Ok out') w') ->
  (forall w' er, same_core w w' -> ~ NoFaults -> Q (Err (Failed er)) w') ->
  wp (scan_entry root skip e out) Q w.
Proof using Type.
  intros He H1 H2. unfold scan_entry. destruct (strip_root root (fst e)) as [rel|] eqn:Es.
  2: { by apply wp_ret, H1. }
  apply wp_bind, wp_fallible; [|eauto]. intros w1 Hc1.
  case_bool_decide as Hskip; [apply wp_ret, H1; auto|].
  apply wp_bind. unfold read_file_meta. apply wp_bind, wp_fallible.
  - intros w2 Hc2. apply wp_bind, wp_get_files. assert (same_core w w2) as Hc by (by etrans).
    pose proof Hc as (Hf&_&_). rewrite Hf, He. apply wp_ret, wp_ret, H1; [done|]. auto.
  - intros w2 Hc2 HN. apply H2; [by etrans|done].
Qed.

Lemma scanned_step root skip fs l e out out' :
  tidy root fs -> fs !! fst e = Some (snd e) -> scanned root skip fs l out ->
  match strip_root root (fst e) with
  | Some rel => ~ skipped skip rel /\
      out' = <[normalize_relpath rel := {| ss_relpath := normalize_relpath rel;
                                           meta := Some (meta_of (snd e)) |}]> out
      \/ skipped skip rel /\ out' = out
  | None => out' = out
  end -> scanned root skip fs (e :: l) out'.
Proof using Type.
  intros Htidy He [H1 H2] Hout. destruct e as [p f]. simpl in *.
  destruct (strip_root root p) as [rel|] eqn:Es.
  - apply strip_root_Some in Es as ->. destruct Hout as [[Hns ->]|[Hs ->]].
    + split.
      * intros k ss Hk. destruct (decide (k = normalize_relpath rel)) as [->|Hne].
        { rewrite lookup_insert_eq in Hk. simplify_eq/=. eauto 10. }
        rewrite lookup_insert_ne in Hk by done. eauto.
      * intros rel' f' Hin Hns'. destruct (decide (normalize_relpath rel' = normalize_relpath rel)) as [->|Hne].
        { rewrite lookup_insert_eq. eauto. }
        rewrite lookup_insert_ne by done. apply elem_of_cons in Hin as [[= E _]|Hin]; [|eauto].
        apply app_inv_head in E as ->. done.
    + split; [done|]. intros rel' f' [[= E _]|Hin]%elem_of_cons Hns'; [|eauto].
      by apply app_inv_head in E as ->.
  - subst out'. split; [done|]. intros rel' f' [[= <- _]|Hin]%elem_of_cons Hns'; [|eauto].
    assert (strip_root root (root ++ rel') = Some rel') by (by apply strip_root_Some). congruence.
Qed.

Lemma wp_mfold_scan root skip fs l : forall done_ out (w : World DB),
  tidy root fs -> w_files w = fs -> (forall e, e ∈ l -> fs !! fst e = Some (snd e)) ->
  scanned root skip fs done_ out ->
  wp (mfold (scan_entry root skip) l out)
     (fun r w' => same_core w w' /\
        match r with
        | Ok out' => scanned root skip fs (rev l ++ done_) out'
        | Err (Failed _) => ~ NoFaults
        | Err Panicked => False
        end) w.
Proof using Type.
  induction l as [|e l IH]; intros done_ out w Htidy Hf Hl Hsc; [by apply wp_ret|].
  cbn [mfold]. apply wp_bind, wp_scan_entry; [rewrite Hf; apply Hl; left| |done].
  intros w1 out1 Hc1 Hout.
  assert (scanned root skip fs (e :: done_) out1) as Hsc1.
  { eapply scanned_step; eauto. apply Hl. left. }
  eapply wp_mono; [apply (IH (e :: done_)); [done| | |done]|].
  - destruct Hc1 as (?&_&_). congruence.
  - intros e' He'. apply Hl. by right.
  - intros r w' [Hc Hr]. split; [by etrans|]. cbn [rev]. by rewrite <- app_assoc.
Qed.

Definition root_ok (root : path) : Prop := root_exists root = true /\ root_is_dir root = true.

Lemma wp_scan_side root skip (w : World DB) :
  tidy root (w_files w) ->
  wp (scan_side root skip)
     (fun r w' => same_core w w' /\
        match r with
        | Ok out => scanned root skip (w_files w) (rev (map_to_list (w_files w)) ++ []) out
        | Err (Failed _) => ~ (NoFaults /\ root_ok root)
        | Err Panicked => False
        end) w.
Proof using Type.
  intros Htidy. unfold scan_side, root_ok.
  destruct (root_exists root); cbn [negb].
  2: { apply wp_throw. split; [done|]. by intros (_&?&_). }
  destruct (root_is_dir root); cbn [negb].
  2: { apply wp_throw. split; [done|]. by intros (_&_&?). }
  apply wp_bind, wp_get_files. eapply wp_mono.
  - apply (wp_mfold_scan root skip (w_files w) _ []); [done|done| |].
    + intros [p f] He. by apply elem_of_map_to_list in He.
    + split; [by intros k ss; rewrite lookup_empty|]. by intros rel f ?%elem_of_nil.
  - intros r w' [Hc Hr]. split; [done|]. destruct r as [?|[?|]]; [done| |done].
    by intros [? _].
Qed.

(** What a finished walk says of a key in normal form. *)
Lemma scanned_seen root skip fs out k :
  tidy root fs -> scanned root skip fs (rev (map_to_list fs) ++ []) out ->
  clean k -> ~ skipped skip (relpath_segments k) ->
  side_meta out k = meta_of <$> fs !! (root ++ relpath_segments k).
Proof using Type.
  intros Htidy [H1 H2] Hclean Hns. unfold side_meta.
  destruct (fs !! (root ++ relpath_segments k)) as [f|] eqn:Ef; simpl.
  - destruct (H2 (relpath_segments k) f) as [ss Hss]; [|done|].
    { rewrite app_nil_r, list_elem_of_In, <- in_rev, <- list_elem_of_In. by apply elem_of_map_to_list. }
    unfold clean in Hclean. rewrite Hclean in Hss. rewrite Hss. simpl.
    destruct (H1 _ _ Hss) as (rel & g & Hg & _ & Hk & Hm). rewrite Hm.
    rewrite Hk, segments_of_normalized in Ef by eauto. congruence.
  - destruct (out !! k) as [ss|] eqn:Ess; [|done]. exfalso.
    destruct (H1 _ _ Ess) as (rel & g & Hg & _ & -> & Hm).
    rewrite segments_of_normalized in Ef by eauto. congruence.
Qed.

Lemma wp_plan_loop L R mode relpaths : forall w,
  bs_ok (w_db w) ->
  wp (plan_loop L R mode relpaths)
     (fun r w' => w_files w' = w_files w /\ w_db w' = w_db w /\ (w_ctrl w = [] -> w_ctrl w' = []) /\
        match r with
        | Ok actions => action_relpath <$> actions = relpaths /\
            forall a, a ∈ actions -> planned L R mode (w_db w) a
        | Err (Failed _) => ~ (NoFaults /\ w_ctrl w = [])
        | Err Panicked => False
        end) w.
Proof using Type.
  induction relpaths as [|rel rels IH]; intros w Hok; cbn [plan_loop].
  { apply wp_ret. split_and!; [done..|]. intros a ?%elem_of_nil. done. }
  apply wp_bind, wp_wait_while_paused.
  2: { intros w1 Hf Hd Hc. split_and!; [done|done|done|]. by intros [_ ?]. }
  intros w1 Hf1 Hd1 Hc1. apply wp_bind, wp_db_get_file; [congruence| |].
  2: { intros w2 e (?&?&Hc2) HN. split_and!; [congruence..| |by intros [? _]].
       intros Hw. rewrite Hc2. auto. }
  intros w2 (Hf2&Hd2&Hc2). apply wp_bind, wp_emit. intros w3 (Hf3&Hd3&Hc3).
  apply wp_bind. eapply wp_mono; [apply IH; congruence|].
  intros r w4 (Hf4&Hd4&Hc4&Hr). assert (w_ctrl w = [] -> w_ctrl w3 = []) as Hc.
  { intros Hw. rewrite Hc3, Hc2. auto. }
  destruct r as [acts|[e|]]; [apply wp_ret| |done];
    (split; [congruence|]; split; [congruence|]; split; [intros Hw; by apply Hc4, Hc|]).
  - destruct Hr as [Hrels Hpl]. pose proof (decide_action_fact rel (side_state_of L rel)
      (side_state_of R rel) (bs_view (w_db w1) rel) mode) as Hfact.
    assert (action_relpath (decide_action rel (side_state_of L rel) (side_state_of R rel)
              (bs_view (w_db w1) rel) mode) = rel) as Erel.
    { destruct (decide_action _ _ _ _ _); simpl in *; by destruct Hfact as [-> _]. }
    split; [by rewrite fmap_cons, Erel, Hrels|].
    intros a [->|Ha]%elem_of_cons.
    + unfold planned. by rewrite Erel, <- Hd1.
    + rewrite <- Hd1, <- Hd2, <- Hd3. by apply Hpl.
  - intros [HN Hw]. apply Hr. auto.
Qed.

(** ** One round *)

Definition SKIP : list string := [".freally-sync.db"].

(** The setting of a round: [K] holds every key that can come up.  Neither
    root lies inside the other, file names are real names, the rows of the
    baseline are keys the walker can produce, no key looks like the
    preservation file of another, and there is room for preservation files. *)
Record Deployed (pair : SyncPair) (host : string) (K : gset string) (w : World DB) : Prop := {
  dep_roots : forall a b, left pair ++ a <> right pair ++ b;
  dep_tidy : forall d, tidy (side_root pair d) (w_files w);
  dep_files : forall d rel f, w_files w !! (side_root pair d ++ rel) = Some f ->
    ~ skipped SKIP rel -> normalize_relpath rel ∈ K;
  dep_rows : forall k r, bs_view (w_db w) k = Some r -> k ∈ K;
  dep_clean : forall k, k ∈ K -> clean k /\ ~ skipped SKIP (relpath_segments k);
  dep_conflicts : forall d r n seq d' r', r ∈ K -> r' ∈ K ->
    conflict_path pair d r host n seq <> cpath pair d' r';
  dep_room : (base.size (w_files w) + 3 * base.size K < N.to_nat MAX_SEQ)%nat;
  dep_host : contains_char slash host = false;
  dep_stamp : forall n, contains_char slash (stamp n) = false;
  dep_db : bs_ok (w_db w);
}.

Lemma deployed_separated pair host K (w : World DB) :
  Deployed pair host K w -> separated pair host (elements K).
Proof using Type.
  intros D. split.
  - intros d1 d2 r1 r2 H1%elem_of_elements H2%elem_of_elements E.
    destruct (dep_clean _ _ _ _ D _ H1) as [C1 _], (dep_clean _ _ _ _ D _ H2) as [C2 _].
    unfold cpath in E. destruct d1, d2; simpl in E.
    + split; [done|]. apply app_inv_head in E. rewrite <- C1, <- C2. by rewrite E.
    + by apply (dep_roots _ _ _ _ D) in E.
    + symmetry in E. by apply (dep_roots _ _ _ _ D) in E.
    + split; [done|]. apply app_inv_head in E. rewrite <- C1, <- C2. by rewrite E.
  - intros d r n seq d' r' H1%elem_of_elements H2%elem_of_elements.
    by apply (dep_conflicts _ _ _ _ D).
Qed.

(** The world of a round as far as planning left it. *)
Definition still (w w' : World DB) : Prop :=
  w_files w' = w_files w /\ w_db w' = w_db w /\ (w_ctrl w = [] -> w_ctrl w' = []).

Lemma still_core (w w' : World DB) : same_core w w' -> still w w'.
Proof using Type. intros (?&?&Hc). split_and!; [done..|]. by rewrite Hc. Qed.

Lemma still_trans (w1 w2 w3 : World DB) : still w1 w2 -> still w2 w3 -> still w1 w3.
Proof using Type. intros (?&?&?) (?&?&?). split_and!; [congruence..|auto]. Qed.

(** Everything a failed round may have failed for. *)
Definition healthy (pair : SyncPair) (w : World DB) : Prop :=
  NoFaults /\ w_ctrl w = [] /\ root_ok (left pair) /\ root_ok (right pair).

Lemma wp_walk pair d (w : World DB) :
  tidy (side_root pair d) (w_files w) ->
  wp (walk (side_root pair d) d)
     (fun r w' => still w w' /\
        match r with
        | Ok out => scanned (side_root pair d) SKIP (w_files w)
                      (rev (map_to_list (w_files w)) ++ []) out
        | Err (Failed _) => ~ healthy pair w
        | Err Panicked => False
        end) w.
Proof using Type.
  intros Htidy. unfold walk. apply wp_bind, wp_wait_while_paused.
  2: { intros w1 Hf Hd Hc. split; [done|]. by intros (_&?&_). }
  intros w1 Hf1 Hd1 Hc1. apply wp_bind, wp_emit. intros w2 (Hf2&Hd2&Hc2).
  assert (w_files w2 = w_files w) as Hf by congruence.
  assert (still w w2) as Hst by (split_and!; [congruence..|rewrite Hc2; auto]).
  apply wp_bind. eapply wp_mono; [apply wp_scan_side; by rewrite Hf|].
  intros r w3 [Hc3 Hr]. assert (still w w3) as Hst3.
  { eapply still_trans; [exact Hst|]. by apply still_core. }
  destruct r as [out|[e|]]; [| |done].
  - apply wp_bind, wp_emit. intros w4 Hc4. apply wp_ret. rewrite Hf in Hr.
    split; [|done]. eapply still_trans; [exact Hst3|]. by apply still_core.
  - split; [done|]. intros (HN&_&Hl&Hr'). apply Hr. split; [done|]. by destruct d.
Qed.

Definition sync_post (pair : SyncPair) (mode : SyncMode) (opts : SyncOptions) (K : gset string)
    (w : World DB) (r : result Exn SyncReport) (w' : World DB) : Prop :=
  kept pair (host_of pair (bs_device_id (w_db w))) (elements K) w w' /\ frame pair (elements K) (elements K) w w' /\ bs_ok (w_db w') /\
  calm pair (elements K) w w' /\
  match r with
  | Ok rep =>
      if dry_run opts then w_files w' = w_files w /\ w_db w' = w_db w
      else if cancelled rep then w_ctrl w <> []
      else mode = TwoWay -> forall k, k ∈ K -> settled pair w' k
  | Err (Failed _) => ~ (healthy pair w /\ forall k, k ∈ K -> key_ok pair k)
  | Err Panicked => False
  end.

Lemma sync_post_err pair mode opts K (w : World DB) e (w' : World DB) :
  still w w' -> bs_ok (w_db w) -> ~ healthy pair w ->
  sync_post pair mode opts K w (Err (Failed e)) w'.
Proof using Type.
  intros (Hf&Hd&_) Hok HN.
  split_and!; [by apply kept_refl|by apply frame_refl|by rewrite Hd|by apply calm_refl|].
  by intros [? _].
Qed.

Lemma elem_of_universe L R rows k :
  k ∈ relpath_universe L R rows <-> k ∈ dom L \/ k ∈ dom R \/ exists r, (k, r) ∈ rows.
Proof using Type.
  unfold relpath_universe. rewrite merge_sort_Permutation, elem_of_elements, !elem_of_union,
    elem_of_list_to_set, list_elem_of_fmap. split.
  - intros [[?|?]|([k' r] & -> & ?)]; eauto.
  - intros [?|[?|(r & ?)]]; auto. right. by exists (k, r).
Qed.

Lemma universe_NoDup L R rows : NoDup (relpath_universe L R rows).
Proof using Type. unfold relpath_universe. rewrite merge_sort_Permutation. apply NoDup_elements. Qed.

Lemma nodup_length_le (l : list string) (K : gset string) :
  NoDup l -> (forall k, k ∈ l -> k ∈ K) -> (length l <= base.size K)%nat.
Proof using Type.
  intros Hnd Hsub. rewrite <- (size_list_to_set (C := gset string) l) by done.
  apply subseteq_size. intros k. rewrite elem_of_list_to_set. apply Hsub.
Qed.

(** The two walks and the rows, seen from the world they were taken in. *)
Record surveyed (pair : SyncPair) (w : World DB) (L R : gmap string SideState)
    (rows : list (string * FileRecord)) : Prop := {
  sv_sides : forall d, scanned (side_root pair d) SKIP (w_files w)
               (rev (map_to_list (w_files w)) ++ []) (side_of d L R);
  sv_rows : forall k r, (k, r) ∈ rows <-> bs_view (w_db w) k = Some r;
}.

Lemma surveyed_in_K pair host K (w : World DB) L R rows k :
  Deployed pair host K w -> surveyed pair w L R rows -> k ∈ relpath_universe L R rows -> k ∈ K.
Proof using Type.
  intros D S. rewrite elem_of_universe, !elem_of_dom.
  assert (forall d, is_Some (side_of d L R !! k) -> k ∈ K) as Hside.
  { intros d [ss Hss]. destruct (sv_sides _ _ _ _ _ S d) as [H1 _].
    destruct (H1 _ _ Hss) as (rel & f & Hf & Hns & -> & _). by eapply dep_files. }
  intros [H|[H|(r & Hr)]]; [by apply (Hside LeftToRight)|by apply (Hside RightToLeft)|].
  apply (sv_rows _ _ _ _ _ S) in Hr. by eapply dep_rows.
Qed.

Lemma surveyed_seen pair host K (w : World DB) L R rows k :
  Deployed pair host K w -> surveyed pair w L R rows -> k ∈ K -> seen pair L R w k.
Proof using Type.
  intros D S Hk d. destruct (dep_clean _ _ _ _ D k Hk) as [Hc Hs].
  eapply scanned_seen; [by eapply dep_tidy|apply (sv_sides _ _ _ _ _ S d)|done|done].
Qed.

(** A key of the setting the universe misses is absent everywhere. *)
Lemma surveyed_absent pair host K (w : World DB) L R rows k :
  Deployed pair host K w -> surveyed pair w L R rows -> k ∈ K ->
  k ∉ relpath_universe L R rows -> settled pair w k.
Proof using Type.
  intros D S Hk Hn. rewrite elem_of_universe, !elem_of_dom in Hn.
  pose proof (surveyed_seen _ _ _ _ _ _ _ _ D S Hk) as Hseen.
  assert (forall d, w_files w !! cpath pair d k = None) as Hnone.
  { intros d. eapply seen_none; [exact Hseen|]. unfold side_meta.
    destruct (side_of d L R !! k) eqn:E; [|done]. exfalso. apply Hn.
    destruct d; simpl in E; rewrite E; eauto. }
  unfold settled. rewrite !Hnone. split; [done|].
  destruct (bs_view (w_db w) k) as [r|] eqn:E; [|done]. exfalso. apply Hn.
  right. right. exists r. by apply (sv_rows _ _ _ _ _ S).
Qed.

Lemma frame_mono pair keys rels rels' (w w' : World DB) :
  (forall r, r ∈ rels -> r ∈ rels') -> frame pair keys rels w w' -> frame pair keys rels' w w'.
Proof using Type.
  intros Hsub (F1&F2&F3). split_and!.
  - intros p f Hp. apply F1. auto.
  - intros d k Hk Hn. apply F2; auto.
  - intros k Hn. apply F3. auto.
Qed.

(** The loop ran on the keys of the universe; the others it left alone. *)
Lemma calm_universe pair (K : gset string) rels (w w1 w' : World DB) :
  w_files w1 = w_files w -> w_db w1 = w_db w -> frame pair (elements K) rels w1 w' ->
  calm pair rels w1 w' -> calm pair (elements K) w w'.
Proof using Type.
  intros Hf Hd (_&F2&F3) Hc k Hk Hset. unfold calm, settled, unmoved in *.
  rewrite Hf, Hd in *. destruct (decide (k ∈ rels)); [by apply Hc|].
  split; [intros d; by apply F2|by apply F3].
Qed.

Lemma loop_post_sync pair K (w : World DB) L R rows mode opts actions x stop r (w1 w' : World DB)
    (host := host_of pair (bs_device_id (w_db w))) :
  Deployed pair host K w -> surveyed pair w L R rows -> still w w1 -> dry_run opts = false ->
  action_relpath <$> actions = relpath_universe L R rows ->
  loop_post pair host (elements K) mode actions w1 (Ok (x, stop)) w' -> cancelled r = stop ->
  sync_post pair mode opts K w (Ok r) w'.
Proof using Type.
  intros D S (Hf&Hd&Hc) Hdry Hrels (Hk&Hfr&Hok&Hcalm&Hres) Hstop. rewrite Hrels in *.
  assert (forall k, k ∈ relpath_universe L R rows -> k ∈ elements K) as Hsub.
  { intros k Hin. apply elem_of_elements. by eapply surveyed_in_K. }
  assert (kept pair host (elements K) w w') as Hk'.
  { eapply kept_core; [exact Hf|exact Hd|]. by eapply kept_mono. }
  assert (frame pair (elements K) (relpath_universe L R rows) w w') as Hfr'.
  { unfold frame in *. by rewrite <- Hf, <- Hd. }
  split_and!; [done|by eapply frame_mono|done|by eapply calm_universe|]. rewrite Hdry, Hstop. destruct stop.
  - intros Hw. apply Hres. auto.
  - intros Hm k HkK. destruct (decide (k ∈ relpath_universe L R rows)) as [Hin|Hnin]; [auto|].
    destruct Hfr' as (_&F2&F3). apply (settled_ext pair w).
    + intros d. apply F2; [by apply elem_of_elements|done].
    + by apply F3.
    + by eapply surveyed_absent.
Qed.

Lemma loop_post_sync_err pair K (w : World DB) L R rows mode opts actions e (w1 w' : World DB)
    (host := host_of pair (bs_device_id (w_db w))) :
  Deployed pair host K w -> surveyed pair w L R rows -> still w w1 ->
  action_relpath <$> actions = relpath_universe L R rows ->
  loop_post pair host (elements K) mode actions w1 (Err e) w' ->
  sync_post pair mode opts K w (Err e) w'.
Proof using Type.
  intros D S (Hf&Hd&Hc) Hrels (Hk&Hfr&Hok&Hcalm&Hres). rewrite Hrels in *.
  assert (forall k, k ∈ relpath_universe L R rows -> k ∈ elements K) as Hsub.
  { intros k Hin. apply elem_of_elements. by eapply surveyed_in_K. }
  split_and!; [|  |done|by eapply calm_universe|].
  - eapply kept_core; [exact Hf|exact Hd|]. by eapply kept_mono.
  - eapply frame_mono in Hfr; [|exact Hsub]. unfold frame in *. by rewrite <- Hf, <- Hd.
  - destruct e as [e|]; [|done]. intros [(HN&Hw&_&_) Hsafe]. apply Hres.
    split_and!; [done|auto|]. apply Forall_forall. intros k Hin. by apply Hsafe, elem_of_elements, Hsub.
Qed.

(** From the survey on: plan, then stop (dry run) or execute. *)
Lemma wp_sync_tail pair mode opts K (w w1 : World DB) start L R rows :
  Inj (=) (=) hash ->
  Deployed pair (host_of pair (bs_device_id (w_db w))) K w ->
  surveyed pair w L R rows -> still w w1 ->
  wp (let! actions := plan_loop L R mode (relpath_universe L R rows) in
      let! db := get_db in
      let me := bs_device_id db in
      let host := host_of pair me in
      if dry_run opts then
        let! now := ticks 1 in
        let r := set_elapsed report_default (elapsed start now) false in
        emit (Finished r) ;; ret r
      else
        let! (x, stop) := exec_loop pair L R me host actions
                             {| report := report_default; history_seq := 0 |} in
        let! now := ticks 1 in
        let r := set_elapsed (report x) (elapsed start now) stop in
        emit (Finished r) ;; ret r) (sync_post pair mode opts K w) w1.
Proof using Type.
  intros Hinj D S Hst. pose proof Hst as (Hf1&Hd1&_). apply wp_bind.
  assert (bs_ok (w_db w)) as Hok by (by eapply dep_db).
  eapply wp_mono; [apply wp_plan_loop; by rewrite Hd1|].
  intros r w2 (Hf2&Hd2&Hc2&Hr). assert (still w w2) as Hst2.
  { eapply still_trans; [exact Hst|]. by split_and!. }
  destruct r as [actions|[e|]]; [| |done].
  2: { apply sync_post_err; [done..|]. intros (HN&Hw&_&_). apply Hr.
       destruct Hst as (_&_&Hc). auto. }
  destruct Hr as [Hrels Hpl]. apply wp_bind, wp_get_db.
  destruct (dry_run opts) eqn:Hdry.
  - apply wp_bind, wp_ticks. intros w3 Hc3. apply wp_bind, wp_emit. intros w4 Hc4. apply wp_ret.
    assert (still w w4) as (Hf4&Hd4&_).
    { eapply still_trans; [exact Hst2|]. apply still_core. by etrans. }
    split_and!; [by apply kept_refl|by apply frame_refl|by rewrite Hd4|by apply calm_refl|].
    by rewrite Hdry.
  - rewrite Hd2, Hd1. apply wp_bind.
    pose proof Hst2 as (Hf2'&Hd2'&_).
    assert (forall a, a ∈ actions -> action_relpath a ∈ K) as HinK.
    { intros a Ha. eapply surveyed_in_K; [exact D|exact S|]. rewrite <- Hrels.
      by apply list_elem_of_fmap_2. }
    assert (length actions <= base.size K)%nat as Hlen.
    { rewrite <- (length_fmap action_relpath), Hrels. apply nodup_length_le.
      - apply universe_NoDup.
      - intros k Hk. by eapply surveyed_in_K. }
    eapply wp_mono.
    { apply (wp_exec_loop pair L R _ (host_of pair (bs_device_id (w_db w))) mode (elements K)).
      - done.
      - by eapply deployed_separated.
      - by eapply dep_host.
      - by eapply dep_stamp.
      - rewrite Hrels. apply universe_NoDup.
      - intros a Ha. by apply elem_of_elements, HinK.
      - pose proof (dep_room _ _ _ _ D). rewrite Hf2'. lia.
      - by rewrite Hd2'.
      - intros a Ha. apply (ready_core _ _ _ _ w); [done..|]. split.
        + eapply surveyed_seen; eauto.
        + rewrite <- Hd1. by apply Hpl. }
    intros r w3 Hpost. destruct r as [[x stop]|e].
    + apply wp_bind, wp_ticks. intros w4 (Hf4&Hd4&Hc4). apply wp_bind, wp_emit.
      intros w5 (Hf5&Hd5&Hc5). apply wp_ret.
      eapply (loop_post_sync _ _ w L R rows mode opts actions x stop); [done..| |done].
      destruct Hpost as (P1&P2&P3&P4&P5). unfold loop_post, kept, frame, calm, settled, unmoved in *.
      rewrite Hd5, Hd4, Hf5, Hf4. split_and!; try apply P2; done.
    + eapply loop_post_sync_err; eauto.
Qed.

Lemma wp_sync pair mode opts K (w : World DB) :
  Inj (=) (=) hash ->
  Deployed pair (host_of pair (bs_device_id (w_db w))) K w ->
  wp (sync pair mode opts) (sync_post pair mode opts K w) w.
Proof using Type.
  intros Hinj D. assert (bs_ok (w_db w)) as Hok by (by eapply dep_db).
  unfold sync. apply wp_bind, wp_ticks. intros w1 Hc1. apply wp_bind, wp_fallible.
  2: { intros w2 Hc2 HN. apply sync_post_err; [apply still_core; by etrans|done|]. by intros [? _]. }
  intros w2 Hc2. assert (still w w2) as Hst2 by (apply still_core; by etrans).
  pose proof Hst2 as (Hf2&_&Hctl2).
  assert (forall w', still w w' -> ~ healthy pair w' -> ~ healthy pair w) as Hheal.
  { intros w' (_&_&Hc) HN (?&?&?&?). apply HN. split_and!; auto. }
  apply wp_bind. eapply wp_mono.
  { apply (wp_walk pair LeftToRight). rewrite Hf2. by eapply dep_tidy. }
  intros r w3 [Hst3 Hr]. rewrite Hf2 in Hr. assert (still w w3) as Hst3' by (by eapply still_trans).
  destruct r as [L|[e|]]; [| |done].
  2: { apply sync_post_err; [done..|]. by apply (Hheal w2). }
  pose proof Hst3' as (Hf3&_&_). apply wp_bind. eapply wp_mono.
  { apply (wp_walk pair RightToLeft). rewrite Hf3. by eapply dep_tidy. }
  intros r w4 [Hst4 Hr']. rewrite Hf3 in Hr'. assert (still w w4) as Hst4' by (by eapply still_trans).
  destruct r as [R|[e|]]; [| |done].
  2: { apply sync_post_err; [done..|]. by apply (Hheal w3). }
  apply wp_bind. unfold db_all_files. apply wp_bind, wp_fallible.
  2: { intros w5 Hc5 HN. apply sync_post_err; [|done|by intros [? _]].
       eapply still_trans; [exact Hst4'|]. by apply still_core. }
  intros w5 Hc5. assert (still w w5) as Hst5.
  { eapply still_trans; [exact Hst4'|]. by apply still_core. }
  pose proof Hst5 as (_&Hd5&_).
  apply wp_bind, wp_get_db. destruct (bs_all_view (w_db w5)) as (rows & Hrows & Hview).
  { by rewrite Hd5. }
  rewrite Hrows. apply wp_ret. apply wp_sync_tail; [done..| |done].
  split; [by intros []|]. by rewrite <- Hd5.
Qed.
End engine.
