(* ===== verification/SyncSafety.v ===== *)
(** * What a reconciliation round guarantees

    The theorems of the sync engine, in terms of [sync] and the executors
    alone, and a small deployment on which every hypothesis holds. *)
From S2P Require Import Prelude.
From S2P Require Import Text.
From S2P Require Import Monad.
From S2P Require Import Files.
From S2P Require Import Table.
From S2P Require Import Control.
From S2P Require Import CopySafety.
From S2P Require Import CopyBridge.
From S2P Require Import SyncTypes.
From S2P Require Import SyncPath.
From S2P Require Import SyncDb.
From S2P Require Import SyncDecide.
From S2P Require Import SyncEngine.
From S2P Require Import SyncWp.
From S2P Require Import SyncRound.
From stdpp Require Import options.
Open Scope Z_scope.
#[local] Open Scope monad_scope.

Section engine.
Context {DB : Type} {ST : BaselineStore DB} {EN : SyncEnv} {CE : CopyEngine}.

(** ** Computations that only read *)

Definition reads {A} (m : M DB A) : Prop := forall w : World DB,
  w_files (snd (m w)) = w_files w /\ w_db (snd (m w)) = w_db w.

Lemma reads_bind {A B} (m : M DB A) (f : A -> M DB B) :
  reads m -> (forall a, reads (f a)) -> reads (bind m f).
Proof using Type.
  intros Hm Hf w. unfold bind. specialize (Hm w). destruct (m w) as [[a|e] w']; simpl in *; [|done].
  destruct (Hf a w') as [H1 H2], Hm. split; congruence.
Qed.

Lemma reads_fallible e : reads (fallible (DB := DB) e).
Proof using Type. intros w. unfold fallible, bind. simpl. by destruct (io_fault _). Qed.

Lemma reads_lift {A} (r : result SyncError A) : reads (lift (DB := DB) r).
Proof using Type. by destruct r. Qed.

Lemma reads_wait : reads (wait_while_paused (DB := DB)).
Proof using Type.
  intros w. unfold wait_while_paused. destruct (wait_list (w_ctrl w)) as [[] rest]; done.
Qed.

Lemma reads_mfold {A B} (f : A -> B -> M DB B) l : (forall a b, reads (f a b)) ->
  forall acc, reads (mfold f l acc).
Proof using Type. intros H. induction l; intros acc; cbn [mfold]; [done|]. by apply reads_bind. Qed.

Lemma reads_scan_entry root skip e out : reads (scan_entry (DB := DB) root skip e out).
Proof using Type.
  unfold scan_entry. destruct (strip_root _ _); [|done]. apply reads_bind; [apply reads_fallible|].
  intros []. case_bool_decide; [done|]. apply reads_bind; [|done].
  apply reads_bind; [apply reads_fallible|]. intros []. apply reads_bind; [done|].
  intros fs. by destruct (fs !! _).
Qed.

Lemma reads_walk root d : reads (walk (DB := DB) root d).
Proof using Type.
  unfold walk, scan_side. apply reads_bind; [apply reads_wait|]. intros [].
  apply reads_bind; [done|]. intros []. apply reads_bind.
  - destruct (negb _); [done|]. destruct (negb _); [done|]. apply reads_bind; [done|].
    intros fs. apply reads_mfold. intros. apply reads_scan_entry.
  - intros side. by apply reads_bind.
Qed.

Lemma reads_db_get rel : reads (db_get_file (DB := DB) rel).
Proof using Type.
  apply reads_bind; [apply reads_fallible|]. intros []. apply reads_bind; [done|].
  intros db. apply reads_lift.
Qed.

Lemma reads_plan_loop L R mode rels : reads (plan_loop (DB := DB) L R mode rels).
Proof using Type.
  induction rels; cbn [plan_loop]; [done|]. apply reads_bind; [apply reads_wait|]. intros [].
  apply reads_bind; [apply reads_db_get|]. intros b. apply reads_bind; [done|]. intros [].
  by apply reads_bind.
Qed.


(** C5: a two-way round converges.  With no I/O error, no cancel request,
    both roots in place and every key accepted by the path guards of the walk
    and of the copy engine, the round finishes, and then every key holds the same bytes on both sides, or is
    absent from both, and the baseline records exactly that. *)
Theorem sync_converges pair opts K (w : World DB) :
  Inj (=) (=) hash -> Deployed pair (host_of pair (bs_device_id (w_db w))) K w ->
  healthy pair w -> (forall k, k ∈ K -> key_ok pair k) -> dry_run opts = false ->
  exists rep w', sync pair TwoWay opts w = (Ok rep, w') /\ cancelled rep = false /\
    forall k, k ∈ K -> settled pair w' k.
Proof using Type.
  intros Hinj D Hh Hsafe Hdry.
  pose proof (wp_sync pair TwoWay opts K w Hinj D) as (_ & _ & _ & _ & Hr).
  destruct (sync pair TwoWay opts w) as [[rep|[e|]] w']; simpl in *.
  - rewrite Hdry in Hr. exists rep, w'. destruct (cancelled rep).
    + destruct Hh as (_&Hw&_). done.
    + auto.
  - destruct Hr. auto.
  - done.
Qed.

(** A converged key is left alone.  Whatever the mode, whatever fails and
    wherever the round stops, a key whose two sides and baseline row agree
    keeps both files and the row exactly as they are; so what one round
    settled, no later round disturbs. *)
Theorem sync_leaves_settled pair mode opts K (w : World DB) k :
  Inj (=) (=) hash -> Deployed pair (host_of pair (bs_device_id (w_db w))) K w ->
  k ∈ K -> settled pair w k ->
  let '(_, w') := sync pair mode opts w in
  (forall d, w_files w' !! cpath pair d k = w_files w !! cpath pair d k) /\
  bs_view (w_db w') k = bs_view (w_db w) k.
Proof using Type.
  intros Hinj D Hk Hset. pose proof (wp_sync pair mode opts K w Hinj D) as (_&_&_&Hcalm&_).
  destruct (sync pair mode opts w) as [r w']. apply Hcalm; [by apply elem_of_elements|done].
Qed.

(** A dry run only reads: the files and the database are as before,
    whether it finishes, fails or is cancelled. *)
Theorem sync_dry_run_reads pair mode opts (w : World DB) :
  dry_run opts = true ->
  w_files (snd (sync pair mode opts w)) = w_files w /\ w_db (snd (sync pair mode opts w)) = w_db w.
Proof using Type.
  intros Hdry. revert w. change (reads (sync (DB := DB) pair mode opts)). unfold sync.
  rewrite Hdry. apply reads_bind; [done|]. intros start.
  apply reads_bind; [apply reads_fallible|]. intros [].
  apply reads_bind; [apply reads_walk|]. intros L. apply reads_bind; [apply reads_walk|]. intros R.
  apply reads_bind.
  { apply reads_bind; [apply reads_fallible|]. intros []. apply reads_bind; [done|].
    intros db. apply reads_lift. }
  intros rows. apply reads_bind; [apply reads_plan_loop|]. intros acts. done.
Qed.

(** A source that came back between planning and execution: the destination
    is left alone.  If its bytes differ from the baseline the action becomes
    a conflict, whose recorded winner is the destination's side, not the
    side that holds the new bytes; otherwise the outcome is [Deleted]
    although nothing was removed. *)
Lemma apply_delete_recreated pair rel d b f (w : World DB) :
  NoFaults -> safe_key rel = true -> w_files w !! cpath pair d rel = Some f ->
  wp (apply_delete pair rel d b) (fun r w' => same_core w w' /\
    r = Ok (if match b with
               | Some x => negb (String.eqb (hash (content f)) (r_blake3 x))
                           || negb (file_len f =? r_size x)
               | None => true
               end
            then RaceAbortedAsConflict
                   {| c_relpath := rel; c_kind := DeleteEdit; c_winner := flip d; c_loser := d;
                      loser_preservation_path := cpath pair d rel |}
            else Deleted)) w.
Proof using Type.
  intros HN Hs Hf. unfold apply_delete.
  apply wp_unsafe_or; [intros _|congruence]. apply wp_unsafe_or; [intros _|congruence].
  fold (cpath pair d rel) (cpath pair (flip d) rel).
  apply wp_bind, wp_path_exists. rewrite Hf, bool_decide_eq_true_2 by done.
  assert (same_core w (snd (fallible (DB := DB) (Io (cpath pair d rel)) w))) as Hc.
  { unfold fallible, bind. simpl. by rewrite (HN (w_tick w)). }
  unfold wp, bind, try_, read_file_meta, fallible, bind, get_files in *. simpl in *.
  rewrite (HN (w_tick w)) in *. simpl in *. rewrite Hf. simpl.
  destruct b as [x|]; [destruct (_ || _)|]; (split; [done|]); simpl; by destruct d.
Qed.

(** The delete race.  When the source of a planned deletion is back at
    execution time, no file is touched: if its bytes differ from the baseline
    the action turns into a conflict, whose recorded winner is the
    destination's side; otherwise the deletion counts as done although
    nothing was removed. *)
Theorem delete_race_spares_destination pair rel d b f (w : World DB) :
  NoFaults -> safe_key rel = true -> w_files w !! cpath pair d rel = Some f ->
  let '(r, w') := apply_delete pair rel d b w in
  w_files w' = w_files w /\
  (baseline_matches f b = false -> exists c, r = Ok (RaceAbortedAsConflict c) /\ c_winner c = flip d) /\
  (baseline_matches f b = true -> r = Ok Deleted).
Proof using Type.
  intros HN Hs Hf. pose proof (apply_delete_recreated pair rel d b f w HN Hs Hf) as [(Hfs&_&_) Hr].
  destruct (apply_delete pair rel d b w) as [r w']. simpl in *. subst r. split; [done|].
  unfold baseline_matches, matches_baseline. simpl.
  destruct b as [x|]; [|by split; eauto].
  destruct (String.eqb _ _), (_ =? _); simpl; (split; [intros; eauto|intros; done]); done.
Qed.

(** One key the path guard refuses stops the round: the action fails
    with [UnsafeRelpath] and none of the actions after it is executed. *)
Theorem unsafe_key_aborts_loop pair L R me host rel d rest x (w : World DB) :
  safe_key rel = false -> w_ctrl w = [] ->
  let '(r, w') := exec_loop pair L R me host (Copy rel d :: rest) x w in
  r = Err (Failed (UnsafeRelpath rel)) /\ w_files w' = w_files w /\ w_db w' = w_db w.
Proof using Type.
  intros Hs Hw. cbn [exec_loop]. unfold bind at 1, wait_while_paused. rewrite Hw. simpl.
  unfold bind at 1. simpl. unfold bind at 1, is_cancelled. simpl.
  unfold bind at 1. simpl. unfold bind at 1. unfold exec_copy, apply_copy.
  unfold bind at 1. unfold bind at 1. rewrite join_relpath_eq, Hs. done.
Qed.
End engine.

(** ** A deployment

    Roots [/l] and [/r], one key the two sides edited differently, an empty
    baseline; the store is the real one over finite maps, the hash is the
    identity and the copies are the copy engine's, in a deployment without
    faults. *)
Module Demo.
#[export] Instance env : SyncEnv := {|
  io_fault _ := false;
  clock_ms n := Z.of_N n;
  stamp _ := "20260101-000000";
  hash := String.string_of_list_byte;
  root_exists _ := true;
  root_is_dir _ := true;
  uuid_text _ := "0123456789";
|}.

(** Every copy runs in the sound deployment of the copy engine. *)
#[export] Instance copier : CopyEngine :=
  sync_copier (fun _ => CopySafety.CopyDemo.sound) 1048576 true (fun _ _ _ => eq_refl) (fun _ => CopySafety.CopyDemo.b3_inj _ _ _)
    (fun _ _ _ => eq_refl).

(** Rows of the two kinds, told apart. *)
Definition row : Type := FileRecord + HistoryEntry.
#[export] Instance file_codec : Codec FileRecord row :=
  {| enc := inl; dec v := match v with inl a => Some a | inr _ => None end;
     dec_enc _ := eq_refl |}.
#[export] Instance history_codec : Codec HistoryEntry row :=
  {| enc := inr; dec v := match v with inr a => Some a | inl _ => None end;
     dec_enc _ := eq_refl |}.

Abbreviation store := (SyncDb (gmap string string) (gmap string row) (gmap (Z * Z) row)).
#[export] Instance store_ok : BaselineStore store := syncdb_store (J := row).

Definition pair : SyncPair := with_host_label (SyncPair_new "demo" ["l"] ["r"]) "nas".
Definition files : FileTree :=
  {[ ["l"; "a.txt"] := {| content := text "one"; f_mtime_ms := 1 |};
     ["r"; "a.txt"] := {| content := text "two"; f_mtime_ms := 2 |} ]}.
Definition w : World store :=
  {| w_files := files; w_db := open ∅ ∅ ∅ 7; w_tick := 0; w_ctrl := []; w_events := [] |}.
Definition K : gset string := {[ "a.txt" ]}.
(** The same pair after a round: both sides and the baseline agree. *)
Definition one : File := {| content := text "one"; f_mtime_ms := 1 |}.
Definition w_agreed : World store :=
  {| w_files := {[ ["l"; "a.txt"] := one; ["r"; "a.txt"] := one ]};
     w_db := bs_put_file (open ∅ ∅ ∅ 7) "a.txt" (record_of vv_new (meta_of one));
     w_tick := 0; w_ctrl := []; w_events := [] |}.

Lemma injective_hash : Inj (=) (=) (hash (SyncEnv := env)).
Proof.
  intros a b H. simpl in H. rewrite <- (String.list_byte_of_string_of_list_byte a), H.
  apply String.list_byte_of_string_of_list_byte.
Qed.

Definition only_a (fs : FileTree) : Prop :=
  forall p f, fs !! p = Some f -> p = ["l"; "a.txt"] \/ p = ["r"; "a.txt"].

Lemma only_a_pair f g : only_a {[ ["l"; "a.txt"] := f; ["r"; "a.txt"] := g ]}.
Proof.
  intros p h. destruct (decide (p = ["l"; "a.txt"])) as [->|]; [by left|].
  destruct (decide (p = ["r"; "a.txt"])) as [->|]; [by right|].
  by rewrite lookup_insert_ne, lookup_singleton_ne.
Qed.

Lemma only_a_below fs d rel f :
  only_a fs -> fs !! (side_root pair d ++ rel) = Some f -> rel = ["a.txt"].
Proof. intros H Hf. destruct (H _ _ Hf) as [E|E]; destruct d; simpl in E; by simplify_eq. Qed.

(** A conflict name of the key is not the key. *)
Lemma conflict_name_other d n seq d' :
  conflict_path pair d "a.txt" "nas" n seq <> cpath pair d' "a.txt".
Proof.
  unfold conflict_path. pose proof (conflict_name_plain (stamp n) "a.txt" "nas" seq eq_refl eq_refl)
    as [Hp Hne]. rewrite path_join_plain by done.
  intros E. apply (f_equal last) in E. rewrite last_snoc in E.
  apply (f_equal (fmap (String.get 2))) in E.
  destruct d', seq; lazy in E; discriminate E.
Qed.

Lemma deployed_on (v : World store) :
  only_a (w_files v) -> base.size (w_files v) = 2%nat ->
  (forall k r, bs_view (w_db v) k = Some r -> k = "a.txt") -> bs_ok (w_db v) ->
  Deployed pair (host_of pair (bs_device_id (w_db v))) K v.
Proof.
  intros Hfiles Hsize Hrows Hok. split; simpl.
  - done.
  - intros d p f rel Hf ->. apply only_a_below in Hf as ->; [|done]. by repeat constructor.
  - intros d rel f Hf _. apply only_a_below in Hf as ->; [|done]. vm_compute. set_solver.
  - intros k r ->%Hrows. by apply elem_of_singleton.
  - intros k ->%elem_of_singleton. split; [done|]. unfold skipped, SKIP.
    rewrite list_elem_of_singleton. intros E. vm_compute in E. discriminate E.
  - intros d r n seq d' r' ->%elem_of_singleton ->%elem_of_singleton. apply conflict_name_other.
  - rewrite Hsize. change (2 + 3 * base.size K < N.to_nat MAX_SEQ)%nat.
    assert (base.size K = 1%nat) as -> by (vm_compute; reflexivity). unfold MAX_SEQ. lia.
  - done.
  - done.
  - done.
Qed.

Lemma deployed : Deployed pair (host_of pair (bs_device_id (w_db w))) K w.
Proof.
  apply deployed_on; [apply only_a_pair|vm_compute; reflexivity| |].
  - intros k r Hr. vm_compute in Hr. done.
  - intros k v. vm_compute. done.
Qed.

Lemma deployed_agreed : Deployed pair (host_of pair (bs_device_id (w_db w_agreed))) K w_agreed.
Proof.
  apply deployed_on; [apply only_a_pair|vm_compute; reflexivity| |].
  - intros k r. unfold w_agreed. cbn [w_db]. rewrite bs_put_view.
    destruct (decide ("a.txt" = k)) as [<-|]; [done|]. intros Hr. vm_compute in Hr. done.
  - apply bs_put_ok. intros k v. vm_compute. done.
Qed.

Lemma healthy_demo : healthy pair w.
Proof. by repeat split. Qed.
End Demo.
#[local] Existing Instances Demo.env Demo.copier Demo.store_ok.


Lemma sync_converges_witness :
  exists rep w', sync Demo.pair TwoWay {| dry_run := false |} Demo.w = (Ok rep, w') /\
    cancelled rep = false /\ settled Demo.pair w' "a.txt".
Proof.
  destruct (sync_converges Demo.pair {| dry_run := false |} Demo.K Demo.w
    Demo.injective_hash Demo.deployed Demo.healthy_demo) as (rep & w' & E & Hc & Hs).
  - intros k ->%elem_of_singleton. split; [vm_compute; reflexivity|intros []; vm_compute; reflexivity].
  - reflexivity.
  - exists rep, w'. split; [exact E|]. split; [exact Hc|]. apply Hs. by apply elem_of_singleton.
Defined.

Lemma sync_leaves_settled_witness :
  let '(_, w') := sync Demo.pair TwoWay {| dry_run := false |} Demo.w_agreed in
  w_files w' !! ["l"; "a.txt"] = Some Demo.one /\ w_files w' !! ["r"; "a.txt"] = Some Demo.one.
Proof.
  pose proof (sync_leaves_settled Demo.pair TwoWay {| dry_run := false |} Demo.K Demo.w_agreed "a.txt"
    Demo.injective_hash Demo.deployed_agreed) as H.
  destruct (sync Demo.pair TwoWay {| dry_run := false |} Demo.w_agreed) as [r w'].
  destruct H as [H _]; [by apply elem_of_singleton|split; vm_compute; reflexivity|].
  split; [apply (H LeftToRight)|apply (H RightToLeft)].
Defined.

Lemma sync_dry_run_reads_witness :
  w_files (snd (sync Demo.pair TwoWay {| dry_run := true |} Demo.w)) = Demo.files.
Proof. apply (sync_dry_run_reads Demo.pair TwoWay {| dry_run := true |} Demo.w). reflexivity. Defined.

Lemma delete_race_spares_destination_witness :
  let '(r, w') := apply_delete Demo.pair "a.txt" LeftToRight None Demo.w in
  w_files w' = Demo.files /\ exists c, r = Ok (RaceAbortedAsConflict c) /\ c_winner c = RightToLeft.
Proof.
  pose proof (delete_race_spares_destination Demo.pair "a.txt" LeftToRight None
    {| content := text "one"; f_mtime_ms := 1 |} Demo.w (fun _ => eq_refl) eq_refl eq_refl) as H.
  destruct (apply_delete Demo.pair "a.txt" LeftToRight None Demo.w) as [r w'].
  destruct H as (Hf & Hc & _). split; [exact Hf|]. apply Hc. reflexivity.
Defined.

Lemma unsafe_key_aborts_loop_witness :
  fst (exec_loop Demo.pair ∅ ∅ 7 "nas" [Copy "notes..txt" LeftToRight; Copy "a.txt" LeftToRight]
         {| report := report_default; history_seq := 0 |} Demo.w)
  = Err (Failed (UnsafeRelpath "notes..txt")).
Proof.
  pose proof (unsafe_key_aborts_loop Demo.pair ∅ ∅ 7 "nas" "notes..txt" LeftToRight
    [Copy "a.txt" LeftToRight] {| report := report_default; history_seq := 0 |} Demo.w) as H.
  destruct (exec_loop _ _ _ _ _ _ _ _) as [r w']. apply H; vm_compute; reflexivity.
Defined.
