(* ===== verification/Debounce.v ===== *)
(** * Events, filter, debounce and atomic saves of the watcher
      ([event.rs], [filter.rs], [debounce.rs] of [freally-watch])

    Instants and durations are milliseconds on one monotonic clock. *)
From S2P Require Import Prelude.
From S2P Require Import Text.
From S2P Require Import SyncPath.
From stdpp Require Import options.
Open Scope Z_scope.

(** ** Events *)

Inductive FsEvent :=
| Created (p : path)
| Modified (p : path)
| Removed (p : path)
| Renamed (from to : path).

Definition subject (e : FsEvent) : path :=
  match e with
  | Created p | Modified p | Removed p => p
  | Renamed _ to => to
  end.

(** ** The path filter *)

Inductive PathFilter := Passthrough | VimSwap | EmacsLock | OfficeLock | EditorBackup | KnownTemp.

#[export] Instance PathFilter_eq_dec : EqDecision PathFilter.
Proof. solve_decision. Defined.

Definition is_dropped (f : PathFilter) (filter_editor_backups : bool) : bool :=
  match f with
  | Passthrough | KnownTemp => false
  | VimSwap | EmacsLock | OfficeLock => true
  | EditorBackup => filter_editor_backups
  end.

(** [Path::file_name]: the last component, unless it is [..]. *)
Definition file_name (p : path) : option string :=
  match last p with
  | Some n => if String.eqb n ".." then None else Some n
  | None => None
  end.

Definition strips_to_something (prefix name : string) : bool :=
  match str_strip_prefix prefix name with
  | Some stripped => nonempty stripped
  | None => false
  end.

Definition default_filter (p : path) : PathFilter :=
  match file_name p with
  | None => Passthrough
  | Some name =>
      if strips_to_something ".#" name then EmacsLock
      else if strips_to_something "~$" name then OfficeLock
      else if starts_with "." name
              && (ends_with ".swp" name || ends_with ".swpx" name || ends_with ".swx" name)
      then VimSwap
      else
        let name_lower := to_ascii_lowercase name in
        if ends_with ".tmp" name_lower || ends_with ".crdownload" name_lower
           || ends_with ".part" name_lower || ends_with ".partial" name_lower
        then KnownTemp
        else if ends_with "~" name || ends_with ".bak" name_lower then EditorBackup
        else Passthrough
  end.

(** ** The debounce queue *)

(** [EventPriority], with its derived order. *)
Definition priority_of (e : FsEvent) : Z :=
  match e with
  | Created _ => 0
  | Modified _ => 1
  | Renamed _ _ => 2
  | Removed _ => 3
  end.

Record DebouncedEvent := { event : FsEvent; start : Z }.

Record DebounceQueue := {
  pending : gmap path DebouncedEvent;
  window : Z;
}.

Definition DebounceQueue_new (w : Z) : DebounceQueue := {| pending := ∅; window := w |}.

Definition with_pending (q : DebounceQueue) (m : gmap path DebouncedEvent) : DebounceQueue :=
  {| pending := m; window := window q |}.

Definition push (q : DebounceQueue) (e : FsEvent) (now : Z) : DebounceQueue :=
  let key := subject e in
  match pending q !! key with
  | Some existing =>
      if priority_of (event existing) <? priority_of e
      then with_pending q (<[key := {| event := e; start := start existing |}]> (pending q))
      else q
  | None => with_pending q (<[key := {| event := e; start := now |}]> (pending q))
  end.

(** [PathBuf]'s order: component by component. *)
Fixpoint path_leb (a b : path) : bool :=
  match a, b with
  | [], _ => true
  | _ :: _, [] => false
  | x :: a', y :: b' =>
      if String.eqb x y then path_leb a' b' else String.leb x y
  end.

Definition by_path (a b : path * DebouncedEvent) : bool := path_leb a.1 b.1.

Definition saturating_since (now t : Z) : Z := Z.max 0 (now - t).

Definition ripe (q : DebounceQueue) (now : Z) (d : DebouncedEvent) : bool :=
  window q <=? saturating_since now (start d).

Definition flush (q : DebounceQueue) (now : Z) : DebounceQueue * list FsEvent :=
  let ready := sort_by by_path
                 (filter (fun kd => ripe q now kd.2 = true) (map_to_list (pending q))) in
  (with_pending q (foldr delete (pending q) ready.*1), (fun kd => event kd.2) <$> ready).

Definition drain_all (q : DebounceQueue) : DebounceQueue * list FsEvent :=
  (with_pending q ∅, (fun kd => event kd.2) <$> sort_by by_path (map_to_list (pending q))).

(** ** The atomic-save tracker *)

Record AtomicSaveTracker := {
  recent_temps : gmap path Z;
  recent_temp_removals : list Z;
  atomic_window : Z;
}.

Definition AtomicSaveTracker_new (w : Z) : AtomicSaveTracker :=
  {| recent_temps := ∅; recent_temp_removals := []; atomic_window := w |}.

Definition fresh (a : AtomicSaveTracker) (now t : Z) : bool :=
  saturating_since now t <? atomic_window a.

Definition purge_stale (a : AtomicSaveTracker) (now : Z) : AtomicSaveTracker :=
  {| recent_temps := filter (fun kt => fresh a now kt.2 = true) (recent_temps a);
     recent_temp_removals := filter (fun t => fresh a now t = true) (recent_temp_removals a);
     atomic_window := atomic_window a |}.

Definition with_temps (a : AtomicSaveTracker) (m : gmap path Z) : AtomicSaveTracker :=
  {| recent_temps := m; recent_temp_removals := recent_temp_removals a;
     atomic_window := atomic_window a |}.

Definition with_removals (a : AtomicSaveTracker) (l : list Z) : AtomicSaveTracker :=
  {| recent_temps := recent_temps a; recent_temp_removals := l; atomic_window := atomic_window a |}.

Definition record_temp (a : AtomicSaveTracker) (tmp : path) (now : Z) : AtomicSaveTracker :=
  let a := purge_stale a now in with_temps a (<[tmp := now]> (recent_temps a)).

Definition rewrite_rename (a : AtomicSaveTracker) (from to : path) (now : Z)
    : AtomicSaveTracker * option FsEvent :=
  let a := purge_stale a now in
  match recent_temps a !! from with
  | Some _ => (with_temps a (delete from (recent_temps a)), Some (Modified to))
  | None => (a, None)
  end.

Definition note_temp_removed (a : AtomicSaveTracker) (tmp : path) (now : Z)
    : AtomicSaveTracker * bool :=
  let a := purge_stale a now in
  match recent_temps a !! tmp with
  | Some _ =>
      (with_removals (with_temps a (delete tmp (recent_temps a)))
         (recent_temp_removals a ++ [now]), true)
  | None => (a, false)
  end.

Definition try_claim_create (a : AtomicSaveTracker) (canonical : path) (now : Z)
    : AtomicSaveTracker * option FsEvent :=
  let a := purge_stale a now in
  match recent_temp_removals a with
  | _ :: rest => (with_removals a rest, Some (Modified canonical))
  | [] => (a, None)
  end.

(** ** The queue: lemmas *)

Lemma lookup_push q e now p :
  pending (push q e now) !! p =
  if decide (subject e = p) then
    Some match pending q !! p with
         | Some d => if priority_of (event d) <? priority_of e
                     then {| event := e; start := start d |} else d
         | None => {| event := e; start := now |}
         end
  else pending q !! p.
Proof.
  unfold push. case_decide as E; [subst p|]; destruct (pending q !! subject e) as [d|] eqn:Hd.
  - destruct (_ <? _); simpl; [by rewrite lookup_insert_eq|by rewrite Hd].
  - simpl. by rewrite lookup_insert_eq.
  - destruct (_ <? _); simpl; [by rewrite lookup_insert_ne|done].
  - simpl. by rewrite lookup_insert_ne.
Qed.

Lemma window_push q e now : window (push q e now) = window q.
Proof. unfold push. by destruct (pending q !! _); [destruct (_ <? _)|]. Qed.

(** The pending map is keyed by subject. *)
Definition keyed (q : DebounceQueue) : Prop :=
  forall p d, pending q !! p = Some d -> subject (event d) = p.

Lemma keyed_new w : keyed (DebounceQueue_new w).
Proof. intros p d H. simpl in H. by rewrite lookup_empty in H. Qed.

Lemma keyed_push q e now : keyed q -> keyed (push q e now).
Proof.
  intros Hq p d. rewrite lookup_push. case_decide as E; [|apply Hq]. intros [= <-].
  destruct (pending q !! p) as [x|] eqn:Hx; [|done]. destruct (_ <? _); [done|]. by apply Hq.
Qed.

Lemma lookup_foldr_delete {A} (l : list path) (m : gmap path A) p :
  foldr delete m l !! p = if decide (p ∈ l) then None else m !! p.
Proof.
  induction l as [|k l IH]; cbn [foldr].
  - rewrite decide_False; [done|]. apply not_elem_of_nil.
  - destruct (decide (k = p)) as [->|Hne].
    + rewrite lookup_delete_eq, decide_True; [done|left].
    + rewrite lookup_delete_ne, IH by done. apply decide_ext. rewrite elem_of_cons. intuition congruence.
Qed.

Lemma elem_of_ready q now p d :
  (p, d) ∈ sort_by by_path (filter (fun kd => ripe q now kd.2 = true) (map_to_list (pending q)))
  <-> pending q !! p = Some d /\ ripe q now d = true.
Proof. rewrite elem_of_sort_by, list_elem_of_filter, elem_of_map_to_list. simpl. tauto. Qed.

Lemma lookup_flush q now p :
  pending (flush q now).1 !! p =
  match pending q !! p with
  | Some d => if ripe q now d then None else Some d
  | None => None
  end.
Proof.
  unfold flush. simpl. rewrite lookup_foldr_delete. case_decide as H.
  - apply list_elem_of_fmap in H as ([p' d] & -> & H). apply elem_of_ready in H as [H1 H2].
    simpl. by rewrite H1, H2.
  - destruct (pending q !! p) as [d|] eqn:Hd; [|done].
    destruct (ripe q now d) eqn:Hr; [|done]. exfalso. apply H. apply list_elem_of_fmap.
    exists (p, d). split; [done|]. by apply elem_of_ready.
Qed.

Lemma elem_of_flush q now e : keyed q ->
  e ∈ (flush q now).2 <->
  exists d, pending q !! subject e = Some d /\ event d = e /\ ripe q now d = true.
Proof.
  intros Hk. unfold flush. simpl. rewrite list_elem_of_fmap. split.
  - intros ([p d] & -> & [H Hr]%elem_of_ready). simpl. rewrite (Hk _ _ H). eauto.
  - intros (d & H & <- & Hr). exists (subject (event d), d). split; [done|]. by apply elem_of_ready.
Qed.

(** What was pushed for one path, in order, with the instants. *)
Definition pushes_for (p : path) (l : list (FsEvent * Z)) : list (FsEvent * Z) :=
  filter (fun et => subject et.1 = p) l.

Definition push_all (q : DebounceQueue) (l : list (FsEvent * Z)) : DebounceQueue :=
  foldl (fun q et => push q et.1 et.2) q l.

(** The collapsed event: the earliest of the events with the highest priority. *)
Definition collapses_to (l : list (FsEvent * Z)) (d : DebouncedEvent) : Prop :=
  exists e0 before after t,
    head l = Some (e0, start d) /\ l = before ++ (event d, t) :: after /\
    Forall (fun et => priority_of et.1 < priority_of (event d)) before /\
    Forall (fun et => priority_of et.1 <= priority_of (event d)) after.

Lemma collapses_snoc l d e t :
  collapses_to l d ->
  collapses_to (l ++ [(e, t)])
    (if priority_of (event d) <? priority_of e then {| event := e; start := start d |} else d).
Proof.
  intros (e0 & bf & af & t0 & Hh & Hl & Hb & Ha). destruct l as [|x l]; [done|]. simpl in Hh.
  injection Hh as ->. destruct (Z.ltb_spec (priority_of (event d)) (priority_of e)) as [Hlt|Hge].
  - exists e0, ((e0, start d) :: l), [], t. split_and!; [done|done| |constructor].
    simpl. rewrite Hl. apply Forall_app. split.
    + eapply Forall_impl; [exact Hb|]. intros et H. simpl in *. lia.
    + constructor; [simpl; lia|]. eapply Forall_impl; [exact Ha|]. intros et H. simpl in *. lia.
  - exists e0, bf, (af ++ [(e, t)]), t0. split_and!; [done| |done|].
    + rewrite Hl, <- app_assoc. done.
    + apply Forall_app. split; [done|]. repeat constructor. simpl. lia.
Qed.

Lemma pushes_for_snoc p l e t :
  pushes_for p (l ++ [(e, t)])
  = pushes_for p l ++ (if decide (subject e = p) then [(e, t)] else []).
Proof.
  unfold pushes_for. by rewrite filter_app.
Qed.

Lemma push_all_pending w l p :
  match pending (push_all (DebounceQueue_new w) l) !! p with
  | Some d => collapses_to (pushes_for p l) d
  | None => pushes_for p l = []
  end.
Proof.
  induction l as [|[e t] l IH] using rev_ind; [by simpl; rewrite lookup_empty|].
  unfold push_all in *. rewrite foldl_app. simpl. rewrite lookup_push, pushes_for_snoc.
  case_decide as E; [|by rewrite app_nil_r].
  destruct (pending (foldl _ _ l) !! p) as [d|].
  - by apply collapses_snoc.
  - rewrite IH. exists e, [], [], t. split_and!; [done..|constructor|constructor].
Qed.

(** Debouncing.  Whatever was pushed, a path has exactly one pending
    event when it had any: the event of the highest priority (of those, the
    one that came first), with the window counted from the path's first event;
    nothing is pending for a path that had none. *)
Theorem debounce_collapses w l p :
  match pending (push_all (DebounceQueue_new w) l) !! p with
  | Some d => collapses_to (pushes_for p l) d
  | None => pushes_for p l = []
  end.
Proof. apply push_all_pending. Qed.

Lemma path_leb_total a : forall b, path_leb a b = true \/ path_leb b a = true.
Proof.
  induction a as [|x a IH]; intros [|y b]; simpl; try tauto.
  destruct (String.eqb_spec x y) as [->|Hne].
  - rewrite String.eqb_refl. apply IH.
  - destruct (String.eqb_spec y x); [congruence|]. apply String.leb_total.
Qed.

(** A flush emits exactly the events whose window has elapsed, each once,
    and keeps exactly the others; flushing again at the same instant emits
    nothing, and draining empties the queue, so no event is lost. *)
Theorem flush_partitions q now :
  keyed q ->
  let '(q', out) := flush q now in
  (forall e, e ∈ out <-> exists d, pending q !! subject e = Some d /\ event d = e /\ ripe q now d = true) /\
  (forall p d, pending q' !! p = Some d <-> pending q !! p = Some d /\ ripe q now d = false) /\
  NoDup (subject <$> out) /\ (flush q' now).2 = [] /\ pending (drain_all q').1 = ∅.
Proof.
  intros Hk. pose proof (elem_of_flush q now) as Hin. pose proof (lookup_flush q now) as Hlk.
  assert (NoDup (subject <$> (flush q now).2)) as Hnd.
  { unfold flush. simpl. rewrite <- list_fmap_compose.
    assert (forall l : list (path * DebouncedEvent), (forall kd, kd ∈ l -> subject (event kd.2) = kd.1) ->
      (subject ∘ (fun kd => event kd.2)) <$> l = l.*1) as Hmap.
    { intros l Hl. apply list_fmap_ext. intros i kd Hi. apply Hl. by eapply list_elem_of_lookup_2. }
    rewrite Hmap.
    - rewrite sort_by_perm. eapply sublist_NoDup; [apply (NoDup_fst_map_to_list (pending q))|].
      apply fmap_sublist, sublist_filter.
    - intros [p d] [H _]%elem_of_ready. by apply Hk. }
  destruct (flush q now) as [q' out] eqn:Ef. simpl in *. split_and!.
  - intros e. by apply Hin.
  - intros p d. rewrite Hlk. destruct (pending q !! p) as [x|]; [|intuition congruence].
    destruct (ripe q now x) eqn:Er; split; intuition congruence.
  - done.
  - unfold flush. simpl.
    assert (window q' = window q) as Hw by (unfold flush in Ef; by simplify_eq).
    destruct (sort_by _ _) as [|[p d] r] eqn:Es; [done|]. exfalso.
    assert ((p, d) ∈ sort_by by_path (filter (fun kd => ripe q' now kd.2 = true)
              (map_to_list (pending q')))) as H by (rewrite Es; left).
    apply elem_of_ready in H as [H Hr]. rewrite Hlk in H.
    unfold ripe in *. rewrite Hw in Hr. destruct (pending q !! p) as [x|]; [|done].
    destruct (window q <=? _) eqn:E in H; congruence.
  - done.
Qed.

Lemma flush_partitions_witness :
  let q := push (push (DebounceQueue_new 500) (Created ["a"]) 0) (Modified ["b"]) 300 in
  (flush q 500).2 = [Created ["a"]] /\ (flush (flush q 500).1 500).2 = [].
Proof.
  intros q. split; [vm_compute; reflexivity|].
  pose proof (flush_partitions q 500 (keyed_push _ _ _ (keyed_push _ _ _ (keyed_new 500)))) as H.
  destruct (flush q 500) as [q' out]. apply H.
Defined.
