(* ===== verification/Watch.v ===== *)
(** * The watcher's pump ([watcher.rs] of [freally-watch])

    Raw [notify] events are filtered, run through the atomic-save tracker and
    collapsed by the debounce queue.  The file system the recovery scans look
    at is a parameter: [is_dir], [read_dir] and [canonicalize]. *)
From S2P Require Import Prelude.
From S2P Require Import Text.
From S2P Require Import SyncPath.
From S2P Require Import Debounce.
From stdpp Require Import options.
Open Scope Z_scope.

(** ** Raw events *)

Inductive RenameMode := RBoth | RFrom | RTo | ROther | RAny.

Inductive EventKind :=
| KCreate
| KModifyName (m : RenameMode)
| KModify
| KRemove
| KAccess
| KAny
| KOther.

Record RawEvent := { kind : EventKind; paths : list path }.

(** What the channel delivers: an event, a backend error that reports an
    overflow, another backend error. *)
Inductive RawMsg := MEvent (e : RawEvent) | MOverflow | MError.

Record WatcherOptions := {
  debounce : Z;
  opt_atomic_window : Z;
  flush_interval : Z;
  filter_editor_backups : bool;
}.

Definition default_options : WatcherOptions :=
  {| debounce := 500; opt_atomic_window := 500; flush_interval := 50;
     filter_editor_backups := false |}.

(** ** The file system the scans see *)

Inductive FileType := FSymlink | FDir | FRegular.

Record DirEntry := { e_path : path; e_type : option FileType }.

Class WatchedFs := {
  is_dir : path -> bool;
  read_dir : path -> option (list DirEntry);
  canonicalize : path -> option path;
}.

Record PumpState := { queue : DebounceQueue; atomic : AtomicSaveTracker }.

Definition with_queue (s : PumpState) (q : DebounceQueue) : PumpState :=
  {| queue := q; atomic := atomic s |}.
Definition with_atomic (s : PumpState) (a : AtomicSaveTracker) : PumpState :=
  {| queue := queue s; atomic := a |}.
Definition push_to (s : PumpState) (e : FsEvent) (now : Z) : PumpState :=
  with_queue s (push (queue s) e now).

Section watch.
Context {FS : WatchedFs}.

Definition path_inside_root (p root : path) : bool :=
  let canon_root := default root (canonicalize root) in
  match canonicalize p with
  | Some canon_p => path_starts_with canon_p canon_root
  | None => path_starts_with p canon_root || path_starts_with p root
  end.

(** ** Recovery scans *)

Definition hidden_entry (p : path) : bool :=
  let class := default_filter p in
  is_dropped class false || bool_decide (class = KnownTemp).

Definition enumerate_entry (now : Z) (q : DebounceQueue) (entry : DirEntry) : DebounceQueue :=
  if hidden_entry (e_path entry) then q
  else match e_type entry with
       | Some FSymlink => q
       | _ => push q (Modified (e_path entry)) now
       end.

Definition enumerate_dir_into (dir : path) (q : DebounceQueue) (now : Z) : DebounceQueue :=
  match read_dir dir with
  | None => q
  | Some entries => foldl (enumerate_entry now) q entries
  end.

Definition RESCAN_MAX_DEPTH : nat := 64.

Definition canonicalize_cached (cache : gmap path path) (p : path) : gmap path path * path :=
  match cache !! p with
  | Some hit => (cache, hit)
  | None => let resolved := default p (canonicalize p) in (<[p := resolved]> cache, resolved)
  end.

Record Rescan := {
  stack : list (path * nat);
  canon_cache : gmap path path;
  r_queue : DebounceQueue;
}.

Definition rescan_entry (canon_root : path) (depth : nat) (now : Z) (s : Rescan) (entry : DirEntry)
    : Rescan :=
  let p := e_path entry in
  if hidden_entry p then s
  else match e_type entry with
       | None | Some FSymlink => s
       | Some ftype =>
           let '(cache, canon) := canonicalize_cached (canon_cache s) p in
           if negb (path_starts_with canon canon_root)
           then {| stack := stack s; canon_cache := cache; r_queue := r_queue s |}
           else match ftype with
                | FDir => {| stack := (p, S depth) :: stack s; canon_cache := cache;
                             r_queue := r_queue s |}
                | _ => {| stack := stack s; canon_cache := cache;
                          r_queue := push (r_queue s) (Modified p) now |}
                end
       end.

Fixpoint rescan_loop (fuel : nat) (canon_root : path) (now : Z) (s : Rescan)
    : option DebounceQueue :=
  match fuel with
  | O => None
  | S fuel' =>
      match stack s with
      | [] => Some (r_queue s)
      | (dir, depth) :: rest =>
          let s' := {| stack := rest; canon_cache := canon_cache s; r_queue := r_queue s |} in
          if (RESCAN_MAX_DEPTH <? depth)%nat then rescan_loop fuel' canon_root now s'
          else match read_dir dir with
               | None => rescan_loop fuel' canon_root now s'
               | Some entries =>
                   rescan_loop fuel' canon_root now
                     (foldl (rescan_entry canon_root depth now) s' entries)
               end
      end
  end.

Definition rescan_into (fuel : nat) (root : path) (q : DebounceQueue) (now : Z)
    : option DebounceQueue :=
  let '(cache, canon_root) := canonicalize_cached ∅ root in
  rescan_loop fuel canon_root now {| stack := [(root, 0%nat)]; canon_cache := cache; r_queue := q |}.

(** ** One raw event *)

Definition claim_or (s : PumpState) (p : path) (otherwise : FsEvent) (now : Z) : PumpState :=
  match try_claim_create (atomic s) p now with
  | (a, Some rewritten) => push_to (with_atomic s a) rewritten now
  | (a, None) => push_to (with_atomic s a) otherwise now
  end.

(** The loop body of [RenameMode::Other | RenameMode::Any]. *)
Definition ambiguous_rename (opts : WatcherOptions) (now : Z) (s : PumpState) (p : path)
    : PumpState :=
  let class := default_filter p in
  if is_dropped class (filter_editor_backups opts) then s
  else if bool_decide (class = KnownTemp)
  then with_atomic s (note_temp_removed (atomic s) p now).1
  else claim_or s p (Modified p) now.

Definition handle_rename (m : RenameMode) (ps : list path) (s : PumpState)
    (opts : WatcherOptions) (now : Z) : PumpState :=
  match m, ps with
  | RBoth, from :: to :: _ =>
      if is_dropped (default_filter to) (filter_editor_backups opts) then s
      else match rewrite_rename (atomic s) from to now with
           | (a, Some rewritten) => push_to (with_atomic s a) rewritten now
           | (a, None) => push_to (with_atomic s a) (Renamed from to) now
           end
  | RFrom, p :: _ =>
      if is_dropped (default_filter p) (filter_editor_backups opts) then s
      else match note_temp_removed (atomic s) p now with
           | (a, true) => with_atomic s a
           | (a, false) => push_to (with_atomic s a) (Removed p) now
           end
  | RTo, p :: _ =>
      if is_dropped (default_filter p) (filter_editor_backups opts) then s
      else claim_or s p (Created p) now
  | (ROther | RAny), _ => foldl (ambiguous_rename opts now) s ps
  | _, _ => s
  end.

Definition handle_create (p : path) (s : PumpState) (opts : WatcherOptions) (now : Z) : PumpState :=
  let class := default_filter p in
  if is_dropped class (filter_editor_backups opts) then s
  else if bool_decide (class = KnownTemp) then with_atomic s (record_temp (atomic s) p now)
  else claim_or s p (Created p) now.

Definition handle_modify (p : path) (rest : list path) (s : PumpState) (opts : WatcherOptions)
    (now : Z) : PumpState :=
  let class := default_filter p in
  if is_dropped class (filter_editor_backups opts) then s
  else if bool_decide (class = KnownTemp) then s
  else match rest with
       | [] => if is_dir p then with_queue s (enumerate_dir_into p (queue s) now)
               else push_to s (Modified p) now
       | _ :: _ => push_to s (Modified p) now
       end.

Definition handle_remove (p : path) (s : PumpState) (opts : WatcherOptions) (now : Z) : PumpState :=
  let class := default_filter p in
  if is_dropped class (filter_editor_backups opts) then s
  else if bool_decide (class = KnownTemp)
  then with_atomic s (note_temp_removed (atomic s) p now).1
  else push_to s (Removed p) now.

Definition handle_rescan (fuel : nat) (root : path) (s : PumpState) (now : Z) : option PumpState :=
  with_queue s <$> rescan_into fuel root (queue s) now.

Definition handle_raw_event (fuel : nat) (e : RawEvent) (s : PumpState) (opts : WatcherOptions)
    (root : path) (now : Z) : option PumpState :=
  match paths e with
  | first :: rest =>
      if negb (path_inside_root first root) then Some s
      else match kind e with
           | KCreate => Some (handle_create first s opts now)
           | KModifyName m => Some (handle_rename m (paths e) s opts now)
           | KModify => Some (handle_modify first rest s opts now)
           | KRemove => Some (handle_remove first s opts now)
           | KAccess => Some s
           | KAny | KOther =>
               if is_dir first then Some (with_queue s (enumerate_dir_into first (queue s) now))
               else handle_rescan fuel root s now
           end
  | [] =>
      match kind e with
      | KModifyName m => Some (handle_rename m [] s opts now)
      | KAny | KOther => handle_rescan fuel root s now
      | _ => Some s
      end
  end.

(** ** The pump *)

Definition handle_msg (fuel : nat) (opts : WatcherOptions) (root : path) (os : option PumpState)
    (m : RawMsg * Z) : option PumpState :=
  s ← os;
  match m.1 with
  | MEvent e => handle_raw_event fuel e s opts root m.2
  | MOverflow => handle_rescan fuel root s m.2
  | MError => Some s
  end.

(** One turn of the loop: the burst that arrived, then a flush at [now]. *)
Definition pump_tick (fuel : nat) (opts : WatcherOptions) (root : path) (s : PumpState)
    (burst : list (RawMsg * Z)) (now : Z) : option (PumpState * list FsEvent) :=
  s' ← foldl (handle_msg fuel opts root) (Some s) burst;
  let '(q, out) := flush (queue s') now in
  Some (with_queue s' q, out).

Fixpoint pump_loop (fuel : nat) (opts : WatcherOptions) (root : path) (s : PumpState)
    (ticks : list (list (RawMsg * Z) * Z)) : option (list FsEvent) :=
  match ticks with
  | [] => Some (drain_all (queue s)).2
  | (burst, now) :: rest =>
      '(s', out) ← pump_tick fuel opts root s burst now;
      tail ← pump_loop fuel opts root s' rest;
      Some (out ++ tail)
  end.

Definition pump_init (opts : WatcherOptions) : PumpState :=
  {| queue := DebounceQueue_new (debounce opts);
     atomic := AtomicSaveTracker_new (opt_atomic_window opts) |}.

Definition run_pump (fuel : nat) (opts : WatcherOptions) (root : path)
    (ticks : list (list (RawMsg * Z) * Z)) : option (list FsEvent) :=
  pump_loop fuel opts root (pump_init opts) ticks.
End watch.

(** ** What a handler pushes

    [pushes I q q']: the queue [q'] is [q] after pushing events that satisfy
    [I].  One lemma per handler gives everything the theorems need. *)

Definition pushes (I : FsEvent -> Prop) (q q' : DebounceQueue) : Prop :=
  exists l, Forall (fun et => I et.1) l /\ q' = push_all q l.

Lemma pushes_refl I q : pushes I q q.
Proof. by exists []. Qed.

Lemma pushes_one (I : FsEvent -> Prop) q e now : I e -> pushes I q (push q e now).
Proof. intros H. exists [(e, now)]. split; [by repeat constructor|done]. Qed.

Lemma pushes_trans I q1 q2 q3 : pushes I q1 q2 -> pushes I q2 q3 -> pushes I q1 q3.
Proof.
  intros (l1 & H1 & ->) (l2 & H2 & ->). exists (l1 ++ l2). split; [by apply Forall_app|].
  unfold push_all. by rewrite foldl_app.
Qed.

Lemma pushes_mono (I J : FsEvent -> Prop) q q' :
  (forall e, I e -> J e) -> pushes I q q' -> pushes J q q'.
Proof.
  intros H (l & Hl & ->). exists l. split; [|done]. eapply Forall_impl; [exact Hl|]. simpl. auto.
Qed.

Lemma pushes_foldl {A} I (f : A -> DebounceQueue) (step : A -> DirEntry -> A) l :
  (forall a x, pushes I (f a) (f (step a x))) -> forall a, pushes I (f a) (f (foldl step a l)).
Proof.
  intros H. induction l as [|x l IH]; intros a; [apply pushes_refl|]. simpl.
  eapply pushes_trans; [apply H|apply IH].
Qed.

Definition noisy (c : PathFilter) : bool :=
  match c with VimSwap | EmacsLock | OfficeLock => true | _ => false end.

Lemma noisy_dropped c b : is_dropped c b = false -> noisy c = false.
Proof. by destruct c. Qed.

(** The rename shapes whose paths are not checked for temp names. *)
Definition stitched (k : EventKind) : bool :=
  match k with KModifyName (RBoth | RFrom | RTo) => true | _ => false end.

Definition reportable (k : EventKind) (e : FsEvent) : Prop :=
  noisy (default_filter (subject e)) = false /\
  (stitched k = false -> default_filter (subject e) <> KnownTemp).

(** ** The queue under pushes *)

Definition queue_all (I : FsEvent -> Prop) (q : DebounceQueue) : Prop :=
  forall p d, pending q !! p = Some d -> I (event d).

Lemma queue_all_push (I : FsEvent -> Prop) q e now :
  I e -> queue_all I q -> queue_all I (push q e now).
Proof.
  intros He Hq p d. rewrite lookup_push. case_decide; [|apply Hq]. intros [= <-].
  destruct (pending q !! p) as [x|] eqn:Hx; [|done]. destruct (_ <? _); [done|]. by eapply Hq.
Qed.

Lemma queue_all_pushes I q q' : pushes I q q' -> queue_all I q -> queue_all I q'.
Proof.
  intros (l & Hl & ->). revert q. induction Hl as [|et l He Hl IH]; intros q Hq; [done|].
  apply IH. by apply queue_all_push.
Qed.

Lemma keyed_pushes I q q' : pushes I q q' -> keyed q -> keyed q'.
Proof.
  intros (l & _ & ->). revert q. induction l as [|et l IH]; intros q Hq; [done|].
  apply IH. by apply keyed_push.
Qed.

(** A pending event only ever gives way to a stronger one. *)
Definition supersedes (q q' : DebounceQueue) : Prop :=
  forall p d, pending q !! p = Some d -> exists d', pending q' !! p = Some d' /\
    start d' = start d /\ priority_of (event d) <= priority_of (event d').

#[export] Instance supersedes_preorder : PreOrder supersedes.
Proof.
  split.
  - intros q p d H. exists d. split_and!; [done..|lia].
  - intros q1 q2 q3 H1 H2 p d Hd. destruct (H1 p d Hd) as (d1 & Hd1 & ? & ?).
    destruct (H2 p d1 Hd1) as (d2 & ? & ? & ?). exists d2. split_and!; [done|congruence|lia].
Qed.

Lemma supersedes_push q e now : supersedes q (push q e now).
Proof.
  intros p d Hd. rewrite lookup_push. case_decide; [|exists d; split_and!; [done..|lia]].
  rewrite Hd. destruct (Z.ltb_spec (priority_of (event d)) (priority_of e)).
  - eexists. split_and!; [done..|simpl; lia].
  - exists d. split_and!; [done..|lia].
Qed.

Lemma supersedes_pushes I q q' : pushes I q q' -> supersedes q q'.
Proof.
  intros (l & _ & ->). revert q. induction l as [|et l IH]; intros q; [done|].
  etrans; [apply supersedes_push|apply IH].
Qed.

Section handlers.
Context {FS : WatchedFs}.

Lemma hidden_reportable k p : hidden_entry p = false -> reportable k (Modified p).
Proof using Type.
  unfold hidden_entry. intros [Hd Ht%bool_decide_eq_false]%orb_false_iff.
  split; [by eapply noisy_dropped|done].
Qed.

Lemma enumerate_pushes k dir q now : pushes (reportable k) q (enumerate_dir_into dir q now).
Proof using Type.
  unfold enumerate_dir_into. destruct (read_dir dir) as [es|]; [|apply pushes_refl].
  apply (pushes_foldl (reportable k) id). intros q' en. unfold enumerate_entry, id.
  destruct (hidden_entry (e_path en)) eqn:Eh; [apply pushes_refl|].
  destruct (e_type en) as [[]|]; try apply pushes_refl;
    by apply pushes_one, hidden_reportable.
Qed.

Lemma rescan_entry_pushes k canon_root depth now s en :
  pushes (reportable k) (r_queue s) (r_queue (rescan_entry canon_root depth now s en)).
Proof using Type.
  unfold rescan_entry. destruct (hidden_entry (e_path en)) eqn:Eh; [apply pushes_refl|].
  destruct (e_type en) as [[]|]; try apply pushes_refl;
    destruct (canonicalize_cached _ _) as [cache canon]; destruct (negb _); try apply pushes_refl.
  by apply pushes_one, hidden_reportable.
Qed.

Lemma rescan_loop_pushes k canon_root now fuel : forall s q,
  rescan_loop fuel canon_root now s = Some q -> pushes (reportable k) (r_queue s) q.
Proof using Type.
  induction fuel as [|fuel IH]; intros s q H; [done|]. cbn [rescan_loop] in H.
  destruct (stack s) as [|[dir depth] rest]; [injection H as <-; apply pushes_refl|].
  destruct (_ <? _)%nat; [by apply IH in H|]. destruct (read_dir dir) as [es|]; [|by apply IH in H].
  apply IH in H. eapply pushes_trans; [|exact H].
  apply (pushes_foldl (reportable k) r_queue (rescan_entry canon_root depth now) es
           (fun s' en => rescan_entry_pushes k canon_root depth now s' en)
           {| stack := rest; canon_cache := canon_cache s; r_queue := r_queue s |}).
Qed.

Lemma rescan_pushes k fuel root q now q' :
  rescan_into fuel root q now = Some q' -> pushes (reportable k) q q'.
Proof using Type.
  unfold rescan_into. destruct (canonicalize_cached _ _) as [cache cr].
  intros H. by apply (rescan_loop_pushes k) in H.
Qed.

Lemma claim_or_pushes (I : FsEvent -> Prop) s p e now :
  I (Modified p) -> I e -> pushes I (queue s) (queue (claim_or s p e now)).
Proof using Type.
  intros H1 H2. unfold claim_or, try_claim_create.
  destruct (recent_temp_removals _) as [|t r]; by apply pushes_one.
Qed.

Lemma ambiguous_pushes opts now ps m : stitched (KModifyName m) = false -> forall s,
  pushes (reportable (KModifyName m)) (queue s) (queue (foldl (ambiguous_rename opts now) s ps)).
Proof using Type.
  intros Hm. induction ps as [|p ps IH]; intros s; [apply pushes_refl|]. simpl.
  eapply pushes_trans; [|apply IH]. unfold ambiguous_rename.
  destruct (is_dropped _ _) eqn:Ed; [apply pushes_refl|].
  case_bool_decide as Ht; [apply pushes_refl|].
  apply claim_or_pushes; (split; [by eapply noisy_dropped|done]).
Qed.

Lemma handle_rename_pushes m ps s opts now :
  pushes (reportable (KModifyName m)) (queue s) (queue (handle_rename m ps s opts now)).
Proof using Type.
  unfold handle_rename. destruct m; [..|by apply ambiguous_pushes|by apply ambiguous_pushes].
  - destruct ps as [|from [|to ps]]; [apply pushes_refl..|].
    destruct (is_dropped _ _) eqn:Ed; [apply pushes_refl|]. unfold rewrite_rename.
    destruct (recent_temps _ !! from); apply pushes_one; (split; [by eapply noisy_dropped|done]).
  - destruct ps as [|p ps]; [apply pushes_refl|].
    destruct (is_dropped _ _) eqn:Ed; [apply pushes_refl|]. unfold note_temp_removed.
    destruct (recent_temps _ !! p); [apply pushes_refl|].
    apply pushes_one. split; [by eapply noisy_dropped|done].
  - destruct ps as [|p ps]; [apply pushes_refl|].
    destruct (is_dropped _ _) eqn:Ed; [apply pushes_refl|].
    apply claim_or_pushes; (split; [by eapply noisy_dropped|done]).
Qed.

Lemma handle_plain_pushes k p rest s opts now :
  pushes (reportable k) (queue s) (queue (handle_create p s opts now)) /\
  pushes (reportable k) (queue s) (queue (handle_modify p rest s opts now)) /\
  pushes (reportable k) (queue s) (queue (handle_remove p s opts now)).
Proof using Type.
  unfold handle_create, handle_modify, handle_remove.
  destruct (is_dropped _ _) eqn:Ed; [split_and!; apply pushes_refl|].
  assert (forall e, subject e = p -> default_filter p <> KnownTemp -> reportable k e) as Hr.
  { intros e <- ?. split; [by eapply noisy_dropped|done]. }
  case_bool_decide as Ht; [split_and!; apply pushes_refl|]. split_and!.
  - apply claim_or_pushes; by apply Hr.
  - destruct rest; [destruct (is_dir p); [apply enumerate_pushes|]|]; apply pushes_one; by apply Hr.
  - apply pushes_one. by apply Hr.
Qed.

Lemma handle_raw_event_pushes fuel e s opts root now s' :
  handle_raw_event fuel e s opts root now = Some s' ->
  pushes (reportable (kind e)) (queue s) (queue s').
Proof using Type.
  unfold handle_raw_event. intros H.
  assert (forall k, handle_rescan fuel root s now = Some s' ->
            pushes (reportable k) (queue s) (queue s')) as Hre.
  { intros k (q & Hq & ->)%fmap_Some. by eapply rescan_pushes. }
  destruct (paths e) as [|p rest]; simpl in H.
  - destruct (kind e) as [|m| | | | |]; simplify_eq; try apply pushes_refl; [|by apply Hre..].
    apply handle_rename_pushes.
  - destruct (negb _); [simplify_eq; apply pushes_refl|].
    pose proof (handle_plain_pushes (kind e) p rest s opts now) as (H1 & H2 & H3).
    destruct (kind e) as [|m| | | | |]; simplify_eq; try done; try apply pushes_refl.
    + apply handle_rename_pushes.
    + destruct (is_dir p); [simplify_eq; apply enumerate_pushes|by apply Hre].
    + destruct (is_dir p); [simplify_eq; apply enumerate_pushes|by apply Hre].
Qed.

(** Everything a message can push. *)
Definition msg_reportable (m : RawMsg) : FsEvent -> Prop :=
  match m with MEvent e => reportable (kind e) | _ => reportable KAny end.

Lemma handle_msg_pushes fuel opts root s m s' :
  handle_msg fuel opts root (Some s) m = Some s' ->
  pushes (msg_reportable m.1) (queue s) (queue s').
Proof using Type.
  unfold handle_msg. destruct m as [[e| |] now]; simpl.
  - apply handle_raw_event_pushes.
  - intros (q & Hq & ->)%fmap_Some. by eapply rescan_pushes.
  - intros [= ->]. apply pushes_refl.
Qed.

Lemma foldl_msg_None fuel opts root burst :
  foldl (handle_msg fuel opts root) None burst = None.
Proof using Type. induction burst; [done|]. simpl. done. Qed.

Lemma burst_pushes (I : FsEvent -> Prop) fuel opts root burst : forall s s',
  (forall m e, m ∈ burst -> msg_reportable m.1 e -> I e) ->
  foldl (handle_msg fuel opts root) (Some s) burst = Some s' -> pushes I (queue s) (queue s').
Proof using Type.
  induction burst as [|m burst IH]; intros s s' HI H; cbn [foldl] in H; [simplify_eq; apply pushes_refl|].
  destruct (handle_msg fuel opts root (Some s) m) as [s1|] eqn:E; [|by rewrite foldl_msg_None in H].
  eapply pushes_trans.
  - eapply pushes_mono; [|by eapply handle_msg_pushes]. intros e. apply HI. left.
  - apply IH; [|done]. intros m' e Hm. apply HI. by right.
Qed.
End handlers.

(** ** The pump *)
#[local] Opaque flush.

Section pump.
Context {FS : WatchedFs}.

(** Every event of an output satisfies [I] when every message's pushes do. *)
Lemma pump_loop_all (I : FsEvent -> Prop) fuel opts root ticks : forall s out,
  (forall tk m e, tk ∈ ticks -> m ∈ tk.1 -> msg_reportable m.1 e -> I e) ->
  keyed (queue s) -> queue_all I (queue s) ->
  pump_loop fuel opts root s ticks = Some out -> Forall I out.
Proof using Type.
  induction ticks as [|[burst now] ticks IH]; intros s out HI Hk Hq H; cbn [pump_loop] in H.
  - simplify_eq. apply Forall_forall. intros e. unfold drain_all. simpl.
    intros ([p d] & -> & Hin)%list_elem_of_fmap.
    rewrite elem_of_sort_by, elem_of_map_to_list in Hin. by eapply Hq.
  - unfold pump_tick in H.
    destruct (foldl _ _ burst) as [s1|] eqn:E; [|done]. simpl in H.
    destruct (flush (queue s1) now) as [q1 o1] eqn:Ef. simpl in H.
    destruct (pump_loop _ _ _ _ ticks) as [tl|] eqn:Et; [|done]. simpl in H. injection H as <-.
    assert (pushes I (queue s) (queue s1)) as Hp.
    { eapply burst_pushes; [|exact E]. intros m e Hm. apply (HI (burst, now)); [left|done]. }
    pose proof (keyed_pushes _ _ _ Hp Hk) as Hk1. pose proof (queue_all_pushes _ _ _ Hp Hq) as Hq1.
    apply Forall_app. split.
    + apply Forall_forall. intros e He. simpl in He.
      pose proof (elem_of_flush (queue s1) now e Hk1) as Hin. rewrite Ef in Hin.
      apply Hin in He as (d & Hd & <- & _). by eapply Hq1.
    + eapply IH; [| | |exact Et].
      * intros tk m e Htk. apply HI. by right.
      * intros p d Hd. simpl in Hd. pose proof (lookup_flush (queue s1) now p) as Hl.
        rewrite Ef in Hl. simpl in Hl. rewrite Hl in Hd.
        destruct (pending (queue s1) !! p) as [x|] eqn:Ex; [|done].
        destruct (ripe _ _ _); [done|]. simplify_eq. by apply Hk1.
      * intros p d Hd. simpl in Hd. pose proof (lookup_flush (queue s1) now p) as Hl.
        rewrite Ef in Hl. simpl in Hl. rewrite Hl in Hd.
        destruct (pending (queue s1) !! p) as [x|] eqn:Ex; [|done].
        destruct (ripe _ _ _); [done|]. simplify_eq. by eapply Hq1.
Qed.

(** Nothing the filter drops is ever reported.  No event of a run names
    a vim swap, emacs lock or office lock file; and unless the backend
    delivers stitched or half renames, none names a download or staging file
    ([*.tmp], [*.part], ...). *)
Theorem run_pump_filters fuel opts root ticks out :
  run_pump fuel opts root ticks = Some out ->
  Forall (fun e => noisy (default_filter (subject e)) = false) out /\
  ((forall tk m e, tk ∈ ticks -> m ∈ tk.1 -> m.1 = MEvent e -> stitched (kind e) = false) ->
   Forall (fun e => default_filter (subject e) <> KnownTemp) out).
Proof using Type.
  intros H. unfold run_pump in H.
  assert (forall I, queue_all I (queue (pump_init opts))) as Hnew.
  { intros I p d Hd. simpl in Hd. by rewrite lookup_empty in Hd. }
  pose proof (fun I Hm => pump_loop_all I fuel opts root ticks (pump_init opts) out Hm
    (keyed_new _) (Hnew I) H) as Hall.
  split.
  - apply Hall.
    intros tk [[e| |] now] ev _ _ [Hr _]; done.
  - intros Hst. apply Hall.
    intros tk [m now] ev Htk Hm Hr. destruct m as [e| |]; simpl in Hr; [|by apply Hr..].
    destruct Hr as [_ Hr]. apply Hr. by apply (Hst tk (MEvent e, now) e).
Qed.

(** ** Nothing pending is forgotten *)

Lemma flush_keeps q now p d : keyed q -> pending q !! p = Some d ->
  event d ∈ (flush q now).2 \/ pending (flush q now).1 !! p = Some d.
Proof using Type.
  intros Hk Hd. destruct (ripe q now d) eqn:Er.
  - left. apply elem_of_flush; [done|]. exists d. by rewrite (Hk _ _ Hd).
  - right. by rewrite lookup_flush, Hd, Er.
Qed.

Lemma removed_is_top d e : priority_of (Removed d) <= priority_of e -> subject e = d -> e = Removed d.
Proof using Type. destruct e; simpl; try lia. by intros _ ->. Qed.

Lemma keyed_flush q now : keyed q -> keyed (flush q now).1.
Proof using Type.
  intros Hk p d. rewrite lookup_flush. destruct (pending q !! p) as [x|] eqn:Hx; [|done].
  destruct (ripe _ _ _); [done|]. intros [= <-]. by apply Hk.
Qed.

Lemma burst_keyed_supersedes fuel opts root burst s s' :
  foldl (handle_msg fuel opts root) (Some s) burst = Some s' ->
  (keyed (queue s) -> keyed (queue s')) /\ supersedes (queue s) (queue s').
Proof using Type.
  intros H. apply (burst_pushes (fun _ => True)) in H; [|done].
  split; [by eapply keyed_pushes|by eapply supersedes_pushes].
Qed.

Lemma pending_removed_reported fuel opts root p ticks : forall s d out,
  keyed (queue s) -> pending (queue s) !! p = Some d -> event d = Removed p ->
  pump_loop fuel opts root s ticks = Some out -> Removed p ∈ out.
Proof using Type.
  induction ticks as [|[burst now] ticks IH]; intros s d out Hk Hd He H; cbn [pump_loop] in H.
  - simplify_eq. unfold drain_all. simpl. apply list_elem_of_fmap. exists (p, d). split; [done|].
    by rewrite elem_of_sort_by, elem_of_map_to_list.
  - unfold pump_tick in H. destruct (foldl _ _ burst) as [s1|] eqn:E; [|done]. simpl in H.
    destruct (flush (queue s1) now) as [q1 o1] eqn:Ef. simpl in H.
    destruct (pump_loop _ _ _ _ ticks) as [tl|] eqn:Et; [|done]. simpl in H. injection H as <-.
    apply burst_keyed_supersedes in E as [Hk1 Hs]. specialize (Hk1 Hk).
    destruct (Hs p d Hd) as (d1 & Hd1 & _ & Hpri). rewrite He in Hpri.
    apply removed_is_top in Hpri; [|by apply Hk1]. rewrite elem_of_app.
    destruct (flush_keeps (queue s1) now p d1 Hk1 Hd1) as [Hin|Hin]; rewrite Ef in Hin; simpl in Hin.
    + left. congruence.
    + right. eapply (IH (with_queue s1 q1) d1); [|done|done|done].
      pose proof (keyed_flush (queue s1) now Hk1) as Hkf. by rewrite Ef in Hkf.
Qed.

Lemma foldl_msg_split fuel opts root b1 m b2 s s' :
  foldl (handle_msg fuel opts root) (Some s) (b1 ++ m :: b2) = Some s' ->
  exists s1 s2, foldl (handle_msg fuel opts root) (Some s) b1 = Some s1 /\
    handle_msg fuel opts root (Some s1) m = Some s2 /\
    foldl (handle_msg fuel opts root) (Some s2) b2 = Some s'.
Proof using Type.
  rewrite foldl_app. cbn [foldl].
  destruct (foldl _ (Some s) b1) as [s1|]; [|by rewrite foldl_msg_None].
  destruct (handle_msg _ _ _ (Some s1) m) as [s2|] eqn:E; [|by rewrite foldl_msg_None]. eauto.
Qed.

Lemma handle_remove_pending s opts p now :
  keyed (queue s) -> default_filter p = Passthrough ->
  exists d, pending (queue (handle_remove p s opts now)) !! p = Some d /\ event d = Removed p.
Proof using Type.
  intros Hk Hc. unfold handle_remove. rewrite Hc. simpl. rewrite lookup_push, decide_True by done.
  destruct (pending (queue s) !! p) as [x|] eqn:Hx; [|eauto]. eexists. split; [done|].
  destruct (Z.ltb_spec (priority_of (event x)) (priority_of (Removed p))); [done|].
  apply removed_is_top; [done|]. by apply Hk.
Qed.

Lemma removal_reported_from fuel opts root p t b1 b2 now post pre :
  default_filter p = Passthrough -> path_inside_root p root = true -> forall s out,
  keyed (queue s) ->
  pump_loop fuel opts root s
    (pre ++ (b1 ++ (MEvent {| kind := KRemove; paths := [p] |}, t) :: b2, now) :: post) = Some out ->
  Removed p ∈ out.
Proof using Type.
  intros Hc Hin. induction pre as [|[burst now'] pre IH]; intros s out Hk H; cbn [app pump_loop] in H;
    unfold pump_tick in H; destruct (foldl _ _ _) as [s1|] eqn:E; try done; simpl in H;
    destruct (flush (queue s1) _) as [q1 o1] eqn:Ef; simpl in H;
    destruct (pump_loop _ _ _ _ _) as [tl|] eqn:Et; try done; simpl in H; injection H as <-; rewrite elem_of_app.
  - apply foldl_msg_split in E as (sa & sb & E1 & E2 & E3).
    apply burst_keyed_supersedes in E1 as [Hka _]. specialize (Hka Hk).
    unfold handle_msg, handle_raw_event in E2. simpl in E2. rewrite Hin in E2. simpl in E2.
    injection E2 as <-. destruct (handle_remove_pending sa opts p t Hka Hc) as (d & Hd & He).
    apply burst_keyed_supersedes in E3 as [Hk1 Hs].
    assert (keyed (queue (handle_remove p sa opts t))) as Hkr.
    { pose proof (handle_plain_pushes KRemove p [] sa opts t) as (_&_&Hp). by eapply keyed_pushes. }
    specialize (Hk1 Hkr). destruct (Hs p d Hd) as (d1 & Hd1 & _ & Hpri). rewrite He in Hpri.
    apply removed_is_top in Hpri; [|by apply Hk1].
    destruct (flush_keeps (queue s1) now p d1 Hk1 Hd1) as [Hf|Hf]; rewrite Ef in Hf; simpl in Hf.
    + left. congruence.
    + right. apply (pending_removed_reported fuel opts root p post (with_queue s1 q1) d1); [|done..].
      pose proof (keyed_flush (queue s1) now Hk1) as Hkf. by rewrite Ef in Hkf.
  - right. eapply (IH (with_queue s1 q1)); [|exact Et]. apply burst_keyed_supersedes in E as [Hk1 _].
    pose proof (keyed_flush (queue s1) now' (Hk1 Hk)) as Hkf. by rewrite Ef in Hkf.
Qed.

(** A deletion is always reported: when the backend delivers the removal
    of an ordinary file under the root, [Removed] for that file is in the
    output, whatever comes before and after, up to and including the
    shutdown drain. *)
Theorem removal_is_reported fuel opts root pre b1 p t b2 now post out :
  default_filter p = Passthrough -> path_inside_root p root = true ->
  run_pump fuel opts root
    (pre ++ (b1 ++ (MEvent {| kind := KRemove; paths := [p] |}, t) :: b2, now) :: post) = Some out ->
  Removed p ∈ out.
Proof using Type. intros Hc Hin. apply removal_reported_from; [done..|]. apply (keyed_new _). Qed.
End pump.

(** ** The scans terminate *)
Section total.
Context {FS : WatchedFs}.

(** [fuel] turns are enough for the directories [l], whatever follows them. *)
Lemma rescan_loop_more fuel n cr now : forall s q,
  rescan_loop fuel cr now s = Some q -> rescan_loop (fuel + n) cr now s = Some q.
Proof using Type.
  induction fuel as [|fuel IH]; intros s q H; [done|]. cbn [rescan_loop Nat.add] in *.
  destruct (stack s) as [|[dir depth] rest]; [done|].
  destruct (_ <? _)%nat; [by apply IH|]. destruct (read_dir dir); by apply IH.
Qed.

Lemma rescan_loop_mono fuel fuel' cr now s q : (fuel <= fuel')%nat ->
  rescan_loop fuel cr now s = Some q -> rescan_loop fuel' cr now s = Some q.
Proof using Type.
  intros Hle H. replace fuel' with (fuel + (fuel' - fuel))%nat by lia. by apply rescan_loop_more.
Qed.

(** The stack [l] finishes from every cache and queue. *)
Definition finishes (cr : path) (now : Z) (l : list (path * nat)) : Prop :=
  forall cache q, exists fuel q',
    rescan_loop fuel cr now {| stack := l; canon_cache := cache; r_queue := q |} = Some q'.

(** One directory adds its children, all one level deeper. *)
Lemma rescan_entries_stack cr depth now es : forall s,
  exists children, stack (foldl (rescan_entry cr depth now) s es) = children ++ stack s /\
    Forall (fun c => c.2 = S depth) children.
Proof using Type.
  induction es as [|en es IH]; intros s; [by exists []|]. cbn [foldl].
  destruct (IH (rescan_entry cr depth now s en)) as (l & -> & Hl).
  assert (exists c, stack (rescan_entry cr depth now s en) = c ++ stack s /\
            Forall (fun c => c.2 = S depth) c) as (c & -> & Hc).
  { unfold rescan_entry. destruct (hidden_entry _); [by exists []|].
    destruct (e_type en) as [[]|]; try (by exists []);
      destruct (canonicalize_cached _ _); destruct (negb _); try (by exists []).
    exists [(e_path en, S depth)]. by repeat constructor. }
  exists (l ++ c). rewrite app_assoc. split; [done|]. by apply Forall_app.
Qed.

Lemma finishes_cons cr now : forall k depth dir rest,
  (RESCAN_MAX_DEPTH + 1 - depth <= k)%nat -> finishes cr now rest ->
  finishes cr now ((dir, depth) :: rest).
Proof using Type.
  induction k as [|k IH]; intros depth dir rest Hk Hrest cache q.
  - destruct (Hrest cache q) as (fuel & q' & Hf). exists (S fuel), q'. cbn [rescan_loop stack].
    rewrite (proj2 (Nat.ltb_lt RESCAN_MAX_DEPTH depth)) by lia. done.
  - destruct (Nat.ltb RESCAN_MAX_DEPTH depth) eqn:Ed.
    { destruct (Hrest cache q) as (fuel & q' & Hf). exists (S fuel), q'. cbn [rescan_loop stack].
      by rewrite Ed. }
    destruct (read_dir dir) as [es|] eqn:Er.
    2: { destruct (Hrest cache q) as (fuel & q' & Hf). exists (S fuel), q'. cbn [rescan_loop stack].
         by rewrite Ed, Er. }
    destruct (rescan_entries_stack cr depth now es
      {| stack := rest; canon_cache := cache; r_queue := q |}) as (children & Hst & Hch).
    assert (finishes cr now (children ++ rest)) as Hfin.
    { clear Hst. induction Hch as [|[p dp] l Hp Hl IHl]; [done|]. simpl in Hp. subst dp.
      apply IH; [|done]. apply Nat.ltb_ge in Ed. lia. }
    set (s' := foldl _ _ es) in *.
    destruct (Hfin (canon_cache s') (r_queue s')) as (fuel & q' & Hf). exists (S fuel), q'.
    cbn [rescan_loop stack]. rewrite Ed, Er. cbn [canon_cache r_queue]. fold s'.
    destruct s' as [st ca qu]. simpl in *. by rewrite Hst.
Qed.

Lemma rescan_finishes root q now : exists fuel q', rescan_into fuel root q now = Some q'.
Proof using Type.
  unfold rescan_into. destruct (canonicalize_cached ∅ root) as [cache cr].
  assert (finishes cr now [(root, 0%nat)]) as H.
  { eapply finishes_cons; [done|]. intros c q'. by exists 1%nat, q'. }
  apply H.
Qed.

Lemma rescan_into_mono fuel fuel' root q now q' : (fuel <= fuel')%nat ->
  rescan_into fuel root q now = Some q' -> rescan_into fuel' root q now = Some q'.
Proof using Type.
  unfold rescan_into. destruct (canonicalize_cached ∅ root). by apply rescan_loop_mono.
Qed.

Lemma handle_rescan_total root s now : exists fuel s', forall fuel', (fuel <= fuel')%nat ->
  handle_rescan fuel' root s now = Some s'.
Proof using Type.
  destruct (rescan_finishes root (queue s) now) as (fuel & q' & H).
  exists fuel, (with_queue s q'). intros fuel' Hle. unfold handle_rescan.
  by rewrite (rescan_into_mono fuel fuel' root (queue s) now q').
Qed.

Lemma handle_msg_total opts root s m : exists fuel s', forall fuel', (fuel <= fuel')%nat ->
  handle_msg fuel' opts root (Some s) m = Some s'.
Proof using Type.
  destruct m as [[e| |] now]; unfold handle_msg; simpl;
    [|apply handle_rescan_total|by exists 0%nat, s].
  unfold handle_raw_event. destruct (handle_rescan_total root s now) as (f & s' & H).
  destruct (paths e) as [|p rest]; [|destruct (negb _); [by exists 0%nat; eexists|]];
    destruct (kind e); try destruct (is_dir _);
    first [by exists 0%nat; eexists | by exists f, s'].
Qed.

Lemma burst_total opts root burst : forall s, exists fuel s', forall fuel', (fuel <= fuel')%nat ->
  foldl (handle_msg fuel' opts root) (Some s) burst = Some s'.
Proof using Type.
  induction burst as [|m burst IH]; intros s; [by exists 0%nat, s|].
  destruct (handle_msg_total opts root s m) as (f1 & s1 & H1).
  destruct (IH s1) as (f2 & s2 & H2). exists (Nat.max f1 f2), s2. intros fuel' Hle.
  cbn [foldl]. rewrite H1 by lia. apply H2. lia.
Qed.

Lemma pump_loop_total opts root ticks : forall s, exists fuel out, forall fuel', (fuel <= fuel')%nat ->
  pump_loop fuel' opts root s ticks = Some out.
Proof using Type.
  induction ticks as [|[burst now] ticks IH]; intros s; [by exists 0%nat; eexists|].
  destruct (burst_total opts root burst s) as (f1 & s1 & H1).
  destruct (flush (queue s1) now) as [q o] eqn:Ef.
  destruct (IH (with_queue s1 q)) as (f2 & tl & H2). exists (Nat.max f1 f2), (o ++ tl).
  intros fuel' Hle. cbn [pump_loop]. unfold pump_tick. rewrite H1 by lia. simpl. rewrite Ef. simpl.
  rewrite H2 by lia. done.
Qed.

(** The pump always terminates: on every file system the scans may meet,
    cyclic directory structures included, the depth cap bounds every rescan,
    so enough fuel exists for any finite sequence of messages, and more fuel
    does not change the output. *)
Theorem run_pump_terminates opts root ticks :
  exists fuel out, forall fuel', (fuel <= fuel')%nat -> run_pump fuel' opts root ticks = Some out.
Proof using Type. apply pump_loop_total. Qed.

(** ** Atomic saves *)

Lemma fresh_kept a now t : 0 <= now - t < atomic_window a -> fresh a now t = true.
Proof using Type. intros H. unfold fresh, saturating_since. apply Z.ltb_lt. lia. Qed.

Lemma recorded_lookup a tmp t0 now : 0 <= now - t0 < atomic_window a ->
  recent_temps (purge_stale (record_temp a tmp t0) now) !! tmp = Some t0.
Proof using Type.
  intros H. simpl. apply map_lookup_filter_Some. split; [by rewrite lookup_insert_eq|].
  by apply fresh_kept.
Qed.

(** The tracker of a recorded staging file, on each of the two paths. *)
Lemma recorded_rename a tmp final t0 now : 0 <= now - t0 < atomic_window a ->
  (rewrite_rename (record_temp a tmp t0) tmp final now).2 = Some (Modified final).
Proof using Type. intros H. unfold rewrite_rename. by rewrite recorded_lookup. Qed.

Lemma recorded_removed a tmp t0 now : 0 <= now - t0 < atomic_window a ->
  let '(a', hit) := note_temp_removed (record_temp a tmp t0) tmp now in
  hit = true /\ atomic_window a' = atomic_window a /\ exists l, recent_temp_removals a' = l ++ [now].
Proof using Type.
  intros H. unfold note_temp_removed. rewrite recorded_lookup by done. split_and!; [done..|].
  simpl. eauto.
Qed.

Lemma claim_pending a p now l : 0 < atomic_window a -> recent_temp_removals a = l ++ [now] ->
  (try_claim_create a p now).2 = Some (Modified p).
Proof using Type.
  intros Hw Hl. unfold try_claim_create. cbn [recent_temp_removals purge_stale]. rewrite Hl, filter_app.
  rewrite filter_cons_True by (apply fresh_kept; lia).
  by destruct (filter _ l).
Qed.

Lemma handle_msg_inside fuel opts root s k p rest now : path_inside_root p root = true ->
  handle_msg fuel opts root (Some s) (MEvent {| kind := k; paths := p :: rest |}, now) =
  match k with
  | KCreate => Some (handle_create p s opts now)
  | KModifyName m => Some (handle_rename m (p :: rest) s opts now)
  | KModify => Some (handle_modify p rest s opts now)
  | KRemove => Some (handle_remove p s opts now)
  | KAccess => Some s
  | KAny | KOther => if is_dir p then Some (with_queue s (enumerate_dir_into p (queue s) now))
                     else handle_rescan fuel root s now
  end.
Proof using Type. intros H. unfold handle_msg, handle_raw_event. simpl. by rewrite H. Qed.

(** Atomic saves.  An editor that writes a staging file and moves it
    over its target within the window produces exactly one event,
    [Modified] on the target: both when the backend delivers the rename
    whole and when it delivers it as a removal followed by a creation. *)
Theorem atomic_save_is_one_modified fuel opts root tmp final t0 t1 t2 :
  default_filter tmp = KnownTemp -> default_filter final = Passthrough ->
  path_inside_root tmp root = true -> path_inside_root final root = true ->
  0 <= t1 - t0 -> 0 <= t2 - t1 -> t2 - t0 < opt_atomic_window opts ->
  let create := (MEvent {| kind := KCreate; paths := [tmp] |}, t0) in
  let write := (MEvent {| kind := KModify; paths := [tmp] |}, t1) in
  let run l := (fun s => pending (queue s)) <$>
                 foldl (handle_msg fuel opts root) (Some (pump_init opts)) l in
  let saved := Some {[ final := {| event := Modified final; start := t2 |} ]} in
  run [create; write; (MEvent {| kind := KModifyName RBoth; paths := [tmp; final] |}, t2)] = saved /\
  run [create; write; (MEvent {| kind := KRemove; paths := [tmp] |}, t2);
       (MEvent {| kind := KCreate; paths := [final] |}, t2)] = saved.
Proof using Type.
  intros Ht Hf Hit Hif H1 H2 H3 create write run saved.
  assert (forall e now, pending (push (DebounceQueue_new (debounce opts)) e now)
            = {[ subject e := {| event := e; start := now |} ]}) as Hpush.
  { intros e now. unfold push. simpl. by rewrite lookup_empty, insert_empty. }
  unfold run, saved, create, write. cbn [foldl].
  rewrite !handle_msg_inside by done. cbn match.
  assert (handle_create tmp (pump_init opts) opts t0 = with_atomic (pump_init opts)
            (record_temp (AtomicSaveTracker_new (opt_atomic_window opts)) tmp t0)) as ->.
  { unfold handle_create. by rewrite Ht. }
  set (a1 := record_temp _ tmp t0).
  set (s1 := with_atomic _ a1).
  assert (handle_modify tmp [] s1 opts t1 = s1) as -> by (unfold handle_modify; by rewrite Ht).
  assert (0 <= t2 - t0 < atomic_window (AtomicSaveTracker_new (opt_atomic_window opts))) as Hw
    by (simpl; lia).
  split.
  - unfold handle_rename. rewrite Hf. cbn [is_dropped]. change (atomic s1) with a1.
    pose proof (recorded_rename _ tmp final t0 t2 Hw) as Hr. fold a1 in Hr.
    destruct (rewrite_rename a1 tmp final t2) as [a2 r]. simpl in Hr. subst r. simpl.
    by f_equal.
  - unfold handle_remove, handle_create. rewrite Ht, Hf. cbn [is_dropped].
    rewrite (bool_decide_eq_true_2 (KnownTemp = KnownTemp)) by done.
    rewrite (bool_decide_eq_false_2 (Passthrough = KnownTemp)) by done. change (atomic s1) with a1.
    pose proof (recorded_removed _ tmp t0 t2 Hw) as Hr. fold a1 in Hr.
    destruct (note_temp_removed a1 tmp t2) as [a2 hit]. destruct Hr as (_ & Hwin & l & Hl).
    unfold claim_or. cbn [fst with_atomic atomic].
    pose proof (claim_pending a2 final t2 l) as Hc.
    destruct (try_claim_create a2 final t2) as [a3 r]. simpl in Hc. rewrite Hc by (done || lia).
    simpl. by f_equal.
Qed.
End total.

(** ** A file system for the examples: no directories besides the root *)
Definition plain_fs : WatchedFs :=
  {| is_dir p := bool_decide (p = ["w"]);
     read_dir p := if bool_decide (p = ["w"])
                   then Some [{| e_path := ["w"; "b.bak"]; e_type := Some FRegular |}] else None;
     canonicalize := Some |}.
#[local] Existing Instance plain_fs.

Definition one_tick (e : RawEvent) : list (list (RawMsg * Z) * Z) := [([(MEvent e, 0)], 10)].

Lemma run_pump_filters_witness :
  exists out,
  run_pump 1 default_options ["w"] (one_tick {| kind := KModify; paths := [["w"; "a.txt"]] |}) = Some out /\
  Forall (fun e => default_filter (subject e) <> KnownTemp) out.
Proof.
  exists [Modified ["w"; "a.txt"]]. split; [vm_compute; reflexivity|].
  apply (run_pump_filters 1 default_options ["w"]
    (one_tick {| kind := KModify; paths := [["w"; "a.txt"]] |})); [vm_compute; reflexivity|].
  intros tk m e Htk Hm. apply list_elem_of_singleton in Htk as ->.
  apply list_elem_of_singleton in Hm as ->. intros H. injection H as <-. reflexivity.
Defined.

Lemma removal_is_reported_witness :
  exists out, run_pump 1 default_options ["w"]
    (one_tick {| kind := KRemove; paths := [["w"; "a.txt"]] |}) = Some out /\
  Removed ["w"; "a.txt"] ∈ out.
Proof.
  exists [Removed ["w"; "a.txt"]]. split; [vm_compute; reflexivity|].
  apply (removal_is_reported 1 default_options ["w"] [] [] ["w"; "a.txt"] 0 [] 10 []);
    vm_compute; reflexivity.
Defined.

Lemma atomic_save_is_one_modified_witness :
  (fun s => pending (queue s)) <$>
    foldl (handle_msg 1 default_options ["w"]) (Some (pump_init default_options))
      [(MEvent {| kind := KCreate; paths := [["w"; ".a.tmp"]] |}, 0);
       (MEvent {| kind := KModify; paths := [["w"; ".a.tmp"]] |}, 5);
       (MEvent {| kind := KModifyName RBoth; paths := [["w"; ".a.tmp"]; ["w"; "a"]] |}, 9)]
  = Some {[ ["w"; "a"] := {| event := Modified ["w"; "a"]; start := 9 |} ]}.
Proof.
  apply (atomic_save_is_one_modified 1 default_options ["w"] ["w"; ".a.tmp"] ["w"; "a"] 0 5 9);
    try (vm_compute; reflexivity); simpl; lia.
Defined.

(** The gaps of the filter.  The destination half of a rename reports a staging
    file; a created-again file is reported as removed; a directory scan reports
    editor backups even when they are filtered; and the destination of a
    stitched rename is not checked against the root. *)
Lemma rename_to_leaks_temp :
  run_pump 1 default_options ["w"] (one_tick {| kind := KModifyName RTo; paths := [["w"; "a.tmp"]] |})
  = Some [Created ["w"; "a.tmp"]].
Proof. vm_compute. reflexivity. Qed.

Lemma recreated_file_reported_removed :
  run_pump 1 default_options ["w"]
    [([(MEvent {| kind := KRemove; paths := [["w"; "a"]] |}, 0);
       (MEvent {| kind := KCreate; paths := [["w"; "a"]] |}, 1)], 600)]
  = Some [Removed ["w"; "a"]].
Proof. vm_compute. reflexivity. Qed.

Lemma scan_ignores_backup_option :
  let opts := {| debounce := 500; opt_atomic_window := 500; flush_interval := 50;
                 filter_editor_backups := true |} in
  run_pump 1 opts ["w"] (one_tick {| kind := KModify; paths := [["w"; "b.bak"]] |}) = Some [] /\
  run_pump 1 opts ["w"] (one_tick {| kind := KModify; paths := [["w"]] |})
  = Some [Modified ["w"; "b.bak"]].
Proof. vm_compute. split; reflexivity. Qed.

Lemma rename_destination_unchecked :
  run_pump 1 default_options ["w"]
    (one_tick {| kind := KModifyName RBoth; paths := [["w"; "a"]; ["elsewhere"; "a"]] |})
  = Some [Renamed ["w"; "a"] ["elsewhere"; "a"]].
Proof. vm_compute. reflexivity. Qed.
