(* ===== verification/Queue.v ===== *)
(** * The in-memory job queue ([Queue] of [freally-core/src/queue.rs])

    A queue is the vector its mutex guards, with the events sent on its
    broadcast channel.  Each operation is the critical section followed by the
    control signal and the event, as in the source; the two halves of
    [pause_job], [resume_job] and [cancel_job] are separate definitions because
    the signal is sent after the lock is released. *)
From S2P Require Import Prelude.
From S2P Require Import Text.
From S2P Require Import Control.
From S2P Require Import SyncPath.
From stdpp Require Import options.
Open Scope Z_scope.

Inductive JobKind := KCopy | KMove | KDelete | KSecureDelete | KVerify.

Inductive JobState := Pending | Running | JPaused | JCancelled | Succeeded | Failed.

#[export] Instance JobState_eq_dec : EqDecision JobState.
Proof. solve_decision. Defined.

(** The engine's typed error, by its message. *)
Abbreviation CopyError := string (only parsing).

Record Job := {
  id : Z;
  jkind : JobKind;
  src : path;
  dst : option path;
  state : JobState;
  bytes_done : Z;
  bytes_total : Z;
  files_done : Z;
  files_total : Z;
  started_at : option Z;
  finished_at : option Z;
  last_error : option CopyError;
}.

Inductive QueueEvent :=
| JobAdded (i : Z)
| JobStarted (i : Z)
| JobProgress (i bd bt fd ft : Z)
| JobPaused (i : Z)
| JobResumed (i : Z)
| JobCancelled (i : Z)
| JobCompleted (i : Z)
| JobFailed (i : Z) (err : CopyError)
| JobReordered (i : Z) (new_index : nat)
| JobRemoved (i : Z).

Record Entry := { job : Job; control : Shared }.

Record Queue := {
  q_id : Z;
  q_name : string;
  q_entries : list Entry;
  q_events : list QueueEvent;
}.

Definition entry_id (e : Entry) : Z := id (job e).
Arguments entry_id : simpl never.
Definition ids (q : Queue) : list Z := entry_id <$> q_entries q.

Definition with_entries (q : Queue) (l : list Entry) : Queue :=
  {| q_id := q_id q; q_name := q_name q; q_entries := l; q_events := q_events q |}.

Definition send (q : Queue) (e : QueueEvent) : Queue :=
  {| q_id := q_id q; q_name := q_name q; q_entries := q_entries q; q_events := q_events q ++ [e] |}.

Definition queue_new (i : Z) (name : string) : Queue :=
  {| q_id := i; q_name := name; q_entries := []; q_events := [] |}.

Definition with_state (j : Job) (s : JobState) : Job :=
  {| id := id j; jkind := jkind j; src := src j; dst := dst j; state := s;
     bytes_done := bytes_done j; bytes_total := bytes_total j; files_done := files_done j;
     files_total := files_total j; started_at := started_at j; finished_at := finished_at j;
     last_error := last_error j |}.

Definition with_finished (j : Job) (now : Z) : Job :=
  {| id := id j; jkind := jkind j; src := src j; dst := dst j; state := state j;
     bytes_done := bytes_done j; bytes_total := bytes_total j; files_done := files_done j;
     files_total := files_total j; started_at := started_at j; finished_at := Some now;
     last_error := last_error j |}.

Definition with_started (j : Job) (now : Z) : Job :=
  {| id := id j; jkind := jkind j; src := src j; dst := dst j; state := state j;
     bytes_done := bytes_done j; bytes_total := bytes_total j; files_done := files_done j;
     files_total := files_total j;
     started_at := match started_at j with Some t => Some t | None => Some now end;
     finished_at := finished_at j; last_error := last_error j |}.

Definition with_progress (j : Job) (bd bt fd ft : Z) : Job :=
  {| id := id j; jkind := jkind j; src := src j; dst := dst j; state := state j;
     bytes_done := bd; bytes_total := bt; files_done := fd; files_total := ft;
     started_at := started_at j; finished_at := finished_at j; last_error := last_error j |}.

Definition with_error (j : Job) (err : CopyError) : Job :=
  {| id := id j; jkind := jkind j; src := src j; dst := dst j; state := state j;
     bytes_done := bytes_done j; bytes_total := bytes_total j; files_done := files_done j;
     files_total := files_total j; started_at := started_at j; finished_at := finished_at j;
     last_error := Some err |}.

(** [iter().find(|e| e.job.id == id)] *)
Fixpoint find_entry (i : Z) (l : list Entry) : option Entry :=
  match l with
  | [] => None
  | e :: l' => if entry_id e =? i then Some e else find_entry i l'
  end.

(** [iter_mut().find(...)], then an update of the entry found. *)
Fixpoint update_entry (i : Z) (f : Entry -> Entry) (l : list Entry) : list Entry :=
  match l with
  | [] => []
  | e :: l' => if entry_id e =? i then f e :: l' else e :: update_entry i f l'
  end.

(** [iter().position(...)] *)
Fixpoint position (i : Z) (l : list Entry) : option nat :=
  match l with
  | [] => None
  | e :: l' => if entry_id e =? i then Some O else S <$> position i l'
  end.

Definition set_job (f : Job -> Job) (e : Entry) : Entry := {| job := f (job e); control := control e |}.
Definition set_control (f : Shared -> Shared) (e : Entry) : Entry :=
  {| job := job e; control := f (control e) |}.

(** ** Adding and looking up *)

Definition fresh_job (i : Z) (k : JobKind) (s : path) (d : option path) : Job :=
  {| id := i; jkind := k; src := s; dst := d; state := Pending; bytes_done := 0; bytes_total := 0;
     files_done := 0; files_total := 0; started_at := None; finished_at := None; last_error := None |}.

(** [add]: the id comes from the shared counter, which the queue returns
    stepped ([fetch_add] wraps). *)
Definition add (q : Queue) (next_id : Z) (k : JobKind) (s : path) (d : option path)
    : Queue * Z * Z :=
  (send (with_entries q (q_entries q ++ [{| job := fresh_job next_id k s d; control := control_new |}]))
     (JobAdded next_id), wrap64 (next_id + 1), next_id).

Definition snapshot (q : Queue) : list Job := job <$> q_entries q.
Definition get (q : Queue) (i : Z) : option Job := job <$> find_entry i (q_entries q).
Definition control_of (q : Queue) (i : Z) : option Shared := control <$> find_entry i (q_entries q).
Definition len (q : Queue) : nat := length (q_entries q).
Definition is_empty (q : Queue) : bool := (len q =? 0)%nat.

Definition elapsed (q : Queue) (i now : Z) : option Z :=
  e ← find_entry i (q_entries q);
  start ← started_at (job e);
  Some (default now (finished_at (job e)) - start).

(** ** Steering *)

(** The critical section of the steering operations: [Some] when the job is
    in a state the operation acts on. *)
Definition locked (q : Queue) (i : Z) (acts : Job -> bool) (f : Job -> Job) : Queue * bool :=
  match find_entry i (q_entries q) with
  | None => (q, false)
  | Some e =>
      if acts (job e) then (with_entries q (update_entry i (set_job f) (q_entries q)), true)
      else (q, false)
  end.

(** After the lock: signal the control, send the event. *)
Definition signal (q : Queue) (i : Z) (f : Shared -> Shared) (ev : QueueEvent) : Queue :=
  send (with_entries q (update_entry i (set_control f) (q_entries q))) ev.

Definition can_pause (j : Job) : bool := match state j with Running | Pending => true | _ => false end.
Definition pause_locked (q : Queue) (i : Z) : Queue * bool :=
  locked q i can_pause (fun j => with_state j JPaused).
Definition pause_job (q : Queue) (i : Z) : Queue :=
  let '(q, due) := pause_locked q i in if due then signal q i pause (JobPaused i) else q.

Definition can_resume (j : Job) : bool := match state j with JPaused => true | _ => false end.
Definition resumed (j : Job) : Job :=
  with_state j (match started_at j with Some _ => Running | None => Pending end).
Definition resume_locked (q : Queue) (i : Z) : Queue * bool := locked q i can_resume resumed.
Definition resume_job (q : Queue) (i : Z) : Queue :=
  let '(q, due) := resume_locked q i in if due then signal q i resume (JobResumed i) else q.

Definition terminal (s : JobState) : bool :=
  match s with JCancelled | Succeeded | Failed => true | _ => false end.
Definition cancel_locked (q : Queue) (i now : Z) : Queue * bool :=
  locked q i (fun j => negb (terminal (state j))) (fun j => with_finished (with_state j JCancelled) now).
Definition cancel_job (q : Queue) (i now : Z) : Queue :=
  let '(q, due) := cancel_locked q i now in if due then signal q i cancel (JobCancelled i) else q.

(** ** Order and removal *)

(** [Vec::remove] then [Vec::insert]. *)
Definition vec_remove {A} (l : list A) (n : nat) : list A := take n l ++ drop (S n) l.
Definition vec_insert {A} (l : list A) (n : nat) (x : A) : list A := take n l ++ x :: drop n l.

Definition reorder (q : Queue) (i : Z) (new_index : nat) : Queue :=
  match position i (q_entries q), find_entry i (q_entries q) with
  | Some current, Some e =>
      let clamped := Nat.min new_index (length (q_entries q) - 1) in
      if (current =? clamped)%nat then q
      else send (with_entries q (vec_insert (vec_remove (q_entries q) current) clamped e))
             (JobReordered i clamped)
  | _, _ => q
  end.

Definition remove (q : Queue) (i now : Z) : Queue :=
  let q := cancel_job q i now in
  match position i (q_entries q) with
  | Some pos => send (with_entries q (vec_remove (q_entries q) pos)) (JobRemoved i)
  | None => q
  end.

(** ** Runner-driven transitions *)

Definition start (q : Queue) (i now : Z) : Queue :=
  let '(q, changed) := locked q i (fun j => match state j with Pending | JPaused => true | _ => false end)
                         (fun j => with_started (with_state j Running) now) in
  if changed then send q (JobStarted i) else q.

Definition set_progress (q : Queue) (i bd bt fd ft : Z) : Queue :=
  let '(q, found) := locked q i (fun _ => true) (fun j => with_progress j bd bt fd ft) in
  if found then send q (JobProgress i bd bt fd ft) else q.

Definition completed (now : Z) (j : Job) : Job :=
  let j := with_finished (with_state j Succeeded) now in
  if 0 <? bytes_total j
  then with_progress j (bytes_total j) (bytes_total j) (files_done j) (files_total j) else j.

Definition mark_completed (q : Queue) (i now : Z) : Queue :=
  let '(q, changed) := locked q i (fun j => negb (bool_decide (state j = Succeeded))) (completed now) in
  if changed then send q (JobCompleted i) else q.

Definition mark_failed (q : Queue) (i : Z) (err : CopyError) (now : Z) : Queue :=
  let '(q, changed) := locked q i (fun j => negb (bool_decide (state j = Failed)))
        (fun j => with_error (with_finished (with_state j Failed) now) err) in
  if changed then send q (JobFailed i err) else q.

(** [absorb], for two queues that are not clones of each other: the drained
    source and the extended destination. *)
Definition absorb (self other : Queue) : Queue * Queue :=
  let drained := q_entries other in
  (foldl send (with_entries self (q_entries self ++ drained)) (JobAdded <$> (entry_id <$> drained)),
   foldl send (with_entries other []) (JobRemoved <$> (entry_id <$> drained))).

(** ** Lemmas *)

Lemma find_update i j f l : (forall e, entry_id (f e) = entry_id e) ->
  find_entry j (update_entry i f l) =
  if decide (i = j) then f <$> find_entry i l else find_entry j l.
Proof.
  intros Hf. induction l as [|e l IH]; simpl; [by case_decide|].
  destruct (Z.eqb_spec (entry_id e) i) as [Ei|Ei]; simpl.
  - rewrite Hf. case_decide as E.
    + subst j. by rewrite (proj2 (Z.eqb_eq _ _) Ei).
    + destruct (Z.eqb_spec (entry_id e) j); [congruence|done].
  - rewrite IH. case_decide as E; [|done]. subst j.
    by rewrite (proj2 (Z.eqb_neq _ _) Ei).
Qed.

Lemma update_ids i f l : (forall e, entry_id (f e) = entry_id e) ->
  entry_id <$> update_entry i f l = entry_id <$> l.
Proof.
  intros Hf. induction l as [|e l IH]; [done|]. simpl. destruct (_ =? _); simpl; [by rewrite Hf|].
  f_equal. exact IH.
Qed.

Lemma update_Forall (P : Entry -> Prop) i f l :
  (forall e, find_entry i l = Some e -> P e -> P (f e)) -> Forall P l -> Forall P (update_entry i f l).
Proof.
  intros Hf H. induction H as [|e l He Hl IH]; simpl in *; [constructor|].
  destruct (_ =? _); constructor; auto.
Qed.

Lemma update_update i f g l : (forall e, entry_id (f e) = entry_id e) ->
  update_entry i g (update_entry i f l) = update_entry i (fun e => g (f e)) l.
Proof.
  intros Hf. induction l as [|e l IH]; simpl; [done|].
  destruct (entry_id e =? i) eqn:E; simpl; [by rewrite Hf, E|by rewrite E, IH].
Qed.

Lemma position_spec i l n : position i l = Some n ->
  exists e, l !! n = Some e /\ find_entry i l = Some e /\ entry_id e = i /\
    l = take n l ++ e :: drop (S n) l /\ i ∉ entry_id <$> take n l.
Proof.
  revert n. induction l as [|e l IH]; intros n H; simpl in H; [done|].
  destruct (Z.eqb_spec (entry_id e) i) as [Ei|Ei].
  - injection H as <-. exists e. simpl. rewrite (proj2 (Z.eqb_eq _ _) Ei), drop_0.
    split_and!; try done. apply not_elem_of_nil.
  - destruct (position i l) as [m|]; [|done]. injection H as <-.
    destruct (IH m eq_refl) as (x & H1 & H2 & H3 & H4 & H5). exists x. simpl.
    rewrite (proj2 (Z.eqb_neq _ _) Ei). split_and!; [done..| |].
    + by rewrite <- H4.
    + rewrite not_elem_of_cons. split; [congruence|done].
Qed.

Lemma position_None i l : position i l = None <-> i ∉ entry_id <$> l.
Proof.
  induction l as [|e l IH]; simpl; [split; [intros _; apply not_elem_of_nil|done]|].
  rewrite not_elem_of_cons. destruct (Z.eqb_spec (entry_id e) i) as [->|Hne].
  - split; [done|]. by intros [? _].
  - destruct (position i l) as [m|]; simpl.
    + split; [done|]. intros [_ H]. apply IH in H. done.
    + split; [intros _; split; [congruence|exact (proj1 IH eq_refl)]|done].
Qed.

Lemma find_entry_id i l e : find_entry i l = Some e -> entry_id e = i /\ e ∈ l.
Proof.
  induction l as [|x l IH]; simpl; [done|]. destruct (Z.eqb_spec (entry_id x) i) as [E|E].
  - intros [= <-]. split; [done|left].
  - intros H. destruct (IH H). split; [done|by right].
Qed.

Lemma find_entry_elem i l e : NoDup (entry_id <$> l) -> e ∈ l -> entry_id e = i ->
  find_entry i l = Some e.
Proof.
  intros Hnd He Hi. induction l as [|x l IH]; [by apply elem_of_nil in He|].
  cbn [fmap list_fmap] in Hnd. apply NoDup_cons in Hnd as [Hx Hnd]. simpl.
  apply elem_of_cons in He as [->|He].
  - by rewrite (proj2 (Z.eqb_eq _ _) Hi).
  - destruct (Z.eqb_spec (entry_id x) i) as [E|E]; [|auto].
    exfalso. apply Hx. rewrite E, <- Hi. by apply list_elem_of_fmap_2.
Qed.

Lemma ids_locked q i acts f : (forall j, id (f j) = id j) -> ids (locked q i acts f).1 = ids q.
Proof.
  intros Hf. unfold locked. destruct (find_entry i _) as [e|]; [|done]. destruct (acts _); [|done].
  apply update_ids. intros x. apply Hf.
Qed.

Lemma ids_signal q i f ev : ids (signal q i f ev) = ids q.
Proof. apply update_ids. done. Qed.

Lemma get_locked q i acts f j : (forall x, id (f x) = id x) ->
  get (locked q i acts f).1 j =
  if decide (i = j) then (fun x => if acts x then f x else x) <$> get q i else get q j.
Proof.
  intros Hf. unfold locked, get. destruct (find_entry i (q_entries q)) as [e|] eqn:Ee.
  - destruct (acts (job e)) eqn:Ea; simpl.
    + rewrite find_update by (intros; apply Hf). case_decide as E; [|done]. subst j.
      rewrite Ee. simpl. by rewrite Ea.
    + case_decide as E; [|done]. subst j. rewrite Ee. simpl. by rewrite Ea.
  - simpl. case_decide as E; [|done]. subst j. by rewrite Ee.
Qed.

Lemma get_signal q i f ev j : get (signal q i f ev) j = get q j.
Proof.
  unfold get, signal. simpl. rewrite find_update by done.
  case_decide as E; [|done]. subst j. by destruct (find_entry i (q_entries q)).
Qed.

(** ** Operations as a type, and a job's life cycle *)

Inductive QOp :=
| OpAdd (k : JobKind) (s : path) (d : option path)
| OpPause (i : Z)
| OpResume (i : Z)
| OpCancel (i now : Z)
| OpReorder (i : Z) (n : nat)
| OpRemove (i now : Z)
| OpStart (i now : Z)
| OpProgress (i bd bt fd ft : Z)
| OpCompleted (i now : Z)
| OpFailed (i : Z) (err : CopyError) (now : Z).

(** The queue with its id counter. *)
Definition apply_op (s : Queue * Z) (op : QOp) : Queue * Z :=
  let '(q, next) := s in
  match op with
  | OpAdd k s d => let '(q', next', _) := add q next k s d in (q', next')
  | OpPause i => (pause_job q i, next)
  | OpResume i => (resume_job q i, next)
  | OpCancel i now => (cancel_job q i now, next)
  | OpReorder i n => (reorder q i n, next)
  | OpRemove i now => (remove q i now, next)
  | OpStart i now => (start q i now, next)
  | OpProgress i bd bt fd ft => (set_progress q i bd bt fd ft, next)
  | OpCompleted i now => (mark_completed q i now, next)
  | OpFailed i err now => (mark_failed q i err now, next)
  end.

(** The steering half and the runner's terminal marks. *)
Definition marks_end (op : QOp) : bool :=
  match op with OpCompleted _ _ | OpFailed _ _ _ => true | _ => false end.

Lemma get_finish_steer q i acts f g ev j : (forall x, id (f x) = id x) ->
  get (let '(q', due) := locked q i acts f in if due then signal q' i g ev else q') j =
  if decide (i = j) then (fun x => if acts x then f x else x) <$> get q i else get q j.
Proof.
  intros Hf. rewrite <- (get_locked q i acts f j Hf). destruct (locked q i acts f) as [q' []]; simpl.
  - apply get_signal.
  - done.
Qed.

Lemma get_finish_send q i acts f ev j : (forall x, id (f x) = id x) ->
  get (let '(q', due) := locked q i acts f in if due then send q' ev else q') j =
  if decide (i = j) then (fun x => if acts x then f x else x) <$> get q i else get q j.
Proof.
  intros Hf. rewrite <- (get_locked q i acts f j Hf). by destruct (locked q i acts f) as [q' []].
Qed.

Lemma completed_id now j : id (completed now j) = id j.
Proof. unfold completed. by destruct (0 <? _). Qed.

Lemma get_pause q i j : get (pause_job q i) j =
  if decide (i = j) then (fun x => if can_pause x then with_state x JPaused else x) <$> get q i
  else get q j.
Proof. by apply get_finish_steer. Qed.

Lemma get_resume q i j : get (resume_job q i) j =
  if decide (i = j) then (fun x => if can_resume x then resumed x else x) <$> get q i else get q j.
Proof. by apply get_finish_steer. Qed.

Lemma get_cancel q i now j : get (cancel_job q i now) j =
  if decide (i = j)
  then (fun x => if negb (terminal (state x)) then with_finished (with_state x JCancelled) now else x) <$> get q i
  else get q j.
Proof. by apply get_finish_steer. Qed.

Lemma ids_pause q i : ids (pause_job q i) = ids q.
Proof.
  unfold pause_job, pause_locked. pose proof (ids_locked q i can_pause (fun j => with_state j JPaused)) as H.
  destruct (locked _ _ _ _) as [q' []]; simpl in *; [rewrite ids_signal|]; by apply H.
Qed.

Lemma ids_cancel q i now : ids (cancel_job q i now) = ids q.
Proof.
  unfold cancel_job, cancel_locked.
  pose proof (ids_locked q i (fun j => negb (terminal (state j)))
    (fun j => with_finished (with_state j JCancelled) now)) as H.
  destruct (locked _ _ _ _) as [q' []]; simpl in *; [rewrite ids_signal|]; by apply H.
Qed.

(** ** Reordering *)

Lemma vec_move_perm {A} (l : list A) n m x :
  l !! n = Some x -> vec_insert (vec_remove l n) m x ≡ₚ l.
Proof.
  intros H. unfold vec_insert, vec_remove.
  rewrite <- Permutation_middle, take_drop. rewrite <- (take_drop_middle l n x H) at 3.
  by rewrite Permutation_middle.
Qed.

Lemma reorder_perm q i n : q_entries (reorder q i n) ≡ₚ q_entries q.
Proof.
  unfold reorder. destruct (position i (q_entries q)) as [c|] eqn:Ep; [|done].
  destruct (position_spec _ _ _ Ep) as (e & He & -> & _). destruct (c =? _)%nat; [done|].
  by apply vec_move_perm.
Qed.

(** The jobs other than [i], in order. *)
Definition others (i : Z) (q : Queue) : list Entry :=
  filter (fun e => entry_id e <> i) (q_entries q).

Lemma filter_vec_insert (P : Entry -> Prop) `{!forall e, Decision (P e)} l m x :
  ~ P x -> filter P (vec_insert l m x) = filter P l.
Proof.
  intros Hx. unfold vec_insert. rewrite filter_app, filter_cons_False by done.
  by rewrite <- filter_app, take_drop.
Qed.

(** Reordering.  [reorder] puts the job at the requested index, or at the
    last one when the index is too large, leaves the other jobs in their
    order, and neither adds, drops nor changes a job. *)
Theorem reorder_moves_only_the_job q i n e :
  NoDup (ids q) -> get q i = Some e ->
  q_entries (reorder q i n) ≡ₚ q_entries q /\
  others i (reorder q i n) = others i q /\
  (job <$> q_entries (reorder q i n) !! Nat.min n (length (q_entries q) - 1)) = Some e.
Proof.
  intros Hnd Hg. split; [apply reorder_perm|].
  unfold reorder. destruct (position i (q_entries q)) as [c|] eqn:Ep.
  2: { apply position_None in Ep. unfold get in Hg.
       destruct (find_entry i (q_entries q)) as [x|] eqn:Ex; [|done].
       apply find_entry_id in Ex as [<- Hx]. destruct Ep. by apply list_elem_of_fmap_2. }
  destruct (position_spec _ _ _ Ep) as (x & Hx & Hfx & Hix & Hsplit & _).
  unfold get in Hg. rewrite Hfx in *. simpl in Hg. injection Hg as <-.
  pose proof (lookup_lt_Some _ _ _ Hx) as Hlen.
  destruct (Nat.eqb_spec c (Nat.min n (length (q_entries q) - 1))) as [Ec|Ec].
  { split; [done|]. by rewrite <- Ec, Hx. }
  split.
  - unfold others. simpl. rewrite filter_vec_insert by (rewrite Hix; tauto).
    rewrite Hsplit at 2. unfold vec_remove. rewrite !filter_app.
    by rewrite (filter_cons_False _ x) by (rewrite Hix; tauto).
  - simpl. unfold vec_insert. rewrite lookup_app_r; rewrite length_take.
    + replace (_ - _)%nat with 0%nat; [done|]. unfold vec_remove.
      rewrite length_app, length_take, length_drop. lia.
    + lia.
Qed.

Lemma reorder_moves_only_the_job_witness :
  let q := ((apply_op (apply_op (apply_op (queue_new 1 "d", 1) (OpAdd KCopy [] None))
              (OpAdd KMove [] None)) (OpAdd KVerify [] None))).1 in
  ids (reorder q 1 9) = [2; 3; 1] /\ others 1 (reorder q 1 9) = others 1 q.
Proof.
  intros q. split; [vm_compute; reflexivity|].
  eapply (reorder_moves_only_the_job q 1 9); [|vm_compute; reflexivity].
  vm_compute. repeat constructor; rewrite ?elem_of_cons, ?elem_of_nil; intuition discriminate.
Defined.

(** ** Job state and control flag agree *)

(** A job's state and the flag its engine reads. *)
Definition coherent (e : Entry) : Prop :=
  match state (job e) with
  | Pending | Running => flag (control e) = RUNNING
  | JPaused => flag (control e) = PAUSED
  | JCancelled => flag (control e) = CANCELLED
  | Succeeded | Failed => True
  end.

Lemma steer_coherent q i acts f g ev :
  (forall j, id (f j) = id j) ->
  (forall e, acts (job e) = true -> coherent e -> coherent (set_control g (set_job f e))) ->
  Forall coherent (q_entries q) ->
  Forall coherent (q_entries (let '(q', due) := locked q i acts f in if due then signal q' i g ev else q')).
Proof.
  intros Hid Hf H. unfold locked. destruct (find_entry i (q_entries q)) as [e|] eqn:Ee; [|done].
  destruct (acts (job e)) eqn:Ea; [|done]. simpl. rewrite update_update by (intros; apply Hid).
  apply update_Forall; [|done]. intros x Hx. rewrite Ee in Hx. injection Hx as <-. auto.
Qed.

Lemma send_coherent q i acts f ev :
  (forall e, find_entry i (q_entries q) = Some e -> acts (job e) = true -> coherent e ->
     coherent (set_job f e)) ->
  Forall coherent (q_entries q) ->
  Forall coherent (q_entries (let '(q', due) := locked q i acts f in if due then send q' ev else q')).
Proof.
  intros Hf H. unfold locked. destruct (find_entry i (q_entries q)) as [e|] eqn:Ee; [|done].
  destruct (acts (job e)) eqn:Ea; [|done]. simpl.
  apply update_Forall; [|done]. intros x Hx. rewrite Ee in Hx. injection Hx as <-. by apply Hf.
Qed.

Lemma coherent_vec_remove l n : Forall coherent l -> Forall coherent (vec_remove l n).
Proof.
  intros H. unfold vec_remove. apply Forall_app. split; [by apply Forall_take|by apply Forall_drop].
Qed.

(** The flag after each signal. *)
Lemma flag_pause s : flag s = RUNNING -> flag (pause s) = PAUSED.
Proof. intros H. unfold pause, pause_cas, compare_exchange. by rewrite H. Qed.
Lemma flag_resume s : flag s = PAUSED -> flag (resume s) = RUNNING.
Proof. intros H. unfold resume, resume_cas, compare_exchange. by rewrite H. Qed.
Lemma flag_cancel s : flag (cancel s) = CANCELLED.
Proof. done. Qed.

(** [start] is for jobs that are not paused. *)
Definition starts_paused (q : Queue) (op : QOp) : Prop :=
  match op with
  | OpStart i _ => exists j, get q i = Some j /\ state j = JPaused
  | _ => False
  end.

Lemma coherent_cancel q i now : Forall coherent (q_entries q) ->
  Forall coherent (q_entries (cancel_job q i now)).
Proof. by apply steer_coherent. Qed.

Lemma apply_op_coherent q next op :
  ~ starts_paused q op -> Forall coherent (q_entries q) ->
  Forall coherent (q_entries (apply_op (q, next) op).1).
Proof.
  intros Hst H. destruct op as [k s d|i|i|i now|i n|i now|i now|i bd bt fd ft|i now|i err now]; simpl in *.
  - apply Forall_app. split; [done|]. by repeat constructor.
  - apply steer_coherent; [done| |done]. intros e Ha He. unfold can_pause, coherent in *. simpl.
    apply flag_pause. by destruct (state (job e)).
  - apply steer_coherent; [done| |done]. intros e Ha He. unfold can_resume, coherent in *.
    destruct (state (job e)); try done. unfold resumed. simpl.
    destruct (started_at (job e)); by apply flag_resume.
  - by apply coherent_cancel.
  - by rewrite reorder_perm.
  - unfold remove. pose proof (coherent_cancel q i now H) as Hc.
    destruct (position i _); [|done]. by apply coherent_vec_remove.
  - apply send_coherent; [|done]. intros e He Ha Hc. unfold coherent in *. simpl.
    destruct (state (job e)) eqn:Es; try done. exfalso. apply Hst. exists (job e).
    unfold get. by rewrite He.
  - by apply send_coherent.
  - apply send_coherent; [|done]. intros e _ _ _. unfold coherent, completed. simpl.
    by destruct (0 <? _).
  - by apply send_coherent.
Qed.

Fixpoint disciplined (s : Queue * Z) (ops : list QOp) : Prop :=
  match ops with
  | [] => True
  | op :: rest => ~ starts_paused s.1 op /\ disciplined (apply_op s op) rest
  end.

(** Steering reaches the engine.  In any run of queue operations that
    starts no paused job, each job's state matches the flag its engine
    reads: paused jobs are paused, cancelled ones cancelled, pending and
    running ones free to run. *)
Theorem steering_matches_state i name next ops :
  disciplined (queue_new i name, next) ops ->
  Forall coherent (q_entries (foldl apply_op (queue_new i name, next) ops).1).
Proof.
  assert (forall s, Forall coherent (q_entries s.1) -> disciplined s ops ->
            Forall coherent (q_entries (foldl apply_op s ops).1)) as H.
  { induction ops as [|op ops IH]; intros [q n] Hq Hd; [done|]. destruct Hd as [H1 H2].
    apply IH; [|done]. by apply apply_op_coherent. }
  intros Hd. apply H; [constructor|done].
Qed.

Lemma steering_matches_state_witness :
  Forall coherent (q_entries (foldl apply_op (queue_new 1 "d", 1)
    [OpAdd KCopy [] None; OpStart 1 5; OpPause 1; OpResume 1; OpCancel 1 9]).1).
Proof.
  apply steering_matches_state. simpl. repeat split; try (by intros []).
  intros (j & Hj & Hs). vm_compute in Hj. injection Hj as <-. discriminate Hs.
Defined.

(** [start] on a paused job: the state says running, the engine is parked. *)
Lemma start_paused_incoherent :
  let '(q, _) := foldl apply_op (queue_new 1 "d", 1) [OpAdd KCopy [] None; OpPause 1; OpStart 1 5] in
  (state <$> get q 1) = Some Running /\ (flag <$> control_of q 1) = Some PAUSED.
Proof. vm_compute. split; reflexivity. Qed.

(** Two threads, pause and resume: both critical sections run in order, the
    signals in the other order. *)
Lemma pause_resume_race q i e :
  find_entry i (q_entries q) = Some e -> state (job e) = Running -> started_at (job e) <> None ->
  flag (control e) = RUNNING ->
  let '(q1, _) := pause_locked q i in
  let '(q2, due) := resume_locked q1 i in
  let q3 := signal (signal q2 i resume (JobResumed i)) i pause (JobPaused i) in
  due = true /\ (state <$> get q3 i) = Some Running /\ (flag <$> control_of q3 i) = Some PAUSED.
Proof.
  intros He Hs Hst Hf. unfold pause_locked, resume_locked, locked. rewrite He. unfold can_pause.
  rewrite Hs. simpl. rewrite find_update, decide_True, He by done. simpl.
  assert (find_entry i (update_entry i (set_job resumed) (update_entry i (set_job (fun j => with_state j JPaused)) (q_entries q)))
          = Some (set_job resumed (set_job (fun j => with_state j JPaused) e))) as Hfe.
  { by rewrite !find_update, !decide_True, He by done. }
  split; [done|]. unfold get, control_of. simpl. rewrite !find_update, !decide_True by done.
  rewrite He. simpl. unfold resumed. simpl. destruct (started_at (job e)); [|done].
  split; [done|]. unfold resume, pause, pause_cas, resume_cas, compare_exchange. rewrite Hf. simpl.
  by rewrite Hf.
Qed.

(** ** Terminal states *)

Lemma find_app_some i l l' e : find_entry i l = Some e -> find_entry i (l ++ l') = Some e.
Proof. induction l as [|x l IH]; simpl; [done|]. destruct (_ =? _); auto. Qed.

Lemma get_reorder q i n j : NoDup (ids q) -> get (reorder q i n) j = get q j.
Proof.
  intros Hnd. pose proof (reorder_perm q i n) as Hp. unfold get. f_equal.
  assert (NoDup (entry_id <$> q_entries (reorder q i n))) as Hnd' by (by rewrite Hp).
  destruct (find_entry j (q_entries q)) as [e|] eqn:E.
  - apply find_entry_id in E as [Ej He]. apply find_entry_elem; [done|by rewrite Hp|done].
  - destruct (find_entry j (q_entries (reorder q i n))) as [e|] eqn:E'; [|done].
    apply find_entry_id in E' as [Ej He]. rewrite Hp in He.
    by rewrite (find_entry_elem j (q_entries q) e) in E.
Qed.

Lemma get_remove q i now j :
  NoDup (ids q) -> get (remove q i now) j = if decide (i = j) then None else get q j.
Proof.
  intros Hnd. unfold remove. assert (NoDup (ids (cancel_job q i now))) as Hnd' by (by rewrite ids_cancel).
  assert (get (cancel_job q i now) j = if decide (i = j) then get (cancel_job q i now) j else get q j)
    as Hg by (rewrite get_cancel; by case_decide).
  destruct (position i _) as [n|] eqn:Ep.
  - destruct (position_spec _ _ _ Ep) as (e & _ & _ & Hi & Hsplit & Hbefore).
    unfold get in *. simpl in *. unfold vec_remove. unfold ids in Hnd'. rewrite Hsplit in Hnd', Hg.
    rewrite fmap_app, fmap_cons in Hnd'.
    revert Hg Hnd' Hbefore. generalize (take n (q_entries (cancel_job q i now))) as a.
    generalize (drop (S n) (q_entries (cancel_job q i now))) as b. intros b a Hg Hnd' Hbefore.
    assert (forall l1 l2, j <> i -> find_entry j (l1 ++ e :: l2) = find_entry j (l1 ++ l2)) as Hskip.
    { intros l1 l2 Hne. induction l1 as [|x l1 IH]; simpl; [|by rewrite IH].
      by rewrite (proj2 (Z.eqb_neq (entry_id e) j)) by congruence. }
    case_decide as E.
    + subst j. destruct (find_entry i (a ++ b)) as [x|] eqn:Ex; [|done]. exfalso.
      apply find_entry_id in Ex as [Hxi Hx]. apply NoDup_app in Hnd' as (_ & _ & Hnd').
      apply NoDup_cons in Hnd' as [Hnotb _]. apply elem_of_app in Hx as [Hx|Hx].
      * apply Hbefore. rewrite <- Hxi. by apply list_elem_of_fmap_2.
      * apply Hnotb. rewrite Hi, <- Hxi. by apply list_elem_of_fmap_2.
    + rewrite <- Hskip by congruence. done.
  - rewrite Hg. case_decide as E; [|done]. subst j. apply position_None in Ep. unfold get.
    destruct (find_entry i _) as [x|] eqn:Ex; [|done]. exfalso.
    apply find_entry_id in Ex as [Hxi Hx]. apply Ep, list_elem_of_fmap. by exists x.
Qed.

(** A cancelled, completed or failed job stays so under everything the
    user or the progress reports do: pausing, resuming, cancelling again,
    restarting and reordering do not revive it.  (The runner's marks do: see
    [completed_overrides_cancelled].) *)
Theorem terminal_is_final q next op i j j' :
  NoDup (ids q) -> get q i = Some j -> terminal (state j) = true -> marks_end op = false ->
  get (apply_op (q, next) op).1 i = Some j' -> state j' = state j.
Proof.
  intros Hnd Hg Ht Hm H'.
  destruct op as [k s d|k|k|k now|k n|k now|k now|k bd bt fd ft|k now|k err now]; simpl in *; try done.
  - unfold get in *. simpl in H'. destruct (find_entry i (q_entries q)) as [e|] eqn:Ee; [|done].
    rewrite (find_app_some _ _ _ _ Ee) in H'. congruence.
  - rewrite get_pause in H'. case_decide as E; [|congruence]. subst k. rewrite Hg in H'.
    simplify_eq/=. unfold can_pause. by destruct (state j) eqn:Es.
  - rewrite get_resume in H'. case_decide as E; [|congruence]. subst k. rewrite Hg in H'.
    simplify_eq/=. unfold can_resume. by destruct (state j) eqn:Es.
  - rewrite get_cancel in H'. case_decide as E; [|congruence]. subst k. rewrite Hg in H'.
    simplify_eq/=. by rewrite Ht.
  - rewrite get_reorder in H' by done. congruence.
  - rewrite get_remove in H' by done. case_decide; [done|congruence].
  - unfold start in H'. rewrite get_finish_send in H' by done. case_decide as E; [|congruence]. subst k.
    rewrite Hg in H'. simplify_eq/=. by destruct (state j) eqn:Es.
  - unfold set_progress in H'. rewrite get_finish_send in H' by done. case_decide as E; [|congruence].
    subst k. rewrite Hg in H'. by simplify_eq/=.
Qed.

Lemma terminal_is_final_witness :
  let q := (foldl apply_op (queue_new 1 "d", 1) [OpAdd KCopy [] None; OpCancel 1 5]).1 in
  (state <$> get (start q 1 7) 1) = Some JCancelled.
Proof.
  intros q. destruct (get (start q 1 7) 1) as [j'|] eqn:E.
  - cbn [fmap option_fmap option_map]. f_equal.
    apply (terminal_is_final q 2 (OpStart 1 7) 1
      (with_finished (with_state (fresh_job 1 KCopy [] None) JCancelled) 5) j');
      [|vm_compute; reflexivity|vm_compute; reflexivity|reflexivity|exact E].
    vm_compute. repeat constructor; rewrite ?elem_of_cons, ?elem_of_nil; intuition discriminate.
  - vm_compute in E. discriminate E.
Defined.

Lemma completed_overrides_cancelled :
  let q := (foldl apply_op (queue_new 1 "d", 1) [OpAdd KCopy [] None; OpCancel 1 5; OpCompleted 1 9]).1 in
  (state <$> get q 1) = Some Succeeded /\ (flag <$> control_of q 1) = Some CANCELLED.
Proof. vm_compute. split; reflexivity. Qed.
