(* ===== verification/Registry.v ===== *)
(** * The queue registry ([QueueRegistry] of [freally-core/src/queue.rs])

    Queues are shared objects: [r_heap] holds every queue ever created, by its
    id, and [r_entries] the ones the registry knows.  [route] finds its queue
    under the registry lock and adds the job after releasing it, so the two
    halves are separate operations. *)
From S2P Require Import Prelude.
From S2P Require Import Text.
From S2P Require Import SyncPath.
From S2P Require Import Queue.
From stdpp Require Import pretty options.
Open Scope Z_scope.

(** The platform hook, and the [exists] probe of [probe_path]. *)
Class VolumeProbe := {
  volume_id : path -> option Z;
  drive_label : path -> option string;
  path_exists : path -> bool;
}.

Inductive QueueRegistryEvent :=
| QueueAdded (qid : Z) (name : string)
| QueueRemoved (qid : Z)
| QueueMerged (src dst : Z)
| JobRouted (queue_id job_id : Z).

Inductive QueueMergeError := UnknownSrc (i : Z) | UnknownDst (i : Z).

(** A registry entry: the queue's handle and the drive it was spawned for. *)
Abbreviation RegistryEntry := (Z * option Z)%type (only parsing).

Record Registry := {
  r_heap : gmap Z Queue;
  r_entries : list RegistryEntry;
  next_queue_id : Z;
  next_job_id : Z;
  auto_enqueue_next : bool;
  r_events : list QueueRegistryEvent;
}.

Definition registry_new : Registry :=
  {| r_heap := ∅; r_entries := []; next_queue_id := 1; next_job_id := 1;
     auto_enqueue_next := false; r_events := [] |}.

Definition with_heap (r : Registry) (h : gmap Z Queue) : Registry :=
  {| r_heap := h; r_entries := r_entries r; next_queue_id := next_queue_id r;
     next_job_id := next_job_id r; auto_enqueue_next := auto_enqueue_next r; r_events := r_events r |}.
Definition with_reg_entries (r : Registry) (l : list RegistryEntry) : Registry :=
  {| r_heap := r_heap r; r_entries := l; next_queue_id := next_queue_id r;
     next_job_id := next_job_id r; auto_enqueue_next := auto_enqueue_next r; r_events := r_events r |}.
Definition with_job_counter (r : Registry) (n : Z) : Registry :=
  {| r_heap := r_heap r; r_entries := r_entries r; next_queue_id := next_queue_id r;
     next_job_id := n; auto_enqueue_next := auto_enqueue_next r; r_events := r_events r |}.
Definition with_queue_counter (r : Registry) (n : Z) : Registry :=
  {| r_heap := r_heap r; r_entries := r_entries r; next_queue_id := n;
     next_job_id := next_job_id r; auto_enqueue_next := auto_enqueue_next r; r_events := r_events r |}.
Definition set_auto_enqueue (r : Registry) (b : bool) : Registry :=
  {| r_heap := r_heap r; r_entries := r_entries r; next_queue_id := next_queue_id r;
     next_job_id := next_job_id r; auto_enqueue_next := b; r_events := r_events r |}.
Definition announce (r : Registry) (e : QueueRegistryEvent) : Registry :=
  {| r_heap := r_heap r; r_entries := r_entries r; next_queue_id := next_queue_id r;
     next_job_id := next_job_id r; auto_enqueue_next := auto_enqueue_next r;
     r_events := r_events r ++ [e] |}.

(** The queue behind a handle. *)
Definition queue_at (h : gmap Z Queue) (i : Z) : Queue := default (queue_new i "") (h !! i).

(** [get]: the registry's own queue of that id. *)
Definition reg_get (r : Registry) (i : Z) : option Queue :=
  if bool_decide (i ∈ (r_entries r).*1) then r_heap r !! i else None.

Definition has_running (q : Queue) : bool :=
  existsb (fun j => bool_decide (state j = Running)) (snapshot q).

(** The first entry with a running job. *)
Definition find_running_queue (r : Registry) : option Z :=
  fst <$> List.find (fun e => has_running (queue_at (r_heap r) e.1)) (r_entries r).

(** ** Decimal rendering of the queue number in [queue {n}] *)
Definition pretty_id (i : Z) : string := pretty i.

Section registry.
Context (probe : option VolumeProbe).

Definition probe_path (p : VolumeProbe) (d : path) : path :=
  if @path_exists p d then d else default d (parent d).

Definition dst_drive (d : option path) : option Z :=
  match d, probe with
  | Some d, Some p => @volume_id p (probe_path p d)
  | _, _ => None
  end.

Definition dst_label (d : option path) : option string :=
  match d, probe with
  | Some d, Some p => @drive_label p (probe_path p d)
  | _, _ => None
  end.

Definition queue_name (label : option string) (drive : option Z) (qid : Z) : string :=
  match label, drive with
  | Some l, _ => l +:+ " queue"
  | None, Some _ => "queue " +:+ pretty_id qid
  | None, None => "default"
  end.

(** Find or spawn, under the registry lock. *)
Definition find_or_spawn (r : Registry) (d : option path) : Registry * Z :=
  let drive := dst_drive d in
  match List.find (fun e => bool_decide (e.2 = drive)) (r_entries r) with
  | Some e => (r, e.1)
  | None =>
      let qid := next_queue_id r in
      let q := queue_new qid (queue_name (dst_label d) drive qid) in
      let r := with_queue_counter r (wrap64 (qid + 1)) in
      let r := with_heap r (<[qid := q]> (r_heap r)) in
      let r := with_reg_entries r (r_entries r ++ [(qid, drive)]) in
      (announce r (QueueAdded qid (q_name q)), qid)
  end.

(** The half of [route] before [queue.add]. *)
Definition route_select (r : Registry) (d : option path) : Registry * Z :=
  match (if auto_enqueue_next r then find_running_queue r else None) with
  | Some qid => (r, qid)
  | None => find_or_spawn r d
  end.

(** [queue.add] on the handle, with the shared job counter. *)
Definition add_job (r : Registry) (qid : Z) (k : JobKind) (s : path) (d : option path)
    : Registry * Z :=
  let '(q, next, jid) := add (queue_at (r_heap r) qid) (next_job_id r) k s d in
  (with_job_counter (with_heap r (<[qid := q]> (r_heap r))) next, jid).

Definition route_add (r : Registry) (qid : Z) (k : JobKind) (s : path) (d : option path)
    : Registry * Z :=
  let '(r, jid) := add_job r qid k s d in (announce r (JobRouted qid jid), jid).

Definition route (r : Registry) (k : JobKind) (s : path) (d : option path) : Registry * Z * Z :=
  let '(r, qid) := route_select r d in
  let '(r, jid) := route_add r qid k s d in
  (r, qid, jid).
End registry.

Definition merge_into (r : Registry) (src dst : Z) : result QueueMergeError Registry :=
  if src =? dst then Ok r
  else
    let? src_queue := ok_or (reg_get r src) (UnknownSrc src) in
    let? dst_queue := ok_or (reg_get r dst) (UnknownDst dst) in
    let '(dst_queue, src_queue) := absorb dst_queue src_queue in
    let r := with_heap r (<[dst := dst_queue]> (<[src := src_queue]> (r_heap r))) in
    let r := with_reg_entries r (filter (fun e => e.1 <> src) (r_entries r)) in
    Ok (announce (announce r (QueueMerged src dst)) (QueueRemoved src)).

Definition prune_empty (r : Registry) : Registry * list Z :=
  let drained := (filter (fun e => is_empty (queue_at (r_heap r) e.1) = true) (r_entries r)).*1 in
  match drained with
  | [] => (r, [])
  | _ =>
      let kept := filter (fun e => is_empty (queue_at (r_heap r) e.1) = false) (r_entries r) in
      (foldl announce (with_reg_entries r kept) (QueueRemoved <$> drained), drained)
  end.

(** A queue operation other than [add], through a handle. *)
Definition queue_op (r : Registry) (qid : Z) (op : QOp) : Registry :=
  let '(q, next) := apply_op (queue_at (r_heap r) qid, next_job_id r) op in
  with_job_counter (with_heap r (<[qid := q]> (r_heap r))) next.

(** ** The jobs the registry holds *)

Definition jobs_of (h : gmap Z Queue) (i : Z) : list Z := ids (queue_at h i).
Definition all_jobs (h : gmap Z Queue) (l : list RegistryEntry) : list Z :=
  mjoin ((fun e => jobs_of h e.1) <$> l).

Record reg_ok (r : Registry) : Prop := {
  ok_handles : NoDup (r_entries r).*1;
  ok_live : forall i, i ∈ (r_entries r).*1 -> exists q, r_heap r !! i = Some q /\ q_id q = i;
  ok_queue_ids : forall i, is_Some (r_heap r !! i) -> i < next_queue_id r;
  ok_jobs : NoDup (all_jobs (r_heap r) (r_entries r));
  ok_job_ids : forall i j, j ∈ jobs_of (r_heap r) i -> j < next_job_id r;
  ok_drives : NoDup (r_entries r).*2;
  ok_counters : is_u64 (next_queue_id r) /\ is_u64 (next_job_id r);
}.

Lemma queue_at_insert h i q j : queue_at (<[i := q]> h) j = if decide (i = j) then q else queue_at h j.
Proof. unfold queue_at. rewrite lookup_insert. by case_decide. Qed.

Lemma all_jobs_perm h l l' : l ≡ₚ l' -> all_jobs h l ≡ₚ all_jobs h l'.
Proof. intros H. unfold all_jobs. by rewrite H. Qed.

Lemma all_jobs_app h l l' : all_jobs h (l ++ l') = all_jobs h l ++ all_jobs h l'.
Proof. unfold all_jobs. by rewrite fmap_app, join_app. Qed.

Lemma all_jobs_cons h e l : all_jobs h (e :: l) = jobs_of h e.1 ++ all_jobs h l.
Proof. done. Qed.

Lemma all_jobs_insert h i q l : i ∉ l.*1 -> all_jobs (<[i := q]> h) l = all_jobs h l.
Proof.
  intros Hi. unfold all_jobs. f_equal. apply list_fmap_ext. intros k [j d] Hk. simpl.
  unfold jobs_of. rewrite queue_at_insert, decide_False; [done|]. intros ->. apply Hi.
  apply list_elem_of_fmap. exists (j, d). split; [done|]. by eapply list_elem_of_lookup_2.
Qed.

(** The entries around one handle. *)
Lemma entries_split (l : list RegistryEntry) i : i ∈ l.*1 -> NoDup l.*1 ->
  exists d rest, l ≡ₚ (i, d) :: rest /\ i ∉ rest.*1.
Proof.
  intros ([j d] & -> & Hin)%list_elem_of_fmap Hnd. apply list_elem_of_split in Hin as (l1 & l2 & ->).
  exists d, (l1 ++ l2). simpl. split; [by rewrite Permutation_middle|].
  rewrite fmap_app in *. simpl in *. apply NoDup_app in Hnd as (_ & H1 & H2).
  apply NoDup_cons in H2 as [H2 _]. rewrite not_elem_of_app. split; [|done].
  intros H. apply (H1 j H). left.
Qed.

(** Replacing one live queue. *)
Lemma all_jobs_update h i q l : i ∈ l.*1 -> NoDup l.*1 ->
  exists rest, all_jobs h l ≡ₚ jobs_of h i ++ rest /\ all_jobs (<[i := q]> h) l ≡ₚ ids q ++ rest.
Proof.
  intros Hi Hnd. destruct (entries_split l i Hi Hnd) as (d & tl & Hp & Htl).
  exists (all_jobs h tl). rewrite !(all_jobs_perm _ _ _ Hp), !all_jobs_cons.
  split; [done|]. unfold jobs_of at 1. cbn [fst].
  rewrite queue_at_insert, decide_True by done. by rewrite all_jobs_insert.
Qed.

Lemma elem_of_all_jobs h l j : j ∈ all_jobs h l <-> exists i, i ∈ l.*1 /\ j ∈ jobs_of h i.
Proof.
  unfold all_jobs. rewrite list_elem_of_join. split.
  - intros (x & Hj & ([i d] & -> & Hin)%list_elem_of_fmap). exists i. split; [|done].
    apply list_elem_of_fmap. by exists (i, d).
  - intros (i & ([i' d] & -> & Hin)%list_elem_of_fmap & Hj). exists (jobs_of h i'). split; [done|].
    apply list_elem_of_fmap. by exists (i', d).
Qed.

(** ** What the operations do to the ids of a queue *)

Lemma vec_remove_sublist {A} (l : list A) n : vec_remove l n `sublist_of` l.
Proof.
  unfold vec_remove. rewrite <- (take_drop n l) at 3. apply sublist_app; [done|].
  replace (drop (S n) l) with (drop 1 (drop n l)) by (rewrite drop_drop; f_equal; lia).
  apply sublist_drop.
Qed.

Lemma ids_finish_send q i acts f ev : (forall j, id (f j) = id j) ->
  ids (let '(q', due) := locked q i acts f in if due then send q' ev else q') = ids q.
Proof.
  intros Hf. rewrite <- (ids_locked q i acts f Hf). by destruct (locked q i acts f) as [q' []].
Qed.

Lemma ids_finish_steer q i acts f g ev : (forall j, id (f j) = id j) ->
  ids (let '(q', due) := locked q i acts f in if due then signal q' i g ev else q') = ids q.
Proof.
  intros Hf. rewrite <- (ids_locked q i acts f Hf).
  destruct (locked q i acts f) as [q' []]; simpl; [apply ids_signal|done].
Qed.

Lemma apply_op_ids q n op :
  (exists k s d, op = OpAdd k s d /\ ids (apply_op (q, n) op).1 = ids q ++ [n] /\
     (apply_op (q, n) op).2 = wrap64 (n + 1)) \/
  (ids (apply_op (q, n) op).1 ⊆+ ids q /\ (apply_op (q, n) op).2 = n).
Proof.
  destruct op as [k s d|k|k|k now|k m|k now|k now|k bd bt fd ft|k now|k err now]; simpl.
  - left. exists k, s, d. split_and!; [done| |done]. unfold ids. simpl. by rewrite fmap_app.
  - right. split; [|done]. unfold pause_job, pause_locked. by rewrite ids_finish_steer.
  - right. split; [|done]. unfold resume_job, resume_locked. by rewrite ids_finish_steer.
  - right. split; [|done]. unfold cancel_job, cancel_locked. by rewrite ids_finish_steer.
  - right. split; [|done]. unfold ids. by rewrite reorder_perm.
  - right. split; [|done]. rewrite <- (ids_cancel q k now). unfold Queue.remove.
    destruct (position k (q_entries (cancel_job q k now))); [|done].
    apply (fmap_submseteq entry_id), sublist_submseteq.
    apply vec_remove_sublist.
  - right. split; [|done]. unfold start. by rewrite ids_finish_send.
  - right. split; [|done]. unfold set_progress. by rewrite ids_finish_send.
  - right. split; [|done]. unfold mark_completed. rewrite ids_finish_send; [done|].
    intros j. apply completed_id.
  - right. split; [|done]. unfold mark_failed. by rewrite ids_finish_send.
Qed.

Lemma q_id_locked q i acts f : q_id (locked q i acts f).1 = q_id q.
Proof. unfold locked. destruct (find_entry _ _); [|done]. by destruct (acts _). Qed.

Lemma q_id_finish q i acts f (g : Queue -> Queue) : (forall x, q_id (g x) = q_id x) ->
  q_id (let '(q', due) := locked q i acts f in if due then g q' else q') = q_id q.
Proof.
  intros Hg. rewrite <- (q_id_locked q i acts f). destruct (locked q i acts f) as [q' []]; simpl; auto.
Qed.

Lemma q_id_cancel q i now : q_id (cancel_job q i now) = q_id q.
Proof. apply (q_id_finish _ _ _ _ (fun q' => signal q' i Control.cancel (JobCancelled i))). done. Qed.

Lemma apply_op_q_id q n op : q_id (apply_op (q, n) op).1 = q_id q.
Proof.
  destruct op as [k s d|k|k|k now|k m|k now|k now|k bd bt fd ft|k now|k err now]; simpl.
  - done.
  - apply (q_id_finish _ _ _ _ (fun q' => signal q' k Control.pause (JobPaused k))). done.
  - apply (q_id_finish _ _ _ _ (fun q' => signal q' k Control.resume (JobResumed k))). done.
  - apply q_id_cancel.
  - unfold reorder. destruct (position _ _); [|done]. destruct (find_entry _ _); [|done].
    by destruct (_ =? _)%nat.
  - unfold Queue.remove. destruct (position _ _); [|apply q_id_cancel]. simpl. apply q_id_cancel.
  - apply (q_id_finish _ _ _ _ (fun q' => send q' (JobStarted k))). done.
  - apply (q_id_finish _ _ _ _ (fun q' => send q' (JobProgress k bd bt fd ft))). done.
  - apply (q_id_finish _ _ _ _ (fun q' => send q' (JobCompleted k))). done.
  - apply (q_id_finish _ _ _ _ (fun q' => send q' (JobFailed k err))). done.
Qed.

(** ** The invariant under the operations *)

Lemma wrap64_succ x : is_u64 x -> x < U64_MAX -> wrap64 (x + 1) = x + 1 /\ is_u64 (x + 1).
Proof. unfold is_u64. intros. split; [apply wrap64_id; unfold is_u64|]; lia. Qed.

Lemma NoDup_submseteq (l k : list Z) : l ⊆+ k -> NoDup k -> NoDup l.
Proof.
  intros H Hk. apply submseteq_Permutation in H as [l' Hl']. rewrite Hl' in Hk.
  by apply NoDup_app in Hk as [? _].
Qed.

(** One queue, live or dropped, replaced by what an operation makes of it. *)
Lemma queue_op_ok r i op : reg_ok r -> is_Some (r_heap r !! i) -> next_job_id r < U64_MAX ->
  reg_ok (queue_op r i op).
Proof.
  intros [Hh Hl Hq Hj Hi Hd [Hc1 Hc2]] [q Hqi] Hmax. unfold queue_op.
  assert (queue_at (r_heap r) i = q) as -> by (unfold queue_at; by rewrite Hqi).
  pose proof (apply_op_ids q (next_job_id r) op) as Hids.
  pose proof (apply_op_q_id q (next_job_id r) op) as Hqid.
  destruct (apply_op (q, next_job_id r) op) as [q' n']. simpl in *.
  destruct (wrap64_succ _ Hc2 Hmax) as [Hw Hw'].
  assert (jobs_of (r_heap r) i = ids q) as Hji by (unfold jobs_of, queue_at; by rewrite Hqi).
  assert (next_job_id r <= n' /\ is_u64 n' /\
          forall j, j ∈ ids q' -> j ∈ ids q \/ (j = next_job_id r /\ next_job_id r < n')) as (Hle & Hu & Hsub).
  { destruct Hids as [(k & s & d & -> & Hids & ->)|[Hids ->]].
    - rewrite Hw. split_and!; [lia|done|]. intros j. rewrite Hids, elem_of_app, list_elem_of_singleton.
      intros [?| ->]; [by left|right; lia].
    - split_and!; [lia|done|]. intros j Hjj. left. by eapply elem_of_submseteq. }
  split; simpl.
  - done.
  - intros k Hk. rewrite lookup_insert. destruct (Hl k Hk) as (qk & Hqk & <-).
    case_decide as E; [|eauto]. exists q'. split; [done|]. rewrite Hqid. congruence.
  - intros k. rewrite lookup_insert. case_decide as E; [intros _; subst k|]; apply Hq; eauto.
  - destruct (decide (i ∈ (r_entries r).*1)) as [Hin|Hnin].
    2: { by rewrite all_jobs_insert. }
    destruct (all_jobs_update (r_heap r) i q' (r_entries r) Hin Hh) as (rest & H1 & H2).
    rewrite H2. rewrite H1, Hji in Hj.
    destruct Hids as [(k & s & d & -> & Hids & _)|[Hids _]].
    + rewrite Hids, <- app_assoc. rewrite (Permutation_app_comm [next_job_id r]), app_assoc.
      apply NoDup_app. split_and!; [done| |apply NoDup_singleton].
      intros j Hjj ->%list_elem_of_singleton.
      assert (next_job_id r ∈ all_jobs (r_heap r) (r_entries r)) as Hbad by (by rewrite H1, Hji).
      apply elem_of_all_jobs in Hbad as (h & _ & Hbad). apply Hi in Hbad. lia.
    + apply (NoDup_submseteq _ (ids q ++ rest)); [by apply submseteq_skips_r|done].
  - intros k j. unfold jobs_of. rewrite queue_at_insert. case_decide as E.
    + subst k. intros Hjj. destruct (Hsub j Hjj) as [Hjq|[-> ?]]; [|done].
      rewrite <- Hji in Hjq. apply Hi in Hjq. lia.
    + intros Hjj. specialize (Hi k j Hjj). lia.
  - done.
  - done.
Qed.

Lemma announce_ok r e : reg_ok r -> reg_ok (announce r e).
Proof. by intros []. Qed.

Lemma mode_ok r b : reg_ok r -> reg_ok (set_auto_enqueue r b).
Proof. by intros []. Qed.

Lemma route_add_op r qid k s d : route_add r qid k s d =
  (announce (queue_op r qid (OpAdd k s d)) (JobRouted qid (next_job_id r)), next_job_id r).
Proof. done. Qed.

Section steps.
Context (probe : option VolumeProbe).

(** [route]'s first half: the queue it picks is live, serves the drive, and
    no job moves. *)
Lemma find_or_spawn_ok r d : reg_ok r -> next_queue_id r < U64_MAX ->
  let '(r', qid) := find_or_spawn probe r d in
  reg_ok r' /\ (qid, dst_drive probe d) ∈ r_entries r' /\
  all_jobs (r_heap r') (r_entries r') = all_jobs (r_heap r) (r_entries r) /\
  next_job_id r' = next_job_id r.
Proof using Type.
  intros Hok Hmax. unfold find_or_spawn.
  destruct (List.find _ (r_entries r)) as [[i dr]|] eqn:Ef.
  - apply find_some in Ef as [Hin Hb%bool_decide_eq_true]. simpl in *. subst dr.
    split_and!; [done| |done|done]. by apply list_elem_of_In.
  - destruct Hok as [Hh Hl Hq Hj Hi Hd [Hc1 Hc2]].
    set (qid := next_queue_id r) in *. set (q := queue_new _ _).
    destruct (wrap64_succ _ Hc1 Hmax) as [Hw Hw'].
    assert (r_heap r !! qid = None) as Hfree.
    { destruct (r_heap r !! qid) eqn:E; [|done]. assert (qid < qid) by (apply Hq; eauto). lia. }
    assert (qid ∉ (r_entries r).*1) as Hnew.
    { intros Hin. destruct (Hl _ Hin) as (x & Hx & _). congruence. }
    assert (all_jobs (<[qid := q]> (r_heap r)) (r_entries r ++ [(qid, dst_drive probe d)])
            = all_jobs (r_heap r) (r_entries r)) as Hall.
    { rewrite all_jobs_app, all_jobs_insert by done. rewrite all_jobs_cons.
      unfold jobs_of. cbn [fst]. rewrite queue_at_insert, decide_True by done. apply app_nil_r. }
    split_and!; [|simpl; apply elem_of_app; right; by left|exact Hall|done].
    split; simpl.
    + rewrite fmap_app. simpl. apply NoDup_app. split_and!; [done| |apply NoDup_singleton].
      intros x Hx ->%list_elem_of_singleton. done.
    + intros x. rewrite fmap_app, elem_of_app, lookup_insert. simpl.
      intros [Hx|Hx].
      * destruct (Hl x Hx) as (y & Hy & ?). case_decide; [|eauto]. subst x. congruence.
      * apply list_elem_of_singleton in Hx as ->. rewrite decide_True by done. by exists q.
    + intros x. fold qid in Hw. rewrite Hw, lookup_insert. case_decide as E; [lia|].
      intros Hx. specialize (Hq x Hx). lia.
    + by rewrite Hall.
    + intros x j. unfold jobs_of. rewrite queue_at_insert. case_decide; [|apply Hi].
      intros Hx. by apply elem_of_nil in Hx.
    + rewrite fmap_app. simpl. apply NoDup_app. split_and!; [done| |apply NoDup_singleton].
      intros dr Hdr ->%list_elem_of_singleton.
      apply list_elem_of_fmap in Hdr as ([x dr'] & Edr & Hin). simpl in Edr.
      pose proof (find_none _ _ Ef (x, dr') (proj1 (list_elem_of_In _ _) Hin)) as Hb.
      apply bool_decide_eq_false in Hb. simpl in Hb. congruence.
    + split; [|done]. fold qid in Hw. by rewrite Hw.
Qed.

Lemma find_running_live r i : find_running_queue r = Some i -> i ∈ (r_entries r).*1.
Proof using Type.
  unfold find_running_queue. intros ([j dr] & Hf & ->)%fmap_Some.
  apply find_some in Hf as [Hin _]. apply list_elem_of_fmap. exists (j, dr).
  split; [done|]. by apply list_elem_of_In.
Qed.

Lemma route_select_ok r d : reg_ok r -> next_queue_id r < U64_MAX ->
  let '(r', qid) := route_select probe r d in
  reg_ok r' /\ qid ∈ (r_entries r').*1 /\
  (auto_enqueue_next r = false -> (qid, dst_drive probe d) ∈ r_entries r') /\
  all_jobs (r_heap r') (r_entries r') = all_jobs (r_heap r) (r_entries r) /\
  next_job_id r' = next_job_id r.
Proof using Type.
  intros Hok Hmax. unfold route_select.
  pose proof (find_or_spawn_ok r d Hok Hmax) as Hfs.
  destruct (auto_enqueue_next r) eqn:Ea.
  - destruct (find_running_queue r) as [i|] eqn:Er.
    + split_and!; [done|by apply find_running_live|done|done|done].
    + destruct (find_or_spawn probe r d) as [r' qid]. destruct Hfs as (?&Hin&?&?).
      split_and!; [done| |done|done|done]. apply list_elem_of_fmap. by exists (qid, dst_drive probe d).
  - destruct (find_or_spawn probe r d) as [r' qid]. destruct Hfs as (?&Hin&?&?).
    split_and!; [done| |done|done|done]. apply list_elem_of_fmap. by exists (qid, dst_drive probe d).
Qed.

Lemma absorb_ids self other :
  let '(s, o) := absorb self other in
  ids s = ids self ++ ids other /\ ids o = [] /\ q_id s = q_id self /\ q_id o = q_id other.
Proof using Type.
  assert (forall l q, q_entries (foldl send q l) = q_entries q /\ q_id (foldl send q l) = q_id q) as H.
  { induction l as [|e l IH]; intros q; [done|]. simpl. destruct (IH (send q e)) as [-> ->]. done. }
  unfold absorb, ids. rewrite !(proj1 (H _ _)), !(proj2 (H _ _)). simpl. by rewrite fmap_app.
Qed.

(** The entries other than one handle. *)
Lemma entries_without (l : list RegistryEntry) i : NoDup l.*1 -> i ∈ l.*1 ->
  exists d, l ≡ₚ (i, d) :: filter (fun e => e.1 <> i) l.
Proof using Type.
  intros Hnd Hi. destruct (entries_split l i Hi Hnd) as (d & rest & Hp & Hn). exists d.
  assert (filter (fun e => e.1 <> i) l ≡ₚ rest) as ->; [|done].
  rewrite Hp, filter_cons_False by (simpl; tauto).
  clear Hp. induction rest as [|[j x] rest IH]; [done|].
  cbn [fmap list_fmap] in Hn. rewrite not_elem_of_cons in Hn. destruct Hn as [Hne Hn]. simpl in Hne.
  rewrite filter_cons_True by (simpl; congruence). by rewrite IH.
Qed.

Lemma reg_get_Some r i q : reg_get r i = Some q -> i ∈ (r_entries r).*1 /\ r_heap r !! i = Some q.
Proof using Type. unfold reg_get. case_bool_decide; done. Qed.

(** A merge moves every job and drops the source. *)
Lemma merge_into_ok r src dst r' : reg_ok r -> merge_into r src dst = Ok r' ->
  reg_ok r' /\ all_jobs (r_heap r') (r_entries r') ≡ₚ all_jobs (r_heap r) (r_entries r) /\
  (src <> dst -> (src ∉ (r_entries r').*1) /\ dst ∈ (r_entries r').*1 /\
     jobs_of (r_heap r') dst = jobs_of (r_heap r) dst ++ jobs_of (r_heap r) src).
Proof using Type.
  intros Hok. unfold merge_into. destruct (Z.eqb_spec src dst) as [->|Hne].
  { intros [= <-]. split_and!; [done..|]. congruence. }
  destruct (reg_get r src) as [qs|] eqn:Es; [|done]. cbn [ok_or result_bind].
  destruct (reg_get r dst) as [qd|] eqn:Ed; [|done]. cbn [ok_or result_bind].
  pose proof (absorb_ids qd qs) as Habs. destruct (absorb qd qs) as [qd' qs'].
  destruct Habs as (Hids & Hids' & Hqd & Hqs). intros [= <-].
  apply reg_get_Some in Es as [Hsin Hs]. apply reg_get_Some in Ed as [Hdin Hd].
  destruct Hok as [Hh Hl Hq Hj Hi Hdr Hc].
  destruct (entries_without _ _ Hh Hsin) as (ds & Hp).
  set (rest := filter (fun e => e.1 <> src) (r_entries r)) in *.
  assert (NoDup (src :: rest.*1)) as Hnd by (change (src :: rest.*1) with (((src, ds) :: rest).*1); by rewrite <- Hp).
  apply NoDup_cons in Hnd as [Hsnot Hndr].
  assert (dst ∈ rest.*1) as Hdrest.
  { rewrite Hp in Hdin. cbn [fmap list_fmap] in Hdin. apply elem_of_cons in Hdin as [|]; [done|done]. }
  assert (forall h, jobs_of (<[dst := qd']> h) dst = ids qd ++ ids qs) as Hjd.
  { intros h. unfold jobs_of. rewrite queue_at_insert, decide_True by done. done. }
  assert (jobs_of (r_heap r) dst = ids qd) as Hjd0 by (unfold jobs_of, queue_at; by rewrite Hd).
  assert (jobs_of (r_heap r) src = ids qs) as Hjs0 by (unfold jobs_of, queue_at; by rewrite Hs).
  assert (all_jobs (<[dst := qd']> (<[src := qs']> (r_heap r))) rest
          ≡ₚ all_jobs (r_heap r) (r_entries r)) as Hall.
  { rewrite (all_jobs_perm _ _ _ Hp), all_jobs_cons. cbn [fst].
    destruct (all_jobs_update (<[src := qs']> (r_heap r)) dst qd' rest Hdrest Hndr) as (tl & H1 & H2).
    rewrite H2, Hids, Hjs0. rewrite (all_jobs_insert _ _ _ _ Hsnot) in H1. rewrite H1.
    unfold jobs_of. rewrite queue_at_insert, decide_False by done.
    fold (jobs_of (r_heap r) dst). rewrite Hjd0.
    by rewrite (Permutation_app_comm (ids qd) (ids qs)), <- app_assoc. }
  split_and!; [split; simpl| |]; simpl.
  - done.
  - intros i Hin. rewrite !lookup_insert. destruct (decide (dst = i)) as [E|E]; [subst i|].
    { exists qd'. split; [done|]. rewrite Hqd. destruct (Hl dst Hdin) as (x & Hx & ?). congruence. }
    destruct (decide (src = i)) as [E'|E']; [congruence|]. apply Hl. rewrite Hp. cbn [fmap list_fmap]. by right.
  - intros i. rewrite !lookup_insert. destruct (decide (dst = i)), (decide (src = i)); subst;
      intros Hx; apply Hq; eauto.
  - by rewrite Hall.
  - intros i j. unfold jobs_of. rewrite !queue_at_insert. repeat case_decide; subst.
    + rewrite Hids, elem_of_app. intros [H|H]; [eapply Hi; by rewrite Hjd0|eapply Hi; by rewrite Hjs0].
    + rewrite Hids'. by intros ?%elem_of_nil.
    + apply Hi.
  - assert (NoDup (ds :: rest.*2)) as H.
    { change (ds :: rest.*2) with (((src, ds) :: rest).*2). by rewrite <- Hp. }
    by apply NoDup_cons in H as [_ ?].
  - done.
  - exact Hall.
  - intros _. split_and!; [done|done|]. rewrite Hjd, Hjd0, Hjs0. done.
Qed.

Lemma merge_into_error r src dst e : merge_into r src dst = Err e ->
  (e = UnknownSrc src /\ reg_get r src = None) \/ (e = UnknownDst dst /\ reg_get r dst = None).
Proof using Type.
  unfold merge_into. destruct (_ =? _); [done|].
  destruct (reg_get r src); simpl; [|intros [= <-]; by left].
  destruct (reg_get r dst); simpl; [|intros [= <-]; by right].
  done.
Qed.
End steps.

(** Pruning drops empty queues only. *)
Lemma all_jobs_prune h (l : list RegistryEntry) :
  all_jobs h (filter (fun e => is_empty (queue_at h e.1) = false) l) = all_jobs h l.
Proof.
  induction l as [|e l IH]; [done|]. rewrite filter_cons. case_decide as E.
  - by rewrite !all_jobs_cons, IH.
  - rewrite IH, all_jobs_cons. apply not_false_is_true in E. unfold is_empty, len in E.
    apply Nat.eqb_eq in E. unfold jobs_of, ids.
    by destruct (q_entries (queue_at h e.1)).
Qed.

Lemma prune_empty_ok r : reg_ok r ->
  let '(r', gone) := prune_empty r in
  reg_ok r' /\ all_jobs (r_heap r') (r_entries r') = all_jobs (r_heap r) (r_entries r) /\
  (forall i, i ∈ (r_entries r').*1 -> jobs_of (r_heap r') i <> []) /\
  (forall i, i ∈ gone <-> i ∈ (r_entries r).*1 /\ jobs_of (r_heap r) i = []).
Proof.
  intros [Hh Hl Hq Hj Hi Hd Hc].
  set (kept := filter (fun e => is_empty (queue_at (r_heap r) e.1) = false) (r_entries r)).
  assert (forall i, is_empty (queue_at (r_heap r) i) = true <-> jobs_of (r_heap r) i = []) as Hemp.
  { intros i. unfold is_empty, len, jobs_of, ids. by destruct (q_entries _). }
  assert (forall i, i ∈ (filter (fun e => is_empty (queue_at (r_heap r) e.1) = true) (r_entries r)).*1
            <-> i ∈ (r_entries r).*1 /\ jobs_of (r_heap r) i = []) as Hgone.
  { intros i. rewrite !list_elem_of_fmap. split.
    - intros (e & -> & [H1 H2]%list_elem_of_filter). split; [eauto|]. by apply Hemp.
    - intros [(e & -> & H1) H2]. exists e. split; [done|]. apply list_elem_of_filter.
      split; [by apply Hemp|done]. }
  assert (forall i, i ∈ kept.*1 -> jobs_of (r_heap r) i <> []) as Hkept.
  { intros i. rewrite list_elem_of_fmap. intros (e & -> & [H1 H2]%list_elem_of_filter) H.
    apply Hemp in H. congruence. }
  unfold prune_empty. fold kept. destruct (filter _ (r_entries r)).*1 as [|g gs] eqn:Eg.
  - split_and!; [done|done| |].
    + intros i Hin H. assert (i ∈ (r_entries r).*1 /\ jobs_of (r_heap r) i = []) as H' by done.
      apply Hgone in H'. by apply elem_of_nil in H'.
    + intros i. rewrite <- Hgone. done.
  - assert (forall l s, r_heap (foldl announce s l) = r_heap s /\
              r_entries (foldl announce s l) = r_entries s /\ (reg_ok s -> reg_ok (foldl announce s l))) as Hann.
    { induction l as [|e l IH]; intros s; [done|]. simpl. destruct (IH (announce s e)) as (-> & -> & H).
      split_and!; [done|done|]. intros Hs. by apply H, announce_ok. }
    destruct (Hann (QueueRemoved <$> g :: gs) (with_reg_entries r kept)) as (Hh' & He' & Hok').
    rewrite Hh', He'. simpl. split_and!.
    + apply Hok'. split; simpl; try done.
      * eapply sublist_NoDup; [exact Hh|]. apply fmap_sublist, sublist_filter.
      * intros i Hin. apply Hl. eapply elem_of_sublist; [exact Hin|]. apply fmap_sublist, sublist_filter.
      * unfold kept. by rewrite all_jobs_prune.
      * eapply sublist_NoDup; [exact Hd|]. apply fmap_sublist, sublist_filter.
    + apply all_jobs_prune.
    + done.
    + intros i. by rewrite <- Hgone.
Qed.

(** ** Every interleaving of registry calls

    [rs_select] and [rs_add] are the two halves of [route]; other threads may
    act between them. *)
Inductive reg_step (probe : option VolumeProbe) : Registry -> Registry -> Prop :=
| rs_select r d : next_queue_id r < U64_MAX -> reg_step probe r (route_select probe r d).1
| rs_add r qid k s d : is_Some (r_heap r !! qid) -> next_job_id r < U64_MAX ->
    reg_step probe r (route_add r qid k s d).1
| rs_op r qid op : is_Some (r_heap r !! qid) -> next_job_id r < U64_MAX ->
    reg_step probe r (queue_op r qid op)
| rs_merge r src dst r' : merge_into r src dst = Ok r' -> reg_step probe r r'
| rs_prune r : reg_step probe r (prune_empty r).1
| rs_mode r b : reg_step probe r (set_auto_enqueue r b).

Lemma reg_step_ok probe r r' : reg_step probe r r' -> reg_ok r -> reg_ok r'.
Proof.
  intros [r0 d Hm|r0 qid k s d Hq Hm|r0 qid op Hq Hm|r0 a b r1 Hr|r0|r0 b] Hok.
  - pose proof (route_select_ok probe r0 d Hok Hm) as H. by destruct (route_select probe r0 d), H.
  - rewrite route_add_op. by apply announce_ok, queue_op_ok.
  - by apply queue_op_ok.
  - by eapply merge_into_ok.
  - pose proof (prune_empty_ok r0 Hok) as H. by destruct (prune_empty r0), H.
  - by apply mode_ok.
Qed.

Lemma registry_new_ok : reg_ok registry_new.
Proof.
  split; simpl; try constructor; try done; try (intros i ?%elem_of_nil; done).
  - intros i [q Hq]. by rewrite lookup_empty in Hq.
  - intros i j Hj. unfold jobs_of, queue_at in Hj. rewrite lookup_empty in Hj. by apply elem_of_nil in Hj.
Qed.

(** The registry's invariant.  Whatever threads interleave their calls
    (routing in its two halves, queue operations through any handle, merges,
    prunes, mode switches), as long as no counter wraps: every queue the
    registry lists exists under its own id, no two serve the same drive, and
    no job id occurs twice among them. *)
Theorem registry_invariant probe r :
  rtc (reg_step probe) registry_new r ->
  NoDup (r_entries r).*1 /\ NoDup (r_entries r).*2 /\
  NoDup (all_jobs (r_heap r) (r_entries r)) /\
  (forall i, i ∈ (r_entries r).*1 -> exists q, r_heap r !! i = Some q /\ q_id q = i).
Proof.
  intros H. assert (reg_ok r) as [H1 H2 _ H3 _ H4 _]; [|done].
  assert (forall a b, rtc (reg_step probe) a b -> reg_ok a -> reg_ok b) as Hrtc.
  { induction 1; eauto using reg_step_ok. }
  eapply Hrtc; [exact H|apply registry_new_ok].
Qed.

Lemma registry_invariant_witness :
  NoDup (all_jobs (r_heap (route_add (route_select None registry_new None).1 1 KCopy [] None).1)
          (r_entries (route_add (route_select None registry_new None).1 1 KCopy [] None).1)).
Proof.
  apply (registry_invariant None). eapply rtc_l; [apply rs_select; vm_compute; reflexivity|].
  apply rtc_once. apply rs_add; [vm_compute; eauto|vm_compute; reflexivity].
Defined.

(** A merge keeps every job: the destination has its own jobs followed by
    the source's, the source is gone, and the jobs of the registry are the
    same; a merge that names an unknown queue changes nothing. *)
Theorem merge_keeps_jobs r src dst : reg_ok r -> src <> dst ->
  match merge_into r src dst with
  | Ok r' =>
      reg_ok r' /\ all_jobs (r_heap r') (r_entries r') ≡ₚ all_jobs (r_heap r) (r_entries r) /\
      (src ∉ (r_entries r').*1) /\ dst ∈ (r_entries r').*1 /\
      jobs_of (r_heap r') dst = jobs_of (r_heap r) dst ++ jobs_of (r_heap r) src
  | Err (UnknownSrc i) => i = src /\ reg_get r src = None
  | Err (UnknownDst i) => i = dst /\ reg_get r dst = None
  end.
Proof.
  intros Hok Hne. destruct (merge_into r src dst) as [r'|e] eqn:E.
  - destruct (merge_into_ok r src dst r' Hok E) as (H1 & H2 & H3). destruct (H3 Hne) as (?&?&?).
    by split_and!.
  - destruct (merge_into_error r src dst e E) as [[-> ?]|[-> ?]]; done.
Qed.

Lemma merge_keeps_jobs_witness :
  match merge_into registry_new 1 2 with Err (UnknownSrc i) => i = 1 | _ => False end.
Proof.
  pose proof (merge_keeps_jobs registry_new 1 2 registry_new_ok) as H.
  destruct (merge_into registry_new 1 2) as [r|[i|i]] eqn:E; [vm_compute in E; discriminate E| |vm_compute in E; discriminate E].
  apply H. discriminate.
Defined.

(** ** A routed job can be lost

    A route has spawned its queue and released the lock; a prune finds the new
    queue empty and drops it; the route then adds its job to a queue the
    registry no longer knows. *)
Lemma route_prune_race k s :
  let '(r1, qid) := route_select None registry_new None in
  let '(r2, _) := prune_empty r1 in
  let '(r3, jid) := route_add r2 qid k s None in
  jobs_of (r_heap r3) qid = [jid] /\ all_jobs (r_heap r3) (r_entries r3) = [].
Proof. vm_compute. split; reflexivity. Qed.

(** Routing.  Outside F2 mode a routed job ends up, under a fresh id and
    last in line, in the one live queue that serves the destination's drive;
    the jobs already there are the same. *)
Theorem route_targets_drive probe r k s d r' qid jid :
  reg_ok r -> next_queue_id r < U64_MAX -> next_job_id r < U64_MAX ->
  auto_enqueue_next r = false -> route probe r k s d = (r', qid, jid) ->
  reg_ok r' /\ (qid, dst_drive probe d) ∈ r_entries r' /\
  jid = next_job_id r /\ (jid ∉ all_jobs (r_heap r) (r_entries r)) /\
  last (jobs_of (r_heap r') qid) = Some jid /\
  all_jobs (r_heap r') (r_entries r') ≡ₚ jid :: all_jobs (r_heap r) (r_entries r).
Proof.
  intros Hok Hq Hj Hauto H. unfold route in H.
  pose proof (route_select_ok probe r d Hok Hq) as Hsel.
  destruct (route_select probe r d) as [r1 q1]. destruct Hsel as (Hok1 & Hlive & Hin & Hall & Hnext).
  rewrite route_add_op in H. injection H as <- <- <-.
  destruct (ok_live _ Hok1 _ Hlive) as (q & Hq1 & _).
  assert (reg_ok (announce (queue_op r1 q1 (OpAdd k s d)) (JobRouted q1 (next_job_id r1)))) as Hok2.
  { apply announce_ok, queue_op_ok; [done|eauto|]. by rewrite Hnext. }
  split_and!; [done|by apply Hin|done| | |].
  - intros Hbad. apply elem_of_all_jobs in Hbad as (i & _ & Hbad).
    apply (ok_job_ids _ Hok) in Hbad. lia.
  - simpl. unfold jobs_of. rewrite queue_at_insert, decide_True by done.
    unfold ids. simpl. rewrite fmap_app. simpl. by rewrite last_snoc.
  - simpl. destruct (all_jobs_update (r_heap r1) q1
      (add (queue_at (r_heap r1) q1) (next_job_id r1) k s d).1.1 (r_entries r1) Hlive
      (ok_handles _ Hok1)) as (rest & H1 & H2).
    unfold add in H2. simpl in H2. rewrite H2, <- Hall, H1, Hnext. unfold ids, jobs_of, ids. simpl.
    rewrite fmap_app. simpl. rewrite <- app_assoc. simpl. by rewrite <- Permutation_middle.
Qed.

Lemma route_targets_drive_witness :
  let '(r', qid, jid) := route None registry_new KCopy [] None in
  (qid, None) ∈ r_entries r' /\ last (jobs_of (r_heap r') qid) = Some jid.
Proof.
  destruct (route None registry_new KCopy [] None) as [[r' qid] jid] eqn:E.
  destruct (route_targets_drive None registry_new KCopy [] None r' qid jid) as (_&H1&_&_&H2&_);
    [exact registry_new_ok|vm_compute; reflexivity|vm_compute; reflexivity|reflexivity|exact E|].
  split; [exact H1|exact H2].
Defined.
