(* ===== verification/Versioning.v ===== *)
(** * Which file versions to prune ([freally-core/src/versioning.rs])

    [select_for_pruning] is pure: the versions of one path, a retention policy
    and the wall clock go in, the row ids to delete come out.  Row ids and
    instants are [i64]; only [saturating_sub] can meet the bounds. *)
From S2P Require Import Prelude.
From S2P Require Import Text.
From S2P Require Import Table.
From stdpp Require Import options.
Open Scope Z_scope.

Record VersionEntry := { row_id : Z; ts_ms : Z; retained_until_ms : option Z }.

Record GfsPolicy := { keep_hourly : nat; keep_daily : nat; keep_weekly : nat; keep_monthly : nat }.

Inductive RetentionPolicy :=
| RetainAll
| LastN (n : nat)
| OlderThanDays (days : Z)
| Gfs (g : GfsPolicy).

Record VersioningPolicy := { enabled : bool; retention : RetentionPolicy }.

Definition I64_MIN : Z := -9223372036854775808.
Definition I64_MAX : Z := 9223372036854775807.
Definition saturating_sub_i64 (a b : Z) : Z := Z.max I64_MIN (Z.min I64_MAX (a - b)).

Definition MS_PER_HOUR : Z := 3600000.
Definition MS_PER_DAY : Z := 24 * MS_PER_HOUR.
Definition MS_PER_WEEK : Z := 7 * MS_PER_DAY.

(** ** Bucket floors *)

Definition bucket_floor_hourly (ts : Z) : Z := ts / MS_PER_HOUR * MS_PER_HOUR.
Definition bucket_floor_daily (ts : Z) : Z := ts / MS_PER_DAY * MS_PER_DAY.

Definition bucket_floor_weekly (ts : Z) : Z :=
  let MONDAY_OFFSET_MS := 4 * MS_PER_DAY in
  let shifted := ts - MONDAY_OFFSET_MS in
  shifted / MS_PER_WEEK * MS_PER_WEEK + MONDAY_OFFSET_MS.

(** The day number of the first of the month of day [days_total]. *)
Definition month_start (days_total : Z) : Z :=
  let z := days_total + 719468 in
  let era := z / 146097 in
  let doe := z - era * 146097 in
  let yoe := (doe - doe ÷ 1460 + doe ÷ 36524 - doe ÷ 146096) ÷ 365 in
  let y := yoe + era * 400 in
  let doy := doe - (365 * yoe + yoe ÷ 4 - yoe ÷ 100) in
  let mp := (5 * doy + 2) ÷ 153 in
  let m := if mp <? 10 then mp + 3 else mp - 9 in
  let y_adjusted := if m <=? 2 then y + 1 else y in
  let m_shifted := if 2 <? m then m - 3 else m + 9 in
  let y_for_calc := if 2 <? m then y_adjusted else y_adjusted - 1 in
  let era2 := y_for_calc / 400 in
  let yoe2 := y_for_calc - era2 * 400 in
  let doy2 := (153 * m_shifted + 2) ÷ 5 in
  let doe2 := yoe2 * 365 + yoe2 ÷ 4 - yoe2 ÷ 100 + doy2 in
  era2 * 146097 + doe2 - 719468.

Definition bucket_floor_monthly (ts : Z) : Z := month_start (ts / MS_PER_DAY) * MS_PER_DAY.

(** ** Selection *)

Definition newest_first (a b : VersionEntry) : bool := ts_ms b <=? ts_ms a.

(** [entry(k).or_insert(v)] *)
Definition or_insert (k v : Z) (m : gmap Z Z) : gmap Z Z :=
  match m !! k with Some _ => m | None => <[k := v]> m end.

Definition bucket_map (floor : Z -> Z) (l : list VersionEntry) : gmap Z Z :=
  foldl (fun m v => or_insert (floor (ts_ms v)) (row_id v) m) ∅ l.

(** [values().rev().take(k)] of the [BTreeMap]. *)
Definition tier (floor : Z -> Z) (k : nat) (l : list VersionEntry) : list Z :=
  take k (rev (gmap_iter Z.le (bucket_map floor l))).*2.

Definition gfs_keep (l : list VersionEntry) (g : GfsPolicy) : list Z :=
  tier bucket_floor_hourly (keep_hourly g) l ++ tier bucket_floor_daily (keep_daily g) l ++
  tier bucket_floor_weekly (keep_weekly g) l ++ tier bucket_floor_monthly (keep_monthly g) l.

Definition gfs_select_for_pruning (sorted : list VersionEntry) (g : GfsPolicy) : list Z :=
  match sorted with
  | [] => []
  | _ => row_id <$> filter (fun v => row_id v ∉ gfs_keep sorted g) sorted
  end.

Definition to_drop (sorted : list VersionEntry) (policy : RetentionPolicy) (now_ms : Z) : list Z :=
  match policy with
  | RetainAll => []
  | LastN n => row_id <$> drop (Nat.max n 1) sorted
  | OlderThanDays days =>
      let cutoff := saturating_sub_i64 now_ms (days * MS_PER_DAY) in
      row_id <$> filter (fun v => ts_ms v < cutoff) sorted
  | Gfs g => gfs_select_for_pruning sorted g
  end.

Definition is_held (now_ms : Z) (v : VersionEntry) : bool :=
  match retained_until_ms v with Some floor => now_ms <? floor | None => false end.

Definition select_for_pruning (versions : list VersionEntry) (policy : RetentionPolicy) (now_ms : Z)
    : list Z :=
  match versions with
  | [] => []
  | _ =>
      let sorted := sort_by newest_first versions in
      match sorted with
      | [] => []
      | newest :: _ =>
          let held := row_id <$> filter (fun v => is_held now_ms v = true) sorted in
          filter (fun i => i <> row_id newest /\ i ∉ held) (to_drop sorted policy now_ms)
      end
  end.

(** ** What is never pruned *)

Lemma newest_first_total a b : newest_first a b = true \/ newest_first b a = true.
Proof. unfold newest_first. rewrite !Z.leb_le. lia. Qed.

Lemma newest_first_trans a b c :
  newest_first a b = true -> newest_first b c = true -> newest_first a c = true.
Proof. unfold newest_first. rewrite !Z.leb_le. lia. Qed.

Lemma sorted_newest_first l : StronglySorted (fun a b => newest_first a b = true) (sort_by newest_first l).
Proof. apply sort_by_sorted; [apply newest_first_trans|apply newest_first_total]. Qed.

Lemma to_drop_sub sorted policy now i : i ∈ to_drop sorted policy now -> exists v, v ∈ sorted /\ row_id v = i.
Proof.
  unfold to_drop. destruct policy as [|n|days|g].
  - by intros ?%elem_of_nil.
  - intros (v & -> & Hv)%list_elem_of_fmap. exists v. split; [|done].
    eapply elem_of_sublist; [exact Hv|]. apply sublist_drop.
  - intros (v & -> & [_ Hv]%list_elem_of_filter)%list_elem_of_fmap. eauto.
  - unfold gfs_select_for_pruning. destruct sorted as [|x l]; [by intros ?%elem_of_nil|].
    intros (v & -> & [_ Hv]%list_elem_of_filter)%list_elem_of_fmap. eauto.
Qed.

Lemma elem_of_select versions policy now i :
  i ∈ select_for_pruning versions policy now <->
  exists newest rest, sort_by newest_first versions = newest :: rest /\ i <> row_id newest /\
    (forall v, v ∈ versions -> is_held now v = true -> row_id v <> i) /\
    i ∈ to_drop (sort_by newest_first versions) policy now.
Proof.
  unfold select_for_pruning. destruct versions as [|v0 vs].
  { split; [by intros ?%elem_of_nil|]. by intros (n & r & H & _). }
  destruct (sort_by newest_first (v0 :: vs)) as [|newest rest] eqn:Es.
  { split; [by intros ?%elem_of_nil|]. by intros (n & r & H & _). }
  rewrite list_elem_of_filter, <- Es. split.
  - intros [[Hn Hh] Hd]. exists newest, rest. split_and!; [done|done| |done].
    intros v Hv Hheld E. apply Hh. rewrite <- E. apply list_elem_of_fmap_2, list_elem_of_filter.
    split; [done|]. by rewrite elem_of_sort_by.
  - intros (n & r & E & Hn & Hh & Hd). rewrite Es in E. injection E as <- <-. split_and!; [done| |done].
    intros (v & -> & [Hheld Hv]%list_elem_of_filter)%list_elem_of_fmap.
    rewrite elem_of_sort_by in Hv. by apply (Hh v).
Qed.

(** Pruning is safe under every policy: only versions of the list are
    ever selected, never the newest one, and never one under a compliance hold
    that lies in the future. *)
Theorem pruning_spares_newest_and_held versions policy now i :
  i ∈ select_for_pruning versions policy now ->
  (exists v, v ∈ versions /\ row_id v = i) /\
  (forall v, v ∈ versions -> is_held now v = true -> row_id v <> i) /\
  (exists newest, newest ∈ versions /\ row_id newest <> i /\
     forall v, v ∈ versions -> ts_ms v <= ts_ms newest).
Proof.
  intros (newest & rest & Es & Hn & Hheld & Hd)%elem_of_select. split_and!; [|done|].
  - apply to_drop_sub in Hd as (v & Hv & <-). rewrite elem_of_sort_by in Hv. eauto.
  - exists newest. split_and!; [|done|].
    + apply (elem_of_sort_by newest_first). rewrite Es. left.
    + intros v Hv. apply (elem_of_sort_by newest_first) in Hv. rewrite Es in Hv.
      apply elem_of_cons in Hv as [->|Hv]; [done|].
      pose proof (sorted_newest_first versions) as Hs. rewrite Es in Hs.
      inversion Hs as [|? ? _ Hall]; subst. rewrite Forall_forall in Hall.
      specialize (Hall v Hv). by apply Z.leb_le in Hall.
Qed.

Lemma pruning_spares_newest_and_held_witness :
  let vs := [{| row_id := 1; ts_ms := 10; retained_until_ms := None |};
             {| row_id := 2; ts_ms := 30; retained_until_ms := None |};
             {| row_id := 3; ts_ms := 20; retained_until_ms := Some 99 |}] in
  select_for_pruning vs (LastN 0) 50 = [1] /\ exists v, v ∈ vs /\ row_id v = 1.
Proof.
  intros vs. split; [vm_compute; reflexivity|].
  apply (pruning_spares_newest_and_held vs (LastN 0) 50 1). vm_compute. left.
Defined.

(** The two simple policies keep exactly what they promise.  With unique
    row ids and no holds, [LastN n] drops what comes after the [max n 1]
    newest versions, and [OlderThanDays d] drops exactly the versions older
    than the cutoff, the newest one excepted. *)
Theorem pruning_by_count_and_age versions now n days :
  NoDup (row_id <$> versions) -> (forall v, v ∈ versions -> is_held now v = false) ->
  0 <= days -> I64_MIN <= now - days * MS_PER_DAY <= I64_MAX ->
  select_for_pruning versions (LastN n) now
    = row_id <$> drop (Nat.max n 1) (sort_by newest_first versions) /\
  (forall v, v ∈ versions -> row_id v ∈ select_for_pruning versions (OlderThanDays days) now <->
     ts_ms v < now - days * MS_PER_DAY /\ head (sort_by newest_first versions) <> Some v).
Proof.
  intros Hnd Hheld Hdays Hrange.
  assert (NoDup (row_id <$> sort_by newest_first versions)) as Hnds by (by rewrite sort_by_perm).
  assert (forall v w, v ∈ sort_by newest_first versions -> w ∈ sort_by newest_first versions ->
            row_id v = row_id w -> v = w) as Hinj.
  { intros v w Hv Hw E. apply list_elem_of_lookup in Hv as [a Ha]. apply list_elem_of_lookup in Hw as [b Hb].
    assert (a = b) as ->; [|congruence].
    eapply NoDup_lookup; [exact Hnds| |]; rewrite list_lookup_fmap.
    - by rewrite Ha.
    - by rewrite Hb, E. }
  split.
  - unfold select_for_pruning. destruct versions as [|v0 vs]; [by destruct (Nat.max n 1)|].
    destruct (sort_by newest_first (v0 :: vs)) as [|newest rest] eqn:Es; [by destruct (Nat.max n 1)|].
    unfold to_drop. replace (Nat.max n 1) with (S (Nat.max n 1 - 1)) by lia. cbn [drop].
    set (l := drop _ rest).
    assert (forall i, i ∈ row_id <$> l -> i <> row_id newest /\
      (i ∉ row_id <$> filter (fun v => is_held now v = true) (newest :: rest))) as Hall.
    { intros i (v & -> & Hv)%list_elem_of_fmap. assert (v ∈ rest) as Hvr.
      { eapply elem_of_sublist; [exact Hv|]. apply sublist_drop. }
      split.
      - intros E. cbn [fmap list_fmap] in Hnds. apply NoDup_cons in Hnds as [Hx _]. apply Hx.
        rewrite <- E. by apply list_elem_of_fmap_2.
      - intros (w & _ & [Hw1 Hw2]%list_elem_of_filter)%list_elem_of_fmap.
        rewrite <- Es, elem_of_sort_by in Hw2. by rewrite Hheld in Hw1. }
    clearbody l. clear -Hall. induction (row_id <$> l) as [|i k IH]; [done|].
    rewrite filter_cons_True by (apply Hall; left). f_equal. apply IH. intros j Hj. apply Hall. by right.
  - intros v Hv. rewrite elem_of_select. unfold to_drop, saturating_sub_i64.
    replace (Z.max I64_MIN (Z.min I64_MAX (now - days * MS_PER_DAY))) with (now - days * MS_PER_DAY) by lia.
    assert (v ∈ sort_by newest_first versions) as Hvs by (by rewrite elem_of_sort_by). split.
    + intros (newest & rest & Es & Hn & _ & (w & E & [Hw Hin]%list_elem_of_filter)%list_elem_of_fmap).
      apply Hinj in E; [|done|done]. subst w. split; [done|]. rewrite Es. simpl. congruence.
    + intros [Hlt Hhd]. destruct (sort_by newest_first versions) as [|newest rest] eqn:Es.
      { by apply elem_of_nil in Hvs. }
      exists newest, rest. split_and!; [done| | |].
      * intros E. apply Hhd. simpl. f_equal. symmetry. apply Hinj; [done|left|done].
      * intros w Hw Hh. by rewrite Hheld in Hh.
      * apply list_elem_of_fmap_2, list_elem_of_filter. done.
Qed.

Lemma pruning_by_count_and_age_witness :
  let vs := [{| row_id := 1; ts_ms := 10; retained_until_ms := None |};
             {| row_id := 2; ts_ms := 30; retained_until_ms := None |};
             {| row_id := 3; ts_ms := 20; retained_until_ms := None |}] in
  select_for_pruning vs (LastN 2) 50 = [1].
Proof.
  intros vs. rewrite (fun a b c d => proj1 (pruning_by_count_and_age vs 50 2 0 a b c d)).
  - vm_compute. reflexivity.
  - vm_compute. repeat constructor; rewrite ?elem_of_cons, ?elem_of_nil; intuition discriminate.
  - intros v Hv. unfold vs in Hv. rewrite !elem_of_cons, elem_of_nil in Hv.
    destruct Hv as [->|[->|[->|[]]]]; reflexivity.
  - lia.
  - vm_compute. split; discriminate.
Defined.

(** ** Grandfather-father-son buckets *)

Definition in_bucket (floor : Z -> Z) (b : Z) (v : VersionEntry) : bool := floor (ts_ms v) =? b.

Lemma bucket_fold floor l b : forall m : gmap Z Z,
  foldl (fun m v => or_insert (floor (ts_ms v)) (row_id v) m) m l !! b =
  match m !! b with
  | Some x => Some x
  | None => row_id <$> List.find (in_bucket floor b) l
  end.
Proof.
  induction l as [|v l IH]; intros m; simpl; [by destruct (m !! b)|]. rewrite IH.
  unfold or_insert, in_bucket. destruct (m !! floor (ts_ms v)) as [y|] eqn:E.
  - destruct (m !! b) eqn:Eb; [done|]. destruct (Z.eqb_spec (floor (ts_ms v)) b); [congruence|done].
  - rewrite lookup_insert. case_decide as Eb.
    + subst b. by rewrite E, Z.eqb_refl.
    + destruct (m !! b); [done|]. by destruct (Z.eqb_spec (floor (ts_ms v)) b).
Qed.

(** A bucket is represented by its newest version: the first of the list. *)
Lemma bucket_map_lookup floor l b :
  bucket_map floor l !! b = row_id <$> List.find (in_bucket floor b) l.
Proof. unfold bucket_map. by rewrite bucket_fold, lookup_empty. Qed.

Lemma descending_rev l : StronglySorted Z.le l -> NoDup l -> StronglySorted Z.gt (rev l).
Proof.
  induction 1 as [|x l Hl IH Hx]; intros Hnd; simpl; [constructor|].
  apply NoDup_cons in Hnd as [Hnot Hnd]. specialize (IH Hnd).
  apply StronglySorted_app_2; [|done|by repeat constructor].
  intros y z Hy ->%list_elem_of_singleton. rewrite list_elem_of_In, <- in_rev, <- list_elem_of_In in Hy.
  rewrite Forall_forall in Hx. specialize (Hx y Hy). assert (y <> x) by (by intros ->). lia.
Qed.

(** The elements of a descending list among its first [k]. *)
Lemma elem_of_take_descending (D : list (Z * Z)) : StronglySorted Z.gt D.*1 -> forall k b x,
  (b, x) ∈ take k D <-> (b, x) ∈ D /\ (length (filter (fun e => (b < e.1)%Z) D) < k)%nat.
Proof.
  induction D as [|[c y] D IH]; intros Hs k b x.
  { rewrite take_nil. split; [by intros ?%elem_of_nil|]. by intros [?%elem_of_nil _]. }
  cbn [fmap list_fmap fst] in Hs. inversion Hs as [|? ? Hs' Hc]; subst.
  rewrite Forall_forall in Hc.
  assert (forall e, e ∈ D -> e.1 < c) as Hlt.
  { intros e He. apply Z.gt_lt, Hc. by apply list_elem_of_fmap_2. }
  destruct k as [|k]; simpl take.
  { split; [by intros ?%elem_of_nil|]. intros [_ H]. lia. }
  rewrite filter_cons. cbn [fst]. rewrite !elem_of_cons, (IH Hs'). case_decide as Hbc; cbn [length].
  - split.
    + intros [[= -> ->]|[? ?]]; [lia|]. split; [by right|lia].
    + intros [[[= -> ->]|?] ?]; [lia|]. right. split; [done|lia].
  - split.
    + intros [[= -> ->]|[Hin ?]].
      * split; [by left|]. assert (filter (fun e => (c < e.1)%Z) D = []) as ->; [|simpl; lia].
        destruct (filter _ D) as [|e r] eqn:Ef; [done|]. exfalso.
        assert (e ∈ filter (fun e => (c < e.1)%Z) D) as He by (rewrite Ef; left).
        apply list_elem_of_filter in He as [H1 H2]. specialize (Hlt e H2). lia.
      * specialize (Hlt _ Hin). simpl in Hlt. lia.
    + intros [[[= -> ->]|Hin] _]; [by left|]. specialize (Hlt _ Hin). simpl in Hlt. lia.
Qed.

(** The buckets of a tier that are more recent than [b]. *)
Definition newer_buckets (floor : Z -> Z) (l : list VersionEntry) (b : Z) : list Z :=
  filter (fun c => b < c) (gmap_iter Z.le (bucket_map floor l)).*1.

Lemma elem_of_newer_buckets floor l b c :
  c ∈ newer_buckets floor l b <-> b < c /\ exists v, v ∈ l /\ floor (ts_ms v) = c.
Proof.
  unfold newer_buckets. rewrite list_elem_of_filter, list_elem_of_fmap. split.
  - intros [Hlt ([c' x] & -> & H%gmap_iter_elem)]. split; [done|].
    rewrite bucket_map_lookup in H. simpl. destruct (List.find _ l) as [v|] eqn:Ef; [|done].
    apply find_some in Ef as [Hin Hb%Z.eqb_eq]. exists v. by rewrite list_elem_of_In.
  - intros [Hlt (v & Hv & Hc)]. split; [done|].
    destruct (List.find (in_bucket floor c) l) as [w|] eqn:Ef.
    + exists (c, row_id w). split; [done|]. apply gmap_iter_elem. by rewrite bucket_map_lookup, Ef.
    + exfalso. apply list_elem_of_In in Hv. pose proof (find_none _ _ Ef v Hv) as H.
      unfold in_bucket in H. apply Z.eqb_neq in H. done.
Qed.

Lemma elem_of_tier floor k l i :
  i ∈ tier floor k l <->
  exists b v, List.find (in_bucket floor b) l = Some v /\ row_id v = i /\
    (length (newer_buckets floor l b) < k)%nat.
Proof.
  unfold tier. set (it := gmap_iter Z.le (bucket_map floor l)).
  assert (StronglySorted Z.gt (rev it).*1) as Hs.
  { assert ((rev it).*1 = rev it.*1) as -> by apply map_rev. apply descending_rev.
    - apply (tbl_iter_sorted (Table := gmap_table Z.le) (bucket_map floor l)).
    - apply (tbl_iter_nodup (Table := gmap_table Z.le) (bucket_map floor l)). }
  assert (forall b, length (filter (fun e => (b < e.1)%Z) (rev it)) = length (newer_buckets floor l b)) as Hlen.
  { intros b. unfold newer_buckets. fold it.
    assert (length (filter (fun e : Z * Z => (b < e.1)%Z) (rev it))
            = length (filter (fun e : Z * Z => (b < e.1)%Z) it)) as ->.
    { apply Permutation_length. apply filter_Permutation. symmetry. apply Permutation_rev. }
    clear Hs. clearbody it. induction it as [|[c y] it' IH]; [done|]. cbn [fmap list_fmap fst].
    rewrite !filter_cons. cbn [fst]. case_decide; cbn [length]; [f_equal|]; exact IH. }
  rewrite <- fmap_take, list_elem_of_fmap. split.
  - intros ([b x] & -> & H). apply elem_of_take_descending in H as [Hin Hn]; [|done].
    rewrite list_elem_of_In, <- in_rev, <- list_elem_of_In in Hin.
    apply gmap_iter_elem in Hin. rewrite bucket_map_lookup in Hin.
    destruct (List.find _ l) as [v|] eqn:Ef; [|done]. injection Hin as <-.
    exists b, v. by rewrite <- Hlen.
  - intros (b & v & Ef & <- & Hn). exists (b, row_id v). split; [done|].
    apply elem_of_take_descending; [done|]. rewrite Hlen. split; [|done].
    rewrite list_elem_of_In, <- in_rev, <- list_elem_of_In. apply gmap_iter_elem.
    by rewrite bucket_map_lookup, Ef.
Qed.

(** The tiers of a policy. *)
Definition tiers (g : GfsPolicy) : list ((Z -> Z) * nat) :=
  [(bucket_floor_hourly, keep_hourly g); (bucket_floor_daily, keep_daily g);
   (bucket_floor_weekly, keep_weekly g); (bucket_floor_monthly, keep_monthly g)].

Lemma elem_of_gfs_keep l g i :
  i ∈ gfs_keep l g <-> exists floor k, (floor, k) ∈ tiers g /\ i ∈ tier floor k l.
Proof.
  unfold gfs_keep, tiers. rewrite !elem_of_app. split.
  - intros [H|[H|[H|H]]]; eexists _, _; (split; [|exact H]); rewrite !elem_of_cons; tauto.
  - intros (f & k & Hin & H). rewrite !elem_of_cons, elem_of_nil in Hin.
    destruct Hin as [E|[E|[E|[E|[]]]]]; injection E as -> ->; tauto.
Qed.

(** Grandfather-father-son retention keeps what it says.  A version
    survives exactly when, for one of the four tiers, it is the newest of its
    bucket and fewer buckets than the tier's count are more recent; the newest
    version and those under a hold survive besides. *)
Theorem gfs_keeps_newest_of_recent_buckets versions g now v :
  v ∈ versions ->
  let sorted := sort_by newest_first versions in
  row_id v ∈ select_for_pruning versions (Gfs g) now <->
    ~ (exists floor k b w, (floor, k) ∈ tiers g /\
         List.find (in_bucket floor b) sorted = Some w /\ row_id w = row_id v /\
         (length (newer_buckets floor sorted b) < k)%nat) /\
    (forall w, head sorted = Some w -> row_id w <> row_id v) /\
    (forall w, w ∈ versions -> is_held now w = true -> row_id w <> row_id v).
Proof.
  intros Hv sorted. rewrite elem_of_select. fold sorted.
  assert (row_id v ∈ to_drop sorted (Gfs g) now <-> row_id v ∉ gfs_keep sorted g) as Hdrop.
  { assert (v ∈ sorted) as Hvs by (by apply elem_of_sort_by). unfold to_drop, gfs_select_for_pruning.
    destruct sorted as [|x l]; [by apply elem_of_nil in Hvs|]. rewrite list_elem_of_fmap. split.
    - by intros (w & -> & [? _]%list_elem_of_filter).
    - intros H. exists v. split; [done|]. by apply list_elem_of_filter. }
  assert ((exists floor k, (floor, k) ∈ tiers g /\ row_id v ∈ tier floor k sorted) <->
    (exists floor k b w, (floor, k) ∈ tiers g /\ List.find (in_bucket floor b) sorted = Some w /\
       row_id w = row_id v /\ (length (newer_buckets floor sorted b) < k)%nat)) as Heq.
  { split.
    - intros (f & k & Ht & H). apply elem_of_tier in H as (b & w & ? & ? & ?). by exists f, k, b, w.
    - intros (f & k & b & w & Ht & ? & ? & ?). exists f, k. split; [done|].
      apply elem_of_tier. by exists b, w. }
  rewrite <- elem_of_gfs_keep in Heq. rewrite Heq in Hdrop. split.
  - intros (n & r & E & Hn & Hh & Hk%Hdrop). split_and!; [done| |done].
    intros w. rewrite E. simpl. intros [= <-]. congruence.
  - intros (Hk & Hn & Hh). destruct sorted as [|n r] eqn:Es.
    + apply (elem_of_sort_by newest_first) in Hv. fold sorted in Hv. rewrite Es in Hv.
      by apply elem_of_nil in Hv.
    + exists n, r. split_and!; [done| |done|by apply Hdrop]. intros E. by apply (Hn n).
Qed.

Lemma gfs_keeps_newest_of_recent_buckets_witness :
  let day := MS_PER_DAY in
  let vs := [{| row_id := 1; ts_ms := 3 * day + 5; retained_until_ms := None |};
             {| row_id := 2; ts_ms := 3 * day + 1; retained_until_ms := None |};
             {| row_id := 3; ts_ms := 2 * day + 7; retained_until_ms := None |}] in
  let g := {| keep_hourly := 0; keep_daily := 2; keep_weekly := 0; keep_monthly := 0 |} in
  select_for_pruning vs (Gfs g) (4 * day) = [2] /\
  forall w, w ∈ vs -> is_held (4 * day) w = true -> row_id w <> 2.
Proof.
  intros day vs g. split; [vm_compute; reflexivity|].
  apply (gfs_keeps_newest_of_recent_buckets vs g (4 * day)
    {| row_id := 2; ts_ms := 3 * day + 1; retained_until_ms := None |}).
  - right. left.
  - vm_compute. left.
Defined.

(** ** The calendar

    The reference: the Gregorian calendar counted from its leap-year rule. *)

#[local] Ltac dlia := Z.div_mod_to_equations; lia.

Definition leap (y : Z) : bool :=
  (y mod 4 =? 0) && negb (y mod 100 =? 0) || (y mod 400 =? 0).

Definition days_before_month (m : Z) : Z :=
  nth (Z.to_nat (m - 1)) [0; 31; 59; 90; 120; 151; 181; 212; 243; 273; 304; 334] 0.

(** The day number of the first of month [m] of year [y]; 1970-01-01 is [0]. *)
Definition first_day (y m : Z) : Z :=
  365 * (y - 1) + (y - 1) / 4 - (y - 1) / 100 + (y - 1) / 400
  + days_before_month m + (if (2 <? m) && leap y then 1 else 0) - 719162.

Definition next_first_day (y m : Z) : Z :=
  if m =? 12 then first_day (y + 1) 1 else first_day y (m + 1).

Lemma leap_step y :
  (if leap y then 1 else 0)
  = (y / 4 - y / 100 + y / 400) - ((y - 1) / 4 - (y - 1) / 100 + (y - 1) / 400).
Proof.
  unfold leap. destruct (Z.eqb_spec (y mod 4) 0), (Z.eqb_spec (y mod 100) 0),
    (Z.eqb_spec (y mod 400) 0); simpl; try dlia.
Qed.

(** The year of the 400-year era is a step function of the day. *)
Definition era_days (d : Z) : Z := d - d / 1460 + d / 36524 - d / 146096.
Definition year_start (y : Z) : Z := 365 * y + y / 4 - y / 100.

Lemma era_days_mono d e : 0 <= d <= e -> e <= 146095 -> era_days d <= era_days e.
Proof.
  intros H He. unfold era_days. rewrite !(Z.div_small _ 146096) by lia.
  pose proof (Z.div_le_mono d e 36524 ltac:(lia) ltac:(lia)).
  pose proof (Z.div_le_mono e (d + (e - d) * 1460) 1460 ltac:(lia) ltac:(lia)) as H2.
  rewrite Z.div_add in H2 by lia. lia.
Qed.

(** Checked at the two ends of each of the 400 years. *)
Fixpoint years_agree (n : nat) (y : Z) : bool :=
  match n with
  | O => true
  | S k =>
      (era_days (year_start y) / 365 =? y) &&
      (era_days ((if y =? 399 then 146096 else year_start (y + 1)) - 1) / 365 =? y) &&
      years_agree k (y + 1)
  end.

Lemma years_agree_all : years_agree 400 0 = true.
Proof. vm_compute. reflexivity. Qed.

Lemma years_agree_at n : forall y0 y, years_agree n y0 = true -> y0 <= y < y0 + Z.of_nat n ->
  era_days (year_start y) / 365 = y /\
  era_days ((if y =? 399 then 146096 else year_start (y + 1)) - 1) / 365 = y.
Proof.
  induction n as [|n IH]; intros y0 y H Hy; [lia|]. cbn [years_agree] in H.
  apply andb_true_iff in H as [[H1%Z.eqb_eq H2%Z.eqb_eq]%andb_true_iff H3].
  destruct (Z.eq_dec y y0) as [->|Hne]; [done|]. apply (IH (y0 + 1)); [done|lia].
Qed.

(** Each day of the era lies in some year. *)
Lemma year_exists d : 0 <= d <= 146096 -> exists y, 0 <= y <= 399 /\ year_start y <= d /\
  (y <= 398 -> d < year_start (y + 1)).
Proof.
  intros Hd. assert (forall n, (n <= 399)%nat -> year_start (Z.of_nat n) <= d ->
    exists y, 0 <= y <= 399 /\ year_start y <= d /\ (y <= 398 -> d < year_start (y + 1))) as H.
  { intros n Hn. remember (399 - n)%nat as k eqn:Hk. revert n Hn Hk.
    induction k as [|k IH]; intros n Hn Hk Hs.
    - exists (Z.of_nat n). split_and!; [lia|lia|done|lia].
    - destruct (Z.lt_ge_cases d (year_start (Z.of_nat n + 1))) as [Hlt|Hge].
      + exists (Z.of_nat n). split_and!; [lia|lia|done|done].
      + apply (IH (S n)); [lia..|]. by rewrite Nat2Z.inj_succ. }
  apply (H 0%nat); [lia|]. change (year_start (Z.of_nat 0)) with 0. lia.
Qed.

Lemma yoe_correct d : 0 <= d <= 146096 ->
  let y := era_days d / 365 in
  0 <= y <= 399 /\ year_start y <= d /\ (d - year_start y <= 365) /\
  (y <= 398 -> d < year_start (y + 1)).
Proof.
  intros Hd. destruct (year_exists d Hd) as (y & Hy & Hlo & Hhi).
  assert (era_days d / 365 = y) as E.
  { destruct (Z.eq_dec d 146096) as [->|Hne].
    - assert (y = 399) as ->; [|vm_compute; reflexivity].
      destruct (Z.eq_dec y 399); [done|]. unfold year_start in Hhi.
      assert (146096 < 365 * (y + 1) + (y + 1) / 4 - (y + 1) / 100) by (apply Hhi; lia). dlia.
    - destruct (years_agree_at 400 0 y years_agree_all) as [E1 E2]; [lia|].
      assert (0 <= year_start y) as Hnn by (unfold year_start; dlia).
      pose proof (era_days_mono (year_start y) d ltac:(lia) ltac:(lia)) as M1.
      assert (era_days d <= era_days ((if y =? 399 then 146096 else year_start (y + 1)) - 1)) as M2.
      { apply era_days_mono; destruct (Z.eqb_spec y 399) as [->|]; try lia.
        unfold year_start. dlia. }
      pose proof (Z.div_le_mono _ _ 365 ltac:(lia) M1). pose proof (Z.div_le_mono _ _ 365 ltac:(lia) M2).
      lia. }
  cbv zeta. rewrite E. split_and!; [lia..|done| |done].
  destruct (Z.eq_dec y 399) as [->|Hne].
  - assert (year_start 399 = 145731) as -> by (vm_compute; reflexivity). lia.
  - pose proof (Hhi ltac:(lia)) as H. unfold year_start in *. dlia.
Qed.

Lemma month_of_day doy : 0 <= doy <= 365 ->
  let mp := (5 * doy + 2) / 153 in
  0 <= mp <= 11 /\ (153 * mp + 2) / 5 <= doy < (153 * (mp + 1) + 2) / 5.
Proof.
  intros H mp. unfold mp. assert (0 <= (5 * doy + 2) / 153 <= 11) by dlia.
  set (q := (5 * doy + 2) / 153) in *.
  assert (153 * q <= 5 * doy + 2 < 153 * q + 153) by (unfold q; dlia). clearbody q. dlia.
Qed.

(** The cumulative day counts, from March. *)
Lemma days_from_march mp : 0 <= mp <= 11 ->
  if mp <? 10 then days_before_month (mp + 3) = 59 + (153 * mp + 2) / 5
  else days_before_month (mp - 9) = (153 * mp + 2) / 5 - 306.
Proof.
  intros H. assert (mp = 0 \/ mp = 1 \/ mp = 2 \/ mp = 3 \/ mp = 4 \/ mp = 5 \/ mp = 6 \/
    mp = 7 \/ mp = 8 \/ mp = 9 \/ mp = 10 \/ mp = 11) as Hcases by lia.
  destruct Hcases as [->|[->|[->|[->|[->|[->|[->|[->|[->|[->|[->| ->]]]]]]]]]]]; vm_compute; reflexivity.
Qed.

Lemma era_split yoe era k : (yoe + era * 400 + k) / 4 = (yoe + k) / 4 + era * 100 /\
  (yoe + era * 400 + k) / 100 = (yoe + k) / 100 + era * 4 /\
  (yoe + era * 400 + k) / 400 = (yoe + k) / 400 + era.
Proof. dlia. Qed.

(** The month that starts [mp] months after March of year [400 era + yoe]. *)
Definition civil_month (mp : Z) : Z := if mp <? 10 then mp + 3 else mp - 9.
Definition civil_year (era yoe mp : Z) : Z := yoe + era * 400 + (if mp <? 10 then 0 else 1).

Lemma march_month era yoe mp : 0 <= yoe <= 399 -> 0 <= mp <= 11 ->
  first_day (civil_year era yoe mp) (civil_month mp)
  = era * 146097 + year_start yoe + (153 * mp + 2) / 5 - 719468.
Proof.
  intros Hyoe Hmp. pose proof (days_from_march mp Hmp) as Hdays.
  unfold first_day, year_start, civil_year, civil_month.
  assert (yoe / 400 = 0) as Hz by dlia. pose proof (leap_step (yoe + era * 400 + 0)) as Hleap.
  destruct (era_split yoe era 0) as (A1 & A2 & A3), (era_split yoe era (-1)) as (B1 & B2 & B3).
  replace (yoe + era * 400 + 0 - 1) with (yoe + era * 400 + -1) in * by lia.
  destruct (Z.ltb_spec mp 10) as [Hlt|Hge]; rewrite Hdays.
  - replace (yoe + era * 400 + 0 - 1) with (yoe + era * 400 + -1) by lia.
    rewrite (proj2 (Z.ltb_lt 2 (mp + 3))) by lia. cbn [andb]. rewrite Hleap.
    rewrite A1, A2, A3, B1, B2, B3, !Z.add_0_r. lia.
  - replace (yoe + era * 400 + 1 - 1) with (yoe + era * 400 + 0) by lia.
    rewrite (proj2 (Z.ltb_ge 2 (mp - 9))) by lia. cbn [andb].
    rewrite A1, A2, A3, !Z.add_0_r. lia.
Qed.

(** The month after it. *)
Lemma march_month_next era yoe mp : 0 <= yoe <= 399 -> 0 <= mp <= 10 ->
  next_first_day (civil_year era yoe mp) (civil_month mp)
  = era * 146097 + year_start yoe + (153 * (mp + 1) + 2) / 5 - 719468.
Proof.
  intros Hyoe Hmp. rewrite <- march_month by lia. unfold next_first_day.
  assert (forall a b c d, a = c -> b = d -> first_day a b = first_day c d) as Heq by congruence.
  unfold civil_month, civil_year. destruct (Z.ltb_spec mp 10), (Z.ltb_spec (mp + 1) 10); try lia;
    destruct (Z.eqb_spec (mp + 3) 12), (Z.eqb_spec (mp - 9) 12); try lia; apply Heq; lia.
Qed.

(** February ends where the next March-based year starts. *)
Lemma february_next era yoe d : 0 <= yoe <= 399 -> 0 <= d <= 146096 -> year_start yoe <= d ->
  (yoe <= 398 -> d < year_start (yoe + 1)) ->
  era * 146097 + d - 719468 < next_first_day (civil_year era yoe 11) (civil_month 11).
Proof.
  intros Hyoe Hd Hlo Hhi.
  assert (next_first_day (civil_year era yoe 11) (civil_month 11)
          = first_day (yoe + 1 + era * 400) 3) as ->.
  { unfold next_first_day, civil_month, civil_year. simpl. f_equal. lia. }
  destruct (Z.eq_dec yoe 399) as [->|Hne].
  - replace (399 + 1 + era * 400) with (civil_year (era + 1) 0 0) by (unfold civil_year; simpl; lia).
    change 3 with (civil_month 0). rewrite march_month by lia.
    change (year_start 0) with 0. change ((153 * 0 + 2) / 5) with 0. lia.
  - replace (yoe + 1 + era * 400) with (civil_year era (yoe + 1) 0) by (unfold civil_year; simpl; lia).
    change 3 with (civil_month 0). rewrite march_month by lia.
    change ((153 * 0 + 2) / 5) with 0. specialize (Hhi ltac:(lia)). lia.
Qed.

(** [month_start] in closed form. *)
Lemma month_start_eq days : let z := days + 719468 in
  let era := z / 146097 in let doe := z - era * 146097 in let yoe := era_days doe / 365 in
  let mp := (5 * (doe - year_start yoe) + 2) / 153 in
  month_start days = era * 146097 + year_start yoe + (153 * mp + 2) / 5 - 719468.
Proof.
  intros z era doe yoe mp. assert (0 <= doe <= 146096) as Hdoe by (unfold doe, era; dlia).
  destruct (yoe_correct doe Hdoe) as (Hyoe & Hlo & Hlen & _). fold yoe in Hyoe, Hlo, Hlen.
  destruct (month_of_day (doe - year_start yoe)) as [Hmp _]; [lia|]. fold mp in Hmp.
  unfold month_start. fold z era doe.
  rewrite !(Z.quot_div_nonneg doe) by lia.
  assert (0 <= doe - doe / 1460 + doe / 36524 - doe / 146096) as Hnn by (clearbody doe; dlia).
  rewrite (Z.quot_div_nonneg (doe - _ + _ - _)) by lia.
  change ((doe - doe / 1460 + doe / 36524 - doe / 146096) / 365) with yoe.
  rewrite !(Z.quot_div_nonneg yoe) by lia.
  replace (365 * yoe + yoe / 4 - yoe / 100) with (year_start yoe) by (unfold year_start; lia).
  rewrite (Z.quot_div_nonneg (5 * (doe - year_start yoe) + 2)) by lia. fold mp.
  clearbody mp. cbv zeta.
  assert ((if mp <? 10 then mp + 3 else mp - 9) = civil_month mp) as -> by done.
  assert ((if 2 <? civil_month mp then civil_month mp - 3 else civil_month mp + 9) = mp) as ->.
  { unfold civil_month. destruct (Z.ltb_spec mp 10);
      [destruct (Z.ltb_spec 2 (mp + 3))|destruct (Z.ltb_spec 2 (mp - 9))]; lia. }
  assert ((if 2 <? civil_month mp
           then if civil_month mp <=? 2 then yoe + era * 400 + 1 else yoe + era * 400
           else (if civil_month mp <=? 2 then yoe + era * 400 + 1 else yoe + era * 400) - 1)
          = yoe + era * 400) as ->.
  { destruct (Z.ltb_spec 2 (civil_month mp)), (Z.leb_spec (civil_month mp) 2); lia. }
  assert ((yoe + era * 400) / 400 = era) as -> by (clearbody yoe era; dlia).
  replace (yoe + era * 400 - era * 400) with yoe by lia.
  rewrite !(Z.quot_div_nonneg yoe), Z.quot_div_nonneg by lia. unfold year_start. lia.
Qed.

(** The calendar floors.  The hourly, daily and weekly floors are the last
    multiple at or before the instant, weeks starting on Monday; the monthly
    floor, computed in closed form, is midnight of the first day of the
    Gregorian month the instant lies in, for every instant before or after
    1970. *)
Theorem bucket_floors_are_calendar ts :
  (exists k, bucket_floor_hourly ts = k * MS_PER_HOUR /\ k * MS_PER_HOUR <= ts < (k + 1) * MS_PER_HOUR) /\
  (exists k, bucket_floor_daily ts = k * MS_PER_DAY /\ k * MS_PER_DAY <= ts < (k + 1) * MS_PER_DAY) /\
  (exists k, bucket_floor_weekly ts = (7 * k + 4) * MS_PER_DAY /\
     (7 * k + 4) * MS_PER_DAY <= ts < (7 * (k + 1) + 4) * MS_PER_DAY) /\
  (exists y m, 1 <= m <= 12 /\ bucket_floor_monthly ts = first_day y m * MS_PER_DAY /\
     first_day y m * MS_PER_DAY <= ts < next_first_day y m * MS_PER_DAY).
Proof.
  unfold bucket_floor_hourly, bucket_floor_daily, bucket_floor_weekly, bucket_floor_monthly.
  split_and!.
  - exists (ts / MS_PER_HOUR). split; [done|]. unfold MS_PER_HOUR. dlia.
  - exists (ts / MS_PER_DAY). split; [done|]. unfold MS_PER_DAY, MS_PER_HOUR. dlia.
  - exists ((ts - 4 * MS_PER_DAY) / MS_PER_WEEK). unfold MS_PER_WEEK, MS_PER_DAY, MS_PER_HOUR. dlia.
  - set (days := ts / MS_PER_DAY). pose proof (month_start_eq days) as E. cbv zeta in E.
    set (era := (days + 719468) / 146097) in *. set (doe := days + 719468 - era * 146097) in *.
    set (yoe := era_days doe / 365) in *. set (mp := (5 * (doe - year_start yoe) + 2) / 153) in *.
    assert (0 <= doe <= 146096) as Hdoe by (unfold doe, era; dlia).
    destruct (yoe_correct doe Hdoe) as (Hyoe & Hlo & Hlen & Hhi). fold yoe in Hyoe, Hlo, Hlen, Hhi.
    destruct (month_of_day (doe - year_start yoe)) as [Hmp Hday]; [lia|]. fold mp in Hmp, Hday.
    assert (ts = days * MS_PER_DAY + ts mod MS_PER_DAY /\ 0 <= ts mod MS_PER_DAY < MS_PER_DAY) as [Hts Hrem].
    { unfold days, MS_PER_DAY, MS_PER_HOUR. dlia. }
    exists (civil_year era yoe mp), (civil_month mp). rewrite E, march_month by lia.
    assert (days = era * 146097 + doe - 719468) as Hdays by (unfold doe; lia).
    assert (days < next_first_day (civil_year era yoe mp) (civil_month mp)) as Hnext.
    { destruct (Z.eq_dec mp 11) as [->|Hne]; [rewrite Hdays; by apply february_next|].
      rewrite march_month_next by lia. lia. }
    split_and!; [unfold civil_month; destruct (Z.ltb_spec mp 10); lia..|done| |];
      unfold MS_PER_DAY, MS_PER_HOUR in *; nia.
Qed.
