(* ===== verification/ChunkTypes.v ===== *)
(** * Data of the chunk store ([freally-chunk]: [types.rs], [compress.rs], [error.rs])

    Digests and manifests, the codec a chunk is stored under, and the two
    textual and binary encodings of the store: the hex form of digests and the
    locator rows of the index, in both the layout that is written and the
    legacy one that is still read. *)
From S2P Require Import Prelude.
From S2P Require Import Text.
From S2P Require Import Files.
From stdpp Require Import options.
Open Scope Z_scope.

Abbreviation Blake3Hash := (list byte) (only parsing).
Abbreviation Uuid := (list byte) (only parsing).

(** ** Bytes and little-endian integers *)

Definition byte_val (b : byte) : Z := Z.of_N (Byte.to_N b).
Definition byte_of (z : Z) : byte := default x00 (Byte.of_N (Z.to_N (z mod 256))).

#[export] Instance byte_countable : Countable byte.
Proof.
  refine (inj_countable' Byte.to_N (fun n => default x00 (Byte.of_N n)) _).
  intros b. by rewrite Byte.of_to_N.
Defined.

Lemma byte_val_range b : 0 <= byte_val b < 256.
Proof. unfold byte_val. pose proof (Byte.to_N_bounded b). lia. Qed.

Lemma byte_of_val b : byte_of (byte_val b) = b.
Proof.
  pose proof (byte_val_range b) as Hb. unfold byte_of. rewrite Z.mod_small by lia.
  unfold byte_val. by rewrite N2Z.id, Byte.of_to_N.
Qed.

Lemma byte_val_of z : byte_val (byte_of z) = z mod 256.
Proof.
  pose proof (Z.mod_pos_bound z 256 ltac:(lia)) as Hz. unfold byte_of, byte_val.
  destruct (Byte.of_N (Z.to_N (z mod 256))) as [b|] eqn:E; simpl.
  - apply Byte.to_of_N in E. rewrite E. lia.
  - apply Byte.of_N_None_iff in E. lia.
Qed.

Fixpoint le_bytes (n : nat) (z : Z) : bytes :=
  match n with O => [] | S n => byte_of z :: le_bytes n (z / 256) end.

Fixpoint le_value (l : bytes) : Z :=
  match l with [] => 0 | b :: l => byte_val b + 256 * le_value l end.

Lemma length_le_bytes n z : length (le_bytes n z) = n.
Proof. revert z. induction n as [|n IH]; intros z; simpl; by rewrite ?IH. Qed.

Lemma le_value_range l : 0 <= le_value l < 256 ^ Z.of_nat (length l).
Proof.
  induction l as [|b l IH]; [done|]. cbn [le_value length].
  rewrite Nat2Z.inj_succ, Z.pow_succ_r by lia. pose proof (byte_val_range b). lia.
Qed.

Lemma le_value_bytes n z : 0 <= z < 256 ^ Z.of_nat n -> le_value (le_bytes n z) = z.
Proof.
  revert z. induction n as [|n IH]; intros z Hz; [cbn in *; lia|]. cbn [le_bytes le_value].
  rewrite Nat2Z.inj_succ, Z.pow_succ_r in Hz by lia.
  rewrite byte_val_of, IH; [|split; [apply Z.div_pos; lia|apply Z.div_lt_upper_bound; lia]].
  pose proof (Z.div_mod z 256 ltac:(lia)). lia.
Qed.

Lemma le_bytes_value l : le_bytes (length l) (le_value l) = l.
Proof.
  induction l as [|b l IH]; [done|]. cbn [le_value length le_bytes].
  pose proof (byte_val_range b) as Hb. f_equal.
  - rewrite <- (byte_of_val b) at 2. unfold byte_of. do 3 f_equal.
    rewrite Z.mul_comm, Z_mod_plus_full. by rewrite Z.mod_small by lia.
  - replace (byte_val b + 256 * le_value l) with (byte_val b + le_value l * 256) by lia.
    by rewrite Z.div_add, Z.div_small, Z.add_0_l by lia.
Qed.

(** ** [u32] *)

Definition U32_MAX : Z := 4294967295.
Definition wrap32 (x : Z) : Z := x mod (U32_MAX + 1).
Definition is_u32 (x : Z) : Prop := 0 <= x <= U32_MAX.

#[export] Instance is_u32_dec x : Decision (is_u32 x).
Proof. unfold is_u32. solve_decision. Defined.

Lemma wrap32_u32 x : is_u32 (wrap32 x).
Proof.
  unfold is_u32, wrap32. pose proof (Z.mod_pos_bound x (U32_MAX + 1)) as H.
  unfold U32_MAX in *. lia.
Qed.

Lemma wrap32_id x : is_u32 x -> wrap32 x = x.
Proof. unfold is_u32, wrap32, U32_MAX. intros H. apply Z.mod_small. lia. Qed.

(** The length of a byte string as a [u64] or [usize]. *)
Definition len (b : bytes) : Z := Z.of_nat (length b).

(** ** Errors ([error.rs]); paths and messages are left out *)

Inductive ChunkStoreError :=
| CIo
| CRedb
| CManifest
| MissingChunk (hash : Blake3Hash)
| CorruptChunk (hash : Blake3Hash)
| NoDataDir
| SnapshotNotFound (id : Z)
| AlreadyExists
| NotInitialised
| Locked
| BadPassphrase.

(** ** Codecs ([compress.rs]) *)

Inductive ChunkCodec := CodecNone | CodecZstd.

#[export] Instance codec_eq_dec : EqDecision ChunkCodec.
Proof. solve_decision. Defined.

Definition as_u8 (c : ChunkCodec) : byte :=
  match c with CodecNone => byte_of 0 | CodecZstd => byte_of 1 end.

Definition from_u8 (b : byte) : option ChunkCodec :=
  if byte_val b =? 0 then Some CodecNone
  else if byte_val b =? 1 then Some CodecZstd
  else None.

Record CompressionLevel := { level_of : Z }.

Definition clamped (l : CompressionLevel) : Z := Z.max 1 (Z.min 22 (level_of l)).

Inductive RepoCompression :=
| Off
| Auto (level : CompressionLevel)
| Always (level : CompressionLevel).

Definition AUTO_KEEP_NUM : Z := 97.
Definition AUTO_KEEP_DEN : Z := 100.

(** The zstd library: both directions may fail; decompression gets the
    capacity it may fill. *)
Class Zstd := {
  zstd_compress : bytes -> Z -> option bytes;
  zstd_decompress : bytes -> Z -> option bytes;
}.

Definition encode `{Zstd} (comp : RepoCompression) (plaintext : bytes) : ChunkCodec * bytes :=
  let try_level level (keep : bytes -> bool) :=
    match zstd_compress plaintext (clamped level) with
    | None => (CodecNone, plaintext)
    | Some compressed =>
        if keep compressed then (CodecZstd, compressed) else (CodecNone, plaintext)
    end in
  match comp with
  | Off => (CodecNone, plaintext)
  | Always level => try_level level (fun c => len c <? len plaintext)
  | Auto level => try_level level (fun c => len c * AUTO_KEEP_DEN <? len plaintext * AUTO_KEEP_NUM)
  end.

(** The decoding step of [ChunkStore::get]. *)
Definition decode_stored `{Zstd} (codec : ChunkCodec) (stored : bytes) (length : Z) : option bytes :=
  match codec with
  | CodecNone => Some stored
  | CodecZstd => zstd_decompress stored length
  end.

(** What the store relies on: a frame decompresses to what was compressed when
    the capacity is its length. *)
Class ZstdLaws `{Zstd} := {
  zstd_round : forall p l c, zstd_compress p l = Some c -> zstd_decompress c (len p) = Some p;
}.

(** Whatever the policy, what is stored is never larger than the plaintext
    and decodes back to it. *)
Lemma encode_spec `{ZstdLaws} comp p :
  len (encode comp p).2 <= len p /\
  decode_stored (encode comp p).1 (encode comp p).2 (len p) = Some p.
Proof.
  assert (0 <= len p) as Hp by (unfold len; lia).
  destruct comp as [|l|l]; cbn [encode]; [done| |];
    (destruct (zstd_compress p (clamped l)) as [c|] eqn:E; [|done]);
    (destruct (_ <? _) eqn:Hlt; [|done]); apply Z.ltb_lt in Hlt;
    (split; [|simpl; eapply zstd_round, E]); simpl;
    unfold AUTO_KEEP_DEN, AUTO_KEEP_NUM in *; lia.
Qed.

(** ** Chunks and manifests ([types.rs]) *)

Record Chunk := { k_offset : Z; k_len : Z; k_hash : Blake3Hash }.

Record ChunkRef := { c_hash : Blake3Hash; c_offset : Z; c_len : Z; c_codec : ChunkCodec }.

Record Manifest := { file_hash : Blake3Hash; m_size : Z; m_chunks : list ChunkRef }.

Definition unique_chunks (m : Manifest) : nat :=
  size (list_to_set (C := gset Blake3Hash) (c_hash <$> m_chunks m)).

(** The loop of [new_chunks_relative_to]: [added] holds what was pushed. *)
Fixpoint new_chunks_loop (old added : gset Blake3Hash) (l : list ChunkRef) : list Blake3Hash :=
  match l with
  | [] => []
  | c :: l =>
      if bool_decide (c_hash c ∉ old /\ c_hash c ∉ added)
      then c_hash c :: new_chunks_loop old ({[c_hash c]} ∪ added) l
      else new_chunks_loop old added l
  end.

Definition new_chunks_relative_to (old new : Manifest) : list Blake3Hash :=
  new_chunks_loop (list_to_set (c_hash <$> m_chunks old)) ∅ (m_chunks new).

Lemma new_chunks_loop_spec old added l :
  NoDup (new_chunks_loop old added l) /\
  forall h, (h ∈ new_chunks_loop old added l) <-> h ∈ (c_hash <$> l) /\ h ∉ old /\ h ∉ added.
Proof.
  revert added. induction l as [|c l IH]; intros added; simpl.
  { split; [constructor|]. intros h. rewrite !elem_of_nil. tauto. }
  case_bool_decide as Hc.
  - destruct (IH ({[c_hash c]} ∪ added)) as [Hnd Hin]. split.
    + constructor; [|done]. rewrite Hin, elem_of_union, elem_of_singleton. tauto.
    + intros h. rewrite !elem_of_cons, Hin, not_elem_of_union, not_elem_of_singleton.
      destruct (decide (h = c_hash c)) as [->|]; tauto.
  - destruct (IH added) as [Hnd Hin]. split; [done|].
    intros h. rewrite elem_of_cons, Hin.
    destruct (decide (h = c_hash c)) as [->|]; tauto.
Qed.

(** The delta of a retry: every new hash once, in the order of the file. *)
Lemma new_chunks_exact old new :
  NoDup (new_chunks_relative_to old new) /\
  forall h, (h ∈ new_chunks_relative_to old new) <->
    h ∈ (c_hash <$> m_chunks new) /\ h ∉ (c_hash <$> m_chunks old).
Proof.
  destruct (new_chunks_loop_spec (list_to_set (c_hash <$> m_chunks old)) ∅ (m_chunks new)) as [H1 H2].
  split; [exact H1|]. intros h. unfold new_chunks_relative_to. rewrite H2.
  rewrite elem_of_list_to_set. split; [tauto|]. intros [? ?]. split_and!; [done..|apply not_elem_of_empty].
Qed.

(** ** Hex digests ([serde_hash]) *)

Definition hex_digit (n : Z) : ascii :=
  ascii_of_N (Z.to_N (if n <? 10 then 48 + n else 87 + n)).

Definition from_hex (c : ascii) : option Z :=
  let n := Z.of_N (N_of_ascii c) in
  if ascii_in 48 57 c then Some (n - 48)
  else if ascii_in 97 102 c then Some (n - 97 + 10)
  else if ascii_in 65 70 c then Some (n - 65 + 10)
  else None.

Fixpoint hex_encode (l : bytes) : string :=
  match l with
  | [] => EmptyString
  | b :: l =>
      String (hex_digit (Z.land (Z.shiftr (byte_val b) 4) 15))
        (String (hex_digit (Z.land (byte_val b) 15)) (hex_encode l))
  end.

Fixpoint hex_pairs (s : string) : option bytes :=
  match s with
  | EmptyString => Some []
  | String a (String b s) =>
      hi ← from_hex a; lo ← from_hex b; rest ← hex_pairs s;
      Some (byte_of (Z.lor (Z.shiftl hi 4) lo) :: rest)
  | String _ EmptyString => None
  end.

Definition hex_decode (s : string) : option bytes :=
  if Nat.eqb (String.length s) 64 then hex_pairs s else None.

(** One byte survives the trip through its two digits. *)
Lemma hex_byte b :
  (hi ← from_hex (hex_digit (Z.land (Z.shiftr (byte_val b) 4) 15));
   lo ← from_hex (hex_digit (Z.land (byte_val b) 15));
   Some (byte_of (Z.lor (Z.shiftl hi 4) lo))) = Some b.
Proof. by destruct b. Qed.

Lemma hex_pairs_encode l : hex_pairs (hex_encode l) = Some l.
Proof.
  induction l as [|b l IH]; [done|]. cbn [hex_encode hex_pairs]. rewrite IH.
  pose proof (hex_byte b) as H.
  destruct (from_hex (hex_digit (Z.land (Z.shiftr _ _) _))) as [hi|]; simpl in *; [|done].
  destruct (from_hex (hex_digit (Z.land (byte_val b) 15))) as [lo|]; simpl in *; [|done].
  by injection H as ->.
Qed.

Lemma length_hex_encode l : String.length (hex_encode l) = (2 * length l)%nat.
Proof. induction l as [|b l IH]; simpl; [done|]. rewrite IH. lia. Qed.

(** A digest decodes from its hex form, in either case of the letters. *)
Lemma hex_round_trip h : length h = 32%nat -> hex_decode (hex_encode h) = Some h.
Proof.
  intros H. unfold hex_decode. rewrite length_hex_encode, H. simpl. apply hex_pairs_encode.
Qed.

(** ** Locators ([store.rs]) *)

Record ChunkLocator := {
  pack_id : Uuid;
  l_offset : Z;
  l_len : Z;
  stored_len : Z;
  l_codec : ChunkCodec;
}.

Definition encode_locator (loc : ChunkLocator) : bytes :=
  pack_id loc ++ le_bytes 8 (l_offset loc) ++ le_bytes 4 (stored_len loc) ++
  le_bytes 4 (l_len loc) ++ [as_u8 (l_codec loc)] ++ [byte_of 0].

(** [bytes[a..b]] *)
Definition sub (a b : nat) (l : bytes) : bytes := take (b - a) (drop a l).

Definition decode_locator (b : bytes) : result ChunkStoreError ChunkLocator :=
  if Nat.eqb (length b) 28 then
    let length := le_value (sub 24 28 b) in
    Ok {| pack_id := sub 0 16 b; l_offset := le_value (sub 16 24 b);
          l_len := length; stored_len := length; l_codec := CodecNone |}
  else if Nat.eqb (length b) 34 then
    let? codec := ok_or (b !! 32%nat ≫= from_u8) CRedb in
    Ok {| pack_id := sub 0 16 b; l_offset := le_value (sub 16 24 b);
          stored_len := le_value (sub 24 28 b); l_len := le_value (sub 28 32 b);
          l_codec := codec |}
  else Err CRedb.

(** The widths of the fields. *)
Definition locator_ok (loc : ChunkLocator) : Prop :=
  length (pack_id loc) = 16%nat /\ is_u64 (l_offset loc) /\
  is_u32 (l_len loc) /\ is_u32 (stored_len loc).

#[export] Instance locator_ok_dec loc : Decision (locator_ok loc).
Proof. unfold locator_ok. apply _. Defined.

Lemma codec_round_trip c : from_u8 (as_u8 c) = Some c.
Proof. by destruct c. Qed.

Lemma from_u8_inv b c : from_u8 b = Some c -> b = as_u8 c.
Proof. by destruct b; destruct c. Qed.

Lemma length_sub a b l : (a <= b <= length l)%nat -> length (sub a b l) = (b - a)%nat.
Proof. intros. unfold sub. rewrite length_take, length_drop. lia. Qed.

Lemma sub_app_l a b l k : (b <= length l)%nat -> sub a b (l ++ k) = sub a b l.
Proof.
  intros H. unfold sub. destruct (decide (a <= b)%nat) as [Hab|].
  - rewrite drop_app_le, take_app_le by (rewrite ?length_drop; lia). done.
  - replace (b - a)%nat with O by lia. done.
Qed.

Lemma sub_app_r a b l k :
  (length l <= a)%nat -> sub a b (l ++ k) = sub (a - length l) (b - length l) k.
Proof.
  intros H. unfold sub. rewrite drop_app_ge by lia.
  by replace (b - length l - (a - length l))%nat with (b - a)%nat by lia.
Qed.

Lemma sub_all l : sub 0 (length l) l = l.
Proof. unfold sub. rewrite drop_0. by rewrite firstn_all2 by lia. Qed.

Lemma sub_full n l : length l = n -> sub 0 n l = l.
Proof. intros <-. apply sub_all. Qed.

(** What the writer produces has 34 bytes and reads back. *)
Lemma encode_locator_length loc :
  length (pack_id loc) = 16%nat -> length (encode_locator loc) = 34%nat.
Proof. intros H. unfold encode_locator. rewrite !length_app, !length_le_bytes, H. done. Qed.

Lemma decode_encode_locator loc : locator_ok loc -> decode_locator (encode_locator loc) = Ok loc.
Proof.
  intros (Hid & Hoff & Hlen & Hst). unfold decode_locator.
  rewrite encode_locator_length by done.
  unfold is_u64, is_u32, U64_MAX, U32_MAX in *. unfold encode_locator.
  assert (forall k, sub 0 16 (pack_id loc ++ k) = pack_id loc) as ->.
  { intros k. rewrite sub_app_l by lia. by apply sub_full. }
  rewrite !(sub_app_r _ _ (pack_id loc)), lookup_app_r by (rewrite ?Hid; lia). rewrite Hid. simpl Nat.sub.
  rewrite (sub_app_l 0 8) by (rewrite length_le_bytes; lia).
  rewrite !(sub_app_r _ _ (le_bytes 8 _)), (lookup_app_r (le_bytes 8 _))
    by (rewrite length_le_bytes; lia). rewrite length_le_bytes. simpl Nat.sub.
  rewrite (sub_app_l 0 4) by (rewrite length_le_bytes; lia).
  rewrite !(sub_app_r _ _ (le_bytes 4 (stored_len loc))), (lookup_app_r (le_bytes 4 (stored_len loc)))
    by (rewrite length_le_bytes; lia). rewrite length_le_bytes. simpl Nat.sub.
  rewrite (sub_app_l 0 4), (lookup_app_r (le_bytes 4 _)) by (rewrite length_le_bytes; lia).
  rewrite length_le_bytes. simpl Nat.sub. cbn [lookup list_lookup app option_bind mbind].
  rewrite codec_round_trip. cbn [ok_or result_bind].
  rewrite !sub_full by apply length_le_bytes.
  rewrite !le_value_bytes by (simpl; lia). by destruct loc.
Qed.

(** Every row the reader accepts has fields of their widths, and is either a
    legacy row, read as an uncompressed chunk, or the writer's own encoding up
    to the reserved byte. *)
Lemma decode_locator_inv b loc :
  decode_locator b = Ok loc ->
  locator_ok loc /\
  ((length b = 28%nat /\ l_codec loc = CodecNone /\ stored_len loc = l_len loc /\
    b = pack_id loc ++ le_bytes 8 (l_offset loc) ++ le_bytes 4 (l_len loc)) \/
   exists reserved, b = take 33 (encode_locator loc) ++ [reserved]).
Proof.
  assert (forall a n, (a + n <= length b)%nat -> le_bytes n (le_value (sub a (a + n) b)) = sub a (a + n) b) as Hle.
  { intros a n H. pose proof (le_bytes_value (sub a (a + n) b)) as E.
    rewrite length_sub in E by lia. by replace (a + n - a)%nat with n in E by lia. }
  assert (forall a n, (a + n <= length b)%nat ->
    0 <= le_value (sub a (a + n) b) < 256 ^ Z.of_nat n) as Hrange.
  { intros a n H. pose proof (le_value_range (sub a (a + n) b)) as E.
    rewrite length_sub in E by lia. by replace (a + n - a)%nat with n in E by lia. }
  assert (forall a c : nat, (a <= c)%nat -> drop a b = sub a c b ++ drop c b) as Hcut.
  { intros a c H. unfold sub. rewrite <- (take_drop (c - a) (drop a b)) at 1.
    rewrite drop_drop. by replace (a + (c - a))%nat with c by lia. }
  assert (b = drop 0 b) as Hb by by rewrite drop_0.
  unfold decode_locator. intros H.
  assert ((length b = 28 \/ length b = 34)%nat) as Hl.
  { destruct (Nat.eqb_spec (length b) 28); [by left|].
    destruct (Nat.eqb_spec (length b) 34); [by right|done]. }
  assert (length (sub 0 16 b) = 16%nat) as Hid by (rewrite length_sub; lia).
  pose proof (Hle 16%nat 8%nat) as E1. pose proof (Hle 24%nat 4%nat) as E2.
  pose proof (Hrange 16%nat 8%nat) as R1. pose proof (Hrange 24%nat 4%nat) as R2.
  simpl Nat.add in *. simpl Z.pow in *.
  destruct Hl as [Hl|Hl]; rewrite Hl in H.
  - injection H as <-. split.
    + unfold locator_ok, is_u64, is_u32, U64_MAX, U32_MAX. simpl. lia.
    + left. cbn [pack_id l_offset l_len stored_len l_codec]. split_and!; [done..|].
      rewrite E1, E2 by lia.
      rewrite Hb at 1. rewrite (Hcut 0 16)%nat, (Hcut 16 24)%nat, (Hcut 24 28)%nat by lia.
      rewrite (drop_ge b 28) by lia. by rewrite app_nil_r.
  - apply result_bind_Ok in H as (c & Hc & H). injection H as <-.
    destruct (b !! 32%nat) as [tag|] eqn:Htag; simpl in Hc; [|done].
    destruct (from_u8 tag) as [c'|] eqn:Hc'; [|done]. simpl in Hc. injection Hc as ->.
    apply from_u8_inv in Hc' as ->. pose proof (Hrange 28%nat 4%nat) as R3.
    simpl Nat.add in *. simpl Z.pow in *. split.
    + unfold locator_ok, is_u64, is_u32, U64_MAX, U32_MAX. simpl. lia.
    + right. destruct (b !! 33%nat) as [rv|] eqn:Hrv; [|apply lookup_ge_None_1 in Hrv; lia].
      exists rv. unfold encode_locator. cbn [pack_id l_offset l_len stored_len l_codec].
      pose proof (Hle 28%nat 4%nat) as E3. simpl Nat.add in E3. rewrite E1, E2, E3 by lia.
      rewrite Hb at 1.
      rewrite (Hcut 0 16)%nat, (Hcut 16 24)%nat, (Hcut 24 28)%nat, (Hcut 28 32)%nat by lia.
      rewrite (drop_S _ _ _ Htag), (drop_S _ _ _ Hrv), (drop_ge b 34) by lia.
      change [as_u8 c; rv] with ([as_u8 c] ++ [rv]). rewrite !app_assoc.
      rewrite take_app_length'; [done|].
      rewrite !length_app, !length_sub by lia. done.
Qed.

(** A locator whose fields have their widths is written as 34 bytes that read
    back to it; changing the codec tag to an unknown one, or cutting the row
    short of its layout, is an error and never another locator. *)
Theorem locator_round_trip loc :
  locator_ok loc ->
  length (encode_locator loc) = 34%nat /\
  decode_locator (encode_locator loc) = Ok loc /\
  (forall tag, from_u8 tag = None ->
     decode_locator (<[32%nat := tag]> (encode_locator loc)) = Err CRedb) /\
  (forall n, (n < 34)%nat -> n <> 28%nat -> decode_locator (take n (encode_locator loc)) = Err CRedb).
Proof.
  intros H. pose proof H as (Hid & _).
  pose proof (encode_locator_length _ Hid) as Hl.
  split_and!; [done|by apply decode_encode_locator| |].
  - intros tag Ht. unfold decode_locator. rewrite length_insert, Hl. simpl Nat.eqb. cbv iota.
    rewrite list_lookup_insert_eq by lia. simpl. by rewrite Ht.
  - intros n Hn Hne. unfold decode_locator. rewrite length_take, Hl, Nat.min_l by lia.
    destruct (Nat.eqb_spec n 28); [done|]. by destruct (Nat.eqb_spec n 34); [lia|].
Qed.

(** C36: Reading a row of the index is type safe: whatever bytes it holds, the
    result is an error or a locator whose fields have their widths; and the
    row is then a legacy one, read as an uncompressed chunk, or the writer's
    own bytes up to the reserved last one. *)
Theorem decoded_locator_typed b loc :
  decode_locator b = Ok loc ->
  locator_ok loc /\
  ((length b = 28%nat /\ l_codec loc = CodecNone /\ stored_len loc = l_len loc /\
    b = pack_id loc ++ le_bytes 8 (l_offset loc) ++ le_bytes 4 (l_len loc)) \/
   exists reserved, b = take 33 (encode_locator loc) ++ [reserved]).
Proof. apply decode_locator_inv. Qed.

(** ** Examples *)
Module Demo.
Definition demo_id : Uuid := le_bytes 16 777.
Definition demo_loc : ChunkLocator :=
  {| pack_id := demo_id; l_offset := 4096; l_len := 1000; stored_len := 400; l_codec := CodecZstd |}.
End Demo.

Lemma locator_round_trip_witness :
  length (encode_locator Demo.demo_loc) = 34%nat /\
  decode_locator (encode_locator Demo.demo_loc) = Ok Demo.demo_loc.
Proof.
  destruct (locator_round_trip Demo.demo_loc) as (H1 & H2 & _); [by_decide|]. by split.
Defined.

Lemma decoded_locator_typed_witness :
  locator_ok {| pack_id := Demo.demo_id; l_offset := 4096; l_len := 1000; stored_len := 1000;
                l_codec := CodecNone |}.
Proof.
  apply (decoded_locator_typed (Demo.demo_id ++ le_bytes 8 4096 ++ le_bytes 4 1000)).
  vm_compute. reflexivity.
Defined.
