(* ===== verification/ChunkStore.v ===== *)
(** * The content-addressed chunk store ([freally-chunk]: [store.rs], [backend.rs])

    Chunks are appended to pack files and found through the tables of
    [index.redb]; a manifest table and the id of the active pack live beside
    them.  Every operation runs in the state monad of [Monad] over one
    [Store]: what is on disk, the active pack the process remembers, and a
    counter of the outside calls.  The environment ([ChunkWorld]) decides for
    each call whether it works, fails, or is the one at which the process
    dies. *)
From S2P Require Import Prelude.
From S2P Require Import Text.
From S2P Require Import Files.
From S2P Require Import Monad.
From S2P Require Import Table.
From S2P Require Import ChunkTypes.
From stdpp Require Import options.
Open Scope Z_scope.
Open Scope monad_scope.

(** ** The outside world *)

Inductive Fate := Works | Fails | Dies.

(** What the [n]-th outside call does.  [wrote] is how much of an append that
    fails or kills the process reaches the file, [new_v4] the identifier the
    uuid library draws, [read_size] how many bytes a read returns at most,
    [listing] the order in which a directory or a hash set is enumerated and
    [cancelled] what the caller's cancel flag says. *)
Class ChunkWorld := {
  fate : nat -> Fate;
  wrote : nat -> nat;
  new_v4 : nat -> Uuid;
  read_size : nat -> nat;
  listing : nat -> list Uuid -> list Uuid;
  cancelled : nat -> bool;
}.

Class Blake3 := {
  blake3 : bytes -> Blake3Hash;
  blake3_length : forall b, length (blake3 b) = 32%nat;
}.

(** How a call can end early: an error value, the end of the process, a panic,
    or a loop whose fuel ran out (which never happens). *)
Inductive Exn := XErr (e : ChunkStoreError) | XDied | XPanic | XStuck.

Definition STAT_ACTIVE : string := "active_pack_id".

(** 1 GiB *)
Definition PACK_ROLLOVER_BYTES : Z := 1073741824.

Record ActivePack := { a_id : Uuid; a_size : Z }.

Record PackStat := {
  ps_id : Uuid; file_bytes : Z; live_bytes : Z; live_chunks : Z; is_active : bool;
}.

Section store.
Context {TC TM TS : Type} {kle : bytes -> bytes -> Prop}.
Context {TBC : Table bytes bytes TC kle} {TBM : Table string bytes TM String.le}.
Context {TBS : Table string bytes TS String.le} {CM : Codec Manifest bytes}.
Context {B3 : Blake3} {ZS : Zstd} {EN : ChunkWorld}.

(** [packs/], the three tables of [index.redb], the files restores read and
    write, and what the process holds in memory. *)
Record Store := {
  packs : gmap Uuid bytes;
  chunks : TC;
  manifests : TM;
  stats : TS;
  fs : gmap path bytes;
  active : ActivePack;
  rollover_bytes : Z;
  calls : nat;
}.

Definition with_packs (p : gmap Uuid bytes) (s : Store) : Store :=
  {| packs := p; chunks := chunks s; manifests := manifests s; stats := stats s; fs := fs s;
     active := active s; rollover_bytes := rollover_bytes s; calls := calls s |}.
Definition with_chunks (c : TC) (s : Store) : Store :=
  {| packs := packs s; chunks := c; manifests := manifests s; stats := stats s; fs := fs s;
     active := active s; rollover_bytes := rollover_bytes s; calls := calls s |}.
Definition with_manifests (m : TM) (s : Store) : Store :=
  {| packs := packs s; chunks := chunks s; manifests := m; stats := stats s; fs := fs s;
     active := active s; rollover_bytes := rollover_bytes s; calls := calls s |}.
Definition with_stats (t : TS) (s : Store) : Store :=
  {| packs := packs s; chunks := chunks s; manifests := manifests s; stats := t; fs := fs s;
     active := active s; rollover_bytes := rollover_bytes s; calls := calls s |}.
Definition with_fs (f : gmap path bytes) (s : Store) : Store :=
  {| packs := packs s; chunks := chunks s; manifests := manifests s; stats := stats s; fs := f;
     active := active s; rollover_bytes := rollover_bytes s; calls := calls s |}.
Definition with_active (a : ActivePack) (s : Store) : Store :=
  {| packs := packs s; chunks := chunks s; manifests := manifests s; stats := stats s; fs := fs s;
     active := a; rollover_bytes := rollover_bytes s; calls := calls s |}.
Definition with_rollover (r : Z) (s : Store) : Store :=
  {| packs := packs s; chunks := chunks s; manifests := manifests s; stats := stats s; fs := fs s;
     active := active s; rollover_bytes := r; calls := calls s |}.
Definition tick (s : Store) : Store :=
  {| packs := packs s; chunks := chunks s; manifests := manifests s; stats := stats s; fs := fs s;
     active := active s; rollover_bytes := rollover_bytes s; calls := S (calls s) |}.

Definition M (A : Type) : Type := SM Store Exn A.

(** ** Outside calls *)

(** One call that may fail with [e]. *)
Definition call (e : ChunkStoreError) : M unit := fun s =>
  match fate (calls s) with
  | Works => (Ok tt, tick s)
  | Fails => (Err (XErr e), tick s)
  | Dies => (Err XDied, tick s)
  end.

Definition fail {A} (e : ChunkStoreError) : M A := throw (XErr e).

Definition lift_result {A} (r : result ChunkStoreError A) : M A :=
  match r with Ok a => ret a | Err e => fail e end.

(** [match op { Ok(..) => .., Err(..) => .. }] *)
Definition try {A} (m : M A) : M (result ChunkStoreError A) := fun s =>
  match m s with
  | (Ok a, s') => (Ok (Ok a), s')
  | (Err (XErr e), s') => (Ok (Err e), s')
  | (Err x, s') => (Err x, s')
  end.

(** A read transaction, and a write transaction that is committed whole. *)
Definition db_read {A} (f : Store -> A) : M A := call CRedb ;; gets f.
Definition db_write (f : Store -> Store) : M unit := call CRedb ;; modify f.

(** [OpenOptions::new().append(true).open(..)], [write_all], [flush]: the
    bytes go to the end of the file, wherever the caller thinks that is. *)
Definition append_pack (id : Uuid) (b : bytes) : M unit := fun s =>
  match packs s !! id with
  | None => (Err (XErr CIo), tick s)
  | Some old =>
      let put n := with_packs (<[id := old ++ take n b]> (packs s)) (tick s) in
      match fate (calls s) with
      | Works => (Ok tt, put (length b))
      | Fails => (Err (XErr CIo), put (wrote (calls s)))
      | Dies => (Err XDied, put (wrote (calls s)))
      end
  end.

(** [File::create] *)
Definition create_pack (id : Uuid) : M unit :=
  call CIo ;; modify (fun s => with_packs (<[id := []]> (packs s)) s).

(** ** The pack files through the blob backend ([backend.rs]) *)

(** The trait's default [get_range], which the in-memory backend has. *)
Definition default_get_range (object : option bytes) (offset len : Z) : option bytes :=
  b ← object;
  let start := Z.min offset (ChunkTypes.len b) in
  let stop := Z.min (sat_add64 start len) (ChunkTypes.len b) in
  Some (sub (Z.to_nat start) (Z.to_nat stop) b).

(** The read loop of [LocalFsBackend::get_range]: it stops when the buffer is
    full or a read returns nothing. *)
Fixpoint fill (fuel : nat) (rest filled : bytes) (want : nat) : M bytes :=
  match fuel with
  | O => ret filled
  | S fuel =>
      if Nat.leb want (length filled) then ret filled
      else
        let! n := gets calls in
        call CIo ;;
        let got := take (Nat.min (Nat.max 1 (read_size n)) (want - length filled)) rest in
        if Nat.eqb (length got) 0 then ret filled
        else fill fuel (drop (length got) rest) (filled ++ got) want
  end.

Definition get_range (id : Uuid) (offset : Z) (len : Z) : M (option bytes) :=
  call CIo ;;
  let! f := gets (fun s => packs s !! id) in
  match f with
  | None => ret None
  | Some f =>
      let! b := fill (S (Z.to_nat len)) (drop (Z.to_nat offset) f) [] (Z.to_nat len) in
      ret (Some b)
  end.

(** [delete]: the bytes freed, nothing for an absent file. *)
Definition remove_pack_file (id : Uuid) : M Z :=
  call CIo ;;
  let! f := gets (fun s => packs s !! id) in
  match f with
  | None => ret 0
  | Some f => modify (fun s => with_packs (delete id (packs s)) s) ;; ret (len f)
  end.

(** [list("pack-")] *)
Definition list_packs : M (list Uuid) :=
  let! n := gets calls in
  call CIo ;;
  gets (fun s => listing n (elements (dom (packs s)))).

(** ** Opening *)

(** [open_with_rollover]: whatever the last process left, restore the active
    pack that [stats] names with the size its file has, or start a first
    one. *)
Definition open_with_rollover (rollover : Z) : M unit :=
  call CIo ;; call CRedb ;; call CRedb ;;
  let! prev := db_read (fun s => tbl_get STAT_ACTIVE (stats s)) in
  (match prev with
   | Some id =>
       if Nat.eqb (length id) 16 then
         modify (fun s => with_active {| a_id := id; a_size := len (default [] (packs s !! id)) |} s)
       else
         let! n := gets calls in
         create_pack (new_v4 n) ;;
         db_write (fun s => with_stats (tbl_insert STAT_ACTIVE (new_v4 n) (stats s)) s) ;;
         modify (with_active {| a_id := new_v4 n; a_size := 0 |})
   | None =>
       let! n := gets calls in
       create_pack (new_v4 n) ;;
       db_write (fun s => with_stats (tbl_insert STAT_ACTIVE (new_v4 n) (stats s)) s) ;;
       modify (with_active {| a_id := new_v4 n; a_size := 0 |})
   end) ;;
  modify (with_rollover rollover).

Definition open : M unit := open_with_rollover PACK_ROLLOVER_BYTES.

(** ** Reading *)

Definition locate (hash : Blake3Hash) : M (option ChunkLocator) :=
  let! v := db_read (fun s => tbl_get hash (chunks s)) in
  match v with
  | None => ret None
  | Some v => let! loc := lift_result (decode_locator v) in ret (Some loc)
  end.

Definition has (hash : Blake3Hash) : M bool :=
  db_read (fun s => bool_decide (is_Some (tbl_get hash (chunks s)))).

Definition get (hash : Blake3Hash) : M (option bytes) :=
  let! loc := locate hash in
  match loc with
  | None => ret None
  | Some loc =>
      let! r := get_range (pack_id loc) (l_offset loc) (stored_len loc) in
      let! stored := lift_result (ok_or r (MissingChunk hash)) in
      let! plaintext :=
        lift_result (ok_or (decode_stored (l_codec loc) stored (l_len loc)) (CorruptChunk hash)) in
      if bool_decide (blake3 plaintext = hash) then ret (Some plaintext)
      else fail (CorruptChunk hash)
  end.

Definition chunk_count : M Z := db_read (fun s => Z.of_nat (length (tbl_iter (chunks s)))).

Fixpoint sum_sizes (ids : list Uuid) : M Z :=
  match ids with
  | [] => ret 0
  | id :: ids =>
      call CIo ;;
      let! n := gets (fun s => len (default [] (packs s !! id))) in
      let! rest := sum_sizes ids in
      ret (wrap64 (n + rest))
  end.

Definition disk_usage_bytes : M Z := let! ids := list_packs in sum_sizes ids.

(** ** Writing *)

Definition roll_locked : M unit :=
  let! n := gets calls in
  create_pack (new_v4 n) ;;
  modify (with_active {| a_id := new_v4 n; a_size := 0 |}) ;;
  db_write (fun s => with_stats (tbl_insert STAT_ACTIVE (a_id (active s)) (stats s)) s).

Definition roll_active_pack : M unit := roll_locked.

(** The dedup probe: the codec of the chunk that is already there. *)
Definition existing_codec (hash : Blake3Hash) : M (option ChunkCodec) :=
  let! v := db_read (fun s => tbl_get hash (chunks s)) in
  match v with
  | None => ret None
  | Some v => let! loc := lift_result (decode_locator v) in ret (Some (l_codec loc))
  end.

(** Roll the active pack when it has grown past the threshold, append
    [stored] to it and point the row of [hash] at it; shared by [put_chunk]
    and [compact_pack]. *)
Definition append_and_index (hash : Blake3Hash) (stored : bytes) (l_len stored_len : Z) (codec : ChunkCodec)
    : M unit :=
  let! full := gets (fun s => rollover_bytes s <=? a_size (active s)) in
  (if full then roll_locked else ret tt) ;;
  let! a := gets active in
  append_pack (a_id a) stored ;;
  modify (with_active {| a_id := a_id a; a_size := wrap64 (a_size a + len stored) |}) ;;
  let loc := {| pack_id := a_id a; l_offset := a_size a; l_len := l_len;
                stored_len := stored_len; l_codec := codec |} in
  db_write (fun s => with_chunks (tbl_insert hash (encode_locator loc) (chunks s)) s).

Definition put_chunk (hash : Blake3Hash) (plaintext : bytes) (comp : RepoCompression) : M ChunkCodec :=
  let! first := existing_codec hash in
  match first with
  | Some codec => ret codec
  | None =>
      let! second := existing_codec hash in
      match second with
      | Some codec => ret codec
      | None =>
          let codec := (encode comp plaintext).1 in
          let stored := (encode comp plaintext).2 in
          append_and_index hash stored (wrap32 (len plaintext)) (wrap32 (len stored)) codec ;;
          ret codec
      end
  end.

Definition put (hash : Blake3Hash) (b : bytes) : M unit :=
  let! _ := put_chunk hash b Off in ret tt.

Definition put_manifest (key : string) (m : Manifest) : M unit :=
  db_write (fun s => with_manifests (tbl_insert key (enc m) (manifests s)) s).

Definition get_manifest (key : string) : M (option Manifest) :=
  let! v := db_read (fun s => tbl_get key (manifests s)) in
  match v with
  | None => ret None
  | Some v => let! m := lift_result (ok_or (dec v) CManifest) in ret (Some m)
  end.

(** ** Support for garbage collection *)

(** Keys that are not 32 bytes long are skipped. *)
Fixpoint locators_of (rows : list (bytes * bytes))
    : result ChunkStoreError (list (Blake3Hash * ChunkLocator)) :=
  match rows with
  | [] => Ok []
  | (k, v) :: rows =>
      if negb (Nat.eqb (length k) 32) then locators_of rows
      else
        let? loc := decode_locator v in
        let? out := locators_of rows in
        Ok ((k, loc) :: out)
  end.

Definition all_locators : M (list (Blake3Hash * ChunkLocator)) :=
  let! rows := db_read (fun s => tbl_iter (chunks s)) in
  lift_result (locators_of rows).

Definition remove_chunk_index_entries (hashes : list Blake3Hash) : M unit :=
  match hashes with
  | [] => ret tt
  | _ => db_write (fun s => with_chunks (tbl_remove_all hashes (chunks s)) s)
  end.

Definition active_pack_id : M Uuid := gets (fun s => a_id (active s)).

Fixpoint manifests_of (rows : list (string * bytes)) : result ChunkStoreError (list Manifest) :=
  match rows with
  | [] => Ok []
  | (_, v) :: rows =>
      let? m := ok_or (dec v) CManifest in
      let? out := manifests_of rows in
      Ok (m :: out)
  end.

Definition all_manifests : M (list Manifest) :=
  let! rows := db_read (fun s => tbl_iter (manifests s)) in
  lift_result (manifests_of rows).

(** ** Maintenance *)

(** The live bytes and chunks of each pack. *)
Definition live_of (locs : list (Blake3Hash * ChunkLocator)) : gmap Uuid (Z * Z) :=
  foldl (fun m hl =>
    let e := default (0, 0) (m !! pack_id hl.2) in
    <[pack_id hl.2 := (wrap64 (e.1 + stored_len hl.2), wrap64 (e.2 + 1))]> m) ∅ locs.

Fixpoint stats_of (active_id : Uuid) (live : gmap Uuid (Z * Z)) (ids : list Uuid) : M (list PackStat) :=
  match ids with
  | [] => ret []
  | id :: ids =>
      call CIo ;;
      let! n := gets (fun s => len (default [] (packs s !! id))) in
      let l := default (0, 0) (live !! id) in
      let! rest := stats_of active_id live ids in
      ret ({| ps_id := id; file_bytes := n; live_bytes := l.1; live_chunks := l.2;
              is_active := bool_decide (id = active_id) |} :: rest)
  end.

Definition pack_stats : M (list PackStat) :=
  let! active_id := active_pack_id in
  let! locs := all_locators in
  let! ids := list_packs in
  stats_of active_id (live_of locs) ids.

(** The loop of [compact_pack] over the live chunks of the old pack; it says
    whether it was cancelled and how many chunks it moved. *)
Fixpoint move_chunks (old : Uuid) (live : list (Blake3Hash * ChunkLocator)) (moved : Z) : M (bool * Z) :=
  match live with
  | [] => ret (false, moved)
  | (hash, loc) :: live =>
      let! stop := gets (fun s => cancelled (calls s)) in
      if stop then ret (true, moved)
      else
        let! r := get_range old (l_offset loc) (stored_len loc) in
        let! stored := lift_result (ok_or r (MissingChunk hash)) in
        if negb (len stored =? stored_len loc) then fail (CorruptChunk hash)
        else
          append_and_index hash stored (l_len loc) (stored_len loc) (l_codec loc) ;;
          move_chunks old live (wrap64 (moved + 1))
  end.

(** The bytes freed and the number of chunks moved. *)
Definition compact_pack (id : Uuid) : M (Z * Z) :=
  let! active_id := active_pack_id in
  if bool_decide (id = active_id) then throw XPanic
  else
    let! locs := all_locators in
    let live := filter (fun hl => pack_id hl.2 = id) locs in
    let! r := move_chunks id live 0 in
    if r.1 then ret (0, r.2)
    else let! freed := remove_pack_file id in ret (freed, r.2).
End store.
Arguments Store : clear implicits.
