(* ===== verification/ChunkWp.v ===== *)
(** * The chunk store: well-formedness and one rule per operation

    [store_wf] is what every operation of [ChunkStore] preserves, whatever
    the environment does.  An append may fail half-way, in a process that
    dies or in one that lives on; then the pack is longer than the process
    remembers, and the process is up ([mem_up]) but out of step with its
    pack ([in_step]).  [holds s h p] says that the index row of [h] leads to
    bytes that decode to [p].

    The second part states what each operation of the store guarantees its
    callers. *)
From S2P Require Import Prelude.
From S2P Require Import Text.
From S2P Require Import Files.
From S2P Require Import Monad.
From S2P Require Import Table.
From S2P Require Import ChunkTypes.
From S2P Require Import ChunkStore.
From stdpp Require Import options.
Open Scope Z_scope.
Open Scope monad_scope.

(** What is assumed of the environment: two identifiers drawn for calls that
    work are distinct, and listings are complete. *)
Class WorldLaws `{ChunkWorld} := {
  new_v4_distinct : forall i j, fate i = Works -> fate j = Works -> new_v4 i = new_v4 j -> i = j;
  new_v4_length : forall n, length (new_v4 n) = 16%nat;
  listing_perm : forall n l, listing n l ≡ₚ l;
}.

(** What is assumed of the hash: no two of the strings [in_play] collide.
    They can be any set that holds the data being stored and is closed under
    taking parts. *)
Class DigestLaws `{Blake3} := {
  in_play : bytes -> Prop;
  in_play_part : forall a b c, in_play (a ++ b ++ c) -> in_play b;
  in_play_distinct : forall a b, in_play a -> in_play b -> blake3 a = blake3 b -> a = b;
}.

Section wp.
Context {TC TM TS : Type} {kle : bytes -> bytes -> Prop}.
Context {TBC : Table bytes bytes TC kle} {TBM : Table string bytes TM String.le}.
Context {TBS : Table string bytes TS String.le} {CM : Codec Manifest bytes}.
Context {B3 : Blake3} {ZS : Zstd} {EN : ChunkWorld} {DL : DigestLaws}.
Local Abbreviation Store := (Store TC TM TS).
Implicit Types s : Store.

(** ** What the store holds *)

(** The bytes a locator stands for in a pack. *)
Definition stored_at (loc : ChunkLocator) (f : bytes) : bytes :=
  take (Z.to_nat (stored_len loc)) (drop (Z.to_nat (l_offset loc)) f).

Record fits (loc : ChunkLocator) (f : bytes) (p : bytes) : Prop := {
  fit_offset : 0 <= l_offset loc;
  fit_stored : 0 <= stored_len loc;
  fit_end : l_offset loc + stored_len loc <= len f;
  fit_decodes : decode_stored (l_codec loc) (stored_at loc f) (l_len loc) = Some p;
  fit_len : len p = l_len loc;
}.

(** [h] is the digest of [p], a string in play. *)
Definition names (h : Blake3Hash) (p : bytes) : Prop := in_play p /\ blake3 p = h.

Lemma names_unique h p q : names h p -> names h q -> p = q.
Proof using Type. intros [? <-] [? ?]. by apply in_play_distinct. Qed.

Lemma in_play_prefix a b : in_play (a ++ b) -> in_play a.
Proof using Type. intros H. by apply (in_play_part [] a b). Qed.

Lemma in_play_suffix a b : in_play (a ++ b) -> in_play b.
Proof using Type. intros H. apply (in_play_part a b []). by rewrite app_nil_r. Qed.

Lemma in_play_sub i j b : in_play b -> in_play (sub i j b).
Proof using Type.
  intros H. unfold sub. apply (in_play_prefix _ (drop (j - i) (drop i b))). rewrite take_drop.
  apply (in_play_suffix (take i b)). by rewrite take_drop.
Qed.

(** An identifier that an earlier call has drawn, and one that a later call
    may draw. *)
Definition drawn (n : nat) (id : Uuid) : Prop := exists i, (i < n)%nat /\ fate i = Works /\ id = new_v4 i.
Definition upcoming (n : nat) (id : Uuid) : Prop := exists i, (n <= i)%nat /\ fate i = Works /\ id = new_v4 i.

Definition holds s (h : Blake3Hash) (p : bytes) : Prop :=
  exists v loc f, tbl_get h (chunks s) = Some v /\ decode_locator v = Ok loc /\
    packs s !! pack_id loc = Some f /\ fits loc f p /\ names h p.

(** What survives the process: every row leads to its chunk, identifiers were
    drawn before, and no pack is larger than the rollover threshold [R] and
    one chunk. *)
Record disk_wf (R : Z) s : Prop := {
  wf_rows : forall h v, tbl_get h (chunks s) = Some v -> exists p, holds s h p;
  wf_packs : forall id, id ∈ dom (packs s) -> drawn (calls s) id;
  wf_stats : forall id, tbl_get STAT_ACTIVE (stats s) = Some id ->
    drawn (calls s) id;
  wf_sizes : forall id f, packs s !! id = Some f -> len f <= R + U32_MAX;
}.

(** What the process knows about its active pack. *)
Record mem_wf (R : Z) s : Prop := {
  wf_active : a_size (active s) = len (default [] (packs s !! a_id (active s)));
  wf_active_id : drawn (calls s) (a_id (active s));
  wf_threshold : rollover_bytes s = R;
}.

(** What a process that lives on after a failed call can rely on: it may have
    appended part of a chunk, so that the size it remembers is not the size
    of the pack. *)
Record mem_up (R : Z) s : Prop := {
  up_active_id : drawn (calls s) (a_id (active s));
  up_threshold : rollover_bytes s = R;
}.

(** The size the process remembers is the size of the active pack, which is
    where its next chunk will be recorded. *)
Definition in_step s : Prop := a_size (active s) = len (default [] (packs s !! a_id (active s))).

#[export] Instance in_step_dec s : Decision (in_step s).
Proof using Type. unfold in_step. apply _. Defined.

Lemma mem_wf_up R s : mem_wf R s -> mem_up R s.
Proof using Type. by intros []. Qed.

Lemma mem_up_wf R s : mem_up R s -> in_step s -> mem_wf R s.
Proof using Type. by intros []. Qed.

(** ** Reading changes nothing but the call counter *)

Record reads s s' : Prop := {
  rd_packs : packs s' = packs s;
  rd_chunks : chunks s' = chunks s;
  rd_manifests : manifests s' = manifests s;
  rd_stats : stats s' = stats s;
  rd_fs : fs s' = fs s;
  rd_active : active s' = active s;
  rd_rollover : rollover_bytes s' = rollover_bytes s;
  rd_calls : (calls s <= calls s')%nat;
}.

#[export] Instance reads_preorder : PreOrder reads.
Proof using Type.
  split; [by split|]. intros s1 s2 s3 [] []. split; try congruence. lia.
Qed.

Lemma reads_tick s : reads s (tick s).
Proof using Type. split; try done; simpl; lia. Qed.

Lemma reads_holds s s' h p : reads s s' -> holds s' h p <-> holds s h p.
Proof using Type. intros [E1 E2]. unfold holds. by rewrite E1, E2. Qed.

Lemma drawn_le n m id : (n <= m)%nat -> drawn n id -> drawn m id.
Proof using Type. intros H (i & Hi & ?). exists i. split; [lia|done]. Qed.

Lemma upcoming_le n m id : (n <= m)%nat -> upcoming m id -> upcoming n id.
Proof using Type. intros H (i & Hi & ?). exists i. split; [lia|done]. Qed.

Lemma reads_disk R s s' : reads s s' -> disk_wf R s -> disk_wf R s'.
Proof using Type.
  intros HR [H1 H2 H3 H4]. pose proof HR as [E1 E2 E3 E4 E5 E6 E7 E8]. split.
  - intros h v. rewrite E2. intros (p & Hp)%H1. exists p. by apply (reads_holds s).
  - intros id. rewrite E1. intros. eapply drawn_le; eauto.
  - intros id. rewrite E4. intros. eapply drawn_le; eauto.
  - by rewrite E1.
Qed.

Lemma reads_mem R s s' : reads s s' -> mem_wf R s -> mem_wf R s'.
Proof using Type.
  intros [E1 E2 E3 E4 E5 E6 E7 E8] [H1 H2 H3]. split; rewrite ?E1, ?E6, ?E7; eauto using drawn_le.
Qed.

(** ** Rules for the outside calls *)

(** The errors a failing call of the outside world leads to. *)
Definition env_err (x : Exn) : Prop := x = XErr CIo \/ x = XErr CRedb \/ x = XDied.

Lemma wp_tick e (Q : result Exn unit -> Store -> Prop) s :
  e = CIo \/ e = CRedb ->
  (forall s', reads s s' -> (calls s < calls s')%nat -> fate (calls s) = Works -> Q (Ok tt) s') ->
  (forall x s', reads s s' -> env_err x -> Q (Err x) s') -> wp (call e) Q s.
Proof using Type.
  intros He H1 H2. unfold wp, call, env_err in *.
  destruct (fate (calls s)); simpl; [apply H1; [|simpl; lia|done]|apply H2..];
    auto using reads_tick; destruct He as [-> | ->]; auto.
Qed.

Lemma wp_call e (Q : result Exn unit -> Store -> Prop) s :
  e = CIo \/ e = CRedb ->
  (forall s', reads s s' -> Q (Ok tt) s') ->
  (forall x s', reads s s' -> env_err x -> Q (Err x) s') -> wp (call e) Q s.
Proof using Type. intros. apply wp_tick; auto. Qed.

Lemma wp_db_read {A} (f : Store -> A) (Q : result Exn A -> Store -> Prop) s :
  (forall s', reads s s' -> Q (Ok (f s')) s') ->
  (forall x s', reads s s' -> env_err x -> Q (Err x) s') ->
  wp (db_read f) Q s.
Proof using Type. intros H1 H2. apply wp_bind, wp_call; [by right|intros; by apply wp_gets, H1|auto]. Qed.

(** A write transaction happens as a whole or not at all. *)
Lemma wp_db_write (f : Store -> Store) (Q : result Exn unit -> Store -> Prop) s :
  (forall s', reads s s' -> Q (Ok tt) (f s')) ->
  (forall x s', reads s s' -> env_err x -> Q (Err x) s') ->
  wp (db_write f) Q s.
Proof using Type. intros H1 H2. apply wp_bind, wp_call; [by right|intros; by apply wp_modify, H1|auto]. Qed.

Lemma wp_lift_result {A} (r : result ChunkStoreError A) (Q : result Exn A -> Store -> Prop) s :
  (forall a, r = Ok a -> Q (Ok a) s) -> (forall e, r = Err e -> Q (Err (XErr e)) s) ->
  wp (lift_result r) Q s.
Proof using Type. destruct r; intros H1 H2; [by apply wp_ret, H1|by apply wp_throw, H2]. Qed.

(** ** The read loop of the local backend *)

Lemma wp_fill fuel rest filled want s :
  (want - length filled < fuel)%nat -> (length filled <= want)%nat ->
  wp (fill fuel rest filled want)
    (fun r s' => reads s s' /\
       match r with
       | Ok b => b = filled ++ take (want - length filled) rest
       | Err x => env_err x
       end) s.
Proof using Type.
  revert rest filled s. induction fuel as [|fuel IH]; intros rest filled s Hf Hw; [lia|].
  cbn [fill]. destruct (Nat.leb_spec want (length filled)).
  { apply wp_ret. split; [done|].
    replace (want - length filled)%nat with O by lia. by rewrite app_nil_r. }
  apply wp_bind, wp_gets, wp_bind, wp_call; [by left| |done]. intros s1 Hs1.
  set (k := Nat.min _ _).
  assert (1 <= k <= want - length filled)%nat as Hk by lia. clearbody k.
  destruct (Nat.eqb_spec (length (take k rest)) 0) as [E|E].
  { apply wp_ret. split; [done|].
    rewrite length_take in E. assert (rest = []) as -> by (apply nil_length_inv; lia).
    by rewrite take_nil, app_nil_r. }
  eapply wp_mono; [apply IH|].
  - rewrite length_app. lia.
  - rewrite length_app, length_take. lia.
  - intros [b|x] s2 [Hs2 Hr]; (split; [by etrans|]); [|done]. subst b.
    rewrite length_app, <- app_assoc. f_equal.
    rewrite length_take.
    destruct (decide (length rest <= k)%nat) as [Hle|Hgt].
    + rewrite (firstn_all2 rest) by done. rewrite Nat.min_r by done.
      rewrite drop_all, take_nil, app_nil_r. by rewrite firstn_all2 by lia.
    + rewrite Nat.min_l by lia.
      assert (want - length filled = k + (want - (length filled + k)))%nat as -> by lia.
      by rewrite take_take_drop.
Qed.

(** Whatever the sizes of the reads, the local backend returns what the
    trait's default does: the bytes of the range that exist. *)
Lemma wp_get_range id offset n s :
  wp (get_range id offset n)
    (fun r s' => reads s s' /\
       match r with
       | Ok o => o = take (Z.to_nat n) ∘ drop (Z.to_nat offset) <$> packs s !! id
       | Err x => env_err x
       end) s.
Proof using Type.
  apply wp_bind, wp_call; [by left| |done]. intros s1 Hs1.
  apply wp_bind, wp_gets. rewrite (rd_packs _ _ Hs1).
  destruct (packs s !! id) as [f|]; [|by apply wp_ret].
  apply wp_bind. eapply wp_mono; [apply wp_fill; simpl; lia|].
  intros [b|x] s2 [Hs2 Hr]; assert (reads s s2) as Hs by (by etrans); [|done].
  apply wp_ret. split; [done|]. subst b. simpl. by rewrite Nat.sub_0_r.
Qed.

Lemma default_get_range_spec object offset n :
  0 <= offset -> 0 <= n -> (forall b, object = Some b -> len b <= U64_MAX) ->
  default_get_range object offset n = take (Z.to_nat n) ∘ drop (Z.to_nat offset) <$> object.
Proof using Type.
  intros Ho Hn Hb. destruct object as [b|]; [|done]. unfold default_get_range. simpl. f_equal.
  specialize (Hb b eq_refl). unfold sub, sat_add64, len in *.
  destruct (Z.min_spec offset (Z.of_nat (length b))) as [[H ->]|[H ->]].
  - destruct (decide (offset + n <= Z.of_nat (length b))).
    + rewrite (Z.min_r U64_MAX) by lia. rewrite Z.min_l by lia. f_equal. lia.
    + rewrite Z.min_r by lia.
      rewrite !firstn_all2; [done| |]; rewrite length_drop; lia.
  - rewrite (drop_ge b (Z.to_nat offset)) by lia.
    rewrite drop_ge by lia. by rewrite !take_nil.
Qed.

(** ** Reading a chunk *)

Lemma wp_locate h s :
  wp (locate h)
    (fun r s' => reads s s' /\
       match r with
       | Ok None => tbl_get h (chunks s) = None
       | Ok (Some loc) => exists v, tbl_get h (chunks s) = Some v /\ decode_locator v = Ok loc
       | Err x => env_err x \/
           exists v e, tbl_get h (chunks s) = Some v /\ decode_locator v = Err e /\ x = XErr e
       end) s.
Proof using Type.
  apply wp_bind, wp_db_read; [|auto]. intros s1 Hs1. rewrite (rd_chunks _ _ Hs1).
  destruct (tbl_get h (chunks s)) as [v|] eqn:Hv; [|by apply wp_ret].
  apply wp_bind, wp_lift_result.
  - intros loc Hloc. apply wp_ret. eauto.
  - intros e He. split; [done|]. right. eauto.
Qed.

(** What a read of [h] finds on disk, well formed or not. *)
Definition reads_as s (h : Blake3Hash) (p : bytes) : Prop :=
  exists v loc f, tbl_get h (chunks s) = Some v /\ decode_locator v = Ok loc /\
    packs s !! pack_id loc = Some f /\
    decode_stored (l_codec loc) (stored_at loc f) (l_len loc) = Some p /\ blake3 p = h.

Lemma holds_reads_as s h p : holds s h p -> reads_as s h p.
Proof using Type. intros (v & loc & f & ? & ? & ? & [] & _ & ?). exists v, loc, f. done. Qed.

Lemma reads_as_row s h p v loc :
  reads_as s h p -> tbl_get h (chunks s) = Some v -> decode_locator v = Ok loc ->
  exists f, packs s !! pack_id loc = Some f /\
    decode_stored (l_codec loc) (stored_at loc f) (l_len loc) = Some p /\ blake3 p = h.
Proof using Type.
  intros (v' & loc' & f & ? & ? & ? & ? & ?) ??. assert (v' = v) as -> by congruence.
  assert (loc' = loc) as -> by congruence. eauto.
Qed.

Lemma holds_row s h p v loc :
  holds s h p -> tbl_get h (chunks s) = Some v -> decode_locator v = Ok loc ->
  exists f, packs s !! pack_id loc = Some f /\ fits loc f p /\ names h p.
Proof using Type.
  intros (v' & loc' & f & ? & ? & ? & ? & ?) ??. assert (v' = v) as -> by congruence.
  assert (loc' = loc) as -> by congruence. eauto.
Qed.

(** [get] returns what is on disk under a digest, or fails; unless the outside
    world fails it finds it. *)
Lemma wp_get h s :
  wp (get h)
    (fun r s' => reads s s' /\
       match r with
       | Ok (Some p) => reads_as s h p
       | Ok None => tbl_get h (chunks s) = None
       | Err _ => True
       end /\
       forall p, reads_as s h p -> r = Ok (Some p) \/ exists x, r = Err x /\ env_err x) s.
Proof using Type.
  unfold get. eapply wp_seq; [apply wp_locate| |].
  2:{ intros x s1 [Hs1 Hx]. split_and!; [done..|]. intros p (v & loc & f & ? & ? & _).
      destruct Hx as [Hx|(v' & e & ? & ? & _)]; [right; eauto|congruence]. }
  intros [loc|] s1 [Hs1 Hloc].
  2:{ apply wp_ret. split_and!; [done..|]. intros p (v & ? & ? & ? & _). congruence. }
  destruct Hloc as (v & Hv & Hdec). eapply wp_seq; [apply wp_get_range| |].
  2:{ intros x s2 [Hs2 Hx]. split_and!; [by etrans|done|]. right. eauto. }
  intros o s2 [Hs2 ->]. rewrite (rd_packs _ _ Hs1). assert (reads s s2) as Hs by (by etrans).
  apply wp_bind, wp_lift_result.
  2:{ intros e He. split_and!; [done..|]. intros p Hp.
      destruct (reads_as_row _ _ _ _ _ Hp Hv Hdec) as (f & Hf & _). by rewrite Hf in He. }
  intros stored Hst. destruct (packs s !! pack_id loc) as [f|] eqn:Hf; [|done].
  injection Hst as Hst. change (stored_at loc f = stored) in Hst. subst stored.
  assert (forall p, reads_as s h p ->
    decode_stored (l_codec loc) (stored_at loc f) (l_len loc) = Some p /\ blake3 p = h) as Hrow.
  { intros p Hp. destruct (reads_as_row _ _ _ _ _ Hp Hv Hdec) as (f' & ? & ? & ?). by simplify_eq. }
  apply wp_bind, wp_lift_result.
  2:{ intros e He. split_and!; [done..|]. intros p [Hd _]%Hrow. by rewrite Hd in He. }
  intros q Hq. destruct (decode_stored _ _ _) as [q'|] eqn:E; [|done]. injection Hq as ->.
  assert (forall p, reads_as s h p -> p = q /\ blake3 p = h) as Heq.
  { intros p [? ?]%Hrow. split; [congruence|done]. }
  case_bool_decide as Hb; [apply wp_ret|apply wp_throw]; (split_and!; [done|try done|]);
    try (intros p Hp; destruct (Heq p Hp) as [-> ?]; [by left|done]).
  - exists v, loc, f. done.
  - intros p Hp. destruct (Heq p Hp) as [-> ?]. by left.
  - intros p Hp. by destruct (Heq p Hp) as [-> ?].
Qed.

(** ** Writing: packs only grow *)

Definition extends s s' : Prop :=
  forall id f, packs s !! id = Some f -> exists t, packs s' !! id = Some (f ++ t).

(** What every write of the store leaves alone. *)
Record steps s s' : Prop := {
  sp_extends : extends s s';
  sp_manifests : manifests s' = manifests s;
  sp_fs : fs s' = fs s;
  sp_calls : (calls s <= calls s')%nat;
}.

#[export] Instance steps_preorder : PreOrder steps.
Proof using Type.
  split.
  - intros s. split; [|done..]. intros id f Hf. exists []. by rewrite app_nil_r.
  - intros s1 s2 s3 [E1 ? ? ?] [E2 ? ? ?]. split; [|congruence..|lia].
    intros id f (t & Ht)%E1. destruct (E2 _ _ Ht) as (t' & Ht').
    exists (t ++ t'). by rewrite app_assoc.
Qed.

Lemma reads_steps s s' : reads s s' -> steps s s'.
Proof using Type.
  intros [E1 E2 E3 E4 E5 E6 E7 E8]. split; try done. intros id f Hf.
  exists []. by rewrite E1, app_nil_r.
Qed.

Lemma fits_app loc f t p : fits loc f p -> fits loc (f ++ t) p.
Proof using Type.
  intros [H1 H2 H3 H4 H5]. split; try done.
  - unfold len in *. rewrite length_app. lia.
  - rewrite <- H4. f_equal. unfold stored_at, len in *.
    rewrite drop_app_le, take_app_le; [done|rewrite length_drop|]; lia.
Qed.

Lemma holds_extends s s' h p :
  extends s s' -> tbl_get h (chunks s') = tbl_get h (chunks s) -> holds s h p -> holds s' h p.
Proof using Type.
  intros He Hc (v & loc & f & Hv & Hd & Hf & Hfit & Hp). destruct (He _ _ Hf) as (t & Ht).
  exists v, loc, (f ++ t). rewrite Hc. split_and!; auto using fits_app.
Qed.

Lemma disk_grow R s s' :
  disk_wf R s -> extends s s' -> (forall h, tbl_get h (chunks s') = tbl_get h (chunks s)) ->
  stats s' = stats s -> (calls s <= calls s')%nat ->
  (forall id, id ∈ dom (packs s') -> drawn (calls s') id) ->
  (forall id f, packs s' !! id = Some f -> len f <= R + U32_MAX) ->
  disk_wf R s'.
Proof using Type.
  intros [H1 H2 H3 H4] He Hc Hst Hn Hd Hs. split; [|done| |done].
  - intros h v. rewrite Hc. intros (p & Hp)%H1. exists p. by eapply holds_extends.
  - intros id. rewrite Hst. intros. eapply drawn_le; eauto.
Qed.

Lemma extends_insert s id f (P := <[id := f]> (packs s)) s' :
  packs s' = P -> (forall old, packs s !! id = Some old -> exists t, f = old ++ t) -> extends s s'.
Proof using Type.
  intros HP Hf id' f' Hf'. rewrite HP. subst P. rewrite lookup_insert.
  destruct (decide (id = id')) as [<-|].
  - destruct (Hf _ Hf') as (t & ->). eauto.
  - exists []. by rewrite app_nil_r.
Qed.

Context {WL : WorldLaws}.

(** An identifier that is drawn now is nobody's. *)
Lemma drawn_not_upcoming n id : drawn n id -> upcoming n id -> False.
Proof using WL. intros (i & Hi & Hf & ->) (j & Hj & Hf' & E). apply new_v4_distinct in E; [lia|done..]. Qed.

(** The state after a call: the process is up unless it died, and in step
    with its pack when the call worked. *)
Definition lives {A} (r : result Exn A) : Prop := r <> Err XDied.

Definition mem_after (R : Z) {A} (r : result Exn A) s : Prop :=
  match r with Ok _ => mem_wf R s | Err _ => mem_up R s end.

Definition wf (R : Z) {A} (r : result Exn A) s : Prop :=
  disk_wf R s /\ (lives r -> mem_after R r s).

Lemma mem_wf_after {A} R (r : result Exn A) s : mem_wf R s -> mem_after R r s.
Proof using Type. destruct r; [done|apply mem_wf_up]. Qed.

Lemma reads_after {A} R (r : result Exn A) s s' : reads s s' -> mem_wf R s -> mem_after R r s'.
Proof using Type. eauto using reads_mem, mem_wf_after. Qed.

Lemma mem_after_up {A} R (r : result Exn A) s : mem_after R r s -> mem_up R s.
Proof using Type. destruct r; [apply mem_wf_up|done]. Qed.

Lemma wf_reads {A} R (r : result Exn A) s s' :
  disk_wf R s -> mem_wf R s -> reads s s' -> wf R r s'.
Proof using Type. split; eauto using reads_disk, reads_after. Qed.

Lemma create_pack_disk R s s' n :
  0 <= R -> disk_wf R s -> reads s s' -> (n < calls s')%nat -> (calls s <= n)%nat -> fate n = Works ->
  let t := with_packs (<[new_v4 n := []]> (packs s')) s' in
  disk_wf R t /\ steps s t.
Proof using Type*.
  intros HR Hd Hs Hn Hc Hf t. pose proof (reads_disk _ _ _ Hs Hd) as Hd'.
  assert (packs s' !! new_v4 n = None) as Hfresh.
  { rewrite (rd_packs _ _ Hs). apply not_elem_of_dom. intros Hin%(wf_packs _ _ Hd).
    eapply drawn_not_upcoming; [done|]. exists n. done. }
  assert (extends s' t) as He.
  { eapply extends_insert; [done|]. intros old. by rewrite Hfresh. }
  split.
  - eapply disk_grow; [exact Hd'|done..| |].
    + intros id. simpl. rewrite dom_insert, elem_of_union, elem_of_singleton.
      intros [->|Hin]; [by exists n|]. by apply (wf_packs _ _ Hd').
    + intros id f. simpl. rewrite lookup_insert. case_decide.
      * intros [= <-]. unfold len, U32_MAX. simpl. lia.
      * apply (wf_sizes _ _ Hd').
  - etrans; [by apply reads_steps|]. by split.
Qed.

(** ** Rolling over *)

Lemma disk_stats R s n :
  disk_wf R s -> (n < calls s)%nat -> fate n = Works ->
  disk_wf R (with_stats (tbl_insert STAT_ACTIVE (new_v4 n) (stats s)) s).
Proof using Type.
  intros [H1 H2 H3 H4] Hn Hf. split; try done. intros id. simpl.
  rewrite tbl_get_insert_eq. intros [= <-]. by exists n.
Qed.

Lemma wp_roll_locked R s :
  0 <= R -> disk_wf R s -> mem_wf R s ->
  wp roll_locked
    (fun r s' => wf R r s' /\ steps s s' /\ chunks s' = chunks s /\
       (active s' = active s \/ upcoming (calls s) (a_id (active s'))) /\
       (r = Ok tt -> a_size (active s') = 0 /\ packs s' !! a_id (active s') = Some [])) s.
Proof using Type*.
  intros HR Hd Hm. unfold roll_locked. apply wp_bind, wp_gets, wp_bind, wp_bind, wp_tick; [by left| |].
  2:{ intros x s1 Hs1 _. split_and!; [by eapply wf_reads|by apply reads_steps|
        by apply rd_chunks|left; by apply rd_active|done]. }
  intros s1 Hs1 Hlt Hworks. apply wp_modify.
  destruct (create_pack_disk R s s1 (calls s) HR Hd Hs1 Hlt (Nat.le_refl _) Hworks) as [Hd2 Hst2].
  set (s2 := with_packs _ s1) in *. apply wp_bind, wp_modify.
  set (s3 := with_active _ s2).
  assert (disk_wf R s3) as Hd3.
  { eapply disk_grow; [exact Hd2|..]; try done; [|apply Hd2|apply Hd2].
    intros id f Hf. exists []. by rewrite app_nil_r. }
  assert (packs s3 !! new_v4 (calls s) = Some []) as Hp3 by apply lookup_insert_eq.
  assert (mem_wf R s3) as Hm3.
  { split; [|by exists (calls s)|].
    - change (a_id (active s3)) with (new_v4 (calls s)). by rewrite Hp3.
    - change (rollover_bytes s3) with (rollover_bytes s1). rewrite (rd_rollover _ _ Hs1). apply Hm. }
  assert (steps s s3) as Hst3 by (by destruct Hst2).
  apply wp_db_write.
  - intros s4 Hs4. pose proof (reads_disk _ _ _ Hs4 Hd3) as Hd4.
    rewrite (rd_active _ _ Hs4). split_and!.
    + split; [|intros _; by destruct (reads_mem _ _ _ Hs4 Hm3)].
      apply (disk_stats R s4 (calls s)); [done| |done]. pose proof (rd_calls _ _ Hs4). simpl in *. lia.
    + etrans; [exact Hst3|]. etrans; [by apply reads_steps|]. split; try done.
      intros id f Hf. exists []. by rewrite app_nil_r.
    + simpl. rewrite (rd_chunks _ _ Hs4). apply (rd_chunks _ _ Hs1).
    + right. exists (calls s). simpl. by rewrite (rd_active _ _ Hs4).
    + simpl. rewrite (rd_active _ _ Hs4), (rd_packs _ _ Hs4). done.
  - intros x s4 Hs4 _. split_and!; [by eapply wf_reads| | | |done].
    + etrans; [exact Hst3|]. by apply reads_steps.
    + rewrite (rd_chunks _ _ Hs4). apply (rd_chunks _ _ Hs1).
    + right. exists (calls s). by rewrite (rd_active _ _ Hs4).
Qed.

(** ** Appending *)

Lemma sizes_after_append R s old b :
  0 <= R -> len old <= R -> len b <= U32_MAX -> forall n, len (old ++ take n b) <= R + U32_MAX.
Proof using Type.
  unfold len, U32_MAX. intros HR Ho Hb n. rewrite length_app, length_take. lia.
Qed.

(** An append that reaches the disk in part or as a whole leaves every chunk
    where it was. *)
Lemma append_disk R s old n b (t := with_packs (<[a_id (active s) := old ++ take n b]> (packs s)) (tick s)) :
  0 <= R -> disk_wf R s -> packs s !! a_id (active s) = Some old -> len old <= R -> len b <= U32_MAX ->
  disk_wf R t /\ steps s t.
Proof using Type.
  intros HR Hd Hold Hlo Hlb.
  assert (extends s t) as He.
  { eapply extends_insert; [done|]. intros o Ho. rewrite Hold in Ho. injection Ho as <-. eauto. }
  split; [|split; [done..|simpl; lia]].
  eapply disk_grow; [exact Hd|done..|simpl; lia| |].
  - intros id Hid. apply (drawn_le (calls s)); [simpl; lia|]. apply (wf_packs _ _ Hd).
    subst t. simpl in Hid. rewrite dom_insert_lookup_L in Hid; [done|eauto].
  - intros id f. simpl. rewrite lookup_insert. case_decide; [|apply (wf_sizes _ _ Hd)].
    intros [= <-]. by apply sizes_after_append.
Qed.

Lemma wp_append_pack R b s :
  0 <= R -> disk_wf R s -> mem_wf R s -> a_size (active s) <= R -> len b <= U32_MAX ->
  wp (append_pack (a_id (active s)) b)
    (fun r s' => disk_wf R s' /\ steps s s' /\ chunks s' = chunks s /\ active s' = active s /\
       rollover_bytes s' = rollover_bytes s /\
       match r with
       | Ok _ => exists old, packs s !! a_id (active s) = Some old /\
                   packs s' !! a_id (active s) = Some (old ++ b)
       | Err x => x = XDied \/ mem_up R s'
       end) s.
Proof using Type*.
  intros HR Hd Hm Ha Hb. unfold wp, append_pack.
  destruct (packs s !! a_id (active s)) as [old|] eqn:Hold.
  2:{ simpl. pose proof (reads_tick s) as Ht. split_and!; eauto using reads_disk, reads_mem, mem_wf_up, reads_steps. }
  pose proof (wf_active _ _ Hm) as Hsz. rewrite Hold in Hsz. simpl in Hsz.
  assert (forall n, disk_wf R (with_packs (<[a_id (active s) := old ++ take n b]> (packs s)) (tick s)) /\
    steps s (with_packs (<[a_id (active s) := old ++ take n b]> (packs s)) (tick s))) as H.
  { intros n. apply append_disk; [done..|lia|done]. }
  destruct (fate (calls s)) eqn:Hf; simpl.
  - destruct (H (length b)) as [? ?]. split_and!; [done..|]. exists old. split; [done|].
    by rewrite lookup_insert_eq, firstn_all.
  - destruct (H (wrote (calls s))) as [? ?]. split_and!; [done..|]. right.
    destruct Hm as [_ Hid Ht]. split; simpl; [|done]. eapply drawn_le; [|done]. simpl. lia.
  - destruct (H (wrote (calls s))) as [? ?]. split_and!; try done. by left.
Qed.

(** A new or changed row that leads to its chunk. *)
Lemma disk_row R s h v p (t := with_chunks (tbl_insert h v (chunks s)) s) :
  disk_wf R s -> holds t h p -> disk_wf R t.
Proof using Type.
  intros [H1 H2 H3 H4] Hp. split; [|done..]. intros h' v'. simpl. rewrite tbl_get_insert.
  case_decide; [subst; eauto|]. intros (p' & w & loc & f & ? & ?)%H1.
  exists p', w, loc, f. simpl. by rewrite tbl_get_insert_ne.
Qed.

(** Where a fresh row points: the active pack of before, or a pack that did
    not exist yet. *)
Definition lands s (id : Uuid) : Prop :=
  id = a_id (active s) \/ upcoming (calls s) id.

Lemma encode_locator_fits R s l_len st codec :
  0 <= R -> R <= 2 ^ 62 -> disk_wf R s -> mem_wf R s -> a_size (active s) <= R ->
  is_u32 l_len -> is_u32 st ->
  locator_ok {| pack_id := a_id (active s); l_offset := a_size (active s); l_len := l_len;
                stored_len := st; l_codec := codec |}.
Proof using Type*.
  intros HR HR2 Hd Hm Ha Hl Hst. destruct (wf_active_id _ _ Hm) as (i & _ & _ & Hi).
  split_and!; simpl; [rewrite Hi; apply new_v4_length| |done..].
  rewrite (wf_active _ _ Hm) in *. unfold is_u64, U64_MAX, len in *. lia.
Qed.

Lemma wp_append_and_index R h p stored l_len codec s :
  0 <= R <= 2 ^ 62 -> disk_wf R s -> mem_wf R s ->
  is_u32 l_len -> len stored <= U32_MAX -> len p = l_len -> names h p ->
  decode_stored codec stored l_len = Some p ->
  wp (append_and_index h stored l_len (len stored) codec)
    (fun r s' => wf R r s' /\ steps s s' /\ lands s (a_id (active s')) /\
       ((chunks s' = chunks s /\ r <> Ok tt) \/ exists v loc, chunks s' = tbl_insert h v (chunks s) /\
          decode_locator v = Ok loc /\ l_codec loc = codec /\ lands s (pack_id loc) /\ holds s' h p)) s.
Proof using Type*.
  intros [HR HR2] Hd Hm Hl Hst Hp Hh Hdec. unfold append_and_index. apply wp_bind, wp_gets.
  eapply (wp_seq _ _ (fun r s1 => wf R r s1 /\ steps s s1 /\ chunks s1 = chunks s /\
    lands s (a_id (active s1)) /\ (r = Ok tt -> a_size (active s1) <= R))).
  - destruct (Z.leb_spec (rollover_bytes s) (a_size (active s))) as [Hle|Hgt].
    + eapply wp_mono; [by apply (wp_roll_locked R)|].
      intros r s1 (Hw & Hs1 & Hc & Ha & Hz). split_and!; [done..| |].
      * destruct Ha as [->|Ha]; [by left|by right].
      * intros Hr. destruct (Hz Hr) as [-> _]. done.
    + rewrite (wf_threshold _ _ Hm) in Hgt. apply wp_ret. split_and!; try done; [by left|lia].
  - intros [] s1 ([Hd1 Hm1] & Hs1 & Hc1 & Ha1 & Hz1). specialize (Hm1 ltac:(done)).
    specialize (Hz1 eq_refl). apply wp_bind, wp_gets.
    eapply wp_seq; [by apply (wp_append_pack R)| |].
    2:{ intros x s2 (Hd2 & Hs2 & Hc2 & Ha2 & _ & Hx). split_and!.
        - split; [done|]. intros Hlive. by destruct Hx as [->|].
        - by etrans.
        - by rewrite Ha2.
        - left. split; [congruence|done]. }
    intros [] s2 (Hd2 & Hs2 & Hc2 & Ha2 & Hr2 & old & Hold & Hnew).
    apply wp_bind, wp_modify. set (s3 := with_active _ s2).
    pose proof (encode_locator_fits R s1 l_len (len stored) codec HR HR2 Hd1 Hm1 Hz1 Hl) as Hlok.
    set (loc := {| pack_id := _ |}) in *. specialize (Hlok ltac:(unfold is_u32, len in *; lia)).
    pose proof (wf_active _ _ Hm1) as Hsz. rewrite Hold in Hsz. simpl in Hsz.
    assert (disk_wf R s3) as Hd3.
    { eapply disk_grow; [exact Hd2|..]; try done; [|apply Hd2|apply Hd2].
      intros id f Hf. exists []. by rewrite app_nil_r. }
    assert (mem_wf R s3) as Hm3.
    { split; simpl; [|eapply drawn_le; [by apply sp_calls|apply (wf_active_id _ _ Hm1)]|].
      - rewrite Hnew. simpl. rewrite wrap64_id; unfold is_u64, U64_MAX, U32_MAX, len in *;
          rewrite ?length_app; lia.
      - rewrite Hr2. apply Hm1. }
    assert (steps s s3) as Hs3 by (etrans; [exact Hs1|]; by destruct Hs2).
    assert (holds (with_chunks (tbl_insert h (encode_locator loc) (chunks s3)) s3) h p) as Hholds.
    { exists (encode_locator loc), loc, (old ++ stored). simpl.
      rewrite tbl_get_insert_eq. split_and!; [done|by apply decode_encode_locator|done| |done].
      split; simpl; unfold len in *; [lia|lia|rewrite length_app; lia| |done].
      rewrite <- Hdec. f_equal. unfold stored_at. simpl. rewrite Hsz, !Nat2Z.id.
      by rewrite drop_app_length, firstn_all. }
    apply wp_db_write.
    + intros s4 Hs4. assert (steps s s4) as Hs4' by (etrans; [exact Hs3|by apply reads_steps]).
      assert (with_chunks (tbl_insert h (encode_locator loc) (chunks s3)) s4 =
              with_chunks (tbl_insert h (encode_locator loc) (chunks s4)) s4) as E.
      { by rewrite (rd_chunks _ _ Hs4). }
      assert (holds (with_chunks (tbl_insert h (encode_locator loc) (chunks s4)) s4) h p) as Hh4.
      { destruct Hholds as (v & l & f & ? & ? & ? & ?). exists v, l, f. simpl in *.
        rewrite (rd_chunks _ _ Hs4), (rd_packs _ _ Hs4). done. }
      split_and!.
      * split; [eapply disk_row; [by eapply reads_disk|done]|].
        intros _. by destruct (reads_mem _ _ _ Hs4 Hm3).
      * by destruct Hs4'.
      * simpl. rewrite (rd_active _ _ Hs4). exact Ha1.
      * right. exists (encode_locator loc), loc. split_and!; [|by apply decode_encode_locator|done|done|done].
        simpl. rewrite (rd_chunks _ _ Hs4). simpl. by rewrite Hc2, Hc1.
    + intros x s4 Hs4 _. split_and!.
      * by eapply wf_reads.
      * etrans; [exact Hs3|]. by apply reads_steps.
      * rewrite (rd_active _ _ Hs4). exact Ha1.
      * left. split; [|done]. rewrite (rd_chunks _ _ Hs4). simpl. by rewrite Hc2, Hc1.
  - intros x s1 (Hw & Hs1 & Hc & Ha & _). split_and!; [done..|]. by left.
Qed.
End wp.

(** * The chunk store: contracts of its operations

    With the rules of [ChunkWp], one contract per operation: what it keeps,
    what it adds, and what it reports.  Digests are assumed to tell the
    strings in play apart. *)

Section safety.
Context {TC TM TS : Type} {kle : bytes -> bytes -> Prop}.
Context {TBC : Table bytes bytes TC kle} {TBM : Table string bytes TM String.le}.
Context {TBS : Table string bytes TS String.le} {CM : Codec Manifest bytes}.
Context {B3 : Blake3} {ZS : Zstd} {EN : ChunkWorld}.
Context {ZL : ZstdLaws} {WL : WorldLaws} {DL : DigestLaws}.
Context (R : Z) (HR : 0 <= R <= 2 ^ 62).
Local Abbreviation Store := (Store TC TM TS).
Implicit Types s : Store.

(** ** Chunks that stay *)

Definition keeps s s' : Prop := forall h p, holds s h p -> holds s' h p.

#[export] Instance keeps_preorder : PreOrder keeps.
Proof using Type. split; [by intros s h p|]. intros s1 s2 s3 H1 H2 h p Hp. auto. Qed.

Lemma reads_keeps s s' : reads s s' -> keeps s s'.
Proof using Type. intros Hs h p. by apply (reads_holds s). Qed.

Lemma holds_unique s h p q : holds s h p -> names h q -> q = p.
Proof using Type. intros (_ & _ & _ & _ & _ & _ & _ & Hp) Hq. by eapply names_unique. Qed.

Lemma insert_keeps s s' h v p :
  extends s s' -> chunks s' = tbl_insert h v (chunks s) -> holds s' h p -> keeps s s'.
Proof using Type.
  intros He Hc Hp h' q Hq. destruct (decide (h = h')) as [<-|Hne].
  - assert (q = p) as ->; [|done]. eapply holds_unique; [exact Hp|].
    by destruct Hq as (? & ? & ? & ? & ? & ? & ? & ?).
  - eapply holds_extends; [done| |done]. by rewrite Hc, tbl_get_insert_ne.
Qed.

Lemma steps_keeps s s' : steps s s' -> chunks s' = chunks s -> keeps s s'.
Proof using Type.
  intros Hs Hc h p. apply holds_extends; [by apply sp_extends|]. by rewrite Hc.
Qed.

(** ** Storing a chunk *)

Lemma wp_existing_codec h s :
  wp (existing_codec h)
    (fun r s' => reads s s' /\
       match r with
       | Ok None => tbl_get h (chunks s) = None
       | Ok (Some c) => exists v loc, tbl_get h (chunks s) = Some v /\ decode_locator v = Ok loc /\ l_codec loc = c
       | Err x => x <> XPanic
       end) s.
Proof using Type.
  apply wp_bind, wp_db_read.
  2:{ intros x s1 Hs1 Hx. split; [done|]. by destruct Hx as [-> | [-> | ->]]. }
  intros s1 Hs1. rewrite (rd_chunks _ _ Hs1).
  destruct (tbl_get h (chunks s)) as [v|] eqn:Hv; [|by apply wp_ret].
  apply wp_bind, wp_lift_result; [|done]. intros loc Hloc. apply wp_ret. eauto 10.
Qed.

(** The contract of [put_chunk], with what it leaves alone. *)
Record put_post (h : Blake3Hash) (p : bytes) s (r : result Exn ChunkCodec) s' : Prop := {
  pp_wf : wf R r s';
  pp_steps : steps s s';
  pp_keeps : keeps s s';
  pp_lands : lands s (a_id (active s'));
  pp_other : forall h', h' <> h -> tbl_get h' (chunks s') = tbl_get h' (chunks s);
  pp_done : forall c, r = Ok c -> holds s' h p /\
    exists v loc, tbl_get h (chunks s') = Some v /\ decode_locator v = Ok loc /\ l_codec loc = c;
}.

Lemma put_post_reads h p s s' (r : result Exn ChunkCodec) :
  disk_wf R s -> mem_wf R s -> reads s s' -> (forall c, r <> Ok c) -> put_post h p s r s'.
Proof using Type.
  intros Hd Hm Hs Hr. split; try done.
  - by eapply wf_reads.
  - by apply reads_steps.
  - by apply reads_keeps.
  - left. by rewrite (rd_active _ _ Hs).
  - intros h' _. by rewrite (rd_chunks _ _ Hs).
  - intros c ->. by destruct (Hr c).
Qed.

Lemma put_post_dedup h p s s' v loc :
  disk_wf R s -> mem_wf R s -> names h p -> reads s s' ->
  tbl_get h (chunks s) = Some v -> decode_locator v = Ok loc ->
  put_post h p s (Ok (l_codec loc)) s'.
Proof using Type.
  intros Hd Hm Hh Hs Hv Hloc. split; try done.
  - by eapply wf_reads.
  - by apply reads_steps.
  - by apply reads_keeps.
  - left. by rewrite (rd_active _ _ Hs).
  - intros h' _. by rewrite (rd_chunks _ _ Hs).
  - intros c [= <-]. destruct (wf_rows _ _ Hd _ _ Hv) as (q & Hq).
    rewrite <- (holds_unique _ _ _ p Hq Hh) in Hq. split; [by eapply reads_holds|].
    rewrite (rd_chunks _ _ Hs). eauto.
Qed.

Lemma put_post_after h p s s1 s2 r : reads s s1 -> put_post h p s1 r s2 -> put_post h p s r s2.
Proof using Type.
  intros Hs [H1 H2 H3 H4 H5 H6]. split; try done.
  - etrans; [by apply reads_steps|done].
  - etrans; [by apply reads_keeps|done].
  - unfold lands in *. rewrite (rd_active _ _ Hs) in H4. destruct H4 as [?|Hup]; [by left|].
    right. eapply upcoming_le; [by apply rd_calls|done].
  - intros h' Hne. rewrite H5 by done. by rewrite (rd_chunks _ _ Hs).
Qed.

Lemma wp_put_chunk h p comp s :
  disk_wf R s -> mem_wf R s -> len p <= U32_MAX -> names h p ->
  wp (put_chunk h p comp) (put_post h p s) s.
Proof using Type*.
  intros Hd Hm Hp Hh. unfold put_chunk.
  eapply wp_seq; [apply wp_existing_codec| |].
  2:{ intros x s1 [Hs1 _]. by apply put_post_reads. }
  intros [c|] s1 [Hs1 Hc].
  { destruct Hc as (v & loc & Hv & Hloc & <-). apply wp_ret. by eapply put_post_dedup. }
  eapply wp_seq; [apply wp_existing_codec| |].
  2:{ intros x s2 [Hs2 _]. apply put_post_reads; [done|done|by etrans|done]. }
  intros [c|] s2 [Hs2 Hc2]; [rewrite (rd_chunks _ _ Hs1) in Hc2; naive_solver|].
  assert (reads s s2) as Hs by (by etrans). clear Hs1 Hs2 Hc2 Hc.
  eapply wp_mono; [|intros r s3; by apply put_post_after].
  eapply reads_disk in Hd; [|done]. eapply reads_mem in Hm; [|done]. clear s s1 Hs. rename s2 into s.
  destruct (encode_spec comp p) as [Hle Hdec].
  assert (is_u32 (len p) /\ is_u32 (len (encode comp p).2)) as [Hu1 Hu2].
  { unfold is_u32, len in *. lia. }
  rewrite !wrap32_id by done.
  eapply wp_seq; [apply (wp_append_and_index R h p); eauto; apply Hu2| |].
  - intros [] s3 ([Hd3 Hm3] & Hs3 & Hl3 & [[_ ?]|(v & loc & Hch & Hloc & Hcd & _ & Hh3)]); [done|].
    apply wp_ret. split; [by split; [|intros _; apply Hm3]|done| |done| |].
    + by eapply insert_keeps; [apply sp_extends|..].
    + intros h' Hne. by rewrite Hch, tbl_get_insert_ne.
    + intros c [= <-]. split; [done|]. exists v, loc. by rewrite Hch, tbl_get_insert_eq.
  - intros x s3 ([Hd3 Hm3] & Hs3 & Hl3 & [[Hch _]|(v & loc & Hch & _ & _ & _ & Hh3)]);
      (split; [split; [done|intros Hx; apply Hm3; by intros [= ->]]|done| |done| |done]).
    + by apply steps_keeps.
    + by rewrite Hch.
    + by eapply insert_keeps; [apply sp_extends|..].
    + intros h' Hne. by rewrite Hch, tbl_get_insert_ne.
Qed.

(** A chunk that is there is not written again. *)
Lemma wp_put_again h p comp s v loc :
  tbl_get h (chunks s) = Some v -> decode_locator v = Ok loc ->
  wp (put_chunk h p comp)
    (fun x s' => reads s s' /\ (x = Ok (l_codec loc) \/ exists e, x = Err e /\ env_err e)) s.
Proof using Type.
  intros Hv Hl. unfold put_chunk, existing_codec. apply wp_bind, wp_bind, wp_db_read.
  - intros s1 Hs1. rewrite (rd_chunks _ _ Hs1), Hv. apply wp_bind, wp_lift_result; [|congruence].
    intros loc' Hl'. assert (loc' = loc) as -> by congruence. apply wp_ret, wp_ret. auto.
  - intros x s1 Hs1 Hx. split; [done|]. right. eauto.
Qed.

(** ** Listing the index *)

Record located s (locs : list (Blake3Hash * ChunkLocator)) : Prop := {
  lc_rows : forall h loc, (h, loc) ∈ locs <->
    exists v, tbl_get h (chunks s) = Some v /\ decode_locator v = Ok loc;
  lc_nodup : NoDup locs.*1;
}.

Lemma locators_of_spec (rows : list (bytes * bytes)) :
  (forall k v, (k, v) ∈ rows -> length k = 32%nat /\ exists loc, decode_locator v = Ok loc) ->
  exists out, locators_of rows = Ok out /\ out.*1 = rows.*1 /\
    forall h loc, (h, loc) ∈ out <-> exists v, (h, v) ∈ rows /\ decode_locator v = Ok loc.
Proof using Type.
  induction rows as [|[k v] rows IH]; intros H.
  { exists []. split_and!; [done..|]. intros h loc. split; [by intros ?%elem_of_nil|].
    by intros (v & ?%elem_of_nil & _). }
  destruct (H k v ltac:(left)) as [Hk (loc & Hloc)].
  destruct IH as (out & Ho & Hf & Hin); [intros k' v' ?; apply H; by right|].
  exists ((k, loc) :: out). cbn [locators_of]. rewrite Hk, Hloc. simpl. rewrite Ho. simpl.
  split_and!; [done|simpl; by f_equal|]. intros h l. rewrite elem_of_cons, Hin. split.
  - intros [[= -> ->]|(v' & ? & ?)]; [exists v; split; [left|done]|exists v'; split; [by right|done]].
  - intros (v' & [[= -> ->]|?]%elem_of_cons & Hd); [left; congruence|right; eauto].
Qed.

Lemma wp_all_locators s :
  disk_wf R s ->
  wp all_locators
    (fun r s' => reads s s' /\ match r with Ok locs => located s locs | Err x => env_err x end) s.
Proof using Type.
  intros Hd. apply wp_bind, wp_db_read; [|auto]. intros s1 Hs1. rewrite (rd_chunks _ _ Hs1).
  destruct (locators_of_spec (tbl_iter (chunks s))) as (out & -> & Hf & Hin).
  { intros k v Hkv%tbl_iter_get. destruct (wf_rows _ _ Hd _ _ Hkv) as (p & v' & loc & f & Hv & Hl & _ & _ & Hp).
    destruct Hp as [_ <-]. split; [apply blake3_length|]. exists loc. congruence. }
  apply wp_ret. split; [done|]. split.
  - intros h loc. rewrite Hin. by setoid_rewrite tbl_iter_get.
  - rewrite Hf. apply tbl_iter_nodup.
Qed.

Lemma located_reads s s' locs : reads s s' -> located s locs -> located s' locs.
Proof using Type. intros Hs [H1 H2]. split; [|done]. intros h loc. by rewrite H1, (rd_chunks _ _ Hs). Qed.

(** What a located row is about. *)
Lemma located_holds s locs h loc :
  disk_wf R s -> located s locs -> (h, loc) ∈ locs ->
  locator_ok loc /\ exists p f, packs s !! pack_id loc = Some f /\ fits loc f p /\ names h p.
Proof using Type.
  intros Hd Hl Hin. apply (lc_rows _ _ Hl) in Hin as (v & Hv & Hdec).
  split; [by eapply decode_locator_inv|].
  destruct (wf_rows _ _ Hd _ _ Hv) as (p & Hp).
  destruct (holds_row _ _ _ _ _ Hp Hv Hdec) as (f & ? & ? & ?). eauto 10.
Qed.

(** ** Reclaiming a pack file *)

(** No row of the index points into the pack. *)
Definition unreferenced s (id : Uuid) : Prop :=
  forall h v loc, tbl_get h (chunks s) = Some v -> decode_locator v = Ok loc -> pack_id loc <> id.

(** What maintenance leaves alone. *)
Record safe s s' : Prop := {
  sf_keeps : keeps s s';
  sf_manifests : manifests s' = manifests s;
  sf_fs : fs s' = fs s;
  sf_calls : (calls s <= calls s')%nat;
}.

#[export] Instance safe_preorder : PreOrder safe.
Proof using Type.
  split; [by split|]. intros s1 s2 s3 [] []. split; [by etrans|congruence..|lia].
Qed.

Lemma steps_safe s s' : steps s s' -> keeps s s' -> safe s s'.
Proof using Type. intros [] ?. by split. Qed.

Lemma reads_safe s s' : reads s s' -> safe s s'.
Proof using Type. intros H. apply steps_safe; [by apply reads_steps|by apply reads_keeps]. Qed.

Lemma wp_remove_pack_file id s :
  disk_wf R s -> mem_wf R s -> unreferenced s id -> id <> a_id (active s) ->
  wp (remove_pack_file id)
    (fun r s' => wf R r s' /\ safe s s' /\ chunks s' = chunks s /\ active s' = active s /\
       match r with
       | Ok n => n = len (default [] (packs s !! id)) /\ packs s' = delete id (packs s)
       | Err x => env_err x /\ packs s' = packs s
       end) s.
Proof using Type.
  intros Hd Hm Hu Hne. apply wp_bind, wp_call; [by left| |].
  2:{ intros x s1 Hs1 Hx. split_and!; [by eapply wf_reads|by apply reads_safe|by apply rd_chunks|
        by apply rd_active|done|by apply rd_packs]. }
  intros s1 Hs1. apply wp_bind, wp_gets. rewrite (rd_packs _ _ Hs1).
  destruct (packs s !! id) as [f|] eqn:Hf.
  2:{ apply wp_ret. split_and!; [by eapply wf_reads|by apply reads_safe|by apply rd_chunks|
        by apply rd_active|done|]. by rewrite (rd_packs _ _ Hs1), delete_id. }
  apply wp_bind, wp_modify, wp_ret.
  assert (keeps s (with_packs (delete id (packs s1)) s1)) as Hk.
  { intros h p (v & loc & g & Hv & Hl & Hg & Hfit & Hp). exists v, loc, g. simpl.
    rewrite (rd_chunks _ _ Hs1), (rd_packs _ _ Hs1), lookup_delete_ne by (symmetry; by eapply Hu).
    done. }
  pose proof (reads_disk _ _ _ Hs1 Hd) as [H1 H2 H3 H4].
  pose proof (reads_mem _ _ _ Hs1 Hm) as [H5 H6 H7]. split_and!.
  - split; [split|intros _; split]; simpl; auto.
    + intros h v. rewrite (rd_chunks _ _ Hs1). intros (p & Hp)%(wf_rows _ _ Hd). eauto.
    + intros i. rewrite dom_delete, elem_of_difference. intros [? _]. auto.
    + intros i g [_ ?]%lookup_delete_Some. eauto.
    + rewrite H5, (rd_active _ _ Hs1). by rewrite lookup_delete_ne.
  - destruct (reads_safe _ _ Hs1). split; [done|..]; done.
  - apply (rd_chunks _ _ Hs1).
  - apply (rd_active _ _ Hs1).
  - done.
  - simpl. by rewrite (rd_packs _ _ Hs1).
Qed.

(** ** Moving the live chunks of a pack *)

(** [live] lists the rows that point into [old]. *)
Record to_move s (old : Uuid) (live : list (Blake3Hash * ChunkLocator)) : Prop := {
  tm_rows : forall h loc, (h, loc) ∈ live <->
    pack_id loc = old /\ exists v, tbl_get h (chunks s) = Some v /\ decode_locator v = Ok loc;
  tm_nodup : NoDup live.*1;
  tm_old : drawn (calls s) old;
  tm_active : old <> a_id (active s);
}.

Lemma to_move_reads s s' old live : reads s s' -> to_move s old live -> to_move s' old live.
Proof using Type.
  intros Hs [H1 H2 H3 H4]. split; [|done| |by rewrite (rd_active _ _ Hs)].
  - intros h loc. by rewrite H1, (rd_chunks _ _ Hs).
  - eapply drawn_le; [by apply rd_calls|done].
Qed.

(** Rows land elsewhere: in the active pack or in one that is fresh. *)
Lemma lands_ne s old live id : to_move s old live -> lands s id -> old <> id.
Proof using WL.
  intros [_ _ Hold Hact] [->|Hup] E; [done|]. subst id. by eapply drawn_not_upcoming.
Qed.

Lemma to_move_tail s s' old h loc live v' loc' :
  to_move s old ((h, loc) :: live) -> chunks s' = tbl_insert h v' (chunks s) ->
  decode_locator v' = Ok loc' -> lands s (pack_id loc') -> lands s (a_id (active s')) ->
  (calls s <= calls s')%nat -> to_move s' old live.
Proof using WL.
  intros Htm Hch Hdec Hl Ha Hc. pose proof Htm as [H1 H2 H3 H4]. simpl in H2.
  apply NoDup_cons in H2 as [Hnin Hnd].
  split; [|done|by eapply drawn_le|by eapply lands_ne].
  intros h' l. destruct (decide (h' = h)) as [->|Hne].
  - split.
    + intros Hin. destruct Hnin. by apply (list_elem_of_fmap_2 fst) in Hin.
    + intros (Hold & w & Hw & Hd). rewrite Hch, tbl_get_insert_eq in Hw. injection Hw as <-.
      assert (l = loc') as -> by congruence. destruct (lands_ne _ _ _ _ Htm Hl). done.
  - rewrite Hch, tbl_get_insert_ne by done. rewrite <- H1, elem_of_cons.
    split; [by right|]. intros [[= ? ?]|?]; done.
Qed.

Lemma lands_trans s1 s2 id :
  lands s1 (a_id (active s2)) -> (calls s1 <= calls s2)%nat -> lands s2 id -> lands s1 id.
Proof using Type.
  intros H1 Hc [->|Hup]; [done|]. right. by eapply upcoming_le.
Qed.

Lemma lands_reads s s' id : reads s s' -> lands s' id -> lands s id.
Proof using Type.
  intros Hs. apply lands_trans; [left; by rewrite (rd_active _ _ Hs)|by apply rd_calls].
Qed.

Lemma wp_move_chunks old live moved s :
  disk_wf R s -> mem_wf R s -> to_move s old live ->
  wp (move_chunks old live moved)
    (fun r s' => wf R r s' /\ safe s s' /\ lands s (a_id (active s')) /\
       (forall m, r = Ok (false, m) -> unreferenced s' old) /\
       (forall h, is_Some (tbl_get h (chunks s')) <-> is_Some (tbl_get h (chunks s)))) s.
Proof using Type*.
  revert moved s. induction live as [|[h loc] live IH]; intros moved s Hd Hm Htm; cbn [move_chunks].
  { apply wp_ret. split_and!; [by split|done|by left| |done]. intros m _ h v loc Hv Hl Hold.
    assert ((h, loc) ∈ []) as ?%elem_of_nil by (apply (tm_rows _ _ _ Htm); eauto). done. }
  apply wp_bind, wp_gets. destruct (cancelled (calls s)).
  { apply wp_ret. split_and!; [by split|done|by left|done|done]. }
  destruct (proj1 (tm_rows _ _ _ Htm h loc)) as (Hold & v & Hv & Hdec); [left|].
  destruct (wf_rows _ _ Hd _ _ Hv) as (p & Hp).
  destruct (holds_row _ _ _ _ _ Hp Hv Hdec) as (f & Hf & Hfit & Hh).
  destruct (decode_locator_inv _ _ Hdec) as [(_ & _ & Hu1 & Hu2) _].
  eapply wp_seq; [apply wp_get_range| |].
  2:{ intros x s1 [Hs1 _]. split_and!; [by eapply wf_reads|by apply reads_safe| |done|].
      - left. by rewrite (rd_active _ _ Hs1).
      - intros h'. by rewrite (rd_chunks _ _ Hs1). }
  intros o s1 [Hs1 ->]. rewrite <- Hold, Hf. simpl. apply wp_bind, wp_ret.
  change (take _ (drop _ f)) with (stored_at loc f).
  assert (len (stored_at loc f) = stored_len loc) as Hlen.
  { destruct Hfit. unfold stored_at, len in *. rewrite length_take, length_drop. lia. }
  rewrite Hlen, Z.eqb_refl. cbn [negb].
  eapply reads_disk in Hd; [|done]. eapply reads_mem in Hm; [|done].
  eapply to_move_reads in Htm; [|done]. rewrite Hold.
  eapply (wp_mono _ (fun r s' => wf R r s' /\ safe s1 s' /\ lands s1 (a_id (active s')) /\
    (forall m, r = Ok (false, m) -> unreferenced s' old) /\
    (forall h, is_Some (tbl_get h (chunks s')) <-> is_Some (tbl_get h (chunks s1))))).
  2:{ intros r s' (? & ? & ? & ? & Hk). split_and!; [done|etrans; [by apply reads_safe|done]|by eapply lands_reads|done|].
      intros h'. by rewrite Hk, (rd_chunks _ _ Hs1). }
  assert (tbl_get h (chunks s1) = Some v) as Hv1 by by rewrite (rd_chunks _ _ Hs1).
  clear s Hs1 Hv Hp Hf. rename s1 into s.
  rewrite <- Hlen. eapply wp_seq; [apply (wp_append_and_index R h p); auto| |].
  - rewrite Hlen. apply Hu2.
  - apply Hfit.
  - apply Hfit.
  - intros [] s2 ([Hd2 Hm2] & Hs2 & Ha2 & [[_ ?]|(v' & loc' & Hch & Hdec' & _ & Hl' & Hh')]); [done|].
    assert (keeps s s2) as Hk2 by (by eapply insert_keeps; [apply sp_extends|..]).
    eapply wp_mono; [apply IH; [done|by apply Hm2|eapply to_move_tail; eauto using sp_calls]|].
    intros r s3 (Hw & Hsf & Hne & Hun & Hkeys). split_and!; [done| |by eapply lands_trans, Hne; [|apply sp_calls]|done|].
    + etrans; [by apply steps_safe|done].
    + intros h'. rewrite Hkeys, Hch, tbl_get_insert. case_decide; [|done]. subst. rewrite Hv1.
      split; eauto.
  - intros x s2 ([Hd2 Hm2] & Hs2 & Ha2 & Hch). split_and!; [split; [done|intros Hx; apply Hm2; by intros [= ->]]| | |done|].
    + apply steps_safe; [done|]. destruct Hch as [[? _]|(? & ? & ? & _ & _ & _ & ?)]; [by apply steps_keeps|].
      by eapply insert_keeps; [apply sp_extends|..].
    + done.
    + intros h'. destruct Hch as [[-> _]|(? & ? & -> & _)]; [done|]. rewrite tbl_get_insert.
      case_decide; [|done]. subst. rewrite Hv1. split; eauto.
Qed.

(** The contract of [compact_pack]: every chunk is still there whatever
    happens, and once it reports the freed bytes the file is gone. *)
Lemma wp_compact_pack id s :
  disk_wf R s -> mem_wf R s -> drawn (calls s) id -> id <> a_id (active s) ->
  wp (compact_pack id)
    (fun r s' => wf R r s' /\ safe s s' /\ lands s (a_id (active s')) /\
       (forall h, is_Some (tbl_get h (chunks s')) <-> is_Some (tbl_get h (chunks s)))) s.
Proof using Type*.
  intros Hd Hm Hid Hne. unfold compact_pack. apply wp_bind, wp_gets.
  rewrite bool_decide_false by done. eapply wp_seq; [by apply wp_all_locators| |].
  2:{ intros x s1 [Hs1 _]. split_and!; [by eapply wf_reads|by apply reads_safe| |].
      - left. by rewrite (rd_active _ _ Hs1).
      - intros h. by rewrite (rd_chunks _ _ Hs1). }
  intros locs s1 [Hs1 Hl].
  assert (to_move s1 id (filter (fun hl => pack_id hl.2 = id) locs)) as Htm.
  { eapply to_move_reads; [done|]. split; [| |done|done].
    - intros h loc. rewrite list_elem_of_filter, (lc_rows _ _ Hl). done.
    - eapply sublist_NoDup; [apply (lc_nodup _ _ Hl)|apply filter_fst_sublist]. }
  eapply wp_seq; [apply wp_move_chunks; eauto using reads_disk, reads_mem| |].
  2:{ intros x s2 ([? Hm2] & Hs2 & Hla & _ & Hk).
      split_and!; [split; [done|intros Hx; apply Hm2; by intros [= ->]]|etrans; [by apply reads_safe|done]| |].
      - by eapply lands_reads.
      - intros h. by rewrite Hk, (rd_chunks _ _ Hs1). }
  intros [c m] s2 ([Hd2 Hm2] & Hs2 & Hla & Hun & Hk). specialize (Hm2 ltac:(done)).
  pose proof (lands_ne _ _ _ _ Htm Hla) as Hne2.
  assert (safe s s2) as Hsf by (etrans; [by apply reads_safe|done]).
  eapply lands_reads in Hla; [|done].
  assert (forall h, is_Some (tbl_get h (chunks s2)) <-> is_Some (tbl_get h (chunks s))) as Hk2.
  { intros h. by rewrite Hk, (rd_chunks _ _ Hs1). }
  destruct c; simpl; [by apply wp_ret|].
  eapply wp_seq; [apply wp_remove_pack_file; eauto| |].
  - intros n s3 (Hw & Hs3 & Hc3 & Ha3 & _). apply wp_ret. rewrite Ha3, Hc3.
    split_and!; [|by etrans|done..]. split; [apply Hw|]. intros _. by apply Hw.
  - intros x s3 ([? Hm3] & Hs3 & Hc3 & Ha3 & _). rewrite Ha3, Hc3.
    split_and!; [split; [done|intros Hx; apply Hm3; by intros [= ->]]|by etrans|done..].
Qed.
End safety.
