(* ===== verification/ChunkFile.v ===== *)
(** * Files as chunks ([freally-chunk]: [chunker.rs], [manifest.rs], [sink.rs])

    Cutting bytes into chunks, storing a file and its manifest, and putting a
    file or a range of it together again. *)
From S2P Require Import Prelude.
From S2P Require Import Text.
From S2P Require Import Files.
From S2P Require Import Monad.
From S2P Require Import Table.
From S2P Require Import ChunkTypes.
From S2P Require Import ChunkStore.
From stdpp Require Import options.
Open Scope Z_scope.
Open Scope monad_scope.

(** ** The chunker *)

Definition DEFAULT_MIN : Z := 512 * 1024.
Definition DEFAULT_AVG : Z := 1024 * 1024.
Definition DEFAULT_MAX : Z := 4 * 1024 * 1024.

Record Chunker := { ck_min : Z; ck_avg : Z; ck_max : Z }.

Definition default_chunker : Chunker :=
  {| ck_min := DEFAULT_MIN; ck_avg := DEFAULT_AVG; ck_max := DEFAULT_MAX |}.

(** The fastcdc library: offset and length of each cut. *)
Class FastCdc := { fastcdc : Chunker -> bytes -> list (nat * nat) }.

(** The cuts follow each other without a gap and without an empty one. *)
Fixpoint tiles (off : nat) (cuts : list (nat * nat)) (total : nat) : Prop :=
  match cuts with
  | [] => off = total
  | (o, l) :: cuts => o = off /\ (1 <= l)%nat /\ tiles (off + l) cuts total
  end.

(** What its documentation promises: the cuts cover the input, and none is
    longer than the maximum. *)
Class FastCdcLaws `{FastCdc} := {
  cdc_tiles : forall c b, tiles 0 (fastcdc c b) (length b);
  cdc_max : forall c b o l, 1 <= ck_max c -> (o, l) ∈ fastcdc c b -> Z.of_nat l <= ck_max c;
}.

Record IngestStats := {
  chunks_total : Z; chunks_new : Z; chunks_dedup : Z; bytes_new : Z; bytes_dedup : Z;
}.

Section file.
Context {TC TM TS : Type} {kle : bytes -> bytes -> Prop}.
Context {TBC : Table bytes bytes TC kle} {TBM : Table string bytes TM String.le}.
Context {TBS : Table string bytes TS String.le} {CM : Codec Manifest bytes}.
Context {B3 : Blake3} {ZS : Zstd} {EN : ChunkWorld} {FC : FastCdc}.
Local Abbreviation Store := (Store TC TM TS).
Local Abbreviation M := (@M TC TM TS).

Definition cut_chunk (window : bytes) (o l : nat) : Chunk :=
  {| k_offset := Z.of_nat o; k_len := wrap32 (Z.of_nat l);
     k_hash := blake3 (sub o (o + l) window) |}.

Definition chunk_bytes (c : Chunker) (b : bytes) : list Chunk :=
  (fun ol => cut_chunk b ol.1 ol.2) <$> fastcdc c b.

(** [File::open(path)] and [read_to_end] *)
Definition read_file (p : path) : M bytes :=
  call CIo ;;
  let! f := gets (fun s => fs s !! p) in
  lift_result (ok_or f CIo).

Definition chunk_file (c : Chunker) (p : path) : M (list Chunk) :=
  let! b := read_file p in ret (chunk_bytes c b).

(** *** The streaming chunker

    [on_chunk] is the callback; [A] is the type of what it captures.  [rest]
    is what the reader has not delivered yet. *)
Section reader.
Context {A : Type} (on_chunk : A -> Chunk -> bytes -> M A) (c : Chunker).

(** The cuts of one window; [hashed] is what the hasher has seen. *)
Fixpoint emit (eof : bool) (window : bytes) (cuts : list (nat * nat)) (consumed : nat)
    (hashed : bytes) (a : A) : M (nat * bytes * A) :=
  match cuts with
  | [] => ret (consumed, hashed, a)
  | (o, l) :: cuts =>
      if negb eof && (ck_max c <? Z.of_nat (o + l)) then ret (consumed, hashed, a)
      else
        let slice := sub o (o + l) window in
        let! a := on_chunk a (cut_chunk window o l) slice in
        emit eof window cuts (o + l) (hashed ++ slice) a
  end.

Definition buffer_cap : nat := Z.to_nat (ck_max c * 2).

(** Top up the buffer; a read of nothing is the end of the file. *)
Definition top_up (eof : bool) (buf rest : bytes) : M (bool * bytes * bytes) :=
  if negb eof && Nat.ltb (length buf) buffer_cap then
    let! n := gets calls in
    call CIo ;;
    let got := take (Nat.min (Nat.max 1 (read_size n)) (buffer_cap - length buf)) rest in
    ret (Nat.eqb (length got) 0, buf ++ got, drop (length got) rest)
  else ret (eof, buf, rest).

Fixpoint chunk_loop (fuel : nat) (eof : bool) (buf rest hashed : bytes) (a : A)
    : M (Blake3Hash * A) :=
  match fuel with
  | O => throw XStuck
  | S fuel =>
      if eof && Nat.eqb (length buf) 0 then ret (blake3 hashed, a)
      else
        let! (eof, buf, rest) := top_up eof buf rest in
        if negb eof && (Z.of_nat (length buf) <? ck_max c) then chunk_loop fuel eof buf rest hashed a
        else
          let! (consumed, hashed, a) := emit eof buf (fastcdc c buf) 0 hashed a in
          if Nat.eqb consumed 0 then
            if negb eof then chunk_loop fuel eof buf rest hashed a
            else if Nat.eqb (length buf) 0 then ret (blake3 hashed, a)
            else
              let! a := on_chunk a {| k_offset := 0; k_len := wrap32 (len buf); k_hash := blake3 buf |} buf in
              ret (blake3 (hashed ++ buf), a)
          else chunk_loop fuel eof (drop consumed buf) rest hashed a
  end.

(** Each turn reads a byte, reaches the end of the file or consumes a byte. *)
Definition chunk_reader (data : bytes) (a : A) : M (Blake3Hash * A) :=
  chunk_loop (2 * length data + 3) false [] data [] a.
End reader.

(** ** Storing a file *)

Definition no_stats (n : Z) : IngestStats :=
  {| chunks_total := n; chunks_new := 0; chunks_dedup := 0; bytes_new := 0; bytes_dedup := 0 |}.

Definition count_chunk (was_present : bool) (n : Z) (st : IngestStats) : IngestStats :=
  if was_present then
    {| chunks_total := chunks_total st; chunks_new := chunks_new st;
       chunks_dedup := wrap64 (chunks_dedup st + 1); bytes_new := bytes_new st;
       bytes_dedup := wrap64 (bytes_dedup st + n) |}
  else
    {| chunks_total := chunks_total st; chunks_new := wrap64 (chunks_new st + 1);
       chunks_dedup := chunks_dedup st; bytes_new := wrap64 (bytes_new st + n);
       bytes_dedup := bytes_dedup st |}.

Fixpoint ingest_loop (b : bytes) (comp : RepoCompression) (cuts : list Chunk) (st : IngestStats)
    (out : list ChunkRef) : M (IngestStats * list ChunkRef) :=
  match cuts with
  | [] => ret (st, out)
  | c :: cuts =>
      let slice := sub (Z.to_nat (k_offset c)) (Z.to_nat (k_offset c) + Z.to_nat (k_len c)) b in
      let! was_present := has (k_hash c) in
      let! codec := put_chunk (k_hash c) slice comp in
      ingest_loop b comp cuts (count_chunk was_present (k_len c) st)
        (out ++ [{| c_hash := k_hash c; c_offset := k_offset c; c_len := k_len c; c_codec := codec |}])
  end.

Definition chunk_into_store (ck : Chunker) (b : bytes) (comp : RepoCompression) : M (IngestStats * Manifest) :=
  let cuts := chunk_bytes ck b in
  let! (st, out) := ingest_loop b comp cuts (no_stats (Z.of_nat (length cuts))) [] in
  ret (st, {| file_hash := blake3 b; m_size := len b; m_chunks := out |}).

Definition ingest_bytes (ck : Chunker) (b : bytes) (key : string) : M (IngestStats * Manifest) :=
  let! (st, m) := chunk_into_store ck b Off in
  put_manifest key m ;;
  ret (st, m).

Definition ingest_file (ck : Chunker) (p : path) (key : string) : M (IngestStats * Manifest) :=
  let! b := read_file p in ingest_bytes ck b key.

(** [Repository::ingest_reader]: the callback keeps the manifest's chunks and
    the absolute offset. *)
Definition ingest_reader (ck : Chunker) (comp : RepoCompression) (data : bytes) : M Manifest :=
  let on_chunk (a : list ChunkRef * Z) (c : Chunk) (slice : bytes) :=
    let! codec := put_chunk (k_hash c) slice comp in
    ret (a.1 ++ [{| c_hash := k_hash c; c_offset := a.2; c_len := k_len c; c_codec := codec |}],
         wrap64 (a.2 + k_len c)) in
  let! (h, a) := chunk_reader on_chunk ck data ([], 0) in
  ret {| file_hash := h; m_size := a.2; m_chunks := a.1 |}.

(** ** Putting a file together *)

(** A directory stands in the place of the file, or a file in the place of one
    of its directories. *)
Definition blocked (files : gmap path bytes) (p : path) : bool :=
  existsb (fun q => negb (bool_decide (q = p)) && (path_starts_with q p || path_starts_with p q))
    (map_to_list files).*1.

(** [File::create], and [write_all] of some bytes to it. *)
Definition create_file (p : path) : M unit :=
  call CIo ;;
  let! files := gets fs in
  if blocked files p then fail CIo else modify (fun s => with_fs (<[p := []]> (fs s)) s).

Definition write_file (p : path) (b : bytes) : M unit := fun s =>
  let put n := with_fs (<[p := default [] (fs s !! p) ++ take n b]> (fs s)) (tick s) in
  match fate (calls s) with
  | Works => (Ok tt, put (length b))
  | Fails => (Err (XErr CIo), put (wrote (calls s)))
  | Dies => (Err XDied, put (wrote (calls s)))
  end.

(** The chunk behind a reference, of the length the manifest says. *)
Definition fetch (c : ChunkRef) : M bytes :=
  let! r := get (c_hash c) in
  let! b := lift_result (ok_or r (MissingChunk (c_hash c))) in
  if len b =? c_len c then ret b else fail (CorruptChunk (c_hash c)).

Fixpoint write_chunks (dst : path) (cs : list ChunkRef) : M unit :=
  match cs with
  | [] => ret tt
  | c :: cs => let! b := fetch c in write_file dst b ;; write_chunks dst cs
  end.

Definition materialise_file (m : Manifest) (dst : path) : M unit :=
  create_file dst ;;
  write_chunks dst (m_chunks m) ;;
  call CIo.

(** [&bytes[from..to]] panics outside the slice. *)
Definition slice (from to : Z) (b : bytes) : M bytes :=
  if (from <=? to) && (to <=? len b) then ret (sub (Z.to_nat from) (Z.to_nat to) b) else throw XPanic.

Fixpoint range_chunks (offset stop : Z) (cs : list ChunkRef) (out : bytes) : M bytes :=
  match cs with
  | [] => ret out
  | c :: cs =>
      let chunk_start := c_offset c in
      let chunk_end := wrap64 (c_offset c + c_len c) in
      if (chunk_end <=? offset) || (stop <=? chunk_start) then range_chunks offset stop cs out
      else
        let! b := fetch c in
        let! part := slice (Z.max offset chunk_start - chunk_start) (Z.min stop chunk_end - chunk_start) b in
        range_chunks offset stop cs (out ++ part)
  end.

(** The largest allocation Rust makes is [isize::MAX] bytes. *)
Definition ISIZE_MAX : Z := 9223372036854775807.

Definition materialise_range (m : Manifest) (offset n : Z) : M bytes :=
  if (n =? 0) || (m_size m <=? offset) then ret []
  else
    let stop := Z.min (wrap64 (offset + n)) (m_size m) in
    if ISIZE_MAX <? wrap64 (stop - offset) then throw XPanic
    else range_chunks offset stop (m_chunks m) [].

Definition delta_plan (old new : Manifest) : list ChunkRef :=
  filter (fun c => c_hash c ∉ c_hash <$> m_chunks old) (m_chunks new).

(** ** The engine's sink ([sink.rs]): errors count as an absent store *)

Definition sink_get_manifest (key : string) : M (option bytes) :=
  let! r := try (get_manifest key) in
  ret (match r with Ok (Some m) => Some (enc m) | _ => None end).

Definition sink_put_manifest (key : string) (serialised : bytes) : M unit :=
  match dec serialised with
  | None => ret tt
  | Some m => let! _ := try (put_manifest key m) in ret tt
  end.

Definition sink_has_chunk (hash : Blake3Hash) : M bool :=
  let! r := try (has hash) in
  ret (match r with Ok b => b | Err _ => false end).
End file.
