(* ===== verification/ChunkFileSafety.v ===== *)
(** * Files as chunks: what storing and restoring a file guarantee

    [post] is the shape of every contract from here on: the store stays well
    formed, what it holds stays, and a call that ends early does so with an
    error or because the process died, never by a panic or for want of
    fuel.

    The second part explains errors: one that is not answered by a failed
    call tells of a broken or missing chunk. *)
From S2P Require Import Prelude.
From S2P Require Import Text.
From S2P Require Import Files.
From S2P Require Import Monad.
From S2P Require Import Table.
From S2P Require Import ChunkTypes.
From S2P Require Import ChunkStore.
From S2P Require Import ChunkWp.
From S2P Require Import ChunkFile.
From stdpp Require Import options.
Open Scope Z_scope.
Open Scope monad_scope.

(** ** Calls that do not panic *)

Definition calm (x : Exn) : Prop :=
  match x with XErr _ | XDied => True | XPanic | XStuck => False end.

Create HintDb calm.

Section calm.
Context {TC TM TS : Type} {kle : bytes -> bytes -> Prop}.
Context {TBC : Table bytes bytes TC kle} {TBM : Table string bytes TM String.le}.
Context {TBS : Table string bytes TS String.le} {CM : Codec Manifest bytes}.
Context {B3 : Blake3} {ZS : Zstd} {EN : ChunkWorld} {FC : FastCdc}.
Local Abbreviation M := (@M TC TM TS).

Definition calmly {A} (m : M A) : Prop :=
  forall s, match (m s).1 with Ok _ => True | Err x => calm x end.

Lemma calm_ret {A} (a : A) : calmly (ret a).
Proof using Type. done. Qed.

Lemma calm_fail {A} e : calmly (fail (A := A) e).
Proof using Type. done. Qed.

Lemma calm_gets {A} (f : _ -> A) : calmly (gets f).
Proof using Type. done. Qed.

Lemma calm_modify f : calmly (modify f).
Proof using Type. done. Qed.

Lemma calm_lift {A} (r : result ChunkStoreError A) : calmly (lift_result r).
Proof using Type. by destruct r. Qed.

Lemma calm_bind {A B} (m : M A) (f : A -> M B) : calmly m -> (forall a, calmly (f a)) -> calmly (bind m f).
Proof using Type.
  intros Hm Hf s. unfold bind. specialize (Hm s). destruct (m s) as [[a|x] s'] eqn:E; [|done].
  apply Hf.
Qed.

Lemma calm_call e : calmly (call e).
Proof using Type. intros s. unfold call. by destruct (fate (calls s)). Qed.

Lemma calm_append id b : calmly (append_pack id b).
Proof using Type.
  intros s. unfold append_pack. destruct (packs s !! id); [|done]. by destruct (fate (calls s)).
Qed.

Lemma calm_write_file p b : calmly (write_file p b).
Proof using Type. intros s. unfold write_file. by destruct (fate (calls s)). Qed.
End calm.

#[export] Hint Resolve calm_ret calm_fail calm_gets calm_modify calm_lift calm_call calm_append
  calm_write_file : calm.

(** Walk through a body made of calm calls. *)
Ltac calm_body :=
  repeat first
    [ progress eauto with calm nocore
    | apply calm_bind; [|intros ?]
    | match goal with |- calmly (match ?x with _ => _ end) => destruct x end
    | match goal with |- calmly (if ?b then _ else _) => destruct b end ].

Section safety.
Context {TC TM TS : Type} {kle : bytes -> bytes -> Prop}.
Context {TBC : Table bytes bytes TC kle} {TBM : Table string bytes TM String.le}.
Context {TBS : Table string bytes TS String.le} {CM : Codec Manifest bytes}.
Context {B3 : Blake3} {ZS : Zstd} {EN : ChunkWorld} {FC : FastCdc}.
Context {ZL : ZstdLaws} {WL : WorldLaws} {FL : FastCdcLaws} {DL : DigestLaws}.
Context (R : Z) (HR : 0 <= R <= 2 ^ 62).
Local Abbreviation Store := (Store TC TM TS).
Local Abbreviation M := (@M TC TM TS).
Implicit Types s : Store.

Lemma calm_fill fuel rest filled want : calmly (fill (TC := TC) (TM := TM) (TS := TS) fuel rest filled want).
Proof using Type.
  revert rest filled. induction fuel as [|fuel IH]; intros rest filled; cbn [fill]; calm_body.
Qed.
#[local] Hint Resolve calm_fill : calm.

Lemma calm_get h : calmly (get (TC := TC) (TM := TM) (TS := TS) h).
Proof using Type. unfold get, locate, db_read, get_range. calm_body. Qed.

Lemma calm_put_chunk h p comp : calmly (put_chunk (TC := TC) (TM := TM) (TS := TS) h p comp).
Proof using Type.
  unfold put_chunk, existing_codec, append_and_index, roll_locked, create_pack, db_read, db_write.
  calm_body.
Qed.

(** ** The shape of the contracts *)

Definition post {A} s (Q : A -> Store -> Prop) (r : result Exn A) s' : Prop :=
  wf R r s' /\ safe s s' /\ match r with Ok a => Q a s' | Err x => calm x end.

Lemma wf_err {A B} x s : wf R (Err x : result Exn A) s -> wf R (Err x : result Exn B) s.
Proof using Type. intros [? H]. split; [done|]. intros Hx. apply H. intros [= ->]. by apply Hx. Qed.

Lemma wf_ok {A} (a : A) s : disk_wf R s -> mem_wf R s -> wf R (Ok a) s.
Proof using Type. by split. Qed.

Lemma post_ret {A} (a : A) (Q : A -> Store -> Prop) s :
  disk_wf R s -> mem_wf R s -> Q a s -> wp (ret a) (post s Q) s.
Proof using Type. intros ???. apply wp_ret. split_and!; [by apply wf_ok|done|done]. Qed.

Lemma post_fail {A} e (Q : A -> Store -> Prop) s :
  disk_wf R s -> mem_wf R s -> wp (fail e) (post s Q) s.
Proof using Type. intros ??. apply wp_throw. split_and!; [by split; [|intros _; apply mem_wf_up]|done..]. Qed.

Lemma post_seq {A B} (m : M A) (f : A -> M B) (QA : A -> Store -> Prop) (QB : B -> Store -> Prop) s :
  wp m (post s QA) s ->
  (forall a s1, disk_wf R s1 -> mem_wf R s1 -> safe s s1 -> QA a s1 -> wp (f a) (post s1 QB) s1) ->
  wp (bind m f) (post s QB) s.
Proof using Type.
  intros Hm Hf. eapply wp_seq; [exact Hm| |].
  - intros a s1 ([Hd Hm1] & Hs & Ha). eapply wp_mono; [apply Hf; auto; by apply Hm1|].
    intros r s2 (? & ? & ?). split_and!; [done|by etrans|done].
  - intros x s1 (Hw & Hs & Hx). split_and!; [by eapply wf_err|done|done].
Qed.

Lemma post_mono {A} (m : M A) (Q Q' : A -> Store -> Prop) s :
  wp m (post s Q) s -> (forall a s', safe s s' -> Q a s' -> Q' a s') -> wp m (post s Q') s.
Proof using Type.
  intros Hm HQ. eapply wp_mono; [exact Hm|]. intros r s' (? & ? & H). split_and!; [done..|].
  destruct r; auto.
Qed.

(** Reading calls. *)
Lemma post_reads {A} (m : M A) (Q : A -> Store -> Prop) s :
  disk_wf R s -> mem_wf R s -> calmly m ->
  wp m (fun r s' => reads s s' /\ match r with Ok a => Q a s' | Err _ => True end) s ->
  wp m (post s Q) s.
Proof using Type.
  intros Hd Hm Hc H. unfold wp in *. specialize (Hc s). destruct H as [Hs HQ].
  split_and!; [by eapply wf_reads|by apply reads_safe|]. by destruct (m s).1.
Qed.

Lemma post_call e s : disk_wf R s -> mem_wf R s -> e = CIo \/ e = CRedb -> wp (call e) (post s (fun _ => reads s)) s.
Proof using Type.
  intros Hd Hm He. apply post_reads; [done|done|apply calm_call|]. by apply wp_call.
Qed.

Lemma post_db_read {A} (f : Store -> A) s :
  disk_wf R s -> mem_wf R s -> wp (db_read f) (post s (fun a s' => reads s s' /\ a = f s')) s.
Proof using Type.
  intros Hd Hm. apply post_reads; [done|done|unfold db_read; calm_body|]. by apply wp_db_read.
Qed.

Lemma post_put_chunk h p comp s :
  disk_wf R s -> mem_wf R s -> len p <= U32_MAX -> names h p ->
  wp (put_chunk h p comp) (post s (fun c s' => holds s' h p /\
    exists v loc, tbl_get h (chunks s') = Some v /\ decode_locator v = Ok loc /\ l_codec loc = c)) s.
Proof using Type*.
  intros Hd Hm Hp Hh. pose proof (calm_put_chunk h p comp s) as Hc.
  pose proof (wp_put_chunk R HR h p comp s Hd Hm Hp Hh) as [Hw Hs Hk _ _ Hdone].
  unfold wp, post in *. destruct (put_chunk h p comp s) as [[c|x] s']; simpl in *;
    (split; [done|split; [by apply steps_safe|]]); auto.
Qed.

(** Maintenance is calm, too: [compact_pack] panics on the active pack only. *)
Lemma calm_all_locators : calmly (all_locators (TC := TC) (TM := TM) (TS := TS)).
Proof using Type. unfold all_locators, db_read. calm_body. Qed.

Lemma calm_move_chunks old live moved : calmly (move_chunks (TC := TC) (TM := TM) (TS := TS) old live moved).
Proof using Type.
  revert moved. induction live as [|[h loc] live IH]; intros moved; cbn [move_chunks];
    unfold get_range, append_and_index, roll_locked, create_pack, db_write; calm_body.
Qed.

Lemma post_compact_pack id s :
  disk_wf R s -> mem_wf R s -> drawn (calls s) id -> id <> a_id (active s) ->
  wp (compact_pack id) (post s (fun _ s' => lands s (a_id (active s')) /\
    forall h, is_Some (tbl_get h (chunks s')) <-> is_Some (tbl_get h (chunks s)))) s.
Proof using Type*.
  intros Hd Hm Hid Hne. pose proof (wp_compact_pack R HR id s Hd Hm Hid Hne) as H.
  assert (match (compact_pack id s).1 with Ok _ => True | Err x => calm x end) as Hc.
  { unfold compact_pack, bind at 1, active_pack_id, gets. rewrite bool_decide_false by done.
    match goal with |- match (?m s).1 with _ => _ end => assert (calmly m) as Hcm; [|exact (Hcm s)] end.
    unfold remove_pack_file. pose proof calm_all_locators. pose proof calm_move_chunks. calm_body. }
  unfold wp, post in *. destruct H as (? & ? & ? & ?). split; [done|]. split; [done|].
  by destruct (compact_pack id s).1.
Qed.

(** ** Manifests and what they describe *)

(** The references describe [data] from [off] on, piece by piece. *)
Fixpoint layout (off : Z) (cs : list ChunkRef) (data : bytes) : Prop :=
  match cs with
  | [] => data = []
  | c :: cs => exists piece rest, data = piece ++ rest /\ c_hash c = blake3 piece /\
      c_len c = len piece /\ c_offset c = off /\ layout (off + len piece) cs rest
  end.

Record manifest_of (m : Manifest) (data : bytes) : Prop := {
  mo_layout : layout 0 (m_chunks m) data;
  mo_size : m_size m = len data;
  mo_hash : file_hash m = blake3 data;
  mo_play : in_play data;
}.

Definition refs_held s (cs : list ChunkRef) : Prop := Forall (fun c => exists p, holds s (c_hash c) p) cs.

Lemma refs_held_keeps s s' cs : keeps s s' -> refs_held s cs -> refs_held s' cs.
Proof using Type. intros Hk H. eapply Forall_impl; [exact H|]. intros c (p & Hp). eauto. Qed.

Lemma layout_snoc off cs data c piece :
  layout off cs data -> c_hash c = blake3 piece -> c_len c = len piece -> c_offset c = off + len data ->
  layout off (cs ++ [c]) (data ++ piece).
Proof using Type.
  revert off data. induction cs as [|c' cs IH]; intros off data; simpl.
  - intros -> Hh Hl Ho. exists piece, []. rewrite app_nil_r. split_and!; try done.
    rewrite Ho. unfold len. simpl. lia.
  - intros (p & rest & -> & Hh' & Hl' & Ho' & Hrest) Hh Hl Ho.
    exists p, (rest ++ piece). split_and!; try done; [by rewrite app_assoc|].
    apply IH; [done..|]. rewrite Ho. unfold len. rewrite length_app. lia.
Qed.

Lemma tiles_le off cuts total : tiles off cuts total -> (off <= total)%nat.
Proof using Type.
  revert off.
  induction cuts as [|[o l] cuts IH]; intros off; simpl; [lia|].
  intros (-> & Hl & H%IH). lia.
Qed.

Lemma length_sub_tile o l cuts (b : bytes) :
  tiles o ((o, l) :: cuts) (length b) -> length (sub o (o + l) b) = l.
Proof using Type. intros (_ & _ & H%tiles_le). rewrite length_sub; lia. Qed.

Lemma take_snoc_sub o l (b : bytes) : take o b ++ sub o (o + l) b = take (o + l) b.
Proof using Type. unfold sub. replace (o + l - o)%nat with l by lia. apply take_take_drop. Qed.

(** A chunk reference that has just been stored. *)
Definition ref_of (c : Chunk) (off : Z) (codec : ChunkCodec) : ChunkRef :=
  {| c_hash := k_hash c; c_offset := off; c_len := k_len c; c_codec := codec |}.

(** ** Storing the chunks of a buffer *)

Definition stats_sum (st : IngestStats) : Z := (chunks_new st + chunks_dedup st) mod (U64_MAX + 1).

Lemma count_chunk_sum b n st :
  chunks_total (count_chunk b n st) = chunks_total st /\
  stats_sum (count_chunk b n st) = (stats_sum st + 1) mod (U64_MAX + 1).
Proof using Type.
  unfold stats_sum. destruct b; simpl; (split; [done|]); unfold wrap64;
    rewrite ?Zplus_mod_idemp_l, ?Zplus_mod_idemp_r; f_equal; lia.
Qed.

Lemma post_ingest_loop b comp cuts o st out s :
  disk_wf R s -> mem_wf R s -> tiles o cuts (length b) ->
  (forall x l, (x, l) ∈ cuts -> Z.of_nat l <= U32_MAX) -> in_play b ->
  layout 0 out (take o b) -> refs_held s out ->
  wp (ingest_loop b comp ((fun ol => cut_chunk b ol.1 ol.2) <$> cuts) st out)
    (post s (fun r s' => layout 0 r.2 b /\ refs_held s' r.2 /\ chunks_total r.1 = chunks_total st /\
       stats_sum r.1 = (stats_sum st + Z.of_nat (length cuts)) mod (U64_MAX + 1))) s.
Proof using Type*.
  revert o st out s. induction cuts as [|[o' l] cuts IH]; intros o st out s Hd Hm Ht Hmax Hplay Hlay Hheld.
  { simpl in Ht. subst o. rewrite firstn_all in Hlay. apply post_ret; [done..|].
    split_and!; [done..|]. simpl. unfold stats_sum. by rewrite Z.add_0_r, Zmod_mod. }
  pose proof Ht as (-> & Hl & Ht'). pose proof (length_sub_tile _ _ _ _ Ht) as Hsl.
  assert (Z.of_nat l <= U32_MAX) as Hl32 by (eapply Hmax; left).
  cbn [fmap list_fmap ingest_loop fst snd cut_chunk k_offset k_len k_hash].
  rewrite wrap32_id by (unfold is_u32; lia). rewrite !Nat2Z.id.
  eapply post_seq; [by apply post_db_read|]. intros present s1 Hd1 Hm1 Hs1 _.
  eapply post_seq; [apply post_put_chunk; [done|done| |split; [by apply in_play_sub|done]]|].
  { unfold len. by rewrite Hsl. }
  intros codec s2 Hd2 Hm2 Hs2 [Hh _].
  assert (safe s s2) as Hs02 by (by etrans).
  eapply post_mono; [apply (IH (o + l)%nat); [done|done|done| |done| |]|].
  - intros x l' Hin. apply (Hmax x). by right.
  - rewrite <- take_snoc_sub. apply layout_snoc; [done..| |].
    + simpl. unfold len. by rewrite Hsl.
    + simpl. unfold len. rewrite length_take, Nat.min_l; [done|]. apply tiles_le in Ht'. lia.
  - apply Forall_app. split; [by eapply refs_held_keeps; [apply sf_keeps|]|].
    apply Forall_singleton. eauto.
  - intros [st' out'] s3 _ (? & ? & Ht2 & Hsum). simpl in *. split_and!; [done..| |].
    + rewrite Ht2. apply count_chunk_sum.
    + rewrite Hsum. destruct (count_chunk_sum present (Z.of_nat l) st) as [_ ->].
      rewrite Zplus_mod_idemp_l. f_equal. lia.
Qed.

Lemma length_tiles o cuts total : tiles o cuts total -> (length cuts + o <= total)%nat.
Proof using Type.
  revert o. induction cuts as [|[o' l] cuts IH]; intros o; simpl; [lia|].
  intros (-> & ? & H%IH). lia.
Qed.

Lemma post_chunk_into_store ck b comp s :
  disk_wf R s -> mem_wf R s -> 1 <= ck_max ck <= U32_MAX -> len b <= U64_MAX -> in_play b ->
  wp (chunk_into_store ck b comp)
    (post s (fun r s' => manifest_of r.2 b /\ refs_held s' (m_chunks r.2) /\
       chunks_total r.1 = Z.of_nat (length (chunk_bytes ck b)) /\
       stats_sum r.1 = chunks_total r.1)) s.
Proof using Type*.
  intros Hd Hm Hmax Hlen Hplay. unfold chunk_into_store. pose proof (cdc_tiles ck b) as Ht.
  assert (Z.of_nat (length (chunk_bytes ck b)) <= U64_MAX) as Hn.
  { unfold chunk_bytes. rewrite length_fmap. apply length_tiles in Ht. unfold len in *. lia. }
  eapply post_seq; [apply (post_ingest_loop b comp _ 0); [done..| |done|done|constructor]|].
  { intros x l Hin. apply cdc_max in Hin; lia. }
  intros [st out] s1 Hd1 Hm1 Hs1 (Hlay & Hheld & Htot & Hsum). simpl in *.
  apply post_ret; [done..|]. split_and!; [by split|done|done|]. simpl.
  rewrite Hsum, Htot. change (stats_sum (no_stats _)) with 0.
  unfold chunk_bytes in *. rewrite length_fmap in *. rewrite Z.mod_small; lia.
Qed.

(** ** The streaming chunker *)

Section reader.
Context {A : Type} (on_chunk : A -> Chunk -> bytes -> M A) (c : Chunker).

(** What the callback keeps true of its variables after the bytes [done]. *)
Context (I : A -> bytes -> Store -> Prop).
Context (I_safe : forall a d s s', safe s s' -> I a d s -> I a d s').
Context (Hmax : 1 <= ck_max c <= U32_MAX).
Context (Hcall : forall a d k slice s, disk_wf R s -> mem_wf R s -> I a d s ->
  len slice <= U32_MAX -> in_play slice -> k_hash k = blake3 slice -> k_len k = len slice ->
  wp (on_chunk a k slice) (post s (fun a' s' => I a' (d ++ slice) s')) s).

Lemma post_emit eof window cuts consumed d a s :
  disk_wf R s -> mem_wf R s -> in_play window -> tiles consumed cuts (length window) ->
  (forall o l, (o, l) ∈ cuts -> Z.of_nat l <= ck_max c) ->
  I a (d ++ take consumed window) s ->
  wp (emit on_chunk c eof window cuts consumed (d ++ take consumed window) a)
    (post s (fun r s' => r.1.2 = d ++ take r.1.1 window /\ (consumed <= r.1.1 <= length window)%nat /\
       I r.2 r.1.2 s' /\ (eof = true -> r.1.1 = length window) /\
       (consumed = 0%nat -> cuts <> [] -> (0 < r.1.1)%nat))) s.
Proof using Type*.
  revert consumed a s. induction cuts as [|[o l] cuts IH]; intros consumed a s Hd Hm Hplay Ht Hcut HI.
  { cbn [emit]. simpl in Ht. apply post_ret; [done..|]. simpl. split_and!; [done|lia..|done|by intros|done]. }
  pose proof Ht as (-> & Hl & Ht'). pose proof (tiles_le _ _ _ Ht') as Hle.
  pose proof (length_sub_tile _ _ _ _ Ht) as Hsl.
  assert (Z.of_nat l <= ck_max c) as Hlm by (eapply Hcut; left). cbn [emit].
  destruct (negb eof && _) eqn:Hb.
  { apply post_ret; [done..|]. apply andb_prop in Hb as [He Hb]. apply Z.ltb_lt in Hb. simpl.
    split_and!; [done|lia..|done| |].
    - by intros ->.
    - intros -> _. simpl in Hb. lia. }
  cbn [cut_chunk]. eapply post_seq.
  { apply (Hcall _ _ _ _ s Hd Hm HI); [unfold len; rewrite Hsl; lia|by apply in_play_sub|done|].
    simpl. unfold len. rewrite Hsl. apply wrap32_id. unfold is_u32. lia. }
  intros a' s1 Hd1 Hm1 Hs1 HI1. rewrite <- app_assoc, take_snoc_sub in *.
  eapply post_mono; [apply IH; [done..| |done]|].
  - intros o' l' Hin. apply (Hcut o'). by right.
  - intros r s2 _ (? & ? & ? & ? & _). split_and!; [done|lia..|done|done|lia].
Qed.

(** What is left to do: bytes to read, bytes to cut, the end to notice. *)
Definition work (eof : bool) (buf rest : bytes) : nat :=
  (2 * length rest + length buf + if eof then 0 else 1)%nat.

Lemma post_top_up eof buf rest s :
  disk_wf R s -> mem_wf R s -> (eof = true -> rest = []) ->
  wp (top_up c eof buf rest)
    (post s (fun r _ => r.1.2 ++ r.2 = buf ++ rest /\ (r.1.1 = true -> r.2 = []) /\
       (work r.1.1 r.1.2 r.2 <= work eof buf rest)%nat /\
       (r.1.1 = false -> Z.of_nat (length r.1.2) < ck_max c ->
          (work r.1.1 r.1.2 r.2 < work eof buf rest)%nat))) s.
Proof using Type*.
  intros Hd Hm Heof. unfold top_up.
  destruct (negb eof && Nat.ltb (length buf) (buffer_cap c)) eqn:Hb.
  2:{ apply post_ret; [done..|]. simpl. split_and!; [done..|]. intros -> Hlt. exfalso.
      simpl in Hb. apply Nat.ltb_ge in Hb. unfold buffer_cap in Hb. lia. }
  apply andb_prop in Hb as [He Hb]. apply negb_true_iff in He. subst eof. apply Nat.ltb_lt in Hb.
  apply wp_bind, wp_gets. eapply post_seq; [apply post_call; [done..|by left]|].
  intros [] s1 Hd1 Hm1 Hs1 _. apply post_ret; [done..|].
  set (k := Nat.min _ _). assert (1 <= k)%nat as Hk by lia. clearbody k.
  cbn [fst snd]. rewrite <- app_assoc, length_take.
  assert (take k rest ++ drop (Nat.min k (length rest)) rest = rest) as E.
  { destruct (decide (k <= length rest)%nat).
    - rewrite Nat.min_l by done. apply take_drop.
    - rewrite Nat.min_r, drop_all, app_nil_r by lia. apply firstn_all2. lia. }
  rewrite E. split; [done|]. unfold work. rewrite length_app, length_take, length_drop.
  destruct (Nat.eqb_spec (Nat.min k (length rest)) 0) as [E0|E0]; (split; [|split]); try done; try lia.
  intros _. apply nil_length_inv. rewrite length_drop. lia.
Qed.

Lemma post_chunk_loop data fuel eof buf rest d a s :
  disk_wf R s -> mem_wf R s -> in_play data -> d ++ buf ++ rest = data -> (eof = true -> rest = []) ->
  (work eof buf rest < fuel)%nat -> I a d s ->
  wp (chunk_loop on_chunk c fuel eof buf rest d a)
    (post s (fun r s' => r.1 = blake3 data /\ I r.2 data s')) s.
Proof using Type*.
  revert eof buf rest d a s.
  induction fuel as [|fuel IH]; intros eof buf rest d a s Hd Hm Hplay Hdata Heof Hfuel HI; [lia|].
  cbn [chunk_loop]. destruct (eof && Nat.eqb (length buf) 0) eqn:Hdone.
  { apply andb_prop in Hdone as [-> Hz]. apply Nat.eqb_eq, nil_length_inv in Hz as ->.
    rewrite (Heof eq_refl), !app_nil_r in Hdata. subst d. by apply post_ret. }
  eapply post_seq; [by apply post_top_up|].
  intros [[eof1 buf1] rest1] s1 Hd1 Hm1 Hs1 (Hcat & Heof1 & Hw & Hw'). cbn [fst snd] in *.
  eapply I_safe in HI; [|exact Hs1]. rewrite <- Hcat in Hdata. clear Hcat Heof Hdone.
  destruct (negb eof1 && _) eqn:Hshort.
  { apply andb_prop in Hshort as [He Hlt]. apply negb_true_iff in He. apply Z.ltb_lt in Hlt.
    specialize (Hw' He Hlt). apply IH; auto. lia. }
  assert (eof1 = false -> ck_max c <= Z.of_nat (length buf1)) as Hlong.
  { intros ->. simpl in Hshort. by apply Z.ltb_ge in Hshort. }
  pose proof (cdc_tiles c buf1) as Ht.
  assert (buf1 <> [] -> fastcdc c buf1 <> []) as Hne.
  { intros Hb E. rewrite E in Ht. simpl in Ht. by destruct buf1. }
  eapply post_seq.
  { assert (in_play buf1) as Hplay1 by (apply (in_play_part d _ rest1); by rewrite Hdata).
    pose proof (post_emit eof1 buf1 (fastcdc c buf1) 0 d a s1 Hd1 Hm1 Hplay1 Ht (fun o l => cdc_max c buf1 o l (proj1 Hmax))) as He.
    rewrite take_0, app_nil_r in He. by apply He. }
  intros [[k d2] a2] s2 Hd2 Hm2 Hs2 (Hd2' & Hk & HI2 & Hkeof & Hk0). cbn [fst snd] in *. subst d2.
  destruct (Nat.eqb_spec k 0) as [->|Hkpos].
  - assert (buf1 = []) as ->. { destruct buf1; [done|]. specialize (Hk0 eq_refl (Hne ltac:(done))). lia. }
    destruct eof1; simpl in *; [|specialize (Hlong eq_refl); lia].
    rewrite (Heof1 eq_refl), app_nil_r in *. subst d. by apply post_ret.
  - apply IH; auto.
    + by rewrite <- app_assoc, (app_assoc (take k buf1)), take_drop.
    + unfold work in *. rewrite length_drop. lia.
Qed.
End reader.

Lemma post_chunk_reader {A} (on_chunk : A -> Chunk -> bytes -> M A) c I data a s :
  (forall a d s s', safe s s' -> I a d s -> I a d s') -> 1 <= ck_max c <= U32_MAX ->
  (forall a d k slice s, disk_wf R s -> mem_wf R s -> I a d s ->
     len slice <= U32_MAX -> in_play slice -> k_hash k = blake3 slice -> k_len k = len slice ->
     wp (on_chunk a k slice) (post s (fun a' s' => I a' (d ++ slice) s')) s) ->
  disk_wf R s -> mem_wf R s -> in_play data -> I a [] s ->
  wp (chunk_reader on_chunk c data a) (post s (fun r s' => r.1 = blake3 data /\ I r.2 data s')) s.
Proof using Type*.
  intros Hsafe Hmax Hcall Hd Hm Hplay HI. unfold chunk_reader.
  eapply post_chunk_loop; eauto; [done|]. unfold work. simpl length. lia.
Qed.

(** The streaming ingest builds a manifest of the very bytes it was given,
    however the reader cuts them up. *)
Lemma post_ingest_reader ck comp data s :
  disk_wf R s -> mem_wf R s -> 1 <= ck_max ck <= U32_MAX -> len data <= U64_MAX -> in_play data ->
  wp (ingest_reader ck comp data)
    (post s (fun m s' => manifest_of m data /\ refs_held s' (m_chunks m))) s.
Proof using Type*.
  intros Hd Hm Hmax Hlen Hplay. unfold ingest_reader.
  set (I := fun (a : list ChunkRef * Z) (d : bytes) (s : Store) =>
    (len d <= U64_MAX -> layout 0 a.1 d) /\ a.2 = wrap64 (len d) /\ refs_held s a.1).
  eapply (post_seq _ _ (fun r s' => r.1 = blake3 data /\ I r.2 data s')).
  - apply post_chunk_reader; [|done| |done|done|done|].
    + intros a d s1 s2 Hs (? & ? & ?). split_and!; [done..|].
      eapply refs_held_keeps; [by apply sf_keeps|done].
    + intros a d k slice s1 Hd1 Hm1 (Hlay & Hoff & Hheld) Hsl Hplays Hh Hl.
      rewrite Hh. eapply post_seq; [by apply post_put_chunk|].
      intros codec s2 Hd2 Hm2 Hs2 [Hp _]. apply post_ret; [done..|]. unfold I. cbn [fst snd].
      assert (len (d ++ slice) = len d + len slice) as Happ by (unfold len; rewrite length_app; lia).
      assert (0 <= len d /\ 0 <= len slice) as [H0 H1] by (unfold len; lia). split_and!.
      * rewrite Happ. intros Hb. apply layout_snoc; [apply Hlay; lia|done|done|]. simpl.
        rewrite Hoff, wrap64_id; [done|unfold is_u64; lia].
      * rewrite Happ, Hoff, Hl. unfold wrap64. apply Zplus_mod_idemp_l.
      * apply Forall_app. split; [|apply Forall_singleton; eauto].
        eapply refs_held_keeps; [by apply sf_keeps|done].
    + split_and!; [done|done|constructor].
  - intros [h a] s1 Hd1 Hm1 Hs1 (Hh & Hlay & Hoff & Hheld). cbn [fst snd] in *.
    apply post_ret; [done..|]. split; [|done]. split; simpl; [by apply Hlay| |done|done].
    rewrite Hoff. apply wrap64_id. unfold is_u64, len in *. lia.
Qed.

(** ** Putting a file together *)

Lemma calm_fetch c : calmly (fetch (TC := TC) (TM := TM) (TS := TS) c).
Proof using Type. unfold fetch. calm_body. Qed.

(** What [fetch] returns is on disk under the digest of the reference and has
    its length; if it is there, only the outside world can make it fail. *)
Lemma wp_fetch c s :
  wp (fetch c)
    (fun r s' => reads s s' /\ match r with
       | Ok b => reads_as s (c_hash c) b /\ len b = c_len c
       | Err x => calm x /\ forall p, reads_as s (c_hash c) p -> len p = c_len c -> env_err x
       end) s.
Proof using Type.
  pose proof (calm_fetch c s) as Hc.
  enough (wp (fetch c) (fun r s' => reads s s' /\ match r with
    | Ok b => reads_as s (c_hash c) b /\ len b = c_len c
    | Err x => forall p, reads_as s (c_hash c) p -> len p = c_len c -> env_err x end) s) as H.
  { unfold wp in *. destruct H as [? H]. split; [done|]. by destruct (fetch c s).1. }
  clear Hc. unfold fetch. eapply wp_seq; [apply wp_get| |].
  2:{ intros x s1 (Hs & _ & Hh). split; [done|]. intros p [?|(y & [= ->] & ?)]%Hh _; done. }
  intros o s1 (Hs & Ho & Hh). apply wp_bind, wp_lift_result.
  2:{ intros e He. split; [done|]. intros p [[= ->]|(y & ? & _)]%Hh _; done. }
  intros b Hb. destruct o as [b'|]; [|done]. injection Hb as ->.
  destruct (Z.eqb_spec (len b) (c_len c)) as [E|E]; [by apply wp_ret|]. apply wp_throw.
  split; [done|]. intros p [[= ->]|(y & ? & _)]%Hh ?; done.
Qed.

Lemma reads_as_hash s h p : reads_as s h p -> blake3 p = h.
Proof using Type. by intros (? & ? & ? & ? & ? & ? & ? & ?). Qed.

(** Every chunk of the list can be read from disk. *)
Definition refs_readable s (cs : list ChunkRef) : Prop :=
  Forall (fun c => exists p, reads_as s (c_hash c) p) cs.

Lemma refs_held_readable s cs : refs_held s cs -> refs_readable s cs.
Proof using Type. intros H. eapply Forall_impl; [exact H|]. intros c (p & Hp). eauto using holds_reads_as. Qed.

(** What can be read is in play: that is so of a well-formed store, and part
    of the assumption on the hash for any other. *)
Definition sound s : Prop := forall h p, reads_as s h p -> in_play p.

Lemma disk_held s h p : disk_wf R s -> reads_as s h p -> holds s h p.
Proof using Type.
  intros Hd Hp. pose proof Hp as (v & loc & f & Hv & Hl & Hf & _ & _).
  destruct (wf_rows _ _ Hd _ _ Hv) as (q & Hq). pose proof (holds_reads_as _ _ _ Hq) as Hq'.
  destruct (reads_as_row _ _ _ _ _ Hp Hv Hl) as (f1 & E1 & D1 & _).
  destruct (reads_as_row _ _ _ _ _ Hq' Hv Hl) as (f2 & E2 & D2 & _).
  by assert (p = q) as -> by congruence.
Qed.

Lemma disk_sound s : disk_wf R s -> sound s.
Proof using Type. intros Hd h p Hp. by destruct (disk_held _ _ _ Hd Hp) as (? & ? & ? & ? & ? & ? & ? & ? & ?). Qed.

(** A chunk is no longer than its locator can say. *)
Lemma holds_len s h p : holds s h p -> len p <= U32_MAX.
Proof using Type.
  clear HR. intros (v & loc & f & _ & Hl & _ & Hf & _). apply decode_locator_inv in Hl as [(_ & _ & Hu & _) _].
  rewrite (fit_len _ _ _ Hf). unfold is_u32 in Hu. lia.
Qed.

Lemma piece_read s c piece :
  sound s -> in_play piece -> (exists p, reads_as s (c_hash c) p) -> c_hash c = blake3 piece -> reads_as s (c_hash c) piece.
Proof using Type.
  intros Hso Hplay (p & Hp) Hh. assert (p = piece) as <-; [|done].
  apply in_play_distinct; [by eapply Hso|done|]. rewrite <- Hh. by eapply reads_as_hash.
Qed.

(** *** The restored file *)

(** A write to a file of the user's, not of the store. *)
Lemma write_file_spec p b s :
  wp (write_file p b)
    (fun r s' => (exists n, s' = with_fs (<[p := default [] (fs s !! p) ++ take n b]> (fs s)) (tick s) /\
       (r = Ok tt -> n = length b)) /\ match r with Ok _ => True | Err x => env_err x end) s.
Proof using Type.
  unfold wp, write_file, env_err. destruct (fate (calls s)); simpl;
    (split; [eexists; by split|auto]).
Qed.

(** The rest of the store is not touched by work on a file. *)
Record same_store s s' : Prop := {
  ss_packs : packs s' = packs s;
  ss_chunks : chunks s' = chunks s;
  ss_manifests : manifests s' = manifests s;
  ss_stats : stats s' = stats s;
  ss_active : active s' = active s;
  ss_rollover : rollover_bytes s' = rollover_bytes s;
  ss_calls : (calls s <= calls s')%nat;
}.

#[export] Instance same_store_preorder : PreOrder same_store.
Proof using Type.
  split; [by split|]. intros s1 s2 s3 [] []. split; try congruence. by eapply Nat.le_trans.
Qed.

Lemma same_fs s s1 f : reads s s1 -> same_store s (with_fs f (tick s1)).
Proof using Type. intros []. split; try done. simpl. by apply Nat.le_le_succ_r. Qed.

Lemma reads_same s s' : reads s s' -> same_store s s'.
Proof using Type. intros []. by split. Qed.

Lemma same_keeps s s' : same_store s s' -> keeps s s'.
Proof using Type. intros [E1 E2] h p. unfold holds. by rewrite E1, E2. Qed.

Lemma same_readable s s' cs : same_store s s' -> refs_readable s' cs <-> refs_readable s cs.
Proof using Type. intros [E1 E2]. unfold refs_readable, reads_as. by rewrite E1, E2. Qed.

Lemma same_sound s s' : same_store s s' -> sound s -> sound s'.
Proof using Type. intros [E1 E2] H h p. unfold reads_as. rewrite E1, E2. apply H. Qed.

Lemma fetched s c b piece :
  sound s -> in_play piece -> c_hash c = blake3 piece -> reads_as s (c_hash c) b -> b = piece.
Proof using Type.
  intros Hso Hplay Hh Hb. apply in_play_distinct; [by eapply Hso|done|].
  rewrite <- Hh. by eapply reads_as_hash.
Qed.

Definition other_files (dst : path) s s' : Prop := forall q, q <> dst -> fs s' !! q = fs s !! q.

Lemma wp_write_chunks dst cs off data done_ s :
  sound s -> in_play data -> layout off cs data -> fs s !! dst = Some done_ ->
  wp (write_chunks dst cs)
    (fun r s' => same_store s s' /\ other_files dst s s' /\ match r with
       | Ok _ => fs s' !! dst = Some (done_ ++ data)
       | Err x => refs_readable s cs -> env_err x
       end) s.
Proof using Type.
  revert off data done_ s. induction cs as [|c cs IH]; intros off data done_ s Hso Hplay Hlay Hdst; cbn [write_chunks].
  { simpl in Hlay. subst data. apply wp_ret. rewrite app_nil_r. by split_and!. }
  simpl in Hlay. destruct Hlay as (piece & rest & -> & Hh & Hl & Ho & Hlay).
  pose proof (in_play_prefix _ _ Hplay) as Hpp. apply in_play_suffix in Hplay.
  eapply wp_seq; [apply wp_fetch| |].
  2:{ intros x s1 [Hs1 Hx]. split_and!; [by apply reads_same| |].
      - intros q _. by rewrite (rd_fs _ _ Hs1).
      - intros [Hp _]%Forall_cons. apply (proj2 Hx piece); [by eapply piece_read|done]. }
  intros b s1 [Hs1 [Hb _]]. apply (fetched _ _ _ piece) in Hb as ->; [|done..].
  eapply wp_seq; [apply write_file_spec| |].
  - intros [] s2 [(n & -> & Hn) _]. rewrite (Hn eq_refl), (rd_fs _ _ Hs1), Hdst, firstn_all. simpl.
    set (s2 := with_fs _ _).
    assert (same_store s s2) as Hs2 by (by apply same_fs).
    assert (other_files dst s s2) as Hot.
    { intros q Hq. simpl. by rewrite lookup_insert_ne. }
    eapply wp_mono; [by apply (IH (off + len piece) rest (done_ ++ piece)); [by eapply same_sound| | |apply lookup_insert_eq]|].
    intros r s3 (Hs3 & Hot3 & Hr). split_and!; [by etrans| |].
    + intros q Hq. by rewrite Hot3, Hot.
    + destruct r as [[]|x]; [by rewrite app_assoc|]. intros [_ Hheld]%Forall_cons. apply Hr.
      by apply (same_readable s).
  - intros x s2 [(n & -> & _) Hx]. split_and!; [by apply same_fs| |done].
    intros q Hq. simpl. by rewrite lookup_insert_ne, (rd_fs _ _ Hs1).
Qed.

(** Restoring a manifest of [data] writes exactly [data] or reports an error,
    whatever is on disk; nothing but the destination changes; and when the
    store holds the chunks only the outside world can make it fail. *)
Lemma wp_materialise_file m data dst s :
  manifest_of m data -> sound s ->
  wp (materialise_file m dst)
    (fun r s' => same_store s s' /\ other_files dst s s' /\ match r with
       | Ok _ => fs s' !! dst = Some data
       | Err x => refs_readable s (m_chunks m) -> env_err x
       end) s.
Proof using Type.
  intros [Hlay _ _ Hplay] Hso. unfold materialise_file, create_file. apply wp_bind, wp_bind, wp_call; [by left| |].
  2:{ intros x s1 Hs1 Hx. split_and!; [by apply reads_same| |done]. intros q _. by rewrite (rd_fs _ _ Hs1). }
  intros s1 Hs1. apply wp_bind, wp_gets. destruct (blocked (fs s1) dst) eqn:Hbl.
  { apply wp_throw. split_and!; [by apply reads_same|intros q _; by rewrite (rd_fs _ _ Hs1)|by left]. }
  apply wp_modify. set (s2 := with_fs _ s1).
  assert (same_store s s2) as Hs2 by (by destruct Hs1).
  assert (other_files dst s s2) as Hot.
  { intros q Hq. simpl. by rewrite lookup_insert_ne, (rd_fs _ _ Hs1). }
  eapply wp_seq; [eapply (wp_write_chunks _ _ 0 data []); [by eapply same_sound|done|done|apply lookup_insert_eq]| |].
  - intros [] s3 (Hs3 & Hot3 & Hdst). apply wp_call; [by left| |].
    + intros s4 Hs4. split_and!; [etrans; [done|]; etrans; [done|by apply reads_same]| |].
      * intros q Hq. by rewrite (rd_fs _ _ Hs4), Hot3, Hot.
      * by rewrite (rd_fs _ _ Hs4).
    + intros x s4 Hs4 Hx. split_and!; [etrans; [done|]; etrans; [done|by apply reads_same]| |done].
      intros q Hq. by rewrite (rd_fs _ _ Hs4), Hot3, Hot.
  - intros x s3 (Hs3 & Hot3 & Hx). split_and!; [by etrans| |].
    + intros q Hq. by rewrite Hot3, Hot.
    + intros Hheld. apply Hx. by apply (same_readable s).
Qed.

(** ** Reading a range *)

(** The part of [data], which starts at [off], between [offset] and [stop]. *)
Definition segment (offset stop off : Z) (data : bytes) : bytes :=
  take (Z.to_nat (stop - Z.max offset off)) (drop (Z.to_nat (offset - off)) data).

Lemma segment_skip offset stop off piece rest :
  off + len piece <= offset \/ stop <= off ->
  segment offset stop off (piece ++ rest) = segment offset stop (off + len piece) rest.
Proof using Type.
  clear HR. unfold segment, len. intros [H|H].
  - rewrite drop_app_ge by lia. f_equal; [lia|]. f_equal. lia.
  - replace (Z.to_nat (stop - Z.max offset off)) with O by lia.
    replace (Z.to_nat (stop - _)) with O by lia. done.
Qed.

Lemma segment_take offset stop off piece rest (from := Z.max offset off - off)
    (to := Z.min stop (off + len piece) - off) :
  offset < off + len piece -> off < stop -> offset < stop ->
  0 <= from <= to /\ to <= len piece /\
  segment offset stop off (piece ++ rest) =
    sub (Z.to_nat from) (Z.to_nat to) piece ++ segment offset stop (off + len piece) rest.
Proof using Type.
  clear HR. subst from to. unfold segment, sub, len. intros H1 H2 H3. split; [lia|]. split; [lia|].
  rewrite drop_app_le by lia. rewrite take_app.
  rewrite length_drop. f_equal.
  - replace (Z.to_nat (Z.max offset off - off)) with (Z.to_nat (offset - off)) by lia.
    destruct (decide (stop <= off + Z.of_nat (length piece))).
    + f_equal. lia.
    + rewrite !firstn_all2; [done|rewrite length_drop; lia..].
  - replace (Z.to_nat (offset - (off + Z.of_nat (length piece)))) with O by lia.
    rewrite drop_0. f_equal. lia.
Qed.

Lemma wp_range_chunks offset stop cs off data out s :
  sound s -> in_play data -> layout off cs data -> 0 <= off -> off + len data <= U64_MAX -> 0 <= offset -> offset < stop ->
  wp (range_chunks offset stop cs out)
    (fun r s' => reads s s' /\ match r with
       | Ok b => b = out ++ segment offset stop off data
       | Err x => calm x /\ (refs_readable s cs -> env_err x)
       end) s.
Proof using Type.
  clear HR. revert off data out s. induction cs as [|c cs IH]; intros off data out s Hso Hplay Hlay Hoff Hend Ho Hstop;
    cbn [range_chunks].
  { simpl in Hlay. subst data. apply wp_ret. split; [done|]. unfold segment.
    by rewrite drop_nil, take_nil, app_nil_r. }
  simpl in Hlay. destruct Hlay as (piece & rest & -> & Hh & Hl & Hco & Hlay).
  pose proof (in_play_prefix _ _ Hplay) as Hpp. apply in_play_suffix in Hplay.
  assert (len (piece ++ rest) = len piece + len rest) as Happ by (unfold len; rewrite length_app; lia).
  assert (0 <= len piece /\ 0 <= len rest) as [Hp0 Hr0] by (unfold len; lia).
  rewrite Hco, Hl, wrap64_id by (unfold is_u64; lia).
  assert (forall out' s0, sound s0 -> wp (range_chunks offset stop cs out') (fun r s' => reads s0 s' /\ match r with
    | Ok b => b = out' ++ segment offset stop (off + len piece) rest
    | Err x => calm x /\ (refs_readable s0 cs -> env_err x) end) s0) as IH'.
  { intros out' s0 Hso'. apply IH; [done|done|done|lia..]. }
  clear IH. destruct (Z.leb_spec (off + len piece) offset) as [H1|H1]; [|destruct (Z.leb_spec stop off) as [H2|H2]].
  1,2: cbn [orb]; rewrite segment_skip by lia; eapply wp_mono; [by apply IH'|];
    intros r s1 [Hs1 Hr]; (split; [done|]); destruct r; [done|];
    destruct Hr as [? Hr]; (split; [done|]); intros [_ ?]%Forall_cons; auto.
  cbn [orb]. destruct (segment_take offset stop off piece rest H1 H2 Hstop) as (Hft & Hto & ->).
  eapply wp_seq; [apply wp_fetch| |].
  2:{ intros x s1 (Hs1 & Hc & Hx). split; [done|]. split; [done|].
      intros [Hp _]%Forall_cons. apply (Hx piece); [by eapply piece_read|done]. }
  intros b s1 [Hs1 [Hb _]]. apply (fetched _ _ _ piece) in Hb as ->; [|done..].
  unfold slice. rewrite !(proj2 (Z.leb_le _ _)) by lia. cbn [andb]. apply wp_bind, wp_ret.
  eapply wp_mono; [apply IH'; by eapply same_sound, Hso; apply reads_same|]. intros r s2 [Hs2 Hr]. split; [by etrans|].
  destruct r as [b|x]; [by rewrite Hr, app_assoc|]. destruct Hr as [? Hr]. split; [done|].
  intros [_ Hheld]%Forall_cons. apply Hr. by apply (same_readable s); [apply reads_same|].
Qed.

(** A range read of a manifest of [data] returns that range of [data], cut at
    the end of the file; it does not panic as long as the end of the range
    does not overflow. *)
Lemma wp_materialise_range m data offset n s :
  manifest_of m data -> sound s -> len data <= ISIZE_MAX -> 0 <= offset -> 0 <= n -> offset + n <= U64_MAX ->
  wp (materialise_range m offset n)
    (fun r s' => reads s s' /\ match r with
       | Ok b => b = take (Z.to_nat n) (drop (Z.to_nat offset) data)
       | Err x => calm x /\ (refs_readable s (m_chunks m) -> env_err x)
       end) s.
Proof using Type.
  clear HR. intros [Hlay Hsize _ Hplay] Hso Hlen Ho Hn Hend. unfold materialise_range, ISIZE_MAX in *. rewrite Hsize.
  destruct (Z.eqb_spec n 0) as [->|Hn0]; [by apply wp_ret|].
  destruct (Z.leb_spec (len data) offset) as [Hle|Hlt]; cbn [orb].
  { apply wp_ret. split; [done|]. rewrite drop_ge by (unfold len in *; lia). by rewrite take_nil. }
  rewrite (wrap64_id (offset + n)) by (unfold is_u64; lia).
  rewrite wrap64_id by (unfold is_u64, U64_MAX; lia).
  destruct (Z.ltb_spec 9223372036854775807 (Z.min (offset + n) (len data) - offset)); [lia|].
  eapply wp_mono; [apply (wp_range_chunks _ _ _ 0 data []); [done|done|done|unfold U64_MAX; lia..]|].
  intros r s1 [Hs1 Hr]. split; [done|]. destruct r as [b|x]; [|done]. rewrite Hr. simpl.
  unfold segment, len in *. rewrite Z.sub_0_r, Z.max_l by lia.
  destruct (decide (offset + n <= Z.of_nat (length data))).
  - f_equal. lia.
  - rewrite !firstn_all2; [done|rewrite length_drop; lia..].
Qed.

(** *** The overflow the length check misses: the end of the range wraps
    around, the size of the buffer underflows, and the allocation panics. *)
Lemma materialise_range_overflow m offset n s :
  0 <= offset < m_size m -> m_size m <= 2 ^ 32 -> offset + n = U64_MAX + 1 ->
  offset <> 0 -> n <> 0 ->
  materialise_range m offset n s = (Err XPanic, s).
Proof using Type.
  clear HR. intros Ho Hs Hn H0 Hn0. unfold materialise_range.
  rewrite (proj2 (Z.eqb_neq n 0)) by done. rewrite (proj2 (Z.leb_gt _ _)) by lia. cbn [orb].
  rewrite Hn. change (wrap64 (U64_MAX + 1)) with 0. rewrite Z.min_l by lia.
  assert (wrap64 (0 - offset) = U64_MAX + 1 - offset) as ->.
  { unfold wrap64. symmetry. apply Zmod_unique with (-1); unfold U64_MAX in *; lia. }
  rewrite (proj2 (Z.ltb_lt _ _)); [done|]. unfold ISIZE_MAX, U64_MAX in *. lia.
Qed.

(** ** The delta of a retry *)

(** The plan keeps the order of the new manifest and drops exactly the chunks
    the old one has. *)
Lemma delta_plan_spec old new :
  delta_plan old new `sublist_of` m_chunks new /\
  forall c, c ∈ delta_plan old new <-> c ∈ m_chunks new /\ c_hash c ∉ (c_hash <$> m_chunks old).
Proof using Type.
  clear HR. unfold delta_plan. split; [apply sublist_filter|].
  intros c. rewrite list_elem_of_filter. naive_solver.
Qed.
End safety.

(** * The chunk store: who is to blame for an error

    The contracts of [ChunkFileSafety] leave an operation free to fail with an
    error of the outside world.  Here: it does so only when one of the calls it
    made did not work, or when a directory stands in the way of the file it
    creates. *)

Create HintDb blame.

Section blame.
Context {TC TM TS : Type} {kle : bytes -> bytes -> Prop}.
Context {TBC : Table bytes bytes TC kle} {TBM : Table string bytes TM String.le}.
Context {TBS : Table string bytes TS String.le} {CM : Codec Manifest bytes}.
Context {B3 : Blake3} {ZS : Zstd} {EN : ChunkWorld}.
Local Abbreviation Store := (Store TC TM TS).
Local Abbreviation M := (@M TC TM TS).
Implicit Types s : Store.

(** One of the calls made on the way from [s] to [s'] did not work. *)
Definition trouble s s' : Prop := exists i, (calls s <= i < calls s')%nat /\ fate i <> Works.

(** No row of the index is malformed. *)
Definition decodable s : Prop :=
  forall h v, tbl_get h (chunks s) = Some v -> exists loc, decode_locator v = Ok loc.

(** [m] leaves the index alone and is not itself the cause of such an error. *)
Definition blames {A} (m : M A) : Prop := forall s, decodable s ->
  (calls s <= calls (m s).2)%nat /\ chunks (m s).2 = chunks s /\
  match (m s).1 with Err x => env_err x -> trouble s (m s).2 | Ok _ => True end.

Lemma trouble_mono s1 s2 s3 s4 :
  (calls s1 <= calls s2)%nat -> (calls s3 <= calls s4)%nat -> trouble s2 s3 -> trouble s1 s4.
Proof using Type. intros ?? (i & ? & ?). exists i. split; [lia|done]. Qed.

Lemma blames_ret {A} (a : A) : blames (ret a).
Proof using Type. by intros s _. Qed.

Lemma blames_gets {A} (f : Store -> A) : blames (gets f).
Proof using Type. by intros s _. Qed.

Definition own_err (e : ChunkStoreError) : Prop := e <> CIo /\ e <> CRedb.

Lemma own_not_env e : own_err e -> ~ env_err (XErr e).
Proof using Type. intros [? ?] [[= ->]|[[= ->]|?]]; done. Qed.

Lemma blames_fail {A} e : own_err e -> blames (fail (A := A) e).
Proof using Type. intros He s _. split; [done|]. split; [done|]. simpl. by intros ?%own_not_env. Qed.

Lemma blames_lift {A} (r : result ChunkStoreError A) : (forall e, r = Err e -> own_err e) -> blames (lift_result r).
Proof using Type. destruct r as [a|e]; intros H; [apply blames_ret|by apply blames_fail, H]. Qed.

Lemma blames_bind {A B} (m : M A) (f : A -> M B) : blames m -> (forall a, blames (f a)) -> blames (bind m f).
Proof using Type.
  intros Hm Hf s Hd. specialize (Hm s Hd). unfold bind. destruct (m s) as [[a|x] s1]; simpl in *; [|done].
  destruct Hm as (Hc & E & _). assert (decodable s1) as Hd1 by (unfold decodable; by rewrite E).
  destruct (Hf a s1 Hd1) as (Hc1 & E1 & H1).
  destruct (f a s1) as [[b|x] s2]; simpl in *; (split; [lia|split; [congruence|]]); [done|].
  intros Hx. by eapply (trouble_mono s s1 s2 s2), H1.
Qed.

Lemma blames_call e : blames (call e).
Proof using Type.
  intros s _. unfold call. destruct (fate (calls s)) eqn:E; simpl; (split; [lia|]); try done; (split; [done|]);
    intros _; (exists (calls s); split; [simpl; lia|by rewrite E]).
Qed.

Lemma blames_write_file p b : blames (write_file p b).
Proof using Type.
  intros s _. unfold write_file. destruct (fate (calls s)) eqn:E; simpl; (split; [lia|]); try done; (split; [done|]);
    intros _; (exists (calls s); split; [simpl; lia|by rewrite E]).
Qed.

Lemma blames_locate h : blames (locate h).
Proof using Type.
  intros s Hd. unfold locate, db_read, bind, gets.
  pose proof (blames_call CRedb s Hd) as Hc. destruct (call CRedb s) as [[[]|x] s1]; simpl in *; [|done].
  destruct Hc as (Hc & E & _). rewrite E. destruct (tbl_get h (chunks s)) as [v|] eqn:Hv; [|done].
  destruct (Hd _ _ Hv) as (loc & ->). done.
Qed.
End blame.

#[export] Hint Resolve blames_ret blames_gets blames_call blames_write_file blames_locate : blame.

(** Walk through a body made of calls. *)
Ltac blame_body :=
  repeat first
    [ progress eauto with blame nocore
    | apply blames_bind; [|intros ?]
    | apply blames_fail; split; done
    | apply blames_lift; intros ? ?
    | match goal with |- blames (match ?x with _ => _ end) => destruct x end
    | match goal with |- blames (if ?b then _ else _) => destruct b end ].

Lemma env_err_or x : env_err x \/ ~ env_err x.
Proof. unfold env_err. destruct x as [[]| | |]; auto; right; by intros [?|[?|?]]. Qed.

Section file.
Context {TC TM TS : Type} {kle : bytes -> bytes -> Prop}.
Context {TBC : Table bytes bytes TC kle} {TBM : Table string bytes TM String.le}.
Context {TBS : Table string bytes TS String.le} {CM : Codec Manifest bytes}.
Context {B3 : Blake3} {ZS : Zstd} {EN : ChunkWorld}.
Local Abbreviation Store := (Store TC TM TS).
Local Abbreviation M := (@M TC TM TS).
Implicit Types s : Store.

Lemma blames_fill fuel rest filled want : blames (fill (TC := TC) (TM := TM) (TS := TS) fuel rest filled want).
Proof using Type.
  revert rest filled. induction fuel as [|fuel IH]; intros rest filled; cbn [fill]; blame_body.
Qed.
#[local] Hint Resolve blames_fill : blame.

Lemma own_ok_or {A} (o : option A) e e' : own_err e -> ok_or o e = Err e' -> own_err e'.
Proof using Type. destruct o; [done|]. by intros ? [= <-]. Qed.

Lemma blames_get h : blames (get (TC := TC) (TM := TM) (TS := TS) h).
Proof using Type.
  unfold get, get_range. blame_body; (eapply own_ok_or; [|done]; done).
Qed.
#[local] Hint Resolve blames_get : blame.

Lemma blames_fetch c : blames (fetch (TC := TC) (TM := TM) (TS := TS) c).
Proof using Type.
  unfold fetch. blame_body; (eapply own_ok_or; [|done]; done).
Qed.
#[local] Hint Resolve blames_fetch : blame.

Lemma blames_write_chunks dst cs : blames (write_chunks (TC := TC) (TM := TM) (TS := TS) dst cs).
Proof using Type. induction cs as [|c cs IH]; cbn [write_chunks]; blame_body. Qed.

(** A restore that fails with an error of the outside world had a call fail, or
    found something in the place of its file. *)
Lemma materialise_blames m dst s :
  decodable s ->
  match (materialise_file m dst s).1 with
  | Err x => env_err x -> blocked (fs s) dst = true \/ trouble s (materialise_file m dst s).2
  | Ok _ => True
  end.
Proof using Type.
  intros Hd. unfold materialise_file, create_file, bind, gets.
  pose proof (blames_call CIo s Hd) as Hc.
  assert (fs (call CIo s).2 = fs s) as Hfs by (unfold call; by destruct (fate (calls s))).
  destruct (call CIo s) as [[[]|x] s1]; simpl in *; [|by right; apply Hc].
  rewrite Hfs. destruct (blocked (fs s) dst); [by left|]. destruct Hc as (Hc & E & _). simpl.
  set (s2 := with_fs _ s1). assert (decodable s2) as Hd2 by (unfold decodable; simpl; by rewrite E).
  assert (blames (write_chunks (TC := TC) (TM := TM) (TS := TS) dst (m_chunks m) ;; call CIo)) as Hb.
  { apply blames_bind; [apply blames_write_chunks|intros []; apply blames_call]. }
  specialize (Hb s2 Hd2). unfold bind in Hb.
  destruct (write_chunks dst (m_chunks m) s2) as [[[]|y] s3]; simpl in *;
    [destruct (call CIo s3) as [[[]|y] s4]; simpl in *; [done|]|];
    (intros Hx; right; destruct Hb as (_ & _ & Hb); eapply (trouble_mono s s2); [exact Hc|reflexivity|by apply Hb]).
Qed.
End file.
