(* ===== verification/Repository.v ===== *)
(** * The snapshot repository ([freally-chunk]: [repository.rs])

    A chunk store and, in a second database, the catalog of snapshots, their
    summaries and the id allocator.  The mutators hold a shared lease and the
    collector an exclusive one, so operations are modelled one at a time;
    every outside call in them is one of [ChunkStore]'s. *)
From S2P Require Import Prelude.
From S2P Require Import Text.
From S2P Require Import Files.
From S2P Require Import Monad.
From S2P Require Import Table.
From S2P Require Import Versioning.
From S2P Require Import ChunkTypes.
From S2P Require Import ChunkStore.
From S2P Require Import ChunkFile.
From stdpp Require Import pretty options.
Open Scope Z_scope.
Open Scope monad_scope.

Definition SEQ_NEXT_SNAPSHOT_ID : string := "next-snapshot-id".

Inductive SnapshotKind := KCopy | KSync | KVersion | KBackup.

#[export] Instance kind_eq_dec : EqDecision SnapshotKind.
Proof. solve_decision. Defined.

Record FileEntry := { fe_path : string; fe_manifest : Manifest }.

Record Snapshot := {
  sn_id : Z;
  sn_kind : SnapshotKind;
  sn_created : Z;
  sn_label : string;
  sn_source_key : option string;
  sn_description : string;
  sn_tags : list string;
  sn_pinned : bool;
  sn_source : string;
  sn_files : list FileEntry;
}.

Record UnifiedSnapshot := {
  us_id : Z;
  us_kind : SnapshotKind;
  us_created : Z;
  us_label : string;
  us_source_key : option string;
  us_description : string;
  us_tags : list string;
  us_pinned : bool;
  us_file_count : Z;
  us_total_size : Z;
  us_source : string;
}.

Definition snap_refs (s : Snapshot) : list ChunkRef := f ← sn_files s; m_chunks (fe_manifest f).

Definition distinct_chunks (s : Snapshot) : gset Blake3Hash := list_to_set (c_hash <$> snap_refs s).

Definition sum64 (l : list Z) : Z := foldr (fun x a => wrap64 (x + a)) 0 l.

Definition total_size (s : Snapshot) : Z := sum64 ((fun f => m_size (fe_manifest f)) <$> sn_files s).

Definition summary (s : Snapshot) : UnifiedSnapshot :=
  {| us_id := sn_id s; us_kind := sn_kind s; us_created := sn_created s; us_label := sn_label s;
     us_source_key := sn_source_key s; us_description := sn_description s; us_tags := sn_tags s;
     us_pinned := sn_pinned s; us_file_count := Z.of_nat (length (sn_files s));
     us_total_size := total_size s; us_source := sn_source s |}.

(** ** Paths *)

(** [p.split(['/', '\\']).filter(|s| !s.is_empty())] *)
Definition path_parts (p : string) : list string := filter (fun x => x <> "") (split_on "/" (to_slashes p)).

(** The directories two files share; the last part of [p] is its name. *)
Fixpoint common_dirs (prefix p : list string) : list string :=
  match prefix, p with
  | x :: prefix, y :: (_ :: _) as p => if String.eqb x y then x :: common_dirs prefix p else []
  | _, _ => []
  end.

Definition compute_source (s : Snapshot) : string :=
  match sn_files s with
  | [] => sn_label s
  | first :: files =>
      let prefix := removelast (path_parts (fe_path first)) in
      match foldl (fun pre f => common_dirs pre (path_parts (fe_path f))) prefix files with
      | [] => sn_label s
      | pre => "/" +:+ str_join "/" pre
      end
  end.

(** [Path::components] of a Unix path, and [Path::file_name]. *)
Inductive Component := RootDir | CurDir | ParentDir | Normal (c : string).

Definition component_of (x : string) : Component :=
  if String.eqb x "." then CurDir else if String.eqb x ".." then ParentDir else Normal x.

Definition components (p : string) : list Component :=
  (if String.prefix "/" p then [RootDir] else []) ++
  (component_of <$> filter (fun x => x <> "") (split_on "/" p)).

Definition file_name (p : string) : option string :=
  match last (components p) with Some (Normal c) => Some c | _ => None end.

Fixpoint safe_components (l : list Component) : option (list string) :=
  match l with
  | [] => Some []
  | Normal c :: l => rest ← safe_components l; Some (c :: rest)
  | ParentDir :: _ => None
  | (RootDir | CurDir) :: l => safe_components l
  end.

Definition strip_at_boundary (p prefix : string) : string :=
  match str_strip_prefix prefix p with
  | Some EmptyString => EmptyString
  | Some (String c rest) => if Ascii.eqb c "/" || Ascii.eqb c "\" then rest else p
  | None => p
  end.

Definition rel_dst (p : string) (strip_prefix : option string) : option path :=
  if contains_char (ascii_of_nat 0) p then None
  else
    let stripped :=
      match strip_prefix with
      | Some prefix => if String.eqb prefix "" then p else strip_at_boundary p prefix
      | None => p
      end in
    let norm := to_slashes stripped in
    rel ← safe_components (components norm);
    match rel with
    | [] => name ← file_name norm; Some [name]
    | _ => Some rel
    end.

Definition suffixed (stem : string) (ext : option string) (n : N) : string :=
  match ext with
  | Some e => stem +:+ " (" +:+ pretty n +:+ ")." +:+ e
  | None => stem +:+ " (" +:+ pretty n +:+ ")"
  end.

(** Some name on disk: a file, or a directory on the way to one. *)
Definition path_exists (files : gmap path bytes) (p : path) : bool :=
  existsb (fun q => path_starts_with q p) (map_to_list files).*1.

Definition next_free_name (files : gmap path bytes) (target : path) : path :=
  if negb (path_exists files target) then target
  else
    let dir := default [] (parent target) in
    let '(stem, ext) :=
      match last target with Some name => stem_ext name | None => ("restored", None) end in
    match first_from (fun cand => negb (path_exists files cand))
            (fun n => dir ++ [suffixed stem ext n]) 1%N (N.to_nat 9999) with
    | Some cand => cand
    | None => target
    end.

(** ** Reports and options *)

Record GcReport := { chunks_swept : Z; packs_removed : Z; bytes_reclaimed : Z }.
Record CompactReport := { packs_compacted : Z; chunks_moved : Z; compact_reclaimed : Z }.
Record PruneReport := { snapshots_removed : Z; prune_swept : Z; prune_reclaimed : Z }.
Record ReplicateReport := {
  snapshots_copied : Z; snapshots_skipped : Z; chunks_copied : Z; chunks_present : Z; bytes_copied : Z;
}.
Record PrunePolicy := { keep_last : option Z; keep_within_ms : option Z }.

(** The comparison [dead as f64 >= file_bytes as f64 * min_dead_ratio] of the
    pack's dead and total bytes, which floating point decides. *)
Record CompactOptions := { dead_enough : Z -> Z -> bool }.

Inductive VerifyLevel := Metadata | ReadData.
Inductive DamageKind := Missing | Corrupt | FileHashMismatch.
Record VerifyDamage := {
  dm_snapshot : Z; dm_path : string; dm_chunk : string; dm_kind : DamageKind;
}.
Record VerifyReport := {
  snapshots_checked : Z; files_checked : Z; chunks_checked : Z; damage : list VerifyDamage;
}.
Definition is_clean (r : VerifyReport) : bool := match damage r with [] => true | _ => false end.

Record SourceSummary := {
  ss_source : string; ss_count : Z; ss_latest_ms : Z; ss_latest_kind : SnapshotKind;
  ss_latest_size : Z; ss_total_files : Z;
}.
Record FileSnapshot := {
  fs_path : string; fs_snapshot_id : Z; fs_kind : SnapshotKind; fs_created : Z; fs_manifest : Manifest;
}.
Record RepoStats := {
  stored_bytes : Z; unique_bytes : Z; physical_unique_bytes : Z; effective_bytes : Z;
  snapshot_count : Z; chunk_count_s : Z;
}.
Inductive RestoreConflict := Overwrite | Skip | KeepBoth.
Record RestoreReport := { restored : Z; skipped : Z; rs_failed : Z }.
Record SourceSnapshotSummary := { sum_id : Z; sum_files : Z; sum_bytes : Z; skipped_non_regular : Z }.

(** What the walk of [snapshot_source] meets. *)
Inductive Node :=
| NFile (content : bytes)
| NDir (readable : bool) (entries : list (string * Node))
| NSymlink
| NSpecial.

(** ** The repository *)

Section repository.
Context {TC TM TS TN TQ : Type} {kle : bytes -> bytes -> Prop}.
Context {TBC : Table bytes bytes TC kle} {TBM : Table string bytes TM String.le}.
Context {TBS : Table string bytes TS String.le}.
Context {TBN : Table Z bytes TN Z.le} {TBQ : Table string Z TQ String.le}.
Context {CM : Codec Manifest bytes} {CS : Codec Snapshot bytes} {CU : Codec UnifiedSnapshot bytes}.
Context {B3 : Blake3} {ZS : Zstd} {EN : ChunkWorld} {FC : FastCdc}.
Local Abbreviation Store := (Store TC TM TS).
Local Abbreviation M := (@M TC TM TS).

Record Repo := {
  store : Store;
  t_snapshots : TN;
  t_summaries : TN;
  t_seq : TQ;
  compression : RepoCompression;
}.

Definition set_store (s : Store) (r : Repo) : Repo :=
  {| store := s; t_snapshots := t_snapshots r; t_summaries := t_summaries r; t_seq := t_seq r;
     compression := compression r |}.
Definition set_catalog (a b : TN) (r : Repo) : Repo :=
  {| store := store r; t_snapshots := a; t_summaries := b; t_seq := t_seq r;
     compression := compression r |}.
Definition set_seq (q : TQ) (r : Repo) : Repo :=
  {| store := store r; t_snapshots := t_snapshots r; t_summaries := t_summaries r; t_seq := q;
     compression := compression r |}.
Definition set_compression (c : RepoCompression) (r : Repo) : Repo :=
  {| store := store r; t_snapshots := t_snapshots r; t_summaries := t_summaries r; t_seq := t_seq r;
     compression := c |}.

Definition RM (A : Type) : Type := SM Repo Exn A.

(** Run an operation of the chunk store. *)
Definition on_store {A} (m : M A) : RM A := fun r =>
  let '(x, s) := m (store r) in (x, set_store s r).

Definition rfail {A} (e : ChunkStoreError) : RM A := throw (XErr e).
Definition rlift {A} (x : result ChunkStoreError A) : RM A := on_store (lift_result x).

(** Transactions of [repository.redb]. *)
Definition repo_read {A} (f : Repo -> A) : RM A := on_store (call CRedb) ;; gets f.
Definition repo_write (f : Repo -> Repo) : RM unit := on_store (call CRedb) ;; modify f.

(** [with_store]: open the catalog over an open chunk store. *)
Definition open_repo (rollover : Z) (comp : RepoCompression) : RM unit :=
  on_store (open_with_rollover rollover) ;;
  on_store (call CRedb) ;; on_store (call CRedb) ;;
  modify (set_compression comp).

(** *** Reading the catalog *)

Fixpoint decode_rows {A} `{!Codec A bytes} (rows : list (Z * bytes)) : result ChunkStoreError (list A) :=
  match rows with
  | [] => Ok []
  | (_, v) :: rows =>
      let? x := ok_or (dec v) CManifest in
      let? out := decode_rows rows in
      Ok (x :: out)
  end.

Definition load_all_snapshots : RM (list Snapshot) :=
  let! rows := repo_read (fun r => tbl_iter (t_snapshots r)) in
  rlift (decode_rows rows).

Definition snapshot (id : Z) : RM (option Snapshot) :=
  let! v := repo_read (fun r => tbl_get id (t_snapshots r)) in
  match v with
  | None => ret None
  | Some v => let! s := rlift (ok_or (dec v) CManifest) in ret (Some s)
  end.

Definition older_first (a b : UnifiedSnapshot) : bool :=
  (us_created a <? us_created b) || ((us_created a =? us_created b) && (us_id a <=? us_id b)).

Definition snapshots : RM (list UnifiedSnapshot) :=
  let! rows := repo_read (fun r => tbl_iter (t_summaries r)) in
  let! l := rlift (decode_rows rows) in
  ret (sort_by older_first l).

(** *** Recording *)

Definition allocate_snapshot_id : RM Z :=
  let! next := gets (fun r => default 1 (tbl_get SEQ_NEXT_SNAPSHOT_ID (t_seq r))) in
  repo_write (fun r => set_seq (tbl_insert SEQ_NEXT_SNAPSHOT_ID (wrap64 (next + 1)) (t_seq r)) r) ;;
  ret next.

(** The row and its summary in one transaction. *)
Definition insert_rows (s : Snapshot) : RM unit :=
  repo_write (fun r => set_catalog (tbl_insert (sn_id s) (enc s) (t_snapshots r))
                                   (tbl_insert (sn_id s) (enc (summary s)) (t_summaries r)) r).

Definition with_source (s : Snapshot) (source : string) : Snapshot :=
  {| sn_id := sn_id s; sn_kind := sn_kind s; sn_created := sn_created s; sn_label := sn_label s;
     sn_source_key := sn_source_key s; sn_description := sn_description s; sn_tags := sn_tags s;
     sn_pinned := sn_pinned s; sn_source := source; sn_files := sn_files s |}.

Definition record_inner (kind : SnapshotKind) (label : string) (source_key : option string)
    (created : Z) (files : list FileEntry) : RM Z :=
  let! id := allocate_snapshot_id in
  let snap := {| sn_id := id; sn_kind := kind; sn_created := created; sn_label := label;
                 sn_source_key := source_key; sn_description := ""; sn_tags := [];
                 sn_pinned := false; sn_source := ""; sn_files := files |} in
  insert_rows (with_source snap (compute_source snap)) ;;
  ret id.

Definition record (kind : SnapshotKind) (label : string) (created : Z) (files : list FileEntry) : RM Z :=
  record_inner kind label None created files.

Fixpoint chunk_all (files : list (string * bytes)) : RM (list FileEntry) :=
  match files with
  | [] => ret []
  | (p, b) :: files =>
      let! comp := gets compression in
      let! r := on_store (chunk_into_store default_chunker b comp) in
      let! rest := chunk_all files in
      ret ({| fe_path := p; fe_manifest := r.2 |} :: rest)
  end.

Definition snapshot_bytes (kind : SnapshotKind) (label : string) (created : Z)
    (files : list (string * bytes)) : RM Z :=
  let! entries := chunk_all files in record_inner kind label None created entries.

Definition snapshot_bytes_with_source (kind : SnapshotKind) (label source_key : string) (created : Z)
    (files : list (string * bytes)) : RM Z :=
  let! entries := chunk_all files in record_inner kind label (Some source_key) created entries.

(** [File::open] and the streaming ingest of one file. *)
Definition ingest_path (src : path) : RM Manifest :=
  let! comp := gets compression in
  let! b := on_store (read_file src) in
  on_store (ingest_reader default_chunker comp b).

Fixpoint stream_all (files : list (string * path)) : RM (list FileEntry) :=
  match files with
  | [] => ret []
  | (p, src) :: files =>
      let! m := ingest_path src in
      let! rest := stream_all files in
      ret ({| fe_path := p; fe_manifest := m |} :: rest)
  end.

Definition snapshot_files (kind : SnapshotKind) (label : string) (created : Z)
    (files : list (string * path)) : RM Z :=
  let! entries := stream_all files in record_inner kind label None created entries.

Definition snapshot_files_with_source (kind : SnapshotKind) (label source_key : string) (created : Z)
    (files : list (string * path)) : RM Z :=
  let! entries := stream_all files in record_inner kind label (Some source_key) created entries.

(** *** The walk of [snapshot_source]

    The filters are predicates on the relative path, forward-slashed.  A
    directory that a filter passes is pushed on the stack and read when it is
    popped. *)
Section walk.
Context (passes_dir passes_file : string -> bool).

Record Walk := { wk_entries : list FileEntry; wk_bytes : Z; wk_skipped : Z;
                 wk_stack : list (list string * Node) }.

Definition rel_key (rel : list string) : string := to_slashes (str_join "/" rel).

Fixpoint walk_entries (dir : list string) (entries : list (string * Node)) (w : Walk) : RM Walk :=
  match entries with
  | [] => ret w
  | (name, node) :: entries =>
      let rel := dir ++ [name] in
      match node with
      | NSymlink | NSpecial =>
          walk_entries dir entries
            {| wk_entries := wk_entries w; wk_bytes := wk_bytes w;
               wk_skipped := wrap64 (wk_skipped w + 1); wk_stack := wk_stack w |}
      | NDir _ _ =>
          walk_entries dir entries
            (if passes_dir (rel_key rel)
             then {| wk_entries := wk_entries w; wk_bytes := wk_bytes w; wk_skipped := wk_skipped w;
                     wk_stack := (rel, node) :: wk_stack w |}
             else w)
      | NFile content =>
          if passes_file (rel_key rel) then
            let! comp := gets compression in
            on_store (call CIo) ;;
            let! m := on_store (ingest_reader default_chunker comp content) in
            walk_entries dir entries
              {| wk_entries := wk_entries w ++ [{| fe_path := rel_key rel; fe_manifest := m |}];
                 wk_bytes := wrap64 (wk_bytes w + m_size m); wk_skipped := wk_skipped w;
                 wk_stack := wk_stack w |}
          else walk_entries dir entries w
      end
  end.

Fixpoint walk_loop (fuel : nat) (w : Walk) : RM Walk :=
  match fuel with
  | O => throw XStuck
  | S fuel =>
      match wk_stack w with
      | [] => ret w
      | (dir, NDir true entries) :: stack =>
          let! w := walk_entries dir entries
            {| wk_entries := wk_entries w; wk_bytes := wk_bytes w; wk_skipped := wk_skipped w;
               wk_stack := stack |} in
          walk_loop fuel w
      | _ :: stack =>
          walk_loop fuel {| wk_entries := wk_entries w; wk_bytes := wk_bytes w;
                            wk_skipped := wk_skipped w; wk_stack := stack |}
      end
  end.

(** One turn per directory: more fuel than the tree has nodes. *)
Fixpoint node_count (n : Node) : nat :=
  match n with
  | NDir _ entries => S (foldr (fun e k => node_count e.2 + k)%nat O entries)
  | _ => 1
  end.

Definition snapshot_source (kind : SnapshotKind) (label : string) (source_key : option string)
    (created : Z) (root : Node) : RM SourceSnapshotSummary :=
  let! w := walk_loop (S (node_count root))
    {| wk_entries := []; wk_bytes := 0; wk_skipped := 0; wk_stack := [([], root)] |} in
  let! id := record_inner kind label source_key created (wk_entries w) in
  ret {| sum_id := id; sum_files := Z.of_nat (length (wk_entries w)); sum_bytes := wk_bytes w;
         skipped_non_regular := wk_skipped w |}.
End walk.

(** *** Editing the catalog *)

Definition remove_snapshot (id : Z) : RM bool :=
  let! existed := gets (fun r => bool_decide (is_Some (tbl_get id (t_snapshots r)))) in
  repo_write (fun r => set_catalog (tbl_remove id (t_snapshots r)) (tbl_remove id (t_summaries r)) r) ;;
  ret existed.

(** Every removal is counted when it happens, so an id given twice counts
    once. *)
Fixpoint count_removed (ids : list Z) (t : TN) : Z :=
  match ids with
  | [] => 0
  | id :: ids =>
      (if bool_decide (is_Some (tbl_get id t)) then 1 else 0) + count_removed ids (tbl_remove id t)
  end.

Definition remove_snapshots (ids : list Z) : RM Z :=
  match ids with
  | [] => ret 0
  | _ =>
      let! removed := gets (fun r => count_removed ids (t_snapshots r)) in
      repo_write (fun r => set_catalog (tbl_remove_all ids (t_snapshots r))
                                       (tbl_remove_all ids (t_summaries r)) r) ;;
      ret removed
  end.

Definition edit_snapshot (id : Z) (f : Snapshot -> Snapshot) : RM bool :=
  on_store (call CRedb) ;;
  let! v := gets (fun r => tbl_get id (t_snapshots r)) in
  match v with
  | None => on_store (call CRedb) ;; ret false
  | Some v =>
      let! s := rlift (ok_or (dec v) CManifest) in
      repo_write (fun r => set_catalog (tbl_insert id (enc (f s)) (t_snapshots r))
                                       (tbl_insert id (enc (summary (f s))) (t_summaries r)) r) ;;
      ret true
  end.

Definition with_notes (label description : string) (tags : list string) (pinned : bool) (s : Snapshot)
    : Snapshot :=
  {| sn_id := sn_id s; sn_kind := sn_kind s; sn_created := sn_created s; sn_label := label;
     sn_source_key := sn_source_key s; sn_description := description; sn_tags := tags;
     sn_pinned := pinned; sn_source := sn_source s; sn_files := sn_files s |}.

Definition set_label (id : Z) (label : string) : RM bool :=
  edit_snapshot id (fun s => with_notes label (sn_description s) (sn_tags s) (sn_pinned s) s).
Definition set_description (id : Z) (description : string) : RM bool :=
  edit_snapshot id (fun s => with_notes (sn_label s) description (sn_tags s) (sn_pinned s) s).
Definition set_tags (id : Z) (tags : list string) : RM bool :=
  edit_snapshot id (fun s => with_notes (sn_label s) (sn_description s) tags (sn_pinned s) s).
Definition set_pinned (id : Z) (pinned : bool) : RM bool :=
  edit_snapshot id (fun s => with_notes (sn_label s) (sn_description s) (sn_tags s) pinned s).

(** *** Garbage collection *)

Definition reachable_from (snaps : list Snapshot) (ms : list Manifest) : gset Blake3Hash :=
  list_to_set (c_hash <$> (snaps ≫= snap_refs)) ∪ list_to_set (c_hash <$> (ms ≫= m_chunks)).

(** The deletions at the end of a sweep: packs removed and bytes freed. *)
Fixpoint drop_packs (ids : list Uuid) (active_id : Uuid) (live : gset Uuid) (n freed : Z)
    : M (Z * Z) :=
  match ids with
  | [] => ret (n, freed)
  | id :: ids =>
      if bool_decide (id <> active_id /\ id ∉ live) then
        let! b := remove_pack_file id in
        drop_packs ids active_id live (wrap64 (n + 1)) (wrap64 (freed + b))
      else drop_packs ids active_id live n freed
  end.

(** The sweep of the chunk store, given what was marked. *)
Definition sweep (reachable : gset Blake3Hash) : M GcReport :=
  let! all := all_locators in
  let! active_id := active_pack_id in
  let orphans := (filter (fun hl => hl.1 ∉ reachable) all).*1 in
  let live := list_to_set (C := gset Uuid) (pack_id <$> (filter (fun hl => hl.1 ∈ reachable) all).*2) in
  let packs := list_to_set (C := gset Uuid) (pack_id <$> all.*2) in
  remove_chunk_index_entries orphans ;;
  let! n := gets calls in
  let! (removed, freed) := drop_packs (listing n (elements packs)) active_id live 0 0 in
  ret {| chunks_swept := Z.of_nat (length orphans); packs_removed := removed; bytes_reclaimed := freed |}.

Definition gc_locked : RM GcReport :=
  let! snaps := load_all_snapshots in
  let! ms := on_store all_manifests in
  on_store (sweep (reachable_from snaps ms)).

Definition gc : RM GcReport := gc_locked.

Fixpoint compact_loop (targets : list Uuid) (rep : CompactReport) : M CompactReport :=
  match targets with
  | [] => ret rep
  | id :: targets =>
      let! stop := gets (fun s => cancelled (calls s)) in
      if stop then ret rep
      else
        let! (freed, moved) := compact_pack id in
        compact_loop targets
          (if 0 <? freed
           then {| packs_compacted := wrap64 (packs_compacted rep + 1);
                   chunks_moved := wrap64 (chunks_moved rep + moved);
                   compact_reclaimed := wrap64 (compact_reclaimed rep + freed) |}
           else {| packs_compacted := packs_compacted rep;
                   chunks_moved := wrap64 (chunks_moved rep + moved);
                   compact_reclaimed := compact_reclaimed rep |})
  end.

Definition worth_compacting (opts : CompactOptions) (p : PackStat) : bool :=
  negb (is_active p) && (0 <? file_bytes p) &&
  dead_enough opts (sat_sub64 (file_bytes p) (live_bytes p)) (file_bytes p).

Definition compact (opts : CompactOptions) : RM (GcReport * CompactReport) :=
  let! g := gc_locked in
  on_store roll_active_pack ;;
  let! st := on_store pack_stats in
  let! rep := on_store (compact_loop (ps_id <$> filter (fun p => worth_compacting opts p = true) st)
    {| packs_compacted := 0; chunks_moved := 0; compact_reclaimed := 0 |}) in
  ret (g, rep).

(** *** Retention *)

Definition as_i64 (x : Z) : Z := if x <=? I64_MAX then x else x - (U64_MAX + 1).

Definition plan_source_prune (source_id : string) (policy : RetentionPolicy) (now_ms : Z) : RM (list Z) :=
  let! all := snapshots in
  let entries := (fun s => {| row_id := as_i64 (us_id s); ts_ms := us_created s; retained_until_ms := None |})
    <$> filter (fun s => us_source_key s = Some source_id) all in
  ret (wrap64 <$> select_for_pruning entries policy now_ms).

Definition prune_source (source_id : string) (policy : RetentionPolicy) (now_ms : Z) : RM PruneReport :=
  let! drop_ids := plan_source_prune source_id policy now_ms in
  match drop_ids with
  | [] => ret {| snapshots_removed := 0; prune_swept := 0; prune_reclaimed := 0 |}
  | _ =>
      let! removed := remove_snapshots drop_ids in
      let! g := gc in
      ret {| snapshots_removed := removed; prune_swept := chunks_swept g;
             prune_reclaimed := bytes_reclaimed g |}
  end.

Definition newer_first (a b : UnifiedSnapshot) : bool :=
  (us_created b <? us_created a) || ((us_created a =? us_created b) && (us_id b <=? us_id a)).

(** The loop of [prune]: [idx] counts the summaries, newest first. *)
Fixpoint prune_loop (policy : PrunePolicy) (cutoff : option Z) (idx : Z) (l : list UnifiedSnapshot)
    : list Z :=
  match l with
  | [] => []
  | s :: l =>
      let rest := prune_loop policy cutoff (idx + 1) l in
      if us_pinned s then rest
      else
        let within_keep_last := match keep_last policy with Some n => idx <? n | None => false end in
        let within_time := match cutoff with Some c => c <=? us_created s | None => false end in
        if negb within_keep_last && negb within_time then us_id s :: rest else rest
  end.

Definition prune (policy : PrunePolicy) (now_ms : Z) : RM (list Z) :=
  match keep_last policy, keep_within_ms policy with
  | None, None => ret []
  | _, _ =>
      let! all := snapshots in
      let sorted := sort_by newer_first all in
      let cutoff := (fun w => saturating_sub_i64 now_ms w) <$> keep_within_ms policy in
      let remove := prune_loop policy cutoff 0 sorted in
      match remove with
      | [] => ret []
      | _ => remove_snapshots remove ;; ret remove
      end
  end.

(** *** Queries *)

Definition fold_source (m : gmap string SourceSummary) (s : UnifiedSnapshot) : gmap string SourceSummary :=
  let e := default {| ss_source := us_source s; ss_count := 0; ss_latest_ms := I64_MIN;
                      ss_latest_kind := us_kind s; ss_latest_size := 0; ss_total_files := 0 |}
                   (m !! us_source s) in
  let count := wrap64 (ss_count e + 1) in
  <[us_source s :=
    if ss_latest_ms e <=? us_created s then
      {| ss_source := ss_source e; ss_count := count; ss_latest_ms := us_created s;
         ss_latest_kind := us_kind s; ss_latest_size := us_total_size s;
         ss_total_files := us_file_count s |}
    else
      {| ss_source := ss_source e; ss_count := count; ss_latest_ms := ss_latest_ms e;
         ss_latest_kind := ss_latest_kind e; ss_latest_size := ss_latest_size e;
         ss_total_files := ss_total_files e |}]> m.

Definition sources : RM (list SourceSummary) :=
  let! all := snapshots in
  ret (sort_by (fun a b => ss_latest_ms b <=? ss_latest_ms a)
         (map_to_list (foldl fold_source ∅ all)).*2).

(** The better of two candidates for a point in time. *)
Definition newer_than (snap : Snapshot) (best : FileSnapshot) : bool :=
  (fs_created best <? sn_created snap) ||
  ((fs_created best =? sn_created snap) && (fs_snapshot_id best <? sn_id snap)).

Definition find_file (p : string) (s : Snapshot) : option FileEntry :=
  snd <$> list_find (fun f => fe_path f = p) (sn_files s).

Definition consider (p : string) (ts_ms : Z) (best : option FileSnapshot) (snap : Snapshot)
    : option FileSnapshot :=
  if ts_ms <? sn_created snap then best
  else
    match find_file p snap with
    | None => best
    | Some entry =>
        let newer := match best with None => true | Some b => newer_than snap b end in
        if newer then
          Some {| fs_path := fe_path entry; fs_snapshot_id := sn_id snap; fs_kind := sn_kind snap;
                  fs_created := sn_created snap; fs_manifest := fe_manifest entry |}
        else best
    end.

Definition snapshot_at (p : string) (ts_ms : Z) : RM (option FileSnapshot) :=
  let! all := load_all_snapshots in ret (foldl (consider p ts_ms) None all).

Definition restore (f : FileSnapshot) (dst : path) : RM unit :=
  on_store (materialise_file (fs_manifest f) dst).

Definition snapshot_tree (id : Z) : RM (list (string * Z)) :=
  let! s := snapshot id in
  ret (match s with
       | None => []
       | Some s => (fun f => (fe_path f, m_size (fe_manifest f))) <$> sn_files s
       end).

(** *** Restoring *)

Definition bump (restored_ skipped_ failed_ : Z) (r : RestoreReport) : RestoreReport :=
  {| restored := wrap64 (restored r + restored_); skipped := wrap64 (skipped r + skipped_);
     rs_failed := wrap64 (rs_failed r + failed_) |}.

(** One file of [restore_paths]. *)
Definition restore_one (s : Snapshot) (want : string) (dst_root : path) (strip_prefix : option string)
    (conflict : RestoreConflict) (rep : RestoreReport) : M RestoreReport :=
  match find_file want s with
  | None => ret (bump 0 0 1 rep)
  | Some entry =>
      match rel_dst (fe_path entry) strip_prefix with
      | None => ret (bump 0 0 1 rep)
      | Some rel =>
          let target := dst_root ++ rel in
          let! files := gets fs in
          let exists_ := path_exists files target in
          if exists_ && match conflict with Skip => true | _ => false end then ret (bump 0 1 0 rep)
          else
            let target :=
              if exists_ then match conflict with KeepBoth => next_free_name files target | _ => target end
              else target in
            let! dir := try (call CIo) in
            match dir with
            | Err _ => ret (bump 0 0 1 rep)
            | Ok _ =>
                let! r := try (materialise_file (fe_manifest entry) target) in
                match r with
                | Ok _ => ret (bump 1 0 0 rep)
                | Err _ => ret (bump 0 0 1 rep)
                end
            end
      end
  end.

Fixpoint restore_loop (s : Snapshot) (paths : list string) (dst_root : path) (strip_prefix : option string)
    (conflict : RestoreConflict) (rep : RestoreReport) : M RestoreReport :=
  match paths with
  | [] => ret rep
  | want :: paths =>
      let! rep := restore_one s want dst_root strip_prefix conflict rep in
      restore_loop s paths dst_root strip_prefix conflict rep
  end.

Definition restore_paths (id : Z) (paths : list string) (dst_root : path) (strip_prefix : option string)
    (conflict : RestoreConflict) : RM RestoreReport :=
  let! s := snapshot id in
  let! s := rlift (ok_or s (SnapshotNotFound id)) in
  on_store (restore_loop s paths dst_root strip_prefix conflict
    {| restored := 0; skipped := 0; rs_failed := 0 |}).

Definition restore_preview (id : Z) (paths : list string) (dst_root : path) (strip_prefix : option string)
    : RM (list (string * bool)) :=
  let! s := snapshot id in
  let! s := rlift (ok_or s (SnapshotNotFound id)) in
  let! files := gets (fun r => fs (store r)) in
  ret ((fun want => (want, match rel_dst want strip_prefix with
                           | Some rel => path_exists files (dst_root ++ rel)
                           | None => false
                           end))
       <$> filter (fun want => is_Some (find_file want s)) paths).

(** *** Statistics *)

Definition unique_lens (snaps : list Snapshot) : gmap Blake3Hash Z :=
  foldl (fun m c => match m !! c_hash c with Some _ => m | None => <[c_hash c := c_len c]> m end) ∅
    (snaps ≫= snap_refs).

Definition stats_repo : RM RepoStats :=
  let! snaps := load_all_snapshots in
  let unique := unique_lens snaps in
  let! locs := on_store all_locators in
  let stored := list_to_map (M := gmap Blake3Hash Z) (rev (prod_map id stored_len <$> locs)) in
  let physical := omap (fun hl => stored !! hl.1) (map_to_list unique) in
  let! disk := on_store disk_usage_bytes in
  let! count := on_store chunk_count in
  ret {| stored_bytes := disk; unique_bytes := sum64 (map_to_list unique).*2;
         physical_unique_bytes := sum64 physical;
         effective_bytes := sum64 (total_size <$> snaps);
         snapshot_count := Z.of_nat (length snaps); chunk_count_s := count |}.

Definition chunk_refcount (hash : Blake3Hash) : RM Z :=
  let! snaps := load_all_snapshots in
  ret (Z.of_nat (length (filter (fun s => hash ∈ distinct_chunks s) snaps))).

(** *** Verification *)

Definition damaged (s : Snapshot) (f : FileEntry) (chunk : string) (k : DamageKind) : VerifyDamage :=
  {| dm_snapshot := sn_id s; dm_path := fe_path f; dm_chunk := chunk; dm_kind := k |}.

(** The chunks of one file: what the hasher saw, and the damage. *)
Fixpoint verify_chunks (level : VerifyLevel) (s : Snapshot) (f : FileEntry) (cs : list ChunkRef)
    (hashed : bytes) (found : list VerifyDamage) : M (bytes * list VerifyDamage) :=
  match cs with
  | [] => ret (hashed, found)
  | c :: cs =>
      match level with
      | Metadata =>
          let! loc := locate (c_hash c) in
          verify_chunks level s f cs hashed
            (match loc with
             | None => found ++ [damaged s f (hex_encode (c_hash c)) Missing]
             | Some _ => found
             end)
      | ReadData =>
          let! r := try (get (c_hash c)) in
          match r with
          | Ok (Some b) => verify_chunks level s f cs (hashed ++ b) found
          | Ok None => verify_chunks level s f cs hashed
                         (found ++ [damaged s f (hex_encode (c_hash c)) Missing])
          | Err _ => verify_chunks level s f cs hashed
                       (found ++ [damaged s f (hex_encode (c_hash c)) Corrupt])
          end
      end
  end.

Definition verify_file (level : VerifyLevel) (s : Snapshot) (f : FileEntry) : M (list VerifyDamage) :=
  let! (hashed, found) := verify_chunks level s f (m_chunks (fe_manifest f)) [] [] in
  ret (match level, found with
       | ReadData, [] =>
           if bool_decide (blake3 hashed = file_hash (fe_manifest f)) then []
           else [damaged s f "" FileHashMismatch]
       | _, _ => found
       end).

Fixpoint verify_files (level : VerifyLevel) (s : Snapshot) (fs : list FileEntry) (rep : VerifyReport)
    : M VerifyReport :=
  match fs with
  | [] => ret rep
  | f :: fs =>
      let! found := verify_file level s f in
      verify_files level s fs
        {| snapshots_checked := snapshots_checked rep; files_checked := wrap64 (files_checked rep + 1);
           chunks_checked := wrap64 (chunks_checked rep + Z.of_nat (length (m_chunks (fe_manifest f))));
           damage := damage rep ++ found |}
  end.

Fixpoint verify_snaps (level : VerifyLevel) (snaps : list Snapshot) (rep : VerifyReport) : M VerifyReport :=
  match snaps with
  | [] => ret rep
  | s :: snaps =>
      let! rep := verify_files level s (sn_files s)
        {| snapshots_checked := wrap64 (snapshots_checked rep + 1); files_checked := files_checked rep;
           chunks_checked := chunks_checked rep; damage := damage rep |} in
      verify_snaps level snaps rep
  end.

Definition verify (only : option Z) (level : VerifyLevel) : RM VerifyReport :=
  let! snaps := load_all_snapshots in
  let chosen := filter (fun s => match only with Some id => sn_id s =? id | None => true end = true) snaps in
  on_store (verify_snaps level chosen
    {| snapshots_checked := 0; files_checked := 0; chunks_checked := 0; damage := [] |}).

(** [dedup] of a sorted list. *)
Fixpoint dedup (l : list Z) : list Z :=
  match l with
  | x :: ((y :: _) as l') => if x =? y then dedup l' else x :: dedup l'
  | _ => l
  end.

Definition no_gc : GcReport := {| chunks_swept := 0; packs_removed := 0; bytes_reclaimed := 0 |}.

Definition repair_remove_damaged (rep : VerifyReport) (apply : bool) : RM (list Z * GcReport) :=
  let ids := dedup (sort_by Z.leb (dm_snapshot <$> damage rep)) in
  if negb apply || match ids with [] => true | _ => false end then ret (ids, no_gc)
  else
    remove_snapshots ids ;;
    let! g := gc in
    ret (ids, g).

(** *** Replication *)

Definition probe_of (s : Snapshot) : Snapshot :=
  {| sn_id := 0; sn_kind := sn_kind s; sn_created := sn_created s; sn_label := "";
     sn_source_key := sn_source_key s; sn_description := ""; sn_tags := []; sn_pinned := false;
     sn_source := "";
     sn_files := (fun f => {| fe_path := fe_path f; fe_manifest :=
        {| file_hash := file_hash (fe_manifest f); m_size := m_size (fe_manifest f);
           m_chunks := (fun c => {| c_hash := c_hash c; c_offset := c_offset c; c_len := c_len c;
                                    c_codec := CodecNone |}) <$> m_chunks (fe_manifest f) |} |})
       <$> sn_files s |}.

Definition content_fingerprint (s : Snapshot) : Blake3Hash := blake3 (enc (probe_of s)).

Definition insert_full_snapshot (template : Snapshot) (files : list FileEntry) : RM Z :=
  let! id := allocate_snapshot_id in
  insert_rows {| sn_id := id; sn_kind := sn_kind template; sn_created := sn_created template;
                 sn_label := sn_label template; sn_source_key := sn_source_key template;
                 sn_description := sn_description template; sn_tags := sn_tags template;
                 sn_pinned := sn_pinned template; sn_source := sn_source template;
                 sn_files := files |} ;;
  ret id.

(** The files of a snapshot with the codecs the destination used. *)
Definition restamp (codec_of : gmap Blake3Hash ChunkCodec) (f : FileEntry) : FileEntry :=
  {| fe_path := fe_path f; fe_manifest :=
      {| file_hash := file_hash (fe_manifest f); m_size := m_size (fe_manifest f);
         m_chunks := (fun c => {| c_hash := c_hash c; c_offset := c_offset c; c_len := c_len c;
                                  c_codec := default (c_codec c) (codec_of !! c_hash c) |})
           <$> m_chunks (fe_manifest f) |} |}.
End repository.
Arguments Repo : clear implicits.

(** Replication runs over two repositories; each has its own world. *)
Section replicate.
Context {TC TM TS TN TQ : Type} {kle : bytes -> bytes -> Prop}.
Context {TBC : Table bytes bytes TC kle} {TBM : Table string bytes TM String.le}.
Context {TBS : Table string bytes TS String.le}.
Context {TBN : Table Z bytes TN Z.le} {TBQ : Table string Z TQ String.le}.
Context {CM : Codec Manifest bytes} {CS : Codec Snapshot bytes} {CU : Codec UnifiedSnapshot bytes}.
Context {B3 : Blake3} {ZS : Zstd} (EN1 EN2 : ChunkWorld).
Local Abbreviation Repo := (Repo TC TM TS TN TQ).
Local Abbreviation PM := (SM (Repo * Repo) Exn).

Definition on_src {A} (m : SM Repo Exn A) : PM A := fun p => let '(x, r) := m p.1 in (x, (r, p.2)).
Definition on_dst {A} (m : SM Repo Exn A) : PM A := fun p => let '(x, r) := m p.2 in (x, (p.1, r)).

Definition add_report (copied skipped_ sent present_ sent_bytes : Z) (r : ReplicateReport) : ReplicateReport :=
  {| snapshots_copied := wrap64 (snapshots_copied r + copied);
     snapshots_skipped := wrap64 (snapshots_skipped r + skipped_);
     chunks_copied := wrap64 (chunks_copied r + sent);
     chunks_present := wrap64 (chunks_present r + present_);
     bytes_copied := wrap64 (bytes_copied r + sent_bytes) |}.

(** The chunks of one snapshot; [codec_of] spans the whole replication. *)
Fixpoint send_chunks (cs : list ChunkRef) (codec_of : gmap Blake3Hash ChunkCodec) (rep : ReplicateReport)
    : PM (gmap Blake3Hash ChunkCodec * ReplicateReport) :=
  match cs with
  | [] => ret (codec_of, rep)
  | c :: cs =>
      match codec_of !! c_hash c with
      | Some _ => send_chunks cs codec_of rep
      | None =>
          let! loc := on_dst (on_store (locate (EN := EN2) (c_hash c))) in
          match loc with
          | Some loc => send_chunks cs (<[c_hash c := l_codec loc]> codec_of) (add_report 0 0 0 1 0 rep)
          | None =>
              let! b := on_src (on_store (get (EN := EN1) (c_hash c))) in
              let! b := on_src (rlift (ok_or b (MissingChunk (c_hash c)))) in
              let! comp := on_dst (gets compression) in
              let! codec := on_dst (on_store (put_chunk (EN := EN2) (c_hash c) b comp)) in
              send_chunks cs (<[c_hash c := codec]> codec_of) (add_report 0 0 1 0 (len b) rep)
          end
      end
  end.

Fixpoint send_snapshots (snaps : list Snapshot) (present : gset Blake3Hash)
    (codec_of : gmap Blake3Hash ChunkCodec) (rep : ReplicateReport) : PM ReplicateReport :=
  match snaps with
  | [] => ret rep
  | s :: snaps =>
      if bool_decide (content_fingerprint s ∈ present) then
        send_snapshots snaps present codec_of (add_report 0 1 0 0 0 rep)
      else
        let! (codec_of, rep) := send_chunks (snap_refs s) codec_of rep in
        let! _ := on_dst (insert_full_snapshot (EN := EN2) s (restamp codec_of <$> sn_files s)) in
        send_snapshots snaps ({[content_fingerprint s]} ∪ present) codec_of (add_report 1 0 0 0 0 rep)
  end.

Definition replicate_to : PM ReplicateReport :=
  let! theirs := on_dst (load_all_snapshots (EN := EN2)) in
  let! ours := on_src (load_all_snapshots (EN := EN1)) in
  send_snapshots ours (list_to_set (content_fingerprint <$> theirs)) ∅
    {| snapshots_copied := 0; snapshots_skipped := 0; chunks_copied := 0; chunks_present := 0;
       bytes_copied := 0 |}.
End replicate.
