(* ===== verification/RepoWp.v ===== *)
(** * The snapshot repository: names of restored files, and the contracts

    Where [restore_paths] puts a file: below the destination root, under a
    chain of ordinary names, whatever the path recorded in the snapshot
    says.

    The second part holds the invariant of the repository and the shape of
    the contracts of its operations. *)
From S2P Require Import Prelude.
From S2P Require Import Text.
From S2P Require Import Files.
From S2P Require Import Repository.
From S2P Require Import Monad.
From S2P Require Import Table.
From S2P Require Import Versioning.
From S2P Require Import ChunkTypes.
From S2P Require Import ChunkStore.
From S2P Require Import ChunkWp.
From S2P Require Import ChunkFile.
From S2P Require Import ChunkFileSafety.
From stdpp Require Import pretty options.
Open Scope Z_scope.

(** ** Ordinary names *)

Record plain (c : string) : Prop := {
  pl_nonempty : c <> "";
  pl_not_dot : c <> ".";
  pl_not_dots : c <> "..";
  pl_no_slash : contains_char "/" c = false;
}.

Lemma pretty_digit_plain x : Ascii.eqb "/" (pretty_N_char x) = false.
Proof. unfold pretty_N_char. by repeat case_match. Qed.

Lemma pretty_N_go_plain x : forall s, contains_char "/" s = false -> contains_char "/" (pretty_N_go x s) = false.
Proof.
  induction (N.lt_wf_0 x) as [x _ IH]; intros s Hs. destruct (decide (0 < x)%N) as [Hx|Hx].
  - rewrite pretty_N_go_step by done. apply IH; [by apply N.div_lt|].
    unfold contains_char in *. cbn [has_char]. by rewrite pretty_digit_plain.
  - assert (x = 0%N) as -> by lia. by rewrite pretty_N_go_0.
Qed.

Lemma pretty_N_plain (n : N) : contains_char "/" (pretty n) = false.
Proof.
  change (pretty n) with (pretty_N n). unfold pretty_N. case_decide; [done|]. by apply pretty_N_go_plain.
Qed.

(** ** The suffix of [KeepBoth] *)

Lemma suffixed_plain stem ext n :
  contains_char "/" stem = false -> (forall e, ext = Some e -> contains_char "/" e = false) ->
  plain (suffixed stem ext n).
Proof.
  intros Hs He. unfold suffixed.
  assert (forall tail, contains_char "/" tail = false ->
    plain (stem +:+ " (" +:+ pretty n +:+ ")" +:+ tail)) as H.
  { intros tail Ht. split.
    - by destruct stem.
    - destruct stem as [|a [|b stem]]; [done|discriminate|discriminate].
    - destruct stem as [|a [|b [|c stem]]]; try discriminate.
    - rewrite !contains_char_app, Hs, pretty_N_plain, Ht. done. }
  destruct ext as [e|].
  - apply (H ("." +:+ e)). rewrite contains_char_app, (He e) by done. done.
  - pose proof (H "") as H0. rewrite !str_app_nil_r in H0. by apply H0.
Qed.

Lemma stem_ext_plain name stem ext :
  contains_char "/" name = false -> stem_ext name = (stem, ext) ->
  contains_char "/" stem = false /\ forall e, ext = Some e -> contains_char "/" e = false.
Proof.
  intros Hn. unfold stem_ext. pose proof (rsplit_once_spec "." name) as H.
  destruct (rsplit_once "." name) as [[l e]|]; [|by intros [= <- <-]].
  destruct H as [-> _]. rewrite contains_char_app in Hn. apply orb_false_iff in Hn as [Hl He].
  destruct l as [|a l].
  - intros [= <- <-]. split; [|done]. done.
  - intros [= <- <-]. split; [done|]. intros e' [= <-]. unfold contains_char in *. cbn [has_char] in He.
    by apply orb_false_iff in He as [_ ?].
Qed.

(** ** [rel_dst] *)

Lemma safe_components_plain l rel :
  Forall (fun c => forall x, c = Normal x -> plain x) l -> safe_components l = Some rel -> Forall plain rel.
Proof.
  revert rel. induction l as [|c l IH]; intros rel Hl H; simpl in H; [by simplify_eq|].
  apply Forall_cons in Hl as [Hc Hl]. destruct c; [by apply IH..|done|].
  destruct (safe_components l) as [rest|]; [|done]. simplify_eq/=. constructor; [by apply Hc|by apply IH].
Qed.

Lemma components_plain p : Forall (fun c => forall x, c = Normal x -> plain x) (components p).
Proof.
  unfold components. apply Forall_app. split.
  - destruct (String.prefix "/" p); [|done]. by constructor.
  - apply Forall_fmap, Forall_forall. intros y [Hy Hin]%list_elem_of_filter x. simpl. unfold component_of.
    destruct (String.eqb_spec y "."); [done|]. destruct (String.eqb_spec y ".."); [done|].
    intros [= <-]. pose proof (split_on_no_sep "/" p) as Hs. rewrite Forall_forall in Hs. split; auto.
Qed.

(** The destination of a file is a chain of ordinary names. *)
Lemma rel_dst_plain p strip rel : rel_dst p strip = Some rel -> rel <> [] /\ Forall plain rel.
Proof.
  unfold rel_dst. destruct (contains_char _ p); [done|]. set (norm := to_slashes _). clearbody norm.
  pose proof (safe_components_plain (components norm)) as Hs. specialize Hs with (1 := components_plain norm).
  destruct (safe_components (components norm)) as [rel'|]; [|done]. specialize (Hs _ eq_refl). simpl.
  destruct rel' as [|c rel'].
  - destruct (file_name norm) as [name|] eqn:Hf; [|done]. intros [= <-]. split; [done|].
    unfold file_name in Hf. destruct (last (components norm)) as [[| | |x]|] eqn:Hl; try done. simplify_eq.
    constructor; [|done]. pose proof (components_plain norm) as Hc. rewrite Forall_forall in Hc.
    apply (Hc (Normal name)); [|done]. by apply last_Some_elem_of.
  - intros [= <-]. done.
Qed.

(** ** [next_free_name] *)

Lemma next_free_name_spec files (root rel : path) :
  rel <> [] -> Forall plain rel ->
  exists rel', next_free_name files (root ++ rel) = root ++ rel' /\ rel' <> [] /\ Forall plain rel' /\
    (path_exists files (root ++ rel') = false \/
     exists stem ext, forall n, (1 <= n < 10000)%N ->
       path_exists files (root ++ removelast rel ++ [suffixed stem ext n]) = true).
Proof.
  intros Hne Hpl. unfold next_free_name. destruct (path_exists files (root ++ rel)) eqn:Hex.
  2:{ exists rel. simpl. auto. }
  cbn [negb]. destruct (exists_last Hne) as (dir & name & ->).
  assert (parent (root ++ dir ++ [name]) = Some (root ++ dir)) as ->.
  { unfold parent. rewrite app_assoc. destruct ((root ++ dir) ++ [name]) eqn:E; [by destruct (root ++ dir)|].
    rewrite <- E, length_app. simpl. f_equal. rewrite Nat.add_sub. apply take_app_length. }
  rewrite app_assoc, last_snoc. apply Forall_app in Hpl as [Hdir Hname].
  rewrite Forall_singleton in Hname. rewrite removelast_last.
  destruct (stem_ext name) as [stem ext] eqn:Hse.
  destruct (stem_ext_plain _ _ _ (pl_no_slash _ Hname) Hse) as [Hstem Hext]. cbn [default].
  destruct (first_from _ _ 1 _) as [cand|] eqn:Hff.
  - apply first_from_sound in Hff as (Hfree & i & _ & -> & _). exists (dir ++ [suffixed stem ext i]).
    rewrite app_assoc. split; [done|]. split; [by destruct dir|]. split.
    + apply Forall_app. split; [done|]. apply Forall_singleton. by apply suffixed_plain.
    + left. by apply negb_true_iff in Hfree.
  - exists (dir ++ [name]). rewrite app_assoc. split; [done|]. split; [by destruct dir|].
    split; [by apply Forall_app; split; [|apply Forall_singleton]|]. right. exists stem, ext. intros n Hn.
    pose proof (first_from_none _ _ _ _ Hff n) as H. rewrite app_assoc.
    apply negb_false_iff, H. lia.
Qed.

(** * The snapshot repository: invariant and one contract per operation

    [repo_wf] says that every snapshot in the catalog has all its chunks in
    the store, that summaries mirror rows and that ids below the allocator's
    are the only ones in use.  Each operation of [Repository] keeps it,
    whatever the outside world does. *)
Open Scope monad_scope.

Section safety.
Context {TC TM TS TN TQ : Type} {kle : bytes -> bytes -> Prop}.
Context {TBC : Table bytes bytes TC kle} {TBM : Table string bytes TM String.le}.
Context {TBS : Table string bytes TS String.le}.
Context {TBN : Table Z bytes TN Z.le} {TBQ : Table string Z TQ String.le}.
Context {CM : Codec Manifest bytes} {CS : Codec Snapshot bytes} {CU : Codec UnifiedSnapshot bytes}.
Context {B3 : Blake3} {ZS : Zstd} {EN : ChunkWorld} {FC : FastCdc}.
Context {ZL : ZstdLaws} {WL : WorldLaws} {FL : FastCdcLaws} {DL : DigestLaws}.
Context (R : Z) (HR : 0 <= R <= 2 ^ 62).
Local Abbreviation Store := (Store TC TM TS).
Local Abbreviation Repo := (Repo TC TM TS TN TQ).
Local Abbreviation M := (@M TC TM TS).
Local Abbreviation RM := (@RM TC TM TS TN TQ).
Implicit Types s : Store.
Implicit Types r : Repo.

(** ** The sweep of the chunk store *)

(** Rows may go, as long as nothing else changes. *)
Lemma disk_fewer_rows s t' :
  disk_wf R s -> (forall h, tbl_get h t' = None \/ tbl_get h t' = tbl_get h (chunks s)) ->
  disk_wf R (with_chunks t' s).
Proof using Type.
  intros [H1 H2 H3 H4] Ht. split; [|done..]. intros h v Hv. simpl in Hv.
  destruct (Ht h) as [E|E]; rewrite E in Hv; [done|].
  destruct (H1 _ _ Hv) as (p & w & loc & f & ? & ?). exists p, w, loc, f. simpl. by rewrite E.
Qed.

(** What a sweep that keeps [P] does to the index. *)
Record swept (P : gset Blake3Hash) s s' : Prop := {
  sw_keeps : forall h p, h ∈ P -> holds s h p -> holds s' h p;
  sw_sub : forall h v, tbl_get h (chunks s') = Some v -> tbl_get h (chunks s) = Some v;
  sw_manifests : manifests s' = manifests s;
  sw_fs : fs s' = fs s;
  sw_active : active s' = active s;
  sw_calls : (calls s <= calls s')%nat;
}.

Lemma swept_refl P s s' : safe s s' -> chunks s' = chunks s -> active s' = active s -> swept P s s'.
Proof using Type. intros [] E ?. split; auto. by rewrite E. Qed.

Lemma swept_trans P s1 s2 s3 :
  swept P s1 s2 -> safe s2 s3 -> chunks s3 = chunks s2 -> active s3 = active s2 -> swept P s1 s3.
Proof using Type. clear HR. intros [] [] E ?. split; try congruence; [auto| |lia]. rewrite E. auto. Qed.

Lemma wp_remove_entries (P : gset Blake3Hash) hs s :
  disk_wf R s -> mem_wf R s -> (forall h, h ∈ hs -> h ∉ P) ->
  wp (remove_chunk_index_entries hs)
    (fun x s' => wf R x s' /\ swept P s s' /\ packs s' = packs s /\
       match x with
       | Ok _ => forall h, tbl_get h (chunks s') = if decide (h ∈ hs) then None else tbl_get h (chunks s)
       | Err e => calm e
       end) s.
Proof using Type.
  clear HR. intros Hd Hm Hhs. unfold remove_chunk_index_entries. destruct hs as [|h0 hs].
  { apply wp_ret. split_and!; [by split|by apply swept_refl|done|].
    intros h. rewrite decide_False; [done|apply not_elem_of_nil]. }
  set (l := h0 :: hs) in *. apply wp_db_write.
  2:{ intros x s1 Hs1 Hx. split_and!; [by eapply wf_reads| |by apply rd_packs|
        by destruct Hx as [-> | [-> | ->]]].
      apply swept_refl; [by apply reads_safe|by apply rd_chunks|by apply rd_active]. }
  intros s1 Hs1.
  assert (forall h, tbl_get h (tbl_remove_all l (chunks s1)) =
    if decide (h ∈ l) then None else tbl_get h (chunks s)) as Hget.
  { intros h. rewrite tbl_get_remove_all. by rewrite (rd_chunks _ _ Hs1). }
  split_and!; [| |apply (rd_packs _ _ Hs1)|exact Hget].
  - split; [|intros _; by destruct (reads_mem _ _ _ Hs1 Hm)].
    apply disk_fewer_rows; [by eapply reads_disk|]. intros h. rewrite Hget, (rd_chunks _ _ Hs1).
    case_decide; auto.
  - destruct Hs1 as [E1 E2 E3 E4 E5 E6 E7 E8]. split; try done.
    + intros h p Hh (v & loc & f & Hv & ?). exists v, loc, f. simpl.
      rewrite Hget, decide_False by (intros ?; by eapply Hhs). by rewrite E1.
    + intros h v. simpl. rewrite Hget. by case_decide.
Qed.

(** Deleting the packs no row points into. *)
Lemma wp_drop_packs (ids : list Uuid) (live : gset Uuid) n freed s :
  disk_wf R s -> mem_wf R s -> (forall id, id ∉ live -> unreferenced s id) ->
  wp (drop_packs ids (a_id (active s)) live n freed)
    (fun x s' => wf R x s' /\ safe s s' /\ chunks s' = chunks s /\ active s' = active s /\
       match x with
       | Ok _ => forall id, packs s' !! id =
           if decide (id ∈ ids /\ id <> a_id (active s) /\ id ∉ live) then None else packs s !! id
       | Err e => calm e
       end) s.
Proof using Type.
  clear HR. revert n freed s. induction ids as [|id ids IH]; intros n freed s Hd Hm Hlive; cbn [drop_packs].
  { apply wp_ret. split_and!; [by split|done..|]. intros id. rewrite decide_False; [done|].
    intros [?%elem_of_nil _]. done. }
  case_bool_decide as Hid.
  - destruct Hid as [Hne Hnl]. eapply wp_seq; [apply (wp_remove_pack_file R); [done|done|by apply Hlive|done]| |].
    2:{ intros x s1 ([? Hw] & Hs1 & Hc1 & Ha1 & Hx & _).
        split_and!; [split; [done|intros ?; apply Hw; by intros [= ->]]|done..|by destruct Hx as [-> | [-> | ->]]]. }
    intros b s1 ([Hd1 Hm1] & Hs1 & Hc1 & Ha1 & _ & Hp1). rewrite <- Ha1 in *.
    eapply wp_mono; [apply IH; [done|by apply Hm1|]|].
    + intros id' Hid' h v loc. rewrite Hc1. by apply Hlive.
    + intros x s2 (Hw & Hs2 & Hc2 & Ha2 & Hx).
      split_and!; [done|by etrans|congruence|congruence|]. destruct x as [a|e]; [|done].
      intros id'. rewrite Hx, Hp1, lookup_delete. destruct (decide (id = id')) as [->|Hn].
      * rewrite (decide_True (P := id' ∈ id' :: ids /\ _)); [by case_decide|split; [left|done]].
      * destruct (decide (id' ∈ ids /\ _)) as [[? ?]|Hno].
        -- rewrite decide_True; [done|split; [by right|done]].
        -- rewrite decide_False; [done|]. intros [[->|?]%elem_of_cons ?]; [done|by apply Hno].
  - eapply wp_mono; [by apply IH|]. intros x s2 (Hw & Hs2 & Hc2 & Ha2 & Hx).
    split_and!; [done..|]. destruct x as [a|e]; [|done]. intros id'. rewrite Hx.
    destruct (decide (id' ∈ ids /\ _)) as [[? ?]|Hno].
    + rewrite decide_True; [done|split; [by right|done]].
    + rewrite decide_False; [done|]. intros [[->|?]%elem_of_cons ?]; [done|by apply Hno].
Qed.

(** What a finished sweep has done: the index holds exactly the chunks of [P]
    it held before, and the packs that lost their last row are gone. *)
Record sweep_done (P : gset Blake3Hash) s s' (rep : GcReport) : Prop := {
  sd_index : forall h, tbl_get h (chunks s') = if decide (h ∈ P) then tbl_get h (chunks s) else None;
  sd_swept : chunks_swept rep = Z.of_nat (length (filter (fun h => h ∉ P) (tbl_iter (chunks s)).*1));
  sd_packs : forall id f, packs s !! id = Some f ->
    packs s' !! id = None <->
    ~ unreferenced s id /\ unreferenced s' id /\ id <> a_id (active s);
}.

Lemma length_filter_fst {A B} (Q : A -> Prop) `{!forall a, Decision (Q a)} (l : list (A * B)) :
  length (filter (fun ab => Q ab.1) l) = length (filter Q l.*1).
Proof using Type.
  clear HR. induction l as [|[a b] l IH]; [done|]. cbn [fmap list_fmap]. rewrite !filter_cons. simpl.
  case_decide; simpl; by rewrite ?IH.
Qed.

Lemma located_length s (locs : list (Blake3Hash * ChunkLocator)) (Q : Blake3Hash -> Prop) `{!forall a, Decision (Q a)} :
  disk_wf R s -> located s locs ->
  length (filter (fun hl => Q hl.1) locs) = length (filter Q (tbl_iter (chunks s)).*1).
Proof using Type.
  clear HR. intros Hd [H1 H2]. rewrite length_filter_fst.
  assert (locs.*1 ≡ₚ (tbl_iter (chunks s)).*1) as ->; [|done].
  apply NoDup_Permutation; [done|apply tbl_iter_nodup|]. intros h. split.
  - intros ([h' loc] & -> & (v & Hv & _)%H1)%list_elem_of_fmap. simpl.
    apply tbl_iter_get in Hv. by apply (list_elem_of_fmap_2 fst) in Hv.
  - intros ([h' v] & -> & Hv%tbl_iter_get)%list_elem_of_fmap. simpl in *.
    destruct (wf_rows _ _ Hd _ _ Hv) as (p & v' & loc & f & Hv' & Hl & _).
    assert ((h', loc) ∈ locs) as Hin by (apply H1; eauto).
    by apply (list_elem_of_fmap_2 fst) in Hin.
Qed.

(** The live packs of a located index are those some kept row points into. *)
Lemma live_pack_spec s (locs : list (Blake3Hash * ChunkLocator)) (P : gset Blake3Hash) id :
  located s locs ->
  id ∈ (list_to_set (pack_id <$> (filter (fun hl => hl.1 ∈ P) locs).*2) : gset Uuid) <->
  exists h v loc, h ∈ P /\ tbl_get h (chunks s) = Some v /\ decode_locator v = Ok loc /\ pack_id loc = id.
Proof using Type.
  clear HR. intros [H1 _]. rewrite elem_of_list_to_set. split.
  - intros (loc & -> & ([h loc'] & -> & [Hh Hin]%list_elem_of_filter)%list_elem_of_fmap)%list_elem_of_fmap.
    apply H1 in Hin as (v & ? & ?). exists h, v, loc'. done.
  - intros (h & v & loc & Hh & Hv & Hl & <-). apply (list_elem_of_fmap_2 pack_id).
    apply (list_elem_of_fmap_2 snd _ (h, loc)). apply list_elem_of_filter. split; [done|].
    apply H1. eauto.
Qed.

Lemma wp_sweep (P : gset Blake3Hash) s :
  disk_wf R s -> mem_wf R s ->
  wp (sweep P)
    (fun x s' => wf R x s' /\ swept P s s' /\
       match x with Ok rep => sweep_done P s s' rep | Err e => calm e end) s.
Proof using WL.
  clear HR. intros Hd Hm. unfold sweep. eapply wp_seq; [by apply (wp_all_locators R)| |].
  2:{ intros x s1 [Hs1 Hx]. split_and!; [by eapply wf_reads|apply swept_refl; [by apply reads_safe|
        by apply rd_chunks|by apply rd_active]|by destruct Hx as [-> | [-> | ->]]]. }
  intros locs s1 [Hs1 Hlc]. apply wp_bind, wp_gets.
  set (live := list_to_set (pack_id <$> (filter (fun hl => hl.1 ∈ P) locs).*2)).
  set (orphans := (filter (fun hl => hl.1 ∉ P) locs).*1).
  assert (forall h, h ∈ orphans <-> h ∉ P /\ exists v loc, tbl_get h (chunks s) = Some v /\
    decode_locator v = Ok loc) as Horph.
  { intros h. unfold orphans. split.
    - intros ([h' loc] & -> & [Hh (v & ? & ?)%Hlc]%list_elem_of_filter)%list_elem_of_fmap. eauto.
    - intros (Hh & v & loc & Hv & Hl). apply (list_elem_of_fmap_2 fst _ (h, loc)).
      apply list_elem_of_filter. split; [done|]. apply Hlc. eauto. }
  assert (forall h v, tbl_get h (chunks s) = Some v -> exists loc, decode_locator v = Ok loc) as Hdec.
  { intros h v Hv. destruct (wf_rows _ _ Hd _ _ Hv) as (p & v' & loc & f & ? & ? & _). naive_solver. }
  eapply wp_seq; [eapply (wp_remove_entries P orphans); eauto using reads_disk, reads_mem; by intros h []%Horph| |].
  2:{ intros x s2 ([? Hw] & Hs2 & _ & Hx).
      split_and!; [split; [done|intros ?; apply Hw; by intros [= ->]]| |done].
      destruct Hs2 as [K1 K2 K3 K4 K5 K6], Hs1 as [E1 E2 E3 E4 E5 E6 E7 E8].
      split; [|by rewrite <- E2|congruence..|lia]. intros h p Hh Hp. apply K1; [done|].
      unfold holds in *. by rewrite E1, E2. }
  intros [] s2 ([Hd2 Hm2] & Hs2 & Hp2 & Hget). specialize (Hm2 ltac:(done)).
  assert (swept P s s2) as Hsw.
  { destruct Hs2 as [K1 K2 K3 K4 K5 K6], Hs1 as [E1 E2 E3 E4 E5 E6 E7 E8].
    split; [|by rewrite <- E2|congruence..|lia]. intros h p Hh Hp. apply K1; [done|].
    unfold holds in *. by rewrite E1, E2. }
  assert (forall h, tbl_get h (chunks s2) = if decide (h ∈ P) then tbl_get h (chunks s) else None) as Hix.
  { intros h. rewrite Hget, (rd_chunks _ _ Hs1). destruct (decide (h ∈ P)) as [Hh|Hh].
    - rewrite decide_False; [done|]. by intros [? _]%Horph.
    - case_decide as Ho; [done|]. destruct (tbl_get h (chunks s)) as [v|] eqn:Hv; [|done].
      destruct Ho. apply Horph. destruct (Hdec _ _ Hv). eauto. }
  assert (forall id, id ∉ live <-> unreferenced s2 id) as Hlive.
  { intros id. unfold live. rewrite (live_pack_spec s); [|done]. split.
    - intros Hn h v loc Hv Hl Hid. rewrite Hix in Hv. case_decide; [|done]. apply Hn. eauto 10.
    - intros Hu (h & v & loc & Hh & Hv & Hl & Hid). eapply (Hu h); [|done|done].
      by rewrite Hix, decide_True. }
  assert (a_id (active s1) = a_id (active s2)) as -> by by rewrite (sw_active _ _ _ Hs2).
  apply wp_bind, wp_gets. eapply wp_seq; [apply wp_drop_packs; [done|done|intros id; apply Hlive]| |].
  2:{ intros x s3 ([? Hw] & Hs3 & Hc3 & Ha3 & Hx). split_and!; [split; [done|intros ?; apply Hw; by intros [= ->]]|
        by eapply swept_trans|done]. }
  intros [removed freed] s3 (Hw & Hs3 & Hc3 & Ha3 & Hpk). apply wp_ret.
  split_and!; [split; [apply Hw|intros _; by apply Hw]|by eapply swept_trans|]. split.
  - intros h. by rewrite Hc3, Hix.
  - simpl. unfold orphans. rewrite length_fmap.
    by rewrite <- (located_length s locs (fun h => h ∉ P) Hd Hlc).
  - intros id f Hf.
    assert (unreferenced s3 id <-> unreferenced s2 id) as -> by (unfold unreferenced; by rewrite Hc3).
    assert (forall n, id ∈ listing n (elements (list_to_set (pack_id <$> locs.*2) : gset Uuid)) <->
      ~ unreferenced s id) as Hin.
    { intros n. rewrite listing_perm, elem_of_elements, elem_of_list_to_set. split.
      - intros (loc & -> & ([h loc'] & -> & (v & ? & ?)%Hlc)%list_elem_of_fmap)%list_elem_of_fmap Hu.
        by eapply Hu.
      - intros Hn. apply dec_stable. intros Hni. apply Hn. intros h v loc Hv Hl <-. apply Hni.
        apply (list_elem_of_fmap_2 pack_id), (list_elem_of_fmap_2 snd _ (h, loc)), Hlc. eauto. }
    assert (packs s2 !! id = Some f) as Hf2 by by rewrite Hp2, (rd_packs _ _ Hs1).
    rewrite Hpk, Hf2, (sw_active _ _ _ Hsw), <- (Hin (calls s2)).
    split.
    + case_decide as Hc; [|done]. intros _. destruct Hc as (? & ? & Hnl). split; [done|].
      split; [by apply Hlive|done].
    + intros (? & Hu & ?). rewrite decide_True; [done|]. split; [done|]. split; [done|by apply Hlive].
Qed.

(** ** The catalog *)

Definition view r (id : Z) : option Snapshot := tbl_get id (t_snapshots r) ≫= dec.

Definition next_id r : Z := default 1 (tbl_get SEQ_NEXT_SNAPSHOT_ID (t_seq r)).

Record row_ok r (id : Z) (sn : Snapshot) : Prop := {
  ro_id : sn_id sn = id;
  ro_range : 1 <= id < next_id r;
  ro_held : refs_held (store r) (snap_refs sn);
}.

Record repo_wf r : Prop := {
  rw_disk : disk_wf R (store r);
  rw_rows : forall id v, tbl_get id (t_snapshots r) = Some v ->
    exists sn, dec v = Some sn /\ row_ok r id sn;
  rw_summaries : forall id, tbl_get id (t_summaries r) = (fun sn => enc (summary sn)) <$> view r id;
  rw_manifests : forall k v, tbl_get k (manifests (store r)) = Some v -> is_Some (dec (A := Manifest) v);
  rw_next : 1 <= next_id r;
}.

(** What may happen to the catalog: ids are not reused, and the files of a
    recorded snapshot do not change. *)
Record catalog_step r r' : Prop := {
  cs_next : next_id r <= next_id r';
  cs_files : forall id sn', view r' id = Some sn' -> id < next_id r ->
    exists sn, view r id = Some sn /\ sn_files sn' = sn_files sn;
}.

#[export] Instance catalog_step_preorder : PreOrder catalog_step.
Proof using Type.
  clear HR. split; [split; [lia|eauto]|]. intros r1 r2 r3 [N1 F1] [N2 F2]. split; [lia|].
  intros id sn3 H3 Hlt. destruct (F2 _ _ H3 ltac:(lia)) as (sn2 & H2 & E2).
  destruct (F1 _ _ H2 Hlt) as (sn1 & H1 & E1). exists sn1. split; [done|congruence].
Qed.

(** The contract of an operation of the repository. *)
Definition rpost {A} r (Q : A -> Repo -> Prop) (x : result Exn A) r' : Prop :=
  repo_wf r' /\ (lives x -> mem_after R x (store r')) /\ catalog_step r r' /\
  match x with Ok a => Q a r' | Err e => calm e end.

Lemma rpost_ret {A} (a : A) (Q : A -> Repo -> Prop) r :
  repo_wf r -> mem_wf R (store r) -> Q a r -> wp (ret a) (rpost r Q) r.
Proof using Type. intros ???. by apply wp_ret. Qed.

Lemma rpost_seq {A B} (m : RM A) (f : A -> RM B) (QA : A -> Repo -> Prop) (QB : B -> Repo -> Prop) r :
  wp m (rpost r QA) r ->
  (forall a r1, repo_wf r1 -> mem_wf R (store r1) -> catalog_step r r1 -> QA a r1 ->
     wp (f a) (rpost r1 QB) r1) ->
  wp (bind m f) (rpost r QB) r.
Proof using Type.
  intros Hm Hf. eapply wp_seq; [exact Hm| |].
  - intros a r1 (Hw & Hm1 & Hc & Ha). eapply wp_mono; [apply Hf; auto; by apply Hm1|].
    intros x r2 (? & ? & ? & ?). split; [done|]. split; [done|]. split; [by etrans|done].
  - intros e r1 (Hw & Hm1 & Hc & He). split; [done|]. split; [|done].
    intros Hl. apply Hm1. intros [= ->]. by apply Hl.
Qed.

Lemma rpost_mono {A} (m : RM A) (Q Q' : A -> Repo -> Prop) r :
  wp m (rpost r Q) r -> (forall a r', catalog_step r r' -> Q a r' -> Q' a r') -> wp m (rpost r Q') r.
Proof using Type.
  intros Hm HQ. eapply wp_mono; [exact Hm|]. intros x r' (? & ? & ? & H). split; [done|].
  split; [done|]. split; [done|]. destruct x; auto.
Qed.

(** *** Work on the chunk store *)

(** The catalog and the manifests' bytes stay; the chunks of every snapshot
    stay. *)
Lemma repo_wf_store r s' :
  repo_wf r -> disk_wf R s' -> manifests s' = manifests (store r) ->
  (forall id sn, view r id = Some sn -> refs_held s' (snap_refs sn)) ->
  repo_wf (set_store s' r).
Proof using Type.
  intros [H1 H2 H3 H4 H5] Hd Hm Hk. split; [done| |done| |done].
  - intros id v Hv. destruct (H2 _ _ Hv) as (sn & Hdec & [E1 E2 E3]). exists sn. split; [done|].
    split; [done|done|]. simpl. apply (Hk id). unfold view. simpl in Hv. by rewrite Hv.
  - intros k v. simpl. rewrite Hm. apply H4.
Qed.

Lemma set_store_step r s' : catalog_step r (set_store s' r).
Proof using Type. split; [done|]. intros id sn H _. exists sn. done. Qed.

Lemma view_row r id sn : repo_wf r -> view r id = Some sn -> row_ok r id sn.
Proof using Type.
  intros Hw. unfold view. destruct (tbl_get id (t_snapshots r)) as [v|] eqn:Hv; [|done]. simpl.
  intros Hd. destruct (rw_rows _ Hw _ _ Hv) as (sn' & ? & ?). by simplify_eq.
Qed.

Lemma rpost_on_store {A} (m : M A) (Q : A -> Store -> Prop) r :
  repo_wf r -> mem_wf R (store r) ->
  wp m (post R (store r) Q) (store r) ->
  wp (on_store m) (rpost r (fun a r' => Q a (store r') /\ safe (store r) (store r') /\
    r' = set_store (store r') r)) r.
Proof using Type.
  intros Hw Hm H. unfold wp, on_store in *. destruct (m (store r)) as [x s'] eqn:E. simpl in *.
  destruct H as ([Hd Hm'] & Hs & Hx). split; [|split; [done|split; [apply set_store_step|]]].
  - apply repo_wf_store; [done|done|by apply sf_manifests|].
    intros id sn Hsn. eapply refs_held_keeps; [by apply sf_keeps|]. by eapply ro_held, view_row.
  - destruct x; [|done]. destruct r; done.
Qed.

Lemma wp_repo_call (Q : result Exn unit -> Repo -> Prop) r :
  (forall s', reads (store r) s' -> Q (Ok tt) (set_store s' r)) ->
  (forall x s', reads (store r) s' -> env_err x -> Q (Err x) (set_store s' r)) ->
  wp (on_store (call CRedb)) Q r.
Proof using Type.
  intros H1 H2. assert (wp (call CRedb) (fun x s' => Q x (set_store s' r)) (store r)) as H.
  { apply wp_call; [by right|done|done]. }
  unfold wp, on_store in *. by destruct (call CRedb (store r)).
Qed.

Lemma env_calm x : env_err x -> calm x.
Proof using Type. by intros [-> | [-> | ->]]. Qed.

Lemma repo_wf_reads r s' : repo_wf r -> reads (store r) s' -> repo_wf (set_store s' r).
Proof using Type.
  intros Hw Hs. apply repo_wf_store; [done|by eapply reads_disk, Hw|by apply rd_manifests|].
  intros id sn Hsn. eapply refs_held_keeps; [by apply reads_keeps|]. by eapply ro_held, view_row.
Qed.

Lemma rpost_read {A} (f : Repo -> A) r :
  repo_wf r -> mem_wf R (store r) ->
  wp (repo_read f) (rpost r (fun a r' => a = f r' /\ r' = set_store (store r') r /\
    reads (store r) (store r'))) r.
Proof using Type.
  intros Hw Hm. apply wp_bind, wp_repo_call.
  - intros s' Hs. apply wp_gets. split; [by apply repo_wf_reads|].
    split; [intros _; by eapply reads_after|]. split; [apply set_store_step|]. by destruct r.
  - intros x s' Hs Hx. split; [by apply repo_wf_reads|].
    split; [intros _; by eapply reads_after|]. split; [apply set_store_step|]. by apply env_calm.
Qed.

(** A change of the catalog in one transaction: only what the new state must
    satisfy is left to show. *)
Lemma rpost_write (f : Repo -> Repo) (Q : unit -> Repo -> Prop) r :
  repo_wf r -> mem_wf R (store r) ->
  (forall s', reads (store r) s' -> let r1 := set_store s' r in
     repo_wf r1 -> mem_wf R s' -> repo_wf (f r1) /\ mem_wf R (store (f r1)) /\ catalog_step r1 (f r1) /\
     Q tt (f r1)) ->
  wp (repo_write f) (rpost r Q) r.
Proof using Type.
  intros Hw Hm Hf. apply wp_bind, wp_repo_call.
  - intros s' Hs. apply wp_modify. destruct (Hf s' Hs) as (H1 & H2 & H3 & H4);
      [by apply repo_wf_reads|by eapply reads_mem|].
    split; [done|]. split; [done|]. split; [|done]. etrans; [apply set_store_step|done].
  - intros x s' Hs Hx. split; [by apply repo_wf_reads|].
    split; [intros _; by eapply reads_after|]. split; [apply set_store_step|]. by apply env_calm.
Qed.

(** ** Recording *)

(** Both ways to record a snapshot: draw an id, write the row of that id. *)
Definition record_with (mk : Z -> Snapshot) : RM Z :=
  let! id := allocate_snapshot_id in insert_rows (mk id) ;; ret id.

Lemma record_inner_alt kind label key created files :
  record_inner kind label key created files =
  record_with (fun id =>
    let snap := {| sn_id := id; sn_kind := kind; sn_created := created; sn_label := label;
                   sn_source_key := key; sn_description := ""; sn_tags := [];
                   sn_pinned := false; sn_source := ""; sn_files := files |} in
    with_source snap (compute_source snap)).
Proof using Type. done. Qed.

Record recorded r (mk : Z -> Snapshot) (id : Z) r' : Prop := {
  rc_id : id = next_id r;
  rc_next : next_id r' = id + 1;
  rc_view : forall i, view r' i = if decide (i = id) then Some (mk id) else view r i;
  rc_store : reads (store r) (store r');
}.

Lemma catalog_view_insert r id sn tb i :
  view (set_catalog (tbl_insert id (enc sn) (t_snapshots r)) tb r) i =
  if decide (i = id) then Some sn else view r i.
Proof using Type.
  unfold view. simpl. rewrite tbl_get_insert. destruct (decide (id = i)) as [->|].
  - rewrite decide_True by done. simpl. apply dec_enc.
  - by rewrite decide_False.
Qed.

Lemma next_id_insert r v : next_id (set_seq (tbl_insert SEQ_NEXT_SNAPSHOT_ID v (t_seq r)) r) = v.
Proof using Type. unfold next_id. simpl. by rewrite tbl_get_insert_eq. Qed.

Lemma repo_wf_next r n : repo_wf r -> next_id r <= n ->
  repo_wf (set_seq (tbl_insert SEQ_NEXT_SNAPSHOT_ID n (t_seq r)) r).
Proof using Type.
  clear HR. intros [H1 H2 H3 H4 H5] Hn. split; [done| |done|done|rewrite next_id_insert; lia].
  intros id v Hv. destruct (H2 _ _ Hv) as (sn & ? & [? ? ?]). exists sn. split; [done|].
  split; [done|rewrite next_id_insert; lia|done].
Qed.

(** Insert or replace one row with its summary. *)
Lemma repo_wf_insert r id sn :
  repo_wf r -> row_ok r id sn ->
  repo_wf (set_catalog (tbl_insert id (enc sn) (t_snapshots r))
                       (tbl_insert id (enc (summary sn)) (t_summaries r)) r).
Proof using Type.
  clear HR. intros [H1 H2 H3 H4 H5] Hok. split; [done| | |done|done].
  - intros i v. simpl. rewrite tbl_get_insert. case_decide as Hi.
    + intros [= <-]. exists sn. subst i. rewrite dec_enc. split; [done|]. by destruct Hok.
    + intros Hv. destruct (H2 _ _ Hv) as (sn' & ? & ?). exists sn'. split; [done|]. by destruct H0.
  - intros i. rewrite catalog_view_insert. simpl. rewrite tbl_get_insert.
    destruct (decide (id = i)) as [->|]; [by rewrite decide_True|]. rewrite H3. by rewrite decide_False.
Qed.

Lemma rpost_record_with mk r :
  repo_wf r -> mem_wf R (store r) -> next_id r < U64_MAX ->
  (forall id, sn_id (mk id) = id) -> (forall id, refs_held (store r) (snap_refs (mk id))) ->
  wp (record_with mk) (rpost r (fun id r' => recorded r mk id r')) r.
Proof using Type.
  clear HR. intros Hw Hm Hn Hid Hheld. unfold record_with, allocate_snapshot_id.
  apply wp_bind, wp_bind, wp_gets. change (default 1 _) with (next_id r).
  assert (wrap64 (next_id r + 1) = next_id r + 1) as ->.
  { apply wrap64_id. pose proof (rw_next _ Hw). unfold is_u64. lia. }
  apply wp_bind, wp_bind, wp_repo_call.
  2:{ intros x s1 Hs1 Hx. split; [by apply repo_wf_reads|]. split; [intros _; by eapply reads_after|].
      split; [apply set_store_step|by apply env_calm]. }
  intros s1 Hs1. apply wp_modify, wp_ret. set (r1 := set_store s1 r).
  set (r2 := set_seq _ r1).
  assert (repo_wf r2) as Hw2 by (apply repo_wf_next; [by apply repo_wf_reads|simpl; unfold next_id; simpl; lia]).
  assert (next_id r2 = next_id r + 1) as Hn2 by apply next_id_insert.
  assert (mem_wf R (store r2)) as Hm2 by (by eapply reads_mem).
  assert (forall r3 x, repo_wf r3 -> mem_wf R (store r3) -> calm x -> next_id r3 = next_id r2 ->
    t_snapshots r3 = t_snapshots r2 -> rpost r (fun id r' => recorded r mk id r') (Err x) r3) as Hfail.
  { intros r3 x Hw3 Hm3 Hx E1 E2. split; [done|]. split; [intros _; by apply mem_wf_up|]. split; [|done].
    split; [lia|]. intros i sn Hi _. exists sn. unfold view in *. by rewrite E2 in Hi. }
  apply wp_bind, wp_bind, wp_repo_call.
  2:{ intros x s3 Hs3 Hx. apply Hfail; [by apply repo_wf_reads|by eapply reads_mem|by apply env_calm|done..]. }
  intros s3 Hs3. apply wp_modify, wp_ret. rewrite Hid.
  set (r3 := set_store s3 r2). assert (repo_wf r3) as Hw3 by (by apply repo_wf_reads).
  assert (reads (store r) s3) as Hs03 by (etrans; [exact Hs1|exact Hs3]).
  assert (next_id r3 = next_id r + 1) as Hn3 by done.
  set (mk_ := mk (next_id r)).
  assert (recorded r mk (next_id r) (set_catalog (tbl_insert (next_id r) (enc mk_) (t_snapshots r3))
      (tbl_insert (next_id r) (enc (summary mk_)) (t_summaries r3)) r3)) as Hrec.
  { split; [done|exact Hn3| |done]. intros i. by rewrite catalog_view_insert. }
  split; [|split; [intros _; by eapply reads_after|split; [|exact Hrec]]].
  - apply repo_wf_insert; [done|]. split; [apply Hid|pose proof (rw_next _ Hw); lia|].
    eapply refs_held_keeps; [apply (reads_keeps (store r)); done|apply Hheld].
  - split; [rewrite (rc_next _ _ _ _ Hrec); lia|]. intros i sn Hi Hlt.
    rewrite (rc_view _ _ _ _ Hrec), decide_False in Hi by lia. eauto.
Qed.

(** ** Chunking the files of a snapshot *)

Definition entry_of (p : string) (b : bytes) (e : FileEntry) : Prop :=
  fe_path e = p /\ manifest_of (fe_manifest e) b.

Definition entries_held s (es : list FileEntry) : Prop :=
  refs_held s (es ≫= (fun f => m_chunks (fe_manifest f))).

Lemma entries_held_cons s e es :
  entries_held s (e :: es) <-> refs_held s (m_chunks (fe_manifest e)) /\ entries_held s es.
Proof using Type. unfold entries_held, refs_held. simpl. apply Forall_app. Qed.

(** Only the store has changed, and it has kept its chunks. *)
Definition stored r r' : Prop := safe (store r) (store r') /\ r' = set_store (store r') r.

Lemma stored_refl r : stored r r.
Proof using Type. split; [done|by destruct r]. Qed.

Lemma stored_trans r1 r2 r3 : stored r1 r2 -> stored r2 r3 -> stored r1 r3.
Proof using Type. intros [S1 ->] [S2 ->]. split; [by etrans|done]. Qed.

Lemma default_chunker_ok : 1 <= ck_max default_chunker <= U32_MAX.
Proof using Type. done. Qed.

(** Contents a manifest can describe. *)
Definition storable (b : bytes) : Prop := len b <= U64_MAX /\ in_play b.

Lemma rpost_chunk_all files r :
  repo_wf r -> mem_wf R (store r) -> Forall (fun pb => storable pb.2) files ->
  wp (chunk_all files) (rpost r (fun es r' => stored r r' /\
    Forall2 (fun pb e => entry_of pb.1 pb.2 e) files es /\ entries_held (store r') es)) r.
Proof using Type*.
  revert r. induction files as [|[p b] files IH]; intros r Hw Hm Hsz; cbn [chunk_all].
  { apply rpost_ret; [done..|]. split; [apply stored_refl|]. split; constructor. }
  apply Forall_cons in Hsz as [Hb Hsz]. apply wp_bind, wp_gets. eapply rpost_seq.
  { apply rpost_on_store; [done|done|].
    apply (post_chunk_into_store R HR default_chunker b (compression r)); [apply Hw|done|done|apply Hb..]. }
  intros [st m] r1 Hw1 Hm1 Hc1 ((Hmo & Hheld & _) & Hs1). simpl in *.
  eapply rpost_seq; [by apply IH|]. intros es r2 Hw2 Hm2 Hc2 (Hs2 & Hes & Hh2).
  apply rpost_ret; [done..|]. split; [by eapply stored_trans|]. split; [by constructor|].
  apply entries_held_cons. split; [|done]. eapply refs_held_keeps; [apply sf_keeps, Hs2|done].
Qed.

Lemma rpost_ingest_path src r :
  repo_wf r -> mem_wf R (store r) -> (forall b, fs (store r) !! src = Some b -> storable b) ->
  wp (ingest_path src) (rpost r (fun m r' => stored r r' /\ refs_held (store r') (m_chunks m) /\
    exists b, fs (store r) !! src = Some b /\ manifest_of m b)) r.
Proof using Type*.
  intros Hw Hm Hsz. unfold ingest_path. apply wp_bind, wp_gets. eapply rpost_seq.
  { apply (rpost_on_store _ (fun b s' => reads (store r) s' /\ fs (store r) !! src = Some b)); [done|done|].
    apply post_reads; [apply Hw|done|unfold read_file; calm_body|].
    apply wp_bind, wp_call; [by left| |by intros]. intros s1 Hs1. apply wp_bind, wp_gets, wp_lift_result.
    - intros b Hb. rewrite (rd_fs _ _ Hs1) in Hb. by destruct (fs (store r) !! src); simplify_eq/=.
    - done. }
  intros b r1 Hw1 Hm1 Hc1 ([Hs1 Hb] & Hst1). eapply rpost_mono.
  { apply rpost_on_store; [done|done|]. apply (post_ingest_reader R HR default_chunker);
      [apply Hw1|done|apply default_chunker_ok|by apply Hsz..]. }
  intros m r2 _ ([Hmo Hheld] & Hst2). split; [|split; [done|eauto]]. by eapply stored_trans.
Qed.

Lemma rpost_stream_all files r :
  repo_wf r -> mem_wf R (store r) ->
  Forall (fun ps => forall b, fs (store r) !! ps.2 = Some b -> storable b) files ->
  wp (stream_all files) (rpost r (fun es r' => stored r r' /\
    Forall2 (fun ps e => exists b, fs (store r) !! ps.2 = Some b /\ entry_of ps.1 b e) files es /\
    entries_held (store r') es)) r.
Proof using Type*.
  revert r. induction files as [|[p src] files IH]; intros r Hw Hm Hsz; cbn [stream_all].
  { apply rpost_ret; [done..|]. split; [apply stored_refl|]. split; constructor. }
  apply Forall_cons in Hsz as [Hb Hsz]. eapply rpost_seq; [by apply rpost_ingest_path|].
  intros m r1 Hw1 Hm1 Hc1 (Hs1 & Hheld & b & Hsrc & Hmo).
  assert (fs (store r1) = fs (store r)) as Hfs by apply sf_fs, Hs1.
  eapply rpost_seq; [apply IH; [done|done|by rewrite Hfs]|].
  intros es r2 Hw2 Hm2 Hc2 (Hs2 & Hes & Hh2). rewrite Hfs in Hes.
  apply rpost_ret; [done..|]. split; [by eapply stored_trans|]. split.
  - constructor; [|done]. simpl. exists b. done.
  - apply entries_held_cons. split; [|done]. eapply refs_held_keeps; [apply sf_keeps, Hs2|done].
Qed.

(** A snapshot of files whose chunks are in the store. *)
Lemma rpost_record_inner kind label key created es r :
  repo_wf r -> mem_wf R (store r) -> next_id r < U64_MAX -> entries_held (store r) es ->
  wp (record_inner kind label key created es)
    (rpost r (fun id r' => id = next_id r /\ reads (store r) (store r') /\ next_id r' = id + 1 /\
       (forall i, i <> id -> view r' i = view r i) /\
       exists sn, view r' id = Some sn /\ sn_files sn = es /\ sn_created sn = created /\
         sn_source_key sn = key /\ sn_pinned sn = false)) r.
Proof using Type.
  intros Hw Hm Hn Hheld. rewrite record_inner_alt. eapply rpost_mono.
  { apply rpost_record_with; [done..|]. intros id. apply Hheld. }
  intros id r' _ [H1 H2 H3 H4]. split_and!; [done..| |].
  { intros i Hi. by rewrite H3, decide_False. }
  eexists. rewrite H3, decide_True by done.
  split; [done|]. by split_and!.
Qed.
End safety.
