(* ===== verification/RepoOps.v ===== *)
(** * The snapshot repository: collection and retention

    The contracts of the remaining operations of [Repository]; see [RepoWp]
    for the invariant.

    The second part is about retention: which snapshots a prune removes. *)
From S2P Require Import Prelude.
From S2P Require Import Text.
From S2P Require Import Files.
From S2P Require Import Monad.
From S2P Require Import Table.
From S2P Require Import Versioning.
From S2P Require Import ChunkTypes.
From S2P Require Import ChunkStore.
From S2P Require Import ChunkWp.
From S2P Require Import ChunkFile.
From S2P Require Import ChunkFileSafety.
From S2P Require Import Repository.
From S2P Require Import RepoWp.
From stdpp Require Import options.
Open Scope Z_scope.
Open Scope monad_scope.

Section ops.
Context {TC TM TS TN TQ : Type} {kle : bytes -> bytes -> Prop}.
Context {TBC : Table bytes bytes TC kle} {TBM : Table string bytes TM String.le}.
Context {TBS : Table string bytes TS String.le}.
Context {TBN : Table Z bytes TN Z.le} {TBQ : Table string Z TQ String.le}.
Context {CM : Codec Manifest bytes} {CS : Codec Snapshot bytes} {CU : Codec UnifiedSnapshot bytes}.
Context {B3 : Blake3} {ZS : Zstd} {EN : ChunkWorld} {FC : FastCdc}.
Context {ZL : ZstdLaws} {WL : WorldLaws} {FL : FastCdcLaws} {DL : DigestLaws}.
Context (R : Z) (HR : 0 <= R <= 2 ^ 62).
Local Abbreviation Store := (Store TC TM TS).
Local Abbreviation Repo := (Repo TC TM TS TN TQ).
Local Abbreviation M := (@M TC TM TS).
Local Abbreviation RM := (@RM TC TM TS TN TQ).
Implicit Types s : Store.
Implicit Types r : Repo.

(** ** Reading the catalog *)

Lemma rpost_rlift {A} (x : result ChunkStoreError A) (Q : A -> Repo -> Prop) r :
  repo_wf R r -> mem_wf R (store r) -> (forall a, x = Ok a -> Q a r) -> wp (rlift x) (rpost R r Q) r.
Proof using Type.
  intros Hw Hm HQ. unfold wp, rlift, on_store, lift_result.
  destruct x as [a|e]; simpl; destruct r; (split; [done|split; [intros _; by apply mem_wf_after|split; [done|]]]); simpl; auto.
Qed.

Lemma catalog_rows_spec {A} `{!Codec A bytes} (rows : list (Z * bytes)) :
  (forall k v, (k, v) ∈ rows -> is_Some (dec (A := A) v)) ->
  decode_rows rows = Ok (omap (fun kv => dec (A := A) kv.2) rows).
Proof using Type.
  induction rows as [|[k v] rows IH]; intros H; [done|]. cbn [decode_rows].
  destruct (H k v ltac:(left)) as [a Ha]. rewrite Ha. simpl. rewrite IH; [by rewrite Ha|].
  intros k' v' ?. apply (H k'). by right.
Qed.

(** Rows with distinct keys that name their values decode to distinct values. *)
Lemma decoded_ids {A} `{!Codec A bytes} (get_id : A -> Z) (rows : list (Z * bytes)) :
  NoDup rows.*1 -> (forall k v a, (k, v) ∈ rows -> dec v = Some a -> get_id a = k) ->
  NoDup (get_id <$> omap (fun kv => dec (A := A) kv.2) rows).
Proof using Type.
  clear HR. induction rows as [|[k v] rows IH]; intros Hnd Hid; [constructor|].
  apply NoDup_cons in Hnd as [Hnin Hnd].
  assert (NoDup (get_id <$> omap (fun kv => dec (A := A) kv.2) rows)) as IH'.
  { apply IH; [done|]. intros k' v' a ?. apply Hid. by right. }
  simpl. destruct (dec v) as [a|] eqn:Ha; [|done]. simpl. constructor; [|done].
  rewrite (Hid k v a ltac:(left) Ha).
  intros (b & -> & ([k' v'] & Hin & Hb)%list_elem_of_omap)%list_elem_of_fmap.
  apply Hnin. rewrite (Hid k' v' b ltac:(by right) Hb). by apply (list_elem_of_fmap_2 fst) in Hin.
Qed.

(** The snapshots of the catalog in the order of their ids. *)
Definition snaps_of r : list Snapshot := omap (fun kv => dec kv.2) (tbl_iter (t_snapshots r)).

Lemma elem_of_snaps r sn : sn ∈ snaps_of r <-> exists id, view r id = Some sn.
Proof using Type.
  unfold snaps_of, view. rewrite list_elem_of_omap. split.
  - intros ([id v] & Hv%tbl_iter_get & Hd). exists id. by rewrite Hv.
  - intros (id & Hid). destruct (tbl_get id (t_snapshots r)) as [v|] eqn:Hv; [|done].
    exists (id, v). split; [by apply tbl_iter_get|done].
Qed.

Lemma snaps_ids r : repo_wf R r -> NoDup (sn_id <$> snaps_of r).
Proof using Type.
  intros Hw. apply decoded_ids; [apply tbl_iter_nodup|]. intros k v sn Hv%tbl_iter_get Hd.
  destruct (rw_rows _ _ Hw _ _ Hv) as (sn' & ? & [? _ _]). by simplify_eq.
Qed.

(** A query: the state changes by the calls it makes only. *)
Definition query r r' : Prop := reads (store r) (store r') /\ r' = set_store (store r') r.

Lemma query_refl r : query r r.
Proof using Type. split; [done|by destruct r]. Qed.

Lemma query_trans r1 r2 r3 : query r1 r2 -> query r2 r3 -> query r1 r3.
Proof using Type. intros [S1 E1] [S2 E2]. split; [by etrans|]. by rewrite E2, E1. Qed.

Lemma query_view r r' id : query r r' -> view r' id = view r id.
Proof using Type. by intros [_ ->]. Qed.

Lemma query_snaps r r' : query r r' -> snaps_of r' = snaps_of r.
Proof using Type. by intros [_ ->]. Qed.

Lemma query_stored r r' : query r r' -> stored r r'.
Proof using Type. intros [Hs E]. split; [by apply reads_safe|done]. Qed.

Lemma rpost_load r :
  repo_wf R r -> mem_wf R (store r) ->
  wp load_all_snapshots (rpost R r (fun l r' => l = snaps_of r /\ query r r')) r.
Proof using Type.
  intros Hw Hm. eapply rpost_seq; [by apply rpost_read|].
  intros rows r1 Hw1 Hm1 _ (-> & E & Hs). rewrite E.
  apply rpost_rlift; [by rewrite <- E..|]. simpl. intros l.
  rewrite catalog_rows_spec.
  - intros [= <-]. done.
  - intros k v Hv%tbl_iter_get. destruct (rw_rows _ _ Hw _ _ Hv) as (sn & ? & _). eauto.
Qed.

Lemma summaries_of r : repo_wf R r ->
  (forall k v, (k, v) ∈ tbl_iter (t_summaries r) -> exists sn, view r k = Some sn /\ v = enc (summary sn)).
Proof using Type.
  intros Hw k v Hv%tbl_iter_get. rewrite (rw_summaries _ _ Hw) in Hv.
  destruct (view r k) as [sn|]; [|done]. simpl in Hv. injection Hv as <-. eauto.
Qed.

(** The timeline: one summary per snapshot, oldest first. *)
Lemma older_first_total a b : older_first a b = true \/ older_first b a = true.
Proof using Type. clear HR. unfold older_first. rewrite !orb_true_iff, !andb_true_iff, !Z.ltb_lt, !Z.leb_le, !Z.eqb_eq. lia. Qed.

Lemma older_first_trans a b c : older_first a b = true -> older_first b c = true -> older_first a c = true.
Proof using Type. clear HR. unfold older_first. rewrite !orb_true_iff, !andb_true_iff, !Z.ltb_lt, !Z.leb_le, !Z.eqb_eq. lia. Qed.

Lemma rpost_snapshots r :
  repo_wf R r -> mem_wf R (store r) ->
  wp snapshots (rpost R r (fun l r' => query r r' /\
    (forall us, us ∈ l <-> exists id sn, view r id = Some sn /\ us = summary sn) /\
    NoDup (us_id <$> l) /\ StronglySorted (fun a b => older_first a b = true) l)) r.
Proof using Type.
  intros Hw Hm. eapply rpost_seq; [by apply rpost_read|].
  intros rows r1 Hw1 Hm1 _ (-> & E & Hs). eapply (rpost_seq _ _ _ (fun l r' => r' = r1 /\
    l = omap (fun kv => dec (A := UnifiedSnapshot) kv.2) (tbl_iter (t_summaries r1)))).
  { apply rpost_rlift; [done|done|]. intros l. rewrite catalog_rows_spec; [by intros [= <-]|].
    intros k v (sn & _ & ->)%summaries_of; [|done]. rewrite dec_enc. eauto. }
  intros l r2 Hw2 Hm2 _ (-> & ->). apply rpost_ret; [done..|].
  assert (t_summaries r1 = t_summaries r) as -> by by rewrite E.
  split; [done|]. set (l := omap _ _).
  assert (forall us, us ∈ l <-> exists id sn, view r id = Some sn /\ us = summary sn) as Hl.
  { intros us. unfold l. rewrite list_elem_of_omap. split.
    - intros ([k v] & (sn & Hv & ->)%summaries_of & Hd); [|done]. simpl in Hd. rewrite dec_enc in Hd.
      simplify_eq. eauto.
    - intros (id & sn & Hv & ->). exists (id, enc (summary sn)). simpl. rewrite dec_enc. split; [|done].
      apply tbl_iter_get. by rewrite (rw_summaries _ _ Hw), Hv. }
  split; [|split].
  - intros us. by rewrite elem_of_sort_by.
  - rewrite sort_by_perm. apply decoded_ids; [apply tbl_iter_nodup|].
    intros k v us (sn & Hv & ->)%summaries_of Hus; [|done]. rewrite dec_enc in Hus. simplify_eq.
    apply (ro_id _ _ _ (view_row _ _ _ _ Hw Hv)).
  - apply sort_by_sorted; [apply older_first_trans|apply older_first_total].
Qed.

(** ** Garbage collection *)

(** Referenced by a snapshot or by a manifest of the delta-resume table. *)
Definition referenced r (h : Blake3Hash) : Prop :=
  (exists id sn, view r id = Some sn /\ h ∈ (c_hash <$> snap_refs sn)) \/
  (exists k v m, tbl_get k (manifests (store r)) = Some v /\ dec v = Some m /\ h ∈ (c_hash <$> m_chunks m)).

Lemma manifests_of_spec (rows : list (string * bytes)) :
  (forall k v, (k, v) ∈ rows -> is_Some (dec (A := Manifest) v)) ->
  manifests_of rows = Ok (omap (fun kv => dec (A := Manifest) kv.2) rows).
Proof using Type.
  induction rows as [|[k v] rows IH]; intros H; [done|]. cbn [manifests_of].
  destruct (H k v ltac:(left)) as [a Ha]. rewrite Ha. simpl. rewrite IH; [by rewrite Ha|].
  intros k' v' ?. apply (H k'). by right.
Qed.

Lemma rpost_all_manifests r :
  repo_wf R r -> mem_wf R (store r) ->
  wp (on_store all_manifests) (rpost R r (fun ms r' => query r r' /\
    forall m, m ∈ ms <-> exists k v, tbl_get k (manifests (store r)) = Some v /\ dec v = Some m)) r.
Proof using Type.
  intros Hw Hm. eapply rpost_mono.
  { apply (rpost_on_store R _ (fun ms s' => reads (store r) s' /\
      ms = omap (fun kv => dec (A := Manifest) kv.2) (tbl_iter (manifests (store r))))); [done|done|].
    apply post_reads; [apply Hw|done|unfold all_manifests, db_read; calm_body|].
    apply wp_bind, wp_db_read; [|by intros]. intros s1 Hs1. rewrite (rd_manifests _ _ Hs1).
    rewrite manifests_of_spec; [by apply wp_ret|].
    intros k v Hv%tbl_iter_get. exact (rw_manifests R r Hw k v Hv). }
  intros ms r' _ ([Hs ->] & _ & E). split; [done|]. intros m. rewrite list_elem_of_omap. split.
  - intros ([k v] & Hv%tbl_iter_get & Hd). eauto.
  - intros (k & v & Hv & Hd). exists (k, v). split; [by apply tbl_iter_get|done].
Qed.

(** What a finished collection has done. *)
Record gc_done r r' (rep : GcReport) : Prop := {
  gd_sweep : exists P, (forall h, h ∈ P <-> referenced r h) /\
    sweep_done P (store r) (store r') rep;
  gd_catalog : forall id, view r' id = view r id;
  gd_manifests : manifests (store r') = manifests (store r);
  gd_fs : fs (store r') = fs (store r);
}.

Lemma sweep_done_reads P s s1 s2 rep : reads s s1 -> sweep_done P s1 s2 rep -> sweep_done P s s2 rep.
Proof using Type.
  intros [E1 E2 E3 E4 E5 E6 E7 E8] [D1 D2 D3]. unfold unreferenced in *.
  split; [intros h; by rewrite D1, E2|by rewrite D2, E2|].
  intros id f Hf. rewrite D3 by by rewrite E1. by rewrite E2, E6.
Qed.

Lemma reachable_referenced r ms :
  (forall m, m ∈ ms <-> exists k v, tbl_get k (manifests (store r)) = Some v /\ dec v = Some m) ->
  forall h, h ∈ reachable_from (snaps_of r) ms <-> referenced r h.
Proof using Type.
  intros Hms h. unfold reachable_from, referenced.
  rewrite elem_of_union, !elem_of_list_to_set, !list_elem_of_fmap. split.
  - intros [(c & -> & (sn & Hc & (id & Hid)%elem_of_snaps)%list_elem_of_bind)
           |(c & -> & (m & Hc & (k & v & ? & ?)%Hms)%list_elem_of_bind)].
    + left. exists id, sn. split; [done|]. by apply list_elem_of_fmap_2.
    + right. exists k, v, m. split; [done|split; [done|]]. by apply list_elem_of_fmap_2.
  - intros [(id & sn & Hid & (c & -> & Hc)%list_elem_of_fmap)
           |(k & v & m & Hv & Hd & (c & -> & Hc)%list_elem_of_fmap)].
    + left. exists c. split; [done|]. apply list_elem_of_bind. exists sn. split; [done|].
      apply elem_of_snaps. eauto.
    + right. exists c. split; [done|]. apply list_elem_of_bind. exists m. split; [done|].
      apply Hms. eauto.
Qed.

Lemma rpost_sweep (P : gset Blake3Hash) r :
  repo_wf R r -> mem_wf R (store r) -> (forall h, h ∈ P <-> referenced r h) ->
  wp (on_store (sweep P)) (rpost R r (fun rep r' => gc_done r r' rep)) r.
Proof using WL.
  intros Hw Hm HP. pose proof (wp_sweep R P (store r) (rw_disk _ _ Hw) Hm) as H.
  unfold wp, on_store in *. destruct (sweep P (store r)) as [x s']. simpl in *.
  destruct H as ([Hd Hm'] & Hsw & Hx).
  split; [|split; [done|split; [apply set_store_step|]]].
  - apply repo_wf_store; [done|done|apply Hsw|]. intros id sn Hsn.
    pose proof (ro_held _ _ _ (view_row _ _ _ _ Hw Hsn)) as Hheld. unfold refs_held in *.
    rewrite Forall_forall in *. intros c Hc. destruct (Hheld c Hc) as (p & Hp). exists p.
    apply (sw_keeps _ _ _ Hsw); [|done]. apply HP. left. exists id, sn. split; [done|].
    by apply list_elem_of_fmap_2.
  - destruct x as [rep|e]; [|done]. split; [by exists P|done|apply Hsw|apply Hsw].
Qed.

Lemma gc_done_query r r1 r2 rep : query r r1 -> gc_done r1 r2 rep -> gc_done r r2 rep.
Proof using Type.
  intros Hq [(P & HP & Hsw) Hc Hman Hfs]. destruct Hq as [Hs E]. split.
  - exists P. split; [|by eapply sweep_done_reads]. intros h. rewrite HP.
    unfold referenced. rewrite E. simpl. by rewrite (rd_manifests _ _ Hs).
  - intros id. by rewrite Hc, E.
  - by rewrite Hman, (rd_manifests _ _ Hs).
  - by rewrite Hfs, (rd_fs _ _ Hs).
Qed.

Lemma rpost_gc r :
  repo_wf R r -> mem_wf R (store r) -> wp gc (rpost R r (fun rep r' => gc_done r r' rep)) r.
Proof using WL.
  intros Hw Hm. unfold gc, gc_locked. eapply rpost_seq; [by apply rpost_load|].
  intros snaps r1 Hw1 Hm1 _ (-> & Hq1). eapply rpost_mono; [|intros rep r'; intros _; by apply gc_done_query].
  eapply rpost_seq; [by apply rpost_all_manifests|]. intros ms r2 Hw2 Hm2 _ (Hq2 & Hms).
  eapply rpost_mono; [|intros rep r'; intros _; by apply gc_done_query].
  rewrite <- (query_snaps _ _ Hq1), <- (query_snaps _ _ Hq2). apply rpost_sweep; [done|done|].
  apply reachable_referenced. destruct Hq2 as [Hs _]. by rewrite (rd_manifests _ _ Hs).
Qed.

(** ** Compaction *)

Lemma post_roll s : disk_wf R s -> mem_wf R s ->
  wp roll_active_pack (post R s (fun _ s' => True)) s.
Proof using Type*.
  intros Hd Hm. assert (calmly (TC := TC) (TM := TM) (TS := TS) roll_active_pack) as Hc.
  { unfold roll_active_pack, roll_locked, create_pack, db_write. calm_body. }
  pose proof (wp_roll_locked R s ltac:(lia) Hd Hm) as H. specialize (Hc s).
  unfold wp, post, roll_active_pack in *. destruct H as (? & ? & ? & _).
  split; [done|]. split; [by apply steps_safe; [|apply steps_keeps]|]. by destruct (roll_locked s).1.
Qed.

Lemma post_stats_of active_id live ids s :
  disk_wf R s -> mem_wf R s ->
  wp (stats_of active_id live ids) (post R s (fun l s' => reads s s' /\
    Forall2 (fun id p => ps_id p = id /\ is_active p = bool_decide (id = active_id)) ids l)) s.
Proof using Type.
  intros Hd Hm. apply post_reads; [done|done| |].
  { clear Hd Hm s. induction ids as [|id ids IH]; cbn [stats_of]; calm_body. }
  revert s Hd Hm. induction ids as [|id ids IH]; intros s Hd Hm; cbn [stats_of].
  { apply wp_ret. split; [done|]. split; [done|constructor]. }
  apply wp_bind, wp_call; [by left| |by intros]. intros s1 Hs1. apply wp_bind, wp_gets, wp_bind.
  eapply wp_mono; [apply IH; eauto using reads_disk, reads_mem|].
  intros [l|x] s2 [Hs2 Hl]; [|split; [by etrans|done]]. apply wp_ret. split; [by etrans|].
  split; [by etrans; [|apply Hl]|]. constructor; [done|apply Hl].
Qed.

(** The packs a compaction may work on: known, and not the active one. *)
Lemma post_pack_stats s :
  disk_wf R s -> mem_wf R s ->
  wp pack_stats (post R s (fun l s' => reads s s' /\
    Forall (fun p => ps_id p ∈ dom (packs s) /\ is_active p = bool_decide (ps_id p = a_id (active s))) l)) s.
Proof using WL.
  clear HR. intros Hd Hm. unfold pack_stats. apply wp_bind, wp_gets. eapply post_seq.
  { apply (post_reads R all_locators (fun _ s' => reads s s')); [done|done|apply calm_all_locators|].
    eapply wp_mono; [by apply (wp_all_locators R)|]. intros x s1 [Hs1 _]. by destruct x. }
  intros locs s1 Hd1 Hm1 _ Hs1. cbn beta in Hs1. eapply post_seq.
  { apply (post_reads R list_packs (fun l s' => reads s s' /\ forall id, id ∈ l -> id ∈ dom (packs s)));
      [done|done|unfold list_packs; calm_body|].
    apply wp_bind, wp_gets, wp_bind, wp_call; [by left| |by intros]. intros s2 Hs2. apply wp_gets.
    split; [done|]. split; [by etrans|]. intros id. rewrite listing_perm, elem_of_elements.
    by rewrite (rd_packs _ _ Hs2), (rd_packs _ _ Hs1). }
  intros ids s2 Hd2 Hm2 _ [Hs2 Hids]. eapply post_mono; [by apply post_stats_of|].
  intros l s3 _ [Hs3 Hl]. split; [by etrans|]. rewrite Forall_forall. intros p Hp.
  apply list_elem_of_lookup in Hp as (i & Hi). destruct (Forall2_lookup_r _ _ _ _ _ Hl Hi) as (id & Hid & <- & Ha).
  split; [|done]. apply Hids. by eapply list_elem_of_lookup_2.
Qed.

Lemma post_compact_loop targets rep s :
  disk_wf R s -> mem_wf R s ->
  Forall (fun id => drawn (calls s) id /\ id <> a_id (active s)) targets ->
  wp (compact_loop targets rep) (post R s (fun _ s' =>
    forall h, is_Some (tbl_get h (chunks s')) <-> is_Some (tbl_get h (chunks s)))) s.
Proof using Type*.
  revert rep s. induction targets as [|id targets IH]; intros rep s Hd Hm Ht; cbn [compact_loop].
  { by apply post_ret. }
  apply Forall_cons in Ht as [[Hid Hne] Ht]. apply wp_bind, wp_gets.
  destruct (cancelled (calls s)); [by apply post_ret|].
  eapply post_seq; [by apply post_compact_pack|].
  intros [freed moved] s1 Hd1 Hm1 Hs1 [Hla Hk]. eapply post_mono.
  - apply IH; [done|done|]. eapply Forall_impl; [exact Ht|]. intros id' [Hdr Hne']. split.
    + eapply drawn_le; [apply sf_calls|]; done.
    + destruct Hla as [->|Hup] ; [done|]. intros ->. by eapply drawn_not_upcoming.
  - intros a s2 _ Hk2 h. etrans; [apply Hk2|apply Hk].
Qed.

Lemma gc_done_safe r r1 r2 rep :
  gc_done r r1 rep -> (forall id, view r2 id = view r1 id) ->
  manifests (store r2) = manifests (store r1) -> fs (store r2) = fs (store r1) ->
  (forall h, is_Some (tbl_get h (chunks (store r2))) <-> is_Some (tbl_get h (chunks (store r1)))) ->
  forall h, is_Some (tbl_get h (chunks (store r2))) <->
    referenced r h /\ is_Some (tbl_get h (chunks (store r))).
Proof using Type.
  clear HR. intros [(P & HP & [Hix _ _]) _ _ _] _ _ _ Hk h. rewrite Hk, Hix, <- HP.
  case_decide; (split; [by intros [? ?]|]); [by intros [_ ?]|by intros [? _]].
Qed.

(** A full compaction leaves exactly the referenced chunks indexed, and every
    snapshot whole. *)
Lemma rpost_compact opts r :
  repo_wf R r -> mem_wf R (store r) ->
  wp (compact opts) (rpost R r (fun _ r' => (forall id, view r' id = view r id) /\
    fs (store r') = fs (store r) /\
    forall h, is_Some (tbl_get h (chunks (store r'))) <->
      referenced r h /\ is_Some (tbl_get h (chunks (store r))))) r.
Proof using Type*.
  intros Hw Hm. unfold compact. eapply rpost_seq; [by apply rpost_gc|].
  intros g r1 Hw1 Hm1 _ Hgc. eapply rpost_seq.
  { apply rpost_on_store; [done|done|].
    (* the index survives the roll *)
    eapply wp_mono; [apply wp_and; [apply post_roll; [apply Hw1|done]|
      apply (wp_roll_locked R (store r1)); [lia|apply Hw1|done]]|].
    intros x s' [(H1 & H2 & H3) (_ & _ & Hch & _)]. split; [exact H1|]. split; [exact H2|].
    instantiate (1 := fun _ s' => chunks s' = chunks (store r1)). by destruct x. }
  intros [] r2 Hw2 Hm2 _ (Hch2 & Hs2 & E2). eapply rpost_seq.
  { apply rpost_on_store; [done|done|]. apply post_pack_stats; [apply Hw2|done]. }
  intros l r3 Hw3 Hm3 _ ([Hs3 Hl] & _ & E3). eapply rpost_seq.
  { apply rpost_on_store; [done|done|]. apply post_compact_loop; [apply Hw3|done|].
    rewrite Forall_forall. intros id (p & -> & [Hp Hin]%list_elem_of_filter)%list_elem_of_fmap.
    rewrite Forall_forall in Hl. destruct (Hl p Hin) as [Hdom Ha]. split.
    - eapply drawn_le; [by apply rd_calls|]. by eapply (wf_packs _ _ (rw_disk _ _ Hw2)).
    - intros E. unfold worth_compacting in Hp. rewrite (rd_active _ _ Hs3) in E.
      rewrite Ha, bool_decide_true in Hp by done. done. }
  intros rep r4 Hw4 Hm4 _ (Hk4 & Hs4 & E4). apply rpost_ret; [done..|].
  assert (forall id, view r4 id = view r id) as Hv.
  { intros id. rewrite E4, E3, E2. apply Hgc. }
  split; [done|]. split.
  - rewrite (sf_fs _ _ Hs4), (rd_fs _ _ Hs3), (sf_fs _ _ Hs2). apply Hgc.
  - eapply (gc_done_safe r r1); [exact Hgc|intros id; rewrite Hv, (gd_catalog _ _ _ Hgc); done|..].
    + by rewrite (sf_manifests _ _ Hs4), (rd_manifests _ _ Hs3), (sf_manifests _ _ Hs2).
    + by rewrite (sf_fs _ _ Hs4), (rd_fs _ _ Hs3), (sf_fs _ _ Hs2).
    + intros h. rewrite Hk4, (rd_chunks _ _ Hs3). by rewrite Hch2.
Qed.

(** ** Editing the catalog *)

Lemma view_remove_all ids r tb id :
  view (set_catalog (tbl_remove_all ids (t_snapshots r)) tb r) id =
  if decide (id ∈ ids) then None else view r id.
Proof using Type. unfold view. simpl. rewrite tbl_get_remove_all. by case_decide. Qed.

Lemma repo_wf_remove_all ids r :
  repo_wf R r ->
  repo_wf R (set_catalog (tbl_remove_all ids (t_snapshots r)) (tbl_remove_all ids (t_summaries r)) r).
Proof using Type.
  intros [H1 H2 H3 H4 H5]. split; [done| | |done|done].
  - intros id v. simpl. rewrite tbl_get_remove_all. case_decide; [done|]. intros Hv.
    destruct (H2 _ _ Hv) as (sn & ? & [? ? ?]). by exists sn.
  - intros id. rewrite view_remove_all. simpl. rewrite tbl_get_remove_all. case_decide; [done|apply H3].
Qed.

Record removed_ids r (ids : list Z) r' : Prop := {
  ri_view : forall id, view r' id = if decide (id ∈ ids) then None else view r id;
  ri_store : reads (store r) (store r');
  ri_next : next_id r' = next_id r;
}.

Lemma removed_step r ids r' : removed_ids r ids r' -> catalog_step r r'.
Proof using Type.
  intros [Hv _ Hn]. split; [by rewrite Hn|]. intros id sn. rewrite Hv. case_decide; [done|]. eauto.
Qed.

Lemma rpost_remove_snapshots ids r :
  repo_wf R r -> mem_wf R (store r) ->
  wp (remove_snapshots ids) (rpost R r (fun n r' => n = count_removed ids (t_snapshots r) /\
    removed_ids r ids r')) r.
Proof using Type.
  intros Hw Hm. unfold remove_snapshots. destruct ids as [|id0 ids].
  { apply rpost_ret; [done..|]. split; [done|]. split; [|done|done]. intros id.
    rewrite decide_False; [done|apply not_elem_of_nil]. }
  set (l := id0 :: ids). apply wp_bind, wp_gets.
  eapply (rpost_seq _ _ _ (fun _ r' => removed_ids r l r')).
  - apply rpost_write; [done|done|]. intros s' Hs r1 Hw1 Hm1.
    assert (removed_ids r1 l (set_catalog (tbl_remove_all l (t_snapshots r1))
      (tbl_remove_all l (t_summaries r1)) r1)) as Hri.
    { split; [|done|done]. intros id. apply view_remove_all. }
    split; [by apply repo_wf_remove_all|]. split; [done|]. split; [by eapply removed_step|].
    destruct Hri as [Hv _ Hn]. split; [exact Hv|exact Hs|exact Hn].
  - intros [] r1 Hw1 Hm1 _ Hri. by apply rpost_ret.
Qed.

(** An edit keeps the id and the files of the snapshot. *)
Definition keeps_files (f : Snapshot -> Snapshot) : Prop :=
  forall sn, sn_id (f sn) = sn_id sn /\ sn_files (f sn) = sn_files sn.

Lemma rpost_edit_snapshot id f r :
  repo_wf R r -> mem_wf R (store r) -> keeps_files f ->
  wp (edit_snapshot id f) (rpost R r (fun b r' => b = bool_decide (is_Some (view r id)) /\
    (forall i, view r' i = if decide (i = id) then f <$> view r id else view r i) /\
    reads (store r) (store r'))) r.
Proof using Type.
  intros Hw Hm Hf. unfold edit_snapshot.
  assert (forall (Q : unit -> Repo -> Prop) r0, repo_wf R r0 -> mem_wf R (store r0) ->
    (forall s', reads (store r0) s' -> Q tt (set_store s' r0)) ->
    wp (on_store (call CRedb)) (rpost R r0 Q) r0) as Hcall.
  { intros Q r0 Hw0 Hm0 HQ. apply wp_repo_call.
    - intros s' Hs. split; [by apply repo_wf_reads|]. split; [intros _; by eapply reads_after|].
      split; [apply set_store_step|auto].
    - intros x s' Hs Hx. split; [by apply repo_wf_reads|]. split; [intros _; by eapply reads_after|].
      split; [apply set_store_step|by apply env_calm]. }
  eapply (rpost_seq _ _ _ (fun _ r' => query r r')); [apply Hcall; [done|done|]|].
  { intros s' Hs. by split. }
  intros [] r1 Hw1 Hm1 _ Hq. apply wp_bind, wp_gets.
  pose proof (query_view _ _ id Hq) as Hv. destruct Hq as [Hs E].
  destruct (tbl_get id (t_snapshots r1)) as [v|] eqn:Hrow.
  2:{ assert (view r id = None) as Hnone by (rewrite <- Hv; unfold view; by rewrite Hrow).
      eapply (rpost_seq _ _ _ (fun _ r' => query r r')); [apply Hcall; [done|done|]|].
      { intros s' Hs'. rewrite E. split; [|done]. simpl. by etrans. }
      intros [] r2 Hw2 Hm2 _ Hq2. apply rpost_ret; [done..|]. rewrite Hnone. split; [done|].
      split; [|apply Hq2]. intros i. rewrite (query_view _ _ i Hq2). by case_decide; subst. }
  destruct (rw_rows _ _ Hw1 _ _ Hrow) as (sn & Hdec & Hok).
  assert (view r id = Some sn) as Hsn by (rewrite <- Hv; unfold view; by rewrite Hrow).
  rewrite Hdec. eapply (rpost_seq _ _ _ (fun a r' => a = sn /\ r' = r1)).
  { apply rpost_rlift; [done|done|]. by intros a [= <-]. }
  intros a r2 Hw2 Hm2 _ [-> ->]. eapply (rpost_seq _ _ _ (fun _ r' =>
    (forall i, view r' i = if decide (i = id) then Some (f sn) else view r i) /\ reads (store r) (store r'))).
  - apply rpost_write; [done|done|]. intros s' Hs' r3 Hw3 Hm3. destruct (Hf sn) as [Hfi Hff].
    assert (forall tb i, view (set_catalog (tbl_insert id (enc (f sn)) (t_snapshots r3)) tb r3) i =
      if decide (i = id) then Some (f sn) else view r3 i) as Hview by (intros; apply catalog_view_insert).
    assert (view r3 id = Some sn) as Hsn3 by (unfold view; simpl; by rewrite Hrow).
    split; [|split; [done|split]].
    + apply repo_wf_insert; [done|]. destruct (view_row _ _ _ _ Hw3 Hsn3) as [? ? ?].
      split; [congruence|done|]. unfold snap_refs. by rewrite Hff.
    + split; [done|]. intros i sn'. rewrite Hview. case_decide as Hi; [|eauto].
      intros [= <-] _. subst i. exists sn. done.
    + split; [|simpl; etrans; [exact Hs|exact Hs']]. intros i. rewrite Hview. case_decide; [done|].
      change (view r3 i) with (view r1 i). by rewrite E.
  - intros [] r3 Hw3 Hm3 _ [Hv3 Hs3]. apply rpost_ret; [done..|]. rewrite Hsn.
    split; [done|]. by split.
Qed.

Lemma with_notes_keeps g : keeps_files (fun sn => with_notes (g sn).1.1.1 (g sn).1.1.2 (g sn).1.2 (g sn).2 sn).
Proof using Type. done. Qed.
End ops.

(** * The snapshot repository: retention

    What [prune] and [prune_source] remove: exactly what the policy condemns,
    never a pinned snapshot ([prune]) or the newest of its source
    ([prune_source]); see [RepoWp] for the invariant. *)

Section prune.
Context {TC TM TS TN TQ : Type} {kle : bytes -> bytes -> Prop}.
Context {TBC : Table bytes bytes TC kle} {TBM : Table string bytes TM String.le}.
Context {TBS : Table string bytes TS String.le}.
Context {TBN : Table Z bytes TN Z.le} {TBQ : Table string Z TQ String.le}.
Context {CM : Codec Manifest bytes} {CS : Codec Snapshot bytes} {CU : Codec UnifiedSnapshot bytes}.
Context {B3 : Blake3} {ZS : Zstd} {EN : ChunkWorld} {FC : FastCdc}.
Context {ZL : ZstdLaws} {WL : WorldLaws} {FL : FastCdcLaws} {DL : DigestLaws}.
Context (R : Z) (HR : 0 <= R <= 2 ^ 62).
Local Abbreviation Store := (Store TC TM TS).
Local Abbreviation Repo := (Repo TC TM TS TN TQ).
Local Abbreviation M := (@M TC TM TS).
Local Abbreviation RM := (@RM TC TM TS TN TQ).
Implicit Types s : Store.
Implicit Types r : Repo.

(** ** The loop *)

(** Which summaries the loop of [prune] condemns. *)
Lemma elem_of_prune_loop policy cutoff idx l id :
  id ∈ prune_loop policy cutoff idx l <->
  exists j us, l !! j = Some us /\ us_id us = id /\ us_pinned us = false /\
    (forall n, keep_last policy = Some n -> n <= idx + Z.of_nat j) /\
    (forall c, cutoff = Some c -> us_created us < c).
Proof using Type.
  clear HR. revert idx. induction l as [|us l IH]; intros idx; cbn [prune_loop].
  { split; [by intros ?%elem_of_nil|]. by intros (j & us & ? & _). }
  set (wk := match keep_last policy with Some n => idx <? n | None => false end).
  set (wt := match cutoff with Some c => c <=? us_created us | None => false end).
  assert (wk = false <-> forall n, keep_last policy = Some n -> n <= idx) as Hwk.
  { unfold wk. destruct (keep_last policy) as [n|]; [|by split]. rewrite Z.ltb_ge.
    split; [by intros ? ? [= <-]|auto]. }
  assert (wt = false <-> forall c, cutoff = Some c -> us_created us < c) as Hwt.
  { unfold wt. destruct cutoff as [c|]; [|by split]. rewrite Z.leb_gt.
    split; [by intros ? ? [= <-]|auto]. }
  assert (id ∈ prune_loop policy cutoff (idx + 1) l <-> exists j u, (us :: l) !! S j = Some u /\ us_id u = id /\
    us_pinned u = false /\ (forall n, keep_last policy = Some n -> n <= idx + Z.of_nat (S j)) /\
    (forall c, cutoff = Some c -> us_created u < c)) as Htail.
  { rewrite IH. simpl. split; intros (j & u & ? & ? & ? & Hk & ?); exists j, u; (split_and!; [done..| |done]);
      intros n Hn; specialize (Hk n Hn); lia. }
  assert (id ∈ (if us_pinned us then prune_loop policy cutoff (idx + 1) l
     else if negb wk && negb wt then us_id us :: prune_loop policy cutoff (idx + 1) l
     else prune_loop policy cutoff (idx + 1) l) <->
    id ∈ prune_loop policy cutoff (idx + 1) l \/
    (us_id us = id /\ us_pinned us = false /\ wk = false /\ wt = false)) as ->.
  { destruct (us_pinned us), wk, wt; simpl; rewrite ?elem_of_cons; intuition congruence. }
  rewrite Htail, Hwk, Hwt. split.
  - intros [(j & u & H)|(H1 & H2 & H3 & H4)]; [by exists (S j), u|].
    exists O, us. split_and!; [done..| |done]. intros n Hn. specialize (H3 n Hn). simpl. lia.
  - intros ([|j] & u & Hj & H1 & H2 & H3 & H4); [right|left; eauto 10].
    simpl in Hj. injection Hj as ->. split_and!; [done..| |done]. intros n Hn. specialize (H3 n Hn). simpl in H3. lia.
Qed.

Lemma newer_first_total a b : newer_first a b = true \/ newer_first b a = true.
Proof using Type. clear HR. unfold newer_first. rewrite !orb_true_iff, !andb_true_iff, !Z.ltb_lt, !Z.leb_le, !Z.eqb_eq. lia. Qed.

Lemma newer_first_trans a b c : newer_first a b = true -> newer_first b c = true -> newer_first a c = true.
Proof using Type. clear HR. unfold newer_first. rewrite !orb_true_iff, !andb_true_iff, !Z.ltb_lt, !Z.leb_le, !Z.eqb_eq. lia. Qed.

(** How many snapshots of the catalog come before this one, newest first. *)
Definition newer (a b : Snapshot) : Prop :=
  sn_created b < sn_created a \/ (sn_created a = sn_created b /\ sn_id b < sn_id a).

#[export] Instance newer_dec a b : Decision (newer a b).
Proof using Type. unfold newer. apply _. Defined.

Definition rank r (sn : Snapshot) : nat := length (filter (fun other => newer other sn) (snaps_of r)).

Definition newer_row (a b : UnifiedSnapshot) : Prop :=
  us_created b < us_created a \/ (us_created a = us_created b /\ us_id b < us_id a).

#[export] Instance newer_row_dec a b : Decision (newer_row a b).
Proof using Type. unfold newer_row. apply _. Defined.

(** In a list sorted newest first the place of a summary is its rank. *)
Lemma place_in_sorted l j us :
  StronglySorted (fun a b => newer_first a b = true) l -> NoDup (us_id <$> l) -> l !! j = Some us ->
  length (filter (fun o => newer_row o us) l) = j.
Proof using Type.
  clear HR. intros Hs Hnd. revert j. induction Hs as [|a l Hs IH Ha]; intros j Hj; [done|].
  apply NoDup_cons in Hnd as [Hnin Hnd]. rewrite Forall_forall in Ha. rewrite filter_cons.
  destruct j as [|j]; simpl in Hj.
  - injection Hj as ->. rewrite decide_False by (unfold newer_row; lia).
    apply length_zero_iff_nil. destruct (filter _ l) as [|o l'] eqn:E; [done|].
    assert (o ∈ filter (fun o => newer_row o us) l) as [Ho Hin]%list_elem_of_filter by (rewrite E; left).
    specialize (Ha o Hin). unfold newer_first, newer_row in *.
    rewrite orb_true_iff, andb_true_iff, Z.ltb_lt, Z.leb_le, Z.eqb_eq in *. lia.
  - assert (us ∈ l) as Hin by (by eapply list_elem_of_lookup_2).
    rewrite decide_True; [simpl; f_equal; by apply IH|].
    assert (us_id us <> us_id a) as Hne.
    { intros E. apply Hnin. rewrite <- E. by apply list_elem_of_fmap_2. }
    specialize (Ha us Hin). unfold newer_first, newer_row in *.
    rewrite orb_true_iff, andb_true_iff, Z.ltb_lt, Z.leb_le, Z.eqb_eq in *. lia.
Qed.

Lemma timeline_perm r l : repo_wf R r ->
  (forall us, us ∈ l <-> exists id sn, view r id = Some sn /\ us = summary sn) -> NoDup (us_id <$> l) ->
  l ≡ₚ summary <$> snaps_of r.
Proof using Type.
  intros Hw Hl Hnd. apply NoDup_Permutation.
  - by eapply NoDup_fmap_1.
  - apply (NoDup_fmap_1 us_id). rewrite <- list_fmap_compose. exact (snaps_ids R r Hw).
  - intros us. rewrite Hl, list_elem_of_fmap. setoid_rewrite elem_of_snaps. clear HR. naive_solver.
Qed.

Lemma rank_of_place r l j sn : repo_wf R r -> l ≡ₚ summary <$> snaps_of r ->
  StronglySorted (fun a b => newer_first a b = true) l -> NoDup (us_id <$> l) -> l !! j = Some (summary sn) ->
  rank r sn = j.
Proof using Type.
  intros Hw Hl Hs Hnd Hj. rewrite <- (place_in_sorted l j _ Hs Hnd Hj), Hl. unfold rank.
  clear. induction (snaps_of r) as [|a as_ IH]; [done|]. cbn [fmap list_fmap]. rewrite !filter_cons.
  destruct (decide (newer a sn)) as [H|H].
  - rewrite decide_True by exact H. cbn [length]. by rewrite IH.
  - rewrite decide_False by exact H. exact IH.
Qed.

(** ** [prune] *)

Lemma removed_none r r' : query r r' -> removed_ids r [] r'.
Proof using Type.
  intros Hq. split; [|apply Hq|by destruct Hq as [_ ->]]. intros id.
  rewrite decide_False by apply not_elem_of_nil. by apply query_view.
Qed.

Lemma removed_query r r1 ids r2 : query r r1 -> removed_ids r1 ids r2 -> removed_ids r ids r2.
Proof using Type.
  intros Hq [Hv Hs Hn]. split.
  - intros id. rewrite Hv. case_decide; [done|]. by apply query_view.
  - etrans; [apply Hq|done].
  - rewrite Hn. by destruct Hq as [_ ->].
Qed.


(** What the policy condemns: a snapshot that is not pinned, not among the
    newest to keep and not recent enough. *)
Definition condemned (policy : PrunePolicy) (now : Z) r (sn : Snapshot) : Prop :=
  (keep_last policy <> None \/ keep_within_ms policy <> None) /\ sn_pinned sn = false /\
  (forall n, keep_last policy = Some n -> n <= Z.of_nat (rank r sn)) /\
  (forall w, keep_within_ms policy = Some w -> sn_created sn < saturating_sub_i64 now w).

Record pruned policy now r (ids : list Z) r' : Prop := {
  pr_removed : removed_ids r ids r';
  pr_ids : forall id, id ∈ ids <-> exists sn, view r id = Some sn /\ condemned policy now r sn;
}.

Lemma prune_alt policy now :
  prune policy now =
    if decide (keep_last policy <> None \/ keep_within_ms policy <> None) then
      bind snapshots (fun all =>
        let remove := prune_loop policy ((fun w => saturating_sub_i64 now w) <$> keep_within_ms policy) 0
          (sort_by newer_first all) in
        match remove with
        | [] => ret []
        | _ => remove_snapshots remove ;; ret remove
        end)
    else (ret [] : RM (list Z)).
Proof using Type.
  clear HR. unfold prune. destruct (keep_last policy), (keep_within_ms policy);
    [rewrite decide_True by (by left)|rewrite decide_True by (by left)
    |rewrite decide_True by (by right)|rewrite decide_False by (by intros [[]|[]])]; reflexivity.
Qed.

(** [prune] removes exactly the condemned snapshots. *)
Lemma rpost_prune policy now r :
  repo_wf R r -> mem_wf R (store r) -> wp (prune policy now) (rpost R r (pruned policy now r)) r.
Proof using Type.
  intros Hw Hm. rewrite prune_alt. case_decide as Hp.
  2:{ apply rpost_ret; [done..|]. split; [apply removed_none, query_refl|]. intros id.
      split; [by intros ?%elem_of_nil|]. by intros (sn & _ & ? & _). }
  eapply rpost_seq; [by apply rpost_snapshots|]. intros all r1 Hw1 Hm1 _ (Hq & Hin & Hnd & _).
  pose proof (sort_by_perm newer_first all) as Hperm.
  pose proof (sort_by_sorted newer_first newer_first_trans newer_first_total all) as Hsorted.
  set (l := sort_by newer_first all) in *.
  assert (NoDup (us_id <$> l)) as Hndl by by rewrite Hperm.
  assert (l ≡ₚ summary <$> snaps_of r) as Hl by (rewrite Hperm; by apply timeline_perm).
  set (ids := prune_loop _ _ _ l).
  assert (forall id, id ∈ ids <-> exists sn, view r id = Some sn /\ condemned policy now r sn) as Hids.
  { intros id. unfold ids. rewrite elem_of_prune_loop. split.
    - intros (j & us & Hj & <- & Hpin & Hk & Hc). assert (us ∈ all) as Hus.
      { rewrite <- Hperm. by eapply list_elem_of_lookup_2. }
      apply Hin in Hus as (id & sn & Hv & ->). destruct (view_row _ _ _ _ Hw Hv) as [Hid _ _].
      exists sn. simpl in *. rewrite Hid. split; [done|]. split_and!; [done..| |].
      + intros n Hn. rewrite (rank_of_place r l j) by done. specialize (Hk n Hn). lia.
      + intros w Hkw. apply Hc. by rewrite Hkw.
    - intros (sn & Hv & _ & Hpin & Hk & Hc). destruct (view_row _ _ _ _ Hw Hv) as [Hid _ _].
      assert (summary sn ∈ l) as (j & Hj)%list_elem_of_lookup by (rewrite Hperm; apply Hin; eauto).
      exists j, (summary sn). simpl. split_and!; [done..| |].
      + intros n Hn. rewrite <- (rank_of_place r l j sn) by done. by apply Hk.
      + intros c Hcut. destruct (keep_within_ms policy) as [w|] eqn:Hkw; [|done].
        simpl in Hcut. injection Hcut as <-. by apply Hc. }
  clearbody ids. destruct ids as [|id0 ids].
  { apply rpost_ret; [done..|]. split; [by apply removed_none|done]. }
  eapply rpost_seq; [by apply rpost_remove_snapshots|]. intros n r2 Hw2 Hm2 _ [_ Hri].
  apply rpost_ret; [done..|]. split; [by eapply removed_query|done].
Qed.

(** ** [prune_source] *)

Lemma as_i64_wrap x : is_u64 x -> wrap64 (as_i64 x) = x.
Proof using Type.
  clear HR. unfold as_i64, is_u64, wrap64, I64_MAX, U64_MAX. intros H. destruct (x <=? 9223372036854775807).
  - apply Z.mod_small. lia.
  - symmetry. apply Zmod_unique with (-1); lia.
Qed.

(** The rows the retention of a source works on: one per snapshot of it. *)
Definition source_row (sn : Snapshot) : VersionEntry :=
  {| row_id := as_i64 (sn_id sn); ts_ms := sn_created sn; retained_until_ms := None |}.

Definition of_source (src : string) r (id : Z) (sn : Snapshot) : Prop :=
  view r id = Some sn /\ sn_source_key sn = Some src.

Record source_plan (src : string) (policy : RetentionPolicy) now r (ids : list Z) : Prop := {
  sp_rows : exists rows, (forall v, v ∈ rows <-> exists id sn, of_source src r id sn /\ v = source_row sn) /\
    ids = wrap64 <$> select_for_pruning rows policy now;
  sp_own : forall id, id ∈ ids -> exists sn, of_source src r id sn;
  sp_newest : ids <> [] -> exists id sn, of_source src r id sn /\ id ∉ ids /\
    forall id' sn', of_source src r id' sn' -> sn_created sn' <= sn_created sn;
}.

Lemma source_plan_of_rows src policy now r rows :
  repo_wf R r -> next_id r <= U64_MAX ->
  (forall v, v ∈ rows <-> exists id sn, of_source src r id sn /\ v = source_row sn) ->
  source_plan src policy now r (wrap64 <$> select_for_pruning rows policy now).
Proof using Type.
  intros Hw Hn Hrows.
  assert (forall id sn, of_source src r id sn -> sn_id sn = id /\ wrap64 (as_i64 id) = id) as Hid.
  { clear HR. intros id sn [Hv _]. destruct (view_row _ _ _ _ Hw Hv) as [? ? _]. split; [done|].
    apply as_i64_wrap. unfold is_u64. lia. }
  split; [by exists rows| |].
  - intros id (i & -> & (nw & rest & E & _ & _ & Hd)%elem_of_select)%list_elem_of_fmap.
    apply to_drop_sub in Hd as (v & Hv & <-). rewrite elem_of_sort_by in Hv.
    apply Hrows in Hv as (id & sn & Hs & ->). destruct (Hid _ _ Hs) as [E1 E2]. simpl.
    rewrite E1, E2. eauto.
  - intros Hne. destruct (select_for_pruning rows policy now) as [|i l] eqn:Hsel; [done|].
    assert (i ∈ select_for_pruning rows policy now) as Hi by (rewrite Hsel; left).
    apply elem_of_select in Hi as (nw & rest & E & _).
    assert (nw ∈ rows) as Hnw by (rewrite <- (elem_of_sort_by newest_first), E; left).
    pose proof (sorted_newest_first rows) as Hs. rewrite E in Hs. inversion Hs as [|? ? _ Hall]; subst.
    rewrite Forall_forall in Hall. pose proof Hnw as (id & sn & Ho & ->)%Hrows.
    destruct (Hid _ _ Ho) as [E1 E2]. exists id, sn. split; [done|]. split.
    + intros (x & Hx & Hin)%list_elem_of_fmap. rewrite <- Hsel in Hin.
      pose proof Hin as (nw' & rest' & E' & Hneq & _ & Hd)%elem_of_select.
      apply to_drop_sub in Hd as (v & Hv & <-). rewrite elem_of_sort_by in Hv.
      apply Hrows in Hv as (id2 & sn2 & Ho2 & ->). destruct (Hid _ _ Ho2) as [F1 F2].
      rewrite E in E'. injection E' as <- <-. simpl in *. rewrite F1, F2 in *. subst id2. congruence.
    + intros id' sn' Ho'. assert (source_row sn' ∈ sort_by newest_first rows) as Hin.
      { rewrite elem_of_sort_by. apply Hrows. eauto. }
      rewrite E in Hin. apply elem_of_cons in Hin as [Heq|Hin].
      * injection Heq as _ ->. done.
      * specialize (Hall _ Hin). unfold newest_first in Hall. simpl in Hall. by apply Z.leb_le in Hall.
Qed.

Lemma rpost_plan_source_prune src policy now r :
  repo_wf R r -> mem_wf R (store r) -> next_id r <= U64_MAX ->
  wp (plan_source_prune src policy now) (rpost R r (fun ids r' => query r r' /\ source_plan src policy now r ids)) r.
Proof using Type.
  intros Hw Hm Hn. eapply rpost_seq; [by apply rpost_snapshots|].
  intros all r1 Hw1 Hm1 _ (Hq & Hin & _ & _). apply rpost_ret; [done..|]. split; [done|].
  apply source_plan_of_rows; [done..|]. intros v. rewrite list_elem_of_fmap. split.
  - intros (us & -> & [Hs (id & sn & Hv & ->)%Hin]%list_elem_of_filter). exists id, sn. by split.
  - intros (id & sn & [Hv Hs] & ->). exists (summary sn). split; [done|].
    apply list_elem_of_filter. split; [done|]. apply Hin. eauto.
Qed.

(** Only snapshots of the source go, its newest one stays, and when something
    went the collection leaves exactly the chunks that are still referenced. *)
Lemma rpost_prune_source src policy now r :
  repo_wf R r -> mem_wf R (store r) -> next_id r <= U64_MAX ->
  wp (prune_source src policy now) (rpost R r (fun rep r' => exists ids, source_plan src policy now r ids /\
    (forall id, view r' id = if decide (id ∈ ids) then None else view r id) /\
    snapshots_removed rep = count_removed ids (t_snapshots r) /\
    (ids <> [] -> forall h, is_Some (tbl_get h (chunks (store r'))) <->
       referenced r' h /\ is_Some (tbl_get h (chunks (store r)))))) r.
Proof using WL.
  intros Hw Hm Hn. eapply rpost_seq; [by apply rpost_plan_source_prune|].
  intros ids r1 Hw1 Hm1 _ (Hq & Hplan). pose proof (fun id => query_view _ _ id Hq) as Hv1.
  destruct ids as [|id0 ids].
  { apply rpost_ret; [done..|]. exists []. split; [done|]. split; [|done]. intros id.
    rewrite decide_False by apply not_elem_of_nil. done. }
  set (l := id0 :: ids) in *. eapply rpost_seq; [by apply rpost_remove_snapshots|].
  intros n r2 Hw2 Hm2 _ [-> Hri]. eapply rpost_seq; [by apply rpost_gc|].
  intros g r3 Hw3 Hm3 _ [(P & HP & [Hix _ _]) Hc Hman _]. apply rpost_ret; [done..|].
  exists l. split; [done|]. split; [|split].
  - intros id. by rewrite Hc, (ri_view _ _ _ Hri), Hv1.
  - simpl. by destruct Hq as [_ ->].
  - intros _ h. rewrite Hix.
    assert (referenced r3 h <-> referenced r2 h) as ->.
    { unfold referenced. setoid_rewrite Hc. by rewrite Hman. }
    rewrite <- HP, (rd_chunks _ _ (ri_store _ _ _ Hri)), (rd_chunks _ _ (proj1 Hq)).
    case_decide; (split; [by intros [? ?]|]); [by intros [_ ?]|by intros [? _]].
Qed.
End prune.
