(* ===== verification/RepoRestore.v ===== *)
(** * The snapshot repository: restoring

    [restore_paths] writes, for every path asked for, the bytes the snapshot
    was made of, to one place below the destination root; it never leaves the
    root, and what was there stays unless the caller asked to overwrite it. *)
From S2P Require Import Prelude.
From S2P Require Import Text.
From S2P Require Import Files.
From S2P Require Import Monad.
From S2P Require Import Table.
From S2P Require Import ChunkTypes.
From S2P Require Import ChunkStore.
From S2P Require Import ChunkWp.
From S2P Require Import ChunkFile.
From S2P Require Import ChunkFileSafety.
From S2P Require Import Repository.
From S2P Require Import RepoWp.
From S2P Require Import RepoOps.
From stdpp Require Import options.
Open Scope Z_scope.
Open Scope monad_scope.

Section restore.
Context {TC TM TS TN TQ : Type} {kle : bytes -> bytes -> Prop}.
Context {TBC : Table bytes bytes TC kle} {TBM : Table string bytes TM String.le}.
Context {TBS : Table string bytes TS String.le}.
Context {TBN : Table Z bytes TN Z.le} {TBQ : Table string Z TQ String.le}.
Context {CM : Codec Manifest bytes} {CS : Codec Snapshot bytes} {CU : Codec UnifiedSnapshot bytes}.
Context {B3 : Blake3} {ZS : Zstd} {EN : ChunkWorld} {FC : FastCdc}.
Context {ZL : ZstdLaws} {WL : WorldLaws} {FL : FastCdcLaws} {DL : DigestLaws}.
Context (R : Z) (HR : 0 <= R <= 2 ^ 62).
Local Abbreviation Store := (Store TC TM TS).
Local Abbreviation Repo := (Repo TC TM TS TN TQ).
Local Abbreviation M := (@M TC TM TS).
Local Abbreviation RM := (@RM TC TM TS TN TQ).
Implicit Types s : Store.
Implicit Types r : Repo.

(** ** Work on the user's files *)

Lemma same_disk s s' : same_store s s' -> disk_wf R s -> disk_wf R s'.
Proof using Type.
  intros [E1 E2 E3 E4 E5 E6 Hc] [H1 H2 H3 H4]. split.
  - intros h v. rewrite E2. intros (p & Hp)%H1. exists p. unfold holds in *. by rewrite E1, E2.
  - intros id. rewrite E1. intros Hid. eapply drawn_le; eauto.
  - intros id. rewrite E4. intros Hid. eapply drawn_le; eauto.
  - by rewrite E1.
Qed.

Lemma same_mem s s' : same_store s s' -> mem_wf R s -> mem_wf R s'.
Proof using Type.
  intros [E1 E2 E3 E4 E5 E6 Hc] [H1 H2 H3]. split; rewrite ?E1, ?E5, ?E6; [done| |done].
  eapply drawn_le; eauto.
Qed.

Lemma repo_wf_same r s' : repo_wf R r -> same_store (store r) s' -> repo_wf R (set_store s' r).
Proof using Type.
  intros Hw Hs. apply repo_wf_store; [done|by eapply same_disk, Hw|by apply ss_manifests|].
  intros id sn Hsn. eapply refs_held_keeps; [by apply same_keeps|]. by eapply ro_held, view_row.
Qed.

(** Work on files leaves the repository as it is. *)
Lemma rpost_files {A} (m : M A) (Q : A -> Store -> Prop) r :
  repo_wf R r -> mem_wf R (store r) ->
  wp m (fun x s' => same_store (store r) s' /\ match x with Ok a => Q a s' | Err e => calm e end) (store r) ->
  wp (on_store m) (rpost R r (fun a r' => Q a (store r') /\ same_store (store r) (store r') /\
    r' = set_store (store r') r)) r.
Proof using Type.
  intros Hw Hm H. unfold wp, on_store in *. destruct (m (store r)) as [x s'] eqn:E. simpl in *.
  destruct H as [Hs Hx]. split; [by apply repo_wf_same|].
  split; [intros _; by eapply mem_wf_after, same_mem|]. split; [apply set_store_step|by destruct x].
Qed.

Lemma calm_materialise m dst : calmly (materialise_file (TC := TC) (TM := TM) (TS := TS) m dst).
Proof using Type.
  unfold materialise_file, create_file. apply calm_bind; [calm_body|intros []].
  apply calm_bind; [|intros []; calm_body]. induction (m_chunks m) as [|c cs IH]; cbn [write_chunks]; [calm_body|].
  apply calm_bind; [apply calm_fetch|intros b]. apply calm_bind; [calm_body|done].
Qed.

Lemma wp_try {A} (m : M A) (Q : result Exn (result ChunkStoreError A) -> Store -> Prop) s :
  wp m (fun x s' => match x with
    | Ok a => Q (Ok (Ok a)) s'
    | Err (XErr e) => Q (Ok (Err e)) s'
    | Err x => Q (Err x) s'
    end) s ->
  wp (try m) Q s.
Proof using Type. unfold wp, try. by destruct (m s) as [[a|[]] s']. Qed.

(** ** One file *)

(** The snapshot records these paths with these contents. *)
Definition describes (sn : Snapshot) (files : list (string * bytes)) : Prop :=
  Forall2 (fun pb e => entry_of pb.1 pb.2 e) files (sn_files sn).

Definition content_of (files : list (string * bytes)) (want : string) : option bytes :=
  (fun ib => ib.2.2) <$> list_find (fun pb => pb.1 = want) files.

Lemma describes_find sn files want :
  describes sn files ->
  match find_file want sn with
  | Some e => exists b, content_of files want = Some b /\ entry_of want b e
  | None => content_of files want = None
  end.
Proof using Type.
  unfold describes, find_file, content_of. induction 1 as [|[p b] e files es [Hp Hm] _ IH]; [done|].
  cbn [list_find fst snd] in *. rewrite Hp. destruct (decide (p = want)) as [->|Hne]; simpl.
  { exists b. split; [done|]. split; [done|exact Hm]. }
  revert IH. destruct (list_find _ es) as [[i e']|], (list_find _ files) as [[j pb]|]; simpl; auto.
Qed.

Lemma find_file_elem want sn e : find_file want sn = Some e -> e ∈ sn_files sn.
Proof using Type.
  unfold find_file. destruct (list_find _ _) as [[i x]|] eqn:E; [|done]. intros [= <-].
  apply list_find_Some in E as [E _]. by eapply list_elem_of_lookup_2.
Qed.

(** Where the file goes, if anywhere. *)
Definition restore_target (files : gmap path bytes) (sn : Snapshot) (want : string) (root : path)
    (strip : option string) (conflict : RestoreConflict) : option path :=
  entry ← find_file want sn;
  rel ← rel_dst (fe_path entry) strip;
  let taken := path_exists files (root ++ rel) in
  match conflict with
  | Skip => if taken then None else Some (root ++ rel)
  | KeepBoth => Some (if taken then next_free_name files (root ++ rel) else root ++ rel)
  | Overwrite => Some (root ++ rel)
  end.

(** Nothing leaves the root, and nothing but a chain of ordinary names is
    appended to it. *)
Lemma restore_target_confined files sn want root strip conflict q :
  restore_target files sn want root strip conflict = Some q ->
  exists rel, q = root ++ rel /\ rel <> [] /\ Forall plain rel.
Proof using Type.
  clear HR. unfold restore_target. destruct (find_file want sn) as [e|]; [|done]. simpl.
  destruct (rel_dst (fe_path e) strip) as [rel|] eqn:Hrel; [|done]. apply rel_dst_plain in Hrel as [Hne Hpl].
  simpl. destruct conflict; [intros [= <-]; by exists rel|destruct (path_exists _ _); intros [= <-]; by exists rel|].
  intros [= <-]. destruct (path_exists _ _); [|by exists rel].
  destruct (next_free_name_spec files root rel Hne Hpl) as (rel' & -> & ? & ? & _). by exists rel'.
Qed.

Lemma wp_restore_one sn files want root strip conflict rep s :
  describes sn files -> sound s ->
  wp (restore_one sn want root strip conflict rep)
    (fun x s' => same_store s s' /\
       (forall q, restore_target (fs s) sn want root strip conflict <> Some q -> fs s' !! q = fs s !! q) /\
       match x with
       | Ok rep' =>
           (exists q b, restore_target (fs s) sn want root strip conflict = Some q /\
              content_of files want = Some b /\ fs s' !! q = Some b /\ rep' = bump 1 0 0 rep) \/
           (conflict = Skip /\ restore_target (fs s) sn want root strip conflict = None /\
              is_Some (content_of files want) /\ rep' = bump 0 1 0 rep) \/
           rep' = bump 0 0 1 rep
       | Err x => x = XDied
       end) s.
Proof using Type.
  intros Hdesc Hso. pose proof (describes_find sn files want Hdesc) as Hf. unfold restore_one, restore_target.
  destruct (find_file want sn) as [e|]; [|apply wp_ret; split; [done|split; [done|by auto]]]. destruct Hf as (b & Hb & Hp & Hmo). simpl.
  destruct (rel_dst (fe_path e) strip) as [rel|]; [|apply wp_ret; split; [done|split; [done|by auto]]]. simpl. apply wp_bind, wp_gets.
  set (taken := path_exists (fs s) (root ++ rel)).
  assert (forall target, wp (bind (try (call CIo)) (fun dir => match dir with
      | Err _ => ret (bump 0 0 1 rep)
      | Ok _ => bind (try (materialise_file (fe_manifest e) target)) (fun y => match y with
          | Ok _ => ret (bump 1 0 0 rep)
          | Err _ => ret (bump 0 0 1 rep)
          end)
      end))
    (fun x s' => same_store s s' /\ (forall q, Some target <> Some q -> fs s' !! q = fs s !! q) /\
      match x with
      | Ok rep' => (exists q b, Some target = Some q /\ content_of files want = Some b /\
          fs s' !! q = Some b /\ rep' = bump 1 0 0 rep) \/ rep' = bump 0 0 1 rep
      | Err x => x = XDied
      end) s) as Hmain.
  { intros target. apply wp_bind, wp_try, wp_call; [by left| |].
    2:{ intros x s1 Hs1 Hx. assert (forall q, fs s1 !! q = fs s !! q) as Hq by (intros q; by rewrite (rd_fs _ _ Hs1)).
        destruct Hx as [-> | [-> | ->]]; [apply wp_ret|apply wp_ret|];
          (split; [by apply reads_same|split; [done|auto]]). }
    intros s1 Hs1. apply wp_bind, wp_try.
    pose proof (wp_materialise_file (fe_manifest e) b target s1 Hmo) as Hmat.
    specialize (Hmat ltac:(eapply same_sound; [by apply reads_same|done])).
    pose proof (calm_materialise (fe_manifest e) target s1) as Hc. unfold wp in Hmat |- *.
    destruct (materialise_file (fe_manifest e) target s1) as [x s2]. simpl in *.
    destruct Hmat as (Hs2 & Hot & Hx). assert (same_store s s2) as Hs by (etrans; [by apply reads_same|done]).
    assert (forall q, Some target <> Some q -> fs s2 !! q = fs s !! q) as Hq.
    { intros q Hne. rewrite Hot by congruence. by rewrite (rd_fs _ _ Hs1). }
    destruct x as [[]|[ | | | ]]; try done; simpl; (split; [done|split; [done|]]); auto.
    left. exists target, b. done. }
  clearbody taken. destruct taken, conflict; cbn [andb];
    try (eapply wp_mono; [apply Hmain|]; intros x s' (? & ? & Hx); split; [done|]; split; [done|];
      destruct x; [destruct Hx; by auto|done]).
  apply wp_ret. split; [done|]. split; [done|]. right. left. by eauto.
Qed.

(** ** All the files asked for *)

Inductive Outcome := ORestored | OSkipped | OFailed.

#[local] Instance outcome_eq_dec : EqDecision Outcome.
Proof using Type. solve_decision. Defined.

Definition tally (rep : RestoreReport) (outs : list Outcome) : RestoreReport :=
  foldl (fun rep o => match o with
    | ORestored => bump 1 0 0 rep
    | OSkipped => bump 0 1 0 rep
    | OFailed => bump 0 0 1 rep
    end) rep outs.

(** A file some path asked for may be put into. *)
Definition may_target (sn : Snapshot) (paths : list string) (root : path) (strip : option string)
    (conflict : RestoreConflict) (q : path) : Prop :=
  exists want files, want ∈ paths /\ restore_target files sn want root strip conflict = Some q.

Lemma restore_target_overwrite f1 f2 sn want root strip :
  restore_target f1 sn want root strip Overwrite = restore_target f2 sn want root strip Overwrite.
Proof using Type. done. Qed.

Record restored_all sn (files : list (string * bytes)) paths root strip conflict s (outs : list Outcome) s' : Prop := {
  ra_length : length outs = length paths;
  ra_skip : conflict <> Skip -> OSkipped ∉ outs;
  ra_others : forall q, fs s' !! q = fs s !! q \/ may_target sn paths root strip conflict q;
  ra_spares : conflict = Skip -> forall q, is_Some (fs s !! q) -> fs s' !! q = fs s !! q;
  ra_exact : conflict = Overwrite ->
    NoDup ((fun want => restore_target ∅ sn want root strip Overwrite) <$> paths) ->
    forall i want, paths !! i = Some want -> outs !! i = Some ORestored ->
      exists q b, restore_target ∅ sn want root strip Overwrite = Some q /\
        content_of files want = Some b /\ fs s' !! q = Some b;
}.

Lemma target_free files sn want root strip q :
  restore_target files sn want root strip Skip = Some q -> files !! q = None.
Proof using Type.
  clear HR. unfold restore_target. destruct (find_file want sn) as [e|]; [|done]. simpl.
  destruct (rel_dst (fe_path e) strip) as [rel|]; [|done]. simpl.
  destruct (path_exists files (root ++ rel)) eqn:Hex; [done|]. intros [= <-].
  destruct (files !! (root ++ rel)) as [b|] eqn:Hb; [|done]. exfalso.
  assert (path_exists files (root ++ rel) = true) as Htrue; [|congruence].
  apply existsb_exists. exists (root ++ rel). split.
  - apply list_elem_of_In, (list_elem_of_fmap_2 fst _ (root ++ rel, b)). by apply elem_of_map_to_list.
  - clear. induction (root ++ rel) as [|x l IH]; [done|]. simpl. by rewrite String.eqb_refl.
Qed.

Lemma wp_restore_loop sn files paths root strip conflict rep s :
  describes sn files -> sound s ->
  wp (restore_loop sn paths root strip conflict rep)
    (fun x s' => same_store s s' /\
       (forall q, fs s' !! q = fs s !! q \/ may_target sn paths root strip conflict q) /\
       match x with
       | Ok rep' => exists outs, rep' = tally rep outs /\ restored_all sn files paths root strip conflict s outs s'
       | Err x => x = XDied
       end) s.
Proof using Type.
  intros Hdesc. revert rep s. induction paths as [|want paths IH]; intros rep s Hso; cbn [restore_loop].
  { apply wp_ret. split; [done|]. split; [by left|]. exists []. split; [done|].
    split; [done|by intros _ ?%elem_of_nil|by left|done|done]. }
  assert (forall s1, (forall q, restore_target (fs s) sn want root strip conflict <> Some q -> fs s1 !! q = fs s !! q) ->
    forall q, fs s1 !! q = fs s !! q \/ may_target sn (want :: paths) root strip conflict q) as Hhead.
  { intros s1 H q. destruct (decide (restore_target (fs s) sn want root strip conflict = Some q)) as [Ht|Ht];
      [right|left; by apply H]. exists want, (fs s). split; [left|done]. }
  assert (forall q, may_target sn paths root strip conflict q -> may_target sn (want :: paths) root strip conflict q) as Htail.
  { intros q (w & f & Hin & Ht). exists w, f. split; [by right|done]. }
  eapply wp_seq; [by apply (wp_restore_one sn files)| |].
  2:{ intros x s1 (Hs & Ho & ->). split; [done|]. split; [by apply Hhead|done]. }
  intros rep1 s1 (Hs1 & Ho1 & Hout).
  assert (exists o, rep1 = tally rep [o] /\ (conflict <> Skip -> o <> OSkipped) /\
    (o = ORestored -> exists q b, restore_target (fs s) sn want root strip conflict = Some q /\
      content_of files want = Some b /\ fs s1 !! q = Some b)) as (o & -> & Hoskip & Hodone).
  { destruct Hout as [(q & b & Hq & Hb & Hfs & ->)|[(-> & _ & _ & ->)| -> ]].
    - exists ORestored. split; [done|]. split; [done|]. eauto.
    - exists OSkipped. done.
    - exists OFailed. done. }
  eapply wp_mono; [apply IH; by eapply same_sound|]. intros x s2 (Hs2 & Ho2 & Hx).
  assert (forall q, fs s2 !! q = fs s !! q \/ may_target sn (want :: paths) root strip conflict q) as Hoth.
  { intros q. destruct (Ho2 q) as [->|?]; [by apply Hhead|right; by apply Htail]. }
  split; [by etrans|]. split; [done|]. destruct x as [rep2|x]; [|done].
  destruct Hx as (outs & -> & [H1 H2 H3 H4 H5]). exists (o :: outs). split; [done|]. split; [simpl; congruence| |done| |].
  - intros Hc. apply not_elem_of_cons. split; [|by apply H2]. intros E. by apply Hoskip.
  - intros -> q Hq. assert (fs s1 !! q = fs s !! q) as E.
    { apply Ho1. intros Hfree%target_free. rewrite Hfree in Hq. by destruct Hq. }
    rewrite (H4 eq_refl q); [done|by rewrite E].
  - intros -> [Hnin Hnd]%NoDup_cons i w Hw Ho. destruct i as [|i]; [|by eapply H5].
    injection Hw as ->. injection Ho as ->. destruct (Hodone eq_refl) as (q & b & Hq & Hb & Hfs).
    exists q, b. split; [done|]. split; [done|]. rewrite <- Hfs. destruct (H3 q) as [?|(w' & f & Hin & Ht)]; [done|].
    destruct Hnin. apply list_elem_of_fmap. exists w'. split; [|done].
    rewrite (restore_target_overwrite _ f _ w'), Ht. exact Hq.
Qed.

Definition count_of (o : Outcome) (outs : list Outcome) : Z := Z.of_nat (length (filter (fun x => x = o) outs)).

Lemma tally_counts outs rep :
  is_u64 (restored rep) -> is_u64 (skipped rep) -> is_u64 (rs_failed rep) ->
  let out := tally rep outs in
  restored out = wrap64 (restored rep + count_of ORestored outs) /\
  skipped out = wrap64 (skipped rep + count_of OSkipped outs) /\
  rs_failed out = wrap64 (rs_failed rep + count_of OFailed outs).
Proof using Type.
  clear HR. assert (forall x, is_u64 (wrap64 x)) as Hw.
  { intros x. unfold is_u64, wrap64. pose proof (Z.mod_pos_bound x (U64_MAX + 1) ltac:(done)). lia. }
  assert (forall x a k, wrap64 (wrap64 (x + a) + k) = wrap64 (x + (a + k))) as Hadd.
  { intros x a k. unfold wrap64. rewrite Zplus_mod_idemp_l. f_equal. lia. }
  revert rep. induction outs as [|o outs IH]; intros rep H1 H2 H3 out.
  { unfold out, count_of. simpl. rewrite !Z.add_0_r, !wrap64_id by done. done. }
  unfold out. cbn [tally foldl]. unfold count_of in *. rewrite !filter_cons.
  destruct o; cbn [tally foldl] in *;
    match goal with |- context [foldl _ ?rp outs] => destruct (IH rp) as (E1 & E2 & E3); [apply Hw..|] end;
    unfold tally in *; rewrite E1, E2, E3; simpl; rewrite !Hadd; repeat case_decide; try done;
    cbn [length]; split_and!; f_equal; lia.
Qed.

Lemma count_cons o x outs : count_of o (x :: outs) = (if decide (x = o) then 1 else 0) + count_of o outs.
Proof using Type. clear HR. unfold count_of. rewrite filter_cons. case_decide; cbn [length]; lia. Qed.

Lemma counts_add_up outs : OSkipped ∉ outs ->
  count_of OSkipped outs = 0 /\ count_of ORestored outs + count_of OFailed outs = Z.of_nat (length outs).
Proof using Type.
  clear HR. induction outs as [|o outs IH]; intros Hn; [done|]. apply not_elem_of_cons in Hn as [Hne Hn].
  destruct (IH Hn) as [H1 H2]. rewrite !count_cons. cbn [length]. destruct o; [|done|]; simpl; lia.
Qed.

(** The paths whose outcome is a restored file. *)
Lemma restored_part (paths : list string) (outs : list Outcome) : length outs = length paths ->
  exists part, part `sublist_of` paths /\ Z.of_nat (length part) = count_of ORestored outs /\
    forall want, want ∈ part -> exists i, paths !! i = Some want /\ outs !! i = Some ORestored.
Proof using Type.
  clear HR. revert outs. induction paths as [|p paths IH]; intros [|o outs] Hl; try done.
  { exists []. split; [done|]. split; [done|]. by intros want ?%elem_of_nil. }
  destruct (IH outs) as (part & Hs & Hc & Hin); [by injection Hl|]. rewrite count_cons.
  assert (forall want, want ∈ part -> exists i, (p :: paths) !! i = Some want /\ (o :: outs) !! i = Some ORestored) as Hin'.
  { intros want (i & ? & ?)%Hin. by exists (S i). }
  case_decide as Ho.
  - exists (p :: part). split; [by constructor|]. split; [cbn [length]; lia|]. subst o.
    intros want [->|Hw]%elem_of_cons; [by exists O|by apply Hin'].
  - exists part. split; [by constructor|]. split; [lia|done].
Qed.

(** *** Any snapshot

    Also for a snapshot whose entries describe nothing, restoring touches only
    files. *)
Definition harmless {A} (m : M A) : Prop := forall s,
  same_store s (m s).2 /\ match (m s).1 with Ok _ => True | Err e => calm e end.

Lemma harmless_bind {A B} (m : M A) (f : A -> M B) : harmless m -> (forall a, harmless (f a)) -> harmless (bind m f).
Proof using Type.
  intros Hm Hf s. specialize (Hm s). unfold bind. destruct (m s) as [[a|x] s1]; simpl in *; [|done].
  destruct Hm as [Hs _]. destruct (Hf a s1) as [Hs2 Hx]. destruct (f a s1) as [y s2]. simpl in *.
  split; [by etrans|done].
Qed.

Lemma harmless_reads {A} (m : M A) : calmly m -> (forall s, reads s (m s).2) -> harmless m.
Proof using Type. intros Hc Hr s. split; [by apply reads_same|apply Hc]. Qed.

Lemma harmless_files {A} (m : M A) : calmly m -> (forall s, exists f, (m s).2 = with_fs f (tick s) \/ (m s).2 = with_fs f s) -> harmless m.
Proof using Type.
  intros Hc Hr s. split; [|apply Hc]. destruct (Hr s) as (f & [-> | ->]); split; try done. simpl. lia.
Qed.

Lemma harmless_try {A} (m : M A) : harmless m -> harmless (try m).
Proof using Type. intros Hm s. specialize (Hm s). unfold try. by destruct (m s) as [[a|[]] s1]. Qed.

Lemma harmless_ret {A} (a : A) : harmless (ret a).
Proof using Type. by intros s. Qed.

Lemma harmless_gets {A} (f : Store -> A) : harmless (gets f).
Proof using Type. by intros s. Qed.

Lemma harmless_call e : e = CIo \/ e = CRedb -> harmless (call e).
Proof using Type.
  intros He. apply harmless_reads; [apply calm_call|]. intros s.
  pose proof (wp_call e (fun _ s' => reads s s') s He ltac:(done) ltac:(done)) as H. exact H.
Qed.

Lemma harmless_materialise m dst : harmless (materialise_file (TC := TC) (TM := TM) (TS := TS) m dst).
Proof using Type.
  unfold materialise_file, create_file. apply harmless_bind.
  { apply harmless_bind; [apply harmless_call; by left|intros []]. apply harmless_bind; [apply harmless_gets|].
    intros files. apply harmless_files; [calm_body|]. intros s. destruct (blocked files dst).
    - exists (fs s). right. by destruct s.
    - eexists. by right. }
  intros []. apply harmless_bind; [|intros []; apply harmless_call; by left].
  induction (m_chunks m) as [|c cs IH]; cbn [write_chunks]; [apply harmless_ret|].
  apply harmless_bind.
  - apply harmless_reads; [apply calm_fetch|]. intros s. apply (wp_fetch c s).
  - intros b. apply harmless_bind; [|by intros []]. apply harmless_files; [calm_body|]. intros s.
    unfold write_file. destruct (fate (calls s)); simpl; eexists; by left.
Qed.

Lemma harmless_restore_one sn want root strip conflict rep : harmless (restore_one sn want root strip conflict rep).
Proof using Type.
  unfold restore_one. destruct (find_file want sn) as [e|]; [|apply harmless_ret].
  destruct (rel_dst (fe_path e) strip) as [rel|]; [|apply harmless_ret].
  apply harmless_bind; [apply harmless_gets|intros files]. destruct (_ && _); [apply harmless_ret|].
  apply harmless_bind; [apply harmless_try, harmless_call; by left|]. intros [?|?]; [|apply harmless_ret].
  apply harmless_bind; [apply harmless_try, harmless_materialise|]. intros [?|?]; apply harmless_ret.
Qed.

Lemma harmless_restore_loop sn paths root strip conflict rep : harmless (restore_loop sn paths root strip conflict rep).
Proof using Type.
  revert rep. induction paths as [|want paths IH]; intros rep; cbn [restore_loop]; [apply harmless_ret|].
  by apply harmless_bind; [apply harmless_restore_one|].
Qed.

(** ** The operations *)

Lemma rpost_snapshot id r :
  repo_wf R r -> mem_wf R (store r) ->
  wp (snapshot id) (rpost R r (fun o r' => query r r' /\ o = view r id)) r.
Proof using Type.
  intros Hw Hm. eapply rpost_seq; [by apply rpost_read|]. intros v r1 Hw1 Hm1 _ (-> & E & Hs).
  assert (query r r1) as Hq by done. rewrite <- (query_view _ _ id Hq). unfold view.
  destruct (tbl_get id (t_snapshots r1)) as [v|] eqn:Hv; [|by apply rpost_ret].
  destruct (rw_rows _ _ Hw1 _ _ Hv) as (sn & Hd & _). eapply (rpost_seq _ _ _ (fun a r' => a = sn /\ r' = r1)).
  { apply rpost_rlift; [done|done|]. intros a Ha. simpl in Ha. rewrite Hd in Ha. by simplify_eq/=. }
  intros a r2 Hw2 Hm2 _ [-> ->]. apply rpost_ret; [done..|]. split; [done|]. simpl. by rewrite Hd.
Qed.

Lemma rpost_restore_any id paths root strip conflict r :
  repo_wf R r -> mem_wf R (store r) ->
  wp (restore_paths id paths root strip conflict) (rpost R r (fun _ _ => True)) r.
Proof using Type.
  intros Hw Hm. unfold restore_paths. eapply rpost_seq; [by apply rpost_snapshot|].
  intros o r1 Hw1 Hm1 _ _. eapply (rpost_seq _ _ _ (fun _ r' => r' = r1)).
  { apply rpost_rlift; [done|done|]. done. }
  intros sn r2 Hw2 Hm2 _ ->. eapply rpost_mono; [apply (rpost_files _ (fun _ _ => True)); [done|done|]|done].
  pose proof (harmless_restore_loop sn paths root strip conflict
    {| restored := 0; skipped := 0; rs_failed := 0 |} (store r1)) as [Hs Hx].
  unfold wp. split; [done|]. by destruct (restore_loop _ _ _ _ _ _ _).1.
Qed.

(** Files of the user, and nothing else of the repository. *)
Definition files_only r r' : Prop := same_store (store r) (store r') /\ r' = set_store (store r') r.

Lemma rpost_restore_paths id sn files paths root strip conflict r :
  repo_wf R r -> mem_wf R (store r) -> view r id = Some sn -> describes sn files ->
  wp (restore_paths id paths root strip conflict) (rpost R r (fun rep r' => files_only r r' /\
    exists outs, rep = tally {| restored := 0; skipped := 0; rs_failed := 0 |} outs /\
      restored_all sn files paths root strip conflict (store r) outs (store r'))) r.
Proof using Type.
  intros Hw Hm Hv Hdesc. unfold restore_paths. eapply rpost_seq; [by apply rpost_snapshot|].
  intros o r1 Hw1 Hm1 _ (Hq & ->). rewrite Hv. eapply (rpost_seq _ _ _ (fun a r' => a = sn /\ r' = r1)).
  { apply rpost_rlift; [done|done|]. by intros a [= <-]. }
  intros a r2 Hw2 Hm2 _ [-> ->]. eapply rpost_mono.
  { apply rpost_files; [done|done|]. eapply wp_mono.
    - apply (wp_restore_loop sn files); [done|]. by eapply disk_sound, Hw2.
    - intros x s' (Hs & Ho & Hx). split; [done|]. destruct x as [rep|x]; [exact Hx|by subst x]. }
  intros rep r3 _ ((outs & -> & Hall) & Hs & E). destruct Hq as [Hs1 E1].
  assert (same_store (store r) (store r1)) as Hs1' by by apply reads_same.
  split.
  { split; [by etrans|]. rewrite E, E1. done. }
  exists outs. split; [done|]. destruct Hall as [A1 A2 A3 A4 A5].
  split; [done|done|..]; intros; rewrite <- ?(rd_fs _ _ Hs1) in *; eauto.
Qed.

(** *** A file at a point in time *)

(** A snapshot that holds the file and is old enough. *)
Definition candidate (p : string) (ts : Z) (sn : Snapshot) (e : FileEntry) : Prop :=
  sn_created sn <= ts /\ find_file p sn = Some e.

Definition lex_le (a b : Z * Z) : Prop := a.1 < b.1 \/ (a.1 = b.1 /\ a.2 <= b.2).

Definition picked (sn : Snapshot) (e : FileEntry) : FileSnapshot :=
  {| fs_path := fe_path e; fs_snapshot_id := sn_id sn; fs_kind := sn_kind sn; fs_created := sn_created sn;
     fs_manifest := fe_manifest e |}.

(** The newest candidate, the one with the larger id among equals. *)
Definition newest_candidate (p : string) (ts : Z) (l : list Snapshot) (o : option FileSnapshot) : Prop :=
  match o with
  | None => forall sn e, sn ∈ l -> ~ candidate p ts sn e
  | Some f => exists sn e, sn ∈ l /\ candidate p ts sn e /\ f = picked sn e /\
      forall sn' e', sn' ∈ l -> candidate p ts sn' e' ->
        lex_le (sn_created sn', sn_id sn') (sn_created sn, sn_id sn)
  end.

Lemma newest_candidate_skip p ts l sn best :
  newest_candidate p ts l best -> (forall e, ~ candidate p ts sn e) -> newest_candidate p ts (l ++ [sn]) best.
Proof using Type.
  intros H Hno. destruct best as [f|]; simpl in *.
  - destruct H as (sn0 & e0 & Hin & Hc & -> & Hmax). exists sn0, e0. split; [apply elem_of_app; by left|].
    split; [done|]. split; [done|].
    intros sn' e' [?| ->%list_elem_of_singleton]%elem_of_app Hc'; [eauto|by destruct (Hno e')].
  - intros sn' e' [?| ->%list_elem_of_singleton]%elem_of_app; eauto.
Qed.

Lemma consider_spec p ts l best sn :
  newest_candidate p ts l best -> newest_candidate p ts (l ++ [sn]) (consider p ts best sn).
Proof using Type.
  clear HR. intros H. unfold consider. destruct (Z.ltb_spec ts (sn_created sn)).
  { apply newest_candidate_skip; [done|]. intros e [? _]. lia. }
  destruct (find_file p sn) as [e|] eqn:Hf.
  2:{ apply newest_candidate_skip; [done|]. intros e [_ ?]. congruence. }
  assert (candidate p ts sn e) as Hc by done. destruct best as [f|]; simpl in *.
  2:{ exists sn, e. split; [apply elem_of_app; right; left|]. split; [done|]. split; [done|].
      intros sn' e' [?| ->%list_elem_of_singleton]%elem_of_app Hc'; [by edestruct H|]. right. simpl. lia. }
  destruct H as (sn0 & e0 & Hin & Hc0 & -> & Hmax). unfold newer_than. simpl.
  destruct (_ || _) eqn:Hn.
  - apply orb_true_iff in Hn. rewrite andb_true_iff, !Z.ltb_lt, Z.eqb_eq in Hn.
    exists sn, e. split; [apply elem_of_app; right; left|]. split; [done|]. split; [done|].
    intros sn' e' [Hin'| ->%list_elem_of_singleton]%elem_of_app Hc'; unfold lex_le in *; simpl in *; [|lia].
    specialize (Hmax _ _ Hin' Hc'). lia.
  - apply orb_false_iff in Hn. rewrite andb_false_iff, !Z.ltb_ge, Z.eqb_neq in Hn.
    exists sn0, e0. split; [apply elem_of_app; by left|]. split; [done|]. split; [done|].
    intros sn' e' [Hin'| ->%list_elem_of_singleton]%elem_of_app Hc'; [eauto|]. unfold lex_le. simpl. lia.
Qed.

Lemma consider_all p ts l : forall l0 best, newest_candidate p ts l0 best ->
  newest_candidate p ts (l0 ++ l) (foldl (consider p ts) best l).
Proof using Type.
  induction l as [|sn l IH]; intros l0 best H; [by rewrite app_nil_r|]. simpl.
  replace (l0 ++ sn :: l) with ((l0 ++ [sn]) ++ l) by by rewrite <- app_assoc.
  apply IH. by apply consider_spec.
Qed.

Lemma rpost_snapshot_at p ts r :
  repo_wf R r -> mem_wf R (store r) ->
  wp (snapshot_at p ts) (rpost R r (fun o r' => query r r' /\ newest_candidate p ts (snaps_of r) o)) r.
Proof using Type.
  intros Hw Hm. eapply rpost_seq; [by apply rpost_load|]. intros l r1 Hw1 Hm1 _ (-> & Hq).
  apply rpost_ret; [done..|]. split; [done|]. apply (consider_all p ts (snaps_of r) [] None).
  by intros sn e ?%elem_of_nil.
Qed.

(** Restoring one file of the timeline. *)
Lemma rpost_restore f b dst r :
  repo_wf R r -> mem_wf R (store r) -> manifest_of (fs_manifest f) b ->
  wp (restore f dst) (rpost R r (fun _ r' => files_only r r' /\ fs (store r') !! dst = Some b /\
    forall q, q <> dst -> fs (store r') !! q = fs (store r) !! q)) r.
Proof using Type.
  intros Hw Hm Hmo. eapply rpost_mono.
  { apply (rpost_files _ (fun _ s' => fs s' !! dst = Some b /\ other_files dst (store r) s')); [done|done|].
    pose proof (wp_materialise_file (fs_manifest f) b dst (store r) Hmo) as Hmat.
    specialize (Hmat (disk_sound R _ (rw_disk _ _ Hw))). pose proof (calm_materialise (fs_manifest f) dst (store r)) as Hc.
    unfold wp in *. destruct Hmat as (Hs & Ho & Hx). split; [done|].
    by destruct (materialise_file (fs_manifest f) dst (store r)).1. }
  intros [] r' _ ((Hb & Ho) & Hs & E). split; [done|]. split; [done|exact Ho].
Qed.
End restore.
