(* ===== verification/RepoVerify.v ===== *)
(** * The snapshot repository: opening, verification and repair

    Opening restores what the process must know from what is on disk, whatever
    state the last process left.

    The second part is about verification and repair: what the report of a
    check says of every snapshot, and what a repair removes. *)
From S2P Require Import Prelude.
From S2P Require Import Text.
From S2P Require Import Files.
From S2P Require Import Monad.
From S2P Require Import Table.
From S2P Require Import ChunkTypes.
From S2P Require Import ChunkStore.
From S2P Require Import ChunkWp.
From S2P Require Import ChunkFile.
From S2P Require Import ChunkFileSafety.
From S2P Require Import Repository.
From S2P Require Import RepoWp.
From S2P Require Import RepoOps.
From stdpp Require Import options.
Open Scope Z_scope.
Open Scope monad_scope.

Section open.
Context {TC TM TS TN TQ : Type} {kle : bytes -> bytes -> Prop}.
Context {TBC : Table bytes bytes TC kle} {TBM : Table string bytes TM String.le}.
Context {TBS : Table string bytes TS String.le}.
Context {TBN : Table Z bytes TN Z.le} {TBQ : Table string Z TQ String.le}.
Context {CM : Codec Manifest bytes} {CS : Codec Snapshot bytes} {CU : Codec UnifiedSnapshot bytes}.
Context {B3 : Blake3} {ZS : Zstd} {EN : ChunkWorld} {FC : FastCdc}.
Context {ZL : ZstdLaws} {WL : WorldLaws} {FL : FastCdcLaws} {DL : DigestLaws}.
Context (R : Z) (HR : 0 <= R <= 2 ^ 62).
Local Abbreviation Store := (Store TC TM TS).
Local Abbreviation Repo := (Repo TC TM TS TN TQ).
Local Abbreviation M := (@M TC TM TS).
Local Abbreviation RM := (@RM TC TM TS TN TQ).
Implicit Types s : Store.
Implicit Types r : Repo.

(** ** Opening the chunk store *)

(** An outside call of a process that knows nothing yet. *)
Definition opening {A} s (Q : A -> Store -> Prop) (x : result Exn A) s' : Prop :=
  disk_wf R s' /\ safe s s' /\ chunks s' = chunks s /\
  match x with Ok a => Q a s' | Err e => calm e end.

Lemma opening_seq {A B} (m : M A) (f : A -> M B) (QA : A -> Store -> Prop) (QB : B -> Store -> Prop) s :
  wp m (opening s QA) s ->
  (forall a s1, disk_wf R s1 -> safe s s1 -> chunks s1 = chunks s -> QA a s1 -> wp (f a) (opening s1 QB) s1) ->
  wp (bind m f) (opening s QB) s.
Proof using Type.
  intros Hm Hf. eapply wp_seq; [exact Hm| |].
  - intros a s1 (Hd & Hs & Hc & Ha). eapply wp_mono; [by apply Hf|].
    intros x s2 (Hd2 & Hs2 & Hc2 & Hx). split; [done|]. split; [by etrans|]. split; [congruence|done].
  - by intros x s1 (? & ? & ? & ?).
Qed.

Lemma opening_call e s : disk_wf R s -> e = CIo \/ e = CRedb ->
  wp (call e) (opening s (fun _ s' => reads s s' /\ fate (calls s) = Works /\ (calls s < calls s')%nat)) s.
Proof using Type.
  intros Hd He. apply wp_tick; [done| |].
  - intros s' Hs Hlt Hf. split; [by eapply reads_disk|]. split; [by apply reads_safe|].
    split; [by apply rd_chunks|done].
  - intros x s' Hs Hx. split; [by eapply reads_disk|]. split; [by apply reads_safe|].
    split; [by apply rd_chunks|]. by apply env_calm.
Qed.

(** What only the process knows may change. *)
Lemma opening_memory f (Q : unit -> Store -> Prop) s :
  disk_wf R s -> packs (f s) = packs s -> chunks (f s) = chunks s -> manifests (f s) = manifests s ->
  stats (f s) = stats s -> fs (f s) = fs s -> calls (f s) = calls s -> Q tt (f s) ->
  wp (modify f) (opening s Q) s.
Proof using Type.
  intros [H1 H2 H3 H4] E1 E2 E3 E4 E5 E6 HQ. apply wp_modify. split; [split|split; [split|split; [done|done]]].
  - intros h v. rewrite E2. intros (p & Hp)%H1. exists p. unfold holds in *. by rewrite E1, E2.
  - intros id. rewrite E1, E6. apply H2.
  - intros id. rewrite E4, E6. apply H3.
  - intros id g. rewrite E1. apply H4.
  - intros h p. unfold holds. by rewrite E1, E2.
  - done.
  - done.
  - by rewrite E6.
Qed.

(** A first active pack: the file, then the row that names it. *)
Lemma opening_fresh s :
  disk_wf R s ->
  wp (let! n := gets calls in
      create_pack (new_v4 n) ;;
      db_write (fun s => with_stats (tbl_insert STAT_ACTIVE (new_v4 n) (stats s)) s) ;;
      modify (with_active {| a_id := new_v4 n; a_size := 0 |}))
    (opening s (fun _ s' => drawn (calls s') (a_id (active s')) /\
       a_size (active s') = len (default [] (packs s' !! a_id (active s'))))) s.
Proof using TBM CM WL HR.
  intros Hd. apply wp_bind, wp_gets. set (id := new_v4 (calls s)).
  eapply (opening_seq _ _ (fun _ s1 => fate (calls s) = Works /\ (calls s < calls s1)%nat /\
    packs s1 !! id = Some [])).
  { unfold create_pack. eapply wp_seq; [by apply opening_call; [|left]| |by intros x s1].
    intros [] s1 (Hd1 & Hs1 & Hc1 & Hr1 & Hf & Hlt). apply wp_modify.
    destruct (create_pack_disk R s s1 (calls s) ltac:(lia) Hd Hr1 Hlt ltac:(lia) Hf) as [Hd2 Hst].
    split; [done|]. split; [apply steps_safe; [done|by apply steps_keeps]|]. split; [done|].
    split; [done|]. split; [done|]. apply lookup_insert_eq. }
  intros [] s1 Hd1 Hs1 Hc1 (Hf & Hlt & Hp). unfold db_write.
  eapply (opening_seq _ _ (fun _ s2 => (calls s1 <= calls s2)%nat /\ packs s2 !! id = Some [])).
  { eapply wp_seq; [by apply opening_call; [|right]| |by intros x s2].
    intros [] s2 (Hd2 & Hs2 & Hc2 & Hr2 & _ & Hlt2). apply wp_modify.
    split; [apply (disk_stats R s2 (calls s)); [done|lia|done]|].
    split; [destruct Hs2 as [K1 K2 K3 K4]; split; [exact K1|done..]|]. split; [done|].
    simpl. split; [lia|]. by rewrite (rd_packs _ _ Hr2). }
  intros [] s2 Hd2 Hs2 Hc2 (Hlt2 & Hp2). apply opening_memory; [done..|]. simpl. split.
  - exists (calls s). split; [lia|done].
  - by rewrite Hp2.
Qed.

Lemma wp_open_with_rollover s :
  disk_wf R s -> wp (open_with_rollover R) (opening s (fun _ s' => mem_wf R s')) s.
Proof using TBM CM WL HR.
  intros Hd. unfold open_with_rollover.
  eapply opening_seq; [by apply opening_call; [|left]|]. intros [] s1 Hd1 _ _ _.
  eapply opening_seq; [by apply opening_call; [|right]|]. intros [] s2 Hd2 _ _ _.
  eapply opening_seq; [by apply opening_call; [|right]|]. intros [] s3 Hd3 _ _ _.
  unfold db_read.
  eapply (opening_seq _ _ (fun prev s' => prev = tbl_get STAT_ACTIVE (stats s'))).
  { eapply wp_seq; [by apply opening_call; [|right]| |by intros x s'].
    intros [] s' (? & ? & ? & _). by apply wp_gets. }
  intros prev s4 Hd4 _ _ ->.
  eapply (opening_seq _ _ (fun _ s' => drawn (calls s') (a_id (active s')) /\
    a_size (active s') = len (default [] (packs s' !! a_id (active s'))))).
  - destruct (tbl_get STAT_ACTIVE (stats s4)) as [id|] eqn:Hid; [|by apply opening_fresh].
    destruct (wf_stats _ _ Hd4 _ Hid) as (i & Hi & Hf & ->). rewrite new_v4_length, Nat.eqb_refl.
    apply opening_memory; [done..|]. split; [by exists i|done].
  - intros [] s5 Hd5 _ _ [Ha Hz]. by apply opening_memory.
Qed.

(** ** Opening the repository *)

Lemma open_repo_wf comp r :
  repo_wf R r ->
  wp (open_repo R comp) (fun x r' => repo_wf R r' /\ catalog_step r r' /\ (forall id, view r' id = view r id) /\
    fs (store r') = fs (store r) /\ match x with Ok _ => mem_wf R (store r') | Err e => calm e end) r.
Proof using TBM CM WL HR.
  intros Hw.
  assert (forall {A} (m : M A) (Q : A -> Store -> Prop) r0, repo_wf R r0 ->
    wp m (opening (store r0) Q) (store r0) ->
    wp (on_store m) (fun x r' => repo_wf R r' /\ safe (store r0) (store r') /\ r' = set_store (store r') r0 /\
      match x with Ok a => Q a (store r') | Err e => calm e end) r0) as Hlift.
  { intros A m Q r0 Hw0 H. unfold wp, on_store in *. destruct (m (store r0)) as [x s'].
    destruct H as (Hd & Hs & _ & Hx). simpl in *. split; [|done].
    apply repo_wf_store; [done|done|by apply sf_manifests|]. intros id sn Hv.
    eapply refs_held_keeps; [by apply sf_keeps|]. by eapply ro_held, view_row. }
  unfold open_repo. eapply wp_seq; [by apply Hlift, wp_open_with_rollover, Hw| |].
  2:{ intros x r1 (Hw1 & Hs1 & E1 & Hx). split; [done|]. rewrite E1. split; [apply set_store_step|].
      split; [done|]. split; [|done]. simpl. by rewrite (sf_fs _ _ Hs1). }
  intros [] r1 (Hw1 & Hs1 & E1 & Hm1).
  assert (forall s3, reads (store r1) s3 -> forall c,
    let r3 := set_compression c (set_store s3 r1) in
    repo_wf R r3 /\ catalog_step r r3 /\ (forall id, view r3 id = view r id) /\ fs (store r3) = fs (store r) /\
    mem_wf R (store r3)) as Hdone.
  { intros s3 Hs3 c r3. pose proof (repo_wf_reads R r1 s3 Hw1 Hs3) as [W1 W2 W3 W4 W5].
    split.
    { split; [done| |done|done|done]. intros id v Hv. destruct (W2 id v Hv) as (sn & ? & [? ? ?]). by exists sn. }
    assert (forall id, view r3 id = view r id) as Hv by (intros id; unfold r3; by rewrite E1).
    split; [split; [unfold r3; by rewrite E1|]|].
    { intros id sn Hid _. rewrite Hv in Hid. eauto. }
    split; [done|]. simpl. split; [by rewrite (rd_fs _ _ Hs3), (sf_fs _ _ Hs1)|by eapply reads_mem]. }
  assert (forall x s3, reads (store r1) s3 -> calm x ->
    repo_wf R (set_store s3 r1) /\ catalog_step r (set_store s3 r1) /\
    (forall id, view (set_store s3 r1) id = view r id) /\ fs (store (set_store s3 r1)) = fs (store r) /\ calm x) as Hfail.
  { intros x s3 Hs3 Hx. destruct (Hdone s3 Hs3 (compression r1)) as (H1 & H2 & H3 & H4 & _).
    assert (set_compression (compression r1) (set_store s3 r1) = set_store s3 r1) as E by done.
    rewrite E in *. by split_and!. }
  apply wp_bind, wp_repo_call; [intros s2 Hs2|intros x s2 Hs2 Hx; apply Hfail; [done|by apply env_calm]].
  apply wp_bind, wp_repo_call; intros; [|apply Hfail; [by etrans|by apply env_calm]].
  apply wp_modify. apply Hdone. by etrans.
Qed.
End open.

(** * The snapshot repository: verification and repair

    [verify] reports a file exactly when something of it cannot be read back
    (or a read failed), and [repair_remove_damaged] removes exactly the
    snapshots of a report. *)

Section verify.
Context {TC TM TS TN TQ : Type} {kle : bytes -> bytes -> Prop}.
Context {TBC : Table bytes bytes TC kle} {TBM : Table string bytes TM String.le}.
Context {TBS : Table string bytes TS String.le}.
Context {TBN : Table Z bytes TN Z.le} {TBQ : Table string Z TQ String.le}.
Context {CM : Codec Manifest bytes} {CS : Codec Snapshot bytes} {CU : Codec UnifiedSnapshot bytes}.
Context {B3 : Blake3} {ZS : Zstd} {EN : ChunkWorld} {FC : FastCdc}.
Context {ZL : ZstdLaws} {WL : WorldLaws} {FL : FastCdcLaws} {DL : DigestLaws}.
Context (R : Z) (HR : 0 <= R <= 2 ^ 62).
Local Abbreviation Store := (Store TC TM TS).
Local Abbreviation Repo := (Repo TC TM TS TN TQ).
Local Abbreviation M := (@M TC TM TS).
Local Abbreviation RM := (@RM TC TM TS TN TQ).
Implicit Types s : Store.
Implicit Types r : Repo.

(** ** What a verification looks at *)

Definition chunk_ok (level : VerifyLevel) s (c : ChunkRef) : Prop :=
  match level with
  | Metadata => is_Some (tbl_get (c_hash c) (chunks s))
  | ReadData => exists p, reads_as s (c_hash c) p
  end.

Definition file_ok (level : VerifyLevel) s (f : FileEntry) : Prop :=
  Forall (chunk_ok level s) (m_chunks (fe_manifest f)) /\
  (level = ReadData -> exists pieces,
     Forall2 (fun c p => reads_as s (c_hash c) p) (m_chunks (fe_manifest f)) pieces /\
     blake3 (concat pieces) = file_hash (fe_manifest f)).

(** Why an entry is in the report.  A read that fails counts as corruption,
    also when the outside world made it fail. *)
Definition justified (level : VerifyLevel) s s' (f : FileEntry) (d : VerifyDamage) : Prop :=
  dm_path d = fe_path f /\
  match dm_kind d with
  | Missing => exists c, c ∈ m_chunks (fe_manifest f) /\ dm_chunk d = hex_encode (c_hash c) /\
      tbl_get (c_hash c) (chunks s) = None
  | Corrupt => level = ReadData /\ exists c, c ∈ m_chunks (fe_manifest f) /\ dm_chunk d = hex_encode (c_hash c) /\
      (~ chunk_ok ReadData s c \/ trouble s s')
  | FileHashMismatch => level = ReadData /\ ~ file_ok level s f
  end.

Lemma justified_mono level s s1 s2 f d :
  (calls s1 <= calls s2)%nat -> justified level s s1 f d -> justified level s s2 f d.
Proof using Type.
  intros Hc [Hp H]. split; [done|]. destruct (dm_kind d); [done| |done].
  destruct H as (? & c & ? & ? & [?|?]); (split; [done|]); exists c; (split; [done|]); (split; [done|]);
    [by left|right]. by eapply (trouble_mono s s s1 s2).
Qed.

Lemma calm_locate h : calmly (locate (TC := TC) (TM := TM) (TS := TS) h).
Proof using Type. unfold locate, db_read. calm_body. Qed.

Lemma chunk_ok_reads level s s' c : reads s s' -> chunk_ok level s' c <-> chunk_ok level s c.
Proof using Type.
  intros Hs. destruct level; simpl; [by rewrite (rd_chunks _ _ Hs)|]. unfold reads_as.
  by rewrite (rd_chunks _ _ Hs), (rd_packs _ _ Hs).
Qed.

(** ** One chunk *)

Definition check_chunk (level : VerifyLevel) (sn : Snapshot) (f : FileEntry) (c : ChunkRef) : M (bytes * list VerifyDamage) :=
  match level with
  | Metadata =>
      let! loc := locate (c_hash c) in
      ret ([], match loc with None => [damaged sn f (hex_encode (c_hash c)) Missing] | Some _ => [] end)
  | ReadData =>
      let! res := try (get (c_hash c)) in
      ret (match res with
           | Ok (Some b) => (b, [])
           | Ok None => ([], [damaged sn f (hex_encode (c_hash c)) Missing])
           | Err _ => ([], [damaged sn f (hex_encode (c_hash c)) Corrupt])
           end)
  end.

Lemma verify_chunks_cons level sn f c cs hashed found s :
  verify_chunks level sn f (c :: cs) hashed found s =
  (let! (b, d) := check_chunk level sn f c in verify_chunks level sn f cs (hashed ++ b) (found ++ d)) s.
Proof using Type.
  cbn [verify_chunks]. destruct level; unfold check_chunk, bind.
  - destruct (locate (c_hash c) s) as [[[loc|]|x] s1]; simpl; by rewrite ?app_nil_r.
  - destruct (try (get (c_hash c)) s) as [[[[b|]|e]|x] s1]; simpl; by rewrite ?app_nil_r.
Qed.

Lemma wp_check_chunk level sn f c s :
  decodable s -> c ∈ m_chunks (fe_manifest f) ->
  wp (check_chunk level sn f c)
    (fun x s' => reads s s' /\ match x with
       | Ok (b, d) => (d = [] /\ chunk_ok level s c /\ (level = ReadData -> reads_as s (c_hash c) b)) \/
           (exists d', d = [d'] /\ dm_snapshot d' = sn_id sn /\ justified level s s' f d' /\
              dm_kind d' <> FileHashMismatch)
       | Err e => calm e
       end) s.
Proof using Type.
  intros Hdec Hc. destruct level; unfold check_chunk.
  - pose proof (calm_locate (c_hash c) s) as Hcalm. pose proof (wp_locate (c_hash c) s) as Hl.
    unfold wp, bind in *. destruct (locate (c_hash c) s) as [[[loc|]|x] s1]; simpl in *; [| |by destruct Hl].
    + destruct Hl as [Hs (v & Hv & _)]. split; [done|]. left. split; [done|]. split; [eauto|done].
    + destruct Hl as [Hs Hv]. split; [done|]. right. eexists. split; [done|]. split; [done|].
      split; [|done]. split; [done|]. simpl. eauto.
  - pose proof (calm_get (c_hash c) s) as Hcalm. pose proof (wp_get (c_hash c) s) as Hg.
    pose proof (blames_get (c_hash c) s Hdec) as Hbl. rename s into s0.
    unfold wp, bind, try in *. destruct (get (c_hash c) s0) as [[[b|]|x] s1]; simpl in *.
    + destruct Hg as (Hs & Hb & _). split; [done|]. left. split; [done|]. split; [by exists b|done].
    + destruct Hg as (Hs & Hb & _). split; [done|]. right. eexists. split; [done|]. split; [done|].
      split; [|done]. split; [done|]. simpl. eauto.
    + destruct Hg as (Hs & _ & Hg). assert (~ chunk_ok ReadData s0 c \/ trouble s0 s1) as Hwhy.
      { destruct (env_err_or x) as [Hx|Hx]; [right; by apply Hbl|left].
        intros (p & [?|(y & [= <-] & ?)]%Hg); done. }
      destruct x; simpl; (split; [done|]); try done. right. eexists. split; [done|].
      split; [done|]. split; [|done]. split; [done|]. simpl. eauto.
Qed.

(** ** All the chunks of a file *)

Lemma wp_verify_chunks level sn f cs hashed found s :
  decodable s -> (forall c, c ∈ cs -> c ∈ m_chunks (fe_manifest f)) ->
  wp (verify_chunks level sn f cs hashed found)
    (fun x s' => reads s s' /\ match x with
       | Ok (h, found') => exists new, found' = found ++ new /\
           Forall (fun d => dm_snapshot d = sn_id sn /\ justified level s s' f d /\ dm_kind d <> FileHashMismatch) new /\
           (new = [] -> Forall (chunk_ok level s) cs /\
              (level = ReadData -> exists pieces, h = hashed ++ concat pieces /\
                 Forall2 (fun c p => reads_as s (c_hash c) p) cs pieces))
       | Err e => calm e
       end) s.
Proof using Type.
  revert hashed found s. induction cs as [|c cs IH]; intros hashed found s Hdec Hcs.
  { apply wp_ret. split; [done|]. exists []. split; [by rewrite app_nil_r|]. split; [done|]. intros _.
    split; [done|]. intros _. exists []. split; [by rewrite app_nil_r|constructor]. }
  unfold wp. rewrite verify_chunks_cons. fold (wp (let! (b, d) := check_chunk level sn f c in
    verify_chunks level sn f cs (hashed ++ b) (found ++ d)) (fun x s' => reads s s' /\ match x with
       | Ok (h, found') => exists new, found' = found ++ new /\
           Forall (fun d => dm_snapshot d = sn_id sn /\ justified level s s' f d /\ dm_kind d <> FileHashMismatch) new /\
           (new = [] -> Forall (chunk_ok level s) (c :: cs) /\
              (level = ReadData -> exists pieces, h = hashed ++ concat pieces /\
                 Forall2 (fun c p => reads_as s (c_hash c) p) (c :: cs) pieces))
       | Err e => calm e
       end) s).
  eapply wp_seq; [apply wp_check_chunk; [done|apply Hcs; left]| |done].
  intros [b d] s1 [Hs1 Hd].
  assert (decodable s1) as Hdec1 by (unfold decodable; by rewrite (rd_chunks _ _ Hs1)).
  eapply wp_mono; [apply IH; [done|]; intros c' ?; apply Hcs; by right|].
  intros x s2 [Hs2 Hx]. split; [by etrans|]. destruct x as [[h found']|x]; [|done].
  destruct Hx as (new & -> & Hnew & Hok). exists (d ++ new). split; [by rewrite app_assoc|]. split.
  - apply Forall_app. split.
    + destruct Hd as [(-> & _)|(d' & -> & ? & ? & ?)]; [done|]. apply Forall_singleton. split; [done|].
      split; [|done]. eapply justified_mono; [by apply rd_calls|done].
    + eapply Forall_impl; [exact Hnew|]. intros d' (? & [Hp Hj] & Hk). split; [done|]. split; [|done].
      split; [done|]. destruct (dm_kind d'); [|..|done].
      * by rewrite <- (rd_chunks _ _ Hs1).
      * destruct Hj as (-> & c' & ? & ? & Hwhy). split; [done|]. exists c'. split; [done|]. split; [done|].
        destruct Hwhy as [Hno|Htr]; [left; by intros Hck%(chunk_ok_reads ReadData s s1)|right].
        eapply (trouble_mono s s1 s2 s2); [by apply rd_calls|done|done].
  - intros [Hd0 ->]%app_nil. destruct Hd as [(_ & Hc & Hb)|(d' & -> & _)]; [|done].
    destruct (Hok eq_refl) as [Hall Hp]. split.
    + constructor; [done|]. eapply Forall_impl; [exact Hall|]. intros c'. by apply (chunk_ok_reads level s s1).
    + intros Hl. destruct (Hp Hl) as (pieces & -> & Hps). exists (b :: pieces).
      split; [by rewrite <- app_assoc|]. constructor; [by apply Hb|].
      eapply Forall2_impl; [exact Hps|]. intros c' p. unfold reads_as.
      by rewrite (rd_chunks _ _ Hs1), (rd_packs _ _ Hs1).
Qed.

(** ** Files and snapshots *)

Lemma file_ok_reads level s s' f : reads s s' -> file_ok level s' f <-> file_ok level s f.
Proof using Type.
  intros Hs. unfold file_ok. pose proof (fun c => chunk_ok_reads level _ _ c Hs) as Hc.
  split; intros [H1 H2]; (split; [eapply Forall_impl; [exact H1|]; intros c; by apply Hc|]);
    intros Hl; destruct (H2 Hl) as (ps & H3 & H4); exists ps; (split; [|done]);
    (eapply Forall2_impl; [exact H3|]); intros c q; unfold reads_as;
    by rewrite ?(rd_chunks _ _ Hs), ?(rd_packs _ _ Hs).
Qed.

Lemma justified_reads level s s1 s2 f d : reads s s1 -> justified level s1 s2 f d -> justified level s s2 f d.
Proof using Type.
  intros Hs [Hp H]. split; [done|]. destruct (dm_kind d).
  - by rewrite <- (rd_chunks _ _ Hs).
  - destruct H as (-> & c & ? & ? & Hwhy). split; [done|]. exists c. split; [done|]. split; [done|].
    destruct Hwhy as [Hno|Htr]; [left; by intros Hck%(chunk_ok_reads ReadData s s1)|right].
    eapply (trouble_mono s s1 s2 s2); [by apply rd_calls|done|done].
  - destruct H as [-> H]. split; [done|]. by rewrite <- (file_ok_reads ReadData s s1).
Qed.

(** What a pass over some files has found: every entry has a reason, and every
    file without an entry is whole. *)
Record checked (level : VerifyLevel) s s' (todo : list (Snapshot * FileEntry)) (found : list VerifyDamage) : Prop := {
  ck_reasons : forall d, d ∈ found -> exists sn f, (sn, f) ∈ todo /\ dm_snapshot d = sn_id sn /\ justified level s s' f d;
  ck_whole : forall sn f, (sn, f) ∈ todo -> file_ok level s f \/
    exists d, d ∈ found /\ dm_snapshot d = sn_id sn /\ dm_path d = fe_path f;
}.

Lemma checked_nil level s s' : checked level s s' [] [].
Proof using Type. split; [by intros d ?%elem_of_nil|by intros sn f ?%elem_of_nil]. Qed.

Lemma checked_app level s s1 s2 t1 t2 d1 d2 :
  reads s s1 -> reads s1 s2 -> checked level s s1 t1 d1 -> checked level s1 s2 t2 d2 ->
  checked level s s2 (t1 ++ t2) (d1 ++ d2).
Proof using Type.
  intros Hs1 Hs2 [A1 A2] [B1 B2]. split.
  - intros d [(sn & f & ? & ? & Hj)%A1|(sn & f & ? & ? & Hj)%B1]%elem_of_app; exists sn, f;
      rewrite elem_of_app; (split; [auto|]); (split; [done|]).
    + eapply justified_mono; [by apply rd_calls|done].
    + by eapply justified_reads.
  - intros sn f [[?|(d & ? & ?)]%A2|[Hf|(d & ? & ?)]%B2]%elem_of_app; [by left|right|left|right].
    + exists d. rewrite elem_of_app. auto.
    + by apply (file_ok_reads level s s1).
    + exists d. rewrite elem_of_app. auto.
Qed.

Lemma wp_verify_file level sn f s :
  decodable s ->
  wp (verify_file level sn f) (fun x s' => reads s s' /\ match x with
    | Ok found => checked level s s' [(sn, f)] found
    | Err e => calm e
    end) s.
Proof using Type.
  intros Hdec. unfold verify_file.
  eapply wp_seq; [by apply (wp_verify_chunks level sn f (m_chunks (fe_manifest f)) [] [] s)| |done].
  intros [h found] s1 [Hs1 (new & -> & Hnew & Hok)]. cbn [app] in *. apply wp_ret. split; [done|].
  rewrite Forall_forall in Hnew. destruct new as [|d0 new].
  2:{ assert (match level with Metadata => d0 :: new | ReadData => d0 :: new end = d0 :: new) as -> by by destruct level.
      split.
      - intros d Hd. destruct (Hnew d Hd) as (? & ? & _). exists sn, f. split; [left|done].
      - intros sn' f' [= -> ->]%list_elem_of_singleton. right. destruct (Hnew d0 ltac:(left)) as (? & [? _] & _).
        exists d0. split; [left|done]. }
  destruct (Hok eq_refl) as [Hall Hp]. destruct level.
  { split; [by intros d ?%elem_of_nil|]. intros sn' f' [= -> ->]%list_elem_of_singleton. left. by split. }
  destruct (Hp eq_refl) as (pieces & -> & Hps). case_bool_decide as Hh.
  { split; [by intros d ?%elem_of_nil|]. intros sn' f' [= -> ->]%list_elem_of_singleton. left.
    split; [done|]. intros _. by exists pieces. }
  split.
  - intros d ->%list_elem_of_singleton. exists sn, f. split; [left|]. split; [done|]. split; [done|]. simpl.
    split; [done|]. intros [_ Hf]. destruct (Hf eq_refl) as (ps & Hps' & Hh'). apply Hh. rewrite <- Hh'.
    do 2 f_equal. clear -Hps Hps'. revert ps Hps'. induction Hps as [|c p cs ps0 Hc _ IH]; intros ps Hps'.
    + by inversion Hps'.
    + inversion Hps' as [|? p' ? ps' Hc' Hrest]; subst. f_equal; [|by apply IH].
      destruct Hc as (v & loc & pk & Hv & Hl & Hpk & Hd & _).
      destruct (reads_as_row _ _ _ _ _ Hc' Hv Hl) as (pk' & ? & ? & _). congruence.
  - intros sn' f' [= -> ->]%list_elem_of_singleton. right. eexists. split; [left|]. done.
Qed.

Lemma wp_verify_files level sn files rep s :
  decodable s ->
  wp (verify_files level sn files rep) (fun x s' => reads s s' /\ match x with
    | Ok rep' => exists found, damage rep' = damage rep ++ found /\
        snapshots_checked rep' = snapshots_checked rep /\ checked level s s' ((sn,.) <$> files) found
    | Err e => calm e
    end) s.
Proof using Type.
  revert rep s. induction files as [|f files IH]; intros rep s Hdec; cbn [verify_files].
  { apply wp_ret. split; [done|]. exists []. split; [by rewrite app_nil_r|]. split; [done|]. apply checked_nil. }
  eapply wp_seq; [by apply wp_verify_file| |done]. intros found s1 [Hs1 Hck].
  eapply wp_mono; [apply IH; unfold decodable; by rewrite (rd_chunks _ _ Hs1)|].
  intros x s2 [Hs2 Hx]. split; [by etrans|]. destruct x as [rep'|x]; [|done]. simpl in Hx.
  destruct Hx as (new & -> & ? & Hck2). exists (found ++ new). split; [by rewrite app_assoc|]. split; [done|].
  by apply (checked_app level s s1 s2 [(sn, f)]).
Qed.

Definition all_files (snaps : list Snapshot) : list (Snapshot * FileEntry) :=
  snaps ≫= (fun sn => (sn,.) <$> sn_files sn).

Lemma wp_verify_snaps level snaps rep s :
  decodable s ->
  wp (verify_snaps level snaps rep) (fun x s' => reads s s' /\ match x with
    | Ok rep' => exists found, damage rep' = damage rep ++ found /\ checked level s s' (all_files snaps) found
    | Err e => calm e
    end) s.
Proof using Type.
  revert rep s. induction snaps as [|sn snaps IH]; intros rep s Hdec; cbn [verify_snaps].
  { apply wp_ret. split; [done|]. exists []. split; [by rewrite app_nil_r|]. apply checked_nil. }
  eapply wp_seq; [by apply wp_verify_files| |done]. intros rep1 s1 [Hs1 (f1 & E1 & _ & Hck)].
  eapply wp_mono; [apply IH; unfold decodable; by rewrite (rd_chunks _ _ Hs1)|].
  intros x s2 [Hs2 Hx]. split; [by etrans|]. destruct x as [rep2|x]; [|done].
  destruct Hx as (f2 & -> & Hck2). exists (f1 ++ f2). simpl in E1. rewrite E1. split; [by rewrite app_assoc|].
  by apply (checked_app level s s1 s2).
Qed.

(** ** [verify] *)

Definition chosen (only : option Z) (id : Z) : Prop := match only with Some i => id = i | None => True end.

Record verified (only : option Z) (level : VerifyLevel) r r' (rep : VerifyReport) : Prop := {
  vf_reasons : forall d, d ∈ damage rep -> exists sn f, view r (dm_snapshot d) = Some sn /\
    chosen only (dm_snapshot d) /\ f ∈ sn_files sn /\ justified level (store r) (store r') f d;
  vf_whole : forall id sn f, view r id = Some sn -> chosen only id -> f ∈ sn_files sn ->
    file_ok level (store r) f \/ exists d, d ∈ damage rep /\ dm_snapshot d = id /\ dm_path d = fe_path f;
}.

Lemma disk_decodable s : disk_wf R s -> decodable s.
Proof using Type. intros Hd h v Hv. destruct (wf_rows _ _ Hd _ _ Hv) as (p & v' & loc & f & ? & ? & _). exists loc. congruence. Qed.

Lemma rpost_verify only level r :
  repo_wf R r -> mem_wf R (store r) ->
  wp (verify only level) (rpost R r (fun rep r' => query r r' /\ verified only level r r' rep)) r.
Proof using Type.
  intros Hw Hm. eapply rpost_seq; [by apply rpost_load|]. intros snaps r1 Hw1 Hm1 _ (-> & Hq1).
  set (todo := filter _ (snaps_of r)). eapply rpost_mono.
  { apply (rpost_on_store R _ (fun rep s' => reads (store r1) s' /\
      checked level (store r1) s' (all_files todo) (damage rep))); [done|done|].
    pose proof (disk_decodable _ (rw_disk _ _ Hw1)) as Hdec.
    pose proof (wp_verify_snaps level todo {| snapshots_checked := 0; files_checked := 0;
      chunks_checked := 0; damage := [] |} (store r1) Hdec) as H.
    unfold wp in *. destruct H as [Hs Hx]. destruct (verify_snaps level todo _ (store r1)) as [x s2]. simpl in *.
    split; [by eapply wf_reads; [apply Hw1|done|done]|]. split; [by apply reads_safe|].
    destruct x as [rep|e]; [|done]. destruct Hx as (found & E & Hck). split; [done|]. by rewrite E. }
  intros rep r2 _ ([Hs2 Hck] & _ & E2). destruct Hq1 as [Hs1 E1].
  assert (forall sn f, (sn, f) ∈ all_files todo <-> f ∈ sn_files sn /\ view r (sn_id sn) = Some sn /\ chosen only (sn_id sn)) as Htodo.
  { intros sn f. unfold all_files. rewrite list_elem_of_bind. split.
    - intros (sn' & (f' & [= -> ->] & Hf)%list_elem_of_fmap & [Hc (id & Hv)%elem_of_snaps]%list_elem_of_filter).
      rewrite (ro_id _ _ _ (view_row _ _ _ _ Hw Hv)). split; [done|]. split; [done|].
      rewrite (ro_id _ _ _ (view_row _ _ _ _ Hw Hv)) in Hc. destruct only; [by apply Z.eqb_eq in Hc|done].
    - intros (Hf & Hv & Hc). exists sn. split; [by apply list_elem_of_fmap_2|]. apply list_elem_of_filter.
      split; [destruct only; [by apply Z.eqb_eq|done]|]. apply elem_of_snaps. eauto. }
  split.
  { split; [by etrans|]. rewrite E2, E1. done. }
  destruct Hck as [K1 K2]. split.
  - intros d (sn & f & (Hf & Hv & Hc)%Htodo & -> & Hj)%K1. exists sn, f. split; [done|]. split; [done|].
    split; [done|]. by eapply justified_reads.
  - intros id sn f Hv Hc Hf. pose proof (ro_id _ _ _ (view_row _ _ _ _ Hw Hv)) as Hid. subst id.
    destruct (K2 sn f) as [Hok|Hd]; [by apply Htodo| |by right].
    left. by apply (file_ok_reads level (store r) (store r1)).
Qed.

(** A clean report means that every file is whole. *)
Lemma verified_clean only level r r' rep id sn f :
  verified only level r r' rep -> is_clean rep = true -> view r id = Some sn -> chosen only id ->
  f ∈ sn_files sn -> file_ok level (store r) f.
Proof using Type.
  intros [_ H] Hc Hv Hch Hf. destruct (H _ _ _ Hv Hch Hf) as [?|(d & Hd & _)]; [done|].
  unfold is_clean in Hc. destruct (damage rep); [|done]. by apply elem_of_nil in Hd.
Qed.

(** ** [repair_remove_damaged] *)

Lemma dedup_spec (l : list Z) :
  StronglySorted (fun a b => Z.leb a b = true) l ->
  (forall x, x ∈ dedup l <-> x ∈ l) /\ StronglySorted Z.lt (dedup l).
Proof using Type.
  clear HR. induction 1 as [|x l Hs [IH1 IH2] Hx]; [split; [done|constructor]|].
  destruct l as [|y l']; [simpl; split; [done|by repeat constructor]|].
  cbn [dedup]. destruct (Z.eqb_spec x y) as [->|Hne].
  { split; [|exact IH2]. intros z. rewrite (IH1 z), !elem_of_cons. tauto. }
  split; [intros z; rewrite !(elem_of_cons _ _ x), (IH1 z); done|]. constructor; [exact IH2|].
  rewrite Forall_forall in *. intros z Hz%IH1. inversion Hs as [|? ? _ Hy]; subst.
  rewrite Forall_forall in Hy. pose proof (Hx y ltac:(left)) as Hxy. apply Z.leb_le in Hxy.
  apply elem_of_cons in Hz as [->|Hz]; [lia|]. specialize (Hy z Hz). apply Z.leb_le in Hy. lia.
Qed.

(** Exactly the snapshots with an entry in the report go, and the collection
    that follows leaves the chunks the others refer to. *)
Lemma rpost_repair rep apply_ r :
  repo_wf R r -> mem_wf R (store r) ->
  wp (repair_remove_damaged rep apply_) (rpost R r (fun x r' =>
    (forall id, id ∈ x.1 <-> exists d, d ∈ damage rep /\ dm_snapshot d = id) /\
    StronglySorted Z.lt x.1 /\
    (if apply_ then forall id, view r' id = if decide (id ∈ x.1) then None else view r id else r' = r))) r.
Proof using WL.
  clear HR. intros Hw Hm. unfold repair_remove_damaged. set (ids := dedup _).
  assert ((forall id, id ∈ ids <-> exists d, d ∈ damage rep /\ dm_snapshot d = id) /\ StronglySorted Z.lt ids)
    as [Hids Hsorted].
  { unfold ids. destruct (dedup_spec (sort_by Z.leb (dm_snapshot <$> damage rep))) as [H1 H2].
    - apply sort_by_sorted; intros; rewrite ?Z.leb_le in *; lia.
    - split; [|done]. intros id. rewrite H1, elem_of_sort_by, list_elem_of_fmap. naive_solver. }
  destruct (negb apply_ || _) eqn:Hskip.
  - apply rpost_ret; [done..|]. split; [done|]. split; [done|]. destruct apply_; [|done]. simpl in *.
    destruct ids; [|done]. intros id. by rewrite decide_False by apply not_elem_of_nil.
  - destruct apply_; [|done]. eapply rpost_seq; [by apply rpost_remove_snapshots|].
    intros n r1 Hw1 Hm1 _ [_ Hri]. eapply rpost_seq; [by apply rpost_gc|].
    intros g r2 Hw2 Hm2 _ Hgc. apply rpost_ret; [done..|]. split; [done|]. split; [done|].
    intros id. by rewrite (gd_catalog _ _ _ Hgc), (ri_view _ _ _ Hri).
Qed.
End verify.
