(* ===== verification/RepoRecord.v ===== *)
(** * The snapshot repository: recording

    The files are chunked first and the row is written last, so a snapshot in
    the catalog is whole; the walk of [snapshot_source] finds every file the
    filters pass, and its fuel is always enough.

    The second part is about replication, an operation over two repositories. *)
From S2P Require Import Prelude.
From S2P Require Import Text.
From S2P Require Import Files.
From S2P Require Import Monad.
From S2P Require Import Table.
From S2P Require Import ChunkTypes.
From S2P Require Import ChunkStore.
From S2P Require Import ChunkWp.
From S2P Require Import ChunkFile.
From S2P Require Import ChunkFileSafety.
From S2P Require Import Repository.
From S2P Require Import RepoWp.
From S2P Require Import RepoOps.
From S2P Require Import RepoRestore.
From stdpp Require Import options.
Open Scope Z_scope.
Open Scope monad_scope.

Section record.
Context {TC TM TS TN TQ : Type} {kle : bytes -> bytes -> Prop}.
Context {TBC : Table bytes bytes TC kle} {TBM : Table string bytes TM String.le}.
Context {TBS : Table string bytes TS String.le}.
Context {TBN : Table Z bytes TN Z.le} {TBQ : Table string Z TQ String.le}.
Context {CM : Codec Manifest bytes} {CS : Codec Snapshot bytes} {CU : Codec UnifiedSnapshot bytes}.
Context {B3 : Blake3} {ZS : Zstd} {EN : ChunkWorld} {FC : FastCdc}.
Context {ZL : ZstdLaws} {WL : WorldLaws} {FL : FastCdcLaws} {DL : DigestLaws}.
Context (R : Z) (HR : 0 <= R <= 2 ^ 62).
Local Abbreviation Store := (Store TC TM TS).
Local Abbreviation Repo := (Repo TC TM TS TN TQ).
Local Abbreviation M := (@M TC TM TS).
Local Abbreviation RM := (@RM TC TM TS TN TQ).
Implicit Types s : Store.
Implicit Types r : Repo.

(** ** A new snapshot *)

(** The catalog has one snapshot more, of these files. *)
Record added r (files : list (string * bytes)) (key : option string) (created : Z) (id : Z) r' : Prop := {
  ad_id : id = next_id r;
  ad_next : next_id r' = id + 1;
  ad_store : safe (store r) (store r');
  ad_others : forall i, i <> id -> view r' i = view r i;
  ad_row : exists sn, view r' id = Some sn /\ describes sn files /\ sn_created sn = created /\
    sn_source_key sn = key /\ sn_pinned sn = false;
}.

Lemma stored_view r r' id : stored r r' -> view r' id = view r id.
Proof using Type. by intros [_ ->]. Qed.

Lemma stored_next r r' : stored r r' -> next_id r' = next_id r.
Proof using Type. by intros [_ ->]. Qed.

(** Writing the row of files that are in the store. *)
Lemma rpost_row r r1 kind label key created files es :
  repo_wf R r1 -> mem_wf R (store r1) -> next_id r < U64_MAX -> stored r r1 ->
  Forall2 (fun pb e => entry_of pb.1 pb.2 e) files es -> entries_held (store r1) es ->
  wp (record_inner kind label key created es) (rpost R r1 (fun id r' => added r files key created id r')) r1.
Proof using Type.
  intros Hw Hm Hn Hst Hes Hheld. eapply rpost_mono.
  { apply rpost_record_inner; [done|done|by rewrite (stored_next _ _ Hst)|done]. }
  intros id r' _ (-> & Hs & Hn' & Hoth & sn & Hv & Hf & Hc & Hk & Hp).
  pose proof (stored_next _ _ Hst) as En. split; [done|done| | |].
  - etrans; [apply Hst|by apply reads_safe].
  - intros i Hi. rewrite Hoth by done. by apply stored_view.
  - exists sn. split; [done|]. split; [unfold describes; by rewrite Hf|done].
Qed.

Lemma rpost_snapshot_bytes kind label key created files r :
  repo_wf R r -> mem_wf R (store r) -> next_id r < U64_MAX -> Forall (fun pb => storable pb.2) files ->
  wp (let! entries := chunk_all files in record_inner kind label key created entries)
    (rpost R r (fun id r' => added r files key created id r')) r.
Proof using Type*.
  intros Hw Hm Hn Hsz. eapply rpost_seq; [by apply rpost_chunk_all|].
  intros es r1 Hw1 Hm1 _ (Hst & Hes & Hheld). by eapply rpost_row.
Qed.

(** The files on disk at the time. *)
Definition contents (files : gmap path bytes) (srcs : list (string * path)) (out : list (string * bytes)) : Prop :=
  Forall2 (fun ps pb => pb.1 = ps.1 /\ files !! ps.2 = Some pb.2) srcs out.

Lemma rpost_snapshot_files kind label key created srcs r :
  repo_wf R r -> mem_wf R (store r) -> next_id r < U64_MAX ->
  Forall (fun ps => forall b, fs (store r) !! ps.2 = Some b -> storable b) srcs ->
  wp (let! entries := stream_all srcs in record_inner kind label key created entries)
    (rpost R r (fun id r' => exists files, contents (fs (store r)) srcs files /\ added r files key created id r')) r.
Proof using Type*.
  intros Hw Hm Hn Hsz. eapply rpost_seq; [by apply rpost_stream_all|].
  intros es r1 Hw1 Hm1 _ (Hst & Hes & Hheld).
  assert (exists files, contents (fs (store r)) srcs files /\
    Forall2 (fun pb e => entry_of pb.1 pb.2 e) files es) as (files & Hc & Hf).
  { clear -Hes. induction Hes as [|[p src] e srcs es (b & Hb & He) _ (files & IH1 & IH2)].
    - exists []. split; constructor.
    - exists ((p, b) :: files). split; by constructor. }
  eapply rpost_mono; [by eapply rpost_row|]. intros id r' _ Had. by exists files.
Qed.

(** ** The walk of a source tree *)

Section walk.
Context (passes_dir passes_file : string -> bool).

Definition is_dir (n : Node) : bool := match n with NDir _ _ => true | _ => false end.

(** The files of one directory that pass the filter, in the order of the
    directory. *)
Definition dir_files (dir : list string) (entries : list (string * Node)) : list (string * bytes) :=
  omap (fun e => match e.2 with
    | NFile content => if passes_file (rel_key (dir ++ [e.1])) then Some (rel_key (dir ++ [e.1]), content) else None
    | _ => None
    end) entries.

(** The subdirectories that pass, the last one first. *)
Fixpoint dir_subs (dir : list string) (entries : list (string * Node)) : list (list string * Node) :=
  match entries with
  | [] => []
  | (name, n) :: entries =>
      dir_subs dir entries ++
      (if is_dir n && passes_dir (rel_key (dir ++ [name])) then [(dir ++ [name], n)] else [])
  end.

(** What the snapshot of a tree should hold: a directory's own files, then
    those of its subdirectories. *)
Fixpoint expected (dir : list string) (n : Node) : list (string * bytes) :=
  match n with
  | NDir true entries =>
      dir_files dir entries ++
      (fix subs (l : list (string * Node)) := match l with
        | [] => []
        | (name, n) :: l =>
            subs l ++ (if is_dir n && passes_dir (rel_key (dir ++ [name])) then expected (dir ++ [name]) n else [])
        end) entries
  | _ => []
  end.

Lemma expected_dir dir entries :
  expected dir (NDir true entries) =
    dir_files dir entries ++ (dir_subs dir entries ≫= fun dn => expected dn.1 dn.2).
Proof using Type.
  cbn [expected]. f_equal. induction entries as [|[name n] entries IH]; [done|].
  cbn [dir_subs]. rewrite bind_app, IH. f_equal. destruct (_ && _); [|done]. simpl. by rewrite app_nil_r.
Qed.

Definition stack_count (st : list (list string * Node)) : nat := foldr (fun dn k => node_count dn.2 + k)%nat O st.

Lemma stack_count_app a b : stack_count (a ++ b) = (stack_count a + stack_count b)%nat.
Proof using Type. induction a as [|x a IH]; simpl; [done|]. rewrite IH. lia. Qed.

Lemma dir_subs_count dir entries : (stack_count (dir_subs dir entries) < node_count (NDir true entries))%nat.
Proof using Type.
  clear HR. cbn [node_count]. induction entries as [|[name n] entries IH]; [simpl; lia|]. cbn [dir_subs foldr].
  rewrite stack_count_app. destruct (_ && _); simpl in *; lia.
Qed.

Definition walked r (w w' : Walk) (files : list (string * bytes)) r' : Prop :=
  stored r r' /\ exists es, wk_entries w' = wk_entries w ++ es /\
    Forall2 (fun pb e => entry_of pb.1 pb.2 e) files es /\ (entries_held (store r) (wk_entries w) ->
      entries_held (store r') (wk_entries w')).

Lemma entries_held_app s a b : entries_held s (a ++ b) <-> entries_held s a /\ entries_held s b.
Proof using Type.
  unfold entries_held, refs_held. rewrite bind_app. apply Forall_app.
Qed.

Lemma entries_held_stored r r' es : stored r r' -> entries_held (store r) es -> entries_held (store r') es.
Proof using Type. intros [Hs _]. apply refs_held_keeps. apply Hs. Qed.

Lemma walked_refl r w w' : wk_entries w' = wk_entries w -> walked r w w' [] r.
Proof using Type.
  intros E. split; [apply stored_refl|]. exists []. rewrite E, app_nil_r. split; [done|]. split; [constructor|done].
Qed.

Lemma walked_trans r1 r2 r3 w1 w2 w3 f1 f2 :
  walked r1 w1 w2 f1 r2 -> walked r2 w2 w3 f2 r3 -> walked r1 w1 w3 (f1 ++ f2) r3.
Proof using Type.
  intros (S1 & e1 & E1 & F1 & H1) (S2 & e2 & E2 & F2 & H2). split; [by eapply stored_trans|].
  exists (e1 ++ e2). split; [by rewrite E2, E1, app_assoc|]. split; [by apply Forall2_app|]. auto.
Qed.

Lemma rpost_walk_entries dir entries w r :
  repo_wf R r -> mem_wf R (store r) -> Forall (fun pb => storable pb.2) (dir_files dir entries) ->
  wp (walk_entries passes_dir passes_file dir entries w) (rpost R r (fun w' r' =>
    walked r w w' (dir_files dir entries) r' /\ wk_stack w' = dir_subs dir entries ++ wk_stack w)) r.
Proof using Type*.
  revert w r. induction entries as [|[name node] entries IH]; intros w r Hw Hm Hsz; cbn [walk_entries].
  { apply rpost_ret; [done..|]. split; [by apply walked_refl|done]. }
  cbn [dir_subs]. destruct node as [content|rd sub| |]; cbn [is_dir andb].
  - cbn [dir_files omap list_omap fst snd] in Hsz |- *. destruct (passes_file _).
    2:{ eapply rpost_mono; [by apply IH|]. intros w' r' _ [? ->]. by rewrite app_nil_r. }
    apply Forall_cons in Hsz as [Hb Hsz]. apply wp_bind, wp_gets. eapply rpost_seq.
    { apply (rpost_on_store R _ (fun _ => reads (store r))); [done|done|]. by apply post_call; [apply Hw| |left]. }
    intros [] r1 Hw1 Hm1 _ (Hr1 & Hs1 & E1). eapply rpost_seq.
    { apply rpost_on_store; [done|done|].
      apply (post_ingest_reader R HR default_chunker); [apply Hw1|done|apply default_chunker_ok|apply Hb..]. }
    intros m r2 Hw2 Hm2 _ ((Hmo & Hheld) & Hs2 & E2). eapply rpost_mono; [by apply IH|].
    intros w' r' _ [Hwk ->]. rewrite app_nil_r. split; [|done].
    eapply (walked_trans r r2 r' _ _ w' [_]); [|exact Hwk].
    assert (stored r r2) as Hst by (eapply stored_trans; by split).
    split; [done|]. eexists [_]. simpl. split; [done|]. split; [constructor; [by split|constructor]|].
    intros Hh. apply entries_held_app. split; [by eapply entries_held_stored|].
    apply entries_held_cons. split; [done|constructor].
  - cbn [dir_files omap list_omap fst snd] in Hsz |- *. eapply rpost_mono; [by apply IH|].
    intros w' r' _ [(Hst & es & Hes & Hf & Hh) ->]. rewrite <- app_assoc. destruct (passes_dir _); simpl in *;
      (split; [by split; [|exists es]|done]).
  - cbn [dir_files omap list_omap fst snd] in Hsz |- *. eapply rpost_mono; [by apply IH|].
    intros w' r' _ [(Hst & es & Hes & Hf & Hh) ->]. rewrite app_nil_r. split; [by split; [|exists es]|done].
  - cbn [dir_files omap list_omap fst snd] in Hsz |- *. eapply rpost_mono; [by apply IH|].
    intros w' r' _ [(Hst & es & Hes & Hf & Hh) ->]. rewrite app_nil_r. split; [by split; [|exists es]|done].
Qed.

(** One turn of the loop per directory: the fuel is enough, and the entries
    are those of the stack, in order. *)
Lemma rpost_walk_loop fuel w r :
  repo_wf R r -> mem_wf R (store r) -> (stack_count (wk_stack w) < fuel)%nat ->
  Forall (fun pb => storable pb.2) (wk_stack w ≫= fun dn => expected dn.1 dn.2) ->
  wp (walk_loop passes_dir passes_file fuel w) (rpost R r (fun w' r' =>
    walked r w w' (wk_stack w ≫= fun dn => expected dn.1 dn.2) r')) r.
Proof using Type*.
  revert w r. induction fuel as [|fuel IH]; intros w r Hw Hm Hfuel Hsz; [lia|]. cbn [walk_loop].
  destruct (wk_stack w) as [|[dir node] stack] eqn:Hst; [by apply rpost_ret, walked_refl|].
  assert (expected dir node = [] -> (1 <= node_count node)%nat ->
    wp (walk_loop passes_dir passes_file fuel {| wk_entries := wk_entries w; wk_bytes := wk_bytes w;
        wk_skipped := wk_skipped w; wk_stack := stack |})
      (rpost R r (fun w' r' => walked r w w' (((dir, node) :: stack) ≫= fun dn => expected dn.1 dn.2) r')) r) as Hskip.
  { intros He Hnc. cbn [mbind list_bind fst snd] in Hsz |- *. rewrite He in *. simpl in Hfuel. apply IH; [done|done| |done].
    simpl. lia. }
  destruct node as [content|[] entries| |]; try (apply Hskip; [done|simpl; lia]).
  clear Hskip. cbn [mbind list_bind fst snd] in Hsz |- *. rewrite expected_dir in *. rewrite <- app_assoc in *.
  apply Forall_app in Hsz as [Hf Hsz]. eapply rpost_seq; [by apply rpost_walk_entries|].
  intros w1 r1 Hw1 Hm1 _ [Hwk Hst1]. cbn [wk_stack] in Hst1.
  eapply rpost_mono.
  { apply IH; [done|done| |].
    - rewrite Hst1, stack_count_app. pose proof (dir_subs_count dir entries). cbn [stack_count foldr snd] in Hfuel.
      fold (stack_count stack) in Hfuel. lia.
    - by rewrite Hst1, bind_app. }
  intros w' r' _ Hwk2. rewrite Hst1, bind_app in Hwk2. eapply walked_trans; [|exact Hwk2].
  exact Hwk.
Qed.

(** The snapshot of a tree holds exactly the files the filters pass. *)
Lemma rpost_snapshot_source kind label key created root r :
  repo_wf R r -> mem_wf R (store r) -> next_id r < U64_MAX ->
  Forall (fun pb => storable pb.2) (expected [] root) ->
  wp (snapshot_source passes_dir passes_file kind label key created root) (rpost R r (fun sum r' =>
    added r (expected [] root) key created (sum_id sum) r' /\
    sum_files sum = Z.of_nat (length (expected [] root)))) r.
Proof using Type*.
  intros Hw Hm Hn Hsz. unfold snapshot_source. eapply rpost_seq.
  { apply rpost_walk_loop; [done|done|simpl; lia|]. simpl. by rewrite app_nil_r. }
  intros w r1 Hw1 Hm1 _ Hwk. cbn [wk_stack mbind list_bind fst snd] in Hwk. rewrite app_nil_r in Hwk.
  destruct Hwk as (Hst & es & Hes & Hf & Hh). cbn [wk_entries app] in *. rewrite Hes in *.
  eapply rpost_seq; [eapply rpost_row; [done|done|done|done|exact Hf|]|].
  - apply Hh. constructor.
  - intros id r2 Hw2 Hm2 _ Had. apply rpost_ret; [done..|]. split; [exact Had|]. simpl.
    f_equal. symmetry. by eapply Forall2_length.
Qed.
End walk.
End record.

(** * The snapshot repository: replication

    [replicate_to] runs over two repositories, each in a world of its own.  It
    only reads the source; the destination keeps what it had and ends with a
    snapshot of the same content for every one of the source, whole, whatever
    it held before. *)

Section replicate.
Context {TC TM TS TN TQ : Type} {kle : bytes -> bytes -> Prop}.
Context {TBC : Table bytes bytes TC kle} {TBM : Table string bytes TM String.le}.
Context {TBS : Table string bytes TS String.le}.
Context {TBN : Table Z bytes TN Z.le} {TBQ : Table string Z TQ String.le}.
Context {CM : Codec Manifest bytes} {CS : Codec Snapshot bytes} {CU : Codec UnifiedSnapshot bytes}.
Context {B3 : Blake3} {ZS : Zstd} {ZL : ZstdLaws} {DL : DigestLaws}.
Context (EN1 EN2 : ChunkWorld) {WL1 : @WorldLaws EN1} {WL2 : @WorldLaws EN2}.
Context (R1 R2 : Z) (HR1 : 0 <= R1 <= 2 ^ 62) (HR2 : 0 <= R2 <= 2 ^ 62).
Local Abbreviation Repo := (Repo TC TM TS TN TQ).
Local Abbreviation M := (@M TC TM TS).
Local Abbreviation PM := (SM (Repo * Repo) Exn).
Implicit Types r : Repo.
Implicit Types p : Repo * Repo.

Local Abbreviation rpost1 := (rpost (EN := EN1) R1).
Local Abbreviation rpost2 := (rpost (EN := EN2) R2).

(** Both sides are well formed and up. *)
Definition both p : Prop :=
  repo_wf (EN := EN1) R1 p.1 /\ mem_wf (EN := EN1) R1 (store p.1) /\
  repo_wf (EN := EN2) R2 p.2 /\ mem_wf (EN := EN2) R2 (store p.2).

(** What both processes remember after a call. *)
Definition mems {A} (x : result Exn A) p : Prop :=
  mem_after (EN := EN1) R1 x (store p.1) /\ mem_after (EN := EN2) R2 x (store p.2).

(** What a step of the replication does: it queries the source and adds to the
    destination. *)
Definition ppost {A} p (Q : A -> Repo * Repo -> Prop) (x : result Exn A) p' : Prop :=
  repo_wf (EN := EN1) R1 p'.1 /\ repo_wf (EN := EN2) R2 p'.2 /\
  (lives x -> mems x p') /\ query p.1 p'.1 /\ catalog_step p.2 p'.2 /\
  (forall id sn, view p.2 id = Some sn -> view p'.2 id = Some sn) /\
  match x with Ok a => Q a p' | Err e => calm e end.

Lemma ppost_ret {A} (a : A) (Q : A -> Repo * Repo -> Prop) p : both p -> Q a p -> wp (ret a) (ppost p Q) p.
Proof using Type.
  intros Hb HQ. apply wp_ret. pose proof Hb as (? & ? & ? & ?). split; [done|]. split; [done|].
  split; [done|]. split; [apply query_refl|]. done.
Qed.

Lemma ppost_both {A} (a : A) Q p p' : ppost p Q (Ok a) p' -> both p'.
Proof using Type. intros (? & ? & Hl & _). destruct (Hl ltac:(done)). by split_and!. Qed.

Lemma ppost_seq {A B} (m : PM A) (f : A -> PM B) (QA : A -> Repo * Repo -> Prop) QB p :
  wp m (ppost p QA) p ->
  (forall a p1, both p1 -> query p.1 p1.1 -> catalog_step p.2 p1.2 ->
     (forall id sn, view p.2 id = Some sn -> view p1.2 id = Some sn) -> QA a p1 -> wp (f a) (ppost p1 QB) p1) ->
  wp (bind m f) (ppost p QB) p.
Proof using Type.
  intros Hm Hf. eapply wp_seq; [exact Hm| |].
  - intros a p1 Hpost. pose proof (ppost_both _ _ _ _ Hpost) as Hb.
    destruct Hpost as (W1 & W2 & Hl & Hq & Hc & Hv & Ha). eapply wp_mono; [by apply Hf|].
    intros x p2 (V1 & V2 & Hl2 & Hq2 & Hc2 & Hv2 & Hx). split; [done|]. split; [done|]. split; [done|].
    split; [|split; [by etrans|split; [by auto|done]]].
    by eapply query_trans.
  - intros e p1 (W1 & W2 & Hl & Hq & Hc & Hv & He). split; [done|]. split; [done|].
    split; [|done]. intros H. apply Hl. intros [= ->]. by apply H.
Qed.

Lemma ppost_mono {A} (m : PM A) (Q Q' : A -> Repo * Repo -> Prop) p :
  wp m (ppost p Q) p -> (forall a p', query p.1 p'.1 -> Q a p' -> Q' a p') -> wp m (ppost p Q') p.
Proof using Type.
  intros Hm HQ. eapply wp_mono; [exact Hm|]. intros x p' (? & ? & ? & Hq & ? & ? & H).
  split; [done|]. split; [done|]. split; [done|]. split; [done|]. split; [done|]. split; [done|].
  destruct x; auto.
Qed.

(** A query of the source, and a step of the destination. *)
Lemma ppost_src {A} (m : SM Repo Exn A) (Q : A -> Repo -> Prop) p :
  both p -> wp m (rpost1 p.1 Q) p.1 -> wp m (fun _ r' => query p.1 r') p.1 ->
  wp (on_src m) (ppost p (fun a p' => Q a p'.1 /\ p'.2 = p.2)) p.
Proof using Type.
  intros (B1 & B2 & B3' & B4) HQ Hq. unfold wp, on_src in *. destruct (m p.1) as [x r']. simpl in *.
  destruct HQ as (Hw & Hm & Hc & Hx). split; [done|]. split; [done|].
  split; [intros Hl; split; [by apply Hm|by apply mem_wf_after]|]. split; [done|]. split; [done|].
  split; [done|]. by destruct x.
Qed.

Lemma ppost_dst {A} (m : SM Repo Exn A) (Q : A -> Repo -> Prop) p :
  both p -> wp m (rpost2 p.2 Q) p.2 ->
  wp m (fun _ r' => forall id sn, view p.2 id = Some sn -> view r' id = Some sn) p.2 ->
  wp (on_dst m) (ppost p (fun a p' => Q a p'.2 /\ p'.1 = p.1)) p.
Proof using Type.
  intros (B1 & B2 & B3' & B4) HQ Hv. unfold wp, on_dst in *. destruct (m p.2) as [x r']. simpl in *.
  destruct HQ as (Hw & Hm & Hc & Hx). split; [done|]. split; [done|].
  split; [intros Hl; split; [by apply mem_wf_after|by apply Hm]|]. split; [apply query_refl|].
  split; [done|]. split; [done|]. by destruct x.
Qed.

(** ** The operations it is made of *)

Lemma query_load `{EN : ChunkWorld} r : wp (load_all_snapshots (EN := EN)) (fun _ r' => query r r') r.
Proof using Type.
  unfold load_all_snapshots, repo_read. apply wp_bind, wp_bind, wp_repo_call; [|by intros].
  intros s1 Hs1. apply wp_gets. assert (query r (set_store s1 r)) as Hq by done.
  unfold rlift, lift_result. destruct (decode_rows _); unfold wp, on_store; simpl; by split.
Qed.

Lemma store_query `{EN : ChunkWorld} {A} (m : M A) r :
  wp m (fun _ s' => reads (store r) s') (store r) -> wp (on_store m) (fun _ r' => query r r') r.
Proof using Type. unfold wp, on_store. destruct (m (store r)) as [x s']. simpl. by split. Qed.

Lemma store_views {A} (m : M A) r :
  wp (on_store m) (fun _ r' => forall id sn, view r id = Some sn -> view r' id = Some sn) r.
Proof using Type. unfold wp, on_store. by destruct (m (store r)) as [x s']. Qed.

Lemma ppost_load1 p : both p -> wp (on_src (load_all_snapshots (EN := EN1)))
  (ppost p (fun l p' => l = snaps_of p.1 /\ p'.2 = p.2)) p.
Proof using Type.
  intros Hb. eapply ppost_mono.
  - apply (ppost_src _ (fun l _ => l = snaps_of p.1)); [done| |apply query_load].
    eapply rpost_mono; [apply rpost_load; apply Hb|]. by intros l r' _ [-> _].
  - done.
Qed.

Lemma ppost_load2 p : both p -> wp (on_dst (load_all_snapshots (EN := EN2)))
  (ppost p (fun l p' => l = snaps_of p.2 /\ query p.2 p'.2)) p.
Proof using Type.
  intros Hb. eapply ppost_mono.
  - apply (ppost_dst _ (fun l r' => query p.2 r' /\ l = snaps_of p.2)); [done| |].
    + eapply rpost_mono; [apply rpost_load; apply Hb|]. by intros l r' _ [-> ?].
    + eapply wp_mono; [apply query_load|]. intros x r' Hq id sn. by rewrite (query_view p.2 r' id Hq).
  - by intros l p' _ [[? ?] _].
Qed.

(** ** Sending the chunks of a snapshot *)

Definition codes_held (codec_of : gmap Blake3Hash ChunkCodec) r : Prop :=
  forall h, h ∈ dom codec_of -> exists b, holds (store r) h b.

Lemma codes_keeps codec_of r r' :
  keeps (store r) (store r') -> codes_held codec_of r -> codes_held codec_of r'.
Proof using Type. intros Hk H h Hh. destruct (H h Hh) as (b & Hb). exists b. by apply Hk. Qed.

Lemma codes_insert codec_of r h b c :
  codes_held codec_of r -> holds (store r) h b -> codes_held (<[h := c]> codec_of) r.
Proof using Type.
  intros H Hb h'. rewrite dom_insert, elem_of_union, elem_of_singleton. intros [->|?]; [by exists b|auto].
Qed.

(** Only the store of the destination changed. *)
Definition sent p p' : Prop := query p.1 p'.1 /\ stored p.2 p'.2.

Lemma ppost_locate2 h p : both p ->
  wp (on_dst (on_store (locate (EN := EN2) h))) (ppost p (fun o p' => query p.2 p'.2 /\ p'.1 = p.1 /\
    match o with Some _ => exists b, holds (store p'.2) h b | None => True end)) p.
Proof using Type.
  intros Hb. pose proof Hb as (_ & _ & B3' & B4). eapply ppost_mono.
  - apply (ppost_dst _ (fun o r' => query p.2 r' /\ match o with
      | Some _ => exists b, holds (store r') h b | None => True end)); [done| |apply store_views].
    eapply rpost_mono.
    { apply (rpost_on_store R2 _ (fun o s' => reads (store p.2) s' /\ match o with
        | Some _ => exists b, holds s' h b | None => True end)); [done|done|].
      apply post_reads; [apply B3'|done|unfold locate, db_read; calm_body|].
      eapply wp_mono; [apply wp_locate|]. intros x s' [Hs Hx]. split; [done|]. destruct x as [[loc|]|]; [|done..].
      split; [done|]. destruct Hx as (v & Hv & _). destruct (wf_rows _ _ (rw_disk _ _ B3') _ _ Hv) as (b & Hh).
      exists b. by apply (reads_holds (store p.2)). }
    intros o r' _ ([Hs Ho] & _ & E). done.
  - by intros o p' _ [[? ?] ?].
Qed.

Lemma ppost_get1 h p : both p ->
  wp (on_src (on_store (get (EN := EN1) h))) (ppost p (fun o p' => p'.2 = p.2 /\
    match o with Some b => names h b /\ len b <= U32_MAX | None => tbl_get h (chunks (store p.1)) = None end)) p.
Proof using Type.
  intros Hb. pose proof Hb as (B1 & B2 & _). eapply ppost_mono.
  - apply (ppost_src _ (fun o _ => match o with Some b => names h b /\ len b <= U32_MAX | None => tbl_get h (chunks (store p.1)) = None end));
      [done| |].
    + eapply rpost_mono.
      { apply (rpost_on_store R1 _ (fun o s' => match o with Some b => names h b /\ len b <= U32_MAX | None => tbl_get h (chunks (store p.1)) = None end));
          [done|done|].
        apply post_reads; [apply B1|done|apply calm_get|]. eapply wp_mono; [apply wp_get|].
        intros x s' (Hs & Hx & _). split; [done|]. destruct x as [[b|]|]; [|done..].
        apply (disk_held R1 _ _ _ (rw_disk _ _ B1)) in Hx. split; [|by eapply holds_len].
        by destruct Hx as (? & ? & ? & ? & ? & ? & ? & ?). }
      by intros o r' _ [? _].
    + apply store_query. eapply wp_mono; [apply wp_get|]. by intros x s' [? _].
  - by intros o p' _ [? ?].
Qed.

Lemma ppost_put2 h b comp p : both p -> names h b -> len b <= U32_MAX ->
  wp (on_dst (on_store (put_chunk (EN := EN2) h b comp))) (ppost p (fun _ p' => p'.1 = p.1 /\ stored p.2 p'.2 /\
    holds (store p'.2) h b)) p.
Proof using WL2 HR2 ZL.
  intros Hb Hn Hl. pose proof Hb as (_ & _ & B3' & B4). eapply ppost_mono.
  - apply (ppost_dst _ (fun _ r' => stored p.2 r' /\ holds (store r') h b)); [done| |apply store_views].
    eapply rpost_mono.
    { apply rpost_on_store; [done|done|]. by apply (post_put_chunk R2 HR2); [apply B3'|..]. }
    intros c r' _ ((Hh & _) & Hs & E). split; [by split|done].
  - by intros c p' _ [[? ?] ?].
Qed.

Lemma ppost_lift1 {A} (x : result ChunkStoreError A) p :
  both p -> wp (on_src (rlift x)) (ppost p (fun a p' => p' = p /\ x = Ok a)) p.
Proof using Type.
  intros Hb. pose proof Hb as (B1 & B2 & B3' & B4). unfold wp, on_src, rlift, on_store, lift_result.
  assert (p = (set_store (store p.1) p.1, p.2)) as E by by destruct p as [[] ?].
  destruct x as [a|e]; simpl; rewrite <- E;
    (split; [done|split; [done|split; [by intros _; split; apply mem_wf_after|split; [apply query_refl|done]]]]).
Qed.

Lemma sent_trans p1 p2 p3 : sent p1 p2 -> sent p2 p3 -> sent p1 p3.
Proof using Type. intros [Q1 S1] [Q2 S2]. split; [by eapply query_trans|by eapply stored_trans]. Qed.

Lemma sent_dst p p' : p'.1 = p.1 -> stored p.2 p'.2 -> sent p p'.
Proof using Type. intros E Hs. split; [rewrite E; apply query_refl|done]. Qed.

Lemma ppost_send_chunks cs codec_of rep p :
  both p -> codes_held codec_of p.2 ->
  wp (send_chunks EN1 EN2 cs codec_of rep) (ppost p (fun x p' => sent p p' /\ codes_held x.1 p'.2 /\
    dom codec_of ⊆ dom x.1 /\ forall c, c ∈ cs -> c_hash c ∈ dom x.1)) p.
Proof using WL1 WL2 HR1 HR2 ZL.
  revert codec_of rep p. induction cs as [|c cs IH]; intros codec_of rep p Hb Hcodes; cbn [send_chunks].
  { apply ppost_ret; [done|]. split; [split; [apply query_refl|apply stored_refl]|]. split; [done|].
    split; [done|]. by intros c ?%elem_of_nil. }
  assert (forall codec_of' rep' p', both p' -> sent p p' -> codes_held codec_of' p'.2 ->
    dom codec_of ⊆ dom codec_of' -> c_hash c ∈ dom codec_of' ->
    wp (send_chunks EN1 EN2 cs codec_of' rep') (ppost p' (fun x p2 => sent p p2 /\ codes_held x.1 p2.2 /\
      dom codec_of ⊆ dom x.1 /\ forall c', c' ∈ c :: cs -> c_hash c' ∈ dom x.1)) p') as Hrest.
  { intros codec_of' rep' p' Hb' Hs Hc Hsub Hin. eapply ppost_mono; [by apply IH|].
    intros x p2 _ (Hs2 & Hc2 & Hsub2 & Hall). split; [by eapply sent_trans|]. split; [done|].
    split; [by etrans|]. intros c' [->|?]%elem_of_cons; [by apply Hsub2|by apply Hall]. }
  destruct (codec_of !! c_hash c) as [codec|] eqn:Hcc.
  { apply Hrest; [done|split; [apply query_refl|apply stored_refl]|done|done|]. apply elem_of_dom. eauto. }
  eapply ppost_seq; [by apply ppost_locate2|]. intros o p1 Hb1 _ _ _ (Hq1 & E1 & Ho).
  assert (sent p p1) as Hs1 by (apply sent_dst; [done|by apply query_stored]).
  assert (codes_held codec_of p1.2) as Hc1 by (eapply codes_keeps; [apply reads_keeps, Hq1|done]).
  destruct o as [loc|].
  { destruct Ho as (b & Hh). apply Hrest; [done|done|by eapply codes_insert| |]; rewrite dom_insert; set_solver. }
  eapply ppost_seq; [by apply ppost_get1|]. intros ob p2 Hb2 Hq2 _ _ (E2 & Hob).
  eapply ppost_seq; [by apply ppost_lift1|]. intros b p2' Hb2' _ _ _ (-> & Eb).
  destruct ob as [b'|]; [|done]. injection Eb as ->. destruct Hob as [Hn Hl].
  apply wp_bind. unfold wp at 1. cbn [on_dst gets fst snd].
  assert ((p2.1, p2.2) = p2) as Ep by by destruct p2. rewrite Ep. cbn beta iota.
  eapply ppost_seq; [by apply ppost_put2|]. intros codec p3 Hb3 _ _ _ (E3 & Hst & Hh).
  assert (sent p p3) as Hs3.
  { eapply sent_trans; [exact Hs1|]. split; [by rewrite E3|by rewrite <- E2]. }
  apply Hrest; [done|done| | |].
  - eapply codes_insert; [|exact Hh]. eapply codes_keeps; [apply sf_keeps, Hst|]. by rewrite E2.
  - rewrite dom_insert. set_solver.
  - rewrite dom_insert. set_solver.
Qed.

(** ** Inserting a snapshot *)

Definition copied (t : Snapshot) (files : list FileEntry) (id : Z) : Snapshot :=
  {| sn_id := id; sn_kind := sn_kind t; sn_created := sn_created t; sn_label := sn_label t;
     sn_source_key := sn_source_key t; sn_description := sn_description t; sn_tags := sn_tags t;
     sn_pinned := sn_pinned t; sn_source := sn_source t; sn_files := files |}.

Lemma insert_full_alt `{EN : ChunkWorld} t files :
  insert_full_snapshot (TC := TC) (TM := TM) (TS := TS) (TN := TN) (TQ := TQ) t files = record_with (copied t files).
Proof using Type. done. Qed.

(** However far it gets, recording leaves the rows of before. *)
Lemma record_with_views `{EN : ChunkWorld} mk r :
  (forall id, sn_id (mk id) = id) ->
  (forall id sn, view r id = Some sn -> id < next_id r) ->
  wp (record_with mk) (fun _ r' => forall id sn, view r id = Some sn -> view r' id = Some sn) r.
Proof using Type.
  intros Hid Hlt. unfold record_with, allocate_snapshot_id, insert_rows, repo_write.
  apply wp_bind, wp_bind, wp_gets, wp_bind, wp_bind, wp_repo_call; [intros s1 Hs1|by intros].
  apply wp_modify, wp_ret, wp_bind, wp_bind, wp_repo_call; [intros s2 Hs2|by intros].
  apply wp_modify, wp_ret. intros id sn Hv. rewrite Hid, catalog_view_insert, decide_False; [exact Hv|].
  specialize (Hlt _ _ Hv). unfold next_id in Hlt. lia.
Qed.

(** Stamping the codecs of the destination does not change the content. *)
Lemma probe_copied t codec_of id : probe_of (copied t (restamp codec_of <$> sn_files t) id) = probe_of t.
Proof using Type.
  unfold probe_of, copied. simpl. f_equal. rewrite <- list_fmap_compose. apply list_fmap_ext. intros i f _.
  simpl. f_equal. f_equal. rewrite <- list_fmap_compose. by apply list_fmap_ext.
Qed.

Lemma restamp_hashes codec_of files :
  c_hash <$> (f ← restamp codec_of <$> files; m_chunks (fe_manifest f)) =
  c_hash <$> (f ← files; m_chunks (fe_manifest f)).
Proof using Type.
  induction files as [|f files IH]; [done|]. cbn [fmap list_fmap mbind list_bind].
  rewrite !fmap_app. f_equal; [|exact IH]. simpl. rewrite <- list_fmap_compose. by apply list_fmap_ext.
Qed.

Lemma refs_held_hashes (s : Store TC TM TS) (cs : list ChunkRef) :
  refs_held s cs <-> forall h, h ∈ (c_hash <$> cs) -> exists b, holds s h b.
Proof using Type.
  clear. unfold refs_held. rewrite Forall_forall. setoid_rewrite list_elem_of_fmap. naive_solver.
Qed.

Lemma ppost_insert t codec_of p :
  both p -> next_id p.2 < U64_MAX -> codes_held codec_of p.2 -> (forall c, c ∈ snap_refs t -> c_hash c ∈ dom codec_of) ->
  wp (on_dst (insert_full_snapshot (EN := EN2) t (restamp codec_of <$> sn_files t)))
    (ppost p (fun id p' => p'.1 = p.1 /\ keeps (store p.2) (store p'.2) /\ next_id p'.2 = next_id p.2 + 1 /\
       view p'.2 id = Some (copied t (restamp codec_of <$> sn_files t) id))) p.
Proof using Type.
  clear HR1 HR2. intros Hb Hn Hc Hall. pose proof Hb as (_ & _ & B3' & B4). rewrite insert_full_alt. eapply ppost_mono.
  - apply (ppost_dst _ (fun id r' => recorded p.2 (copied t (restamp codec_of <$> sn_files t)) id r')); [done| |].
    + apply rpost_record_with; [done..|]. intros id. apply refs_held_hashes. intros h.
      unfold snap_refs, copied. cbn [sn_files]. rewrite restamp_hashes.
      intros (c & -> & Hin)%list_elem_of_fmap. apply Hc. by apply Hall.
    + apply record_with_views; [done|]. intros id sn Hv. by apply (view_row _ _ _ _ B3' Hv).
  - intros id p' _ [[-> Hnx Hv Hst] E]. split; [done|]. split; [by apply reads_keeps|]. split; [done|].
    by rewrite Hv, decide_True.
Qed.

(** ** The whole *)

(** Contents that the fingerprint tells apart. *)
Context (K : Snapshot -> Prop).

Definition known (sn : Snapshot) : Prop := K (probe_of sn).

Definition has_content r (x : Blake3Hash) : Prop :=
  exists id sn, view r id = Some sn /\ known sn /\ content_fingerprint sn = x.

Lemma has_content_mono r r' x :
  (forall id sn, view r id = Some sn -> view r' id = Some sn) -> has_content r x -> has_content r' x.
Proof using Type. intros H (id & sn & Hv & E). exists id, sn. auto. Qed.

Lemma ppost_send_snapshots snaps present_ codec_of rep p :
  both p -> next_id p.2 + Z.of_nat (length snaps) <= U64_MAX -> codes_held codec_of p.2 ->
  (forall x, x ∈ present_ -> has_content p.2 x) -> (forall sn, sn ∈ snaps -> known sn) ->
  wp (send_snapshots EN1 EN2 snaps present_ codec_of rep)
    (ppost p (fun _ p' => forall sn, sn ∈ snaps -> has_content p'.2 (content_fingerprint sn))) p.
Proof using WL1 WL2 HR1 HR2 ZL.
  revert present_ codec_of rep p. induction snaps as [|t snaps IH]; intros present_ codec_of rep p Hb Hn Hcodes Hpres Hkn;
    cbn [send_snapshots].
  { apply ppost_ret; [done|]. by intros sn ?%elem_of_nil. }
  cbn [length] in Hn. pose proof (Hkn t ltac:(left)) as Hkt.
  assert (forall sn, sn ∈ snaps -> known sn) as Hks by (intros sn ?; apply Hkn; by right).
  case_bool_decide as Hin.
  { eapply wp_mono; [apply IH; [done|lia|done|done|done]|].
    intros x p' (W1 & W2 & Hl & Hq & Hc & Hv & Hx). do 6 (split; [done|]). destruct x; [|done].
    intros sn [->|?]%elem_of_cons; [|by apply Hx]. by eapply has_content_mono, Hpres. }
  eapply ppost_seq; [by apply ppost_send_chunks|]. intros [codec_of1 rep1] p1 Hb1 _ _ _ (Hs1 & Hc1 & _ & Hall). cbn [fst] in *.
  pose proof (stored_next _ _ (proj2 Hs1)) as En1.
  assert (forall id, view p1.2 id = view p.2 id) as Hv1 by (intros; by apply stored_view, Hs1).
  eapply ppost_seq; [apply ppost_insert; [done|rewrite En1; lia|done|done]|].
  intros id p2 Hb2 _ _ Hv2 (E2 & Hk2 & En2 & Hid).
  set (x := content_fingerprint t).
  assert (has_content p2.2 x) as Hx.
  { exists id. eexists. split; [exact Hid|]. unfold known, x, content_fingerprint. by rewrite probe_copied. }
  eapply wp_mono.
  { apply IH; [done|rewrite En2, En1; lia|by eapply codes_keeps| |done].
    intros y [->%elem_of_singleton|Hy]%elem_of_union; [done|]. eapply has_content_mono; [exact Hv2|].
    destruct (Hpres y Hy) as (i & sn & Hi & E). exists i, sn. by rewrite Hv1. }
  intros res p3 (W1 & W2 & Hl & Hq & Hc & Hv & Hr). do 6 (split; [done|]). destruct res; [|done].
  intros sn [->|?]%elem_of_cons; [|by apply Hr]. by eapply has_content_mono.
Qed.

(** Snapshots with the same content record the same files. *)
Lemma layout_probe off cs cs' data :
  (fun c => (c_hash c, c_offset c, c_len c)) <$> cs = (fun c => (c_hash c, c_offset c, c_len c)) <$> cs' ->
  layout off cs data -> layout off cs' data.
Proof using Type.
  clear. revert off cs' data. induction cs as [|c cs IH]; intros off [|c' cs'] data E; simpl in *; try done.
  injection E as Eh Eo El E. intros (piece & rest & -> & ? & ? & ? & H). exists piece, rest.
  split; [done|]. rewrite <- Eh, <- Eo, <- El. split; [done|]. split; [done|]. split; [done|]. by apply IH.
Qed.

Lemma describes_probe a b files : probe_of a = probe_of b -> describes a files -> describes b files.
Proof using Type.
  unfold describes. intros E. apply (f_equal sn_files) in E. unfold probe_of in E. cbn [sn_files] in E. revert E.
  generalize (sn_files a), (sn_files b). clear a b. intros la lb E H. revert lb E.
  induction H as [|[q data] f files la [Hp [Hl Hs Hh Hpl]] _ IH]; intros [|g lb] E; try done.
  cbn [fmap list_fmap] in E. injection E as Ep Eh Es Ec E. constructor; [|by apply IH].
  split; [simpl in *; congruence|]. split; [|congruence|congruence|done].
  eapply layout_probe; [|exact Hl]. clear -Ec. revert Ec. generalize (m_chunks (fe_manifest f)), (m_chunks (fe_manifest g)).
  intros cs. induction cs as [|c cs IH]; intros [|c' cs'] E; try done. cbn [fmap list_fmap] in *.
  injection E as E1 E2 E3 E. rewrite E1, E2, E3. f_equal. by apply IH.
Qed.

Lemma ppost_replicate p :
  both p -> next_id p.2 + Z.of_nat (length (snaps_of p.1)) <= U64_MAX ->
  (forall id sn, view p.1 id = Some sn \/ view p.2 id = Some sn -> known sn) ->
  (forall a b, K a -> K b -> blake3 (enc a) = blake3 (enc b) -> a = b) ->
  wp (replicate_to EN1 EN2) (ppost p (fun _ p' => forall id sn, view p.1 id = Some sn ->
    exists id' sn', view p'.2 id' = Some sn' /\ probe_of sn' = probe_of sn)) p.
Proof using WL1 WL2 HR1 HR2 ZL.
  intros Hb Hn Hkn HK. unfold replicate_to. eapply ppost_seq; [by apply ppost_load2|].
  intros theirs p1 Hb1 Hq1 _ _ (-> & Hq2). eapply ppost_seq; [by apply ppost_load1|].
  intros ours p2 Hb2 _ _ _ (-> & E2). eapply ppost_mono.
  - apply ppost_send_snapshots; [done| |by intros h; rewrite dom_empty_L; intros ?%elem_of_empty| |].
    + rewrite E2. rewrite (query_snaps _ _ Hq1). destruct Hq2 as [_ ->]. done.
    + intros x (sn & -> & (id & Hid)%elem_of_snaps)%elem_of_list_to_set%list_elem_of_fmap.
      exists id, sn. rewrite E2, (query_view _ _ id Hq2). split; [done|]. split; [|done].
      apply (Hkn id). by right.
    + intros sn. rewrite (query_snaps _ _ Hq1). intros (id & Hid)%elem_of_snaps. apply (Hkn id). by left.
  - intros a p' _ H id sn Hid. destruct (H sn) as (id' & sn' & Hv & Hk' & E).
    { rewrite (query_snaps _ _ Hq1). apply elem_of_snaps. eauto. }
    exists id', sn'. split; [done|]. apply HK in E; [done..|apply (Hkn id); by left].
Qed.

End replicate.

(** Whatever contents the snapshots have, a replication leaves both sides well
    formed. *)
Section replicate_sound.
Context {TC TM TS TN TQ : Type} {kle : bytes -> bytes -> Prop}.
Context {TBC : Table bytes bytes TC kle} {TBM : Table string bytes TM String.le}.
Context {TBS : Table string bytes TS String.le}.
Context {TBN : Table Z bytes TN Z.le} {TBQ : Table string Z TQ String.le}.
Context {CM : Codec Manifest bytes} {CS : Codec Snapshot bytes} {CU : Codec UnifiedSnapshot bytes}.
Context {B3 : Blake3} {ZS : Zstd} {FC : FastCdc} {ZL : ZstdLaws} {FL : FastCdcLaws} {DL : DigestLaws}.
Context (EN1 EN2 : ChunkWorld) {WL1 : @WorldLaws EN1} {WL2 : @WorldLaws EN2}.
Context (R1 R2 : Z) (HR1 : 0 <= R1 <= 2 ^ 62) (HR2 : 0 <= R2 <= 2 ^ 62).

Lemma ppost_replicate_sound (p : Repo TC TM TS TN TQ * Repo TC TM TS TN TQ) :
  both EN1 EN2 R1 R2 p -> next_id p.2 + Z.of_nat (length (snaps_of p.1)) <= U64_MAX ->
  wp (replicate_to EN1 EN2) (ppost EN1 EN2 R1 R2 p (fun _ _ => True)) p.
Proof using WL1 WL2 HR1 HR2 ZL.
  intros Hb Hn. unfold replicate_to. eapply ppost_seq; [by apply ppost_load2|].
  intros theirs p1 Hb1 Hq1 _ _ (-> & Hq2). eapply ppost_seq; [by apply ppost_load1|].
  intros ours p2 Hb2 _ _ _ (-> & E2). eapply ppost_mono; [|done].
  apply (ppost_send_snapshots EN1 EN2 R1 R2 HR1 HR2 (fun _ => True)); [done| |by intros h; rewrite dom_empty_L; intros ?%elem_of_empty| |done].
  - rewrite E2. rewrite (query_snaps _ _ Hq1). destruct Hq2 as [_ ->]. done.
  - intros x (sn & -> & (id & Hid)%elem_of_snaps)%elem_of_list_to_set%list_elem_of_fmap.
    exists id, sn. by rewrite E2, (query_view _ _ id Hq2).
Qed.
End replicate_sound.
