(* ===== verification/RepoSystem.v ===== *)
(** * The snapshot repository: runs of the whole system

    The repository as a state machine: operations and replications in any
    order, each of which may fail or be the one at which the process dies,
    kills between them, restarts, and users who change their files.  Every
    state reached is well formed, and a snapshot that is still in the catalog
    has the files it was recorded with.

    An append may stop half-way and leave the process alive.  The process
    then remembers less of its pack than is there ([in_step] fails), and the
    next chunk it stored would be recorded where it is not; so a run starts
    no operation in such a process before it has been restarted. *)
From S2P Require Import Prelude.
From S2P Require Import Text.
From S2P Require Import Files.
From S2P Require Import Monad.
From S2P Require Import Table.
From S2P Require Import Versioning.
From S2P Require Import ChunkTypes.
From S2P Require Import ChunkStore.
From S2P Require Import ChunkWp.
From S2P Require Import ChunkFile.
From S2P Require Import ChunkFileSafety.
From S2P Require Import Repository.
From S2P Require Import RepoWp.
From S2P Require Import RepoOps.
From S2P Require Import RepoRestore.
From S2P Require Import RepoVerify.
From S2P Require Import RepoRecord.
From stdpp Require Import options.
Open Scope Z_scope.
Open Scope monad_scope.

Section system.
Context {TC TM TS TN TQ : Type} {kle : bytes -> bytes -> Prop}.
Context {TBC : Table bytes bytes TC kle} {TBM : Table string bytes TM String.le}.
Context {TBS : Table string bytes TS String.le}.
Context {TBN : Table Z bytes TN Z.le} {TBQ : Table string Z TQ String.le}.
Context {CM : Codec Manifest bytes} {CS : Codec Snapshot bytes} {CU : Codec UnifiedSnapshot bytes}.
Context {B3 : Blake3} {ZS : Zstd} {EN : ChunkWorld} {FC : FastCdc}.
Context {ZL : ZstdLaws} {WL : WorldLaws} {FL : FastCdcLaws} {DL : DigestLaws}.
Context (R : Z) (HR : 0 <= R <= 2 ^ 62).
Local Abbreviation Store := (Store TC TM TS).
Local Abbreviation Repo := (Repo TC TM TS TN TQ).
Local Abbreviation M := (@M TC TM TS).
Local Abbreviation RM := (@RM TC TM TS TN TQ).
Implicit Types s : Store.
Implicit Types r : Repo.


(** ** Operations *)

Inductive Op :=
| OBytes (kind : SnapshotKind) (label : string) (key : option string) (created : Z) (files : list (string * bytes))
| OFiles (kind : SnapshotKind) (label : string) (key : option string) (created : Z) (files : list (string * path))
| OSource (passes_dir passes_file : string -> bool) (kind : SnapshotKind) (label : string) (key : option string)
    (created : Z) (root : Node)
| ORecord (kind : SnapshotKind) (label : string) (created : Z) (files : list FileEntry)
| OIngest (b : bytes) (key : string)
| ORemove (ids : list Z)
| OLabel (id : Z) (label : string)
| ODescription (id : Z) (description : string)
| OTags (id : Z) (tags : list string)
| OPinned (id : Z) (pinned : bool)
| OGc
| OCompact (opts : CompactOptions)
| OPrune (policy : PrunePolicy) (now : Z)
| OPruneSource (src : string) (policy : RetentionPolicy) (now : Z)
| ORestore (id : Z) (paths : list string) (root : path) (strip : option string) (conflict : RestoreConflict)
| OVerify (only : option Z) (level : VerifyLevel)
| ORepair (rep : VerifyReport) (apply : bool).

Definition run (o : Op) : RM unit :=
  match o with
  | OBytes kind label None created files => snapshot_bytes kind label created files ;; ret tt
  | OBytes kind label (Some key) created files => snapshot_bytes_with_source kind label key created files ;; ret tt
  | OFiles kind label None created files => snapshot_files kind label created files ;; ret tt
  | OFiles kind label (Some key) created files => snapshot_files_with_source kind label key created files ;; ret tt
  | OSource pd pf kind label key created root => snapshot_source pd pf kind label key created root ;; ret tt
  | ORecord kind label created files => record kind label created files ;; ret tt
  | OIngest b key => on_store (ingest_bytes default_chunker b key) ;; ret tt
  | ORemove ids => remove_snapshots ids ;; ret tt
  | OLabel id label => set_label id label ;; ret tt
  | ODescription id d => set_description id d ;; ret tt
  | OTags id tags => set_tags id tags ;; ret tt
  | OPinned id pinned => set_pinned id pinned ;; ret tt
  | OGc => gc ;; ret tt
  | OCompact opts => compact opts ;; ret tt
  | OPrune policy now => prune policy now ;; ret tt
  | OPruneSource src policy now => prune_source src policy now ;; ret tt
  | ORestore id paths root strip conflict => restore_paths id paths root strip conflict ;; ret tt
  | OVerify only level => verify only level ;; ret tt
  | ORepair rep apply_ => repair_remove_damaged rep apply_ ;; ret tt
  end.

(** What the caller owes: contents that can be stored, an id left to draw, and
    for [record] entries whose chunks are in the store. *)
Definition legal (o : Op) r : Prop :=
  match o with
  | OBytes _ _ _ _ files => next_id r < U64_MAX /\ Forall (fun pb => storable pb.2) files
  | OFiles _ _ _ _ files => next_id r < U64_MAX /\
      Forall (fun ps => forall b, fs (store r) !! ps.2 = Some b -> storable b) files
  | OSource pd pf _ _ _ _ root => next_id r < U64_MAX /\ Forall (fun pb => storable pb.2) (expected pd pf [] root)
  | ORecord _ _ _ files => next_id r < U64_MAX /\ entries_held (store r) files
  | OIngest b _ => storable b
  | OPruneSource _ _ _ => next_id r <= U64_MAX
  | _ => True
  end.

(** ** One operation *)

Lemma rpost_unit {A} (m : RM A) (Q : A -> Repo -> Prop) r :
  wp m (rpost R r Q) r -> wp (m ;; ret tt) (rpost R r (fun _ _ => True)) r.
Proof using Type. intros H. eapply rpost_seq; [exact H|]. intros a r1 Hw Hm _ _. by apply rpost_ret. Qed.

Lemma rpost_put_manifest key m r :
  repo_wf R r -> mem_wf R (store r) ->
  wp (on_store (put_manifest key m)) (rpost R r (fun _ _ => True)) r.
Proof using Type.
  intros Hw Hm. unfold put_manifest, db_write. pose proof (wp_call CRedb (fun x s' => reads (store r) s' /\
    match x with Ok _ => True | Err e => calm e end) (store r) ltac:(by right) ltac:(by intros)) as H.
  specialize (H ltac:(intros x s' ? ?; split; [done|by apply env_calm])).
  unfold wp, on_store, bind, modify in *. destruct (call CRedb (store r)) as [[[]|e] s1]; simpl in *; destruct H as [Hs Hx].
  2:{ split; [by apply repo_wf_reads|]. split; [intros _; by eapply mem_wf_up, reads_mem|]. split; [apply set_store_step|done]. }
  pose proof (repo_wf_reads R r s1 Hw Hs) as [W1 W2 W3 W4 W5].
  pose proof (reads_mem _ _ _ Hs Hm) as [M1 M2 M3].
  split; [|split; [done|split; [apply set_store_step|done]]].
  split; [by destruct W1| |done| |done].
  - intros id v Hv. destruct (W2 id v Hv) as (sn & ? & [? ? Hh]). exists sn. by split.
  - intros k v. simpl. rewrite tbl_get_insert. case_decide; [|apply W4]. intros [= <-]. rewrite dec_enc. eauto.
Qed.

Lemma rpost_edit id f r :
  repo_wf R r -> mem_wf R (store r) -> keeps_files f -> wp (edit_snapshot id f ;; ret tt) (rpost R r (fun _ _ => True)) r.
Proof using Type. intros Hw Hm Hf. eapply rpost_unit. by apply rpost_edit_snapshot. Qed.

Lemma rpost_ingest_bytes b key r :
  repo_wf R r -> mem_wf R (store r) -> storable b ->
  wp (on_store (ingest_bytes default_chunker b key)) (rpost R r (fun _ _ => True)) r.
Proof using Type*.
  intros Hw Hm [Hl Hp].
  assert (on_store (ingest_bytes default_chunker b key) r =
    (let! a := on_store (chunk_into_store default_chunker b Off) in
     on_store (put_manifest key a.2) ;; ret a) r) as E.
  { unfold ingest_bytes, on_store, bind, ret. destruct (chunk_into_store default_chunker b Off (store r)) as [[[st m]|e] s1];
      [|done]. simpl. by destruct (put_manifest key m s1) as [[[]|e] s2]. }
  unfold wp. rewrite E. eapply rpost_seq.
  { apply rpost_on_store; [done|done|].
    apply (post_chunk_into_store R HR default_chunker b Off); [apply Hw|done|done|done|done]. }
  intros a r1 Hw1 Hm1 _ _. eapply rpost_seq; [by apply rpost_put_manifest|].
  intros [] r2 Hw2 Hm2 _ _. by apply rpost_ret.
Qed.

Lemma run_sound o r : repo_wf R r -> mem_wf R (store r) -> legal o r -> wp (run o) (rpost R r (fun _ _ => True)) r.
Proof using Type*.
  intros Hw Hm Hl. destruct o as [k l key c files|k l key c files|pd pf k l key c root|k l c files|b key|ids|id l|id d
    |id tags|id pin| |opts|pol now|src pol now|id paths root strip conflict|only level|rep app]; cbn [run legal] in *.
  - destruct Hl, key; eapply rpost_unit; by apply rpost_snapshot_bytes.
  - destruct Hl, key; eapply rpost_unit; by apply rpost_snapshot_files.
  - destruct Hl. eapply rpost_unit. by apply rpost_snapshot_source.
  - destruct Hl. eapply rpost_unit. by apply rpost_record_inner.
  - eapply rpost_unit. by apply rpost_ingest_bytes.
  - eapply rpost_unit. by apply rpost_remove_snapshots.
  - by apply rpost_edit.
  - by apply rpost_edit.
  - by apply rpost_edit.
  - by apply rpost_edit.
  - eapply rpost_unit. by apply rpost_gc.
  - eapply rpost_unit. by apply rpost_compact.
  - eapply rpost_unit. by apply rpost_prune.
  - eapply rpost_unit. by apply rpost_prune_source.
  - eapply rpost_unit. by apply rpost_restore_any.
  - eapply rpost_unit. by apply rpost_verify.
  - eapply rpost_unit. by apply rpost_repair.
Qed.

(** ** Runs *)

(** The process is up, or only what is on disk counts. *)
Inductive World := Up (r : Repo) | Down (r : Repo).

Definition repo_of (w : World) : Repo := match w with Up r | Down r => r end.

Definition sys_wf (w : World) : Prop :=
  repo_wf R (repo_of w) /\ match w with Up r => mem_up R (store r) | Down _ => True end.

(** The process after a call. *)
Definition after {A} (x : result Exn A) r : World := match x with Err XDied => Down r | _ => Up r end.

(** An operation may fail, or kill the process; the process may be killed
    between operations; it may be started again, also in vain; it may
    exchange snapshots with another repository, which lives in a world of its
    own; and the files of the user may change at any time.  A process starts
    operations only while it is in step with its pack. *)
Inductive step : World -> World -> Prop :=
| step_run o r x r' : in_step (store r) -> legal o r -> run o r = (x, r') -> step (Up r) (after x r')
| step_kill r : step (Up r) (Down r)
| step_open comp r x r' : open_repo R comp r = (x, r') ->
    step (Down r) (match x with Ok _ => Up r' | Err _ => Down r' end)
| step_receive EN1 R1 r1 x r1' r r' : @WorldLaws EN1 -> 0 <= R1 <= 2 ^ 62 ->
    repo_wf (EN := EN1) R1 r1 -> mem_wf (EN := EN1) R1 (store r1) -> in_step (store r) ->
    next_id r + Z.of_nat (length (snaps_of r1)) <= U64_MAX ->
    replicate_to EN1 EN (r1, r) = (x, (r1', r')) -> step (Up r) (after x r')
| step_send EN2 R2 r2 x r2' r r' : @WorldLaws EN2 -> 0 <= R2 <= 2 ^ 62 ->
    repo_wf (EN := EN2) R2 r2 -> mem_wf (EN := EN2) R2 (store r2) -> in_step (store r) ->
    next_id r2 + Z.of_nat (length (snaps_of r)) <= U64_MAX ->
    replicate_to EN EN2 (r, r2) = (x, (r', r2')) -> step (Up r) (after x r')
| step_user w f r : repo_of w = r ->
    step w (match w with
            | Up _ => Up (set_store (with_fs f (store r)) r)
            | Down _ => Down (set_store (with_fs f (store r)) r)
            end).

Lemma repo_of_after {A} (x : result Exn A) r : repo_of (after x r) = r.
Proof using Type. by destruct x as [|[]]. Qed.

Lemma sys_wf_after {A} (x : result Exn A) r :
  repo_wf R r -> (lives x -> mem_after R x (store r)) -> sys_wf (after x r).
Proof using Type.
  intros Hw Hm. unfold sys_wf. rewrite repo_of_after. split; [done|].
  destruct x as [?|[]]; simpl in *; try done; try (by apply Hm). by apply mem_wf_up, Hm.
Qed.

Lemma query_step r r' : query r r' -> catalog_step r r'.
Proof using Type. intros [Hs ->]. apply set_store_step. Qed.

Lemma step_sound w w' : sys_wf w -> step w w' -> sys_wf w' /\ catalog_step (repo_of w) (repo_of w').
Proof using Type*.
  intros [Hw Hm] Hs.
  destruct Hs as [o r x r' Hin Hl E|r|comp r x r' E|EN1 R1 r1 x r1' r r' WL1 HR1 Hw1 Hm1 Hin Hn E
    |EN2 R2 r2 x r2' r r' WL2 HR2 Hw2 Hm2 Hin Hn E|w f r Hr]; rewrite ?repo_of_after; cbn [repo_of] in *.
  - pose proof (run_sound o r Hw (mem_up_wf _ _ Hm Hin) Hl) as H. unfold wp in H. rewrite E in H. simpl in H.
    destruct H as (Hw' & Hm' & Hc & _). split; [by apply sys_wf_after|done].
  - split; [by split|done].
  - pose proof (open_repo_wf R HR comp r Hw) as H. unfold wp in H. rewrite E in H. simpl in H.
    destruct H as (Hw' & Hc & _ & _ & Hx). destruct x as [?|e]; (split; [|done]); [|by split].
    split; [done|]. by apply mem_wf_up.
  - pose proof (ppost_replicate_sound EN1 EN R1 R HR1 HR (r1, r)) as H. unfold wp in H. rewrite E in H.
    destruct H as (_ & Hw' & Hl & _ & Hc & _); [by split_and!; [| | |apply mem_up_wf]|done|].
    split; [apply sys_wf_after; [done|]|done]. intros Hx. by apply Hl.
  - pose proof (ppost_replicate_sound EN EN2 R R2 HR HR2 (r, r2)) as H. unfold wp in H. rewrite E in H.
    destruct H as (Hw' & _ & Hl & Hq & _); [by split_and!; [|apply mem_up_wf| |]|done|].
    split; [apply sys_wf_after; [done|]|by apply query_step]. intros Hx. by apply Hl.
  - subst r. assert (same_store (store (repo_of w)) (with_fs f (store (repo_of w)))) as Hsame by by split.
    pose proof (repo_wf_same R _ _ Hw Hsame) as Hw'.
    destruct w as [r|r]; cbn [repo_of] in *; (split; [split; [done|]|apply set_store_step]); [|done].
    by destruct Hm.
Qed.

Lemma run_wf w w' : sys_wf w -> rtc step w w' -> sys_wf w' /\ catalog_step (repo_of w) (repo_of w').
Proof using Type*.
  intros Hw Hr. induction Hr as [w|w1 w2 w3 Hs _ IH]; [done|].
  destruct (step_sound _ _ Hw Hs) as [Hw2 Hc]. destruct (IH Hw2) as [Hw3 Hc3].
  split; [done|]. by etrans.
Qed.
End system.
