(* ===== verification/RepoProps.v ===== *)
(** * The snapshot repository: what it promises

    The theorems of the chunk store and the repository, over every state a run
    of the system can reach from an empty disk: operations, replications,
    failures, appends that stop half-way, deaths, restarts and changes of the
    user's files in any order; see [step] for what a run may not do. *)
From S2P Require Import Prelude.
From S2P Require Import Text.
From S2P Require Import Files.
From S2P Require Import Monad.
From S2P Require Import Table.
From S2P Require Import Versioning.
From S2P Require Import ChunkTypes.
From S2P Require Import ChunkStore.
From S2P Require Import ChunkWp.
From S2P Require Import ChunkFile.
From S2P Require Import ChunkFileSafety.
From S2P Require Import Repository.
From S2P Require Import RepoWp.
From S2P Require Import RepoOps.
From S2P Require Import RepoRestore.
From S2P Require Import RepoVerify.
From S2P Require Import RepoRecord.
From S2P Require Import RepoSystem.
From stdpp Require Import options.
Open Scope Z_scope.
Open Scope monad_scope.

Section props.
Context {TC TM TS TN TQ : Type} {kle : bytes -> bytes -> Prop}.
Context {TBC : Table bytes bytes TC kle} {TBM : Table string bytes TM String.le}.
Context {TBS : Table string bytes TS String.le}.
Context {TBN : Table Z bytes TN Z.le} {TBQ : Table string Z TQ String.le}.
Context {CM : Codec Manifest bytes} {CS : Codec Snapshot bytes} {CU : Codec UnifiedSnapshot bytes}.
Context {B3 : Blake3} {ZS : Zstd} {EN : ChunkWorld} {FC : FastCdc}.
Context {ZL : ZstdLaws} {WL : WorldLaws} {FL : FastCdcLaws} {DL : DigestLaws}.
Context (R : Z) (HR : 0 <= R <= 2 ^ 62).
Local Abbreviation Store := (Store TC TM TS).
Local Abbreviation Repo := (Repo TC TM TS TN TQ).
Local Abbreviation M := (@M TC TM TS).
Local Abbreviation RM := (@RM TC TM TS TN TQ).
Implicit Types s : Store.
Implicit Types r : Repo.


(** ** Reachable repositories *)

(** Nothing on disk yet. *)
Record blank r : Prop := {
  bl_packs : packs (store r) = ∅;
  bl_chunks : forall h, tbl_get h (chunks (store r)) = None;
  bl_manifests : forall k, tbl_get k (manifests (store r)) = None;
  bl_stats : forall k, tbl_get k (stats (store r)) = None;
  bl_snapshots : forall id, tbl_get id (t_snapshots r) = None;
  bl_summaries : forall id, tbl_get id (t_summaries r) = None;
  bl_seq : forall k, tbl_get k (t_seq r) = None;
}.

Definition reachable (w : World) : Prop := exists r0, blank r0 /\ rtc (step R) (Down r0) w.

Lemma blank_repo_wf r : blank r -> repo_wf R r.
Proof using Type.
  intros [B1 B2 B3' B4 B5 B6 B7]. split.
  - split.
    + intros h v. by rewrite B2.
    + intros id. rewrite B1, dom_empty_L. by intros ?%elem_of_empty.
    + intros id. by rewrite B4.
    + intros id f. by rewrite B1, lookup_empty.
  - intros id v. by rewrite B5.
  - intros id. unfold view. by rewrite B5, B6.
  - intros k v. by rewrite B3'.
  - unfold next_id. by rewrite B7.
Qed.

Lemma reachable_wf w : reachable w -> sys_wf R w.
Proof using Type*.
  intros (r0 & Hb & Hr). eapply (run_wf R HR); [|exact Hr]. split; [by apply blank_repo_wf|done].
Qed.

Lemma reachable_up r : reachable (Up r) -> repo_wf R r /\ mem_up R (store r).
Proof using Type*. intros H. by apply reachable_wf in H. Qed.

(** A process is in step with its pack when it has just been started, and as
    long as its operations succeed. *)
Lemma started_in_step comp r x r' : reachable (Down r) -> open_repo R comp r = (Ok x, r') -> in_step (store r').
Proof using Type*.
  intros [Hw _]%reachable_wf E. pose proof (open_repo_wf R HR comp r Hw) as H. unfold wp in H. rewrite E in H.
  by destruct H as (_ & _ & _ & _ & []).
Qed.

Lemma succeeded_in_step o r r' x :
  reachable (Up r) -> in_step (store r) -> legal o r -> run o r = (Ok x, r') -> in_step (store r').
Proof using Type*.
  intros [Hw Hm]%reachable_up Hin Hl E. pose proof (run_sound R HR o r Hw (mem_up_wf _ _ Hm Hin) Hl) as H.
  unfold wp in H. rewrite E in H. destruct H as (_ & Hm' & _). by destruct (Hm' ltac:(done)).
Qed.

Lemma reachable_in_step r : reachable (Up r) -> in_step (store r) -> repo_wf R r /\ mem_wf R (store r).
Proof using Type*. intros [Hw Hm]%reachable_up Hin. split; [done|by apply mem_up_wf]. Qed.

(** An operation from a reachable state. *)
Lemma reached {A} (m : RM A) (Q : A -> Repo -> Prop) r x r' :
  wp m (rpost R r Q) r -> m r = (x, r') ->
  repo_wf R r' /\ (lives x -> mem_after R x (store r')) /\ catalog_step r r' /\
  match x with Ok a => Q a r' | Err e => calm e end.
Proof using Type. intros H E. unfold wp in H. by rewrite E in H. Qed.

(** ** Snapshots survive *)

(** C3: a snapshot taken with [snapshot_bytes] in a process that is in step
    with its pack, of files of at most [u64::MAX] bytes each, is kept by every
    run of the system that follows: operations that fail at any call or kill
    the process, appends that stop half-way, kills, restarts, collections,
    compactions, replications in both directions and changes of the user's
    files.  If it is still in the catalog at the end, it restores every one of
    its files byte for byte and touches no other file; a restore fails only
    when one of its own calls did not work or a directory is in the way.  What
    a run does not do ([step], [legal]): start an operation in a process in
    which an append has stopped half-way before it has been restarted (the
    code does, and the next chunk is then recorded at the wrong offset), call
    [record] with chunks that are not in the store, store contents of more
    than [u64::MAX] bytes, or use up the ids.  The digest tells the stored
    contents and their parts apart. *)
Theorem recorded_snapshot_restores kind label created files r id r1 r2 sn :
  reachable (Up r) -> in_step (store r) -> next_id r < U64_MAX -> Forall (fun pb => storable pb.2) files ->
  snapshot_bytes kind label created files r = (Ok id, r1) ->
  rtc (step R) (Up r1) (Up r2) -> view r2 id = Some sn ->
  Forall2 (fun pb e => fe_path e = pb.1 /\ forall dst x r3,
    restore (picked sn e) dst r2 = (x, r3) ->
    (forall q, q <> dst -> fs (store r3) !! q = fs (store r2) !! q) /\
    match x with
    | Ok _ => fs (store r3) !! dst = Some pb.2
    | Err _ => blocked (fs (store r2)) dst = true \/ trouble (store r2) (store r3)
    end) files (sn_files sn).
Proof using Type*.
  intros Hr Hin Hn Hsz E Hrun Hv. destruct (reachable_in_step _ Hr Hin) as [Hw Hm].
  destruct (reached _ _ _ _ _ (rpost_snapshot_bytes R HR kind label None created files r Hw Hm Hn Hsz) E)
    as (Hw1 & Hm1 & _ & Had). specialize (Hm1 ltac:(done)).
  destruct (run_wf R HR (Up r1) (Up r2) (conj Hw1 (mem_wf_up _ _ Hm1)) Hrun) as [[Hw2 Hm2] Hc]. cbn [repo_of] in *.
  destruct Had as [Hid Hnx _ _ (sn1 & Hv1 & Hd & _)].
  destruct (cs_files _ _ Hc id sn Hv ltac:(lia)) as (sn1' & Hv1' & Ef).
  assert (sn1' = sn1) as -> by congruence. unfold describes in Hd. rewrite <- Ef in Hd.
  pose proof (disk_sound R _ (rw_disk _ _ Hw2)) as Hso. pose proof (disk_decodable R _ (rw_disk _ _ Hw2)) as Hdec.
  pose proof (ro_held _ _ _ (view_row _ _ _ _ Hw2 Hv)) as Hheld.
  assert (forall e, e ∈ sn_files sn -> refs_readable (store r2) (m_chunks (fe_manifest e))) as Hrd.
  { intros e He. apply refs_held_readable. unfold refs_held in *. rewrite Forall_forall in *.
    intros c Hc'. apply Hheld. apply list_elem_of_bind. by exists e. }
  revert Hrd. clear - Hd Hso Hdec. induction Hd as [|pb e files es [Hp Hmo] _ IH]; intros Hrd; constructor.
  2:{ apply IH. intros e' ?. apply Hrd. by right. }
  split; [done|]. intros dst x r3 E. unfold restore, on_store, picked in E. cbn [fs_manifest] in E.
  pose proof (wp_materialise_file (fe_manifest e) pb.2 dst (store r2) Hmo Hso) as Hmat.
  pose proof (materialise_blames (fe_manifest e) dst (store r2) Hdec) as Hbl. unfold wp in Hmat.
  destruct (materialise_file (fe_manifest e) dst (store r2)) as [y s3]. simpl in *. injection E as -> <-.
  destruct Hmat as (_ & Ho & Hx). split; [done|]. destruct x as [[]|x]; [done|].
  apply Hbl, Hx, Hrd. left.
Qed.

(** C13: in every state a run can reach from an empty disk every snapshot of
    the catalog is readable chunk by chunk, its summary row is the summary of
    it, and the next id is larger than all of theirs; after a death, and also
    in a process in which an append has just stopped half-way.  A run is any
    sequence of operations, replications, failures, deaths, restarts and
    changes of the user's files, except that no operation is started in a
    process whose last append stopped half-way before it has been restarted,
    and that callers keep [legal]: [record] only with chunks that are in the
    store, contents of at most [u64::MAX] bytes, ids left to draw. *)
Theorem catalog_stays_whole w (r := repo_of w) :
  reachable w ->
  forall id, tbl_get id (t_summaries r) = (fun sn => enc (summary sn)) <$> view r id /\
    (forall v, tbl_get id (t_snapshots r) = Some v -> exists sn, view r id = Some sn) /\
    forall sn, view r id = Some sn -> sn_id sn = id /\ 1 <= id < next_id r /\
      Forall (fun c => exists p, reads_as (store r) (c_hash c) p) (snap_refs sn).
Proof using Type*.
  intros Hr id. destruct (reachable_wf _ Hr) as [Hw _]. fold r in Hw. split; [apply (rw_summaries _ _ Hw)|]. split.
  - intros v Hv. destruct (rw_rows _ _ Hw _ _ Hv) as (sn & Hd & _). exists sn. unfold view. by rewrite Hv.
  - intros sn Hv. destruct (view_row _ _ _ _ Hw Hv) as [H1 H2 H3]. split; [done|]. split; [done|].
    by apply refs_held_readable.
Qed.

(** No pack file outgrows the rollover threshold by more than one chunk,
    in any run. *)
Theorem pack_files_are_bounded w id f :
  reachable w -> packs (store (repo_of w)) !! id = Some f -> len f <= R + U32_MAX.
Proof using Type*. intros Hr. destruct (reachable_wf _ Hr) as [Hw _]. apply (wf_sizes _ _ (rw_disk _ _ Hw)). Qed.

(** ** The chunk store *)

(** C17: in every state a run can reach in which the process is in step with
    its pack (after a start, and as long as no append has stopped half-way) a
    chunk that [put_chunk] reports as stored reads back as it was put,
    compressed or not, unless a call of the read itself fails; storing it again
    writes nothing and reports the codec of the first time. *)
Theorem stored_chunk_reads_back comp p r c s1 :
  reachable (Up r) -> in_step (store r) -> in_play p -> len p <= U32_MAX ->
  put_chunk (blake3 p) p comp (store r) = (Ok c, s1) ->
  (forall x s2, get (blake3 p) s1 = (x, s2) ->
     x = Ok (Some p) \/ exists e, x = Err e /\ trouble s1 s2) /\
  (forall comp' y s2, put_chunk (blake3 p) p comp' s1 = (y, s2) ->
     reads s1 s2 /\ (y = Ok c \/ exists e, y = Err e /\ env_err e)).
Proof using Type*.
  intros Hr Hin Hp Hl E. destruct (reachable_in_step _ Hr Hin) as [Hw Hm].
  pose proof (wp_put_chunk R HR (blake3 p) p comp (store r) (rw_disk _ _ Hw) Hm Hl (conj Hp eq_refl)) as H.
  unfold wp in H. rewrite E in H. destruct H as [[Hd1 _] _ _ _ _ Hdone]. simpl in *.
  destruct (Hdone _ eq_refl) as (Hh & v & loc & Hv & Hloc & Hc). split.
  - intros x s2 Eg. pose proof (wp_get (blake3 p) s1) as Hg. unfold wp in Hg. rewrite Eg in Hg. simpl in Hg.
    destruct Hg as (_ & _ & Hg). destruct (Hg p (holds_reads_as _ _ _ Hh)) as [?|(e & -> & He)]; [by left|right].
    exists e. split; [done|]. pose proof (blames_get (blake3 p) s1 (disk_decodable R _ Hd1)) as (_ & _ & Hb).
    rewrite Eg in Hb. by apply Hb.
  - intros comp' y s2 Ep. pose proof (wp_put_again (blake3 p) p comp' s1 v loc Hv Hloc) as Ha.
    unfold wp in Ha. rewrite Ep in Ha. by subst c.
Qed.

(** C35: in every state a run can reach, a range read of a file in the catalog
    returns that slice of its contents, cut at the end of the file, and never
    panics as long as the end of the range does not overflow 64 bits. *)
Theorem range_read_is_slice r id sn files i path b e offset n x s' :
  reachable (Up r) -> view r id = Some sn -> describes sn files ->
  files !! i = Some (path, b) -> sn_files sn !! i = Some e -> len b <= ISIZE_MAX ->
  0 <= offset -> 0 <= n -> offset + n <= U64_MAX ->
  materialise_range (fe_manifest e) offset n (store r) = (x, s') ->
  match x with
  | Ok out => out = take (Z.to_nat n) (drop (Z.to_nat offset) b)
  | Err err => env_err err
  end.
Proof using Type*.
  intros Hr Hv Hd Hb He Hl Ho Hn Hend E. destruct (reachable_up _ Hr) as [Hw Hm].
  destruct (Forall2_lookup_lr _ _ _ _ _ _ Hd Hb He) as [_ Hmo]. simpl in Hmo.
  pose proof (wp_materialise_range (fe_manifest e) b offset n (store r) Hmo
    (disk_sound R _ (rw_disk _ _ Hw)) Hl Ho Hn Hend) as H.
  unfold wp in H. rewrite E in H. destruct H as [_ H]. simpl in H. destruct x as [out|err]; [done|]. apply H.
  apply refs_held_readable. pose proof (ro_held _ _ _ (view_row _ _ _ _ Hw Hv)) as Hh.
  unfold refs_held in *. rewrite Forall_forall in *. intros c Hc. apply Hh. apply list_elem_of_bind.
  exists e. split; [done|]. by eapply list_elem_of_lookup_2.
Qed.

(** ** Collection and compaction *)

(** C14: in every state a run can reach in which the process is in step with
    its pack, a collection keeps exactly the index rows of the chunks that a
    snapshot or a resume manifest refers to, counts the others, deletes exactly
    the packs that lost their last row (never the active one), and leaves the
    catalog as it was. *)
Theorem gc_reclaims_exactly r rep r' :
  reachable (Up r) -> in_step (store r) -> gc r = (Ok rep, r') ->
  (forall id, view r' id = view r id) /\
  (forall h, (referenced r h -> tbl_get h (chunks (store r')) = tbl_get h (chunks (store r))) /\
     (~ referenced r h -> tbl_get h (chunks (store r')) = None)) /\
  (exists gone, NoDup gone /\ chunks_swept rep = Z.of_nat (length gone) /\
     forall h, h ∈ gone <-> is_Some (tbl_get h (chunks (store r))) /\ ~ referenced r h) /\
  (forall id f, packs (store r) !! id = Some f ->
     packs (store r') !! id = None <->
     ~ unreferenced (store r) id /\ unreferenced (store r') id /\ id <> a_id (active (store r))).
Proof using Type*.
  intros Hr Hin E. destruct (reachable_in_step _ Hr Hin) as [Hw Hm].
  destruct (reached _ _ _ _ _ (rpost_gc R r Hw Hm) E) as (_ & _ & _ & [(P & HP & [Hix Hsw Hpk]) Hv _ _]).
  split; [done|]. split; [|split; [|done]].
  - intros h. rewrite Hix. split; intros Href; [by rewrite decide_True by by apply HP|].
    rewrite decide_False; [done|]. by rewrite HP.
  - exists (filter (fun h => h ∉ P) (tbl_iter (chunks (store r))).*1). split; [|split; [done|]].
    + eapply sublist_NoDup; [apply tbl_iter_nodup|apply sublist_filter].
    + intros h. rewrite list_elem_of_filter, HP. split.
      * intros [Hn ([k v] & -> & Hv'%tbl_iter_get)%list_elem_of_fmap]. split; [by exists v|done].
      * intros [[v Hv'] Hn]. split; [done|]. apply (list_elem_of_fmap_2 fst _ (h, v)). by apply tbl_iter_get.
Qed.

(** C16: in every state a run can reach in which the process is in step with
    its pack, a compaction leaves every snapshot as it was, every chunk of it
    readable as before, and exactly the referenced chunks in the index. *)
Theorem compaction_keeps_snapshots opts r rep r' :
  reachable (Up r) -> in_step (store r) -> compact opts r = (Ok rep, r') ->
  (forall id, view r' id = view r id) /\
  (forall id sn c p, view r id = Some sn -> c ∈ snap_refs sn -> reads_as (store r) (c_hash c) p ->
     reads_as (store r') (c_hash c) p) /\
  (forall h, is_Some (tbl_get h (chunks (store r'))) <->
     referenced r h /\ is_Some (tbl_get h (chunks (store r)))).
Proof using Type*.
  intros Hr Hin E. destruct (reachable_in_step _ Hr Hin) as [Hw Hm].
  destruct (reached _ _ _ _ _ (rpost_compact R HR opts r Hw Hm) E) as (Hw' & _ & _ & Hv & _ & Hix).
  split; [done|]. split; [|done]. intros id sn c p Hsn Hc Hp. rewrite <- Hv in Hsn.
  pose proof (ro_held _ _ _ (view_row _ _ _ _ Hw' Hsn)) as Hh. unfold refs_held in Hh. rewrite Forall_forall in Hh.
  destruct (Hh c Hc) as (q & Hq). assert (p = q) as ->; [|by apply holds_reads_as].
  apply (disk_held R _ _ _ (rw_disk _ _ Hw)) in Hp.
  destruct Hp as (? & ? & ? & _ & _ & _ & _ & Hp), Hq as (? & ? & ? & _ & _ & _ & _ & Hq). by eapply names_unique.
Qed.

(** ** Retention *)

(** C39: In any state that a run can reach, in a process that is in step with
    its pack, a prune that succeeds removes exactly the snapshots that none of
    its rules keeps, and changes no other: those that are not pinned, have (with
    a count) at least that many newer snapshots in the whole repository, pinned
    ones included and equal times told apart by their ids, and (with a window)
    are older than the window, whose start is cut to what an [i64] holds;
    without a rule nothing is removed.  The ids it answers are the removed
    ones. *)
Theorem prune_removes_condemned policy now r ids r' :
  reachable (Up r) -> in_step (store r) -> prune policy now r = (Ok ids, r') ->
  forall id, (id ∈ ids <-> exists sn, view r id = Some sn /\
      (keep_last policy <> None \/ keep_within_ms policy <> None) /\ sn_pinned sn = false /\
      (forall n, keep_last policy = Some n ->
         n <= Z.of_nat (length (filter (fun other => newer other sn) (snaps_of r)))) /\
      (forall w, keep_within_ms policy = Some w -> sn_created sn < saturating_sub_i64 now w)) /\
    view r' id = if decide (id ∈ ids) then None else view r id.
Proof using Type*.
  intros Hr Hin E id. destruct (reachable_in_step _ Hr Hin) as [Hw Hm].
  destruct (reached _ _ _ _ _ (rpost_prune R policy now r Hw Hm) E) as (_ & _ & _ & [Hri Hids]).
  split; [apply Hids|apply (ri_view _ _ _ Hri)].
Qed.

(** [prune_source] removes what the retention policy selects among the
    snapshots of the source and nothing else; the newest snapshot of the source
    always stays; and when something went, the chunks left in the index are
    exactly those still referenced. *)
Theorem prune_source_keeps_newest src policy now r rep r' :
  reachable (Up r) -> in_step (store r) -> next_id r <= U64_MAX -> prune_source src policy now r = (Ok rep, r') ->
  exists ids rows,
    (forall v, v ∈ rows <-> exists id sn, view r id = Some sn /\ sn_source_key sn = Some src /\ v = source_row sn) /\
    ids = wrap64 <$> select_for_pruning rows policy now /\
    (forall id, view r' id = if decide (id ∈ ids) then None else view r id) /\
    (forall id, id ∈ ids -> exists sn, view r id = Some sn /\ sn_source_key sn = Some src) /\
    (ids <> [] ->
       (exists id sn, view r' id = Some sn /\ sn_source_key sn = Some src /\
          forall id' sn', view r id' = Some sn' -> sn_source_key sn' = Some src -> sn_created sn' <= sn_created sn) /\
       forall h, is_Some (tbl_get h (chunks (store r'))) <->
         referenced r' h /\ is_Some (tbl_get h (chunks (store r)))).
Proof using Type*.
  intros Hr Hin Hn E. destruct (reachable_in_step _ Hr Hin) as [Hw Hm].
  destruct (reached _ _ _ _ _ (rpost_prune_source R src policy now r Hw Hm Hn) E)
    as (_ & _ & _ & ids & [(rows & Hrows & Eids) Hown Hnew] & Hv & _ & Hix).
  exists ids, rows. split; [|split; [done|split; [done|split; [done|]]]].
  - intros v. rewrite Hrows. unfold of_source. split; intros (id & sn & H); exists id, sn; tauto.
  - intros Hne. split; [|by apply Hix]. destruct (Hnew Hne) as (id & sn & [Hid Hs] & Hnin & Hmax).
    exists id, sn. rewrite Hv, decide_False by done. split; [done|]. split; [done|].
    intros id' sn' ??. by apply (Hmax id').
Qed.

(** ** Restoring *)

(** Whatever paths a snapshot records and whatever is asked for,
    [restore_paths] creates and changes files below the destination root only,
    under a chain of ordinary names, even when it fails or the process dies;
    with [Skip] it changes no file that exists. *)
Theorem restore_stays_below_root id paths root strip conflict r sn files rep r' :
  reachable (Up r) -> in_step (store r) -> view r id = Some sn -> describes sn files ->
  restore_paths id paths root strip conflict r = (Ok rep, r') ->
  forall q, (fs (store r') !! q <> fs (store r) !! q ->
      exists rel, q = root ++ rel /\ rel <> [] /\ Forall plain rel) /\
    (conflict = Skip -> is_Some (fs (store r) !! q) -> fs (store r') !! q = fs (store r) !! q).
Proof using Type*.
  intros Hr Hin Hv Hd E q. destruct (reachable_in_step _ Hr Hin) as [Hw Hm].
  destruct (reached _ _ _ _ _ (rpost_restore_paths R id sn files paths root strip conflict r Hw Hm Hv Hd) E)
    as (_ & _ & _ & _ & outs & _ & [_ _ Ho Hs _]). split; [|by intros; apply Hs].
  intros Hne. destruct (Ho q) as [?|(want & f & _ & Ht)]; [done|]. by eapply restore_target_confined.
Qed.

(** When [restore_paths] overwrites and no two paths go to the same place,
    every path it counts as restored holds exactly the recorded bytes, and the
    three counters add up to the number of paths. *)
Theorem restore_paths_exact id paths root strip r sn files rep r' :
  reachable (Up r) -> in_step (store r) -> view r id = Some sn -> describes sn files -> Z.of_nat (length paths) <= U64_MAX ->
  NoDup ((fun want => restore_target ∅ sn want root strip Overwrite) <$> paths) ->
  restore_paths id paths root strip Overwrite r = (Ok rep, r') ->
  restored rep + rs_failed rep = Z.of_nat (length paths) /\ skipped rep = 0 /\
  exists done_, done_ `sublist_of` paths /\ restored rep = Z.of_nat (length done_) /\
    forall want, want ∈ done_ -> exists q b, restore_target ∅ sn want root strip Overwrite = Some q /\
      content_of files want = Some b /\ fs (store r') !! q = Some b.
Proof using Type*.
  intros Hr Hin Hv Hd Hlen Hnd E. destruct (reachable_in_step _ Hr Hin) as [Hw Hm].
  destruct (reached _ _ _ _ _ (rpost_restore_paths R id sn files paths root strip Overwrite r Hw Hm Hv Hd) E)
    as (_ & _ & _ & _ & outs & -> & [Hl Hsk _ _ Hex]). specialize (Hex eq_refl Hnd). specialize (Hsk ltac:(done)).
  destruct (tally_counts outs {| restored := 0; skipped := 0; rs_failed := 0 |}) as (E1 & E2 & E3); [done..|].
  destruct (counts_add_up outs Hsk) as [C1 C2]. destruct (restored_part paths outs Hl) as (part & Hsub & Hc & Hins).
  rewrite E1, E2, E3. simpl. rewrite C1, Hl in *.
  assert (0 <= count_of ORestored outs /\ 0 <= count_of OFailed outs) by (unfold count_of; lia).
  rewrite !wrap64_id by (unfold is_u64, U64_MAX in *; lia). split; [done|]. split; [done|].
  exists part. split; [done|]. split; [done|]. intros want (i & Hp & Ho)%Hins. by eapply Hex.
Qed.

(** [snapshot_at] answers with the newest snapshot no later than the given
    time that holds the file, the one with the larger id among equals, and with
    nothing exactly when there is none. *)
Theorem snapshot_at_picks_newest p ts r o r' :
  reachable (Up r) -> in_step (store r) -> snapshot_at p ts r = (Ok o, r') ->
  match o with
  | None => forall id sn, view r id = Some sn -> sn_created sn <= ts -> find_file p sn = None
  | Some f => exists id sn e, view r id = Some sn /\ sn_created sn <= ts /\ find_file p sn = Some e /\
      fs_manifest f = fe_manifest e /\ fs_snapshot_id f = id /\ fs_created f = sn_created sn /\
      forall id' sn' e', view r id' = Some sn' -> sn_created sn' <= ts -> find_file p sn' = Some e' ->
        lex_le (sn_created sn', id') (sn_created sn, id)
  end.
Proof using Type*.
  intros Hr Hin E. destruct (reachable_in_step _ Hr Hin) as [Hw Hm].
  destruct (reached _ _ _ _ _ (rpost_snapshot_at R p ts r Hw Hm) E) as (_ & _ & _ & _ & Hn).
  assert (forall id sn, view r id = Some sn -> sn ∈ snaps_of r) as Hins by (intros id sn Hv; apply elem_of_snaps; eauto).
  assert (forall id sn, view r id = Some sn -> sn_id sn = id) as Hid by (intros id sn Hv; by apply (view_row _ _ _ _ Hw Hv)).
  destruct o as [f|]; simpl in Hn.
  - destruct Hn as (sn & e & (id & Hv)%elem_of_snaps & [Ht Hf] & -> & Hmax). exists id, sn, e.
    do 4 (split; [done|]). simpl. rewrite (Hid _ _ Hv) in *. do 2 (split; [done|]).
    intros id' sn' e' Hv' ??. rewrite <- (Hid _ _ Hv'). by eapply Hmax; [eapply Hins|].
  - intros id sn Hv Ht. destruct (find_file p sn) as [e|] eqn:Hf; [|done].
    by destruct (Hn sn e (Hins _ _ Hv)).
Qed.

(** ** Verification *)

(** [verify] misses nothing and invents nothing: a file without an entry
    in the report can be read back chunk by chunk (to bytes of its digest, when
    the data is read), and every entry names a file of a checked snapshot and a
    chunk that is missing from the index or cannot be read, or is the result of
    a call that failed. *)
Theorem verify_is_exact only level r rep r' :
  reachable (Up r) -> in_step (store r) -> verify only level r = (Ok rep, r') ->
  (forall id sn f, view r id = Some sn -> chosen only id -> f ∈ sn_files sn ->
     (forall d, d ∈ damage rep -> ~ (dm_snapshot d = id /\ dm_path d = fe_path f)) ->
     Forall (chunk_ok level (store r)) (m_chunks (fe_manifest f)) /\
     (level = ReadData -> exists pieces,
        Forall2 (fun c p => reads_as (store r) (c_hash c) p) (m_chunks (fe_manifest f)) pieces /\
        blake3 (concat pieces) = file_hash (fe_manifest f))) /\
  (forall d, d ∈ damage rep -> exists sn f, view r (dm_snapshot d) = Some sn /\ chosen only (dm_snapshot d) /\
     f ∈ sn_files sn /\ justified level (store r) (store r') f d).
Proof using Type*.
  intros Hr Hin E. destruct (reachable_in_step _ Hr Hin) as [Hw Hm].
  destruct (reached _ _ _ _ _ (rpost_verify R only level r Hw Hm) E) as (_ & _ & _ & _ & [H1 H2]).
  split; [|done]. intros id sn f Hv Hc Hf Hno. destruct (H2 _ _ _ Hv Hc Hf) as [?|(d & Hd & ? & ?)]; [done|].
  by destruct (Hno d Hd).
Qed.

(** ** Recording *)

(** C34: in every state a run can reach in which the process is in step with
    its pack, [snapshot_source] always ends, and when it succeeds the new
    snapshot holds exactly the files of the tree the filters pass, each with
    its contents: a directory's own files first, then those of its
    subdirectories. *)
Theorem snapshot_source_records_tree pd pf kind label key created root r x r' :
  reachable (Up r) -> in_step (store r) -> next_id r < U64_MAX -> Forall (fun pb => storable pb.2) (expected pd pf [] root) ->
  snapshot_source pd pf kind label key created root r = (x, r') ->
  x <> Err XStuck /\
  forall sum, x = Ok sum -> sum_files sum = Z.of_nat (length (expected pd pf [] root)) /\
    view r (sum_id sum) = None /\
    exists sn, view r' (sum_id sum) = Some sn /\ sn_created sn = created /\ sn_source_key sn = key /\
      Forall2 (fun pb e => fe_path e = pb.1 /\ manifest_of (fe_manifest e) pb.2) (expected pd pf [] root) (sn_files sn).
Proof using Type*.
  intros Hr Hin Hn Hsz E. destruct (reachable_in_step _ Hr Hin) as [Hw Hm].
  destruct (reached _ _ _ _ _ (rpost_snapshot_source R HR pd pf kind label key created root r Hw Hm Hn Hsz) E)
    as (_ & _ & _ & Hx). split.
  - intros ->. by destruct Hx.
  - intros sum ->. destruct Hx as [[Hid _ _ _ (sn & Hv & Hd & Hc & Hk & _)] Hf]. split; [done|]. split.
    + destruct (view r (sum_id sum)) as [sn'|] eqn:Hv'; [|done].
      pose proof (ro_range _ _ _ (view_row _ _ _ _ Hw Hv')). lia.
    + exists sn. split; [done|]. split; [done|]. split; [done|]. exact Hd.
Qed.
End props.

(** ** Replicating

    Each repository runs in an environment of its own. *)
Section replicate.
Context {TC TM TS TN TQ : Type} {kle : bytes -> bytes -> Prop}.
Context {TBC : Table bytes bytes TC kle} {TBM : Table string bytes TM String.le}.
Context {TBS : Table string bytes TS String.le}.
Context {TBN : Table Z bytes TN Z.le} {TBQ : Table string Z TQ String.le}.
Context {CM : Codec Manifest bytes} {CS : Codec Snapshot bytes} {CU : Codec UnifiedSnapshot bytes}.
Context {B3 : Blake3} {ZS : Zstd} {FC : FastCdc} {ZL : ZstdLaws} {FL : FastCdcLaws} {DL : DigestLaws}.
Context (EN1 EN2 : ChunkWorld) {WL1 : @WorldLaws EN1} {WL2 : @WorldLaws EN2}.
Context (R1 R2 : Z) (HR1 : 0 <= R1 <= 2 ^ 62) (HR2 : 0 <= R2 <= 2 ^ 62).
Local Abbreviation Repo := (Repo TC TM TS TN TQ).
Implicit Types r : Repo.

(** C15: replication between two repositories that runs have reached, each in
    an environment of its own and each process in step with its pack, leaves
    the catalog of the source as it is and every snapshot of the destination
    where it is; when it succeeds, every snapshot of the source has one in the
    destination that records the same files, all of whose chunks the
    destination holds, whatever either held before.  The destination has ids
    left for all of them, and the digest tells the contents of the snapshots
    apart. *)
Theorem replication_copies_snapshots r1 r2 x r1' r2' :
  reachable (EN := EN1) R1 (Up r1) -> reachable (EN := EN2) R2 (Up r2) ->
  in_step (store r1) -> in_step (store r2) ->
  next_id r2 + Z.of_nat (length (snaps_of r1)) <= U64_MAX ->
  (forall id sn, view r1 id = Some sn \/ view r2 id = Some sn -> in_play (enc (probe_of sn))) ->
  replicate_to EN1 EN2 (r1, r2) = (x, (r1', r2')) ->
  (forall id, view r1' id = view r1 id) /\
  (forall id sn, view r2 id = Some sn -> view r2' id = Some sn) /\
  forall rep, x = Ok rep -> forall id sn files, view r1 id = Some sn -> describes sn files ->
    exists id' sn', view r2' id' = Some sn' /\ describes sn' files /\
      Forall (fun c => exists p, reads_as (store r2') (c_hash c) p) (snap_refs sn').
Proof using Type*.
  intros H1 H2 I1 I2 Hn Hplay E. pose proof (reachable_in_step (EN := EN1) R1 HR1 _ H1 I1) as [W1 M1].
  pose proof (reachable_in_step (EN := EN2) R2 HR2 _ H2 I2) as [W2 M2].
  pose proof (ppost_replicate EN1 EN2 R1 R2 HR1 HR2 (fun a => in_play (enc a)) (r1, r2)) as H.
  destruct H as (_ & W2' & _ & Hq & _ & Hv & Hx); [by split|done|done| |].
  { intros a b Ha Hb Eq. apply (in_play_distinct _ _ Ha Hb) in Eq. apply (f_equal (dec (A := Snapshot))) in Eq.
    rewrite !dec_enc in Eq. by injection Eq. }
  rewrite E in *. cbn [fst snd] in *. split; [intros id; by apply query_view|]. split; [done|].
  intros rep -> id sn files Hsn Hd. destruct (Hx id sn Hsn) as (id' & sn' & Hv' & Ep).
  exists id', sn'. split; [done|]. split; [by eapply describes_probe|].
  apply refs_held_readable, (view_row _ _ _ _ W2' Hv').
Qed.
End replicate.
