(* ===== verification/RepoDemo.v ===== *)
(** * The snapshot repository: a concrete world

    Instances of everything the chunk store and the repository take from
    outside: a digest, a compressor, a chunker, tables, row codecs and an
    environment in which the first calls work and a later one kills the
    process.  They meet every assumed law, so the theorems apply to them. *)
From S2P Require Import Prelude.
From S2P Require Import Text.
From S2P Require Import Files.
From S2P Require Import Monad.
From S2P Require Import Table.
From S2P Require Import ChunkTypes.
From S2P Require Import ChunkStore.
From S2P Require Import ChunkWp.
From S2P Require Import ChunkFile.
From S2P Require Import Repository.
From stdpp Require Import options.
Open Scope Z_scope.

(** ** Tables with binary keys, ordered byte by byte *)

Fixpoint bytes_leb (a b : bytes) : bool :=
  match a, b with
  | [], _ => true
  | _, [] => false
  | x :: a, y :: b => (byte_val x <? byte_val y) || ((byte_val x =? byte_val y) && bytes_leb a b)
  end.

Definition bytes_le (a b : bytes) : Prop := bytes_leb a b = true.

#[export] Instance bytes_le_dec : RelDecision bytes_le.
Proof. intros a b. unfold bytes_le. apply _. Defined.

#[export] Instance bytes_le_total : Total bytes_le.
Proof.
  intros a. unfold bytes_le. induction a as [|x a IH]; intros [|y b]; simpl; [by left|by left|by right|].
  rewrite !orb_true_iff, !andb_true_iff, !Z.ltb_lt, !Z.eqb_eq.
  destruct (IH b), (Z.lt_total (byte_val x) (byte_val y)) as [?|[?|?]]; auto.
Qed.

#[export] Instance bytes_le_trans : Transitive bytes_le.
Proof.
  intros a. unfold bytes_le. induction a as [|x a IH]; intros [|y b] [|z c]; simpl; try done.
  rewrite !orb_true_iff, !andb_true_iff, !Z.ltb_lt, !Z.eqb_eq.
  intros [?|[? H1]] [?|[? H2]]; [left; lia..|]. right. split; [lia|by eapply IH].
Qed.

#[export] Instance bytes_table V : Table bytes V (gmap bytes V) bytes_le := gmap_table bytes_le.

(** ** Row codecs: the bits of the value, a byte each *)

Fixpoint pos_bytes (p : positive) : bytes :=
  match p with xH => [] | xO p => x00 :: pos_bytes p | xI p => x01 :: pos_bytes p end.

Fixpoint bytes_pos (l : bytes) : positive :=
  match l with [] => xH | x00 :: l => xO (bytes_pos l) | _ :: l => xI (bytes_pos l) end.

Lemma bytes_pos_bytes p : bytes_pos (pos_bytes p) = p.
Proof. induction p as [p IH|p IH|]; simpl; by rewrite ?IH. Qed.

Program Definition countable_codec {A} `{Countable A} : Codec A bytes :=
  {| enc a := pos_bytes (countable.encode a); dec l := countable.decode (bytes_pos l) |}.
Next Obligation. intros A ?? a. simpl. by rewrite bytes_pos_bytes, decode_encode. Qed.

#[export] Instance chunkref_eq_dec : EqDecision ChunkRef.
Proof. solve_decision. Defined.
#[export] Instance manifest_eq_dec : EqDecision Manifest.
Proof. solve_decision. Defined.
#[export] Instance entry_eq_dec : EqDecision FileEntry.
Proof. solve_decision. Defined.
#[export] Instance snapshot_eq_dec : EqDecision Snapshot.
Proof. solve_decision. Defined.
#[export] Instance unified_eq_dec : EqDecision UnifiedSnapshot.
Proof. solve_decision. Defined.

#[export] Instance codec_countable : Countable ChunkCodec.
Proof.
  by refine (inj_countable' (fun c => match c with CodecNone => false | CodecZstd => true end)
    (fun b : bool => if b then CodecZstd else CodecNone) _); intros [].
Defined.
#[export] Instance kind_countable : Countable SnapshotKind.
Proof.
  by refine (inj_countable' (fun k => match k with KCopy => (true, true) | KSync => (true, false)
      | KVersion => (false, true) | KBackup => (false, false) end)
    (fun b : bool * bool => match b with (true, true) => KCopy | (true, false) => KSync
      | (false, true) => KVersion | _ => KBackup end) _); intros [].
Defined.
#[export] Instance chunkref_countable : Countable ChunkRef.
Proof.
  by refine (inj_countable' (fun c => (c_offset c, c_len c, c_codec c, c_hash c))
    (fun '(o, l, k, h) => {| c_hash := h; c_offset := o; c_len := l; c_codec := k |}) _); intros [].
Defined.
#[export] Instance manifest_countable : Countable Manifest.
Proof.
  by refine (inj_countable' (fun m => (m_size m, file_hash m, m_chunks m))
    (fun '(n, h, l) => {| file_hash := h; m_size := n; m_chunks := l |}) _); intros [].
Defined.
#[export] Instance entry_countable : Countable FileEntry.
Proof.
  by refine (inj_countable' (fun f => (fe_path f, fe_manifest f))
    (fun '(p, m) => {| fe_path := p; fe_manifest := m |}) _); intros [].
Defined.
#[export] Instance snapshot_countable : Countable Snapshot.
Proof.
  by refine (inj_countable' (fun s => ((sn_id s, sn_created s, sn_kind s, sn_pinned s),
      (sn_label s, sn_source_key s, sn_description s, sn_tags s, sn_source s), sn_files s))
    (fun '((i, c, k, p), (l, sk, d, t, so), f) =>
      {| sn_id := i; sn_kind := k; sn_created := c; sn_label := l; sn_source_key := sk; sn_description := d;
         sn_tags := t; sn_pinned := p; sn_source := so; sn_files := f |}) _); intros [].
Defined.
#[export] Instance unified_countable : Countable UnifiedSnapshot.
Proof.
  by refine (inj_countable' (fun s => ((us_id s, us_created s, us_kind s, us_pinned s),
      (us_label s, us_source_key s, us_description s, us_tags s, us_source s), (us_file_count s, us_total_size s)))
    (fun '((i, c, k, p), (l, sk, d, t, so), (n, z)) =>
      {| us_id := i; us_kind := k; us_created := c; us_label := l; us_source_key := sk; us_description := d;
         us_tags := t; us_pinned := p; us_file_count := n; us_total_size := z; us_source := so |}) _); intros [].
Defined.

#[export] Instance manifest_codec : Codec Manifest bytes := countable_codec.
#[export] Instance unified_codec : Codec UnifiedSnapshot bytes := countable_codec.

(** ** The digest: short strings as they are, the others by their length *)

Program Definition demo_blake3 : Blake3 := {|
  blake3 b :=
    if Nat.leb (length b) 31 then byte_of (len b) :: b ++ replicate (31 - length b) x00
    else byte_of 255 :: le_bytes 31 (len b)
|}.
Next Obligation.
  intros b. cbv beta. destruct (Nat.leb (length b) 31) eqn:E.
  - apply Nat.leb_le in E. transitivity (S (length (b ++ replicate (31 - length b) x00))); [done|].
    rewrite length_app, length_replicate. lia.
  - exact (f_equal S (length_le_bytes 31 (len b))).
Qed.
#[export] Existing Instance demo_blake3.

Program Definition demo_digest_laws : DigestLaws := {| in_play b := (length b <= 31)%nat |}.
Next Obligation. intros a b c. simpl. rewrite !length_app. lia. Qed.
Next Obligation.
  intros a b Ha Hb. simpl in *. rewrite !(proj2 (Nat.leb_le _ _)) by done.
  intros [= E1 E2]. apply (f_equal byte_val) in E1. rewrite !byte_val_of in E1. unfold len in E1.
  rewrite !Z.mod_small in E1 by lia. by apply (app_inj_1 a b _ _ ltac:(lia)) in E2 as [? _].
Qed.
#[export] Existing Instance demo_digest_laws.

(** ** The compressor: a run of one byte becomes that byte *)

Definition demo_compress (p : bytes) (_ : Z) : option bytes :=
  match p with
  | [] => None
  | b :: l => if bool_decide (Forall (fun x => x = b) l) then Some [b] else None
  end.

Definition demo_decompress (c : bytes) (n : Z) : option bytes :=
  match c with [b] => Some (replicate (Z.to_nat n) b) | _ => None end.

#[export] Instance demo_zstd : Zstd := {| zstd_compress := demo_compress; zstd_decompress := demo_decompress |}.

#[export] Instance demo_zstd_laws : ZstdLaws.
Proof.
  split. intros [|b p] l c; simpl; [done|]. case_bool_decide as Hp; [|done]. intros [= <-]. simpl.
  unfold len. rewrite Nat2Z.id. cbn [length replicate]. do 2 f_equal.
  induction Hp as [|x p -> _ IH]; simpl; by rewrite ?IH.
Qed.

(** ** The chunker: pieces of four bytes, or fewer when the maximum says so *)

Definition demo_piece (c : Chunker) : nat := Nat.max 1 (Z.to_nat (Z.min 4 (ck_max c))).

Fixpoint demo_cuts (fuel piece off rest : nat) : list (nat * nat) :=
  match fuel with
  | O => []
  | S fuel =>
      if Nat.eqb rest 0 then []
      else (off, Nat.min piece rest) :: demo_cuts fuel piece (off + Nat.min piece rest) (rest - Nat.min piece rest)
  end.

#[export] Instance demo_fastcdc : FastCdc :=
  {| fastcdc c b := demo_cuts (length b) (demo_piece c) 0 (length b) |}.

Lemma demo_cuts_tile fuel piece off rest : (1 <= piece)%nat -> (rest <= fuel)%nat ->
  tiles off (demo_cuts fuel piece off rest) (off + rest) /\
  forall o l, (o, l) ∈ demo_cuts fuel piece off rest -> (l <= piece)%nat.
Proof.
  intros Hp. revert off rest. induction fuel as [|fuel IH]; intros off rest Hr; cbn [demo_cuts].
  { split; [simpl; lia|]. by intros o l ?%elem_of_nil. }
  destruct (Nat.eqb_spec rest 0) as [->|].
  { split; [simpl; lia|]. by intros o l ?%elem_of_nil. }
  destruct (IH (off + Nat.min piece rest)%nat (rest - Nat.min piece rest)%nat) as [H1 H2]; [lia|]. split.
  - cbn [tiles]. split; [done|]. split; [lia|].
    by replace (off + rest)%nat with (off + Nat.min piece rest + (rest - Nat.min piece rest))%nat by lia.
  - intros o l [[= -> ->]|H]%elem_of_cons; [lia|by eapply H2].
Qed.

#[export] Instance demo_fastcdc_laws : FastCdcLaws.
Proof.
  split; intros c b; simpl.
  - by apply (demo_cuts_tile (length b) (demo_piece c) 0 (length b)); [unfold demo_piece; lia|].
  - intros o l Hc H. pose proof (demo_cuts_tile (length b) (demo_piece c) 0 (length b)
      ltac:(unfold demo_piece; lia) ltac:(lia)) as [_ Hl]. apply Hl in H. unfold demo_piece in H. lia.
Qed.

(** ** The files of the demonstration *)

Fixpoint bytes_of (s : string) : bytes :=
  match s with EmptyString => [] | String c s => Ascii.byte_of_ascii c :: bytes_of s end.

Definition demo_files : list (string * bytes) :=
  [("d/a.txt", bytes_of "hello hello!"); ("d/b.txt", bytes_of "zzzzzzzz")].

(** What [probe_of] leaves of their snapshot. *)
Definition demo_manifest (b : bytes) : Manifest :=
  {| file_hash := blake3 b; m_size := len b;
     m_chunks := (fun ol : nat * nat => {| c_hash := blake3 (take ol.2 (drop ol.1 b)); c_offset := Z.of_nat ol.1;
                                          c_len := Z.of_nat ol.2; c_codec := CodecNone |})
                 <$> fastcdc default_chunker b |}.

Definition demo_probe : Snapshot :=
  {| sn_id := 0; sn_kind := KBackup; sn_created := 5; sn_label := ""; sn_source_key := None;
     sn_description := ""; sn_tags := []; sn_pinned := false; sn_source := "";
     sn_files := (fun pb => {| fe_path := pb.1; fe_manifest := demo_manifest pb.2 |}) <$> demo_files |}.

Definition demo_decode (l : bytes) : option Snapshot :=
  match l with x00 :: l => countable.decode (bytes_pos l) | _ => Some demo_probe end.

(** It has a code of its own, one byte long, so that the digest tells it apart
    from others. *)
Program Definition demo_snapshot_codec : Codec Snapshot bytes := {|
  enc s := if decide (s = demo_probe) then [x01] else x00 :: pos_bytes (countable.encode s);
  dec := demo_decode
|}.
Next Obligation. intros s. simpl. case_decide; [by subst|]. unfold demo_decode. by rewrite bytes_pos_bytes, decode_encode. Qed.
#[export] Existing Instance demo_snapshot_codec.

(** ** The environment *)

(** Calls that work until the process dies at call number [last]; one call in
    between, number [bad], fails. *)
Definition demo_world (bad last : nat) : ChunkWorld := {|
  fate n := if Nat.eqb n bad then Fails else if Nat.ltb n last then Works else Dies;
  wrote _ := 2%nat;
  new_v4 n := le_bytes 16 (Z.of_nat n);
  read_size _ := 3%nat;
  listing _ l := l;
  cancelled _ := false;
|}.

Lemma demo_world_laws bad last : Z.of_nat last <= 60000 -> @WorldLaws (demo_world bad last).
Proof.
  intros Hl. split; unfold fate, new_v4, listing, demo_world.
  - intros i j. destruct (Nat.eqb i bad), (Nat.eqb j bad); try done.
    destruct (Nat.ltb_spec i last), (Nat.ltb_spec j last); try done. intros _ _ E.
    apply (f_equal le_value) in E. rewrite !le_value_bytes in E by (change (256 ^ _) with (2 ^ 128); lia). lia.
  - intros n. apply length_le_bytes.
  - done.
Qed.

(** ** An empty disk *)

Definition DemoRepo : Type :=
  Repo (gmap bytes bytes) (gmap string bytes) (gmap string bytes) (gmap Z bytes) (gmap string Z).

Definition demo_blank : DemoRepo :=
  {| store := {| packs := ∅; chunks := ∅; manifests := ∅; stats := ∅; fs := ∅;
                 active := {| a_id := []; a_size := 0 |}; rollover_bytes := 0; calls := 0 |};
     t_snapshots := ∅; t_summaries := ∅; t_seq := ∅; compression := Off |}.
