(* ===== verification/RepoReport.v ===== *)
(** * Comparing and reporting ([freally-chunk]: [diff.rs], [report.rs], [cdr.rs])

    What the repository computes from manifests alone: the difference of two
    snapshots, the report over all of them, and the exchange form of a
    manifest.  The ratio of the report, a floating-point number, and its
    rendering as text are left out, and so are the bytes of the exchange form,
    which [ciborium] writes.

    The second part shows that the numbers are those of the catalog. *)
From S2P Require Import Prelude.
From S2P Require Import Text.
From S2P Require Import Files.
From S2P Require Import Monad.
From S2P Require Import Table.
From S2P Require Import ChunkTypes.
From S2P Require Import ChunkStore.
From S2P Require Import Repository.
From S2P Require Import ChunkWp.
From S2P Require Import ChunkFile.
From S2P Require Import ChunkFileSafety.
From S2P Require Import RepoWp.
From S2P Require Import RepoOps.
From S2P Require Import RepoRestore.
From S2P Require Import RepoSystem.
From S2P Require Import RepoProps.
From stdpp Require Import pretty options.
Open Scope Z_scope.
Open Scope monad_scope.

(** ** Differences ([diff.rs]) *)

Inductive FileChange := Added | Removed | Modified | Unchanged.

#[export] Instance file_change_eq : EqDecision FileChange.
Proof. solve_decision. Defined.

Record FileDiff := {
  fd_path : string;
  fd_change : FileChange;
  fd_old_size : option Z;
  fd_new_size : option Z;
  fd_chunks_shared : Z;
  fd_chunks_changed : Z;
  fd_bytes_added : Z
}.

Record SnapshotDiff := {
  sd_from_id : Z;
  sd_to_id : Z;
  sd_files : list FileDiff;
  sd_added : Z;
  sd_removed : Z;
  sd_modified : Z;
  sd_unchanged : Z;
  sd_bytes_added : Z
}.

(** Collecting pairs into a [HashMap]: the last one of a key stays. *)
Definition files_of (s : Snapshot) : gmap string Manifest :=
  foldl (fun m f => <[fe_path f := fe_manifest f]> m) ∅ (sn_files s).

Definition changed_chunks (from_chunks : gset Blake3Hash) (m : Manifest) : list ChunkRef :=
  filter (fun c => c_hash c ∉ from_chunks) (m_chunks m).

Definition file_diff (from_chunks : gset Blake3Hash) (path : string) (old new : option Manifest) : option FileDiff :=
  match old, new with
  | None, Some new_m =>
      let changed := changed_chunks from_chunks new_m in
      Some {| fd_path := path; fd_change := Added; fd_old_size := None; fd_new_size := Some (m_size new_m);
              fd_chunks_shared := Z.of_nat (length (m_chunks new_m) - length changed); fd_chunks_changed := Z.of_nat (length changed);
              fd_bytes_added := sum64 (c_len <$> changed) |}
  | Some old_m, None =>
      Some {| fd_path := path; fd_change := Removed; fd_old_size := Some (m_size old_m); fd_new_size := None;
              fd_chunks_shared := 0; fd_chunks_changed := 0; fd_bytes_added := 0 |}
  | Some old_m, Some new_m =>
      if bool_decide (file_hash old_m = file_hash new_m)
      then Some {| fd_path := path; fd_change := Unchanged; fd_old_size := Some (m_size old_m); fd_new_size := Some (m_size new_m);
                   fd_chunks_shared := Z.of_nat (length (m_chunks new_m)); fd_chunks_changed := 0; fd_bytes_added := 0 |}
      else
        let changed := changed_chunks from_chunks new_m in
        Some {| fd_path := path; fd_change := Modified; fd_old_size := Some (m_size old_m); fd_new_size := Some (m_size new_m);
                fd_chunks_shared := Z.of_nat (length (m_chunks new_m) - length changed); fd_chunks_changed := Z.of_nat (length changed);
                fd_bytes_added := sum64 (c_len <$> changed) |}
  | None, None => None
  end.

(** One turn of the loop over the chunks of [to]. *)
Definition to_only_step (from_chunks : gset Blake3Hash) (a : gset Blake3Hash * Z) (c : ChunkRef) : gset Blake3Hash * Z :=
  if bool_decide (c_hash c ∈ from_chunks) || bool_decide (c_hash c ∈ a.1) then a
  else ({[c_hash c]} ∪ a.1, wrap64 (a.2 + c_len c)).

Definition changes (k : FileChange) (files : list FileDiff) : Z := Z.of_nat (length (filter (fun d => fd_change d = k) files)).

Definition diff_of (from_snap to_snap : Snapshot) : SnapshotDiff :=
  let from_files := files_of from_snap in
  let to_files := files_of to_snap in
  let from_chunks := distinct_chunks from_snap in
  let paths := merge_sort String.le (elements (dom from_files ∪ dom to_files)) in
  let files := omap (fun path => file_diff from_chunks path (from_files !! path) (to_files !! path)) paths in
  {| sd_from_id := sn_id from_snap; sd_to_id := sn_id to_snap; sd_files := files;
     sd_added := changes Added files; sd_removed := changes Removed files;
     sd_modified := changes Modified files; sd_unchanged := changes Unchanged files;
     sd_bytes_added := (foldl (to_only_step from_chunks) (∅, 0) (snap_refs to_snap)).2 |}.

(** ** Reports ([report.rs]) *)

Definition MS_PER_DAY : Z := 86400000.

Record KindBreakdown := { kb_kind : SnapshotKind; kb_count : Z; kb_effective_bytes : Z }.
Record GrowthPoint := { gp_ts_ms : Z; gp_cumulative_unique_bytes : Z; gp_snapshot_count : Z }.
Record TopFile := { tf_path : string; tf_versions : Z; tf_max_size : Z }.
Record RepoReport := { rp_stats : RepoStats; rp_by_kind : list KindBreakdown; rp_growth : list GrowthPoint; rp_top_files : list TopFile }.

(** The variables of the loop. *)
Record Tally := {
  ta_kinds : SnapshotKind -> option (Z * Z);
  ta_files : gmap string (Z * Z);
  ta_seen : gset Blake3Hash;
  ta_bytes : Z;
  ta_count : Z;
  ta_growth : list GrowthPoint
}.

Definition no_tally : Tally := {| ta_kinds _ := None; ta_files := ∅; ta_seen := ∅; ta_bytes := 0; ta_count := 0; ta_growth := [] |}.

Definition tally_chunk (a : gset Blake3Hash * Z) (c : ChunkRef) : gset Blake3Hash * Z :=
  if bool_decide (c_hash c ∈ a.1) then a else ({[c_hash c]} ∪ a.1, wrap64 (a.2 + c_len c)).

Definition tally_path (files : gmap string (Z * Z)) (f : FileEntry) : gmap string (Z * Z) :=
  let '(n, m) := default (0, 0) (files !! fe_path f) in <[fe_path f := (n + 1, Z.max m (m_size (fe_manifest f)))]> files.

Definition day_floor (s : Snapshot) : Z := sn_created s `div` MS_PER_DAY * MS_PER_DAY.

(** [growth.last_mut()]: the point of the day is updated in place. *)
Fixpoint put_point (p : GrowthPoint) (l : list GrowthPoint) : list GrowthPoint :=
  match l with
  | [] => [p]
  | [last] => if gp_ts_ms last =? gp_ts_ms p then [p] else [last; p]
  | q :: l => q :: put_point p l
  end.

Definition tally_snapshot (t : Tally) (s : Snapshot) : Tally :=
  let '(n, e) := default (0, 0) (ta_kinds t (sn_kind s)) in
  let '(seen, bytes) := foldl tally_chunk (ta_seen t, ta_bytes t) (snap_refs s) in
  let count := ta_count t + 1 in
  {| ta_kinds k := if decide (k = sn_kind s) then Some (n + 1, wrap64 (e + total_size s)) else ta_kinds t k;
     ta_files := foldl tally_path (ta_files t) (sn_files s);
     ta_seen := seen; ta_bytes := bytes; ta_count := count;
     ta_growth := put_point {| gp_ts_ms := day_floor s; gp_cumulative_unique_bytes := bytes; gp_snapshot_count := count |} (ta_growth t) |}.

(** [sort_by_key(|s| (s.created_at_ms, s.id))] *)
Definition recorded_before (a b : Snapshot) : bool :=
  (sn_created a <? sn_created b) || ((sn_created a =? sn_created b) && (sn_id a <=? sn_id b)).

(** The kinds in the order of their names. *)
Definition kinds_by_name : list SnapshotKind := [KBackup; KCopy; KSync; KVersion].

(** More versions first, then the larger, then by path. *)
Definition more_versions (a b : TopFile) : bool :=
  (tf_versions b <? tf_versions a) ||
  ((tf_versions b =? tf_versions a) &&
   ((tf_max_size b <? tf_max_size a) || ((tf_max_size b =? tf_max_size a) && bool_decide (String.le (tf_path a) (tf_path b))))).

Definition report_of (stats : RepoStats) (snaps : list Snapshot) (top_n : nat) : RepoReport :=
  let t := foldl tally_snapshot no_tally (sort_by recorded_before snaps) in
  {| rp_stats := stats;
     rp_by_kind := omap (fun k => (fun ne => {| kb_kind := k; kb_count := ne.1; kb_effective_bytes := ne.2 |}) <$> ta_kinds t k) kinds_by_name;
     rp_growth := ta_growth t;
     rp_top_files := take top_n (sort_by more_versions
       ((fun kv => {| tf_path := kv.1; tf_versions := kv.2.1; tf_max_size := kv.2.2 |}) <$> map_to_list (ta_files t))) |}.

(** ** The exchange form of a manifest ([cdr.rs]) *)

Definition CDR_SPEC_VERSION : Z := 0.
Definition CDR_ALGO : string := "fastcdc-2020;min=524288;avg=1048576;max=4194304;hash=blake3-256".
Definition HASH_LEN : nat := 32.

Inductive CdrError :=
| UnsupportedVersion (repo reader : Z)
| BadAlgo (algo : string)
| BadFileHash (n : nat)
| BadChunkHash (i n : nat)
| BadTiling (i : nat) (offset expected : Z)
| BadSize (total size : Z)
| BadDigest (n : nat).

Record CdrChunkRef := { cc_hash : bytes; cc_offset : Z; cc_len : Z; cc_codec : ChunkCodec }.

Record CdrManifest := { cm_spec_version : Z; cm_algo : string; cm_file_hash : bytes; cm_size : Z; cm_chunks : list CdrChunkRef }.

Definition from_manifest (m : Manifest) : CdrManifest :=
  {| cm_spec_version := CDR_SPEC_VERSION; cm_algo := CDR_ALGO; cm_file_hash := file_hash m; cm_size := m_size m;
     cm_chunks := (fun c => {| cc_hash := c_hash c; cc_offset := c_offset c; cc_len := c_len c; cc_codec := c_codec c |}) <$> m_chunks m |}.

Definition ensure_readable (repo_version : Z) : result CdrError unit :=
  if CDR_SPEC_VERSION <? repo_version then Err (UnsupportedVersion repo_version CDR_SPEC_VERSION) else Ok tt.

(** The loop over the chunks: the cursor behind the last. *)
Fixpoint validate_chunks (i : nat) (cursor : Z) (l : list CdrChunkRef) : result CdrError Z :=
  match l with
  | [] => Ok cursor
  | c :: l =>
      if negb (length (cc_hash c) =? HASH_LEN)%nat then Err (BadChunkHash i (length (cc_hash c)))
      else if negb (cc_offset c =? cursor) then Err (BadTiling i (cc_offset c) cursor)
      else validate_chunks (S i) (wrap64 (cursor + cc_len c)) l
  end.

Definition validate (m : CdrManifest) : result CdrError unit :=
  let? _ := ensure_readable (cm_spec_version m) in
  if negb (String.eqb (cm_algo m) CDR_ALGO) then Err (BadAlgo (cm_algo m))
  else if negb (length (cm_file_hash m) =? HASH_LEN)%nat then Err (BadFileHash (length (cm_file_hash m)))
  else
    let? cursor := validate_chunks 0 0 (cm_chunks m) in
    if negb (cursor =? cm_size m) then Err (BadSize cursor (cm_size m)) else Ok tt.

Definition vec_to_hash (v : bytes) : result CdrError Blake3Hash :=
  if negb (length v =? HASH_LEN)%nat then Err (BadDigest (length v)) else Ok v.

Fixpoint to_chunks (l : list CdrChunkRef) : result CdrError (list ChunkRef) :=
  match l with
  | [] => Ok []
  | c :: l =>
      let? h := vec_to_hash (cc_hash c) in
      let? rest := to_chunks l in
      Ok ({| c_hash := h; c_offset := cc_offset c; c_len := cc_len c; c_codec := cc_codec c |} :: rest)
  end.

Definition to_manifest (m : CdrManifest) : result CdrError Manifest :=
  let? _ := validate m in
  let? chunks := to_chunks (cm_chunks m) in
  let? h := vec_to_hash (cm_file_hash m) in
  Ok {| file_hash := h; m_size := cm_size m; m_chunks := chunks |}.

(** ** Over the repository *)

Section repo.
Context {TC TM TS TN TQ : Type} {kle : bytes -> bytes -> Prop}.
Context {TBC : Table bytes bytes TC kle} {TBM : Table string bytes TM String.le}.
Context {TBS : Table string bytes TS String.le}.
Context {TBN : Table Z bytes TN Z.le} {TBQ : Table string Z TQ String.le}.
Context {CM : Codec Manifest bytes} {CS : Codec Snapshot bytes} {CU : Codec UnifiedSnapshot bytes}.
Context {B3 : Blake3} {ZS : Zstd} {EN : ChunkWorld}.
#[local] Abbreviation RM := (@RM TC TM TS TN TQ).

Definition diff_snapshots (from to : Z) : RM SnapshotDiff :=
  let! a := snapshot from in
  let! a := rlift (ok_or a (SnapshotNotFound from)) in
  let! b := snapshot to in
  let! b := rlift (ok_or b (SnapshotNotFound to)) in
  ret {| sd_from_id := from; sd_to_id := to; sd_files := sd_files (diff_of a b); sd_added := sd_added (diff_of a b);
         sd_removed := sd_removed (diff_of a b); sd_modified := sd_modified (diff_of a b);
         sd_unchanged := sd_unchanged (diff_of a b); sd_bytes_added := sd_bytes_added (diff_of a b) |}.

Definition report (top_n : nat) : RM RepoReport :=
  let! stats := stats_repo in
  let! snaps := load_all_snapshots in
  ret (report_of stats snaps top_n).
End repo.

(** * Differences, reports and exchanged manifests are what they say

    The bytes a difference counts are what the second snapshot adds to the
    bytes the repository keeps ([diff_is_exact]); the numbers of a report are
    those of the catalog ([report_is_exact]); a manifest survives the exchange
    form, and only tilings of a file are accepted ([cdr_round_trip]). *)

(** ** Sums *)

Definition zsum (l : list Z) : Z := foldr Z.add 0 l.

Lemma wrap64_add_r x y : wrap64 (x + wrap64 y) = wrap64 (x + y).
Proof. unfold wrap64. by rewrite Zplus_mod_idemp_r. Qed.

Lemma sum64_zsum l : sum64 l = wrap64 (zsum l).
Proof. induction l as [|x l IH]; [done|]. cbn [sum64 foldr zsum]. fold (sum64 l) (zsum l). by rewrite IH, wrap64_add_r. Qed.

Lemma zsum_app l k : zsum (l ++ k) = zsum l + zsum k.
Proof. induction l as [|x l IH]; [done|]. cbn. fold (zsum (l ++ k)) (zsum l). lia. Qed.

#[export] Instance zsum_perm : Proper ((≡ₚ) ==> (=)) zsum.
Proof. intros l k H. unfold zsum. induction H; cbn; lia. Qed.

#[export] Instance sum64_perm : Proper ((≡ₚ) ==> (=)) sum64.
Proof. intros l k H. by rewrite !sum64_zsum, H. Qed.

Lemma sum64_snoc l x : sum64 (l ++ [x]) = wrap64 (sum64 l + x).
Proof. rewrite !sum64_zsum, zsum_app, (Z.add_comm (wrap64 _)), wrap64_add_r. cbn. f_equal. lia. Qed.

(** ** Distinct chunks *)

Definition ulens (cs : list ChunkRef) : gmap Blake3Hash Z :=
  foldl (fun m c => match m !! c_hash c with Some _ => m | None => <[c_hash c := c_len c]> m end) ∅ cs.

(** What storing the chunks once takes. *)
Definition cost (cs : list ChunkRef) : Z := sum64 (map_to_list (ulens cs)).*2.

Lemma ulens_snoc cs c : ulens (cs ++ [c]) = match ulens cs !! c_hash c with Some _ => ulens cs | None => <[c_hash c := c_len c]> (ulens cs) end.
Proof. unfold ulens. by rewrite foldl_app. Qed.

Lemma ulens_dom cs : dom (ulens cs) = list_to_set (c_hash <$> cs) :> gset Blake3Hash.
Proof.
  induction cs as [|c cs IH] using rev_ind; [by vm_compute|]. rewrite ulens_snoc, fmap_app, list_to_set_app_L, <- IH. cbn [fmap list_fmap list_to_set].
  destruct (ulens cs !! c_hash c) eqn:E; [apply elem_of_dom_2 in E; set_solver|]. rewrite dom_insert_L. set_solver.
Qed.

Lemma ulens_is_Some cs h : is_Some (ulens cs !! h) <-> h ∈ (list_to_set (c_hash <$> cs) : gset Blake3Hash).
Proof. by rewrite <- ulens_dom, elem_of_dom. Qed.

Lemma cost_snoc cs c : cost (cs ++ [c]) = if bool_decide (c_hash c ∈ (list_to_set (c_hash <$> cs) : gset Blake3Hash)) then cost cs else wrap64 (cost cs + c_len c).
Proof.
  unfold cost. rewrite ulens_snoc. case_bool_decide as H.
  - apply ulens_is_Some in H as [n ->]. done.
  - rewrite <- ulens_is_Some in H. apply eq_None_not_Some in H. rewrite H, map_to_list_insert by done. cbn [fmap list_fmap snd sum64 foldr].
    by rewrite Z.add_comm.
Qed.

Lemma tally_chunks cs : foldl tally_chunk (∅, 0) cs = (list_to_set (c_hash <$> cs), cost cs).
Proof.
  induction cs as [|c cs IH] using rev_ind; [by vm_compute|]. rewrite foldl_app, IH, cost_snoc, fmap_app, list_to_set_app_L.
  cbn [foldl fmap list_fmap list_to_set]. unfold tally_chunk. cbn [fst snd]. case_bool_decide as H; f_equal; set_solver.
Qed.

(** What [to] adds to what [from] takes. *)
Lemma to_only_costs from_cs cs :
  let a := foldl (to_only_step (list_to_set (c_hash <$> from_cs))) (∅, 0) cs in
  (forall h, h ∈ a.1 <-> h ∈ c_hash <$> cs /\ h ∉ c_hash <$> from_cs) /\ cost (from_cs ++ cs) = wrap64 (cost from_cs + a.2).
Proof.
  induction cs as [|c cs IH] using rev_ind.
  - cbn. rewrite app_nil_r, Z.add_0_r. split; [set_solver|]. unfold cost. rewrite sum64_zsum. unfold wrap64. by rewrite Zmod_mod.
  - rewrite foldl_app, app_assoc, cost_snoc. cbn [foldl]. destruct (foldl _ _ cs) as [seen n]. cbn [fst snd] in *. destruct IH as [H1 H2].
    unfold to_only_step at 1 2. cbn [fst snd]. rewrite (fmap_app _ from_cs cs), list_to_set_app_L, H2.
    destruct (bool_decide_reflect (c_hash c ∈ (list_to_set (c_hash <$> from_cs) : gset Blake3Hash))) as [Hf|Hf]; cbn [orb];
      [|destruct (bool_decide_reflect (c_hash c ∈ seen)) as [Hs|Hs]]; cbn [fst snd].
    + rewrite bool_decide_true by set_solver. split; [|done]. intros h. rewrite H1, fmap_app. set_solver.
    + rewrite bool_decide_true by (apply H1 in Hs as [Hs _]; set_solver). split; [|done]. intros h. rewrite H1, fmap_app. set_solver.
    + rewrite bool_decide_false by (rewrite H1 in Hs; set_solver). split; [intros h; rewrite elem_of_union, H1, fmap_app; set_solver|].
      by rewrite wrap64_add_r, (Z.add_comm (wrap64 _)), wrap64_add_r, (Z.add_comm (c_len c)), Z.add_assoc.
Qed.

(** Chunks of one digest have one length. *)
Definition sized (cs : list ChunkRef) : Prop := forall a b, a ∈ cs -> b ∈ cs -> c_hash a = c_hash b -> c_len a = c_len b.

Lemma ulens_from cs h n : ulens cs !! h = Some n -> exists c, c ∈ cs /\ c_hash c = h /\ c_len c = n.
Proof.
  induction cs as [|c cs IH] using rev_ind; [done|]. rewrite ulens_snoc. intros H.
  assert (Hc : ulens cs !! h = Some n \/ (c_hash c = h /\ c_len c = n)).
  { destruct (ulens cs !! c_hash c); [by left|]. apply lookup_insert_Some in H as [[??]|[_ ?]]; [by right|by left]. }
  destruct Hc as [(x & ? & ?)%IH|Hc]; [exists x|exists c]; (split; [apply elem_of_app|done]); [by left|right; by left].
Qed.

Lemma cost_perm cs cs' : sized cs -> cs ≡ₚ cs' -> cost cs = cost cs'.
Proof.
  intros Hs Hp. unfold cost. f_equal. do 2 f_equal. apply map_eq. intros h. apply option_eq. intros n.
  assert (Hgo : forall l k, sized l -> l ≡ₚ k -> ulens l !! h = Some n -> ulens k !! h = Some n).
  { clear. intros l k Hs Hp H. destruct (ulens_from _ _ _ H) as (c & Hc & <- & <-).
    assert (Hk : is_Some (ulens k !! c_hash c)) by (apply ulens_is_Some; rewrite <- Hp; set_solver).
    destruct Hk as [m Hm]. rewrite Hm. destruct (ulens_from _ _ _ Hm) as (d & Hd & E & <-). f_equal. apply Hs; [by rewrite Hp|done|done]. }
  split; apply Hgo; [done|done| |by symmetry]. intros a b. rewrite <- !Hp. apply Hs.
Qed.

Lemma distinct_chunks_refs s : distinct_chunks s = list_to_set (c_hash <$> snap_refs s).
Proof. done. Qed.

(** ** The tally of a report *)

Definition tally (l : list Snapshot) : Tally := foldl tally_snapshot no_tally l.

Definition refs_of (l : list Snapshot) : list ChunkRef := l ≫= snap_refs.

Definition entries_of (l : list Snapshot) : list FileEntry := l ≫= sn_files.

Definition of_kind (k : SnapshotKind) (l : list Snapshot) : list Snapshot := filter (fun s => sn_kind s = k) l.

Definition of_path (p : string) (l : list FileEntry) : list FileEntry := filter (fun f => fe_path f = p) l.

Definition max_size (l : list FileEntry) : Z := foldr (fun f a => Z.max a (m_size (fe_manifest f))) 0 l.

(** A count with a sum, where there is something to count. *)
Definition counted {A B} (f : list A -> B) (l : list A) : option (Z * B) := match l with [] => None | _ => Some (Z.of_nat (length l), f l) end.

Lemma counted_snoc {A B} (f : list A -> B) l x : counted f (l ++ [x]) = Some (Z.of_nat (length l) + 1, f (l ++ [x])).
Proof. unfold counted. rewrite length_app, Nat2Z.inj_add. by destruct l. Qed.

Lemma tally_snoc l s : tally (l ++ [s]) = tally_snapshot (tally l) s.
Proof. unfold tally. by rewrite foldl_app. Qed.

Lemma bind_snoc {A B} (f : A -> list B) l x : (l ++ [x]) ≫= f = (l ≫= f) ++ f x.
Proof. by rewrite bind_app, bind_singleton. Qed.

Lemma tally_seen l : (ta_seen (tally l), ta_bytes (tally l)) = (list_to_set (c_hash <$> refs_of l), cost (refs_of l)).
Proof.
  induction l as [|s l IH] using rev_ind; [by vm_compute|]. rewrite tally_snoc. unfold tally_snapshot, refs_of. rewrite bind_snoc.
  destruct (default _ _). rewrite <- tally_chunks, foldl_app, tally_chunks. fold (refs_of l). rewrite <- IH. by destruct (foldl tally_chunk _ _).
Qed.

Lemma tally_count l : ta_count (tally l) = Z.of_nat (length l).
Proof.
  induction l as [|s l IH] using rev_ind; [done|]. rewrite tally_snoc, length_app. unfold tally_snapshot.
  destruct (default _ _), (foldl tally_chunk _ _). cbn [ta_count length]. rewrite IH. lia.
Qed.

Lemma tally_kinds l k : ta_kinds (tally l) k = counted (fun l => sum64 (total_size <$> l)) (of_kind k l).
Proof.
  induction l as [|s l IH] using rev_ind; [done|]. rewrite tally_snoc. unfold of_kind. rewrite filter_app, filter_cons, filter_nil. unfold tally_snapshot.
  destruct (decide (sn_kind s = k)) as [<-|Hk].
  - rewrite counted_snoc, IH. cbv beta. rewrite fmap_app. cbn [fmap list_fmap]. rewrite sum64_snoc. fold (of_kind (sn_kind s) l). unfold counted.
    destruct (of_kind (sn_kind s) l); cbn [from_option id]; destruct (foldl tally_chunk _ _); cbn [ta_kinds]; by rewrite decide_True by done.
  - rewrite app_nil_r. fold (of_kind k l). rewrite <- IH. destruct (default _ _), (foldl tally_chunk _ _). cbn [ta_kinds]. by rewrite decide_False by congruence.
Qed.

Lemma max_size_snoc l f : max_size (l ++ [f]) = Z.max (max_size l) (Z.max 0 (m_size (fe_manifest f))).
Proof. unfold max_size. induction l as [|x l IH]; cbn -[Z.max] in *; lia. Qed.

Lemma max_size_nonneg l : 0 <= max_size l.
Proof. unfold max_size. induction l as [|x l IH]; cbn -[Z.max] in *; lia. Qed.

Lemma tally_paths fs p : foldl tally_path ∅ fs !! p = counted max_size (of_path p fs).
Proof.
  induction fs as [|f fs IH] using rev_ind; [done|]. rewrite foldl_app. cbn [foldl]. unfold of_path. rewrite filter_app, filter_cons, filter_nil.
  fold (of_path p fs). unfold tally_path at 1. destruct (decide (fe_path f = p)) as [E|E].
  - rewrite E, IH, counted_snoc. unfold counted. rewrite max_size_snoc.
    pose proof (max_size_nonneg (of_path p fs)) as Hp.
    destruct (of_path p fs) as [|x l]; cbn [from_option id]; rewrite lookup_insert_eq; f_equal; f_equal; cbn -[Z.max] in *; lia.
  - rewrite app_nil_r. destruct (default _ _). by rewrite lookup_insert_ne.
Qed.

Lemma tally_files l p : ta_files (tally l) !! p = counted max_size (of_path p (entries_of l)).
Proof.
  rewrite <- tally_paths. f_equal. induction l as [|s l IH] using rev_ind; [done|]. rewrite tally_snoc. unfold entries_of. rewrite bind_snoc, foldl_app.
  fold (entries_of l). rewrite <- IH. unfold tally_snapshot. by destruct (default _ _), (foldl tally_chunk _ _).
Qed.

(** ** Growth *)

Definition upto (d : Z) (l : list Snapshot) : list Snapshot := filter (fun s => day_floor s <= d) l.

(** What a point of the curve should say. *)
Definition point_of (l : list Snapshot) (d : Z) : GrowthPoint :=
  {| gp_ts_ms := d; gp_cumulative_unique_bytes := cost (refs_of (upto d l)); gp_snapshot_count := Z.of_nat (length (upto d l)) |}.

Lemma put_point_snoc p l q : put_point p (l ++ [q]) = if gp_ts_ms q =? gp_ts_ms p then l ++ [p] else l ++ [q; p].
Proof.
  induction l as [|x l IH]; [done|]. cbn [app put_point]. rewrite IH. destruct (l ++ [q]) eqn:E; [by destruct l|]. by destruct (_ =? _).
Qed.

Lemma upto_snoc d l s : upto d (l ++ [s]) = if decide (day_floor s <= d) then upto d l ++ [s] else upto d l.
Proof. unfold upto. rewrite filter_app, filter_cons, filter_nil. destruct (decide _); [done|]. by rewrite app_nil_r. Qed.

Lemma upto_all d l : Forall (fun s => day_floor s <= d) l -> upto d l = l.
Proof. induction 1 as [|s l H _ IH]; [done|]. unfold upto in *. rewrite filter_cons, decide_True by done. by rewrite IH. Qed.

Lemma tally_growth l : StronglySorted (fun a b => day_floor a <= day_floor b) l ->
  exists ds, ta_growth (tally l) = point_of l <$> ds /\ StronglySorted Z.lt ds /\ forall d, d ∈ ds <-> exists s, s ∈ l /\ day_floor s = d.
Proof.
  induction l as [|s l IH] using rev_ind; [exists []; split_and!; [done|constructor|set_solver]|]. intros Hs.
  apply StronglySorted_app in Hs as (Hmax & Hl & _). destruct (IH Hl) as (ds & Eg & Hsort & Hds). clear IH.
  assert (Hday : Forall (fun x => day_floor x <= day_floor s) (l ++ [s])).
  { apply Forall_app. split; [|by constructor]. apply Forall_forall. intros x Hx. apply (Hmax x s Hx). by left. }
  assert (Enew : point_of (l ++ [s]) (day_floor s) = {| gp_ts_ms := day_floor s; gp_cumulative_unique_bytes := ta_bytes (tally (l ++ [s])); gp_snapshot_count := ta_count (tally (l ++ [s])) |}).
  { unfold point_of. rewrite upto_all by done. rewrite tally_count. pose proof (tally_seen (l ++ [s])) as E. by injection E as _ ->. }
  assert (Eput : ta_growth (tally (l ++ [s])) = put_point (point_of (l ++ [s]) (day_floor s)) (ta_growth (tally l))).
  { rewrite Enew, tally_snoc. unfold tally_snapshot. by destruct (default _ _), (foldl tally_chunk _ _). }
  assert (Hold : forall d, d < day_floor s -> point_of (l ++ [s]) d = point_of l d).
  { intros d Hd. unfold point_of. rewrite upto_snoc, decide_False by lia. done. }
  assert (Hle : forall d, d ∈ ds -> d <= day_floor s).
  { intros d (x & Hx & <-)%Hds. rewrite Forall_app, Forall_forall in Hday. by apply Hday. }
  rewrite Eput, Eg. destruct ds as [|d ds _] using rev_ind.
  - exists [day_floor s]. split_and!; [done|by repeat constructor|]. intros d. rewrite list_elem_of_singleton. split.
    + intros ->. exists s. set_solver.
    + intros (x & [Hx|Hx%list_elem_of_singleton]%elem_of_app & <-); [|by subst x]. exfalso. apply (not_elem_of_nil (day_floor x)), Hds. eauto.
  - apply StronglySorted_app in Hsort as (Hlt & Hsort & _).
    assert (Hkeep : point_of (l ++ [s]) <$> ds = point_of l <$> ds).
    { apply list_fmap_ext. intros i x Hx. apply Hold. apply list_elem_of_lookup_2 in Hx.
      assert (x < d) by (apply Hlt; [done|by left]). assert (d <= day_floor s) by (apply Hle; set_solver). lia. }
    rewrite fmap_app. cbn [fmap list_fmap]. rewrite put_point_snoc. cbn [gp_ts_ms point_of]. destruct (Z.eqb_spec d (day_floor s)) as [E|E].
    + exists (ds ++ [d]). split_and!.
      * rewrite fmap_app, Hkeep. cbn [fmap list_fmap]. by rewrite E.
      * apply StronglySorted_app_2; [done|done|by repeat constructor].
      * intros x. rewrite Hds. split; [intros (y & ? & ?); exists y; set_solver|]. intros (y & [Hy|Hy%list_elem_of_singleton]%elem_of_app & <-); [by exists y|]. subst y.
        rewrite <- E. apply Hds. set_solver.
    + exists (ds ++ [d; day_floor s]). assert (Hd : d < day_floor s) by (assert (d <= day_floor s) by (apply Hle; set_solver); lia). split_and!.
      * rewrite fmap_app, Hkeep. cbn [fmap list_fmap]. by rewrite (Hold d Hd).
      * apply StronglySorted_app_2; [|done|by repeat constructor]. intros x y Hx [->|[->|?%elem_of_nil]%elem_of_cons]%elem_of_cons; [apply Hlt; [done|by left]| |done].
        assert (x < d) by (apply Hlt; [done|by left]). lia.
      * intros x. split.
        -- intros [Hx|[->|[->|?%elem_of_nil]%elem_of_cons]%elem_of_cons]%elem_of_app; [..|done].
           ++ assert (Hx' : x ∈ ds ++ [d]) by set_solver. apply Hds in Hx' as (y & ? & ?). exists y. set_solver.
           ++ assert (Hx' : d ∈ ds ++ [d]) by set_solver. apply Hds in Hx' as (y & ? & ?). exists y. set_solver.
           ++ exists s. set_solver.
        -- intros (y & [Hy|Hy%list_elem_of_singleton]%elem_of_app & <-); [|subst y; set_solver].
           assert (Hx : day_floor y ∈ ds ++ [d]) by (apply Hds; eauto). set_solver.
Qed.

(** ** Differences *)

Lemma elem_of_files_of s p : is_Some (files_of s !! p) <-> p ∈ fe_path <$> sn_files s.
Proof.
  unfold files_of. induction (sn_files s) as [|f l IH] using rev_ind; [split; [by intros [? ?]|by intros ?%elem_of_nil]|].
  rewrite foldl_app, fmap_app, elem_of_app. cbn [foldl fmap list_fmap]. rewrite list_elem_of_singleton, <- IH.
  destruct (decide (fe_path f = p)) as [<-|H]; [rewrite lookup_insert_eq|rewrite lookup_insert_ne by done]; naive_solver.
Qed.

(** What a difference says of one file. *)
Definition says (a b : Snapshot) (d : FileDiff) : Prop :=
  let old := files_of a !! fd_path d in
  let new := files_of b !! fd_path d in
  fd_old_size d = m_size <$> old /\ fd_new_size d = m_size <$> new /\
  match fd_change d with
  | Added => old = None /\ exists m, new = Some m /\ fd_bytes_added d = sum64 (c_len <$> changed_chunks (distinct_chunks a) m) /\
      fd_chunks_shared d + fd_chunks_changed d = Z.of_nat (length (m_chunks m))
  | Removed => new = None /\ is_Some old /\ fd_bytes_added d = 0
  | Unchanged => (exists m m', old = Some m /\ new = Some m' /\ file_hash m = file_hash m') /\ fd_bytes_added d = 0
  | Modified => exists m m', old = Some m /\ new = Some m' /\ file_hash m <> file_hash m' /\
      fd_bytes_added d = sum64 (c_len <$> changed_chunks (distinct_chunks a) m') /\
      fd_chunks_shared d + fd_chunks_changed d = Z.of_nat (length (m_chunks m'))
  end.

Lemma file_diff_says a b p d : file_diff (distinct_chunks a) p (files_of a !! p) (files_of b !! p) = Some d -> fd_path d = p /\ says a b d.
Proof.
  unfold file_diff, says. assert (Hle : forall m, (length (changed_chunks (distinct_chunks a) m) <= length (m_chunks m))%nat) by (intros; apply length_filter).
  destruct (files_of a !! p) as [m|] eqn:E1, (files_of b !! p) as [m'|] eqn:E2; try done.
  - case_bool_decide; intros [= <-]; cbn; rewrite E1, E2; split_and!; eauto.
    exists m, m'. split_and!; [done..|]. specialize (Hle m'). lia.
  - intros [= <-]. cbn. rewrite E1, E2. split_and!; eauto.
  - intros [= <-]. cbn. rewrite E1, E2. split_and!; eauto. exists m'. split_and!; [done..|]. specialize (Hle m'). lia.
Qed.

Definition diff_paths (a b : Snapshot) : list string := merge_sort String.le (elements (dom (files_of a) ∪ dom (files_of b))).

Lemma elem_of_diff_paths a b p : p ∈ diff_paths a b <-> p ∈ fe_path <$> sn_files a \/ p ∈ fe_path <$> sn_files b.
Proof. unfold diff_paths. by rewrite merge_sort_Permutation, elem_of_elements, elem_of_union, !elem_of_dom, !elem_of_files_of. Qed.

(** Every path gives one entry. *)
Lemma diff_files_paths a b : fd_path <$> sd_files (diff_of a b) = diff_paths a b.
Proof.
  cbn [sd_files diff_of]. fold (diff_paths a b). assert (H : Forall (fun p => p ∈ diff_paths a b) (diff_paths a b)) by (by apply Forall_forall).
  revert H. generalize (diff_paths a b) at 2 3 4 as l. induction l as [|p l IH]; intros H; [done|]. apply Forall_cons in H as [Hp H]. cbn [omap list_omap].
  destruct (file_diff _ p _ _) as [d|] eqn:E; [apply file_diff_says in E as [E _]; rewrite fmap_cons, E; f_equal; by apply IH|]. exfalso.
  apply elem_of_diff_paths in Hp. unfold file_diff in E. rewrite <- !elem_of_files_of in Hp.
  destruct (files_of a !! p), (files_of b !! p); try done; [by case_bool_decide|]. by destruct Hp as [[? ?]|[? ?]].
Qed.

Lemma diff_files_say a b d : d ∈ sd_files (diff_of a b) -> says a b d.
Proof. cbn [sd_files diff_of]. intros (p & _ & H)%list_elem_of_omap. by apply file_diff_says in H as [_ H]. Qed.

Lemma changes_add l : changes Added l + changes Removed l + changes Modified l + changes Unchanged l = Z.of_nat (length l).
Proof.
  unfold changes. induction l as [|d l IH]; [done|]. rewrite !filter_cons. cbn [length].
  destruct (fd_change d); repeat first [rewrite decide_True by done|rewrite decide_False by done]; cbn [length]; lia.
Qed.

Lemma changes_all k l : Forall (fun d => fd_change d = k) l -> changes k l = Z.of_nat (length l).
Proof. intros H. unfold changes. f_equal. induction H as [|d l Hd _ IH]; [done|]. rewrite filter_cons, decide_True by done. cbn [length]. by rewrite IH. Qed.

(** The number a repository would report as its unique bytes. *)
Definition unique_of (snaps : list Snapshot) : Z := sum64 (map_to_list (unique_lens snaps)).*2.

Lemma unique_of_cost snaps : unique_of snaps = cost (refs_of snaps).
Proof. done. Qed.

Lemma diff_costs a b : unique_of [a; b] = wrap64 (unique_of [a] + sd_bytes_added (diff_of a b)).
Proof.
  rewrite !unique_of_cost. unfold refs_of. cbn [mbind list_bind]. rewrite !app_nil_r.
  pose proof (to_only_costs (snap_refs a) (snap_refs b)) as [_ H]. rewrite H. done.
Qed.

Lemma diff_with_itself a : Forall (fun d => fd_change d = Unchanged) (sd_files (diff_of a a)) /\ sd_bytes_added (diff_of a a) = 0.
Proof.
  split.
  - apply Forall_forall. intros d (_ & _ & H)%diff_files_say. destruct (fd_change d); [..|done].
    + destruct H as (-> & m & ? & _). done.
    + destruct H as (-> & [? ?] & _). done.
    + destruct H as (m & m' & -> & [= ->] & ? & _). done.
  - cbn [sd_bytes_added diff_of]. rewrite distinct_chunks_refs.
    assert (H : forall l, Forall (fun c => c ∈ snap_refs a) l -> foldl (to_only_step (list_to_set (c_hash <$> snap_refs a))) (∅, 0) l = (∅, 0)).
    { intros l. induction l as [|c l IH] using rev_ind; [done|]. intros [Hl Hc]%Forall_app. rewrite foldl_app, (IH Hl). cbn [foldl]. unfold to_only_step.
      apply Forall_cons in Hc as [Hc _]. rewrite bool_decide_true; [done|]. apply elem_of_list_to_set. by apply list_elem_of_fmap_2. }
    rewrite H; [done|]. by apply Forall_forall.
Qed.

(** ** Reports *)

Lemma recorded_before_total a b : recorded_before a b = true \/ recorded_before b a = true.
Proof. unfold recorded_before. rewrite !orb_true_iff, !andb_true_iff, !Z.ltb_lt, !Z.leb_le, !Z.eqb_eq. lia. Qed.

Lemma recorded_before_trans a b c : recorded_before a b = true -> recorded_before b c = true -> recorded_before a c = true.
Proof. unfold recorded_before. rewrite !orb_true_iff, !andb_true_iff, !Z.ltb_lt, !Z.leb_le, !Z.eqb_eq. lia. Qed.

Lemma more_versions_total a b : more_versions a b = true \/ more_versions b a = true.
Proof.
  unfold more_versions. rewrite !orb_true_iff, !andb_true_iff, !orb_true_iff, !andb_true_iff, !Z.ltb_lt, !Z.eqb_eq, !bool_decide_eq_true.
  destruct (total String.le (tf_path a) (tf_path b)), (Z.lt_trichotomy (tf_versions a) (tf_versions b)) as [?|[?|?]],
    (Z.lt_trichotomy (tf_max_size a) (tf_max_size b)) as [?|[?|?]]; auto 8.
Qed.

Lemma more_versions_trans a b c : more_versions a b = true -> more_versions b c = true -> more_versions a c = true.
Proof.
  unfold more_versions. rewrite !orb_true_iff, !andb_true_iff, !orb_true_iff, !andb_true_iff, !Z.ltb_lt, !Z.eqb_eq, !bool_decide_eq_true.
  pose proof (transitivity (R := String.le) (x := tf_path a) (y := tf_path b) (z := tf_path c)). intuition lia.
Qed.

Lemma sorted_by_day l : StronglySorted (fun a b => day_floor a <= day_floor b) (sort_by recorded_before l).
Proof.
  pose proof (sort_by_sorted _ recorded_before_trans recorded_before_total l) as Hs. revert Hs. generalize (sort_by recorded_before l) as k. clear l.
  induction 1 as [|a k _ IH Ha]; constructor; [done|]. eapply Forall_impl; [exact Ha|]. intros b H.
  unfold recorded_before in H. rewrite orb_true_iff, andb_true_iff, Z.ltb_lt, Z.leb_le, Z.eqb_eq in H.
  unfold day_floor, MS_PER_DAY. apply Z.mul_le_mono_nonneg_r; [done|]. apply Z.div_le_mono; lia.
Qed.

(** What a report should say of a catalog. *)
Record faithful_report (snaps : list Snapshot) (top_n : nat) (rep : RepoReport) : Prop := {
  fr_kinds : forall kb, kb ∈ rp_by_kind rep <-> of_kind (kb_kind kb) snaps <> [] /\
    kb_count kb = Z.of_nat (length (of_kind (kb_kind kb) snaps)) /\ kb_effective_bytes kb = sum64 (total_size <$> of_kind (kb_kind kb) snaps);
  fr_kinds_sum : zsum (kb_count <$> rp_by_kind rep) = Z.of_nat (length snaps);
  fr_growth : exists ds, rp_growth rep = point_of snaps <$> ds /\ StronglySorted Z.lt ds /\ forall d, d ∈ ds <-> exists s, s ∈ snaps /\ day_floor s = d;
  fr_top : exists rest, StronglySorted (fun a b => more_versions a b = true) (rp_top_files rep ++ rest) /\
    (length (rp_top_files rep) = top_n \/ (rest = [] /\ (length (rp_top_files rep) <= top_n)%nat)) /\
    NoDup (tf_path <$> rp_top_files rep ++ rest) /\
    forall tf, tf ∈ rp_top_files rep ++ rest <-> of_path (tf_path tf) (entries_of snaps) <> [] /\
      tf_versions tf = Z.of_nat (length (of_path (tf_path tf) (entries_of snaps))) /\ tf_max_size tf = max_size (of_path (tf_path tf) (entries_of snaps))
}.

#[export] Instance of_kind_perm k : Proper ((≡ₚ) ==> (≡ₚ)) (of_kind k).
Proof. intros l l' H. unfold of_kind. by rewrite H. Qed.

Lemma max_size_perm l l' : l ≡ₚ l' -> max_size l = max_size l'.
Proof. unfold max_size. induction 1; cbn -[Z.max]; lia. Qed.

Lemma counted_perm {A B} (f : list A -> B) l l' : l ≡ₚ l' -> f l = f l' -> counted f l = counted f l'.
Proof.
  intros H E. unfold counted. rewrite <- E, (Permutation_length H). destruct l, l'; [done|..|done]; by apply Permutation_length in H.
Qed.

Lemma point_of_perm l l' d : sized (refs_of l) -> l ≡ₚ l' -> point_of l d = point_of l' d.
Proof.
  intros Hs H. unfold point_of. assert (Hu : upto d l ≡ₚ upto d l') by (unfold upto; by rewrite H). f_equal; [|by rewrite Hu].
  apply cost_perm; [|unfold refs_of; by rewrite Hu]. intros a b (x & Ha & [_ Hx]%list_elem_of_filter)%list_elem_of_bind (y & Hb & [_ Hy]%list_elem_of_filter)%list_elem_of_bind.
  apply Hs; apply list_elem_of_bind; eauto.
Qed.

Lemma counted_Some {A B} (f : list A -> B) l n b : counted f l = Some (n, b) <-> l <> [] /\ n = Z.of_nat (length l) /\ b = f l.
Proof. unfold counted. destruct l; [naive_solver|]. split; [by intros [= <- <-]|by intros (_ & -> & ->)]. Qed.

Lemma kinds_add l : zsum ((fun k => Z.of_nat (length (of_kind k l))) <$> kinds_by_name) = Z.of_nat (length l).
Proof.
  unfold kinds_by_name, of_kind. induction l as [|s l IH]; [done|]. cbn [fmap list_fmap zsum foldr] in *. rewrite !filter_cons. cbn [length].
  destruct (sn_kind s); repeat first [rewrite decide_True by done|rewrite decide_False by done]; cbn [length]; lia.
Qed.

Lemma kinds_counted (f : SnapshotKind -> option (Z * Z)) ks :
  zsum (kb_count <$> omap (fun k => (fun ne => {| kb_kind := k; kb_count := ne.1; kb_effective_bytes := ne.2 |}) <$> f k) ks) =
  zsum ((fun k => default 0 (fst <$> f k)) <$> ks).
Proof. induction ks as [|k ks IH]; [done|]. cbn [omap list_omap]. destruct (f k) as [[n e]|] eqn:E; cbn; rewrite E; cbn; unfold zsum in IH; by rewrite IH. Qed.

Lemma report_of_faithful stats snaps top_n : sized (refs_of snaps) -> faithful_report snaps top_n (report_of stats snaps top_n).
Proof.
  intros Hs. unfold report_of. fold (tally (sort_by recorded_before snaps)). set (l := sort_by recorded_before snaps).
  assert (Hp : l ≡ₚ snaps) by apply sort_by_perm.
  assert (Hkinds : forall k, ta_kinds (tally l) k = counted (fun l => sum64 (total_size <$> l)) (of_kind k snaps)).
  { intros k. rewrite tally_kinds. apply counted_perm; [|cbv beta]; by rewrite Hp. }
  assert (Hfiles : forall p, ta_files (tally l) !! p = counted max_size (of_path p (entries_of snaps))).
  { intros p. rewrite tally_files. assert (H : of_path p (entries_of l) ≡ₚ of_path p (entries_of snaps)) by (unfold of_path, entries_of; by rewrite Hp).
    apply counted_perm; [done|by apply max_size_perm]. }
  split.
  - intros kb. cbn [rp_by_kind]. rewrite list_elem_of_omap. split.
    + intros (k & _ & H). rewrite Hkinds in H. destruct (counted _ _) as [[n e]|] eqn:E; [|done]. injection H as <-. by apply counted_Some in E.
    + intros H. exists (kb_kind kb). split; [by destruct (kb_kind kb); repeat constructor|]. rewrite Hkinds, (proj2 (counted_Some _ _ _ _) H). by destruct kb.
  - cbn [rp_by_kind]. rewrite <- kinds_add, kinds_counted. f_equal. apply list_fmap_ext. intros i k _. rewrite Hkinds. unfold counted. by destruct (of_kind k snaps).
  - cbn [rp_growth]. destruct (tally_growth l (sorted_by_day snaps)) as (ds & -> & Hsort & Hds). exists ds. split_and!; [|done|].
    + apply list_fmap_ext. intros i d _. symmetry. by apply point_of_perm.
    + intros d. rewrite Hds. unfold l. by setoid_rewrite elem_of_sort_by.
  - cbn [rp_top_files]. set (top := sort_by more_versions _). exists (drop top_n top). rewrite take_drop. split_and!.
    + apply (sort_by_sorted _ more_versions_trans more_versions_total).
    + destruct (decide (top_n <= length top)%nat); [left; rewrite length_take; lia|right; rewrite length_take; split; [apply drop_ge|]; lia].
    + unfold top. rewrite sort_by_perm, <- list_fmap_compose. apply (NoDup_fst_map_to_list (ta_files (tally l))).
    + intros tf. unfold top. rewrite elem_of_sort_by, list_elem_of_fmap, <- counted_Some, <- Hfiles. split.
      * intros ([p [n m]] & -> & H%elem_of_map_to_list). done.
      * intros H. exists (tf_path tf, (tf_versions tf, tf_max_size tf)). split; [by destruct tf|by apply elem_of_map_to_list].
Qed.

(** ** The exchange form *)

(** What a manifest has to be to be exchanged: digests of 32 bytes, and
    chunks that tile the file from its beginning to its size. *)
Record exchangeable (m : Manifest) : Prop := {
  ex_file : length (file_hash m) = HASH_LEN;
  ex_chunks : Forall (fun c => length (c_hash c) = HASH_LEN) (m_chunks m);
  ex_tiling : forall i c, m_chunks m !! i = Some c -> c_offset c = wrap64 (zsum (c_len <$> take i (m_chunks m)));
  ex_size : m_size m = wrap64 (zsum (c_len <$> m_chunks m))
}.

Definition cdr_ref (c : ChunkRef) : CdrChunkRef := {| cc_hash := c_hash c; cc_offset := c_offset c; cc_len := c_len c; cc_codec := c_codec c |}.

Lemma to_chunks_spec l cs : to_chunks l = Ok cs <-> l = cdr_ref <$> cs /\ Forall (fun c => length (c_hash c) = HASH_LEN) cs.
Proof.
  revert cs. induction l as [|c l IH]; intros cs; cbn [to_chunks].
  - split; [by intros [= <-]|]. intros [E _]. by destruct cs.
  - unfold vec_to_hash. destruct (Nat.eqb_spec (length (cc_hash c)) HASH_LEN) as [E|E]; cbn [negb result_bind].
    + destruct (to_chunks l) as [rest|e]; cbn [result_bind].
      * split.
        -- intros [= <-]. destruct (IH rest) as [H _]. destruct (H eq_refl) as [-> ?]. split; [by destruct c|by constructor].
        -- intros [Hl Hf]. destruct cs as [|x cs]; [done|]. rewrite fmap_cons in Hl. injection Hl as -> Hl. apply Forall_cons in Hf as [_ Hf].
           assert (H : Ok rest = Ok cs) by (by apply IH). injection H as ->. by destruct x.
      * split; [done|]. intros [Hl Hf]. destruct cs as [|x cs]; [done|]. rewrite fmap_cons in Hl. injection Hl as -> Hl. apply Forall_cons in Hf as [_ Hf].
        by assert (H : Err e = Ok cs) by (by apply IH).
    + split; [done|]. intros [Hl Hf]. destruct cs as [|x cs]; [done|]. rewrite fmap_cons in Hl. injection Hl as -> Hl. by apply Forall_cons in Hf as [? _].
Qed.

Lemma validate_chunks_spec i n cs k : validate_chunks i (wrap64 n) (cdr_ref <$> cs) = Ok k <->
  Forall (fun c => length (c_hash c) = HASH_LEN) cs /\ (forall j c, cs !! j = Some c -> c_offset c = wrap64 (n + zsum (c_len <$> take j cs))) /\
  k = wrap64 (n + zsum (c_len <$> cs)).
Proof.
  revert i n. induction cs as [|c cs IH]; intros i n; cbn [fmap list_fmap validate_chunks cdr_ref cc_hash cc_offset cc_len zsum foldr].
  - rewrite Z.add_0_r. split; [intros [= <-]; by split_and!; [constructor|intros ? ?|]|]. by intros (_ & _ & ->).
  - rewrite Forall_cons. destruct (Nat.eqb_spec (length (c_hash c)) HASH_LEN) as [Eh|Eh]; cbn [negb]; [|by split; [|intros ((? & _) & _)]].
    destruct (Z.eqb_spec (c_offset c) (wrap64 n)) as [Eo|Eo]; cbn [negb].
    + rewrite (Z.add_comm (wrap64 n)), wrap64_add_r, IH. fold (zsum (c_len <$> cs)). rewrite (Z.add_comm (c_len c) n), <- !Z.add_assoc. split.
      * intros (? & Ht & ->). split_and!; [done|done| |done]. intros [|j] x; cbn [lookup list_lookup take fmap list_fmap]; [intros [= <-]; cbn; by rewrite Z.add_0_r|].
        intros Hx. rewrite (Ht _ _ Hx). cbn. f_equal. fold (zsum (c_len <$> take j cs)). lia.
      * intros ((_ & ?) & Ht & ->). split_and!; [done| |done]. intros j x Hx. rewrite (Ht (S j) x Hx). cbn. f_equal. fold (zsum (c_len <$> take j cs)). lia.
    + split; [done|]. intros (_ & Ht & _). exfalso. apply Eo. rewrite (Ht 0%nat c eq_refl). cbn. by rewrite Z.add_0_r.
Qed.

(** C23: the exchange form is faithful and safe: what [to_manifest] accepts
    is exactly the exchange form of a manifest whose digests have 32 bytes and
    whose chunks tile the file, and it returns that manifest; so exporting and
    importing such a manifest gives it back, and nothing else is accepted. *)
Theorem cdr_round_trip (c : CdrManifest) (m : Manifest) :
  0 <= cm_spec_version c -> to_manifest c = Ok m <-> c = from_manifest m /\ exchangeable m.
Proof.
  intros Hv. unfold to_manifest, validate, ensure_readable, vec_to_hash. destruct c as [v algo fh size l]. cbn [cm_spec_version cm_algo cm_file_hash cm_size cm_chunks] in *.
  assert (Hw : wrap64 0 = 0) by done. split.
  - destruct (Z.ltb_spec CDR_SPEC_VERSION v); [done|]. cbn [result_bind]. destruct (String.eqb_spec algo CDR_ALGO) as [->|]; [|done]. cbn [negb].
    destruct (Nat.eqb_spec (length fh) HASH_LEN) as [Ef|]; [|done]. cbn [negb]. destruct (validate_chunks 0 0 l) as [k|] eqn:Ek; [|done]. cbn [result_bind].
    destruct (Z.eqb_spec k size) as [->|]; [|done]. cbn [negb result_bind]. destruct (to_chunks l) as [cs|] eqn:Ec; [|done]. cbn [result_bind]. intros [= <-].
    apply to_chunks_spec in Ec as [-> Hcs]. rewrite <- Hw in Ek. apply validate_chunks_spec in Ek as (_ & Ht & ->). unfold CDR_SPEC_VERSION in *.
    split; [|by split]. unfold from_manifest. cbn. f_equal. unfold CDR_SPEC_VERSION. lia.
  - intros [[= -> -> -> -> ->] [H1 H2 H3 H4]]. cbn [result_bind Z.ltb Z.compare CDR_SPEC_VERSION]. rewrite String.eqb_refl, H1. cbn [negb Nat.eqb HASH_LEN].
    change (fmap _ (m_chunks m)) with (cdr_ref <$> m_chunks m).
    assert (E : validate_chunks 0 0 (cdr_ref <$> m_chunks m) = Ok (m_size m)) by (rewrite <- Hw, H4; by apply validate_chunks_spec).
    rewrite E. cbn [result_bind]. rewrite Z.eqb_refl. cbn [negb result_bind].
    rewrite (proj2 (to_chunks_spec _ (m_chunks m))) by done. cbn [result_bind]. by destruct m.
Qed.

(** ** Over the repository *)

Lemma bind_Ok {S E A B} (m : SM S E A) (f : A -> SM S E B) s b s' : bind m f s = (Ok b, s') -> exists a s1, m s = (Ok a, s1) /\ f a s1 = (Ok b, s').
Proof. unfold bind. destruct (m s) as [[a|e] s1]; [eauto|done]. Qed.

Section repo.
Context {TC TM TS TN TQ : Type} {kle : bytes -> bytes -> Prop}.
Context {TBC : Table bytes bytes TC kle} {TBM : Table string bytes TM String.le}.
Context {TBS : Table string bytes TS String.le}.
Context {TBN : Table Z bytes TN Z.le} {TBQ : Table string Z TQ String.le}.
Context {CM : Codec Manifest bytes} {CS : Codec Snapshot bytes} {CU : Codec UnifiedSnapshot bytes}.
Context {B3 : Blake3} {ZS : Zstd} {EN : ChunkWorld} {FC : FastCdc}.
Context {ZL : ZstdLaws} {WL : WorldLaws} {FL : FastCdcLaws} {DL : DigestLaws}.
Context (R : Z) (HR : 0 <= R <= 2 ^ 62).
#[local] Abbreviation Repo := (Repo TC TM TS TN TQ).
Implicit Types r : Repo.

Lemma on_store_rows {A} (m : M A) r x r' : on_store m r = (x, r') -> t_snapshots r' = t_snapshots r.
Proof using Type. unfold on_store. destruct (m (store r)). by intros [= _ <-]. Qed.

Lemma load_rows r l r' : load_all_snapshots r = (Ok l, r') -> decode_rows (tbl_iter (t_snapshots r)) = Ok l /\ t_snapshots r' = t_snapshots r.
Proof using Type.
  unfold load_all_snapshots, repo_read. intros (rows & r1 & (u & r0 & H0%on_store_rows & [= <- <-])%bind_Ok & H)%bind_Ok.
  pose proof (on_store_rows _ _ _ _ H) as H'. rewrite H', H0. split; [|done]. rewrite <- H0. unfold rlift, on_store, lift_result in H.
  destruct (decode_rows _); by simplify_eq/=.
Qed.

Lemma stats_rows r st r' snaps : stats_repo r = (Ok st, r') -> decode_rows (tbl_iter (t_snapshots r)) = Ok snaps ->
  t_snapshots r' = t_snapshots r /\ snapshot_count st = Z.of_nat (length snaps) /\ unique_bytes st = unique_of snaps /\
  effective_bytes st = sum64 (total_size <$> snaps).
Proof using Type.
  unfold stats_repo. intros (l & r1 & [Hl E1]%load_rows & (locs & r2 & E2%on_store_rows & (disk & r3 & E3%on_store_rows & (n & r4 & E4%on_store_rows & [= <- <-])%bind_Ok)%bind_Ok)%bind_Ok)%bind_Ok Hs.
  rewrite Hl in Hs. injection Hs as ->. split; [congruence|]. cbn. done.
Qed.

Lemma reachable_rows r : reachable R (Up r) -> decode_rows (tbl_iter (t_snapshots r)) = Ok (snaps_of r).
Proof using HR ZL WL FL DL.
  intros Hr. destruct (reachable_up R HR _ Hr) as [Hw _]. apply catalog_rows_spec.
  intros k v Hv%tbl_iter_get. destruct (rw_rows _ _ Hw _ _ Hv) as (sn & ? & _). eauto.
Qed.

(** In every state a run can reach, a report that is made says exactly
    what is in the catalog: the number of snapshots and the bytes per kind,
    one point of growth per day with a snapshot, with the distinct chunk bytes
    and the snapshots up to that day (so the last one agrees with the
    statistics), and the most-versioned paths with their counts, in order,
    none with more versions left out.  Chunks of one digest are assumed to have
    one length. *)
Theorem report_is_exact (top_n : nat) r rep r' :
  reachable R (Up r) -> sized (refs_of (snaps_of r)) -> report top_n r = (Ok rep, r') ->
  faithful_report (snaps_of r) top_n rep /\
  snapshot_count (rp_stats rep) = Z.of_nat (length (snaps_of r)) /\
  effective_bytes (rp_stats rep) = sum64 (total_size <$> snaps_of r) /\
  (forall p, last (rp_growth rep) = Some p ->
     gp_cumulative_unique_bytes p = unique_bytes (rp_stats rep) /\ gp_snapshot_count p = snapshot_count (rp_stats rep)) /\
  snaps_of r' = snaps_of r.
Proof using HR ZL WL FL DL.
  intros Hr%reachable_rows Hs (st & r1 & Hst & (l & r2 & [Hl E2]%load_rows & [= <- <-])%bind_Ok)%bind_Ok.
  destruct (stats_rows _ _ _ _ Hst Hr) as (E1 & Hn & Hu & He). rewrite E1 in Hl. rewrite Hr in Hl. injection Hl as <-.
  pose proof (report_of_faithful st (snaps_of r) top_n Hs) as F. split; [done|]. split_and!; [done|done| |by unfold snaps_of; rewrite E2, E1].
  destruct (fr_growth _ _ _ F) as (ds & -> & Hsort & Hds). cbn [rp_stats report_of]. intros p. rewrite fmap_last.
  destruct (last ds) as [d|] eqn:El; [|done]. intros [= <-]. cbn [point_of gp_cumulative_unique_bytes gp_snapshot_count].
  rewrite upto_all; [by rewrite Hn, Hu|]. apply Forall_forall. intros s Hin. apply last_Some in El as [ds' ->].
  assert (Hd : day_floor s ∈ ds' ++ [d]) by (apply Hds; eauto). apply StronglySorted_app in Hsort as (Hlt & _).
  apply elem_of_app in Hd as [Hd|Hd%list_elem_of_singleton]; [|lia]. assert (day_floor s < d) by (apply Hlt; [done|by left]). lia.
Qed.

(** What reading a snapshot answers, whatever the process remembers of its
    pack. *)
Lemma wp_snapshot_exact id r : repo_wf R r ->
  wp (snapshot id) (fun x r' => query r r' /\
    match x with Ok o => o = view r id | Err e => env_err e /\ trouble (store r) (store r') end) r.
Proof using Type.
  intros Hw. set (r1 := set_store (tick (store r)) r).
  assert (Hq : query r r1) by (split; [apply reads_tick|done]).
  assert (Ht : fate (calls (store r)) <> Works -> trouble (store r) (store r1)).
  { intros H. exists (calls (store r)). split; [cbn; lia|done]. }
  unfold wp. destruct (fate (calls (store r))) eqn:Ef.
  - assert (E : snapshot id r = (Ok (view r id), r1)); [|by rewrite E].
    unfold snapshot, repo_read, bind, on_store, call. rewrite Ef. unfold gets. fold r1.
    change (t_snapshots r1) with (t_snapshots r). unfold view.
    destruct (tbl_get id (t_snapshots r)) as [v|] eqn:Hv; [|done].
    destruct (rw_rows _ _ Hw _ _ Hv) as (sn & Hd & _). cbn [mbind option_bind]. rewrite Hd. done.
  - assert (E : snapshot id r = (Err (XErr CRedb), r1)) by (unfold snapshot, repo_read, bind, on_store, call; by rewrite Ef).
    rewrite E. split; [done|]. split; [unfold env_err; auto|by apply Ht].
  - assert (E : snapshot id r = (Err XDied, r1)) by (unfold snapshot, repo_read, bind, on_store, call; by rewrite Ef).
    rewrite E. split; [done|]. split; [unfold env_err; auto|by apply Ht].
Qed.

(** The answer to a comparison that is made. *)
Record compared (a b : Snapshot) (d : SnapshotDiff) : Prop := {
  cp_paths : fd_path <$> sd_files d = diff_paths a b;
  cp_once : NoDup (diff_paths a b);
  cp_sorted : StronglySorted String.le (diff_paths a b);
  cp_all : forall p, p ∈ diff_paths a b <-> p ∈ fe_path <$> sn_files a \/ p ∈ fe_path <$> sn_files b;
  cp_says : Forall (says a b) (sd_files d);
  cp_counts : sd_added d + sd_removed d + sd_modified d + sd_unchanged d = Z.of_nat (length (sd_files d));
  cp_bytes : unique_of [a; b] = wrap64 (unique_of [a] + sd_bytes_added d);
  cp_self : a = b -> sd_bytes_added d = 0 /\ sd_unchanged d = Z.of_nat (length (sd_files d));
}.

Lemma compared_diff (from to : Z) a b :
  compared a b {| sd_from_id := from; sd_to_id := to; sd_files := sd_files (diff_of a b); sd_added := sd_added (diff_of a b);
         sd_removed := sd_removed (diff_of a b); sd_modified := sd_modified (diff_of a b);
         sd_unchanged := sd_unchanged (diff_of a b); sd_bytes_added := sd_bytes_added (diff_of a b) |}.
Proof using Type.
  split; cbn [sd_files sd_added sd_removed sd_modified sd_unchanged sd_bytes_added].
  - apply diff_files_paths.
  - unfold diff_paths. rewrite merge_sort_Permutation. apply NoDup_elements.
  - unfold diff_paths. apply (StronglySorted_merge_sort String.le).
  - intros p. apply elem_of_diff_paths.
  - apply Forall_forall, diff_files_say.
  - apply changes_add.
  - apply diff_costs.
  - intros <-. destruct (diff_with_itself a) as [Hu ->]. split; [done|]. cbn [sd_unchanged diff_of]. by apply changes_all.
Qed.

(** Why a comparison fails. *)
Definition diff_failed (from to : Z) r r' (e : Exn) : Prop :=
  (e = XErr (SnapshotNotFound from) /\ view r from = None) \/
  (e = XErr (SnapshotNotFound to) /\ is_Some (view r from) /\ view r to = None) \/
  (env_err e /\ trouble (store r) (store r')).

(** C18: in every state a run can reach, comparing two snapshots changes
    nothing.  It lists every path of either exactly once, in order, with what
    became of it; the four counts add up; and the bytes it counts are what
    storing the second next to the first adds to the unique bytes of the
    repository, so comparing a snapshot with itself counts none.  It fails
    only with [SnapshotNotFound] of a snapshot that is not in the catalog, the
    first one before the second, or with the error of one of its own calls
    that did not work. *)
Theorem diff_is_exact (from to : Z) r x r' :
  reachable R (Up r) -> diff_snapshots from to r = (x, r') ->
  (forall id, view r' id = view r id) /\
  match x with
  | Ok d => exists a b, view r from = Some a /\ view r to = Some b /\ compared a b d
  | Err e => diff_failed from to r r' e
  end.
Proof using HR ZL WL FL DL.
  intros Hr E. destruct (reachable_up R HR _ Hr) as [Hw _].
  assert (H : wp (diff_snapshots from to) (fun x r' => query r r' /\ match x with
    | Ok d => exists a b, view r from = Some a /\ view r to = Some b /\ compared a b d
    | Err e => diff_failed from to r r' e end) r).
  { unfold diff_snapshots. eapply wp_seq; [by apply wp_snapshot_exact| |].
    2:{ intros e r1 [Q1 He]. split; [done|]. by right; right. }
    intros oa r1 [Q1 ->]. destruct (view r from) as [a|] eqn:Ha.
    2:{ unfold wp, bind at 1, rlift, on_store, ok_or, lift_result. cbn. destruct Q1 as [? ->]. split; [by split|]. by left. }
    apply wp_bind. unfold wp at 1, rlift, on_store, ok_or, lift_result. cbn [fst snd ret].
    assert (Es : forall r0 : Repo, set_store (store r0) r0 = r0) by by intros []. rewrite Es.
    assert (Hw1 : repo_wf R r1) by (destruct Q1 as [? ->]; by apply repo_wf_reads).
    eapply wp_seq; [by apply wp_snapshot_exact| |].
    2:{ intros e r2 [Q2 [He Ht]]. split; [by eapply query_trans|]. right; right. split; [done|].
        eapply trouble_mono; [| |exact Ht]; [apply rd_calls, Q1|done]. }
    intros ob r2 [Q2 ->]. rewrite (query_view _ _ to Q1). destruct (view r to) as [b|] eqn:Hb.
    2:{ unfold wp, bind at 1. cbn [fst snd ok_or lift_result throw]. cbn. rewrite Es. split; [by eapply query_trans|].
        right; left. rewrite Ha, Hb. eauto. }
    apply wp_bind. unfold wp at 1. cbn [fst snd ok_or lift_result ret]. rewrite Es. apply wp_ret.
    split; [by eapply query_trans|]. exists a, b. split; [done|]. split; [done|]. apply compared_diff. }
  unfold wp in H. rewrite E in H. destruct H as [Q H]. cbn [fst snd] in *. split; [|done]. intros id. by apply query_view.
Qed.
End repo.
