(* ===== verification/Mount.v ===== *)
(** * Mounting a snapshot ([freally-mount])

    The virtual tree of a repository snapshot or of the history of jobs
    ([tree.rs]), the map from inodes to its nodes ([fuse_filesystem.rs]) and
    the read callback of the FUSE session ([fuse_backend.rs]) over a chunk
    store.  A [BTreeMap] is a list in the order of its keys; the rows of the
    history are a parameter.

    The second part shows that a mounted snapshot shows its files, and reads
    give their bytes. *)
From S2P Require Import Prelude.
From S2P Require Import Text.
From S2P Require Import Files.
From S2P Require Import Monad.
From S2P Require Import Table.
From S2P Require Import ChunkTypes.
From S2P Require Import ChunkStore.
From S2P Require Import ChunkFile.
From S2P Require Import Repository.
From S2P Require Import TextSearch.
From S2P Require Import ChunkWp.
From S2P Require Import ChunkFileSafety.
From S2P Require Import RepoWp.
From S2P Require Import RepoOps.
From S2P Require Import RepoRestore.
From S2P Require Import RepoSystem.
From S2P Require Import RepoProps.
From stdpp Require Import pretty options.
Open Scope Z_scope.
Open Scope monad_scope.

(** ** The tree ([tree.rs]) *)

Record MountLayout := { by_date : bool; by_source : bool; by_job_id : bool }.

Definition layout_all : MountLayout := {| by_date := true; by_source := true; by_job_id := true |}.

Inductive NodeKind := Directory | JobPlaceholder (job_row_id : Z) | SnapshotFile (manifest : Manifest).

Inductive MountNode := MNode (name : string) (kind : NodeKind) (children : list (string * MountNode)).

Definition node_name (n : MountNode) : string := match n with MNode name _ _ => name end.
Definition node_kind (n : MountNode) : NodeKind := match n with MNode _ kind _ => kind end.
Definition node_children (n : MountNode) : list (string * MountNode) := match n with MNode _ _ cs => cs end.

Definition directory (name : string) : MountNode := MNode name Directory [].
Definition job_placeholder (name : string) (job_row_id : Z) : MountNode := MNode name (JobPlaceholder job_row_id) [].
Definition snapshot_file (name : string) (m : Manifest) : MountNode := MNode name (SnapshotFile m) [].

(** [BTreeMap::get] and [BTreeMap::insert]. *)
Fixpoint get_child (name : string) (cs : list (string * MountNode)) : option MountNode :=
  match cs with
  | [] => None
  | (k, n) :: cs => if String.eqb k name then Some n else get_child name cs
  end.

Fixpoint put_child (name : string) (n : MountNode) (cs : list (string * MountNode)) : list (string * MountNode) :=
  match cs with
  | [] => [(name, n)]
  | (k, x) :: cs' =>
      match String.compare name k with
      | Lt => (name, n) :: cs
      | Eq => (name, n) :: cs'
      | Gt => (k, x) :: put_child name n cs'
      end
  end.

Fixpoint insert_at (segments : list string) (leaf node : MountNode) : MountNode :=
  match node with
  | MNode name kind cs =>
      match segments with
      | [] => MNode name kind (put_child (node_name leaf) leaf cs)
      | head :: rest => MNode name kind (put_child head (insert_at rest leaf (default (directory head) (get_child head cs))) cs)
      end
  end.

Fixpoint descendant_count (n : MountNode) : nat :=
  match n with MNode _ _ cs => (fix go (cs : list (string * MountNode)) : nat := match cs with [] => 0 | (_, c) :: cs => 1 + descendant_count c + go cs end)%nat cs end.

(** [build_from_snapshot]; a path without a name is passed over. *)
Definition add_file (root : MountNode) (f : FileEntry) : MountNode :=
  match last (path_parts (fe_path f)) with
  | None => root
  | Some name => insert_at (removelast (path_parts (fe_path f))) (snapshot_file name (fe_manifest f)) root
  end.

Definition build_from_snapshot (s : Snapshot) : MountNode := foldl add_file (directory "") (sn_files s).

Fixpoint walk (segments : list string) (n : MountNode) : option MountNode :=
  match segments with
  | [] => Some n
  | s :: rest => c ← get_child s (node_children n); walk rest c
  end.

Definition lookup_path (root : MountNode) (virtual_path : string) : option MountNode :=
  if String.eqb virtual_path "" then Some root else walk (split_on "/" virtual_path) root.

(** *** The history of jobs *)

Record JobSummary := { js_row_id : Z; js_kind : string; js_src_root : string; js_dst_root : string; js_started_at_ms : Z }.

(** [format!("{:0w$}")] *)
Definition zero_pad (w : nat) (x : Z) : string :=
  let digits := pretty (Z.abs x) in
  let sign := if x <? 0 then "-" else "" in
  sign +:+ str_join "" (replicate (w - String.length sign - String.length digits) "0") +:+ digits.

(** Hinnant's [civil_from_days]. *)
Definition civil (days : Z) : Z * Z * Z :=
  let z := days + 719468 in
  let era := (if 0 <=? z then z else z - 146096) `div` 146097 in
  let doe := wrap64 (z - era * 146097) in
  let yoe := (doe - doe `div` 1460 + doe `div` 36524 - doe `div` 146096) `div` 365 in
  let y := yoe + era * 400 in
  let doy := doe - (365 * yoe + yoe `div` 4 - yoe `div` 100) in
  let mp := (5 * doy + 2) `div` 153 in
  let d := doy - (153 * mp + 2) `div` 5 + 1 in
  let m := if mp <? 10 then mp + 3 else mp - 9 in
  (y + (if m <=? 2 then 1 else 0), m, d).

Definition split_started_at (ms : Z) : string * string :=
  let secs := ms `div` 1000 in
  let sod := secs mod 86400 in
  let '(y, m, d) := civil (secs `div` 86400) in
  (zero_pad 4 y +:+ "-" +:+ zero_pad 2 m +:+ "-" +:+ zero_pad 2 d,
   zero_pad 2 (sod `div` 3600) +:+ "-" +:+ zero_pad 2 (sod mod 3600 `div` 60) +:+ "-" +:+ zero_pad 2 (sod mod 60)).

Fixpoint escape_chars (prev_sep : bool) (s : string) : string :=
  match s with
  | EmptyString => EmptyString
  | String c s =>
      if Ascii.eqb c ":" then String "-" (String "-" (escape_chars true s))
      else if Ascii.eqb c "\" || Ascii.eqb c "/" then (if prev_sep then escape_chars true s else String "-" (escape_chars true s))
      else String c (escape_chars false s)
  end.

(** [trim_matches('-')] *)
Fixpoint trim_left_dashes (s : string) : string :=
  match s with String c s' => if Ascii.eqb c "-" then trim_left_dashes s' else s | EmptyString => s end.
Definition trim_right_dashes (s : string) : string :=
  (fix go (s : string) : string :=
     match s with EmptyString => EmptyString | String c s' => match go s' with EmptyString => if Ascii.eqb c "-" then EmptyString else String c EmptyString | t => String c t end end) s.

Definition escape_path (src_root : string) : string := trim_right_dashes (trim_left_dashes (escape_chars false src_root)).

Definition job_label_from_summary (dst_root kind : string) : string :=
  match last (path_parts dst_root) with Some name => name +:+ "-" +:+ kind | None => kind end.

Definition add_job (layout : MountLayout) (root : MountNode) (j : JobSummary) : MountNode :=
  let '(date, time) := split_started_at (js_started_at_ms j) in
  let label := job_label_from_summary (js_dst_root j) (js_kind j) in
  let id := js_row_id j in
  let root := if by_date layout then insert_at ["by-date"; date; time] (job_placeholder label id) root else root in
  let root := if by_source layout
              then insert_at ["by-source"; escape_path (js_src_root j)] (job_placeholder (date +:+ "--" +:+ time) id) root else root in
  if by_job_id layout then insert_at ["by-job-id"; pretty id] (job_placeholder label id) root else root.

Definition build (jobs : list JobSummary) (layout : MountLayout) : MountNode := foldl (add_job layout) (directory "") jobs.

(** ** Inodes ([fuse_filesystem.rs]) *)

Definition ROOT_INODE : Z := 1.

Record InodeEntry := { ie_parent : Z; ie_name : string; ie_kind : NodeKind; ie_children : gmap string Z }.

Record TreeInodeMap := { im_entries : gmap Z InodeEntry; im_next : Z }.

Definition link_child (name : string) (ino : Z) (e : InodeEntry) : InodeEntry :=
  {| ie_parent := ie_parent e; ie_name := ie_name e; ie_kind := ie_kind e; ie_children := <[name := ino]> (ie_children e) |}.

(** The record of a child and its link in the parent. *)
Definition add_entry (parent_ino : Z) (name : string) (kind : NodeKind) (m : TreeInodeMap) : TreeInodeMap :=
  {| im_entries := alter (link_child name (im_next m)) parent_ino
       (<[im_next m := {| ie_parent := parent_ino; ie_name := name; ie_kind := kind; ie_children := ∅ |}]> (im_entries m));
     im_next := im_next m + 1 |}.

Fixpoint insert_children (parent_ino : Z) (parent_node : MountNode) (m : TreeInodeMap) : TreeInodeMap :=
  match parent_node with
  | MNode _ _ cs =>
      (fix go (cs : list (string * MountNode)) (m : TreeInodeMap) : TreeInodeMap :=
         match cs with
         | [] => m
         | (name, child) :: cs => go cs (insert_children (im_next m) child (add_entry parent_ino name (node_kind child) m))
         end) cs m
  end.

Definition from_tree (root : MountNode) : TreeInodeMap :=
  insert_children ROOT_INODE root
    {| im_entries := {[ROOT_INODE := {| ie_parent := ROOT_INODE; ie_name := ""; ie_kind := Directory; ie_children := ∅ |}]}; im_next := ROOT_INODE + 1 |}.

Definition ino_lookup (m : TreeInodeMap) (parent : Z) (name : string) : option Z :=
  e ← im_entries m !! parent; ie_children e !! name.

Definition readdir (m : TreeInodeMap) (parent : Z) : list (Z * string * NodeKind) :=
  match im_entries m !! parent with
  | None => []
  | Some e =>
      omap (fun name => ino ← ie_children e !! name; c ← im_entries m !! ino; Some (ino, name, ie_kind c))
        (merge_sort String.le (elements (dom (ie_children e))))
  end.

(** The permissions are 0o555 and 0o444. *)
Inductive MountFileKind := MDirectory | MRegularFile.

Record MountFileAttr := { at_ino : Z; at_size : Z; at_kind : MountFileKind; at_perm : Z; at_nlink : Z; at_mtime : Z }.

Definition synthesize_attr_with_size (m : TreeInodeMap) (ino mtime : Z) (size_lookup : option (Z -> option Z)) : option MountFileAttr :=
  e ← im_entries m !! ino;
  Some match ie_kind e with
       | Directory => {| at_ino := ino; at_size := 0; at_kind := MDirectory; at_perm := 365; at_nlink := 2 + Z.of_nat (size (ie_children e)); at_mtime := mtime |}
       | JobPlaceholder id =>
           {| at_ino := ino; at_size := default 0 (f ← size_lookup; f id); at_kind := MRegularFile; at_perm := 292; at_nlink := 1; at_mtime := mtime |}
       | SnapshotFile mf => {| at_ino := ino; at_size := m_size mf; at_kind := MRegularFile; at_perm := 292; at_nlink := 1; at_mtime := mtime |}
       end.

Definition synthesize_attr (m : TreeInodeMap) (ino mtime : Z) : option MountFileAttr := synthesize_attr_with_size m ino mtime None.

(** ** The session ([fuse_backend.rs]) *)

Definition ENOENT : Z := 2.
Definition ENOSYS : Z := 38.

Inductive Reply := RData (b : bytes) | RError (errno : Z).

Section session.
Context {TC TM TS : Type} {kle : bytes -> bytes -> Prop}.
Context {TBC : Table bytes bytes TC kle} {TBM : Table string bytes TM String.le}.
Context {TBS : Table string bytes TS String.le} {CM : Codec Manifest bytes}.
Context {B3 : Blake3} {ZS : Zstd} {EN : ChunkWorld}.
#[local] Abbreviation M := (@M TC TM TS).

(** One chunk of [assemble_job_bytes]: the cursor and the bytes so far. *)
Fixpoint assemble_chunks (read_start read_end : Z) (cs : list ChunkRef) (cursor : Z) (out : bytes) : M (Z * bytes) :=
  match cs with
  | [] => ret (cursor, out)
  | c :: cs =>
      let chunk_start := cursor in
      let chunk_end := sat_add64 cursor (c_len c) in
      if (chunk_end <=? read_start) || (read_end <=? chunk_start) then assemble_chunks read_start read_end cs chunk_end out
      else
        let! r := try (get (c_hash c)) in
        match r with
        | Ok (Some b) =>
            let slice_from := sat_sub64 read_start chunk_start in
            let slice_to := Z.min (read_end - chunk_start) (len b) in
            let out := if (slice_from <? slice_to) && (slice_from <? len b)
                       then out ++ take (Z.to_nat (slice_to - slice_from)) (drop (Z.to_nat slice_from) b) else out in
            if read_end <=? chunk_end then ret (chunk_end, out) else assemble_chunks read_start read_end cs chunk_end out
        | _ => assemble_chunks read_start read_end cs chunk_end out
        end
  end.

(** The files of the job, one behind the other. *)
Fixpoint assemble_items (read_start read_end : Z) (keys : list string) (cursor : Z) (out : bytes) : M bytes :=
  match keys with
  | [] => ret out
  | key :: keys =>
      if read_end <=? cursor then ret out
      else
        let! r := try (get_manifest key) in
        match r with
        | Ok (Some m) => let! (cursor, out) := assemble_chunks read_start read_end (m_chunks m) cursor out in assemble_items read_start read_end keys cursor out
        | _ => assemble_items read_start read_end keys cursor out
        end
  end.

(** The sources of the job's items, where the history knows the job. *)
Definition assemble_job_bytes (items_for : Z -> option (list string)) (job_row_id offset size : Z) : M (option bytes) :=
  match items_for job_row_id with
  | None => ret None
  | Some keys =>
      let read_start := Z.max offset 0 in
      let! out := assemble_items read_start (sat_add64 read_start size) keys 0 [] in
      ret (Some out)
  end.

Definition read (m : TreeInodeMap) (history : option (Z -> option (list string))) (store : bool) (ino offset size : Z) : M Reply :=
  match im_entries m !! ino with
  | None => ret (RError ENOENT)
  | Some e =>
      match ie_kind e with
      | Directory => ret (RError ENOSYS)
      | SnapshotFile mf =>
          if store
          then let! r := try (materialise_range mf (Z.max offset 0) size) in
               ret (match r with Ok b => RData b | Err _ => RError ENOSYS end)
          else ret (RError ENOSYS)
      | JobPlaceholder id =>
          match history with
          | Some items_for =>
              if store
              then let! r := assemble_job_bytes items_for id offset size in
                   ret (match r with Some b => RData b | None => RData [] end)
              else ret (RError ENOSYS)
          | None => ret (RError ENOSYS)
          end
      end
  end.
End session.

(** * A mounted snapshot shows its files

    Every file of a snapshot is found under its path, and nothing else is
    ([built_tree_is_the_snapshot]); the inodes name the nodes of the tree one
    to one ([ino_walk_spec]); so a read through the mount is a slice of what
    was recorded ([mounted_file_reads_back]). *)

(** ** Children *)

Lemma Ascii_compare_refl c : Ascii.compare c c = Eq.
Proof. unfold Ascii.compare. apply N.compare_refl. Qed.

Lemma compare_eq a b : String.compare a b = Eq <-> a = b.
Proof. split; [apply String.compare_eq_iff|]. intros ->. induction b as [|c b IH]; [done|]. cbn. by rewrite Ascii_compare_refl. Qed.

Lemma get_put name n cs k : get_child k (put_child name n cs) = if String.eqb name k then Some n else get_child k cs.
Proof.
  induction cs as [|[x y] cs IH]; [done|]. cbn [put_child get_child]. destruct (String.compare name x) eqn:E; cbn [get_child].
  - apply compare_eq in E as ->. by destruct (String.eqb x k).
  - done.
  - rewrite IH. destruct (String.eqb_spec name k) as [->|]; [|done]. destruct (String.eqb_spec x k) as [->|]; [|done].
    by rewrite (proj2 (compare_eq k k) eq_refl) in E.
Qed.

Lemma put_child_keys name n cs : forall k, k ∈ (put_child name n cs).*1 <-> k = name \/ k ∈ cs.*1.
Proof.
  induction cs as [|[x y] cs IH]; intros k; cbn [put_child]; [set_solver|]. destruct (String.compare name x) eqn:E; rewrite !fmap_cons.
  - apply compare_eq in E as ->. set_solver.
  - set_solver.
  - specialize (IH k). set_solver.
Qed.

Definition str_lt (a b : string) : Prop := String.le a b /\ a <> b.

#[export] Instance str_lt_trans : Transitive str_lt.
Proof.
  intros a b c [H1 N1] [H2 N2]. split; [by etrans|]. intros ->. apply N1. by apply (anti_symm String.le).
Qed.

Lemma compare_lt a b : String.compare a b = Lt -> str_lt a b.
Proof.
  intros H. split; [unfold String.le, String.leb; by rewrite H|]. intros ->. by rewrite (proj2 (compare_eq b b) eq_refl) in H.
Qed.

Lemma compare_gt a b : String.compare a b = Gt -> str_lt b a.
Proof. intros H. apply compare_lt. by rewrite String.compare_antisym, H. Qed.

Lemma put_child_sorted name n cs : StronglySorted str_lt cs.*1 -> StronglySorted str_lt (put_child name n cs).*1.
Proof.
  induction cs as [|[x y] cs IH]; intros H; [by repeat constructor|]. rewrite fmap_cons in H. apply StronglySorted_cons in H as [Hx Hs].
  cbn [put_child]. destruct (String.compare name x) eqn:E; rewrite !fmap_cons.
  - apply compare_eq in E as ->. by constructor.
  - constructor; [by constructor|]. constructor; [by apply compare_lt|]. eapply Forall_impl; [exact Hx|]. intros z. etrans; [by apply compare_lt|done].
  - constructor; [by apply IH|]. apply Forall_forall. intros k [->|Hk]%put_child_keys; [by apply compare_gt|].
    rewrite Forall_forall in Hx. by apply Hx.
Qed.

(** ** Walking a tree that a leaf was inserted into *)

Definition MountNode_nest (P : MountNode -> Prop) (H : forall name kind cs, Forall (fun kc => P kc.2) cs -> P (MNode name kind cs)) : forall n, P n :=
  fix ind (n : MountNode) : P n :=
    match n with
    | MNode name kind cs => H name kind cs ((fix go (cs : list (string * MountNode)) : Forall (fun kc => P kc.2) cs :=
        match cs with [] => List.Forall_nil _ | (k, c) :: cs => List.Forall_cons (fun kc => P kc.2) (k, c) cs (ind c) (go cs) end) cs)
    end.

Lemma walk_app a b n : walk (a ++ b) n = walk a n ≫= walk b.
Proof. revert n. induction a as [|s a IH]; intros n; [done|]. cbn [app walk]. destruct (get_child s (node_children n)); [apply IH|done]. Qed.

Lemma walk_directory name q : walk q (directory name) = match q with [] => Some (directory name) | _ => None end.
Proof. by destruct q. Qed.

Definition target (segs : list string) (leaf : MountNode) : list string := segs ++ [node_name leaf].

Lemma insert_children_of segs leaf n : node_children (insert_at segs leaf n) =
  match segs with
  | [] => put_child (node_name leaf) leaf (node_children n)
  | head :: rest => put_child head (insert_at rest leaf (default (directory head) (get_child head (node_children n)))) (node_children n)
  end.
Proof. by destruct n, segs. Qed.

Lemma insert_kind segs leaf n : node_kind (insert_at segs leaf n) = node_kind n.
Proof. by destruct n, segs. Qed.

Lemma walk_target segs leaf n q : walk (target segs leaf ++ q) (insert_at segs leaf n) = walk q leaf.
Proof.
  revert n. induction segs as [|s segs IH]; intros n; unfold target; cbn [app walk]; rewrite insert_children_of, get_put, String.eqb_refl; [done|].
  cbn [mbind option_bind]. apply IH.
Qed.

(** Nodes on the way keep their kind; those that were not there are
    directories. *)
Lemma walk_above segs leaf n q s r : target segs leaf = q ++ s :: r ->
  exists n', walk q (insert_at segs leaf n) = Some n' /\ node_kind n' = match walk q n with Some o => node_kind o | None => Directory end.
Proof.
  revert n q. induction segs as [|x segs IH]; intros n q E.
  - destruct q as [|y q]; [|by destruct q]. eexists. split; [done|]. apply insert_kind.
  - destruct q as [|y q]; [eexists; split; [done|]; apply insert_kind|]. unfold target in E. cbn [app] in E. injection E as <- E.
    cbn [walk]. rewrite insert_children_of, get_put, String.eqb_refl. cbn [mbind option_bind].
    destruct (IH (default (directory x) (get_child x (node_children n))) q E) as (n' & -> & Hk). exists n'. split; [done|]. rewrite Hk.
    destruct (get_child x (node_children n)) as [c|]; [done|]. cbn [default from_option mbind option_bind]. rewrite walk_directory. by destruct q.
Qed.

Lemma walk_beside segs leaf n q : ~ q `prefix_of` target segs leaf -> ~ target segs leaf `prefix_of` q -> walk q (insert_at segs leaf n) = walk q n.
Proof.
  revert n q. induction segs as [|x segs IH]; intros n q H1 H2; (destruct q as [|y q]; [by destruct H1; apply prefix_nil|]); cbn [walk]; rewrite insert_children_of, get_put.
  - destruct (String.eqb_spec (node_name leaf) y) as [<-|]; [|done]. destruct H2. by apply (prefix_cons _ [] q), prefix_nil.
  - destruct (String.eqb_spec x y) as [<-|]; [|done]. cbn [mbind option_bind]. rewrite IH.
    + destruct (get_child x (node_children n)) as [c|]; [done|]. cbn. rewrite walk_directory. destruct q; [|done]. destruct H1. by apply prefix_cons, prefix_nil.
    + intros H. apply H1. by apply prefix_cons.
    + intros H. apply H2. by apply prefix_cons.
Qed.

(** ** The tree of a snapshot *)

Definition parts_of (f : FileEntry) : list string := path_parts (fe_path f).

(** What a file of the snapshot looks like. *)
Definition leaf_of (f : FileEntry) : MountNode := snapshot_file (default "" (last (parts_of f))) (fe_manifest f).

Lemma add_file_insert root f : parts_of f <> [] ->
  exists segs, add_file root f = insert_at segs (leaf_of f) root /\ target segs (leaf_of f) = parts_of f.
Proof.
  intros H. unfold add_file, leaf_of, target. fold (parts_of f). destruct (last (parts_of f)) as [name|] eqn:E; [|by apply last_None in E].
  eexists. split; [done|]. apply last_Some in E as [l ->]. by rewrite removelast_last.
Qed.

Lemma add_file_empty root f : parts_of f = [] -> add_file root f = root.
Proof. unfold add_file. fold (parts_of f). by intros ->. Qed.

Definition is_file (n : MountNode) (m : Manifest) : Prop := node_kind n = SnapshotFile m.

(** A file found in the tree is one of the snapshot, at its path. *)
Lemma add_file_only root f q n m : walk q (add_file root f) = Some n -> is_file n m ->
  (parts_of f = q /\ fe_manifest f = m /\ n = leaf_of f) \/ exists o, walk q root = Some o /\ is_file o m.
Proof.
  intros Hw Hm. destruct (decide (parts_of f = [])) as [E|E]; [rewrite add_file_empty in Hw by done; eauto|].
  destruct (add_file_insert root f E) as (segs & Ea & Et). rewrite Ea in Hw.
  destruct (decide (q `prefix_of` parts_of f)) as [Hq|Hq].
  - destruct Hq as [[|s r] Hq].
    + rewrite app_nil_r in Hq. left. rewrite <- Hq, <- Et, <- (app_nil_r (target _ _)), walk_target in Hw. injection Hw as <-. unfold is_file in Hm. cbn in Hm. by injection Hm as ->.
    + rewrite <- Et in Hq. destruct (walk_above _ _ root _ _ _ Hq) as (n' & Hn' & Hk). rewrite Hn' in Hw. injection Hw as ->. unfold is_file in *. rewrite Hk in Hm.
      destruct (walk q root) as [o|]; [|done]. eauto.
  - destruct (decide (parts_of f `prefix_of` q)) as [[r ->]|Hf].
    + rewrite <- Et, walk_target in Hw. destruct r as [|s r]; [by destruct Hq; rewrite app_nil_r|]. done.
    + right. rewrite walk_beside in Hw by (by rewrite Et). eauto.
Qed.

Lemma add_file_keeps root f q : ~ q `prefix_of` parts_of f -> ~ parts_of f `prefix_of` q -> walk q (add_file root f) = walk q root.
Proof.
  intros H1 H2. destruct (decide (parts_of f = [])) as [E|E]; [by rewrite add_file_empty|]. destruct (add_file_insert root f E) as (segs & -> & Et).
  by apply walk_beside; rewrite Et.
Qed.

(** No path of the snapshot runs into another. *)
Definition separate (fs : list FileEntry) : Prop :=
  forall i j f g, fs !! i = Some f -> fs !! j = Some g -> i <> j -> parts_of f <> [] -> ~ parts_of f `prefix_of` parts_of g.

Lemma build_shows s i f : separate (sn_files s) -> sn_files s !! i = Some f -> parts_of f <> [] -> walk (parts_of f) (build_from_snapshot s) = Some (leaf_of f).
Proof.
  unfold build_from_snapshot. generalize (directory "") as root. generalize (sn_files s) as fs. intros fs. revert i. induction fs as [|g fs IH] using rev_ind; [done|].
  intros i root Hsep Hi Hf. rewrite foldl_app. cbn [foldl]. apply lookup_app_Some in Hi as [Hi|[Hge Hi]].
  - pose proof (lookup_lt_Some _ _ _ Hi) as Hlt. assert (Hg : (fs ++ [g]) !! length fs = Some g) by (by rewrite list_lookup_middle).
    assert (Hi' : (fs ++ [g]) !! i = Some f) by (by rewrite lookup_app_l).
    assert (H1 : ~ parts_of f `prefix_of` parts_of g) by (apply (Hsep i (length fs)); [done|done|lia|done]).
    destruct (decide (parts_of g = [])) as [E|E]; [rewrite add_file_empty by done|rewrite add_file_keeps; [|done|apply (Hsep (length fs) i); [done|done|lia|done]]].
    + apply (IH i); [|done|done]. intros a b x y Hx Hy. apply Hsep; by apply lookup_app_l_Some.
    + apply (IH i); [|done|done]. intros a b x y Hx Hy. apply Hsep; by apply lookup_app_l_Some.
  - apply list_lookup_singleton_Some in Hi as [_ ->]. destruct (add_file_insert (foldl add_file root fs) f Hf) as (segs & -> & Et).
    rewrite <- Et, <- (app_nil_r (target _ _)). apply walk_target.
Qed.

Lemma build_only s q n m : walk q (build_from_snapshot s) = Some n -> is_file n m -> exists f, f ∈ sn_files s /\ parts_of f = q /\ fe_manifest f = m.
Proof.
  unfold build_from_snapshot. revert n. induction (sn_files s) as [|g fs IH] using rev_ind; intros n Hw Hm.
  - cbn [foldl] in Hw. rewrite walk_directory in Hw. destruct q; [|done]. by injection Hw as <-.
  - rewrite foldl_app in Hw. destruct (add_file_only _ _ _ _ _ Hw Hm) as [(E1 & E2 & _)|(o & Ho & Hom)]; [exists g; set_solver|].
    destruct (IH o Ho Hom) as (f & ? & ? & ?). exists f. set_solver.
Qed.

(** ** Trees with distinct names *)

Inductive tidy : MountNode -> Prop :=
| tidy_node name kind cs : StronglySorted str_lt cs.*1 -> (forall k c, get_child k cs = Some c -> tidy c) -> tidy (MNode name kind cs).

Lemma tidy_inv n : tidy n -> StronglySorted str_lt (node_children n).*1 /\ forall k c, get_child k (node_children n) = Some c -> tidy c.
Proof. by intros []. Qed.

Lemma tidy_directory name : tidy (directory name).
Proof. by constructor; [constructor|]. Qed.

Lemma tidy_insert segs leaf n : tidy leaf -> tidy n -> tidy (insert_at segs leaf n).
Proof.
  intros Hl. revert n. induction segs as [|s segs IH]; intros n Hn; inversion Hn as [name kind cs Hs Hc]; subst; cbn [insert_at]; (constructor; [by apply put_child_sorted|]);
    intros k c; rewrite get_put; destruct (String.eqb _ k); [intros [= <-]; done|apply Hc|intros [= <-]|apply Hc].
  apply IH. destruct (get_child s cs) as [x|] eqn:E; [by apply (Hc s)|apply tidy_directory].
Qed.

Lemma tidy_build s : tidy (build_from_snapshot s).
Proof.
  unfold build_from_snapshot. assert (H : tidy (directory "")) by apply tidy_directory. revert H. generalize (directory "") as root.
  induction (sn_files s) as [|f fs IH]; intros root H; [done|]. cbn [foldl]. apply IH. destruct (decide (parts_of f = [])) as [E|E]; [by rewrite add_file_empty|].
  destruct (add_file_insert root f E) as (segs & -> & _). apply tidy_insert; [|done]. by constructor; [constructor|].
Qed.

Lemma str_lt_nodup l : StronglySorted str_lt l -> NoDup l.
Proof. induction 1 as [|x l _ IH Hx]; constructor; [|done]. intros Hin. rewrite Forall_forall in Hx. by destruct (Hx x Hin). Qed.

Lemma get_child_elem cs k c : NoDup cs.*1 -> get_child k cs = Some c <-> (k, c) ∈ cs.
Proof.
  induction cs as [|[x y] cs IH]; intros Hd; cbn [get_child]; [split; [done|by intros ?%elem_of_nil]|]. rewrite fmap_cons in Hd. apply NoDup_cons in Hd as [Hn Hd].
  rewrite elem_of_cons. destruct (String.eqb_spec x k) as [->|Hne].
  - split; [intros [= ->]; by left|]. intros [[= ->]|H]; [done|]. destruct Hn. by apply (list_elem_of_fmap_2 fst) in H.
  - rewrite IH by done. split; [by right|]. by intros [[= -> _]|?].
Qed.

(** ** Inodes *)

(** The inodes of a tree below [ino] are in [lo .. hi) and name its nodes. *)
Fixpoint reps (lo hi : Z) (m : TreeInodeMap) (ino : Z) (n : MountNode) : Prop :=
  match n with
  | MNode _ kind cs =>
      lo <= ino < hi /\ exists e, im_entries m !! ino = Some e /\ ie_kind e = kind /\
        (forall k, is_Some (ie_children e !! k) <-> k ∈ cs.*1) /\
        foldr (fun kc P => (exists i, ie_children e !! kc.1 = Some i /\ reps lo hi m i kc.2) /\ P) True cs
  end.

Lemma foldr_and {A} (Q : A -> Prop) l : foldr (fun x P => Q x /\ P) True l <-> Forall Q l.
Proof. induction l as [|x l IH]; cbn; [by split|]. by rewrite IH, Forall_cons. Qed.

Lemma reps_unfold lo hi m ino n : reps lo hi m ino n <-> lo <= ino < hi /\ exists e, im_entries m !! ino = Some e /\ ie_kind e = node_kind n /\
  (forall k, is_Some (ie_children e !! k) <-> k ∈ (node_children n).*1) /\
  Forall (fun kc => exists i, ie_children e !! kc.1 = Some i /\ reps lo hi m i kc.2) (node_children n).
Proof. destruct n as [name kind cs]. cbn [reps node_kind node_children]. by setoid_rewrite (foldr_and (fun kc => exists i, _)). Qed.

Lemma reps_keeps n : forall lo hi m m' ino, reps lo hi m ino n -> (forall i, lo <= i < hi -> im_entries m' !! i = im_entries m !! i) -> reps lo hi m' ino n.
Proof.
  induction n as [name kind cs IH] using MountNode_nest. intros lo hi m m' ino (Hr & e & He & Hk & Hd & Hc)%reps_unfold Hm.
  apply reps_unfold. split; [done|]. exists e. rewrite Hm by done. split_and!; [done..|]. cbn [node_children] in *.
  rewrite Forall_forall in IH, Hc |- *. intros kc Hin. destruct (Hc kc Hin) as (i & Hi & Hrep). exists i. split; [done|]. by apply (IH kc Hin lo hi m).
Qed.

Lemma reps_weaken n : forall lo hi lo' hi' m ino, reps lo hi m ino n -> lo' <= lo -> hi <= hi' -> reps lo' hi' m ino n.
Proof.
  induction n as [name kind cs IH] using MountNode_nest. intros lo hi lo' hi' m ino (Hr & e & He & Hk & Hd & Hc)%reps_unfold H1 H2.
  apply reps_unfold. split; [lia|]. exists e. split_and!; [done..|]. cbn [node_children] in *.
  rewrite Forall_forall in IH, Hc |- *. intros kc Hin. destruct (Hc kc Hin) as (i & Hi & Hrep). exists i. split; [done|]. by apply (IH kc Hin lo hi).
Qed.

(** The loop over the children. *)
Fixpoint insert_list (parent_ino : Z) (cs : list (string * MountNode)) (m : TreeInodeMap) : TreeInodeMap :=
  match cs with
  | [] => m
  | (name, child) :: cs => insert_list parent_ino cs (insert_children (im_next m) child (add_entry parent_ino name (node_kind child) m))
  end.

Lemma insert_children_list ino n m : insert_children ino n m = insert_list ino (node_children n) m.
Proof. destruct n as [name kind cs]. cbn [insert_children node_children]. revert m. induction cs as [|[k c] cs IH]; intros m; [done|]. cbn [insert_list]. by rewrite <- IH. Qed.

(** What inserting below [ino] does: only its own record and new ones. *)
Record grown (ino : Z) (m m' : TreeInodeMap) : Prop := {
  gr_next : im_next m <= im_next m';
  gr_old : forall i, i <> ino -> i < im_next m -> im_entries m' !! i = im_entries m !! i
}.

(** The record of [ino] behind the loop. *)
Definition inserted (n : MountNode) : Prop := forall ino m e, tidy n -> im_entries m !! ino = Some e -> ie_kind e = node_kind n -> ie_children e = ∅ -> ino < im_next m ->
  let m' := insert_children ino n m in
  grown ino m m' /\ exists e', im_entries m' !! ino = Some e' /\ ie_kind e' = ie_kind e /\
    (forall k, is_Some (ie_children e' !! k) <-> k ∈ (node_children n).*1) /\
    Forall (fun kc => exists i, ie_children e' !! kc.1 = Some i /\ reps (im_next m) (im_next m') m' i kc.2) (node_children n).

Lemma inserted_reps n ino m e : inserted n -> tidy n -> im_entries m !! ino = Some e -> ie_kind e = node_kind n -> ie_children e = ∅ -> ino < im_next m ->
  grown ino m (insert_children ino n m) /\ reps ino (im_next (insert_children ino n m)) (insert_children ino n m) ino n.
Proof.
  intros Hi Ht He Hk Hc Hlt. destruct (Hi ino m e Ht He Hk Hc Hlt) as (Hg & e' & He' & Hk' & Hd & Hf). split; [done|].
  pose proof (gr_next _ _ _ Hg). apply reps_unfold. split; [lia|]. exists e'. split_and!; [done|congruence|done|].
  eapply Forall_impl; [exact Hf|]. intros kc (i & Hi' & Hr). exists i. split; [done|]. by apply (reps_weaken _ (im_next m) (im_next (insert_children ino n m))); [|lia|].
Qed.

Lemma insert_list_spec ino cs : Forall (fun kc => inserted kc.2) cs -> Forall (fun kc => tidy kc.2) cs -> NoDup cs.*1 -> forall m e,
  im_entries m !! ino = Some e -> ino < im_next m -> (forall k, k ∈ cs.*1 -> ie_children e !! k = None) ->
  grown ino m (insert_list ino cs m) /\ exists e', im_entries (insert_list ino cs m) !! ino = Some e' /\ ie_kind e' = ie_kind e /\
    (forall k, k ∉ cs.*1 -> ie_children e' !! k = ie_children e !! k) /\
    Forall (fun kc => exists i, ie_children e' !! kc.1 = Some i /\ reps (im_next m) (im_next (insert_list ino cs m)) (insert_list ino cs m) i kc.2) cs.
Proof.
  induction cs as [|[k c] cs IH]; intros Hins Ht Hd m e He Hlt Hfresh; [by split; [|exists e]|]. cbn [insert_list].
  apply Forall_cons in Hins as [Hc Hins]. apply Forall_cons in Ht as [Htc Ht]. rewrite fmap_cons in Hd. apply NoDup_cons in Hd as [Hn Hd]. cbn [fst snd] in *.
  set (m1 := add_entry ino k (node_kind c) m). assert (H1 : im_entries m1 !! ino = Some (link_child k (im_next m) e)).
  { cbn. rewrite lookup_alter_eq, lookup_insert_ne, He by lia. done. }
  assert (H2 : im_entries m1 !! im_next m = Some {| ie_parent := ino; ie_name := k; ie_kind := node_kind c; ie_children := ∅ |}).
  { cbn. rewrite lookup_alter_ne, lookup_insert_eq by lia. done. }
  destruct (inserted_reps c (im_next m) m1 _ Hc Htc H2 eq_refl eq_refl ltac:(cbn; lia)) as [G2 R2]. set (m2 := insert_children (im_next m) c m1) in *.
  pose proof (gr_next _ _ _ G2) as N2. cbn in N2. assert (H3 : im_entries m2 !! ino = Some (link_child k (im_next m) e)) by (rewrite (gr_old _ _ _ G2); [done|lia|cbn; lia]).
  destruct (IH Hins Ht Hd m2 (link_child k (im_next m) e) H3 ltac:(lia)) as (G3 & e' & He' & Hk' & Hkeep & Hf).
  { intros x Hx. cbn. rewrite lookup_insert_ne; [apply Hfresh; rewrite fmap_cons; by right|]. by intros ->. }
  pose proof (gr_next _ _ _ G3) as N3. split.
  - split; [lia|]. intros i Hi Hl. rewrite (gr_old _ _ _ G3), (gr_old _ _ _ G2) by (cbn; lia). cbn. rewrite lookup_alter_ne, lookup_insert_ne by lia. done.
  - exists e'. split_and!; [done|done| |].
    + intros x Hx. rewrite fmap_cons in Hx. apply not_elem_of_cons in Hx as [Hx1 Hx2]. rewrite Hkeep by done. cbn. by rewrite lookup_insert_ne.
    + constructor.
      * exists (im_next m). cbn [fst snd]. split; [rewrite Hkeep by done; cbn; by rewrite lookup_insert_eq|].
        apply (reps_weaken _ (im_next m) (im_next m2)); [|lia|lia]. apply (reps_keeps _ _ _ m2); [done|]. intros i Hi. apply (gr_old _ _ _ G3); lia.
      * eapply Forall_impl; [exact Hf|]. intros kc (i & Hi & Hr). exists i. split; [done|]. by apply (reps_weaken _ (im_next m2) (im_next (insert_list ino cs m2))); [|lia|].
Qed.

Lemma all_inserted n : inserted n.
Proof.
  induction n as [name kind cs IH] using MountNode_nest. intros ino m e Ht He Hk Hc Hlt. rewrite insert_children_list. cbv zeta.
  apply tidy_inv in Ht as [Hs Ht]. cbn [node_children node_kind] in *. pose proof (str_lt_nodup _ Hs) as Hd.
  destruct (insert_list_spec ino cs IH) with (m := m) (e := e) as (G & e' & He' & Hk' & Hkeep & Hf); [|done|done|done|intros k _; by rewrite Hc|].
  { apply Forall_forall. intros [k c] Hin. apply (Ht k). by apply get_child_elem. }
  split; [done|]. exists e'. split_and!; [done|done| |done]. intros k. split.
  - intros [i Hi]. destruct (decide (k ∈ cs.*1)) as [|Hn]; [done|]. by rewrite Hkeep, Hc in Hi.
  - intros ([k' c] & -> & Hin)%list_elem_of_fmap. rewrite Forall_forall in Hf. destruct (Hf _ Hin) as (i & -> & _). done.
Qed.

Lemma from_tree_reps root : tidy root -> node_kind root = Directory -> exists hi, reps ROOT_INODE hi (from_tree root) ROOT_INODE root.
Proof.
  intros Ht Hk. eexists. eapply inserted_reps; [apply all_inserted|done|by apply lookup_singleton_eq|done|done|by vm_compute].
Qed.

(** Looking up name after name. *)
Definition ino_walk (m : TreeInodeMap) (ino : Z) (q : list string) : option Z := foldl (fun i s => ino ← i; ino_lookup m ino s) (Some ino) q.

Lemma ino_walk_cons m ino s q : ino_walk m ino (s :: q) = i ← ino_lookup m ino s; ino_walk m i q.
Proof. unfold ino_walk. cbn [foldl mbind option_bind]. destruct (ino_lookup m ino s) as [i|]; [done|]. cbn. induction q as [|x q IH]; [done|apply IH]. Qed.

(** The inodes resolve exactly the paths of the tree, to records of its
    nodes. *)
Lemma ino_walk_spec lo hi m q : forall ino n, tidy n -> reps lo hi m ino n ->
  match walk q n with
  | Some n' => exists i e, ino_walk m ino q = Some i /\ im_entries m !! i = Some e /\ ie_kind e = node_kind n'
  | None => ino_walk m ino q = None
  end.
Proof.
  induction q as [|s q IH]; intros ino n Ht (_ & e & He & Hk & Hd & Hc)%reps_unfold; [by exists ino, e|]. cbn [walk]. rewrite ino_walk_cons.
  unfold ino_lookup. rewrite He. cbn [mbind option_bind]. apply tidy_inv in Ht as [Hs Ht]. pose proof (str_lt_nodup _ Hs) as Hnd.
  destruct (get_child s (node_children n)) as [c|] eqn:Eg; cbn [mbind option_bind].
  - pose proof (proj1 (get_child_elem _ _ _ Hnd) Eg) as Hin. rewrite Forall_forall in Hc. destruct (Hc _ Hin) as (i & Hi & Hr). cbn [fst snd] in *. rewrite Hi.
    by apply IH; [apply (Ht s)|].
  - destruct (ie_children e !! s) as [i|] eqn:Ei; [|done]. exfalso. assert (Hin : s ∈ (node_children n).*1) by (apply Hd; by rewrite Ei).
    apply list_elem_of_fmap in Hin as ([k c] & -> & Hin). cbn in Eg. apply get_child_elem in Hin; [|done]. by rewrite Hin in Eg.
Qed.

Lemma build_kind s : node_kind (build_from_snapshot s) = Directory.
Proof.
  unfold build_from_snapshot. assert (H : node_kind (directory "") = Directory) by done. revert H. generalize (directory "") as root.
  induction (sn_files s) as [|f fs IH]; intros root H; [done|]. cbn [foldl]. apply IH. unfold add_file. destruct (last _); [by rewrite insert_kind|done].
Qed.

(** ** Reading through the mount *)

Section mount.
Context {TC TM TS TN TQ : Type} {kle : bytes -> bytes -> Prop}.
Context {TBC : Table bytes bytes TC kle} {TBM : Table string bytes TM String.le}.
Context {TBS : Table string bytes TS String.le}.
Context {TBN : Table Z bytes TN Z.le} {TBQ : Table string Z TQ String.le}.
Context {CM : Codec Manifest bytes} {CS : Codec Snapshot bytes} {CU : Codec UnifiedSnapshot bytes}.
Context {B3 : Blake3} {ZS : Zstd} {EN : ChunkWorld} {FC : FastCdc}.
Context {ZL : ZstdLaws} {WL : WorldLaws} {FL : FastCdcLaws} {DL : DigestLaws}.
Context (R : Z) (HR : 0 <= R <= 2 ^ 62).
#[local] Abbreviation Repo := (Repo TC TM TS TN TQ).
Implicit Types r : Repo.

(** A chunk of a job's file that is gone leaves no gap: the next one takes
    its place in the answer. *)
Lemma missing_chunk_shifts h1 h2 l1 l2 o1 o2 k1 k2 b (s : Store TC TM TS) :
  get h1 s = (Ok None, s) -> get h2 s = (Ok (Some b), s) -> len b = l2 -> 0 < l1 -> 0 < l2 -> l1 + l2 <= U64_MAX ->
  assemble_chunks 0 (l1 + l2) [{| c_hash := h1; c_offset := o1; c_len := l1; c_codec := k1 |}; {| c_hash := h2; c_offset := o2; c_len := l2; c_codec := k2 |}] 0 [] s
  = (Ok (l1 + l2, b), s).
Proof using Type.
  intros H1 H2 Hb Hl1 Hl2 Hmax. cbn [assemble_chunks c_len c_hash]. unfold sat_add64, sat_sub64. rewrite !Z.add_0_l, (Z.min_r _ l1), (Z.min_r _ (l1 + l2)) by lia.
  destruct (Z.leb_spec l1 0); [lia|]. destruct (Z.leb_spec (l1 + l2) 0); [lia|]. cbn [orb]. unfold bind at 1, try at 1. rewrite H1.
  destruct (Z.leb_spec (l1 + l2) l1); [lia|]. cbn [orb]. unfold bind at 1, try at 1. rewrite H2, Hb.
  replace (l1 + l2 - l1) with l2 by lia. rewrite Z.min_id. replace (Z.max 0 (0 - l1)) with 0 by lia.
  destruct (Z.ltb_spec 0 l2); [|lia]. rewrite Z.leb_refl. cbn [andb]. rewrite Z.sub_0_r. rewrite drop_0, take_ge by (unfold len in Hb; lia). done.
Qed.

(** C19: a snapshot that is mounted shows its files: in every state a run
    can reach, if no path of it runs into another, the name lookups of every
    recorded path lead to an inode of a read-only regular file of its size;
    reading there gives the slice of the recorded bytes that was asked for,
    or [ENOSYS]; and an inode that shows a file lies at the path of one that
    was recorded, with its manifest. *)
Theorem mounted_file_reads_back r id sn files (history : option (Z -> option (list string))) (mtime : Z) :
  reachable R (Up r) -> view r id = Some sn -> describes sn files -> separate (sn_files sn) ->
  let m := from_tree (build_from_snapshot sn) in
  (forall path b, (path, b) ∈ files -> path_parts path <> [] -> len b <= ISIZE_MAX ->
    exists ino attr, ino_walk m ROOT_INODE (path_parts path) = Some ino /\ synthesize_attr m ino mtime = Some attr /\
      at_size attr = len b /\ at_kind attr = MRegularFile /\ at_perm attr = 292 /\
      forall offset n x s', 0 <= n -> Z.max offset 0 + n <= U64_MAX -> read m history true ino offset n (store r) = (x, s') ->
        match x with
        | Ok (RData out) => out = take (Z.to_nat n) (drop (Z.to_nat offset) b)
        | Ok (RError errno) => errno = ENOSYS
        | Err e => e = XDied
        end) /\
  (forall q ino e mf, ino_walk m ROOT_INODE q = Some ino -> im_entries m !! ino = Some e -> ie_kind e = SnapshotFile mf ->
    exists f, f ∈ sn_files sn /\ path_parts (fe_path f) = q /\ fe_manifest f = mf).
Proof using HR ZL WL FL DL.
  intros Hr Hv Hd Hsep. cbv zeta. destruct (reachable_up R HR _ Hr) as [Hw _].
  pose proof (tidy_build sn) as Ht. destruct (from_tree_reps _ Ht (build_kind sn)) as [hi Hreps]. split.
  - intros path b (i & Hi)%list_elem_of_lookup Hp Hlen. destruct (Forall2_lookup_l _ _ _ _ _ Hd Hi) as (f & Hf & [Ep Hmo]). cbn [fst snd] in *.
    assert (Epp : parts_of f = path_parts path) by (unfold parts_of; by rewrite Ep). rewrite <- Epp in *.
    pose proof (ino_walk_spec _ _ _ (parts_of f) _ _ Ht Hreps) as Hwalk. rewrite (build_shows sn i f Hsep Hf Hp) in Hwalk.
    destruct Hwalk as (ino & e & Hino & He & Hk). cbn [leaf_of snapshot_file node_kind] in Hk. exists ino.
    eexists. split; [done|]. unfold synthesize_attr, synthesize_attr_with_size. rewrite He. cbn [mbind option_bind]. rewrite Hk. split; [done|].
    pose proof (mo_size _ _ Hmo) as Hsize. cbn. split_and!; [done|done|done|]. intros offset n x s' Hn Hend E.
    unfold read in E. rewrite He, Hk in E.
    pose proof (wp_materialise_range (fe_manifest f) b (Z.max offset 0) n (store r) Hmo (disk_sound R _ (rw_disk _ _ Hw)) Hlen ltac:(lia) Hn Hend) as H.
    unfold wp in H. unfold bind, try in E. destruct (materialise_range (fe_manifest f) (Z.max offset 0) n (store r)) as [[b'|e'] s1].
    + destruct H as [_ ->]. unfold ret in E. injection E as <- <-. by replace (Z.to_nat (Z.max offset 0)) with (Z.to_nat offset) by lia.
    + destruct H as (_ & Hcalm & _). destruct e'; cbn in Hcalm; try done; cbn in E; by injection E as <- <-.
  - intros q ino e mf Hq He Hk. pose proof (ino_walk_spec _ _ _ q _ _ Ht Hreps) as Hwalk.
    destruct (walk q (build_from_snapshot sn)) as [n'|] eqn:En; [|congruence]. destruct Hwalk as (i & e' & Hi & He' & Hk').
    simplify_eq. apply (build_only sn q n' mf En). unfold is_file. congruence.
Qed.
End mount.
