(* ===== verification/RepoWitness.v ===== *)
(** * The snapshot repository: a run, and the theorems along it

    A repository in the concrete world of [RepoDemo]: opened on an empty disk,
    given a snapshot of two files, restarted, given another one.  Every theorem
    of [RepoProps] applies to it. *)
From S2P Require Import Prelude.
From S2P Require Import Text.
From S2P Require Import Files.
From S2P Require Import Monad.
From S2P Require Import Table.
From S2P Require Import Versioning.
From S2P Require Import ChunkTypes.
From S2P Require Import ChunkStore.
From S2P Require Import ChunkWp.
From S2P Require Import ChunkFile.
From S2P Require Import ChunkFileSafety.
From S2P Require Import Repository.
From S2P Require Import RepoWp.
From S2P Require Import RepoOps.
From S2P Require Import RepoRestore.
From S2P Require Import RepoVerify.
From S2P Require Import RepoRecord.
From S2P Require Import RepoSystem.
From S2P Require Import RepoProps.
From S2P Require Import RepoDemo.
From S2P Require Import RepoReport.
From S2P Require Import Mount.
From stdpp Require Import options.
Open Scope Z_scope.

(** ** The run *)

(** Call 28, in the middle of the first ingestion, is an append that stops
    after two bytes; the process dies at call 4000. *)
#[local] Instance demo_env : ChunkWorld := demo_world 28 4000.

#[local] Instance demo_laws : WorldLaws.
Proof. by apply demo_world_laws. Qed.

(** The packs roll over at 10 bytes. *)
Definition demo_limit : Z := 10.

Lemma demo_limit_ok : 0 <= demo_limit <= 2 ^ 62.
Proof. done. Qed.

Definition demo_auto : RepoCompression := Auto {| level_of := 3 |}.
Definition demo_up : DemoRepo := (open_repo demo_limit demo_auto demo_blank).2.

Definition demo_op1 : Op := OBytes KBackup "first" None 5 demo_files.
Definition demo_op2 : Op := OBytes KCopy "second" (Some "src") 9 [("x", bytes_of "hellwxyz")].

Definition demo_torn : DemoRepo := (run demo_op1 demo_up).2.
Definition demo_failed : DemoRepo := (open_repo demo_limit demo_auto demo_torn).2.
Definition demo_one : DemoRepo := (snapshot_bytes KBackup "first" 5 demo_files demo_failed).2.
Definition demo_again : DemoRepo := (open_repo demo_limit demo_auto demo_one).2.
Definition demo_two : DemoRepo := (run demo_op2 demo_again).2.

Definition the_view (r : DemoRepo) (id : Z) : Snapshot := default demo_probe (view r id).

(** ** It is a run *)

#[local] Instance demo_play_dec b : Decision (in_play b).
Proof. unfold in_play, demo_digest_laws. apply _. Defined.

#[local] Instance demo_storable_dec b : Decision (storable b).
Proof. unfold storable. apply _. Defined.

Lemma blank_demo : blank demo_blank.
Proof. split; intros; apply lookup_empty || done. Qed.

Lemma outcome {S A} (m : SM S Exn A) r x : (m r).1 = x -> m r = (x, (m r).2).
Proof. intros <-. by destruct (m r). Qed.

Lemma reach_run o r x : reachable demo_limit (Up r) -> in_step (store r) -> legal o r -> (run o r).1 = x -> x <> Err XDied ->
  reachable demo_limit (Up (run o r).2).
Proof.
  intros (r0 & Hb & Hr) Hin Hl E Hx. exists r0. split; [done|]. eapply rtc_r; [exact Hr|].
  pose proof (step_run demo_limit o r x (run o r).2 Hin Hl (outcome _ _ _ E)) as Hs.
  by destruct x as [?|[]].
Qed.

Lemma run_bytes r id : (snapshot_bytes KBackup "first" 5 demo_files r).1 = Ok id ->
  run demo_op1 r = (Ok tt, (snapshot_bytes KBackup "first" 5 demo_files r).2).
Proof.
  intros E. unfold demo_op1, run, bind. by destruct (snapshot_bytes _ _ _ _ r) as [[?|?] ?].
Qed.

Lemma demo_up_reachable : reachable demo_limit (Up demo_up).
Proof.
  exists demo_blank. split; [apply blank_demo|]. eapply rtc_l; [|apply rtc_refl].
  apply (step_open demo_limit demo_auto demo_blank (Ok tt) demo_up). unfold demo_up. apply outcome.
  vm_compute. reflexivity.
Qed.

Lemma demo_torn_reachable : reachable demo_limit (Up demo_torn).
Proof.
  eapply (reach_run demo_op1 demo_up (Err (XErr CIo))); [apply demo_up_reachable|by_decide|by_decide|vm_compute; reflexivity|done].
Qed.

(** The process lives on, out of step with its pack. *)
Lemma demo_torn_out_of_step : ~ in_step (store demo_torn).
Proof. by_decide. Qed.

(** What it would come to to go on: the next chunk is stored without an error
    and cannot be read back. *)
Definition demo_lost : bytes := bytes_of "qqqqq".

Lemma torn_append_misplaces_next :
  let put := put_chunk (blake3 demo_lost) demo_lost Off (store demo_torn) in
  put.1 = Ok CodecNone /\ (get (blake3 demo_lost) put.2).1 <> Ok (Some demo_lost).
Proof. vm_compute. split; [reflexivity|discriminate]. Qed.

(** So it is killed and started again. *)
Lemma demo_failed_reachable : reachable demo_limit (Up demo_failed).
Proof.
  destruct demo_torn_reachable as (r0 & Hb & Hr). exists r0. split; [done|]. etrans; [exact Hr|].
  eapply rtc_l; [apply step_kill|]. apply rtc_once.
  apply (step_open demo_limit demo_auto demo_torn (Ok tt) demo_failed). unfold demo_failed. apply outcome.
  vm_compute. reflexivity.
Qed.

Lemma demo_failed_in_step : in_step (store demo_failed).
Proof. by_decide. Qed.

Lemma demo_one_run : snapshot_bytes KBackup "first" 5 demo_files demo_failed = (Ok 1, demo_one).
Proof. unfold demo_one. apply outcome. vm_compute. reflexivity. Qed.

Lemma demo_one_reachable : reachable demo_limit (Up demo_one).
Proof.
  assert (run demo_op1 demo_failed = (Ok tt, demo_one)) as E.
  { eapply run_bytes. by rewrite demo_one_run. }
  replace demo_one with (run demo_op1 demo_failed).2 by by rewrite E.
  eapply reach_run; [apply demo_failed_reachable|apply demo_failed_in_step|by_decide|by rewrite E|done].
Qed.

(** Killed and started again. *)
Lemma demo_restart : rtc (step demo_limit) (Up demo_one) (Up demo_again).
Proof.
  eapply rtc_l; [apply step_kill|]. apply rtc_once.
  apply (step_open demo_limit demo_auto demo_one (Ok tt) demo_again). unfold demo_again. apply outcome.
  vm_compute. reflexivity.
Qed.

Lemma demo_second : rtc (step demo_limit) (Up demo_one) (Up demo_two).
Proof.
  etrans; [apply demo_restart|]. apply rtc_once.
  assert (run demo_op2 demo_again = (Ok tt, demo_two)) as E.
  { unfold demo_two. apply outcome. vm_compute. reflexivity. }
  refine (step_run demo_limit demo_op2 demo_again (Ok tt) demo_two _ _ E); by_decide.
Qed.

Lemma demo_two_reachable : reachable demo_limit (Up demo_two).
Proof.
  destruct demo_one_reachable as (r0 & Hb & Hr). exists r0. split; [done|].
  etrans; [exact Hr|apply demo_second].
Qed.

Definition demo_sn : Snapshot := the_view demo_two 1.

Lemma demo_sn_view : view demo_two 1 = Some demo_sn.
Proof. unfold demo_sn, the_view. by vm_compute. Qed.

Lemma demo_describes : describes demo_sn demo_files.
Proof.
  destruct (reachable_in_step demo_limit demo_limit_ok _ demo_failed_reachable demo_failed_in_step) as [Hw Hm].
  destruct (reached demo_limit _ _ _ _ _ (rpost_snapshot_bytes demo_limit demo_limit_ok KBackup "first" None 5
    demo_files demo_failed Hw Hm ltac:(by_decide) ltac:(by_decide)) demo_one_run) as (_ & _ & _ & Had).
  destruct Had as [_ _ _ _ (sn & Hv & Hd & _)].
  assert (view demo_one 1 = Some demo_sn) as E by by vm_compute. rewrite E in Hv. apply (inj Some) in Hv. rewrite Hv. exact Hd.
Qed.

Lemma demo_one_in_step : in_step (store demo_one).
Proof. by_decide. Qed.

Lemma demo_two_in_step : in_step (store demo_two).
Proof. by_decide. Qed.

(** The proofs below mention these states and never compute with them but by
    evaluation. *)
#[local] Opaque demo_up demo_failed demo_one demo_again demo_two demo_sn.

(** ** The theorems along it *)

Definition demo_entry : FileEntry := default {| fe_path := ""; fe_manifest := demo_manifest [] |} (sn_files demo_sn !! 1%nat).

(** The snapshot of before the restart, restored after it. *)
Lemma recorded_snapshot_restores_witness :
  fs (store (restore (picked demo_sn demo_entry) ["out"] demo_two).2) !! ["out"] = Some (bytes_of "zzzzzzzz").
Proof.
  pose proof (recorded_snapshot_restores demo_limit demo_limit_ok KBackup "first" 5 demo_files demo_failed 1
    demo_one demo_two demo_sn demo_failed_reachable demo_failed_in_step ltac:(by_decide) ltac:(by_decide) demo_one_run demo_second demo_sn_view) as H.
  assert (sn_files demo_sn !! 1%nat = Some demo_entry) as He by by vm_compute.
  destruct (Forall2_lookup_lr _ _ _ 1%nat _ _ H eq_refl He) as [_ Hr].
  assert (restore (picked demo_sn demo_entry) ["out"] demo_two =
    (Ok tt, (restore (picked demo_sn demo_entry) ["out"] demo_two).2)) as E by (apply outcome; by vm_compute).
  exact (proj2 (Hr ["out"] (Ok tt) _ E)).
Defined.

Lemma catalog_stays_whole_witness :
  tbl_get 1 (t_summaries demo_two) = Some (enc (summary demo_sn)).
Proof.
  pose proof (catalog_stays_whole demo_limit demo_limit_ok (Up demo_two) demo_two_reachable 1) as [H _].
  cbn [repo_of] in H. rewrite H, demo_sn_view. reflexivity.
Defined.

Lemma pack_files_are_bounded_witness :
  exists id f, packs (store demo_two) !! id = Some f /\ len f <= demo_limit + U32_MAX.
Proof.
  destruct (packs (store demo_two) !! a_id (active (store demo_two))) as [f|] eqn:E.
  - exists (a_id (active (store demo_two))), f. split; [exact E|].
    exact (pack_files_are_bounded demo_limit demo_limit_ok (Up demo_two) _ f demo_two_reachable E).
  - exfalso. revert E. vm_compute. discriminate.
Defined.

Definition demo_put : SM (Store (gmap bytes bytes) (gmap string bytes) (gmap string bytes)) Exn ChunkCodec :=
  put_chunk (blake3 (bytes_of "qqqqq")) (bytes_of "qqqqq") demo_auto.

Definition demo_put_state := (demo_put (store demo_two)).2.

Lemma demo_put_run : demo_put (store demo_two) = (Ok CodecZstd, demo_put_state).
Proof. unfold demo_put_state. apply outcome. vm_compute. reflexivity. Qed.
#[local] Opaque demo_put_state.

(** A compressed chunk; asking for it to be stored as it is changes nothing. *)
Lemma stored_chunk_reads_back_witness :
  (put_chunk (blake3 (bytes_of "qqqqq")) (bytes_of "qqqqq") Off demo_put_state).1 = Ok CodecZstd.
Proof.
  destruct (stored_chunk_reads_back demo_limit demo_limit_ok demo_auto (bytes_of "qqqqq") demo_two CodecZstd
    demo_put_state demo_two_reachable demo_two_in_step ltac:(by_decide) ltac:(by_decide) demo_put_run) as [_ H].
  destruct (H Off _ _ (surjective_pairing _)) as [_ [Hy|(e & He & _)]]; [exact Hy|].
  exfalso. revert He. vm_compute. discriminate.
Defined.

Lemma range_read_is_slice_witness :
  (materialise_range (fe_manifest demo_entry) 3 4 (store demo_two)).1 = Ok (bytes_of "zzzz").
Proof.
  assert (sn_files demo_sn !! 1%nat = Some demo_entry) as He by by vm_compute.
  pose proof (range_read_is_slice demo_limit demo_limit_ok demo_two 1 demo_sn demo_files 1%nat "d/b.txt"
    (bytes_of "zzzzzzzz") demo_entry 3 4 _ _ demo_two_reachable demo_sn_view demo_describes eq_refl He
    ltac:(by_decide) ltac:(lia) ltac:(lia) ltac:(by_decide) (surjective_pairing _)) as H.
  destruct ((materialise_range (fe_manifest demo_entry) 3 4 (store demo_two)).1) as [out|e] eqn:E.
  - rewrite H. reflexivity.
  - exfalso. revert E. vm_compute. discriminate.
Defined.

(** With the first snapshot gone, one of its packs goes too. *)
Definition demo_removed : DemoRepo := (run (ORemove [1]) demo_two).2.

Lemma demo_removed_reachable : reachable demo_limit (Up demo_removed).
Proof. eapply reach_run; [apply demo_two_reachable|apply demo_two_in_step|exact I|vm_compute; reflexivity|done]. Qed.

Lemma demo_removed_in_step : in_step (store demo_removed).
Proof. by_decide. Qed.

Lemma gc_reclaims_exactly_witness :
  (gc demo_removed).1 = Ok {| chunks_swept := 3; packs_removed := 0; bytes_reclaimed := 0 |} /\
  forall h, ~ referenced demo_removed h -> tbl_get h (chunks (store (gc demo_removed).2)) = None.
Proof.
  assert ((gc demo_removed).1 = Ok {| chunks_swept := 3; packs_removed := 0; bytes_reclaimed := 0 |}) as E by by vm_compute.
  split; [exact E|]. intros h Hh.
  destruct (gc_reclaims_exactly demo_limit demo_limit_ok demo_removed _ _ demo_removed_reachable demo_removed_in_step
    (outcome _ _ _ E)) as (_ & H & _). by apply H.
Defined.

Definition demo_opts : CompactOptions := {| dead_enough := fun _ _ => true |}.
Definition demo_left : Snapshot := the_view demo_removed 2.

Lemma compaction_keeps_snapshots_witness :
  view (compact demo_opts demo_removed).2 2 = Some demo_left.
Proof.
  assert ((compact demo_opts demo_removed).1 = Ok ({| chunks_swept := 3; packs_removed := 0; bytes_reclaimed := 0 |},
    {| packs_compacted := 2; chunks_moved := 2; compact_reclaimed := 18 |})) as E by by vm_compute.
  destruct (compaction_keeps_snapshots demo_limit demo_limit_ok demo_opts demo_removed _ _
    demo_removed_reachable demo_removed_in_step (outcome _ _ _ E)) as (H & _). rewrite H. by vm_compute.
Defined.

Definition demo_keep : PrunePolicy := {| keep_last := Some 1; keep_within_ms := None |}.

Lemma prune_removes_condemned_witness :
  (prune demo_keep 100 demo_two).1 = Ok [1] /\ view (prune demo_keep 100 demo_two).2 1 = None.
Proof.
  assert ((prune demo_keep 100 demo_two).1 = Ok [1]) as E by by vm_compute. split; [exact E|].
  destruct (prune_removes_condemned demo_limit demo_limit_ok demo_keep 100 demo_two _ _
    demo_two_reachable demo_two_in_step (outcome _ _ _ E) 1) as [_ H].
  etrans; [exact H|]. by vm_compute.
Defined.

Definition demo_restored : DemoRepo := (restore_paths 1 ["d/a.txt"; "nope"] ["root"] (Some "d") Overwrite demo_two).2.

Lemma restore_stays_below_root_witness :
  fs (store demo_restored) !! ["root"; "a.txt"] = Some (bytes_of "hello hello!") /\
  exists rel, ["root"; "a.txt"] = ["root"] ++ rel /\ Forall plain rel.
Proof.
  assert ((restore_paths 1 ["d/a.txt"; "nope"] ["root"] (Some "d") Overwrite demo_two).1 =
    Ok {| restored := 1; skipped := 0; rs_failed := 1 |}) as E by by vm_compute.
  split; [by vm_compute|].
  destruct (restore_stays_below_root demo_limit demo_limit_ok 1 ["d/a.txt"; "nope"] ["root"] (Some "d") Overwrite
    demo_two demo_sn demo_files _ _ demo_two_reachable demo_two_in_step demo_sn_view demo_describes (outcome _ _ _ E) ["root"; "a.txt"])
    as [H _].
  destruct H as (rel & Hq & _ & Hp); [vm_compute; discriminate|]. exists rel. split; [exact Hq|exact Hp].
Defined.

Lemma restore_paths_exact_witness : exists part, part `sublist_of` ["d/a.txt"; "nope"] /\ length part = 1%nat.
Proof.
  assert ((restore_paths 1 ["d/a.txt"; "nope"] ["root"] (Some "d") Overwrite demo_two).1 =
    Ok {| restored := 1; skipped := 0; rs_failed := 1 |}) as E by by vm_compute.
  destruct (restore_paths_exact demo_limit demo_limit_ok 1 ["d/a.txt"; "nope"] ["root"] (Some "d") demo_two demo_sn demo_files _ _
    demo_two_reachable demo_two_in_step demo_sn_view demo_describes ltac:(by_decide) ltac:(by_decide) (outcome _ _ _ E))
    as (_ & _ & part & Hs & Hl & _). exists part. split; [exact Hs|]. simpl in Hl. lia.
Defined.

Lemma snapshot_at_picks_newest_witness : find_file "nope" demo_sn = None.
Proof.
  assert ((snapshot_at "nope" 100 demo_two).1 = Ok None) as E by by vm_compute.
  pose proof (snapshot_at_picks_newest demo_limit demo_limit_ok "nope" 100 demo_two None _
    demo_two_reachable demo_two_in_step (outcome _ _ _ E)) as H. apply (H 1 demo_sn demo_sn_view). by_decide.
Defined.

Lemma verify_is_exact_witness :
  Forall (chunk_ok ReadData (store demo_two)) (m_chunks (fe_manifest demo_entry)).
Proof.
  assert ((verify None ReadData demo_two).1 =
    Ok {| snapshots_checked := 2; files_checked := 3; chunks_checked := 7; damage := [] |}) as E by by vm_compute.
  destruct (verify_is_exact demo_limit demo_limit_ok None ReadData demo_two _ _ demo_two_reachable demo_two_in_step
    (outcome _ _ _ E)) as [H _].
  assert (sn_files demo_sn !! 1%nat = Some demo_entry) as He by by vm_compute.
  refine (proj1 (H 1 demo_sn demo_entry demo_sn_view I (list_elem_of_lookup_2 _ _ _ He) _)).
  intros d Hd. destruct (not_elem_of_nil d Hd).
Defined.

(** A third snapshot, of the same source as the second. *)
Definition demo_three : DemoRepo := (run (OBytes KCopy "third" (Some "src") 20 [("x", bytes_of "hell")]) demo_two).2.

Lemma demo_three_reachable : reachable demo_limit (Up demo_three).
Proof. eapply reach_run; [apply demo_two_reachable|apply demo_two_in_step|by_decide|vm_compute; reflexivity|done]. Qed.

Lemma prune_source_keeps_newest_witness :
  view (prune_source "src" (LastN 1) 100 demo_three).2 3 <> None.
Proof.
  assert (exists rep, (prune_source "src" (LastN 1) 100 demo_three).1 = Ok rep /\ snapshots_removed rep = 1)
    as (rep & E & _) by (eexists; split; [vm_compute; reflexivity|reflexivity]).
  destruct (prune_source_keeps_newest demo_limit demo_limit_ok "src" (LastN 1) 100 demo_three rep _
    demo_three_reachable ltac:(by_decide) ltac:(by_decide) (outcome _ _ _ E)) as (ids & rows & _ & _ & Hv & Hown & _).
  intros Hn. assert (view demo_three 3 <> None) as H3 by by vm_compute.
  assert (3 ∈ ids \/ 3 ∉ ids) as [Hin|Hnin] by (destruct (decide (3 ∈ ids)); auto).
  - revert Hn. vm_compute. discriminate.
  - apply H3. pose proof (Hv 3) as H. rewrite decide_False in H by done. etrans; [symmetry; exact H|exact Hn].
Defined.

Definition demo_tree : Node :=
  NDir true [("top", NFile (bytes_of "tttt")); ("d", NDir true [("a.txt", NFile (bytes_of "hello hello!")); ("link", NSymlink)])].

Definition demo_source : SM DemoRepo Exn SourceSnapshotSummary :=
  snapshot_source (fun _ => true) (fun _ => true) KBackup "tree" (Some "t") 30 demo_tree.

Lemma snapshot_source_records_tree_witness :
  exists sum sn, (demo_source demo_two).1 = Ok sum /\ view (demo_source demo_two).2 (sum_id sum) = Some sn /\
    fe_path <$> sn_files sn = ["top"; "d/a.txt"].
Proof.
  assert (exists sum, (demo_source demo_two).1 = Ok sum) as [sum E] by (eexists; vm_compute; reflexivity).
  destruct (snapshot_source_records_tree demo_limit demo_limit_ok (fun _ => true) (fun _ => true) KBackup "tree"
    (Some "t") 30 demo_tree demo_two (Ok sum) (demo_source demo_two).2 demo_two_reachable demo_two_in_step ltac:(by_decide)
    ltac:(by_decide) (outcome _ _ _ E)) as [_ H].
  destruct (H sum eq_refl) as (_ & _ & sn & Hv & _ & _ & Hf). exists sum, sn. split; [exact E|]. split; [exact Hv|].
  revert Hf. generalize (sn_files sn). intros fs Hf. apply Forall2_cons_inv_l in Hf as (e1 & l1 & [H1 _] & Hf & ->).
  apply Forall2_cons_inv_l in Hf as (e2 & l2 & [H2 _] & Hf & ->). apply Forall2_nil_inv_l in Hf as ->.
  cbn [fmap list_fmap]. by rewrite H1, H2.
Defined.

(** Replication into an empty repository elsewhere. *)
Definition other_env : ChunkWorld := demo_world 5000 4000.
Definition other_up : DemoRepo := (open_repo (EN := other_env) demo_limit Off demo_blank).2.

Lemma other_laws : @WorldLaws other_env.
Proof. by apply demo_world_laws. Qed.

Lemma other_up_reachable : reachable (EN := other_env) demo_limit (Up other_up).
Proof.
  exists demo_blank. split; [apply blank_demo|]. apply rtc_once.
  apply (step_open (EN := other_env) demo_limit Off demo_blank (Ok tt) other_up).
  assert ((open_repo (EN := other_env) demo_limit Off demo_blank).1 = Ok tt) as E by by vm_compute.
  exact (outcome _ _ _ E).
Qed.

#[local] Opaque other_up.

Definition demo_copy := replicate_to demo_env other_env (demo_one, other_up).

Lemma demo_one_views id sn : view demo_one id = Some sn -> id = 1 /\ sn = demo_sn.
Proof.
  intros H. assert (id ∈ (tbl_iter (t_snapshots demo_one)).*1) as Hin.
  { unfold view in H. destruct (tbl_get id (t_snapshots demo_one)) as [v|] eqn:E; [|done].
    apply (list_elem_of_fmap_2 fst _ (id, v)). by apply tbl_iter_get. }
  assert ((tbl_iter (t_snapshots demo_one)).*1 = [1]) as E by by vm_compute. rewrite E in Hin.
  apply list_elem_of_singleton in Hin as ->. split; [done|].
  assert (view demo_one 1 = Some demo_sn) as E1 by by vm_compute. rewrite E1 in H. by apply (inj Some) in H.
Qed.

Lemma other_up_views id : view other_up id = None.
Proof.
  assert (t_snapshots other_up = ∅) as E by by vm_compute. unfold view. rewrite E. reflexivity.
Qed.

Lemma replication_copies_snapshots_witness :
  exists id sn, view demo_copy.2.2 id = Some sn /\ describes sn demo_files.
Proof.
  assert (exists rep, demo_copy.1 = Ok rep) as [rep E] by (eexists; vm_compute; reflexivity).
  assert (demo_copy = (Ok rep, (demo_copy.2.1, demo_copy.2.2))) as Ec.
  { revert E. destruct demo_copy as [x [r1 r2]]. intros <-. reflexivity. }
  assert (forall id sn, view demo_one id = Some sn \/ view other_up id = Some sn -> in_play (enc (probe_of sn))) as Hp.
  { intros id sn [[-> ->]%demo_one_views|Ho]; [by_decide|]. rewrite other_up_views in Ho. discriminate. }
  destruct (replication_copies_snapshots demo_env other_env (WL1 := demo_laws) (WL2 := other_laws) demo_limit demo_limit demo_limit_ok demo_limit_ok demo_one other_up (Ok rep) _ _
    demo_one_reachable other_up_reachable demo_one_in_step ltac:(by_decide) ltac:(by_decide) Hp Ec) as (_ & _ & H).
  destruct (H rep eq_refl 1 demo_sn demo_files) as (id & sn & Hv & Hd & _).
  - by vm_compute.
  - exact demo_describes.
  - exists id, sn. split; [exact Hv|exact Hd].
Defined.

(** ** Comparing and reporting *)

Definition demo_diff : SM DemoRepo Exn SnapshotDiff := diff_snapshots 1 2.

Lemma diff_is_exact_witness :
  exists d, (demo_diff demo_two).1 = Ok d /\
    sd_added d = 1 /\ sd_removed d = 2 /\ unique_of [demo_sn; the_view demo_two 2] = wrap64 (unique_of [demo_sn] + sd_bytes_added d) /\ sd_bytes_added d = 4.
Proof.
  destruct ((demo_diff demo_two).1) as [d|e] eqn:E; [|vm_compute in E; discriminate].
  pose proof (diff_is_exact demo_limit demo_limit_ok 1 2 demo_two (Ok d) _ demo_two_reachable (outcome _ _ _ E)) as [_ H].
  destruct H as (a & b & Ha & Hb & [_ _ _ _ _ _ Hu _]). rewrite demo_sn_view in Ha. apply (inj Some) in Ha.
  assert (view demo_two 2 = Some (the_view demo_two 2)) as Hb' by by vm_compute. rewrite Hb' in Hb. apply (inj Some) in Hb.
  exists d. split; [reflexivity|]. rewrite Ha, Hb. split; [|split; [|split; [exact Hu|]]]; vm_compute in E; by injection E as <-.
Defined.

Definition demo_report : SM DemoRepo Exn RepoReport := report 2.

Definition sized_dec (cs : list ChunkRef) : bool := forallb (fun a => forallb (fun b => negb (bool_decide (c_hash a = c_hash b)) || (c_len a =? c_len b)) cs) cs.

Lemma sized_dec_sound cs : sized_dec cs = true -> sized cs.
Proof.
  unfold sized_dec. rewrite forallb_forall. intros H a b Ha%list_elem_of_In Hb%list_elem_of_In E. specialize (H a Ha). rewrite forallb_forall in H.
  specialize (H b Hb). rewrite bool_decide_true in H by done. by apply Z.eqb_eq.
Qed.

Lemma report_is_exact_witness :
  exists rep, (demo_report demo_two).1 = Ok rep /\ faithful_report (snaps_of demo_two) 2 rep /\ length (rp_growth rep) = 1%nat /\ length (rp_by_kind rep) = 2%nat.
Proof.
  destruct ((demo_report demo_two).1) as [rep|e] eqn:E; [|vm_compute in E; discriminate].
  assert (Hs : sized (refs_of (snaps_of demo_two))) by (apply sized_dec_sound; by vm_compute).
  pose proof (report_is_exact demo_limit demo_limit_ok 2 demo_two rep _ demo_two_reachable Hs (outcome _ _ _ E)) as [H _].
  exists rep. split; [reflexivity|]. split; [exact H|]. split; vm_compute in E; by injection E as <-.
Defined.

Definition demo_exchanged : Manifest :=
  {| file_hash := repeat x00 32; m_size := 7; m_chunks := [{| c_hash := repeat x01 32; c_offset := 0; c_len := 3; c_codec := CodecNone |};
       {| c_hash := repeat x02 32; c_offset := 3; c_len := 4; c_codec := CodecZstd |}] |}.

Lemma cdr_round_trip_witness : to_manifest (from_manifest demo_exchanged) = Ok demo_exchanged /\ exchangeable demo_exchanged.
Proof.
  assert (E : to_manifest (from_manifest demo_exchanged) = Ok demo_exchanged) by by vm_compute. split; [exact E|].
  exact (proj2 (proj1 (cdr_round_trip (from_manifest demo_exchanged) demo_exchanged (Z.le_refl 0)) E)).
Defined.

(** ** Mounting *)

Lemma demo_paths : fe_path <$> sn_files demo_sn = demo_files.*1.
Proof. by vm_compute. Qed.

Lemma demo_separate : separate (sn_files demo_sn).
Proof.
  intros i j f g Hi Hj Hij _. pose proof demo_paths as Hp.
  assert (Pi : demo_files.*1 !! i = Some (fe_path f)) by (rewrite <- Hp, list_lookup_fmap, Hi; done).
  assert (Pj : demo_files.*1 !! j = Some (fe_path g)) by (rewrite <- Hp, list_lookup_fmap, Hj; done).
  unfold parts_of. clear Hp Hi Hj. destruct i as [|[|i]], j as [|[|j]]; try done; cbn in Pi, Pj; injection Pi as <-; injection Pj as <-; by_decide.
Qed.

Definition demo_map : TreeInodeMap := from_tree (build_from_snapshot demo_sn).

Definition demo_mounted_read := read demo_map None true 4 3 4 (store demo_two).

Lemma mounted_file_reads_back_witness :
  ino_walk demo_map ROOT_INODE ["d"; "b.txt"] = Some 4 /\ demo_mounted_read.1 = Ok (RData (bytes_of "zzzz")).
Proof.
  pose proof (mounted_file_reads_back demo_limit demo_limit_ok demo_two 1 demo_sn demo_files None 0 demo_two_reachable demo_sn_view demo_describes
    demo_separate) as H.
  cbv zeta in H. apply proj1 in H.
  destruct (H "d/b.txt" (bytes_of "zzzzzzzz")) as (ino & attr & Hino & _ & _ & _ & _ & Hread); [|done|done|].
  { by_decide. }
  assert (E : ino_walk demo_map ROOT_INODE ["d"; "b.txt"] = Some 4) by by vm_compute. split; [exact E|].
  assert (ino = 4) as -> by (unfold demo_map in E; change (path_parts "d/b.txt") with ["d"; "b.txt"] in Hino; congruence).
  destruct (demo_mounted_read) as [x s'] eqn:Er. specialize (Hread 3 4 x s' ltac:(done) ltac:(by_decide) Er).
  assert (exists out, x = Ok (RData out)) as [out ->].
  { change x with (x, s').1. rewrite <- Er. eexists. vm_compute. reflexivity. }
  cbn [fst]. rewrite Hread. reflexivity.
Defined.
