(* ===== verification/Filter.v ===== *)
(** * Enumeration filters ([freally-core/src/filter.rs])

    [FilterSet] is what the user sets, [CompiledFilters] what the walker asks.
    The glob language is the [globset] crate: a parser and a matcher, given to
    the definitions as [Globs]. *)
From S2P Require Import Prelude.
From S2P Require Import Text.
From stdpp Require Import options.
Open Scope Z_scope.

(** [globset]: patterns are parsed once, and a set matches when one of its
    patterns does. *)
Class Globs := {
  Glob : Type;
  glob_new : string -> option Glob;
  glob_match : Glob -> path -> bool;
}.

(** What [std::fs::Metadata] tells a filter: size, modification time when the
    platform has one, the Windows attribute bits and the read-only bit. *)
Record Metadata := {
  m_len : Z;
  m_modified : option Z;
  m_attributes : Z;
  m_readonly : bool;
}.

Inductive Platform := Unix | Windows | OtherPlatform.

Record FilterSet := {
  fs_include_globs : list string;
  fs_exclude_globs : list string;
  fs_min_size_bytes : option Z;
  fs_max_size_bytes : option Z;
  fs_min_mtime : option Z;
  fs_max_mtime : option Z;
  fs_skip_hidden : bool;
  fs_skip_system : bool;
  fs_skip_readonly : bool;
}.

Definition default_filter_set : FilterSet :=
  {| fs_include_globs := []; fs_exclude_globs := []; fs_min_size_bytes := None;
     fs_max_size_bytes := None; fs_min_mtime := None; fs_max_mtime := None;
     fs_skip_hidden := false; fs_skip_system := false; fs_skip_readonly := false |}.

Definition is_nil {A} (l : list A) : bool := match l with [] => true | _ => false end.
Definition is_none {A} (o : option A) : bool := match o with None => true | _ => false end.

(** [FilterSet::is_empty] *)
Definition filter_set_is_empty (f : FilterSet) : bool :=
  is_nil (fs_include_globs f) && is_nil (fs_exclude_globs f)
  && is_none (fs_min_size_bytes f) && is_none (fs_max_size_bytes f)
  && is_none (fs_min_mtime f) && is_none (fs_max_mtime f)
  && negb (fs_skip_hidden f) && negb (fs_skip_system f) && negb (fs_skip_readonly f).

(** [FilterError]: which list the pattern came from, and the pattern. *)
Inductive FilterError := InvalidGlob (kind pattern : string).

Section filters.
Context {G : Globs}.

Record CompiledFilters := {
  cf_include : option (list Glob);
  cf_exclude : option (list Glob);
  cf_min_size_bytes : option Z;
  cf_max_size_bytes : option Z;
  cf_min_mtime : option Z;
  cf_max_mtime : option Z;
  cf_skip_hidden : bool;
  cf_skip_system : bool;
  cf_skip_readonly : bool;
}.

Fixpoint build_glob_set (kind : string) (patterns : list string) : result FilterError (list Glob) :=
  match patterns with
  | [] => Ok []
  | p :: rest =>
      let? g := ok_or (glob_new p) (InvalidGlob kind p) in
      let? gs := build_glob_set kind rest in
      Ok (g :: gs)
  end.

(** [(!globs.is_empty()).then_some(set)] *)
Definition then_some {A} (b : bool) (a : A) : option A := if b then Some a else None.

(** [FilterSet::compile] *)
Definition compile (f : FilterSet) : result FilterError CompiledFilters :=
  let? include := build_glob_set "include" (fs_include_globs f) in
  let? exclude := build_glob_set "exclude" (fs_exclude_globs f) in
  Ok {| cf_include := then_some (negb (is_nil (fs_include_globs f))) include;
        cf_exclude := then_some (negb (is_nil (fs_exclude_globs f))) exclude;
        cf_min_size_bytes := fs_min_size_bytes f; cf_max_size_bytes := fs_max_size_bytes f;
        cf_min_mtime := fs_min_mtime f; cf_max_mtime := fs_max_mtime f;
        cf_skip_hidden := fs_skip_hidden f; cf_skip_system := fs_skip_system f;
        cf_skip_readonly := fs_skip_readonly f |}.

(** [GlobSet::is_match] *)
Definition is_match (gs : list Glob) (rel : path) : bool := existsb (fun g => glob_match g rel) gs.

Definition is_hidden (pl : Platform) (rel : path) (m : Metadata) : bool :=
  match pl with
  | Unix => match last rel with
            | Some n => negb (String.eqb n "..") && starts_with "." n
            | None => false
            end
  | Windows => Z.testbit (m_attributes m) 1
  | OtherPlatform => false
  end.

Definition is_system (pl : Platform) (m : Metadata) : bool :=
  match pl with Windows => Z.testbit (m_attributes m) 2 | _ => false end.

Definition is_readonly (m : Metadata) : bool := m_readonly m.

(** [if let Some(x) = o && test(x) { return false; }] *)
Definition unless {A} (o : option A) (test : A -> bool) : bool :=
  match o with Some x => negb (test x) | None => true end.

Definition passes_file (pl : Platform) (c : CompiledFilters) (rel : path) (m : Metadata) : bool :=
  unless (cf_include c) (fun inc => negb (is_match inc rel))
  && unless (cf_exclude c) (fun exc => is_match exc rel)
  && unless (cf_min_size_bytes c) (fun lo => m_len m <? lo)
  && unless (cf_max_size_bytes c) (fun hi => hi <? m_len m)
  && match m_modified m with
     | Some t => unless (cf_min_mtime c) (fun lo => t <? lo) && unless (cf_max_mtime c) (fun hi => hi <? t)
     | None => true
     end
  && negb (cf_skip_hidden c && is_hidden pl rel m)
  && negb (cf_skip_system c && is_system pl m)
  && negb (cf_skip_readonly c && is_readonly m).

Definition passes_dir (pl : Platform) (c : CompiledFilters) (rel : path) (m : Metadata) : bool :=
  unless (cf_exclude c) (fun exc => is_match exc rel)
  && negb (cf_skip_hidden c && is_hidden pl rel m)
  && negb (cf_skip_system c && is_system pl m).

(** ** What a filter set means *)

Lemma build_glob_set_ok kind ps gs :
  build_glob_set kind ps = Ok gs <-> Forall2 (fun p g => glob_new p = Some g) ps gs.
Proof.
  revert gs. induction ps as [|p ps IH]; intros gs; simpl; [split; [by intros [= <-]|by inversion 1]|].
  destruct (glob_new p) as [g|] eqn:Hg; simpl.
  - destruct (build_glob_set kind ps) as [l|e]; simpl.
    + split; [intros [= <-]; constructor; [done|by apply IH]|]. inversion 1 as [|? g' ? l' Hp Hl]; subst.
      rewrite Hg in Hp. injection Hp as <-. apply IH in Hl. by injection Hl as <-.
    + split; [done|]. inversion 1 as [|? ? ? l' _ Hl]; subst. by apply IH in Hl.
  - split; [done|]. inversion 1; congruence.
Qed.

(** The rule for one file in terms of what the user set. *)
Definition file_wanted (pl : Platform) (f : FilterSet) (rel : path) (m : Metadata) : Prop :=
  let matches p := exists g, glob_new p = Some g /\ glob_match g rel = true in
  (fs_include_globs f = [] \/ Exists matches (fs_include_globs f)) /\
  ~ Exists matches (fs_exclude_globs f) /\
  (forall lo, fs_min_size_bytes f = Some lo -> lo <= m_len m) /\
  (forall hi, fs_max_size_bytes f = Some hi -> m_len m <= hi) /\
  (forall lo t, fs_min_mtime f = Some lo -> m_modified m = Some t -> lo <= t) /\
  (forall hi t, fs_max_mtime f = Some hi -> m_modified m = Some t -> t <= hi) /\
  (fs_skip_hidden f = true -> is_hidden pl rel m = false) /\
  (fs_skip_system f = true -> is_system pl m = false) /\
  (fs_skip_readonly f = true -> m_readonly m = false).

Lemma is_match_spec ps gs rel :
  Forall2 (fun p g => glob_new p = Some g) ps gs ->
  is_match gs rel = true <-> Exists (fun p => exists g, glob_new p = Some g /\ glob_match g rel = true) ps.
Proof.
  unfold is_match. induction 1 as [|p g ps gs Hp Hrest IH]; simpl.
  - split; [done|by inversion 1].
  - rewrite orb_true_iff, IH, Exists_cons. split; (intros [H|H]; [left|by right]); [eauto|].
    destruct H as (g' & ? & ?). congruence.
Qed.

Lemma unless_spec {A} (o : option A) test : unless o test = true <-> forall x, o = Some x -> test x = false.
Proof.
  destruct o as [a|]; simpl; [|by split; [intros _ ? [=]|]]. rewrite negb_true_iff.
  split; [by intros ? ? [= <-]|eauto].
Qed.

Lemma guard_spec b c : negb (b && c) = true <-> (b = true -> c = false).
Proof. destruct b, c; naive_solver. Qed.

Lemma included_spec ps gs rel :
  Forall2 (fun p g => glob_new p = Some g) ps gs ->
  unless (then_some (negb (is_nil ps)) gs) (fun inc => negb (is_match inc rel)) = true <->
  ps = [] \/ Exists (fun p => exists g, glob_new p = Some g /\ glob_match g rel = true) ps.
Proof.
  intros H. rewrite <- (is_match_spec _ _ _ H). destruct ps as [|p ps]; simpl; [naive_solver|].
  rewrite negb_involutive. naive_solver.
Qed.

Lemma excluded_spec ps gs rel :
  Forall2 (fun p g => glob_new p = Some g) ps gs ->
  unless (then_some (negb (is_nil ps)) gs) (fun exc => is_match exc rel) = true <->
  ~ Exists (fun p => exists g, glob_new p = Some g /\ glob_match g rel = true) ps.
Proof.
  intros H. rewrite <- (is_match_spec _ _ _ H). destruct ps as [|p ps]; simpl.
  - inversion H; subst. naive_solver.
  - rewrite negb_true_iff. by destruct (is_match gs rel).
Qed.

(** When the patterns of a filter set compile, a file passes exactly if
    the rule the user wrote wants it: it matches an include pattern when there
    are any, no exclude pattern, and keeps every bound and attribute rule. *)
Theorem passes_file_exact pl f c rel m :
  compile f = Ok c -> passes_file pl c rel m = true <-> file_wanted pl f rel m.
Proof.
  unfold compile. intros (inc & Hi & (exc & He & [= <-])%result_bind_Ok)%result_bind_Ok.
  apply build_glob_set_ok in Hi, He. unfold passes_file, file_wanted. simpl.
  rewrite !andb_true_iff, (included_spec _ _ _ Hi), (excluded_spec _ _ _ He), !unless_spec, !guard_spec.
  setoid_rewrite Z.ltb_ge. unfold is_readonly.
  destruct (m_modified m) as [t|]; [rewrite andb_true_iff, !unless_spec; setoid_rewrite Z.ltb_ge|];
    naive_solver.
Qed.

(** Directories answer to the exclude patterns and the attribute rules only:
    a directory that no exclude pattern and no attribute rule rejects is
    walked, whatever the include patterns and the bounds say. *)
Lemma passes_dir_ignores_includes pl f c rel m :
  compile f = Ok c ->
  passes_dir pl c rel m = true <->
  ~ Exists (fun p => exists g, glob_new p = Some g /\ glob_match g rel = true) (fs_exclude_globs f) /\
  (fs_skip_hidden f = true -> is_hidden pl rel m = false) /\
  (fs_skip_system f = true -> is_system pl m = false).
Proof.
  unfold compile. intros (inc & Hi & (exc & He & [= <-])%result_bind_Ok)%result_bind_Ok.
  apply build_glob_set_ok in Hi, He. unfold passes_dir. simpl.
  rewrite !andb_true_iff, (excluded_spec _ _ _ He), !guard_spec. tauto.
Qed.

(** An empty set compiles and lets everything through. *)
Lemma empty_set_passes pl f rel m :
  filter_set_is_empty f = true -> exists c, compile f = Ok c /\ passes_file pl c rel m = true.
Proof.
  destruct f as [[] [] [] [] [] [] [] [] []]; try done. intros _. eexists. split; [done|].
  unfold passes_file. simpl. by destruct (m_modified m).
Qed.
End filters.
