(* ===== verification/TreeTypes.v ===== *)
(** * Trees on disk and the collision policy ([freally-core]: [tree.rs], [collision.rs], [options.rs])

    What a tree copy works on: a disk of files, directories and symbolic
    links, the operating system's calls over it, the options, events and
    report of a tree copy, and [collision.rs].

    A path is absolute, a list of components.  Where the kernel ends up when
    it walks a path through links is [follow], a parameter; the calls are
    written over it.  Calls are numbered by the tick at which they are made,
    and the environment says which ones fail.

    The second part is the walk of a source tree and its batches. *)
From S2P Require Import Prelude.
From S2P Require Import Text.
From S2P Require Import Files.
From S2P Require Import CopyTypes.
From S2P Require Import Filter.
From stdpp Require Import pretty.
From stdpp Require Import options.
Open Scope Z_scope.

Inductive Node := NFile (f : File) | NLink (target : string) | NDir.
Abbreviation Disk := (gmap path Node) (only parsing).

#[export] Instance file_eq_dec : EqDecision File.
Proof. solve_decision. Defined.
#[export] Instance node_eq_dec : EqDecision Node.
Proof. solve_decision. Defined.

Definition node_at (d : Disk) (p : path) : option Node :=
  match p with [] => Some NDir | _ => d !! p end.

(** The kinds of [std::io::Error] the tree code tells apart. *)
Inductive IoKind :=
| IoNotFound | IoPermissionDenied | IoInterrupted | IoStorageFull | IoDirectoryNotEmpty
| IoCrossesDevices | IoOtherKind.

(** [CopyErrorKind::from_io] *)
Definition kind_from_io (k : IoKind) : CopyErrorKind :=
  match k with
  | IoNotFound => NotFound
  | IoPermissionDenied => PermissionDenied
  | IoInterrupted => Interrupted
  | IoStorageFull => DiskFull
  | _ => IoOther
  end.

(** ** Options, events and reports *)

Inductive CollisionPolicy :=
| OnSkip | OnOverwrite | OnOverwriteIfNewer | OnKeepBoth | OnRename (name : string) | OnPrompt.

Inductive CollisionResolution := UseSkip | UseOverwrite | UseRename (name : string) | UseAbort.

Inductive CollisionDecision := DSkip | DWrite (p : path) | DAbort.

Inductive ErrorPolicy := EpAsk | EpSkip | EpRetryN (max_attempts backoff_ms : Z) | EpAbort.

Inductive ErrorAction := EaRetry | EaSkip | EaAbort.

Record TreeOptions := {
  t_file : CopyOptions;
  t_collision : CollisionPolicy;
  t_on_error : ErrorPolicy;
  t_concurrency : Z;
  t_follow_symlinks : bool;
  t_filters : option FilterSet;
}.

Definition DEFAULT_TREE_CONCURRENCY : Z := 4.

(** [TreeOptions::default] *)
Definition default_tree_options : TreeOptions :=
  {| t_file := default_copy_options; t_collision := OnSkip; t_on_error := EpAbort;
     t_concurrency := DEFAULT_TREE_CONCURRENCY; t_follow_symlinks := false; t_filters := None |}.

Definition clamped_concurrency (o : TreeOptions) : Z := clamp (t_concurrency o) 1 64.

Definition clamped_on_error (o : TreeOptions) : ErrorPolicy :=
  match t_on_error o with
  | EpRetryN max_attempts backoff_ms => EpRetryN (Z.min max_attempts 10) (Z.min backoff_ms 10000)
  | other => other
  end.

Record MoveOptions := { mv_copy : CopyOptions; mv_strict_rename : bool }.

(** [MoveOptions::default] *)
Definition default_move_options : MoveOptions :=
  {| mv_copy := {| buffer_size := DEFAULT_BUFFER_SIZE; fsync_on_close := true; preserve_times := true;
                   preserve_permissions := true; keep_partial := false; fail_if_exists := false; verify := None;
                   fsync_before_verify := true; strategy := Auto; fast_copy_hook := None; journaled := false;
                   journal_file_idx := 0; dest_jail_root := None; versioning_enabled := false |};
     mv_strict_rename := false |}.

(** [TreeReport]; times and rates are left out. *)
Record TreeReport := {
  tr_root_src : path; tr_root_dst : path; tr_files : Z; tr_bytes : Z; tr_skipped : Z; tr_errored : Z
}.

(** The events of a tree copy beyond those of its files. *)
Inductive TreeEvent :=
| TreeStarted (root_src root_dst : path) (total_files total_bytes : Z)
| TreeProgress (files_done files_total bytes_done bytes_total : Z)
| TreeCompleted (files bytes : Z)
| TreeFailed (err : CopyError)
| FileError (err : CopyError)
| ErrorPromptSent (err : CopyError)
| CollisionSent (src dst : path)
| FileCompleted (bytes : Z).

(** [CopyError::is_cancelled].  An error of the operating system carries its
    number and is never a cancellation; the engine's calls are taken not to
    fail with an interruption, which the standard library retries. *)
Definition is_cancelled_error (e : CopyError) : bool :=
  match ce_kind e with Interrupted => true | _ => false end.

(** ** The environment *)

Class TreeEnv := {
  follow : Disk -> path -> path;
  os : nat -> option IoKind;           (* does the call fail *)
  made : nat -> nat;                   (* directories made before [create_dir_all] failed *)
  answer_collision : nat -> option CollisionResolution;
  answer_error : nat -> option ErrorAction;
  dir_modified : path -> Z;
  rename : nat -> Disk -> path -> path -> result IoKind Disk;
}.

(** No component of the way to [p], nor [p] itself, is a link. *)
Definition plain_at (d : Disk) (p : path) : Prop := forall q t, q `prefix_of` p -> d !! q <> Some (NLink t).

(** The walk of a path that meets no link ends where it started, and a rename
    that succeeds moves the file. *)
Class OsLaws (E : TreeEnv) : Prop := {
  follow_plain : forall d p, plain_at d p -> follow d p = p;
  rename_moves : forall n d src dst d' f,
    rename n d src dst = Ok d' -> plain_at d src -> plain_at d dst -> d !! src = Some (NFile f) ->
    d' !! dst = Some (NFile f);
}.

Section calls.
Context {E : TreeEnv}.

(** The entry a path names when its last component is not followed. *)
Definition place (d : Disk) (p : path) : path :=
  match parent p, last p with
  | Some q, Some n => follow d q ++ [n]
  | _, _ => []
  end.

(** [symlink_metadata] and [metadata] *)
Definition lstat (d : Disk) (p : path) : option Node := node_at d (place d p).
Definition stat (d : Disk) (p : path) : option Node := node_at d (follow d p).

Definition is_dir (d : Disk) (p : path) : bool :=
  match stat d p with Some NDir => true | _ => false end.

(** [fs::create_dir_all]: component by component from [at_]; what exists must
    be a directory or lead to one. *)
Fixpoint make_dirs (d : Disk) (at_ rest : path) : Disk * option IoKind :=
  match rest with
  | [] => (d, None)
  | c :: r =>
      let p := at_ ++ [c] in
      match d !! p with
      | None => make_dirs (<[p := NDir]> d) p r
      | Some _ => if is_dir d p then make_dirs d (follow d p) r else (d, Some IoOtherKind)
      end
  end.

Definition create_dir_all (n : nat) (d : Disk) (p : path) : Disk * option IoKind :=
  match os n with
  | None => make_dirs d [] p
  | Some k => ((make_dirs d [] (take (made n) p)).1, Some k)
  end.

(** [fs::remove_file] and [fs::remove_dir] *)
Definition remove_file (n : nat) (d : Disk) (p : path) : result IoKind Disk :=
  match os n with
  | Some k => Err k
  | None =>
      match lstat d p with
      | None => Err IoNotFound
      | Some NDir => Err IoOtherKind
      | Some _ => Ok (delete (place d p) d)
      end
  end.

Definition below (p q : path) : bool := path_starts_with q p && negb (bool_decide (q = p)).

Definition has_children (d : Disk) (p : path) : bool := existsb (fun kv => below p kv.1) (map_to_list d).

Definition remove_dir (n : nat) (d : Disk) (p : path) : result IoKind Disk :=
  match os n with
  | Some k => Err k
  | None =>
      match lstat d p with
      | None => Err IoNotFound
      | Some NDir => if has_children d (place d p) then Err IoDirectoryNotEmpty
                     else Ok (delete (place d p) d)
      | Some _ => Err IoOtherKind
      end
  end.

(** [fs::read_link] and [symlink] *)
Definition read_link (d : Disk) (p : path) : result IoKind string :=
  match lstat d p with
  | Some (NLink t) => Ok t
  | Some _ => Err IoOtherKind
  | None => Err IoNotFound
  end.

Definition make_symlink (n : nat) (d : Disk) (target : string) (p : path) : result IoKind Disk :=
  match os n with
  | Some k => Err k
  | None =>
      match lstat d p, parent p with
      | Some _, _ => Err IoOtherKind
      | None, Some q => if is_dir d q then Ok (<[place d p := NLink target]> d) else Err IoNotFound
      | None, None => Err IoOtherKind
      end
  end.

(** [Path::join] with a name from outside: it may have several components,
    and an absolute one replaces the path. *)
Definition join_name (p : path) (name : string) : path :=
  let parts := filter (fun c => negb (String.eqb c "") && negb (String.eqb c ".")) (split_on "/" name) in
  if starts_with "/" name then parts else p ++ parts.

(** ** [collision.rs] *)

Definition path_exists (d : Disk) (p : path) : bool :=
  match lstat d p with Some _ => true | None => false end.

Definition modified (d : Disk) (p : path) : option Z :=
  match stat d p with
  | Some (NFile f) => Some (f_mtime_ms f)
  | Some _ => Some (dir_modified (follow d p))
  | None => None
  end.

Definition source_is_newer (d : Disk) (src dst : path) : option bool :=
  match modified d src, modified d dst with
  | Some st, Some dt => Some (dt <? st)
  | _, _ => None
  end.

(** [format!("{stem}_{n}")], with the extension when there is one. *)
Definition numbered (stem : string) (ext : option string) (n : N) : string :=
  match ext with
  | None | Some EmptyString => stem +:+ "_" +:+ pretty n
  | Some e => stem +:+ "_" +:+ pretty n +:+ "." +:+ e
  end.

Definition keep_both_path (d : Disk) (dst : path) : option path :=
  match parent dst, last dst with
  | Some dir, Some name =>
      if String.eqb name ".." then None
      else
        let '(stem, ext) := stem_ext name in
        first_from (fun candidate => negb (path_exists d candidate))
                   (fun n => dir ++ [numbered stem ext n]) 2 (N.to_nat 9998)
  | _, _ => None
  end.

(** [prompt]: a closed event channel or a dropped reply is a skip. *)
Definition prompt (reply : option CollisionResolution) (dst : path) : CollisionDecision :=
  match reply with
  | Some UseOverwrite => DWrite dst
  | Some (UseRename name) =>
      DWrite (match parent dst with Some p => join_name p name | None => ["renamed"] end)
  | Some UseSkip | None => DSkip
  | Some UseAbort => DAbort
  end.

Definition resolve (n : nat) (policy : CollisionPolicy) (d : Disk) (src dst : path) : CollisionDecision :=
  if negb (path_exists d dst) then DWrite dst
  else
    match policy with
    | OnSkip => DSkip
    | OnOverwrite => DWrite dst
    | OnOverwriteIfNewer =>
        match source_is_newer d src dst with Some true => DWrite dst | _ => DSkip end
    | OnKeepBoth => match keep_both_path d dst with Some fresh => DWrite fresh | None => DSkip end
    | OnRename name =>
        DWrite (match parent dst with Some p => join_name p name | None => join_name [] name end)
    | OnPrompt => prompt (answer_collision n) dst
    end.
End calls.

(** * The walk of a source tree ([enumerate_streaming] of [freally-core/src/tree.rs])

    [walkdir] yields the entries of the tree, parents before children,
    siblings by name; what it yields is an argument, a list of [WalkItem]s.
    [enumerate] turns it into the batches ([Plan]) that the walker sends to
    the dispatcher. *)

Inductive EntryKind := KDir | KFile | KSymlink.

#[export] Instance entry_kind_eq : EqDecision EntryKind.
Proof. solve_decision. Defined.

Record Entry := { e_src : path; e_rel : path; e_kind : EntryKind }.

(** [Plan] *)
Record Plan := { p_entries : list Entry; p_total_files : Z; p_total_bytes : Z }.

Definition empty_plan : Plan := {| p_entries := []; p_total_files := 0; p_total_bytes := 0 |}.

(** What the iterator yields: an entry with its type and what [metadata()]
    gives, a subdirectory that may not be read, or another error. *)
Inductive WalkItem :=
| WEntry (p : path) (k : EntryKind) (meta : option Metadata)
| WDenied (p : path)
| WFailed (p : path).

Definition item_path (w : WalkItem) : path :=
  match w with WEntry p _ _ | WDenied p | WFailed p => p end.

(** [path.strip_prefix(root).unwrap_or(path)] *)
Fixpoint strip_prefix_path (root p : path) : option path :=
  match root, p with
  | [], _ => Some p
  | a :: root', b :: p' => if String.eqb a b then strip_prefix_path root' p' else None
  | _ :: _, [] => None
  end.

Definition rel_of (root p : path) : path := default p (strip_prefix_path root p).

Definition CHUNK_SIZE : Z := 100000.

Section walk.
Context {G : Globs} (pl : Platform) (root : path) (filters : option CompiledFilters).

(** The filter gate; an entry whose metadata cannot be read passes. *)
Definition passes (rel : path) (k : EntryKind) (meta : option Metadata) : bool :=
  match filters, meta with
  | Some f, Some m => match k with KDir => passes_dir pl f rel m | _ => passes_file pl f rel m end
  | _, _ => true
  end.

Definition entry_len (k : EntryKind) (meta : option Metadata) : Z :=
  match k, meta with KFile, Some m => m_len m | _, _ => 0 end.

Definition push_entry (p : path) (k : EntryKind) (meta : option Metadata) (c : Plan) : Plan :=
  {| p_entries := p_entries c ++ [{| e_src := p; e_rel := rel_of root p; e_kind := k |}];
     p_total_files := match k with KFile => p_total_files c + 1 | _ => p_total_files c end;
     p_total_bytes := p_total_bytes c + entry_len k meta |}.

(** The loop of [enumerate_streaming]: the batches it sends, and whether the
    walk went through.  [skip] is the directory of the last
    [skip_current_dir()]: the iterator yields nothing from below it.  A walk
    that fails drops the batch it was filling. *)
Fixpoint enumerate_loop (skip : option path) (current : Plan) (items : list WalkItem) : list Plan * bool :=
  match items with
  | [] => (if is_nil (p_entries current) then [] else [current], true)
  | w :: rest =>
      if match skip with Some d => below d (item_path w) | None => false end
      then enumerate_loop skip current rest
      else
        match w with
        | WDenied _ => enumerate_loop None current rest
        | WFailed _ => ([], false)
        | WEntry p k meta =>
            let rel := rel_of root p in
            if is_nil rel then enumerate_loop None current rest
            else if negb (passes rel k meta)
            then enumerate_loop (match k with KDir => Some p | _ => None end) current rest
            else
              let current := push_entry p k meta current in
              if CHUNK_SIZE <=? Z.of_nat (length (p_entries current))
              then let '(sent, ok) := enumerate_loop None empty_plan rest in (current :: sent, ok)
              else enumerate_loop None current rest
        end
  end.

Definition enumerate_streaming (items : list WalkItem) : list Plan * bool :=
  enumerate_loop None empty_plan items.

(** ** What the walk keeps *)

(** The order of [walkdir]: what lies below an entry comes right after it and
    nowhere else. *)
Definition depth_first (items : list WalkItem) : Prop :=
  forall l w r, items = l ++ w :: r ->
    Forall (fun x => below (item_path w) (item_path x) = false) l /\
    exists r1 r2, r = r1 ++ r2 /\ Forall (fun x => below (item_path w) (item_path x) = true) r1 /\
      Forall (fun x => below (item_path w) (item_path x) = false) r2.

Definition entries_of (plans : list Plan) : list Entry := plans ≫= p_entries.

(** An entry is let through on its own. *)
Definition gate (w : WalkItem) : bool :=
  match w with
  | WEntry p k meta => let rel := rel_of root p in negb (is_nil rel) && passes rel k meta
  | _ => false
  end.

(** A directory that is pruned. *)
Definition pruned_dir (w : WalkItem) : bool :=
  match w with
  | WEntry p KDir meta => let rel := rel_of root p in negb (is_nil rel) && negb (passes rel KDir meta)
  | _ => false
  end.

Definition entry_of (w : WalkItem) : list Entry :=
  match w with WEntry p k _ => [{| e_src := p; e_rel := rel_of root p; e_kind := k |}] | _ => [] end.

(** What is kept of a walk: what the gate lets through and lies in no pruned
    directory. *)
Definition in_pruned (all : list WalkItem) (w : WalkItem) : Prop :=
  Exists (fun q => pruned_dir q = true /\ below (item_path q) (item_path w) = true) all.

#[global] Instance in_pruned_dec all w : Decision (in_pruned all w).
Proof. unfold in_pruned. apply _. Defined.

Definition kept_in (all items : list WalkItem) : list Entry :=
  filter (fun w => gate w = true /\ ~ in_pruned all w) items ≫= entry_of.

(** The same by one pass with the directory to skip. *)
Fixpoint kept_from (skip : option path) (items : list WalkItem) : list Entry :=
  match items with
  | [] => []
  | w :: rest =>
      if match skip with Some d => below d (item_path w) | None => false end then kept_from skip rest
      else if gate w then entry_of w ++ kept_from None rest
      else kept_from (if pruned_dir w then Some (item_path w) else None) rest
  end.

Definition failed (w : WalkItem) : bool := match w with WFailed _ => true | _ => false end.

Lemma below_trans p q r : below p q = true -> below q r = true -> below p r = true.
Proof.
  unfold below. rewrite !andb_true_iff, !negb_true_iff, !bool_decide_eq_false, !path_starts_with_prefix.
  intros [[a ->] H1] [[b ->] H2]. split; [by exists (a ++ b); rewrite app_assoc|].
  intros H3. rewrite <- app_assoc in H3. apply (f_equal length) in H3. rewrite !length_app in H3.
  destruct a; [by rewrite app_nil_r in H1|]. simpl in H3. lia.
Qed.

Lemma below_irrefl p : below p p = false.
Proof. unfold below. by rewrite bool_decide_eq_true_2, andb_false_r by done. Qed.

(** Once the walk has left a directory it does not come back. *)
Lemma depth_first_left pre q mid x rest y :
  depth_first (pre ++ q :: mid ++ x :: rest) -> below (item_path q) (item_path x) = false ->
  y ∈ rest -> below (item_path q) (item_path y) = false.
Proof.
  intros Hdf Hx Hy. destruct (Hdf pre q (mid ++ x :: rest) eq_refl) as [_ (r1 & r2 & E & H1 & H2)].
  rewrite Forall_forall in H1, H2. apply H2. apply app_eq_inv in E as [(k & -> & E)|(k & -> & E)].
  - rewrite E. set_solver.
  - destruct k as [|z k]; simpl in E; [rewrite <- E; set_solver|]. injection E as -> ->.
    rewrite (H1 z) in Hx by set_solver. done.
Qed.

Lemma kept_from_spec items : forall pre skip,
  depth_first (pre ++ items) ->
  (forall q x, q ∈ pre -> x ∈ items -> pruned_dir q = true -> below (item_path q) (item_path x) = true ->
     exists d, skip = Some d /\ below d (item_path x) = true) ->
  (forall d, skip = Some d -> exists q, q ∈ pre /\ pruned_dir q = true /\ item_path q = d) ->
  kept_from skip items = kept_in (pre ++ items) items.
Proof.
  unfold kept_in. induction items as [|w rest IH]; intros pre skip Hdf Hpre Hskip; [done|].
  assert (Hnext : forall skip', 
    (forall q x, q ∈ pre ++ [w] -> x ∈ rest -> pruned_dir q = true ->
       below (item_path q) (item_path x) = true -> exists d, skip' = Some d /\ below d (item_path x) = true) ->
    (forall d, skip' = Some d -> exists q, q ∈ pre ++ [w] /\ pruned_dir q = true /\ item_path q = d) ->
    kept_from skip' rest = filter (fun x => gate x = true /\ ~ in_pruned (pre ++ w :: rest) x) rest ≫= entry_of).
  { intros skip' H1 H2. specialize (IH (pre ++ [w]) skip'). rewrite <- app_assoc in IH. simpl in IH.
    by apply IH. }
  simpl. destruct (match skip with Some d => below d (item_path w) | None => false end) eqn:Hs.
  - destruct skip as [d|]; [|done]. rewrite filter_cons_False.
    2: { intros [_ Hn]. apply Hn. destruct (Hskip d eq_refl) as (q & Hq & Hp & <-).
         apply Exists_exists. exists q. split; [set_solver|done]. }
    apply Hnext.
    + intros q x [Hq| ->%list_elem_of_singleton]%elem_of_app Hx Hp Hb; [apply (Hpre q x); set_solver|].
      exists d. split; [done|]. by apply (below_trans _ (item_path w)).
    + intros d' E. destruct (Hskip d' E) as (q & Hq & ?). exists q. set_solver.
  - assert (Hclean : forall q, q ∈ pre -> pruned_dir q = true -> forall x, x ∈ rest ->
      below (item_path q) (item_path x) = false).
    { intros q Hq Hp x Hx. apply not_true_is_false. intros Hb.
      destruct (Hpre q x ltac:(done) ltac:(set_solver) Hp Hb) as (d & -> & Hd).
      destruct (Hskip d eq_refl) as (q0 & (l1 & l2 & ->)%list_elem_of_split & _ & <-).
      rewrite <- app_assoc in Hdf. simpl in Hdf.
      by rewrite (depth_first_left _ _ _ _ _ x Hdf Hs Hx) in Hd. }
    assert (Hout : ~ in_pruned (pre ++ w :: rest) w).
    { intros (q & [Hq|[->|Hq]%elem_of_cons]%elem_of_app & Hp & Hb)%Exists_exists.
      - destruct (Hpre q w) as (d & -> & Hd); [done|set_solver|done|done|]. congruence.
      - by rewrite below_irrefl in Hb.
      - apply list_elem_of_split in Hq as (l1 & l2 & ->).
        destruct (Hdf (pre ++ w :: l1) q l2) as [Hl _]; [by rewrite <- app_assoc|].
        rewrite Forall_forall in Hl. rewrite (Hl w) in Hb by set_solver. done. }
    destruct (gate w) eqn:Hg.
    + rewrite filter_cons_True by done. cbn [mbind list_bind]. f_equal. apply Hnext; [|done].
      intros q x [Hq| ->%list_elem_of_singleton]%elem_of_app Hx Hp Hb.
      * by rewrite (Hclean q Hq Hp x Hx) in Hb.
      * destruct w as [p k meta|p|p]; [|done|done]. simpl in *. destruct k; [|done|done].
        apply andb_true_iff in Hg as [_ Hg]. rewrite Hg in Hp. by rewrite andb_false_r in Hp.
    + rewrite filter_cons_False by (rewrite Hg; by intros []). apply Hnext.
      * intros q x [Hq| ->%list_elem_of_singleton]%elem_of_app Hx Hp Hb.
        -- by rewrite (Hclean q Hq Hp x Hx) in Hb.
        -- rewrite Hp. eauto.
      * intros d. destruct (pruned_dir w) eqn:Hp; [|done]. intros [= <-]. exists w. set_solver.
Qed.

Lemma push_entry_entries p k meta c :
  p_entries (push_entry p k meta c) = p_entries c ++ entry_of (WEntry p k meta).
Proof. done. Qed.

Lemma enumerate_loop_entries items : forall skip current plans,
  enumerate_loop skip current items = (plans, true) ->
  entries_of plans = p_entries current ++ kept_from skip items.
Proof.
  induction items as [|w rest IH]; intros skip current plans; simpl.
  { rewrite app_nil_r. destruct (p_entries current) as [|e l] eqn:Hc; cbn [is_nil]; intros [= <-]; [done|].
    unfold entries_of. simpl. by rewrite Hc, app_nil_r. }
  destruct (match skip with Some d => below d (item_path w) | None => false end); [apply IH|].
  destruct w as [p k meta|p|p]; simpl; [|by intros ?%IH|done].
  destruct (is_nil (rel_of root p)); simpl; [by destruct k; intros ?%IH|].
  destruct (passes (rel_of root p) k meta) eqn:Hp; simpl; [|by destruct k; rewrite ?Hp; intros ?%IH].
  destruct (CHUNK_SIZE <=? _).
  - destruct (enumerate_loop None empty_plan rest) as [sent ok] eqn:Hs. intros [= <- ->].
    apply IH in Hs. unfold entries_of in *. cbn [mbind list_bind]. rewrite Hs, push_entry_entries.
    cbn [entry_of p_entries empty_plan]. by rewrite <- app_assoc.
  - intros Hs%IH. rewrite Hs, push_entry_entries. cbn [entry_of]. by rewrite <- app_assoc.
Qed.

Lemma enumerate_loop_bounded items : forall skip current plans ok,
  (Z.of_nat (length (p_entries current)) < CHUNK_SIZE) ->
  enumerate_loop skip current items = (plans, ok) ->
  Forall (fun c => 0 < Z.of_nat (length (p_entries c)) <= CHUNK_SIZE) plans.
Proof.
  induction items as [|w rest IH]; intros skip current plans ok Hc; simpl.
  { destruct (p_entries current) eqn:E; cbn [is_nil]; intros [= <- <-]; repeat constructor;
      rewrite E in *; simpl in *; lia. }
  destruct (match skip with Some d => below d (item_path w) | None => false end); [by apply IH|].
  destruct w as [p k meta|p|p]; simpl; [|by apply IH|by intros [= <- <-]].
  destruct (is_nil _); [by apply IH|]. destruct (passes _ k meta); simpl; [|by apply IH].
  rewrite length_app. simpl. destruct (Z.leb_spec CHUNK_SIZE (Z.of_nat (length (p_entries current) + 1))) as [Hle|Hlt].
  - destruct (enumerate_loop None empty_plan rest) as [sent ok'] eqn:Hs. intros [= <- <-].
    constructor; [rewrite push_entry_entries, length_app; simpl; lia|].
    by apply (IH None empty_plan sent ok').
  - apply IH. rewrite push_entry_entries, length_app. done.
Qed.

(** A walk that goes through sends, in order and in batches of at most
    [CHUNK_SIZE], exactly the entries that pass the filters and lie in no
    directory the filters prune; the batches carry the number of their files. *)
Theorem enumeration_exact items plans :
  depth_first items -> enumerate_streaming items = (plans, true) ->
  entries_of plans = kept_in items items /\
  Forall (fun c => 0 < Z.of_nat (length (p_entries c)) <= CHUNK_SIZE) plans.
Proof.
  intros Hdf E. split; [|by apply (enumerate_loop_bounded items None empty_plan plans true)].
  rewrite (enumerate_loop_entries items None empty_plan plans E).
  by apply (kept_from_spec items [] None); [done|set_solver|].
Qed.
End walk.
