(* ===== verification/TreeCopy.v ===== *)
(** * Copying a tree ([freally-core/src/tree.rs]: [copy_tree], [copy_tree_from_scan])

    A tree copy is a walker (or a cursor over a scan database) that sends
    batches through a bounded channel, a dispatcher that makes directories and
    spawns a task per file, and the tasks, of which a semaphore lets only so
    many run.  The model is a machine: each action below is one step of one
    of them, enabled when it would not block, and a schedule is a list of
    actions.  A task resolves a collision in one step and copies in another,
    so that what the others do in between is visible; a copy is one step.

    The copy of one file is the class [TreeCopier]; [TreeBridge] builds it
    from [CopyFile.copy_file]. *)
From S2P Require Import Prelude.
From S2P Require Import Text.
From S2P Require Import Files.
From S2P Require Import Control.
From S2P Require Import CopyTypes.
From S2P Require Import CopyFile.
From S2P Require Import Filter.
From S2P Require Import TreeTypes.
From stdpp Require Import options.
Open Scope Z_scope.

(** Copy one file on the disk: given the number of the call, the disk, the
    journal sink, the paths, the options and whether the copy is cancelled
    already; with the disk and sink it leaves and whether it is cancelled
    now. *)
Class TreeCopier (S : Type) := {
  tc_copy : nat -> Disk -> S -> path -> path -> CopyOptions -> bool ->
            result Stop CopyReport * (Disk * S * bool);
}.

Inductive FileOutcome := Done (bytes : Z) | Skipped | Errored | Aborted.

Inductive TaskState :=
| Queued
| Resolving
| Writing (dst : path) (retries_left : Z)
| Settled (r : result CopyError FileOutcome)
| Joined (r : result CopyError FileOutcome).

Record Task := { k_src : path; k_dst : path; k_kind : EntryKind; k_state : TaskState }.

Definition set_state (st : TaskState) (k : Task) : Task :=
  {| k_src := k_src k; k_dst := k_dst k; k_kind := k_kind k; k_state := st |}.

(** Where the dispatcher stands: waiting for a batch, in the two passes over
    one, draining its tasks, waiting for the walker, and returned. *)
Inductive Phase :=
| Receiving
| Handling (dirs files : list Entry)
| Joining
| Waiting
| Returned (r : result CopyError TreeReport).

(** The atomics the tasks share. *)
Record Counters := {
  n_files : Z; n_bytes : Z; n_skipped : Z; n_errored : Z; n_files_total : Z; n_bytes_total : Z
}.

Definition zero_counters : Counters :=
  {| n_files := 0; n_bytes := 0; n_skipped := 0; n_errored := 0; n_files_total := 0; n_bytes_total := 0 |}.

Definition add64 (a b : Z) : Z := wrap64 (a + b).

Definition count_done (bytes : Z) (c : Counters) : Counters :=
  {| n_files := add64 (n_files c) 1; n_bytes := add64 (n_bytes c) bytes; n_skipped := n_skipped c;
     n_errored := n_errored c; n_files_total := n_files_total c; n_bytes_total := n_bytes_total c |}.
Definition count_skipped (c : Counters) : Counters :=
  {| n_files := n_files c; n_bytes := n_bytes c; n_skipped := add64 (n_skipped c) 1;
     n_errored := n_errored c; n_files_total := n_files_total c; n_bytes_total := n_bytes_total c |}.
Definition count_errored (c : Counters) : Counters :=
  {| n_files := n_files c; n_bytes := n_bytes c; n_skipped := n_skipped c;
     n_errored := add64 (n_errored c) 1; n_files_total := n_files_total c; n_bytes_total := n_bytes_total c |}.
Definition count_found (files bytes : Z) (c : Counters) : Counters :=
  {| n_files := n_files c; n_bytes := n_bytes c; n_skipped := n_skipped c; n_errored := n_errored c;
     n_files_total := add64 (n_files_total c) files; n_bytes_total := add64 (n_bytes_total c) bytes |}.

(** Which of the two functions runs. *)
Inductive Mode := FromWalk | FromScan.

(** The capacity of the channel. *)
Definition capacity (m : Mode) : nat := match m with FromWalk => 2 | FromScan => 1024 end.

Section tree.
Context {S : Type} {E : TreeEnv} {C : TreeCopier S}.
Context (mode : Mode) (src_root dst_root : path) (opts : TreeOptions).

(** What every part of the machine touches. *)
Record World := {
  w_disk : Disk; w_sink : S; w_tick : nat; w_cancelled : bool; w_died : bool;
  w_counters : Counters; w_events : list TreeEvent
}.

Definition set_disk (d : Disk) (w : World) : World :=
  {| w_disk := d; w_sink := w_sink w; w_tick := w_tick w; w_cancelled := w_cancelled w; w_died := w_died w;
     w_counters := w_counters w; w_events := w_events w |}.
Definition cancel_world (w : World) : World :=
  {| w_disk := w_disk w; w_sink := w_sink w; w_tick := w_tick w; w_cancelled := true; w_died := w_died w;
     w_counters := w_counters w; w_events := w_events w |}.
Definition tick (w : World) : World :=
  {| w_disk := w_disk w; w_sink := w_sink w; w_tick := w_tick w + 1; w_cancelled := w_cancelled w;
     w_died := w_died w; w_counters := w_counters w; w_events := w_events w |}.
Definition count (f : Counters -> Counters) (w : World) : World :=
  {| w_disk := w_disk w; w_sink := w_sink w; w_tick := w_tick w; w_cancelled := w_cancelled w;
     w_died := w_died w; w_counters := f (w_counters w); w_events := w_events w |}.
Definition send (e : TreeEvent) (w : World) : World :=
  {| w_disk := w_disk w; w_sink := w_sink w; w_tick := w_tick w; w_cancelled := w_cancelled w;
     w_died := w_died w; w_counters := w_counters w; w_events := w_events w ++ [e] |}.

(** The world after a copy. *)
Definition after_copy (d : Disk) (s : S) (cancelled died : bool) (w : World) : World :=
  {| w_disk := d; w_sink := s; w_tick := w_tick w; w_cancelled := cancelled; w_died := died;
     w_counters := w_counters w; w_events := w_events w |}.

(** ** One entry *)

(** [record_file_error] *)
Definition record_file_error (err : CopyError) (w : World) : World := send (FileError err) (count count_errored w).

(** [copy_symlink_entry] *)
Definition copy_symlink_entry (src dst : path) (w : World) : result CopyError unit * World :=
  let d := match remove_file (w_tick w) (w_disk w) dst with Ok d => d | Err _ => w_disk w end in
  let w := tick (set_disk d w) in
  match os (w_tick w) with
  | Some k => (Err (from_io src dst (kind_from_io k)), tick w)
  | None =>
      match read_link (w_disk w) src with
      | Err k => (Err (from_io src dst (kind_from_io k)), tick w)
      | Ok target =>
          let w := tick w in
          match make_symlink (w_tick w) (w_disk w) target dst with
          | Ok d => (Ok tt, tick (set_disk d w))
          | Err k => (Err (from_io src dst (kind_from_io k)), tick w)
          end
      end
  end.

(** [handle_per_file_error] *)
Definition handle_per_file_error (err : CopyError) (policy : ErrorPolicy) (w : World)
    : result CopyError FileOutcome * World :=
  match policy with
  | EpAbort => (Err err, w)
  | EpSkip | EpRetryN _ _ => (Ok Errored, record_file_error err w)
  | EpAsk =>
      let reply := answer_error (w_tick w) in
      let w := tick (send (ErrorPromptSent err) w) in
      match reply with
      | Some EaAbort => (Err err, w)
      | Some EaRetry | Some EaSkip | None => (Ok Errored, record_file_error err w)
      end
  end.

(** One turn of the loop of [attempt_copy_with_policy]; [Writing] when it
    goes round again. *)
Definition attempt (src dst : path) (retries_left : Z) (policy : ErrorPolicy) (w : World) : TaskState * World :=
  let '(r, (d, s, cancelled)) := tc_copy (w_tick w) (w_disk w) (w_sink w) src dst (t_file opts) (w_cancelled w) in
  let w := tick (after_copy d s cancelled (w_died w) w) in
  match r with
  | Err SDied | Err SStuck => (Writing dst retries_left, after_copy d s cancelled true w)
  | Ok report => (Settled (Ok (Done (cr_bytes report))), w)
  | Err (SErr err) =>
      if is_cancelled_error err then (Settled (Ok Aborted), w)
      else
        match policy with
        | EpAbort => (Settled (Err err), w)
        | EpSkip => (Settled (Ok Errored), record_file_error err w)
        | EpRetryN _ _ =>
            if retries_left =? 0 then (Settled (Ok Errored), record_file_error err w)
            else (Writing dst (retries_left - 1), w)
        | EpAsk =>
            let reply := answer_error (w_tick w) in
            let w := tick (send (ErrorPromptSent err) w) in
            match reply with
            | Some EaRetry => (Writing dst retries_left, w)
            | Some EaSkip | None => (Settled (Ok Errored), record_file_error err w)
            | Some EaAbort => (Settled (Err err), w)
            end
        end
  end.

(** The retries a task starts with. *)
Definition retries (policy : ErrorPolicy) : Z :=
  match policy with EpRetryN max_attempts _ => max_attempts | _ => 0 end.

(** The end of a task's closure: a finished file is counted and reported. *)
Definition report_progress (st : TaskState) (w : World) : World :=
  match st with
  | Settled (Ok (Done bytes)) =>
      let w := count (count_done bytes) w in
      let c := w_counters w in
      send (TreeProgress (n_files c) (n_files_total c) (n_bytes c) (n_bytes_total c)) w
  | _ => w
  end.

(** The task's collision step. *)
Definition resolve_task (k : Task) (w : World) : TaskState * World :=
  let decision := resolve (w_tick w) (t_collision opts) (w_disk w) (k_src k) (k_dst k) in
  let w := match t_collision opts with
           | OnPrompt => if path_exists (w_disk w) (k_dst k) then send (CollisionSent (k_src k) (k_dst k)) w else w
           | _ => w
           end in
  let w := tick w in
  match decision with
  | DSkip => (Settled (Ok Skipped), count count_skipped w)
  | DAbort => (Settled (Ok Aborted), w)
  | DWrite dst => (Writing dst (retries (clamped_on_error opts)), w)
  end.

(** The task's copy step. *)
Definition write_task (k : Task) (dst : path) (retries_left : Z) (w : World) : TaskState * World :=
  let '(st, w) :=
    match k_kind k with
    | KSymlink =>
        let '(r, w) := copy_symlink_entry (k_src k) dst w in
        match r with
        | Ok _ => (Settled (Ok (Done 0)), w)
        | Err err => let '(r, w) := handle_per_file_error err (clamped_on_error opts) w in (Settled r, w)
        end
    | _ => attempt (k_src k) dst retries_left (clamped_on_error opts) w
    end in
  (st, report_progress st w).

(** ** The machine *)

Record Tree := {
  t_world : World;
  t_left : list Plan;                 (* what the walker has yet to send *)
  t_walk_ok : bool;                   (* whether its walk goes through *)
  t_chan : list Plan;
  t_phase : Phase;
  t_tasks : list Task;
  t_first_error : option CopyError;
  t_aborted : bool
}.

Inductive Action := Walk | Dispatch | Join (i : nat) | Work (i : nat) | Cancel.

Definition with_world (w : World) (s : Tree) : Tree :=
  {| t_world := w; t_left := t_left s; t_walk_ok := t_walk_ok s; t_chan := t_chan s; t_phase := t_phase s;
     t_tasks := t_tasks s; t_first_error := t_first_error s; t_aborted := t_aborted s |}.
Definition with_phase (ph : Phase) (s : Tree) : Tree :=
  {| t_world := t_world s; t_left := t_left s; t_walk_ok := t_walk_ok s; t_chan := t_chan s; t_phase := ph;
     t_tasks := t_tasks s; t_first_error := t_first_error s; t_aborted := t_aborted s |}.
Definition with_channel (more chan : list Plan) (s : Tree) : Tree :=
  {| t_world := t_world s; t_left := more; t_walk_ok := t_walk_ok s; t_chan := chan; t_phase := t_phase s;
     t_tasks := t_tasks s; t_first_error := t_first_error s; t_aborted := t_aborted s |}.
Definition with_tasks (ks : list Task) (s : Tree) : Tree :=
  {| t_world := t_world s; t_left := t_left s; t_walk_ok := t_walk_ok s; t_chan := t_chan s;
     t_phase := t_phase s; t_tasks := ks; t_first_error := t_first_error s; t_aborted := t_aborted s |}.
Definition with_abort (s : Tree) : Tree :=
  {| t_world := t_world s; t_left := t_left s; t_walk_ok := t_walk_ok s; t_chan := t_chan s;
     t_phase := t_phase s; t_tasks := t_tasks s; t_first_error := t_first_error s; t_aborted := true |}.

(** [if first_error.is_none() { first_error = Some(err); }] *)
Definition note_error (err : CopyError) (s : Tree) : Tree :=
  {| t_world := t_world s; t_left := t_left s; t_walk_ok := t_walk_ok s; t_chan := t_chan s;
     t_phase := t_phase s; t_tasks := t_tasks s;
     t_first_error := match t_first_error s with Some e => Some e | None => Some err end;
     t_aborted := t_aborted s |}.

Definition cancel_tree (s : Tree) : Tree := with_world (cancel_world (t_world s)) s.

(** The walker sends its next batch when the channel has room. *)
Definition walk_step (s : Tree) : option Tree :=
  match t_left s with
  | b :: more => if decide (length (t_chan s) < capacity mode)%nat
                 then Some (with_channel more (t_chan s ++ [b]) s) else None
  | [] => None
  end.

Definition is_running (k : Task) : bool :=
  match k_state k with Resolving | Writing _ _ => true | _ => false end.

Definition running (ks : list Task) : Z := Z.of_nat (length (filter (fun k => is_running k = true) ks)).

Definition spawn (e : Entry) : Task :=
  {| k_src := e_src e; k_dst := dst_root ++ e_rel e; k_kind := e_kind e; k_state := Queued |}.

Definition is_dir_entry (e : Entry) : bool := bool_decide (e_kind e = KDir).

(** The dispatcher leaves its loops when it sees the cancellation; the
    receiver of the channel stays alive until the function returns. *)
Definition dispatch_batch (s : Tree) : option Tree :=
  let w := t_world s in
  match t_chan s, t_left s with
  | b :: chan, more =>
      let s := with_channel more chan s in
      if w_cancelled w then Some (with_phase Joining s)
      else
        let dirs := filter (fun e => is_dir_entry e = true) (p_entries b) in
        let files := filter (fun e => is_dir_entry e = false) (p_entries b) in
        Some (with_phase (Handling dirs files)
                (with_world (count (count_found (p_total_files b) (p_total_bytes b)) w) s))
  | [], [] => Some (with_phase Joining s)
  | [], _ => None
  end.

Definition dispatch_dir (e : Entry) (dirs files : list Entry) (s : Tree) : Tree :=
  let w := t_world s in
  if w_cancelled w then with_phase (Handling [] files) s
  else
    let dst := dst_root ++ e_rel e in
    match create_dir_all (w_tick w) (w_disk w) dst with
    | (d, None) => with_phase (Handling dirs files) (with_world (tick (set_disk d w)) s)
    | (d, Some k) =>
        let s := cancel_tree (note_error (from_io (e_src e) dst (kind_from_io k))
                                (with_world (tick (set_disk d w)) s)) in
        match mode with
        | FromWalk => with_phase (Handling [] files) s
        | FromScan => with_phase Joining s
        end
    end.

Definition dispatch_file (e : Entry) (files : list Entry) (s : Tree) : Tree :=
  if w_cancelled (t_world s) then with_phase Receiving s
  else with_phase (Handling [] files) (with_tasks (t_tasks s ++ [spawn e]) s).

(** After the tasks: the walker's verdict, which the scan path ignores, then
    the first error, the cancellation, or the report. *)
Definition report (w : World) : TreeReport :=
  let c := w_counters w in
  {| tr_root_src := src_root; tr_root_dst := dst_root; tr_files := n_files c; tr_bytes := n_bytes c;
     tr_skipped := n_skipped c; tr_errored := n_errored c |}.

Definition conclude (s : Tree) : Tree :=
  let s := match mode with
           | FromWalk => if t_walk_ok s then s else note_error (from_io src_root dst_root IoOther) s
           | FromScan => s
           end in
  let w := t_world s in
  match t_first_error s with
  | Some err => with_phase (Returned (Err err)) (with_world (send (TreeFailed err) w) s)
  | None =>
      if t_aborted s || w_cancelled w then
        let err := copy_cancelled src_root dst_root in
        with_phase (Returned (Err err)) (with_world (send (TreeFailed err) w) s)
      else
        let c := w_counters w in
        with_phase (Returned (Ok (report w))) (with_world (send (TreeCompleted (n_files c) (n_bytes c)) w) s)
  end.

Definition is_joined (k : Task) : bool := match k_state k with Joined _ => true | _ => false end.

Definition dispatch_step (s : Tree) : option Tree :=
  match t_phase s with
  | Receiving => dispatch_batch s
  | Handling (e :: dirs) files => Some (dispatch_dir e dirs files s)
  | Handling [] (e :: files) => Some (dispatch_file e files s)
  | Handling [] [] => Some (with_phase Receiving s)
  | Joining => if forallb is_joined (t_tasks s) then Some (with_phase Waiting s) else None
  | Waiting => match t_left s with [] => Some (conclude s) | _ => None end
  | Returned _ => None
  end.

(** [set.join_next()] takes any task that has ended. *)
Definition join_step (i : nat) (s : Tree) : option Tree :=
  match t_phase s, t_tasks s !! i with
  | Joining, Some k =>
      match k_state k with
      | Settled r =>
          let s := with_tasks (<[i := set_state (Joined r) k]> (t_tasks s)) s in
          Some match r with
               | Ok Aborted => cancel_tree (with_abort s)
               | Ok _ => s
               | Err err => cancel_tree (note_error err s)
               end
      | _ => None
      end
  | _, _ => None
  end.

Definition work_step (i : nat) (s : Tree) : option Tree :=
  match t_tasks s !! i with
  | None => None
  | Some k =>
      let move '(st, w) := Some (with_world w (with_tasks (<[i := set_state st k]> (t_tasks s)) s)) in
      match k_state k with
      | Queued => if running (t_tasks s) <? clamped_concurrency opts then move (Resolving, t_world s) else None
      | Resolving => move (resolve_task k (t_world s))
      | Writing dst n => move (write_task k dst n (t_world s))
      | Settled _ | Joined _ => None
      end
  end.

(** One step of the machine; nothing runs in a process that died. *)
Definition step (a : Action) (s : Tree) : option Tree :=
  if w_died (t_world s) then None
  else
    match a with
    | Walk => walk_step s
    | Dispatch => dispatch_step s
    | Join i => join_step i s
    | Work i => work_step i s
    | Cancel => if w_cancelled (t_world s) then None else Some (cancel_tree s)
    end.

Fixpoint run (acts : list Action) (s : Tree) : option Tree :=
  match acts with
  | [] => Some s
  | a :: rest => match step a s with Some s' => run rest s' | None => None end
  end.

(** The relation the theorems are about. *)
Definition steps_to (s s' : Tree) : Prop := exists a, step a s = Some s'.

(** ** How the machine starts *)

(** The dispatcher enters its loop. *)
Definition machine (w : World) (batches : list Plan) (walk_ok : bool) : Tree :=
  {| t_world := w; t_left := batches; t_walk_ok := walk_ok; t_chan := []; t_phase := Receiving;
     t_tasks := []; t_first_error := None; t_aborted := false |}.

Definition fail_early {A} (err : CopyError) (w : World) : result CopyError A * World :=
  (Err err, send (TreeFailed err) w).
End tree.
Arguments World : clear implicits.
Arguments Tree : clear implicits.

Section start.
Context {S : Type} {E : TreeEnv} {C : TreeCopier S} {G : Globs}.

(** [copy_tree_inner] up to its loop, on what the walk will yield: the
    machine, or the error it returns at once. *)
Definition start_walk (pl : Platform) (src_root dst_root : path) (opts : TreeOptions)
    (items : list WalkItem) (w : World S) : result CopyError (Tree S) * World S :=
  if negb (is_none (validate_path_no_traversal src_root)) || negb (is_none (validate_path_no_traversal dst_root))
  then (Err (path_escape src_root dst_root), w)
  else
    match os (w_tick w), stat (w_disk w) src_root with
    | Some k, _ => (Err (from_io src_root dst_root (kind_from_io k)), tick w)
    | None, None => (Err (from_io src_root dst_root NotFound), tick w)
    | None, Some (NFile _) | None, Some (NLink _) => (Err (from_io src_root dst_root IoOther), tick w)
    | None, Some NDir =>
        let w := tick w in
        match create_dir_all (w_tick w) (w_disk w) dst_root with
        | (d, Some k) => fail_early (from_io src_root dst_root (kind_from_io k)) (tick (set_disk d w))
        | (d, None) =>
            let w := count (fun _ => zero_counters) (send (TreeStarted src_root dst_root 0 0) (tick (set_disk d w))) in
            match match t_filters opts with
                  | Some f => if filter_set_is_empty f then Ok None
                              else match compile f with Ok c => Ok (Some c) | Err e => Err e end
                  | None => Ok None
                  end with
            | Err _ => fail_early (from_io src_root dst_root IoOther) w
            | Ok filters =>
                let '(batches, ok) := enumerate_streaming pl src_root filters items in
                (Ok (machine w batches ok), w)
            end
        end
    end.

(** A row of the scan database. *)
Record ScanRow := { sr_rel : path; sr_kind : EntryKind }.

Definition row_batch (src_root : path) (r : ScanRow) : Plan :=
  {| p_entries := [{| e_src := src_root ++ sr_rel r; e_rel := sr_rel r; e_kind := sr_kind r |}];
     p_total_files := 0; p_total_bytes := 0 |}.

(** [copy_tree_from_scan] up to its loop: the rows the cursor yields and
    whether it got through, and the totals of [read_scan_totals] ([None] when
    they cannot be read). *)
Definition start_scan (src_root dst_root : path) (rows : list ScanRow) (cursor_ok : bool)
    (totals : option (Z * Z)) (w : World S) : result CopyError (Tree S) * World S :=
  if negb (is_none (validate_path_no_traversal src_root)) || negb (is_none (validate_path_no_traversal dst_root))
  then (Err (path_escape src_root dst_root), w)
  else
    match create_dir_all (w_tick w) (w_disk w) dst_root with
    | (d, Some k) => (Err (from_io src_root dst_root (kind_from_io k)), tick (set_disk d w))
    | (d, None) =>
        let '(total_files, total_bytes) := default (0, 0) totals in
        let w := count (fun _ => count_found total_files total_bytes zero_counters)
                   (send (TreeStarted src_root dst_root total_files total_bytes) (tick (set_disk d w))) in
        (Ok (machine w (row_batch src_root <$> rows) cursor_ok), w)
    end.
End start.
