(* ===== verification/TreeLaws.v ===== *)
(** * What the calls of a tree copy do to the disk

    The laws a copier keeps ([TreeCopierLaws]) and the effect of each call of
    [TreeTypes] on paths that meet no link. *)
From S2P Require Import Prelude.
From S2P Require Import Text.
From S2P Require Import Files.
From S2P Require Import Control.
From S2P Require Import CopyTypes.
From S2P Require Import CopyFile.
From S2P Require Import Filter.
From S2P Require Import TreeTypes.
From S2P Require Import TreeCopy.
From stdpp Require Import options.
Open Scope Z_scope.

Definition is_file (d : Disk) (p : path) : Prop := exists f, d !! p = Some (NFile f).

(** [d'] differs from [d] at [p] at most, and a directory stays one. *)
Definition touches (p : path) (d d' : Disk) : Prop :=
  (forall q, q <> p -> d' !! q = d !! q) /\
  (d' !! p = d !! p \/ (d !! p <> Some NDir /\ d' !! p <> Some NDir)).

(** What a copier promises on paths that meet no link, for the options it
    stands for: it touches the destination only and leaves no link there; a
    success means that the destination has the source's bytes; a cancelled
    handle stays cancelled. *)
Class TreeCopierLaws {S : Type} (C : TreeCopier S) := {
  tc_stands_for : CopyOptions -> Prop;
  tc_touches : forall n d (s : S) src dst o c r d' s' c',
    tc_stands_for o -> plain_at d src -> plain_at d dst -> src <> dst -> is_file d src ->
    tc_copy n d s src dst o c = (r, (d', s', c')) ->
    touches dst d d' /\ forall t, d' !! dst <> Some (NLink t);
  tc_exact : forall n d (s : S) src dst o c rep d' s' c' f,
    tc_stands_for o -> plain_at d src -> plain_at d dst -> src <> dst -> d !! src = Some (NFile f) ->
    tc_copy n d s src dst o c = (Ok rep, (d', s', c')) ->
    cr_bytes rep = file_len f /\ exists g, d' !! dst = Some (NFile g) /\ content g = content f;
  tc_stays_cancelled : forall n d (s : S) src dst o r d' s' c',
    tc_copy n d s src dst o true = (r, (d', s', c')) -> c' = true;
}.

Lemma touches_refl p d : touches p d d.
Proof. split; [done|by left]. Qed.

Lemma touches_insert p n d : d !! p <> Some NDir -> n <> NDir -> touches p d (<[p := n]> d).
Proof.
  intros Hd Hn. split; [by intros q Hq; rewrite lookup_insert_ne|]. right. rewrite lookup_insert_eq.
  split; [done|]. by intros [= ?].
Qed.

Lemma touches_delete p d : d !! p <> Some NDir -> touches p d (delete p d).
Proof.
  intros Hd. split; [by intros q Hq; rewrite lookup_delete_ne|]. right. by rewrite lookup_delete_eq.
Qed.

Lemma touches_trans p d1 d2 d3 : touches p d1 d2 -> touches p d2 d3 -> touches p d1 d3.
Proof.
  intros [H1 H2] [H3 H4]. split; [intros q Hq; by rewrite H3, H1|].
  destruct H2 as [E2|[? ?]], H4 as [E4|[? ?]]; rewrite ?E4, <- ?E2; [left; congruence|right; split; congruence..].
Qed.

Section calls.
Context {E : TreeEnv} {L : OsLaws E}.

Lemma plain_prefix d p q : q `prefix_of` p -> plain_at d p -> plain_at d q.
Proof using Type. intros Hq Hp r t Hr. apply Hp. by etrans. Qed.

Lemma follow_plain_at d p : plain_at d p -> follow d p = p.
Proof using L. intros Hp. apply follow_plain. exact Hp. Qed.

(** The parent's way suffices to find an entry. *)
Lemma place_plain d p n : plain_at d p -> place d (p ++ [n]) = p ++ [n].
Proof using L.
  intros Hp. unfold place, parent. rewrite last_snoc.
  destruct (p ++ [n]) eqn:Hpn; [by destruct p|]. rewrite <- Hpn.
  rewrite length_app. simpl. rewrite Nat.add_sub, take_app_length. by rewrite follow_plain_at.
Qed.

Lemma lstat_plain d p n : plain_at d p -> lstat d (p ++ [n]) = d !! (p ++ [n]).
Proof using L. intros Hp. unfold lstat. rewrite place_plain by done. unfold node_at. by destruct p. Qed.

Lemma is_dir_plain d p : plain_at d p -> p <> [] -> is_dir d p = bool_decide (d !! p = Some NDir).
Proof using L.
  intros Hp Hne. unfold is_dir, stat. rewrite follow_plain_at by done. unfold node_at.
  destruct p as [|c p]; [done|]. destruct (d !! (c :: p)) as [[f|t|]|] eqn:Hd; symmetry;
    (apply bool_decide_eq_true_2 || apply bool_decide_eq_false_2); congruence.
Qed.

(** [create_dir_all] adds directories on the way to its path and nothing
    else. *)
Definition adds_dirs (p : path) (d d' : Disk) : Prop :=
  forall q, d' !! q = d !! q \/ (d !! q = None /\ d' !! q = Some NDir /\ q `prefix_of` p /\ q <> []).

Lemma adds_dirs_refl p d : adds_dirs p d d.
Proof using Type. by left. Qed.

Lemma adds_dirs_prefix p p' d d' : p `prefix_of` p' -> adds_dirs p d d' -> adds_dirs p' d d'.
Proof using Type.
  intros Hp H q. destruct (H q) as [?|(? & ? & ? & ?)]; [by left|right]. split_and!; [done..|by etrans|done].
Qed.

Lemma adds_dirs_plain p q d d' : adds_dirs p d d' -> plain_at d q -> plain_at d' q.
Proof using Type.
  intros H Hq r t Hr. destruct (H r) as [E'|(_ & E' & _)]; rewrite E'; [by apply Hq|done].
Qed.

Lemma make_dirs_adds rest : forall d at_,
  plain_at d (at_ ++ rest) -> adds_dirs (at_ ++ rest) d (make_dirs d at_ rest).1.
Proof using L.
  induction rest as [|c r IH]; intros d at_ Hp; simpl; [apply adds_dirs_refl|].
  assert (at_ ++ c :: r = (at_ ++ [c]) ++ r) as Ea by by rewrite <- app_assoc.
  rewrite Ea in *. assert (Hpc : plain_at d (at_ ++ [c])) by (eapply plain_prefix; [|done]; by eexists).
  destruct (d !! (at_ ++ [c])) as [n|] eqn:Hn.
  - destruct (is_dir d (at_ ++ [c])) eqn:Hdir; [|apply adds_dirs_refl].
    rewrite follow_plain_at by done. by apply IH.
  - assert (Hins : adds_dirs (at_ ++ [c]) d (<[at_ ++ [c] := NDir]> d)).
    { intros q. destruct (decide (q = at_ ++ [c])) as [->|Hq].
      - right. rewrite lookup_insert_eq. split_and!; [done..|by destruct at_].
      - left. by rewrite lookup_insert_ne. }
    assert (Hadd := IH (<[at_ ++ [c] := NDir]> d) (at_ ++ [c]) ltac:(by eapply adds_dirs_plain)).
    intros q. destruct (Hadd q) as [E1|(E1 & E2 & Hq & ?)].
    + rewrite E1. destruct (Hins q) as [?|(? & ? & ? & ?)]; [by left|right]. split_and!; [done..| |done].
      etrans; [done|by eexists].
    + right. destruct (Hins q) as [E3|(? & E3 & _)]; [split_and!; [congruence|done..]|congruence].
Qed.

Lemma create_dir_all_adds n d p : plain_at d p -> adds_dirs p d (create_dir_all n d p).1.
Proof using L.
  intros Hp. unfold create_dir_all. destruct (os n) as [k|]; simpl.
  - apply adds_dirs_prefix with (take (made n) p); [apply prefix_take|].
    apply (make_dirs_adds _ _ []). simpl. eapply plain_prefix; [apply prefix_take|done].
  - by apply (make_dirs_adds p d []).
Qed.

(** When it succeeds, every component of the path is a directory. *)
Lemma make_dirs_makes rest : forall d at_,
  plain_at d (at_ ++ rest) -> (make_dirs d at_ rest).2 = None ->
  forall q, at_ `prefix_of` q -> q `prefix_of` (at_ ++ rest) -> q <> at_ ->
  (make_dirs d at_ rest).1 !! q = Some NDir.
Proof using L.
  induction rest as [|c r IH]; intros d at_ Hp Hok q H1 H2 Hne.
  { rewrite app_nil_r in H2. destruct Hne. by apply (anti_symm prefix). }
  assert (at_ ++ c :: r = (at_ ++ [c]) ++ r) as Ea by by rewrite <- app_assoc.
  rewrite Ea in *. assert (Hpc : plain_at d (at_ ++ [c])) by (eapply plain_prefix; [|done]; by eexists).
  assert (Hq : (at_ ++ [c]) `prefix_of` q).
  { destruct H1 as [k ->]. destruct k as [|x k]; [by rewrite app_nil_r in Hne|].
    rewrite <- app_assoc in H2. apply prefix_app_inv in H2. simpl in H2. apply prefix_cons_inv_1 in H2 as ->.
    exists k. by rewrite <- app_assoc. }
  simpl in *. destruct (d !! (at_ ++ [c])) as [n|] eqn:Hn.
  - destruct (is_dir d (at_ ++ [c])) eqn:Hdir; [|done]. rewrite follow_plain_at in * by done.
    destruct (decide (q = at_ ++ [c])) as [->|Hqc]; [|by apply IH].
    rewrite is_dir_plain in Hdir by (done || by destruct at_). apply bool_decide_eq_true in Hdir.
    destruct (make_dirs_adds r d (at_ ++ [c]) Hp (at_ ++ [c])) as [E1|(E1 & _)]; congruence.
  - assert (Hp' : plain_at (<[at_ ++ [c] := NDir]> d) ((at_ ++ [c]) ++ r)).
    { intros x t Hx. destruct (decide (x = at_ ++ [c])) as [->|?];
        [by rewrite lookup_insert_eq|rewrite lookup_insert_ne by done; by apply Hp]. }
    destruct (decide (q = at_ ++ [c])) as [->|Hqc]; [|by apply IH].
    destruct (make_dirs_adds r _ _ Hp' (at_ ++ [c])) as [E1|(E1 & _)]; rewrite lookup_insert_eq in E1; congruence.
Qed.

(** Removing a file or a link and making a link touch one path. *)
Lemma remove_file_touches n d p c d' :
  plain_at d p -> remove_file n d (p ++ [c]) = Ok d' -> touches (p ++ [c]) d d' /\ d' !! (p ++ [c]) = None.
Proof using L.
  intros Hp. unfold remove_file. destruct (os n); [done|]. rewrite lstat_plain, place_plain by done.
  destruct (d !! (p ++ [c])) as [[f|t|]|] eqn:Hn; intros [= <-]; rewrite lookup_delete_eq;
    (split; [apply touches_delete; congruence|done]).
Qed.

Lemma make_symlink_touches n d t p c d' :
  plain_at d p -> make_symlink n d t (p ++ [c]) = Ok d' ->
  d !! (p ++ [c]) = None /\ d' = <[p ++ [c] := NLink t]> d.
Proof using L.
  intros Hp. unfold make_symlink. destruct (os n); [done|].
  rewrite lstat_plain, place_plain, parent_snoc by done.
  destruct (d !! (p ++ [c])) eqn:Hn; [done|]. destruct (is_dir d p); [|done]. by intros [= <-].
Qed.
End calls.
