(* ===== verification/TreePlan.v ===== *)
(** * What a tree copy schedules

    The entries of the batches reach the tasks in order: the tasks are a
    selection of the entries, all of them unless the copy was cancelled, and
    the counters add up to what the tasks did.

    The second part adds up the report over the tasks. *)
From S2P Require Import Prelude.
From S2P Require Import Text.
From S2P Require Import Files.
From S2P Require Import Control.
From S2P Require Import CopyTypes.
From S2P Require Import CopyFile.
From S2P Require Import Filter.
From S2P Require Import TreeTypes.
From S2P Require Import TreeCopy.
From S2P Require Import TreeLaws.
From stdpp Require Import options.
Open Scope Z_scope.

Section plan.
Context {S : Type} {E : TreeEnv} {C : TreeCopier S} {CL : TreeCopierLaws C}.
Context (mode : Mode) (src_root dst_root : path) (opts : TreeOptions).
#[local] Abbreviation step := (step mode src_root dst_root opts).
#[local] Abbreviation spawn := (spawn dst_root).

(** One move of a task. *)
Inductive task_move (k : Task) (w : World S) (st : TaskState) (w' : World S) : Prop :=
| move_start : k_state k = Queued -> st = Resolving -> w' = w -> task_move k w st w'
| move_resolve : k_state k = Resolving -> resolve_task opts k w = (st, w') -> task_move k w st w'
| move_write dst n : k_state k = Writing dst n -> write_task opts k dst n w = (st, w') -> task_move k w st w'.

Lemma work_step_inv i s s' :
  work_step opts i s = Some s' ->
  exists k st w, t_tasks s !! i = Some k /\ task_move k (t_world s) st w /\
    s' = with_world w (with_tasks (<[i := set_state st k]> (t_tasks s)) s).
Proof using Type.
  unfold work_step. destruct (t_tasks s !! i) as [k|]; [|done].
  destruct (k_state k) as [| |dst n|r|r] eqn:Hk; [| | |done|done].
  - destruct (_ <? _); [|done]. intros [= <-]. exists k, Resolving, (t_world s). split_and!; [done| |done].
    by apply move_start.
  - destruct (resolve_task opts k (t_world s)) as [st w] eqn:Hr. intros [= <-]. exists k, st, w.
    split_and!; [done| |done]. by apply move_resolve.
  - destruct (write_task opts k dst n (t_world s)) as [st w] eqn:Hr. intros [= <-]. exists k, st, w.
    split_and!; [done| |done]. by eapply move_write.
Qed.

(** ** Cancellation is for good *)

Lemma record_file_error_cancelled err (w : World S) : w_cancelled (record_file_error err w) = w_cancelled w.
Proof using Type. done. Qed.

Lemma handle_cancelled err p (w : World S) : w_cancelled (handle_per_file_error err p w).2 = w_cancelled w.
Proof using Type. destruct p; try done. simpl. by destruct (answer_error _) as [[]|]. Qed.

Lemma symlink_cancelled src dst (w : World S) : w_cancelled (copy_symlink_entry src dst w).2 = w_cancelled w.
Proof using Type.
  unfold copy_symlink_entry. simpl. destruct (os _); [done|]. destruct (read_link _ _); [|done].
  by destruct (make_symlink _ _ _ _).
Qed.

Lemma attempt_cancelled src dst n p (w : World S) :
  w_cancelled w = true -> w_cancelled (attempt opts src dst n p w).2 = true.
Proof using CL.
  intros Hw. unfold attempt. rewrite Hw.
  destruct (tc_copy _ _ _ _ _ _ _) as [r [[d s] c]] eqn:Hc.
  assert (c = true) as -> by exact (tc_stays_cancelled _ _ _ _ _ _ _ _ _ _ Hc).
  destruct r as [rep|[err| |]]; try done. destruct (is_cancelled_error err); [done|].
  destruct p; try done; [|by destruct (_ =? _)]. by destruct (answer_error _) as [[]|].
Qed.

Lemma report_progress_cancelled st (w : World S) : w_cancelled (report_progress st w) = w_cancelled w.
Proof using Type. by destruct st as [| | |[[]|]|]. Qed.

Lemma task_move_cancelled k w st w' : task_move k w st w' -> w_cancelled w = true -> w_cancelled w' = true.
Proof using CL.
  intros [? -> ->|_ Hr|dst n _ Hr] Hw; [done| |].
  - revert Hr. unfold resolve_task. destruct (resolve _ _ _ _ _), (t_collision opts); try destruct (path_exists _ _);
      by intros [= <- <-].
  - revert Hr. unfold write_task. destruct (k_kind k).
    1,2: pose proof (attempt_cancelled (k_src k) dst n (clamped_on_error opts) w Hw) as Ha;
      destruct (attempt _ _ _ _ _ _) as [st1 w1]; intros [= <- <-]; by rewrite report_progress_cancelled.
    pose proof (symlink_cancelled (k_src k) dst w) as Hs. destruct (copy_symlink_entry _ _ _) as [[u|err] w1].
    + intros [= <- <-]. simpl in *. congruence.
    + pose proof (handle_cancelled err (clamped_on_error opts) w1) as Hh.
      destruct (handle_per_file_error _ _ _) as [r w2]. intros [= <- <-].
      destruct r; simpl in *; try congruence. destruct a; simpl in *; congruence.
Qed.

(** ** The entries on their way *)

Definition files_in (bs : list Plan) : list Entry := filter (fun e => is_dir_entry e = false) (entries_of bs).

Definition pending_files (s : Tree S) : list Entry :=
  match t_phase s with Handling _ fs => fs | _ => [] end ++ files_in (t_chan s) ++ files_in (t_left s).

Definition pending_dirs (s : Tree S) : list Entry :=
  match t_phase s with Handling ds _ => ds | _ => [] end ++
  filter (fun e => is_dir_entry e = true) (entries_of (t_chan s) ++ entries_of (t_left s)).

Definition reset (k : Task) : Task := set_state Queued k.

Lemma entries_of_cons b bs : entries_of (b :: bs) = p_entries b ++ entries_of bs.
Proof using Type. done. Qed.

Lemma entries_of_app l1 l2 : entries_of (l1 ++ l2) = entries_of l1 ++ entries_of l2.
Proof using Type. apply bind_app. Qed.

Lemma files_in_cons b bs :
  files_in (b :: bs) = filter (fun e => is_dir_entry e = false) (p_entries b) ++ files_in bs.
Proof using Type. unfold files_in. by rewrite entries_of_cons, filter_app. Qed.

Lemma files_in_app l1 l2 : files_in (l1 ++ l2) = files_in l1 ++ files_in l2.
Proof using Type. unfold files_in. by rewrite entries_of_app, filter_app. Qed.

Lemma reset_insert i k st (ks : list Task) :
  ks !! i = Some k -> reset <$> <[i := set_state st k]> ks = reset <$> ks.
Proof using Type.
  intros Hk. rewrite list_fmap_insert. apply list_insert_id. by rewrite list_lookup_fmap, Hk.
Qed.

Definition ended (s : Tree S) : Prop :=
  match t_phase s with Joining | Waiting | Returned _ => True | _ => False end.

Definition drained (s : Tree S) : Prop :=
  match t_phase s with Waiting | Returned _ => forallb is_joined (t_tasks s) = true | _ => True end.

(** The schedule as an invariant of the batches the walker started with. *)
Record planned (batches : list Plan) (s : Tree S) : Prop := {
  pl_files : (reset <$> t_tasks s) ++ (spawn <$> pending_files s) `sublist_of` (spawn <$> files_in batches);
  pl_all : w_cancelled (t_world s) = false ->
    (reset <$> t_tasks s) ++ (spawn <$> pending_files s) = spawn <$> files_in batches;
  pl_dirs : forall e, e ∈ pending_dirs s -> e ∈ entries_of batches /\ e_kind e = KDir;
  pl_ended : ended s -> w_cancelled (t_world s) = false -> t_chan s = [] /\ t_left s = [];
  pl_drained : drained s;
  pl_left : forall r, t_phase s = Returned r -> t_left s = [];
  pl_report : forall rep, t_phase s = Returned (Ok rep) ->
    reset <$> t_tasks s = spawn <$> files_in batches /\
    rep = report src_root dst_root (t_world s) /\ t_first_error s = None /\ t_aborted s = false;
}.

Lemma machine_planned w batches ok : planned batches (machine w batches ok).
Proof using Type.
  split; try done. intros e [[]%not_elem_of_nil|He%list_elem_of_filter]%elem_of_app.
  destruct He as [Hd He]. split; [done|]. by apply bool_decide_eq_true in Hd.
Qed.

(** Steps that leave the schedule alone: everything the invariant mentions. *)
Lemma planned_ext batches s s' :
  planned batches s ->
  reset <$> t_tasks s' = reset <$> t_tasks s ->
  (forallb is_joined (t_tasks s) = true -> forallb is_joined (t_tasks s') = true) ->
  pending_files s' = pending_files s -> pending_dirs s' = pending_dirs s -> 
  t_phase s' = t_phase s -> t_chan s' = t_chan s -> t_left s' = t_left s ->
  (w_cancelled (t_world s') = false -> w_cancelled (t_world s) = false) ->
  (forall rep, t_phase s = Returned (Ok rep) ->
    w_counters (t_world s') = w_counters (t_world s) /\ t_first_error s' = t_first_error s /\
    t_aborted s' = t_aborted s) ->
  planned batches s'.
Proof using Type.
  intros [H1 H2 H3 H4 H5 H6 H7] Et Ej Ef Ed Ep Ec El Hc Hr.
  split; unfold ended, drained in *; rewrite ?Et, ?Ef, ?Ed, ?Ep, ?Ec, ?El; auto.
  - destruct (t_phase s); auto.
  - intros rep Hp. destruct (H7 rep Hp) as (? & -> & ? & ?). destruct (Hr _ Hp) as (Ew & ? & ?).
    unfold report. rewrite Ew. split_and!; congruence.
Qed.

Lemma planned_joined_lookup (ks : list Task) i k :
  forallb is_joined ks = true -> ks !! i = Some k -> exists r, k_state k = Joined r.
Proof using Type.
  intros Hj Hk. rewrite forallb_forall in Hj. specialize (Hj k). unfold is_joined in Hj.
  destruct (k_state k); try (discriminate Hj; apply list_elem_of_In, list_elem_of_lookup; by exists i). by eexists.
Qed.

Lemma planned_work batches i s s' :
  planned batches s -> work_step opts i s = Some s' -> planned batches s'.
Proof using CL.
  intros Hp (k & st & w & Hk & Hm & ->)%work_step_inv.
  assert (Hlive : ~ (forallb is_joined (t_tasks s) = true)).
  { intros Hj. destruct (planned_joined_lookup _ _ _ Hj Hk) as [r Hr]. by destruct Hm as [H| H |? ? H]; rewrite Hr in H. }
  apply planned_ext with s; simpl; try done.
  - by apply reset_insert.
  - destruct (w_cancelled (t_world s)) eqn:Hc; [|done]. by rewrite (task_move_cancelled _ _ _ _ Hm Hc).
  - intros rep Hr. destruct Hlive. pose proof (pl_drained _ _ Hp) as Hd. unfold drained in Hd. by rewrite Hr in Hd.
Qed.

Lemma planned_cancel batches s : planned batches s -> planned batches (cancel_tree s).
Proof using Type. intros Hp. by apply planned_ext with s. Qed.

Lemma planned_note batches err s :
  (forall r, t_phase s <> Returned r) -> planned batches s -> planned batches (note_error err s).
Proof using Type. intros Hn Hp. apply planned_ext with s; try done. intros rep Hr. by destruct (Hn _ Hr). Qed.

Lemma planned_abort batches s :
  (forall r, t_phase s <> Returned r) -> planned batches s -> planned batches (with_abort s).
Proof using Type. intros Hn Hp. apply planned_ext with s; try done. intros rep Hr. by destruct (Hn _ Hr). Qed.

Lemma planned_walk batches s s' : planned batches s -> walk_step mode s = Some s' -> planned batches s'.
Proof using Type.
  unfold walk_step. intros [H1 H2 H3 H4 H5 H6 H7]. destruct (t_left s) as [|b l] eqn:Hl; [done|].
  destruct (decide _); [|done]. intros [= <-].
  assert (Hf : pending_files (with_channel l (t_chan s ++ [b]) s) = pending_files s).
  { unfold pending_files. simpl. rewrite Hl, files_in_app, (files_in_cons b l).
    rewrite (files_in_cons b []). change (files_in []) with (@nil Entry). by rewrite app_nil_r, <- app_assoc. }
  assert (Hd : pending_dirs (with_channel l (t_chan s ++ [b]) s) = pending_dirs s).
  { unfold pending_dirs. simpl. rewrite Hl, entries_of_app, (entries_of_cons b l), (entries_of_cons b []).
    change (entries_of []) with (@nil Entry). by rewrite app_nil_r, <- app_assoc. }
  split; rewrite ?Hf, ?Hd; try done.
  - intros He Hc. by destruct (H4 He Hc).
  - intros r Hr. by pose proof (H6 r Hr).
Qed.

Lemma planned_join batches i s s' : planned batches s -> join_step i s = Some s' -> planned batches s'.
Proof using Type.
  intros Hp. unfold join_step. destruct (t_phase s) eqn:Hph; try done.
  destruct (t_tasks s !! i) as [k|] eqn:Hk; [|done]. destruct (k_state k) as [| | |r|] eqn:Hst; try done.
  assert (planned batches (with_tasks (<[i := set_state (Joined r) k]> (t_tasks s)) s)) as Hp'.
  { apply planned_ext with s; simpl; try done; [by apply reset_insert|].
    intros Hj. destruct (planned_joined_lookup _ _ _ Hj Hk) as [r' Hr']. congruence. }
  intros [= <-]. destruct r as [[| | |]|]; try done.
  - apply planned_cancel, planned_abort; [simpl; congruence|done].
  - apply planned_cancel, planned_note; [simpl; congruence|done].
Qed.

Lemma planned_batch batches s s' :
  t_phase s = Receiving -> planned batches s -> dispatch_batch s = Some s' -> planned batches s'.
Proof using Type.
  intros Hph [H1 H2 H3 H4 H5 H6 H7]. unfold pending_files, pending_dirs in *. rewrite Hph in *. simpl in *.
  unfold dispatch_batch. destruct (t_chan s) as [|b chan] eqn:Hc.
  - destruct (t_left s) eqn:Hl; [|done]. intros [= <-].
    split; unfold pending_files, pending_dirs, ended, drained; simpl; rewrite ?Hc, ?Hl; auto; done.
  - destruct (w_cancelled (t_world s)) eqn:Hw; intros [= <-];
      (split; unfold pending_files, pending_dirs, ended, drained; simpl; rewrite ?Hw; try done).
    + etrans; [|exact H1]. apply sublist_app; [done|]. rewrite files_in_cons, <- app_assoc, !fmap_app.
      by apply sublist_inserts_l.
    + intros e He. apply H3. rewrite entries_of_cons, <- app_assoc, filter_app. apply elem_of_app. by right.
    + by rewrite files_in_cons, <- app_assoc in H1.
    + intros _. specialize (H2 eq_refl). by rewrite files_in_cons, <- app_assoc in H2.
    + intros e He. apply H3. by rewrite entries_of_cons, <- app_assoc, filter_app.
Qed.

(** The dispatcher stays in its loop: a directory is dropped or made, and the
    files of the batch are untouched. *)
Lemma planned_next_dir batches w e dirs fs dirs' s :
  t_phase s = Handling (e :: dirs) fs -> dirs' ⊆ dirs ->
  (w_cancelled w = false -> w_cancelled (t_world s) = false) -> planned batches s ->
  planned batches (with_phase (Handling dirs' fs) (with_world w s)).
Proof using Type.
  intros Hph Hd Hw [H1 H2 H3 H4 H5 H6 H7]. unfold pending_files, pending_dirs in *. rewrite Hph in *.
  split; unfold pending_files, pending_dirs; simpl; try done; [auto|].
  intros e' [He|He]%elem_of_app; apply H3, elem_of_app; [left|by right]. right. by apply Hd.
Qed.

(** It leaves its loop for good once it is cancelled. *)
Lemma planned_leave batches s ph :
  w_cancelled (t_world s) = true -> ph = Receiving \/ ph = Joining -> planned batches s ->
  (forall r, t_phase s <> Returned r) -> planned batches (with_phase ph s).
Proof using Type.
  intros Hc Hph [H1 H2 H3 H4 H5 H6 H7] Hn. unfold pending_files, pending_dirs in *.
  assert (Hs : (reset <$> t_tasks s) ++ (spawn <$> files_in (t_chan s) ++ files_in (t_left s))
               `sublist_of` spawn <$> files_in batches).
  { etrans; [|exact H1]. apply sublist_app; [done|]. rewrite !fmap_app. by apply sublist_inserts_l. }
  assert (Hd : forall e, e ∈ filter (fun e => is_dir_entry e = true) (entries_of (t_chan s) ++ entries_of (t_left s)) ->
               e ∈ entries_of batches /\ e_kind e = KDir).
  { intros e He. apply H3, elem_of_app. by right. }
  destruct Hph as [-> | ->]; split; unfold pending_files, pending_dirs, ended, drained; simpl; rewrite ?Hc; done.
Qed.

Lemma planned_dir batches e dirs fs s :
  t_phase s = Handling (e :: dirs) fs -> planned batches s ->
  planned batches (dispatch_dir mode dst_root e dirs fs s).
Proof using Type.
  intros Hph Hp. unfold dispatch_dir. destruct (w_cancelled (t_world s)) eqn:Hw.
  { assert (Es : with_world (t_world s) s = s) by (by destruct s).
    rewrite <- Es. by apply (planned_next_dir _ (t_world s) _ _ _ [] _ Hph); [apply list_subseteq_nil| |]. }
  destruct (create_dir_all _ _ _) as [d [k|]].
  - set (err := from_io _ _ _). set (s1 := note_error err _).
    assert (planned batches (with_phase (Handling [] fs) (cancel_tree s1))) as Hp1.
    { apply (planned_next_dir batches (cancel_world (tick (set_disk d (t_world s)))) e dirs fs [] (note_error err s));
        [done|apply list_subseteq_nil|done|]. apply planned_note; [congruence|done]. }
    destruct mode; [done|]. by apply (planned_leave batches _ Joining) in Hp1; [|done|by right|].
  - by eapply (planned_next_dir _ _ _ _ _ _ _ Hph); [|simpl; congruence|].
Qed.

Lemma planned_file batches e fs s :
  t_phase s = Handling [] (e :: fs) -> planned batches s -> planned batches (dispatch_file dst_root e fs s).
Proof using Type.
  intros Hph Hp. unfold dispatch_file. destruct (w_cancelled (t_world s)) eqn:Hw.
  { apply planned_leave; [done|by left|done|congruence]. }
  destruct Hp as [H1 H2 H3 H4 H5 H6 H7]. unfold pending_files, pending_dirs in *. rewrite Hph in *.
  split; unfold pending_files, pending_dirs, ended, drained; simpl; try done.
  - rewrite fmap_app, <- app_assoc. exact H1.
  - intros Hc. rewrite fmap_app, <- app_assoc. by apply H2.
Qed.

Lemma planned_conclude batches s :
  t_phase s = Waiting -> t_left s = [] -> planned batches s ->
  planned batches (conclude mode src_root dst_root s).
Proof using Type.
  intros Hph Hl Hp. unfold conclude.
  set (s1 := match mode with FromWalk => _ | FromScan => _ end).
  assert (planned batches s1 /\ t_phase s1 = Waiting /\ t_left s1 = []) as (Hp1 & Hph1 & Hl1).
  { unfold s1. destruct mode; [destruct (t_walk_ok s)|]; try done. split; [|done].
    apply planned_note; [congruence|done]. }
  clearbody s1. destruct Hp1 as [H1 H2 H3 H4 H5 H6 H7].
  unfold pending_files, pending_dirs, ended, drained in *. rewrite Hph1, Hl1 in *.
  destruct (t_first_error s1) eqn:Hf; [by split; unfold pending_files, pending_dirs, ended, drained; simpl; rewrite ?Hl1|].
  destruct (t_aborted s1 || w_cancelled (t_world s1)) eqn:Ha;
    [by split; unfold pending_files, pending_dirs, ended, drained; simpl; rewrite ?Hl1|].
  apply orb_false_iff in Ha as [Ha Hc]. destruct (H4 I Hc) as [Hch _].
  split; unfold pending_files, pending_dirs, ended, drained; simpl; rewrite ?Hl1; try done.
  intros rep [= <-]. split; [|done]. specialize (H2 Hc). rewrite Hch in H2. simpl in H2.
  by rewrite app_nil_r in H2.
Qed.

Lemma planned_dispatch batches s s' :
  planned batches s -> dispatch_step mode src_root dst_root s = Some s' -> planned batches s'.
Proof using Type.
  intros Hp. unfold dispatch_step. destruct (t_phase s) as [|[|e dirs] fs| | |] eqn:Hph; [| | | | |done].
  - by apply planned_batch.
  - destruct fs as [|e fs]; intros [= <-]; [|by apply planned_file].
    destruct Hp as [H1 H2 H3 H4 H5 H6 H7]. unfold pending_files, pending_dirs in *. rewrite Hph in *.
    by split.
  - intros [= <-]. by apply planned_dir.
  - destruct (forallb _ _) eqn:Hj; [|done]. intros [= <-].
    destruct Hp as [H1 H2 H3 H4 H5 H6 H7]. unfold pending_files, pending_dirs, ended, drained in *. rewrite Hph in *.
    by split.
  - destruct (t_left s) eqn:Hl; [|done]. intros [= <-]. by apply planned_conclude.
Qed.

Lemma planned_step batches a s s' : planned batches s -> step a s = Some s' -> planned batches s'.
Proof using CL.
  intros Hp. unfold TreeCopy.step. destruct (w_died (t_world s)); [done|]. destruct a.
  - by apply planned_walk.
  - by apply planned_dispatch.
  - by apply planned_join.
  - by apply planned_work.
  - destruct (w_cancelled (t_world s)); [done|]. intros [= <-]. by apply planned_cancel.
Qed.
End plan.

(** * The report of a tree copy adds up

    The four counters are the sums, modulo 2^64, of what the tasks ended
    with, and the dispatcher hears of every task that failed. *)

Lemma wrap64_add x y : wrap64 (wrap64 x + y) = wrap64 (x + y).
Proof. unfold wrap64. by rewrite Zplus_mod_idemp_l. Qed.

(** ** Sums over the tasks *)

Definition outcome (k : Task) : option FileOutcome :=
  match k_state k with Settled (Ok o) | Joined (Ok o) => Some o | _ => None end.

Definition weight (f : FileOutcome -> Z) (k : Task) : Z :=
  match outcome k with Some o => f o | None => 0 end.

Definition tally (f : FileOutcome -> Z) (ks : list Task) : Z := foldr (fun k n => weight f k + n) 0 ks.

Definition done_one (o : FileOutcome) : Z := match o with Done _ => 1 | _ => 0 end.
Definition done_bytes (o : FileOutcome) : Z := match o with Done b => b | _ => 0 end.
Definition skipped_one (o : FileOutcome) : Z := match o with Skipped => 1 | _ => 0 end.
Definition errored_one (o : FileOutcome) : Z := match o with Errored => 1 | _ => 0 end.

Lemma tally_app f l1 l2 : tally f (l1 ++ l2) = tally f l1 + tally f l2.
Proof. induction l1 as [|k l1 IH]; simpl; [done|]. rewrite IH. lia. Qed.

Lemma tally_insert f i k k' ks :
  ks !! i = Some k -> tally f (<[i := k']> ks) = tally f ks - weight f k + weight f k'.
Proof.
  revert i. induction ks as [|x ks IH]; intros i Hi; [done|]. destruct i as [|i]; simpl in *.
  - injection Hi as ->. lia.
  - rewrite (IH _ Hi). lia.
Qed.

Section count.
Context {S : Type} {E : TreeEnv} {C : TreeCopier S}.
Context (mode : Mode) (src_root dst_root : path) (opts : TreeOptions).
#[local] Abbreviation step := (step mode src_root dst_root opts).

(** The counters after an outcome. *)
Definition bump (o : FileOutcome) (c : Counters) : Counters :=
  match o with
  | Done b => count_done b c
  | Skipped => count_skipped c
  | Errored => count_errored c
  | Aborted => c
  end.

Definition settle_counts (st : TaskState) (c : Counters) : Counters :=
  match st with Settled (Ok o) => bump o c | _ => c end.

(** Before the progress report only what did not finish is counted. *)
Definition settle_early (st : TaskState) (c : Counters) : Counters :=
  match st with Settled (Ok (Done _)) => c | _ => settle_counts st c end.

Lemma handle_counts err p (w : World S) :
  w_counters (handle_per_file_error err p w).2 =
  settle_early (Settled (handle_per_file_error err p w).1) (w_counters w) /\
  forall b, (handle_per_file_error err p w).1 <> Ok (Done b).
Proof using Type. destruct p; try done. simpl. by destruct (answer_error _) as [[]|]. Qed.

Lemma symlink_counts src dst (w : World S) : w_counters (copy_symlink_entry src dst w).2 = w_counters w.
Proof using Type.
  unfold copy_symlink_entry. simpl. destruct (os _); [done|]. destruct (read_link _ _); [|done].
  by destruct (make_symlink _ _ _ _).
Qed.

Lemma attempt_counts src dst n p (w : World S) :
  w_counters (attempt opts src dst n p w).2 = settle_early (attempt opts src dst n p w).1 (w_counters w).
Proof using Type.
  unfold attempt. destruct (tc_copy _ _ _ _ _ _ _) as [r [[d s] c]].
  destruct r as [rep|[err| |]]; try done. destruct (is_cancelled_error err); [done|].
  destruct p; try done; [|by destruct (_ =? _)]. by destruct (answer_error _) as [[]|].
Qed.

Lemma attempt_open src dst n p (w : World S) :
  match (attempt opts src dst n p w).1 with Joined _ => False | _ => True end.
Proof using Type.
  unfold attempt. destruct (tc_copy _ _ _ _ _ _ _) as [r [[d s] c]].
  destruct r as [rep|[err| |]]; try done. destruct (is_cancelled_error err); [done|].
  destruct p; try done; [|by destruct (_ =? _)]. by destruct (answer_error _) as [[]|].
Qed.

Lemma report_progress_counts st (w : World S) c :
  w_counters w = settle_early st c -> w_counters (report_progress st w) = settle_counts st c.
Proof using Type. intros Hw. destruct st as [| | |[[]|]|]; simpl in *; by rewrite ?Hw. Qed.

Lemma task_move_counts k w st w' :
  task_move opts k w st w' ->
  w_counters w' = settle_counts st (w_counters w) /\ outcome k = None /\ forall r, st <> Joined r.
Proof using Type.
  intros [Hk -> ->|Hk Hr|dst n Hk Hr]; unfold outcome; rewrite Hk.
  - done.
  - revert Hr. unfold resolve_task.
    by destruct (resolve _ _ _ _ _), (t_collision opts); try destruct (path_exists _ _); intros [= <- <-].
  - revert Hr. unfold write_task.
    assert (forall st1 w1, attempt opts (k_src k) dst n (clamped_on_error opts) w = (st1, w1) ->
      (st1, report_progress st1 w1) = (st, w') ->
      w_counters w' = settle_counts st (w_counters w) /\ None = (None : option FileOutcome) /\ forall r, st <> Joined r) as Ha.
    { intros st1 w1 Ha [= <- <-]. pose proof (attempt_counts (k_src k) dst n (clamped_on_error opts) w) as Hc.
      pose proof (attempt_open (k_src k) dst n (clamped_on_error opts) w) as Hop. rewrite Ha in *.
      split; [by apply report_progress_counts|]. split; [done|]. intros r ->. done. }
    destruct (k_kind k).
    1,2: destruct (attempt _ _ _ _ _ _) as [st1 w1]; by apply Ha.
    pose proof (symlink_counts (k_src k) dst w) as Hs. destruct (copy_symlink_entry _ _ _) as [[u|err] w1]; simpl in Hs.
    + intros [= <- <-]. simpl. by rewrite Hs.
    + pose proof (handle_counts err (clamped_on_error opts) w1) as [Hh Hn].
      destruct (handle_per_file_error _ _ _) as [r w2]. intros [= <- <-]. split; [|done].
      rewrite <- Hs. by apply (report_progress_counts (Settled r)).
Qed.

(** ** The invariant *)

Definition heard (s : Tree S) (k : Task) : Prop :=
  match k_state k with
  | Joined (Err _) => t_first_error s <> None
  | Joined (Ok Aborted) => t_aborted s = true
  | _ => True
  end.

Record accounted (s : Tree S) : Prop := {
  ac_files : n_files (w_counters (t_world s)) = wrap64 (tally done_one (t_tasks s));
  ac_bytes : n_bytes (w_counters (t_world s)) = wrap64 (tally done_bytes (t_tasks s));
  ac_skipped : n_skipped (w_counters (t_world s)) = wrap64 (tally skipped_one (t_tasks s));
  ac_errored : n_errored (w_counters (t_world s)) = wrap64 (tally errored_one (t_tasks s));
  ac_heard : Forall (heard s) (t_tasks s);
}.

(** Steps of the dispatcher and the walker: the sums stay. *)
Lemma accounted_ext s s' :
  accounted s ->
  n_files (w_counters (t_world s')) = n_files (w_counters (t_world s)) ->
  n_bytes (w_counters (t_world s')) = n_bytes (w_counters (t_world s)) ->
  n_skipped (w_counters (t_world s')) = n_skipped (w_counters (t_world s)) ->
  n_errored (w_counters (t_world s')) = n_errored (w_counters (t_world s)) ->
  (exists l, t_tasks s' = t_tasks s ++ l /\ Forall (fun k => k_state k = Queued) l) ->
  (t_first_error s <> None -> t_first_error s' <> None) -> (t_aborted s = true -> t_aborted s' = true) ->
  accounted s'.
Proof using Type.
  intros [H1 H2 H3 H4 H5] E1 E2 E3 E4 (l & El & Hl) Hf Ha.
  assert (forall f, tally f l = 0) as Ht.
  { intros f. clear -Hl. induction Hl as [|k l Hk _ IH]; [done|]. simpl. rewrite IH.
    unfold weight, outcome. by rewrite Hk. }
  split; rewrite ?E1, ?E2, ?E3, ?E4, El, ?tally_app, ?Ht, ?Z.add_0_r; try done.
  apply Forall_app. split.
  - eapply Forall_impl; [exact H5|]. intros k. unfold heard. destruct (k_state k) as [| | | |[[]|]]; auto.
  - eapply Forall_impl; [exact Hl|]. intros k Hk. unfold heard. by rewrite Hk.
Qed.

Lemma accounted_same s s' :
  accounted s -> w_counters (t_world s') = w_counters (t_world s) -> t_tasks s' = t_tasks s ->
  (t_first_error s <> None -> t_first_error s' <> None) -> (t_aborted s = true -> t_aborted s' = true) ->
  accounted s'.
Proof using Type.
  intros Ha Ec Et. apply accounted_ext; rewrite ?Ec; try done. exists []. by rewrite app_nil_r.
Qed.

Lemma accounted_work i s s' : accounted s -> work_step opts i s = Some s' -> accounted s'.
Proof using Type.
  intros [H1 H2 H3 H4 H5] (k & st & w & Hk & (Hc & Ho & Hj)%task_move_counts & ->)%work_step_inv.
  assert (Hw : forall f, tally f (<[i := set_state st k]> (t_tasks s)) =
    tally f (t_tasks s) + weight f (set_state st k)).
  { intros f. rewrite (tally_insert _ _ _ _ _ Hk). unfold weight at 1. rewrite Ho. lia. }
  assert (Hst : forall f, weight f (set_state st k) = match st with Settled (Ok o) => f o | _ => 0 end).
  { intros f. unfold weight, outcome. simpl. destruct st as [| | |[]|r]; try done. by destruct (Hj r). }
  split; simpl; rewrite ?Hw, ?Hst, ?Hc.
  5: { apply Forall_insert; [exact H5|]. unfold heard. simpl. destruct st as [| | | |r]; try done. by destruct (Hj r). }
  all: destruct st as [| | |[[]|]|]; simpl; unfold add64; rewrite ?Z.add_0_r; try done;
    by rewrite ?H1, ?H2, ?H3, ?H4, wrap64_add.
Qed.

Lemma accounted_join i s s' : accounted s -> join_step i s = Some s' -> accounted s'.
Proof using Type.
  intros [H1 H2 H3 H4 H5]. unfold join_step. destruct (t_phase s); try done.
  destruct (t_tasks s !! i) as [k|] eqn:Hk; [|done]. destruct (k_state k) as [| | |r|] eqn:Hst; try done.
  assert (Hw : forall f, tally f (<[i := set_state (Joined r) k]> (t_tasks s)) = tally f (t_tasks s)).
  { intros f. rewrite (tally_insert _ _ _ _ _ Hk). unfold weight, outcome. simpl. rewrite Hst. destruct r; lia. }
  assert (Hrest : forall s1 : Tree S, (t_first_error s <> None -> t_first_error s1 <> None) ->
    (t_aborted s = true -> t_aborted s1 = true) -> heard s1 (set_state (Joined r) k) ->
    Forall (heard s1) (<[i := set_state (Joined r) k]> (t_tasks s))).
  { intros s1 Hf Ha Hh. apply Forall_insert; [|done]. eapply Forall_impl; [exact H5|].
    intros k'. unfold heard. destruct (k_state k') as [| | | |[[]|]]; auto. }
  intros [= <-]. destruct r as [[b| | |]|err]; split; simpl; rewrite ?Hw; try done; apply Hrest; unfold heard; simpl; try done;
    by destruct (t_first_error s).
Qed.

Lemma accounted_dir e ds fs s : accounted s -> accounted (dispatch_dir mode dst_root e ds fs s).
Proof using Type.
  intros Hs. unfold dispatch_dir. destruct (w_cancelled _); [by apply accounted_same with s|].
  destruct (create_dir_all _ _ _) as [d [k|]]; [|by apply accounted_same with s].
  destruct mode; apply accounted_same with s; simpl; try done; by destruct (t_first_error s).
Qed.

Lemma accounted_step a s s' : accounted s -> step a s = Some s' -> accounted s'.
Proof using Type.
  intros Hs. unfold TreeCopy.step. destruct (w_died _); [done|].
  destruct a as [| |i|i|]; [| |by apply accounted_join|by apply accounted_work|].
  - unfold walk_step. destruct (t_left s); [done|]. destruct (decide _); [|done]. intros [= <-].
    by apply accounted_same with s.
  - unfold dispatch_step. destruct (t_phase s) as [|[|e ds] [|e' fs]| | |]; [| | | | | | |done].
    + unfold dispatch_batch. destruct (t_chan s).
      * destruct (t_left s); [|done]. intros [= <-]. by apply accounted_same with s.
      * destruct (w_cancelled _); intros [= <-]; [by apply accounted_same with s|].
        apply accounted_ext with s; try done. exists []. by rewrite app_nil_r.
    + intros [= <-]. by apply accounted_same with s.
    + intros [= <-]. unfold dispatch_file. destruct (w_cancelled _); [by apply accounted_same with s|].
      apply accounted_ext with s; try done. exists [spawn dst_root e']. split; [done|by repeat constructor].
    + intros [= <-]. by apply accounted_dir.
    + intros [= <-]. by apply accounted_dir.
    + destruct (forallb _ _); [|done]. intros [= <-]. by apply accounted_same with s.
    + destruct (t_left s); [|done]. intros [= <-]. unfold conclude.
      set (s1 := match mode with FromWalk => _ | FromScan => _ end).
      assert (accounted s1) as H1.
      { unfold s1. destruct mode; [destruct (t_walk_ok s)|]; try done.
        apply accounted_same with s; simpl; try done. by destruct (t_first_error s). }
      destruct (t_first_error s1); [by apply accounted_same with s1|].
      destruct (_ || _); by apply accounted_same with s1.
  - destruct (w_cancelled _); [done|]. intros [= <-]. by apply accounted_same with s.
Qed.

Lemma machine_accounted w batches ok :
  w_counters w = zero_counters \/ (exists f b, w_counters w = count_found f b zero_counters) ->
  accounted (machine w batches ok).
Proof using Type. intros [Hw|(f & b & Hw)]; split; simpl; rewrite ?Hw; try done. Qed.

(** All tasks of a successful run ended in an outcome other than an abort. *)
Lemma accounted_outcomes s :
  accounted s -> forallb is_joined (t_tasks s) = true -> t_first_error s = None -> t_aborted s = false ->
  Forall (fun k => exists o, outcome k = Some o /\ o <> Aborted) (t_tasks s).
Proof using Type.
  intros [_ _ _ _ H] Hj Hf Ha. rewrite Forall_forall in *. intros k Hk. specialize (H k Hk).
  rewrite forallb_forall in Hj. specialize (Hj k (proj1 (list_elem_of_In _ _) Hk)).
  unfold heard, is_joined, outcome in *. destruct (k_state k) as [| | | |[o|e]]; try done.
  exists o. split; [done|]. intros ->. congruence.
Qed.
End count.
