(* ===== verification/TreeSafety.v ===== *)
(** * What a tree copy leaves on the disk

    Over every run of the machine, with any schedule, failures, deaths and
    cancellations: nothing outside the destination root changes, existing
    entries are left alone under [Skip], and what a task reports as done is
    there. *)
From S2P Require Import Prelude.
From S2P Require Import Text.
From S2P Require Import Files.
From S2P Require Import Control.
From S2P Require Import CopyTypes.
From S2P Require Import CopyFile.
From S2P Require Import Filter.
From S2P Require Import TreeTypes.
From S2P Require Import TreeCopy.
From S2P Require Import TreeLaws.
From S2P Require Import TreePlan.
From stdpp Require Import options.
Open Scope Z_scope.

(** The policies that write to the path of the entry itself. *)
Definition in_place (p : CollisionPolicy) : bool :=
  match p with OnSkip | OnOverwrite | OnOverwriteIfNewer => true | _ => false end.

(** The entries are those of a tree [d] at [src_root]: each is what it says,
    only directories have entries below them, and no link leads to one. *)
Record tree_of (src_root : path) (d : Disk) (es : list Entry) : Prop := {
  to_src : forall e, e ∈ es -> e_src e = src_root ++ e_rel e /\ e_rel e <> [];
  to_file : forall e, e ∈ es -> e_kind e = KFile -> is_file d (e_src e);
  to_link : forall e, e ∈ es -> e_kind e = KSymlink -> exists t, d !! e_src e = Some (NLink t);
  to_plain : forall e q t, e ∈ es -> q `prefix_of` e_src e -> d !! q = Some (NLink t) ->
    q = e_src e /\ e_kind e = KSymlink;
  to_leaf : forall e e', e ∈ es -> e' ∈ es -> e_kind e <> KDir -> e_rel e `prefix_of` e_rel e' -> e = e';
  to_once : NoDup es;
}.

(** Where the copy goes: the root is a directory reached through directories,
    apart from the source, with no links at or below it. *)
Record room_at (src_root dst_root : path) (d : Disk) : Prop := {
  rm_apart : ~ dst_root `prefix_of` src_root /\ ~ src_root `prefix_of` dst_root;
  rm_root : forall q, q `prefix_of` dst_root -> q <> [] -> d !! q = Some NDir;
  rm_links : forall q t, dst_root `prefix_of` q -> d !! q <> Some (NLink t);
}.

Section safety.
Context {S : Type} {E : TreeEnv} {L : OsLaws E} {C : TreeCopier S} {CL : TreeCopierLaws C}.
Context (mode : Mode) (src_root dst_root : path) (opts : TreeOptions).
Context (d0 : Disk) (batches : list Plan).
Context (Htree : tree_of src_root d0 (entries_of batches)) (Hroom : room_at src_root dst_root d0).
Context (Hopts : tc_stands_for (t_file opts)) (Hplace : in_place (t_collision opts) = true).
#[local] Abbreviation step := (step mode src_root dst_root opts).
#[local] Abbreviation spawn := (spawn dst_root).
#[local] Abbreviation disk s := (w_disk (t_world s)).

(** A task and the entry it was spawned for. *)
Definition task_of (k : Task) (e : Entry) : Prop := e ∈ files_in batches /\ reset k = spawn e.

Definition dst_of (e : Entry) : path := dst_root ++ e_rel e.

(** The disk as a run finds it: nothing changed outside the destination, the
    root still stands, links only where link entries go, and nothing that was
    there is lost under [Skip]. *)
Record sound_disk (d : Disk) : Prop := {
  sd_frame : forall p, ~ dst_root `prefix_of` p -> d !! p = d0 !! p;
  sd_root : d !! dst_root = Some NDir;
  sd_links : forall p t, dst_root `prefix_of` p -> d !! p = Some (NLink t) ->
    exists e, e ∈ files_in batches /\ e_kind e = KSymlink /\ p = dst_of e;
  sd_skip : t_collision opts = OnSkip -> d0 ⊆ d;
}.

Lemma in_files e : e ∈ files_in batches <-> e ∈ entries_of batches /\ e_kind e <> KDir.
Proof using Type.
  unfold files_in, is_dir_entry. rewrite list_elem_of_filter, bool_decide_eq_false. tauto.
Qed.

Lemma dst_of_inj e e' : e ∈ files_in batches -> e' ∈ files_in batches -> dst_of e = dst_of e' -> e = e'.
Proof using Htree.
  intros [He Hk]%in_files [He' _]%in_files Heq%app_inv_head. apply (to_leaf _ _ _ Htree); [done..|].
  by rewrite Heq.
Qed.

Lemma dst_of_snoc e : e ∈ entries_of batches -> exists p n, dst_of e = p ++ [n] /\ dst_root `prefix_of` p.
Proof using Htree.
  intros He. destruct (to_src _ _ _ Htree e He) as [_ Hne]. unfold dst_of.
  destruct (e_rel e) as [|n p] using rev_ind; [done|]. exists (dst_root ++ p), n.
  by rewrite app_assoc; split; [|eexists].
Qed.

Lemma dst_under e : dst_root `prefix_of` dst_of e.
Proof using Type. by eexists. Qed.

Lemma dst_not_root e : e ∈ entries_of batches -> dst_of e <> dst_root.
Proof using Htree.
  intros He Hd. destruct (to_src _ _ _ Htree e He) as [_ Hne]. unfold dst_of in Hd.
  apply (f_equal length) in Hd. rewrite length_app in Hd. destruct (e_rel e); [done|simpl in Hd; lia].
Qed.

Lemma root_not_nil : dst_root <> [].
Proof using Hroom. intros Hd. destruct (rm_apart _ _ _ Hroom) as [H _]. apply H. rewrite Hd. apply prefix_nil. Qed.

(** Source paths are not below the destination. *)
Lemma src_outside e : e ∈ entries_of batches -> ~ dst_root `prefix_of` e_src e.
Proof using Htree Hroom.
  intros He Hp. destruct (to_src _ _ _ Htree e He) as [Hs _]. rewrite Hs in Hp.
  destruct (rm_apart _ _ _ Hroom) as [H1 H2].
  destruct (prefix_weak_total dst_root src_root (src_root ++ e_rel e)) as [?|?]; [done|by eexists|done|done].
Qed.

Lemma src_ne_dst e e' : e ∈ entries_of batches -> e_src e <> dst_of e'.
Proof using Htree Hroom. intros He Hd. apply (src_outside e He). rewrite Hd. apply dst_under. Qed.

Section at_disk.
Context (d : Disk) (Hd : sound_disk d).

(** The way to an entry's destination has no link, but a link entry's own. *)
Lemma links_on_the_way e q t :
  e ∈ entries_of batches -> q `prefix_of` dst_of e -> d !! q = Some (NLink t) ->
  q = dst_of e /\ e_kind e = KSymlink.
Proof using Htree Hroom Hd.
  intros He Hq Ht. destruct (decide (dst_root `prefix_of` q)) as [Hp|Hp].
  - destruct (sd_links _ Hd q t Hp Ht) as (e' & [He' Hk']%in_files & Hl & ->).
    apply prefix_app_inv in Hq. assert (e' = e) as ->; [|done].
    apply (to_leaf _ _ _ Htree); [done..|]. exact Hq.
  - exfalso. rewrite (sd_frame _ Hd q Hp) in Ht.
    destruct (prefix_weak_total q dst_root (dst_of e)) as [Hqr|?]; [done|apply dst_under| |done].
    destruct (decide (q = [])) as [->|Hne].
    + apply (to_plain _ _ _ Htree e [] t) in Ht as [Hs _]; [|done|apply prefix_nil].
      destruct (to_src _ _ _ Htree e He) as [Hs' Hr]. rewrite <- Hs in Hs'. by destruct src_root; [simpl in Hs'; congruence|].
    + by rewrite (rm_root _ _ _ Hroom q Hqr Hne) in Ht.
Qed.

Lemma dst_plain e : e ∈ entries_of batches -> e_kind e <> KSymlink -> plain_at d (dst_of e).
Proof using Htree Hroom Hd. intros He Hk q t Hq Ht. by destruct (links_on_the_way e q t He Hq Ht). Qed.

Lemma dst_parent_plain e p n : e ∈ entries_of batches -> dst_of e = p ++ [n] -> plain_at d p.
Proof using Htree Hroom Hd.
  intros He Hp q t Hq Ht. destruct (links_on_the_way e q t He) as [-> _]; [|done|].
  - rewrite Hp. etrans; [exact Hq|by eexists].
  - rewrite Hp in Hq. apply prefix_length in Hq. rewrite length_app in Hq. simpl in Hq. lia.
Qed.

Lemma src_same e : e ∈ entries_of batches -> d !! e_src e = d0 !! e_src e.
Proof using Htree Hroom Hd. intros He. by apply (sd_frame _ Hd), src_outside. Qed.

Lemma src_links e q t :
  e ∈ entries_of batches -> q `prefix_of` e_src e -> d !! q = Some (NLink t) -> q = e_src e /\ e_kind e = KSymlink.
Proof using Htree Hroom Hd.
  intros He Hq Ht. apply (to_plain _ _ _ Htree e q t He Hq). rewrite <- (sd_frame _ Hd q); [done|].
  intros Hp. apply (src_outside e He). by etrans.
Qed.

Lemma src_plain e : e ∈ entries_of batches -> e_kind e <> KSymlink -> plain_at d (e_src e).
Proof using Htree Hroom Hd. intros He Hk q t Hq Ht. by destruct (src_links e q t He Hq Ht). Qed.

(** A touch of an entry's destination keeps the disk sound. *)
Lemma sound_touch e d' :
  e ∈ files_in batches -> touches (dst_of e) d d' ->
  (forall t, d' !! dst_of e = Some (NLink t) -> e_kind e = KSymlink) ->
  (t_collision opts = OnSkip -> d0 !! dst_of e = None) -> sound_disk d'.
Proof using Htree Hroom Hd.
  intros He [Ho Hat] Hl Hs. pose proof (proj1 (in_files e) He) as [Hin Hk]. destruct Hd as [H1 H2 H3 H4]. split.
  - intros p Hp. rewrite Ho; [by apply H1|]. intros ->. apply Hp, dst_under.
  - rewrite Ho; [done|]. symmetry. by apply dst_not_root.
  - intros p t Hp Ht. destruct (decide (p = dst_of e)) as [->|Hne].
    + exists e. split_and!; [done| |done]. by eapply Hl.
    + rewrite Ho in Ht by done. by apply (H3 p t).
  - intros Hsk. specialize (H4 Hsk). apply map_subseteq_spec. intros p n Hp.
    destruct (decide (p = dst_of e)) as [->|Hne]; [by rewrite Hs in Hp|].
    rewrite Ho by done. by apply (lookup_weaken _ _ _ _ Hp).
Qed.

(** So does making a directory on the way to an entry. *)
Lemma sound_dirs e d' :
  e ∈ entries_of batches -> e_kind e = KDir -> adds_dirs (dst_of e) d d' -> sound_disk d'.
Proof using Htree Hroom Hd.
  intros He Hk Ha. destruct Hd as [H1 H2 H3 H4]. split.
  - intros p Hp. destruct (Ha p) as [->|(Hn & Hnew & Hpre)]; [by apply H1|]. exfalso.
    destruct Hpre as [Hpre Hne]. destruct (prefix_weak_total p dst_root (dst_of e)) as [Hq|?]; [done|apply dst_under| |done].
    by rewrite (H1 p Hp), (rm_root _ _ _ Hroom p Hq Hne) in Hn.
  - destruct (Ha dst_root) as [->|(Hn & _)]; [done|congruence].
  - intros p t Hp Ht. destruct (Ha p) as [E'|(_ & E' & _)]; rewrite E' in Ht; [by apply (H3 p t)|done].
  - intros Hs. specialize (H4 Hs). apply map_subseteq_spec. intros p n Hp.
    pose proof (lookup_weaken _ _ _ _ Hp H4) as Hp'. destruct (Ha p) as [->|(Hn & _)]; [done|congruence].
Qed.
End at_disk.

(** ** What a task may say about its entry *)

Definition untouched (d : Disk) (e : Entry) : Prop := d !! dst_of e = d0 !! dst_of e.

(** The entry is at its destination, with the content it had at the source. *)
Definition copied (d : Disk) (e : Entry) (bytes : Z) : Prop :=
  match e_kind e with
  | KFile => exists f g, d0 !! e_src e = Some (NFile f) /\ d !! dst_of e = Some (NFile g) /\
               content g = content f /\ bytes = file_len f
  | KSymlink => exists t, d0 !! e_src e = Some (NLink t) /\ d !! dst_of e = Some (NLink t) /\ bytes = 0
  | KDir => False
  end.

Definition outcome_ok (d : Disk) (e : Entry) (o : FileOutcome) : Prop :=
  match o with
  | Done bytes => copied d e bytes
  | Skipped => untouched d e /\ d0 !! dst_of e <> None /\ t_collision opts <> OnOverwrite
  | Errored => t_on_error opts <> EpAbort
  | Aborted => True
  end.

Lemma clamped_not_abort : clamped_on_error opts <> EpAbort -> t_on_error opts <> EpAbort.
Proof using Type. unfold clamped_on_error. by destruct (t_on_error opts). Qed.

Definition state_ok (d : Disk) (e : Entry) (st : TaskState) : Prop :=
  match st with
  | Queued | Resolving => untouched d e
  | Writing dst _ => dst = dst_of e /\ (t_collision opts = OnSkip -> d0 !! dst_of e = None)
  | Settled (Ok o) | Joined (Ok o) => outcome_ok d e o
  | Settled (Err _) | Joined (Err _) => True
  end.

(** It depends on the entry's destination only. *)
Lemma state_ok_ext d d' e st : d' !! dst_of e = d !! dst_of e -> state_ok d e st -> state_ok d' e st.
Proof using Type.
  intros Ed. unfold state_ok, outcome_ok, untouched, copied. rewrite Ed.
  destruct st as [| | |[[]|]|[[]|]]; try done; destruct (e_kind e); done.
Qed.

Lemma spawn_fields k e : reset k = spawn e -> k_src k = e_src e /\ k_dst k = dst_of e /\ k_kind k = e_kind e.
Proof using Type. destruct k, e. unfold reset, set_state. simpl. by intros [= -> -> ->]. Qed.

Lemma lstat_dst d e : sound_disk d -> e ∈ entries_of batches -> lstat d (dst_of e) = d !! dst_of e.
Proof using Htree Hroom L.
  intros Hd He. destruct (dst_of_snoc e He) as (p & n & Hp & _).
  rewrite Hp. apply lstat_plain. by eapply dst_parent_plain.
Qed.

Lemma path_exists_dst d e :
  sound_disk d -> e ∈ entries_of batches -> path_exists d (dst_of e) = negb (is_none (d !! dst_of e)).
Proof using Htree Hroom L. intros Hd He. unfold path_exists. rewrite lstat_dst by done. by destruct (d !! _). Qed.

Lemma move_resolve_ok k e (w : World S) st w' :
  sound_disk (w_disk w) -> e ∈ files_in batches -> reset k = spawn e -> untouched (w_disk w) e ->
  resolve_task opts k w = (st, w') -> w_disk w' = w_disk w /\ state_ok (w_disk w) e st.
Proof using Htree Hroom L Hplace.
  intros Hd He (Es & Ed & Ek)%spawn_fields Hu. pose proof (proj1 (in_files e) He) as [Hin _].
  unfold resolve_task. rewrite Es, Ed. unfold resolve. rewrite (path_exists_dst _ _ Hd Hin).
  set (w1 := match t_collision opts with OnPrompt => _ | _ => w end).
  assert (Hw1 : w_disk w1 = w_disk w) by (unfold w1; destruct (t_collision opts); try done; by destruct (negb _)).
  destruct (w_disk w !! dst_of e) as [n|] eqn:Hn; simpl.
  - assert (Hsk : t_collision opts <> OnOverwrite -> outcome_ok (w_disk w) e Skipped)
      by (intros ?; split; [done|split; [unfold untouched in Hu; congruence|done]]).
    destruct (t_collision opts) eqn:Hc; try done.
    + intros [= <- <-]. split; [done|]. by apply Hsk.
    + intros [= <- <-]. by split; [|split; [|rewrite Hc]].
    + destruct (source_is_newer _ _ _) as [[]|]; intros [= <- <-]; (split; [done|]); try by apply Hsk.
      by split; [|rewrite Hc].
  - intros [= <- <-]. split; [done|]. split; [done|]. intros _. unfold untouched in Hu. congruence.
Qed.

Lemma attempt_ok e n (w : World S) st w' :
  sound_disk (w_disk w) -> e ∈ files_in batches -> e_kind e = KFile ->
  (t_collision opts = OnSkip -> d0 !! dst_of e = None) ->
  attempt opts (e_src e) (dst_of e) n (clamped_on_error opts) w = (st, w') ->
  touches (dst_of e) (w_disk w) (w_disk w') /\ (forall t, w_disk w' !! dst_of e <> Some (NLink t)) /\
  state_ok (w_disk w') e st /\ (forall r, st <> Joined r).
Proof using Htree Hroom L CL Hopts.
  intros Hd He Hk Hs. pose proof (proj1 (in_files e) He) as [Hin _]. unfold attempt.
  destruct (tc_copy _ _ _ _ _ _ _) as [r [[d s] c]] eqn:Hc.
  pose proof (to_file _ _ _ Htree e Hin Hk) as [f Hf].
  assert (Hsrc : w_disk w !! e_src e = Some (NFile f)) by (rewrite (src_same _ Hd) by done; done).
  assert (Hp1 : plain_at (w_disk w) (e_src e)) by (apply src_plain; [done..|congruence]).
  assert (Hp2 : plain_at (w_disk w) (dst_of e)) by (apply dst_plain; [done..|congruence]).
  assert (Hne : e_src e <> dst_of e) by by apply src_ne_dst.
  destruct (tc_touches _ _ _ _ _ _ _ _ _ _ _ Hopts Hp1 Hp2 Hne ltac:(by exists f) Hc) as [Ht Hl].
  assert (Hout : forall st1 (w1 : World S), (st1, w1) = (st, w') -> w_disk w1 = d -> state_ok d e st1 ->
    (forall r, st1 <> Joined r) ->
    touches (dst_of e) (w_disk w) (w_disk w') /\ (forall t, w_disk w' !! dst_of e <> Some (NLink t)) /\
    state_ok (w_disk w') e st /\ (forall r, st <> Joined r)).
  { by intros st1 w1 [= -> ->] -> ?. }
  assert (Hwr : forall m, state_ok d e (Writing (dst_of e) m)) by done.
  destruct r as [rep|[err| |]]; try (intros Hr; by apply (Hout _ _ Hr)).
  - intros Hr. apply (Hout _ _ Hr); [done| |done]. simpl. unfold copied. rewrite Hk.
    destruct (tc_exact _ _ _ _ _ _ _ _ _ _ _ _ Hopts Hp1 Hp2 Hne Hsrc Hc) as (Hb & g & Hg & Hcg). by exists f, g.
  - destruct (is_cancelled_error err); [intros Hr; by apply (Hout _ _ Hr)|].
    assert (Herr : clamped_on_error opts <> EpAbort -> state_ok d e (Settled (Ok Errored))) by apply clamped_not_abort.
    destruct (clamped_on_error opts); try destruct (n =? 0); try destruct (answer_error _) as [[]|];
      intros Hr; apply (Hout _ _ Hr); try done; by apply Herr.
Qed.

Lemma symlink_ok e (w : World S) r w' :
  sound_disk (w_disk w) -> e ∈ files_in batches -> e_kind e = KSymlink ->
  (t_collision opts = OnSkip -> d0 !! dst_of e = None) ->
  copy_symlink_entry (e_src e) (dst_of e) w = (r, w') ->
  touches (dst_of e) (w_disk w) (w_disk w') /\ (r = Ok tt -> copied (w_disk w') e 0).
Proof using Htree Hroom L.
  intros Hd He Hk Hs. pose proof (proj1 (in_files e) He) as [Hin _]. unfold copy_symlink_entry.
  destruct (dst_of_snoc e Hin) as (p & n & Hp & _).
  set (d1 := match remove_file _ _ _ with Ok d => d | Err _ => w_disk w end).
  assert (touches (dst_of e) (w_disk w) d1) as Ht.
  { unfold d1. destruct (remove_file _ _ _) as [d|] eqn:Hr; [|apply touches_refl]. rewrite Hp in *.
    apply remove_file_touches in Hr as [? _]; [done|]. by eapply dst_parent_plain. }
  assert (sound_disk d1) as Hd1.
  { eapply sound_touch; [exact Hd|done|exact Ht| |done]. intros t _. done. }
  cbn [w_disk tick set_disk w_tick]. destruct (os _); [by intros [= <- <-]|].
  destruct (to_src _ _ _ Htree e Hin) as [Hsrc Hrel].
  assert (Hread : read_link d1 (e_src e) = Ok (match d0 !! e_src e with Some (NLink t) => t | _ => "" end)).
  { unfold read_link. destruct (e_rel e) as [|c q _] using rev_ind; [done|].
    assert (Hpl : plain_at d1 (src_root ++ q)).
    { intros x t Hx Hxt. destruct (src_links _ Hd1 e x t Hin) as [-> _]; [|done|].
      - rewrite Hsrc, app_assoc. etrans; [exact Hx|by eexists].
      - rewrite Hsrc, app_assoc in Hx. apply prefix_length in Hx. rewrite length_app in Hx. simpl in Hx. lia. }
    assert (Hls : lstat d1 (e_src e) = d1 !! e_src e) by (rewrite Hsrc, app_assoc; by apply lstat_plain).
    rewrite Hls, (src_same _ Hd1) by done. destruct (to_link _ _ _ Htree e Hin Hk) as [t ->]. done. }
  rewrite Hread. destruct (to_link _ _ _ Htree e Hin Hk) as [t Ht0]. rewrite Ht0.
  destruct (make_symlink _ d1 t (dst_of e)) as [d2|k] eqn:Hm; [|by intros [= <- <-]].
  intros [= <- <-]. cbn [w_disk tick set_disk].
  assert (d1 !! dst_of e = None /\ d2 = <[dst_of e := NLink t]> d1) as [Hnone ->].
  { rewrite Hp in *. eapply make_symlink_touches; [|exact Hm]. by eapply dst_parent_plain. }
  split; [eapply touches_trans; [exact Ht|]; apply touches_insert; congruence|].
  intros _. unfold copied. rewrite Hk. exists t. by rewrite lookup_insert_eq.
Qed.

(** A move of a task touches its destination only and keeps its promise. *)
Lemma move_ok k e (w : World S) st w' :
  sound_disk (w_disk w) -> e ∈ files_in batches -> reset k = spawn e -> state_ok (w_disk w) e (k_state k) ->
  task_move opts k w st w' ->
  touches (dst_of e) (w_disk w) (w_disk w') /\ sound_disk (w_disk w') /\ state_ok (w_disk w') e st.
Proof using Htree Hroom L CL Hopts Hplace.
  intros Hd He Hk Hst Hm. pose proof (spawn_fields _ _ Hk) as (Es & Ed & Ek).
  pose proof (proj1 (in_files e) He) as [Hin Hnd].
  destruct Hm as [Hq -> ->|Hq Hr|dst n Hq Hr]; rewrite Hq in Hst.
  - split; [apply touches_refl|done].
  - destruct (move_resolve_ok _ _ _ _ _ Hd He Hk Hst Hr) as [-> ?]. split; [apply touches_refl|done].
  - destruct Hst as [-> Hs]. unfold write_task in Hr. rewrite Es, Ek in Hr.
    assert (Hprog : forall st (w : World S), w_disk (report_progress st w) = w_disk w) by by intros [| | |[[]|]|].
    destruct (e_kind e) eqn:Hkind; [done| |].
    + destruct (attempt _ _ _ _ _ _) as [st1 w1] eqn:Ha. injection Hr as <- <-. rewrite Hprog.
      destruct (attempt_ok e n w st1 w1 Hd He Hkind Hs Ha) as (Ht & Hl & Hok & _). split; [done|]. split; [|done].
      eapply sound_touch; [exact Hd|done|exact Ht| |done]. intros t Hlt. by destruct (Hl t).
    + destruct (copy_symlink_entry _ _ _) as [[[]|err] w1] eqn:Hc;
        destruct (symlink_ok e w _ w1 Hd He Hkind Hs Hc) as [Ht Hok].
      * injection Hr as <- <-. simpl. split; [done|]. split; [|by apply Hok].
        eapply sound_touch; [exact Hd|done|exact Ht|done|done].
      * assert (Hh : forall p, (p <> EpAbort -> t_on_error opts <> EpAbort) -> let '(r, w2) := handle_per_file_error err p w1 in
                 w_disk w2 = w_disk w1 /\ state_ok (w_disk w1) e (Settled r)).
        { intros p Hpc. destruct p; try done; [|split; [done|]; simpl; auto..].
          simpl. destruct (answer_error _) as [[]|]; (split; [done|]); simpl; auto. }
        specialize (Hh (clamped_on_error opts) clamped_not_abort). destruct (handle_per_file_error _ _ _) as [r w2].
        injection Hr as <- <-. destruct Hh as [Hw2 Hh]. pose proof (Hprog (Settled r) w2) as Hp2. simpl in Hp2. rewrite Hp2, Hw2. split; [done|]. split; [|done].
        eapply sound_touch; [exact Hd|done|exact Ht|done|done].
Qed.

(** ** The invariant of a run *)

Record sound (s : Tree S) : Prop := {
  so_plan : planned src_root dst_root batches s;
  so_count : accounted s;
  so_disk : sound_disk (disk s);
  so_tasks : forall k, k ∈ t_tasks s -> exists e, task_of k e /\ state_ok (disk s) e (k_state k);
  so_pending : forall e, e ∈ pending_files s -> e ∈ files_in batches /\ untouched (disk s) e;
}.

Lemma schedule_once (s : Tree S) :
  planned src_root dst_root batches s -> NoDup ((reset <$> t_tasks s) ++ (spawn <$> pending_files s)).
Proof using Htree.
  intros Hp. apply (sublist_NoDup _ (spawn <$> files_in batches)); [|apply (pl_files _ _ _ _ Hp)].
  apply NoDup_fmap_2_strong.
  - intros e e' He He' Heq. apply dst_of_inj; [done..|]. by injection Heq.
  - apply NoDup_filter, (to_once _ _ _ Htree).
Qed.

Lemma machine_sound w ok :
  w_disk w = d0 -> w_counters w = zero_counters \/ (exists f b, w_counters w = count_found f b zero_counters) ->
  sound (machine w batches ok).
Proof using Htree Hroom.
  intros Hw Hc. split.
  - apply machine_planned.
  - by apply machine_accounted.
  - simpl. rewrite Hw. split; try done.
    + by apply (rm_root _ _ _ Hroom), root_not_nil.
    + intros p t Hp Ht. by destruct (rm_links _ _ _ Hroom p t Hp).
  - intros k Hk. by apply not_elem_of_nil in Hk.
  - intros e He. split; [exact He|]. unfold untouched. simpl. by rewrite Hw.
Qed.

(** Steps that leave the disk alone and may turn waiting entries into tasks. *)
Lemma sound_same s s' :
  sound s -> planned src_root dst_root batches s' -> accounted s' -> disk s' = disk s ->
  (forall k, k ∈ t_tasks s' -> k ∈ t_tasks s \/ exists e, e ∈ pending_files s /\ k = spawn e) ->
  pending_files s' ⊆ pending_files s -> sound s'.
Proof using Type.
  intros [H1 H2 H3 H4 H5] Hp Ha Ed Ht Hpe. split; rewrite ?Ed; try done.
  - intros k Hk. destruct (Ht k Hk) as [Hin|(e & He & ->)]; [by apply H4|].
    destruct (H5 e He) as [Hf Hu]. by exists e.
  - intros e He. by apply H5, Hpe.
Qed.

Lemma touches_other d d' e e' :
  touches (dst_of e) d d' -> e ∈ files_in batches -> e' ∈ files_in batches -> e' <> e ->
  d' !! dst_of e' = d !! dst_of e'.
Proof using Htree. intros [Ho _] He He' Hne. apply Ho. intros Heq. apply Hne. by apply dst_of_inj. Qed.

Lemma sound_work i s s' : sound s -> work_step opts i s = Some s' -> sound s'.
Proof using Htree Hroom L CL Hopts Hplace.
  intros Hs Hstep. pose proof (planned_work _ _ _ _ _ _ _ (so_plan _ Hs) Hstep) as Hp'.
  pose proof (accounted_work _ _ _ _ (so_count _ Hs) Hstep) as Ha'.
  apply work_step_inv in Hstep as (k & st & w & Hk & Hm & ->).
  pose proof (schedule_once s (so_plan _ Hs)) as Hnd.
  destruct Hs as [H1 H2 H3 H4 H5]. destruct (H4 k) as (e & [He Hke] & Hst); [by apply list_elem_of_lookup_2 in Hk|].
  destruct (move_ok _ _ _ _ _ H3 He Hke Hst Hm) as (Ht & Hd & Hok).
  split; [done|done|done| |].
  - simpl. intros k' [j Hj]%list_elem_of_lookup. destruct (decide (j = i)) as [->|Hne].
    + rewrite list_lookup_insert_eq in Hj by by eapply lookup_lt_Some. injection Hj as <-. by exists e.
    + rewrite list_lookup_insert_ne in Hj by done.
      destruct (H4 k') as (e' & [He' Hke'] & Hst'); [by apply list_elem_of_lookup_2 in Hj|].
      exists e'. split; [done|]. eapply state_ok_ext; [|exact Hst'].
      apply (touches_other _ _ e); [done..|]. intros ->. apply Hne.
      apply NoDup_app in Hnd as (Hnd & _). apply (NoDup_lookup _ _ _ (spawn e) Hnd).
      * by rewrite list_lookup_fmap, Hj; simpl; rewrite Hke'.
      * by rewrite list_lookup_fmap, Hk; simpl; rewrite Hke.
  - intros e' He'. change (e' ∈ pending_files s) in He'. destruct (H5 e' He') as [Hf Hu]. split; [done|].
    unfold untouched in *. rewrite <- Hu. simpl. apply (touches_other _ _ e); [done..|]. intros ->.
    apply NoDup_app in Hnd as (_ & Hnd & _). apply (Hnd (spawn e)).
    + rewrite <- Hke. apply list_elem_of_fmap_2. by apply list_elem_of_lookup_2 in Hk.
    + by apply list_elem_of_fmap_2.
Qed.

Lemma sound_join i s s' : sound s -> join_step i s = Some s' -> sound s'.
Proof using Type.
  intros Hs Hstep. pose proof (planned_join _ _ _ _ _ _ (so_plan _ Hs) Hstep) as Hp'.
  pose proof (accounted_join _ _ _ (so_count _ Hs) Hstep) as Ha'. destruct Hs as [H1 H2 H3 H4 H5].
  unfold join_step in Hstep. destruct (t_phase s) eqn:Hph; try done.
  destruct (t_tasks s !! i) as [k|] eqn:Hk; [|done]. destruct (k_state k) as [| | |r|] eqn:Hst; try done.
  assert (disk s' = disk s /\ t_tasks s' = <[i := set_state (Joined r) k]> (t_tasks s) /\
          pending_files s' = pending_files s) as (Ed & Et & Ep)
    by (injection Hstep as <-; destruct r as [[]|]; unfold pending_files; simpl; by rewrite Hph).
  split; rewrite ?Ed, ?Ep; try done. rewrite Et. intros k' [j Hj]%list_elem_of_lookup.
  destruct (decide (j = i)) as [->|Hne].
  - rewrite list_lookup_insert_eq in Hj by by eapply lookup_lt_Some. injection Hj as <-.
    destruct (H4 k) as (e & Hke & Hok); [by apply list_elem_of_lookup_2 in Hk|]. exists e. split; [done|].
    rewrite Hst in Hok. by destruct r.
  - rewrite list_lookup_insert_ne in Hj by done. apply H4. by apply list_elem_of_lookup_2 in Hj.
Qed.

(** The dispatcher makes a directory. *)
Lemma sound_dir e dirs fs s :
  t_phase s = Handling (e :: dirs) fs -> sound s -> sound (dispatch_dir mode dst_root e dirs fs s).
Proof using Htree Hroom L.
  intros Hph Hs. pose proof (planned_dir mode _ _ _ _ _ _ _ Hph (so_plan _ Hs)) as Hp'.
  assert (Ha' : accounted (dispatch_dir mode dst_root e dirs fs s)) by by apply accounted_dir, (so_count _ Hs).
  destruct Hs as [H1 H2 H3 H4 H5].
  destruct (pl_dirs _ _ _ _ H1 e) as [He Hk]; [unfold pending_dirs; rewrite Hph; apply elem_of_app; left; left|].
  unfold dispatch_dir in *. destruct (w_cancelled (t_world s)).
  { apply sound_same with s; try done; [by left|]. unfold pending_files. simpl. by rewrite Hph. }
  assert (Hadd : adds_dirs (dst_of e) (disk s) (create_dir_all (w_tick (t_world s)) (disk s) (dst_of e)).1).
  { apply create_dir_all_adds, dst_plain; [done..|congruence]. }
  fold (dst_of e) in *. destruct (create_dir_all _ _ _) as [d ko] eqn:Hc. simpl in Hadd.
  assert (Hd : sound_disk d) by by eapply sound_dirs.
  assert (Hother : forall e', e' ∈ files_in batches -> d !! dst_of e' = disk s !! dst_of e').
  { intros e' [He' Hk']%in_files. destruct (Hadd (dst_of e')) as [?|(_ & _ & Hpre & _)]; [done|].
    apply prefix_app_inv in Hpre. by rewrite (to_leaf _ _ _ Htree e' e) in Hk'. }
  assert (Hout : forall s1 : Tree S, planned src_root dst_root batches s1 -> accounted s1 -> disk s1 = d ->
    t_tasks s1 = t_tasks s -> pending_files s1 ⊆ pending_files s -> sound s1).
  { intros s1 Hp1 Ha1 Ed Et Ep. split; rewrite ?Ed, ?Et; try done.
    - intros k Hkin. destruct (H4 k Hkin) as (e' & [Hf Hr] & Hok). exists e'. split; [done|].
      eapply state_ok_ext; [|exact Hok]. by apply Hother.
    - intros e' He'. destruct (H5 e') as [Hf Hu]; [by apply Ep|]. split; [done|]. unfold untouched in *.
      by rewrite Hother. }
  assert (Hpe : forall fs' l, l ⊆ fs' ++ files_in (t_chan s) ++ files_in (t_left s) -> fs' = fs -> l ⊆ pending_files s).
  { intros fs' l Hl ->. unfold pending_files. by rewrite Hph. }
  destruct ko as [k|]; [destruct mode|]; apply Hout; try done; unfold pending_files; simpl; rewrite Hph; try done.
  apply list_subseteq_app_r; reflexivity.
Qed.

Lemma sound_dispatch s s' :
  sound s -> w_died (t_world s) = false -> dispatch_step mode src_root dst_root s = Some s' -> sound s'.
Proof using Htree Hroom L C.
  intros Hs Hdied Hstep. pose proof (planned_dispatch _ _ _ _ _ _ (so_plan _ Hs) Hstep) as Hp'.
  assert (Ha' : accounted s').
  { apply (accounted_step mode src_root dst_root opts Dispatch s); [apply (so_count _ Hs)|].
    unfold TreeCopy.step. by rewrite Hdied. }
  assert (Hsame : disk s' = disk s -> t_tasks s' = t_tasks s -> pending_files s' ⊆ pending_files s -> sound s').
  { intros Ed Et Ep. apply sound_same with s; try done. rewrite Et. by left. }
  unfold dispatch_step in Hstep. destruct (t_phase s) as [|[|e dirs] fs| | |] eqn:Hph; [| | | | |done].
  - unfold dispatch_batch in Hstep. destruct (t_chan s) as [|b chan] eqn:Hch.
    + destruct (t_left s) eqn:Hl; [|done]. injection Hstep as <-. apply Hsame; try done.
      unfold pending_files. simpl. by rewrite Hph.
    + destruct (w_cancelled _); injection Hstep as <-; apply Hsame; try done; unfold pending_files; simpl;
        rewrite Hph, Hch, files_in_cons, <- app_assoc; [|done]. do 2 apply list_subseteq_app_r; reflexivity.
  - destruct fs as [|e fs]; injection Hstep as <-.
    + apply Hsame; try done. unfold pending_files. simpl. by rewrite Hph.
    + unfold dispatch_file in *. destruct (w_cancelled _).
      * apply Hsame; try done. unfold pending_files. simpl. rewrite Hph. apply list_subseteq_app_r; reflexivity.
      * apply sound_same with s; try done.
        -- simpl. intros k [Hk| ->%list_elem_of_singleton]%elem_of_app; [by left|right]. exists e.
           split; [|done]. unfold pending_files. rewrite Hph. left.
        -- unfold pending_files. simpl. rewrite Hph. intros x Hx; by right.
  - injection Hstep as <-. by eapply sound_dir.
  - destruct (forallb _ _); [|done]. injection Hstep as <-. apply Hsame; try done.
    unfold pending_files. simpl. by rewrite Hph.
  - destruct (t_left s) eqn:Hl; [|done]. injection Hstep as <-. unfold conclude in *.
    set (s1 := match mode with FromWalk => _ | FromScan => _ end) in *.
    assert (disk s1 = disk s /\ t_tasks s1 = t_tasks s /\ t_chan s1 = t_chan s /\ t_left s1 = t_left s) as (Ed & Et & Ec & El)
      by (unfold s1; destruct mode; [by destruct (t_walk_ok s)|done]).
    clearbody s1. destruct (t_first_error s1); [|destruct (_ || _)]; apply Hsame; simpl; try done;
      unfold pending_files; simpl; by rewrite Hph, Ec, El.
Qed.

Lemma sound_step a s s' : sound s -> step a s = Some s' -> sound s'.
Proof using Htree Hroom L CL Hopts Hplace.
  intros Hs Hstep. pose proof (planned_step _ _ _ _ _ _ _ _ (so_plan _ Hs) Hstep) as Hp'.
  pose proof (accounted_step _ _ _ _ _ _ _ (so_count _ Hs) Hstep) as Ha'.
  unfold TreeCopy.step in Hstep. destruct (w_died _) eqn:Hdied; [done|]. destruct a as [| |i|i|].
  - unfold walk_step in Hstep. destruct (t_left s) as [|b l] eqn:Hl; [done|]. destruct (decide _); [|done].
    injection Hstep as <-. apply sound_same with s; try done; [by left|].
    unfold pending_files. simpl. rewrite Hl, files_in_app, (files_in_cons b l), (files_in_cons b []).
    change (files_in []) with (@nil Entry). by rewrite app_nil_r, <- app_assoc.
  - by eapply sound_dispatch.
  - by eapply sound_join.
  - by eapply sound_work.
  - destruct (w_cancelled _); [done|]. injection Hstep as <-. apply sound_same with s; try done. by left.
Qed.

(** Every state of every run is sound. *)
Definition reachable (s : Tree S) : Prop :=
  exists w ok, w_disk w = d0 /\
    (w_counters w = zero_counters \/ exists f b, w_counters w = count_found f b zero_counters) /\
    rtc (steps_to mode src_root dst_root opts) (machine w batches ok) s.

Lemma reachable_sound s : reachable s -> sound s.
Proof using Htree Hroom L CL Hopts Hplace.
  intros (w & ok & Hw & Hc & Hrun). assert (Hs : sound (machine w batches ok)) by by apply machine_sound.
  induction Hrun as [|s1 s2 s3 [a Hstep] _ IH]; [done|]. apply IH. by eapply sound_step.
Qed.
End safety.

(** ** The verdict of the walk *)

Section verdict.
Context {S : Type} {E : TreeEnv} {C : TreeCopier S}.
Context (src_root dst_root : path) (opts : TreeOptions).

(** No step changes whether the walk goes through, and a success is reported
    only when it does. *)
Lemma verdict_step a (s s' : Tree S) :
  step FromWalk src_root dst_root opts a s = Some s' ->
  t_walk_ok s' = t_walk_ok s /\
  forall rep, t_phase s' = Returned (Ok rep) -> t_phase s = Returned (Ok rep) \/ t_walk_ok s = true.
Proof using Type.
  unfold step. destruct (w_died _); [done|]. destruct a as [| |i|i|].
  - unfold walk_step. destruct (t_left s); [done|]. destruct (decide _); [|done]. intros [= <-]. cbn. auto.
  - unfold dispatch_step. destruct (t_phase s) as [|[|e dirs] [|f files]| | |] eqn:Hph; try done.
    + unfold dispatch_batch. destruct (t_chan s), (t_left s); [| |destruct (w_cancelled _)..]; try done; by intros [= <-].
    + by intros [= <-].
    + intros [= <-]. unfold dispatch_file. by destruct (w_cancelled _).
    + intros [= <-]. unfold dispatch_dir. destruct (w_cancelled _); [done|]. by destruct (create_dir_all _ _ _) as [d [k|]].
    + intros [= <-]. unfold dispatch_dir. destruct (w_cancelled _); [done|]. by destruct (create_dir_all _ _ _) as [d [k|]].
    + destruct (forallb _ _); [|done]. by intros [= <-].
    + destruct (t_left s); [|done]. intros [= <-]. unfold conclude. destruct (t_walk_ok s) eqn:Hw.
      * destruct (t_first_error s); [|destruct (_ || _)]; cbn; rewrite ?Hw; auto.
      * cbn. destruct (t_first_error s); cbn; rewrite ?Hw; done.
  - unfold join_step. destruct (t_phase s) eqn:Hph; try done. destruct (t_tasks s !! i) as [k|]; [|done].
    destruct (k_state k) as [| | |r|]; try done. intros [= <-]. destruct r as [[]|]; cbn; by rewrite ?Hph.
  - unfold work_step. destruct (t_tasks s !! i) as [k|]; [|done]. destruct (k_state k); try done.
    + destruct (_ <? _); [|done]. intros [= <-]. cbn. auto.
    + destruct (resolve_task _ _ _). intros [= <-]. cbn. auto.
    + destruct (write_task _ _ _ _ _). intros [= <-]. cbn. auto.
  - destruct (w_cancelled _); [done|]. intros [= <-]. cbn. auto.
Qed.

Lemma success_walked w batches ok (s : Tree S) rep :
  rtc (steps_to FromWalk src_root dst_root opts) (machine w batches ok) s -> t_phase s = Returned (Ok rep) -> ok = true.
Proof using Type.
  intros Hrun. assert (H : t_walk_ok s = ok /\ (t_phase s = Returned (Ok rep) -> ok = true)); [|apply H].
  eapply (rtc_ind_r (fun s => t_walk_ok s = ok /\ (t_phase s = Returned (Ok rep) -> ok = true)) (machine w batches ok)); [split; [reflexivity|discriminate]| |exact Hrun].
  intros s1 s2 _ [a Ha] [E1 H1]. destruct (verdict_step a s1 s2 Ha) as [E2 H2]. split; [congruence|].
  intros Hph. destruct (H2 rep Hph) as [?|?]; [by apply H1|congruence].
Qed.
End verdict.

(** ** The theorems *)

Section theorems.
Context {S : Type} {E : TreeEnv} {L : OsLaws E} {C : TreeCopier S} {CL : TreeCopierLaws C}.

Definition sum_outcomes (f : FileOutcome -> Z) (os : list FileOutcome) : Z := foldr (fun o n => f o + n) 0 os.

(** The files and links of a run's batches, with what became of them. *)
Lemma outcomes_of src_root dst_root opts d0 batches d (ks : list Task) : forall fs,
  tree_of src_root d0 (entries_of batches) -> reset <$> ks = spawn dst_root <$> fs -> fs ⊆ files_in batches ->
  Forall (fun k => exists o e, outcome k = Some o /\ o <> Aborted /\ task_of dst_root batches k e /\
                   outcome_ok dst_root opts d0 d e o) ks ->
  exists os, Forall2 (outcome_ok dst_root opts d0 d) fs os /\ Aborted ∉ os /\
    forall f, tally f ks = sum_outcomes f os.
Proof using L CL.
  induction ks as [|k ks IH]; intros [|e fs] Htree Heq Hfs Hks; try discriminate Heq.
  { exists []. split_and!; [constructor|apply not_elem_of_nil|done]. }
  injection Heq as Hs Hd Hk Heq. apply Forall_cons in Hks as [(o & e' & Ho & Hab & [He' Hr] & Hok) Hks].
  destruct (IH fs Htree) as (os & H1 & H2 & H3); [done|set_solver|done|]. exists (o :: os).
  assert (e' = e) as ->.
  { apply (dst_of_inj src_root dst_root d0 batches Htree); [done|set_solver|].
    apply (spawn_fields dst_root) in Hr as (_ & Hd' & _). unfold dst_of in *. congruence. }
  split_and!; [by constructor|by apply not_elem_of_cons|]. intros f. simpl. rewrite H3. unfold weight. by rewrite Ho.
Qed.

Lemma tasks_outcomes src_root dst_root opts d0 batches (s : Tree S) rep :
  tree_of src_root d0 (entries_of batches) -> sound src_root dst_root opts d0 batches s ->
  t_phase s = Returned (Ok rep) ->
  exists os, Forall2 (outcome_ok dst_root opts d0 (w_disk (t_world s))) (files_in batches) os /\ Aborted ∉ os /\
    forall f, tally f (t_tasks s) = sum_outcomes f os.
Proof using L CL.
  intros Htree Hs Hph. destruct Hs as [Hp Ha Hd Ht _].
  destruct (pl_report _ _ _ _ Hp rep Hph) as (Heq & _ & Hf & Hab).
  pose proof (pl_drained _ _ _ _ Hp) as Hj. unfold drained in Hj. rewrite Hph in Hj.
  apply (outcomes_of src_root dst_root opts d0 batches); [done..|]. rewrite Forall_forall. intros k Hk.
  pose proof (accounted_outcomes _ Ha Hj Hf Hab) as Ho. rewrite Forall_forall in Ho.
  destruct (Ho k Hk) as (o & Ho1 & Ho2), (Ht k Hk) as (e & He & Hok). exists o, e. split_and!; try done.
  unfold outcome in Ho1. destruct (k_state k) as [| | |[]|[]]; try done; by injection Ho1 as ->.
Qed.

(** What a success says about the entries of the batches, from the walk or
    from the rows of a scan. *)
Lemma report_of_run mode src_root dst_root opts d0 batches (s : Tree S) rep :
  tree_of src_root d0 (entries_of batches) -> room_at src_root dst_root d0 ->
  tc_stands_for (t_file opts) -> in_place (t_collision opts) = true ->
  reachable mode src_root dst_root opts d0 batches s -> t_phase s = Returned (Ok rep) ->
  exists os, Forall2 (outcome_ok dst_root opts d0 (w_disk (t_world s))) (files_in batches) os /\ Aborted ∉ os /\
    tr_files rep = wrap64 (sum_outcomes done_one os) /\ tr_bytes rep = wrap64 (sum_outcomes done_bytes os) /\
    tr_skipped rep = wrap64 (sum_outcomes skipped_one os) /\ tr_errored rep = wrap64 (sum_outcomes errored_one os).
Proof using L CL.
  intros Htree Hroom Hopts Hplace Hreach Hph.
  assert (Hs : sound src_root dst_root opts d0 batches s) by by eapply reachable_sound.
  destruct (tasks_outcomes _ _ _ _ _ _ _ Htree Hs Hph) as (os & Hos & Hab & Ht). exists os. split; [done|]. split; [done|].
  destruct (pl_report _ _ _ _ (so_plan _ _ _ _ _ _ Hs) rep Hph) as (_ & -> & _).
  rewrite <- !Ht. by destruct (so_count _ _ _ _ _ _ Hs).
Qed.

(** C6: a tree copy that reports success has looked at every file and link
    that the walk of the source yields and the filters pass: each was copied
    (its destination has the content the source had), or skipped (its
    destination was there before and is what it was), or recorded as failed;
    and the four numbers of the report are the numbers of those, whatever the
    schedule of the tasks and the failures along the way.  Nothing is skipped
    under [Overwrite] and nothing fails under [Abort]: then a success means
    that all of them were copied.  A walk that meets an error is no success,
    but a directory that may not be read ([WDenied]) is stepped over, and what
    lies in it is not in the report.  The policies are those that write to the
    entry's own name, [Skip], [Overwrite] and [OverwriteIfNewer]: under
    [KeepBoth], [Rename] and [Prompt] two entries can be given one name, and a
    file that is reported as copied can be gone.  The source does not change
    while it is copied, its entries are of the kinds the walk says, with no
    link on the way to them; the destination root is a directory apart from
    the source with no links in it; and a single copy is as exact as
    [CopyFile]'s. *)
Theorem tree_copy_reports_the_truth {G : Globs} pl filters items src_root dst_root opts (w : World S) (s : Tree S) rep
    (d0 := w_disk w) (walk := enumerate_streaming pl src_root filters items) :
  depth_first items -> tree_of src_root d0 (entries_of walk.1) -> room_at src_root dst_root d0 ->
  tc_stands_for (t_file opts) -> in_place (t_collision opts) = true -> w_counters w = zero_counters ->
  rtc (steps_to FromWalk src_root dst_root opts) (machine w walk.1 walk.2) s -> t_phase s = Returned (Ok rep) ->
  let todo := filter (fun e => e_kind e <> KDir) (kept_in pl src_root filters items items) in
  exists os, Forall2 (outcome_ok dst_root opts d0 (w_disk (t_world s))) todo os /\ Aborted ∉ os /\
    tr_files rep = wrap64 (sum_outcomes done_one os) /\ tr_bytes rep = wrap64 (sum_outcomes done_bytes os) /\
    tr_skipped rep = wrap64 (sum_outcomes skipped_one os) /\ tr_errored rep = wrap64 (sum_outcomes errored_one os).
Proof using L CL.
  intros Hdf Htree Hroom Hopts Hplace Hc Hrun Hph. cbv zeta.
  pose proof (success_walked _ _ _ _ _ _ _ _ Hrun Hph) as Hok. destruct walk as [batches ok] eqn:Ew. cbn [fst snd] in *. subst ok.
  destruct (enumeration_exact pl src_root filters items batches Hdf Ew) as [Ekept _].
  destruct (report_of_run FromWalk src_root dst_root opts d0 batches s rep) as (os & Hos & Hrest); [done..| |done|].
  { exists w, true. split_and!; [done|by left|exact Hrun]. }
  exists os. split; [|exact Hrest]. rewrite <- Ekept.
  replace (filter (fun e => e_kind e <> KDir) (entries_of batches)) with (files_in batches); [exact Hos|].
  unfold files_in, is_dir_entry. apply list_filter_iff. intros e. apply bool_decide_eq_false.
Qed.

End theorems.
