(* ===== verification/TreeLive.v ===== *)
(** * Does a tree copy return?

    A run takes a bounded number of steps, and where it stops it has returned,
    with one exception: the dispatcher leaves its loop on a cancellation but
    keeps the channel's receiver, so a walker with enough left to send waits
    for room that nobody makes, and the dispatcher waits for the walker.

    The second part bounds the number of steps by a measure of the entries
    that are left. *)
From S2P Require Import Prelude.
From S2P Require Import Text.
From S2P Require Import Files.
From S2P Require Import Control.
From S2P Require Import CopyTypes.
From S2P Require Import CopyFile.
From S2P Require Import Filter.
From S2P Require Import TreeTypes.
From S2P Require Import TreeCopy.
From S2P Require Import TreeLaws.
From S2P Require Import TreePlan.
From stdpp Require Import options.
Open Scope Z_scope.

Section live.
Context {S : Type} {E : TreeEnv} {C : TreeCopier S} {CL : TreeCopierLaws C}.
Context (mode : Mode) (src_root dst_root : path) (opts : TreeOptions).
#[local] Abbreviation step := (step mode src_root dst_root opts).
#[local] Abbreviation run := (run mode src_root dst_root opts).
#[local] Abbreviation steps_to := (steps_to mode src_root dst_root opts).

(** Nothing can move, and the function has not returned. *)
Definition stuck (s : Tree S) : Prop :=
  w_died (t_world s) = false /\ (forall r, t_phase s <> Returned r) /\ forall a, a <> Cancel -> step a s = None.

(** ** Where a run can be stuck *)

Lemma stuck_none a s : stuck s -> a <> Cancel -> 
  match a with
  | Walk => walk_step mode s = None
  | Dispatch => dispatch_step mode src_root dst_root s = None
  | Join i => join_step i s = None
  | Work i => work_step opts i s = None
  | Cancel => True
  end.
Proof using Type.
  intros (Hd & _ & Hn) Ha. specialize (Hn a Ha). unfold TreeCopy.step in Hn. rewrite Hd in Hn. by destruct a.
Qed.

Lemma concurrency_positive : 1 <= clamped_concurrency opts.
Proof using Type. unfold clamped_concurrency, clamp. lia. Qed.

Lemma running_some (ks : list Task) : 0 < running ks -> exists i k, ks !! i = Some k /\ is_running k = true.
Proof using Type.
  unfold running. intros H. destruct (filter (fun k => is_running k = true) ks) as [|k l] eqn:Hf; [simpl in H; lia|].
  assert (k ∈ filter (fun k => is_running k = true) ks) as [Hr [i Hi]%list_elem_of_lookup]%list_elem_of_filter
    by (rewrite Hf; left). by exists i, k.
Qed.

(** As long as a task is not joined somebody can move. *)
Lemma tasks_move s : t_phase s = Joining -> stuck s -> forallb is_joined (t_tasks s) = true.
Proof using Type.
  intros Hph Hst. apply forallb_forall. intros k Hk. apply list_elem_of_In, list_elem_of_lookup in Hk as [i Hi].
  assert (Hrun : forall i k, t_tasks s !! i = Some k -> is_running k = false).
  { intros j k' Hj. pose proof (stuck_none (Work j) s Hst ltac:(done)) as Hw. cbv beta iota in Hw.
    unfold work_step, is_running in *. rewrite Hj in Hw. destruct (k_state k'); try done;
      [destruct (resolve_task _ _ _)|destruct (write_task _ _ _ _ _)]; done. }
  unfold is_joined. destruct (k_state k) as [| |dst n|r|r] eqn:Hks; [| | | |done].
  - exfalso. pose proof (stuck_none (Work i) s Hst ltac:(done)) as Hw. cbv beta iota in Hw.
    unfold work_step in Hw. rewrite Hi, Hks in Hw. destruct (Z.ltb_spec (running (t_tasks s)) (clamped_concurrency opts)); [done|].
    pose proof concurrency_positive. destruct (running_some (t_tasks s)) as (j & k' & Hj & Hr); [lia|].
    by rewrite (Hrun j k' Hj) in Hr.
  - specialize (Hrun i k Hi). unfold is_running in Hrun. by rewrite Hks in Hrun.
  - specialize (Hrun i k Hi). unfold is_running in Hrun. by rewrite Hks in Hrun.
  - exfalso. pose proof (stuck_none (Join i) s Hst ltac:(done)) as Hw. cbv beta iota in Hw.
    unfold join_step in Hw. by rewrite Hph, Hi, Hks in Hw.
Qed.

Lemma stuck_shape s : stuck s -> t_phase s = Waiting /\ t_left s <> [] /\ (capacity mode <= length (t_chan s))%nat.
Proof using Type.
  intros Hst. pose proof (stuck_none Dispatch s Hst ltac:(done)) as Hd.
  pose proof (stuck_none Walk s Hst ltac:(done)) as Hw. cbv beta iota in Hd, Hw.
  unfold dispatch_step, walk_step in *. destruct (t_phase s) as [|[|e ds] [|e' fs]| | |r] eqn:Hph; try done.
  - unfold dispatch_batch in Hd. destruct (t_chan s) eqn:Hc; [|by destruct (w_cancelled _)].
    destruct (t_left s); [done|]. simpl in Hw. destruct (decide _) as [|Hn]; [done|]. exfalso. apply Hn.
    destruct mode; simpl; lia.
  - by rewrite (tasks_move s Hph Hst) in Hd.
  - destruct (t_left s); [done|]. destruct (decide _); [done|]. split_and!; [done|done|lia].
  - destruct Hst as (_ & Hn & _). by destruct (Hn r).
Qed.

(** ** How much is on its way *)

Definition on_the_way (s : Tree S) : nat := length (t_chan s) + length (t_left s).

Record flowing (n : nat) (s : Tree S) : Prop := {
  fl_chan : (length (t_chan s) <= capacity mode)%nat;
  fl_sum : (on_the_way s <= n)%nat;
  fl_seen : t_phase s = Receiving \/ on_the_way s = 0%nat \/ (on_the_way s < n)%nat;
}.

Lemma machine_flowing (w : World S) batches ok : flowing (length batches) (machine w batches ok).
Proof using Type. split; unfold on_the_way; simpl; [lia|lia|by left]. Qed.

Lemma flowing_same n s s' :
  flowing n s -> t_chan s' = t_chan s -> t_left s' = t_left s -> (t_phase s' = Receiving \/ t_phase s <> Receiving) ->
  flowing n s'.
Proof using Type.
  intros [H1 H2 H3] Ec El Hp. split; unfold on_the_way in *; rewrite ?Ec, ?El; try done.
  destruct Hp as [?|?]; [by left|]. destruct H3; [done|by right].
Qed.

Lemma flowing_step n a s s' : flowing n s -> step a s = Some s' -> flowing n s'.
Proof using Type.
  intros Hf. unfold TreeCopy.step. destruct (w_died _); [done|]. destruct a as [| |i|i|].
  - unfold walk_step. destruct (t_left s) as [|b l] eqn:Hl; [done|]. destruct (decide _); [|done]. intros [= <-].
    destruct Hf as [H1 H2 H3]. unfold on_the_way in *. rewrite Hl in *. simpl in *.
    split; unfold on_the_way; simpl; rewrite ?length_app; simpl; [lia|lia|].
    destruct H3 as [?|[?|?]]; [by left|lia|right; right; lia].
  - unfold dispatch_step. destruct (t_phase s) as [|[|e ds] [|e' fs]| | |r] eqn:Hph; try done.
    + unfold dispatch_batch. destruct (t_chan s) as [|b chan] eqn:Hc.
      * destruct (t_left s) eqn:Hl; [|done]. intros [= <-]. destruct Hf as [H1 H2 H3].
        split; unfold on_the_way in *; simpl; rewrite ?Hc, ?Hl in *; [done|done|by right; left].
      * intros Hs. assert (t_chan s' = chan /\ t_left s' = t_left s) as [Ec El] by (by destruct (w_cancelled _); injection Hs as <-).
        destruct Hf as [H1 H2 H3]. unfold on_the_way in *. rewrite Hc in *. simpl in *.
        split; unfold on_the_way; rewrite ?Ec, ?El; lia.
    + intros [= <-]. apply flowing_same with s; try done. by left.
    + intros [= <-]. unfold dispatch_file. destruct (w_cancelled _); apply flowing_same with s; try done;
        simpl; rewrite ?Hph; [by left|by right].
    + intros [= <-]. unfold dispatch_dir. destruct (w_cancelled _); [|destruct (create_dir_all _ _ _) as [d [k|]]; [destruct mode|]];
        apply flowing_same with s; simpl; rewrite ?Hph; try done; by right.
    + intros [= <-]. unfold dispatch_dir. destruct (w_cancelled _); [|destruct (create_dir_all _ _ _) as [d [k|]]; [destruct mode|]];
        apply flowing_same with s; simpl; rewrite ?Hph; try done; by right.
    + destruct (forallb _ _); [|done]. intros [= <-]. apply flowing_same with s; try done. rewrite Hph. by right.
    + destruct (t_left s) eqn:Hl; [|done]. intros [= <-].
      assert (t_chan (conclude mode src_root dst_root s) = t_chan s /\ t_left (conclude mode src_root dst_root s) = t_left s) as [Ec El].
      { unfold conclude. set (s1 := match mode with FromWalk => _ | FromScan => _ end).
        assert (t_chan s1 = t_chan s /\ t_left s1 = t_left s) as [Ec El]
          by (unfold s1; destruct mode; [by destruct (t_walk_ok s)|done]).
        by destruct (t_first_error s1); [|destruct (_ || _)]; simpl. }
      apply flowing_same with s; [done|done|done|]. rewrite Hph. by right.
  - unfold join_step. destruct (t_phase s) eqn:Hph; try done. destruct (t_tasks s !! i) as [k|]; [|done].
    destruct (k_state k) as [| | |r|]; try done. intros [= <-].
    destruct r as [[]|]; apply flowing_same with s; simpl; rewrite ?Hph; try done; by right.
  - intros (k & st & w & _ & _ & ->)%work_step_inv. apply flowing_same with s; try done.
    simpl. destruct (t_phase s); [by left|by right..].
  - destruct (w_cancelled _); [done|]. intros [= <-]. apply flowing_same with s; try done.
    simpl. destruct (t_phase s); [by left|by right..].
Qed.

Lemma run_invariant (P : Tree S -> Prop) acts : forall s s',
  (forall a s1 s2, P s1 -> step a s1 = Some s2 -> P s2) -> P s -> run acts s = Some s' -> P s'.
Proof using Type.
  induction acts as [|a acts IH]; intros s s' Hstep Hs; simpl; [by intros [= <-]|].
  destruct (step a s) as [s1|] eqn:Ha; [|done]. intros Hr. apply (IH s1); eauto.
Qed.

(** C11: A tree copy can only get stuck waiting for its walker after it was
    cancelled, with the channel full and the walker not done: without a
    cancellation, and always when the walk has at most one batch more than
    the channel holds (up to 300,000 entries), whoever is to move next can. *)
Theorem hang_needs_a_cancelled_long_walk w batches ok acts s :
  run acts (machine w batches ok) = Some s -> stuck s ->
  t_phase s = Waiting /\ w_cancelled (t_world s) = true /\ t_left s <> [] /\
  length (t_chan s) = capacity mode /\ (capacity mode + 2 <= length batches)%nat.
Proof using CL.
  intros Hr Hst. destruct (stuck_shape s Hst) as (Hph & Hl & Hc).
  assert (Hf : flowing (length batches) s).
  { apply (run_invariant _ acts (machine w batches ok)); [|apply machine_flowing|done]. apply flowing_step. }
  assert (Hp : planned src_root dst_root batches s).
  { apply (run_invariant _ acts (machine w batches ok)); [|apply machine_planned|done].
    intros a s1 s2. apply planned_step. }
  destruct Hf as [H1 H2 H3]. unfold on_the_way in *. rewrite Hph in H3.
  assert (0 < length (t_left s))%nat by by (destruct (t_left s); [|simpl; lia]).
  split_and!; [done| |done|lia|destruct H3 as [?|[?|?]]; [done|lia|lia]].
  destruct (w_cancelled (t_world s)) eqn:Hw; [done|]. destruct (pl_ended _ _ _ _ Hp) as [_ ?]; [|done|done].
  unfold ended. by rewrite Hph.
Qed.

(** ** The hang *)

Definition hung (s : Tree S) : Prop :=
  (t_phase s = Joining \/ t_phase s = Waiting) /\ (length (t_chan s) <= capacity mode)%nat /\
  (capacity mode < on_the_way s)%nat.

Lemma hung_step a s s' : hung s -> step a s = Some s' -> hung s'.
Proof using Type.
  intros (Hph & Hc & Ho) Hs. assert (Hn : forall n, flowing n s -> flowing n s') by (intros n ?; by eapply flowing_step).
  revert Hs. unfold TreeCopy.step, hung, on_the_way in *. destruct (w_died _); [done|]. destruct a as [| |i|i|].
  - unfold walk_step. destruct (t_left s) as [|b l] eqn:Hl; [done|]. destruct (decide _); [|done]. intros [= <-].
    simpl in *. rewrite length_app. simpl. split; [done|lia].
  - unfold dispatch_step. destruct Hph as [-> | ->].
    + destruct (forallb _ _); [|done]. intros [= <-]. simpl. split; [by right|done].
    + destruct (t_left s); [simpl in Ho; lia|done].
  - unfold join_step. destruct (t_phase s) eqn:Hp; try done. destruct (t_tasks s !! i) as [k|]; [|done].
    destruct (k_state k) as [| | |r|]; try done. intros [= <-]. destruct r as [[]|]; simpl; rewrite Hp; split; auto.
  - by intros (k & st & w & _ & _ & ->)%work_step_inv.
  - destruct (w_cancelled _); [done|]. by intros [= <-].
Qed.

(** Cancelling a tree copy while its walker has more to send than the
    channel holds hangs it for good: from the moment the dispatcher sees the
    cancellation, no schedule of the tasks and the walker lets the function
    return. *)
Theorem cancelled_copy_never_returns (w : World S) batches ok :
  w_died w = false -> w_cancelled w = false -> (capacity mode + 2 <= length batches)%nat ->
  exists s, run [Cancel; Walk; Dispatch] (machine w batches ok) = Some s /\
    forall s' r, rtc steps_to s s' -> t_phase s' <> Returned r.
Proof using Type.
  intros Hd Hc Hlen. destruct batches as [|b batches]; [simpl in Hlen; lia|].
  assert (Hcap : (0 < capacity mode)%nat) by (destruct mode; simpl; lia).
  eexists. split.
  - simpl. unfold TreeCopy.step at 1. simpl. rewrite Hd, Hc. unfold TreeCopy.step at 1. simpl. rewrite Hd.
    unfold walk_step. simpl. rewrite decide_True by done. unfold TreeCopy.step at 1. simpl. rewrite Hd. reflexivity.
  - set (s0 := with_phase _ _). intros s' r Hrun.
    assert (Hh : hung s0). { split; [by left|]. unfold on_the_way. simpl in *. lia. }
    clearbody s0. induction Hrun as [s1|s1 s2 s3 [a Hs] _ IH].
    + destruct Hh as [[-> | ->] _]; done.
    + apply IH. by eapply hung_step.
Qed.
End live.

(** * The number of steps of a tree copy

    Every step lowers [work_left], so a run is no longer than what its batches
    hold: at most twenty-one steps for each entry. *)
#[local] Open Scope nat_scope.

(** Sums over lists. *)
Definition total {A} (f : A -> nat) (l : list A) : nat := sum_list_with f l.
#[local] Arguments total : simpl never.

Lemma total_nil {A} (f : A -> nat) : total f [] = 0.
Proof. done. Qed.

Lemma total_cons {A} (f : A -> nat) x l : total f (x :: l) = f x + total f l.
Proof. done. Qed.

Lemma total_app {A} (f : A -> nat) l1 l2 : total f (l1 ++ l2) = total f l1 + total f l2.
Proof. apply sum_list_with_app. Qed.

Lemma total_insert {A} (f : A -> nat) (l : list A) i x y :
  l !! i = Some x -> total f (<[i := y]> l) + f x = total f l + f y.
Proof.
  revert i. induction l as [|z l IH]; intros i Hi; [done|]. destruct i as [|i]; simpl in *.
  - injection Hi as ->. rewrite !total_cons. lia.
  - specialize (IH i Hi). rewrite !total_cons. lia.
Qed.

Lemma total_filter {A} (f : A -> nat) (p : A -> bool) l :
  total f l = total f (filter (fun x => p x = true) l) + total f (filter (fun x => p x = false) l).
Proof.
  induction l as [|x l IH]; [done|]. rewrite !filter_cons, total_cons, IH.
  destruct (p x); simpl; rewrite total_cons; lia.
Qed.

Section term.
Context {S : Type} {E : TreeEnv} {C : TreeCopier S}.
Context (mode : Mode) (src_root dst_root : path) (opts : TreeOptions).
#[local] Abbreviation step := (step mode src_root dst_root opts).
#[local] Abbreviation run := (run mode src_root dst_root opts).

(** The user is not asked, and the retries are a [u8]. *)
Definition decides_alone : Prop :=
  match t_on_error opts with EpAsk => False | EpRetryN n _ => (0 <= n)%Z | _ => True end.

Context (Halone : decides_alone).

Definition task_work (k : Task) : nat :=
  match k_state k with
  | Queued => 14
  | Resolving => 13
  | Writing _ n => Z.to_nat n + 2
  | Settled _ => 1
  | Joined _ => 0
  end.

Definition entry_work (e : Entry) : nat := if is_dir_entry e then 1 else 15.

Definition batch_work (b : Plan) : nat := total entry_work (p_entries b).

Definition phase_work (ph : Phase) : nat :=
  match ph with
  | Receiving => 3
  | Handling ds fs => 4 + total entry_work ds + total entry_work fs
  | Joining => 2
  | Waiting => 1
  | Returned _ => 0
  end.

Definition work_left (s : Tree S) : nat :=
  total (fun b => 4 + batch_work b) (t_left s) + total (fun b => 3 + batch_work b) (t_chan s) +
  phase_work (t_phase s) + total task_work (t_tasks s) +
  (if w_died (t_world s) then 0 else 1) + (if w_cancelled (t_world s) then 0 else 1).

(** The retries a task has left are those it started with, or fewer. *)
Definition retries_ok (st : TaskState) : Prop := match st with Writing _ n => (0 <= n <= 10)%Z | _ => True end.

Definition bounded (s : Tree S) : Prop :=
  Forall (fun k => retries_ok (k_state k)) (t_tasks s) /\
  match t_phase s with
  | Handling ds fs => Forall (fun e => is_dir_entry e = true) ds /\ Forall (fun e => is_dir_entry e = false) fs
  | _ => True
  end.

Lemma retries_start : (0 <= retries (clamped_on_error opts) <= 10)%Z.
Proof using Halone.
  unfold retries, clamped_on_error, decides_alone in *. destruct (t_on_error opts); simpl; lia.
Qed.

Definition state_work (st : TaskState) : nat := task_work {| k_src := []; k_dst := []; k_kind := KFile; k_state := st |}.

Lemma attempt_lowers src dst n (w : World S) :
  (0 <= n <= 10)%Z ->
  let '(st, w') := attempt opts src dst n (clamped_on_error opts) w in
  retries_ok st /\ (w_died w = false -> w_died w' = true \/ state_work st < state_work (Writing dst n)) /\
  state_work st <= state_work (Writing dst n).
Proof using Halone.
  intros Hn. unfold attempt. destruct (tc_copy _ _ _ _ _ _ _) as [r [[d s] c]].
  assert (Hset : forall r' (w1 : World S), retries_ok (Settled r') /\
    (w_died w = false -> w_died w1 = true \/ state_work (Settled r') < state_work (Writing dst n)) /\
    state_work (Settled r') <= state_work (Writing dst n)).
  { intros r' w1. unfold state_work, task_work. simpl. split; [done|]. split; [right|]; lia. }
  destruct r as [rep|[err| |]]; [apply Hset| | |].
  - destruct (is_cancelled_error err); [apply Hset|].
    assert (Hask : clamped_on_error opts <> EpAsk).
    { unfold clamped_on_error, decides_alone in *. by destruct (t_on_error opts). }
    destruct (clamped_on_error opts) as [| |m b|]; try apply Hset; [done|].
    destruct (Z.eqb_spec n 0); [apply Hset|]. unfold state_work, task_work, retries_ok. simpl.
    split; [lia|]. split; [right|]; lia.
  - split; [done|]. split; [by left|done].
  - split; [done|]. split; [by left|done].
Qed.

Lemma move_lowers k w st w' :
  retries_ok (k_state k) -> task_move opts k w st w' -> w_died w = false ->
  retries_ok st /\ (w_died w' = true \/ state_work st < task_work k) /\ state_work st <= task_work k.
Proof using Halone.
  intros Hk Hm Hd. assert (Hle : forall x y, x < y -> x <= y) by lia.
  destruct Hm as [Hq -> ->|Hq Hr|dst n Hq Hr]; unfold task_work; rewrite Hq in *.
  - split; [done|]. split; [right|]; unfold state_work, task_work; simpl; lia.
  - assert (retries_ok st /\ state_work st < 13) as [? ?]; [|split; [done|split; [by right|lia]]].
    pose proof retries_start. revert Hr. unfold resolve_task.
    destruct (resolve _ _ _ _ _), (t_collision opts); try destruct (path_exists _ _); intros [= <- <-];
      unfold state_work, task_work, retries_ok; simpl; lia.
  - unfold write_task in Hr. simpl in Hk.
    assert (Hrep : forall st1 (w1 : World S), w_died (report_progress st1 w1) = w_died w1) by by intros [| | |[[]|]|].
    destruct (k_kind k).
    1,2: pose proof (attempt_lowers (k_src k) dst n w Hk) as Ha; destruct (attempt _ _ _ _ _ _) as [st1 w1];
      injection Hr as <- <-; rewrite Hrep; destruct Ha as (? & Ha & ?); split; [done|]; split; [by apply Ha|done].
    assert (exists r, st = Settled r) as [r ->].
    { destruct (copy_symlink_entry _ _ _) as [[u|err] w1]; [injection Hr as <- _; by eexists|].
      destruct (handle_per_file_error _ _ _) as [r w2]. injection Hr as <- _. by eexists. }
    unfold state_work, task_work. simpl. split; [done|]. split; [right|]; lia.
Qed.

Lemma total_dirs ds : Forall (fun e => is_dir_entry e = true) ds -> total entry_work ds = length ds.
Proof using Type.
  induction 1 as [|e ds He _ IH]; [done|]. rewrite total_cons, IH. unfold entry_work. by rewrite He.
Qed.

Lemma machine_bounded (w : World S) batches ok : bounded (machine w batches ok).
Proof using Type. split; [constructor|done]. Qed.

Lemma dir_lowers e ds fs s :
  t_phase s = Handling (e :: ds) fs -> bounded s ->
  bounded (dispatch_dir mode dst_root e ds fs s) /\ work_left (dispatch_dir mode dst_root e ds fs s) < work_left s.
Proof using Type.
  intros Hph [Hb1 Hb2]. rewrite Hph in Hb2. destruct Hb2 as [[He Hds]%Forall_cons Hfs].
  assert (Hw : forall s1 : Tree S, t_tasks s1 = t_tasks s -> t_chan s1 = t_chan s -> t_left s1 = t_left s ->
    w_died (t_world s1) = w_died (t_world s) -> (w_cancelled (t_world s) = true -> w_cancelled (t_world s1) = true) ->
    phase_work (t_phase s1) < phase_work (t_phase s) -> work_left s1 < work_left s).
  { intros s1 E1 E2 E3 E4 E5 E6. unfold work_left. rewrite E1, E2, E3, E4.
    destruct (w_cancelled (t_world s)); [rewrite E5 by done; lia|]. destruct (w_cancelled _); lia. }
  assert (Hlt : forall l, l = [] \/ l = ds -> phase_work (Handling l fs) < phase_work (t_phase s)).
  { assert (entry_work e = 1) by (unfold entry_work; by rewrite He).
    rewrite Hph. unfold phase_work. rewrite total_cons. intros l [-> | ->]; rewrite ?total_nil; lia. }
  unfold dispatch_dir. destruct (w_cancelled (t_world s)) eqn:Hc.
  { split; [by split|]. apply Hw; try done. apply Hlt. by left. }
  destruct (create_dir_all _ _ _) as [d [k|]].
  - destruct mode; (split; [by split|]; apply Hw; try done).
    + apply Hlt. by left.
    + rewrite Hph. simpl. lia.
  - split; [by split|]. apply Hw; simpl; try done. apply Hlt. by right.
Qed.

Lemma conclude_lowers s :
  t_phase s = Waiting -> bounded s ->
  bounded (conclude mode src_root dst_root s) /\ work_left (conclude mode src_root dst_root s) < work_left s.
Proof using Type.
  intros Hph [Hb _]. unfold conclude. set (s1 := match mode with FromWalk => _ | FromScan => _ end).
  assert (t_tasks s1 = t_tasks s /\ t_chan s1 = t_chan s /\ t_left s1 = t_left s /\ t_world s1 = t_world s)
    as (E1 & E2 & E3 & E4) by (unfold s1; destruct mode; [by destruct (t_walk_ok s)|done]).
  clearbody s1.
  destruct (t_first_error s1); [|destruct (_ || _)]; (split; [split; simpl; by rewrite ?E1|]);
    unfold work_left; simpl; rewrite Hph, E1, E2, E3, E4; simpl; lia.
Qed.

Lemma dispatch_lowers s s' :
  bounded s -> w_died (t_world s) = false -> dispatch_step mode src_root dst_root s = Some s' ->
  bounded s' /\ work_left s' < work_left s.
Proof using Type.
  intros [Hb1 Hb2] Hd. unfold dispatch_step. destruct (t_phase s) as [|[|e ds] [|e' fs]| | |r] eqn:Hph; try done.
  - unfold dispatch_batch. destruct (t_chan s) as [|b chan] eqn:Hc.
    + destruct (t_left s) eqn:Hl; [|done]. intros [= <-]. split; [done|].
      unfold work_left. simpl. rewrite Hph, Hc, Hl. simpl. lia.
    + destruct (w_cancelled (t_world s)) eqn:Hw; intros [= <-].
      * split; [done|]. unfold work_left. simpl. rewrite Hph, Hc, Hw. simpl. rewrite total_cons. lia.
      * split; [split; [done|]|].
        -- simpl. split; apply Forall_forall; by intros e [? _]%list_elem_of_filter.
        -- unfold work_left. simpl. rewrite Hph, Hc, Hw.
           pose proof (total_filter entry_work is_dir_entry (p_entries b)) as Ht.
           rewrite total_cons. unfold batch_work in *. simpl. lia.
  - intros [= <-]. split; [done|]. unfold work_left. simpl. rewrite Hph. simpl. lia.
  - intros [= <-]. unfold dispatch_file. destruct Hb2 as [_ Hb2]. apply Forall_cons in Hb2 as [He Hfs].
    destruct (w_cancelled (t_world s)) eqn:Hw.
    + split; [done|]. unfold work_left. simpl. rewrite Hph, Hw. simpl. lia.
    + split; [split; simpl; [|by split]|].
      * apply Forall_app. split; [done|]. by repeat constructor.
      * unfold work_left. simpl. rewrite Hph, Hw, total_app. assert (entry_work e' = 15) by (unfold entry_work; by rewrite He).
        rewrite !total_cons, total_nil. change (task_work (spawn dst_root e')) with 14.
        simpl. rewrite total_cons. lia.
  - intros [= <-]. by apply dir_lowers; [|split; [|rewrite Hph]].
  - intros [= <-]. by apply dir_lowers; [|split; [|rewrite Hph]].
  - destruct (forallb _ _); [|done]. intros [= <-]. split; [done|]. unfold work_left. simpl. rewrite Hph. simpl. lia.
  - destruct (t_left s) eqn:Hl; [|done]. intros [= <-]. by apply conclude_lowers; [|split; [|rewrite Hph]].
Qed.

(** A task gets a new state. *)
Lemma task_lowers i k st w s :
  t_tasks s !! i = Some k -> retries_ok st -> bounded s -> w_died (t_world s) = false ->
  (w_cancelled (t_world s) = true -> w_cancelled w = true) ->
  w_died w = true \/ state_work st < task_work k -> state_work st <= task_work k ->
  let s' := with_world w (with_tasks (<[i := set_state st k]> (t_tasks s)) s) in
  bounded s' /\ work_left s' < work_left s.
Proof using Type.
  intros Hk Hr [Hb1 Hb2] Hd Hc Hlt Hle. split; [split; [|done]; simpl; by apply Forall_insert|].
  pose proof (total_insert task_work (t_tasks s) i k (set_state st k) Hk) as Ht.
  change (task_work (set_state st k)) with (state_work st) in Ht. unfold work_left. simpl. rewrite Hd.
  assert (task_work k <= total task_work (t_tasks s)).
  { clear -Hk. revert i Hk. induction (t_tasks s) as [|x l IH]; intros i Hk; [done|]. rewrite total_cons.
    destruct i as [|i]; simpl in *; [injection Hk as ->; lia|]. specialize (IH i Hk). lia. }
  destruct (w_cancelled (t_world s)) eqn:Hcs; [rewrite Hc by done|]; destruct (w_died w) eqn:Hdw; try destruct (w_cancelled w);
    destruct Hlt; try discriminate; lia.
Qed.

Lemma step_lowers {CL : TreeCopierLaws C} a s s' :
  bounded s -> step a s = Some s' -> bounded s' /\ work_left s' < work_left s.
Proof using Halone.
  intros Hb. unfold TreeCopy.step. destruct (w_died (t_world s)) eqn:Hd; [done|]. destruct a as [| |i|i|].
  - unfold walk_step. destruct (t_left s) as [|b l] eqn:Hl; [done|]. destruct (decide _); [|done]. intros [= <-].
    split; [done|]. unfold work_left. simpl. rewrite Hl, total_app, !total_cons, total_nil. lia.
  - by apply dispatch_lowers.
  - unfold join_step. destruct (t_phase s) eqn:Hph; try done. destruct (t_tasks s !! i) as [k|] eqn:Hk; [|done].
    destruct (k_state k) as [| | |r|] eqn:Hks; try done. intros [= <-].
    pose proof (task_lowers i k (Joined r) (t_world s) s Hk I Hb Hd id ltac:(right; unfold state_work, task_work; rewrite Hks; simpl; lia)
      ltac:(unfold state_work, task_work; rewrite Hks; simpl; lia)) as [Hb1 Hw1]. destruct s. simpl in *.
    destruct r as [[]|]; (split; [done|]); try done; unfold work_left in *; simpl in *; destruct (w_cancelled _); lia.
  - intros (k & st & w & Hk & Hm & ->)%work_step_inv.
    assert (retries_ok (k_state k)) as Hr by (destruct Hb as [Hb _]; rewrite Forall_forall in Hb; apply Hb; by apply list_elem_of_lookup_2 in Hk).
    destruct (move_lowers k _ _ _ Hr Hm Hd) as (? & ? & ?). apply task_lowers; try done.
    intros Hc. by eapply task_move_cancelled.
  - destruct (w_cancelled (t_world s)) eqn:Hc; [done|]. intros [= <-]. split; [done|].
    unfold work_left. simpl. rewrite Hc. lia.
Qed.

Lemma run_bounded {CL : TreeCopierLaws C} acts : forall s s',
  bounded s -> run acts s = Some s' -> length acts <= work_left s.
Proof using Halone.
  induction acts as [|a acts IH]; intros s s' Hb; simpl; [lia|].
  destruct (step a s) as [s1|] eqn:Ha; [|done]. intros Hr. destruct (step_lowers a s s1 Hb Ha) as [Hb1 Hlt].
  specialize (IH s1 s' Hb1 Hr). lia.
Qed.
End term.

(** C12: A tree copy that does not ask the user takes a bounded number of
    steps, whatever the schedule, the failures and the retries: at most
    fifteen for each entry and four for each batch, and five more. *)
Theorem tree_copy_terminates {S : Type} {E : TreeEnv} {C : TreeCopier S} {CL : TreeCopierLaws C}
    mode src_root dst_root opts (w : World S) batches ok acts s :
  decides_alone opts -> run mode src_root dst_root opts acts (machine w batches ok) = Some s ->
  (length acts <= 15 * length (entries_of batches) + 4 * length batches + 5)%nat.
Proof.
  intros Ha Hr. etrans; [by eapply (run_bounded mode src_root dst_root opts Ha); [apply machine_bounded|]|].
  unfold work_left, machine. cbn [t_left t_chan t_phase t_tasks t_world phase_work]. rewrite !total_nil.
  assert (total (fun b => 4 + batch_work b) batches <= 15 * length (entries_of batches) + 4 * length batches).
  2: { destruct (w_died w), (w_cancelled w); lia. }
  clear Hr. induction batches as [|b bs IH]; [done|]. rewrite entries_of_cons, length_app, total_cons.
  assert (Hb : batch_work b <= 15 * length (p_entries b)).
  { unfold batch_work. clear. induction (p_entries b) as [|e es IH]; [done|]. rewrite total_cons. simpl.
    unfold entry_work at 1. destruct (is_dir_entry e); lia. }
  change (length (b :: bs)) with (1 + length bs). lia.
Qed.
