(* ===== verification/TreeBridge.v ===== *)
(** * The copy engine under the tree copy

    The [n]-th copy of a tree runs [CopyFile.copy_file] on the regular files
    of the disk, with the paths the links lead to, the tree's journal sink and
    the flags that its steering handle shows meanwhile.  Without a journal the
    engine keeps the laws of [TreeCopierLaws]; with one, every file of the
    tree has the same index in it. *)
From S2P Require Import Prelude.
From S2P Require Import Text.
From S2P Require Import Monad.
From S2P Require Import Files.
From S2P Require Import Control.
From S2P Require Import CopyTypes.
From S2P Require Import CopyFile.
From S2P Require Import CopyWp.
From S2P Require Import CopyProof.
From S2P Require Import CopySafety.
From S2P Require Import CopyBridge.
From S2P Require Import Filter.
From S2P Require Import TreeTypes.
From S2P Require Import TreeCopy.
From S2P Require Import TreeLaws.
From stdpp Require Import options.
Open Scope Z_scope.

Definition file_of (n : Node) : option File := match n with NFile f => Some f | _ => None end.

(** The regular files of a disk, and a disk with other regular files. *)
Definition files_of (d : Disk) : FileTree := omap file_of d.

Definition put_files (fs : FileTree) (d : Disk) : Disk :=
  (NFile <$> fs) ∪ filter (fun kv => file_of kv.2 = None) d.

Lemma lookup_files_of d p : files_of d !! p = d !! p ≫= file_of.
Proof. unfold files_of. by rewrite lookup_omap. Qed.

Lemma lookup_put_files fs d p :
  put_files fs d !! p =
  match fs !! p with
  | Some f => Some (NFile f)
  | None => match d !! p with Some (NFile _) => None | n => n end
  end.
Proof.
  unfold put_files. destruct (fs !! p) as [f|] eqn:Hf.
  - apply lookup_union_Some_l. by rewrite lookup_fmap, Hf.
  - rewrite lookup_union_r by by rewrite lookup_fmap, Hf. rewrite map_lookup_filter.
    destruct (d !! p) as [[f|t|]|]; simpl; repeat case_guard; done.
Qed.

Section bridge.
Context {S : Type} {JS : JournalSink S} {E : TreeEnv} (calls : nat -> CopyEnv) (flags : nat -> list Z).

(** Opening [p] for writing needs a directory around it and no directory or
    dangling link in its place. *)
Definition writable (d : Disk) (p : path) : option CopyErrorKind :=
  match node_at d p, parent p with
  | Some NDir, _ | Some (NLink _), _ => Some IoOther
  | _, Some q => if is_dir d q then None else Some NotFound
  | _, None => Some IoOther
  end.

Definition copy_on_disk (n : nat) (d : Disk) (s : S) (src dst : path) (o : CopyOptions) (cancelled : bool)
    : result Stop CopyReport * (Disk * S * bool) :=
  match validate_path_no_traversal src, validate_path_no_traversal dst, writable d (follow d dst) with
  | Some _, _, _ | _, Some _, _ => (Err (SErr (path_escape src dst)), (d, s, cancelled))
  | None, None, Some k => (Err (SErr (from_io src dst k)), (d, s, cancelled))
  | None, None, None =>
      let fl := if cancelled then [CANCELLED] else flags n in
      let '(r, w) := copy_file (EN := calls n) (follow d src) (follow d dst) o
        {| c_files := files_of d; c_calls := 0; c_flags := fl; c_events := []; c_sink := s;
           c_snapshots := [] |} in
      (r, (put_files (c_files w) d, c_sink w, cancelled || bool_decide (CANCELLED ∈ fl)))
  end.

Definition tree_copier : TreeCopier S := {| tc_copy := copy_on_disk |}.
End bridge.

(** ** Without a journal *)

Section laws.
Context {E : TreeEnv} {L : OsLaws E} (calls : nat -> CopyEnv) (flags : nat -> list Z).
Context (Hhonest : forall n, honest (EN := calls n)) (Hinj : forall n, Inj (=) (=) (@b3 (calls n))).

(** What a copy does when its paths meet no link. *)
Lemma plain_copy n d src dst o c r d' (s s' : unit) c' f :
  (forall x y, hook_lawful x y o) -> plain_at d src -> plain_at d dst -> src <> dst -> d !! src = Some (NFile f) ->
  copy_on_disk calls flags n d s src dst o c = (r, (d', s', c')) ->
  (d' = d /\ forall rep, r <> Ok rep) \/
  (d !! dst <> Some NDir /\
   exists w, c_files w = files_of d /\ let w' := (copy_file (S := unit) (EN := calls n) src dst o w).2 in
     (copy_file (EN := calls n) src dst o w).1 = r /\ d' = put_files (c_files w') d /\ spared dst w w').
Proof using L Hinj.
  intros Hlaw Hp1 Hp2 Hne Hsrc. unfold copy_on_disk. rewrite !follow_plain_at by done.
  destruct (validate_path_no_traversal src); [intros [= <- <- <- <-]; by left|].
  destruct (validate_path_no_traversal dst); [intros [= <- <- <- <-]; by left|].
  destruct (writable d dst) eqn:Hw; [intros [= <- <- <- <-]; by left|].
  set (w := {| c_files := _ |}). destruct (copy_file src dst o w) as [r1 w1] eqn:Hc. intros [= <- <- <- <-].
  right. split.
  { unfold writable, node_at in Hw. intros Hd. destruct dst as [|x dst]; [done|]. by rewrite Hd in Hw. }
  exists w. split; [done|]. rewrite Hc. split_and!; [done..|].
  assert (Hs : c_files w !! src = Some f) by (simpl; by rewrite lookup_files_of, Hsrc).
  pose proof (copy_frame_any (EN := calls n) src dst o f w Hne Hs (Hinj n) (fun p H => False_ind _ H) (Hlaw src dst)) as [Hfr _].
  by rewrite Hc in Hfr.
Qed.

#[program] Definition tree_copier_laws : TreeCopierLaws (tree_copier (S := unit) calls flags) := {|
  tc_stands_for o := forall x y, hook_lawful x y o;
|}.
Next Obligation.
  intros n d s src dst o c r d' s' c' Ho Hp1 Hp2 Hne [f Hf] Hc.
  destruct (plain_copy n d src dst o c r d' s s' c' f Ho Hp1 Hp2 Hne Hf Hc) as [[-> _]|(Hnd & w & Hw & _ & -> & Hfr)].
  - split; [apply touches_refl|]. intros t Ht. by apply (Hp2 dst t).
  - assert (Hat : forall n, put_files (c_files (copy_file (EN := calls n) src dst o w).2) d !! dst <> Some NDir /\
      forall t, put_files (c_files (copy_file (EN := calls n) src dst o w).2) d !! dst <> Some (NLink t)).
    { intros m. rewrite lookup_put_files. destruct (c_files _ !! dst); [done|].
      destruct (d !! dst) as [[g|t|]|] eqn:Hg; try done. by destruct (Hp2 dst t). }
    split; [split|].
    + intros q Hq. rewrite lookup_put_files, Hfr, Hw, lookup_files_of by done. by destruct (d !! q) as [[]|].
    + right. split; [done|apply Hat].
    + apply Hat.
Qed.
Next Obligation.
  intros n d s src dst o c rep d' s' c' f Ho Hp1 Hp2 Hne Hf Hc.
  destruct (plain_copy n d src dst o c _ d' s s' c' f Ho Hp1 Hp2 Hne Hf Hc) as [[_ Hn]|(_ & w & Hw & Hr & -> & _)];
    [by destruct (Hn rep)|].
  assert (Hs : c_files w !! src = Some f) by (rewrite Hw, lookup_files_of; by rewrite Hf).
  pose proof (copy_outcome_any (EN := calls n) src dst o f w Hne Hs (Hinj n) (fun p H => False_ind _ H) (Ho src dst)) as Hk.
  unfold ends, wp in Hk. destruct (copy_file src dst o w) as [[rep1|e] w1]; [|done]. injection Hr as ->.
  destruct Hk as (_ & Hb & g & Hg & [Hok _] & _). split; [done|]. exists g. simpl in *.
  rewrite lookup_put_files, Hg. split; [done|by apply Hok].
Qed.
Next Obligation.
  intros n d s src dst o r d' s' c' Hc. simpl in Hc. unfold copy_on_disk in Hc.
  destruct (validate_path_no_traversal src); [by injection Hc|].
  destruct (validate_path_no_traversal dst); [by injection Hc|].
  destruct (writable _ _); [by injection Hc|]. destruct (copy_file _ _ _ _) as [r1 w1]. by injection Hc.
Qed.
End laws.
