(* ===== verification/TreeMove.v ===== *)
(** * Moving files and trees ([freally-core/src/tree.rs]: [move_file], [move_tree])

    A move is a rename; when the rename fails because the two paths are on
    different devices it is a copy followed by the removal of the source.  The
    copy of a tree is a run of the machine of [TreeCopy], so [move_tree] takes
    the schedule of that run; it has no result when the run does not return. *)
From S2P Require Import Prelude.
From S2P Require Import Text.
From S2P Require Import Files.
From S2P Require Import Control.
From S2P Require Import CopyTypes.
From S2P Require Import CopyFile.
From S2P Require Import Filter.
From S2P Require Import TreeTypes.
From S2P Require Import TreeCopy.
From S2P Require Import TreeLaws.
From S2P Require Import TreePlan.
From S2P Require Import TreeSafety.
From stdpp Require Import options.
Open Scope Z_scope.

Definition is_cross_device (k : IoKind) : bool := match k with IoCrossesDevices => true | _ => false end.

Definition lexically_safe (src dst : path) : bool :=
  is_none (validate_path_no_traversal src) && is_none (validate_path_no_traversal dst).

Section move.
Context {S : Type} {E : TreeEnv} {C : TreeCopier S} {G : Globs}.

Definition move_file (src dst : path) (o : MoveOptions) (w : World S) : result Stop CopyReport * World S :=
  if negb (lexically_safe src dst) then (Err (SErr (path_escape src dst)), w)
  else
    match rename (w_tick w) (w_disk w) src dst with
    | Ok d =>
        let w := tick (set_disk d w) in
        let bytes := match stat (w_disk w) dst with Some (NFile f) => file_len f | _ => 0 end in
        (Ok {| cr_src := src; cr_dst := dst; cr_bytes := bytes |}, send (FileCompleted bytes) w)
    | Err k =>
        let w := tick w in
        if mv_strict_rename o || negb (is_cross_device k) then (Err (SErr (from_io src dst (kind_from_io k))), w)
        else
          let '(r, (d, s, cancelled)) := tc_copy (w_tick w) (w_disk w) (w_sink w) src dst (mv_copy o) (w_cancelled w) in
          let w := tick (after_copy d s cancelled (w_died w) w) in
          match r with
          | Err SDied => (Err SDied, after_copy d s cancelled true w)
          | Err e => (Err e, w)
          | Ok rep =>
              if w_cancelled w then (Err (SErr (copy_cancelled src dst)), w)
              else
                match remove_file (w_tick w) (w_disk w) src with
                | Ok d => (Ok rep, tick (set_disk d w))
                | Err k => (Err (SErr (from_io src dst (kind_from_io k))), tick w)
                end
          end
    end.

(** The bottom-up removal of the source, on what [walkdir] yields with the
    contents of a directory before the directory. *)
Fixpoint delete_walk (src_root dst_root : path) (items : list WalkItem) (w : World S)
    : result CopyError unit * World S :=
  match items with
  | [] => (Ok tt, w)
  | WDenied _ :: rest => delete_walk src_root dst_root rest w
  | WFailed _ :: _ => (Err (from_io src_root dst_root IoOther), w)
  | WEntry p k _ :: rest =>
      let r := match k with
               | KDir => remove_dir (w_tick w) (w_disk w) p
               | _ => remove_file (w_tick w) (w_disk w) p
               end in
      match r with
      | Ok d => delete_walk src_root dst_root rest (tick (set_disk d w))
      | Err IoNotFound | Err IoDirectoryNotEmpty => delete_walk src_root dst_root rest (tick w)
      | Err k => (Err (from_io p dst_root (kind_from_io k)), tick w)
      end
  end.

(** The options of the copy under a move. *)
Definition move_tree_options (o : MoveOptions) : TreeOptions :=
  {| t_file := mv_copy o; t_collision := t_collision default_tree_options;
     t_on_error := t_on_error default_tree_options; t_concurrency := t_concurrency default_tree_options;
     t_follow_symlinks := t_follow_symlinks default_tree_options; t_filters := t_filters default_tree_options |}.

Definition empty_report (src dst : path) : TreeReport :=
  {| tr_root_src := src; tr_root_dst := dst; tr_files := 0; tr_bytes := 0; tr_skipped := 0; tr_errored := 0 |}.

(** What follows the copy. *)
Definition finish_move (src dst : path) (removals : list WalkItem) (rep : TreeReport) (w : World S)
    : result CopyError TreeReport * World S :=
  if w_cancelled w then (Err (copy_cancelled src dst), w)
  else
    let '(r, w) := delete_walk src dst removals w in
    match r with Ok _ => (Ok rep, w) | Err e => (Err e, w) end.

Definition move_tree (pl : Platform) (src dst : path) (o : MoveOptions) (items removals : list WalkItem)
    (acts : list Action) (w : World S) : option (result CopyError TreeReport * World S) :=
  if negb (lexically_safe src dst) then Some (Err (path_escape src dst), w)
  else
    match rename (w_tick w) (w_disk w) src dst with
    | Ok d => Some (Ok (empty_report src dst), send (TreeCompleted 0 0) (tick (set_disk d w)))
    | Err k =>
        let w := tick w in
        if mv_strict_rename o || negb (is_cross_device k) then Some (Err (from_io src dst (kind_from_io k)), w)
        else
          match start_walk pl src dst (move_tree_options o) items w with
          | (Err e, w) => Some (Err e, w)
          | (Ok s0, _) =>
              match run FromWalk src dst (move_tree_options o) acts s0 with
              | None => None
              | Some s =>
                  match t_phase s with
                  | Returned (Ok rep) => Some (finish_move src dst removals rep (t_world s))
                  | Returned (Err e) => Some (Err e, t_world s)
                  | _ => None
                  end
              end
          end
    end.
End move.

(** ** What a move keeps *)

Section moves.
Context {S : Type} {E : TreeEnv} {L : OsLaws E} {C : TreeCopier S} {CL : TreeCopierLaws C} {G : Globs}.

(** The removal stays within a root that its items lie in, where no link
    leads out of. *)
Definition removable (root : path) (d : Disk) (items : list WalkItem) : Prop :=
  forall w, w ∈ items -> exists p n, item_path w = p ++ [n] /\ root `prefix_of` (p ++ [n]) /\ plain_at d p.

Definition only_removes (root : path) (d d' : Disk) : Prop :=
  (forall p, ~ root `prefix_of` p -> d' !! p = d !! p) /\ d' ⊆ d.

Lemma only_removes_refl root d : only_removes root d d.
Proof using Type. by split. Qed.

Lemma only_removes_delete root d p : root `prefix_of` p -> only_removes root d (delete p d).
Proof using Type.
  intros Hp. split; [|apply delete_subseteq]. intros q Hq. rewrite lookup_delete_ne; [done|]. by intros ->.
Qed.

Lemma only_removes_trans root d1 d2 d3 : only_removes root d1 d2 -> only_removes root d2 d3 -> only_removes root d1 d3.
Proof using Type. intros [H1 H2] [H3 H4]. split; [intros p Hp; by rewrite H3, H1|by etrans]. Qed.

Lemma plain_at_weaken d d' p : d' ⊆ d -> plain_at d p -> plain_at d' p.
Proof using Type. intros Hd Hp q t Hq Ht. by apply (Hp q t Hq), (lookup_weaken _ _ _ _ Ht Hd). Qed.

Lemma remove_dir_plain n d p c d' :
  plain_at d p -> remove_dir n d (p ++ [c]) = Ok d' -> d' = delete (p ++ [c]) d.
Proof using L.
  intros Hp. unfold remove_dir. destruct (os n); [done|]. rewrite lstat_plain, place_plain by done.
  destruct (d !! (p ++ [c])) as [[]|]; try done. destruct (has_children _ _); [done|]. by intros [= <-].
Qed.

Lemma remove_file_plain n d p c d' :
  plain_at d p -> remove_file n d (p ++ [c]) = Ok d' -> d' = delete (p ++ [c]) d.
Proof using L.
  intros Hp. unfold remove_file. destruct (os n); [done|]. rewrite lstat_plain, place_plain by done.
  by destruct (d !! (p ++ [c])) as [[]|]; try done; intros [= <-].
Qed.

Lemma delete_walk_removes src dst items : forall (w : World S),
  removable src (w_disk w) items -> only_removes src (w_disk w) (w_disk (delete_walk src dst items w).2).
Proof using L.
  induction items as [|it rest IH]; intros w Hr; simpl; [apply only_removes_refl|].
  assert (Hr' : forall d', d' ⊆ w_disk w -> removable src d' rest).
  { intros d' Hd x Hx. destruct (Hr x ltac:(by right)) as (p & n & Hp & Hpre & Hpl). exists p, n.
    split_and!; [done..|]. by eapply plain_at_weaken. }
  destruct it as [q k m|q|q]; [|by apply IH, Hr'|apply only_removes_refl].
  destruct (Hr (WEntry q k m) ltac:(left)) as (p & n & Hp & Hpre & Hpl). simpl in Hp. subst q.
  set (r := match k with KDir => _ | KFile | KSymlink => _ end).
  assert (Hok : forall d', r = Ok d' -> d' = delete (p ++ [n]) (w_disk w)).
  { intros d'. unfold r. destruct k; [by apply remove_dir_plain|by apply remove_file_plain..]. }
  destruct r as [d'|kd]; [|destruct kd; try apply only_removes_refl; by apply (IH (tick w)), Hr'].
  rewrite (Hok d' eq_refl). apply (only_removes_trans _ _ (delete (p ++ [n]) (w_disk w))); [by apply only_removes_delete|].
  exact (IH (tick (set_disk (delete (p ++ [n]) (w_disk w)) w)) (Hr' _ (delete_subseteq _ _))).
Qed.

Lemma remove_dir_was n d p c d' :
  plain_at d p -> remove_dir n d (p ++ [c]) = Ok d' -> d !! (p ++ [c]) = Some NDir.
Proof using L.
  intros Hp. unfold remove_dir. destruct (os n); [done|]. rewrite lstat_plain, place_plain by done.
  by destruct (d !! (p ++ [c])) as [[]|].
Qed.

(** It removes no file or link that its items do not list as one. *)
Lemma delete_walk_spares src dst items x n : forall (w : World S),
  removable src (w_disk w) items -> w_disk w !! x = Some n -> n <> NDir ->
  (forall k m, WEntry x k m ∈ items -> k = KDir) -> w_disk (delete_walk src dst items w).2 !! x = Some n.
Proof using L.
  induction items as [|it rest IH]; intros w Hr Hx Hn Hit; simpl; [done|].
  assert (Hr' : forall d', d' ⊆ w_disk w -> removable src d' rest).
  { intros d' Hd y Hy. destruct (Hr y ltac:(by right)) as (p & c & Hp & Hpre & Hpl). exists p, c.
    split_and!; [done..|]. by eapply plain_at_weaken. }
  assert (Hit' : forall k m, WEntry x k m ∈ rest -> k = KDir) by (intros k m ?; apply (Hit k m); by right).
  destruct it as [q k m|q|q]; [|by apply IH; [apply Hr'|..]|done].
  destruct (Hr (WEntry q k m) ltac:(left)) as (p & c & Hp & Hpre & Hpl). simpl in Hp. subst q.
  set (r := match k with KDir => _ | KFile | KSymlink => _ end).
  assert (Hok : forall d', r = Ok d' -> d' = delete (p ++ [c]) (w_disk w) /\ x <> p ++ [c]).
  { intros d' Ed. split; [revert Ed; unfold r; destruct k; [by apply remove_dir_plain|by apply remove_file_plain..]|].
    intros ->. pose proof (Hit k m ltac:(left)) as ->. unfold r in Ed.
    apply remove_dir_was in Ed; [|done]. congruence. }
  destruct r as [d'|kd].
  - destruct (Hok d' eq_refl) as [-> Hne]. apply IH; cbn [w_disk tick set_disk]; [apply Hr', delete_subseteq| |done|done].
    by rewrite lookup_delete_ne.
  - destruct kd; try done; (apply (IH (tick w)); [by apply Hr'|done..]).
Qed.

(** [start_walk] makes the destination root and hands the disk over. *)
Lemma start_walk_machine pl src dst o items (w : World S) s0 w' :
  start_walk pl src dst o items w = (Ok s0, w') ->
  exists filters batches ok,
    enumerate_streaming pl src filters items = (batches, ok) /\ s0 = machine w' batches ok /\
    (t_filters o = None -> filters = None) /\ w_counters w' = zero_counters /\ w_disk w' = (create_dir_all (w_tick w + 1) (w_disk w) dst).1.
Proof using Type.
  unfold start_walk. destruct (_ || _); [done|]. destruct (os (w_tick w)); [done|].
  destruct (stat (w_disk w) src) as [[]|]; try done. cbn [tick w_tick w_disk].
  destruct (create_dir_all _ _ _) as [d [k|]]; [done|].
  set (fr := match t_filters o with Some _ => _ | None => _ end).
  assert (Hnone : t_filters o = None -> fr = Ok None) by (intros Ho; unfold fr; by rewrite Ho).
  destruct fr as [filters|e]; [|done].
  destruct (enumerate_streaming pl src filters items) as [batches ok] eqn:He. intros [= <- <-].
  exists filters, batches, ok. split_and!; [done|done| |done..]. intros Ho. by injection (Hnone Ho).
Qed.

Lemma run_reachable mode src dst o acts : forall s s',
  run mode src dst o acts s = Some s' -> rtc (steps_to (S := S) mode src dst o) s s'.
Proof using Type.
  induction acts as [|a acts IH]; intros s s'; simpl; [by intros [= ->]|].
  destruct (step mode src dst o a s) as [s1|] eqn:Ha; [|done]. intros Hr.
  eapply rtc_l; [by exists a|by apply IH].
Qed.

Lemma removable_apart src dst d0 d items :
  room_at src dst d0 -> (forall p, ~ dst `prefix_of` p -> d !! p = d0 !! p) ->
  removable src d0 items -> removable src d items.
Proof using Type.
  intros Hroom Hfr Hr it Hit. destruct (Hr it Hit) as (p & n & Hp & Hpre & Hpl). exists p, n.
  split_and!; [done..|]. intros q t Hq Ht. apply (Hpl q t Hq). rewrite <- Ht. symmetry. apply Hfr. intros Hd.
  destruct (rm_apart _ _ _ Hroom) as [H1 H2].
  destruct (prefix_weak_total dst src (p ++ [n])) as [?|?]; [|done..].
  etrans; [exact Hd|]. etrans; [exact Hq|by eexists].
Qed.

(** Without filters a walk that goes through keeps every entry it yields. *)
Lemma unfiltered_entries pl src items batches :
  depth_first items -> enumerate_streaming pl src None items = (batches, true) ->
  forall p k m, WEntry p k m ∈ items -> k <> KDir -> rel_of src p <> [] ->
    {| e_src := p; e_rel := rel_of src p; e_kind := k |} ∈ files_in batches.
Proof using Type.
  intros Hdf He p k m Hin Hk Hrel. apply in_files. split; [|exact Hk].
  destruct (enumeration_exact pl src None items batches Hdf He) as [-> _].
  unfold kept_in. apply list_elem_of_bind. exists (WEntry p k m). split; [left|].
  apply list_elem_of_filter. split; [|done]. split.
  - unfold gate, passes. cbn. by destruct (rel_of src p).
  - intros ([q [] m'|q|q] & _ & [Hp _])%Exists_exists; try done. unfold pruned_dir, passes in Hp.
    rewrite andb_false_r in Hp. done.
Qed.


(** However [move_file] ends, short of the process dying, the file's
    content is at the source or at the destination, and when it reports
    success it is at the destination. *)
Theorem moved_file_is_never_lost src dst o (w : World S) f r w' :
  w_disk w !! src = Some (NFile f) -> plain_at (w_disk w) src -> plain_at (w_disk w) dst -> src <> dst ->
  tc_stands_for (mv_copy o) -> move_file src dst o w = (r, w') ->
  let arrived := exists g, w_disk w' !! dst = Some (NFile g) /\ content g = content f in
  match r with Ok _ => arrived | Err _ => w_disk w' !! src = Some (NFile f) \/ arrived end.
Proof using L CL.
  intros Hf Hp1 Hp2 Hne Hopts. unfold move_file. destruct (negb (lexically_safe src dst)).
  { intros [= <- <-]. by left. }
  destruct (rename _ _ _ _) as [d|k] eqn:Hren.
  { intros [= <- <-]. exists f. split; [|done]. by eapply (rename_moves (E := E)). }
  destruct (_ || _); [intros [= <- <-]; by left|].
  destruct (tc_copy _ _ _ _ _ _ _) as [rc [[d s] c]] eqn:Hc. cbn [tick w_disk w_tick w_sink w_cancelled] in Hc.
  destruct (tc_touches _ _ _ _ _ _ _ _ _ _ _ Hopts Hp1 Hp2 Hne ltac:(by exists f) Hc) as [[Ho _] Hl].
  assert (Hsrc : d !! src = Some (NFile f)) by by rewrite Ho.
  destruct rc as [rep|[err| |]]; try by intros [= <- <-]; left.
  cbn [w_cancelled tick after_copy]. destruct c; [intros [= <- <-]; by left|]. cbn [w_disk tick after_copy].
  destruct (remove_file _ d src) as [d2|k2] eqn:Hr; intros [= <- <-]; [|by left].
  destruct (tc_exact _ _ _ _ _ _ _ _ _ _ _ _ Hopts Hp1 Hp2 Hne Hf Hc) as (_ & g & Hg & Hcg).
  exists g. split; [|done]. simpl.
  destruct src as [|n p _] using rev_ind; [unfold remove_file, lstat, place in Hr; simpl in Hr; destruct (os _); done|].
  assert (Hpl : plain_at d p).
  { intros q t Hq Ht. destruct (decide (q = dst)) as [->|Hqd]; [by apply (Hl t)|].
    rewrite Ho in Ht by done. apply (Hp1 q t); [|done]. etrans; [exact Hq|by eexists]. }
  rewrite (remove_file_plain _ _ _ _ _ Hpl Hr). by rewrite lookup_delete_ne.
Qed.
End moves.
