(* ===== verification/TreeDemo.v ===== *)
(** * Tree copies at work

    A small tree, the real copy engine under it, and the theorems of the tree
    copy and of moves along runs of it; then what the code does that its
    callers may not expect. *)
From S2P Require Import Prelude.
From S2P Require Import Text.
From S2P Require Import Monad.
From S2P Require Import Files.
From S2P Require Import Control.
From S2P Require Import CopyTypes.
From S2P Require Import Table.
From S2P Require Import Journal.
From S2P Require Import JournalSink.
From S2P Require Import CopyFile.
From S2P Require Import CopyWp.
From S2P Require Import CopyProof.
From S2P Require Import CopySafety.
From S2P Require Import CopyBridge.
From S2P Require Import Filter.
From S2P Require Import TreeTypes.
From S2P Require Import TreeCopy.
From S2P Require Import TreeLaws.
From S2P Require Import TreePlan.
From S2P Require Import TreeSafety.
From S2P Require Import TreeLive.
From S2P Require Import TreeBridge.
From S2P Require Import TreeMove.
From stdpp Require Import options.
Open Scope Z_scope.

(** Patterns are names; a pattern with a bracket does not parse. *)
#[export] Instance names : Globs := {|
  Glob := string;
  glob_new p := if contains_char "[" p then None else Some p;
  glob_match g rel := match last rel with Some n => String.eqb n g | None => false end;
|}.

(** All calls work, prompts go unanswered, and the destination is on another
    device. *)
#[export] Instance calm : TreeEnv := {|
  follow _ p := p; os _ := None; made _ := 0%nat; answer_collision _ := None; answer_error _ := None;
  dir_modified _ := 0; rename _ _ _ _ := Err IoCrossesDevices;
|}.

#[export] Instance calm_laws : OsLaws calm.
Proof. by split. Qed.

#[export] Instance engine : TreeCopier unit := tree_copier (fun _ => CopyDemo.quick) (fun _ => []).

#[export] Instance engine_laws : TreeCopierLaws engine :=
  tree_copier_laws (fun _ => CopyDemo.quick) (fun _ => []) (fun _ => fun _ _ => eq_refl)
    (fun _ => CopyDemo.b3_inj _ _ _).

Definition file (t : string) (m : Z) : Node := NFile {| content := text t; f_mtime_ms := m |}.

(** Two files, a directory and a link. *)
Definition disk0 : Disk :=
  {[ ["src"] := NDir; ["src"; "a.txt"] := file "alpha" 5; ["src"; "l"] := NLink "a.txt";
     ["src"; "sub"] := NDir; ["src"; "sub"; "b"] := file "beta" 6;
     ["dst"] := NDir; ["dst"; "a.txt"] := file "old" 1 ]}.

Definition meta (n : Z) : option Metadata :=
  Some {| m_len := n; m_modified := Some 5; m_attributes := 0; m_readonly := false |}.

Definition items : list WalkItem :=
  [WEntry ["src"] KDir (meta 0); WEntry ["src"; "a.txt"] KFile (meta 5); WEntry ["src"; "l"] KSymlink (meta 0);
   WEntry ["src"; "sub"] KDir (meta 0); WEntry ["src"; "sub"; "b"] KFile (meta 4)].

Definition world (d : Disk) : World unit :=
  {| w_disk := d; w_sink := tt; w_tick := 0; w_cancelled := false; w_died := false;
     w_counters := zero_counters; w_events := [] |}.

Definition with_policy (c : CollisionPolicy) : TreeOptions :=
  {| t_file := default_copy_options; t_collision := c; t_on_error := EpAbort; t_concurrency := 2;
     t_follow_symlinks := false; t_filters := None |}.

Definition batches : list Plan := (enumerate_streaming Unix ["src"] None items).1.

(** A schedule: two tasks side by side, joined out of order; under [Skip] the
    first one ends when it resolves. *)
Definition full_run (c : CollisionPolicy) : list Action :=
  [Walk; Dispatch; Dispatch; Dispatch; Work 0; Dispatch; Work 1; Work 0; Dispatch; Work 1] ++
  match c with OnSkip => [] | _ => [Work 0] end ++
  [Work 1; Dispatch; Work 2; Dispatch; Work 2; Work 2; Join 2; Join 0; Join 1; Dispatch; Dispatch].

Definition finished (c : CollisionPolicy) (d : Disk) : Tree unit :=
  default (machine (world d) [] true)
    (run FromWalk ["src"] ["dst"] (with_policy c) (full_run c) (machine (world d) batches true)).

(** ** The hypotheses hold here *)

Definition link_free (root : path) (d : Disk) : Prop :=
  map_Forall (fun q n => match n with NLink _ => ~ root `prefix_of` q | _ => True end) d.

#[export] Instance link_free_dec root d : Decision (link_free root d).
Proof. apply map_Forall_dec. intros q n. destruct n; apply _. Defined.

Lemma link_free_spec root d q t : link_free root d -> root `prefix_of` q -> d !! q <> Some (NLink t).
Proof. intros Hl Hq Ht. by apply (Hl q (NLink t) Ht). Qed.

Lemma demo_room : room_at ["src"] ["dst"] disk0.
Proof.
  split.
  - split; intros H%prefix_cons_inv_1; discriminate.
  - intros q Hq Hne. destruct q as [|x q]; [done|]. pose proof (prefix_cons_inv_1 _ _ _ _ Hq) as ->.
    apply prefix_cons_inv_2, prefix_nil_inv in Hq as ->. by vm_compute.
  - intros q t. apply link_free_spec. apply (bool_decide_unpack _). by vm_compute.
Qed.

Definition entries : list Entry := entries_of batches.

Definition entry_fine (d : Disk) (root : path) (e : Entry) : Prop :=
  e_src e = root ++ e_rel e /\ e_rel e <> [] /\
  match e_kind e, d !! e_src e with
  | KFile, Some (NFile _) | KSymlink, Some (NLink _) | KDir, Some NDir => True
  | _, _ => False
  end /\
  map_Forall (fun q n => match n with
                         | NLink _ => q `prefix_of` e_src e -> q = e_src e /\ e_kind e = KSymlink
                         | _ => True
                         end) d.

#[export] Instance entry_fine_dec d root e : Decision (entry_fine d root e).
Proof.
  unfold entry_fine. repeat apply and_dec; try apply _.
  - destruct (e_kind e), (d !! e_src e) as [[]|]; apply _.
  - apply map_Forall_dec. intros q n. destruct n; apply _.
Defined.

Definition leaves (es : list Entry) : Prop :=
  Forall (fun e => Forall (fun e' => e_kind e = KDir \/ ~ (e_rel e `prefix_of` e_rel e') \/ e = e') es) es.

#[export] Instance entry_dec : EqDecision Entry.
Proof. solve_decision. Defined.

#[export] Instance leaves_dec es : Decision (leaves es).
Proof. unfold leaves. apply _. Defined.

Lemma tree_of_decided root d es :
  bool_decide (Forall (entry_fine d root) es) = true -> bool_decide (leaves es) = true -> bool_decide (NoDup es) = true ->
  tree_of root d es.
Proof.
  intros Hf%bool_decide_eq_true Hl%bool_decide_eq_true Hn%bool_decide_eq_true. rewrite Forall_forall in Hf.
  split; [| | | | |done].
  - intros e He. destruct (Hf e He) as (? & ? & _). done.
  - intros e He Hk. destruct (Hf e He) as (_ & _ & Hm & _). rewrite Hk in Hm.
    destruct (d !! e_src e) as [[f| |]|] eqn:Hd; try done. by exists f.
  - intros e He Hk. destruct (Hf e He) as (_ & _ & Hm & _). rewrite Hk in Hm.
    destruct (d !! e_src e) as [[|t|]|] eqn:Hd; try done. by exists t.
  - intros e q t He Hq Ht. destruct (Hf e He) as (_ & _ & _ & Hm). by apply (Hm q (NLink t) Ht).
  - intros e e' He He' Hk Hpre. unfold leaves in Hl. rewrite Forall_forall in Hl. specialize (Hl e He).
    rewrite Forall_forall in Hl. by destruct (Hl e' He') as [?|[?|?]].
Qed.

Lemma demo_tree : tree_of ["src"] disk0 (entries_of batches).
Proof. by apply tree_of_decided; vm_compute. Qed.

Definition runs_through (c : CollisionPolicy) (d : Disk) : bool :=
  negb (is_none (run FromWalk ["src"] ["dst"] (with_policy c) (full_run c) (machine (world d) batches true))).

Lemma demo_reachable c d :
  runs_through c d = true -> reachable FromWalk ["src"] ["dst"] (with_policy c) d batches (finished c d).
Proof.
  intros Hr. exists (world d), true. split_and!; [done|by left|]. unfold finished, runs_through in *.
  destruct (run _ _ _ _ (full_run c) _) as [s|] eqn:E; [|done]. by apply (run_reachable FromWalk _ _ _ (full_run c)).
Qed.

Lemma skip_runs : runs_through OnSkip disk0 = true.
Proof. vm_compute. reflexivity. Qed.

Lemma overwrite_runs : runs_through OnOverwrite disk0 = true.
Proof. vm_compute. reflexivity. Qed.

(** Deciding that a walk is in depth-first order. *)
Definition outside (w : WalkItem) (l : list WalkItem) : bool :=
  forallb (fun x => negb (below (item_path w) (item_path x))) l.

Fixpoint skip_current_dir (p : path) (items : list WalkItem) : list WalkItem :=
  match items with
  | w :: rest => if below p (item_path w) then skip_current_dir p rest else items
  | [] => []
  end.

Fixpoint in_order (l r : list WalkItem) : bool :=
  match r with
  | [] => true
  | w :: r' => outside w l && outside w (skip_current_dir (item_path w) r') && in_order (l ++ [w]) r'
  end.

Lemma outside_spec w l : outside w l = true -> Forall (fun x => below (item_path w) (item_path x) = false) l.
Proof.
  unfold outside. rewrite forallb_forall, Forall_forall. intros H x Hx. apply negb_true_iff, H.
  by apply list_elem_of_In.
Qed.

Lemma skip_current_dir_split p r :
  exists r1, r = r1 ++ skip_current_dir p r /\ Forall (fun x => below p (item_path x) = true) r1.
Proof.
  induction r as [|w r (r1 & E & H)]; simpl; [by exists []|]. destruct (below p (item_path w)) eqn:Hb.
  - exists (w :: r1). simpl. split; [by rewrite <- E|by constructor].
  - by exists [].
Qed.

Lemma in_order_depth_first r : forall l, in_order l r = true ->
  forall l' w r', r = l' ++ w :: r' ->
    Forall (fun x => below (item_path w) (item_path x) = false) (l ++ l') /\
    exists r1 r2, r' = r1 ++ r2 /\ Forall (fun x => below (item_path w) (item_path x) = true) r1 /\
      Forall (fun x => below (item_path w) (item_path x) = false) r2.
Proof.
  induction r as [|x r IH]; intros l Hr l' w r' E; [by destruct l'|]. simpl in Hr.
  apply andb_true_iff in Hr as [[H1 H2]%andb_true_iff H3]. destruct l' as [|y l']; injection E as -> ->.
  - rewrite app_nil_r. split; [by apply outside_spec|].
    destruct (skip_current_dir_split (item_path w) r') as (r1 & E & Hb).
    exists r1, (skip_current_dir (item_path w) r'). split_and!; [done|done|by apply outside_spec].
  - destruct (IH _ H3 l' w r' eq_refl) as [Hl Hr]. by rewrite <- app_assoc in Hl.
Qed.

Lemma items_depth_first : depth_first items.
Proof. intros l w r. apply (in_order_depth_first items []). vm_compute. reflexivity. Qed.

(** ** The theorems along the runs *)

Definition overwrite_report : TreeReport :=
  {| tr_root_src := ["src"]; tr_root_dst := ["dst"]; tr_files := 3; tr_bytes := 9; tr_skipped := 0; tr_errored := 0 |}.

Definition demo_todo : list Entry := filter (fun e => e_kind e <> KDir) (kept_in Unix ["src"] None items items).

Lemma overwrite_run_steps :
  rtc (steps_to FromWalk ["src"] ["dst"] (with_policy OnOverwrite)) (machine (world disk0) batches true) (finished OnOverwrite disk0).
Proof.
  pose proof overwrite_runs as Hr. unfold finished, runs_through in *.
  destruct (run _ _ _ _ (full_run OnOverwrite) _) as [s|] eqn:E; [|done]. by apply (run_reachable FromWalk _ _ _ (full_run OnOverwrite)).
Qed.

Lemma tree_copy_reports_the_truth_witness :
  length demo_todo = 3%nat /\
  exists os, Forall2 (outcome_ok ["dst"] (with_policy OnOverwrite) disk0 (w_disk (t_world (finished OnOverwrite disk0))))
               demo_todo os /\ Aborted ∉ os /\
    tr_files overwrite_report = wrap64 (sum_outcomes done_one os) /\
    tr_bytes overwrite_report = wrap64 (sum_outcomes done_bytes os) /\
    tr_skipped overwrite_report = wrap64 (sum_outcomes skipped_one os) /\
    tr_errored overwrite_report = wrap64 (sum_outcomes errored_one os).
Proof.
  split; [vm_compute; reflexivity|].
  apply (tree_copy_reports_the_truth Unix None items ["src"] ["dst"] (with_policy OnOverwrite) (world disk0)
    (finished OnOverwrite disk0) overwrite_report items_depth_first demo_tree demo_room).
  - by intros x y.
  - reflexivity.
  - reflexivity.
  - assert (Ew : (enumerate_streaming Unix ["src"] None items).2 = true) by (vm_compute; reflexivity).
    rewrite Ew. exact overwrite_run_steps.
  - vm_compute. reflexivity.
Defined.


(** Under [Skip] the file that was there stays; the rest arrives. *)
Example skip_run :
  let d := w_disk (t_world (finished OnSkip disk0)) in
  t_phase (finished OnSkip disk0) =
    Returned (Ok {| tr_root_src := ["src"]; tr_root_dst := ["dst"]; tr_files := 2; tr_bytes := 4; tr_skipped := 1;
                    tr_errored := 0 |}) /\
  d !! ["dst"; "a.txt"] = Some (file "old" 1) /\ d !! ["dst"; "sub"; "b"] = Some (file "beta" 6) /\
  d !! ["dst"; "l"] = Some (NLink "a.txt").
Proof. vm_compute. split_and!; reflexivity. Qed.

Lemma tree_copy_terminates_witness :
  (length (full_run OnSkip) <= 15 * length (entries_of batches) + 4 * length batches + 5)%nat.
Proof.
  destruct (run FromWalk ["src"] ["dst"] (with_policy OnSkip) (full_run OnSkip) (machine (world disk0) batches true)) as [s|] eqn:E.
  - exact (tree_copy_terminates FromWalk ["src"] ["dst"] (with_policy OnSkip) (world disk0) batches true (full_run OnSkip) s I E).
  - exfalso. pose proof skip_runs as H. unfold runs_through in H. rewrite E in H. discriminate H.
Defined.

(** ** Filters and the walk *)

Definition rules : FilterSet :=
  {| fs_include_globs := ["a.txt"; "b"]; fs_exclude_globs := ["sub"]; fs_min_size_bytes := Some 5;
     fs_max_size_bytes := None; fs_min_mtime := None; fs_max_mtime := Some 9; fs_skip_hidden := true;
     fs_skip_system := false; fs_skip_readonly := false |}.

Definition meta_of (n : Z) : Metadata :=
  {| m_len := n; m_modified := Some 5; m_attributes := 0; m_readonly := false |}.

Definition compiled : CompiledFilters :=
  {| cf_include := Some ["a.txt"; "b"]; cf_exclude := Some ["sub"]; cf_min_size_bytes := Some 5;
     cf_max_size_bytes := None; cf_min_mtime := None; cf_max_mtime := Some 9; cf_skip_hidden := true;
     cf_skip_system := false; cf_skip_readonly := false |}.

Lemma passes_file_exact_witness : file_wanted Unix rules ["a.txt"] (meta_of 5).
Proof. apply (passes_file_exact Unix rules compiled ["a.txt"] (meta_of 5)); reflexivity. Defined.

Lemma enumeration_exact_witness :
  entries_of (enumerate_streaming Unix ["src"] (Some compiled) items).1 =
    [{| e_src := ["src"; "a.txt"]; e_rel := ["a.txt"]; e_kind := KFile |}] /\
  Forall (fun c => 0 < Z.of_nat (length (p_entries c)) <= CHUNK_SIZE)
    (enumerate_streaming Unix ["src"] (Some compiled) items).1.
Proof.
  destruct (enumeration_exact Unix ["src"] (Some compiled) items (enumerate_streaming Unix ["src"] (Some compiled) items).1)
    as [E H]; [exact items_depth_first|vm_compute; reflexivity|].
  split; [|exact H]. rewrite E. vm_compute. reflexivity.
Defined.

(** ** The hang *)

Definition long_walk : list Plan := repeat empty_plan 5.

Definition hang_run : list Action := [Cancel; Walk; Dispatch; Walk; Walk; Dispatch].

Definition hanging : Tree unit :=
  default (machine (world disk0) [] true)
    (run FromWalk ["src"] ["dst"] (with_policy OnSkip) hang_run (machine (world disk0) long_walk true)).

Lemma hanging_run :
  run FromWalk ["src"] ["dst"] (with_policy OnSkip) hang_run (machine (world disk0) long_walk true) = Some hanging.
Proof. vm_compute. reflexivity. Qed.

Lemma hanging_stuck : stuck FromWalk ["src"] ["dst"] (with_policy OnSkip) hanging.
Proof.
  split; [vm_compute; reflexivity|]. split; [by intros r|]. intros a Ha. destruct a as [| |i|i|]; try done.
Qed.

Lemma hang_needs_a_cancelled_long_walk_witness :
  t_phase hanging = Waiting /\ w_cancelled (t_world hanging) = true /\ t_left hanging <> [] /\
  length (t_chan hanging) = capacity FromWalk /\ (capacity FromWalk + 2 <= length long_walk)%nat.
Proof. exact (hang_needs_a_cancelled_long_walk _ _ _ _ _ _ _ _ _ hanging_run hanging_stuck). Defined.

Lemma cancelled_copy_never_returns_witness :
  exists s, run FromWalk ["src"] ["dst"] (with_policy OnSkip) [Cancel; Walk; Dispatch]
              (machine (world disk0) long_walk true) = Some s /\
    forall s' r, rtc (steps_to FromWalk ["src"] ["dst"] (with_policy OnSkip)) s s' -> t_phase s' <> Returned r.
Proof.
  apply (cancelled_copy_never_returns FromWalk ["src"] ["dst"] (with_policy OnSkip) (world disk0) long_walk true).
  - reflexivity.
  - reflexivity.
  - vm_compute. lia.
Defined.

(** ** Moves *)

Definition move_run : list Action := full_run OnSkip.

Definition removals : list WalkItem :=
  [WEntry ["src"; "a.txt"] KFile None; WEntry ["src"; "l"] KSymlink None; WEntry ["src"; "sub"; "b"] KFile None;
   WEntry ["src"; "sub"] KDir None; WEntry ["src"] KDir None].

Definition moved : option (result CopyError TreeReport * World unit) :=
  move_tree Unix ["src"] ["dst"] default_move_options items removals move_run (world disk0).

Definition moved_world : World unit := match moved with Some (_, w) => w | None => world ∅ end.

Definition move_report : TreeReport :=
  {| tr_root_src := ["src"]; tr_root_dst := ["dst"]; tr_files := 2; tr_bytes := 4; tr_skipped := 1; tr_errored := 0 |}.

Definition move_started : result CopyError (Tree unit) * World unit :=
  start_walk Unix ["src"] ["dst"] (move_tree_options default_move_options) items (tick (world disk0)).

Definition move_machine : Tree unit := match move_started.1 with Ok s => s | Err _ => machine (world ∅) [] true end.

Lemma moved_result : moved = Some (Ok move_report, moved_world).
Proof. vm_compute. reflexivity. Qed.

Lemma move_started_ok : move_started = (Ok move_machine, move_started.2).
Proof. vm_compute. reflexivity. Qed.

Lemma move_started_disk : w_disk move_started.2 = disk0.
Proof. by_decide. Qed.

Lemma move_started_batches : t_left move_machine = batches.
Proof. vm_compute. reflexivity. Qed.

Definition clear_way (p : path) (d : Disk) : Prop :=
  map_Forall (fun q v => match v with NLink _ => ~ q `prefix_of` p | _ => True end) d.

#[export] Instance clear_way_dec p d : Decision (clear_way p d).
Proof. apply map_Forall_dec. intros q n. destruct n; apply _. Defined.

Lemma demo_removable : removable ["src"] disk0 removals.
Proof.
  intros it Hit. assert (H : Forall (fun it => exists p n, item_path it = p ++ [n] /\
    ["src"] `prefix_of` p ++ [n] /\ bool_decide (clear_way p disk0) = true) removals).
  { repeat constructor.
    - by exists ["src"], "a.txt"; split_and!; [|by eexists|vm_compute].
    - by exists ["src"], "l"; split_and!; [|by eexists|vm_compute].
    - by exists ["src"; "sub"], "b"; split_and!; [|by eexists|vm_compute].
    - by exists ["src"], "sub"; split_and!; [|by eexists|vm_compute].
    - by exists [], "src"; split_and!; [|by eexists|vm_compute]. }
  rewrite Forall_forall in H. destruct (H it Hit) as (p & n & Hp & Hpre & Hl%bool_decide_eq_true).
  exists p, n. split_and!; [done|done|]. intros q t Hq Ht. by apply (Hl q (NLink t) Ht).
Qed.

(** The walks list the same files. *)
Definition covered (removals items : list WalkItem) : bool :=
  forallb (fun it => match it with
    | WEntry p k _ => bool_decide (k = KDir) ||
        existsb (fun it' => match it' with WEntry p' k' _ => bool_decide (p' = p /\ k' = k) | _ => false end) items
    | _ => true
    end) removals.

Lemma covered_spec (removals items : list WalkItem) : covered removals items = true ->
  forall p k m, WEntry p k m ∈ removals -> k <> KDir -> exists m', WEntry p k m' ∈ items.
Proof.
  unfold covered. rewrite forallb_forall. intros H p k m Hin%list_elem_of_In Hk. specialize (H _ Hin). cbn in H.
  rewrite bool_decide_false in H by done. cbn in H. apply existsb_exists in H as ([p' k' m'|?|?] & Hi%list_elem_of_In & H); try done.
  apply bool_decide_eq_true in H as [-> ->]. by exists m'.
Qed.


Definition one_moved : result Stop CopyReport * World unit :=
  move_file ["src"; "a.txt"] ["dst"; "new.txt"] default_move_options (world disk0).

Lemma one_moved_ok :
  one_moved = (Ok {| cr_src := ["src"; "a.txt"]; cr_dst := ["dst"; "new.txt"]; cr_bytes := 5 |}, one_moved.2).
Proof. vm_compute. reflexivity. Qed.

Lemma clear_plain p d : clear_way p d -> plain_at d p.
Proof. intros Hl q t Hq Ht. by apply (Hl q (NLink t) Ht). Qed.

Lemma one_clear : clear_way ["src"; "a.txt"] disk0 /\ clear_way ["dst"; "new.txt"] disk0.
Proof. split; apply (bool_decide_unpack _); vm_compute; exact I. Qed.

Lemma one_source : w_disk (world disk0) !! ["src"; "a.txt"] = Some (NFile {| content := text "alpha"; f_mtime_ms := 5 |}).
Proof. vm_compute. reflexivity. Qed.

Lemma moved_file_is_never_lost_witness :
  exists g, w_disk one_moved.2 !! ["dst"; "new.txt"] = Some (NFile g) /\ content g = text "alpha".
Proof.
  refine (moved_file_is_never_lost ["src"; "a.txt"] ["dst"; "new.txt"] default_move_options (world disk0)
    {| content := text "alpha"; f_mtime_ms := 5 |} (Ok _) one_moved.2 one_source _ _ _ _ one_moved_ok).
  - apply clear_plain, one_clear.
  - apply clear_plain, one_clear.
  - discriminate.
  - by intros x y.
Defined.

(** ** Where the guarantees stop *)

(** A move across devices skips a file whose name is taken at the destination
    and then deletes its source: the content is gone, the report a success. *)
Lemma moved_tree_loses_what_it_skipped :
  moved = Some (Ok move_report, moved_world) /\
  w_disk moved_world !! ["src"; "a.txt"] = None /\ w_disk moved_world !! ["dst"; "a.txt"] = Some (file "old" 1).
Proof. vm_compute. split_and!; reflexivity. Qed.

(** Two tasks that resolve before either writes: [KeepBoth] gives both the
    same fresh name, both report a copied file, and one of them is gone. *)
Definition taken : Disk :=
  {[ ["src"] := NDir; ["src"; "a.txt"] := file "alpha" 5; ["src"; "a_2.txt"] := file "second" 5;
     ["dst"] := NDir; ["dst"; "a.txt"] := file "old" 1 ]}.

Definition two_files : list WalkItem :=
  [WEntry ["src"; "a.txt"] KFile (meta 5); WEntry ["src"; "a_2.txt"] KFile (meta 6)].

Definition keep_both_run : list Action :=
  [Walk; Dispatch; Dispatch; Dispatch; Dispatch; Dispatch; Work 0; Work 1; Work 0; Work 1; Work 0; Work 1;
   Join 0; Join 1; Dispatch; Dispatch].

Lemma keep_both_race :
  match run FromWalk ["src"] ["dst"] (with_policy OnKeepBoth) keep_both_run
          (machine (world taken) (enumerate_streaming Unix ["src"] None two_files).1 true) with
  | Some s =>
      (exists rep, t_phase s = Returned (Ok rep) /\ tr_files rep = 2) /\
      w_disk (t_world s) !! ["dst"; "a.txt"] = Some (file "old" 1) /\
      w_disk (t_world s) !! ["dst"; "a_2.txt"] = Some (file "second" 5) /\
      w_disk (t_world s) !! ["dst"; "a_3.txt"] = None
  | None => False
  end.
Proof. vm_compute. split_and!; [eexists; split; reflexivity|reflexivity..]. Qed.

(** A name given for a collision is joined as a path: it may leave the
    directory. *)
Lemma rename_policy_escapes :
  resolve 0 (OnRename "../../etc/passwd") disk0 ["src"; "a.txt"] ["dst"; "a.txt"] = DWrite ["dst"; ".."; ".."; "etc"; "passwd"].
Proof. vm_compute. reflexivity. Qed.

(** A scan database that cannot be opened yields no rows, and the copy reports
    the success of copying nothing. *)
Lemma unreadable_scan_succeeds :
  match start_scan ["src"] ["dst"] [] false None (world disk0) with
  | (Ok s0, _) =>
      match run FromScan ["src"] ["dst"] (with_policy OnSkip) [Dispatch; Dispatch; Dispatch] s0 with
      | Some s => exists rep, t_phase s = Returned (Ok rep) /\ tr_files rep = 0
      | None => False
      end
  | (Err _, _) => False
  end.
Proof. vm_compute. eexists. split; reflexivity. Qed.

(** ** One journal index for the whole tree *)

#[local] Existing Instances SinkDemo.env JournalDemo.job_codec JournalDemo.file_codec.

Definition journaled_options : TreeOptions :=
  {| t_file := CopyDemo.opts None true false false; t_collision := OnOverwrite; t_on_error := EpAbort;
     t_concurrency := 1; t_follow_symlinks := false; t_filters := None |}.

(** Two files of 20,000 bytes; the destination of [b] holds what [a] has. *)
Definition lots (c : byte) (m : Z) : Node := NFile {| content := repeat c (Z.to_nat 20000); f_mtime_ms := m |}.

Definition stale : Disk :=
  {[ ["src"] := NDir; ["src"; "a"] := lots x61 5; ["src"; "b"] := lots x62 5;
     ["dst"] := NDir; ["dst"; "b"] := lots x61 1 ]}.

Definition a_and_b : list WalkItem :=
  [WEntry ["src"; "a"] KFile (meta 20000); WEntry ["src"; "b"] KFile (meta 20000)].

Definition one_by_one : list Action :=
  [Walk; Dispatch; Dispatch; Dispatch; Dispatch; Dispatch; Work 0; Work 0; Work 0; Work 1; Work 1; Work 1;
   Join 0; Join 1; Dispatch; Dispatch].

Definition journaled_engine : TreeCopier SinkDemo.sink := tree_copier (fun _ => CopyDemo.quick) (fun _ => []).

(** The journal says of file 0 that it is complete, meaning [a]; the engine
    asks it about [b], and leaves the stale file as it is. *)
Lemma tree_files_share_a_journal_index :
  match run (C := journaled_engine) FromWalk ["src"] ["dst"] journaled_options one_by_one
          (machine {| w_disk := stale; w_sink := SinkDemo.s; w_tick := 0; w_cancelled := false; w_died := false;
                      w_counters := zero_counters; w_events := [] |}
             (enumerate_streaming Unix ["src"] None a_and_b).1 true) with
  | Some s =>
      match t_phase s, w_disk (t_world s) !! ["dst"; "b"] with
      | Returned (Ok rep), Some (NFile f) => tr_files rep = 2 /\ tr_errored rep = 0 /\ head (content f) = Some x61
      | _, _ => False
      end
  | None => False
  end.
Proof. vm_compute. done. Qed.
