(* ===== verification/AuditFormat.v ===== *)
(** * Audit records ([freally-audit]: [lib.rs], [format.rs] and the extractors of [verify.rs])

    The audit events, the five wire formats with their escapes, and the
    functions that find the chain column of a line again.  The [csv],
    [serde_json] and [chrono] crates are parameters ([AuditEnv]); what the
    code relies on of them is [AuditLaws].

    The second part relates lines and extractors: what is written into a
    line is found in it again. *)
From S2P Require Import Prelude.
From S2P Require Import Text.
From S2P Require Import TextSearch.
From stdpp Require Import pretty options.

Inductive AuditFormat := Csv | JsonLines | Syslog | Cef | Leef.

#[export] Instance AuditFormat_eq_dec : EqDecision AuditFormat.
Proof. solve_decision. Defined.

Definition as_str (f : AuditFormat) : string :=
  match f with
  | Csv => "csv" | JsonLines => "json-lines" | Syslog => "syslog" | Cef => "cef" | Leef => "leef"
  end.

Definition parse_format (s : string) : option AuditFormat :=
  let s := to_ascii_lowercase s in
  if String.eqb s "csv" then Some Csv
  else if String.eqb s "json-lines" || String.eqb s "jsonl" || String.eqb s "json" then Some JsonLines
  else if String.eqb s "syslog" then Some Syslog
  else if String.eqb s "cef" then Some Cef
  else if String.eqb s "leef" then Some Leef
  else None.

Inductive AuditSeverity := Debug_ | Info_ | Notice_ | Warning_ | Error_.

Definition cef_severity (s : AuditSeverity) : Z :=
  match s with Debug_ => 0 | Info_ => 3 | Notice_ => 5 | Warning_ => 7 | Error_ => 9 end.

Definition syslog_priority (s : AuditSeverity) : Z :=
  13 * 8 + match s with Debug_ => 7 | Info_ => 6 | Notice_ => 5 | Warning_ => 4 | Error_ => 3 end.

(** A time stamp is the instant in nanoseconds. *)
Inductive AuditEvent :=
| JobStarted (job_id kind src dst user host : string) (ts : Z)
| JobCompleted (job_id status : string) (files_ok files_failed n_bytes duration_ms : Z) (ts : Z)
| FileCopied (job_id src dst hash : string) (size : Z) (ts : Z)
| FileFailed (job_id src error_code error_msg : string) (ts : Z)
| CollisionResolved (job_id src dst action : string) (ts : Z)
| SettingsChanged (user host field before_hash after_hash : string) (ts : Z)
| LoginEvent (user host : string) (ts : Z)
| UnauthorizedAccess (user host attempted_action reason : string) (ts : Z).

Definition signature (e : AuditEvent) : string :=
  match e with
  | JobStarted _ _ _ _ _ _ _ => "JobStarted"
  | JobCompleted _ _ _ _ _ _ _ => "JobCompleted"
  | FileCopied _ _ _ _ _ _ => "FileCopied"
  | FileFailed _ _ _ _ _ => "FileFailed"
  | CollisionResolved _ _ _ _ _ => "CollisionResolved"
  | SettingsChanged _ _ _ _ _ _ => "SettingsChanged"
  | LoginEvent _ _ _ => "LoginEvent"
  | UnauthorizedAccess _ _ _ _ _ => "UnauthorizedAccess"
  end.

Definition label (e : AuditEvent) : string :=
  match e with
  | JobStarted _ _ _ _ _ _ _ => "Copy job started"
  | JobCompleted _ _ _ _ _ _ _ => "Copy job completed"
  | FileCopied _ _ _ _ _ _ => "File copied"
  | FileFailed _ _ _ _ _ => "File copy failed"
  | CollisionResolved _ _ _ _ _ => "Collision resolved"
  | SettingsChanged _ _ _ _ _ _ => "Settings changed"
  | LoginEvent _ _ _ => "Application login"
  | UnauthorizedAccess _ _ _ _ _ => "Unauthorized access"
  end.

Definition severity (e : AuditEvent) : AuditSeverity :=
  match e with
  | JobStarted _ _ _ _ _ _ _ | JobCompleted _ _ _ _ _ _ _ | CollisionResolved _ _ _ _ _
  | LoginEvent _ _ _ => Info_
  | FileCopied _ _ _ _ _ _ => Debug_
  | FileFailed _ _ _ _ _ => Warning_
  | SettingsChanged _ _ _ _ _ _ => Notice_
  | UnauthorizedAccess _ _ _ _ _ => Error_
  end.

Definition timestamp (e : AuditEvent) : Z :=
  match e with
  | JobStarted _ _ _ _ _ _ ts | JobCompleted _ _ _ _ _ _ ts | FileCopied _ _ _ _ _ ts
  | FileFailed _ _ _ _ ts | CollisionResolved _ _ _ _ ts | SettingsChanged _ _ _ _ _ ts
  | LoginEvent _ _ ts | UnauthorizedAccess _ _ _ _ ts => ts
  end.

Definition job_id (e : AuditEvent) : string :=
  match e with
  | JobStarted j _ _ _ _ _ _ | JobCompleted j _ _ _ _ _ _ | FileCopied j _ _ _ _ _
  | FileFailed j _ _ _ _ | CollisionResolved j _ _ _ _ => j
  | SettingsChanged _ _ _ _ _ _ | LoginEvent _ _ _ | UnauthorizedAccess _ _ _ _ _ => ""
  end.

Definition user (e : AuditEvent) : string :=
  match e with
  | JobStarted _ _ _ _ u _ _ | SettingsChanged u _ _ _ _ _ | LoginEvent u _ _
  | UnauthorizedAccess u _ _ _ _ => u
  | _ => ""
  end.

Definition host_field (e : AuditEvent) : string :=
  match e with
  | JobStarted _ _ _ _ _ h _ | SettingsChanged _ h _ _ _ _ | LoginEvent _ h _
  | UnauthorizedAccess _ h _ _ _ => h
  | _ => ""
  end.

Definition severity_token (s : AuditSeverity) : string :=
  match s with
  | Debug_ => "debug" | Info_ => "info" | Notice_ => "notice" | Warning_ => "warning" | Error_ => "error"
  end.

Definition CHAIN_HASH_HEX_LEN : nat := 64.

Inductive AuditError :=
| AuIo
| AuFormat (reason : string)
| AuWormUnsupported
| AuWormApply (reason : string).

(** What stands outside the crate. *)
Class AuditEnv := {
  rfc3339 : Z -> string;                                        (* [to_rfc3339_opts(Micros, true)] *)
  process_id : Z;
  pkg_version : string;                                         (* [CARGO_PKG_VERSION] *)
  csv_write : list string -> result string string;              (* one record, ended by a line feed *)
  csv_read : string -> option (list string);                    (* the first record *)
  json_record : AuditEvent -> string -> string -> result string string;  (* [to_string] of the record *)
  json_field : string -> string -> option string                (* a string member of a parsed object *)
}.

(** ** Escapes *)

Fixpoint escape_syslog_param (s : string) : string :=
  match s with
  | EmptyString => EmptyString
  | String c s' =>
      if Ascii.eqb c QUOTE || Ascii.eqb c BACKSLASH || Ascii.eqb c "]"
      then String BACKSLASH (String c (escape_syslog_param s'))
      else String c (escape_syslog_param s')
  end.

Fixpoint cef_escape_header (s : string) : string :=
  match s with
  | EmptyString => EmptyString
  | String c s' =>
      if Ascii.eqb c BACKSLASH || Ascii.eqb c "|"
      then String BACKSLASH (String c (cef_escape_header s'))
      else String c (cef_escape_header s')
  end.

Fixpoint cef_escape_extension (s : string) : string :=
  match s with
  | EmptyString => EmptyString
  | String c s' =>
      if Ascii.eqb c BACKSLASH || Ascii.eqb c "=" then String BACKSLASH (String c (cef_escape_extension s'))
      else if Ascii.eqb c NL then String BACKSLASH (String "n" (cef_escape_extension s'))
      else if Ascii.eqb c CR then String BACKSLASH (String "r" (cef_escape_extension s'))
      else String c (cef_escape_extension s')
  end.

Definition leef_escape_extension (s : string) : string := cef_escape_extension s.

Definition csv_sanitise_for_excel (raw : string) : string :=
  match raw with
  | String c _ =>
      if Ascii.eqb c "=" || Ascii.eqb c "+" || Ascii.eqb c "@" || Ascii.eqb c "-"
      then String (ascii_of_N 39) raw else raw
  | EmptyString => raw
  end.

(** An integer in decimal. *)
Definition dec (n : Z) : string := pretty (Z.to_N n).

Definition quoted (s : string) : string := str1 QUOTE +:+ s +:+ str1 QUOTE.

Section format.
Context {E : AuditEnv}.

(** ** CSV *)

Definition CSV_COLUMNS : list string :=
  ["event"; "ts"; "job_id"; "user"; "host"; "severity"; "detail"; "prev_hash"].

Definition csv_header : string := str_join "," CSV_COLUMNS +:+ str1 NL.

Definition csv_detail (e : AuditEvent) : string :=
  match e with
  | JobStarted _ kind src dst _ _ _ => "kind=" +:+ kind +:+ "; src=" +:+ src +:+ "; dst=" +:+ dst
  | JobCompleted _ status files_ok files_failed n_bytes duration_ms _ =>
      "status=" +:+ status +:+ "; ok=" +:+ dec files_ok +:+ "; failed=" +:+ dec files_failed
      +:+ "; bytes=" +:+ dec n_bytes +:+ "; duration_ms=" +:+ dec duration_ms
  | FileCopied _ src dst hash size _ =>
      "src=" +:+ src +:+ "; dst=" +:+ dst +:+ "; size=" +:+ dec size +:+ "; hash=" +:+ hash
  | FileFailed _ src code msg _ => "src=" +:+ src +:+ "; code=" +:+ code +:+ "; msg=" +:+ msg
  | CollisionResolved _ src dst action _ => "src=" +:+ src +:+ "; dst=" +:+ dst +:+ "; action=" +:+ action
  | SettingsChanged _ _ field before after _ =>
      "field=" +:+ field +:+ "; before=" +:+ before +:+ "; after=" +:+ after
  | LoginEvent _ _ _ => ""
  | UnauthorizedAccess _ _ action reason _ => "action=" +:+ action +:+ "; reason=" +:+ reason
  end.

Definition csv_row (e : AuditEvent) (prev : string) : list string :=
  [signature e; rfc3339 (timestamp e); csv_sanitise_for_excel (job_id e); csv_sanitise_for_excel (user e);
   csv_sanitise_for_excel (host_field e); severity_token (severity e);
   csv_sanitise_for_excel (csv_detail e); prev].

Definition format_csv (e : AuditEvent) (prev : string) : result AuditError string :=
  match csv_write (csv_row e prev) with Ok l => Ok l | Err r => Err (AuFormat r) end.

(** ** JSON lines *)

Definition format_json_lines (e : AuditEvent) (prev : string) : result AuditError string :=
  match json_record e (severity_token (severity e)) prev with
  | Ok l => Ok (l +:+ str1 NL)
  | Err r => Err (AuFormat r)
  end.

(** ** Syslog *)

Definition variant_sd_params (e : AuditEvent) : list (string * string) :=
  match e with
  | JobStarted _ kind src dst _ _ _ => [("kind", kind); ("src", src); ("dst", dst)]
  | JobCompleted _ status files_ok files_failed n_bytes duration_ms _ =>
      [("status", status); ("filesOk", dec files_ok); ("filesFailed", dec files_failed);
       ("bytes", dec n_bytes); ("durationMs", dec duration_ms)]
  | FileCopied _ src dst hash size _ => [("src", src); ("dst", dst); ("size", dec size); ("hash", hash)]
  | FileFailed _ src code msg _ => [("src", src); ("errorCode", code); ("errorMsg", msg)]
  | CollisionResolved _ src dst action _ => [("src", src); ("dst", dst); ("action", action)]
  | SettingsChanged _ _ field before after _ =>
      [("field", field); ("beforeHash", before); ("afterHash", after)]
  | LoginEvent _ _ _ => []
  | UnauthorizedAccess _ _ action reason _ => [("attemptedAction", action); ("reason", reason)]
  end.

Fixpoint sd_params (ps : list (string * string)) : string :=
  match ps with
  | [] => ""
  | (key, value) :: ps => " " +:+ key +:+ "=" +:+ quoted (escape_syslog_param value) +:+ sd_params ps
  end.

Definition SD_ID : string := "[freally@32473".

Definition syslog_structured_data (e : AuditEvent) (prev : string) : string :=
  SD_ID +:+ " jobId=" +:+ quoted (escape_syslog_param (job_id e))
  +:+ " user=" +:+ quoted (escape_syslog_param (user e))
  +:+ " severity=" +:+ quoted (severity_token (severity e))
  +:+ " prevHash=" +:+ quoted prev
  +:+ sd_params (variant_sd_params e) +:+ "]".

Definition format_syslog (e : AuditEvent) (prev : string) : result AuditError string :=
  let host := host_field e in
  let host := if String.eqb host "" then "-" else host in
  Ok ("<" +:+ dec (syslog_priority (severity e)) +:+ ">1 " +:+ rfc3339 (timestamp e) +:+ " " +:+ host
      +:+ " Freally " +:+ dec process_id +:+ " " +:+ signature e +:+ " "
      +:+ syslog_structured_data e prev +:+ " " +:+ label e +:+ str1 NL).

(** ** CEF and LEEF *)

Definition cef_parts (e : AuditEvent) (prev : string) : list (string * string) :=
  [("rt", rfc3339 (timestamp e)); ("dhost", host_field e); ("duser", user e);
   ("cs1Label", "prev_hash"); ("cs1", prev)] ++
  match e with
  | JobStarted job kind src dst _ _ _ =>
      [("cs2Label", "jobId"); ("cs2", job); ("cs3Label", "kind"); ("cs3", kind); ("fname", src); ("filePath", dst)]
  | JobCompleted job status files_ok files_failed n_bytes duration_ms _ =>
      [("cs2Label", "jobId"); ("cs2", job); ("cs3Label", "status"); ("cs3", status);
       ("cn1Label", "filesOk"); ("cn1", dec files_ok); ("cn2Label", "filesFailed"); ("cn2", dec files_failed);
       ("cn3Label", "bytes"); ("cn3", dec n_bytes); ("cfp1Label", "durationMs"); ("cfp1", dec duration_ms)]
  | FileCopied job src dst hash size _ =>
      [("cs2Label", "jobId"); ("cs2", job); ("fname", src); ("filePath", dst); ("fsize", dec size); ("fileHash", hash)]
  | FileFailed job src code msg _ =>
      [("cs2Label", "jobId"); ("cs2", job); ("fname", src); ("reason", msg); ("outcome", code)]
  | CollisionResolved job src dst action _ =>
      [("cs2Label", "jobId"); ("cs2", job); ("fname", src); ("filePath", dst); ("act", action)]
  | SettingsChanged _ _ field before after _ =>
      [("cs2Label", "field"); ("cs2", field); ("cs3Label", "beforeHash"); ("cs3", before);
       ("cs4Label", "afterHash"); ("cs4", after)]
  | LoginEvent _ _ _ => [("act", "login")]
  | UnauthorizedAccess _ _ action reason _ => [("act", action); ("reason", reason); ("outcome", "denied")]
  end.

Definition pair_text (kv : string * string) : string := kv.1 +:+ "=" +:+ cef_escape_extension kv.2.

Definition cef_extension (e : AuditEvent) (prev : string) : string :=
  str_join " " (pair_text <$> cef_parts e prev).

Definition format_cef (e : AuditEvent) (prev : string) : result AuditError string :=
  Ok ("CEF:0|Freally|Freally|" +:+ pkg_version +:+ "|" +:+ cef_escape_header (signature e) +:+ "|"
      +:+ cef_escape_header (label e) +:+ "|" +:+ dec (cef_severity (severity e)) +:+ "|"
      +:+ cef_extension e prev +:+ str1 NL).

Definition leef_parts (e : AuditEvent) (prev : string) : list (string * string) :=
  [("devTime", rfc3339 (timestamp e)); ("dstHost", host_field e); ("usrName", user e);
   ("sev", dec (cef_severity (severity e))); ("prevHash", prev); ("signature", signature e)] ++
  match e with
  | JobStarted job kind src dst _ _ _ => [("jobId", job); ("cat", kind); ("src", src); ("dst", dst)]
  | JobCompleted job status files_ok files_failed n_bytes duration_ms _ =>
      [("jobId", job); ("status", status); ("filesOk", dec files_ok); ("filesFailed", dec files_failed);
       ("bytes", dec n_bytes); ("durationMs", dec duration_ms)]
  | FileCopied job src dst hash size _ =>
      [("jobId", job); ("src", src); ("dst", dst); ("size", dec size); ("hash", hash)]
  | FileFailed job src code msg _ => [("jobId", job); ("src", src); ("errorCode", code); ("errorMsg", msg)]
  | CollisionResolved job src dst action _ => [("jobId", job); ("src", src); ("dst", dst); ("action", action)]
  | SettingsChanged _ _ field before after _ =>
      [("field", field); ("beforeHash", before); ("afterHash", after)]
  | LoginEvent _ _ _ => []
  | UnauthorizedAccess _ _ action reason _ => [("attemptedAction", action); ("reason", reason)]
  end.

Definition leef_extension (e : AuditEvent) (prev : string) : string :=
  str_join (str1 TAB) (pair_text <$> leef_parts e prev).

Definition format_leef (e : AuditEvent) (prev : string) : result AuditError string :=
  Ok ("LEEF:2.0|Freally|Freally|" +:+ pkg_version +:+ "|" +:+ cef_escape_header (signature e) +:+ "|"
      +:+ leef_extension e prev +:+ str1 NL).

Definition format_record (f : AuditFormat) (e : AuditEvent) (prev : string) : result AuditError string :=
  match f with
  | Csv => format_csv e prev
  | JsonLines => format_json_lines e prev
  | Syslog => format_syslog e prev
  | Cef => format_cef e prev
  | Leef => format_leef e prev
  end.

(** ** Finding the chain column again *)

Definition of_chain_length (s : string) : option string :=
  if Nat.eqb (String.length s) CHAIN_HASH_HEX_LEN then Some s else None.

Definition extract_syslog_prev_hash (line : string) : option string :=
  match find_after SD_ID line with
  | None => None
  | Some rest =>
      match find_after ("prevHash=" +:+ str1 QUOTE) (SD_ID +:+ rest) with
      | None => None
      | Some rest =>
          match split_once QUOTE rest with Some (hex, _) => of_chain_length hex | None => None end
      end
  end.

(** What follows the [n]th separator of a CEF header. *)
Fixpoint nth_cef_pipe (line : string) (n : nat) : option string :=
  match line with
  | EmptyString => None
  | String c s =>
      if Ascii.eqb c BACKSLASH then
        match s with
        | String _ s => nth_cef_pipe s n
        | EmptyString => None
        end
      else if Ascii.eqb c "|" then
        match n with
        | O => nth_cef_pipe s O
        | S O => Some s
        | S m => nth_cef_pipe s m
        end
      else nth_cef_pipe s n
  end.

Definition extract_cef_prev_hash (line : string) : option string :=
  match nth_cef_pipe line 7 with
  | None => None
  | Some ext =>
      match find_after "cs1=" ext with
      | None => None
      | Some rest =>
          let hex := match split_once " " rest with Some (h, _) => h | None => rest end in
          of_chain_length (trim_line_end hex)
      end
  end.

Fixpoint leef_scan (parts : list string) : option string :=
  match parts with
  | [] => None
  | part :: parts =>
      match str_strip_prefix "prevHash=" part with
      | Some rest =>
          match of_chain_length (trim_line_end rest) with Some h => Some h | None => leef_scan parts end
      | None => leef_scan parts
      end
  end.

Definition extract_leef_prev_hash (line : string) : option string :=
  match nth_cef_pipe line 5 with
  | None => None
  | Some ext => leef_scan (split_on TAB ext)
  end.

Definition extract_prev_hash (f : AuditFormat) (line : string) : option string :=
  let line := trim_line_end line in
  match f with
  | Csv =>
      match csv_read line with
      | Some row => match last row with Some col => of_chain_length col | None => None end
      | None => None
      end
  | JsonLines => match json_field "prev_hash" line with Some s => of_chain_length s | None => None end
  | Syslog => extract_syslog_prev_hash line
  | Cef => extract_cef_prev_hash line
  | Leef => extract_leef_prev_hash line
  end.
End format.

(** * What an audit line holds

    A formatted record is one line, and the extractor of its format finds the
    chain column it was written with. *)

Definition is_eol (c : ascii) : bool := Ascii.eqb c NL || Ascii.eqb c CR.
Definition has_eol (s : string) : bool := has_char is_eol s.

Definition hex_char (c : ascii) : bool := is_digit c || ascii_in 97 102 c.
Definition hex_text (s : string) : bool := negb (has_char (fun c => negb (hex_char c)) s).

(** A chain column: 64 hexadecimal digits. *)
Definition is_chain_hex (s : string) : bool := Nat.eqb (String.length s) 64 && hex_text s.

Definition stamp_char (c : ascii) : bool :=
  is_digit c || ascii_in 43 43 c || ascii_in 45 46 c || ascii_in 58 58 c || ascii_in 84 84 c || ascii_in 90 90 c.

(** The documented behaviour of the crates: RFC 3339 stamps and versions are
    plain; a CSV record whose fields have no line break is one line, starts
    with its first field when that needs no quotes, and reads back; a JSON
    object is printed on one line between braces and its members read back. *)
Class AuditLaws {E : AuditEnv} := {
  rfc3339_plain ts : has_char (fun c => negb (stamp_char c)) (rfc3339 ts) = false;
  version_plain : has_char (fun c => is_eol c || Ascii.eqb c "|" || Ascii.eqb c BACKSLASH) pkg_version = false;
  csv_writes row : row <> [] -> forallb (fun f => negb (has_eol f)) row = true ->
    exists body, csv_write row = Ok (body +:+ str1 NL) /\ has_eol body = false /\ csv_read body = Some row;
  csv_first f g row : has_char (fun c => negb (ascii_in 97 122 c || ascii_in 65 90 c)) f = false -> f <> "" ->
    forallb (fun f => negb (has_eol f)) (f :: g :: row) = true ->
    exists rest, csv_write (f :: g :: row) = Ok (f +:+ "," +:+ rest);
  json_writes e sev prev : is_chain_hex prev = true ->
    exists body, json_record e sev prev = Ok ("{" +:+ body +:+ "}") /\ has_eol body = false /\
      json_field "prev_hash" ("{" +:+ body +:+ "}") = Some prev
}.

(** ** Characters of texts *)

Lemma has_char_mono (p q : ascii -> bool) s :
  (forall c, q c = true -> p c = true) -> has_char p s = false -> has_char q s = false.
Proof.
  intros H. induction s as [|a s IH]; simpl; [done|]. intros [Ha Hs]%orb_false_iff.
  rewrite (IH Hs), orb_false_r. destruct (q a) eqn:E; [|done]. rewrite (H _ E) in Ha. done.
Qed.

Lemma has_eol_app a b : has_eol (a +:+ b) = has_eol a || has_eol b.
Proof. apply has_char_app. Qed.

Lemma stamp_no_eol ts : has_char (fun c => negb (stamp_char c)) ts = false -> has_eol ts = false.
Proof.
  apply has_char_mono. intros c. unfold is_eol.
  destruct (Ascii.eqb_spec c NL) as [->|]; [done|]. by destruct (Ascii.eqb_spec c CR) as [->|].
Qed.

(** A pattern does not occur in a text without its first character. *)
Lemma contains_first c p s : contains_char c s = false -> contains_str (String c p) s = false.
Proof.
  unfold contains_char. induction s as [|a s IH]; [done|]. cbn [has_char contains_str String.prefix].
  intros [Ha Hs]%orb_false_iff. rewrite (IH Hs).
  destruct (ascii_dec c a) as [->|]; [by rewrite Ascii.eqb_refl in Ha|done].
Qed.

Lemma pretty_digits_go x : forall s, has_char (fun c => negb (is_digit c)) s = false ->
  has_char (fun c => negb (is_digit c)) (pretty_N_go x s) = false.
Proof.
  induction x as [x IH] using (well_founded_ind N.lt_wf_0). intros s Hs.
  destruct (decide (0 < x)%N) as [Hx|Hx].
  - rewrite pretty_N_go_step by done. apply IH; [by apply N.div_lt|]. cbn [has_char]. rewrite Hs, orb_false_r.
    unfold pretty_N_char. by repeat case_match.
  - assert (x = 0%N) as -> by lia. by rewrite pretty_N_go_0.
Qed.

Lemma dec_digits n : has_char (fun c => negb (is_digit c)) (dec n) = false.
Proof.
  unfold dec, pretty, pretty_N. case_decide; [done|]. by apply pretty_digits_go.
Qed.

Lemma dec_no_eol n : has_eol (dec n) = false.
Proof.
  eapply has_char_mono; [|apply dec_digits]. intros c. unfold is_eol.
  destruct (Ascii.eqb_spec c NL) as [->|]; [done|]. by destruct (Ascii.eqb_spec c CR) as [->|].
Qed.

Lemma hex_no_char c s : hex_text s = true -> hex_char c = false -> contains_char c s = false.
Proof.
  unfold hex_text. rewrite negb_true_iff. intros H Hc. unfold contains_char.
  revert H. apply has_char_mono. intros x. destruct (Ascii.eqb_spec c x) as [->|]; [|done]. by rewrite Hc.
Qed.

Lemma hex_no_eol s : hex_text s = true -> has_eol s = false.
Proof.
  intros H. pose proof (hex_no_char NL s H eq_refl) as H1. pose proof (hex_no_char CR s H eq_refl) as H2.
  unfold contains_char, has_eol in *. revert H1 H2. clear. induction s as [|a s IH]; cbn [has_char]; [done|].
  intros [H1 ?]%orb_false_iff [H2 ?]%orb_false_iff. rewrite IH by done. unfold is_eol.
  by rewrite (Ascii.eqb_sym a NL), H1, (Ascii.eqb_sym a CR), H2.
Qed.

(** ** Escaped texts *)

(** An escaped value is on one line, and each of its [=] follows a backslash. *)
Lemma cef_escape_one_line s : has_eol (cef_escape_extension s) = false.
Proof.
  induction s as [|c s IH]; [done|]. cbn [cef_escape_extension]. unfold has_eol in *.
  destruct (Ascii.eqb_spec c BACKSLASH) as [->|]; [done|]. destruct (Ascii.eqb_spec c "=") as [->|]; [done|].
  simpl. destruct (Ascii.eqb_spec c NL) as [->|H1]; [done|]. destruct (Ascii.eqb_spec c CR) as [->|H2]; [done|].
  simpl. rewrite IH, orb_false_r. unfold is_eol. rewrite (proj2 (Ascii.eqb_neq _ _) H1).
  by apply Ascii.eqb_neq.
Qed.

Lemma cef_escape_guarded a s : a <> BACKSLASH ->
  contains_str (String a "=") (cef_escape_extension s) = false /\
  match cef_escape_extension s with String b _ => b <> "="%char | EmptyString => True end.
Proof.
  intros Ha. induction s as [|c s [IH1 IH2]]; [done|]. cbn [cef_escape_extension].
  assert (Hesc : forall d, contains_str (String a "=") (String BACKSLASH (String d (cef_escape_extension s))) = false).
  { intros d. cbn [contains_str String.prefix]. destruct (ascii_dec a BACKSLASH); [done|].
    simpl. rewrite IH1, orb_false_r. destruct (ascii_dec a d); [|done].
    destruct (cef_escape_extension s) as [|b t]; [done|]. cbn [String.prefix]. by destruct (ascii_dec "=" b) as [<-|]. }
  destruct (Ascii.eqb_spec c BACKSLASH) as [->|]; [split; [apply Hesc|done]|].
  destruct (Ascii.eqb_spec c "=") as [->|Hne]; [split; [apply Hesc|done]|]. simpl orb. cbv iota.
  destruct (Ascii.eqb_spec c NL) as [->|]; [split; [apply Hesc|done]|].
  destruct (Ascii.eqb_spec c CR) as [->|]; [split; [apply Hesc|done]|].
  split; [|done]. cbn [contains_str String.prefix]. rewrite IH1, orb_false_r.
  destruct (ascii_dec a c); [|done]. destruct (cef_escape_extension s) as [|b t]; [done|].
  cbn [String.prefix]. by destruct (ascii_dec "=" b) as [<-|].
Qed.

Lemma contains_prefix_part (p q s : string) : contains_str q s = false -> contains_str (p +:+ q) s = false.
Proof.
  rewrite !contains_find. induction s as [|a s IH]; cbn [find_once].
  - destruct (str_strip_prefix (p +:+ q) "") as [r|] eqn:H; [|done]. apply strip_prefix_spec in H.
    by destruct p, q.
  - destruct (str_strip_prefix q (String a s)) as [r|] eqn:Hq; [done|]. intros H.
    assert (Hs : match find_once q s with Some _ => true | None => false end = false).
    { by destruct (find_once q s) as [[??]|]. }
    specialize (IH Hs). destruct (str_strip_prefix (p +:+ q) (String a s)) as [r|] eqn:Hp; [|].
    + apply strip_prefix_spec in Hp. destruct p as [|x p]; [|simpl in Hp; injection Hp as -> ->].
      * simpl in Hp. assert (str_strip_prefix q (String a s) = Some r) by by apply strip_prefix_spec. congruence.
      * exfalso. rewrite <- contains_find in Hs. rewrite str_app_assoc in Hs. clear -Hs.
        induction p as [|y p IHp]; [|by apply contains_tail in Hs].
        simpl in Hs. rewrite contains_find, find_once_here in Hs. done.
    + by destruct (find_once (p +:+ q) s) as [[??]|].
Qed.

(** A pattern of characters that are not escaped is not made by escaping. *)
Lemma syslog_escape_plain p s :
  has_char (fun c => Ascii.eqb c QUOTE || Ascii.eqb c BACKSLASH || Ascii.eqb c "]") p = false ->
  str_strip_prefix p (escape_syslog_param s) = None \/ exists r, str_strip_prefix p s = Some r.
Proof.
  revert s. induction p as [|x p IH]; intros s Hp; [right; by exists s|].
  cbn [has_char] in Hp. apply orb_false_iff in Hp as [Hx Hp].
  destruct s as [|c s]; [by left|]. cbn [escape_syslog_param].
  destruct (Ascii.eqb c QUOTE || Ascii.eqb c BACKSLASH || Ascii.eqb c "]") eqn:Hc.
  - left. simpl. destruct (Ascii.eqb_spec x BACKSLASH) as [->|]; [by rewrite orb_true_r in Hx|done].
  - simpl. destruct (Ascii.eqb_spec x c) as [->|]; [|by left]. apply (IH s Hp).
Qed.

Lemma syslog_escape_contains p s :
  p <> EmptyString ->
  has_char (fun c => Ascii.eqb c QUOTE || Ascii.eqb c BACKSLASH || Ascii.eqb c "]") p = false ->
  contains_str p s = false -> contains_str p (escape_syslog_param s) = false.
Proof.
  intros Hne Hp. induction s as [|c s IH]; intros Hs; [done|].
  pose proof (contains_tail _ _ _ Hs) as Ht. specialize (IH Ht).
  assert (Hno : str_strip_prefix p (escape_syslog_param (String c s)) = None).
  { destruct (syslog_escape_plain p (String c s) Hp) as [?|[r Hr]]; [done|].
    by rewrite strip_prefix_contains in Hr. }
  cbn [escape_syslog_param] in *.
  destruct (Ascii.eqb c QUOTE || Ascii.eqb c BACKSLASH || Ascii.eqb c "]") eqn:Hc.
  - cbn [contains_str]. rewrite !prefix_strip, Hno, IH, orb_false_r. simpl.
    destruct p as [|x p]; [done|]. simpl. destruct (Ascii.eqb_spec x c) as [->|]; [|done].
    cbn [has_char] in Hp. by rewrite Hc in Hp.
  - cbn [contains_str]. by rewrite prefix_strip, Hno, IH.
Qed.

Lemma syslog_escape_one_line s : has_eol s = false -> has_eol (escape_syslog_param s) = false.
Proof.
  unfold has_eol. induction s as [|c s IH]; [done|]. cbn [has_char escape_syslog_param].
  intros [Hc Hs]%orb_false_iff. destruct (_ || _ || _); cbn [has_char]; by rewrite Hc, (IH Hs).
Qed.

Lemma trim_line_end_body s : has_eol s = false -> trim_line_end (s +:+ str1 NL) = s.
Proof.
  unfold has_eol. induction s as [|a s IH]; [done|]. cbn [has_char]. intros [Ha Hs]%orb_false_iff.
  simpl. unfold str1 in *. rewrite (IH Hs). destruct s; [|done].
  unfold is_eol in Ha. apply orb_false_iff in Ha as [H1 H2]. by rewrite H1, H2.
Qed.

Lemma trim_line_end_plain s : has_eol s = false -> trim_line_end s = s.
Proof.
  unfold has_eol. induction s as [|a s IH]; [done|]. cbn [has_char]. intros [Ha Hs]%orb_false_iff.
  simpl. rewrite (IH Hs). destruct s; [|done].
  unfold is_eol in Ha. apply orb_false_iff in Ha as [H1 H2]. by rewrite H1, H2.
Qed.

(** ** Records *)

(** The events a format can hold on one line with its column in place: CSV
    and syslog do not escape line breaks, and the syslog extractor looks for
    its markers without reading the quotes. *)
Definition clean (f : AuditFormat) (e : AuditEvent) : bool :=
  match f with
  | Csv => forallb (fun s => negb (has_eol s)) [job_id e; user e; host_field e; csv_detail e]
  | Syslog =>
      forallb (fun s => negb (has_eol s)) (host_field e :: job_id e :: user e :: (snd <$> variant_sd_params e))
      && negb (contains_str SD_ID (host_field e))
      && negb (contains_str "prevHash=" (job_id e)) && negb (contains_str "prevHash=" (user e))
  | _ => true
  end.

Section lines.
Context {E : AuditEnv} {L : AuditLaws}.

(** What a formatter owes the reader of its lines. *)
Definition readable_line (f : AuditFormat) (prev : string) (r : result AuditError string) : Prop :=
  exists body, r = Ok (body +:+ str1 NL) /\ has_eol body = false /\ is_blank (body +:+ str1 NL) = false /\
    (f = Csv -> String.prefix "event," (body +:+ str1 NL) = false) /\
    extract_prev_hash f (body +:+ str1 NL) = Some prev.

Lemma chain_hex_length prev : is_chain_hex prev = true -> of_chain_length prev = Some prev.
Proof.
  unfold is_chain_hex, of_chain_length. intros [H%Nat.eqb_eq _]%andb_true_iff. by rewrite H.
Qed.

Lemma chain_hex_text prev : is_chain_hex prev = true -> hex_text prev = true.
Proof. by intros [_ ?]%andb_true_iff. Qed.

Lemma cef_escape_hex prev : hex_text prev = true -> cef_escape_extension prev = prev.
Proof.
  unfold hex_text. rewrite negb_true_iff. induction prev as [|c s IH]; [done|].
  cbn [has_char]. intros [Hc Hs]%orb_false_iff. cbn [cef_escape_extension]. rewrite (IH Hs).
  destruct (Ascii.eqb_spec c BACKSLASH) as [->|]; [done|]. destruct (Ascii.eqb_spec c "=") as [->|]; [done|].
  destruct (Ascii.eqb_spec c NL) as [->|]; [done|]. by destruct (Ascii.eqb_spec c CR) as [->|].
Qed.

Lemma stamp_contains c p ts : stamp_char c = false -> contains_str (String c p) (rfc3339 ts) = false.
Proof using L.
  intros Hc. apply contains_first. eapply has_char_mono; [|apply (rfc3339_plain ts)].
  intros x. by destruct (Ascii.eqb_spec c x) as [<-|]; [rewrite Hc|].
Qed.

Lemma dec_contains c p n : is_digit c = false -> contains_str (String c p) (dec n) = false.
Proof.
  intros Hc. apply contains_first. eapply has_char_mono; [|apply (dec_digits n)].
  intros x. by destruct (Ascii.eqb_spec c x) as [<-|]; [rewrite Hc|].
Qed.

(** *** JSON and CSV *)

Lemma json_readable e prev : is_chain_hex prev = true -> readable_line JsonLines prev (format_json_lines e prev).
Proof using L.
  intros Hp. destruct (json_writes e (severity_token (severity e)) prev Hp) as (body & Hw & Hb & Hr).
  exists ("{" +:+ body +:+ "}"). unfold format_json_lines. rewrite Hw.
  assert (has_eol ("{" +:+ body +:+ "}") = false) as He by by rewrite !has_eol_app, Hb.
  split_and!; [done..|by apply is_blank_plain|done|]. cbn [extract_prev_hash]. rewrite (trim_line_end_body _ He), Hr. by apply chain_hex_length.
Qed.

Lemma sanitised_one_line s : has_eol s = false -> has_eol (csv_sanitise_for_excel s) = false.
Proof.
  unfold csv_sanitise_for_excel. destruct s as [|c s]; [done|]. by destruct (_ || _ || _ || _).
Qed.

Lemma csv_readable e prev : is_chain_hex prev = true -> clean Csv e = true ->
  readable_line Csv prev (format_csv e prev).
Proof using L.
  intros Hp Hc. unfold clean in Hc. simpl in Hc. rewrite !andb_true_iff, !negb_true_iff in Hc.
  destruct Hc as (H1 & H2 & H3 & H4 & _).
  assert (Hrow : forallb (fun f => negb (has_eol f)) (csv_row e prev) = true).
  { unfold csv_row. cbn [forallb]. rewrite !sanitised_one_line by done.
    rewrite (hex_no_eol prev) by by apply chain_hex_text. rewrite (stamp_no_eol _ (rfc3339_plain _)).
    by destruct e. }
  destruct (csv_writes (csv_row e prev) ltac:(done) Hrow) as (body & Hw & Hb & Hr).
  destruct (csv_first (signature e) (rfc3339 (timestamp e)) (drop 2 (csv_row e prev))) as [rest Hf];
    [by destruct e..|exact Hrow|].
  assert (body +:+ str1 NL = signature e +:+ "," +:+ rest) as Heq.
  { assert (Ok (E := string) (body +:+ str1 NL) = Ok (signature e +:+ "," +:+ rest)) as H by by rewrite <- Hw, <- Hf.
    by injection H. }
  exists body. unfold format_csv. rewrite Hw. split_and!; [done..| | |].
  - rewrite Heq. destruct e; by apply is_blank_plain.
  - intros _. rewrite Heq. by destruct e.
  - cbn [extract_prev_hash]. rewrite (trim_line_end_body _ Hb), Hr. by apply chain_hex_length.
Qed.

(** *** CEF and LEEF *)

Definition pipe_free (s : string) : bool := negb (has_char (fun c => Ascii.eqb c "|" || Ascii.eqb c BACKSLASH) s).

Lemma nth_pipe_skip a s n : pipe_free a = true -> nth_cef_pipe (a +:+ s) n = nth_cef_pipe s n.
Proof.
  unfold pipe_free. rewrite negb_true_iff. induction a as [|c a IH]; [done|]. cbn [has_char].
  intros [[H1 H2]%orb_false_iff Ha]%orb_false_iff. simpl. by rewrite H1, H2, (IH Ha).
Qed.

Lemma dec_pipe_free n : pipe_free (dec n) = true.
Proof.
  unfold pipe_free. apply negb_true_iff. eapply has_char_mono; [|apply dec_digits]. intros c.
  destruct (Ascii.eqb_spec c "|") as [->|]; [done|]. by destruct (Ascii.eqb_spec c BACKSLASH) as [->|].
Qed.

Lemma version_pipe_free : pipe_free pkg_version = true.
Proof using L.
  unfold pipe_free. apply negb_true_iff. eapply has_char_mono; [|apply version_plain]. intros c H.
  cbv beta. rewrite <- orb_assoc, H. apply orb_true_r.
Qed.

Lemma version_one_line : has_eol pkg_version = false.
Proof using L.
  eapply has_char_mono; [|apply version_plain]. intros c Hc.
  cbv beta. by rewrite Hc.
Qed.

Lemma escaped_signature e : cef_escape_header (signature e) = signature e.
Proof. by destruct e. Qed.

Lemma escaped_label e : cef_escape_header (label e) = label e.
Proof. by destruct e. Qed.

Lemma pair_text_one_line kv : has_eol kv.1 = false -> has_eol (pair_text kv) = false.
Proof. intros H. unfold pair_text. by rewrite !has_eol_app, H, cef_escape_one_line. Qed.

Lemma join_one_line sep l : has_eol sep = false -> Forall (fun s => has_eol s = false) l -> has_eol (str_join sep l) = false.
Proof.
  intros Hs. induction 1 as [|x l Hx Hl IH]; [done|]. simpl. destruct l; [done|].
  by rewrite !has_eol_app, Hx, Hs, IH.
Qed.

Lemma cef_parts_keys e prev : Forall (fun kv => has_eol kv.1 = false) (cef_parts e prev).
Proof. unfold cef_parts. destruct e; repeat constructor. Qed.

Lemma leef_parts_keys e prev : Forall (fun kv => has_eol kv.1 = false) (leef_parts e prev).
Proof. unfold leef_parts. destruct e; repeat constructor. Qed.

Lemma extension_one_line sep l :
  has_eol sep = false -> Forall (fun kv => has_eol kv.1 = false) l -> has_eol (str_join sep (pair_text <$> l)) = false.
Proof.
  intros Hs Hl. apply join_one_line; [done|]. apply Forall_fmap. eapply Forall_impl; [exact Hl|].
  intros kv. apply pair_text_one_line.
Qed.

(** A key before the chain column, with its escaped value. *)
Lemma cs1_skip_value v rest :
  find_after "cs1=" (cef_escape_extension v +:+ String " " rest) = find_after "cs1=" rest.
Proof.
  rewrite (find_after_sep "cs1=" "" " "); [by rewrite find_after_cons|done|].
  apply (contains_prefix_part "cs" "1="). by apply cef_escape_guarded.
Qed.

Lemma cef_parts_shape e prev : exists k v rest, cef_parts e prev =
  [("rt", rfc3339 (timestamp e)); ("dhost", host_field e); ("duser", user e); ("cs1Label", "prev_hash"); ("cs1", prev)]
  ++ (k, v) :: rest.
Proof. unfold cef_parts. destruct e; by eexists _, _, _. Qed.

Ltac skip_literal := repeat (rewrite find_after_cons by reflexivity).

Lemma cef_extension_column e prev : is_chain_hex prev = true ->
  exists rest, find_after "cs1=" (cef_extension e prev) = Some (prev +:+ String " " rest).
Proof.
  intros Hp. unfold cef_extension. destruct (cef_parts_shape e prev) as (k & v & rest & ->).
  rewrite fmap_app. cbn [app fmap list_fmap]. rewrite !str_join_cons. unfold pair_text at 1 2 3 4 5. cbn [fst snd].
  rewrite !str_app_assoc. simpl. rewrite (cef_escape_hex prev) by by apply chain_hex_text.
  skip_literal. rewrite cs1_skip_value. skip_literal. rewrite cs1_skip_value. skip_literal.
  rewrite cs1_skip_value. skip_literal.
  eexists. apply (find_after_here "cs1=").
Qed.

(** The header of both formats up to the extension. *)
Lemma header_pipes e rest : nth_cef_pipe (signature e +:+ String "|" (label e +:+ String "|"
    (dec (cef_severity (severity e)) +:+ String "|" rest))) 3 = Some rest.
Proof.
  assert (Hs : pipe_free (signature e) = true) by by destruct e.
  assert (Hl : pipe_free (label e) = true) by by destruct e.
  rewrite (nth_pipe_skip _ _ _ Hs). simpl. rewrite (nth_pipe_skip _ _ _ Hl). simpl.
  by rewrite (nth_pipe_skip _ _ _ (dec_pipe_free _)).
Qed.

Lemma cef_readable e prev : is_chain_hex prev = true -> readable_line Cef prev (format_cef e prev).
Proof using L.
  intros Hp. unfold format_cef. rewrite escaped_signature, escaped_label.
  exists ("CEF:0|Freally|Freally|" +:+ pkg_version +:+ "|" +:+ signature e +:+ "|" +:+ label e +:+ "|"
          +:+ dec (cef_severity (severity e)) +:+ "|" +:+ cef_extension e prev).
  set (ext := cef_extension e prev). assert (Hext : has_eol ext = false).
  { by apply extension_one_line, cef_parts_keys. }
  match goal with |- context[is_blank (?b +:+ _)] => assert (Hb : has_eol b = false) end.
  { rewrite !has_eol_app, version_one_line, dec_no_eol, Hext. by destruct e. }
  split_and!; [by rewrite !str_app_assoc|exact Hb|by apply is_blank_plain|done|].
  cbn [extract_prev_hash]. rewrite (trim_line_end_body _ Hb). unfold extract_cef_prev_hash.
  simpl.
  rewrite (nth_pipe_skip _ _ _ version_pipe_free). simpl. rewrite header_pipes.
  destruct (cef_extension_column e prev Hp) as [rest Hr]. unfold ext. rewrite Hr.
  rewrite split_once_app by by apply hex_no_char; [apply chain_hex_text|].
  rewrite trim_line_end_plain by by apply hex_no_eol, chain_hex_text. by apply chain_hex_length.
Qed.

Lemma leef_scan_skip l m :
  Forall (fun part => contains_str "h=" part = false) l -> leef_scan (l ++ m) = leef_scan m.
Proof.
  induction 1 as [|part l Hp _ IH]; [done|]. cbn [app leef_scan].
  rewrite strip_prefix_contains by by apply (contains_prefix_part "prevHas" "h="). done.
Qed.

Lemma leef_skip_pair k v rest :
  contains_str "h=" (k +:+ "=" +:+ cef_escape_extension v) = false ->
  leef_scan (split_on TAB (k +:+ "=" +:+ cef_escape_extension v +:+ String TAB rest)) = leef_scan (split_on TAB rest).
Proof.
  intros H. rewrite <- !str_app_assoc, split_on_app. apply leef_scan_skip, split_on_contains.
  by rewrite str_app_assoc.
Qed.

Lemma escaped_no_column v : contains_str "h=" (cef_escape_extension v) = false.
Proof. by apply cef_escape_guarded. Qed.

Lemma leef_parts_shape e prev : exists rest, leef_parts e prev =
  [("devTime", rfc3339 (timestamp e)); ("dstHost", host_field e); ("usrName", user e);
   ("sev", dec (cef_severity (severity e))); ("prevHash", prev)] ++ ("signature", signature e) :: rest.
Proof. unfold leef_parts. destruct e; by eexists _. Qed.

Lemma leef_extension_column e prev : is_chain_hex prev = true ->
  leef_scan (split_on TAB (leef_extension e prev)) = Some prev.
Proof.
  intros Hp. unfold leef_extension. destruct (leef_parts_shape e prev) as (rest & ->).
  rewrite fmap_app. cbn [app fmap list_fmap]. rewrite !str_join_cons. unfold pair_text at 1 2 3 4 5. cbn [fst snd].
  rewrite !str_app_assoc.
  repeat match goal with |- context[str1 TAB +:+ ?x] => change (str1 TAB +:+ x) with (String TAB x) end.
  rewrite !leef_skip_pair by (simpl; apply escaped_no_column).
  rewrite (cef_escape_hex prev) by by apply chain_hex_text.
  rewrite <- !str_app_assoc, split_on_app.
  rewrite split_on_none by (rewrite !contains_char_app; rewrite (hex_no_char TAB prev); [done|by apply chain_hex_text|done]).
  simpl. rewrite trim_line_end_plain by by apply hex_no_eol, chain_hex_text. by rewrite (chain_hex_length _ Hp).
Qed.

Lemma leef_readable e prev : is_chain_hex prev = true -> readable_line Leef prev (format_leef e prev).
Proof using L.
  intros Hp. unfold format_leef. rewrite escaped_signature.
  exists ("LEEF:2.0|Freally|Freally|" +:+ pkg_version +:+ "|" +:+ signature e +:+ "|" +:+ leef_extension e prev).
  pose proof (leef_extension_column e prev Hp) as Hcol.
  set (ext := leef_extension e prev) in *. assert (Hext : has_eol ext = false).
  { by apply extension_one_line, leef_parts_keys. }
  match goal with |- context[is_blank (?b +:+ _)] => assert (Hb : has_eol b = false) end.
  { rewrite !has_eol_app, version_one_line, Hext. by destruct e. }
  split_and!; [by rewrite !str_app_assoc|exact Hb|by apply is_blank_plain|done|].
  cbn [extract_prev_hash]. rewrite (trim_line_end_body _ Hb). unfold extract_leef_prev_hash.
  simpl. rewrite (nth_pipe_skip _ _ _ version_pipe_free). simpl.
  rewrite nth_pipe_skip by by destruct e. simpl. exact Hcol.
Qed.

(** *** Syslog *)

Lemma quoted_skip p v rest :
  contains_char QUOTE p = false -> contains_str p v = false -> str_strip_prefix (p +:+ str1 QUOTE) (String QUOTE rest) = None ->
  find_after (p +:+ str1 QUOTE) (v +:+ String QUOTE rest) = find_after (p +:+ str1 QUOTE) rest.
Proof. intros Hq Hv Hn. rewrite find_after_sep by done. by rewrite find_after_cons. Qed.

Lemma sd_params_one_line ps :
  Forall (fun kv => has_eol kv.1 = false /\ has_eol kv.2 = false) ps -> has_eol (sd_params ps) = false.
Proof.
  induction 1 as [|[k v] ps [Hk Hv] _ IH]; [done|]. cbn [sd_params]. unfold quoted. simpl in Hk, Hv.
  rewrite !has_eol_app, IH, Hk, (syslog_escape_one_line _ Hv). done.
Qed.

Lemma variant_keys_one_line e : Forall (fun kv => has_eol kv.1 = false) (variant_sd_params e).
Proof. destruct e; repeat constructor. Qed.

Lemma structured_data_column e prev rest : is_chain_hex prev = true ->
  contains_str "prevHash=" (job_id e) = false -> contains_str "prevHash=" (user e) = false ->
  exists r, find_after ("prevHash=" +:+ str1 QUOTE) (syslog_structured_data e prev +:+ rest)
            = Some (prev +:+ String QUOTE r).
Proof.
  intros Hp Hj Hu. unfold syslog_structured_data, quoted. rewrite !str_app_assoc.
  pose proof (syslog_escape_contains "prevHash=" (job_id e) ltac:(done) eq_refl Hj) as Hj'.
  pose proof (syslog_escape_contains "prevHash=" (user e) ltac:(done) eq_refl Hu) as Hu'.
  assert (Ht : contains_str "prevHash=" (severity_token (severity e)) = false) by by destruct e.
  unfold SD_ID, str1 at 2 3 4 5 6 7 8 9. simpl. skip_literal.
  do 3 (rewrite (quoted_skip "prevHash=") by done; skip_literal).
  eexists. exact (find_after_here ("prevHash=" +:+ str1 QUOTE) _).
Qed.

(** What precedes the structured data does not hold its marker. *)
Lemma syslog_header_skip e rest : contains_str SD_ID (host_field e) = false ->
  find_after SD_ID ("<" +:+ dec (syslog_priority (severity e)) +:+ ">1 " +:+ rfc3339 (timestamp e) +:+ " "
    +:+ (if String.eqb (host_field e) "" then "-" else host_field e)
    +:+ " Freally " +:+ dec process_id +:+ " " +:+ signature e +:+ " " +:+ SD_ID +:+ rest) = Some rest.
Proof using L.
  intros Hh. assert (Hsep : forall c a b, contains_char c SD_ID = false -> contains_str SD_ID a = false ->
    find_after SD_ID (a +:+ String c b) = find_after SD_ID b).
  { intros c a b Hc Ha. rewrite (find_after_sep SD_ID "" c) by done. apply find_after_cons.
    unfold contains_char, SD_ID in Hc. cbn [has_char] in Hc. apply orb_false_iff in Hc as [Hc _].
    unfold SD_ID. cbn [str_strip_prefix]. rewrite Ascii.eqb_sym. by rewrite Hc. }
  simpl. skip_literal. rewrite Hsep by (done || by apply dec_contains). skip_literal.
  rewrite Hsep by (done || by apply stamp_contains).
  rewrite Hsep by (done || by destruct (String.eqb (host_field e) "")). skip_literal.
  rewrite Hsep by (done || by apply dec_contains). rewrite Hsep by (done || by destruct e).
  apply (find_after_here SD_ID).
Qed.

Lemma syslog_readable e prev : is_chain_hex prev = true -> clean Syslog e = true ->
  readable_line Syslog prev (format_syslog e prev).
Proof using L.
  intros Hp Hc. unfold clean in Hc. rewrite !andb_true_iff, !negb_true_iff in Hc.
  destruct Hc as (((Hf & Hh) & Hj) & Hu). cbn [forallb] in Hf. rewrite !andb_true_iff, !negb_true_iff in Hf.
  destruct Hf as (Eh & Ej & Eu & Ev).
  assert (Hsd : has_eol (syslog_structured_data e prev) = false).
  { unfold syslog_structured_data, quoted. rewrite !has_eol_app, !syslog_escape_one_line by done.
    rewrite (hex_no_eol prev) by by apply chain_hex_text. rewrite sd_params_one_line; [by destruct e|].
    pose proof (variant_keys_one_line e) as Hk. revert Hk Ev. generalize (variant_sd_params e).
    clear. induction 1 as [|[k v] l Hk _ IH]; [constructor|]. cbn. intros [Hv Hl]%andb_true_iff.
    constructor; [by apply negb_true_iff in Hv|auto]. }
  unfold format_syslog. set (host := if String.eqb (host_field e) "" then "-" else host_field e).
  assert (Hhost : has_eol host = false) by by unfold host; destruct (String.eqb (host_field e) "").
  exists ("<" +:+ dec (syslog_priority (severity e)) +:+ ">1 " +:+ rfc3339 (timestamp e) +:+ " " +:+ host
      +:+ " Freally " +:+ dec process_id +:+ " " +:+ signature e +:+ " "
      +:+ syslog_structured_data e prev +:+ " " +:+ label e).
  match goal with |- context[is_blank (?b +:+ _)] => assert (Hb : has_eol b = false) end.
  { rewrite !has_eol_app, !dec_no_eol, Hhost, Hsd, (stamp_no_eol _ (rfc3339_plain _)). by destruct e. }
  split_and!; [by rewrite !str_app_assoc|exact Hb|by apply is_blank_plain|done|].
  cbn [extract_prev_hash]. rewrite (trim_line_end_body _ Hb). unfold extract_syslog_prev_hash.
  assert (Hsplit : exists t, syslog_structured_data e prev = SD_ID +:+ t) by (by eexists).
  destruct Hsplit as [t Ht]. rewrite Ht, str_app_assoc. unfold host. rewrite syslog_header_skip by done.
  rewrite <- str_app_assoc, <- Ht.
  destruct (structured_data_column e prev (" " +:+ label e) Hp Hj Hu) as [r Hr]. rewrite Hr.
  rewrite split_once_app by by apply hex_no_char; [apply chain_hex_text|]. by apply chain_hex_length.
Qed.

Lemma record_readable f e prev :
  is_chain_hex prev = true -> clean f e = true -> readable_line f prev (format_record f e prev).
Proof using L.
  destruct f; intros; [by apply csv_readable|by apply json_readable|by apply syslog_readable|by apply cef_readable|by apply leef_readable].
Qed.

(** The chain column an event is recorded with is found again in its
    line, which is one line of the log, in each of the five formats and for
    every event the format can hold on a line; JSON, CEF and LEEF can hold
    any event. *)
Theorem chain_column_is_found_again f e prev :
  is_chain_hex prev = true -> clean f e = true ->
  exists body, format_record f e prev = Ok (body +:+ str1 NL) /\ has_eol body = false /\
    extract_prev_hash f (body +:+ str1 NL) = Some prev.
Proof using L.
  intros Hp Hc. destruct (record_readable f e prev Hp Hc) as (body & ? & ? & _ & _ & ?). by exists body.
Qed.
End lines.
