(* ===== verification/AuditLog.v ===== *)
(** * The audit log ([freally-audit]: [lib.rs] and [verify.rs])

    The append-only sink with its chain of digests, its rotation, the state it
    recovers from an existing log, and the verifier.  The file system is a map
    from paths to texts; an environment numbers the calls the sink makes and
    decides each one, a failed write having stored a part of its text.

    The second part is the tracing layer that feeds the sink. *)
From S2P Require Import Prelude.
From S2P Require Import Text.
From S2P Require Import TextSearch.
From S2P Require Import Monad.
From S2P Require Import Files.
From S2P Require Import ChunkTypes.
From S2P Require Import AuditFormat.
From stdpp Require Import options.
Open Scope monad_scope.

Inductive WormMode := WormOff | WormOn.

(** What the operating system and the digest function do. *)
Class AuditOs := {
  blake3 : bytes -> bytes;
  fails : nat -> bool;             (* call number [n] fails *)
  stored : nat -> nat;             (* how many bytes of a failed write reach the file *)
  worm_call : nat -> option AuditError   (* the platform's append-only call *)
}.

Definition ZERO_HASH : bytes := replicate 32 Byte.x00.
Definition ZERO_HEX : string := hex_encode ZERO_HASH.

(** The writer's handle names the file it is open on, which a rename carries
    along; a placeholder of a rotation writes at its own offset instead of
    the end. *)
Record Handle := { h_file : path; h_offset : option nat }.

Record Audit := {
  a_disk : gmap path string;
  a_tick : nat;
  a_file : Handle;
  a_chain : bytes;
  a_written : Z
}.

Definition set_disk (d : gmap path string) (s : Audit) : Audit :=
  {| a_disk := d; a_tick := a_tick s; a_file := a_file s; a_chain := a_chain s; a_written := a_written s |}.
Definition set_tick (n : nat) (s : Audit) : Audit :=
  {| a_disk := a_disk s; a_tick := n; a_file := a_file s; a_chain := a_chain s; a_written := a_written s |}.
Definition set_file (h : Handle) (s : Audit) : Audit :=
  {| a_disk := a_disk s; a_tick := a_tick s; a_file := h; a_chain := a_chain s; a_written := a_written s |}.
Definition set_chain (c : bytes) (s : Audit) : Audit :=
  {| a_disk := a_disk s; a_tick := a_tick s; a_file := a_file s; a_chain := c; a_written := a_written s |}.
Definition set_written (n : Z) (s : Audit) : Audit :=
  {| a_disk := a_disk s; a_tick := a_tick s; a_file := a_file s; a_chain := a_chain s; a_written := n |}.

(** [hex::encode] is the lower-case form of [ChunkTypes]. *)
Definition chain_hex (c : bytes) : string := hex_encode c.

(** ** The chain *)

Definition next_chain_hash {O : AuditOs} (prev : bytes) (record : string) : bytes := blake3 (prev ++ text record).

(** The chain column of a line, at the last place it occurs, made zero. *)
Definition chain_hash_redacted (line prev_hex : string) : string :=
  match rfind_once prev_hex line with
  | Some (before, after) => before +:+ String.concat "" (replicate CHAIN_HASH_HEX_LEN "0") +:+ after
  | None => line
  end.

(** [rotated_path]: the name with [.1] after it. *)
Definition rotated_path (p : path) : path :=
  match last p with
  | Some name => take (length p - 1) p ++ [name +:+ ".1"]
  | None => p
  end.

Definition is_worm_already_applied_message (reason : string) : bool :=
  let lower := to_ascii_lowercase reason in
  contains_str "ealready" lower || contains_str "operation not permitted" lower
  || contains_str "read-only" lower || contains_str "readonly" lower
  || contains_str "access is denied" lower || contains_str "erofs" lower.

(** The lines the chain runs over. *)
Definition is_record (f : AuditFormat) (line : string) : bool :=
  negb (is_blank line) && negb (bool_decide (f = Csv) && String.prefix "event," line).

Definition records (f : AuditFormat) (log : string) : list string :=
  filter (fun l => is_record f l = true) (split_inclusive NL log).

Section sink.
Context {E : AuditEnv} {Os : AuditOs}.
Context (log : path) (fmt : AuditFormat) (worm : WormMode) (max_size : Z).

Abbreviation A := (SM Audit AuditError).

(** One call of the operating system: [Err] when it fails. *)
Definition os_call : A unit :=
  let! n := gets a_tick in
  modify (set_tick (S n)) ;;
  if fails n then throw AuIo else ret tt.

Definition resume_step (chain : bytes) (line : string) : bytes :=
  if is_record fmt line then next_chain_hash chain (chain_hash_redacted line (chain_hex chain)) else chain.

(** [read_tail_state]: the chain recomputed over an existing log. *)
Definition tail_chain (content : string) : bytes :=
  fold_left resume_step (split_inclusive NL content) ZERO_HASH.

Definition read_tail_state : A (bytes * Z) :=
  let! d := gets a_disk in
  match d !! log with
  | None => ret (ZERO_HASH, 0%Z)
  | Some content =>
      os_call ;;
      if String.eqb content "" then ret (ZERO_HASH, 0%Z)
      else ret (tail_chain content, Z.of_nat (String.length content))
  end.

(** [OpenOptions::new().create(true).append(true).open] *)
Definition open_append : A Handle :=
  os_call ;;
  modify (fun s => set_disk (match a_disk s !! log with Some _ => a_disk s | None => <[log := ""]> (a_disk s) end) s) ;;
  ret {| h_file := log; h_offset := None |}.

(** What a write of [t] through a handle makes of a file. *)
Definition write_at (h : Handle) (t content : string) : string :=
  match h_offset h with
  | None => content +:+ t
  | Some n => String.substring 0 n content +:+ t
              +:+ String.substring (n + String.length t) (String.length content) content
  end.

Definition advance (h : Handle) (k : nat) : Handle :=
  {| h_file := h_file h; h_offset := (fun n => (n + k)%nat) <$> h_offset h |}.

Definition write_text (t : string) : A unit :=
  modify (fun s => set_file (advance (a_file s) (String.length t))
    (set_disk (<[h_file (a_file s) := write_at (a_file s) t (default "" (a_disk s !! h_file (a_file s)))]> (a_disk s)) s)).

(** [write_all] *)
Definition write_all (t : string) : A unit :=
  let! n := gets a_tick in
  modify (set_tick (S n)) ;;
  if fails n then write_text (String.substring 0 (stored n) t) ;; throw AuIo else write_text t.

(** [apply_worm]; the platform's call decides. *)
Definition apply_worm : A unit :=
  match worm with
  | WormOff => ret tt
  | WormOn =>
      let! d := gets a_disk in
      match d !! log with
      | None => throw (AuWormApply "path does not exist")
      | Some _ =>
          let! n := gets a_tick in
          modify (set_tick (S n)) ;;
          match worm_call n with Some e => throw e | None => ret tt end
      end
  end.

(** The header row of a fresh CSV log. *)
Definition write_header : A unit :=
  write_all csv_header ;;
  modify (set_written (Z.of_nat (String.length csv_header))).

(** [open_with_rotation]; the first call is [create_dir_all]. *)
Definition open_with_rotation : A unit :=
  os_call ;;
  let! (prev, existing) := read_tail_state in
  let! h := open_append in
  modify (fun s => set_written existing (set_chain prev (set_file h s))) ;;
  (if (existing =? 0)%Z && bool_decide (fmt = Csv) then write_header else ret tt) ;;
  apply_worm.

(** The steps of a rotation.  [File::create] truncates the log. *)
Definition truncate_log : A unit :=
  os_call ;;
  modify (fun s => set_file {| h_file := log; h_offset := Some 0%nat |} (set_disk (<[log := ""]> (a_disk s)) s)).

Definition remove_rotated : A unit :=
  let! n := gets a_tick in
  modify (set_tick (S n)) ;;
  modify (fun s => if fails n then s else set_disk (delete (rotated_path log) (a_disk s)) s).

Definition rename_log : A unit :=
  os_call ;;
  modify (fun s => set_file {| h_file := rotated_path log; h_offset := h_offset (a_file s) |}
                     (set_disk (<[rotated_path log := default "" (a_disk s !! log)]> (delete log (a_disk s))) s)).

Definition move_aside : A unit := truncate_log ;; remove_rotated ;; rename_log.

Definition start_fresh : A unit :=
  let! fresh := open_append in
  modify (fun s => set_written 0 (set_chain ZERO_HASH (set_file fresh s))) ;;
  if bool_decide (fmt = Csv) then write_header else ret tt.

(** An append-only flag that is already there is no failure. *)
Definition reapply_worm : A bool := fun s =>
  match apply_worm s with
  | (Err (AuWormApply reason), s) =>
      if is_worm_already_applied_message reason then (Ok true, s) else (Err (AuWormApply reason), s)
  | (Err e, s) => (Err e, s)
  | (Ok _, s) => (Ok true, s)
  end.

(** [rotate] *)
Definition rotate : A bool :=
  let! written := gets a_written in
  if (written <? max_size)%Z then ret false
  else move_aside ;; start_fresh ;; reapply_worm.

(** [record] *)
Definition record (e : AuditEvent) : A unit :=
  let! chain := gets a_chain in
  let prev_hex := chain_hex chain in
  match format_record fmt e prev_hex with
  | Err err => throw err
  | Ok line =>
      write_all line ;;
      os_call ;;
      modify (fun s => set_written (wrap64 (a_written s + Z.of_nat (String.length line)))
                         (set_chain (next_chain_hash chain (chain_hash_redacted line prev_hex)) s)) ;;
      let! written := gets a_written in
      if (0 <? max_size)%Z && (max_size <=? written)%Z then rotate ;; ret tt else ret tt
  end.

(** [flush] *)
Definition flush : A unit := os_call.
End sink.

(** ** The verifier *)

Record VerifyReport := {
  v_total : nat;
  v_matches : nat;
  v_mismatches : nat;
  v_missing : nat;
  v_failed_lines : list nat
}.

Definition empty_report : VerifyReport :=
  {| v_total := 0; v_matches := 0; v_mismatches := 0; v_missing := 0; v_failed_lines := [] |}.

Definition report_ok (r : VerifyReport) : bool := Nat.eqb (v_mismatches r) 0 && Nat.eqb (v_missing r) 0.

Definition tally (total matches mismatches missing : nat) (failed : list nat) (r : VerifyReport) : VerifyReport :=
  {| v_total := v_total r + total; v_matches := v_matches r + matches;
     v_mismatches := v_mismatches r + mismatches; v_missing := v_missing r + missing;
     v_failed_lines := v_failed_lines r ++ failed |}.

Section verify.
Context {E : AuditEnv} {Os : AuditOs} (fmt : AuditFormat).

(** One turn of [verify_chain] over line number [idx], from 0. *)
Definition verify_line (idx : nat) (line : string) (st : bytes * VerifyReport) : bytes * VerifyReport :=
  let '(chain, report) := st in
  if negb (is_record fmt line) then (chain, report)
  else
    match extract_prev_hash fmt line with
    | None => (next_chain_hash chain line, tally 1 0 0 1 [S idx] report)
    | Some prev_hex =>
        let report := if String.eqb (chain_hex chain) prev_hex
                      then tally 1 1 0 0 [] report else tally 1 0 1 0 [S idx] report in
        (next_chain_hash chain (chain_hash_redacted line prev_hex), report)
    end.

Fixpoint verify_lines (idx : nat) (lines : list string) (st : bytes * VerifyReport) : bytes * VerifyReport :=
  match lines with
  | [] => st
  | line :: lines => verify_lines (S idx) lines (verify_line idx line st)
  end.

Definition verify_text (content : string) : bytes * VerifyReport :=
  verify_lines 0 (split_inclusive NL content) (ZERO_HASH, empty_report).

(** [verify_chain]; opening and reading may fail. *)
Definition verify_chain (read : option string) : result AuditError VerifyReport :=
  match read with
  | None => Err AuIo
  | Some content => Ok (snd (verify_text content))
  end.
End verify.

(** * The tracing layer of the audit log ([freally-audit/src/layer.rs])

    Events of the [tracing] bus with the target [freally::audit] become audit
    records; fields with a sensitive name are dropped before. *)

Inductive Level := LError | LWarn | LInfo | LDebug | LTrace.

(** A field reaches the visitor as a string or in its [Debug] form. *)
Inductive FieldValue := FStr (value : string) | FDebug (shown : string).

Record TracingEvent := {
  te_target : string;
  te_level : Level;
  te_fields : list (string * FieldValue)
}.

Definition sensitive_names : list string :=
  ["body"; "bytes"; "chunk"; "password"; "passphrase"; "secret"; "token"; "access_token"; "refresh_token";
   "session_token"; "api_key"; "api-key"; "apikey"; "private_key"; "privatekey"; "secret_key"; "secretkey";
   "authorization"; "auth_token"; "bearer"; "cookie"; "credential"; "credentials"; "csrf"; "csrf_token";
   "salt"; "mnemonic"; "seed"; "pin"; "pin_code"; "fingerprint"; "client_secret"; "service_account"; "p8";
   "p8_pem"; "kid"; "sas"].

Definition is_sensitive_field (name : string) : bool :=
  existsb (String.eqb (to_ascii_lowercase name)) sensitive_names.

(** [record_str] and [record_debug] *)
Definition visit (message : string) (field : string * FieldValue) : string :=
  let '(name, value) := field in
  if is_sensitive_field name then message
  else
    let shown := match value with FStr v => v | FDebug v => v end in
    if String.eqb name "message" then message +:+ shown
    else (if String.eqb message "" then message else message +:+ " ") +:+ name +:+ "=" +:+ shown.

Definition reason_of (l : Level) : string :=
  match l with LError => "error" | LWarn => "warn" | LInfo => "info" | LDebug => "debug" | LTrace => "trace" end.

Section layer.
Context {E : AuditEnv} {Os : AuditOs} (log : path) (fmt : AuditFormat) (worm : WormMode) (max_size : Z).

(** [on_event]; the result of [record] is dropped. *)
Definition on_event (hostname : string) (now : Z) (ev : TracingEvent) (s : Audit) : Audit :=
  if String.prefix "freally::audit" (te_target ev) then
    let message := fold_left visit (te_fields ev) "" in
    snd (record log fmt worm max_size (UnauthorizedAccess "" hostname message (reason_of (te_level ev)) now) s)
  else s.

Definition open_fields (fs : list (string * FieldValue)) : list (string * FieldValue) :=
  filter (fun f => is_sensitive_field f.1 = false) fs.

Lemma visit_open_fields fs message : fold_left visit fs message = fold_left visit (open_fields fs) message.
Proof.
  revert message. induction fs as [|[name value] fs IH]; intros message; [done|]. unfold open_fields in *. simpl.
  destruct (is_sensitive_field name) eqn:Hs.
  - rewrite filter_cons_False by by simpl; rewrite Hs. by rewrite IH.
  - rewrite filter_cons_True by done. cbn [fold_left]. rewrite IH. unfold visit at 3. by rewrite Hs.
Qed.

(** What a traced event leaves behind (the log, its chain, every file
    and the calls made) does not depend on its sensitive fields, neither on
    their values nor on whether they were there at all. *)
Theorem sensitive_fields_leave_no_trace hostname now ev1 ev2 s :
  te_target ev1 = te_target ev2 -> te_level ev1 = te_level ev2 ->
  open_fields (te_fields ev1) = open_fields (te_fields ev2) ->
  on_event hostname now ev1 s = on_event hostname now ev2 s.
Proof.
  intros Ht Hl Hf. unfold on_event. rewrite Ht, Hl, (visit_open_fields (te_fields ev1)), (visit_open_fields (te_fields ev2)).
  by rewrite Hf.
Qed.
End layer.
