(* ===== verification/AuditProps.v ===== *)
(** * What the audit log promises

    A sink whose calls succeed keeps a log that verifies, across restarts and
    rotations, and two accepted logs with the same last line hold the same
    records unless the digest function is broken.

    The second part is a concrete world with the witnesses, and what
    verification does not notice. *)
From S2P Require Import Prelude.
From S2P Require Import Text.
From S2P Require Import TextSearch.
From S2P Require Import Monad.
From S2P Require Import Files.
From S2P Require Import ChunkTypes.
From S2P Require Import AuditFormat.
From S2P Require Import AuditLog.
From stdpp Require Import options.
Open Scope monad_scope.

(** Digests are 32 bytes. *)
Class DigestLength {Os : AuditOs} := blake3_length x : length (blake3 x) = 32%nat.

(** ** Digests and their hex form *)

Lemma hex_encode_inj a b : hex_encode a = hex_encode b -> a = b.
Proof. intros H. apply (f_equal hex_pairs) in H. rewrite !hex_pairs_encode in H. by injection H. Qed.

Lemma hex_encode_text l : hex_text (hex_encode l) = true.
Proof.
  unfold hex_text. apply negb_true_iff. induction l as [|b l IH]; [done|]. cbn [hex_encode has_char].
  rewrite IH. by destruct b.
Qed.

Lemma chain_hex_ok c : length c = 32%nat -> is_chain_hex (chain_hex c) = true.
Proof.
  intros H. unfold is_chain_hex, chain_hex. by rewrite length_hex_encode, H, hex_encode_text.
Qed.

Lemma app_inj_length {A} (a b c d : list A) : length a = length c -> a ++ b = c ++ d -> a = c /\ b = d.
Proof. apply app_inj_1. Qed.

(** ** The log of a list of events *)

Section log_of.
Context {E : AuditEnv} {L : AuditLaws} {Os : AuditOs} {D : DigestLength} (fmt : AuditFormat).

Fixpoint lines_of (chain : bytes) (es : list AuditEvent) : list string :=
  match es with
  | [] => []
  | e :: es =>
      match format_record fmt e (chain_hex chain) with
      | Ok line => line :: lines_of (next_chain_hash chain (chain_hash_redacted line (chain_hex chain))) es
      | Err _ => lines_of chain es
      end
  end.

Fixpoint chain_after (chain : bytes) (es : list AuditEvent) : bytes :=
  match es with
  | [] => chain
  | e :: es =>
      match format_record fmt e (chain_hex chain) with
      | Ok line => chain_after (next_chain_hash chain (chain_hash_redacted line (chain_hex chain))) es
      | Err _ => chain_after chain es
      end
  end.

Definition header : string := if bool_decide (fmt = Csv) then csv_header else "".

(** What a log holds after the events [es]. *)
Definition log_text (es : list AuditEvent) : string := header +:+ String.concat "" (lines_of ZERO_HASH es).

Definition log_chain (es : list AuditEvent) : bytes := chain_after ZERO_HASH es.

Lemma chain_after_app es e chain :
  chain_after chain (es ++ [e]) =
    let c := chain_after chain es in
    match format_record fmt e (chain_hex c) with
    | Ok line => next_chain_hash c (chain_hash_redacted line (chain_hex c))
    | Err _ => c
    end.
Proof.
  revert chain. induction es as [|x es IH]; intros chain; simpl.
  - by destruct (format_record fmt e (chain_hex chain)).
  - destruct (format_record fmt x (chain_hex chain)); apply IH.
Qed.

Lemma lines_of_app es e chain :
  lines_of chain (es ++ [e]) =
    lines_of chain es ++
    match format_record fmt e (chain_hex (chain_after chain es)) with Ok line => [line] | Err _ => [] end.
Proof.
  revert chain. induction es as [|x es IH]; intros chain; simpl.
  - by destruct (format_record fmt e (chain_hex chain)).
  - destruct (format_record fmt x (chain_hex chain)); simpl; by rewrite IH.
Qed.

Lemma chain_after_length es chain : length chain = 32%nat -> length (chain_after chain es) = 32%nat.
Proof using D.
  revert chain. induction es as [|e es IH]; intros chain Hc; simpl; [done|].
  destruct (format_record fmt e (chain_hex chain)); apply IH; [apply blake3_length|done].
Qed.

Lemma log_chain_hex es : is_chain_hex (chain_hex (log_chain es)) = true.
Proof using D. by apply chain_hex_ok, chain_after_length. Qed.

Lemma log_text_snoc es e line :
  format_record fmt e (chain_hex (log_chain es)) = Ok line -> log_text (es ++ [e]) = log_text es +:+ line.
Proof.
  intros H. unfold log_text. rewrite lines_of_app. unfold log_chain in H.
  by rewrite H, concat_app, str_app_assoc.
Qed.

Lemma log_chain_snoc es e line :
  format_record fmt e (chain_hex (log_chain es)) = Ok line ->
  log_chain (es ++ [e]) = next_chain_hash (log_chain es) (chain_hash_redacted line (chain_hex (log_chain es))).
Proof. intros H. unfold log_chain in *. rewrite chain_after_app. simpl. by rewrite H. Qed.

(** *** Reading the log back *)

Definition all_clean (es : list AuditEvent) : Prop := Forall (fun e => clean fmt e = true) es.

Lemma split_lines_of es chain rest : length chain = 32%nat -> all_clean es ->
  split_inclusive NL (String.concat "" (lines_of chain es) +:+ rest) = lines_of chain es ++ split_inclusive NL rest.
Proof using L D.
  intros Hlen Hc. revert chain Hlen. induction Hc as [|e es He _ IH]; intros chain Hlen; [done|].
  simpl. destruct (record_readable fmt e (chain_hex chain)) as (body & Hf & Hb & _); [by apply chain_hex_ok|done|].
  rewrite Hf, concat_cons, !str_app_assoc. simpl. rewrite split_inclusive_line.
  - simpl. f_equal. apply IH. apply blake3_length.
  - unfold has_eol in Hb. revert Hb. apply has_char_mono. intros c. unfold is_eol.
    rewrite Ascii.eqb_sym. by intros ->.
Qed.

Lemma split_log_text es : all_clean es ->
  split_inclusive NL (log_text es) = (if bool_decide (fmt = Csv) then [csv_header] else []) ++ lines_of ZERO_HASH es.
Proof using L D.
  intros Hc. unfold log_text, header.
  pose proof (split_lines_of es ZERO_HASH "" eq_refl Hc) as Hs. rewrite str_app_nil_r, app_nil_r in Hs.
  case_bool_decide; [|exact Hs].
  change (csv_header +:+ ?x) with ("event,ts,job_id,user,host,severity,detail,prev_hash" +:+ String NL x).
  rewrite split_inclusive_line by done. by rewrite Hs.
Qed.

Lemma written_is_record e chain : length chain = 32%nat -> clean fmt e = true ->
  exists line, format_record fmt e (chain_hex chain) = Ok line /\ is_record fmt line = true /\
    extract_prev_hash fmt line = Some (chain_hex chain).
Proof using L.
  intros Hlen He. destruct (record_readable fmt e (chain_hex chain)) as (body & Hf & _ & Hb & Hcsv & Hx);
    [by apply chain_hex_ok|done|].
  exists (body +:+ str1 NL). split_and!; [done| |done]. unfold is_record. rewrite Hb. simpl.
  case_bool_decide; [|done]. simpl. by rewrite Hcsv.
Qed.

Lemma verify_lines_of es chain k r : length chain = 32%nat -> all_clean es ->
  verify_lines fmt k (lines_of chain es) (chain, r) =
    (chain_after chain es, tally (length es) (length es) 0 0 [] r).
Proof using L D.
  intros Hlen Hc. revert chain k r Hlen. induction Hc as [|e es He _ IH]; intros chain k r Hlen.
  { simpl. unfold tally. destruct r. by rewrite !Nat.add_0_r, app_nil_r. }
  destruct (written_is_record e chain Hlen He) as (line & Hf & Hr & Hx). simpl. rewrite Hf. simpl.
  rewrite Hr. simpl. rewrite Hx, String.eqb_refl. rewrite IH by apply blake3_length.
  f_equal. unfold tally. simpl. f_equal; try lia. by rewrite !app_nil_r.
Qed.

Lemma verify_log_text es : all_clean es ->
  verify_text fmt (log_text es) =
    (log_chain es, {| v_total := length es; v_matches := length es; v_mismatches := 0; v_missing := 0; v_failed_lines := [] |}).
Proof using L D.
  intros Hc. unfold verify_text. rewrite split_log_text by done.
  case_bool_decide as Hf; [|by rewrite app_nil_l, verify_lines_of].
  cbn [app verify_lines]. unfold verify_line at 1.
  assert (is_record fmt csv_header = false) as -> by (rewrite Hf; reflexivity). simpl negb. cbv iota.
  by rewrite verify_lines_of.
Qed.

Lemma resume_lines_of es chain : length chain = 32%nat -> all_clean es ->
  fold_left (resume_step fmt) (lines_of chain es) chain = chain_after chain es.
Proof using L D.
  intros Hlen Hc. revert chain Hlen. induction Hc as [|e es He _ IH]; intros chain Hlen; [done|].
  destruct (written_is_record e chain Hlen He) as (line & Hf & Hr & _). simpl. rewrite Hf. simpl.
  unfold resume_step at 2. rewrite Hr. apply IH. apply blake3_length.
Qed.

(** What a restart recovers. *)
Lemma tail_log_text es : all_clean es -> tail_chain fmt (log_text es) = log_chain es.
Proof using L D.
  intros Hc. unfold tail_chain. rewrite split_log_text by done.
  case_bool_decide as Hf; [|by apply resume_lines_of].
  cbn [app fold_left]. unfold resume_step at 2.
  assert (is_record fmt csv_header = false) as -> by (rewrite Hf; reflexivity). by apply resume_lines_of.
Qed.
End log_of.

(** ** A sink whose calls succeed *)

Inductive Action := ARecord (e : AuditEvent) | AFlush | AReopen.

Definition recorded (acts : list Action) : list AuditEvent :=
  omap (fun a => match a with ARecord e => Some e | _ => None end) acts.

Section sink.
Context {E : AuditEnv} {L : AuditLaws} {Os : AuditOs} {D : DigestLength}.
Context (log : path) (fmt : AuditFormat) (worm : WormMode) (max_size : Z).

(** One call by the owner of the sink; [AReopen] is a restart. *)
Definition act (s : Audit) (a : Action) : Audit :=
  snd (match a with
       | ARecord e => record log fmt worm max_size e s
       | AFlush => flush s
       | AReopen => open_with_rotation log fmt worm s
       end).

Definition run_sink (acts : list Action) (s : Audit) : Audit := fold_left act acts s.

Definition quiet : Prop := (forall n, fails n = false) /\ (forall n, worm_call n = None).

(** The sink's memory agrees with its file. *)
Record in_step (es : list AuditEvent) (s : Audit) : Prop := {
  is_text : a_disk s !! log = Some (log_text fmt es);
  is_chain : a_chain s = log_chain fmt es;
  is_handle : a_file s = {| h_file := log; h_offset := None |}
}.

Context (Q : quiet).

Lemma os_call_quiet s : os_call s = (Ok tt, set_tick (S (a_tick s)) s).
Proof using Q. destruct Q as [Hf _]. unfold os_call, bind, gets, modify. by rewrite Hf. Qed.

Lemma write_all_quiet t s : write_all t s = write_text t (set_tick (S (a_tick s)) s).
Proof using Q. destruct Q as [Hf _]. unfold write_all, bind, gets, modify. by rewrite Hf. Qed.

Lemma apply_worm_quiet s c : a_disk s !! log = Some c ->
  exists n, apply_worm log worm s = (Ok tt, set_tick n s).
Proof using Q.
  destruct Q as [_ Hw]. intros Hd. unfold apply_worm, bind, gets, modify, throw, ret.
  destruct worm; [exists (a_tick s); by destruct s|]. rewrite Hd, Hw. by eexists.
Qed.

Lemma write_text_append t s c : a_file s = {| h_file := log; h_offset := None |} -> a_disk s !! log = Some c ->
  write_text t s = (Ok tt, set_disk (<[log := c +:+ t]> (a_disk s)) s).
Proof.
  intros Hh Hd. unfold write_text, modify. rewrite Hh. unfold write_at, advance. simpl. rewrite Hd. simpl.
  by destruct s; simpl in *; subst.
Qed.

Lemma open_append_quiet s : exists s', open_append log s = (Ok {| h_file := log; h_offset := None |}, s') /\
  a_disk s' = (match a_disk s !! log with Some _ => a_disk s | None => <[log := ""]> (a_disk s) end).
Proof using Q.
  unfold open_append, bind. rewrite os_call_quiet. unfold modify, ret. eexists. split; [reflexivity|]. done.
Qed.

(** A fresh file gets its header. *)
Lemma write_header_quiet s : a_file s = {| h_file := log; h_offset := None |} -> a_disk s !! log = Some "" ->
  fmt = Csv -> exists s', write_header s = (Ok tt, s') /\ a_disk s' !! log = Some csv_header /\
    a_chain s' = a_chain s /\ a_file s' = a_file s.
Proof using Q.
  intros Hh Hd Hf. unfold write_header, bind. rewrite write_all_quiet.
  rewrite (write_text_append _ _ "") by done. unfold modify. eexists. split; [reflexivity|].
  simpl. by rewrite lookup_insert_eq.
Qed.

Lemma log_text_nil : log_text fmt [] = (if bool_decide (fmt = Csv) then csv_header else "").
Proof. unfold log_text, header. simpl. apply str_app_nil_r. Qed.

Lemma set_tick_in_step n es s : in_step es s -> in_step es (set_tick n s).
Proof. by intros [? ? ?]. Qed.

Lemma wp_os_call (P : result AuditError unit -> Audit -> Prop) s : P (Ok tt) (set_tick (S (a_tick s)) s) -> wp os_call P s.
Proof using Q. intros H. unfold wp. by rewrite os_call_quiet. Qed.

Lemma wp_eq {X} (m : SM Audit AuditError X) P s : wp m P s -> exists r s', m s = (r, s') /\ P r s'.
Proof. unfold wp. destruct (m s) as [r s']. by exists r, s'. Qed.

(** The log is emptied before it is renamed. *)
Lemma rename_quiet s :
  wp (move_aside log)
    (fun r s' => r = Ok tt /\ (rotated_path log <> log -> a_disk s' !! rotated_path log = Some "" /\ a_disk s' !! log = None)
       /\ (rotated_path log = log -> a_disk s' !! log = Some "")) s.
Proof using Q.
  unfold move_aside, truncate_log, remove_rotated, rename_log.
  do 2 apply wp_bind. apply wp_os_call, wp_modify. do 2 apply wp_bind. apply wp_gets, wp_bind, wp_modify, wp_modify.
  rewrite (proj1 Q). apply wp_bind, wp_os_call, wp_modify. simpl. split_and!; [done| |].
  - intros Hne. rewrite lookup_insert_eq, lookup_insert_ne, lookup_delete_eq by done.
    by rewrite lookup_delete_ne, lookup_insert_eq.
  - intros ->. by rewrite lookup_insert_eq, lookup_delete_eq.
Qed.

(** What follows the opening of a fresh file, in [open] and in [rotate]. *)
Lemma header_quiet s : a_disk s !! log = Some "" -> a_chain s = ZERO_HASH ->
  a_file s = {| h_file := log; h_offset := None |} ->
  wp (if bool_decide (fmt = Csv) then write_header else ret tt)
    (fun r s' => r = Ok tt /\ in_step [] s' /\ forall p, p <> log -> a_disk s' !! p = a_disk s !! p) s.
Proof using Q.
  intros Hd Hc Hh. case_bool_decide as Hf.
  - unfold write_header. apply wp_bind. unfold wp. rewrite write_all_quiet.
    rewrite (write_text_append _ _ "") by done. simpl. split_and!; [done| |].
    + split; [|done|done]. rewrite log_text_nil. simpl. rewrite lookup_insert_eq. by case_bool_decide.
    + intros p Hp. by rewrite lookup_insert_ne.
  - split_and!; [done| |done]. split; [rewrite log_text_nil; by case_bool_decide|done|done].
Qed.

Lemma start_fresh_quiet s : default "" (a_disk s !! log) = "" ->
  wp (start_fresh log fmt)
    (fun r s' => r = Ok tt /\ in_step [] s' /\ forall p, p <> log -> a_disk s' !! p = a_disk s !! p) s.
Proof using Q.
  intros Hd. unfold start_fresh, open_append. do 2 apply wp_bind. apply wp_os_call.
  apply wp_bind, wp_modify, wp_ret, wp_bind, wp_modify.
  eapply wp_mono; [apply header_quiet; simpl; [|done|done]|].
  - destruct (a_disk s !! log) eqn:He; simpl in *; [by subst|by rewrite lookup_insert_eq].
  - intros r s' (-> & ? & Hp). split_and!; [done..|]. intros p Hne. rewrite Hp by done. simpl.
    destruct (a_disk s !! log); [done|]. by rewrite lookup_insert_ne.
Qed.

Lemma rotate_quiet s : (max_size <= a_written s)%Z ->
  wp (rotate log fmt worm max_size)
    (fun r s' => r = Ok true /\ in_step [] s' /\
       (rotated_path log <> log -> a_disk s' !! rotated_path log = Some "")) s.
Proof using Q.
  intros Hm. unfold rotate. apply wp_bind, wp_gets. rewrite (proj2 (Z.ltb_ge _ _)) by lia.
  apply wp_bind. eapply wp_mono; [apply rename_quiet|]. intros r s1 (-> & H1 & H2). apply wp_bind.
  eapply wp_mono; [apply start_fresh_quiet|].
  - destruct (decide (rotated_path log = log)) as [He|He]; [by rewrite H2|by rewrite (proj2 (H1 He))].
  - intros r s2 (-> & Hs & Hp). unfold wp, reapply_worm.
    destruct (apply_worm_quiet s2 _ (is_text _ _ Hs)) as [n ->]. simpl.
    split_and!; [done|by apply set_tick_in_step|]. intros Hne. rewrite Hp by done. by apply H1.
Qed.

(** One record of a sink in step with its log: the log grows by its line, or
    the threshold is reached and the log starts again. *)
Lemma record_quiet es e s : in_step es s -> all_clean fmt es -> clean fmt e = true ->
  wp (record log fmt worm max_size e)
    (fun r s' => r = Ok tt /\ (in_step (es ++ [e]) s' \/
       (0 < max_size)%Z /\ in_step [] s' /\ (rotated_path log <> log -> a_disk s' !! rotated_path log = Some ""))) s.
Proof using Q L D.
  intros [Hd Hc Hh] Hes He. unfold record. apply wp_bind, wp_gets. rewrite Hc.
  destruct (written_is_record fmt e (log_chain fmt es)) as (line & Hf & _); [by apply chain_after_length|done|].
  rewrite Hf. apply wp_bind. unfold wp at 1. rewrite write_all_quiet.
  rewrite (write_text_append _ _ (log_text fmt es)) by done.
  apply wp_bind, wp_os_call, wp_bind, wp_modify, wp_bind, wp_gets.
  match goal with |- wp _ _ ?s1 => assert (Hin : in_step (es ++ [e]) s1) end.
  { split; simpl; [|symmetry; by apply log_chain_snoc|done].
    rewrite lookup_insert_eq. f_equal. symmetry. by apply log_text_snoc. }
  destruct ((0 <? max_size)%Z && _) eqn:Hm; [|by split; [|left]].
  apply andb_true_iff in Hm as [Hm1%Z.ltb_lt Hm2%Z.leb_le].
  apply wp_bind. eapply wp_mono; [by apply rotate_quiet|]. intros r s' (-> & Hs & Hr). split; [done|]. by right.
Qed.

Lemma log_text_empty es : all_clean fmt es -> log_text fmt es = "" -> es = [].
Proof using L D.
  intros Hc Ht. pose proof (verify_log_text fmt es Hc) as Hv. rewrite Ht in Hv.
  destruct es; [done|]. by injection Hv.
Qed.

Lemma open_quiet es s : all_clean fmt es ->
  a_disk s !! log = Some (log_text fmt es) \/ (es = [] /\ a_disk s !! log = None) ->
  wp (open_with_rotation log fmt worm) (fun r s' => r = Ok tt /\ in_step es s') s.
Proof using Q L D.
  intros Hc Hd. unfold open_with_rotation. apply wp_bind, wp_os_call, wp_bind.
  apply (wp_mono _ (fun r s' => exists c, r = Ok (log_chain fmt es, c) /\
           (es = [] /\ default "" (a_disk s' !! log) = "" /\ c = 0 \/
            c <> 0 /\ a_disk s' !! log = Some (log_text fmt es))%Z)).
  { unfold read_tail_state. apply wp_bind, wp_gets. simpl. destruct Hd as [Hd|[-> Hd]]; rewrite Hd.
    - apply wp_bind, wp_os_call. destruct (String.eqb_spec (log_text fmt es) "") as [He|He].
      + pose proof (log_text_empty es Hc He) as ->. apply wp_ret. exists 0%Z. split; [done|]. left.
        split_and!; [done| |done]. simpl. by rewrite Hd, He.
      + apply wp_ret. rewrite tail_log_text by done. eexists. split; [done|]. right. split; [|exact Hd].
        destruct (log_text fmt es); simpl; [done|lia].
    - apply wp_ret. exists 0%Z. split; [done|]. left. split_and!; [done| |done]. simpl. by rewrite Hd. }
  intros r s1 (c & -> & Hs1). apply wp_bind. unfold open_append. apply wp_bind, wp_os_call, wp_bind, wp_modify, wp_ret.
  apply wp_bind, wp_modify, wp_bind.
  apply (wp_mono _ (fun r s' => r = Ok tt /\ in_step es s')).
  2:{ intros r s2 (-> & Hs2). destruct (apply_worm_quiet s2 _ (is_text _ _ Hs2)) as [n Hn].
      unfold wp. rewrite Hn. split; [done|by apply set_tick_in_step]. }
  destruct Hs1 as [(-> & Hd1 & ->)|[Hc0 Hd1]].
  - eapply wp_mono; [apply header_quiet; simpl; [|done|done]|by intros r s2 (? & ? & _)].
    destruct (a_disk s1 !! log) eqn:He; simpl in *; [by subst|by rewrite lookup_insert_eq].
  - rewrite (proj2 (Z.eqb_neq _ _)) by done. apply wp_ret. split; [done|]. split; [simpl; by rewrite Hd1|done|done].
Qed.

Lemma flush_quiet es s : in_step es s -> wp flush (fun r s' => r = Ok tt /\ in_step es s') s.
Proof using Q. intros Hs. apply wp_os_call. split; [done|by apply set_tick_in_step]. Qed.

Lemma run_quiet acts : forall es s, in_step es s -> all_clean fmt es -> all_clean fmt (recorded acts) ->
  exists es', in_step es' (run_sink acts s) /\ es' `suffix_of` es ++ recorded acts /\
    ((max_size <= 0)%Z -> es' = es ++ recorded acts).
Proof using Q L D.
  induction acts as [|a acts IH]; intros es s Hs Hes Hacts.
  { exists es. unfold recorded. simpl. rewrite app_nil_r. done. }
  change (run_sink (a :: acts) s) with (run_sink acts (act s a)). destruct a as [e| |].
  - apply Forall_cons in Hacts as [He Hacts].
    assert (Hrc : recorded (ARecord e :: acts) = [e] ++ recorded acts) by done. rewrite Hrc.
    destruct (record_quiet es e s Hs Hes He) as [_ [Hs'|(Hm & Hs' & _)]].
    + destruct (IH _ _ Hs') as (es' & H1 & H2 & H3); [apply Forall_app; by repeat constructor|done|].
      exists es'. by rewrite app_assoc.
    + destruct (IH _ _ Hs') as (es' & H1 & H2 & H3); [constructor|done|].
      exists es'. split_and!; [done| |lia].
      etransitivity; [exact H2|]. apply suffix_app_r. by apply suffix_app_r.
  - destruct (flush_quiet es s Hs) as [_ Hs']. by apply IH.
  - destruct (open_quiet es s Hes) as [_ Hs']; [left; apply Hs|]. by apply IH.
Qed.

(** C24: As long as the calls of the operating system succeed and each
    recorded event is one that the format can hold on a line, whatever an audit
    sink does from the first opening of its log on (records, flushes, restarts,
    rotations) leaves a log that verifies line by line: its records are the
    last ones recorded, all of them when rotation is off, and each is reported
    as matching.  JSON lines, CEF and LEEF hold every event; CSV and syslog
    need fields without line breaks, and syslog needs in addition that neither
    the job id nor the user contains prevHash= and that the host does not
    contain the marker of the structured data.  The log does not exist at
    first, digests are 32 bytes, the JSON and CSV libraries write what they
    read on one line, and nobody else writes the log. *)
Theorem healthy_log_verifies acts s :
  a_disk s !! log = None -> all_clean fmt (recorded acts) ->
  exists kept, kept `suffix_of` recorded acts /\ ((max_size <= 0)%Z -> kept = recorded acts) /\
    verify_chain fmt (a_disk (run_sink (AReopen :: acts) s) !! log)
      = Ok {| v_total := length kept; v_matches := length kept; v_mismatches := 0; v_missing := 0;
              v_failed_lines := [] |}.
Proof using Q L D.
  intros Hd Hacts. destruct (open_quiet [] s) as [_ Hs]; [constructor|by right|].
  destruct (run_quiet acts [] (act s AReopen) Hs) as (kept & H1 & H2 & H3); [constructor|done|].
  exists kept. split_and!; [done..|]. change (run_sink (AReopen :: acts) s) with (run_sink acts (act s AReopen)).
  rewrite (is_text _ _ H1). cbn [verify_chain]. rewrite verify_log_text; [done|]. unfold all_clean in *. destruct H2 as [pre Hpre].
  simpl in Hpre. rewrite Hpre in Hacts. by apply Forall_app in Hacts as [_ ?].
Qed.

(** A rotation throws away what was recorded: both the log and its rolled
    over copy are empty after it. *)
Lemma rotation_discards_the_log s : (max_size <= a_written s)%Z -> rotated_path log <> log ->
  let s' := snd (rotate log fmt worm max_size s) in
  a_disk s' !! log = Some (header fmt) /\ a_disk s' !! rotated_path log = Some "".
Proof using E Q.
  intros Hm Hne. destruct (rotate_quiet s Hm) as (_ & Hs & Hr). simpl. split; [|by apply Hr].
  rewrite (is_text _ _ Hs), log_text_nil. reflexivity.
Qed.
End sink.

(** ** Tampering *)

Section tamper.
Context {E : AuditEnv} {Os : AuditOs} {D : DigestLength} (fmt : AuditFormat).

(** The verifier over the record lines alone. *)
Definition core (line : string) : string :=
  match extract_prev_hash fmt line with Some prev => chain_hash_redacted line prev | None => line end.

Definition chain_over (chain : bytes) (ls : list string) : bytes :=
  fold_left (fun c l => next_chain_hash c (core l)) ls chain.

(** What is digested on the way. *)
Fixpoint digested (chain : bytes) (ls : list string) : list bytes :=
  match ls with
  | [] => []
  | l :: ls => (chain ++ text (core l)) :: digested (next_chain_hash chain (core l)) ls
  end.

(** Each record carries the chain of the records before it. *)
Fixpoint chained (chain : bytes) (ls : list string) : Prop :=
  match ls with
  | [] => True
  | l :: ls => extract_prev_hash fmt l = Some (chain_hex chain) /\ chained (next_chain_hash chain (core l)) ls
  end.

Lemma verify_lines_records k ls st :
  let '(chain, r) := verify_lines fmt k ls st in
  chain = chain_over (fst st) (filter (fun l => is_record fmt l = true) ls) /\
  (v_mismatches (snd st) <= v_mismatches r)%nat /\ (v_missing (snd st) <= v_missing r)%nat /\
  (report_ok r = true -> chained (fst st) (filter (fun l => is_record fmt l = true) ls)).
Proof.
  revert k st. induction ls as [|l ls IH]; intros k [c r]; [done|]. cbn [verify_lines].
  specialize (IH (S k) (verify_line fmt k l (c, r))). unfold verify_line in *.
  destruct (is_record fmt l) eqn:Hl; simpl negb in *; cbv iota in *.
  - rewrite filter_cons_True by done. cbn [chained].
    destruct (extract_prev_hash fmt l) as [prev|] eqn:Hx;
      (match goal with |- context[verify_lines fmt (S k) ls ?st] =>
         destruct (verify_lines fmt (S k) ls st) as [chain r0]; destruct IH as (H1 & H2 & H3 & H4) end).
    + assert (Hcore : core l = chain_hash_redacted l prev) by by unfold core; rewrite Hx.
      cbn [fst snd] in *. unfold chain_over. cbn [fold_left]. rewrite Hcore.
      destruct (String.eqb_spec (chain_hex c) prev) as [->|Hne]; simpl in H2, H3; split_and!; [done|lia|lia| |done|lia|lia|].
      * intros Hok. split; [done|by apply H4].
      * unfold report_ok. intros [Hm _]%andb_true_iff. apply Nat.eqb_eq in Hm. lia.
    + assert (Hcore : core l = l) by by unfold core; rewrite Hx.
      cbn [fst snd] in *. unfold chain_over. cbn [fold_left]. rewrite Hcore. simpl in H2, H3.
      split_and!; [done|lia|lia|]. unfold report_ok. intros [_ Hm]%andb_true_iff. apply Nat.eqb_eq in Hm. lia.
  - rewrite filter_cons_False by by rewrite Hl. exact IH.
Qed.

(** Two different texts with one digest, or a text with the digest zero. *)
Definition digest_broken (xs : list bytes) : Prop :=
  (exists x y, x ∈ xs /\ y ∈ xs /\ x <> y /\ blake3 x = blake3 y) \/ (exists x, x ∈ xs /\ blake3 x = ZERO_HASH).

Lemma digest_broken_mono xs ys : xs ⊆ ys -> digest_broken xs -> digest_broken ys.
Proof. intros Hs [(x & y & ? & ? & ?)|(x & ? & ?)]; [left; exists x, y; auto|right; exists x; auto]. Qed.

Lemma chain_over_snoc c ls l : chain_over c (ls ++ [l]) = next_chain_hash (chain_over c ls) (core l).
Proof. unfold chain_over. by rewrite fold_left_app. Qed.

Lemma digested_snoc c ls l : digested c (ls ++ [l]) = digested c ls ++ [chain_over c ls ++ text (core l)].
Proof. revert c. induction ls as [|x ls IH]; intros c; [done|]. simpl. by rewrite IH. Qed.

Lemma chain_over_length c ls : length c = 32%nat -> length (chain_over c ls) = 32%nat.
Proof using D.
  intros Hc. destruct ls as [|l ls _] using rev_ind; [done|]. rewrite chain_over_snoc. apply blake3_length.
Qed.

Lemma chained_snoc c ls l : chained c (ls ++ [l]) -> chained c ls /\ extract_prev_hash fmt l = Some (chain_hex (chain_over c ls)).
Proof.
  revert c. induction ls as [|x ls IH]; intros c; simpl; [by intros [? _]|]. intros [Hx Hr].
  destruct (IH _ Hr) as [? ?]. done.
Qed.

(** One chain has one history. *)
Lemma chain_history ls1 : forall ls2, chain_over ZERO_HASH ls1 = chain_over ZERO_HASH ls2 ->
  core <$> ls1 = core <$> ls2 \/ digest_broken (digested ZERO_HASH ls1 ++ digested ZERO_HASH ls2).
Proof using D.
  induction ls1 as [|x ls1 IH] using rev_ind; intros ls2.
  - destruct ls2 as [|y ls2 _] using rev_ind; [by left|]. rewrite chain_over_snoc, digested_snoc. intros H.
    right. right. eexists. split; [|symmetry; exact H]. set_solver.
  - destruct ls2 as [|y ls2 _] using rev_ind; rewrite !chain_over_snoc, !digested_snoc; intros H.
    { right. right. eexists. split; [|exact H]. set_solver. }
    unfold next_chain_hash in H.
    destruct (decide (chain_over ZERO_HASH ls1 ++ text (core x) = chain_over ZERO_HASH ls2 ++ text (core y))) as [He|He].
    + apply app_inj_length in He as [Hc Ht]; [|by rewrite !chain_over_length]. apply text_inj in Ht.
      destruct (IH ls2 Hc) as [Hl|Hb]; [left; by rewrite !fmap_app, Hl; simpl; rewrite Ht|right].
      eapply digest_broken_mono; [|exact Hb]. set_solver.
    + right. left. eexists _, _. split_and!; [| |exact He|exact H]; set_solver.
Qed.

(** C25: Two logs that the verifier accepts and that end in the same record
    line hold the same records, line for line apart from the chain column,
    or they exhibit a broken digest function: nobody can change, drop, insert
    or reorder records before the last one without finding a collision. *)
Theorem tampering_needs_a_collision log1 log2 r1 r2 :
  verify_chain fmt (Some log1) = Ok r1 -> verify_chain fmt (Some log2) = Ok r2 ->
  report_ok r1 = true -> report_ok r2 = true ->
  last (records fmt log1) = last (records fmt log2) ->
  core <$> records fmt log1 = core <$> records fmt log2 \/
  digest_broken (digested ZERO_HASH (records fmt log1) ++ digested ZERO_HASH (records fmt log2)).
Proof using D.
  cbn [verify_chain]. intros [= <-] [= <-] Hok1 Hok2 Hlast.
  pose proof (verify_lines_records 0 (split_inclusive NL log1) (ZERO_HASH, empty_report)) as H1.
  pose proof (verify_lines_records 0 (split_inclusive NL log2) (ZERO_HASH, empty_report)) as H2.
  unfold verify_text in *. destruct (verify_lines fmt 0 (split_inclusive NL log1) _) as [c1 s1].
  destruct (verify_lines fmt 0 (split_inclusive NL log2) _) as [c2 s2]. simpl in *.
  destruct H1 as (_ & _ & _ & H1). destruct H2 as (_ & _ & _ & H2). specialize (H1 Hok1). specialize (H2 Hok2).
  fold (records fmt log1) in H1. fold (records fmt log2) in H2. revert H1 H2 Hlast.
  generalize (records fmt log1) (records fmt log2). clear -D. intros ls1 ls2.
  destruct ls1 as [|x ls1 _] using rev_ind; destruct ls2 as [|y ls2 _] using rev_ind; rewrite ?last_snoc; try done.
  - by left.
  - intros [H1 Hx1]%chained_snoc [H2 Hx2]%chained_snoc [= ->]. rewrite Hx1 in Hx2. injection Hx2 as Hh.
    apply hex_encode_inj in Hh. rewrite !fmap_app, !digested_snoc.
    destruct (chain_history ls1 ls2 Hh) as [->|Hb]; [by left|right]. eapply digest_broken_mono; [|exact Hb]. set_solver.
Qed.

(** What the verifier does not see: a log cut short at a line still passes. *)
Lemma truncation_is_not_noticed k ls l st :
  report_ok (snd (verify_lines fmt k (ls ++ [l]) st)) = true -> report_ok (snd (verify_lines fmt k ls st)) = true.
Proof.
  revert k st. induction ls as [|x ls IH]; intros k [c r]; [|apply IH]. simpl.
  destruct (is_record fmt l); simpl; [|done]. destruct (extract_prev_hash fmt l) as [prev|]; simpl.
  - destruct (String.eqb (chain_hex c) prev); simpl; unfold report_ok; simpl; rewrite !andb_true_iff, !Nat.eqb_eq; lia.
  - unfold report_ok; simpl; rewrite !andb_true_iff, !Nat.eqb_eq; lia.
Qed.
End tamper.

(** * An audit log in a concrete world

    A CSV writer and reader with quoting, a small digest, and the theorems and
    the limits of the log along runs that compute. *)

(** ** CSV *)

Definition COMMA : ascii := ",".
Definition csv_special (c : ascii) : bool := is_eol c || Ascii.eqb c COMMA || Ascii.eqb c QUOTE.

Fixpoint double_quotes (s : string) : string :=
  match s with
  | EmptyString => EmptyString
  | String c s => if Ascii.eqb c QUOTE then String QUOTE (String QUOTE (double_quotes s)) else String c (double_quotes s)
  end.

Definition csv_field (f : string) : string :=
  if has_char csv_special f then String QUOTE (double_quotes f +:+ str1 QUOTE) else f.

Definition csv_body (row : list string) : string := str_join "," (csv_field <$> row).

Inductive Mode := Start | Plain | Quoted.

Definition cons_head (c : ascii) (l : list string) : list string :=
  match l with h :: t => String c h :: t | [] => [str1 c] end.

Fixpoint csv_parse (m : Mode) (s : string) : list string :=
  match s with
  | EmptyString => [EmptyString]
  | String c s1 =>
      match m with
      | Quoted =>
          if Ascii.eqb c QUOTE then
            match s1 with
            | EmptyString => [EmptyString]
            | String d s2 =>
                if Ascii.eqb d QUOTE then cons_head QUOTE (csv_parse Quoted s2)
                else if Ascii.eqb d COMMA then EmptyString :: csv_parse Start s2
                else cons_head d (csv_parse Plain s2)
            end
          else cons_head c (csv_parse Quoted s1)
      | _ =>
          if Ascii.eqb c COMMA then EmptyString :: csv_parse Start s1
          else if Ascii.eqb c QUOTE && match m with Start => true | _ => false end then csv_parse Quoted s1
          else cons_head c (csv_parse Plain s1)
      end
  end.

Lemma csv_parse_plain f : has_char csv_special f = false ->
  csv_parse Plain f = [f] /\ forall t, csv_parse Plain (f +:+ String COMMA t) = f :: csv_parse Start t.
Proof.
  induction f as [|c f IH]; [done|]. cbn [has_char]. intros [Hc Hf]%orb_false_iff.
  destruct (IH Hf) as [IH1 IH2]. unfold csv_special in Hc.
  apply orb_false_iff in Hc as [[_ Hc]%orb_false_iff Hq]. cbn [csv_parse]. simpl (String c f +:+ _). cbn [csv_parse].
  rewrite Hc, Hq. simpl. rewrite IH1. split; [done|]. intros t. by rewrite IH2.
Qed.

Lemma csv_parse_quoted f :
  csv_parse Quoted (double_quotes f +:+ str1 QUOTE) = [f] /\
  forall t, csv_parse Quoted (double_quotes f +:+ str1 QUOTE +:+ String COMMA t) = f :: csv_parse Start t.
Proof.
  induction f as [|c f [IH1 IH2]]; [done|]. cbn [double_quotes]. unfold str1 in *.
  destruct (Ascii.eqb_spec c QUOTE) as [->|Hc]; simpl.
  - simpl in IH1. rewrite IH1. split; [done|]. intros t. specialize (IH2 t). simpl in IH2. by rewrite IH2.
  - rewrite (proj2 (Ascii.eqb_neq _ _) Hc). rewrite IH1. split; [done|]. intros t.
    specialize (IH2 t). simpl in IH2. by rewrite IH2.
Qed.

Lemma csv_parse_field f :
  csv_parse Start (csv_field f) = [f] /\
  forall t, csv_parse Start (csv_field f +:+ String COMMA t) = f :: csv_parse Start t.
Proof.
  unfold csv_field. destruct (has_char csv_special f) eqn:Hf.
  - destruct (csv_parse_quoted f) as [H1 H2]. cbn. split; [exact H1|]. intros t.
    specialize (H2 t). rewrite <- str_app_assoc in H2. exact H2.
  - destruct f as [|c f]; [done|]. destruct (csv_parse_plain _ Hf) as [H1 H2].
    assert (Hm : forall t, csv_parse Start (String c t) = csv_parse Plain (String c t)).
    { intros t. cbn [has_char] in Hf. apply orb_false_iff in Hf as [Hc _]. unfold csv_special in Hc.
      apply orb_false_iff in Hc as [_ Hq]. cbn [csv_parse]. by rewrite Hq. }
    split; [by rewrite Hm|]. intros t.
    change (String c f +:+ String COMMA t) with (String c (f +:+ String COMMA t)). rewrite Hm. apply (H2 t).
Qed.

Lemma csv_parse_body row : row <> [] -> csv_parse Start (csv_body row) = row.
Proof.
  unfold csv_body. intros Hne. destruct row as [|f row]; [done|]. clear Hne. revert f.
  induction row as [|g row IH]; intros f; [apply csv_parse_field|].
  cbn [fmap list_fmap]. rewrite str_join_cons. destruct (csv_parse_field f) as [_ H].
  specialize (H (str_join "," (csv_field <$> g :: row))). rewrite (IH g) in H. exact H.
Qed.

Lemma csv_body_one_line row : forallb (fun f => negb (has_eol f)) row = true -> has_eol (csv_body row) = false.
Proof.
  intros Hr. unfold csv_body. apply join_one_line; [done|]. apply Forall_fmap. apply Forall_forall. intros f Hf.
  rewrite forallb_forall in Hr.
  assert (Hn : has_eol f = false) by (apply negb_true_iff, Hr; by apply list_elem_of_In).
  simpl. unfold csv_field. destruct (has_char csv_special f); [|done]. unfold has_eol in *. cbn [has_char].
  rewrite has_char_app. change (is_eol QUOTE) with false. simpl. rewrite orb_false_r.
  clear -Hn. induction f as [|c f IH]; [done|]. cbn [has_char double_quotes] in *.
  apply orb_false_iff in Hn as [Hc Hf]. specialize (IH Hf). destruct (Ascii.eqb c QUOTE); cbn [has_char]; by rewrite ?Hc, IH.
Qed.

(** ** The world *)

Definition json_pair (key value : string) : string :=
  str1 QUOTE +:+ key +:+ str1 QUOTE +:+ ":" +:+ str1 QUOTE +:+ value +:+ str1 QUOTE.

#[export] Instance demo_env : AuditEnv := {
  rfc3339 := fun _ => "2026-04-24T12:00:00.000000Z";
  process_id := 4242;
  pkg_version := "1.0.0";
  csv_write := fun row => Ok (csv_body row +:+ str1 NL);
  csv_read := fun s => Some (csv_parse Start s);
  json_record := fun e sev prev =>
    Ok ("{" +:+ (json_pair "event" (signature e) +:+ "," +:+ json_pair "prev_hash" prev) +:+ "}");
  json_field := fun key line =>
    match find_after (str1 QUOTE +:+ key +:+ str1 QUOTE +:+ ":" +:+ str1 QUOTE) line with
    | Some rest => fst <$> split_once QUOTE rest
    | None => None
    end
}.

#[export] Instance demo_laws : AuditLaws.
Proof.
  split.
  - done.
  - done.
  - intros row Hne Hr. exists (csv_body row). split_and!; [done|by apply csv_body_one_line|].
    simpl. by rewrite csv_parse_body.
  - intros f g row Hf Hne Hr. eexists. unfold csv_write. simpl.
    assert (csv_field f = f) as Hff.
    { unfold csv_field. assert (has_char csv_special f = false) as ->; [|done]. revert Hf. apply has_char_mono.
      intros c. unfold csv_special, is_eol. destruct (Ascii.eqb_spec c NL) as [->|]; [done|].
      destruct (Ascii.eqb_spec c CR) as [->|]; [done|]. destruct (Ascii.eqb_spec c COMMA) as [->|]; [done|].
      by destruct (Ascii.eqb_spec c QUOTE) as [->|]. }
    unfold csv_body. cbn [fmap list_fmap]. rewrite str_join_cons, Hff, !str_app_assoc. reflexivity.
  - intros e sev prev Hp. eexists. split_and!; [reflexivity| |].
    + unfold json_pair. rewrite !has_eol_app, (hex_no_eol prev) by by apply chain_hex_text. by destruct e.
    + assert (Hq : contains_char QUOTE prev = false) by by apply hex_no_char; [apply chain_hex_text|].
      assert (Hs : forall t, fst <$> split_once QUOTE (prev +:+ String QUOTE t) = Some prev) by (intros t; by rewrite split_once_app).
      unfold json_field, demo_env, json_pair. destruct e; simpl;
        repeat (rewrite find_after_cons by reflexivity); rewrite str_app_assoc; apply (Hs "}").
Qed.

(** A 64-bit multiplicative digest, padded. *)
Definition demo_digest (b : bytes) : bytes :=
  let h := fold_left (fun h x => wrap64 (Z.lxor h (byte_val x) * 1099511628211)) b 14695981039346656037%Z in
  replicate 24 (byte_of 165) ++ ((fun k => byte_of (Z.land (Z.shiftr h (8 * k)) 255)) <$> [0; 1; 2; 3; 4; 5; 6; 7]%Z).

(** All calls succeed but those in [bad]; a failed write stores [k] bytes. *)
Definition demo_os (bad : list nat) (k : nat) : AuditOs :=
  {| blake3 := demo_digest; fails := fun n => bool_decide (n ∈ bad); stored := fun _ => k; worm_call := fun _ => None |}.

#[export] Instance good_os : AuditOs := demo_os [] 0.

#[export] Instance good_digest : @DigestLength good_os.
Proof. done. Defined.

Lemma good_quiet : quiet.
Proof. split; intros n; [|done]. by apply bool_decide_eq_false, not_elem_of_nil. Qed.

Definition demo_log : path := ["var"; "audit.log"].

Definition blank_disk : Audit :=
  {| a_disk := ∅; a_tick := 0; a_file := {| h_file := []; h_offset := None |}; a_chain := []; a_written := 0 |}.

Definition ev_start : AuditEvent := JobStarted "j-1" "copy" "C:\src" "D:\a, b" "=alice" "ws-1" 0.
Definition ev_copied : AuditEvent := FileCopied "j-1" "C:\src\x" "D:\x" "deadbeef" 1024 0.
Definition ev_done : AuditEvent := JobCompleted "j-1" "ok" 1 0 1024 12 0.

Definition demo_acts : list Action := [ARecord ev_start; AFlush; ARecord ev_copied; AReopen; ARecord ev_done].

(** ** Witnesses *)

Lemma chain_column_is_found_again_witness :
  is_chain_hex ZERO_HEX = true /\ clean Csv ev_start = true /\
  exists body, format_record Csv ev_start ZERO_HEX = Ok (body +:+ str1 NL) /\ has_eol body = false /\
    extract_prev_hash Csv (body +:+ str1 NL) = Some ZERO_HEX.
Proof.
  assert (H1 : is_chain_hex ZERO_HEX = true) by (vm_compute; reflexivity).
  assert (H2 : clean Csv ev_start = true) by (vm_compute; reflexivity).
  split; [exact H1|]. split; [exact H2|]. exact (chain_column_is_found_again Csv ev_start ZERO_HEX H1 H2).
Defined.

Lemma healthy_log_verifies_witness :
  a_disk blank_disk !! demo_log = None /\ all_clean Syslog (recorded demo_acts) /\
  exists kept, kept `suffix_of` recorded demo_acts /\ ((0 <= 0)%Z -> kept = recorded demo_acts) /\
    verify_chain Syslog (a_disk (run_sink demo_log Syslog WormOff 0 (AReopen :: demo_acts) blank_disk) !! demo_log)
      = Ok {| v_total := length kept; v_matches := length kept; v_mismatches := 0; v_missing := 0;
              v_failed_lines := [] |}.
Proof.
  assert (H1 : a_disk blank_disk !! demo_log = None) by reflexivity.
  assert (H2 : all_clean Syslog (recorded demo_acts)) by (repeat constructor; vm_compute; reflexivity).
  split; [exact H1|]. split; [exact H2|].
  exact (healthy_log_verifies demo_log Syslog WormOff 0 good_quiet demo_acts blank_disk H1 H2).
Defined.

(** The same records with and without the CSV header. *)
Definition with_header : string := log_text Csv [ev_start; ev_copied].
Definition without_header : string := String.concat "" (lines_of Csv ZERO_HASH [ev_start; ev_copied]).

Lemma tampering_needs_a_collision_witness :
  report_ok (verify_text Csv with_header).2 = true /\ report_ok (verify_text Csv without_header).2 = true /\
  (core Csv <$> records Csv with_header = core Csv <$> records Csv without_header \/
   digest_broken (digested Csv ZERO_HASH (records Csv with_header) ++ digested Csv ZERO_HASH (records Csv without_header))).
Proof.
  assert (H1 : report_ok (verify_text Csv with_header).2 = true) by (vm_compute; reflexivity).
  assert (H2 : report_ok (verify_text Csv without_header).2 = true) by (vm_compute; reflexivity).
  assert (H3 : last (records Csv with_header) = last (records Csv without_header)) by (vm_compute; reflexivity).
  split; [exact H1|]. split; [exact H2|].
  exact (tampering_needs_a_collision Csv with_header without_header _ _ eq_refl eq_refl H1 H2 H3).
Defined.

Definition traced (fields : list (string * FieldValue)) : TracingEvent :=
  {| te_target := "freally::audit"; te_level := LWarn; te_fields := fields |}.

Lemma sensitive_fields_leave_no_trace_witness :
  on_event demo_log JsonLines WormOff 0 "ws-1" 7 (traced [("message", FDebug "denied"); ("Token", FStr "abc")]) blank_disk
  = on_event demo_log JsonLines WormOff 0 "ws-1" 7 (traced [("password", FStr "x"); ("message", FDebug "denied")]) blank_disk.
Proof. apply sensitive_fields_leave_no_trace; reflexivity. Defined.

(** ** What the log does not promise *)

Definition verdict (fmt : AuditFormat) (s : Audit) : option bool :=
  match verify_chain fmt (a_disk s !! demo_log) with Ok r => Some (report_ok r) | Err _ => None end.

(** A line break in a path splits the record: the log that the sink itself
    wrote does not verify. *)
Lemma line_break_breaks_the_log :
  let ev := FileFailed "j-1" ("/home/a" +:+ str1 NL +:+ "b") "err-io" "gone" 0 in
  verdict Syslog (run_sink demo_log Syslog WormOff 0 [AReopen; ARecord ev; ARecord ev_done] blank_disk) = Some false /\
  verdict Csv (run_sink demo_log Csv WormOff 0 [AReopen; ARecord ev; ARecord ev_done] blank_disk) = Some false.
Proof. vm_compute. split; reflexivity. Qed.

(** A user name that ends like the chain parameter hides it. *)
Lemma user_name_hides_the_chain :
  verdict Syslog (run_sink demo_log Syslog WormOff 0 [AReopen; ARecord (LoginEvent "prevHash=" "ws-1" 0)] blank_disk)
  = Some false.
Proof. vm_compute. reflexivity. Qed.

(** A write that fails half-way leaves a torn line behind, which the next
    record completes: from then on the log does not verify. *)
Lemma torn_record_breaks_the_log :
  let acts := [AReopen; ARecord ev_start; AReopen; ARecord ev_done] in
  verdict JsonLines (@run_sink demo_env (demo_os [2%nat] 10) demo_log JsonLines WormOff 0 acts blank_disk) = Some false /\
  verdict JsonLines (run_sink demo_log JsonLines WormOff 0 acts blank_disk) = Some true.
Proof. vm_compute. split; reflexivity. Qed.

(** In a syslog line the parameters of the event follow the chain column, so
    the last place that shows the previous digest may be a field of the event. *)
Lemma redaction_hits_a_field :
  match format_record Syslog (FileFailed "j-1" ZERO_HEX "err-io" "gone" 0) (chain_hex (demo_digest [])) with
  | Ok line =>
      match format_record Syslog (FileFailed "j-1" (chain_hex (demo_digest [])) "err-io" "gone" 0) (chain_hex (demo_digest [])) with
      | Ok line' => contains_str ("prevHash=" +:+ quoted (chain_hex (demo_digest []))) (chain_hash_redacted line' (chain_hex (demo_digest [])))
                    && negb (contains_str ("prevHash=" +:+ quoted (chain_hex (demo_digest []))) (chain_hash_redacted line (chain_hex (demo_digest []))))
      | Err _ => false
      end
  | Err _ => false
  end = true.
Proof. vm_compute. reflexivity. Qed.

(** A rotation of this log: two records in, the rolled over copy is empty. *)
Lemma rotated_log_is_lost :
  let s := run_sink demo_log JsonLines WormOff 200 [AReopen; ARecord ev_start; ARecord ev_copied] blank_disk in
  a_disk s !! rotated_path demo_log = Some "" /\ a_disk s !! demo_log = Some "".
Proof. vm_compute. split; reflexivity. Qed.
