(* ===== verification/Schedule.v ===== *)
(** * Bandwidth schedules ([freally-shape/src/schedule.rs])

    The parser of rclone-style schedules, the lookup of the rate for a moment,
    and a reference definition of what a schedule means. *)
From S2P Require Import Prelude.
From S2P Require Import Text.
From S2P Require Import TextSearch.
From stdpp Require Import options.
Open Scope Z_scope.

(** [ByteRate] in bytes per second; no rate is unlimited. *)
Abbreviation Limit := (option Z) (only parsing).

Inductive ScheduleError :=
| MissingComma (token : string)
| InvalidKey (key : string)
| InvalidRate (rate : string)
| TimeOutOfRange (time : string)
| UnknownDay (day : string).

(** A set of weekdays, bit 0 for Monday. *)
Abbreviation DayMask := Z (only parsing).
Definition all_days : DayMask := 127.
Definition mask_contains (m : DayMask) (day : Z) : bool := negb (Z.land m (Z.shiftl 1 day) =? 0).

Record TimeWindow := { start_minute_of_day : Z; end_minute_of_day : Z }.
Definition FULL_DAY : TimeWindow := {| start_minute_of_day := 0; end_minute_of_day := 1440 |}.
Definition window_contains (w : TimeWindow) (minute : Z) : bool :=
  (start_minute_of_day w <=? minute) && (minute <? end_minute_of_day w).

Record ScheduleRule := { day_mask : DayMask; time_window : TimeWindow; r_limit : Limit; is_day_range : bool }.
Abbreviation Schedule := (list ScheduleRule) (only parsing).

(** ** Parsing *)

Definition parse_weekday (s : string) : result ScheduleError Z :=
  let l := to_ascii_lowercase s in
  let among := existsb (String.eqb l) in
  if among ["mon"; "monday"] then Ok 0
  else if among ["tue"; "tues"; "tuesday"] then Ok 1
  else if among ["wed"; "weds"; "wednesday"] then Ok 2
  else if among ["thu"; "thur"; "thurs"; "thursday"] then Ok 3
  else if among ["fri"; "friday"] then Ok 4
  else if among ["sat"; "saturday"] then Ok 5
  else if among ["sun"; "sunday"] then Ok 6
  else Err (UnknownDay s).

Definition parse_hh_mm (key : string) : result ScheduleError (option Z) :=
  match split_once ":" key with
  | None => Ok None
  | Some (hh, mm) =>
      match parse_u32 hh, parse_u32 mm with
      | Some h, Some m =>
          if (24 <=? h) || (60 <=? m) then Err (TimeOutOfRange key) else Ok (Some (h * 60 + m))
      | _, _ => Err (InvalidKey key)
      end
  end.

(** The loop over the days of a range, with at most one turn per day. *)
Fixpoint mask_loop (fuel : nat) (first last i : Z) (mask : DayMask) : DayMask :=
  match fuel with
  | O => mask
  | S k =>
      let mask := Z.lor mask (Z.shiftl 1 i) in
      if i =? last then mask
      else
        let i := (i + 1) mod 7 in
        if i =? first then mask else mask_loop k first last i mask
  end.

Definition day_range (first last : Z) : DayMask := mask_loop 7 first last first 0.

Definition parse_day_range (key : string) : result ScheduleError (option DayMask) :=
  match split_once "-" key with
  | Some (a, b) =>
      let? first := parse_weekday a in
      let? last := parse_weekday b in
      Ok (Some (day_range first last))
  | None =>
      match parse_weekday key with
      | Ok d => Ok (Some (Z.shiftl 1 d))
      | Err _ => Ok None
      end
  end.

(** The text before the last byte, and that byte. *)
Fixpoint unsnoc (s : string) : option (string * ascii) :=
  match s with
  | EmptyString => None
  | String a s' => match unsnoc s' with Some (l, c) => Some (String a l, c) | None => Some (EmptyString, a) end
  end.

Definition rate_suffix (lower : string) : string * Z :=
  match unsnoc lower with
  | Some (num, c) =>
      if Ascii.eqb c "k" then (num, 1024)
      else if Ascii.eqb c "m" then (num, 1024 * 1024)
      else if Ascii.eqb c "g" then (num, 1024 * 1024 * 1024)
      else if Ascii.eqb c "t" then (num, 1024 * 1024 * 1024 * 1024)
      else (lower, 1)
  | None => (lower, 1)
  end.

Definition parse_rate (rate : string) : result ScheduleError Limit :=
  let lower := to_ascii_lowercase rate in
  if existsb (String.eqb lower) ["unlimited"; "inf"; "infinite"; ""] then Ok None
  else if existsb (String.eqb lower) ["off"; "0"] then Ok (Some 0)
  else
    let '(num, mult) := rate_suffix lower in
    match parse_u64 num with
    | Some n => Ok (Some (sat_mul64 n mult))
    | None => Err (InvalidRate rate)
    end.

(** What the tokens say, in the order of the text. *)
Record Spec := { boundaries : list (Z * Limit); day_rules : list (DayMask * Limit) }.
Definition empty_spec : Spec := {| boundaries := []; day_rules := [] |}.

Fixpoint parse_tokens (tokens : list string) (acc : Spec) : result ScheduleError Spec :=
  match tokens with
  | [] => Ok acc
  | token :: tokens =>
      match split_once "," token with
      | None => Err (MissingComma token)
      | Some (key, val) =>
          let? lim := parse_rate (trim val) in
          let key := trim key in
          let? minute := parse_hh_mm key in
          match minute with
          | Some m => parse_tokens tokens {| boundaries := boundaries acc ++ [(m, lim)]; day_rules := day_rules acc |}
          | None =>
              let? mask := parse_day_range key in
              match mask with
              | Some d => parse_tokens tokens {| boundaries := boundaries acc; day_rules := day_rules acc ++ [(d, lim)] |}
              | None => Err (InvalidKey key)
              end
          end
      end
  end.

(** Each boundary opens a window that ends at the next one. *)
Fixpoint pair_windows (bs : list (Z * Limit)) : list ScheduleRule :=
  match bs with
  | [] => []
  | (start, lim) :: rest =>
      {| day_mask := all_days;
         time_window := {| start_minute_of_day := start;
                           end_minute_of_day := match rest with (s, _) :: _ => s | [] => 1440 end |};
         r_limit := lim; is_day_range := false |} :: pair_windows rest
  end.

Definition day_rule (d : DayMask * Limit) : ScheduleRule :=
  {| day_mask := d.1; time_window := FULL_DAY; r_limit := d.2; is_day_range := true |}.

Definition rules_of (sp : Spec) : Schedule :=
  (day_rule <$> day_rules sp) ++ pair_windows (sort_by (fun a b => a.1 <=? b.1) (boundaries sp)).

Definition parse (spec : string) : result ScheduleError Schedule :=
  let? sp := parse_tokens (split_whitespace spec) empty_spec in
  Ok (rules_of sp).

(** ** Looking up *)

Fixpoint first_rule (p : ScheduleRule -> bool) (rules : Schedule) : option ScheduleRule :=
  match rules with
  | [] => None
  | r :: rules => if p r then Some r else first_rule p rules
  end.

(** [current_limit], for a weekday from Monday and a minute of the day. *)
Definition current_limit (rules : Schedule) (weekday minute : Z) : Limit :=
  match first_rule (fun r => is_day_range r && mask_contains (day_mask r) weekday) rules with
  | Some r => r_limit r
  | None =>
      match first_rule (fun r => negb (is_day_range r) && mask_contains (day_mask r) weekday
                                 && window_contains (time_window r) minute) rules with
      | Some r => r_limit r
      | None => None
      end
  end.

(** ** What a schedule means *)

(** The boundary in force: among those not after [minute] the latest, and of
    several at the same minute the last in the text. *)
Fixpoint in_force (minute : Z) (best : option (Z * Limit)) (bs : list (Z * Limit)) : option (Z * Limit) :=
  match bs with
  | [] => best
  | b :: bs =>
      in_force minute
        (if (b.1 <=? minute) && match best with Some c => c.1 <=? b.1 | None => true end then Some b else best) bs
  end.

Definition meaning (sp : Spec) (weekday minute : Z) : Limit :=
  match filter (fun d => mask_contains d.1 weekday = true) (day_rules sp) with
  | d :: _ => d.2
  | [] => match in_force minute None (boundaries sp) with Some b => b.2 | None => None end
  end.

(** ** Parsed schedules are in range *)

Lemma parse_hh_mm_range key m : parse_hh_mm key = Ok (Some m) -> 0 <= m < 1440.
Proof.
  unfold parse_hh_mm. destruct (split_once ":" key) as [[hh mm]|]; [|done].
  destruct (parse_u32 hh) as [h|] eqn:Hh; [|done]. destruct (parse_u32 mm) as [n|] eqn:Hn; [|done].
  apply parse_uint_bound in Hh; [|done]. apply parse_uint_bound in Hn; [|done].
  destruct (Z.leb_spec 24 h); [done|]. destruct (Z.leb_spec 60 n); [done|]. simpl. intros [= <-]. lia.
Qed.

Lemma parse_weekday_range s d : parse_weekday s = Ok d -> d ∈ [0; 1; 2; 3; 4; 5; 6].
Proof.
  unfold parse_weekday. repeat (case_match; [intros [= <-]; set_solver|]). done.
Qed.

Definition week : list Z := [0; 1; 2; 3; 4; 5; 6].

(** A range covers the days from its first to its last, around the week. *)
Lemma day_range_exact first last day : first ∈ week -> last ∈ week -> day ∈ week ->
  mask_contains (day_range first last) day = ((day - first) mod 7 <=? (last - first) mod 7).
Proof.
  intros Hf Hl Hd.
  assert (H : forallb (fun f => forallb (fun l => forallb (fun d =>
      Bool.eqb (mask_contains (day_range f l) d) ((d - f) mod 7 <=? (l - f) mod 7)) week) week) week = true) by (vm_compute; reflexivity).
  rewrite forallb_forall in H. specialize (H first ltac:(by apply list_elem_of_In)).
  rewrite forallb_forall in H. specialize (H last ltac:(by apply list_elem_of_In)).
  rewrite forallb_forall in H. specialize (H day ltac:(by apply list_elem_of_In)). by apply Bool.eqb_prop.
Qed.

(** ** The windows *)

Definition before (a b : Z * Limit) : bool := a.1 <=? b.1.

Lemma in_force_swap minute best x y l : y.1 < x.1 ->
  in_force minute best (y :: x :: l) = in_force minute best (x :: y :: l).
Proof.
  intros Hyx. cbn [in_force]. f_equal.
  destruct best as [c|]; repeat (match goal with |- context[Z.leb ?a ?b] => destruct (Z.leb_spec a b) end; simpl); (done || lia).
Qed.

Lemma in_force_insert minute x l : forall best, in_force minute best (sort_insert before x l) = in_force minute best (x :: l).
Proof.
  induction l as [|y l IH]; intros best; [done|]. cbn [sort_insert]. unfold before at 1.
  destruct (Z.leb_spec x.1 y.1); [done|]. rewrite <- in_force_swap by done.
  change (in_force minute best (y :: ?t)) with (in_force minute best (y :: t)). cbn [in_force]. by rewrite IH.
Qed.

Lemma in_force_sort minute l : forall best, in_force minute best (sort_by before l) = in_force minute best l.
Proof.
  induction l as [|x l IH]; intros best; [done|]. cbn [sort_by]. rewrite in_force_insert. cbn [in_force]. by rewrite IH.
Qed.

(** Later boundaries do not count. *)
Lemma in_force_later minute best l : Forall (fun b => minute < b.1) l -> in_force minute best l = best.
Proof.
  induction 1 as [|b l Hb _ IH]; [done|]. cbn [in_force]. by rewrite (proj2 (Z.leb_gt _ _)) by lia.
Qed.

Definition covers (weekday minute : Z) (r : ScheduleRule) : bool :=
  negb (is_day_range r) && mask_contains (day_mask r) weekday && window_contains (time_window r) minute.

Lemma all_days_contains weekday : weekday ∈ week -> mask_contains all_days weekday = true.
Proof.
  intros H. assert (Hf : forallb (mask_contains all_days) week = true) by (vm_compute; reflexivity).
  rewrite forallb_forall in Hf. apply Hf. by apply list_elem_of_In.
Qed.

Lemma no_window_before weekday minute bs :
  Forall (fun b => minute < b.1) bs -> first_rule (covers weekday minute) (pair_windows bs) = None.
Proof.
  induction 1 as [|[s lim] rest Hb _ IH]; [done|]. cbn [pair_windows first_rule]. rewrite IH.
  unfold covers, window_contains. simpl in *. rewrite (proj2 (Z.leb_gt _ _)) by done. by rewrite andb_false_r.
Qed.

(** In sorted boundaries the first window around a minute is the one of the
    boundary in force. *)
Lemma windows_in_force weekday minute bs : weekday ∈ week -> minute < 1440 ->
  StronglySorted (fun a b => before a b = true) bs -> forall best, Forall (fun b => match best with Some c => c.1 <= b.1 | None => True end) bs ->
  match first_rule (covers weekday minute) (pair_windows bs) with
  | Some r => exists b, in_force minute best bs = Some b /\ b.2 = r_limit r
  | None => Forall (fun b => minute < b.1) bs
  end.
Proof.
  intros Hw Hm Hs. induction Hs as [|[s lim] rest Hs IH Hall]; intros best Hbest; [constructor|].
  cbn [pair_windows first_rule]. unfold covers at 1. simpl. rewrite (all_days_contains _ Hw). simpl.
  assert (Hlater : minute < s -> Forall (fun b : Z * Limit => minute < b.1) rest).
  { intros Hlt. eapply Forall_impl; [exact Hall|]. unfold before. simpl. intros b Hb%Z.leb_le. lia. }
  assert (Hstep : (match best with Some c => c.1 <=? s | None => true end) = true).
  { apply Forall_cons in Hbest as [Hb _]. simpl in Hb. destruct best as [c|]; [|done]. by apply Z.leb_le. }
  assert (Hrest : Forall (fun b : Z * Limit => s <= b.1) rest).
  { eapply Forall_impl; [exact Hall|]. unfold before. simpl. by intros b Hb%Z.leb_le. }
  specialize (IH (Some (s, lim)) Hrest). unfold window_contains. simpl.
  destruct (Z.leb_spec s minute) as [Hle|Hgt]; simpl; [|rewrite no_window_before by auto; constructor; auto].
  destruct (minute <? match rest with [] => 1440 | (s2, _) :: _ => s2 end) eqn:Hend.
  - rewrite Hstep. exists (s, lim). split; [|done]. apply in_force_later.
    destruct rest as [|[s2 l2] rest]; [constructor|]. apply Z.ltb_lt in Hend. constructor; [done|].
    apply StronglySorted_inv in Hs as [_ Hs]. eapply Forall_impl; [exact Hs|].
    unfold before. simpl. intros b Hb%Z.leb_le. lia.
  - apply Z.ltb_ge in Hend. destruct rest as [|[s2 l2] rest]; [lia|].
    destruct (first_rule _ _) as [r|]; [by rewrite Hstep|].
    apply Forall_cons in IH as [IH _]. simpl in IH. lia.
Qed.

Lemma first_rule_app p l1 l2 :
  first_rule p (l1 ++ l2) = match first_rule p l1 with Some r => Some r | None => first_rule p l2 end.
Proof. induction l1 as [|r l1 IH]; simpl; [done|]. by destruct (p r). Qed.

Lemma first_rule_none p l : Forall (fun r => p r = false) l -> first_rule p l = None.
Proof. induction 1 as [|r l Hr _ IH]; simpl; [done|]. by rewrite Hr. Qed.

Lemma first_day weekday dr :
  first_rule (fun r => is_day_range r && mask_contains (day_mask r) weekday) (day_rule <$> dr) =
  day_rule <$> head (filter (fun d => mask_contains d.1 weekday = true) dr).
Proof.
  induction dr as [|d dr IH]; [done|]. cbn [fmap list_fmap first_rule]. simpl.
  destruct (mask_contains d.1 weekday) eqn:Hd.
  - by rewrite filter_cons_True.
  - by rewrite filter_cons_False by by rewrite Hd.
Qed.

Lemma windows_are_boundaries bs : Forall (fun r => is_day_range r = false) (pair_windows bs).
Proof. induction bs as [|[s l] bs IH]; constructor; done. Qed.

Lemma lookup_rules sp weekday minute : weekday ∈ week -> minute < 1440 ->
  current_limit (rules_of sp) weekday minute = meaning sp weekday minute.
Proof.
  intros Hw Hm. unfold current_limit, meaning, rules_of. rewrite !first_rule_app, first_day.
  destruct (filter _ (day_rules sp)) as [|d ds]; [|done]. simpl.
  rewrite first_rule_none.
  2:{ eapply Forall_impl; [apply windows_are_boundaries|]. intros r Hr. by rewrite Hr. }
  rewrite first_rule_none by (apply Forall_fmap, Forall_true; done).
  change (fun r => negb (is_day_range r) && mask_contains (day_mask r) weekday && window_contains (time_window r) minute)
    with (covers weekday minute). change (fun a b : Z * option Z => a.1 <=? b.1) with before.
  rewrite <- (in_force_sort minute (boundaries sp)).
  pose proof (windows_in_force weekday minute (sort_by before (boundaries sp)) Hw Hm) as H.
  specialize (H ltac:(apply sort_by_sorted; unfold before; intros; [rewrite Z.leb_le in *; lia|rewrite !Z.leb_le; lia]) None).
  specialize (H ltac:(by apply Forall_true)).
  destruct (first_rule _ _) as [r|]; [destruct H as (b & -> & ->); done|]. by rewrite in_force_later.
Qed.

(** C37: The rate a parsed schedule gives for a moment is the one its text
    means: of the day rules that cover the weekday the first decides, and
    without one the latest boundary that is not after the minute, the last in
    the text when several share a minute, or nothing before the first one. *)
Theorem schedule_lookup_is_its_meaning spec rules : parse spec = Ok rules ->
  exists sp, parse_tokens (split_whitespace spec) empty_spec = Ok sp /\
    forall weekday minute, weekday ∈ week -> 0 <= minute < 1440 ->
      current_limit rules weekday minute = meaning sp weekday minute.
Proof.
  intros (sp & Hsp & [= <-])%result_bind_Ok. exists sp. split; [done|].
  intros weekday minute Hw [_ Hm]. by apply lookup_rules.
Qed.

Definition example_text : string := "08:00,512k 12:00,off 13:00,512k 18:00,10M Sat-Sun,unlimited".

Lemma schedule_lookup_is_its_meaning_witness :
  exists rules, parse example_text = Ok rules /\
    current_limit rules 1 (9 * 60) = Some (512 * 1024) /\ current_limit rules 1 (12 * 60 + 30) = Some 0 /\
    current_limit rules 5 (13 * 60) = None /\
    exists sp, parse_tokens (split_whitespace example_text) empty_spec = Ok sp /\
      forall weekday minute, weekday ∈ week -> 0 <= minute < 1440 ->
        current_limit rules weekday minute = meaning sp weekday minute.
Proof.
  exists (match parse example_text with Ok r => r | Err _ => [] end).
  assert (H : parse example_text = Ok (match parse example_text with Ok r => r | Err _ => [] end)) by (vm_compute; reflexivity).
  split; [exact H|]. split; [vm_compute; reflexivity|]. split; [vm_compute; reflexivity|]. split; [vm_compute; reflexivity|].
  exact (schedule_lookup_is_its_meaning example_text _ H).
Defined.
