(* ===== verification/BackupSchedule.v ===== *)
(** * Backup schedules ([freally-shape/src/backup_schedule.rs])

    The grammar of per-source schedules and the evaluator of the daemon: when
    a schedule fires next and whether it is due.  The time zone is a parameter
    that maps instants to wall-clock readings and back. *)
From S2P Require Import Prelude.
From S2P Require Import Text.
From S2P Require Import TextSearch.
From stdpp Require Import pretty options.
Open Scope Z_scope.

Inductive BackupSchedule := Manual | Hourly | Daily | Weekly | Cron (minute hour : Z).

#[export] Instance BackupSchedule_eq_dec : EqDecision BackupSchedule.
Proof. solve_decision. Defined.

Inductive BackupScheduleError := UnsupportedCron (spec : string).

#[export] Instance parsed_eq_dec : EqDecision (result BackupScheduleError BackupSchedule).
Proof. intros [a|[a]] [b|[b]]; unfold Decision; [destruct (decide (a = b))|..|destruct (decide (a = b))]; subst; by (left + right; congruence). Defined.

Definition ANCHOR_HOUR : Z := 3.

(** ** The grammar *)

Definition parse_cron (spec : string) : result BackupScheduleError BackupSchedule :=
  match split_whitespace spec with
  | [mi; ho; dom; mon; dow] =>
      if negb (String.eqb dom "*") || negb (String.eqb mon "*") || negb (String.eqb dow "*")
      then Err (UnsupportedCron spec)
      else
        match parse_u32 mi, parse_u32 ho with
        | Some minute, Some hour =>
            if (59 <? minute) || (23 <? hour) then Err (UnsupportedCron spec) else Ok (Cron minute hour)
        | _, _ => Err (UnsupportedCron spec)
        end
  | _ => Err (UnsupportedCron spec)
  end.

Definition parse (spec : string) : result BackupScheduleError BackupSchedule :=
  if has_control_except (Ascii.eqb TAB) spec then Err (UnsupportedCron spec)
  else
    let t := trim spec in
    if String.eqb t "" || String.eqb t "manual" then Ok Manual
    else if String.eqb t "@hourly" then Ok Hourly
    else if String.eqb t "@daily" then Ok Daily
    else if String.eqb t "@weekly" then Ok Weekly
    else parse_cron t.

Definition as_spec (s : BackupSchedule) : string :=
  match s with
  | Manual => ""
  | Hourly => "@hourly"
  | Daily => "@daily"
  | Weekly => "@weekly"
  | Cron minute hour => pretty (Z.to_N minute) +:+ " " +:+ pretty (Z.to_N hour) +:+ " * * *"
  end.

(** The schedules the parser gives. *)
Definition valid (s : BackupSchedule) : Prop :=
  match s with Cron minute hour => 0 <= minute <= 59 /\ 0 <= hour <= 23 | _ => True end.

(** ** The evaluator

    Instants and wall-clock readings are nanoseconds since the epoch; a day of
    the calendar is a number of days, 1970-01-01 being day 0, a Thursday. *)
Definition SECOND : Z := 1000000000.
Definition MINUTE : Z := 60 * SECOND.
Definition HOUR : Z := 60 * MINUTE.
Definition DAY : Z := 24 * HOUR.
Definition MILLI : Z := 1000000.

(** [MappedLocalTime] *)
Inductive Mapped := Gone | Single (t : Z) | Ambiguous (earliest latest : Z).

(** The local time zone, and the current time for the last resort of
    [local_at]; [in_range] holds for the milliseconds chrono can represent. *)
Class Zone := {
  to_local : Z -> Z;
  from_local : Z -> Mapped;
  local_now : Z;
  in_range : Z -> bool
}.

Definition earliest (m : Mapped) : option Z :=
  match m with Gone => None | Single t => Some t | Ambiguous t _ => Some t end.
Definition single (m : Mapped) : option Z := match m with Single t => Some t | _ => None end.

Section evaluator.
Context {Zn : Zone}.

Definition date_of (t : Z) : Z := to_local t / DAY.
Definition time_of (t : Z) : Z := to_local t mod DAY.
(** [weekday().num_days_from_sunday()] *)
Definition days_from_sunday (t : Z) : Z := (date_of t + 4) mod 7.

(** [local_at]: the earliest instant with this reading, or past the gap. *)
Definition local_at (date hour minute : Z) : Z :=
  let naive := date * DAY + hour * HOUR + minute * MINUTE in
  match earliest (from_local naive) with
  | Some t => t
  | None => match earliest (from_local (naive + HOUR)) with Some t => t | None => local_now end
  end.

Definition next_daily (t hour minute : Z) : Z :=
  let today := local_at (date_of t) hour minute in
  if t <=? today then today else local_at (date_of t + 1) hour minute.

Definition next_weekly_sunday (t hour minute : Z) : Z :=
  let days_to_sunday := (7 - days_from_sunday t) mod 7 in
  let date := date_of t + days_to_sunday in
  let candidate := local_at date hour minute in
  if t <=? candidate then candidate else local_at (date + 7) hour minute.

(** [with_minute(0)], [with_second(0)] and [with_nanosecond(0)]: each maps the
    wall clock and gives up unless the result is unambiguous. *)
Definition with_local (f : Z -> Z) (t : Z) : option Z := single (from_local (f (to_local t))).
Definition zero_minute (n : Z) : Z := n - (n mod HOUR / MINUTE) * MINUTE.
Definition zero_second (n : Z) : Z := n - (n mod MINUTE / SECOND) * SECOND.
Definition zero_nanosecond (n : Z) : Z := n - n mod SECOND.

Definition next_fire_at_or_after (s : BackupSchedule) (t : Z) : option Z :=
  match s with
  | Manual => None
  | Hourly =>
      match with_local zero_minute t with
      | None => None
      | Some t1 =>
          match with_local zero_second t1 with
          | None => None
          | Some t2 =>
              match with_local zero_nanosecond t2 with
              | None => None
              | Some trunc => Some (if t <=? trunc then trunc else trunc + HOUR)
              end
          end
      end
  | Daily => Some (next_daily t ANCHOR_HOUR 0)
  | Weekly => Some (next_weekly_sunday t ANCHOR_HOUR 0)
  | Cron minute hour => Some (next_daily t hour minute)
  end.

Definition is_due (s : BackupSchedule) (last_run_ms now : Z) : bool :=
  if bool_decide (s = Manual) then false
  else if negb (in_range last_run_ms) then false
  else
    match next_fire_at_or_after s (last_run_ms * MILLI + MILLI) with
    | Some next => next <=? now
    | None => false
    end.

(** [next_after], in milliseconds. *)
Definition next_after (s : BackupSchedule) (now : Z) : option Z :=
  match next_fire_at_or_after s now with Some t => Some (t / MILLI) | None => None end.

(** ** When a schedule fires *)

(** The wall clock reads one of the schedule's times. *)
Definition fires (s : BackupSchedule) (t : Z) : Prop :=
  match s with
  | Manual => False
  | Hourly => to_local t mod HOUR = 0
  | Daily => time_of t = ANCHOR_HOUR * HOUR
  | Weekly => time_of t = ANCHOR_HOUR * HOUR /\ days_from_sunday t = 0
  | Cron minute hour => time_of t = hour * HOUR + minute * MINUTE
  end.

(** A zone without changes of its offset. *)
Definition constant_offset (off : Z) : Prop :=
  (forall t, to_local t = t + off) /\ (forall n, from_local n = Single (n - off)).

Context (off : Z) (Hzone : constant_offset off).

Lemma local_at_eq date hour minute : local_at date hour minute = date * DAY + hour * HOUR + minute * MINUTE - off.
Proof using Hzone. unfold local_at. destruct Hzone as [_ H]. by rewrite H. Qed.

Lemma day_split t : to_local t = date_of t * DAY + time_of t /\ 0 <= time_of t < DAY.
Proof.
  unfold date_of, time_of. pose proof (Z.div_mod (to_local t) DAY). pose proof (Z.mod_pos_bound (to_local t) DAY).
  unfold DAY, HOUR, MINUTE, SECOND in *. lia.
Qed.

(** A day and a time of day determine the reading. *)
Lemma day_unique d x d' x' : 0 <= x < DAY -> 0 <= x' < DAY -> d * DAY + x <= d' * DAY + x' -> d <= d'.
Proof. unfold DAY, HOUR, MINUTE, SECOND. lia. Qed.

Lemma next_daily_first t hour minute : 0 <= hour <= 23 -> 0 <= minute <= 59 ->
  let f := next_daily t hour minute in
  t <= f /\ time_of f = hour * HOUR + minute * MINUTE /\
  forall g, t <= g -> time_of g = hour * HOUR + minute * MINUTE -> f <= g.
Proof using Hzone.
  intros Hh Hm. unfold next_daily. rewrite !local_at_eq.
  destruct (day_split t) as [Ht Hr]. destruct Hzone as [Hl _].
  assert (Hx : 0 <= hour * HOUR + minute * MINUTE < DAY) by (unfold DAY, HOUR, MINUTE, SECOND; lia).
  set (x := hour * HOUR + minute * MINUTE) in *. set (d := date_of t) in *.
  assert (Htime : forall k, time_of (k * DAY + hour * HOUR + minute * MINUTE - off) = x).
  { intros k. unfold time_of. rewrite Hl. replace (k * DAY + hour * HOUR + minute * MINUTE - off + off) with (x + k * DAY) by (unfold x; lia).
    rewrite Z.mod_add by done. by apply Z.mod_small. }
  assert (Hg : forall g, t <= g -> time_of g = x -> d <= date_of g /\ g = date_of g * DAY + x - off).
  { intros g Htg Hgx. destruct (day_split g) as [Hgl _]. rewrite Hgx, Hl in Hgl. rewrite Hl in Ht. split; [|lia].
    apply (day_unique d (time_of t) (date_of g) x); [done|done|lia]. }
  rewrite Hl in Ht. destruct (Z.leb_spec t (d * DAY + hour * HOUR + minute * MINUTE - off)) as [Hle|Hgt].
  - split_and!; [done|apply Htime|]. intros g H1 H2. destruct (Hg g H1 H2) as [Hd ->].
    unfold x, DAY, HOUR, MINUTE, SECOND in *. lia.
  - split_and!; [|apply Htime|].
    + unfold DAY, HOUR, MINUTE, SECOND in *. lia.
    + intros g H1 H2. destruct (Hg g H1 H2) as [Hd Hge].
      assert (d <> date_of g) by (intros Heq; rewrite <- Heq in Hge; unfold x in *; lia).
      unfold x, DAY, HOUR, MINUTE, SECOND in *. lia.
Qed.

Lemma days_from_sunday_eq t : days_from_sunday t = (date_of t + 4) mod 7.
Proof using Type. done. Qed.

Lemma next_weekly_first t hour minute : 0 <= hour <= 23 -> 0 <= minute <= 59 ->
  let f := next_weekly_sunday t hour minute in
  t <= f /\ (time_of f = hour * HOUR + minute * MINUTE /\ days_from_sunday f = 0) /\
  forall g, t <= g -> time_of g = hour * HOUR + minute * MINUTE /\ days_from_sunday g = 0 -> f <= g.
Proof using Hzone.
  intros Hh Hm. unfold next_weekly_sunday. rewrite !local_at_eq.
  destruct (day_split t) as [Ht Hr]. pose proof Hzone as [Hl _].
  assert (Hx : 0 <= hour * HOUR + minute * MINUTE < DAY) by (unfold DAY, HOUR, MINUTE, SECOND; lia).
  set (x := hour * HOUR + minute * MINUTE) in *.
  assert (Hday : forall k, time_of (k * DAY + hour * HOUR + minute * MINUTE - off) = x /\
                          date_of (k * DAY + hour * HOUR + minute * MINUTE - off) = k).
  { intros k. unfold time_of, date_of. rewrite Hl.
    replace (k * DAY + hour * HOUR + minute * MINUTE - off + off) with (x + k * DAY) by (unfold x; lia).
    rewrite Z.mod_add, Z.div_add by done. rewrite Z.mod_small, Z.div_small by done. lia. }
  assert (Hg : forall g, t <= g -> time_of g = x -> date_of t <= date_of g /\ g = date_of g * DAY + x - off).
  { intros g Htg Hgx. destruct (day_split g) as [Hgl _]. rewrite Hgx, Hl in Hgl. rewrite Hl in Ht. split; [|lia].
    apply (day_unique (date_of t) (time_of t) (date_of g) x); [done|done|lia]. }
  rewrite days_from_sunday_eq. set (d := date_of t) in *.
  set (d1 := d + (7 - (d + 4) mod 7) mod 7).
  assert (Hd1 : (d1 + 4) mod 7 = 0 /\ d <= d1 <= d + 6).
  { unfold d1. pose proof (Z.mod_pos_bound (d + 4) 7). pose proof (Z.div_mod (d + 4) 7).
    destruct (decide ((d + 4) mod 7 = 0)) as [E|E]; [rewrite E; simpl; rewrite Z.add_0_r; lia|].
    rewrite (Z.mod_small (7 - (d + 4) mod 7) 7) by lia. split; [|lia].
    apply Z.mod_divide; [done|]. exists ((d + 4) / 7 + 1). lia. }
  rewrite Hl in Ht. destruct Hd1 as [Hs1 Hb1].
  assert (Hsun : forall g, t <= g -> time_of g = x -> (date_of g + 4) mod 7 = 0 -> d1 <= date_of g).
  { intros g H1 H2 H3. destruct (Hg g H1 H2) as [Hd _]. apply Z.mod_divide in H3 as [q Hq]; [|done].
    apply Z.mod_divide in Hs1 as [q1 Hq1]; [|done]. lia. }
  destruct (Z.leb_spec t (d1 * DAY + hour * HOUR + minute * MINUTE - off)) as [Hle|Hgt].
  - rewrite days_from_sunday_eq. destruct (Hday d1) as [-> ->]. split_and!; [done..|]. intros g H1 [H2 H3].
    destruct (Hg g H1 H2) as [_ ->]. pose proof (Hsun g H1 H2 H3). unfold x, DAY, HOUR, MINUTE, SECOND in *. lia.
  - rewrite days_from_sunday_eq. destruct (Hday (d1 + 7)) as [-> ->]. split_and!.
    + unfold DAY, HOUR, MINUTE, SECOND in *. lia.
    + done.
    + replace (d1 + 7 + 4) with (d1 + 4 + 1 * 7) by lia. by rewrite Z.mod_add.
    + intros g H1 [H2 H3]. destruct (Hg g H1 H2) as [_ Hge]. pose proof (Hsun g H1 H2 H3) as Hd.
      assert (d1 <> date_of g) by (intros Heq; rewrite <- Heq in Hge; unfold x in *; lia).
      rewrite days_from_sunday_eq in H3. apply Z.mod_divide in H3 as [q Hq]; [|done].
      apply Z.mod_divide in Hs1 as [q1 Hq1]; [|done].
      unfold x, DAY, HOUR, MINUTE, SECOND in *. lia.
Qed.

(** Truncating to the minute, second and nanosecond is truncating to the hour. *)
Lemma truncated_to_hour n : zero_nanosecond (zero_second (zero_minute n)) = n - n mod HOUR.
Proof using Type.
  unfold zero_nanosecond, zero_second, zero_minute, HOUR, MINUTE, SECOND.
  pose proof (Z.div_mod n 3600000000000). pose proof (Z.mod_pos_bound n 3600000000000).
  change (60 * (60 * 1000000000)) with 3600000000000. change (60 * 1000000000) with 60000000000.
  set (q := n / 3600000000000) in *. set (r := n mod 3600000000000) in *.
  assert (Hn : n = q * 3600000000000 + r) by lia. assert (Hr : 0 <= r < 3600000000000) by lia.
  clearbody q r. subst n. clear H H0.
  pose proof (Z.div_mod r 60000000000). pose proof (Z.mod_pos_bound r 60000000000).
  set (m := r / 60000000000) in *. set (r2 := r mod 60000000000) in *.
  replace (q * 3600000000000 + r - m * 60000000000) with (r2 + (q * 60) * 60000000000) by lia.
  rewrite (Z.mod_add r2) by done. rewrite (Z.mod_small r2) by lia.
  pose proof (Z.div_mod r2 1000000000). pose proof (Z.mod_pos_bound r2 1000000000).
  set (k := r2 / 1000000000) in *. set (r3 := r2 mod 1000000000) in *.
  replace (r2 + q * 60 * 60000000000 - k * 1000000000) with (r3 + (q * 3600) * 1000000000) by lia.
  rewrite (Z.mod_add r3) by done. rewrite (Z.mod_small r3) by lia. lia.
Qed.

Lemma next_hourly_first t : exists f, next_fire_at_or_after Hourly t = Some f /\
  t <= f /\ to_local f mod HOUR = 0 /\ forall g, t <= g -> to_local g mod HOUR = 0 -> f <= g.
Proof using Hzone.
  destruct Hzone as [Hl Hf]. unfold next_fire_at_or_after, with_local. do 3 (rewrite Hf; cbn [single]; rewrite ?Hl).
  replace (zero_minute (t + off) - off + off) with (zero_minute (t + off)) by lia.
  replace (zero_second (zero_minute (t + off)) - off + off) with (zero_second (zero_minute (t + off))) by lia.
  rewrite truncated_to_hour. pose proof (Z.div_mod (t + off) HOUR) as Hd. pose proof (Z.mod_pos_bound (t + off) HOUR) as Hb.
  specialize (Hd ltac:(done)). specialize (Hb ltac:(done)).
  set (q := (t + off) / HOUR) in *. set (r := (t + off) mod HOUR) in *.
  assert (Hmod : forall k, (k * HOUR) mod HOUR = 0) by (intros k; by apply Z.mod_mul).
  eexists. split; [reflexivity|]. destruct (Z.leb_spec t (t + off - r - off)) as [Hle|Hgt].
  - split_and!; [done| |].
    + rewrite Hl. replace (t + off - r - off + off) with (q * HOUR) by lia. apply Hmod.
    + intros g H1 _. lia.
  - split_and!; [lia| |].
    + rewrite Hl. replace (t + off - r - off + HOUR + off) with ((q + 1) * HOUR) by lia. apply Hmod.
    + intros g H1 H2. rewrite Hl in H2. apply Z.mod_divide in H2 as [k Hk]; [|done].
      assert (q < k) by (unfold HOUR, MINUTE, SECOND in *; nia).
      assert ((q + 1) * HOUR <= k * HOUR) by (unfold HOUR, MINUTE, SECOND in *; lia). lia.
Qed.

(** The next fire is the first instant, from [t] on, at which the schedule
    fires. *)
Lemma next_fire_first s t : valid s -> s <> Manual ->
  exists f, next_fire_at_or_after s t = Some f /\ t <= f /\ fires s f /\ forall g, t <= g -> fires s g -> f <= g.
Proof using Hzone.
  intros Hv Hm. destruct s as [| | | |minute hour]; [done|apply next_hourly_first|..]; eexists; (split; [reflexivity|]).
  - pose proof (next_daily_first t ANCHOR_HOUR 0) as H. unfold fires. rewrite Z.add_0_r in H. apply H; done.
  - pose proof (next_weekly_first t ANCHOR_HOUR 0) as H. unfold fires. rewrite Z.add_0_r in H. apply H; done.
  - destruct Hv. by apply next_daily_first.
Qed.

(** In a zone without offset changes a schedule is due exactly when one
    of its fires lies after the last run, to the millisecond, and not after
    now; a manual schedule never is. *)
Theorem due_when_a_fire_has_passed s last_run_ms now :
  valid s -> in_range last_run_ms = true ->
  is_due s last_run_ms now = true <->
  exists f, fires s f /\ last_run_ms * MILLI + MILLI <= f <= now.
Proof using Hzone.
  intros Hv Hr. unfold is_due. case_bool_decide as Hm.
  { subst s. split; [done|]. by intros (f & [] & _). }
  rewrite Hr. simpl. destruct (next_fire_first s (last_run_ms * MILLI + MILLI) Hv Hm) as (f & -> & H1 & H2 & H3).
  rewrite Z.leb_le. split.
  - intros Hf. by exists f.
  - intros (g & Hg & [Hg1 Hg2]). specialize (H3 g Hg1 Hg). lia.
Qed.
End evaluator.

(** ** The grammar round trip *)

Lemma as_spec_cron minute hour : 0 <= minute <= 59 -> 0 <= hour <= 23 ->
  parse (as_spec (Cron minute hour)) = Ok (Cron minute hour).
Proof.
  intros Hm Hh.
  assert (H : forallb (fun m => forallb (fun h =>
     bool_decide (parse (as_spec (Cron (Z.of_nat m) (Z.of_nat h))) = Ok (Cron (Z.of_nat m) (Z.of_nat h)))) (seq 0 24)) (seq 0 60) = true).
  { vm_compute. reflexivity. }
  rewrite forallb_forall in H. specialize (H (Z.to_nat minute)). rewrite in_seq in H. specialize (H ltac:(lia)).
  rewrite forallb_forall in H. specialize (H (Z.to_nat hour)). rewrite in_seq in H. specialize (H ltac:(lia)).
  apply bool_decide_eq_true in H. by rewrite !Z2Nat.id in H by lia.
Qed.

(** Printing a schedule and parsing the text gives the schedule back, and
    everything the parser accepts is such a schedule. *)
Theorem schedule_text_round_trip : 
  (forall s, valid s -> parse (as_spec s) = Ok s) /\ (forall spec s, parse spec = Ok s -> valid s).
Proof.
  split.
  - intros [| | | |minute hour] Hv; [by vm_compute..|]. destruct Hv. by apply as_spec_cron.
  - intros spec s. unfold parse. repeat (case_match; [try done; by intros [= <-]|]). unfold parse_cron.
    destruct (split_whitespace (trim spec)) as [|mi [|ho [|dom [|mon [|dow [|]]]]]]; try done.
    case_match; [done|]. destruct (parse_u32 mi) as [minute|] eqn:Hmi; [|done].
    destruct (parse_u32 ho) as [hour|] eqn:Hho; [|done].
    apply parse_uint_bound in Hmi; [|done]. apply parse_uint_bound in Hho; [|done].
    destruct (Z.ltb_spec 59 minute); [done|]. destruct (Z.ltb_spec 23 hour); [done|]. simpl.
    intros [= <-]. unfold valid. lia.
Qed.

Lemma schedule_text_round_trip_witness :
  valid (Cron 30 2) /\ parse (as_spec (Cron 30 2)) = Ok (Cron 30 2) /\ valid Weekly.
Proof.
  destruct schedule_text_round_trip as [H1 H2]. split; [simpl; lia|]. split; [apply H1; simpl; lia|].
  apply (H2 " @weekly "). vm_compute. reflexivity.
Defined.

(** An hour east of Greenwich. *)
Definition east : Zone :=
  {| to_local := fun t => t + HOUR; from_local := fun n => Single (n - HOUR); local_now := 0; in_range := fun _ => true |}.

(** 2026-06-30 is day 20634, a Tuesday: run at 10:00, the daily schedule is
    due the next day after three in the morning. *)
Definition ran_at : Z := (20634 * DAY + 10 * HOUR - HOUR) / MILLI.

Lemma due_when_a_fire_has_passed_witness :
  @is_due east Daily ran_at (20634 * DAY + 23 * HOUR) = false /\
  (@is_due east Daily ran_at (20635 * DAY + 3 * HOUR) = true <->
   exists f, @fires east Daily f /\ ran_at * MILLI + MILLI <= f <= 20635 * DAY + 3 * HOUR) /\
  @is_due east Daily ran_at (20635 * DAY + 3 * HOUR) = true.
Proof.
  split; [vm_compute; reflexivity|]. split; [|vm_compute; reflexivity].
  apply (@due_when_a_fire_has_passed east HOUR); [by split|exact I|reflexivity].
Defined.

(** In the hour that the clocks show twice the hourly schedule has no next
    fire, so it is never due there. *)
Definition falling_back : Zone :=
  {| to_local := fun t => if t <? DAY + 2 * HOUR then t + HOUR else t;
     from_local := fun n =>
       if n <? DAY + 2 * HOUR then Single (n - HOUR)
       else if n <? DAY + 3 * HOUR then Ambiguous (n - HOUR) n else Single n;
     local_now := 0; in_range := fun _ => true |}.

Lemma hourly_stops_in_the_repeated_hour :
  @next_fire_at_or_after falling_back Hourly (DAY + 2 * HOUR + 30 * MINUTE) = None /\
  @is_due falling_back Hourly ((DAY + HOUR + 30 * MINUTE) / MILLI) (DAY + 5 * HOUR) = false.
Proof. vm_compute. split; reflexivity. Qed.
