(* ===== verification/DryRun.v ===== *)
(** * The dry-run planner ([freally-core/src/dryrun.rs])

    [compute_tree_diff] walks the source, looks every file up under the
    destination and sorts it into one of five lists, without writing. *)
From S2P Require Import Prelude.
From S2P Require Import Text.
From stdpp Require Import options.
Open Scope Z_scope.

Inductive ReasonForReplacement := SourceNewer | ForceOverwriteOlder | ContentDifferent.
Inductive ReasonForSkip := IdenticalContent | DestinationNewer | FilteredOut | UnsupportedSourceKind.
Inductive ConflictKind := BothModifiedSinceCommonAncestor | KindMismatch | Ambiguous.

Abbreviation RelPath := path (only parsing).

Record TreeDiff := {
  additions : list RelPath;
  replacements : list (RelPath * ReasonForReplacement);
  skips : list (RelPath * ReasonForSkip);
  conflicts : list (RelPath * ConflictKind);
  unchanged : list RelPath;
  bytes_to_transfer : Z;
  bytes_total : Z
}.

Definition empty_diff : TreeDiff :=
  {| additions := []; replacements := []; skips := []; conflicts := []; unchanged := [];
     bytes_to_transfer := 0; bytes_total := 0 |}.

Definition total_files (d : TreeDiff) : nat :=
  length (additions d) + length (replacements d) + length (skips d) + length (conflicts d) + length (unchanged d).
Definition is_empty (d : TreeDiff) : bool := (total_files d =? 0)%nat.
Definition has_blocking_conflicts (d : TreeDiff) : bool := negb (bool_decide (conflicts d = [])).

Record DryRunOptions := { force_overwrite : bool; trust_size_mtime : bool }.

(** ** Two files *)

Inductive PairClassification :=
| PUnchanged
| PSkip (r : ReasonForSkip)
| PReplacement (r : ReasonForReplacement)
| PConflict (k : ConflictKind).

Inductive MtimeCmp := Same | SrcNewer | DstNewer | Indeterminate.

Definition MTIME_TOLERANCE_SECS : Z := 1.
Definition NANOS : Z := 1000000000.

(** Time stamps in nanoseconds; [as_secs] rounds down. *)
Definition mtime_compare (src dst : option Z) : MtimeCmp :=
  match src, dst with
  | Some s, Some d =>
      if s =? d then Same
      else if Z.abs (s - d) / NANOS <=? MTIME_TOLERANCE_SECS then Same
      else if d <? s then SrcNewer else DstNewer
  | _, _ => Indeterminate
  end.

Definition classify_pair (src_size : Z) (src_mtime : option Z) (dst_size : Z) (dst_mtime : option Z)
    (opts : DryRunOptions) : PairClassification :=
  let sizes_equal := src_size =? dst_size in
  match mtime_compare src_mtime dst_mtime with
  | Same =>
      if sizes_equal && trust_size_mtime opts then PUnchanged
      else if sizes_equal then PReplacement ContentDifferent
      else PConflict Ambiguous
  | SrcNewer => PReplacement SourceNewer
  | DstNewer => if force_overwrite opts then PReplacement ForceOverwriteOlder else PSkip DestinationNewer
  | Indeterminate => PConflict Ambiguous
  end.

(** ** The walk *)

(** What [read_dir] and [metadata] (which does not follow links) show of the
    source: a directory that cannot be read, entries whose metadata cannot be
    read, and things that are neither files nor directories. *)
Inductive SrcNode :=
| SFile (len : Z) (mtime : option Z)
| SDir (entries : option (list (string * option SrcNode)))
| SOther.

(** [std::fs::metadata] of the destination. *)
Inductive DstMeta := DDir | DFile (len : Z) (mtime : option Z).

Inductive DiffError := NotADirectory.

Section walk.
Context (dst : RelPath -> option DstMeta) (opts : DryRunOptions).

Definition classify_file (rel : RelPath) (len : Z) (mtime : option Z) (d : TreeDiff) : TreeDiff :=
  let d := {| additions := additions d; replacements := replacements d; skips := skips d; conflicts := conflicts d;
              unchanged := unchanged d; bytes_to_transfer := bytes_to_transfer d;
              bytes_total := sat_add64 (bytes_total d) len |} in
  let transfer := sat_add64 (bytes_to_transfer d) len in
  match dst rel with
  | None =>
      {| additions := additions d ++ [rel]; replacements := replacements d; skips := skips d;
         conflicts := conflicts d; unchanged := unchanged d; bytes_to_transfer := transfer; bytes_total := bytes_total d |}
  | Some DDir =>
      {| additions := additions d; replacements := replacements d; skips := skips d;
         conflicts := conflicts d ++ [(rel, KindMismatch)]; unchanged := unchanged d;
         bytes_to_transfer := bytes_to_transfer d; bytes_total := bytes_total d |}
  | Some (DFile dlen dmtime) =>
      match classify_pair len mtime dlen dmtime opts with
      | PUnchanged =>
          {| additions := additions d; replacements := replacements d; skips := skips d;
             conflicts := conflicts d; unchanged := unchanged d ++ [rel];
             bytes_to_transfer := bytes_to_transfer d; bytes_total := bytes_total d |}
      | PSkip r =>
          {| additions := additions d; replacements := replacements d; skips := skips d ++ [(rel, r)];
             conflicts := conflicts d; unchanged := unchanged d;
             bytes_to_transfer := bytes_to_transfer d; bytes_total := bytes_total d |}
      | PReplacement r =>
          {| additions := additions d; replacements := replacements d ++ [(rel, r)]; skips := skips d;
             conflicts := conflicts d; unchanged := unchanged d; bytes_to_transfer := transfer; bytes_total := bytes_total d |}
      | PConflict k =>
          {| additions := additions d; replacements := replacements d; skips := skips d;
             conflicts := conflicts d ++ [(rel, k)]; unchanged := unchanged d;
             bytes_to_transfer := bytes_to_transfer d; bytes_total := bytes_total d |}
      end
  end.

Definition push_skip (rel : RelPath) (r : ReasonForSkip) (d : TreeDiff) : TreeDiff :=
  {| additions := additions d; replacements := replacements d; skips := skips d ++ [(rel, r)];
     conflicts := conflicts d; unchanged := unchanged d;
     bytes_to_transfer := bytes_to_transfer d; bytes_total := bytes_total d |}.

(** [walk_classify]: one entry, and the entries of a directory. *)
Fixpoint classify_node (rel : RelPath) (n : SrcNode) (d : TreeDiff) : TreeDiff :=
  match n with
  | SFile len mtime => classify_file rel len mtime d
  | SOther => push_skip rel UnsupportedSourceKind d
  | SDir None => d
  | SDir (Some entries) =>
      (fix walk (es : list (string * option SrcNode)) (d : TreeDiff) : TreeDiff :=
         match es with
         | [] => d
         | (name, m) :: es =>
             walk es (match m with Some m => classify_node (rel ++ [name]) m d | None => d end)
         end) entries d
  end.

Definition compute_tree_diff (src : SrcNode) : result DiffError TreeDiff :=
  match src with
  | SDir _ => Ok (classify_node [] src empty_diff)
  | _ => Err NotADirectory
  end.
End walk.

(** ** What a plan is *)

(** The verdict on one leaf of the source. *)
Inductive Verdict :=
| Addition
| Replacement (r : ReasonForReplacement)
| Skip (r : ReasonForSkip)
| Conflict (k : ConflictKind)
| Unchanged.

Inductive Leaf := LFile (len : Z) (mtime : option Z) | LOther.

(** The leaves of the source that can be examined. *)
Fixpoint leaves (rel : RelPath) (n : SrcNode) : list (RelPath * Leaf) :=
  match n with
  | SFile len mtime => [(rel, LFile len mtime)]
  | SOther => [(rel, LOther)]
  | SDir None => []
  | SDir (Some entries) =>
      (fix walk (es : list (string * option SrcNode)) : list (RelPath * Leaf) :=
         match es with
         | [] => []
         | (name, m) :: es => match m with Some m => leaves (rel ++ [name]) m | None => [] end ++ walk es
         end) entries
  end.

Definition verdict (dst : RelPath -> option DstMeta) (opts : DryRunOptions) (rel : RelPath) (l : Leaf) : Verdict :=
  match l with
  | LOther => Skip UnsupportedSourceKind
  | LFile len mtime =>
      match dst rel with
      | None => Addition
      | Some DDir => Conflict KindMismatch
      | Some (DFile dlen dmtime) =>
          match classify_pair len mtime dlen dmtime opts with
          | PUnchanged => Unchanged
          | PSkip r => Skip r
          | PReplacement r => Replacement r
          | PConflict k => Conflict k
          end
      end
  end.

Definition leaf_len (l : Leaf) : Z := match l with LFile len _ => len | LOther => 0 end.
Definition transfers (v : Verdict) : bool := match v with Addition | Replacement _ => true | _ => false end.
Definition total (ls : list Z) : Z := foldr Z.add 0 ls.

(** A reading of a plan: the leaves with their verdicts, in the order of the walk. *)
Record describes (vs : list (RelPath * Leaf * Verdict)) (d : TreeDiff) : Prop := {
  ds_additions : additions d = omap (fun x => match x.2 with Addition => Some x.1.1 | _ => None end) vs;
  ds_replacements : replacements d = omap (fun x => match x.2 with Replacement r => Some (x.1.1, r) | _ => None end) vs;
  ds_skips : skips d = omap (fun x => match x.2 with Skip r => Some (x.1.1, r) | _ => None end) vs;
  ds_conflicts : conflicts d = omap (fun x => match x.2 with Conflict k => Some (x.1.1, k) | _ => None end) vs;
  ds_unchanged : unchanged d = omap (fun x => match x.2 with Unchanged => Some x.1.1 | _ => None end) vs;
  ds_transfer : bytes_to_transfer d =
    Z.min U64_MAX (total ((fun x => if transfers x.2 then leaf_len x.1.2 else 0) <$> vs));
  ds_total : bytes_total d = Z.min U64_MAX (total ((fun x => leaf_len x.1.2) <$> vs))
}.

Section plan.
Context (dst : RelPath -> option DstMeta) (opts : DryRunOptions).

Definition judged (ls : list (RelPath * Leaf)) : list (RelPath * Leaf * Verdict) :=
  (fun x => (x, verdict dst opts x.1 x.2)) <$> ls.

(** Sizes are not negative. *)
Definition sized (ls : list (RelPath * Leaf)) : Prop := Forall (fun x => 0 <= leaf_len x.2) ls.

Lemma sizes_app l1 l2 : total (l1 ++ l2) = total l1 + total l2.
Proof. unfold total. induction l1; simpl; lia. Qed.

Lemma total_nonneg l : Forall (fun x => 0 <= x) l -> 0 <= total l.
Proof. induction 1; simpl; lia. Qed.

Lemma judged_snoc ls x : judged (ls ++ [x]) = judged ls ++ [(x, verdict dst opts x.1 x.2)].
Proof. unfold judged. by rewrite fmap_app. Qed.

Lemma classify_file_describes ls rel len mtime d : 0 <= len -> sized ls ->
  describes (judged ls) d -> describes (judged (ls ++ [(rel, LFile len mtime)])) (classify_file dst opts rel len mtime d).
Proof.
  intros Hlen Hs [H1 H2 H3 H4 H5 H6 H7].
  assert (Hn : 0 <= total ((fun x => leaf_len x.1.2) <$> judged ls)).
  { apply total_nonneg, Forall_fmap, Forall_fmap. exact Hs. }
  assert (Hf : 0 <= total ((fun x => if transfers x.2 then leaf_len x.1.2 else 0) <$> judged ls)).
  { apply total_nonneg, Forall_fmap, Forall_fmap. eapply Forall_impl; [exact Hs|]. intros x Hx. simpl. by case_match. }
  rewrite judged_snoc. revert H1 H2 H3 H4 H5 H6 H7 Hn Hf. generalize (judged ls). intros J H1 H2 H3 H4 H5 H6 H7 Hn Hf.
  unfold classify_file, verdict, sat_add64. simpl.
  destruct (dst rel) as [[|dlen dmtime]|]; [|destruct (classify_pair len mtime dlen dmtime opts)|];
    (split; simpl; rewrite ?omap_app, ?fmap_app, ?sizes_app, ?app_nil_r; simpl; rewrite ?app_nil_r, ?sizes_app;
     simpl; try congruence; try (f_equal; congruence); rewrite ?H6, ?H7; lia).
Qed.

Lemma push_skip_describes ls rel d : describes (judged ls) d ->
  describes (judged (ls ++ [(rel, LOther)])) (push_skip rel UnsupportedSourceKind d).
Proof.
  intros [H1 H2 H3 H4 H5 H6 H7]. rewrite judged_snoc. simpl.
  split; simpl; rewrite ?omap_app, ?fmap_app, ?sizes_app; simpl; rewrite ?app_nil_r, ?sizes_app; simpl;
    try congruence; try (f_equal; congruence); rewrite ?H6, ?H7; f_equal; lia.
Qed.
Lemma sized_app l1 l2 : sized (l1 ++ l2) <-> sized l1 /\ sized l2.
Proof. apply Forall_app. Qed.

Lemma classify_node_describes : forall n rel ls d, sized ls -> sized (leaves rel n) ->
  describes (judged ls) d -> describes (judged (ls ++ leaves rel n)) (classify_node dst opts rel n d).
Proof.
  fix IH 1. intros [len mtime|[entries|]|] rel ls d Hls Hn Hd.
  - apply classify_file_describes; [|done|done]. by apply Forall_cons in Hn as [? _].
  - simpl in *. revert ls d Hls Hd Hn. induction entries as [|[name [m|]] es IHes]; intros ls d Hls Hd Hn.
    + by rewrite app_nil_r.
    + apply sized_app in Hn as [Hm Hes]. rewrite app_assoc. apply IHes; [by apply sized_app|by apply IH|done].
    + simpl in *. by apply IHes.
  - simpl. by rewrite app_nil_r.
  - by apply push_skip_describes.
Qed.

Lemma describes_length vs d : describes vs d -> total_files d = length vs.
Proof.
  intros [H1 H2 H3 H4 H5 _ _]. unfold total_files. rewrite H1, H2, H3, H4, H5. clear.
  induction vs as [|[[rel l] v] vs IH]; [done|]. destruct v; cbn [omap list_omap length fst snd] in *; lia.
Qed.

(** A dry run of a source directory judges every leaf it can examine
    exactly once, by the verdict of its pair, in the order of the walk: the
    five lists are those verdicts, the bytes to transfer are the sizes of the
    additions and replacements, and the total covers every file, those in
    conflict too, both capped at the largest 64-bit number. *)
Theorem plan_judges_every_leaf src d : sized (leaves [] src) -> compute_tree_diff dst opts src = Ok d ->
  describes (judged (leaves [] src)) d /\ total_files d = length (leaves [] src).
Proof.
  intros Hs Hd. assert (H : describes (judged (leaves [] src)) d).
  { unfold compute_tree_diff in Hd. destruct src as [|es|]; [done| |done]. injection Hd as <-.
    apply (classify_node_describes (SDir es) [] []); [constructor|done|]. by split. }
  split; [done|]. rewrite (describes_length _ _ H). unfold judged. apply length_fmap.
Qed.
End plan.

(** ** A small tree *)

Definition demo_dst (rel : path) : option DstMeta :=
  if decide (rel = ["a"]) then Some (DFile 5 (Some 0))
  else if decide (rel = ["d"; "b"]) then Some DDir
  else if decide (rel = ["d"; "c"]) then Some (DFile 7 (Some (60 * NANOS)))
  else None.

Definition demo_src : SrcNode :=
  SDir (Some [("a", Some (SFile 5 (Some NANOS))); ("d", Some (SDir (Some [("b", Some (SFile 1 None));
    ("c", Some (SFile 9 (Some 0))); ("new", Some (SFile 3 None))]))); ("link", Some SOther); ("gone", None)]).

Definition demo_opts : DryRunOptions := {| force_overwrite := false; trust_size_mtime := true |}.

Lemma plan_judges_every_leaf_witness :
  sized (leaves [] demo_src) /\
  exists d, compute_tree_diff demo_dst demo_opts demo_src = Ok d /\ additions d = [["d"; "new"]] /\
    unchanged d = [["a"]] /\ conflicts d = [(["d"; "b"], KindMismatch)] /\
    describes (judged demo_dst demo_opts (leaves [] demo_src)) d /\ total_files d = length (leaves [] demo_src).
Proof.
  assert (H1 : sized (leaves [] demo_src)) by (repeat constructor; simpl; lia).
  split; [exact H1|]. eexists. split; [reflexivity|]. split; [reflexivity|]. split; [reflexivity|]. split; [reflexivity|].
  exact (plan_judges_every_leaf demo_dst demo_opts demo_src _ H1 eq_refl).
Defined.

(** ** Where the documentation says otherwise *)

(** Entries that cannot be examined, and directories that cannot be read, are
    dropped from the plan. *)
Lemma unreadable_entries_vanish dst opts name :
  compute_tree_diff dst opts (SDir (Some [(name, None); (name, Some (SDir None))])) = Ok empty_diff.
Proof. reflexivity. Qed.

(** The total counts the files in conflict. *)
Lemma total_counts_conflicts :
  bytes_total (classify_file (fun _ => Some DDir) demo_opts ["x"] 4 None empty_diff) = 4.
Proof. reflexivity. Qed.

(** Time stamps almost two seconds apart count as the same. *)
Lemma tolerance_is_almost_two_seconds : mtime_compare (Some (2 * NANOS - 1)) (Some 0) = Same.
Proof. reflexivity. Qed.
