(* ===== verification/Translate.v ===== *)
(** * Path translation between platforms ([freally-core/src/translate.rs])

    Reserved names, Unicode normalization, long paths and line endings.  What
    depends on the host ([Path], the [dunce] and [unicode_normalization]
    crates) is the class [HostPath]. *)
From S2P Require Import Prelude.
From S2P Require Import Text.
From S2P Require Import TextSearch.
From S2P Require Import Files.
From stdpp Require Import options.
Open Scope Z_scope.

Inductive TargetOs := Windows | MacOs | Linux | AutoOs.
Inductive NormalizationMode := Nfc | Nfd | AsIsName | AutoName.
Inductive LineEndingMode := ToCrlf | ToLf | AsIsEnding.
Inductive ReservedNameStrategy := Suffix | RejectReserved.
Inductive LongPathStrategy := Win32LongPath | Truncate | RejectLong.

#[export] Instance TargetOs_eq_dec : EqDecision TargetOs.
Proof. solve_decision. Defined.

Record PathPolicy := {
  target_os : TargetOs;
  unicode_normalization : NormalizationMode;
  line_endings : LineEndingMode;
  reserved_name_strategy : ReservedNameStrategy;
  long_path_strategy : LongPathStrategy;
  line_ending_allowlist : list string
}.

Definition default_text_extensions : list string :=
  ["txt"; "md"; "csv"; "json"; "xml"; "yaml"; "yml"; "ini"; "conf"; "sh"; "py"; "rs"; "ts"; "js"; "css"; "html"].

Definition default_policy : PathPolicy :=
  {| target_os := AutoOs; unicode_normalization := AutoName; line_endings := AsIsEnding;
     reserved_name_strategy := Suffix; long_path_strategy := Win32LongPath;
     line_ending_allowlist := default_text_extensions |}.

Inductive TranslateError :=
| ReservedName (name : string)
| PathTooLong (len : Z)
| NoFileName
| RelativeDstRoot.

Definition localized_key (e : TranslateError) : string :=
  match e with
  | ReservedName _ => "err-translate-reserved-name"
  | PathTooLong _ => "err-translate-path-too-long"
  | NoFileName => "err-translate-no-filename"
  | RelativeDstRoot => "err-translate-relative-dst"
  end.

(** What the host decides; paths are texts. *)
Class HostPath := {
  file_name : string -> option string;
  parent_path : string -> option string;
  join : string -> string -> string;
  is_absolute : string -> bool;
  simplified : string -> string;
  nfc : string -> string;
  nfd : string -> string;
  host_os : TargetOs
}.

(** ** Reserved names *)

Definition to_upper_char (c : ascii) : ascii :=
  if ascii_in 97 122 c then ascii_of_N (N_of_ascii c - 32) else c.

Fixpoint to_ascii_uppercase (s : string) : string :=
  match s with EmptyString => EmptyString | String c s' => String (to_upper_char c) (to_ascii_uppercase s') end.

Definition WINDOWS_RESERVED_STEMS : list string :=
  ["CON"; "PRN"; "AUX"; "NUL"; "COM0"; "COM1"; "COM2"; "COM3"; "COM4"; "COM5"; "COM6"; "COM7"; "COM8"; "COM9";
   "LPT0"; "LPT1"; "LPT2"; "LPT3"; "LPT4"; "LPT5"; "LPT6"; "LPT7"; "LPT8"; "LPT9"].

Definition name_stem (name : string) : string := match split_once "." name with Some (l, _) => l | None => name end.

Definition is_reserved_windows_name (name : string) : bool :=
  existsb (String.eqb (to_ascii_uppercase (name_stem name))) WINDOWS_RESERVED_STEMS.

Definition apply_reserved_suffix (name : string) : string :=
  match split_once "." name with
  | Some (stem, ext) => stem +:+ "_" +:+ String "." ext
  | None => name +:+ "_"
  end.

(** ** Line endings *)

Inductive LineEnding := Crlf | Lf | Mixed | NoEnding.

Definition LFb : byte := Byte.x0a.
Definition CRb : byte := Byte.x0d.
Definition is_byte (a b : byte) : bool := bool_decide (a = b).

(** The loop of [detect_line_ending_in], knowing the byte before. *)
Fixpoint count_endings (prev : option byte) (bs : bytes) (crlf lf : nat) : nat * nat :=
  match bs with
  | [] => (crlf, lf)
  | b :: bs =>
      if is_byte b LFb
      then if bool_decide (prev = Some CRb) then count_endings (Some b) bs (S crlf) lf
           else count_endings (Some b) bs crlf (S lf)
      else count_endings (Some b) bs crlf lf
  end.

Definition detect_line_ending_in (sample : bytes) : LineEnding :=
  match count_endings None sample 0 0 with
  | (O, O) => NoEnding
  | (S _, O) => Crlf
  | (O, S _) => Lf
  | _ => Mixed
  end.

Definition SAMPLE_CAP : nat := 64 * 1024.
Definition detect_line_ending (bs : bytes) : LineEnding := detect_line_ending_in (take SAMPLE_CAP bs).

(** [after_cr]: the byte before was a carriage return, already turned into a
    line feed, so that a line feed here belongs to it. *)
Fixpoint to_lf_from (after_cr : bool) (bs : bytes) : bytes :=
  match bs with
  | [] => []
  | b :: bs =>
      if is_byte b CRb then LFb :: to_lf_from true bs
      else if is_byte b LFb && after_cr then to_lf_from false bs
      else b :: to_lf_from false bs
  end.

Definition to_lf (bs : bytes) : bytes := to_lf_from false bs.
Definition to_crlf (bs : bytes) : bytes := to_lf bs ≫= fun b => if is_byte b LFb then [CRb; LFb] else [b].

Definition translate_content_line_endings (bs : bytes) (target : LineEndingMode) : bytes :=
  match target with AsIsEnding => bs | ToCrlf => to_crlf bs | ToLf => to_lf bs end.

Definition should_translate_extension (name : string) (allowlist : list string) : bool :=
  match rsplit_once "." name with
  | None => false
  | Some (_, ext) => existsb (fun a => String.eqb (to_ascii_lowercase a) (to_ascii_lowercase ext)) allowlist
  end.

(** ** Length *)

Definition WINDOWS_MAX_PATH : Z := 260.

(** Characters of a UTF-8 text: a continuation byte belongs to the one before. *)
Definition is_continuation (c : ascii) : bool := ascii_in 128 191 c.

(** [path_utf16_len]: a character of four bytes is a surrogate pair. *)
Fixpoint utf16_len (s : string) : Z :=
  match s with
  | EmptyString => 0
  | String c s' => (if is_continuation c then 0 else if ascii_in 240 255 c then 2 else 1) + utf16_len s'
  end.

Fixpoint count_chars (s : string) : Z :=
  match s with EmptyString => 0 | String c s' => (if is_continuation c then 0 else 1) + count_chars s' end.

(** [chars().take(n)] *)
Fixpoint take_chars (n : Z) (s : string) : string :=
  match s with
  | EmptyString => EmptyString
  | String c s' =>
      if is_continuation c then String c (take_chars n s')
      else if n <=? 0 then EmptyString else String c (take_chars (n - 1) s')
  end.

Section translate.
Context {H : HostPath}.

Definition resolve_target_os (t : TargetOs) : TargetOs := match t with AutoOs => host_os | _ => t end.

Definition normalize_name (name : string) (policy : PathPolicy) (effective_target : TargetOs) : string * bool :=
  let normalized out := (out, negb (String.eqb out name)) in
  match unicode_normalization policy with
  | AsIsName => (name, false)
  | Nfc => normalized (nfc name)
  | Nfd => normalized (nfd name)
  | AutoName => match effective_target with MacOs => (name, false) | _ => normalized (nfc name) end
  end.

Definition VERBATIM : string := String BACKSLASH (String BACKSLASH (String "?" (str1 BACKSLASH))).
Definition UNC_LEAD : string := String BACKSLASH (str1 BACKSLASH).

Definition apply_long_path_prefix (p : string) : string :=
  if contains_str ".." p then p
  else if starts_with VERBATIM p then p
  else match str_strip_prefix UNC_LEAD p with
       | Some rest => VERBATIM +:+ "UNC" +:+ str1 BACKSLASH +:+ rest
       | None => VERBATIM +:+ p
       end.

(** The new last segment of [truncate_to_max_path]. *)
Definition truncated_name (parent_len : Z) (filename : string) : string :=
  let '(stem, ext) := match rsplit_once "." filename with
                      | Some (l, r) => (l, String "." r) | None => (filename, EmptyString) end in
  let budget := Z.max 0 (WINDOWS_MAX_PATH - (parent_len + 1 + 2 + count_chars ext)) in
  let stem := take_chars budget stem in
  (if String.eqb stem "" then "x" else stem) +:+ "-t" +:+ ext.

Definition truncate_to_max_path (p : string) : string :=
  match parent_path p, file_name p with
  | Some parent, Some filename => join parent (truncated_name (utf16_len parent) filename)
  | _, _ => p
  end.

(** The first two steps of [translate_path]: normalization and reserved names. *)
Definition adjusted_name (filename : string) (policy : PathPolicy) : result TranslateError string :=
  let '(normalized, _) := normalize_name filename policy (resolve_target_os (target_os policy)) in
  if is_reserved_windows_name normalized then
    match reserved_name_strategy policy with
    | Suffix => Ok (apply_reserved_suffix normalized)
    | RejectReserved => Err (ReservedName normalized)
    end
  else Ok normalized.

Definition translate_path (src dst_root : string) (policy : PathPolicy) : result TranslateError string :=
  match file_name src with
  | None => Err NoFileName
  | Some filename =>
      let? adjusted := adjusted_name filename policy in
      let composed := join (simplified dst_root) adjusted in
      if bool_decide (resolve_target_os (target_os policy) = Windows) && (WINDOWS_MAX_PATH <? utf16_len composed) then
        match long_path_strategy policy with
        | Win32LongPath => if negb (is_absolute composed) then Err RelativeDstRoot else Ok (apply_long_path_prefix composed)
        | Truncate => Ok (truncate_to_max_path composed)
        | RejectLong => Err (PathTooLong (utf16_len composed))
        end
      else Ok composed
  end.
End translate.

(** ** Line endings, once translated *)

Lemma to_lf_no_cr bs : forall a, CRb ∉ to_lf_from a bs.
Proof.
  induction bs as [|b bs IH]; intros a; simpl; [apply not_elem_of_nil|].
  unfold is_byte. destruct (decide (b = CRb)) as [->|Hc].
  - rewrite bool_decide_true by done. apply not_elem_of_cons. split; [done|apply IH].
  - rewrite (bool_decide_false (b = CRb)) by done. destruct (_ && a); [apply IH|].
    apply not_elem_of_cons. split; [congruence|apply IH].
Qed.

Lemma to_lf_plain bs : CRb ∉ bs -> to_lf bs = bs.
Proof.
  unfold to_lf. induction bs as [|b bs IH]; [done|]. intros [Hb Hbs]%not_elem_of_cons. simpl.
  unfold is_byte. rewrite (bool_decide_false (b = CRb)) by congruence. by rewrite andb_false_r, IH.
Qed.

(** A text of line feeds, expanded and folded again. *)
Lemma to_lf_expanded bs : CRb ∉ bs -> to_lf (bs ≫= fun b => if is_byte b LFb then [CRb; LFb] else [b]) = bs.
Proof.
  unfold to_lf. induction bs as [|b bs IH]; [done|]. intros [Hb Hbs]%not_elem_of_cons. cbn [mbind list_bind].
  unfold is_byte at 1. destruct (decide (b = LFb)) as [->|Hl].
  - rewrite bool_decide_true by done. simpl. f_equal. by apply IH.
  - rewrite bool_decide_false by done. simpl. unfold is_byte at 1. rewrite (bool_decide_false (b = CRb)) by congruence.
    rewrite andb_false_r. f_equal. by apply IH.
Qed.

Lemma count_no_cr bs : forall prev crlf lf, CRb ∉ bs -> prev <> Some CRb -> (count_endings prev bs crlf lf).1 = crlf.
Proof.
  induction bs as [|b bs IH]; intros prev crlf lf Hbs Hp; [done|]. apply not_elem_of_cons in Hbs as [Hb Hbs].
  cbn [count_endings]. rewrite (bool_decide_false (prev = Some CRb)) by done.
  destruct (is_byte b LFb); apply IH; (done || congruence).
Qed.

Lemma count_expanded bs : forall prev crlf lf, CRb ∉ bs ->
  (count_endings prev (bs ≫= fun b => if is_byte b LFb then [CRb; LFb] else [b]) crlf lf).2 = lf.
Proof.
  induction bs as [|b bs IH]; intros prev crlf lf Hbs; [done|]. apply not_elem_of_cons in Hbs as [Hb Hbs].
  cbn [mbind list_bind]. destruct (is_byte b LFb) eqn:Hl; cbn [app count_endings].
  - change (is_byte CRb LFb) with false. change (is_byte LFb LFb) with true. cbv iota.
    rewrite (bool_decide_true (Some CRb = Some CRb)) by done. by apply IH.
  - rewrite Hl. by apply IH.
Qed.

(** Translated text has one kind of line ending: after a translation to
    LF there is no carriage return and the detector never sees CRLF, after one
    to CRLF it never sees a bare line feed; translating to LF undoes a
    translation to CRLF, and both are idempotent. *)
Theorem translated_endings_are_uniform bs :
  CRb ∉ to_lf bs /\
  detect_line_ending_in (to_lf bs) ∈ [Lf; NoEnding] /\ detect_line_ending_in (to_crlf bs) ∈ [Crlf; NoEnding] /\
  to_lf (to_crlf bs) = to_lf bs /\ to_lf (to_lf bs) = to_lf bs /\ to_crlf (to_crlf bs) = to_crlf bs.
Proof.
  pose proof (to_lf_no_cr bs false) as Hn. assert (H1 : to_lf (to_crlf bs) = to_lf bs) by by apply to_lf_expanded.
  split_and!; [exact Hn| | |exact H1|by apply to_lf_plain|unfold to_crlf at 1; rewrite H1; reflexivity].
  - pose proof (count_no_cr (to_lf bs) None 0 0 Hn ltac:(done)) as Hc. unfold detect_line_ending_in.
    destruct (count_endings None (to_lf bs) 0 0) as [[|c] [|l]]; simpl in Hc; try done; set_solver.
  - pose proof (count_expanded (to_lf bs) None 0 0 Hn) as Hc. unfold detect_line_ending_in. fold (to_crlf bs) in Hc.
    destruct (count_endings None (to_crlf bs) 0 0) as [[|c] [|l]]; simpl in Hc; try done; set_solver.
Qed.

(** ** Names *)

Lemma reserved_stems_plain : forallb (fun r => negb (contains_char "_" r) && negb (contains_char "-" r)) WINDOWS_RESERVED_STEMS = true.
Proof. reflexivity. Qed.

Lemma upper_app a b : to_ascii_uppercase (a +:+ b) = to_ascii_uppercase a +:+ to_ascii_uppercase b.
Proof. induction a as [|c a IH]; simpl; [done|]. by rewrite IH. Qed.

(** A stem with an underscore or a hyphen is no device. *)
Lemma marked_stem_not_reserved name a c b : (c = "_" \/ c = "-")%char -> name_stem name = a +:+ String c b ->
  is_reserved_windows_name name = false.
Proof.
  intros Hc Hs. unfold is_reserved_windows_name. rewrite Hs, upper_app.
  destruct (existsb _ _) eqn:He; [|done]. apply existsb_exists in He as (r & Hr & Heq). apply String.eqb_eq in Heq.
  pose proof reserved_stems_plain as Hp. rewrite forallb_forall in Hp. specialize (Hp r Hr).
  rewrite <- Heq, !contains_char_app in Hp. unfold contains_char in Hp.
  destruct Hc as [-> | ->]; simpl in Hp; rewrite ?orb_true_r, ?andb_false_r in Hp; done.
Qed.

Lemma split_once_none_iff c s : split_once c s = None <-> contains_char c s = false.
Proof.
  unfold contains_char. induction s as [|a s IH]; simpl; [done|].
  rewrite (Ascii.eqb_sym c a). destruct (Ascii.eqb a c); simpl; [done|].
  rewrite <- IH. by destruct (split_once c s) as [[??]|].
Qed.

Lemma split_once_spec c s l r : split_once c s = Some (l, r) -> s = l +:+ String c r /\ contains_char c l = false.
Proof.
  unfold contains_char. revert l r. induction s as [|a s IH]; intros l r; simpl; [done|].
  destruct (Ascii.eqb_spec a c) as [->|Hne]; [by intros [= <- <-]|].
  destruct (split_once c s) as [[x y]|]; [|done]. intros [= <- <-]. destruct (IH x y eq_refl) as [-> Hx].
  split; [done|]. simpl. rewrite Hx, orb_false_r. apply Ascii.eqb_neq. congruence.
Qed.

Lemma suffixed_not_reserved name : is_reserved_windows_name (apply_reserved_suffix name) = false.
Proof.
  unfold apply_reserved_suffix. destruct (split_once "." name) as [[stem ext]|] eqn:Hs.
  - apply split_once_spec in Hs as [_ Hst]. apply (marked_stem_not_reserved _ stem "_" ""); [by left|].
    unfold name_stem. rewrite <- str_app_assoc. rewrite split_once_app; [done|].
    by rewrite contains_char_app, Hst.
  - apply split_once_none_iff in Hs. apply (marked_stem_not_reserved _ name "_" ""); [by left|].
    unfold name_stem. assert (split_once "." (name +:+ "_") = None) as ->; [|done].
    apply split_once_none_iff. by rewrite contains_char_app, Hs.
Qed.

Lemma take_chars_prefix n s : exists t, s = take_chars n s +:+ t.
Proof.
  revert n. induction s as [|c s IH]; intros n; [by exists ""|]. simpl.
  destruct (is_continuation c); [destruct (IH n) as [t Ht]; exists t; simpl; by rewrite <- Ht|].
  destruct (n <=? 0); [by exists (String c s)|]. destruct (IH (n - 1)) as [t Ht]. exists t. simpl. by rewrite <- Ht.
Qed.

(** Cutting a name short does not make it a device. *)
Lemma truncated_not_reserved k name : is_reserved_windows_name name = false ->
  is_reserved_windows_name (truncated_name k name) = false.
Proof.
  intros Hn. unfold truncated_name.
  assert (Hsplit : exists stem ext, match rsplit_once "." name with Some (l, r) => (l, String "." r) | None => (name, EmptyString) end
     = (stem, ext) /\ name = stem +:+ ext /\ (ext = "" \/ exists r, ext = String "." r)).
  { pose proof (rsplit_once_spec "." name) as H. destruct (rsplit_once "." name) as [[l r]|].
    - destruct H as [-> _]. eexists _, _. split; [reflexivity|]. split; [done|]. right. by eexists.
    - eexists _, _. split; [reflexivity|]. split; [by rewrite str_app_nil_r|by left]. }
  destruct Hsplit as (stem & ext & -> & -> & Hext).
  set (n := Z.max 0 (WINDOWS_MAX_PATH - (k + 1 + 2 + count_chars ext))). clearbody n.
  destruct (take_chars_prefix n stem) as [t Ht]. set (cut := take_chars n stem) in *. clearbody cut. subst stem.
  set (shown := if String.eqb cut "" then "x" else cut).
  destruct (split_once "." shown) as [[l r]|] eqn:Hd.
  - assert (Hcut : split_once "." cut = Some (l, r)).
    { unfold shown in Hd. by destruct (String.eqb_spec cut "") as [->|]. }
    apply split_once_spec in Hcut as [-> Hl]. apply split_once_spec in Hd as [Hsh _]. rewrite Hsh.
    unfold is_reserved_windows_name, name_stem in *. rewrite !str_app_assoc in *. simpl in *.
    rewrite split_once_app in Hn by done. by rewrite split_once_app.
  - apply split_once_none_iff in Hd. apply (marked_stem_not_reserved _ shown "-" "t"); [by right|].
    unfold name_stem. rewrite <- str_app_assoc. destruct Hext as [->|[r ->]].
    + rewrite str_app_nil_r. assert (split_once "." (shown +:+ "-t") = None) as ->; [|done].
      apply split_once_none_iff. by rewrite contains_char_app, Hd.
    + rewrite split_once_app; [done|]. by rewrite contains_char_app, Hd.
Qed.

(** Whatever the policy, the target and the length of the path, the
    last segment a translation composes is not the name of a Windows device;
    a device name is refused or marked. *)
Theorem translated_name_is_no_device {H : HostPath} src dst_root policy out :
  (forall f n, file_name src = Some f -> adjusted_name f policy = Ok n ->
    file_name (join (simplified dst_root) n) = Some n) ->
  translate_path src dst_root policy = Ok out ->
  exists dir name, is_reserved_windows_name name = false /\
    (out = join dir name \/ out = apply_long_path_prefix (join dir name)).
Proof.
  intros Hjoin. unfold translate_path. destruct (file_name src) as [f|]; [|done].
  intros (adjusted & Ha & Ho)%result_bind_Ok. specialize (Hjoin f adjusted eq_refl Ha).
  assert (Hr : is_reserved_windows_name adjusted = false).
  { unfold adjusted_name in Ha. destruct (normalize_name f policy _) as [n ch].
    destruct (is_reserved_windows_name n) eqn:Hn; [|by injection Ha as <-].
    destruct (reserved_name_strategy policy); [|done]. injection Ha as <-. apply suffixed_not_reserved. }
  exists (match long_path_strategy policy with
          | Truncate => if bool_decide (resolve_target_os (target_os policy) = Windows)
                           && (WINDOWS_MAX_PATH <? utf16_len (join (simplified dst_root) adjusted))
                        then default (simplified dst_root) (parent_path (join (simplified dst_root) adjusted))
                        else simplified dst_root
          | _ => simplified dst_root end).
  destruct (bool_decide _ && _) eqn:Hlong; [|injection Ho as <-; exists adjusted; split; [done|left; by case_match]].
  destruct (long_path_strategy policy).
  - destruct (negb _); [done|]. injection Ho as <-. exists adjusted. split; [done|]. by right.
  - injection Ho as <-. unfold truncate_to_max_path. rewrite Hjoin.
    destruct (parent_path (join (simplified dst_root) adjusted)) as [par|]; simpl.
    + eexists. split; [by apply truncated_not_reserved|]. by left.
    + exists adjusted. split; [done|]. by left.
  - done.
Qed.

(** ** Lengths *)

Lemma take_chars_count n s : 0 <= n -> count_chars (take_chars n s) <= n.
Proof.
  revert n. induction s as [|c s IH]; intros n Hn; simpl; [lia|].
  destruct (is_continuation c) eqn:Hc; simpl; [rewrite Hc; specialize (IH n Hn); lia|].
  destruct (Z.leb_spec n 0); simpl; [lia|]. rewrite Hc. specialize (IH (n - 1)). lia.
Qed.

Lemma count_chars_app a b : count_chars (a +:+ b) = count_chars a + count_chars b.
Proof. induction a as [|c a IH]; simpl; [done|]. lia. Qed.

(** A truncated name of characters of the basic plane fits, if its extension
    leaves room for one character. *)
Lemma truncated_name_fits k name ext : 0 <= k ->
  (rsplit_once "." name = None /\ ext = "" \/ exists l r, rsplit_once "." name = Some (l, r) /\ ext = String "." r) ->
  k + 4 + count_chars ext <= WINDOWS_MAX_PATH ->
  k + 1 + count_chars (truncated_name k name) <= WINDOWS_MAX_PATH.
Proof.
  intros Hk Hext Hroom. unfold truncated_name.
  assert (Hs : exists stem, match rsplit_once "." name with Some (l, r) => (l, String "." r) | None => (name, EmptyString) end = (stem, ext)).
  { destruct Hext as [[-> ->]|(l & r & -> & ->)]; by eexists. }
  destruct Hs as [stem ->]. rewrite !count_chars_app. change (count_chars "-t") with 2.
  set (n := Z.max 0 (WINDOWS_MAX_PATH - (k + 1 + 2 + count_chars ext))).
  pose proof (take_chars_count n stem ltac:(lia)) as Ht.
  destruct (String.eqb_spec (take_chars n stem) "") as [_|_]; [change (count_chars "x") with 1; lia|lia].
Qed.

(** ** A Unix host *)

Definition unix_join (r n : string) : string := r +:+ "/" +:+ n.
Definition unix_host : HostPath :=
  {| file_name := fun p => match rsplit_once "/" p with
                         | Some (_, n) => if String.eqb n "" then None else Some n | None => Some p end;
     parent_path := fun p => fst <$> rsplit_once "/" p; join := unix_join; is_absolute := starts_with "/";
     simplified := fun p => p; nfc := fun s => s; nfd := fun s => s; host_os := Linux |}.

Fixpoint repeat_str (n : nat) (s : string) : string := match n with O => "" | S n => s +:+ repeat_str n s end.

(** The character U+1D11E, two units of UTF-16. *)
Definition CLEF : string :=
  String (ascii_of_N 240) (String (ascii_of_N 157) (String (ascii_of_N 132) (str1 (ascii_of_N 158)))).

(** Truncation counts characters, so a name of supplementary characters stays
    too long; so does any name under a long directory. *)
Lemma truncation_may_not_fit :
  (WINDOWS_MAX_PATH <? 10 + 1 + utf16_len (truncated_name 10 (repeat_str 300 CLEF))) = true /\
  (WINDOWS_MAX_PATH <? 300 + 1 + utf16_len (truncated_name 300 "notes.txt")) = true.
Proof. vm_compute. split; reflexivity. Qed.

(** A path of 260 units has no room for its final zero, and is not treated as
    long. *)
Lemma max_path_is_off_by_one :
  let name := repeat_str 255 "n" in
  @translate_path unix_host ("/src/" +:+ name) "/out"
    {| target_os := Windows; unicode_normalization := AsIsName; line_endings := AsIsEnding;
       reserved_name_strategy := Suffix; long_path_strategy := RejectLong; line_ending_allowlist := [] |}
  = Ok ("/out/" +:+ name) /\ utf16_len ("/out/" +:+ name) = 260.
Proof. vm_compute. split; reflexivity. Qed.

(** A relative path is prefixed like any other. *)
Lemma relative_paths_are_prefixed : apply_long_path_prefix "docs" = VERBATIM +:+ "docs".
Proof. reflexivity. Qed.

(** A device name carried to Windows under a long directory, at the length
    where the name is cut. *)
Definition cut_policy : PathPolicy :=
  {| target_os := Windows; unicode_normalization := AutoName; line_endings := AsIsEnding;
     reserved_name_strategy := Suffix; long_path_strategy := Truncate; line_ending_allowlist := [] |}.
Definition long_root : string := "/" +:+ repeat_str 249 "d".
Definition long_source : string := "/src/con.report.txt".

Lemma translated_name_is_no_device_witness :
  @translate_path unix_host long_source long_root cut_policy = Ok (long_root +:+ "/con-t.txt") /\
  exists dir name, is_reserved_windows_name name = false /\
    (long_root +:+ "/con-t.txt" = @join unix_host dir name \/
     long_root +:+ "/con-t.txt" = apply_long_path_prefix (@join unix_host dir name)).
Proof.
  assert (He : @translate_path unix_host long_source long_root cut_policy = Ok (long_root +:+ "/con-t.txt"))
    by (vm_compute; reflexivity).
  split; [exact He|]. apply (translated_name_is_no_device long_source long_root cut_policy); [|exact He].
  intros f n Hf Hn. vm_compute in Hf. injection Hf as <-. vm_compute in Hn. injection Hn as <-. vm_compute. reflexivity.
Defined.
