(* ===== verification/Power.v ===== *)
(** * Power policies ([freally-power/src/policy.rs], [event.rs])

    The observed state, the user's rules, and the action the two give.  A
    32-bit float is kept as its bits: the policies store it and never look at
    it. *)
From S2P Require Import Prelude.
From S2P Require Import Text.
From stdpp Require Import options.
Open Scope Z_scope.

Inductive BatteryPolicy := BatContinue | BatPause | BatCap (bytes_per_second : Z).
Inductive NetworkPolicy := NetContinue | NetPause | NetCap (bytes_per_second : Z).
Inductive PresentationPolicy := PresContinue | PresPause | PresCap (bytes_per_second : Z).
Inductive FullscreenPolicy := FullContinue | FullPause | FullCap (bytes_per_second : Z).
Inductive ThermalPolicy := ThermContinue | ThermPause | ThermCapPercent (percent : Z).

Record PowerPolicies := {
  battery : BatteryPolicy;
  metered : NetworkPolicy;
  cellular : NetworkPolicy;
  presentation : PresentationPolicy;
  fullscreen_rule : FullscreenPolicy;
  thermal : ThermalPolicy
}.

Definition default_policies : PowerPolicies :=
  {| battery := BatContinue; metered := NetContinue; cellular := NetContinue;
     presentation := PresPause; fullscreen_rule := FullContinue; thermal := ThermCapPercent 50 |}.

(** ** Events and the observed state *)

Inductive NetworkClass := Unmetered | Metered | Cellular.
Inductive ThermalKind := KUnknown | X86Cpuid | OsReported.

Inductive PowerEvent :=
| BatteryStateChanged (on_battery : bool) (percent : Z)
| NetworkClassChanged (class : NetworkClass)
| PresentationStateChanged (presenting : bool)
| FullscreenChanged (fullscreen : bool)
| ThermalChanged (throttling : bool) (kind : ThermalKind).

Record PowerState := {
  on_battery : bool;
  battery_percent : Z;
  network_class : NetworkClass;
  presenting : bool;
  fullscreen : bool;
  throttling : bool;
  thermal_kind : ThermalKind
}.

Definition default_state : PowerState :=
  {| on_battery := false; battery_percent := 0; network_class := Unmetered; presenting := false;
     fullscreen := false; throttling := false; thermal_kind := KUnknown |}.

Definition apply_event (s : PowerState) (e : PowerEvent) : PowerState :=
  match e with
  | BatteryStateChanged b p =>
      {| on_battery := b; battery_percent := p; network_class := network_class s; presenting := presenting s;
         fullscreen := fullscreen s; throttling := throttling s; thermal_kind := thermal_kind s |}
  | NetworkClassChanged c =>
      {| on_battery := on_battery s; battery_percent := battery_percent s; network_class := c;
         presenting := presenting s; fullscreen := fullscreen s; throttling := throttling s;
         thermal_kind := thermal_kind s |}
  | PresentationStateChanged b =>
      {| on_battery := on_battery s; battery_percent := battery_percent s; network_class := network_class s;
         presenting := b; fullscreen := fullscreen s; throttling := throttling s; thermal_kind := thermal_kind s |}
  | FullscreenChanged b =>
      {| on_battery := on_battery s; battery_percent := battery_percent s; network_class := network_class s;
         presenting := presenting s; fullscreen := b; throttling := throttling s; thermal_kind := thermal_kind s |}
  | ThermalChanged b k =>
      {| on_battery := on_battery s; battery_percent := battery_percent s; network_class := network_class s;
         presenting := presenting s; fullscreen := fullscreen s; throttling := b; thermal_kind := k |}
  end.

(** ** Actions *)

Inductive PowerReason :=
| OnBattery | MeteredNetwork | CellularNetwork | Presenting | Fullscreen | ThermalThrottling.

#[export] Instance PowerReason_eq_dec : EqDecision PowerReason.
Proof. solve_decision. Defined.

Definition fluent_suffix (r : PowerReason) : string :=
  match r with
  | OnBattery => "on-battery"
  | MeteredNetwork => "metered-network"
  | CellularNetwork => "cellular-network"
  | Presenting => "presenting"
  | Fullscreen => "fullscreen"
  | ThermalThrottling => "thermal-throttling"
  end.

Inductive PowerAction :=
| AContinue
| APause (reason : PowerReason)
| ACap (bytes_per_second : Z) (reason : PowerReason).

#[export] Instance PowerAction_eq_dec : EqDecision PowerAction.
Proof. solve_decision. Defined.

Definition is_pause (a : PowerAction) : bool := match a with APause _ => true | _ => false end.

Definition reason (a : PowerAction) : option PowerReason :=
  match a with AContinue => None | APause r | ACap _ r => Some r end.

Definition combine (a b : PowerAction) : PowerAction :=
  match a, b with
  | APause _, _ => a
  | _, APause _ => b
  | ACap ba ra, ACap bb rb => if ba <=? bb then ACap ba ra else ACap bb rb
  | ACap _ _, AContinue => a
  | AContinue, ACap _ _ => b
  | AContinue, AContinue => AContinue
  end.

Definition stricter (a b : PowerAction) : PowerAction := combine a b.

(** ** From rules to actions *)

Inductive PolicyAction := PaContinue | PaPause | PaCap (bytes_per_second : Z).

Class IntoPolicyAction (P : Type) := into : P -> PolicyAction.

#[export] Instance into_battery : IntoPolicyAction BatteryPolicy := fun p =>
  match p with BatContinue => PaContinue | BatPause => PaPause | BatCap b => PaCap b end.

#[export] Instance into_network : IntoPolicyAction NetworkPolicy := fun p =>
  match p with NetContinue => PaContinue | NetPause => PaPause | NetCap b => PaCap b end.

Definition policy_to_action {P} `{IntoPolicyAction P} (policy : P) (r : PowerReason) : PowerAction :=
  match into policy with PaContinue => AContinue | PaPause => APause r | PaCap b => ACap b r end.

Definition presentation_to_action (policy : PresentationPolicy) (r : PowerReason) : PowerAction :=
  match policy with PresContinue => AContinue | PresPause => APause r | PresCap b => ACap b r end.

Definition fullscreen_to_action (policy : FullscreenPolicy) (r : PowerReason) : PowerAction :=
  match policy with FullContinue => AContinue | FullPause => APause r | FullCap b => ACap b r end.

(** A cap in percent becomes the cap 0, which the runner scales. *)
Definition thermal_to_action (policy : ThermalPolicy) : PowerAction :=
  match policy with
  | ThermContinue => AContinue
  | ThermPause => APause ThermalThrottling
  | ThermCapPercent _ => ACap 0 ThermalThrottling
  end.

Record ScopedActions := { global : PowerAction; network : PowerAction }.

#[export] Instance ScopedActions_eq_dec : EqDecision ScopedActions.
Proof. solve_decision. Defined.

Definition compute_scoped_actions (s : PowerState) (p : PowerPolicies) : ScopedActions :=
  let g := AContinue in
  let g := if on_battery s then combine g (policy_to_action (battery p) OnBattery) else g in
  let g := if presenting s then combine g (presentation_to_action (presentation p) Presenting) else g in
  let g := if fullscreen s then combine g (fullscreen_to_action (fullscreen_rule p) Fullscreen) else g in
  let g := if throttling s then combine g (thermal_to_action (thermal p)) else g in
  {| global := g;
     network := match network_class s with
                | Metered => policy_to_action (metered p) MeteredNetwork
                | Cellular => policy_to_action (cellular p) CellularNetwork
                | Unmetered => AContinue
                end |}.

Definition compute_action (s : PowerState) (p : PowerPolicies) : PowerAction :=
  let scoped := compute_scoped_actions s p in combine (global scoped) (network scoped).

(** ** Strictness *)

(** A pause is stricter than any cap, a lower cap than a higher one, a cap
    than nothing. *)
Definition at_most (a b : PowerAction) : Prop :=
  match a, b with
  | AContinue, _ => True
  | ACap x _, ACap y _ => y <= x
  | ACap _ _, APause _ => True
  | APause _, APause _ => True
  | _, _ => False
  end.

#[export] Instance at_most_preorder : PreOrder at_most.
Proof.
  split.
  - intros []; simpl; lia || done.
  - intros [] [] []; simpl; try done; lia.
Qed.

(** [a] is the first of the strictest actions of a list. *)
Definition first_strictest (a : PowerAction) (l : list PowerAction) : Prop :=
  exists l1 l2, l = l1 ++ a :: l2 /\ Forall (fun b => at_most b a /\ ~ at_most a b) l1 /\ Forall (fun b => at_most b a) l2.

(** The rules whose condition holds, in the order they are looked at. *)
Definition machine_rules (s : PowerState) (p : PowerPolicies) : list PowerAction :=
  (if on_battery s then [policy_to_action (battery p) OnBattery] else []) ++
  (if presenting s then [presentation_to_action (presentation p) Presenting] else []) ++
  (if fullscreen s then [fullscreen_to_action (fullscreen_rule p) Fullscreen] else []) ++
  (if throttling s then [thermal_to_action (thermal p)] else []).

Definition network_rules (s : PowerState) (p : PowerPolicies) : list PowerAction :=
  match network_class s with
  | Unmetered => []
  | Metered => [policy_to_action (metered p) MeteredNetwork]
  | Cellular => [policy_to_action (cellular p) CellularNetwork]
  end.

Lemma combine_cases a b :
  (combine a b = a /\ at_most b a) \/ (combine a b = b /\ at_most a b /\ ~ at_most b a).
Proof.
  destruct a as [|ra|x ra], b as [|rb|y rb]; simpl; auto; try (right; split; [done|split; [done|tauto]]).
  destruct (Z.leb_spec x y); [left; split; [done|lia]|right; split; [done|lia]].
Qed.

Lemma first_strictest_snoc a b l : first_strictest a l -> first_strictest (combine a b) (l ++ [b]).
Proof.
  intros (l1 & l2 & -> & H1 & H2). destruct (combine_cases a b) as [[-> Hb]|(-> & Hab & Hba)].
  - exists l1, (l2 ++ [b]). rewrite <- app_assoc. split; [done|]. split; [done|]. apply Forall_app; auto.
  - exists (l1 ++ a :: l2), []. split; [done|]. split; [|done].
    assert (Hlow : forall c, at_most c a -> at_most c b /\ ~ at_most b c).
    { intros c Hc. split; [by transitivity a|]. intros Hbc. apply Hba. by transitivity c. }
    apply Forall_app. split; [|apply Forall_cons; split].
    + apply (Forall_impl _ _ _ H1). intros c [Hc _]. by apply Hlow.
    + by apply Hlow.
    + apply (Forall_impl _ _ _ H2). intros c Hc. by apply Hlow.
Qed.

Lemma fold_strictest rules : forall a l, first_strictest a l -> first_strictest (foldl combine a rules) (l ++ rules).
Proof.
  induction rules as [|r rules IH]; intros a l H; simpl; [by rewrite app_nil_r|].
  specialize (IH _ _ (first_strictest_snoc a r l H)). by rewrite <- app_assoc in IH.
Qed.

Lemma global_is_fold s p : global (compute_scoped_actions s p) = foldl combine AContinue (machine_rules s p).
Proof.
  unfold compute_scoped_actions, machine_rules. destruct (on_battery s), (presenting s), (fullscreen s), (throttling s);
    reflexivity.
Qed.

Lemma network_is_fold s p : network (compute_scoped_actions s p) = foldl combine AContinue (network_rules s p).
Proof.
  unfold compute_scoped_actions, network_rules. destruct (network_class s); [done|destruct (metered p)|destruct (cellular p)];
    reflexivity.
Qed.

Lemma nothing_yet : first_strictest AContinue [AContinue].
Proof. exists [], []. split_and!; [done|constructor..]. Qed.

(** The machine-wide action is the first of the strictest rules among
    those whose condition holds, or none; so is the network action among the
    network rules; and the single action is a strictest of all of them. *)
Theorem action_is_strictest s p :
  first_strictest (global (compute_scoped_actions s p)) (AContinue :: machine_rules s p) /\
  first_strictest (network (compute_scoped_actions s p)) (AContinue :: network_rules s p) /\
  compute_action s p ∈ AContinue :: machine_rules s p ++ network_rules s p /\
  Forall (fun a => at_most a (compute_action s p)) (machine_rules s p ++ network_rules s p).
Proof.
  assert (Hg : first_strictest (global (compute_scoped_actions s p)) ([AContinue] ++ machine_rules s p))
    by (rewrite global_is_fold; apply fold_strictest, nothing_yet).
  assert (Hn : first_strictest (network (compute_scoped_actions s p)) ([AContinue] ++ network_rules s p))
    by (rewrite network_is_fold; apply fold_strictest, nothing_yet).
  split; [exact Hg|]. split; [exact Hn|]. unfold compute_action.
  assert (Hmem : forall a l, first_strictest a l -> a ∈ l /\ Forall (fun b => at_most b a) l).
  { intros a l (l1 & l2 & -> & H1 & H2). split; [set_solver|]. apply Forall_app. split; [|by constructor].
    apply (Forall_impl _ _ _ H1). tauto. }
  apply Hmem in Hg as [Hg1 Hg2]. apply Hmem in Hn as [Hn1 Hn2].
  apply Forall_app in Hg2 as [_ Hg2]. apply Forall_app in Hn2 as [_ Hn2].
  destruct (combine_cases (global (compute_scoped_actions s p)) (network (compute_scoped_actions s p)))
    as [[-> Hc]|(-> & Hc & _)].
  - split; [set_solver|]. apply Forall_app. split; [done|].
    apply (Forall_impl _ _ _ Hn2). intros a Ha. by transitivity (network (compute_scoped_actions s p)).
  - split; [set_solver|]. apply Forall_app. split; [|done].
    apply (Forall_impl _ _ _ Hg2). intros a Ha. by transitivity (global (compute_scoped_actions s p)).
Qed.

(** Applying an event twice is applying it once, and a later event of another
    kind does not disturb what it set. *)
Lemma apply_event_idempotent s e : apply_event (apply_event s e) e = apply_event s e.
Proof. by destruct e. Qed.

(** The cap that stands for a percentage is below every cap in bytes, so it
    hides a stricter one. *)
Lemma thermal_sentinel_hides_caps b percent : 0 <= b ->
  combine (ACap b OnBattery) (thermal_to_action (ThermCapPercent percent)) =
  if decide (b = 0) then ACap 0 OnBattery else ACap 0 ThermalThrottling.
Proof. intros Hb. simpl. case_decide as E; [by subst|]. by rewrite (proj2 (Z.leb_gt b 0)) by lia. Qed.
