(* ===== verification/PowerRunner.v ===== *)
(** * The power subscriber ([freally-ui/src-tauri/src/power.rs], [state.rs])

    The task that turns power events into pauses of the default queue's jobs,
    a cap on the shared shape and a gate for cloud transfers, and its books on
    what it holds.  [effective_shape_rate] is the rate the shape has when the
    subscriber owns no cap; its schedule is that of [Schedule.v].  Sets of job
    ids are walked in an order of the hash table's choosing, the parameter
    [order].

    The second part runs it on concrete inputs, and shows what it does not
    do. *)
From S2P Require Import Prelude.
From S2P Require Import Text.
From S2P Require Import Control.
From S2P Require Import Queue.
From S2P Require Import Registry.
From S2P Require Import Schedule.
From S2P Require Import Power.
From stdpp Require Import options.
Open Scope Z_scope.

(** ** Settings *)

Inductive PowerRuleChoice := RuleContinue | RulePause | RuleCap (bytes_per_second : Z).
Inductive ThermalRuleChoice := ThermalContinue | ThermalPause | ThermalCapPercent (percent : Z).

Record PowerPoliciesSettings := {
  enabled : bool;
  s_battery : PowerRuleChoice;
  s_metered : PowerRuleChoice;
  s_cellular : PowerRuleChoice;
  s_presentation : PowerRuleChoice;
  s_fullscreen : PowerRuleChoice;
  s_thermal : ThermalRuleChoice
}.

Definition default_power : PowerPoliciesSettings :=
  {| enabled := true; s_battery := RuleContinue; s_metered := RuleContinue; s_cellular := RuleContinue;
     s_presentation := RulePause; s_fullscreen := RuleContinue; s_thermal := ThermalPause |}.

Inductive BandwidthMode := BwOff | BwFixed | BwSchedule.
Inductive AutoThrottleRule := Unchanged | ThrottlePause | ThrottleCap (bytes_per_second : Z).

Record NetworkSettings := {
  mode : BandwidthMode;
  fixed_bytes_per_second : Z;
  schedule_spec : string;
  auto_on_metered : AutoThrottleRule;
  auto_on_battery : AutoThrottleRule;
  auto_on_cellular : AutoThrottleRule
}.

Definition default_network : NetworkSettings :=
  {| mode := BwOff; fixed_bytes_per_second := 0; schedule_spec := "";
     auto_on_metered := Unchanged; auto_on_battery := Unchanged; auto_on_cellular := Unchanged |}.

Record Settings := { power : PowerPoliciesSettings; network_settings : NetworkSettings }.

Definition rule_to_power_battery (r : PowerRuleChoice) : BatteryPolicy :=
  match r with RuleContinue => BatContinue | RulePause => BatPause | RuleCap b => BatCap b end.
Definition rule_to_power_network (r : PowerRuleChoice) : NetworkPolicy :=
  match r with RuleContinue => NetContinue | RulePause => NetPause | RuleCap b => NetCap b end.
Definition rule_to_presentation (r : PowerRuleChoice) : PresentationPolicy :=
  match r with RuleContinue => PresContinue | RulePause => PresPause | RuleCap b => PresCap b end.
Definition rule_to_fullscreen (r : PowerRuleChoice) : FullscreenPolicy :=
  match r with RuleContinue => FullContinue | RulePause => FullPause | RuleCap b => FullCap b end.
Definition rule_to_thermal (r : ThermalRuleChoice) : ThermalPolicy :=
  match r with ThermalContinue => ThermContinue | ThermalPause => ThermPause | ThermalCapPercent p => ThermCapPercent p end.

Definition policies_from_settings (s : PowerPoliciesSettings) : PowerPolicies :=
  {| battery := rule_to_power_battery (s_battery s); metered := rule_to_power_network (s_metered s);
     cellular := rule_to_power_network (s_cellular s); presentation := rule_to_presentation (s_presentation s);
     fullscreen_rule := rule_to_fullscreen (s_fullscreen s); thermal := rule_to_thermal (s_thermal s) |}.

(** ** The rate without the subscriber *)

Inductive AutoPowerState := PluggedIn | AutoOnBattery.

(** The probes of [freally-shape/src/auto.rs], as they stand. *)
Definition current_network_class : NetworkClass := Unmetered.
Definition current_power_state : AutoPowerState := PluggedIn.

(** The first active rule that says something. *)
Fixpoint first_override (l : list (bool * AutoThrottleRule)) : option Limit :=
  match l with
  | [] => None
  | (true, ThrottlePause) :: _ => Some (Some 0)
  | (true, ThrottleCap b) :: _ => Some (Some b)
  | _ :: l => first_override l
  end.

(** The local time a schedule is looked up at. *)
Record Moment := { weekday : Z; minute_of_day : Z }.

Definition effective_shape_rate (s : NetworkSettings) (now : Moment) : Limit :=
  let overrides :=
    [ (match current_network_class with Cellular => true | _ => false end, auto_on_cellular s);
      (match current_network_class with Metered => true | _ => false end, auto_on_metered s);
      (match current_power_state with AutoOnBattery => true | _ => false end, auto_on_battery s) ] in
  match first_override overrides with
  | Some r => r
  | None =>
      match mode s with
      | BwOff => None
      | BwFixed => if fixed_bytes_per_second s =? 0 then None else Some (fixed_bytes_per_second s)
      | BwSchedule =>
          match parse (schedule_spec s) with
          | Ok rules => current_limit rules (weekday now) (minute_of_day now)
          | Err _ => None
          end
      end
  end.

(** ** The shared state *)

(** The registry of cloud transfers, with the ids it has aborted. *)
Record CloudTransfers := { ct_next_id : Z; ct_active : gset Z; ct_paused : bool; ct_aborted : gset Z }.

Definition cloud_register (c : CloudTransfers) : CloudTransfers :=
  {| ct_next_id := wrap64 (ct_next_id c + 1); ct_active := {[ wrap64 (ct_next_id c + 1) ]} ∪ ct_active c;
     ct_paused := ct_paused c; ct_aborted := ct_aborted c |}.
Definition cloud_deregister (c : CloudTransfers) (i : Z) : CloudTransfers :=
  {| ct_next_id := ct_next_id c; ct_active := ct_active c ∖ {[i]}; ct_paused := ct_paused c; ct_aborted := ct_aborted c |}.
Definition cloud_cancel (c : CloudTransfers) (i : Z) : CloudTransfers * bool :=
  if decide (i ∈ ct_active c)
  then ({| ct_next_id := ct_next_id c; ct_active := ct_active c ∖ {[i]}; ct_paused := ct_paused c;
           ct_aborted := {[i]} ∪ ct_aborted c |}, true)
  else (c, false).
Definition cloud_cancel_all (c : CloudTransfers) : CloudTransfers :=
  {| ct_next_id := ct_next_id c; ct_active := ∅; ct_paused := ct_paused c; ct_aborted := ct_active c ∪ ct_aborted c |}.
Definition cloud_set_paused (c : CloudTransfers) (b : bool) : CloudTransfers :=
  {| ct_next_id := ct_next_id c; ct_active := ct_active c; ct_paused := b; ct_aborted := ct_aborted c |}.

(** [PowerActionDto]: kind, reason, cap. *)
Record PowerActionDto := { dto_kind : string; dto_reason : option string; dto_cap : option Z }.
Definition dto_of (a : PowerAction) : PowerActionDto :=
  match a with
  | AContinue => {| dto_kind := "continue"; dto_reason := None; dto_cap := None |}
  | APause r => {| dto_kind := "pause"; dto_reason := Some (fluent_suffix r); dto_cap := None |}
  | ACap b r => {| dto_kind := "cap"; dto_reason := Some (fluent_suffix r); dto_cap := Some b |}
  end.

(** The part of [AppState] the subscriber reads or writes, and the badges it
    has emitted. *)
Record App := {
  queue : Queue;
  queues : Registry;
  shape : Limit;
  cloud_transfers : CloudTransfers;
  badges : list PowerActionDto
}.

Record Bookkeeping := { power_paused_jobs : gset Z; power_owned_cap : option Z }.
Definition empty_book : Bookkeeping := {| power_paused_jobs := ∅; power_owned_cap := None |}.

Section runner.
Context (order : gset Z -> list Z) (windows : bool).

(** The first component of a path that is a share: [Prefix::UNC] or
    [Prefix::VerbatimUNC]; only Windows has prefixes. *)
Definition is_network_path (p : path) : bool :=
  match p with
  | c :: _ =>
      windows && (starts_with "\\?\UNC\" c || starts_with "\\" c && negb (starts_with "\\?\" c || starts_with "\\.\" c))
  | [] => false
  end.

Definition is_network_bound (j : Job) : bool :=
  is_network_path (src j) || match dst j with Some d => is_network_path d | None => false end.

Definition pause_covered (id : Z) (qb : Queue * gset Z) : Queue * gset Z :=
  if decide (id ∈ qb.2) then qb else (pause_job qb.1 id, {[id]} ∪ qb.2).

Definition resume_stale (id : Z) (qb : Queue * gset Z) : Queue * gset Z :=
  (resume_job qb.1 id, qb.2 ∖ {[id]}).

Definition desired_jobs (q : Queue) (global_pauses network_pauses : bool) : gset Z :=
  list_to_set (id <$> filter (fun j => global_pauses || network_pauses && is_network_bound j = true) (snapshot q)).

(** The per-job half of [apply_scoped]. *)
Definition reconcile (q : Queue) (owned : gset Z) (global_pauses network_pauses : bool) : Queue * gset Z :=
  let desired := desired_jobs q global_pauses network_pauses in
  let qb := foldl (fun qb id => pause_covered id qb) (q, owned) (order desired) in
  let stale := filter (fun id => id ∉ desired) (order qb.2) in
  foldl (fun qb id => resume_stale id qb) qb stale.

Definition resolve_cap_bps (current_rate : Limit) (snap : Settings) (bps : Z) (r : PowerReason) : Z :=
  if (bps =? 0) && bool_decide (r = ThermalThrottling) then
    let percent := match s_thermal (power snap) with ThermalCapPercent p => Z.min p 100 | _ => 50 end in
    sat_mul64 (default U64_MAX current_rate) percent / 100
  else bps.

(** The action the shape gets: a cap of the network rule counts for it. *)
Definition shape_action (scoped : ScopedActions) : PowerAction :=
  match network scoped with ACap _ _ => stricter (global scoped) (network scoped) | _ => global scoped end.

Definition apply_scoped (snap : Settings) (now : Moment) (scoped : ScopedActions) (ab : App * Bookkeeping)
    : App * Bookkeeping :=
  let '(a, b) := ab in
  let g := shape_action scoped in
  let '(q, owned) := reconcile (queue a) (power_paused_jobs b) (is_pause g) (is_pause (network scoped)) in
  let '(rate, cap) :=
    match g with
    | ACap bps r => let resolved := resolve_cap_bps (shape a) snap bps r in (Some resolved, Some resolved)
    | _ => match power_owned_cap b with
           | Some _ => (effective_shape_rate (network_settings snap) now, None)
           | None => (shape a, None)
           end
    end in
  let cloud := cloud_set_paused (cloud_transfers a) (is_pause (network scoped)) in
  let cloud := if is_pause (network scoped) then cloud_cancel_all cloud else cloud in
  ({| queue := q; queues := queues a; shape := rate; cloud_transfers := cloud;
      badges := badges a ++ [dto_of (stricter (global scoped) (network scoped))] |},
   {| power_paused_jobs := owned; power_owned_cap := cap |}).

Definition nothing : ScopedActions := {| global := AContinue; network := AContinue |}.

Definition release_power_owned (snap : Settings) (now : Moment) (ab : App * Bookkeeping) : App * Bookkeeping :=
  let '(a, b) := ab in
  ({| queue := foldl (fun q id => resume_job q id) (queue a) (order (power_paused_jobs b)); queues := queues a;
      shape := match power_owned_cap b with
               | Some _ => effective_shape_rate (network_settings snap) now | None => shape a end;
      cloud_transfers := cloud_set_paused (cloud_transfers a) false;
      badges := badges a ++ [dto_of AContinue] |},
   empty_book).

(** What the task keeps between events. *)
Record Runner := { app : App; book : Bookkeeping; observed : PowerState; last_scoped : ScopedActions }.

(** One turn of the loop of [spawn_power_subscriber]. *)
Definition on_event (snap : Settings) (now : Moment) (ev : PowerEvent) (r : Runner) : Runner :=
  if negb (enabled (power snap)) then
    let '(a, b) := release_power_owned snap now (app r, book r) in
    {| app := a; book := b; observed := observed r; last_scoped := nothing |}
  else
    let ps := apply_event (observed r) ev in
    let scoped := compute_scoped_actions ps (policies_from_settings (power snap)) in
    if bool_decide (scoped = last_scoped r)
    then {| app := app r; book := book r; observed := ps; last_scoped := last_scoped r |}
    else let '(a, b) := apply_scoped snap now scoped (app r, book r) in
         {| app := a; book := b; observed := ps; last_scoped := scoped |}.

Definition set_queue (q : Queue) (a : App) : App :=
  {| queue := q; queues := queues a; shape := shape a; cloud_transfers := cloud_transfers a; badges := badges a |}.
Definition set_queues (qs : Registry) (a : App) : App :=
  {| queue := queue a; queues := qs; shape := shape a; cloud_transfers := cloud_transfers a; badges := badges a |}.
Definition set_shape (l : Limit) (a : App) : App :=
  {| queue := queue a; queues := queues a; shape := l; cloud_transfers := cloud_transfers a; badges := badges a |}.
Definition set_cloud (c : CloudTransfers) (a : App) : App :=
  {| queue := queue a; queues := queues a; shape := shape a; cloud_transfers := c; badges := badges a |}.

(** [apply_network_settings_to_shape], also the minute tick of [lib.rs]. *)
Definition apply_network_settings_to_shape (s : NetworkSettings) (now : Moment) (a : App) : App :=
  set_shape (effective_shape_rate s now) a.

Definition with_app (f : App -> App) (r : Runner) : Runner :=
  {| app := f (app r); book := book r; observed := observed r; last_scoped := last_scoped r |}.

(** The subscriber among the other tasks: a power event under the settings of
    the moment, the tick, and whatever users and jobs do to the queues and
    the cloud transfers. *)
Inductive step : Runner -> Runner -> Prop :=
| step_event snap now ev r : step r (on_event snap now ev r)
| step_tick s now r : step r (with_app (apply_network_settings_to_shape s now) r)
| step_queue next op r : step r (with_app (fun a => set_queue (apply_op (queue a, next) op).1 a) r)
| step_queues qs r : step r (with_app (set_queues qs) r)
| step_register r : step r (with_app (fun a => set_cloud (cloud_register (cloud_transfers a)) a) r)
| step_deregister i r : step r (with_app (fun a => set_cloud (cloud_deregister (cloud_transfers a) i) a) r)
| step_cancel i r : step r (with_app (fun a => set_cloud (cloud_cancel (cloud_transfers a) i).1 a) r).

Definition start_runner (a : App) : Runner :=
  {| app := a; book := empty_book; observed := default_state; last_scoped := nothing |}.

(** ** Steering the queue *)

Definition paused_by_policy (j : Job) : Job := if can_pause j then with_state j JPaused else j.
Definition resumed_by_policy (j : Job) : Job := if can_resume j then resumed j else j.

Lemma paused_twice j : paused_by_policy (paused_by_policy j) = paused_by_policy j.
Proof. unfold paused_by_policy, can_pause. destruct (state j) eqn:E; simpl; by rewrite ?E. Qed.

Lemma resumed_twice j : resumed_by_policy (resumed_by_policy j) = resumed_by_policy j.
Proof.
  unfold resumed_by_policy, can_resume. destruct (state j) eqn:E; rewrite ?E; try done.
  unfold resumed. by destruct (started_at j).
Qed.

Lemma pause_owned x q owned : x ∈ owned -> pause_covered x (q, owned) = (q, owned).
Proof. intros H. unfold pause_covered. by rewrite decide_True. Qed.

Lemma pause_new x q owned : x ∉ owned -> pause_covered x (q, owned) = (pause_job q x, {[x]} ∪ owned).
Proof. intros H. unfold pause_covered. by rewrite decide_False. Qed.

Lemma pause_loop l : forall q owned, let qb := foldl (fun qb id => pause_covered id qb) (q, owned) l in
  qb.2 = list_to_set l ∪ owned /\
  forall i, get qb.1 i = if decide (i ∈ l /\ i ∉ owned) then paused_by_policy <$> get q i else get q i.
Proof.
  clear order. induction l as [|x l IH]; intros q owned; cbn [foldl fst snd].
  { split; [set_solver|]. intros i. by rewrite decide_False by set_solver. }
  destruct (decide (x ∈ owned)) as [Hx|Hx].
  - rewrite pause_owned by done. destruct (IH q owned) as [H1 H2]. split; [rewrite H1; set_solver|]. intros i. rewrite H2.
    destruct (decide (i ∈ l /\ i ∉ owned)) as [Hi|Hi]; [by rewrite decide_True by set_solver|].
    by rewrite decide_False by set_solver.
  - rewrite pause_new by done. destruct (IH (pause_job q x) ({[x]} ∪ owned)) as [H1 H2]. split; [rewrite H1; set_solver|]. intros i.
    rewrite H2, get_pause. destruct (decide (x = i)) as [<-|Hne].
    + by rewrite decide_False, decide_True by set_solver.
    + destruct (decide (i ∈ l /\ i ∉ {[x]} ∪ owned)) as [Hi|Hi]; [by rewrite decide_True by set_solver|].
      by rewrite decide_False by set_solver.
Qed.

Lemma resume_loop l : forall q, forall i, get (foldl (fun q id => resume_job q id) q l) i =
  if decide (i ∈ l) then resumed_by_policy <$> get q i else get q i.
Proof.
  clear order. induction l as [|x l IH]; intros q i; cbn [foldl]; [by rewrite decide_False by set_solver|].
  rewrite IH, get_resume. destruct (decide (x = i)) as [<-|Hne].
  - rewrite (decide_True (P := x ∈ x :: l)) by set_solver. destruct (decide (x ∈ l)); [|done].
    destruct (get q x) as [j|]; [|done]. simpl. f_equal. apply resumed_twice.
  - destruct (decide (i ∈ l)); [by rewrite decide_True by set_solver|by rewrite decide_False by set_solver].
Qed.

Lemma stale_loop l : forall qb, foldl (fun qb id => resume_stale id qb) qb l =
  (foldl (fun q id => resume_job q id) qb.1 l, qb.2 ∖ list_to_set l).
Proof.
  clear order. induction l as [|x l IH]; intros [q owned]; simpl; [f_equal; set_solver|]. rewrite IH. simpl. f_equal. set_solver.
Qed.

Context (Horder : forall s, order s ≡ₚ elements s).

Lemma elem_order i s : i ∈ order s <-> i ∈ s.
Proof using Horder. by rewrite (Horder s), elem_of_elements. Qed.

Lemma reconcile_spec q owned gp np : let r := reconcile q owned gp np in let desired := desired_jobs q gp np in
  r.2 = desired /\
  forall i, get r.1 i =
    if decide (i ∈ desired) then (if decide (i ∈ owned) then get q i else paused_by_policy <$> get q i)
    else if decide (i ∈ owned) then resumed_by_policy <$> get q i else get q i.
Proof using Horder.
  unfold reconcile. set (desired := desired_jobs q gp np). cbv zeta.
  pose proof (pause_loop (order desired) q owned) as [H1 H2]. rewrite stale_loop. simpl.
  assert (Hdes : list_to_set (order desired) = desired) by (apply set_eq; intros x; rewrite elem_of_list_to_set; apply elem_order).
  rewrite H1, Hdes. split.
  - apply set_eq. intros x. rewrite elem_of_difference, elem_of_list_to_set, list_elem_of_filter, elem_order. 
    destruct (decide (x ∈ desired)); set_solver.
  - intros i. rewrite resume_loop, H2. 
    assert (Hs : i ∈ filter (fun id => id ∉ desired) (order (desired ∪ owned)) <-> i ∉ desired /\ i ∈ owned).
    { rewrite list_elem_of_filter, elem_order. set_solver. }
    assert (Hp : (i ∈ order desired /\ i ∉ owned) <-> (i ∈ desired /\ i ∉ owned)) by by rewrite elem_order.
    rewrite (decide_ext _ _ _ _ Hs), (decide_ext _ _ _ _ Hp).
    repeat case_decide; tauto || done.
Qed.

(** The jobs the rules cover. *)
Definition covered (scoped : ScopedActions) (q : Queue) (i : Z) : Prop :=
  exists j, j ∈ snapshot q /\ id j = i /\
    (is_pause (shape_action scoped) = true \/ is_pause (network scoped) = true /\ is_network_bound j = true).

Lemma desired_covered scoped q i :
  i ∈ desired_jobs q (is_pause (shape_action scoped)) (is_pause (network scoped)) <-> covered scoped q i.
Proof using Type.
  unfold desired_jobs, covered. rewrite elem_of_list_to_set, list_elem_of_fmap. split.
  - intros (j & -> & Hj). apply list_elem_of_filter in Hj as [H Hj]. exists j. split_and!; [done..|].
    by rewrite orb_true_iff, andb_true_iff in H.
  - intros (j & Hj & <- & H). exists j. split; [done|]. apply list_elem_of_filter. split; [|done].
    by rewrite orb_true_iff, andb_true_iff.
Qed.

Lemma apply_scoped_queue snap now scoped a b : let ab := apply_scoped snap now scoped (a, b) in
  (queue ab.1, power_paused_jobs ab.2) =
  reconcile (queue a) (power_paused_jobs b) (is_pause (shape_action scoped)) (is_pause (network scoped)).
Proof using Type.
  unfold apply_scoped. destruct (reconcile _ _ _ _) as [q owned].
  destruct (shape_action scoped); simpl; try done; by destruct (power_owned_cap b).
Qed.

(** Applying an action pauses exactly the jobs the rules cover and the
    policy did not hold before, resumes exactly those it held and which are no
    longer covered, touches no other job, and then holds the covered ones. *)
Theorem policy_steers_exactly_its_jobs snap now scoped a b :
  let ab := apply_scoped snap now scoped (a, b) in let held := power_paused_jobs b in
  (forall i, i ∈ power_paused_jobs ab.2 <-> covered scoped (queue a) i) /\
  (forall i, covered scoped (queue a) i -> i ∉ held -> get (queue ab.1) i = paused_by_policy <$> get (queue a) i) /\
  (forall i, ~ covered scoped (queue a) i -> i ∈ held -> get (queue ab.1) i = resumed_by_policy <$> get (queue a) i) /\
  (forall i, (covered scoped (queue a) i <-> i ∈ held) -> get (queue ab.1) i = get (queue a) i).
Proof using Horder.
  cbv zeta. pose proof (apply_scoped_queue snap now scoped a b) as Hab. cbv zeta in Hab.
  pose proof (reconcile_spec (queue a) (power_paused_jobs b) (is_pause (shape_action scoped)) (is_pause (network scoped))) as [H1 H2].
  rewrite <- Hab in H1, H2. cbn [fst snd] in H1, H2. setoid_rewrite <- desired_covered. rewrite H1.
  split_and!; intros i; [done|intros Hc Ho..|intros Hc]; rewrite H2; repeat case_decide; done || tauto.
Qed.

(** ** What is held *)

Definition no_pause (scoped : ScopedActions) : bool := negb (is_pause (shape_action scoped) || is_pause (network scoped)).

Record books_true (r : Runner) : Prop := {
  bt_cap : power_owned_cap (book r) <> None <-> exists b x, shape_action (last_scoped r) = ACap b x;
  bt_gate : ct_paused (cloud_transfers (app r)) = is_pause (network (last_scoped r));
  bt_jobs : no_pause (last_scoped r) = true -> power_paused_jobs (book r) = ∅;
  bt_badge : default (dto_of AContinue) (list.last (badges (app r))) =
             dto_of (stricter (global (last_scoped r)) (network (last_scoped r)))
}.

Lemma nothing_desired scoped q : no_pause scoped = true ->
  desired_jobs q (is_pause (shape_action scoped)) (is_pause (network scoped)) = ∅.
Proof using Type.
  unfold no_pause. rewrite negb_true_iff, orb_false_iff. intros [Hg Hn]. apply set_eq. intros i.
  rewrite desired_covered. split; [|by intros ?%elem_of_empty]. intros (j & _ & _ & [H|[H _]]); congruence.
Qed.

Lemma apply_scoped_true snap now scoped obs a b :
  let ab := apply_scoped snap now scoped (a, b) in
  books_true {| app := ab.1; book := ab.2; observed := obs; last_scoped := scoped |}.
Proof using Horder.
  cbv zeta. pose proof (apply_scoped_queue snap now scoped a b) as Hab. cbv zeta in Hab.
  pose proof (reconcile_spec (queue a) (power_paused_jobs b) (is_pause (shape_action scoped)) (is_pause (network scoped))) as [H1 _].
  rewrite <- Hab in H1. cbn [snd] in H1. split; cbn [app book last_scoped].
  - unfold apply_scoped. destruct (reconcile _ _ _ _) as [q owned]. destruct (shape_action scoped) as [|x|c x]; cbn [fst snd].
    + destruct (power_owned_cap b); simpl; split; (done || intros (? & ? & ?); done).
    + destruct (power_owned_cap b); simpl; split; (done || intros (? & ? & ?); done).
    + split; [by eexists _, _|done].
  - unfold apply_scoped. destruct (reconcile _ _ _ _) as [q owned].
    destruct (match shape_action scoped with ACap _ _ => _ | _ => _ end) as [rate cap]. simpl.
    by destruct (is_pause (network scoped)).
  - intros Hn. rewrite H1. by apply nothing_desired.
  - unfold apply_scoped. destruct (reconcile _ _ _ _) as [q owned].
    destruct (match shape_action scoped with ACap _ _ => _ | _ => _ end) as [rate cap]. simpl.
    by rewrite list.last_snoc.
Qed.

Lemma released_true snap now obs a b : let ab := release_power_owned snap now (a, b) in
  books_true {| app := ab.1; book := ab.2; observed := obs; last_scoped := nothing |}.
Proof using Type.
  split; cbn -[list.last]; try done; [|by rewrite list.last_snoc].
  split; [done|]. by intros (? & ? & ?).
Qed.

Lemma on_event_true snap now ev r : books_true r -> books_true (on_event snap now ev r).
Proof using Horder.
  intros H. unfold on_event. destruct (negb (enabled (power snap))).
  - apply (released_true snap now (observed r) (app r) (book r)).
  - set (scoped := compute_scoped_actions _ _). case_bool_decide as Hs; [by destruct H; split|].
    pose proof (apply_scoped_true snap now scoped (apply_event (observed r) ev) (app r) (book r)) as Ht. cbv zeta in Ht.
    by destruct (apply_scoped snap now scoped (app r, book r)).
Qed.

Lemma with_app_true f r : books_true r ->
  badges (f (app r)) = badges (app r) -> ct_paused (cloud_transfers (f (app r))) = ct_paused (cloud_transfers (app r)) ->
  books_true (with_app f r).
Proof using Type. intros [] Hb Hc. split; simpl; by rewrite ?Hb, ?Hc. Qed.

Lemma step_true r r' : step r r' -> books_true r -> books_true r'.
Proof using Horder.
  intros [] H; try (by apply on_event_true); apply with_app_true; try done.
  simpl. unfold cloud_cancel. by case_decide.
Qed.

(** Whatever events, settings, ticks and users do, the books agree with the
    last action. *)
Theorem books_stay_true a r :
  ct_paused (cloud_transfers a) = false -> badges a = [] -> rtc step (start_runner a) r -> books_true r.
Proof using Horder.
  intros Hc Hb Hr. assert (H0 : books_true (start_runner a)).
  { split; simpl; [|done|done|by rewrite Hb]. split; [done|]. by intros (? & ? & ?). }
  clear Hc Hb. induction Hr as [|x y z Hxy Hyz IH]; [done|]. apply IH. by apply (step_true x y).
Qed.

(** ** Undoing a pause *)

(** A job the runner and the user left in its natural state. *)
Definition natural (j : Job) : Prop :=
  match state j with
  | JPaused => False
  | Running => started_at j <> None
  | Pending => started_at j = None
  | _ => True
  end.

Lemma pause_resume_natural j : natural j -> resumed_by_policy (paused_by_policy j) = j.
Proof using Type.
  clear order windows Horder. unfold natural, paused_by_policy, resumed_by_policy, can_pause, can_resume.
  destruct j as [i k sr ds st bd bt fd ft sa fa le]. simpl. destruct st; simpl; try done.
  - by intros ->.
  - by destruct sa.
Qed.

Lemma resume_natural j : natural j -> resumed_by_policy j = j.
Proof using Type. unfold natural, resumed_by_policy, can_resume. by destruct (state j). Qed.

(** ** A run of events *)

(** What the policies depend on in a job, and no steering changes. *)
Definition aspect (j : Job) : Z * path * option path := (id j, src j, dst j).
Definition aspects (q : Queue) : list (Z * path * option path) := aspect <$> snapshot q.

Lemma update_aspects i f l : (forall e, aspect (job (f e)) = aspect (job e)) ->
  aspect <$> (job <$> update_entry i f l) = aspect <$> (job <$> l).
Proof using Type.
  intros Hf. induction l as [|e l IH]; [done|]. simpl. destruct (_ =? _); simpl; [by rewrite Hf|]. f_equal. exact IH.
Qed.

Lemma aspects_steer q i acts f g ev : (forall j, aspect (f j) = aspect j) ->
  aspects (let '(q, due) := locked q i acts f in if due then signal q i g ev else q) = aspects q.
Proof using Type.
  intros Hf. unfold locked. destruct (find_entry i _) as [e|]; [|done]. destruct (acts _); [|done].
  unfold aspects, snapshot, signal. simpl. rewrite (update_aspects _ (set_control g)) by done.
  apply update_aspects. intros x. apply Hf.
Qed.

Lemma aspects_pause q i : aspects (pause_job q i) = aspects q.
Proof using Type. exact (aspects_steer q i can_pause (fun j => with_state j JPaused) pause (JobPaused i) (fun _ => eq_refl)). Qed.

Lemma aspects_resume q i : aspects (resume_job q i) = aspects q.
Proof using Type. exact (aspects_steer q i can_resume resumed resume (JobResumed i) (fun _ => eq_refl)). Qed.

Lemma aspects_resume_all l q : aspects (foldl (fun q id => resume_job q id) q l) = aspects q.
Proof using Type. revert q. induction l as [|x l IH]; intros q; [done|]. simpl. by rewrite IH, aspects_resume. Qed.

Lemma aspects_pause_all l : forall qb, aspects (foldl (fun qb id => pause_covered id qb) qb l).1 = aspects qb.1.
Proof using Type.
  induction l as [|x l IH]; intros [q owned]; [done|]. simpl. rewrite IH. unfold pause_covered. simpl.
  case_decide; [done|]. apply aspects_pause.
Qed.

Lemma aspects_reconcile q owned gp np : aspects (reconcile q owned gp np).1 = aspects q.
Proof using Type. unfold reconcile. rewrite stale_loop. simpl. by rewrite aspects_resume_all, aspects_pause_all. Qed.

Lemma desired_aspects q q' gp np : aspects q = aspects q' -> desired_jobs q gp np = desired_jobs q' gp np.
Proof using Type.
  unfold aspects, desired_jobs. generalize (snapshot q) (snapshot q'). intros l. induction l as [|j l IH]; intros [|j' l']; try done.
  rewrite !fmap_cons. intros [= H1 H2 H3 H]. rewrite !filter_cons.
  assert (Hb : is_network_bound j = is_network_bound j') by (unfold is_network_bound; by rewrite H2, H3).
  rewrite Hb. specialize (IH l' H). case_decide; [|exact IH]. rewrite !fmap_cons, !list_to_set_cons, H1. f_equal. exact IH.
Qed.

(** The jobs the subscriber holds under an action. *)
Definition to_hold (q : Queue) (scoped : ScopedActions) : gset Z :=
  desired_jobs q (is_pause (shape_action scoped)) (is_pause (network scoped)).

(** What the shape is under an action: the cap of the rule (a cap in percent
    is some cap), or the rate the settings gave when a cap was given up. *)
Definition shaped (a : App) (past : list (Settings * Moment)) (scoped : ScopedActions) (rate owned : Limit) : Prop :=
  match shape_action scoped with
  | ACap bps x => exists c, rate = Some c /\ owned = Some c /\ (c = bps \/ bps = 0 /\ x = ThermalThrottling)
  | _ => owned = None /\
         (rate = shape a \/ exists snap now, (snap, now) ∈ past /\ rate = effective_shape_rate (network_settings snap) now)
  end.

(** After a run of events that starts at [a]. *)
Record acted (a : App) (past : list (Settings * Moment)) (r : Runner) : Prop := {
  ac_aspects : aspects (queue (app r)) = aspects (queue a);
  ac_held : power_paused_jobs (book r) = to_hold (queue a) (last_scoped r);
  ac_jobs i : get (queue (app r)) i =
    if decide (i ∈ to_hold (queue a) (last_scoped r)) then paused_by_policy <$> get (queue a) i else get (queue a) i;
  ac_gate : ct_paused (cloud_transfers (app r)) = is_pause (network (last_scoped r));
  ac_active : is_pause (network (last_scoped r)) = true -> ct_active (cloud_transfers (app r)) = ∅;
  ac_shape : shaped a past (last_scoped r) (shape (app r)) (power_owned_cap (book r))
}.

Lemma hold_nothing q : to_hold q nothing = ∅.
Proof using Type. exact (nothing_desired nothing q eq_refl). Qed.

Lemma get_natural q i j : Forall natural (snapshot q) -> get q i = Some j -> natural j.
Proof using Type.
  intros Hnat Hj. unfold get in Hj. destruct (find_entry i (q_entries q)) as [e|] eqn:He; [|done].
  injection Hj as <-. apply find_entry_id in He as [_ He]. rewrite Forall_forall in Hnat. apply Hnat.
  by apply list_elem_of_fmap_2.
Qed.

Lemma resumed_again q i : Forall natural (snapshot q) -> resumed_by_policy <$> (paused_by_policy <$> get q i) = get q i.
Proof using Type.
  intros Hn. destruct (get q i) as [j|] eqn:Hj; [|done]. simpl. f_equal. by eapply pause_resume_natural, get_natural.
Qed.

Lemma start_acted a : ct_paused (cloud_transfers a) = false -> acted a [] (start_runner a).
Proof using Type.
  intros Hc. split; simpl; try done; [by rewrite hold_nothing| |].
  - intros i. by rewrite hold_nothing.
  - split; [done|by left].
Qed.

Lemma shaped_more a past p scoped rate owned : shaped a past scoped rate owned -> shaped a (past ++ [p]) scoped rate owned.
Proof using Type.
  unfold shaped. destruct (shape_action scoped) as [|x|c x]; [| |done]; intros [H1 [H2|(u & v & H2 & H3)]]; (split; [done|]);
    [by left| |by left|]; right; exists u, v; (split; [|done]); apply elem_of_app; by left.
Qed.

Lemma released_acted a past snap now r : Forall natural (snapshot (queue a)) -> acted a past r ->
  let ab := release_power_owned snap now (app r, book r) in
  acted a (past ++ [(snap, now)]) {| app := ab.1; book := ab.2; observed := observed r; last_scoped := nothing |}.
Proof using Horder.
  intros Hn [H1 H2 H3 H4 H5 H6]. split; cbn; try done.
  - by rewrite aspects_resume_all.
  - by rewrite hold_nothing.
  - intros i. rewrite hold_nothing, (decide_False (P := i ∈ ∅)) by set_solver. rewrite resume_loop, H3, <- H2.
    rewrite (decide_ext _ _ _ _ (elem_order i _)). case_decide; [by apply resumed_again|done].
  - split; [done|]. destruct (power_owned_cap (book r)) eqn:Ho.
    + right. exists snap, now. split; [|done]. apply elem_of_app. right. by left.
    + unfold shaped in H6. destruct (shape_action (last_scoped r)) as [|x|c x]; [| |by destruct H6 as (? & _ & ? & _)];
        (destruct H6 as [_ [H|(u & v & Hx & H)]]; [by left|]); right; exists u, v; (split; [|done]); apply elem_of_app; by left.
Qed.

Lemma applied_acted a past snap now scoped obs r : Forall natural (snapshot (queue a)) -> acted a past r ->
  let ab := apply_scoped snap now scoped (app r, book r) in
  acted a (past ++ [(snap, now)]) {| app := ab.1; book := ab.2; observed := obs; last_scoped := scoped |}.
Proof using Horder.
  intros Hn [H1 H2 H3 H4 H5 H6]. cbv zeta. pose proof (apply_scoped_queue snap now scoped (app r) (book r)) as Hab. cbv zeta in Hab.
  set (gp := is_pause (shape_action scoped)) in *. set (np := is_pause (network scoped)) in *.
  pose proof (reconcile_spec (queue (app r)) (power_paused_jobs (book r)) gp np) as [Hheld Hget].
  pose proof (aspects_reconcile (queue (app r)) (power_paused_jobs (book r)) gp np) as Hasp.
  rewrite <- Hab in Hheld, Hget, Hasp. cbn [fst snd] in Hheld, Hget, Hasp.
  rewrite (desired_aspects _ (queue a) gp np H1) in Hheld, Hget. fold (to_hold (queue a) scoped) in Hheld, Hget.
  split; cbn [app book last_scoped].
  - by rewrite Hasp.
  - done.
  - intros i. rewrite Hget, H2, H3. repeat case_decide; try done. by apply resumed_again.
  - unfold apply_scoped. destruct (reconcile _ _ _ _) as [q owned].
    destruct (match shape_action scoped with ACap _ _ => _ | _ => _ end) as [rate cap]. simpl. by destruct (is_pause (network scoped)).
  - unfold apply_scoped. destruct (reconcile _ _ _ _) as [q owned].
    destruct (match shape_action scoped with ACap _ _ => _ | _ => _ end) as [rate cap]. simpl. by intros ->.
  - clear -H6. unfold apply_scoped. destruct (reconcile _ _ _ _) as [q owned].
    assert (Hfree : forall rate cap : Limit, (rate, cap) = match power_owned_cap (book r) with
        | Some _ => (effective_shape_rate (network_settings snap) now, None : Limit) | None => (shape (app r), None : Limit) end ->
        cap = None /\ (rate = shape a \/ exists s t, (s, t) ∈ past ++ [(snap, now)] /\ rate = effective_shape_rate (network_settings s) t)).
    { intros rate cap. destruct (power_owned_cap (book r)) eqn:Ho; intros [= -> ->]; (split; [done|]).
      - right. exists snap, now. split; [|done]. apply elem_of_app. right. by left.
      - unfold shaped in H6. destruct (shape_action (last_scoped r)) as [|x|c x]; [| |by destruct H6 as (? & _ & ? & _)];
          (destruct H6 as [_ [H|(u & v & Hx & H)]]; [by left|]); right; exists u, v; (split; [|done]); apply elem_of_app; by left. }
    unfold shaped. destruct (shape_action scoped) as [|x|c x].
    + destruct (power_owned_cap (book r)); by apply Hfree.
    + destruct (power_owned_cap (book r)); by apply Hfree.
    + simpl. eexists. split_and!; [done..|]. unfold resolve_cap_bps. destruct (_ && _) eqn:Hb; [right|by left].
      apply andb_true_iff in Hb as [Hb%Z.eqb_eq Hx%bool_decide_eq_true]. done.
Qed.

Lemma event_acted a past snap now ev r : Forall natural (snapshot (queue a)) -> acted a past r ->
  let r' := on_event snap now ev r in acted a (past ++ [(snap, now)]) r' /\
  observed r' = (if enabled (power snap) then apply_event (observed r) ev else observed r) /\
  last_scoped r' = if enabled (power snap) then compute_scoped_actions (observed r') (policies_from_settings (power snap)) else nothing.
Proof using Horder.
  intros Hn Hr. unfold on_event. destruct (enabled (power snap)); simpl negb; cbv iota.
  - set (ps := apply_event (observed r) ev). set (scoped := compute_scoped_actions ps _). case_bool_decide as Hs.
    + split_and!; [|done|by rewrite <- Hs]. destruct Hr as [H1 H2 H3 H4 H5 H6]. split; try done. by apply shaped_more.
    + pose proof (applied_acted a past snap now scoped ps r Hn Hr) as H. cbv zeta in H.
      by destruct (apply_scoped snap now scoped (app r, book r)).
  - pose proof (released_acted a past snap now r Hn Hr) as H. cbv zeta in H.
    by destruct (release_power_owned snap now (app r, book r)).
Qed.

(** Events with the settings and the time they are handled under. *)
Definition run_events (l : list (Settings * Moment * PowerEvent)) (r : Runner) : Runner :=
  foldl (fun r '(snap, now, ev) => on_event snap now ev r) r l.

(** What the events say that come while the policies are enabled. *)
Definition state_seen (l : list (Settings * Moment * PowerEvent)) : PowerState :=
  foldl (fun ps '(snap, now, ev) => if enabled (power snap) then apply_event ps ev else ps) default_state l.

Lemma run_acted a l : Forall natural (snapshot (queue a)) -> ct_paused (cloud_transfers a) = false ->
  acted a l.*1 (run_events l (start_runner a)) /\ observed (run_events l (start_runner a)) = state_seen l.
Proof using Horder.
  intros Hn Hc. induction l as [|[[snap now] ev] l [IH1 IH2]] using rev_ind; [split; [by apply start_acted|done]|].
  unfold run_events, state_seen in *. rewrite !foldl_app, fmap_app. simpl.
  destruct (event_acted a l.*1 snap now ev _ Hn IH1) as (H1 & H2 & _). split; [exact H1|]. by rewrite H2, IH2.
Qed.


(** A pause comes undone: when the rules that paused the jobs of a queue
    stop acting, or the policies are disabled, every job that was not paused
    before is as it was before. *)
Theorem power_pause_comes_undone snap now snap' now' scoped a :
  Forall natural (snapshot (queue a)) ->
  let held := apply_scoped snap now scoped (a, empty_book) in
  (forall i, get (queue (apply_scoped snap' now' nothing held).1) i = get (queue a) i) /\
  (forall i, get (queue (release_power_owned snap' now' held).1) i = get (queue a) i) /\
  ct_paused (cloud_transfers (apply_scoped snap' now' nothing held).1) = false.
Proof using Horder.
  intros Hnat. cbv zeta. destruct (apply_scoped snap now scoped (a, empty_book)) as [a1 b1] eqn:E1.
  pose proof (apply_scoped_queue snap now scoped a empty_book) as Hab. cbv zeta in Hab. rewrite E1 in Hab. cbn [fst snd] in Hab.
  pose proof (reconcile_spec (queue a) ∅ (is_pause (shape_action scoped)) (is_pause (network scoped))) as [H1 H2].
  change (power_paused_jobs empty_book) with (∅ : gset Z) in Hab. rewrite <- Hab in H1, H2. cbn [fst snd] in H1, H2.
  assert (Hget : forall i j, get (queue a) i = Some j -> natural j).
  { intros i j Hj. unfold get in Hj. destruct (find_entry i (q_entries (queue a))) as [e|] eqn:He; [|done].
    injection Hj as <-. apply find_entry_id in He as [_ He]. rewrite Forall_forall in Hnat. apply Hnat.
    by apply list_elem_of_fmap_2. }
  assert (Hback : forall i, (if decide (i ∈ power_paused_jobs b1) then resumed_by_policy <$> get (queue a1) i
                             else get (queue a1) i) = get (queue a) i).
  { intros i. rewrite H2, H1. destruct (decide (i ∈ desired_jobs _ _ _)).
    - rewrite (decide_False (P := i ∈ ∅)) by set_solver. destruct (get (queue a) i) as [j|] eqn:Hj; [|done]. simpl.
      f_equal. by apply pause_resume_natural, (Hget i).
    - by rewrite decide_False by set_solver. }
  split_and!.
  - intros i. pose proof (apply_scoped_queue snap' now' nothing a1 b1) as H3. cbv zeta in H3.
    pose proof (reconcile_spec (queue a1) (power_paused_jobs b1) false false) as [_ H4].
    change (reconcile (queue a1) (power_paused_jobs b1) (is_pause (shape_action nothing)) (is_pause (network nothing)))
      with (reconcile (queue a1) (power_paused_jobs b1) false false) in H3.
    rewrite <- H3 in H4. cbn [fst] in H4. rewrite H4, <- (Hback i).
    assert (Hn : desired_jobs (queue a1) false false = ∅) by exact (nothing_desired nothing (queue a1) eq_refl).
    rewrite Hn. by rewrite (decide_False (P := i ∈ ∅)) by set_solver.
  - intros i. unfold release_power_owned. cbn [fst queue]. rewrite resume_loop, <- (Hback i).
    by rewrite (decide_ext _ _ _ _ (elem_order i _)).
  - exact (bt_gate _ (apply_scoped_true snap' now' nothing default_state a1 b1)).
Qed.

End runner.

(** * The power subscriber on concrete inputs

    Witnesses of the theorems of [PowerRunner.v], and what the subscriber does
    not do. *)

(** Two jobs, one of them to a share; a fixed rate of 1000 bytes a second. *)
Definition demo_jobs : Queue :=
  let q := queue_new 0 "default" in
  let q := (apply_op (q, 1) (OpAdd KCopy ["C:"; "a"] (Some ["\\server\share"; "a"]))).1 in
  let q := (apply_op (q, 2) (OpAdd KCopy ["C:"; "b"] (Some ["D:"; "b"]))).1 in
  start q 1 50.

Definition demo_app (q : Queue) : App :=
  {| queue := q; queues := registry_new; shape := Some 1000;
     cloud_transfers := {| ct_next_id := 0; ct_active := {[7]}; ct_paused := false; ct_aborted := ∅ |}; badges := [] |}.

Definition demo_network : NetworkSettings :=
  {| mode := BwFixed; fixed_bytes_per_second := 1000; schedule_spec := "";
     auto_on_metered := Unchanged; auto_on_battery := Unchanged; auto_on_cellular := Unchanged |}.

(** Metered connections pause, battery caps at 400, heat halves. *)
Definition demo_settings : Settings :=
  {| power := {| enabled := true; s_battery := RuleCap 400; s_metered := RulePause; s_cellular := RuleContinue;
                 s_presentation := RulePause; s_fullscreen := RuleContinue; s_thermal := ThermalCapPercent 50 |};
     network_settings := demo_network |}.

Definition switched_off : Settings :=
  {| power := {| enabled := false; s_battery := RulePause; s_metered := RulePause; s_cellular := RuleContinue;
                 s_presentation := RulePause; s_fullscreen := RuleContinue; s_thermal := ThermalPause |};
     network_settings := demo_network |}.

Definition noon : Moment := {| weekday := 1; minute_of_day := 720 |}.

Definition by_elements (s : gset Z) : list Z := elements s.
Lemma by_elements_ok s : by_elements s ≡ₚ elements s.
Proof. done. Qed.

Definition event (ev : PowerEvent) (r : Runner) : Runner := on_event by_elements true demo_settings noon ev r.
Definition states (r : Runner) : list JobState := state <$> snapshot (queue (app r)).

Definition metered_now : ScopedActions := {| global := AContinue; network := APause MeteredNetwork |}.

(** Only the job to the share is paused. *)
Lemma policy_steers_exactly_its_jobs_witness :
  let ab := apply_scoped by_elements true demo_settings noon metered_now (demo_app demo_jobs, empty_book) in
  state <$> get (queue ab.1) 1 = Some JPaused /\ get (queue ab.1) 2 = get demo_jobs 2 /\
  (forall i, i ∈ power_paused_jobs ab.2 <-> covered true metered_now demo_jobs i).
Proof.
  destruct (policy_steers_exactly_its_jobs by_elements true by_elements_ok demo_settings noon metered_now
              (demo_app demo_jobs) empty_book) as (H1 & H2 & H3 & H4).
  assert (C1 : covered true metered_now demo_jobs 1).
  { eexists. split; [left|]. split; [reflexivity|]. right. split; vm_compute; reflexivity. }
  assert (C2 : ~ covered true metered_now demo_jobs 2).
  { intros (j & Hj & Hi & [H|[_ H]]); [done|]. unfold demo_jobs in Hj. vm_compute in Hj.
    apply elem_of_cons in Hj as [-> | Hj]; [done|]. apply list_elem_of_singleton in Hj as ->. by vm_compute in H. }
  cbv zeta. split; [|split; [|exact H1]].
  - rewrite (H2 1 C1) by apply not_elem_of_empty. vm_compute. reflexivity.
  - apply H4. split; [done|by intros ?%elem_of_empty].
Defined.

(** On a metered connection, then unplugged, then off the metered one. *)
Definition demo_events : list (Settings * Moment * PowerEvent) :=
  [(demo_settings, noon, NetworkClassChanged Metered); (demo_settings, noon, BatteryStateChanged true 0)].

#[local] Abbreviation demo_run l := (run_events by_elements true l (start_runner (demo_app demo_jobs))).


Lemma power_pause_comes_undone_witness :
  let held := apply_scoped by_elements true demo_settings noon metered_now (demo_app demo_jobs, empty_book) in
  state <$> get (queue held.1) 1 = Some JPaused /\
  get (queue (release_power_owned by_elements switched_off noon held).1) 1 = get demo_jobs 1.
Proof.
  cbv zeta. split; [vm_compute; reflexivity|].
  assert (Hn : Forall natural (snapshot (queue (demo_app demo_jobs)))).
  { unfold demo_app, demo_jobs. repeat constructor. done. }
  apply (power_pause_comes_undone by_elements true by_elements_ok demo_settings noon switched_off noon metered_now
           (demo_app demo_jobs) Hn).
Defined.

(** ** What it does not do *)

(** Jobs are routed into the registry's queues; the policy pauses the jobs of
    the default queue alone, whatever the badge says. *)
Lemma routed_jobs_are_not_paused :
  let routed := (route None registry_new KCopy ["C:"; "a"] (Some ["D:"; "a"])).1.1 in
  let r := start_runner (set_queues routed (demo_app (queue_new 0 "default"))) in
  let r' := event (PresentationStateChanged true) r in
  dto_kind <$> badges (app r') = ["pause"] /\
  (snapshot <$> (queue_at (r_heap (queues (app r'))) <$> (r_entries (queues (app r'))).*1)) =
  [[fresh_job 1 KCopy ["C:"; "a"] (Some ["D:"; "a"])]].
Proof. vm_compute. split; reflexivity. Qed.

(** A job the user had paused is resumed when the policy lets go. *)
Lemma user_pause_is_lifted :
  let r := start_runner (demo_app (pause_job demo_jobs 1)) in
  states r = [JPaused; Pending] /\
  states (event (PresentationStateChanged false) (event (PresentationStateChanged true) r)) = [Running; Pending].
Proof. vm_compute. split; reflexivity. Qed.

(** A job added while a pause is in force runs: the action has not changed. *)
Lemma late_job_escapes_the_pause :
  let r := event (PresentationStateChanged true) (start_runner (demo_app demo_jobs)) in
  let r := with_app (fun a => set_queue (apply_op (queue a, 3) (OpAdd KCopy ["C:"; "c"] None)).1 a) r in
  states (event (BatteryStateChanged false 1065353216) r) = [JPaused; JPaused; Pending].
Proof. vm_compute. reflexivity. Qed.

(** The tick of the schedule poller lifts the cap; the next events do not put
    it back. *)
Lemma tick_lifts_the_cap :
  let r := event (BatteryStateChanged true 0) (start_runner (demo_app demo_jobs)) in
  let r' := with_app (apply_network_settings_to_shape demo_network noon) r in
  shape (app r) = Some 400 /\ shape (app r') = Some 1000 /\
  shape (app (event (BatteryStateChanged true 1065353216) r')) = Some 1000 /\ power_owned_cap (book r') = Some 400.
Proof. vm_compute. repeat split; reflexivity. Qed.

(** The cap in percent is taken from the capped rate when it is applied again. *)
Lemma thermal_cap_compounds :
  let r := event (ThermalChanged true X86Cpuid) (start_runner (demo_app demo_jobs)) in
  let r' := event (NetworkClassChanged Unmetered) (event (NetworkClassChanged Metered) r) in
  shape (app r) = Some 500 /\ last_scoped r' = last_scoped r /\ shape (app r') = Some 125.
Proof. vm_compute. repeat split; reflexivity. Qed.

(** Heat lifts the stricter cap of the battery rule. *)
Lemma thermal_cap_replaces_a_stricter_one :
  let r := event (BatteryStateChanged true 0) (start_runner (demo_app demo_jobs)) in
  let r' := event (ThermalChanged true X86Cpuid) (start_runner (demo_app demo_jobs)) in
  shape (app r) = Some 400 /\ shape (app (event (BatteryStateChanged true 0) r')) = Some 500.
Proof. vm_compute. split; reflexivity. Qed.

(** What happens while the policies are disabled is not remembered: plugged
    out meanwhile, the host counts as plugged in until the next battery event. *)
Lemma disabled_events_are_lost :
  let r := on_event by_elements true switched_off noon (BatteryStateChanged true 0) (start_runner (demo_app demo_jobs)) in
  on_battery (observed (event (FullscreenChanged true) r)) = false.
Proof. vm_compute. reflexivity. Qed.

(** A transfer that has passed the gate registers after the policy cancelled
    the active ones, and runs. *)
Lemma transfer_slips_through_the_gate :
  let r := start_runner (demo_app demo_jobs) in
  let r' := event (NetworkClassChanged Metered) r in
  let r'' := with_app (fun a => set_cloud (cloud_register (cloud_transfers a)) a) r' in
  ct_paused (cloud_transfers (app r)) = false /\ elements (ct_aborted (cloud_transfers (app r'))) = [7] /\
  ct_paused (cloud_transfers (app r'')) = true /\ elements (ct_active (cloud_transfers (app r''))) = [1].
Proof. vm_compute. repeat split; reflexivity. Qed.
