(* ===== verification/Scan.v ===== *)
(** * The disk-backed scan ([freally-core]: [scan/])

    A walker sends the entries of a tree through a bounded channel to a writer,
    which commits them in batches to the database of the scan; workers may hash
    the files on the side.  The database ([ScanDb]) is the three tables of
    [schema.rs]; a commit is one transaction and is atomic.  The run is a
    machine with one step per access, like that of [TreeCopy]: the next mover,
    the fate of every call and what the user does are the action.  Left out are
    the time stamps of the rows and of the end, and the progress events of the
    walker, which it drops when their channel is full.

    The second part shows that the rows are those of the walk, however often
    the scan was interrupted, and when a run can end. *)
From S2P Require Import Prelude.
From S2P Require Import Text.
From S2P Require Import Files.
From S2P Require Import Control.
From S2P Require Import Filter.
From S2P Require Import TreeTypes.
From stdpp Require Import pretty options.
Open Scope Z_scope.

(** ** Types ([types.rs]) *)

Inductive ScanKind := SkFile | SkDir | SkSymlink | SkOther.

#[export] Instance scan_kind_eq : EqDecision ScanKind.
Proof. solve_decision. Defined.

Definition to_i64 (k : ScanKind) : Z := match k with SkFile => 0 | SkDir => 1 | SkSymlink => 2 | SkOther => 3 end.

Definition from_i64 (v : Z) : ScanKind :=
  if v =? 0 then SkFile else if v =? 1 then SkDir else if v =? 2 then SkSymlink else SkOther.

Inductive ScanStatus := StRunning | StPaused | StComplete | StCancelled | StFailed.

#[export] Instance scan_status_eq : EqDecision ScanStatus.
Proof. solve_decision. Defined.

Definition status_str (s : ScanStatus) : string :=
  match s with
  | StRunning => "Running" | StPaused => "Paused" | StComplete => "Complete" | StCancelled => "Cancelled" | StFailed => "Failed"
  end.

Definition parse_status (s : string) : option ScanStatus :=
  if String.eqb s "Running" then Some StRunning
  else if String.eqb s "Paused" then Some StPaused
  else if String.eqb s "Complete" then Some StComplete
  else if String.eqb s "Cancelled" then Some StCancelled
  else if String.eqb s "Failed" then Some StFailed
  else None.

(** [AttrFlags] *)
Definition HIDDEN : Z := 1.
Definition SYSTEM : Z := 2.
Definition READONLY : Z := 4.

Definition attr_flags_for (pl : Platform) (m : Metadata) : Z :=
  let os := match pl with
            | Windows => Z.lor (if Z.testbit (m_attributes m) 1 then HIDDEN else 0) (if Z.testbit (m_attributes m) 2 then SYSTEM else 0)
            | _ => 0
            end in
  Z.lor os (if m_readonly m then READONLY else 0).

Definition CHANNEL_CAPACITY : nat := 1024.
Definition BATCH_SIZE : nat := 1000.

(** ** The walk *)

(** What [walkdir] yields. *)
Inductive ScanWalkItem :=
| SwEntry (p : path) (k : ScanKind) (meta : option Metadata)
| SwDenied (p : path)
| SwFailed (p : path).

Definition sw_path (w : ScanWalkItem) : path := match w with SwEntry p _ _ | SwDenied p | SwFailed p => p end.

Record RawItem := { ri_rel : string; ri_abs : path; ri_size : Z; ri_mtime : Z; ri_kind : ScanKind; ri_attrs : Z }.

(** The column [rel_path]: separators become slashes. *)
Definition rel_column (rel : path) : string := to_slashes (str_join "/" rel).

(** ** The database ([schema.rs]) *)

Record Row := { rw_rel : string; rw_size : Z; rw_mtime : Z; rw_kind : Z; rw_attrs : Z; rw_hash : option Digest }.

Record ScanDb := {
  db_items : list Row;
  db_last_visited : option string;
  db_files_visited : Z;
  db_bytes_visited : Z;
  db_meta : gmap string string
}.

(** [V0_TO_V1]: the tables with the seeded progress row. *)
Definition empty_db : ScanDb :=
  {| db_items := []; db_last_visited := None; db_files_visited := 0; db_bytes_visited := 0; db_meta := ∅ |}.

(** [u64 as i64] *)
Definition as_i64 (x : Z) : Z := if x <=? 9223372036854775807 then x else x - (U64_MAX + 1).

Definition I64_MAX : Z := 9223372036854775807.

(** Nanoseconds since 1970, cut to what an [i64] holds. *)
Definition system_time_to_unix_nanos (t : Z) : Z := if 0 <=? t then Z.min t I64_MAX else - Z.min (- t) I64_MAX.

Definition row_of (it : RawItem) : Row :=
  {| rw_rel := ri_rel it; rw_size := as_i64 (ri_size it); rw_mtime := system_time_to_unix_nanos (ri_mtime it);
     rw_kind := to_i64 (ri_kind it); rw_attrs := ri_attrs it; rw_hash := None |}.

Definition has_row (rel : string) (l : list Row) : bool := existsb (fun r => String.eqb (rw_rel r) rel) l.

Record HashRequest := { hr_rowid : nat; hr_abs : path }.

(** The state of a transaction: the rows, and what the loop counts. *)
Record Txn := { tx_rows : list Row; tx_last : string; tx_files : Z; tx_bytes : Z; tx_reqs : list HashRequest }.

(** [INSERT OR IGNORE]: row ids count from one. *)
Definition insert_item (collect_hashes : bool) (it : RawItem) (t : Txn) : Txn :=
  if has_row (ri_rel it) (tx_rows t) then t
  else
    {| tx_rows := tx_rows t ++ [row_of it];
       tx_last := ri_rel it;
       tx_files := tx_files t + 1;
       tx_bytes := Z.max (- I64_MAX - 1) (Z.min I64_MAX (tx_bytes t + as_i64 (ri_size it)));
       tx_reqs := if collect_hashes && bool_decide (ri_kind it = SkFile) && (0 <? ri_size it)
                  then tx_reqs t ++ [{| hr_rowid := S (length (tx_rows t)); hr_abs := ri_abs it |}]
                  else tx_reqs t |}.

Definition insert_all (collect_hashes : bool) (batch : list RawItem) (rows : list Row) : Txn :=
  foldl (fun t it => insert_item collect_hashes it t) {| tx_rows := rows; tx_last := ""; tx_files := 0; tx_bytes := 0; tx_reqs := [] |} batch.

(** The transaction of [commit_batch]. *)
Definition commit_rows (collect_hashes : bool) (batch : list RawItem) (db : ScanDb) : ScanDb * Txn :=
  let t := insert_all collect_hashes batch (db_items db) in
  let changed := negb (String.eqb (tx_last t) "") in
  ({| db_items := tx_rows t;
      db_last_visited := if changed then Some (tx_last t) else db_last_visited db;
      db_files_visited := if changed then db_files_visited db + tx_files t else db_files_visited db;
      db_bytes_visited := if changed then db_bytes_visited db + tx_bytes t else db_bytes_visited db;
      db_meta := db_meta db |}, t).

Definition set_meta (k v : string) (db : ScanDb) : ScanDb :=
  {| db_items := db_items db; db_last_visited := db_last_visited db; db_files_visited := db_files_visited db;
     db_bytes_visited := db_bytes_visited db; db_meta := <[k := v]> (db_meta db) |}.

(** [UPDATE scan_items SET content_hash] *)
Definition store_hash (rowid : nat) (h : Digest) (db : ScanDb) : ScanDb :=
  {| db_items := alter (fun r => {| rw_rel := rw_rel r; rw_size := rw_size r; rw_mtime := rw_mtime r; rw_kind := rw_kind r;
                                    rw_attrs := rw_attrs r; rw_hash := Some h |}) (rowid - 1)%nat (db_items db);
     db_last_visited := db_last_visited db; db_files_visited := db_files_visited db;
     db_bytes_visited := db_bytes_visited db; db_meta := db_meta db |}.

(** [read_stats]: files and their bytes; the count per kind. *)
Record ScanStats := { ss_total_files : Z; ss_total_bytes : Z; ss_by_kind : ScanKind -> Z }.

Definition rows_of_kind (k : ScanKind) (db : ScanDb) : list Row := filter (fun r => from_i64 (rw_kind r) = k) (db_items db).

Definition read_stats (db : ScanDb) : ScanStats :=
  {| ss_total_files := Z.of_nat (length (rows_of_kind SkFile db));
     ss_total_bytes := foldr (fun r a => rw_size r + a) 0 (rows_of_kind SkFile db);
     ss_by_kind k := Z.of_nat (length (rows_of_kind k db)) |}.

(** ** The cursor ([cursor.rs]) *)

Definition PAGE_SIZE : nat := 4096.

(** A page of rows behind [next_rowid], and the new one. *)
Definition refill (db : ScanDb) (next_rowid : nat) : list Row * nat :=
  let page := take PAGE_SIZE (drop next_rowid (db_items db)) in (page, (next_rowid + length page)%nat).

(** The rows that iterating yields: pages until an empty one. *)
Fixpoint cursor_rows (fuel : nat) (db : ScanDb) (next_rowid : nat) : list Row :=
  match fuel with
  | O => []
  | S fuel => let '(page, next) := refill db next_rowid in match page with [] => [] | _ => page ++ cursor_rows fuel db next end
  end.

(** ** Opening ([Scanner::create]) *)

Definition create (root : path) (hash_during_scan : bool) (now_ms : string) (db : ScanDb) : ScanDb :=
  let is_resume := match db_meta db !! "status" with
                   | Some s => String.eqb s "Paused" || String.eqb s "Running"
                   | None => false
                   end in
  let db := set_meta "root_path" (str_join "/" root) db in
  let db := if is_resume then db else set_meta "started_at_ms" now_ms db in
  let db := set_meta "hash_algorithm" (if hash_during_scan then "blake3-256" else "none") db in
  set_meta "status" (status_str StRunning) db.

(** ** The run ([Scanner::run]) *)

Inductive ScanEvent :=
| ScStarted
| ScProgress (files_discovered bytes_discovered files_written files_hashed : Z)
| ScBatchFlushed (batch_size files_committed : Z) (last_rel_path : string)
| ScPaused
| ScResumed
| ScCompleted (files bytes hashed_files : Z)
| ScCancelled
| ScFailed.

(** The walker: at its loop head (with the directory it skips and what the
    iterator still has), sending an entry, or ended (well or not). *)
Inductive WalkerState :=
| WkNext (skip : option path) (rest : list ScanWalkItem)
| WkSend (it : RawItem) (skip : option path) (rest : list ScanWalkItem)
| WkEnd (ok : bool).

(** The writer: at its loop head, waiting for a resume, receiving, committing
    a full batch, sending what is to be hashed ([tail]: of the last batch),
    behind the loop, committing the last batch, joining the walker, joining
    the workers, and returned. *)
Inductive WriterState :=
| RTop
| RPaused
| RRecv
| RCommit (tail : bool)
| RHash (tail : bool) (reqs : list HashRequest) (last : string) (n : Z)
| RTail
| RJoin
| RDrain
| REnd (status : ScanStatus).

(** A hash worker: at its head, paused, receiving, hashing, or ended. *)
Inductive HasherState := HTop | HPaused | HRecv | HBusy (r : HashRequest) | HEnd.

Record ScanState := {
  sc_db : ScanDb;
  sc_ctl : Z;
  sc_walker : WalkerState;
  sc_chan : list RawItem;
  sc_writer : WriterState;
  sc_batch : list RawItem;
  sc_failed : bool;
  sc_hash_chan : list HashRequest;
  sc_hash_open : bool;
  sc_hashers : list HasherState;
  sc_files_discovered : Z;
  sc_bytes_discovered : Z;
  sc_files_written : Z;
  sc_files_hashed : Z;
  sc_events : list ScanEvent
}.

Inductive ScanAction := AWalk | AWrite (works : bool) | AHash (i : nat) (digest : option Digest) | AUser (v : Z).

Definition set_db (d : ScanDb) (s : ScanState) : ScanState :=
  {| sc_db := d; sc_ctl := sc_ctl s; sc_walker := sc_walker s; sc_chan := sc_chan s; sc_writer := sc_writer s; sc_batch := sc_batch s;
     sc_failed := sc_failed s; sc_hash_chan := sc_hash_chan s; sc_hash_open := sc_hash_open s; sc_hashers := sc_hashers s;
     sc_files_discovered := sc_files_discovered s; sc_bytes_discovered := sc_bytes_discovered s;
     sc_files_written := sc_files_written s; sc_files_hashed := sc_files_hashed s; sc_events := sc_events s |}.
Definition set_sctl (v : Z) (s : ScanState) : ScanState :=
  {| sc_db := sc_db s; sc_ctl := v; sc_walker := sc_walker s; sc_chan := sc_chan s; sc_writer := sc_writer s; sc_batch := sc_batch s;
     sc_failed := sc_failed s; sc_hash_chan := sc_hash_chan s; sc_hash_open := sc_hash_open s; sc_hashers := sc_hashers s;
     sc_files_discovered := sc_files_discovered s; sc_bytes_discovered := sc_bytes_discovered s;
     sc_files_written := sc_files_written s; sc_files_hashed := sc_files_hashed s; sc_events := sc_events s |}.
Definition set_walker (k : WalkerState) (s : ScanState) : ScanState :=
  {| sc_db := sc_db s; sc_ctl := sc_ctl s; sc_walker := k; sc_chan := sc_chan s; sc_writer := sc_writer s; sc_batch := sc_batch s;
     sc_failed := sc_failed s; sc_hash_chan := sc_hash_chan s; sc_hash_open := sc_hash_open s; sc_hashers := sc_hashers s;
     sc_files_discovered := sc_files_discovered s; sc_bytes_discovered := sc_bytes_discovered s;
     sc_files_written := sc_files_written s; sc_files_hashed := sc_files_hashed s; sc_events := sc_events s |}.
Definition set_chan (c : list RawItem) (s : ScanState) : ScanState :=
  {| sc_db := sc_db s; sc_ctl := sc_ctl s; sc_walker := sc_walker s; sc_chan := c; sc_writer := sc_writer s; sc_batch := sc_batch s;
     sc_failed := sc_failed s; sc_hash_chan := sc_hash_chan s; sc_hash_open := sc_hash_open s; sc_hashers := sc_hashers s;
     sc_files_discovered := sc_files_discovered s; sc_bytes_discovered := sc_bytes_discovered s;
     sc_files_written := sc_files_written s; sc_files_hashed := sc_files_hashed s; sc_events := sc_events s |}.
Definition set_writer (r : WriterState) (s : ScanState) : ScanState :=
  {| sc_db := sc_db s; sc_ctl := sc_ctl s; sc_walker := sc_walker s; sc_chan := sc_chan s; sc_writer := r; sc_batch := sc_batch s;
     sc_failed := sc_failed s; sc_hash_chan := sc_hash_chan s; sc_hash_open := sc_hash_open s; sc_hashers := sc_hashers s;
     sc_files_discovered := sc_files_discovered s; sc_bytes_discovered := sc_bytes_discovered s;
     sc_files_written := sc_files_written s; sc_files_hashed := sc_files_hashed s; sc_events := sc_events s |}.
Definition set_batch (b : list RawItem) (s : ScanState) : ScanState :=
  {| sc_db := sc_db s; sc_ctl := sc_ctl s; sc_walker := sc_walker s; sc_chan := sc_chan s; sc_writer := sc_writer s; sc_batch := b;
     sc_failed := sc_failed s; sc_hash_chan := sc_hash_chan s; sc_hash_open := sc_hash_open s; sc_hashers := sc_hashers s;
     sc_files_discovered := sc_files_discovered s; sc_bytes_discovered := sc_bytes_discovered s;
     sc_files_written := sc_files_written s; sc_files_hashed := sc_files_hashed s; sc_events := sc_events s |}.
Definition set_sfailed (s : ScanState) : ScanState :=
  {| sc_db := sc_db s; sc_ctl := sc_ctl s; sc_walker := sc_walker s; sc_chan := sc_chan s; sc_writer := sc_writer s; sc_batch := sc_batch s;
     sc_failed := true; sc_hash_chan := sc_hash_chan s; sc_hash_open := sc_hash_open s; sc_hashers := sc_hashers s;
     sc_files_discovered := sc_files_discovered s; sc_bytes_discovered := sc_bytes_discovered s;
     sc_files_written := sc_files_written s; sc_files_hashed := sc_files_hashed s; sc_events := sc_events s |}.
Definition set_hashing (c : list HashRequest) (open : bool) (l : list HasherState) (s : ScanState) : ScanState :=
  {| sc_db := sc_db s; sc_ctl := sc_ctl s; sc_walker := sc_walker s; sc_chan := sc_chan s; sc_writer := sc_writer s; sc_batch := sc_batch s;
     sc_failed := sc_failed s; sc_hash_chan := c; sc_hash_open := open; sc_hashers := l;
     sc_files_discovered := sc_files_discovered s; sc_bytes_discovered := sc_bytes_discovered s;
     sc_files_written := sc_files_written s; sc_files_hashed := sc_files_hashed s; sc_events := sc_events s |}.
Definition count (df db dw dh : Z) (s : ScanState) : ScanState :=
  {| sc_db := sc_db s; sc_ctl := sc_ctl s; sc_walker := sc_walker s; sc_chan := sc_chan s; sc_writer := sc_writer s; sc_batch := sc_batch s;
     sc_failed := sc_failed s; sc_hash_chan := sc_hash_chan s; sc_hash_open := sc_hash_open s; sc_hashers := sc_hashers s;
     sc_files_discovered := sc_files_discovered s + df; sc_bytes_discovered := sc_bytes_discovered s + db;
     sc_files_written := sc_files_written s + dw; sc_files_hashed := sc_files_hashed s + dh; sc_events := sc_events s |}.
Definition say (e : ScanEvent) (s : ScanState) : ScanState :=
  {| sc_db := sc_db s; sc_ctl := sc_ctl s; sc_walker := sc_walker s; sc_chan := sc_chan s; sc_writer := sc_writer s; sc_batch := sc_batch s;
     sc_failed := sc_failed s; sc_hash_chan := sc_hash_chan s; sc_hash_open := sc_hash_open s; sc_hashers := sc_hashers s;
     sc_files_discovered := sc_files_discovered s; sc_bytes_discovered := sc_bytes_discovered s;
     sc_files_written := sc_files_written s; sc_files_hashed := sc_files_hashed s; sc_events := sc_events s ++ [e] |}.

Section run.
Context {G : Globs} (pl : Platform) (root : path) (filters : option CompiledFilters) (hashing : bool) (progress : bool).

(** The filter gate of the walk. *)
Definition scan_passes (rel : path) (k : ScanKind) (meta : option Metadata) : bool :=
  match filters, meta with
  | Some f, Some m => match k with SkDir => passes_dir pl f rel m | _ => passes_file pl f rel m end
  | _, _ => true
  end.

Definition scan_len (k : ScanKind) (meta : option Metadata) : Z := match k, meta with SkFile, Some m => m_len m | _, _ => 0 end.

Definition raw_item (p : path) (k : ScanKind) (meta : option Metadata) : RawItem :=
  {| ri_rel := rel_column (rel_of root p); ri_abs := p; ri_size := scan_len k meta;
     ri_mtime := default 0 (meta ≫= m_modified); ri_kind := k; ri_attrs := default 0 (attr_flags_for pl <$> meta) |}.

(** One turn of [enumerate_into_channel] on what the iterator yields. *)
Definition visit_entry (w : ScanWalkItem) (skip : option path) (rest : list ScanWalkItem) : WalkerState :=
  match w with
  | SwDenied _ => WkNext None rest
  | SwFailed _ => WkEnd false
  | SwEntry p k meta =>
      let rel := rel_of root p in
      if is_nil rel then WkNext None rest
      else if scan_passes rel k meta then WkSend (raw_item p k meta) None rest
      else WkNext (match k with SkDir => Some p | _ => None end) rest
  end.

(** The iterator passes over what lies below a skipped directory. *)
Fixpoint next_entry (skip : option path) (items : list ScanWalkItem) : option (ScanWalkItem * list ScanWalkItem) :=
  match items with
  | [] => None
  | w :: rest => if match skip with Some d => below d (sw_path w) | None => false end then next_entry skip rest else Some (w, rest)
  end.

Definition walk_step (s : ScanState) : option ScanState :=
  match sc_walker s with
  | WkNext skip items =>
      match next_entry skip items with
      | None => Some (set_walker (WkEnd true) s)
      | Some (w, rest) =>
          if sc_ctl s =? CANCELLED then Some (set_walker (WkEnd true) s)
          else if sc_ctl s =? PAUSED then None
          else
            let k := visit_entry w skip rest in
            Some (set_walker k (match k with
                                | WkSend it _ _ => match ri_kind it with SkFile => count 1 (ri_size it) 0 0 s | _ => s end
                                | _ => s
                                end))
      end
  | WkSend it skip rest =>
      if (length (sc_chan s) <? CHANNEL_CAPACITY)%nat then Some (set_walker (WkNext skip rest) (set_chan (sc_chan s ++ [it]) s)) else None
  | WkEnd _ => None
  end.

(** A batch is committed, or the error ends the scan (in the loop it also
    cancels the handle). *)
Definition commit_batch (tail works : bool) (s : ScanState) : ScanState :=
  let batch := sc_batch s in
  let s := set_batch [] s in
  if works then
    let '(db, t) := commit_rows hashing batch (sc_db s) in
    set_writer (RHash tail (tx_reqs t) (tx_last t) (tx_files t)) (count 0 0 (tx_files t) 0 (set_db db s))
  else if tail then set_writer RJoin (set_sfailed s)
  else set_writer RTail (set_sctl CANCELLED (set_sfailed s)).

(** The events behind a commit. *)
Definition flushed (tail : bool) (last : string) (n : Z) (s : ScanState) : ScanState :=
  let s := say (ScBatchFlushed n (sc_files_written s) last) s in
  if negb tail && progress
  then say (ScProgress (sc_files_discovered s) (sc_bytes_discovered s) (sc_files_written s) (sc_files_hashed s)) s
  else s.

(** The status at the end, the rows of [scan_meta] and the last event. *)
Definition finish_scan (s : ScanState) : ScanState :=
  let '(status, e) :=
    if sc_failed s then (StFailed, ScFailed)
    else if sc_ctl s =? CANCELLED then (StCancelled, ScCancelled)
    else (StComplete, ScCompleted (sc_files_written s) (sc_bytes_discovered s) (sc_files_hashed s)) in
  let db := set_meta "total_files" (pretty (sc_files_written s)) (sc_db s) in
  let db := set_meta "total_bytes" (pretty (sc_bytes_discovered s)) db in
  set_writer (REnd status) (say e (set_db (set_meta "status" (status_str status) db) s)).

Definition all_hashers_ended (s : ScanState) : bool := forallb (fun h => match h with HEnd => true | _ => false end) (sc_hashers s).

Definition write_step (works : bool) (s : ScanState) : option ScanState :=
  match sc_writer s with
  | RTop =>
      Some (if sc_ctl s =? CANCELLED then set_writer RTail s
            else if sc_ctl s =? PAUSED then set_writer RPaused (say ScPaused s)
            else set_writer RRecv s)
  | RPaused =>
      if sc_ctl s =? PAUSED then None
      else if sc_ctl s =? CANCELLED then Some (set_writer RTail s)
      else Some (set_writer RRecv (say ScResumed s))
  | RRecv =>
      match sc_chan s with
      | it :: c =>
          let s := set_batch (sc_batch s ++ [it]) (set_chan c s) in
          Some (set_writer (if (BATCH_SIZE <=? length (sc_batch s))%nat then RCommit false else RTop) s)
      | [] => match sc_walker s with WkEnd _ => Some (set_writer RTail s) | _ => None end
      end
  | RCommit tail => Some (commit_batch tail works s)
  | RHash tail [] last n => Some (set_writer (if tail then RJoin else RTop) (flushed tail last n s))
  | RHash tail (r :: l) last n =>
      if (length (sc_hash_chan s) <? CHANNEL_CAPACITY)%nat
      then Some (set_writer (RHash tail l last n) (set_hashing (sc_hash_chan s ++ [r]) (sc_hash_open s) (sc_hashers s) s))
      else None
  | RTail =>
      Some (if negb (is_nil (sc_batch s)) && negb (sc_failed s) && negb (sc_ctl s =? CANCELLED)
            then set_writer (RCommit true) s else set_writer RJoin (set_batch [] s))
  | RJoin =>
      match sc_walker s with
      | WkEnd ok =>
          let s := set_hashing (sc_hash_chan s) false (sc_hashers s) s in
          Some (set_writer RDrain (if ok then s else set_sfailed s))
      | _ => None
      end
  | RDrain => if all_hashers_ended s then Some (finish_scan s) else None
  | REnd _ => None
  end.

Definition set_hasher (i : nat) (h : HasherState) (s : ScanState) : ScanState :=
  set_hashing (sc_hash_chan s) (sc_hash_open s) (<[i := h]> (sc_hashers s)) s.

(** The channel of requests is dropped before the walker is joined. *)
Definition requests_closed (s : ScanState) : bool :=
  negb (sc_hash_open s) || match sc_writer s with RJoin => true | _ => false end.

Definition hash_step (i : nat) (digest : option Digest) (s : ScanState) : option ScanState :=
  h ← sc_hashers s !! i;
  match h with
  | HTop =>
      Some (set_hasher i (if sc_ctl s =? CANCELLED then HEnd else if sc_ctl s =? PAUSED then HPaused else HRecv) s)
  | HPaused =>
      if sc_ctl s =? PAUSED then None else Some (set_hasher i (if sc_ctl s =? CANCELLED then HEnd else HRecv) s)
  | HRecv =>
      match sc_hash_chan s with
      | r :: c => Some (set_hasher i (HBusy r) (set_hashing c (sc_hash_open s) (sc_hashers s) s))
      | [] => if requests_closed s then Some (set_hasher i HEnd s) else None
      end
  | HBusy r =>
      Some (set_hasher i HTop
        (match digest with Some h => count 0 0 0 1 (set_db (store_hash (hr_rowid r) h (sc_db s)) s) | None => s end))
  | HEnd => None
  end.

Definition scan_step (a : ScanAction) (s : ScanState) : option ScanState :=
  match a with
  | AWalk => walk_step s
  | AWrite works => write_step works s
  | AHash i d => hash_step i d s
  | AUser v => Some (if sc_ctl s =? CANCELLED then s else set_sctl v s)
  end.

Fixpoint scan_run (l : list ScanAction) (s : ScanState) : option ScanState :=
  match l with [] => Some s | a :: l => s' ← scan_step a s; scan_run l s' end.

(** The spawns: [workers] is clamped to 1..64 when hashing. *)
Definition start_scan (workers : Z) (items : list ScanWalkItem) (db : ScanDb) : ScanState :=
  {| sc_db := db; sc_ctl := RUNNING; sc_walker := WkNext None items; sc_chan := []; sc_writer := RTop; sc_batch := []; sc_failed := false;
     sc_hash_chan := []; sc_hash_open := hashing;
     sc_hashers := if hashing then replicate (Z.to_nat (Z.max 1 (Z.min workers 64))) HTop else [];
     sc_files_discovered := 0; sc_bytes_discovered := 0; sc_files_written := 0; sc_files_hashed := 0; sc_events := [ScStarted] |}.

(** What the walk sends if nobody cancels, and whether it goes through. *)
Fixpoint walked (skip : option path) (items : list ScanWalkItem) : list RawItem * bool :=
  match items with
  | [] => ([], true)
  | w :: rest =>
      if match skip with Some d => below d (sw_path w) | None => false end then walked skip rest
      else match visit_entry w skip rest with
           | WkEnd ok => ([], ok)
           | WkNext skip' _ => walked skip' rest
           | WkSend it skip' _ => let '(l, ok) := walked skip' rest in (it :: l, ok)
           end
  end.
End run.

(** ** The index of the scans ([index.rs]) *)

Record ActiveScanRow := { as_id : string; as_db_path : string; as_job_id : option string; as_created_at_ms : Z; as_status : string }.

(** [INSERT OR REPLACE]: the old row goes, the new one is behind the others. *)
Definition remove (id : string) (idx : list ActiveScanRow) : list ActiveScanRow := filter (fun r => as_id r <> id) idx.

Definition register (id db_path : string) (job : option string) (now_ms : Z) (st : ScanStatus) (idx : list ActiveScanRow) : list ActiveScanRow :=
  remove id idx ++ [{| as_id := id; as_db_path := db_path; as_job_id := job; as_created_at_ms := now_ms; as_status := status_str st |}].

Definition update_status (id : string) (st : ScanStatus) (idx : list ActiveScanRow) : list ActiveScanRow :=
  (fun r => if String.eqb (as_id r) id
            then {| as_id := as_id r; as_db_path := as_db_path r; as_job_id := as_job_id r; as_created_at_ms := as_created_at_ms r;
                    as_status := status_str st |}
            else r) <$> idx.

(** [ORDER BY created_at DESC] *)
Definition newer (a b : ActiveScanRow) : Prop := as_created_at_ms b <= as_created_at_ms a.

#[export] Instance newer_dec a b : Decision (newer a b).
Proof. unfold newer. apply _. Defined.

Definition list_all (idx : list ActiveScanRow) : list ActiveScanRow := merge_sort newer idx.

Definition unfinished (r : ActiveScanRow) : bool := String.eqb (as_status r) "Running" || String.eqb (as_status r) "Paused".

Definition list_unfinished (idx : list ActiveScanRow) : list ActiveScanRow := merge_sort newer (filter (fun r => unfinished r) idx).

(** What [row_to_active] makes of the column. *)
Definition active_status (r : ActiveScanRow) : ScanStatus := default StFailed (parse_status (as_status r)).

(** * A scan records the walk, however often it is interrupted

    [Flow]: what is committed, in flight and still to come make up the walk,
    until someone cancels; what is committed is always a prefix of it.  Hence
    a crash at any point followed by a complete run leaves the rows of an
    undisturbed one.  A run can come to its end unless it was cancelled while
    the walker waits at a full channel. *)

(** ** Rows *)

(** A row without its hash, which workers fill in at their own pace. *)
Definition bare (r : Row) : Row :=
  {| rw_rel := rw_rel r; rw_size := rw_size r; rw_mtime := rw_mtime r; rw_kind := rw_kind r; rw_attrs := rw_attrs r; rw_hash := None |}.

(** The rows after the items, hashes aside. *)
Definition insert_row (l : list Row) (it : RawItem) : list Row := if has_row (ri_rel it) l then l else l ++ [row_of it].

Definition insert_rows (items : list RawItem) (l : list Row) : list Row := foldl insert_row l items.

Lemma has_row_bare rel l : has_row rel (bare <$> l) = has_row rel l.
Proof. induction l as [|r l IH]; [done|]. rewrite fmap_cons. unfold has_row in *. cbn [existsb]. by rewrite IH. Qed.

Lemma insert_item_rows b it t : bare <$> tx_rows (insert_item b it t) = insert_row (bare <$> tx_rows t) it.
Proof. unfold insert_item, insert_row. rewrite has_row_bare. destruct (has_row _ _); [done|]. cbn [tx_rows]. by rewrite fmap_app. Qed.

Lemma insert_all_rows b items rows : bare <$> tx_rows (insert_all b items rows) = insert_rows items (bare <$> rows).
Proof.
  unfold insert_all, insert_rows. set (t := {| tx_rows := rows; tx_last := _; tx_files := _; tx_bytes := _; tx_reqs := _ |}).
  change rows with (tx_rows t). clearbody t. revert t. induction items as [|it items IH]; intros t; [done|].
  cbn [foldl]. by rewrite IH, insert_item_rows.
Qed.

Lemma insert_rows_app a b l : insert_rows (a ++ b) l = insert_rows b (insert_rows a l).
Proof. apply foldl_app. Qed.

Lemma has_row_app rel l k : has_row rel (l ++ k) = has_row rel l || has_row rel k.
Proof. unfold has_row. apply existsb_app. Qed.

Lemma insert_row_keeps rel it l : has_row rel l = true -> has_row rel (insert_row l it) = true.
Proof. intros H. unfold insert_row. destruct (has_row (ri_rel it) l); [done|]. by rewrite has_row_app, H. Qed.

Lemma insert_row_has it l : has_row (ri_rel it) (insert_row l it) = true.
Proof.
  unfold insert_row. destruct (has_row (ri_rel it) l) eqn:E; [done|]. rewrite has_row_app. unfold has_row at 2. simpl.
  by rewrite String.eqb_refl, orb_true_r.
Qed.

Lemma insert_rows_keeps rel items l : has_row rel l = true -> has_row rel (insert_rows items l) = true.
Proof. revert l. induction items as [|it items IH]; intros l H; [done|]. cbn. by apply IH, insert_row_keeps. Qed.

Lemma insert_rows_known items l : Forall (fun it => has_row (ri_rel it) l = true) items -> insert_rows items l = l.
Proof. induction 1 as [|it items H _ IH]; [done|]. cbn. unfold insert_row at 2. by rewrite H. Qed.

Lemma insert_rows_has items l : Forall (fun it => has_row (ri_rel it) (insert_rows items l) = true) items.
Proof.
  revert l. induction items as [|it items IH]; intros l; constructor; [|apply IH]. cbn. apply insert_rows_keeps, insert_row_has.
Qed.

(** A prefix that is already there changes nothing. *)
Lemma insert_rows_again a full l : a `prefix_of` full -> insert_rows full (insert_rows a l) = insert_rows full l.
Proof.
  intros [k ->]. rewrite !insert_rows_app. f_equal. apply insert_rows_known, insert_rows_has.
Qed.

(** Without namesakes the rows are the items. *)
Lemma insert_rows_fresh items : forall l,
  NoDup (ri_rel <$> items) -> Forall (fun it => has_row (ri_rel it) l = false) items -> insert_rows items l = l ++ (row_of <$> items).
Proof.
  induction items as [|it items IH]; intros l Hd Hf; [by rewrite app_nil_r|]. apply NoDup_cons in Hd as [Hn Hd]. apply Forall_cons in Hf as [H Hf].
  cbn [insert_rows foldl]. unfold insert_row at 2. rewrite H. fold (insert_rows items (l ++ [row_of it])). rewrite IH; [by rewrite fmap_cons, <- app_assoc|done|].
  rewrite Forall_forall in Hf |- *. intros x Hx. rewrite has_row_app, (Hf x Hx). unfold has_row. simpl.
  destruct (String.eqb_spec (ri_rel it) (ri_rel x)) as [E|]; [|done]. contradict Hn. rewrite E. by apply list_elem_of_fmap_2.
Qed.

Lemma store_hash_bare n h db : bare <$> db_items (store_hash n h db) = bare <$> db_items db.
Proof.
  cbn [store_hash db_items]. generalize (n - 1)%nat as i. induction (db_items db) as [|r l IH]; intros [|i]; try done.
  change (alter ?f (S i) (r :: l)) with (r :: alter f i l). rewrite !fmap_cons. f_equal. apply IH.
Qed.

(** ** The flow of the items *)

Definition in_loop (r : WriterState) : Prop :=
  match r with RTop | RPaused | RRecv | RCommit false | RHash false _ _ _ => True | _ => False end.

#[export] Instance in_loop_dec r : Decision (in_loop r).
Proof. destruct r as [| | |[]|[] ? ? ?| | | |]; apply _. Defined.

(** States of the writer in which it holds no batch. *)
Definition no_batch (r : WriterState) : Prop := match r with RHash _ _ _ _ | RJoin | RDrain | REnd _ => True | _ => False end.

Section run.
Context {G : Globs} (pl : Platform) (root : path) (filters : option CompiledFilters) (hashing progress : bool).
Context (items : list ScanWalkItem) (rows0 : list Row).
#[local] Abbreviation step := (scan_step pl root filters hashing progress).
#[local] Abbreviation run := (scan_run pl root filters hashing progress).
#[local] Abbreviation walked := (walked pl root filters).
#[local] Abbreviation full := (walked None items).

(** What the walker will still send if nobody cancels. *)
Definition to_come (k : WalkerState) : list RawItem * bool :=
  match k with
  | WkNext skip rest => walked skip rest
  | WkSend it skip rest => let '(l, ok) := walked skip rest in (it :: l, ok)
  | WkEnd ok => ([], ok)
  end.

Lemma walked_next skip l : walked skip l =
  match next_entry skip l with None => ([], true) | Some (w, rest) => to_come (visit_entry pl root filters w skip rest) end.
Proof using Type.
  revert skip. induction l as [|w l IH]; intros skip; [done|]. cbn [Scan.walked next_entry].
  destruct (match skip with Some d => below d (sw_path w) | None => false end); [apply IH|].
  destruct w as [p k meta|p|p]; cbn [visit_entry]; [|done|done]. destruct (is_nil _); [done|]. by destruct (scan_passes _ _ _ _ _).
Qed.

Definition calm (s : ScanState) : Prop := sc_ctl s <> CANCELLED /\ sc_failed s = false.

Definition ended (k : WalkerState) : Prop := match k with WkEnd _ => True | _ => False end.

Record flow (s : ScanState) (committed : list RawItem) : Prop := {
  fl_rows : bare <$> db_items (sc_db s) = insert_rows committed rows0;
  fl_batch : (committed ++ sc_batch s) `prefix_of` full.1;
  fl_loop : in_loop (sc_writer s) -> (committed ++ sc_batch s ++ sc_chan s ++ (to_come (sc_walker s)).1) `prefix_of` full.1;
  fl_calm : calm s -> committed ++ sc_batch s ++ sc_chan s ++ (to_come (sc_walker s)).1 = full.1 /\ (to_come (sc_walker s)).2 = full.2;
  fl_past : sc_ctl s <> CANCELLED -> ~ in_loop (sc_writer s) -> sc_chan s = [] /\ ended (sc_walker s);
  fl_empty : no_batch (sc_writer s) -> sc_batch s = [];
  fl_joined : match sc_writer s with RDrain | REnd _ => ended (sc_walker s) | _ => True end;
  fl_drain : match sc_writer s with RDrain => calm s -> (to_come (sc_walker s)).2 = true | _ => True end;
  fl_end : match sc_writer s with REnd StComplete => committed = full.1 /\ full.2 = true | _ => True end
}.

(** The same flow through states that differ elsewhere. *)
Lemma flow_same s s' c : sc_db s' = sc_db s -> sc_ctl s' = sc_ctl s -> sc_walker s' = sc_walker s -> sc_chan s' = sc_chan s ->
  sc_writer s' = sc_writer s -> sc_batch s' = sc_batch s -> sc_failed s' = sc_failed s -> flow s c -> flow s' c.
Proof using Type.
  intros E1 E2 E3 E4 E5 E6 E7 [F1 F2 F3 F4 F5 F6 F7 F8 F9]. unfold calm in *.
  split; unfold calm; rewrite ?E1, ?E2, ?E3, ?E4, ?E5, ?E6, ?E7; assumption.
Qed.

Lemma flow_walk s s' c : flow s c -> walk_step pl root filters s = Some s' -> flow s' c.
Proof using Type.
  intros F Hs. pose proof F as [F1 F2 F3 F4 F5 F6 F7 F8 F9]. unfold walk_step in Hs.
  assert (Hstop : (sc_ctl s = CANCELLED \/ to_come (sc_walker s) = ([], true)) -> flow (set_walker (WkEnd true) s) c).
  { intros Hw. split; try done; cbn.
    - intros Hl. destruct Hw as [_|Hw]; [|rewrite Hw in F3; by apply F3].
      destruct (F3 Hl) as [k Hk]. exists ((to_come (sc_walker s)).1 ++ k). rewrite Hk, <- !app_assoc. done.
    - intros Hc. destruct Hw as [Hw|Hw]; [by destruct Hc|]. destruct (F4 Hc) as [H1 H2]. rewrite Hw in H1, H2. done.
    - intros Hn Hl. split; [by apply F5|done].
    - by destruct (sc_writer s).
    - by destruct (sc_writer s). }
  destruct (sc_walker s) as [skip rest|it skip rest|ok] eqn:Hk; [| |done].
  - pose proof (walked_next skip rest) as Hn. destruct (next_entry skip rest) as [[w rest']|].
    2: { injection Hs as <-. apply Hstop. by right. }
    destruct (Z.eqb_spec (sc_ctl s) CANCELLED) as [Hc|Hc]; [injection Hs as <-; apply Hstop; by left|].
    destruct (sc_ctl s =? PAUSED); [done|]. injection Hs as <-. set (k := visit_entry pl root filters w skip rest') in *.
    assert (Hgo : flow (set_walker k s) c).
    { destruct (decide (in_loop (sc_writer s))) as [Hl|Hl]; [|destruct (F5 Hc Hl) as [_ []]].
      split; try done; cbn; cbn in F3, F4; rewrite Hn in F3, F4; try done;
        first [by intros _ []|by destruct (sc_writer s)]. }
    destruct k as [?|it sk re|?] eqn:Ek; try done. destruct (ri_kind it); try done. by apply (flow_same (set_walker (WkSend it sk re) s)).
  - destruct (_ <? _)%nat; [|done]. injection Hs as <-. cbn in F3, F4. destruct (walked skip rest) as [l ok] eqn:Hw. cbn in F3, F4.
    assert (Happ : sc_chan s ++ it :: l = (sc_chan s ++ [it]) ++ l) by (by rewrite <- app_assoc). rewrite Happ in F3, F4.
    split; try done; cbn; rewrite ?Hw; try done; first [intros Hc Hl; by destruct (F5 Hc Hl) as [_ []]|by destruct (sc_writer s)].
Qed.

Lemma calm_same s s' : sc_ctl s' = sc_ctl s -> sc_failed s' = sc_failed s -> calm s' -> calm s.
Proof using Type. unfold calm. by intros -> ->. Qed.

(** The writer moves on without touching the items. *)
Lemma flow_writer s c r : flow s c -> (in_loop r -> in_loop (sc_writer s)) ->
  (sc_ctl s <> CANCELLED -> ~ in_loop r -> sc_chan s = [] /\ ended (sc_walker s)) -> (no_batch r -> sc_batch s = []) ->
  match r with RDrain | REnd _ => False | _ => True end -> flow (set_writer r s) c.
Proof using Type.
  intros [F1 F2 F3 F4 F5 F6 F7 F8 F9] H1 H2 H3 H4. split; try done; cbn; [by intros Hl; apply F3, H1|by destruct r..].
Qed.

Lemma flow_committed s c tail : flow s c -> sc_writer s = RCommit tail ->
  flow (commit_batch hashing tail true s) (c ++ sc_batch s).
Proof using Type.
  intros [F1 F2 F3 F4 F5 F6 F7 F8 F9] Hw. rewrite Hw in *. unfold commit_batch. cbn -[insert_all].
  split; unfold calm in *; cbn -[insert_all]; rewrite ?app_nil_r, <- ?app_assoc; try done; try (by destruct tail).
  rewrite insert_all_rows. cbn. by rewrite F1, insert_rows_app.
Qed.

Lemma prefix_app_left {A} (a b l : list A) : (a ++ b) `prefix_of` l -> a `prefix_of` l.
Proof using Type. intros [k ->]. exists (b ++ k). by rewrite <- app_assoc. Qed.

Lemma flow_refused s c tail : flow s c -> sc_writer s = RCommit tail -> flow (commit_batch hashing tail false s) c.
Proof using Type.
  intros [F1 F2 F3 F4 F5 F6 F7 F8 F9] Hw. rewrite Hw in *. unfold commit_batch.
  apply prefix_app_left in F2. destruct tail; split; unfold calm; cbn; rewrite ?app_nil_r; try done; try (by intros []).
Qed.

Lemma flow_received s c it rest : flow s c -> sc_writer s = RRecv -> sc_chan s = it :: rest ->
  forall r, (r = RTop \/ r = RCommit false) -> flow (set_writer r (set_batch (sc_batch s ++ [it]) (set_chan rest s))) c.
Proof using Type.
  intros [F1 F2 F3 F4 F5 F6 F7 F8 F9] Hw Hc r Hr. rewrite Hw, Hc in *. assert (Hl : in_loop r) by (by destruct Hr as [-> | ->]).
  specialize (F3 I). split; unfold calm in *; cbn; try done.
  - apply (prefix_app_left _ (rest ++ (to_come (sc_walker s)).1)). rewrite <- !app_assoc. exact F3.
  - intros _. rewrite <- !app_assoc. exact F3.
  - intros Hcalm. destruct (F4 Hcalm) as [H1 H2]. split; [|done]. rewrite <- !app_assoc. exact H1.
  - by destruct Hr as [-> | ->].
  - by destruct Hr as [-> | ->].
  - by destruct Hr as [-> | ->].
  - by destruct Hr as [-> | ->].
Qed.

Lemma flow_finish s c : flow s c -> sc_writer s = RDrain -> flow (finish_scan s) c.
Proof using Type.
  intros [F1 F2 F3 F4 F5 F6 F7 F8 F9] Hw. rewrite Hw in *. unfold finish_scan.
  assert (Hgo : forall st e m1 m2 m3, (st = StComplete -> calm s) ->
    flow (set_writer (REnd st) (say e (set_db (set_meta "status" m1 (set_meta "total_bytes" m2 (set_meta "total_files" m3 (sc_db s)))) s))) c).
  { intros st e m1 m2 m3 Hst. split; try done; cbn. destruct st; try done. specialize (Hst eq_refl). destruct (F4 Hst) as [H1 H2].
    destruct (F5 (proj1 Hst) ltac:(by intros [])) as [Hc He]. rewrite Hc, (F6 I) in H1. specialize (F8 Hst).
    destruct (sc_walker s); try done. cbn in H1, H2, F8. rewrite app_nil_r in H1. split; congruence. }
  destruct (sc_failed s) eqn:Ef; [by apply Hgo|]. destruct (Z.eqb_spec (sc_ctl s) CANCELLED) as [Hc|Hc]; [by apply Hgo|].
  apply Hgo. intros _. done.
Qed.

Lemma flow_write s s' c works : flow s c -> write_step hashing progress works s = Some s' ->
  exists c', flow s' c' /\ c `prefix_of` c'.
Proof using Type.
  intros F Hs. unfold write_step in Hs. assert (Hsame : forall s1, flow s1 c -> exists c', flow s1 c' /\ c `prefix_of` c') by (intros s1 H1; by exists c).
  destruct (sc_writer s) as [| | |tail|tail [|q l] last n| | | |st] eqn:Hw.
  - injection Hs as <-. apply Hsame. destruct (Z.eqb_spec (sc_ctl s) CANCELLED); [by apply flow_writer; [done|rewrite Hw|..]|].
    destruct (sc_ctl s =? PAUSED); [|by apply flow_writer; [done|rewrite Hw|..]].
    apply flow_writer; [by apply (flow_same s)|cbn; by rewrite Hw|by intros _ []|done..].
  - destruct (sc_ctl s =? PAUSED); [done|]. destruct (Z.eqb_spec (sc_ctl s) CANCELLED); injection Hs as <-; apply Hsame.
    + by apply flow_writer; [done|rewrite Hw|..].
    + by apply flow_writer; [by apply (flow_same s)|cbn; rewrite Hw|..].
  - destruct (sc_chan s) as [|it rest] eqn:Hc.
    + destruct (sc_walker s) eqn:Hk; try done. injection Hs as <-. apply Hsame, flow_writer; [done|done| |done|done]. intros _ _. by rewrite Hc, Hk.
    + injection Hs as <-. apply Hsame. apply (flow_received s c it rest); [done..|]. cbn. case_match; [by right|by left].
  - injection Hs as <-. destruct works.
    + exists (c ++ sc_batch s). split; [by apply flow_committed|by eexists].
    + by apply Hsame, flow_refused.
  - injection Hs as <-. apply Hsame. pose proof (fl_past s c F) as Hp. rewrite Hw in Hp. unfold flushed.
    destruct (negb tail && progress); (apply flow_writer; [by apply (flow_same s)|cbn; rewrite Hw; by destruct tail| | |by destruct tail]);
      (destruct tail; [intros; by apply Hp|by intros _ []]) || (intros _; cbn; apply (fl_empty s c F); by rewrite Hw).
  - destruct (_ <? _)%nat; [|done]. injection Hs as <-. apply Hsame. pose proof (fl_past s c F) as Hp. rewrite Hw in Hp.
    apply flow_writer; [by apply (flow_same s)|cbn; by rewrite Hw|cbn; by destruct tail| |done].
    intros _. cbn. apply (fl_empty s c F). by rewrite Hw.
  - injection Hs as <-. apply Hsame. pose proof (fl_past s c F) as Hp. rewrite Hw in Hp. destruct (_ && _) eqn:Hb.
    + apply flow_writer; [done|by rewrite Hw|done|done|done].
    + destruct F as [F1 F2 F3 F4 F5 F6 F7 F8 F9]. split; try done; cbn; rewrite ?app_nil_r; [by apply (prefix_app_left _ (sc_batch s))|].
      intros Hc. destruct (F4 Hc) as [H1 H2]. split; [|done]. destruct Hc as [Hc1 Hc2]. cbn in Hc1, Hc2. rewrite Hc2 in Hb.
      apply Z.eqb_neq in Hc1. rewrite Hc1 in Hb. destruct (sc_batch s); [done|by cbn in Hb].
  - destruct (sc_walker s) as [| |ok] eqn:Hk; try done. injection Hs as <-. apply Hsame. pose proof F as [F1 F2 F3 F4 F5 F6 F7 F8 F9].
    rewrite Hw in F3, F5, F6. destruct ok; split; unfold calm in *; cbn; rewrite ?Hk in *; try done; by intros [].
  - destruct (all_hashers_ended s); [|done]. injection Hs as <-. by apply Hsame, flow_finish.
  - done.
Qed.

Lemma flow_hash s s' c i d : flow s c -> hash_step i d s = Some s' -> flow s' c.
Proof using Type.
  intros F Hs. unfold hash_step in Hs. destruct (sc_hashers s !! i) as [h|]; [|done]. cbn [mbind option_bind] in Hs.
  destruct h as [| | |r|]; [injection Hs as <-; by apply (flow_same s)|destruct (sc_ctl s =? PAUSED); [done|]; injection Hs as <-; by apply (flow_same s)| | |done].
  - destruct (sc_hash_chan s); [destruct (requests_closed s); [|done]|]; injection Hs as <-; by apply (flow_same s).
  - injection Hs as <-. destruct d as [h|]; [|by apply (flow_same s)]. destruct F as [F1 F2 F3 F4 F5 F6 F7 F8 F9]. split; try done.
    cbn -[store_hash]. by rewrite store_hash_bare.
Qed.

Lemma flow_user s c v : flow s c -> flow (if sc_ctl s =? CANCELLED then s else set_sctl v s) c.
Proof using Type.
  intros F. destruct (Z.eqb_spec (sc_ctl s) CANCELLED) as [|Hc]; [done|]. destruct F as [F1 F2 F3 F4 F5 F6 F7 F8 F9].
  assert (Hcalm : calm (set_sctl v s) -> calm s) by (by intros [_ Hf]).
  split; try done; cbn; [by intros Hx%Hcalm; apply F4|by intros _; apply F5|]. destruct (sc_writer s); try done. by intros Hx%Hcalm; apply F8.
Qed.

Lemma flow_step a s s' c : flow s c -> step a s = Some s' -> exists c', flow s' c' /\ c `prefix_of` c'.
Proof using Type.
  intros F. destruct a as [|w|i d|v]; cbn [scan_step]; intros Hs.
  - exists c. split; [by eapply flow_walk|done].
  - by eapply flow_write.
  - exists c. split; [by eapply flow_hash|done].
  - injection Hs as <-. exists c. split; [by apply flow_user|done].
Qed.

Lemma flow_run l : forall s s' c, flow s c -> run l s = Some s' -> exists c', flow s' c' /\ c `prefix_of` c'.
Proof using Type.
  induction l as [|a l IH]; intros s s' c F; cbn [scan_run]; [intros [= <-]; by exists c|].
  destruct (step a s) as [s1|] eqn:Hs; [|done]. cbn [mbind option_bind]. intros Hr. destruct (flow_step a s s1 c F Hs) as (c1 & F1 & H1).
  destruct (IH s1 s' c1 F1 Hr) as (c2 & F2 & H2). exists c2. split; [done|]. by etrans.
Qed.

Lemma flow_start workers db : bare <$> db_items db = rows0 -> flow (start_scan hashing workers items db) [].
Proof using Type.
  intros E. split; try done. cbn -[Scan.walked]. apply prefix_nil.
Qed.

(** ** Coming to the end, without hashing *)

Context (Hplain : hashing = false).

(** Nothing is hashed. *)
Definition unhashed (s : ScanState) : Prop :=
  sc_hashers s = [] /\ match sc_writer s with RHash _ l _ _ => l = [] | _ => True end.

Lemma insert_all_reqs batch rows : tx_reqs (insert_all false batch rows) = [].
Proof using Type.
  unfold insert_all. set (t := {| tx_rows := rows; tx_last := _; tx_files := _; tx_bytes := _; tx_reqs := _ |}).
  assert (H : tx_reqs t = []) by done. clearbody t. revert t H. induction batch as [|it batch IH]; intros t H; [done|]. cbn [foldl]. apply IH.
  unfold insert_item. by destruct (has_row _ _).
Qed.

Lemma unhashed_step a s s' : unhashed s -> step a s = Some s' -> unhashed s'.
Proof using Hplain.
  intros [H1 H2]. unfold unhashed. destruct a as [|w|i d|v]; cbn [scan_step]; intros Hs.
  - unfold walk_step in Hs. destruct (sc_walker s); try done.
    + destruct (next_entry _ _) as [[? ?]|]; [|by injection Hs as <-]. destruct (sc_ctl s =? CANCELLED); [by injection Hs as <-|].
      destruct (sc_ctl s =? PAUSED); [done|]. injection Hs as <-. destruct (visit_entry _ _ _ _ _ _) as [|it ? ?|]; try done. by destruct (ri_kind it).
    + destruct (_ <? _)%nat; [|done]. by injection Hs as <-.
  - unfold write_step in Hs. destruct (sc_writer s) as [| | |tail|tail [|q l] last n| | | |st] eqn:Hw; try done.
    + injection Hs as <-. by destruct (sc_ctl s =? CANCELLED), (sc_ctl s =? PAUSED).
    + destruct (sc_ctl s =? PAUSED); [done|]. by destruct (sc_ctl s =? CANCELLED); injection Hs as <-.
    + destruct (sc_chan s); [destruct (sc_walker s); try done|]; injection Hs as <-; [done|]. by case_match.
    + injection Hs as <-. unfold commit_batch. rewrite Hplain. destruct w; [|by destruct tail]. cbn -[insert_all]. by rewrite insert_all_reqs.
    + injection Hs as <-. unfold flushed. by destruct (negb tail && progress), tail.
    + injection Hs as <-. by case_match.
    + destruct (sc_walker s) as [| |ok]; try done. by injection Hs as <-; destruct ok.
    + destruct (all_hashers_ended s); [|done]. injection Hs as <-. unfold finish_scan. by destruct (sc_failed s), (sc_ctl s =? CANCELLED).
  - unfold hash_step in Hs. by rewrite H1 in Hs.
  - injection Hs as <-. by destruct (sc_ctl s =? CANCELLED).
Qed.

Lemma unhashed_run l : forall s s', unhashed s -> run l s = Some s' -> unhashed s'.
Proof using Hplain.
  induction l as [|a l IH]; intros s s' H; cbn [scan_run]; [by intros [= <-]|].
  destruct (step a s) as [s1|] eqn:Hs; [|done]. cbn [mbind option_bind]. apply IH. by eapply unhashed_step.
Qed.

(** A cancelled scan whose walker waits for room that nobody makes. *)
Definition stuck (s : ScanState) : Prop :=
  sc_ctl s = CANCELLED /\ (exists it skip rest, sc_walker s = WkSend it skip rest) /\ (CHANNEL_CAPACITY <= length (sc_chan s))%nat /\
  sc_writer s <> RRecv.

Definition unattended (l : list ScanAction) : Prop := Forall (fun a => forall v, a <> AUser v) l.

Lemma stuck_step a s s' c : flow s c -> unhashed s -> (forall v, a <> AUser v) -> stuck s -> step a s = Some s' -> stuck s'.
Proof using Type.
  intros F [H1 H2] Ha (Hc & (it & sk & re & Hk) & Hf & Hw). unfold stuck. destruct a as [|w|i d|v]; cbn [scan_step]; intros Hs; [| | |by destruct (Ha v)].
  - unfold walk_step in Hs. rewrite Hk in Hs. by destruct (Nat.ltb_spec (length (sc_chan s)) CHANNEL_CAPACITY); [lia|].
  - unfold write_step in Hs. assert (Hgo : forall r, r <> RRecv -> stuck (set_writer r s)) by (intros r Hr; split_and!; [done|by eauto|done|done]).
    destruct (sc_writer s) as [| | |tail|tail [|q l] last n| | | |st] eqn:Hw'; try done.
    + rewrite Hc in Hs. injection Hs as <-. by apply Hgo.
    + rewrite Hc in Hs. injection Hs as <-. by apply Hgo.
    + injection Hs as <-. unfold commit_batch. destruct w; [|destruct tail]; cbn -[insert_all]; split_and!; eauto.
    + injection Hs as <-. unfold flushed. destruct (negb tail && progress), tail; cbn; split_and!; eauto.
    + injection Hs as <-. case_match; cbn; split_and!; eauto.
    + by rewrite Hk in Hs.
    + pose proof (fl_joined s c F) as Hj. by rewrite Hw', Hk in Hj.
  - unfold hash_step in Hs. by rewrite H1 in Hs.
Qed.

Lemma stuck_run l : forall s s' c, flow s c -> unhashed s -> unattended l -> stuck s -> run l s = Some s' -> stuck s' /\ exists c', flow s' c'.
Proof using Hplain.
  induction l as [|a l IH]; intros s s' c F Hu Hl H; cbn [scan_run]; [intros [= <-]; eauto|]. apply Forall_cons in Hl as [Ha Hl].
  destruct (step a s) as [s1|] eqn:Hs; [|done]. cbn [mbind option_bind]. destruct (flow_step a s s1 c F Hs) as (c1 & F1 & _).
  apply (IH s1 s' c1); [done|by eapply unhashed_step|done|exact (stuck_step a s s1 c F Hu Ha H Hs)].
Qed.

Definition can_end (s : ScanState) : Prop := exists l s' st, unattended l /\ run l s = Some s' /\ sc_writer s' = REnd st.

Lemma can_end_step a s s' : (forall v, a <> AUser v) -> step a s = Some s' -> can_end s' -> can_end s.
Proof using Type.
  intros Ha Hs (l & s2 & st & H1 & H2 & H3). exists (a :: l), s2, st. split_and!; [by constructor| |done]. cbn [scan_run]. by rewrite Hs.
Qed.

(** Behind the loop, with the walker ended, a few steps are left. *)
Lemma joined_ends s : unhashed s -> ended (sc_walker s) -> sc_writer s = RJoin \/ sc_writer s = RDrain \/ (exists st, sc_writer s = REnd st) -> can_end s.
Proof using Type.
  intros [Hh Hr] He. assert (Hdrain : forall s, sc_hashers s = [] -> sc_writer s = RDrain -> can_end s).
  { intros s1 H1 H2. assert (Hs : step (AWrite true) s1 = Some (finish_scan s1)) by (cbn; unfold write_step, all_hashers_ended; by rewrite H2, H1).
    apply (can_end_step (AWrite true) s1 _ ltac:(done) Hs). unfold finish_scan.
    destruct (sc_failed s1), (sc_ctl s1 =? CANCELLED); (eexists [], _, _; split_and!; [constructor|done|done]). }
  intros [Hw|[Hw|[st Hw]]]; [|by apply Hdrain|exists [], s, st; split_and!; [constructor|done|done]].
  destruct (sc_walker s) as [| |ok] eqn:Hk; try done.
  assert (Hs : step (AWrite true) s = Some (set_writer RDrain (let s := set_hashing (sc_hash_chan s) false (sc_hashers s) s in if ok then s else set_sfailed s)))
    by (cbn; unfold write_step; by rewrite Hw, Hk).
  apply (can_end_step (AWrite true) s _ ltac:(done) Hs), Hdrain; [by destruct ok|done].
Qed.

Lemma past_ends s : unhashed s -> ended (sc_walker s) -> ~ in_loop (sc_writer s) -> can_end s.
Proof using Hplain.
  intros Hu He Hn. assert (Hhash : forall s last n, unhashed s -> ended (sc_walker s) -> sc_writer s = RHash true [] last n -> can_end s).
  { intros s1 last n U1 E1 W1. assert (Hs : step (AWrite true) s1 = Some (set_writer RJoin (flushed progress true last n s1)))
      by (cbn; unfold write_step; by rewrite W1). apply (can_end_step (AWrite true) s1 _ ltac:(done) Hs).
    apply joined_ends; [by eapply unhashed_step|done|by left]. }
  assert (Hcommit : forall s, unhashed s -> ended (sc_walker s) -> sc_writer s = RCommit true -> can_end s).
  { intros s1 U1 E1 W1. assert (Hs : step (AWrite true) s1 = Some (commit_batch hashing true true s1)) by (cbn -[commit_batch]; unfold write_step; by rewrite W1).
    apply (can_end_step (AWrite true) s1 _ ltac:(done) Hs). pose proof (unhashed_step (AWrite true) s1 _ U1 Hs) as U2.
    destruct U2 as [U2 U3]. unfold commit_batch in *. cbn -[insert_all] in *. rewrite U3. eapply Hhash; [by split|done|done]. }
  pose proof Hu as [Hh Hr]. destruct (sc_writer s) as [| | |[]|[] l last n| | | |st] eqn:Hw; try (by destruct Hn).
  - by apply Hcommit.
  - subst l. by eapply Hhash.
  - assert (Hs : exists s1, step (AWrite true) s = Some s1 /\ sc_walker s1 = sc_walker s /\ (sc_writer s1 = RCommit true \/ sc_writer s1 = RJoin)).
    { cbn. unfold write_step. rewrite Hw. eexists. split; [done|]. case_match; cbn; auto. }
    destruct Hs as (s1 & Hs & Ek & [W1|W1]); apply (can_end_step (AWrite true) s s1 ltac:(done) Hs);
      [apply Hcommit|apply joined_ends]; rewrite ?Ek; try done; try (by eapply unhashed_step); by left.
  - apply joined_ends; [by split; [|rewrite Hw]|done|by left].
  - apply joined_ends; [by split; [|rewrite Hw]|done|by right; left].
  - apply joined_ends; [by split; [|rewrite Hw]|done|by right; right; eauto].
Qed.

(** In the loop of a scan that nobody holds something always moves, and less
    is left. *)
Definition walker_left (k : WalkerState) : nat :=
  match k with WkNext _ rest => 2 * length rest + 1 | WkSend _ _ rest => 2 * length rest + 2 | WkEnd _ => 0 end.

Definition writer_left (r : WriterState) : nat :=
  match r with RTop | RPaused => 1 | RHash _ _ _ _ => 2 | RCommit _ => 3 | _ => 0 end.

Definition left_of (s : ScanState) : nat := 5 * walker_left (sc_walker s) + 4 * length (sc_chan s) + writer_left (sc_writer s).

Lemma next_entry_shorter skip l w rest : next_entry skip l = Some (w, rest) -> (length rest < length l)%nat.
Proof using Type.
  induction l as [|x l IH]; [done|]. cbn [next_entry length]. destruct (match skip with Some d => below d (sw_path x) | None => false end).
  - intros H%IH. lia.
  - intros [= -> ->]. lia.
Qed.

Lemma walk_moves s : sc_ctl s <> PAUSED -> sc_ctl s <> CANCELLED -> ~ ended (sc_walker s) -> sc_chan s = [] ->
  exists s1, step AWalk s = Some s1 /\ sc_ctl s1 = sc_ctl s /\ sc_writer s1 = sc_writer s /\ (left_of s1 < left_of s)%nat.
Proof using Type.
  intros Hp%Z.eqb_neq Hc%Z.eqb_neq Hk He. cbn [scan_step]. unfold walk_step, left_of. destruct (sc_walker s) as [skip rest|it skip rest|ok] eqn:E.
  - destruct (next_entry skip rest) as [[w rest']|] eqn:Hn.
    + rewrite Hp, Hc. apply next_entry_shorter in Hn. eexists. split; [done|].
      assert (Hv : (walker_left (visit_entry pl root filters w skip rest') <= 2 * length rest' + 2)%nat).
      { destruct w; cbn [visit_entry]; [|cbn; lia..]. destruct (is_nil _); [cbn; lia|]. destruct (scan_passes _ _ _ _ _); cbn; lia. }
      destruct (visit_entry _ _ _ _ _ _) as [|it ? ?|]; [| |]; try destruct (ri_kind it); cbn -[Nat.mul] in *; rewrite He; cbn [length]; (split_and!; [done|done|lia]).
    + eexists. split_and!; [done..|]. cbn -[Nat.mul]. rewrite He. cbn [length]. lia.
  - rewrite He. cbn -[Nat.mul]. eexists. split_and!; [done..|]. cbn -[Nat.mul]. lia.
  - by destruct Hk.
Qed.

Lemma write_moves s : unhashed s -> sc_ctl s <> PAUSED -> in_loop (sc_writer s) -> (sc_writer s = RRecv -> sc_chan s <> [] \/ ended (sc_walker s)) ->
  exists s1, step (AWrite true) s = Some s1 /\ sc_ctl s1 = sc_ctl s /\ sc_walker s1 = sc_walker s /\
    ((left_of s1 < left_of s)%nat \/ ~ in_loop (sc_writer s1)).
Proof using Hplain.
  intros [_ Hr] Hp%Z.eqb_neq Hl Hrecv. cbn [scan_step]. unfold write_step, left_of. destruct (sc_writer s) as [| | |[]|[] l last n| | | |st] eqn:E; try done.
  - rewrite Hp. destruct (sc_ctl s =? CANCELLED); (eexists; split_and!; [done..|]); [by right; intros []|left; cbn -[Nat.mul]; lia].
  - rewrite Hp. destruct (sc_ctl s =? CANCELLED); (eexists; split_and!; [done..|]); [by right; intros []|left; cbn -[Nat.mul]; lia].
  - destruct (sc_chan s) as [|it c] eqn:Hc.
    + destruct (Hrecv eq_refl) as [H|H]; [done|]. destruct (sc_walker s) eqn:Hk; try done. eexists. split_and!; [done|done|done|]. by right; intros [].
    + eexists. split_and!; [done..|]. left. cbn -[Nat.mul Nat.leb BATCH_SIZE]. destruct (BATCH_SIZE <=? _)%nat; cbn -[Nat.mul]; lia.
  - eexists. split; [done|]. unfold commit_batch. cbn -[insert_all Nat.mul]. split_and!; [done..|]. left. lia.
  - subst l. eexists. split; [done|]. unfold flushed. destruct (negb false && progress); cbn -[Nat.mul]; (split_and!; [done..|]); left; lia.
Qed.

Lemma running_ends n : forall s c, flow s c -> unhashed s -> sc_ctl s <> PAUSED -> sc_ctl s <> CANCELLED -> (left_of s < n)%nat -> can_end s.
Proof using Hplain.
  induction n as [|n IH]; intros s c F Hu Hp Hc Hn; [lia|].
  destruct (decide (in_loop (sc_writer s))) as [Hl|Hl]; [|by apply past_ends; [|apply (fl_past s c F)|]].
  assert (Hgo : forall a s1, (forall v, a <> AUser v) -> step a s = Some s1 -> sc_ctl s1 = sc_ctl s ->
    (left_of s1 < left_of s)%nat \/ ~ in_loop (sc_writer s1) -> can_end s).
  { intros a s1 Ha Hs E Hm. destruct (flow_step a s s1 c F Hs) as (c1 & F1 & _). pose proof (unhashed_step a s s1 Hu Hs) as U1.
    apply (can_end_step a s s1 Ha Hs). destruct Hm as [Hm|Hm].
    - apply (IH s1 c1 F1 U1); rewrite ?E; [done|done|lia].
    - apply past_ends; [done| |done]. by apply (fl_past s1 c1 F1); [rewrite E|]. }
  assert (Hd : (sc_writer s = RRecv -> sc_chan s <> [] \/ ended (sc_walker s)) \/ (sc_chan s = [] /\ ~ ended (sc_walker s))).
  { destruct (sc_chan s); [|by left; left]. destruct (sc_walker s); cbn; [by right; split; [|intros []]..|by left; right]. }
  destruct Hd as [Hd|[He Hk]].
  - destruct (write_moves s Hu Hp Hl Hd) as (s1 & Hs & E & _ & Hm). by apply (Hgo (AWrite true) s1).
  - destruct (walk_moves s Hp Hc Hk He) as (s1 & Hs & E & _ & Hm). apply (Hgo AWalk s1); [done|done|done|by left].
Qed.

(** Cancelled, with the walker ended, the writer comes to its end too. *)
Lemma cancelled_ends n : forall s c, flow s c -> unhashed s -> sc_ctl s = CANCELLED -> ended (sc_walker s) -> (left_of s < n)%nat -> can_end s.
Proof using Hplain.
  induction n as [|n IH]; intros s c F Hu Hc Hk Hn; [lia|].
  destruct (decide (in_loop (sc_writer s))) as [Hl|Hl]; [|by apply past_ends].
  destruct (write_moves s Hu ltac:(by rewrite Hc) Hl ltac:(by right)) as (s1 & Hs & E & Ek & Hm).
  destruct (flow_step _ s s1 c F Hs) as (c1 & F1 & _). pose proof (unhashed_step _ s s1 Hu Hs) as U1.
  apply (can_end_step (AWrite true) s s1 ltac:(done) Hs). rewrite <- Ek in Hk. destruct Hm as [Hm|Hm]; [|by apply past_ends].
  apply (IH s1 c1 F1 U1); [by rewrite E|done|lia].
Qed.

(** What a cancelled walker does when it may move. *)
Lemma cancelled_walker_ends s c : flow s c -> unhashed s -> sc_ctl s = CANCELLED ->
  (forall it skip rest, sc_walker s = WkSend it skip rest -> (length (sc_chan s) < CHANNEL_CAPACITY)%nat) -> can_end s.
Proof using Hplain.
  intros F Hu Hc Hroom.
  assert (Hnext : forall s c skip rest, flow s c -> unhashed s -> sc_ctl s = CANCELLED -> sc_walker s = WkNext skip rest -> can_end s).
  { intros s1 c1 skip rest F1 U1 C1 K1. assert (Hs : step AWalk s1 = Some (set_walker (WkEnd true) s1)).
    { cbn [scan_step]. unfold walk_step. rewrite K1, C1. by destruct (next_entry skip rest) as [[? ?]|]. }
    apply (can_end_step AWalk s1 _ ltac:(done) Hs). destruct (flow_step _ s1 _ c1 F1 Hs) as (c2 & F2 & _).
    eapply cancelled_ends; [done|by eapply unhashed_step|done|done|apply Nat.lt_succ_diag_r]. }
  destruct (sc_walker s) as [skip rest|it skip rest|ok] eqn:Hk; [by eapply Hnext| |].
  - assert (Hs : step AWalk s = Some (set_walker (WkNext skip rest) (set_chan (sc_chan s ++ [it]) s))).
    { cbn [scan_step]. unfold walk_step. rewrite Hk. by rewrite (proj2 (Nat.ltb_lt _ _) (Hroom _ _ _ eq_refl)). }
    apply (can_end_step AWalk s _ ltac:(done) Hs). destruct (flow_step _ s _ c F Hs) as (c2 & F2 & _).
    eapply Hnext; [done|by eapply unhashed_step|done|done].
  - eapply cancelled_ends; [done|done|done|by rewrite Hk|apply Nat.lt_succ_diag_r].
Qed.


(** The channel is bounded. *)
Definition bounded (s : ScanState) : Prop := (length (sc_chan s) <= CHANNEL_CAPACITY)%nat.

Lemma bounded_step a s s' : bounded s -> step a s = Some s' -> bounded s'.
Proof using Type.
  unfold bounded. intros H. assert (Hsame : forall s1, sc_chan s1 = sc_chan s -> (length (sc_chan s1) <= CHANNEL_CAPACITY)%nat) by (by intros s1 ->).
  destruct a as [|w|i d|v]; cbn [scan_step]; intros Hs.
  - unfold walk_step in Hs. destruct (sc_walker s); try done.
    + destruct (next_entry _ _) as [[? ?]|]; [|by injection Hs as <-]. destruct (sc_ctl s =? CANCELLED); [by injection Hs as <-|].
      destruct (sc_ctl s =? PAUSED); [done|]. injection Hs as <-. apply Hsame. destruct (visit_entry _ _ _ _ _ _) as [|it ? ?|]; try done. by destruct (ri_kind it).
    + destruct (Nat.ltb_spec (length (sc_chan s)) CHANNEL_CAPACITY); [|done]. injection Hs as <-. cbn [set_walker set_chan sc_chan]. rewrite length_app. cbn [length]. lia.
  - unfold write_step in Hs. destruct (sc_writer s) as [| | |tail|tail [|q l] last n| | | |st] eqn:Hw; try done.
    + injection Hs as <-. apply Hsame. by destruct (sc_ctl s =? CANCELLED), (sc_ctl s =? PAUSED).
    + destruct (sc_ctl s =? PAUSED); [done|]. by destruct (sc_ctl s =? CANCELLED); injection Hs as <-; apply Hsame.
    + destruct (sc_chan s) as [|x l] eqn:Hc; [destruct (sc_walker s); try done|]; injection Hs as <-; [by apply Hsame|]. cbn [set_writer set_batch set_chan sc_chan]. cbn [length] in H. lia.
    + injection Hs as <-. apply Hsame. unfold commit_batch. by destruct w, tail.
    + injection Hs as <-. apply Hsame. unfold flushed. by destruct (negb tail && progress), tail.
    + destruct (_ <? _)%nat; [|done]. injection Hs as <-. by apply Hsame.
    + injection Hs as <-. apply Hsame. by case_match.
    + destruct (sc_walker s) as [| |ok]; try done. injection Hs as <-. apply Hsame. by destruct ok.
    + destruct (all_hashers_ended s); [|done]. injection Hs as <-. apply Hsame. unfold finish_scan. by destruct (sc_failed s), (sc_ctl s =? CANCELLED).
  - unfold hash_step in Hs. destruct (sc_hashers s !! i) as [h|]; [|done]. cbn [mbind option_bind] in Hs. apply Hsame.
    destruct h as [| | |r|]; [by injection Hs as <-|destruct (sc_ctl s =? PAUSED); [done|]; by injection Hs as <-| | |done].
    + destruct (sc_hash_chan s); [destruct (requests_closed s); [|done]|]; by injection Hs as <-.
    + injection Hs as <-. by destruct d.
  - injection Hs as <-. apply Hsame. by destruct (sc_ctl s =? CANCELLED).
Qed.

Lemma bounded_run l : forall s s', bounded s -> run l s = Some s' -> bounded s'.
Proof using Type.
  induction l as [|a l IH]; intros s s' H; cbn [scan_run]; [by intros [= <-]|].
  destruct (step a s) as [s1|] eqn:Hs; [|done]. cbn [mbind option_bind]. apply IH. by eapply bounded_step.
Qed.

Lemma receives_or r : r = RRecv \/ r <> RRecv.
Proof using Type. destruct r; auto. Qed.

Lemma unstuck_ends s c : flow s c -> unhashed s -> bounded s -> sc_ctl s <> PAUSED -> ~ stuck s -> can_end s.
Proof using Hplain.
  intros F Hu Hb Hp Hn. destruct (decide (sc_ctl s = CANCELLED)) as [Hc|Hc]; [|by eapply running_ends; [..|apply Nat.lt_succ_diag_r]].
  destruct (decide (length (sc_chan s) < CHANNEL_CAPACITY)%nat) as [Hlt|Hge]; [by eapply cancelled_walker_ends|].
  destruct (sc_walker s) as [skip rest|it skip rest|ok] eqn:Hk; [by eapply cancelled_walker_ends; [..|by rewrite Hk]| |by eapply cancelled_walker_ends; [..|by rewrite Hk]].
  destruct (receives_or (sc_writer s)) as [Hw|Hw]; [|destruct Hn; split_and!; [done|eauto|lia|done]].
  unfold bounded in Hb. destruct (sc_chan s) as [|x l] eqn:Hch; [cbn in Hge; unfold CHANNEL_CAPACITY in Hge; lia|].
  assert (Hs : exists s1, step (AWrite true) s = Some s1 /\ sc_ctl s1 = sc_ctl s /\ sc_chan s1 = l).
  { cbn [scan_step]. unfold write_step. rewrite Hw, Hch. by eexists. }
  destruct Hs as (s1 & Hs & E1 & E2). apply (can_end_step (AWrite true) s s1 ltac:(done) Hs). destruct (flow_step _ s s1 c F Hs) as (c1 & F1 & _).
  eapply cancelled_walker_ends; [done|by eapply unhashed_step|by rewrite E1|]. intros _ _ _ _. rewrite E2. cbn [length] in Hb. lia.
Qed.

Lemma stuck_never_ends s c : flow s c -> unhashed s -> stuck s -> ~ can_end s.
Proof using Hplain.
  intros F Hu Hst (l & s' & st & Hl & Hr & Hw). destruct (stuck_run l s s' c F Hu Hl Hst Hr) as [(_ & (it & sk & re & Hk) & _) (c' & F')].
  pose proof (fl_joined s' c' F') as Hj. by rewrite Hw, Hk in Hj.
Qed.

Lemma unhashed_start workers db : unhashed (start_scan hashing workers items db).
Proof using Hplain. by rewrite Hplain. Qed.
End run.

(** ** The cursor *)

Lemma cursor_rows_from fuel : forall db n, (length (db_items db) - n < fuel)%nat -> cursor_rows fuel db n = drop n (db_items db).
Proof.
  induction fuel as [|fuel IH]; intros db n Hf; [lia|]. cbn [cursor_rows]. unfold refill.
  destruct (take PAGE_SIZE (drop n (db_items db))) as [|r page] eqn:E.
  - destruct (drop n (db_items db)); [done|]. by assert (H : PAGE_SIZE = S 4095) by (by vm_compute); rewrite H in E.
  - rewrite <- E, IH.
    + rewrite length_take, <- drop_drop. generalize (drop n (db_items db)) as l. generalize PAGE_SIZE as k. clear. intros k l.
      destruct (decide (length l <= k)%nat) as [Hl|Hl]; [|by rewrite Nat.min_l, take_drop by lia].
      by rewrite Nat.min_r, drop_all, take_ge, app_nil_r by lia.
    + assert (Hp : (0 < length (take PAGE_SIZE (drop n (db_items db))))%nat) by (rewrite E; cbn; lia).
      rewrite length_take, length_drop in *. lia.
Qed.

(** The cursor yields every row once, in the order of the row ids. *)
Lemma cursor_reads_the_rows db : cursor_rows (S (length (db_items db))) db 0 = db_items db.
Proof. rewrite cursor_rows_from; [done|lia]. Qed.

(** ** The index *)

Lemma registered_is_unfinished id db_path job now idx : exists r, r ∈ list_unfinished (register id db_path job now StRunning idx) /\ as_id r = id /\ as_db_path r = db_path.
Proof.
  eexists. unfold list_unfinished, register. rewrite merge_sort_Permutation, list_elem_of_filter, elem_of_app, list_elem_of_singleton. split; [split; [|by right]|done]. done.
Qed.

Lemma ended_is_not_unfinished id st idx : st <> StRunning -> st <> StPaused ->
  forall r, r ∈ list_unfinished (update_status id st idx) -> as_id r <> id.
Proof.
  intros H1 H2 r. unfold list_unfinished, update_status. rewrite merge_sort_Permutation, list_elem_of_filter, list_elem_of_fmap.
  intros (Hu & x & -> & Hx). cbn in Hu |- *. destruct (String.eqb_spec (as_id x) id) as [E|]; [|done].
  unfold unfinished in Hu. cbn in Hu. by destruct st.
Qed.

(** ** Interrupted scans *)

Lemma create_items root hashing now db : db_items (create root hashing now db) = db_items db.
Proof. unfold create. cbn. by case_match. Qed.


Section scans.
Context {G : Globs} (pl : Platform) (root : path) (filters : option CompiledFilters) (hashing progress : bool).
Context (items : list ScanWalkItem).

(** Scans of the same tree one after the other, each ended by a crash, a
    cancellation or an error wherever it was; what is committed stays. *)
Inductive scans : ScanDb -> ScanDb -> Prop :=
| scans_none db : scans db db
| scans_more db now workers l s db' :
    scan_run pl root filters hashing progress l (start_scan hashing workers items (create root hashing now db)) = Some s ->
    scans (sc_db s) db' -> scans db db'.

Lemma scans_rows db db' : scans db db' ->
  insert_rows (walked pl root filters None items).1 (bare <$> db_items db') = insert_rows (walked pl root filters None items).1 (bare <$> db_items db).
Proof using Type.
  induction 1 as [|db now workers l s db' Hr _ IH]; [done|]. rewrite IH. clear IH. set (rows := fmap bare (db_items db)).
  assert (F0 : flow pl root filters items rows (start_scan hashing workers items (create root hashing now db)) []) by (by apply flow_start; by rewrite create_items).
  destruct (flow_run pl root filters hashing progress items rows l _ s [] F0 Hr) as (c & F & _).
  rewrite (fl_rows _ _ _ _ _ _ _ F). apply insert_rows_again, (prefix_app_left _ _ _ (fl_batch _ _ _ _ _ _ _ F)).
Qed.

Lemma complete_rows db now workers l s :
  scan_run pl root filters hashing progress l (start_scan hashing workers items (create root hashing now db)) = Some s ->
  sc_writer s = REnd StComplete ->
  (walked pl root filters None items).2 = true /\
  bare <$> db_items (sc_db s) = insert_rows (walked pl root filters None items).1 (bare <$> db_items db).
Proof using Type.
  intros Hr Hw. set (rows := fmap bare (db_items db)).
  assert (F0 : flow pl root filters items rows (start_scan hashing workers items (create root hashing now db)) []) by (by apply flow_start; by rewrite create_items).
  destruct (flow_run pl root filters hashing progress items rows l _ s [] F0 Hr) as (c & F & _).
  pose proof (fl_end _ _ _ _ _ _ _ F) as He. rewrite Hw in He. destruct He as [Hc Hf]. split; [done|].
  rewrite (fl_rows _ _ _ _ _ _ _ F). by rewrite Hc.
Qed.

(** C30: a scan that was interrupted, wherever it was (a crash keeps what is
    committed; each attempt opens the database again), and comes to an end with
    [Complete]: the last attempt met no error in its walk except refused
    entries, which it skips; to the rows it found, whatever attempts they are
    from, it has added one for each entry of its walk whose name had none, with
    the size, time and kind of the walk, and the cursor reads exactly the rows.
    When all attempts walked the same unchanged tree, however many there were,
    these are the rows that one undisturbed walk would have added; from a new
    database and without two entries of one name, one row for each entry of the
    walk.  Rows are compared without their hashes and without their order. *)
Theorem interrupted_scan_is_whole (db : ScanDb) (now : string) (workers : Z) (l : list ScanAction) (s : ScanState) :
  scan_run pl root filters hashing progress l (start_scan hashing workers items (create root hashing now db)) = Some s ->
  sc_writer s = REnd StComplete ->
  let '(entries, whole) := walked pl root filters None items in
  let rows := cursor_rows (S (length (db_items (sc_db s)))) (sc_db s) 0 in
  whole = true /\ rows ≡ₚ db_items (sc_db s) /\
  bare <$> rows ≡ₚ insert_rows entries (bare <$> db_items db) /\
  forall db0, scans db0 db ->
    bare <$> rows ≡ₚ insert_rows entries (bare <$> db_items db0) /\
    (db_items db0 = [] -> NoDup (ri_rel <$> entries) -> bare <$> rows ≡ₚ row_of <$> entries).
Proof using Type.
  intros Hr Hw. destruct (complete_rows db now workers l s Hr Hw) as [H1 H2]. cbv zeta. rewrite cursor_reads_the_rows.
  assert (H3 : forall db0, scans db0 db -> bare <$> db_items (sc_db s) = insert_rows (walked pl root filters None items).1 (bare <$> db_items db0)).
  { intros db0 Hs. by rewrite H2, (scans_rows db0 db Hs). }
  destruct (walked pl root filters None items) as [entries whole]. cbn [fst snd] in *. split_and!; [done|done|by rewrite H2|].
  intros db0 Hs. rewrite (H3 db0 Hs). split; [done|]. intros E Hd. rewrite E, insert_rows_fresh; [done|done|]. apply Forall_forall. by intros.
Qed.
End scans.

(** C31: from any state that a scan without hashing can come to and that is
    not paused, the scan can come to its end without the user, unless it was
    cancelled while the walker waits at a full channel that the writer has
    stopped reading; from there it never comes to its end. *)
Theorem scan_can_end {G : Globs} (pl : Platform) (root : path) (filters : option CompiledFilters) (progress : bool)
  (items : list ScanWalkItem) (workers : Z) (db : ScanDb) (l : list ScanAction) (s : ScanState) :
  scan_run pl root filters false progress l (start_scan false workers items db) = Some s -> sc_ctl s <> PAUSED ->
  can_end pl root filters false progress s <-> ~ stuck s.
Proof.
  intros Hr Hp. set (rows := fmap bare (db_items db)).
  assert (F0 : flow pl root filters items rows (start_scan false workers items db) []) by (by apply flow_start).
  destruct (flow_run pl root filters false progress items rows l _ s [] F0 Hr) as (c & F & _).
  assert (Hu : unhashed s) by (eapply unhashed_run; [done| |done]; by apply unhashed_start).
  assert (Hb : bounded s) by (eapply bounded_run; [|done]; unfold bounded; cbn; lia).
  split; [intros He Hs; by apply (stuck_never_ends pl root filters false progress items rows eq_refl s c)|by eapply unstuck_ends].
Qed.

(** ** Witnesses *)

Definition no_patterns : Globs := {| Glob := string; glob_new p := None; glob_match _ _ := false |}.

Definition scan_entry (n : string) (len : Z) : ScanWalkItem :=
  SwEntry ["t"; n] SkFile (Some {| m_len := len; m_modified := Some 5; m_attributes := 0; m_readonly := false |}).

Definition small_tree : list ScanWalkItem :=
  [SwEntry ["t"] SkDir None; SwEntry ["t"; "d"] SkDir None; SwDenied ["t"; "d"; "no"]; scan_entry "a" 3; scan_entry "b" 0].

#[local] Abbreviation small_run l db := (scan_run (G := no_patterns) Unix ["t"] None false true l (start_scan false 4 small_tree (create ["t"] false "7" db))).

(** A scan that crashes after two rows were received and none committed, one
    that is cancelled, and one that comes to its end. *)
Definition crashed : list ScanAction := [AWalk; AWalk; AWalk; AWrite true; AWrite true].

Definition whole_run : list ScanAction := replicate 9 AWalk ++ replicate 13 (AWrite true).

Definition committed_run : list ScanAction := replicate 9 AWalk ++ replicate 10 (AWrite true).

(** Tables after a run, and how it ended. *)
Definition after (l : list ScanAction) (db : ScanDb) : ScanDb * bool :=
  match small_run l db with
  | Some s => (sc_db s, match sc_writer s with REnd StComplete => true | _ => false end)
  | None => (db, false)
  end.

Lemma interrupted_scan_is_whole_witness :
  exists s, small_run whole_run (after committed_run (after crashed empty_db).1).1 = Some s /\ sc_writer s = REnd StComplete /\
    bare <$> cursor_rows (S (length (db_items (sc_db s)))) (sc_db s) 0 ≡ₚ row_of <$> (walked (G := no_patterns) Unix ["t"] None None small_tree).1 /\
    length (db_items (sc_db s)) = 3%nat.
Proof.
  destruct (small_run whole_run (after committed_run (after crashed empty_db).1).1) as [s|] eqn:E; [|by vm_compute in E].
  assert (Hw : sc_writer s = REnd StComplete) by (vm_compute in E; by injection E as <-).
  exists s. split_and!; [done|done| |vm_compute in E; by injection E as <-].
  pose proof (interrupted_scan_is_whole (G := no_patterns) Unix ["t"] None false true small_tree
    (after committed_run (after crashed empty_db).1).1 "7" 4 whole_run s E Hw) as H.
  destruct (walked (G := no_patterns) Unix ["t"] None None small_tree) as [entries whole] eqn:Ew.
  destruct H as (_ & _ & _ & H). destruct (H empty_db) as [_ H0].
  - destruct (small_run crashed empty_db) as [s1|] eqn:E1; [|by vm_compute in E1].
    destruct (small_run committed_run (after crashed empty_db).1) as [s2|] eqn:E2; [|by vm_compute in E2].
    eapply (scans_more _ _ _ _ _ _ _ "7" 4 crashed s1); [exact E1|].
    assert (H1 : (after crashed empty_db).1 = sc_db s1) by (unfold after; by rewrite E1). rewrite <- H1.
    assert (H2 : (after committed_run (after crashed empty_db).1).1 = sc_db s2) by (unfold after at 1; by rewrite E2).
    eapply (scans_more _ _ _ _ _ _ _ "7" 4 committed_run s2); [exact E2|]. rewrite H2. constructor.
  - apply H0; [done|]. vm_compute in Ew. injection Ew as <- <-. apply (bool_decide_unpack _). by vm_compute.
Defined.

(** A scan whose writer is slow: the channel is full when the user cancels. *)
Definition wide_tree : list ScanWalkItem := (fun i => scan_entry (pretty (N.of_nat i)) 1) <$> seq 0 1030.

Definition hanging_run : list ScanAction := replicate 2049 AWalk ++ [AUser CANCELLED; AWrite true].

Definition scan_hangs (s : ScanState) : bool :=
  (sc_ctl s =? CANCELLED) && (match sc_walker s with WkSend _ _ _ => true | _ => false end) && (CHANNEL_CAPACITY <=? length (sc_chan s))%nat &&
  (match sc_writer s with RRecv => false | _ => true end).

Lemma scan_hangs_stuck s : scan_hangs s = true -> stuck s.
Proof.
  unfold scan_hangs. intros [[[H1%Z.eqb_eq H2]%andb_prop H3%Nat.leb_le]%andb_prop H4]%andb_prop. split_and!; [done| |done|by intros E; rewrite E in H4].
  destruct (sc_walker s); [done|eauto|done].
Qed.

#[local] Abbreviation wide_run l := (scan_run (G := no_patterns) Unix ["t"] None false true l (start_scan false 4 wide_tree empty_db)).

Lemma hanging_run_hangs : option_map scan_hangs (wide_run hanging_run) = Some true.
Proof. by vm_compute. Qed.

Lemma scan_can_end_witness :
  exists s s', small_run crashed empty_db = Some s /\ can_end (G := no_patterns) Unix ["t"] None false true s /\
    wide_run hanging_run = Some s' /\ ~ can_end (G := no_patterns) Unix ["t"] None false true s'.
Proof.
  destruct (small_run crashed empty_db) as [s|] eqn:E; [|by vm_compute in E].
  pose proof hanging_run_hangs as Hh. destruct (wide_run hanging_run) as [s'|] eqn:E'; [|done]. injection Hh as Hh%scan_hangs_stuck.
  assert (H1 : sc_ctl s = RUNNING) by (vm_compute in E; by injection E as <-).
  pose proof (scan_can_end (G := no_patterns) Unix ["t"] None true small_tree 4 (create ["t"] false "7" empty_db) crashed s E) as H.
  pose proof (scan_can_end (G := no_patterns) Unix ["t"] None true wide_tree 4 empty_db hanging_run s' E') as H'.
  assert (Hn : ~ stuck s) by (intros [Hx _]; by rewrite H1 in Hx).
  assert (Hc : sc_ctl s' <> PAUSED) by (by destruct Hh as [-> _]).
  exists s, s'. split; [reflexivity|]. split; [apply H; [by rewrite H1|exact Hn]|]. split; [reflexivity|].
  intros He. exact (proj1 (H' Hc) He Hh).
Defined.

(** Two files of one name in the column leave one row. *)
Lemma namesakes_leave_one_row :
  let '(entries, _) := walked (G := no_patterns) Unix ["t"] None None [scan_entry "a\b" 3; SwEntry ["t"; "a"; "b"] SkFile None] in
  length entries = 2%nat /\ length (insert_rows entries []) = 1%nat.
Proof. by vm_compute. Qed.

(** A row of an earlier attempt keeps its old size. *)
Lemma resume_keeps_old_rows it l : has_row (ri_rel it) l = true -> insert_row l it = l.
Proof. intros H. unfold insert_row. by rewrite H. Qed.

(** An error wins over a cancellation. *)
Lemma error_beats_cancel s : sc_failed s = true -> sc_writer (finish_scan s) = REnd StFailed.
Proof. intros H. unfold finish_scan. by rewrite H. Qed.
