(* ===== verification/SparseCopy.v ===== *)
(** * Sparse copies ([freally-core]: [sparse.rs], and the sparse branch of [engine.rs])

    [copy_file] with a hook that reports the allocated ranges of a file: a file
    with holes is copied range by range into a destination that was extended
    first, anything else takes the way of [CopyFile].  The world, the numbered
    calls and the calculus are those of [CopyFile] and [CopyWp]; bytes land at
    an offset here.

    The second part shows that a sparse copy has the bytes of its source. *)
From S2P Require Import Prelude.
From S2P Require Import Text.
From S2P Require Import Monad.
From S2P Require Import Files.
From S2P Require Import Control.
From S2P Require Import CopyTypes.
From S2P Require Import CopyFile.
From S2P Require Import CopyWp.
From S2P Require Import CopyProof.
From S2P Require Import Table.
From S2P Require Import Journal.
From S2P Require Import JournalSink.
From S2P Require Import CopySafety.
From stdpp Require Import options.
Open Scope Z_scope.
#[local] Open Scope monad_scope.

(** ** Ranges *)

Record ByteRange := { br_offset : Z; br_len : Z }.

Definition br_end (r : ByteRange) : Z := sat_add64 (br_offset r) (br_len r).
Definition br_is_empty (r : ByteRange) : bool := br_len r =? 0.
Definition allocated_bytes (l : list ByteRange) : Z := foldr (fun r a => br_len r + a) 0 l.

(** The [SparseOps] trait; [None] is an error of the query. *)
Record SparseOps := {
  detect_extents : FileTree -> path -> nat -> option (list ByteRange);
  supports_sparse : path -> bool
}.

(** [DenseOnlySparseOps] *)
Definition dense_only : SparseOps := {|
  detect_extents fs p _ := (fun f => [{| br_offset := 0; br_len := file_len f |}]) <$> fs !! p;
  supports_sparse _ := false
|}.

(** What the trait documents: outside the ranges the file reads as zeros. *)
Definition in_range (r : ByteRange) (i : nat) : Prop := br_offset r <= Z.of_nat i < br_offset r + br_len r.

Definition extents_law (ops : SparseOps) : Prop := forall fs p n l f,
  detect_extents ops fs p n = Some l -> fs !! p = Some f ->
  Forall (fun r => 0 <= br_offset r /\ 0 <= br_len r) l /\
  forall i, (i < length (content f))%nat -> ~ Exists (fun r => in_range r i) l -> content f !! i = Some x00.

Definition sparseness_mismatch (src dst : path) : CopyError := {| ce_kind := SparsenessMismatch; ce_src := src; ce_dst := dst |}.

Definition SPARSE_SLOP_BYTES : Z := Z.shiftl 1 20.

Section engine.
Context {S : Type} {JS : JournalSink S} {EN : CopyEnv} (ops : SparseOps).
#[local] Abbreviation CM := (SM (CopyWorld S) Stop).

(** ** The destination *)

(** [set_len]: cut, or extended with zeros. *)
Definition set_len (src dst : path) (total : Z) : CM unit :=
  call_or src dst ;;
  let! n := gets c_calls in
  modify (fun w =>
    match c_files w !! dst with
    | Some f => set_cfiles (<[dst := {| content := resize (Z.to_nat total) x00 (content f); f_mtime_ms := wall n |}]> (c_files w)) w
    | None => w
    end).

(** Bytes land at an offset; what the disk makes of them is stored. *)
Definition put_at (p : path) (off : Z) (b : bytes) : CM unit :=
  let! w := gets id in
  match c_files w !! p with
  | Some f => modify (set_cfiles (<[p := {| content := splice (Z.to_nat off) (disk (c_calls w) b) (content f);
                                            f_mtime_ms := wall (c_calls w) |}]> (c_files w)))
  | None => ret tt
  end.

(** [write_all] on the file itself; a failed one has stored a part. *)
Definition write_at (src dst : path) (off : Z) (b : bytes) : CM (option CopyError) :=
  let! n := gets c_calls in
  let! r := call in
  match r with
  | None => put_at dst off b ;; ret None
  | Some k => put_at dst off (take (drain n) b) ;; ret (Some (from_io src dst k))
  end.

Definition read_exact (src dst : path) (pos want : Z) : CM (result CopyError bytes) :=
  let! r := call in
  match r with
  | Some k => ret (Err (from_io src dst k))
  | None =>
      let! f := file_at src in
      let b := take (Z.to_nat want) (drop (Z.to_nat pos) (default [] (content <$> f))) in
      ret (if Z.of_nat (length b) =? want then Ok b else Err (from_io src dst IoOther))
  end.

(** ** The loop *)

Record SparseState := { sp_copied : Z; sp_last : Z; sp_paused : bool }.

(** The pause and cancel checks before a read; [true]: cancelled. *)
Definition check_point (was_paused : bool) : CM (bool * bool) :=
  let! c := load in
  if c =? CANCELLED then ret (true, was_paused)
  else
    let! p := load in
    if p =? PAUSED then let! stop := pause_point was_paused in ret (stop, false) else ret (false, was_paused).

Fixpoint range_loop (fuel : nat) (src dst : path) (buf_size total pos remaining : Z) (st : SparseState) : CM (result CopyError SparseState) :=
  match fuel with
  | O => throw SStuck
  | Datatypes.S fuel =>
      if 0 <? remaining then
        let! (stop, was_paused) := check_point (sp_paused st) in
        if stop then ret (Err (copy_cancelled src dst))
        else
          let want := Z.min remaining buf_size in
          let! b := read_exact src dst pos want in
          match b with
          | Err e => ret (Err e)
          | Ok b =>
              let! e := write_at src dst pos b in
              match e with
              | Some e => ret (Err e)
              | None =>
                  let copied := sp_copied st + want in
                  let! n := gets c_calls in
                  if (PROGRESS_MIN_BYTES <=? sat_sub64 copied (sp_last st)) && due n then
                    emit (Progress copied total) ;;
                    range_loop fuel src dst buf_size total (pos + want) (remaining - want)
                      {| sp_copied := copied; sp_last := copied; sp_paused := was_paused |}
                  else
                    range_loop fuel src dst buf_size total (pos + want) (remaining - want)
                      {| sp_copied := copied; sp_last := sp_last st; sp_paused := was_paused |}
              end
          end
      else ret (Ok st)
  end.

(** A range: both files are moved to its start. *)
Definition copy_range (src dst : path) (buf_size total : Z) (r : ByteRange) (st : SparseState) : CM (result CopyError SparseState) :=
  if br_is_empty r then ret (Ok st)
  else
    let! s := call in
    match s with
    | Some k => ret (Err (from_io src dst k))
    | None =>
        let! d := call in
        match d with
        | Some k => ret (Err (from_io src dst k))
        | None => range_loop (1 + Z.to_nat (br_len r)) src dst buf_size total (br_offset r) (br_len r) st
        end
    end.

Fixpoint copy_ranges (src dst : path) (buf_size total : Z) (l : list ByteRange) (st : SparseState) : CM (result CopyError SparseState) :=
  match l with
  | [] => ret (Ok st)
  | r :: l =>
      let! x := copy_range src dst buf_size total r st in
      match x with Err e => ret (Err e) | Ok st => copy_ranges src dst buf_size total l st end
  end.

(** ** After the loop *)

(** The verify pass of this path.  ([copy_file] never comes here with a
    verifier.) *)
Definition sparse_verify (src dst : path) (opts : CopyOptions) : CM unit :=
  match verify opts with
  | None => ret tt
  | Some v =>
      call_or src dst ;;
      let! f := file_at src in
      let! e := run_verify_pass src dst opts v (default [] (content <$> f)) in
      match e with None => ret tt | Some e => throw (SErr e) end
  end.

(** What the destination occupies; a panic of the query counts as nothing. *)
Definition dst_allocated (dst : path) (total : Z) : CM Z :=
  let! n := gets c_calls in
  let! r := call in
  let! fs := gets c_files in
  ret (match r with
       | Some _ => 0
       | None => match detect_extents ops fs dst n with Some l => allocated_bytes l | None => total end
       end).

Definition sparse_report (src dst : path) (opts : CopyOptions) (total : Z) (extents : list ByteRange) (st : SparseState) : CM CopyReport :=
  let! a := dst_allocated dst total in
  if (allocated_bytes extents + SPARSE_SLOP_BYTES <? a) && (total <=? a) then finalize_error opts dst (sparseness_mismatch src dst)
  else
    emit (Progress (sp_copied st) total) ;;
    emit (Completed (sp_copied st)) ;;
    ret {| cr_src := src; cr_dst := dst; cr_bytes := sp_copied st |}.

Definition sparse_settle (src dst : path) (opts : CopyOptions) (mtime total : Z) (extents : list ByteRange) (st : SparseState) : CM CopyReport :=
  call_or src dst ;;
  let should_fsync :=
    fsync_on_close opts || (match verify opts with Some _ => true | None => false end && fsync_before_verify opts) in
  (if should_fsync then call_or src dst else ret tt) ;;
  let! me := preserve_metadata src dst opts mtime in
  match me with
  | Some e => throw (SErr e)
  | None => sparse_verify src dst opts ;; sparse_report src dst opts total extents st
  end.

Definition copy_file_sparse_aware (src dst : path) (opts : CopyOptions) (src_meta : File) (extents : list ByteRange) : CM CopyReport :=
  let total := file_len src_meta in
  open_dst src dst opts true ;;
  call ;;
  set_len src dst total ;;
  call_or src dst ;;
  emit (Started src dst total) ;;
  let! r := copy_ranges src dst (buffer_size_for_file opts total) total extents {| sp_copied := 0; sp_last := 0; sp_paused := false |} in
  match r with
  | Err e => call ;; finalize_error opts dst e
  | Ok st => sparse_settle src dst opts (f_mtime_ms src_meta) total extents st
  end.

(** ** The choice of the way *)

Definition is_sparse (extents : list ByteRange) (total : Z) : bool :=
  (allocated_bytes extents <? total) && negb (bool_decide (extents = [])) || (0 <? total) && bool_decide (extents = []).

Definition probe_dst (dst : path) : CM bool :=
  let! r := call in ret (match r with Some _ => false | None => supports_sparse ops (default dst (parent dst)) end).

Definition sparse_or_plain (src dst : path) (opts : CopyOptions) (src_meta : File) : CM CopyReport :=
  match verify opts with
  | Some _ => plain_copy src dst opts src_meta
  | None =>
      let! n := gets c_calls in
      call_or src dst ;;
      let! fs := gets c_files in
      match detect_extents ops fs src n with
      | None => plain_copy src dst opts src_meta
      | Some extents =>
          if is_sparse extents (file_len src_meta) then
            let! ok := probe_dst dst in
            if ok then
              (if fail_if_exists opts then ret tt else maybe_snapshot_before_overwrite opts dst) ;;
              copy_file_sparse_aware src dst opts src_meta extents
            else (emit SparsenessNotSupported ;; plain_copy src dst opts src_meta)
          else plain_copy src dst opts src_meta
      end
  end.

(** [copy_file] with [preserve_sparseness] and the hook installed. *)
Definition copy_file_with_sparse (src dst : path) (opts : CopyOptions) : CM CopyReport :=
  match validate_path_no_traversal src, validate_path_no_traversal dst with
  | Some _, _ | _, Some _ => throw (SErr (path_escape src dst))
  | None, None =>
      if escapes_jail opts dst then throw (SErr (path_escape src dst))
      else
        call_or src dst ;;
        let! m := file_at src in
        match m with
        | None => throw (SErr (from_io src dst NotFound))
        | Some src_meta => sparse_or_plain src dst opts src_meta
        end
  end.
End engine.

(** * Sparse copies leave the bytes of the source

    [covered dn] says how far a sparse copy has come: every byte of the
    destination is that of the source, or a zero that no range has reached. *)

Section engine.
Context {S : Type} {JS : JournalSink S} {EN : CopyEnv} (ops : SparseOps).
#[local] Abbreviation CM := (SM (CopyWorld S) Stop).
Context (src dst : path) (opts : CopyOptions) (F : FileTree) (f : File).
Context (Hne : src <> dst) (Hsrc : F !! src = Some f).
#[local] Abbreviation b := (content f).
#[local] Abbreviation base := (CopyWp.base dst opts F f False).
#[local] Abbreviation ends := (CopyWp.ends dst opts F f False False).
#[local] Abbreviation quiet := (CopyWp.quiet (S := S)).
#[local] Abbreviation stopped := (CopyWp.stopped dst opts F f False False).

(** ** What has been covered *)

Definition covered (dn : nat -> Prop) (w : CopyWorld S) : Prop :=
  exists g, c_files w !! dst = Some g /\
    (honest -> length (content g) = length b /\
       forall i x, b !! i = Some x -> content g !! i = Some x \/ (~ dn i /\ content g !! i = Some x00)).

Lemma covered_files dn w w' : c_files w' = c_files w -> covered dn w -> covered dn w'.
Proof using Type. unfold covered. by intros ->. Qed.

Lemma covered_quiet dn w w' : quiet w w' -> covered dn w -> covered dn w'.
Proof using Type. intros (E & _ & _). by apply covered_files. Qed.

Lemma covered_weaken (dn dn' : nat -> Prop) w : (forall i, dn' i -> dn i) -> covered dn w -> covered dn' w.
Proof using Type.
  intros Hi (g & Hg & Hc). exists g. split; [done|]. intros Hh. destruct (Hc Hh) as [Hl Hx]. split; [done|].
  intros i x Hb. destruct (Hx i x Hb) as [|[? ?]]; [by left|right; eauto].
Qed.

Lemma runs_put_at dn off n (Q : unit -> CopyWorld S -> Prop) w :
  base w -> covered dn w -> 0 <= off ->
  (forall w', base w' -> covered (fun i => dn i \/ off <= Z.of_nat i < off + Z.of_nat (length (take n (drop (Z.to_nat off) b)))) w' ->
     c_flags w' = c_flags w -> Q tt w') ->
  ends (put_at dst off (take n (drop (Z.to_nat off) b))) Q w.
Proof using Type.
  intros B (g & Hg & Hc) H0 HQ. set (x := take n (drop (Z.to_nat off) b)). unfold put_at. apply ends_bind, ends_gets.
  change (id w) with w. rewrite Hg. apply ends_modify, HQ; [| |done].
  - apply base_files; [|done]. intros p Hp. by apply lookup_insert_ne.
  - eexists. simpl. rewrite lookup_insert_eq. split; [done|]. intros Hh. simpl. rewrite (Hh _ x).
    destruct (Hc Hh) as [Hl Hx]. assert (Hlen : (length x <= length b - Z.to_nat off)%nat).
    { unfold x. rewrite length_take, length_drop. lia. }
    destruct (decide (x = [])) as [Hnil|Hnil].
    { rewrite Hnil. assert (Hid : splice (Z.to_nat off) [] (content g) = content g).
      { unfold splice. simpl. rewrite Nat.add_0_r. apply take_drop. }
      rewrite Hid. split; [done|]. intros i y Hy. destruct (Hx i y Hy) as [|[? ?]]; [by left|right]. split; [|done].
      fold x. rewrite Hnil. simpl. intros [|]; [done|lia]. }
    assert (Hpos : (0 < length x)%nat) by (by destruct x; [|simpl; lia]).
    rewrite length_splice by lia. split; [done|]. intros i y Hy.
    destruct (decide (Z.to_nat off <= i < Z.to_nat off + length x)%nat) as [Hin|Hout].
    + left. rewrite splice_inside by lia. unfold x in *. rewrite length_take, length_drop in *.
      rewrite lookup_take_lt, lookup_drop by lia. rewrite <- Hy. f_equal. lia.
    + assert (Hsame : splice (Z.to_nat off) x (content g) !! i = content g !! i).
      { destruct (decide (i < Z.to_nat off)%nat); [apply splice_before; lia|apply splice_after; lia]. }
      rewrite Hsame. destruct (Hx i y Hy) as [|[? ?]]; [by left|right]. split; [|done]. fold x. intros [|]; [done|lia].
Qed.

Lemma runs_read_exact pos want (Q : result CopyError bytes -> CopyWorld S -> Prop) w : base w -> 0 <= want ->
  (forall e w', quiet w w' -> base w' -> Q (Err e) w') ->
  (forall w', quiet w w' -> base w' -> Z.of_nat (length (take (Z.to_nat want) (drop (Z.to_nat pos) b))) = want ->
     Q (Ok (take (Z.to_nat want) (drop (Z.to_nat pos) b))) w') ->
  ends (read_exact src dst pos want) Q w.
Proof using Hne Hsrc.
  intros B Hw He Hok. unfold read_exact. apply ends_bind, may_call; [done|]. intros [k|] w1 Hq1 B1; [by apply ends_ret, He|].
  apply ends_bind, ends_gets. rewrite (base_src src dst opts F f False Hne Hsrc w1 B1). apply ends_ret. simpl.
  destruct (Z.eqb_spec (Z.of_nat (length (take (Z.to_nat want) (drop (Z.to_nat pos) b)))) want); [by apply Hok|by apply He].
Qed.

Lemma runs_check_point pb (Q : bool * bool -> CopyWorld S -> Prop) w dn : base w -> covered dn w ->
  (forall x w', base w' -> covered dn w' -> Q x w') -> ends (check_point pb) Q w.
Proof using Type.
  intros B C HQ. unfold check_point.
  assert (Hgo : forall x w', flags_left w w' -> Q x w').
  { intros x w' Hl. apply HQ; [by eapply base_flags_left|]. destruct Hl as (E & _ & _). by eapply covered_files. }
  apply ends_bind, ends_load; [done|]. intros v w1 L1 _ _. destruct (v =? CANCELLED); [by apply ends_ret, Hgo|].
  apply ends_bind, ends_load; [by eapply base_flags_left|]. intros u w2 L2 _ _.
  assert (L : flags_left w w2) by (by eapply flags_left_trans).
  destruct (u =? PAUSED); [|by apply ends_ret, Hgo]. apply ends_bind, ends_pause; [by eapply base_flags_left|].
  intros s w3 L3 _. apply ends_ret, Hgo. by eapply flags_left_trans.
Qed.

(** ** The ranges *)

Definition loop_ends (dn : nat -> Prop) (r : result CopyError SparseState) (w : CopyWorld S) : Prop :=
  base w /\ match r with Ok _ => covered dn w | Err _ => True end.

Lemma runs_range_loop bs total : 0 < bs -> forall fuel dn pos remaining st w,
  base w -> covered dn w -> 0 <= pos -> 0 <= remaining -> (Z.to_nat remaining < fuel)%nat ->
  ends (range_loop fuel src dst bs total pos remaining st) (loop_ends (fun i => dn i \/ pos <= Z.of_nat i < pos + remaining)) w.
Proof using Hne Hsrc.
  intros Hbs. induction fuel as [|fuel IH]; intros dn pos remaining st w B C Hp Hr Hf; [lia|]. cbn [range_loop].
  destruct (Z.ltb_spec 0 remaining) as [Hlt|Hge].
  2: { apply ends_ret. split; [done|]. eapply covered_weaken; [|done]. intros i [|]; [done|lia]. }
  apply ends_bind, (runs_check_point _ _ _ dn); [done|done|]. intros [stop was] w1 B1 C1.
  destruct stop; [by apply ends_ret; split|]. set (want := Z.min remaining bs). assert (Hw : 0 < want <= remaining) by lia.
  apply ends_bind, runs_read_exact; [done|lia|intros e w2 _ B2; by apply ends_ret; split|]. intros w2 Hq2 B2 Hlen.
  apply ends_bind. unfold write_at. apply ends_bind, ends_gets, ends_bind, may_call; [done|]. intros r w3 Hq3 B3.
  assert (C3 : covered dn w3) by (do 2 (eapply covered_quiet; [eassumption|]); done). destruct r as [k|].
  - rewrite take_take. apply ends_bind, (runs_put_at dn); [done|done|done|]. intros w4 B4 _ _. by apply ends_ret, ends_ret.
  - apply ends_bind, (runs_put_at dn); [done|done|done|]. intros w4 B4 C4 _. rewrite Hlen in C4. apply ends_ret, ends_bind, ends_gets.
    assert (Hnext : forall st' w5, base w5 -> covered (fun i => dn i \/ pos <= Z.of_nat i < pos + want) w5 ->
      ends (range_loop fuel src dst bs total (pos + want) (remaining - want) st')
        (loop_ends (fun i => dn i \/ pos <= Z.of_nat i < pos + remaining)) w5).
    { intros st' w5 B5 C5. eapply ends_mono; [apply (IH _ (pos + want) (remaining - want) st' w5 B5 C5); lia|].
      intros r w6 [B6 C6]. split; [done|]. destruct r; [|done]. eapply covered_weaken; [|done].
      intros i [|Hi]; [by left; left|]. destruct (Z.le_gt_cases (pos + want) (Z.of_nat i)); [right; lia|left; right; lia]. }
    destruct (_ && _); [|by apply Hnext]. apply ends_bind, may_emit; [done|]. intros w5 Hq5 B5.
    apply Hnext; [done|by eapply covered_quiet].
Qed.

Lemma runs_copy_ranges bs total : 0 < bs -> forall l dn st w,
  base w -> covered dn w -> Forall (fun r => 0 <= br_offset r /\ 0 <= br_len r) l ->
  ends (copy_ranges src dst bs total l st) (loop_ends (fun i => dn i \/ Exists (fun r => in_range r i) l)) w.
Proof using Hne Hsrc.
  intros Hbs. induction l as [|r l IH]; intros dn st w B C Hl; cbn [copy_ranges].
  { apply ends_ret. split; [done|]. eapply covered_weaken; [|done]. intros i [|Hx]; [done|by apply Exists_nil in Hx]. }
  apply Forall_cons in Hl as [[H0 H1] Hl]. apply ends_bind.
  assert (Hrest : forall r0 w', loop_ends (fun i => dn i \/ in_range r i) r0 w' ->
    ends (match r0 with Err e => ret (Err e) | Ok st => copy_ranges src dst bs total l st end)
      (loop_ends (fun i => dn i \/ Exists (fun r => in_range r i) (r :: l))) w').
  { intros [st'|e] w' [B' C']; [|by apply ends_ret]. eapply ends_mono; [by apply IH|]. intros r0 w2 [B2 C2]. split; [done|].
    destruct r0; [|done]. eapply covered_weaken; [|done]. intros i [|Hx]; [by left; left|].
    apply Exists_cons in Hx as [|]; [by left; right|by right]. }
  unfold copy_range, br_is_empty. destruct (Z.eqb_spec (br_len r) 0) as [He|He].
  { apply ends_ret, (Hrest (Ok st) w). split; [done|]. eapply covered_weaken; [|done]. unfold in_range. intros i [|]; [done|lia]. }
  apply ends_bind, may_call; [done|]. intros [k|] w1 Hq1 B1; [by apply ends_ret, (Hrest (Err (from_io src dst k)) w1)|].
  apply ends_bind, may_call; [done|]. intros [k|] w2 Hq2 B2; [by apply ends_ret, (Hrest (Err (from_io src dst k)) w2)|].
  eapply ends_mono; [apply (runs_range_loop bs total Hbs _ dn); [done| |done|done|lia]|].
  - do 2 (eapply covered_quiet; [eassumption|]). done.
  - intros r0 w3 H3. by apply Hrest.
Qed.

(** ** The whole way *)

Definition exact_done (rep : CopyReport) (w : CopyWorld S) : Prop :=
  base w /\ exists g, c_files w !! dst = Some g /\ (honest -> content g = b).

Lemma covered_all l w : Forall (fun r => 0 <= br_offset r /\ 0 <= br_len r) l ->
  (forall i, (i < length b)%nat -> ~ Exists (fun r => in_range r i) l -> b !! i = Some x00) ->
  covered (fun i => False \/ Exists (fun r => in_range r i) l) w -> exists g, c_files w !! dst = Some g /\ (honest -> content g = b).
Proof using Type.
  intros _ Hz (g & Hg & Hc). exists g. split; [done|]. intros Hh. destruct (Hc Hh) as [Hl Hx]. apply list_eq. intros i.
  destruct (b !! i) as [x|] eqn:Hb; [|apply lookup_ge_None; rewrite Hl; by apply lookup_ge_None].
  destruct (Hx i x Hb) as [|[Hn H0]]; [done|]. rewrite H0. symmetry. rewrite <- Hb. apply Hz; [by eapply lookup_lt_Some|]. tauto.
Qed.

Lemma runs_settle total l st w : verify opts = None -> base w -> (exists g, c_files w !! dst = Some g /\ (honest -> content g = b)) ->
  ends (sparse_settle ops src dst opts (f_mtime_ms f) total l st) exact_done w.
Proof using Type.
  intros Hv B Hg. unfold sparse_settle. rewrite Hv. cbv zeta. rewrite andb_false_l.
  apply ends_bind, may_call_or; [done|]. intros w1 (E1 & _ & _) B1. apply ends_bind.
  assert (Hgo : forall w2, c_files w2 = c_files w -> base w2 -> ends (let! me := preserve_metadata src dst opts (f_mtime_ms f) in
    match me with Some e => throw (SErr e) | None => sparse_verify src dst opts ;; sparse_report ops src dst opts total l st end)
    exact_done w2).
  { intros w2 E2 B2. destruct Hg as (g & Hg & Hc). apply ends_bind.
    eapply (ends_metadata src dst opts F f False False); [done|done|done|unfold at_dst; by rewrite E2|].
    intros e g' w3 B3 Hg3 Hcg _ _. destruct e as [e|]; [by apply ends_throw, may_stop|].
    unfold sparse_verify. rewrite Hv. apply ends_bind, ends_ret. unfold sparse_report, dst_allocated.
    apply ends_bind, ends_bind, ends_gets, ends_bind, may_call; [done|]. intros r w4 (E4 & _ & _) B4.
    apply ends_bind, ends_gets, ends_ret. destruct (_ && _); [by apply may_error|].
    apply ends_bind, may_emit; [done|]. intros w5 (E5 & _ & _) B5. apply ends_bind, may_emit; [done|]. intros w6 (E6 & _ & _) B6.
    apply ends_ret. split; [done|]. exists g'. unfold at_dst in Hg3. split; [congruence|]. intros Hh. rewrite Hcg. by apply Hc. }
  destruct (fsync_on_close opts); simpl.
  - apply may_call_or; [done|]. intros w2 (E2 & _ & _) B2. apply Hgo; [congruence|done].
  - by apply ends_ret, Hgo.
Qed.

Lemma runs_open_dst (Q : unit -> CopyWorld S -> Prop) w : base w ->
  (forall w' t, base w' -> c_files w' !! dst = Some {| content := []; f_mtime_ms := t |} -> Q tt w') ->
  ends (open_dst src dst opts true) Q w.
Proof using Type.
  intros B HQ. unfold open_dst. apply ends_bind, may_call_or; [done|]. intros w1 _ B1. apply ends_bind, ends_gets, ends_bind, ends_gets.
  assert (Hgo : Q tt (set_cfiles (<[dst := {| content := []; f_mtime_ms := wall (c_calls w1) |}]> (c_files w1)) w1)).
  { eapply HQ; [|simpl; apply lookup_insert_eq]. apply base_files; [|done]. intros p Hp. by apply lookup_insert_ne. }
  destruct (c_files w1 !! dst); [|by apply ends_modify]. destruct (fail_if_exists opts); [by apply ends_throw, may_stop|].
  by apply ends_modify.
Qed.

Lemma runs_set_len t (Q : unit -> CopyWorld S -> Prop) w : base w -> c_files w !! dst = Some {| content := []; f_mtime_ms := t |} ->
  (forall w', base w' -> covered (fun _ => False) w' -> Q tt w') -> ends (set_len src dst (file_len f)) Q w.
Proof using Type.
  intros B Hd HQ. unfold set_len. apply ends_bind, may_call_or; [done|]. intros w1 (E1 & _ & _) B1. apply ends_bind, ends_gets, ends_modify.
  rewrite E1, Hd. apply HQ.
  - apply base_files; [|done]. intros p Hp. rewrite E1. by apply lookup_insert_ne.
  - eexists. simpl. rewrite lookup_insert_eq. split; [done|]. intros _. cbn [content]. unfold file_len. rewrite Nat2Z.id, resize_nil.
    rewrite length_replicate. split; [done|]. intros i x Hi. right. split; [tauto|]. apply lookup_replicate_2. by eapply lookup_lt_Some.
Qed.

Lemma runs_sparse_aware l w : verify opts = None -> base w -> Forall (fun r => 0 <= br_offset r /\ 0 <= br_len r) l ->
  (forall i, (i < length b)%nat -> ~ Exists (fun r => in_range r i) l -> b !! i = Some x00) ->
  ends (copy_file_sparse_aware ops src dst opts f l) exact_done w.
Proof using Hne Hsrc.
  intros Hv B Hl Hz. unfold copy_file_sparse_aware. cbv zeta. apply ends_bind, runs_open_dst; [done|]. intros w1 t B1 Hd1.
  apply ends_bind, may_call; [done|]. intros _ w2 (E2 & _ & _) B2. apply ends_bind, (runs_set_len t); [done|congruence|].
  intros w3 B3 C3. apply ends_bind, may_call_or; [done|]. intros w4 Hq4 B4. apply ends_bind, may_emit; [done|]. intros w5 Hq5 B5.
  apply ends_bind. eapply ends_mono; [apply runs_copy_ranges; [apply buffer_positive|done| |done]|].
  { do 2 (eapply covered_quiet; [eassumption|]). exact C3. }
  intros [st|e] w6 [B6 C6].
  - apply runs_settle; [done|done|]. by apply (covered_all l).
  - apply ends_bind, may_call; [done|]. intros _ w7 _ B7. by apply may_error.
Qed.

(** ** The choice *)

Lemma runs_plain_copy w : Inj (=) (=) b3 -> hook_lawful src dst opts -> base w ->
  ends (plain_copy src dst opts f) exact_done w.
Proof using Hne Hsrc.
  intros Hinj Hlaw B. eapply ends_mono; [by apply ends_plain_copy|].
  intros rep w' (B' & _ & g & Hg & [Hok _] & _). split; [done|]. by exists g.
Qed.

Lemma runs_choice w : Inj (=) (=) b3 -> hook_lawful src dst opts -> extents_law ops -> base w ->
  ends (sparse_or_plain ops src dst opts f) exact_done w.
Proof using Hne Hsrc.
  intros Hinj Hlaw Hx B. unfold sparse_or_plain. destruct (verify opts) eqn:Hv; [by apply runs_plain_copy|].
  apply ends_bind, ends_gets, ends_bind, may_call_or; [done|]. intros w1 _ B1. apply ends_bind, ends_gets.
  destruct (detect_extents ops (c_files w1) src (c_calls w)) as [l|] eqn:Hl; [|by apply runs_plain_copy].
  destruct (Hx _ _ _ _ _ Hl (base_src src dst opts F f False Hne Hsrc w1 B1)) as [Hwf Hz].
  destruct (is_sparse l (file_len f)); [|by apply runs_plain_copy]. apply ends_bind. unfold probe_dst.
  apply ends_bind, may_call; [done|]. intros r w2 _ B2. apply ends_ret.
  destruct (match r with Some _ => false | None => supports_sparse ops (default dst (parent dst)) end).
  - apply ends_bind. destruct (fail_if_exists opts); [by apply ends_ret, runs_sparse_aware|].
    eapply (ends_snapshot dst opts F f False False); [done|done|done|]. intros w3 B3 _. by apply runs_sparse_aware.
  - apply ends_bind, may_emit; [done|]. intros w3 _ B3. by apply runs_plain_copy.
Qed.

Lemma runs_copy_with_sparse w : Inj (=) (=) b3 -> hook_lawful src dst opts -> extents_law ops -> base w ->
  ends (copy_file_with_sparse ops src dst opts) exact_done w.
Proof using Hne Hsrc.
  intros Hinj Hlaw Hx B. unfold copy_file_with_sparse.
  assert (Hesc : ends (throw (SErr (path_escape src dst))) exact_done w) by (by apply ends_throw, may_stop).
  destruct (validate_path_no_traversal src); [done|]. destruct (validate_path_no_traversal dst); [done|].
  destruct (escapes_jail opts dst); [done|]. apply ends_bind, may_call_or; [done|]. intros w1 _ B1.
  apply ends_bind, ends_gets. rewrite (base_src src dst opts F f False Hne Hsrc w1 B1). by apply runs_choice.
Qed.
End engine.

(** C29: Copying a file whose allocated ranges the file system reports, range
    by range into a destination extended with zeros, whatever the calls, the
    flags and the schedule do: no other file changes, the journal still tells
    the truth, the copy comes to an end, and when it reports success the
    destination has the source's bytes, the holes included (on a disk that
    stores what it is given, for a query that never calls data a hole). *)
Theorem sparse_copy_is_exact {S : Type} {JS : JournalSink S} {EN : CopyEnv} ops src dst opts f (w : CopyWorld S) :
  src <> dst -> c_files w !! src = Some f -> Inj (=) (=) b3 ->
  truthful (journal_file_idx opts) (content f) (c_sink w) -> hook_lawful src dst opts -> extents_law ops ->
  let '(r, w') := copy_file_with_sparse ops src dst opts w in
  spared dst w w' /\ truthful (journal_file_idx opts) (content f) (c_sink w') /\
  match r with
  | Ok rep => exists g, c_files w' !! dst = Some g /\ (honest -> content g = content f)
  | Err e => e <> SStuck
  end.
Proof.
  intros Hne Hsrc Hinj Htrue Hlaw Hx.
  pose proof (runs_copy_with_sparse ops src dst opts (c_files w) f Hne Hsrc w Hinj Hlaw Hx) as Hr. unfold ends, wp in Hr.
  destruct (copy_file_with_sparse ops src dst opts w) as [[rep|e] w']; (destruct Hr as [[B1 B2 _] Hr]; [by split|]).
  - split_and!; [exact B1|exact B2|exact Hr].
  - destruct Hr as (? & _). by split_and!.
Qed.

(** ** A deployment *)

Module SparseDemo.
Import CopyDemo.
#[local] Existing Instances SinkDemo.env JournalDemo.job_codec JournalDemo.file_codec.

(** A file system that reports every byte that is not zero as a range. *)
Fixpoint nonzero (off : Z) (l : bytes) : list ByteRange :=
  match l with
  | [] => []
  | x :: l => (if decide (x = x00) then [] else [{| br_offset := off; br_len := 1 |}]) ++ nonzero (off + 1) l
  end.

Definition bytewise : SparseOps := {|
  detect_extents fs p _ := (fun f => nonzero 0 (content f)) <$> fs !! p;
  supports_sparse _ := true
|}.

Lemma nonzero_nonneg l : forall off, 0 <= off -> Forall (fun r => 0 <= br_offset r /\ 0 <= br_len r) (nonzero off l).
Proof.
  induction l as [|x l IH]; intros off H; cbn [nonzero]; [done|]. apply Forall_app. split; [|apply IH; lia].
  destruct (decide (x = x00)); constructor; [simpl; lia|done].
Qed.

Lemma nonzero_covers l : forall off i x, 0 <= off -> l !! i = Some x -> x <> x00 ->
  Exists (fun r => in_range r (Z.to_nat off + i)) (nonzero off l).
Proof.
  induction l as [|y l IH]; intros off i x H Hi Hx; [done|]. cbn [nonzero]. apply Exists_app. destruct i as [|i]; simpl in Hi.
  - left. injection Hi as ->. destruct (decide (x = x00)); [done|]. apply Exists_cons. left. unfold in_range. simpl. lia.
  - right. specialize (IH (off + 1) i x ltac:(lia) Hi Hx). eapply Exists_impl; [exact IH|].
    unfold in_range. intros r Hr. lia.
Qed.

Lemma bytewise_lawful : extents_law bytewise.
Proof.
  intros fs p n l f Hl Hf. cbn [bytewise detect_extents] in Hl. rewrite Hf in Hl. injection Hl as <-.
  split; [by apply nonzero_nonneg|]. intros i Hi Hn. apply lookup_lt_is_Some in Hi as [x Hx]. rewrite Hx.
  destruct (decide (x = x00)) as [->|Hne]; [done|]. contradict Hn. by apply (nonzero_covers _ 0 i x).
Qed.

Definition holey : File := {| content := [x61; x00; x00; x62; x63; x00]; f_mtime_ms := 7 |}.
Definition plain : CopyOptions := opts None false false false.
Definition sparse_run := copy_file_with_sparse bytewise ["a"] ["b"] plain (world holey [RUNNING; RUNNING; PAUSED; PAUSED]).
End SparseDemo.
Import CopyDemo SparseDemo.
#[local] Existing Instances SinkDemo.env JournalDemo.job_codec JournalDemo.file_codec.

Lemma sparse_copy_is_exact_witness :
  exists rep g, sparse_run.1 = Ok rep /\ c_files sparse_run.2 !! ["b"] = Some g /\ content g = content holey.
Proof.
  pose proof (sparse_copy_is_exact bytewise ["a"] ["b"] plain holey (world holey [RUNNING; RUNNING; PAUSED; PAUSED])
    ltac:(done) ltac:(done) (b3_inj _ _ _) (fresh_true _ _) ltac:(done) bytewise_lawful) as Hc.
  assert (is_Some (match sparse_run.1 with Ok rep => Some rep | Err _ => None end)) as Hok by (vm_compute; eauto).
  unfold sparse_run in *. destruct (copy_file_with_sparse bytewise ["a"] ["b"] plain _) as [[rep|e] w']; [|by destruct Hok].
  destruct Hc as (_ & _ & g & Hg & Hgc). exists rep, g. split_and!; [done|done|by apply Hgc].
Defined.

(** The report and the last event count what the ranges held, not the length
    of the source. *)
Lemma sparse_report_counts_the_ranges :
  let '(r, w') := sparse_run in
  r = Ok {| cr_src := ["a"]; cr_dst := ["b"]; cr_bytes := 3 |} /\ last (c_events w') = Some (Completed 3) /\
  file_len <$> c_files w' !! ["b"] = Some 6.
Proof. vm_compute. done. Qed.

(** The call that extends the destination fails: the copy of before is gone
    and an empty file stays, where a failed loop takes it away. *)
Lemma failed_extension_leaves_an_empty_file :
  let fails k := deploy (fun n => if (n =? k)%nat then Fails IoOther else Fine) id 4 in
  let after k := c_files (copy_file_with_sparse (EN := fails k) bytewise ["a"] ["b"] plain (world holey [])).2 !! ["b"] in
  content <$> after 5%nat = Some [] /\ after 8%nat = None.
Proof. vm_compute. done. Qed.
