(* ===== verification/Platform.v ===== *)
(** * The platform's fast paths ([freally-platform]: [dispatcher.rs],
    [reflink_path.rs], [hook.rs], [native/linux.rs])

    [fast_copy] tries a block clone, then the calls of the operating system,
    then the engine's own loop; [copy_file_on_platform] is [copy_file] with
    [PlatformFastCopyHook] installed, as every front end installs it.  The
    world and the numbered calls are those of [CopyFile].  The block clone is
    the [reflink-copy] crate, a parameter; the native calls are those of
    Linux.

    The second part shows that the fast paths leave what the dense loop
    leaves. *)
From S2P Require Import Prelude.
From S2P Require Import Text.
From S2P Require Import Monad.
From S2P Require Import Files.
From S2P Require Import Control.
From S2P Require Import CopyTypes.
From S2P Require Import CopyFile.
From S2P Require Import SparseCopy.
From S2P Require Import Table.
From S2P Require Import Journal.
From S2P Require Import JournalSink.
From S2P Require Import CopyWp.
From S2P Require Import CopyProof.
From S2P Require Import CopySafety.
From stdpp Require Import options.
Open Scope Z_scope.
#[local] Open Scope monad_scope.

(** The kinds of [io::ErrorKind] that [is_unsupported] tells apart. *)
Inductive OsErrorKind := OsNotFound | OsPermissionDenied | OsStorageFull | OsAlreadyExists | OsOutOfMemory | OsOther.

(** How a failed call is classified beyond the kind the engine sees, the
    probes, and the clone. *)
Class PlatformEnv := {
  raw_os_error : nat -> option Z;
  os_kind : nat -> OsErrorKind;
  volume_id : path -> option Z;
  reflink : FileTree -> path -> path -> nat -> FileTree * option CopyErrorKind;
}.

Definition EXDEV : Z := 18.
Definition EINVAL : Z := 22.
Definition ENOSYS : Z := 38.

(** A clone writes to its destination only, and after a success the
    destination has the bytes of the source. *)
Definition reflink_law `{!PlatformEnv} : Prop := forall fs src dst n,
  src <> dst -> let '(fs', r) := reflink fs src dst n in
  (forall p, p <> dst -> fs' !! p = fs !! p) /\
  (r = None -> forall f, fs !! src = Some f -> exists g, fs' !! dst = Some g /\ content g = content f).

(** ** Outcomes ([outcome.rs], [native/mod.rs]) *)

Inductive ChosenStrategy := ByReflink | ByCopyFileRange | BySendfile | ByAsyncFallback.

Record FastCopyOutcome := { fo_strategy : ChosenStrategy; fo_bytes : Z }.

Inductive ReflinkOutcome := Cloned | ReflinkNotSupported | ReflinkIo (k : CopyErrorKind).

Inductive NativeOutcome :=
| NativeDone (s : ChosenStrategy) (bytes : Z)
| NativeCancelled
| NativeUnsupported
| NativeIo (k : CopyErrorKind).

Inductive DriveOutcome :=
| DriveDone (bytes : Z)
| DriveCancelled
| FallThroughToSendfile
| DriveUnsupported
| DriveIo (k : CopyErrorKind).

Definition SENDFILE_MAX_FILE_SIZE : Z := 2 * 1024 * 1024 * 1024.
Definition COPY_CHUNK : Z := 16 * 1024 * 1024.

(** "This file system cannot clone", as opposed to a real error. *)
Definition is_unsupported (code : option Z) (k : OsErrorKind) : bool :=
  match code with
  | Some c => (c =? 18) || (c =? 95) || (c =? 102)
  | None => false
  end ||
  match k with
  | OsNotFound | OsPermissionDenied | OsStorageFull | OsAlreadyExists | OsOutOfMemory => false
  | OsOther => true
  end.

Section platform.
Context {S : Type} {JS : JournalSink S} {EN : CopyEnv} {PE : PlatformEnv}.
#[local] Abbreviation CM := (SM (CopyWorld S) Stop).

(** ** The block clone *)

(** An existing destination is removed first; a failure of that is ignored. *)
Definition reflink_inner (src dst : path) : CM (option CopyErrorKind) :=
  let! e := call in
  let! f := file_at dst in
  match e, f with
  | None, Some _ =>
      let! r := call in
      match r with None => modify (fun w => set_cfiles (delete dst (c_files w)) w) | Some _ => ret tt end
  | _, _ => ret tt
  end ;;
  let! n := gets c_calls in
  call ;;
  let! fs := gets c_files in
  let '(fs', r) := reflink fs src dst n in
  modify (set_cfiles fs') ;;
  ret r.

Definition try_reflink (src dst : path) : CM ReflinkOutcome :=
  let! r := reflink_inner src dst in
  let! n := gets c_calls in
  ret (match r with
       | None => Cloned
       | Some k => if is_unsupported (raw_os_error n) (os_kind n) then ReflinkNotSupported else ReflinkIo k
       end).

(** ** The calls of Linux *)

(** The checks at the head of a turn; [true]: cancelled. *)
Definition steer : CM bool :=
  let! c := load in
  if c =? CANCELLED then ret true
  else
    let! p := load in
    if p =? PAUSED then (wait_paused ;; let! c := load in ret (c =? CANCELLED)) else ret false.

(** The kernel moves some bytes from one file position to the other: at least
    one, unless the source has ended. *)
Definition move_bytes (src dst : path) (src_pos dst_pos len : Z) (n : nat) : CM Z :=
  let! f := file_at src in
  let x := take (Nat.max 1 (Nat.min (chunk n) (Z.to_nat len))) (drop (Z.to_nat src_pos) (default [] (content <$> f))) in
  put_at dst dst_pos x ;;
  ret (Z.of_nat (length x)).

Definition range_progress (moved total last : Z) : CM Z :=
  let! n := gets c_calls in
  if (PROGRESS_MIN_BYTES <=? sat_sub64 moved last) && due n
  then (emit (Progress moved total) ;; ret moved)
  else ret last.

(** The file positions move with the bytes. *)
Fixpoint copy_file_range_loop (fuel : nat) (src dst : path) (total src_pos dst_pos moved last : Z) (first_call : bool)
    : CM DriveOutcome :=
  match fuel with
  | O => throw SStuck
  | Datatypes.S fuel =>
      let! stop := steer in
      if stop then ret DriveCancelled
      else
        let remaining := sat_sub64 total moved in
        if remaining =? 0 then ret (DriveDone moved)
        else
          let! n := gets c_calls in
          let! r := call in
          match r with
          | Some k =>
              let raw := default 0 (raw_os_error n) in
              ret (if first_call && ((raw =? EXDEV) || (raw =? EINVAL)) then FallThroughToSendfile
                   else if raw =? ENOSYS then DriveUnsupported
                   else DriveIo k)
          | None =>
              let! m := move_bytes src dst src_pos dst_pos (Z.min remaining COPY_CHUNK) n in
              if m =? 0 then ret (DriveDone moved)
              else
                let! last := range_progress (moved + m) total last in
                copy_file_range_loop fuel src dst total (src_pos + m) (dst_pos + m) (moved + m) last false
          end
  end.

Definition drive_copy_file_range (src dst : path) (total : Z) : CM DriveOutcome :=
  copy_file_range_loop (1 + Z.to_nat total) src dst total 0 0 0 0 true.

Fixpoint sendfile_loop (fuel : nat) (src dst : path) (total src_pos dst_pos moved last : Z) : CM NativeOutcome :=
  match fuel with
  | O => throw SStuck
  | Datatypes.S fuel =>
      let! stop := steer in
      if stop then ret NativeCancelled
      else
        let remaining := sat_sub64 total moved in
        if remaining =? 0 then ret (NativeDone BySendfile moved)
        else
          let! n := gets c_calls in
          let! r := call in
          match r with
          | Some k =>
              let raw := default 0 (raw_os_error n) in
              ret (if (raw =? ENOSYS) || (raw =? EINVAL) then NativeUnsupported else NativeIo k)
          | None =>
              let! m := move_bytes src dst src_pos dst_pos (Z.min remaining COPY_CHUNK) n in
              if m =? 0 then ret (NativeDone BySendfile moved)
              else
                let! last := range_progress (moved + m) total last in
                sendfile_loop fuel src dst total (src_pos + m) (dst_pos + m) (moved + m) last
          end
  end.

Definition drive_sendfile (src dst : path) (total : Z) : CM NativeOutcome :=
  sendfile_loop (1 + Z.to_nat total) src dst total 0 0 0 0.

(** [open_pair]: the destination is created, or cut to nothing. *)
Definition open_pair (src dst : path) : CM (option CopyErrorKind) :=
  let! r := call in
  let! f := file_at src in
  match r, f with
  | Some k, _ => ret (Some k)
  | None, None => ret (Some NotFound)
  | None, Some _ =>
      let! n := gets c_calls in
      let! d := call in
      match d with
      | Some k => ret (Some k)
      | None =>
          modify (fun w => set_cfiles (<[dst := {| content := []; f_mtime_ms := wall n |}]> (c_files w)) w) ;;
          ret None
      end
  end.

Definition ftruncate_zero (dst : path) : CM (option CopyErrorKind) :=
  let! n := gets c_calls in
  let! r := call in
  match r with
  | Some k => ret (Some k)
  | None =>
      modify (fun w =>
        match c_files w !! dst with
        | Some _ => set_cfiles (<[dst := {| content := []; f_mtime_ms := wall n |}]> (c_files w)) w
        | None => w
        end) ;;
      ret None
  end.

(** [sendfile] after [copy_file_range] gave up on its first call. *)
Definition fall_through_to_sendfile (src dst : path) (total : Z) : CM NativeOutcome :=
  let! t := ftruncate_zero dst in
  match t with
  | Some k => ret (NativeIo k)
  | None =>
      let! s := call in
      match s with
      | Some k => ret (NativeIo k)
      | None => if SENDFILE_MAX_FILE_SIZE <? total then ret NativeUnsupported else drive_sendfile src dst total
      end
  end.

Definition try_native_copy (src dst : path) (total : Z) : CM NativeOutcome :=
  emit (Started src dst total) ;;
  let! o := open_pair src dst in
  match o with
  | Some k => ret (NativeIo k)
  | None =>
      let! d := drive_copy_file_range src dst total in
      match d with
      | DriveDone bytes => ret (NativeDone ByCopyFileRange bytes)
      | DriveCancelled => ret NativeCancelled
      | DriveUnsupported => ret NativeUnsupported
      | DriveIo k => ret (NativeIo k)
      | FallThroughToSendfile => fall_through_to_sendfile src dst total
      end
  end.

(** ** The dispatcher *)

(** [Failed] is sent and the error returned. *)
Definition fail_with {A} (e : CopyError) : CM A := emit (EvFailed e) ;; throw (SErr e).

(** The options without the hook, so that the engine does not come back. *)
Definition downgraded (opts : CopyOptions) : CopyOptions :=
  {| buffer_size := buffer_size opts; fsync_on_close := fsync_on_close opts; preserve_times := preserve_times opts;
     preserve_permissions := preserve_permissions opts; keep_partial := keep_partial opts;
     fail_if_exists := fail_if_exists opts; verify := verify opts; fsync_before_verify := fsync_before_verify opts;
     strategy := AlwaysAsync; fast_copy_hook := None; journaled := journaled opts;
     journal_file_idx := journal_file_idx opts; dest_jail_root := dest_jail_root opts;
     versioning_enabled := versioning_enabled opts |}.

Definition run_async_fallback (src dst : path) (opts : CopyOptions) : CM FastCopyOutcome :=
  let! report := copy_file src dst (downgraded opts) in
  ret {| fo_strategy := ByAsyncFallback; fo_bytes := cr_bytes report |}.

Definition same_volume (src dst : path) : bool :=
  match volume_id src, volume_id (default dst (parent dst)) with Some a, Some b => a =? b | _, _ => true end.

Definition wants_reflink (s : CopyStrategy) : bool := match s with Auto | AlwaysFast => true | _ => false end.

(** From the native calls on: they, the refusal of [AlwaysFast], the loop. *)
Definition native_or_fallback (src dst : path) (total : Z) (opts : CopyOptions) : CM FastCopyOutcome :=
  let after :=
    match strategy opts with
    | AlwaysFast => fail_with (from_io src dst IoOther)
    | _ => run_async_fallback src dst opts
    end in
  match strategy opts with
  | AlwaysAsync => after
  | _ =>
      let! r := try_native_copy src dst total in
      match r with
      | NativeDone s bytes => emit (Completed bytes) ;; ret {| fo_strategy := s; fo_bytes := bytes |}
      | NativeCancelled => fail_with (from_io src dst Interrupted)
      | NativeUnsupported => after
      | NativeIo k => fail_with (from_io src dst k)
      end
  end.

Definition fast_copy (src dst : path) (opts : CopyOptions) : CM FastCopyOutcome :=
  let! e := call in
  let! m := file_at src in
  match e, m with
  | Some k, _ => fail_with (from_io src dst k)
  | None, None => fail_with (from_io src dst NotFound)
  | None, Some src_meta =>
      let total := file_len src_meta in
      if same_volume src dst && wants_reflink (strategy opts) then
        let! r := try_reflink src dst in
        match r with
        | Cloned =>
            emit (Started src dst total) ;; emit (Progress total total) ;; emit (Completed total) ;;
            ret {| fo_strategy := ByReflink; fo_bytes := total |}
        | ReflinkNotSupported => native_or_fallback src dst total opts
        | ReflinkIo k => fail_with (from_io src dst k)
        end
      else native_or_fallback src dst total opts
  end.

(** ** [copy_file] with the hook *)

(** The answer of a call that may fail, as a value. *)
Definition attempt {A} (m : CM A) : CM (result CopyError A) := fun w =>
  match m w with
  | (Ok a, w') => (Ok (Ok a), w')
  | (Err (SErr e), w') => (Ok (Err e), w')
  | (Err e, w') => (Err e, w')
  end.

(** [PlatformFastCopyHook::try_copy]: whichever way won, the copy is done. *)
Definition try_copy (src dst : path) (opts : CopyOptions) : CM CopyReport :=
  let! out := fast_copy src dst opts in
  ret {| cr_src := src; cr_dst := dst; cr_bytes := fo_bytes out |}.

Definition platform_or_dense (src dst : path) (opts : CopyOptions) (src_meta : File) : CM CopyReport :=
  match verify opts, strategy opts with
  | Some _, _ | _, AlwaysAsync => dense_copy src dst opts src_meta
  | None, _ =>
      (if fail_if_exists opts then ret tt else maybe_snapshot_before_overwrite opts dst) ;;
      let! r := attempt (try_copy src dst opts) in
      match r with
      | Ok report => ret report
      | Err e => finalize_error opts dst e
      end
  end.

Definition copy_file_on_platform (src dst : path) (opts : CopyOptions) : CM CopyReport :=
  match validate_path_no_traversal src, validate_path_no_traversal dst with
  | Some _, _ | _, Some _ => throw (SErr (path_escape src dst))
  | None, None =>
      if escapes_jail opts dst then throw (SErr (path_escape src dst))
      else
        call_or src dst ;;
        let! m := file_at src in
        match m with
        | None => throw (SErr (from_io src dst NotFound))
        | Some src_meta => platform_or_dense src dst opts src_meta
        end
  end.
End platform.

(** * The platform's fast paths copy what they say

    Each way of [fast_copy] leaves the source's bytes at the destination when
    it reports success, and changes nothing else whatever happens; so does
    the engine with the hook installed. *)

Section platform.
Context {S : Type} {JS : JournalSink S} {EN : CopyEnv} {PE : PlatformEnv}.
#[local] Abbreviation CM := (SM (CopyWorld S) Stop).
Context (src dst : path) (opts : CopyOptions) (F : FileTree) (f : File).
Context (Hne : src <> dst) (Hsrc : F !! src = Some f).
#[local] Abbreviation b := (content f).
#[local] Abbreviation base := (CopyWp.base dst opts F f False).
#[local] Abbreviation ends := (CopyWp.ends dst opts F f False False).
#[local] Abbreviation quiet := (CopyWp.quiet (S := S)).
#[local] Abbreviation holds := (CopyWp.holds (S := S) dst).

(** The destination has the source's bytes, and their number is reported. *)
Definition arrived (n : Z) (w : CopyWorld S) : Prop := base w /\ n = file_len f /\ holds b w.

Definition native_done (r : NativeOutcome) (w : CopyWorld S) : Prop :=
  match r with NativeDone _ n => arrived n w | _ => base w end.

Definition drive_done (r : DriveOutcome) (w : CopyWorld S) : Prop :=
  match r with DriveDone n => arrived n w | FallThroughToSendfile => base w /\ exists g, c_files w !! dst = Some g | _ => base w end.

Lemma ends_steer (Q : bool -> CopyWorld S -> Prop) w : base w ->
  (forall stop w', base w' -> c_files w' = c_files w -> Q stop w') -> ends steer Q w.
Proof using Type.
  intros B HQ. assert (Hgo : forall x w', flags_left w w' -> Q x w').
  { intros x w' Hl. apply HQ; [by eapply base_flags_left|by destruct Hl]. }
  unfold steer. apply ends_bind, ends_load; [done|]. intros v w1 L1 _ _. destruct (v =? CANCELLED); [by apply ends_ret, Hgo|].
  apply ends_bind, ends_load; [by eapply base_flags_left|]. intros u w2 L2 _ _.
  assert (L : flags_left w w2) by (by eapply flags_left_trans).
  destruct (u =? PAUSED); [|by apply ends_ret, Hgo]. apply ends_bind, ends_wait_paused. intros w3 L3.
  apply ends_bind, ends_load; [do 2 (eapply base_flags_left; [eassumption|]); done|]. intros x w4 L4 _ _.
  apply ends_ret, Hgo. by do 2 (eapply flags_left_trans; [eassumption|]).
Qed.

(** The positions are those of the bytes moved so far. *)
Lemma ends_move_bytes moved len n (Q : Z -> CopyWorld S -> Prop) w : base w -> 0 <= moved <= file_len f -> 0 < len ->
  holds (take (Z.to_nat moved) b) w ->
  (forall m w', base w' -> 0 <= m <= len -> moved + m <= file_len f -> (m = 0 -> moved = file_len f) ->
     holds (take (Z.to_nat (moved + m)) b) w' -> Q m w') ->
  ends (move_bytes src dst moved moved len n) Q w.
Proof using Hne Hsrc.
  intros B Hm Hl (g & Hg & Hc) HQ. unfold move_bytes. apply ends_bind, ends_gets.
  rewrite (base_src src dst opts F f False Hne Hsrc w B). cbn [fmap option_fmap option_map default from_option id].
  set (k := Nat.max 1 (Nat.min (chunk n) (Z.to_nat len))). set (x := take k (drop (Z.to_nat moved) b)). cbv zeta.
  assert (Hx : length x = Nat.min k (length b - Z.to_nat moved)) by (unfold x; by rewrite length_take, length_drop).
  unfold file_len in *. assert (Hk : (1 <= k <= Z.to_nat len)%nat) by (unfold k; lia). clearbody k.
  apply ends_bind. unfold put_at. apply ends_bind, ends_gets. change (id w) with w. rewrite Hg. apply ends_modify, ends_ret, HQ.
  - apply base_files; [|done]. intros p Hp. by apply lookup_insert_ne.
  - lia.
  - lia.
  - lia.
  - eexists. simpl. rewrite lookup_insert_eq. split; [done|]. intros Hh. simpl. rewrite (Hh _ x), (Hc Hh).
    unfold splice. rewrite take_take, Nat.min_id, drop_ge, app_nil_r by (rewrite length_take; lia).
    rewrite Hx. unfold x. rewrite take_take_drop. destruct (decide (k <= length b - Z.to_nat moved)%nat).
    + f_equal. lia.
    + rewrite !take_ge by lia. done.
Qed.

Lemma ends_range_progress moved total last (Q : Z -> CopyWorld S -> Prop) w : base w ->
  (forall x w', base w' -> c_files w' = c_files w -> Q x w') -> ends (range_progress moved total last) Q w.
Proof using Type.
  intros B HQ. unfold range_progress. apply ends_bind, ends_gets. destruct (_ && _); [|by apply ends_ret, HQ].
  apply ends_bind, may_emit; [done|]. intros w1 (E & _ & _) B1. by apply ends_ret, HQ.
Qed.

Lemma holds_arrived moved w : base w -> moved = file_len f -> holds (take (Z.to_nat moved) b) w -> arrived moved w.
Proof using Type.
  intros B -> Hh. split_and!; [done|done|]. unfold file_len in Hh. by rewrite Nat2Z.id, firstn_all in Hh.
Qed.

(** ** The loops *)

Lemma ends_copy_file_range_loop fuel : forall moved last first w, base w -> 0 <= moved <= file_len f ->
  (Z.to_nat (file_len f - moved) < fuel)%nat -> holds (take (Z.to_nat moved) b) w ->
  ends (copy_file_range_loop fuel src dst (file_len f) moved moved moved last first) drive_done w.
Proof using Hne Hsrc.
  induction fuel as [|fuel IH]; intros moved last first w B Hm Hf Hh; [lia|]. cbn [copy_file_range_loop].
  apply ends_bind, ends_steer; [done|]. intros stop w1 B1 E1. apply (holds_quiet dst _ w w1) in Hh; [|done].
  destruct stop; [by apply ends_ret|]. assert (Hr : sat_sub64 (file_len f) moved = file_len f - moved) by (unfold sat_sub64; lia).
  rewrite Hr. destruct (Z.eqb_spec (file_len f - moved) 0) as [He|Hlt]; [apply ends_ret, holds_arrived; [done|lia|done]|].
  apply ends_bind, ends_gets, ends_bind, may_call; [done|]. intros r w2 (E2 & _ & _) B2. apply (holds_quiet dst _ w1 w2) in Hh; [|done].
  destruct r as [k|].
  { apply ends_ret. destruct (_ && _).
    - split; [done|]. destruct Hh as (g & Hg & _). eauto.
    - by destruct (_ =? ENOSYS). }
  apply ends_bind, ends_move_bytes; [done|lia|unfold COPY_CHUNK; lia|done|]. intros m w3 B3 Hml Hmf Hz Hh3.
  destruct (Z.eqb_spec m 0) as [->|Hm0].
  { apply ends_ret, holds_arrived; [done|by apply Hz|by rewrite Z.add_0_r in Hh3]. }
  apply ends_bind, ends_range_progress; [done|]. intros x w4 B4 E4.
  apply IH; [done|lia|lia|]. by apply (holds_quiet dst _ w3 w4).
Qed.

Lemma ends_sendfile_loop fuel : forall moved last w, base w -> 0 <= moved <= file_len f ->
  (Z.to_nat (file_len f - moved) < fuel)%nat -> holds (take (Z.to_nat moved) b) w ->
  ends (sendfile_loop fuel src dst (file_len f) moved moved moved last) native_done w.
Proof using Hne Hsrc.
  induction fuel as [|fuel IH]; intros moved last w B Hm Hf Hh; [lia|]. cbn [sendfile_loop].
  apply ends_bind, ends_steer; [done|]. intros stop w1 B1 E1. apply (holds_quiet dst _ w w1) in Hh; [|done].
  destruct stop; [by apply ends_ret|]. assert (Hr : sat_sub64 (file_len f) moved = file_len f - moved) by (unfold sat_sub64; lia).
  rewrite Hr. destruct (Z.eqb_spec (file_len f - moved) 0) as [He|Hlt]; [apply ends_ret, holds_arrived; [done|lia|done]|].
  apply ends_bind, ends_gets, ends_bind, may_call; [done|]. intros r w2 (E2 & _ & _) B2. apply (holds_quiet dst _ w1 w2) in Hh; [|done].
  destruct r as [k|]; [by apply ends_ret; destruct (_ || _)|].
  apply ends_bind, ends_move_bytes; [done|lia|unfold COPY_CHUNK; lia|done|]. intros m w3 B3 Hml Hmf Hz Hh3.
  destruct (Z.eqb_spec m 0) as [->|Hm0].
  { apply ends_ret, holds_arrived; [done|by apply Hz|by rewrite Z.add_0_r in Hh3]. }
  apply ends_bind, ends_range_progress; [done|]. intros x w4 B4 E4.
  apply IH; [done|lia|lia|]. by apply (holds_quiet dst _ w3 w4).
Qed.

(** ** The native way *)

Lemma emptied t w : base w -> base (set_cfiles (<[dst := {| content := []; f_mtime_ms := t |}]> (c_files w)) w) /\
  holds (take (Z.to_nat 0) b) (set_cfiles (<[dst := {| content := []; f_mtime_ms := t |}]> (c_files w)) w).
Proof using Type.
  intros B. split.
  - apply base_files; [|done]. intros p Hp. by apply lookup_insert_ne.
  - eexists. simpl. by rewrite lookup_insert_eq.
Qed.

Lemma ends_fall_through w : base w -> (exists g, c_files w !! dst = Some g) ->
  ends (fall_through_to_sendfile src dst (file_len f)) native_done w.
Proof using Hne Hsrc.
  intros B [g Hg]. unfold fall_through_to_sendfile, ftruncate_zero. apply ends_bind, ends_bind, ends_gets, ends_bind, may_call; [done|].
  intros [k|] w1 (E1 & _ & _) B1; [by apply ends_ret, ends_ret|]. apply ends_bind, ends_modify, ends_ret. rewrite E1, Hg, <- E1.
  destruct (emptied (wall (c_calls w)) w1 B1) as [B2 H2]. set (w2 := set_cfiles _ w1) in *. clearbody w2.
  apply ends_bind, may_call; [done|]. intros [k|] w3 (E3 & _ & _) B3; [by apply ends_ret|].
  destruct (SENDFILE_MAX_FILE_SIZE <? file_len f); [by apply ends_ret|]. apply ends_sendfile_loop; [done|unfold file_len; lia|lia|].
  by apply (holds_quiet dst _ w2 w3).
Qed.

Lemma ends_try_native w : base w -> ends (try_native_copy src dst (file_len f)) native_done w.
Proof using Hne Hsrc.
  intros B. unfold try_native_copy. apply ends_bind, may_emit; [done|]. intros w1 _ B1. apply ends_bind. unfold open_pair.
  apply ends_bind, may_call; [done|]. intros r w2 _ B2. apply ends_bind, ends_gets. rewrite (base_src src dst opts F f False Hne Hsrc w2 B2).
  destruct r as [k|]; [by apply ends_ret, ends_ret|]. apply ends_bind, ends_gets, ends_bind, may_call; [done|].
  intros [k|] w3 _ B3; [by apply ends_ret, ends_ret|]. apply ends_bind, ends_modify, ends_ret.
  destruct (emptied (wall (c_calls w2)) w3 B3) as [B4 H4]. set (w4 := set_cfiles _ w3) in *. clearbody w4. apply ends_bind.
  eapply ends_mono; [apply ends_copy_file_range_loop; [done|unfold file_len; lia|lia|done]|].
  intros d w5 H5. destruct d; try (by apply ends_ret). destruct H5. by apply ends_fall_through.
Qed.

(** ** The clone *)

Lemma ends_try_reflink w : reflink_law -> base w ->
  ends (try_reflink src dst) (fun r w' => base w' /\ (r = Cloned -> holds b w')) w.
Proof using Hne Hsrc.
  intros Hlaw B. unfold try_reflink, reflink_inner. apply ends_bind, ends_bind, may_call; [done|]. intros e w1 _ B1.
  apply ends_bind, ends_gets, ends_bind.
  assert (Hgo : forall w2, base w2 -> ends (let! n := gets c_calls in call ;; let! fs := gets c_files in
    let '(fs', r) := reflink fs src dst n in modify (set_cfiles fs') ;; ret r)
    (fun a w' => ends (let! n := gets c_calls in ret (match a with None => Cloned
       | Some k => if is_unsupported (raw_os_error n) (os_kind n) then ReflinkNotSupported else ReflinkIo k end))
       (fun r w' => base w' /\ (r = Cloned -> holds b w')) w') w2).
  { intros w2 B2. apply ends_bind, ends_gets, ends_bind, may_call; [done|]. intros _ w3 (E3 & _ & _) B3. apply ends_bind, ends_gets.
    pose proof (Hlaw (c_files w3) src dst (c_calls w2) Hne) as HL. destruct (reflink (c_files w3) src dst (c_calls w2)) as [fs' r].
    destruct HL as [Hfr Hok]. apply ends_bind, ends_modify, ends_ret, ends_bind, ends_gets, ends_ret.
    split; [by apply base_files|]. intros Hr. assert (r = None) as -> by (destruct r; [|done]; by destruct (is_unsupported _ _)).
    destruct (Hok eq_refl f (base_src src dst opts F f False Hne Hsrc w3 B3)) as (g & Hg & Hc). by exists g. }
  destruct e as [k|]; [by apply ends_ret, Hgo|]. destruct (c_files w1 !! dst); [|by apply ends_ret, Hgo].
  apply ends_bind, may_call; [done|]. intros [k|] w2 _ B2; [by apply ends_ret, Hgo|]. apply ends_modify, Hgo.
  apply base_files; [|done]. intros p Hp. by apply lookup_delete_ne.
Qed.

(** ** The dispatcher *)

Definition fast_copied (out : FastCopyOutcome) (w : CopyWorld S) : Prop := arrived (fo_bytes out) w.

Lemma ends_fail_with {A} e (Q : A -> CopyWorld S -> Prop) w : base w -> ends (fail_with e) Q w.
Proof using Type. intros B. unfold fail_with. apply ends_bind, may_emit; [done|]. intros w1 _ B1. by apply ends_throw, may_stop. Qed.

Lemma ends_async_fallback w : Inj (=) (=) b3 -> base w -> ends (run_async_fallback src dst opts) fast_copied w.
Proof using Hne Hsrc.
  intros Hinj [B1 B2 _]. unfold run_async_fallback. apply ends_bind.
  assert (Hc : CopyWp.ends dst (downgraded opts) F f False False (copy_file src dst (downgraded opts))
    (copy_done dst (downgraded opts) F f False) w) by (by apply ends_copy_file).
  unfold CopyWp.ends, wp in *. destruct (copy_file src dst (downgraded opts) w) as [[rep|e] w'].
  - destruct Hc as ([C1 C2 _] & Hb & g & Hg & [Hok _] & _). split_and!; [by split|done|]. by exists g.
  - destruct Hc as ([C1 C2 _] & He & _). apply may_stop; [by split|done].
Qed.

Lemma ends_native_or_fallback w : Inj (=) (=) b3 -> base w ->
  ends (native_or_fallback src dst (file_len f) opts) fast_copied w.
Proof using Hne Hsrc.
  intros Hinj B. unfold native_or_fallback. cbv zeta.
  assert (Hafter : forall w', base w' -> ends (match strategy opts with AlwaysFast => fail_with (from_io src dst IoOther)
    | _ => run_async_fallback src dst opts end) fast_copied w').
  { intros w' B'. destruct (strategy opts); try (by apply ends_async_fallback). by apply ends_fail_with. }
  destruct (strategy opts); try (by apply Hafter);
    (apply ends_bind; eapply ends_mono; [by apply ends_try_native|]; intros [s n| | |k] w1 H1;
     [|by apply ends_fail_with|by apply Hafter|by apply ends_fail_with]; destruct H1 as (B1 & Hn & Hh);
     apply ends_bind, may_emit; [done|]; intros w2 (E2 & _ & _) B2; apply ends_ret; split_and!; [done|done|];
     by apply (holds_quiet dst _ w1 w2)).
Qed.

Lemma ends_fast_copy w : Inj (=) (=) b3 -> reflink_law -> base w -> ends (fast_copy src dst opts) fast_copied w.
Proof using Hne Hsrc.
  intros Hinj Hlaw B. unfold fast_copy. apply ends_bind, may_call; [done|]. intros e w1 _ B1. apply ends_bind, ends_gets.
  rewrite (base_src src dst opts F f False Hne Hsrc w1 B1). destruct e as [k|]; [by apply ends_fail_with|]. cbv zeta.
  destruct (_ && _); [|by apply ends_native_or_fallback]. apply ends_bind. eapply ends_mono; [by apply ends_try_reflink|].
  intros [| |k] w2 [B2 Hh]; [|by apply ends_native_or_fallback|by apply ends_fail_with]. specialize (Hh eq_refl).
  apply ends_bind, may_emit; [done|]. intros w3 (E3 & _ & _) B3. apply ends_bind, may_emit; [done|]. intros w4 (E4 & _ & _) B4.
  apply ends_bind, may_emit; [done|]. intros w5 (E5 & _ & _) B5. apply ends_ret. split_and!; [done|done|].
  apply (holds_quiet dst _ w2 w5); [congruence|done].
Qed.

(** ** The engine with the hook *)

Definition report_true (rep : CopyReport) (w : CopyWorld S) : Prop := arrived (cr_bytes rep) w.

Lemma ends_attempt {A} (m : CM A) (Q1 : A -> CopyWorld S -> Prop) (Q : result CopyError A -> CopyWorld S -> Prop) w :
  ends m Q1 w -> (forall a w', Q1 a w' -> Q (Ok a) w') -> (forall e w', base w' -> Q (Err e) w') -> ends (attempt m) Q w.
Proof using Type.
  unfold CopyWp.ends, wp, attempt. intros Hm Hok He. destruct (m w) as [[a|e] w']; [by apply Hok|].
  destruct e; [by apply He; destruct Hm|done|done].
Qed.

Lemma ends_platform_or_dense w : Inj (=) (=) b3 -> reflink_law -> base w ->
  ends (platform_or_dense src dst opts f) report_true w.
Proof using Hne Hsrc.
  intros Hinj Hlaw B. unfold platform_or_dense.
  assert (Hdense : ends (dense_copy src dst opts f) report_true w).
  { eapply ends_mono; [by apply ends_dense|]. intros rep w' (B' & Hb & g & Hg & [Hok _] & _). split_and!; [done|done|]. exists g. by split. }
  destruct (verify opts); [done|].
  assert (Hgo : forall w1, base w1 -> ends (let! r := attempt (try_copy src dst opts) in
    match r with Ok report => ret report | Err e => finalize_error opts dst e end) report_true w1).
  { intros w1 B1. apply ends_bind. apply (ends_attempt _ report_true).
    - unfold try_copy. apply ends_bind. eapply ends_mono; [by apply ends_fast_copy|]. intros out w2 H2. apply ends_ret. exact H2.
    - intros rep w2 H2. by apply ends_ret.
    - intros e w2 B2. by apply may_error. }
  destruct (strategy opts); try done; (apply ends_bind; destruct (fail_if_exists opts); [by apply ends_ret, Hgo|];
    eapply (ends_snapshot dst opts F f False False); [done|done|done|]; intros w1 B1 _; by apply Hgo).
Qed.

Lemma ends_copy_on_platform w : Inj (=) (=) b3 -> reflink_law -> base w ->
  ends (copy_file_on_platform src dst opts) report_true w.
Proof using Hne Hsrc.
  intros Hinj Hlaw B. unfold copy_file_on_platform.
  assert (Hesc : ends (throw (SErr (path_escape src dst))) report_true w) by (by apply ends_throw, may_stop).
  destruct (validate_path_no_traversal src); [done|]. destruct (validate_path_no_traversal dst); [done|].
  destruct (escapes_jail opts dst); [done|]. apply ends_bind, may_call_or; [done|]. intros w1 _ B1.
  apply ends_bind, ends_gets. rewrite (base_src src dst opts F f False Hne Hsrc w1 B1). by apply ends_platform_or_dense.
Qed.
End platform.

(** C27: With the platform's hook installed (the clone, [copy_file_range],
    [sendfile] and the engine's loop behind them), whatever the calls and the
    flags do: no file but the destination changes, the journal still tells the
    truth, the copy comes to an end, and when it reports success it reports
    the source's length and the destination has the source's bytes (on a disk
    that stores what it is given, for a clone that does what it says). *)
Theorem platform_copy_is_exact {S : Type} {JS : JournalSink S} {EN : CopyEnv} {PE : PlatformEnv} src dst opts f (w : CopyWorld S) :
  src <> dst -> c_files w !! src = Some f -> Inj (=) (=) b3 ->
  truthful (journal_file_idx opts) (content f) (c_sink w) -> reflink_law ->
  let '(r, w') := copy_file_on_platform src dst opts w in
  spared dst w w' /\ truthful (journal_file_idx opts) (content f) (c_sink w') /\
  match r with
  | Ok rep => cr_bytes rep = file_len f /\ exists g, c_files w' !! dst = Some g /\ (honest -> content g = content f)
  | Err e => e <> SStuck
  end.
Proof.
  intros Hne Hsrc Hinj Htrue Hlaw.
  pose proof (ends_copy_on_platform src dst opts (c_files w) f Hne Hsrc w Hinj Hlaw) as Hr. unfold ends, wp in Hr.
  destruct (copy_file_on_platform src dst opts w) as [[rep|e] w']; (destruct Hr as [[B1 B2 _] Hr]; [by split|]).
  - split_and!; [exact B1|exact B2|exact (proj1 Hr)|exact (proj2 Hr)].
  - destruct Hr as (? & _). by split_and!.
Qed.

(** ** A deployment *)

Module PlatformDemo.
Import CopyDemo.
#[export] Existing Instances SinkDemo.env JournalDemo.job_codec JournalDemo.file_codec.

(** A file system that clones, creating the destination anew, and one that
    refuses; [code] is the number of every failing call. *)
Definition clone (fs : FileTree) (src dst : path) (n : nat) : FileTree * option CopyErrorKind :=
  match fs !! src, fs !! dst with
  | Some f, None => (<[dst := {| content := content f; f_mtime_ms := Z.of_nat n |}]> fs, None)
  | _, _ => (fs, Some IoOther)
  end.

Definition host (clones : bool) (code : Z) : PlatformEnv := {|
  raw_os_error _ := Some code;
  os_kind _ := OsOther;
  volume_id _ := Some 1;
  reflink fs src dst n := if clones then clone fs src dst n else (fs, Some IoOther)
|}.

Lemma host_lawful clones code : @reflink_law (host clones code).
Proof.
  intros fs src dst n Hne. simpl. destruct clones; [|done]. unfold clone.
  destruct (fs !! src) as [f|] eqn:Hf; [|done]. destruct (fs !! dst); [done|]. split.
  - intros p Hp. by apply lookup_insert_ne.
  - intros _ f' [= <-]. rewrite lookup_insert_eq. eauto.
Qed.

(** [copy_file_range] fails on its first call, so [sendfile] takes over. *)
Definition crosses : CopyEnv := deploy (fun n => if (n =? 7)%nat then Fails IoOther else Fine) id 4.

Definition plain : CopyOptions := opts None false false false.
Definition sendfile_run := copy_file_on_platform (EN := crosses) (PE := host false EXDEV) ["a"] ["b"] plain (world source []).
End PlatformDemo.
Import CopyDemo PlatformDemo.

Lemma platform_copy_is_exact_witness :
  exists rep g, sendfile_run.1 = Ok rep /\ c_files sendfile_run.2 !! ["b"] = Some g /\ content g = text "hello world".
Proof.
  pose proof (platform_copy_is_exact (EN := crosses) (PE := host false EXDEV) ["a"] ["b"] plain source (world source [])
    ltac:(done) ltac:(done) (b3_inj _ id 4) (fresh_true _ _) (host_lawful _ _)) as Hc.
  assert (is_Some (match sendfile_run.1 with Ok rep => Some rep | Err _ => None end)) as Hok by (vm_compute; eauto).
  unfold sendfile_run in *. destruct (copy_file_on_platform ["a"] ["b"] plain _) as [[rep|e] w']; [|by destruct Hok].
  destruct Hc as (_ & _ & _ & g & Hg & Hgc). exists rep, g. split_and!; [done|done|by apply Hgc].
Defined.

(** Each of the four ways is taken. *)
Example every_way_is_taken :
  let way EN PE w := (fst (fast_copy (EN := EN) (PE := PE) ["a"] ["b"] plain w)) in
  way sound (host true 0) (world source []) = Ok {| fo_strategy := ByReflink; fo_bytes := 11 |} /\
  way sound (host false 95) (world source []) = Ok {| fo_strategy := ByCopyFileRange; fo_bytes := 11 |} /\
  way (deploy (fun n => if (n =? 6)%nat then Fails IoOther else Fine) id 4) (host false EXDEV) (world source [])
    = Ok {| fo_strategy := BySendfile; fo_bytes := 11 |} /\
  way (deploy (fun n => if (n =? 6)%nat then Fails IoOther else Fine) id 4) (host false ENOSYS) (world source [])
    = Ok {| fo_strategy := ByAsyncFallback; fo_bytes := 11 |}.
Proof. vm_compute. done. Qed.

(** ** What the hook does not keep *)

(** An existing destination is replaced although the options refuse that:
    neither the clone nor the native way looks at [fail_if_exists]. *)
Lemma hook_replaces_an_existing_destination :
  let run clones := copy_file_on_platform (PE := host clones 95) ["a"] ["b"] (opts None false true false) (world source []) in
  content <$> c_files (run true).2 !! ["b"] = Some (text "hello world") /\
  content <$> c_files (run false).2 !! ["b"] = Some (text "hello world").
Proof. vm_compute. done. Qed.

(** Cloning a file onto itself removes it. *)
Lemma clone_onto_itself_removes_the_file :
  let '(r, w') := copy_file_on_platform (PE := host true 2) ["a"] ["a"] plain (world source []) in
  (forall rep, r <> Ok rep) /\ c_files w' !! ["a"] = None.
Proof. vm_compute. done. Qed.

(** The time of the source is not carried over, although the options ask for
    it; the engine's loop does. *)
Lemma hook_drops_the_time :
  let time clones := f_mtime_ms <$> c_files (copy_file_on_platform (PE := host clones 95) ["a"] ["b"] plain (world source [])).2 !! ["b"] in
  time true <> Some mtime /\ time false <> Some mtime /\
  f_mtime_ms <$> c_files (copy_file ["a"] ["b"] plain (world source [])).2 !! ["b"] = Some mtime.
Proof. vm_compute. done. Qed.

(** A failure behind the hook is announced twice. *)
Lemma failure_is_announced_twice :
  let w' := (copy_file_on_platform (PE := host false 95) ["a"] ["b"] plain (world source [CANCELLED])).2 in
  c_events w' = [Started ["a"] ["b"] 11; EvFailed (copy_cancelled ["a"] ["b"]); EvFailed (copy_cancelled ["a"] ["b"])].
Proof. vm_compute. done. Qed.
