(* ===== verification/Parallel.v ===== *)
(** * Copying a file in parallel chunks ([freally-platform]: [native/parallel.rs])

    The destination is extended to the length of the source, one worker per
    chunk copies its own region with its own handles, another task reports
    progress, and the caller joins the workers in order and then waits for the
    reporter.  The tasks share the file, a counter, a flag and the steering
    handle.

    The machine has one action per access: which task moves next, what every
    call answers and what the user does with the handle are part of the
    action, so a list of actions is a schedule.

    The second part shows that a copy that finishes is exact, whatever the
    schedule, and when it can end. *)
From S2P Require Import Prelude.
From S2P Require Import Text.
From S2P Require Import TextSearch.
From S2P Require Import Files.
From S2P Require Import Control.
From S2P Require Import CopyTypes.
From stdpp Require Import options.
Open Scope Z_scope.

(** ** The plan *)

Definition MIN_FILE_FOR_PARALLEL : Z := 1024 * 1024 * 1024.
Definition DEFAULT_NUM_CHUNKS : Z := 4.
Definition MIN_CHUNK_BUF : Z := 64 * 1024.
Definition PROGRESS_MIN_BYTES : Z := 16 * 1024.

(** [env]: the variable [FREALLY_PARALLEL_CHUNKS]. *)
Definition requested_chunks (env : option string) (total : Z) : option Z :=
  if total <? MIN_FILE_FOR_PARALLEL then None
  else n ← (raw ← env; parse_u64 raw); if n <? 2 then None else Some (clamp n 2 16).

(** [budget]: the variable [FREALLY_PARALLEL_BUDGET_BYTES]. *)
Definition chunk_buf_size (budget : option string) (total_file_bytes num_chunks : Z) : Z :=
  let budget := default (buffer_size_for_file default_copy_options total_file_bytes) (budget ≫= parse_u64) in
  Z.max (budget / Z.max num_chunks 1) MIN_CHUNK_BUF.

Definition div_ceil (a b : Z) : Z := (a + b - 1) / b.

(** Offset and length of each chunk; the loop breaks at the end of the file. *)
Fixpoint chunk_ranges (total chunk_bytes : Z) (i : Z) (num : nat) : list (Z * Z) :=
  match num with
  | O => []
  | S num =>
      let offset := i * chunk_bytes in
      if total <=? offset then []
      else (offset, Z.min (offset + chunk_bytes) total - offset) :: chunk_ranges total chunk_bytes (i + 1) num
  end.

Definition plan (total num_chunks : Z) : list (Z * Z) :=
  chunk_ranges total (div_ceil total num_chunks) 0 (Z.to_nat num_chunks).

(** ** The tasks *)

(** Where a worker is: before its handles are open, at the head of a turn,
    in the pause loop, asleep in it, past the checks, or ended.  [written]
    is its local counter. *)
Inductive Point :=
| WStart
| WTurn (written : Z)
| WPause (written : Z)
| WSlept (written : Z)
| WGo (written : Z)
| WOk
| WErr (written : Z) (k : CopyErrorKind).

Record Worker := { wk_offset : Z; wk_len : Z; wk_at : Point }.

(** The reporter: at its tick, behind the pause check, or ended. *)
Inductive Reporter := PTick (last_emit_bytes : Z) | PPaused (last_emit_bytes : Z) | PEnded.

Inductive ParallelOutcome := ParDone (bytes : Z) | ParCancelled | ParIo (k : CopyErrorKind).

(** The caller: before the preparation, joining worker [i], waiting for the
    reporter, returned. *)
Inductive Main :=
| MPrepare
| MJoin (i : nat) (first_err : option CopyErrorKind)
| MWait (first_err : option CopyErrorKind)
| MEnd (o : ParallelOutcome).

Record ParallelState := {
  p_files : FileTree;
  p_ctl : Z;
  p_bytes_done : Z;
  p_cancelled : bool;
  p_workers : list Worker;
  p_reporter : Reporter;
  p_main : Main;
  p_events : list CopyEvent
}.

(** What a call answers: it works (moving up to so many bytes), or it fails
    after so many bytes were stored. *)
Inductive Fate := Works (n : nat) | FailsWith (k : CopyErrorKind) (stored : nat).

Inductive Action := AWorker (i : nat) (x : Fate) | AReporter | AMain (x : Fate) | AControl (v : Z).

Definition set_workers (l : list Worker) (s : ParallelState) : ParallelState :=
  {| p_files := p_files s; p_ctl := p_ctl s; p_bytes_done := p_bytes_done s; p_cancelled := p_cancelled s;
     p_workers := l; p_reporter := p_reporter s; p_main := p_main s; p_events := p_events s |}.
Definition set_pfiles (fs : FileTree) (s : ParallelState) : ParallelState :=
  {| p_files := fs; p_ctl := p_ctl s; p_bytes_done := p_bytes_done s; p_cancelled := p_cancelled s;
     p_workers := p_workers s; p_reporter := p_reporter s; p_main := p_main s; p_events := p_events s |}.
Definition add_done (n : Z) (s : ParallelState) : ParallelState :=
  {| p_files := p_files s; p_ctl := p_ctl s; p_bytes_done := p_bytes_done s + n; p_cancelled := p_cancelled s;
     p_workers := p_workers s; p_reporter := p_reporter s; p_main := p_main s; p_events := p_events s |}.
Definition set_cancelled (s : ParallelState) : ParallelState :=
  {| p_files := p_files s; p_ctl := p_ctl s; p_bytes_done := p_bytes_done s; p_cancelled := true;
     p_workers := p_workers s; p_reporter := p_reporter s; p_main := p_main s; p_events := p_events s |}.
Definition set_reporter (r : Reporter) (s : ParallelState) : ParallelState :=
  {| p_files := p_files s; p_ctl := p_ctl s; p_bytes_done := p_bytes_done s; p_cancelled := p_cancelled s;
     p_workers := p_workers s; p_reporter := r; p_main := p_main s; p_events := p_events s |}.
Definition set_main (m : Main) (s : ParallelState) : ParallelState :=
  {| p_files := p_files s; p_ctl := p_ctl s; p_bytes_done := p_bytes_done s; p_cancelled := p_cancelled s;
     p_workers := p_workers s; p_reporter := p_reporter s; p_main := m; p_events := p_events s |}.
Definition set_ctl (v : Z) (s : ParallelState) : ParallelState :=
  {| p_files := p_files s; p_ctl := v; p_bytes_done := p_bytes_done s; p_cancelled := p_cancelled s;
     p_workers := p_workers s; p_reporter := p_reporter s; p_main := p_main s; p_events := p_events s |}.
Definition add_pevent (e : CopyEvent) (s : ParallelState) : ParallelState :=
  {| p_files := p_files s; p_ctl := p_ctl s; p_bytes_done := p_bytes_done s; p_cancelled := p_cancelled s;
     p_workers := p_workers s; p_reporter := p_reporter s; p_main := p_main s; p_events := p_events s ++ [e] |}.

Section copy.
Context (src dst : path) (total num_chunks : Z) (buf : Z).

Definition at_point (i : nat) (p : Point) (s : ParallelState) : ParallelState :=
  set_workers (alter (fun k => {| wk_offset := wk_offset k; wk_len := wk_len k; wk_at := p |}) i (p_workers s)) s.

(** Bytes land in the destination at an offset. *)
Definition store (off : Z) (b : bytes) (s : ParallelState) : ParallelState :=
  match p_files s !! dst with
  | Some g => set_pfiles (<[dst := {| content := splice (Z.to_nat off) b (content g); f_mtime_ms := f_mtime_ms g |}]> (p_files s)) s
  | None => s
  end.

(** A cancelled worker raises the shared flag and fails. *)
Definition abandon (i : nat) (written : Z) (s : ParallelState) : ParallelState :=
  at_point i (WErr written IoOther) (set_cancelled s).

(** One buffer: read what there is of [want] bytes, write it, count it. *)
Definition transfer (i : nat) (k : Worker) (written : Z) (x : Fate) (s : ParallelState) : ParallelState :=
  let want := Z.min (wk_len k - written) buf in
  let pos := wk_offset k + written in
  let left := drop (Z.to_nat pos) (default [] (content <$> p_files s !! src)) in
  match x with
  | Works n =>
      let b := take (Nat.max 1 (Nat.min n (Z.to_nat want))) left in
      if bool_decide (b = []) then at_point i (WErr written IoOther) s
      else
        let n := Z.of_nat (length b) in
        at_point i (WTurn (written + n)) (add_done n (store pos b s))
  | FailsWith e stored => at_point i (WErr written e) (store pos (take (Nat.min stored (Z.to_nat want)) left) s)
  end.

Definition worker_step (i : nat) (x : Fate) (s : ParallelState) : option ParallelState :=
  k ← p_workers s !! i;
  match wk_at k with
  | WStart => Some (at_point i (match x with Works _ => WTurn 0 | FailsWith e _ => WErr 0 e end) s)
  | WTurn written =>
      Some (if written <? wk_len k then
              if p_ctl s =? CANCELLED then abandon i written s else at_point i (WPause written) s
            else at_point i (match x with Works _ => WOk | FailsWith e _ => WErr written e end) s)
  | WPause written => Some (at_point i (if p_ctl s =? PAUSED then WSlept written else WGo written) s)
  | WSlept written => Some (if p_ctl s =? CANCELLED then abandon i written s else at_point i (WPause written) s)
  | WGo written => Some (transfer i k written x s)
  | WOk | WErr _ _ => None
  end.

Definition reporter_step (s : ParallelState) : option ParallelState :=
  match p_reporter s with
  | PTick last =>
      if p_ctl s =? PAUSED then Some (set_reporter (PPaused last) s)
      else
        let bytes := p_bytes_done s in
        let '(last, s1) :=
          if PROGRESS_MIN_BYTES <=? sat_sub64 bytes last then (bytes, add_pevent (Progress bytes total) s) else (last, s) in
        Some (set_reporter (if (total <=? bytes) || p_cancelled s then PEnded else PTick last) s1)
  | PPaused last =>
      Some (set_reporter (if p_cancelled s || (p_ctl s =? CANCELLED) then PEnded else PTick last) s)
  | PEnded => None
  end.

(** [open] with truncation, [set_len], and the spawns; a preparation that has
    stored something when it fails has emptied the destination. *)
Definition prepare (x : Fate) (s : ParallelState) : ParallelState :=
  match x with
  | FailsWith e O => set_main (MEnd (ParIo e)) s
  | FailsWith e _ => set_main (MEnd (ParIo e)) (set_pfiles (<[dst := {| content := []; f_mtime_ms := 0 |}]> (p_files s)) s)
  | Works _ =>
      set_main (MJoin 0 None)
        (set_workers ((fun r => {| wk_offset := r.1; wk_len := r.2; wk_at := WStart |}) <$> plan total num_chunks)
           (set_reporter (PTick 0)
              (set_pfiles (<[dst := {| content := replicate (Z.to_nat total) x00; f_mtime_ms := 0 |}]> (p_files s)) s)))
  end.

(** The verdict, once everything has ended. *)
Definition conclude (first_err : option CopyErrorKind) (x : Fate) (s : ParallelState) : ParallelState :=
  match first_err with
  | None => set_main (MEnd (ParDone total)) s
  | Some e =>
      if p_cancelled s then set_main (MEnd ParCancelled) s
      else set_main (MEnd (ParIo e)) (match x with Works _ => set_pfiles (delete dst (p_files s)) s | FailsWith _ _ => s end)
  end.

Definition main_step (x : Fate) (s : ParallelState) : option ParallelState :=
  match p_main s with
  | MPrepare => Some (prepare x s)
  | MJoin i err =>
      match p_workers s !! i with
      | None => Some (set_main (MWait err) s)
      | Some k =>
          match wk_at k with
          | WOk => Some (set_main (MJoin (S i) err) s)
          | WErr _ e => Some (set_main (MJoin (S i) (match err with None => Some e | Some _ => err end)) s)
          | _ => None
          end
      end
  | MWait err => match p_reporter s with PEnded => Some (conclude err x s) | _ => None end
  | MEnd _ => None
  end.

(** A cancelled handle stays cancelled. *)
Definition control_step (v : Z) (s : ParallelState) : option ParallelState :=
  Some (if p_ctl s =? CANCELLED then s else set_ctl v s).

Definition parallel_step (a : Action) (s : ParallelState) : option ParallelState :=
  match a with
  | AWorker i x => worker_step i x s
  | AReporter => match p_main s with MPrepare => None | _ => reporter_step s end
  | AMain x => main_step x s
  | AControl v => control_step v s
  end.

Fixpoint run (l : list Action) (s : ParallelState) : option ParallelState :=
  match l with [] => Some s | a :: l => s' ← parallel_step a s; run l s' end.

Definition parallel_chunk_copy (fs : FileTree) (ctl : Z) : ParallelState :=
  {| p_files := fs; p_ctl := ctl; p_bytes_done := 0; p_cancelled := false; p_workers := []; p_reporter := PTick 0;
     p_main := MPrepare; p_events := [Started src dst total] |}.
End copy.

(** * Parallel chunks: whatever the schedule, a finished copy is exact

    [inv] holds in every state that a schedule reaches: each worker has copied
    the prefix of its chunk that it counts, and the joins say which workers
    have ended.  The chunks tile the file, so when all have ended well the
    destination is the source.  A schedule without failures can always be
    completed; a failed worker leaves the reporter waiting for ever. *)

(** ** The chunks tile the file *)

Lemma div_ceil_mul a b : 0 <= a -> 0 < b -> a <= div_ceil a b * b /\ 0 <= div_ceil a b.
Proof.
  intros Ha Hb. unfold div_ceil. pose proof (Z.div_mod (a + b - 1) b ltac:(lia)). pose proof (Z.mod_pos_bound (a + b - 1) b Hb).
  split; [nia|]. apply Z.div_pos; lia.
Qed.

Definition chunk_of (total : Z) (r : Z * Z) : Prop := 0 <= r.1 /\ 0 < r.2 /\ r.1 + r.2 <= total.

Lemma chunk_ranges_bounds total cb num : forall i, 0 <= i -> 0 < cb -> Forall (chunk_of total) (chunk_ranges total cb i num).
Proof.
  induction num as [|num IH]; intros i Hi Hcb; cbn [chunk_ranges]; [constructor|].
  destruct (Z.leb_spec total (i * cb)); [constructor|]. constructor; [|apply IH; lia]. unfold chunk_of. cbn [fst snd]. nia.
Qed.

Lemma chunk_ranges_cover total cb num x : forall i, 0 <= i -> 0 < cb -> i * cb <= x < total -> total <= (i + Z.of_nat num) * cb ->
  Exists (fun r => r.1 <= x < r.1 + r.2) (chunk_ranges total cb i num).
Proof.
  induction num as [|num IH]; intros i Hi Hcb Hx Ht; cbn [chunk_ranges]; [nia|].
  destruct (Z.leb_spec total (i * cb)); [lia|]. apply Exists_cons. cbn [fst snd].
  destruct (Z.lt_ge_cases x (i * cb + cb)); [left; lia|right]. apply IH; [lia|done|nia|nia].
Qed.

Fixpoint sum_len (l : list (Z * Z)) : Z := match l with [] => 0 | r :: l => r.2 + sum_len l end.

Lemma chunk_ranges_sum total cb num : forall i, 0 <= i -> 0 < cb -> total <= (i + Z.of_nat num) * cb ->
  sum_len (chunk_ranges total cb i num) = Z.max 0 (total - i * cb).
Proof.
  induction num as [|num IH]; intros i Hi Hcb Ht; cbn [chunk_ranges]; [simpl; nia|].
  destruct (Z.leb_spec total (i * cb)); [simpl; lia|]. cbn [sum_len snd]. rewrite IH by nia. nia.
Qed.

Lemma plan_bounds total n : 0 <= total -> 0 < n -> Forall (chunk_of total) (plan total n).
Proof.
  intros Ht Hn. unfold plan. destruct (div_ceil_mul total n Ht Hn) as [H1 H2].
  destruct (Z.eq_dec (div_ceil total n) 0) as [H0|H0]; [|apply chunk_ranges_bounds; lia].
  rewrite H0 in *. assert (total = 0) as -> by lia. destruct (Z.to_nat n); [constructor|]. simpl. constructor.
Qed.

Lemma plan_covers total n x : 0 < n -> 0 <= x < total -> Exists (fun r => r.1 <= x < r.1 + r.2) (plan total n).
Proof.
  intros Hn Hx. destruct (div_ceil_mul total n ltac:(lia) Hn) as [H1 H2]. apply chunk_ranges_cover; nia.
Qed.

Lemma plan_sum total n : 0 <= total -> 0 < n -> sum_len (plan total n) = total.
Proof.
  intros Ht Hn. unfold plan. destruct (div_ceil_mul total n Ht Hn) as [H1 H2].
  destruct (Z.eq_dec (div_ceil total n) 0) as [H0|H0]; [|rewrite chunk_ranges_sum; nia].
  rewrite H0 in *. assert (total = 0) as -> by lia. destruct (Z.to_nat n); [done|]. done.
Qed.

(** ** The invariant *)

Definition progress (k : Worker) : Z :=
  match wk_at k with
  | WStart => 0
  | WTurn w | WPause w | WSlept w | WGo w | WErr w _ => w
  | WOk => wk_len k
  end.

Definition finished (k : Worker) : Prop := match wk_at k with WOk | WErr _ _ => True | _ => False end.

#[export] Instance finished_dec k : Decision (finished k).
Proof. unfold finished. destruct (wk_at k); apply _. Defined.

(** The counters inside a turn are below the end of the chunk. *)
Definition in_turn (k : Worker) : Prop :=
  match wk_at k with WPause w | WSlept w | WGo w => w < wk_len k | _ => True end.

Section copy.
Context (src dst : path) (fs : FileTree) (f : File) (num_chunks buf : Z).
Context (Hne : src <> dst) (Hsrc : fs !! src = Some f) (Hnum : 0 < num_chunks) (Hbuf : 0 < buf).
#[local] Abbreviation total := (file_len f).
#[local] Abbreviation step := (parallel_step src dst total num_chunks buf).
#[local] Abbreviation run := (run src dst total num_chunks buf).

Definition same_at (g : File) (j : nat) : Prop := content g !! j = content f !! j.

Definition worker_ok (g : File) (k : Worker) : Prop :=
  chunk_of total (wk_offset k, wk_len k) /\ 0 <= progress k <= wk_len k /\ in_turn k /\
  forall j, wk_offset k <= Z.of_nat j < wk_offset k + progress k -> same_at g j.

Definition ended (err : option CopyErrorKind) (k : Worker) : Prop := finished k /\ (err = None -> wk_at k = WOk).

Definition main_ok (m : Main) (l : list Worker) : Prop :=
  match m with
  | MPrepare => l = []
  | MJoin i err => Forall (ended err) (take i l) /\ (i <= length l)%nat
  | MWait err => Forall (ended err) l
  | MEnd (ParDone n) => n = total /\ Forall (ended None) l
  | MEnd _ => Forall finished l
  end.

(** The destination is there from the preparation until an error removes it,
    and the counter is the sum of the workers' own. *)
Definition disk_ok (s : ParallelState) : Prop :=
  match p_main s with
  | MPrepare => p_bytes_done s = 0
  | MEnd (ParIo _) => True
  | _ => ((fun k => (wk_offset k, wk_len k)) <$> p_workers s) = plan total num_chunks /\
         p_bytes_done s = foldr (fun k a => progress k + a) 0 (p_workers s) /\
         exists g, p_files s !! dst = Some g /\ length (content g) = length (content f) /\ Forall (worker_ok g) (p_workers s)
  end.

Record inv (s : ParallelState) : Prop := {
  i_frame : forall p, p <> dst -> p_files s !! p = fs !! p;
  i_main : main_ok (p_main s) (p_workers s);
  i_disk : disk_ok s
}.

(** ** The steps of a worker *)

Lemma ended_finished err k : ended err k -> finished k.
Proof. by intros []. Qed.

(** A worker that moves has not been joined. *)
Lemma main_ok_alter m l i k h : main_ok m l -> l !! i = Some k -> ~ finished k ->
  main_ok m (alter h i l) /\ exists j err, m = MJoin j err.
Proof using Type.
  intros Hm Hk Hf. assert (Hno : forall (P : Worker -> Prop), Forall P l -> (forall k, P k -> finished k) -> False).
  { intros P Hl HP. apply Hf, HP. rewrite Forall_lookup in Hl. by eapply Hl. }
  destruct m as [|j err|err|[]]; cbn [main_ok] in *.
  - by subst.
  - destruct Hm as [Hm Hj]. split; [|eauto]. rewrite length_alter. split; [|done].
    rewrite Forall_lookup in Hm. apply Forall_lookup. intros n x (Hx & Hn)%lookup_take_Some.
    assert (n <> i) by (intros ->; apply Hf, (ended_finished err), (Hm i); by apply lookup_take_Some).
    rewrite list_lookup_alter_ne in Hx by done. apply (Hm n). by apply lookup_take_Some.
  - exfalso. eapply Hno; [done|]. apply ended_finished.
  - exfalso. destruct Hm as [_ Hm]. eapply Hno; [done|]. apply ended_finished.
  - exfalso. by eapply Hno.
  - exfalso. by eapply Hno.
Qed.

Definition moved (p : Point) (k : Worker) : Worker := {| wk_offset := wk_offset k; wk_len := wk_len k; wk_at := p |}.

Lemma sum_alter (h : Worker -> Z) l i k p : l !! i = Some k ->
  foldr (fun k a => h k + a) 0 (alter (moved p) i l) = foldr (fun k a => h k + a) 0 l + (h (moved p k) - h k).
Proof using Type.
  revert i. induction l as [|x l IH]; intros [|i] Hk; try done; [injection Hk as ->; simpl; lia|].
  change (alter (moved p) (S i) (x :: l)) with (x :: alter (moved p) i l). cbn [foldr]. rewrite (IH i Hk). lia.
Qed.

Lemma worker_ok_kept g g' k : (forall j, same_at g j -> same_at g' j) -> worker_ok g k -> worker_ok g' k.
Proof using Type. intros Hs (H1 & H2 & H3 & H4). refine (conj H1 (conj H2 (conj H3 _))). intros j Hj. by apply Hs, H4. Qed.

Lemma inv_moves s s' i k p : inv s -> p_workers s !! i = Some k -> ~ finished k ->
  p_main s' = p_main s -> p_workers s' = alter (moved p) i (p_workers s) ->
  p_bytes_done s' = p_bytes_done s + (progress (moved p k) - progress k) ->
  (forall q, q <> dst -> p_files s' !! q = p_files s !! q) ->
  (forall g, p_files s !! dst = Some g -> length (content g) = length (content f) -> worker_ok g k ->
     exists g', p_files s' !! dst = Some g' /\ length (content g') = length (content g) /\
       (forall j, same_at g j -> same_at g' j) /\ worker_ok g' (moved p k)) ->
  inv s'.
Proof using Type.
  intros [I1 I2 I3] Hk Hf Em Ew Eb Hfr Hg. destruct (main_ok_alter _ _ i k (moved p) I2 Hk Hf) as [Hm (j & err & Ej)]. split.
  - intros q Hq. rewrite Hfr, I1; done.
  - by rewrite Em, Ew.
  - unfold disk_ok in *. rewrite Em. rewrite Ej in *. destruct I3 as (D1 & D2 & g & D3 & D4 & D5).
    assert (Hki : worker_ok g k) by (rewrite Forall_lookup in D5; by eapply D5).
    destruct (Hg g D3 D4 Hki) as (g' & G1 & G2 & G3 & G4). split_and!.
    + rewrite Ew, <- D1. apply list_eq. intros n. rewrite !list_lookup_fmap. destruct (decide (n = i)) as [->|Hn].
      * rewrite list_lookup_alter_eq. by destruct (p_workers s !! i).
      * by rewrite list_lookup_alter_ne.
    + rewrite Eb, Ew, D2. symmetry. by apply (sum_alter progress).
    + exists g'. split_and!; [done|congruence|]. rewrite Ew. apply Forall_lookup. intros n x Hx.
      destruct (decide (n = i)) as [->|Hn].
      * rewrite list_lookup_alter_eq, Hk in Hx. by injection Hx as <-.
      * rewrite list_lookup_alter_ne in Hx by done. apply (worker_ok_kept g); [done|]. rewrite Forall_lookup in D5. by eapply D5.
Qed.

(** A step that stores nothing and counts nothing. *)
Lemma inv_at_point s c i k p : inv s -> p_workers s !! i = Some k -> ~ finished k ->
  progress (moved p k) = progress k -> in_turn (moved p k) -> inv (at_point i p (if c : bool then set_cancelled s else s)).
Proof using Type.
  intros I Hk Hf Hp Ht. apply (inv_moves s _ i k p); try done; try (by destruct c).
  - destruct c; simpl; lia.
  - intros g Hg Hl (W1 & W2 & W3 & W4). exists g. split_and!; [by destruct c|done|done|].
    refine (conj W1 (conj _ (conj Ht _))); [by rewrite Hp|]. cbn [wk_offset moved]. by rewrite Hp.
Qed.

(** Bytes of the source at their place do no harm anywhere. *)
Lemma store_true g off n j : length (content g) = length (content f) ->
  same_at g j -> same_at {| content := splice off (take n (drop off (content f))) (content g); f_mtime_ms := f_mtime_ms g |} j.
Proof using Type.
  intros Hl Hj. unfold same_at in *. cbn [content]. set (x := take n (drop off (content f))).
  assert (Hx : length x = Nat.min n (length (content f) - off)) by (unfold x; by rewrite length_take, length_drop).
  destruct (decide (x = [])) as [Hnil|Hnil].
  { rewrite Hnil. unfold splice. simpl. by rewrite Nat.add_0_r, take_drop. }
  assert (0 < length x)%nat by (destruct x; [done|simpl; lia]).
  destruct (decide (j < off)%nat); [rewrite splice_before by lia; done|].
  destruct (decide (j < off + length x)%nat); [|rewrite splice_after by lia; done].
  rewrite splice_inside by lia. unfold x. rewrite lookup_take_lt, lookup_drop by lia. f_equal. lia.
Qed.

Lemma store_length g off n : length (content g) = length (content f) ->
  length (splice off (take n (drop off (content f))) (content g)) = length (content g).
Proof using Type.
  intros Hl. set (x := take n (drop off (content f))).
  assert (Hx : length x = Nat.min n (length (content f) - off)) by (unfold x; by rewrite length_take, length_drop).
  destruct (decide (off <= length (content f))%nat); [apply length_splice; lia|].
  assert (x = []) as -> by (apply nil_length_inv; lia). unfold splice. simpl. by rewrite Nat.add_0_r, take_drop.
Qed.

Lemma store_fills g off n j : length (content g) = length (content f) ->
  (off <= j < off + length (take n (drop off (content f))))%nat ->
  same_at {| content := splice off (take n (drop off (content f))) (content g); f_mtime_ms := f_mtime_ms g |} j.
Proof using Type.
  intros Hl Hj. unfold same_at. cbn [content]. rewrite length_take, length_drop in Hj.
  rewrite splice_inside by (rewrite ?length_take, ?length_drop; lia). rewrite lookup_take_lt, lookup_drop by lia. f_equal. lia.
Qed.

Lemma src_content s : inv s -> p_files s !! src = Some f.
Proof using Hne Hsrc. intros I. by rewrite (i_frame s I). Qed.

Lemma inv_transfer s i k w x : inv s -> p_workers s !! i = Some k -> wk_at k = WGo w ->
  inv (transfer src dst buf i k w x s).
Proof using Hne Hsrc Hbuf.
  intros HI Hk Hat. assert (Hf : ~ finished k) by (unfold finished; rewrite Hat; by intros []).
  assert (Hprog : progress k = w) by (unfold progress; by rewrite Hat). unfold transfer. rewrite (src_content s HI).
  cbn [fmap option_fmap option_map default from_option id]. set (pos := wk_offset k + w).
  destruct x as [n|e st].
  - set (m := Nat.max 1 (Nat.min n (Z.to_nat (Z.min (wk_len k - w) buf)))).
    set (x := take m (drop (Z.to_nat pos) (content f))). case_bool_decide as Hnil.
    { apply (inv_at_point s false i k); [done|done|done|by rewrite Hprog|done]. }
    apply (inv_moves s _ i k (WTurn (w + Z.of_nat (length x)))); try done.
    + unfold add_done, store. by destruct (p_files s !! dst).
    + unfold at_point, set_workers, add_done, store. by destruct (p_files s !! dst).
    + cbn [progress moved wk_at]. rewrite Hprog. unfold at_point, set_workers, add_done, store. destruct (p_files s !! dst); cbn; lia.
    + intros q Hq. unfold store. destruct (p_files s !! dst); [|done]. by apply lookup_insert_ne.
    + intros g Hg Hl (W1 & W2 & W3 & W4). unfold in_turn in W3. rewrite Hat in W3. rewrite Hprog in *.
      unfold chunk_of, file_len in W1. cbn [fst snd] in W1. unfold store. rewrite Hg. eexists. cbn. rewrite lookup_insert_eq.
      split; [done|]. cbn [content]. split; [by apply store_length|]. split; [intros j; by apply store_true|].
      assert (Hx : length x = m) by (unfold x; rewrite length_take, length_drop; unfold pos, m; lia).
      refine (conj W1 (conj _ (conj I _))).
      * cbn [progress moved wk_at wk_len]. rewrite Hx. unfold m. lia.
      * cbn [progress moved wk_at wk_offset]. intros j Hj. destruct (decide (Z.of_nat j < pos)) as [Hlt|Hge].
        -- apply store_true; [done|]. apply W4. unfold pos in Hlt. lia.
        -- apply store_fills; [done|]. fold x. unfold pos in *. lia.
  - apply (inv_moves s _ i k (WErr w e)); try done.
    + unfold store. by destruct (p_files s !! dst).
    + unfold at_point, set_workers, store. by destruct (p_files s !! dst).
    + cbn [progress moved wk_at]. rewrite Hprog. unfold at_point, set_workers, store. destruct (p_files s !! dst); cbn; lia.
    + intros q Hq. unfold store. destruct (p_files s !! dst); [|done]. by apply lookup_insert_ne.
    + intros g Hg Hl (W1 & W2 & W3 & W4). rewrite Hprog in *. unfold store. rewrite Hg. eexists. cbn. rewrite lookup_insert_eq.
      split; [done|]. cbn [content]. split; [by apply store_length|]. split; [intros j; by apply store_true|].
      refine (conj W1 (conj W2 (conj I _))). intros j Hj. apply store_true; [done|]. by apply W4.
Qed.

Lemma inv_worker s i x s' : inv s -> worker_step src dst buf i x s = Some s' -> inv s'.
Proof using Hne Hsrc Hbuf.
  intros I. unfold worker_step. destruct (p_workers s !! i) as [k|] eqn:Hk; [|done]. cbn [mbind option_bind].
  assert (Hgo : forall c p, ~ finished k -> progress (moved p k) = progress k -> in_turn (moved p k) ->
    inv (at_point i p (if c : bool then set_cancelled s else s))) by (intros; by apply (inv_at_point s c i k)).
  assert (Hok : ~ finished k -> 0 <= progress k <= wk_len k /\ in_turn k).
  { intros Hf. destruct (main_ok_alter _ _ i k (moved WOk) (i_main s I) Hk Hf) as (_ & j & err & Ej).
    pose proof (i_disk s I) as D. unfold disk_ok in D. rewrite Ej in D. destruct D as (_ & _ & g & _ & _ & D).
    rewrite Forall_lookup in D. by destruct (D i k Hk) as (_ & ? & ? & _). }
  assert (Hun : wk_at k <> WOk -> (forall w e, wk_at k <> WErr w e) -> ~ finished k).
  { unfold finished. destruct (wk_at k) as [| | | | | |w e]; intros H1 H2; [by intros []..|by destruct H1|by destruct (H2 w e)]. }
  destruct (wk_at k) as [|w|w|w|w| |w e] eqn:Hat; intros Hs; try done; destruct Hok as [W2 W3]; try (by apply Hun);
    specialize (Hun ltac:(done) ltac:(done)); unfold progress, in_turn in W2, W3; rewrite Hat in W2, W3; injection Hs as <-.
  - apply (Hgo false); [done| |by destruct x]. unfold progress. rewrite Hat. by destruct x.
  - destruct (Z.ltb_spec w (wk_len k)).
    + destruct (p_ctl s =? CANCELLED); [apply (Hgo true)|apply (Hgo false)]; try done; unfold progress; by rewrite Hat.
    + apply (Hgo false); [done| |by destruct x]. unfold progress. rewrite Hat. destruct x; cbn; [lia|done].
  - apply (Hgo false); [done| |by destruct (p_ctl s =? PAUSED)]. unfold progress. rewrite Hat. by destruct (p_ctl s =? PAUSED).
  - destruct (p_ctl s =? CANCELLED); [apply (Hgo true)|apply (Hgo false)]; try done; unfold progress; by rewrite Hat.
  - by apply inv_transfer.
Qed.

(** ** The other steps *)

(** What [inv] looks at. *)
Lemma inv_same s s' : p_files s' = p_files s -> p_workers s' = p_workers s -> p_bytes_done s' = p_bytes_done s ->
  p_main s' = p_main s -> inv s -> inv s'.
Proof using Type. intros E1 E2 E3 E4 [I1 I2 I3]. split; unfold disk_ok in *; by rewrite ?E1, ?E2, ?E3, ?E4. Qed.

Lemma inv_reporter s s' : inv s -> reporter_step total s = Some s' -> inv s'.
Proof using Type.
  intros HI. unfold reporter_step. destruct (p_reporter s) as [last|last|]; [| |done].
  - destruct (p_ctl s =? PAUSED); [intros [= <-]; by apply (inv_same s)|].
    destruct (PROGRESS_MIN_BYTES <=? _); intros [= <-]; by apply (inv_same s).
  - intros [= <-]. by apply (inv_same s).
Qed.

Lemma inv_prepare s x : inv s -> p_main s = MPrepare -> inv (prepare dst total num_chunks x s).
Proof using Hnum.
  intros [I1 I2 Hb] Hm. unfold disk_ok in Hb. rewrite Hm in I2, Hb. cbn [main_ok] in I2. destruct x as [n|e [|st]]; cbn [prepare].
  2: { split; [done|by cbn; rewrite I2|done]. }
  2: { split; [|by cbn; rewrite I2|done]. cbn. intros p Hp. rewrite lookup_insert_ne by done. by apply I1. }
  split; cbn -[plan].
  - intros p Hp. rewrite lookup_insert_ne by done. by apply I1.
  - rewrite firstn_O. split; [constructor|lia].
  - split_and!.
    + rewrite <- list_fmap_compose. rewrite <- (list_fmap_id (plan total num_chunks)) at 2. apply list_fmap_ext. by intros i [o l] _.
    + rewrite Hb. induction (plan total num_chunks) as [|r l IH]; [done|]. cbn. by rewrite <- IH.
    + eexists. rewrite lookup_insert_eq. split; [done|]. cbn [content]. rewrite length_replicate. unfold file_len. rewrite Nat2Z.id.
      split; [done|]. apply Forall_fmap, Forall_forall. intros r Hr. pose proof (plan_bounds total num_chunks ltac:(unfold file_len; lia) Hnum) as Hb2.
      rewrite Forall_forall in Hb2. specialize (Hb2 r Hr). destruct r as [o l]. unfold worker_ok, chunk_of in *. cbn in *.
      split_and!; try done; try lia.
Qed.

Lemma inv_main s x s' : inv s -> main_step dst total num_chunks x s = Some s' -> inv s'.
Proof using Hne Hnum.
  intros HI. pose proof HI as [I1 I2 I3]. unfold main_step. destruct (p_main s) as [|i err|err|o] eqn:Hm; [| | |done].
  - intros [= <-]. apply inv_prepare; auto.
  - cbn [main_ok] in I2. destruct I2 as [I2 Hi]. destruct (p_workers s !! i) as [k|] eqn:Hk.
    + assert (Hnext : forall err', ended err' k -> (err' = None -> err = None) -> inv (set_main (MJoin (S i) err') s)).
      { intros err' He Himp. split; [done| |by unfold disk_ok in *; rewrite Hm in I3]. cbn. split; [|by eapply lookup_lt_Some in Hk].
        rewrite (take_S_r _ _ k Hk). apply Forall_app. split; [|by constructor]. eapply Forall_impl; [exact I2|].
        intros y [Hf Hy]. split; [done|]. intros E. by apply Hy, Himp. }
      destruct (wk_at k) eqn:Hat; try done; intros [= <-]; apply Hnext; unfold ended, finished; rewrite ?Hat; try done.
      * by destruct err.
      * by destruct err.
    + intros [= <-]. split; [done| |by unfold disk_ok in *; rewrite Hm in I3]. cbn. apply lookup_ge_None in Hk.
      by rewrite take_ge in I2.
  - destruct (p_reporter s); try done. intros [= <-]. cbn [main_ok] in I2. unfold conclude. destruct err as [e|].
    + assert (Hf : Forall finished (p_workers s)) by (eapply Forall_impl; [exact I2|apply ended_finished]).
      destruct (p_cancelled s); [by split; [done|done|unfold disk_ok in *; rewrite Hm in I3]|]. split; [|by destruct x|done].
      intros p Hp. destruct x; cbn; [|by apply I1]. rewrite lookup_delete_ne by done. by apply I1.
    + by split; [done|split|unfold disk_ok in *; rewrite Hm in I3].
Qed.

Lemma inv_step a s s' : inv s -> step a s = Some s' -> inv s'.
Proof using Hne Hsrc Hnum Hbuf.
  intros HI. destruct a as [i x| |x|v]; cbn [parallel_step].
  - by apply inv_worker.
  - destruct (p_main s) eqn:E; [done|..]; by apply inv_reporter.
  - by apply inv_main.
  - unfold control_step. intros [= <-]. destruct (p_ctl s =? CANCELLED); [done|]. by apply (inv_same s).
Qed.

Lemma inv_run l : forall s s', inv s -> run l s = Some s' -> inv s'.
Proof using Hne Hsrc Hnum Hbuf.
  induction l as [|a l IH]; intros s s' HI; cbn [Parallel.run]; [by intros [= <-]|].
  destruct (step a s) as [s1|] eqn:Hs; [|done]. cbn [mbind option_bind]. apply IH. by eapply inv_step.
Qed.

Lemma inv_start ctl : inv (parallel_chunk_copy src dst total fs ctl).
Proof using Type. by split. Qed.

(** When every worker has ended well the destination is the source. *)
Lemma all_ended_exact s g : inv s -> Forall (fun k => wk_at k = WOk) (p_workers s) ->
  ((fun k => (wk_offset k, wk_len k)) <$> p_workers s) = plan total num_chunks ->
  length (content g) = length (content f) -> Forall (worker_ok g) (p_workers s) -> content g = content f.
Proof using Hnum.
  intros HI Hok Hplan Hlen Hw. apply list_eq. intros j. destruct (decide (j < length (content f))%nat) as [Hj|Hj].
  2: { rewrite !(proj2 (lookup_ge_None _ _)) by lia. done. }
  pose proof (plan_covers total num_chunks (Z.of_nat j) Hnum ltac:(unfold file_len; lia)) as Hc. rewrite <- Hplan in Hc.
  apply Exists_fmap, Exists_exists in Hc as (k & Hk & Hin). rewrite Forall_forall in Hok, Hw.
  destruct (Hw k Hk) as (_ & _ & _ & Hs). apply Hs. unfold progress. rewrite (Hok k Hk). exact Hin.
Qed.

(** ** When a copy can come to its end *)

(** The reporter ends for a reason, and the shared flag has one. *)
Record reasons (s : ParallelState) : Prop := {
  r_ended : p_reporter s = PEnded -> total <= p_bytes_done s \/ p_ctl s = CANCELLED;
  r_flag : p_cancelled s = true -> p_ctl s = CANCELLED
}.

(** A worker that failed before its chunk was written. *)
Definition fell_short (k : Worker) : Prop := match wk_at k with WErr w _ => w < wk_len k | _ => False end.

Lemma worker_step_keeps s i x s' : worker_step src dst buf i x s = Some s' -> inv s -> exists k p,
  p_workers s !! i = Some k /\ ~ finished k /\ p_workers s' = alter (moved p) i (p_workers s) /\ p_main s' = p_main s /\
  p_reporter s' = p_reporter s /\ p_ctl s' = p_ctl s /\ p_bytes_done s <= p_bytes_done s' /\
  (p_cancelled s' = p_cancelled s \/ p_ctl s = CANCELLED).
Proof using Type.
  unfold worker_step. destruct (p_workers s !! i) as [k|] eqn:Hk; [|done]. cbn [mbind option_bind]. intros Hs HI. exists k.
  assert (Hgo : forall p s1, s1 = at_point i p s -> ~ finished k -> exists p, Some k = Some k /\ ~ finished k /\
    p_workers s1 = alter (moved p) i (p_workers s) /\ p_main s1 = p_main s /\ p_reporter s1 = p_reporter s /\ p_ctl s1 = p_ctl s /\
    p_bytes_done s <= p_bytes_done s1 /\ (p_cancelled s1 = p_cancelled s \/ p_ctl s = CANCELLED)).
  { intros p s1 -> Hf. exists p. split_and!; [done|done|done|done|done|done|done|by left]. }
  unfold finished in *. destruct (wk_at k) as [|w|w|w|w| |w e] eqn:Hat; try done; injection Hs as <-.
  - eapply Hgo; [reflexivity|by intros []].
  - destruct (w <? wk_len k); [|(eapply Hgo; [reflexivity|by intros []])]. destruct (Z.eqb_spec (p_ctl s) CANCELLED); [|(eapply Hgo; [reflexivity|by intros []])].
    exists (WErr w IoOther). split_and!; try done; [by intros []|by right].
  - eapply Hgo; [reflexivity|by intros []].
  - destruct (Z.eqb_spec (p_ctl s) CANCELLED); [|(eapply Hgo; [reflexivity|by intros []])]. exists (WErr w IoOther). split_and!; try done; [by intros []|by right].
  - unfold transfer, store, add_done. destruct x as [n|e st]; [case_bool_decide; [(eapply Hgo; [reflexivity|by intros []])|]|];
      (eexists; split_and!; [done|by intros []|by destruct (p_files s !! dst)..| |by left; destruct (p_files s !! dst)]);
      destruct (p_files s !! dst); cbn; lia.
Qed.

Lemma reasons_step a s s' : inv s -> reasons s -> step a s = Some s' -> reasons s'.
Proof using Hne.
  intros HI [R1 R2]. destruct a as [i x| |x|v]; cbn [parallel_step].
  - intros Hs. destruct (worker_step_keeps s i x s' Hs HI) as (k & p & _ & _ & _ & _ & E1 & E2 & E3 & E4).
    split; rewrite ?E1, ?E2; [intros Hp; destruct (R1 Hp); [left; lia|by right]|]. destruct E4 as [->|E4]; [done|by intros _].
  - intros Hs. assert (Hr : reporter_step total s = Some s') by (by destruct (p_main s)). clear Hs. unfold reporter_step in Hr.
    destruct (p_reporter s) as [last|last|] eqn:Er; [| |done].
    + destruct (p_ctl s =? PAUSED); [by injection Hr as <-|]. destruct (PROGRESS_MIN_BYTES <=? _); injection Hr as <-;
        (split; [|done]; cbn; destruct (Z.leb_spec total (p_bytes_done s)); [by left|]; destruct (p_cancelled s) eqn:Ec; [|done]; right; by apply R2).
    + injection Hr as <-. split; [|done]. cbn. destruct (p_cancelled s) eqn:Ec; [right; by apply R2|]. destruct (Z.eqb_spec (p_ctl s) CANCELLED); [by right|done].
  - unfold main_step, prepare, conclude. intros Hs. repeat (case_match; simplify_eq/=); (split; cbn; [try discriminate; auto|congruence || auto]).
  - unfold control_step. intros [= <-]. destruct (Z.eqb_spec (p_ctl s) CANCELLED) as [|Hn]; [done|]. split; cbn.
    + intros Hp. destruct (R1 Hp); [by left|done].
    + intros Hc. exfalso. by apply Hn, R2.
Qed.

Lemma run_app l1 l2 s : run (l1 ++ l2) s = s1 ← run l1 s; run l2 s1.
Proof using Type.
  revert s. induction l1 as [|a l1 IH]; intros s; [done|]. cbn [app Parallel.run]. destruct (step a s); [apply IH|done].
Qed.

Lemma reasons_run l : forall s s', inv s -> reasons s -> run l s = Some s' -> reasons s'.
Proof using Hne Hsrc Hnum Hbuf.
  induction l as [|a l IH]; intros s s' HI HR; cbn [Parallel.run]; [by intros [= <-]|].
  destruct (step a s) as [s1|] eqn:Hs; [|done]. cbn [mbind option_bind]. apply IH; [by eapply inv_step|by eapply reasons_step].
Qed.

(** The workers exist and the caller has not returned. *)
Definition under_way (s : ParallelState) : Prop := match p_main s with MJoin _ _ | MWait _ => True | _ => False end.

Lemma sum_short g l : Forall (worker_ok g) l -> Exists fell_short l ->
  foldr (fun k a => progress k + a) 0 l < sum_len ((fun k => (wk_offset k, wk_len k)) <$> l).
Proof using Type.
  assert (Hle : forall l, Forall (worker_ok g) l -> foldr (fun k a => progress k + a) 0 l <= sum_len ((fun k => (wk_offset k, wk_len k)) <$> l)).
  { induction 1 as [|k l0 (_ & Hk & _) _ IH]; [done|]. rewrite fmap_cons. cbn [foldr sum_len snd]. lia. }
  intros Hw. induction 1 as [k l Hs|k l _ IH]; apply Forall_cons in Hw as [(_ & Hk & _) Hw];
    rewrite fmap_cons; cbn [foldr sum_len snd].
  - specialize (Hle l Hw). unfold fell_short, progress in *. destruct (wk_at k); try done. lia.
  - specialize (IH Hw). lia.
Qed.

Definition doomed (s : ParallelState) : Prop :=
  inv s /\ reasons s /\ under_way s /\ p_ctl s = RUNNING /\ Exists fell_short (p_workers s).

Lemma doomed_bytes s : doomed s -> p_bytes_done s < total.
Proof using Hnum.
  intros (HI & _ & Hu & _ & Hs). pose proof (i_disk s HI) as D. unfold disk_ok, under_way in *.
  assert (D' : ((fun k => (wk_offset k, wk_len k)) <$> p_workers s) = plan total num_chunks /\
         p_bytes_done s = foldr (fun k a => progress k + a) 0 (p_workers s) /\
         exists g, p_files s !! dst = Some g /\ length (content g) = length (content f) /\ Forall (worker_ok g) (p_workers s))
    by (by destruct (p_main s)).
  destruct D' as (D1 & D2 & g & _ & _ & D3). pose proof (sum_short g _ D3 Hs) as Hlt. rewrite D1, plan_sum in Hlt by (unfold file_len; lia). lia.
Qed.

Lemma doomed_step a s s' : (forall v, a <> AControl v) -> doomed s -> step a s = Some s' -> doomed s'.
Proof using Hne Hsrc Hnum Hbuf.
  intros Ha Hd Hs. pose proof (doomed_bytes s Hd) as Hb. destruct Hd as (HI & HR & Hu & Hc & He).
  pose proof (inv_step a s s' HI Hs) as HI'. pose proof (reasons_step a s s' HI HR Hs) as HR'.
  assert (Hnc : p_cancelled s = false) by (destruct (p_cancelled s) eqn:E; [by rewrite (r_flag s HR E) in Hc|done]).
  unfold doomed, under_way in *. destruct a as [i x| |x|v]; cbn [parallel_step] in Hs; [| | |by destruct (Ha v)].
  - destruct (worker_step_keeps s i x s' Hs HI) as (k & p & Hk & Hf & Ew & Em & _ & Ec & _). rewrite Em, Ec, Ew. split_and!; try done.
    apply Exists_exists in He as (y & Hy & Hsy). apply list_elem_of_lookup in Hy as [n Hn]. apply Exists_exists. exists y. split; [|done].
    apply list_elem_of_lookup. exists n. rewrite list_lookup_alter_ne; [done|]. intros ->. apply Hf. assert (k = y) as -> by congruence.
    unfold fell_short, finished in *. by destruct (wk_at y).
  - assert (Hr : reporter_step total s = Some s') by (by destruct (p_main s)). unfold reporter_step in Hr.
    split_and!; [done|done|..]; destruct (p_reporter s); try done; repeat (case_match; simplify_eq/=; try done).
  - unfold main_step in Hs. destruct (p_main s) as [|i err|err|o] eqn:Em; try done.
    + destruct (p_workers s !! i) as [k|]; [|by injection Hs as <-]. by destruct (wk_at k); try done; injection Hs as <-.
    + destruct (p_reporter s) eqn:Er; try done. destruct (r_ended s HR Er); [lia|]. by rewrite Hc in *.
Qed.

Lemma doomed_run l : forall s s', Forall (fun a => forall v, a <> AControl v) l -> doomed s -> run l s = Some s' -> doomed s'.
Proof using Hne Hsrc Hnum Hbuf.
  induction l as [|a l IH]; intros s s' Hl Hd; cbn [Parallel.run]; [by intros [= <-]|]. apply Forall_cons in Hl as [Ha Hl].
  destruct (step a s) as [s1|] eqn:Hs; [|done]. cbn [mbind option_bind]. apply IH; [done|by eapply doomed_step].
Qed.

(** ** Bringing a copy to its end *)

(** What a worker still has to do. *)
Definition rank (k : Worker) : Z :=
  match wk_at k with
  | WStart => 4 * wk_len k + 2
  | WTurn w => 4 * (wk_len k - w) + 1
  | WSlept w => 4 * (wk_len k - w) + 1
  | WPause w => 4 * (wk_len k - w)
  | WGo w => 4 * (wk_len k - w) - 1
  | WOk | WErr _ _ => 0
  end.

Definition rest (s : ParallelState) : Z := foldr (fun k a => rank k + a) 0 (p_workers s).

(** Nobody interferes and no chunk has been given up. *)
Record promising (s : ParallelState) : Prop := {
  pr_inv : inv s;
  pr_reasons : reasons s;
  pr_way : under_way s;
  pr_ctl : p_ctl s = RUNNING;
  pr_whole : Forall (fun k => ~ fell_short k) (p_workers s)
}.

Lemma promising_disk s : promising s ->
  ((fun k => (wk_offset k, wk_len k)) <$> p_workers s) = plan total num_chunks /\
  p_bytes_done s = foldr (fun k a => progress k + a) 0 (p_workers s) /\
  exists g, p_files s !! dst = Some g /\ length (content g) = length (content f) /\ Forall (worker_ok g) (p_workers s).
Proof using Type.
  intros [HI _ Hu _ _]. pose proof (i_disk s HI) as D. unfold disk_ok, under_way in *. by destruct (p_main s).
Qed.

(** A worker whose calls work takes a step that brings it nearer. *)
Lemma worker_advances s i k : promising s -> p_workers s !! i = Some k -> ~ finished k ->
  exists p s', worker_step src dst buf i (Works 1) s = Some s' /\ p_workers s' = alter (moved p) i (p_workers s) /\
    0 <= rank (moved p k) < rank k /\ ~ fell_short (moved p k).
Proof using Hne Hsrc Hbuf.
  intros Hp Hk Hf. destruct (promising_disk s Hp) as (_ & _ & g & Hg & Hl & Hw). rewrite Forall_lookup in Hw.
  destruct (Hw i k Hk) as (W1 & W2 & W3 & _). unfold chunk_of, file_len in W1. cbn [fst snd] in W1.
  unfold worker_step. rewrite Hk. cbn [mbind option_bind]. rewrite (pr_ctl s Hp).
  unfold progress, in_turn, finished, rank in *. destruct (wk_at k) as [|w|w|w|w| |w e] eqn:Hat; try (by destruct Hf).
  - exists (WTurn 0). eexists. split_and!; [done|done|cbn; lia|cbn; lia|by intros []].
  - destruct (Z.ltb_spec w (wk_len k)); [exists (WPause w)|exists WOk]; eexists; split_and!; try done; cbn; lia.
  - exists (WGo w). eexists. split_and!; try done; cbn; lia.
  - exists (WPause w). eexists. split_and!; try done; cbn; lia.
  - unfold transfer, store, add_done. rewrite (src_content s (pr_inv s Hp)), Hg. cbn [fmap option_fmap option_map default from_option id].
    set (m := Nat.max 1 _). set (x := take m _). assert (Hx : (0 < length x)%nat).
    { unfold x, m. rewrite length_take, length_drop. lia. }
    assert (Hxw : Z.of_nat (length x) <= wk_len k - w).
    { unfold x, m. rewrite length_take, length_drop. lia. }
    case_bool_decide as Hnil; [rewrite Hnil in Hx; simpl in Hx; lia|].
    exists (WTurn (w + Z.of_nat (length x))). eexists. split_and!; [done|done|cbn; lia|cbn; lia|by intros []].
Qed.

Lemma rank_nonneg s k : promising s -> k ∈ p_workers s -> 0 <= rank k.
Proof using Type.
  intros Hp Hk. destruct (promising_disk s Hp) as (_ & _ & g & _ & _ & Hw). rewrite Forall_forall in Hw.
  destruct (Hw k Hk) as (W1 & W2 & W3 & _). unfold chunk_of in W1. cbn [fst snd] in W1. unfold rank, progress, in_turn in *. destruct (wk_at k); lia.
Qed.

Lemma rest_nonneg s : promising s -> 0 <= rest s.
Proof using Type.
  intros Hp. unfold rest. assert (Hall : forall k, k ∈ p_workers s -> 0 <= rank k) by (intros; by eapply rank_nonneg). revert Hall.
  induction (p_workers s) as [|k l IH]; intros Hall; cbn [foldr]; [lia|]. specialize (IH (fun k Hk => Hall k ltac:(by right))).
  pose proof (Hall k ltac:(by left)). lia.
Qed.

Lemma promising_step s i s' p k : promising s -> worker_step src dst buf i (Works 1) s = Some s' ->
  p_workers s !! i = Some k -> p_workers s' = alter (moved p) i (p_workers s) -> ~ fell_short (moved p k) -> promising s'.
Proof using Hne Hsrc Hnum Hbuf.
  intros [HI HR Hu Hc Hw] Hs Hk Ew Hf. destruct (worker_step_keeps s i _ s' Hs HI) as (_ & _ & _ & _ & _ & Em & _ & Ec & _). split.
  - by eapply (inv_step (AWorker i (Works 1))).
  - by eapply (reasons_step (AWorker i (Works 1))).
  - unfold under_way. by rewrite Em.
  - by rewrite Ec.
  - rewrite Ew. apply Forall_lookup. intros n y Hy. destruct (decide (n = i)) as [->|Hn].
    + rewrite list_lookup_alter_eq, Hk in Hy. by injection Hy as <-.
    + rewrite list_lookup_alter_ne in Hy by done. rewrite Forall_lookup in Hw. by eapply Hw.
Qed.

Definition undirected (l : list Action) : Prop := Forall (fun a => forall v, a <> AControl v) l.

Lemma workers_finish n : forall s, promising s -> rest s < Z.of_nat n ->
  exists l s', undirected l /\ run l s = Some s' /\ promising s' /\ Forall finished (p_workers s').
Proof using Hne Hsrc Hnum Hbuf.
  induction n as [|n IH]; intros s Hp Hr; [pose proof (rest_nonneg s Hp); lia|].
  destruct (decide (Forall finished (p_workers s))) as [Hf|Hf].
  { exists [], s. split_and!; [constructor|done|done|done]. }
  apply not_Forall_Exists in Hf; [|apply finished_dec]. apply Exists_exists in Hf as (k & Hk & Hnf). apply list_elem_of_lookup in Hk as [i Hk].
  destruct (worker_advances s i k Hp Hk Hnf) as (p & s' & Hs & Ew & Hrk & Hnf').
  destruct (IH s') as (l & s2 & Hu & Hrun & Hp2 & Hf2); [by eapply promising_step| |].
  { unfold rest in *. rewrite Ew, (sum_alter rank _ i k p Hk). lia. }
  exists (AWorker i (Works 1) :: l), s2. split_and!; [by constructor| |done|done]. cbn [Parallel.run parallel_step]. rewrite Hs. exact Hrun.
Qed.

(** The reporter comes to its end once the bytes are all there. *)
Lemma reporter_ends s : promising s -> Forall finished (p_workers s) ->
  exists l s', undirected l /\ run l s = Some s' /\ p_reporter s' = PEnded /\ p_main s' = p_main s /\ p_workers s' = p_workers s.
Proof using Hnum.
  intros Hp Hf. destruct (promising_disk s Hp) as (D1 & D2 & g & _ & _ & Hw).
  assert (Hb : total <= p_bytes_done s).
  { rewrite D2, <- (plan_sum total num_chunks) by (unfold file_len; lia). rewrite <- D1. clear D1 D2. pose proof (pr_whole s Hp) as Hs.
    induction Hf as [|k l Hk Hf IH]; [done|]. apply Forall_cons in Hw as [(_ & Hwk & _) Hw]. apply Forall_cons in Hs as [Hsk Hs].
    rewrite fmap_cons. cbn [foldr sum_len snd]. specialize (IH Hw Hs). unfold fell_short, finished, progress in *. destruct (wk_at k); try done; lia. }
  assert (Htick : forall s, total <= p_bytes_done s -> p_ctl s = RUNNING -> (exists x, p_reporter s = PTick x) -> under_way s ->
    exists s', step AReporter s = Some s' /\ p_reporter s' = PEnded /\ p_main s' = p_main s /\ p_workers s' = p_workers s).
  { intros s1 H1 H2 [x H3] H4. cbn [parallel_step]. assert (Hm : p_main s1 <> MPrepare) by (intros E; unfold under_way in H4; by rewrite E in H4).
    destruct (p_main s1) eqn:Em; [done|..]; unfold reporter_step; rewrite H3, H2; cbn [Z.eqb RUNNING PAUSED];
      (rewrite (proj2 (Z.leb_le _ _) H1); destruct (PROGRESS_MIN_BYTES <=? _); eexists; split_and!; done). }
  pose proof (pr_way s Hp) as Hu. destruct (p_reporter s) as [x|x|] eqn:Er.
  - destruct (Htick s Hb (pr_ctl s Hp) ltac:(eauto) Hu) as (s' & H1 & H2 & H3 & H4). exists [AReporter], s'. split_and!; try done.
    + by constructor.
    + cbn [Parallel.run]. by rewrite H1.
  - set (s1 := set_reporter (PTick x) s). assert (H0 : step AReporter s = Some s1).
    { cbn [parallel_step]. unfold reporter_step. rewrite Er, (pr_ctl s Hp). assert (Hc : p_cancelled s = false).
      { destruct (p_cancelled s) eqn:E; [|done]. pose proof (r_flag s (pr_reasons s Hp) E) as Hx. by rewrite (pr_ctl s Hp) in Hx. }
      rewrite Hc. unfold under_way in Hu. by destruct (p_main s). }
    destruct (Htick s1 Hb (pr_ctl s Hp) ltac:(by exists x) Hu) as (s' & H1 & H2 & H3 & H4). exists [AReporter; AReporter], s'. split_and!; try done.
    + by repeat constructor.
    + cbn [Parallel.run]. rewrite H0. cbn [mbind option_bind]. by rewrite H1.
  - exists [], s. split_and!; [constructor|done..].
Qed.

Lemma joins_end n : forall s, Forall finished (p_workers s) -> p_reporter s = PEnded -> under_way s ->
  (match p_main s with MJoin i _ => length (p_workers s) - i | _ => 0 end < n)%nat ->
  exists l s' o, undirected l /\ run l s = Some s' /\ p_main s' = MEnd o.
Proof using Type.
  induction n as [|n IH]; intros s Hf Hr Hu Hn; [lia|].
  assert (Hone : forall s1, step (AMain (Works 0)) s = Some s1 -> p_workers s1 = p_workers s -> p_reporter s1 = PEnded -> under_way s1 ->
    (match p_main s1 with MJoin i _ => length (p_workers s1) - i | _ => 0 end < n)%nat ->
    exists l s' o, undirected l /\ run l s = Some s' /\ p_main s' = MEnd o).
  { intros s1 Hs Ew E1 Hu1 Hn1. destruct (IH s1) as (l & s' & o & H1 & H2 & H3); [by rewrite Ew|done..|].
    exists (AMain (Works 0) :: l), s', o. split_and!; [by constructor| |done]. cbn [Parallel.run]. by rewrite Hs. }
  assert (Hwait : forall s err, p_main s = MWait err -> p_reporter s = PEnded -> exists s' o, step (AMain (Works 0)) s = Some s' /\ p_main s' = MEnd o).
  { intros s1 err Em Er. cbn [parallel_step]. unfold main_step. rewrite Em, Er. unfold conclude. destruct err; [destruct (p_cancelled s1)|]; eauto. }
  unfold under_way in Hu. destruct (p_main s) as [|i err|err|o] eqn:Em; try done.
  - destruct (p_workers s !! i) as [k|] eqn:Hk.
    + pose proof (lookup_lt_Some _ _ _ Hk) as Hi. rewrite Forall_lookup in Hf. pose proof (Hf i k Hk) as Hfk.
      assert (Hjoin : forall e, step (AMain (Works 0)) s = Some (set_main (MJoin (S i) e) s) ->
        exists l s' o, undirected l /\ run l s = Some s' /\ p_main s' = MEnd o).
      { intros e Hs. eapply Hone; [exact Hs|done|done|done|cbn; lia]. }
      unfold finished in Hfk. destruct (wk_at k) eqn:Hat; try done; eapply Hjoin; cbn [parallel_step]; unfold main_step; by rewrite Em, Hk, Hat.
    + assert (Hs : step (AMain (Works 0)) s = Some (set_main (MWait err) s)) by (cbn [parallel_step]; unfold main_step; by rewrite Em, Hk).
      destruct (Hwait (set_main (MWait err) s) err eq_refl Hr) as (s' & o & H1 & H2). exists [AMain (Works 0); AMain (Works 0)], s', o.
      split_and!; [by repeat constructor| |done]. cbn [Parallel.run]. rewrite Hs. cbn [mbind option_bind]. by rewrite H1.
  - destruct (Hwait s err Em Hr) as (s' & o & H1 & H2). exists [AMain (Works 0)], s', o. split_and!; [by constructor| |done].
    cbn [Parallel.run]. by rewrite H1.
Qed.

Lemma promising_ends s : promising s -> exists l s' o, undirected l /\ run l s = Some s' /\ p_main s' = MEnd o.
Proof using Hne Hsrc Hnum Hbuf.
  intros Hp. destruct (workers_finish (1 + Z.to_nat (rest s)) s Hp) as (l1 & s1 & U1 & R1 & P1 & F1); [pose proof (rest_nonneg s Hp); lia|].
  destruct (reporter_ends s1 P1 F1) as (l2 & s2 & U2 & R2 & E2 & M2 & W2).
  destruct (joins_end (1 + length (p_workers s2)) s2) as (l3 & s3 & o & U3 & R3 & M3); [by rewrite W2|done| | |].
  - pose proof (pr_way s1 P1) as Hu. unfold under_way in *. by rewrite M2.
  - destruct (p_main s2); lia.
  - exists (l1 ++ l2 ++ l3), s3, o. split_and!; [by repeat apply Forall_app_2| |done]. rewrite run_app, R1. cbn [mbind option_bind].
    rewrite run_app, R2. exact R3.
Qed.
End copy.

(** C28: Copying a file in parallel chunks, for every interleaving of the
    workers, the reporter, the joins and the user, and whatever the calls
    answer: no other file changes, and a copy that reports success reports the
    source's length and has left the source's bytes. *)
Theorem parallel_copy_is_exact src dst fs f num_chunks buf ctl l s :
  src <> dst -> fs !! src = Some f -> 0 < num_chunks -> 0 < buf ->
  run src dst (file_len f) num_chunks buf l (parallel_chunk_copy src dst (file_len f) fs ctl) = Some s ->
  (forall p, p <> dst -> p_files s !! p = fs !! p) /\
  forall n, p_main s = MEnd (ParDone n) ->
    n = file_len f /\ exists g, p_files s !! dst = Some g /\ content g = content f.
Proof.
  intros Hne Hsrc Hnum Hbuf Hrun.
  pose proof (inv_run src dst fs f num_chunks buf Hne Hsrc Hnum Hbuf l _ s (inv_start src dst fs f num_chunks ctl) Hrun) as HI.
  split; [apply (i_frame _ _ _ _ s HI)|]. intros n Hm. pose proof (i_main _ _ _ _ s HI) as Hmain. pose proof (i_disk _ _ _ _ s HI) as D.
  unfold disk_ok in D. rewrite Hm in Hmain, D. destruct Hmain as [Hn Hend]. destruct D as (D1 & _ & g & Hg & Hl & Hw).
  split; [done|]. exists g. split; [done|]. apply (all_ended_exact dst fs f num_chunks Hnum s g HI); try done.
  eapply Forall_impl; [exact Hend|]. intros k [_ Hk]. by apply Hk.
Qed.

(** Once the workers are running and while the user leaves the handle
    alone, a parallel copy can come to its end exactly when no worker has
    failed before its chunk was written: such a failure leaves the caller
    waiting for the reporter in every continuation. *)
Theorem parallel_copy_can_end src dst fs f num_chunks buf l s :
  src <> dst -> fs !! src = Some f -> 0 < num_chunks -> 0 < buf ->
  run src dst (file_len f) num_chunks buf l (parallel_chunk_copy src dst (file_len f) fs RUNNING) = Some s ->
  p_ctl s = RUNNING -> under_way s ->
  (exists l' s' o, undirected l' /\ run src dst (file_len f) num_chunks buf l' s = Some s' /\ p_main s' = MEnd o)
  <-> Forall (fun k => ~ fell_short k) (p_workers s).
Proof.
  intros Hne Hsrc Hnum Hbuf Hrun Hctl Hway.
  pose proof (inv_start src dst fs f num_chunks RUNNING) as H0. assert (HR0 : reasons f (parallel_chunk_copy src dst (file_len f) fs RUNNING)) by done.
  pose proof (inv_run src dst fs f num_chunks buf Hne Hsrc Hnum Hbuf l _ s H0 Hrun) as HI.
  pose proof (reasons_run src dst fs f num_chunks buf Hne Hsrc Hnum Hbuf l _ s H0 HR0 Hrun) as HR. split.
  - intros (l' & s' & o & Hu & Hrun' & Hend). apply Forall_forall. intros k Hk Hs.
    assert (Hd : doomed dst fs f num_chunks s) by (split_and!; try done; apply Exists_exists; by exists k).
    pose proof (doomed_run src dst fs f num_chunks buf Hne Hsrc Hnum Hbuf l' s s' Hu Hd Hrun') as (_ & _ & Hu' & _).
    unfold under_way in Hu'. by rewrite Hend in Hu'.
  - intros Hw. by apply (promising_ends src dst fs f num_chunks buf).
Qed.

(** ** Schedules *)

Module ParallelDemo.
Definition source : File := {| content := [x61; x62; x63; x64; x65]; f_mtime_ms := 7 |}.
Definition disk : FileTree := {[ ["a"] := source; ["b"] := {| content := [x00]; f_mtime_ms := 1 |} ]}.
Definition start (ctl : Z) : ParallelState := parallel_chunk_copy ["a"] ["b"] (file_len source) disk ctl.

(** A worker alone: its handles, turns of at most two bytes, its end. *)
Definition turn (i : nat) : list Action := [AWorker i (Works 2); AWorker i (Works 2); AWorker i (Works 2)].

(** Two workers in turns, a pause and a resume in between. *)
Definition whole : list Action :=
  [AMain (Works 0); AWorker 1 (Works 0); AReporter; AWorker 0 (Works 0); AWorker 0 (Works 0); AControl PAUSED; AWorker 0 (Works 0); AReporter;
   AControl RUNNING; AWorker 0 (Works 0)] ++ turn 1 ++ [AWorker 0 (Works 0); AWorker 0 (Works 1); AReporter] ++ turn 0 ++
  [AWorker 1 (Works 0); AWorker 0 (Works 0); AReporter; AMain (Works 0); AMain (Works 0); AMain (Works 0); AMain (Works 0)].

(** The read of the first worker fails. *)
Definition failing : list Action :=
  [AMain (Works 0); AWorker 0 (Works 0); AWorker 0 (Works 0); AWorker 0 (Works 0); AWorker 0 (FailsWith IoOther 0)].
End ParallelDemo.
Import ParallelDemo.

Example chunks_of_five : plan 5 2 = [(0, 3); (3, 2)] /\ plan 5 4 = [(0, 2); (2, 2); (4, 1)] /\ plan 0 3 = [].
Proof. done. Qed.

Example chunk_requests :
  requested_chunks (Some "8"%string) MIN_FILE_FOR_PARALLEL = Some 8 /\ requested_chunks (Some "99"%string) MIN_FILE_FOR_PARALLEL = Some 16 /\
  requested_chunks (Some "1"%string) MIN_FILE_FOR_PARALLEL = None /\ requested_chunks (Some "8"%string) (MIN_FILE_FOR_PARALLEL - 1) = None.
Proof. vm_compute. done. Qed.

Lemma whole_ends : p_main <$> run ["a"] ["b"] (file_len source) 2 2 whole (start RUNNING) = Some (MEnd (ParDone 5)).
Proof. vm_compute. done. Qed.

Lemma failing_stops :
  (fun s => (p_ctl s, p_main s, (fun k => (wk_at k, wk_len k)) <$> p_workers s))
    <$> run ["a"] ["b"] (file_len source) 2 2 failing (start RUNNING)
  = Some (RUNNING, MJoin 0 None, [(WErr 0 IoOther, 3); (WStart, 2)]).
Proof. vm_compute. done. Qed.

Lemma parallel_copy_is_exact_witness : exists s g,
  run ["a"] ["b"] (file_len source) 2 2 whole (start RUNNING) = Some s /\ p_main s = MEnd (ParDone 5) /\
  p_files s !! ["b"] = Some g /\ content g = content source.
Proof.
  pose proof whole_ends as E. destruct (run ["a"] ["b"] (file_len source) 2 2 whole (start RUNNING)) as [s|] eqn:Er; [|done]. injection E as E.
  destruct (parallel_copy_is_exact ["a"] ["b"] disk source 2 2 RUNNING whole s ltac:(done) ltac:(done) ltac:(lia) ltac:(lia) Er) as [_ Hd].
  destruct (Hd 5 E) as [_ (g & Hg & Hgc)]. exists s, g. by split_and!.
Defined.

(** After a failed read nothing that the tasks do brings the copy to an end. *)
Lemma parallel_copy_can_end_witness : exists s, run ["a"] ["b"] (file_len source) 2 2 failing (start RUNNING) = Some s /\
  ~ exists l' s' o, undirected l' /\ run ["a"] ["b"] (file_len source) 2 2 l' s = Some s' /\ p_main s' = MEnd o.
Proof.
  pose proof failing_stops as E. destruct (run ["a"] ["b"] (file_len source) 2 2 failing (start RUNNING)) as [s|] eqn:Er; [|done].
  injection E as E1 E2 E3. exists s. split; [done|]. intros He.
  apply (parallel_copy_can_end ["a"] ["b"] disk source 2 2 failing s ltac:(done) ltac:(done) ltac:(lia) ltac:(lia) Er E1) in He;
    [|unfold under_way; by rewrite E2].
  destruct (p_workers s) as [|k l]; [done|]. injection E3 as E3 E4 _. apply Forall_cons in He as [He _]. apply He.
  unfold fell_short. by rewrite E3, E4.
Defined.
