(* ===== verification/StdIo.v ===== *)
(** * [std::io::Error]: kinds and errno

    What the sources look at in an error of the operating system. *)
From S2P Require Import Prelude.
From stdpp Require Import options.
Open Scope Z_scope.

Inductive ErrorKind := EkNotFound | EkPermissionDenied | EkInterrupted | EkAlreadyExists | EkOther.

(** Its kind and, for errors of the system, its number. *)
Record IoError := { io_kind : ErrorKind; io_errno : option Z }.

Definition ENOENT : IoError := {| io_kind := EkNotFound; io_errno := Some 2 |}.
Definition EISDIR : IoError := {| io_kind := EkOther; io_errno := Some 21 |}.
