(* ===== verification/Hash.v ===== *)
(** * Hashing ([freally-hash]: [algorithm.rs], [streaming.rs], [verify.rs], [event.rs], [error.rs])

    The names of the algorithms, the streaming hash of a file with its pauses,
    cancellation and events, and the comparison of two files.  The digests are
    those of third-party crates; rates, durations and messages are left out.
    The system's answers are the result of [metadata], that of [open] and the
    reads that follow, the last of them empty; the values that the loads of the
    control return are a list, as for the copy engine. *)
From S2P Require Import Prelude.
From S2P Require Import Text.
From S2P Require Import Files.
From S2P Require Import StdIo.
From S2P Require Import Control.
From S2P Require Import ChunkTypes.
From S2P Require Import CopyFile.
From stdpp Require Import options.
Open Scope Z_scope.

(** ** Algorithms *)

Inductive HashAlgorithm := Crc32 | Md5 | Sha1 | Sha256 | Sha512 | XxHash3_64 | XxHash3_128 | Blake3.

#[export] Instance HashAlgorithm_eq_dec : EqDecision HashAlgorithm.
Proof. solve_decision. Defined.

Definition ALL : list HashAlgorithm := [Crc32; Md5; Sha1; Sha256; Sha512; XxHash3_64; XxHash3_128; Blake3].

Definition name (a : HashAlgorithm) : string :=
  match a with
  | Crc32 => "crc32" | Md5 => "md5" | Sha1 => "sha1" | Sha256 => "sha256" | Sha512 => "sha512"
  | XxHash3_64 => "xxh3-64" | XxHash3_128 => "xxh3-128" | Blake3 => "blake3"
  end.

Definition digest_len (a : HashAlgorithm) : Z :=
  match a with
  | Crc32 => 4 | Md5 => 16 | Sha1 => 20 | Sha256 => 32 | Sha512 => 64 | XxHash3_64 => 8 | XxHash3_128 => 16 | Blake3 => 32
  end.

Definition sidecar_extension (a : HashAlgorithm) : option string :=
  match a with
  | Md5 => Some "md5" | Sha1 => Some "sha1" | Sha256 => Some "sha256" | Sha512 => Some "sha512" | Blake3 => Some "blake3"
  | _ => None
  end.

Fixpoint drop_chars (p : ascii -> bool) (s : string) : string :=
  match s with
  | EmptyString => EmptyString
  | String c s' => if p c then drop_chars p s' else String c (drop_chars p s')
  end.

(** [HashAlgorithm::from_str]; [None] is [UnknownAlgorithm]. *)
Definition from_str (s : string) : option HashAlgorithm :=
  let canon := drop_chars (fun c => Ascii.eqb c "-" || Ascii.eqb c "_") (to_ascii_lowercase s) in
  let one_of := existsb (String.eqb canon) in
  if one_of ["crc32"; "crc"] then Some Crc32
  else if one_of ["md5"] then Some Md5
  else if one_of ["sha1"] then Some Sha1
  else if one_of ["sha256"] then Some Sha256
  else if one_of ["sha512"] then Some Sha512
  else if one_of ["xxh364"; "xxhash364"; "xxh3"] then Some XxHash3_64
  else if one_of ["xxh3128"; "xxhash3128"] then Some XxHash3_128
  else if one_of ["blake3"; "b3"] then Some Blake3
  else None.

(** ** Errors and events *)

Inductive HashErrorKind := NotFound | PermissionDenied | Interrupted | IoOther.

#[export] Instance HashErrorKind_eq_dec : EqDecision HashErrorKind.
Proof. solve_decision. Defined.

Record HashError := { he_kind : HashErrorKind; he_path : path; he_errno : option Z }.

Definition from_io (p : path) (e : IoError) : HashError :=
  {| he_kind := match io_kind e with
                | EkNotFound => NotFound | EkPermissionDenied => PermissionDenied | EkInterrupted => Interrupted
                | _ => IoOther end;
     he_path := p; he_errno := io_errno e |}.

Definition hash_cancelled (p : path) : HashError := {| he_kind := Interrupted; he_path := p; he_errno := None |}.

Definition is_cancelled (e : HashError) : bool :=
  bool_decide (he_kind e = Interrupted) && match he_errno e with None => true | _ => false end.

Inductive HashEvent :=
| Started (p : path) (a : HashAlgorithm) (total : Z)
| Progress (done total : Z)
| Paused
| Resumed
| Completed (digest : bytes) (done : Z)
| Failed (e : HashError).

Record HashReport := { hr_path : path; hr_algorithm : HashAlgorithm; hr_digest : bytes; hr_bytes : Z }.

Definition report_hex (r : HashReport) : string := hex_encode (hr_digest r).

(** ** Streaming *)

Definition PROGRESS_MIN_BYTES : Z := 16 * 1024.

Inductive HashStop := HDone (data : bytes) | HFailed (e : HashError) | HStuck.

(** One load of the control. *)
Definition load (l : list Z) : Z * list Z :=
  match l with [] => (RUNNING, []) | v :: r => if v =? CANCELLED then (v, l) else (v, r) end.

Section hash.
Context (digest : HashAlgorithm -> bytes -> bytes) (due : nat -> bool).

(** The loop: the events it sends and how it ends.  [due n] is the clock's
    answer after the [n]th read, counted from the end. *)
Fixpoint hash_loop (fuel : nat) (p : path) (total : Z) (flags : list Z) (reads : list (result IoError bytes))
    (data : bytes) (last : Z) (was_paused : bool) : list HashEvent * HashStop :=
  match fuel with
  | O => ([], HStuck)
  | S fuel =>
      let '(c, flags) := load flags in
      if c =? CANCELLED then ([], HFailed (hash_cancelled p))
      else
        let '(v, flags) := load flags in
        if v =? PAUSED then
          let pre := if was_paused then [] else [Paused] in
          let '(c, flags) := load (wait_flags flags) in
          if c =? CANCELLED then (pre, HFailed (hash_cancelled p))
          else
            let '(evs, r) := hash_loop fuel p total flags reads data last false in
            (pre ++ Resumed :: evs, r)
        else
          match reads with
          | [] | Ok [] :: _ => ([], HDone data)
          | Err e :: _ => ([], HFailed (from_io p e))
          | Ok b :: reads =>
              let data := data ++ b in
              let processed := Z.of_nat (length data) in
              if (PROGRESS_MIN_BYTES <=? sat_sub64 processed last) && due (length reads) then
                let '(evs, r) := hash_loop fuel p total flags reads data processed was_paused in
                (Progress processed total :: evs, r)
              else hash_loop fuel p total flags reads data last was_paused
          end
  end.

(** What the system answers for a file. *)
Record FileAnswers := { fa_meta : result IoError Z; fa_open : result IoError unit; fa_reads : list (result IoError bytes) }.

Definition hash_file_async (p : path) (a : HashAlgorithm) (f : FileAnswers) (flags : list Z) :
    option (result HashError HashReport) * list HashEvent :=
  match fa_meta f with
  | Err e => (Some (Err (from_io p e)), [])
  | Ok total =>
      match fa_open f with
      | Err e => (Some (Err (from_io p e)), [])
      | Ok _ =>
          let '(evs, r) := hash_loop (1 + length flags + length (fa_reads f)) p total flags (fa_reads f) [] 0 false in
          let evs := Started p a total :: evs in
          match r with
          | HDone data =>
              let d := digest a data in
              let n := Z.of_nat (length data) in
              (Some (Ok {| hr_path := p; hr_algorithm := a; hr_digest := d; hr_bytes := n |}),
               evs ++ [Progress n total; Completed d n])
          | HFailed e => (Some (Err e), evs ++ [Failed e])
          | HStuck => (None, evs)
          end
      end
  end.

(** ** Comparing two files *)

Record VerifyOutcome := { vo_algorithm : HashAlgorithm; vo_src : bytes; vo_dst : bytes; vo_matched : bool }.

Definition src_hex (o : VerifyOutcome) : string := hex_encode (vo_src o).
Definition dst_hex (o : VerifyOutcome) : string := hex_encode (vo_dst o).

(** A task that panics answers nothing. *)
Definition joined (p : path) (task : option (option (result HashError HashReport))) : option (result HashError HashReport) :=
  match task with None => Some (Err (hash_cancelled p)) | Some r => r end.

(** [src_task] and [dst_task] are how the two tasks end, [None] a panic. *)
Definition verify_pair (src dst : path) (a : HashAlgorithm) (src_task dst_task : option (option (result HashError HashReport))) :
    option (result HashError VerifyOutcome) :=
  match joined src src_task with
  | None => None
  | Some (Err e) => Some (Err e)
  | Some (Ok s) =>
      match joined dst dst_task with
      | None => None
      | Some (Err e) => Some (Err e)
      | Some (Ok d) =>
          Some (Ok {| vo_algorithm := a; vo_src := hr_digest s; vo_dst := hr_digest d;
                      vo_matched := bool_decide (hr_digest s = hr_digest d) |})
      end
  end.

(** ** The loop *)

(** The bytes of the reads up to the first empty one. *)
Fixpoint read_all (reads : list (result IoError bytes)) : result IoError bytes :=
  match reads with
  | [] | Ok [] :: _ => Ok []
  | Ok b :: reads => match read_all reads with Ok r => Ok (b ++ r) | Err e => Err e end
  | Err e :: _ => Err e
  end.

Lemma load_length l : (length (load l).2 <= length l)%nat.
Proof. destruct l as [|v r]; simpl; [done|]. destruct (v =? CANCELLED); simpl; lia. Qed.

Lemma load_not_cancelled v l : v <> CANCELLED -> (length (load (v :: l)).2 < length (v :: l))%nat.
Proof. simpl. destruct (Z.eqb_spec v CANCELLED); simpl; [done|lia]. Qed.

Lemma load_cancelled l : (load l).1 = CANCELLED -> CANCELLED ∈ l.
Proof. destruct l as [|v r]; simpl; [done|]. destruct (Z.eqb_spec v CANCELLED); simpl; intros ->; by left. Qed.

Lemma load_sub l x : x ∈ (load l).2 -> x ∈ l.
Proof. destruct l as [|v r]; simpl; [done|]. destruct (v =? CANCELLED); simpl; [done|by right]. Qed.

Lemma wait_sub l x : x ∈ wait_flags l -> x ∈ l.
Proof.
  induction l as [|v r IH]; simpl; [done|]. destruct (v =? PAUSED); [right; auto|]. destruct (v =? CANCELLED); [done|by right].
Qed.

Lemma wait_length l : (length (wait_flags l) <= length l)%nat.
Proof. induction l as [|v r IH]; simpl; [done|]. destruct (v =? PAUSED); [lia|]. destruct (v =? CANCELLED); simpl; lia. Qed.

(** Not the end of a run. *)
Definition passing (e : HashEvent) : Prop := match e with Progress _ _ | Paused | Resumed => True | _ => False end.

Definition loop_end (p : path) (flags : list Z) (reads : list (result IoError bytes)) (data : bytes) (r : HashStop) : Prop :=
  match r with
  | HDone d => exists rest, read_all reads = Ok rest /\ d = data ++ rest
  | HFailed e => e = hash_cancelled p /\ CANCELLED ∈ flags \/ exists x, read_all reads = Err x /\ e = from_io p x
  | HStuck => False
  end.

Lemma loop_end_sub p flags flags' reads data r : (forall x, x ∈ flags' -> x ∈ flags) ->
  loop_end p flags' reads data r -> loop_end p flags reads data r.
Proof. intros Hs. destruct r as [d|e|]; simpl; [done| |done]. intros [[-> H]|H]; [left; auto|by right]. Qed.

Lemma loop_end_read p flags b reads data r : b <> [] -> loop_end p flags reads (data ++ b) r -> loop_end p flags (Ok b :: reads) data r.
Proof.
  intros Hb. destruct b as [|x b]; [done|]. destruct r as [d|e|]; simpl; [| |done].
  - intros (rest & -> & ->). eexists. split; [done|]. by rewrite <- app_assoc.
  - intros [H|(y & -> & ->)]; [by left|right; by exists y].
Qed.

Lemma hash_loop_end p total : forall fuel flags reads data last b,
  (length flags + length reads < fuel)%nat ->
  let '(evs, r) := hash_loop fuel p total flags reads data last b in Forall passing evs /\ loop_end p flags reads data r.
Proof.
  induction fuel as [|fuel IH]; intros flags reads data last b Hf; [lia|]. cbn [hash_loop].
  pose proof (load_length flags) as H1. pose proof (load_cancelled flags) as C1. pose proof (load_sub flags) as S1.
  destruct (load flags) as [c fl1]. simpl in H1, C1, S1.
  destruct (Z.eqb_spec c CANCELLED) as [Hc|Hc]; [by split; [|left; auto]|].
  pose proof (load_length fl1) as H2. pose proof (load_sub fl1) as S2. 
  destruct (load fl1) as [v fl2] eqn:E2. simpl in H2, S2. destruct (Z.eqb_spec v PAUSED) as [Hv|Hv].
  - assert (Hlt : (length fl2 < length fl1)%nat).
    { destruct fl1 as [|w fl1]; [by injection E2 as <- _|]. assert (Hw : w <> CANCELLED).
      { intros ->. simpl in E2. injection E2 as <- _. done. }
      pose proof (load_not_cancelled w fl1 Hw) as H. by rewrite E2 in H. }
    pose proof (load_length (wait_flags fl2)) as H3. pose proof (load_cancelled (wait_flags fl2)) as C3. pose proof (load_sub (wait_flags fl2)) as S3.
    pose proof (wait_length fl2) as W. destruct (load (wait_flags fl2)) as [c3 fl3]. simpl in H3, C3, S3.
    assert (Hpre : Forall passing (if b then [] else [Paused])) by (by destruct b; repeat constructor).
    destruct (Z.eqb_spec c3 CANCELLED) as [Hc3|Hc3]; [split; [done|left; split; [done|by apply S1, S2, wait_sub, C3]]|].
    specialize (IH fl3 reads data last false ltac:(lia)). destruct (hash_loop fuel _ _ _ _ _ _ _) as [evs r]. destruct IH as [He Hr].
    split; [apply Forall_app; split; [done|by constructor]|]. eapply loop_end_sub; [|done]. intros y Hy. by apply S1, S2, wait_sub, S3.
  - assert (Hsub : forall x, x ∈ fl2 -> x ∈ flags) by auto.
    destruct reads as [|[[|x l]|e] reads].
    1: split; [done|]; exists []; by rewrite app_nil_r.
    1: split; [done|]; exists []; by rewrite app_nil_r.
    2: split; [done|right; by exists e].
    simpl in Hf. destruct (_ && _).
    + specialize (IH fl2 reads (data ++ x :: l) (Z.of_nat (length (data ++ x :: l))) b ltac:(lia)).
      destruct (hash_loop fuel _ _ _ _ _ _ _) as [evs r]. destruct IH as [He Hr].
      split; [by constructor|]. apply loop_end_read; [done|]. by eapply loop_end_sub.
    + specialize (IH fl2 reads (data ++ x :: l) last b ltac:(lia)). destruct (hash_loop fuel _ _ _ _ _ _ _) as [evs r].
      destruct IH as [He Hr]. split; [done|]. apply loop_end_read; [done|]. by eapply loop_end_sub.
Qed.

(** A run always ends; success means the digest of all bytes up to the end
    of the file, and an error is a cancellation or a failed call. *)
Lemma hash_file_ends p a f flags :
  match hash_file_async p a f flags with
  | (Some (Ok r), evs) => exists total data mid,
      fa_meta f = Ok total /\ read_all (fa_reads f) = Ok data /\ Forall passing mid /\
      r = {| hr_path := p; hr_algorithm := a; hr_digest := digest a data; hr_bytes := Z.of_nat (length data) |} /\
      evs = Started p a total :: mid ++ [Progress (hr_bytes r) total; Completed (hr_digest r) (hr_bytes r)]
  | (Some (Err e), evs) =>
      (evs = [] /\ exists x, (fa_meta f = Err x \/ fa_open f = Err x) /\ e = from_io p x) \/
      exists total mid, Forall passing mid /\ evs = Started p a total :: mid ++ [Failed e] /\
        (e = hash_cancelled p /\ CANCELLED ∈ flags \/ exists x, read_all (fa_reads f) = Err x /\ e = from_io p x)
  | (None, _) => False
  end.
Proof.
  unfold hash_file_async. destruct (fa_meta f) as [total|e]; [|left; eauto]. destruct (fa_open f) as [[]|e]; [|left; eauto].
  pose proof (hash_loop_end p total (1 + length flags + length (fa_reads f)) flags (fa_reads f) [] 0 false ltac:(lia)) as H.
  destruct (hash_loop _ _ _ _ _ _ _ _) as [mid r]. destruct H as [Hmid Hr]. destruct r as [d|e|]; simpl in *; [| |done].
  - destruct Hr as (rest & Hrest & ->). exists total, rest, mid. by split_and!.
  - right. exists total, mid. by split_and!.
Qed.
End hash.

(** Comparing two files always comes to an answer; "matched" means that
    both were read to their end and have the same digest, so that they hold the
    same bytes or exhibit a collision, files that were read and hold the same
    bytes do match, and an error is that of a file that was not read or a
    cancellation. *)
Theorem verify_pair_compares_contents digest due src dst a fs fd ls ld :
  match verify_pair src dst a (Some (hash_file_async digest due src a fs ls).1) (Some (hash_file_async digest due dst a fd ld).1) with
  | Some (Ok o) => exists x y, read_all (fa_reads fs) = Ok x /\ read_all (fa_reads fd) = Ok y /\
      vo_src o = digest a x /\ vo_dst o = digest a y /\
      (x = y -> vo_matched o = true) /\ (vo_matched o = true -> x = y \/ (x <> y /\ digest a x = digest a y))
  | Some (Err e) => (exists f x, (f = fs \/ f = fd) /\ (fa_meta f = Err x \/ fa_open f = Err x \/ read_all (fa_reads f) = Err x)) \/
      (is_cancelled e = true /\ (CANCELLED ∈ ls \/ CANCELLED ∈ ld))
  | None => False
  end.
Proof.
  pose proof (hash_file_ends digest due src a fs ls) as Hs. pose proof (hash_file_ends digest due dst a fd ld) as Hd.
  unfold verify_pair, joined. destruct (hash_file_async digest due src a fs ls) as [[[rs|es]|] evs]; [| |done]; simpl.
  2: { destruct Hs as [(_ & x & Hx & _)|(t & mid & _ & _ & [[-> Hc]|(x & Hx & _)])]; [|right; auto|]; left; exists fs, x; intuition. }
  destruct (hash_file_async digest due dst a fd ld) as [[[rd|ed]|] evd]; [| |done]; simpl.
  2: { destruct Hd as [(_ & x & Hx & _)|(t & mid & _ & _ & [[-> Hc]|(x & Hx & _)])]; [|right; auto|]; left; exists fd, x; intuition. }
  destruct Hs as (t1 & x & m1 & _ & Hx & _ & -> & _), Hd as (t2 & y & m2 & _ & Hy & _ & -> & _). simpl.
  exists x, y. split_and!; [done..| |].
  - intros ->. by apply bool_decide_eq_true_2.
  - intros H%bool_decide_eq_true_1. destruct (decide (x = y)); [by left|by right].
Qed.

(** The documentation has [Failed] sent for every error; a file that cannot
    be opened ends without an event. *)
Lemma unopened_file_sends_nothing digest due p a f flags e :
  fa_meta f = Err e -> hash_file_async digest due p a f flags = (Some (Err (from_io p e)), []).
Proof. unfold hash_file_async. by intros ->. Qed.

Lemma name_from_str a : from_str (name a) = Some a.
Proof. by destruct a. Qed.
