(* ===== verification/Provenance.v ===== *)
(** * Provenance manifests ([freally-provenance], and [provenance verify] of the CLI)

    The sink that collects one record per copied file and writes the signed
    manifest, the encoders the copy engine feeds, and the verifier that reads a
    manifest and the tree it describes.  BLAKE3, Bao, CBOR and ed25519 are
    parameters; texts of errors are left out.  Paths are those of Unix.

    The second part shows what a report without differences means; the
    third is a concrete world. *)
From S2P Require Import Prelude.
From S2P Require Import Text.
From S2P Require Import Files.
From S2P Require Import Translate.
From S2P Require Import ChunkTypes.
From S2P Require Import RepoDemo.
From stdpp Require Import options.
Open Scope Z_scope.

(** ** Errors *)

Inductive ProvenanceErrorKind :=
| KTampered | MerkleMismatch | BadSignature | BadTimestamp | TsaFeatureDisabled | KMissing | Protocol.

Inductive ProvenanceError :=
| Classified (kind : ProvenanceErrorKind)
| Io (p : path)
| CborSer
| CborDe
| Ed25519Key
| SignatureMismatch.

Definition error_kind (e : ProvenanceError) : ProvenanceErrorKind :=
  match e with Classified k => k | SignatureMismatch => BadSignature | _ => Protocol end.

(** ** The manifest *)

Record FileRecord := { fr_rel_path : string; fr_size : Z; fr_root : bytes; fr_outboard : bytes }.
Record Signature := { sg_public_key : bytes; sg_sig : bytes }.
Record Rfc3161Token := { tk_url : string; tk_der : bytes; tk_stamped_at : Z }.

Record Manifest := {
  m_schema_version : Z;
  m_job_id : string;
  m_src_root : path;
  m_dst_root : path;
  m_started_at : Z;
  m_finished_at : Z;
  m_host : string;
  m_user : string;
  m_freally_version : string;
  m_merkle_root : bytes;
  m_files : list FileRecord;
  m_signature : option Signature;
  m_timestamp : option Rfc3161Token
}.

Definition SCHEMA_VERSION : Z := 1.

(** The crates the sources call. *)
Class ProvenanceEnv := {
  SigningKey : Type;
  blake3 : bytes -> bytes;
  bao_outboard : bytes -> bytes * bytes;         (** hash and outboard tree *)
  cbor_encode : Manifest -> option bytes;
  cbor_decode : bytes -> option Manifest;
  public_key : SigningKey -> bytes;
  sign : SigningKey -> bytes -> bytes;
  key_ok : bytes -> bool;                        (** [VerifyingKey::from_bytes] *)
  verify_sig : bytes -> bytes -> bytes -> bool   (** key, message, signature *)
}.

Class ProvenanceLaws (E : ProvenanceEnv) := {
  decode_encode : forall m b, cbor_encode m = Some b -> cbor_decode b = Some m;
  bao_root : forall b, (bao_outboard b).1 = blake3 b;
  key_valid : forall k, key_ok (public_key k) = true;
  sign_valid : forall k b, verify_sig (public_key k) b (sign k b) = true
}.

Section provenance.
Context {E : ProvenanceEnv}.

Definition manifest_root_blake3 (files : list FileRecord) : bytes := blake3 (concat (fr_root <$> files)).

Definition rel_leb (a b : FileRecord) : bool := String.leb (fr_rel_path a) (fr_rel_path b).

Definition manifest_new (job_id : string) (src_root dst_root : path) (started_at finished_at : Z)
    (host user freally_version : string) (files : list FileRecord) : Manifest :=
  let files := sort_by rel_leb files in
  {| m_schema_version := SCHEMA_VERSION; m_job_id := job_id; m_src_root := src_root; m_dst_root := dst_root;
     m_started_at := started_at; m_finished_at := finished_at; m_host := host; m_user := user;
     m_freally_version := freally_version; m_merkle_root := manifest_root_blake3 files; m_files := files;
     m_signature := None; m_timestamp := None |}.

Definition with_signature (s : option Signature) (m : Manifest) : Manifest :=
  {| m_schema_version := m_schema_version m; m_job_id := m_job_id m; m_src_root := m_src_root m; m_dst_root := m_dst_root m;
     m_started_at := m_started_at m; m_finished_at := m_finished_at m; m_host := m_host m; m_user := m_user m;
     m_freally_version := m_freally_version m; m_merkle_root := m_merkle_root m; m_files := m_files m;
     m_signature := s; m_timestamp := m_timestamp m |}.

Definition with_timestamp (t : option Rfc3161Token) (m : Manifest) : Manifest :=
  {| m_schema_version := m_schema_version m; m_job_id := m_job_id m; m_src_root := m_src_root m; m_dst_root := m_dst_root m;
     m_started_at := m_started_at m; m_finished_at := m_finished_at m; m_host := m_host m; m_user := m_user m;
     m_freally_version := m_freally_version m; m_merkle_root := m_merkle_root m; m_files := m_files m;
     m_signature := m_signature m; m_timestamp := t |}.

Definition canonical_cbor_bytes (m : Manifest) : result ProvenanceError bytes := ok_or (cbor_encode m) CborSer.

Definition stripped (m : Manifest) : Manifest := with_signature None (with_timestamp None m).

Definition manifest_signing_bytes (m : Manifest) : result ProvenanceError bytes := canonical_cbor_bytes (stripped m).

(** ** Relative paths *)

Inductive Component := RootDir | CurDir | ParentDir | Normal (s : string).

Definition segment (s : string) : option Component :=
  if bool_decide (s = "" \/ s = ".") then None else if String.eqb s ".." then Some ParentDir else Some (Normal s).

(** [Path::components]. *)
Definition components (s : string) : list Component :=
  let segs := split_on "/" s in
  (if starts_with "/" s then [RootDir] else if bool_decide (head segs = Some ".") then [CurDir] else []) ++ omap segment segs.

Definition RESERVED : list string :=
  ["CON"; "PRN"; "AUX"; "NUL"; "COM1"; "COM2"; "COM3"; "COM4"; "COM5"; "COM6"; "COM7"; "COM8"; "COM9";
   "LPT1"; "LPT2"; "LPT3"; "LPT4"; "LPT5"; "LPT6"; "LPT7"; "LPT8"; "LPT9"].

Definition component_ok (c : Component) : bool :=
  match c with
  | Normal s => negb (contains_char (Ascii.ascii_of_N 0) s) && negb (existsb (String.eqb (to_ascii_uppercase (name_stem s))) RESERVED)
  | CurDir => true
  | _ => false
  end.

Definition protocol : ProvenanceError := Classified Protocol.

Definition validate_rel_path (rel : string) : result ProvenanceError unit :=
  if String.eqb rel "" then Err protocol
  else if starts_with "/" rel || starts_with "\" rel then Err protocol
  else if bool_decide (String.get 1 rel = Some ":"%char) then Err protocol
  else if contains_char "\" rel then Err protocol
  else if forallb component_ok (components rel) then Ok tt
  else Err protocol.

Definition is_normal (s : string) : bool := negb (bool_decide (s = "" \/ s = "." \/ s = "..")).

Definition file_name (p : path) : option string :=
  match last p with Some n => if is_normal n then Some n else None | None => None end.

Definition derive_rel_path (src_root src : path) : string :=
  let rel := if path_starts_with src src_root then drop (length src_root) src else [default "?" (file_name src)] in
  match filter (fun s => is_normal s = true) rel with
  | [] => default "?" (file_name src)
  | parts => str_join "/" parts
  end.

(** ** Encoders *)

Record Encoder := { en_bao : bool; en_data : bytes }.

Definition encoder_new (bao : bool) : Encoder := {| en_bao := bao; en_data := [] |}.
Definition encoder_update (e : Encoder) (b : bytes) : Encoder := {| en_bao := en_bao e; en_data := en_data e ++ b |}.
Definition encoder_finalize (e : Encoder) : bytes * bytes :=
  if en_bao e then bao_outboard (en_data e) else (blake3 (en_data e), []).

(** ** The sink *)

Record SinkConfig := {
  c_src_root : path;
  c_dst_root : path;
  c_signing_key : option SigningKey;
  c_tsa_url : option string;
  c_bao_outboards : bool;
  c_host : string;
  c_user : string;
  c_version : string
}.

Record Sink := { sk_config : SinkConfig; sk_files : list FileRecord; sk_started_at : Z }.

Definition sink_new (c : SinkConfig) (now : Z) : Sink := {| sk_config := c; sk_files := []; sk_started_at := now |}.
Definition set_files (l : list FileRecord) (s : Sink) : Sink :=
  {| sk_config := sk_config s; sk_files := l; sk_started_at := sk_started_at s |}.

Definition file_count (s : Sink) : nat := length (sk_files s).
Definition live_merkle_root (s : Sink) : bytes := manifest_root_blake3 (sort_by rel_leb (sk_files s)).

Definition make_encoder (s : Sink) : Encoder := encoder_new (c_bao_outboards (sk_config s)).

Definition record_file (s : Sink) (src dst : path) (size : Z) (root outboard : bytes) : Sink :=
  let rel_path := derive_rel_path (c_src_root (sk_config s)) src in
  match validate_rel_path rel_path with
  | Err _ => s
  | Ok _ => set_files (sk_files s ++ [{| fr_rel_path := rel_path; fr_size := size; fr_root := root; fr_outboard := outboard |}]) s
  end.

(** What [copy_file] does with the sink: the encoder sees every buffer, and
    its result is recorded when the copy has succeeded. *)
Definition record_copy (s : Sink) (c : path * path * list bytes) : Sink :=
  let '(src, dst, buffers) := c in
  let '(root, outboard) := encoder_finalize (foldl encoder_update (make_encoder s) buffers) in
  record_file s src dst (Z.of_nat (length (concat buffers))) root outboard.

(** Both builds: the client of the time-stamping service is still to come. *)
Definition request_timestamp (url : string) (m : Manifest) : result ProvenanceError Rfc3161Token :=
  Err (Classified TsaFeatureDisabled).

(** [std::fs::write] either stores all the bytes or fails, and has then left
    something in the file, or nothing. *)
Definition write_file (fault : option (option bytes)) (p : path) (b : bytes) (d : gmap path bytes) :
    result ProvenanceError unit * gmap path bytes :=
  match fault with
  | None => (Ok tt, <[p := b]> d)
  | Some (Some x) => (Err (Io p), <[p := x]> d)
  | Some None => (Err (Io p), d)
  end.

Definition sign_manifest (key : option SigningKey) (m : Manifest) : result ProvenanceError Manifest :=
  match key with
  | None => Ok m
  | Some k => let? b := manifest_signing_bytes m in
              Ok (with_signature (Some {| sg_public_key := public_key k; sg_sig := sign k b |}) m)
  end.

Definition stamp_manifest (url : option string) (m : Manifest) : result ProvenanceError Manifest :=
  match url with
  | None => Ok m
  | Some u => let? t := request_timestamp u m in Ok (with_timestamp (Some t) m)
  end.

Definition finalize_to_path (s : Sink) (job_id : string) (now : Z) (fault : option (option bytes)) (mp : path) (d : gmap path bytes) :
    result ProvenanceError Manifest * Sink * gmap path bytes :=
  let c := sk_config s in
  let m := manifest_new job_id (c_src_root c) (c_dst_root c) (sk_started_at s) now (c_host c) (c_user c) (c_version c) (sk_files s) in
  let s := set_files [] s in
  match (let? m := sign_manifest (c_signing_key c) m in
         let? m := stamp_manifest (c_tsa_url c) m in
         let? b := canonical_cbor_bytes m in Ok (m, b)) with
  | Err e => (Err e, s, d)
  | Ok (m, b) =>
      match write_file fault mp b d with
      | (Ok _, d) => (Ok m, s, d)
      | (Err e, d) => (Err e, s, d)
      end
  end.

(** ** The verifier *)

Fixpoint validate_all (files : list FileRecord) : result ProvenanceError unit :=
  match files with
  | [] => Ok tt
  | r :: files => let? _ := validate_rel_path (fr_rel_path r) in validate_all files
  end.

Definition parse_manifest_cbor (b : bytes) : result ProvenanceError Manifest :=
  let? m := ok_or (cbor_decode b) CborDe in
  if negb (m_schema_version m =? SCHEMA_VERSION) then Err protocol
  else let? _ := validate_all (m_files m) in Ok m.

Inductive VerificationOutcome := VOk | Tampered (expected actual : bytes) | Missing.

Record VerifyReport := {
  vr_per_file : list (path * VerificationOutcome);
  vr_merkle_root_ok : bool;
  vr_signature_ok : option bool;
  vr_timestamp_ok : option bool;
  vr_ok_count : Z;
  vr_tampered_count : Z;
  vr_missing_count : Z
}.

Definition all_clean (r : VerifyReport) : bool :=
  vr_merkle_root_ok r && negb (bool_decide (vr_signature_ok r = Some false)) &&
  negb (bool_decide (vr_timestamp_ok r = Some false)) && (vr_tampered_count r =? 0) && (vr_missing_count r =? 0).

(** What the operating system answers: an open file is the sequence of its
    reads, each some bytes or an error, an empty read being the end. *)
Context (open_file : path -> option (list (option bytes))).

Fixpoint read_loop (acc : bytes) (reads : list (option bytes)) : option bytes :=
  match reads with
  | [] | Some [] :: _ => Some acc
  | Some b :: reads => read_loop (acc ++ b) reads
  | None :: _ => None
  end.

Definition read_path (p : path) : option bytes := match open_file p with Some reads => read_loop [] reads | None => None end.

Definition verify_one (p : path) (r : FileRecord) : VerificationOutcome :=
  match read_path p with
  | Some b => if bool_decide (blake3 b = fr_root r) then VOk else Tampered (fr_root r) (blake3 b)
  | None => Missing
  end.

Definition check_signature (m : Manifest) (expected : option bytes) : result ProvenanceError (option bool) :=
  match m_signature m with
  | None => Ok None
  | Some s =>
      if match expected with Some k => negb (bool_decide (k = sg_public_key s)) | None => false end then Ok (Some false)
      else if negb (key_ok (sg_public_key s)) then Err Ed25519Key
      else let? b := manifest_signing_bytes m in Ok (Some (verify_sig (sg_public_key s) b (sg_sig s)))
  end.

(** Both builds: a token that is there cannot be verified. *)
Definition check_timestamp (m : Manifest) : option bool :=
  match m_timestamp m with Some _ => Some false | None => None end.

(** [PathBuf::from] of a relative path, as components. *)
Definition rel_to_native (rel : string) : path :=
  omap (fun c => match c with Normal s => Some s | ParentDir => Some ".." | _ => None end) (components rel).

Definition count_of (f : VerificationOutcome -> bool) (l : list (path * VerificationOutcome)) : Z :=
  Z.of_nat (length (filter (fun x => f x.2 = true) l)).

Definition is_ok (o : VerificationOutcome) : bool := match o with VOk => true | _ => false end.
Definition is_tampered (o : VerificationOutcome) : bool := match o with Tampered _ _ => true | _ => false end.
Definition is_missing (o : VerificationOutcome) : bool := match o with Missing => true | _ => false end.

Definition verify_manifest (mp : path) (expected : option bytes) : result ProvenanceError VerifyReport :=
  let? b := ok_or (read_path mp) (Io mp) in
  let? m := parse_manifest_cbor b in
  let merkle_root_ok := bool_decide (m_merkle_root m = manifest_root_blake3 (m_files m)) in
  let? signature_ok := check_signature m expected in
  let timestamp_ok := check_timestamp m in
  let per_file := (fun r => let dst := m_dst_root m ++ rel_to_native (fr_rel_path r) in (dst, verify_one dst r)) <$> m_files m in
  Ok {| vr_per_file := per_file; vr_merkle_root_ok := merkle_root_ok; vr_signature_ok := signature_ok;
        vr_timestamp_ok := timestamp_ok; vr_ok_count := count_of is_ok per_file;
        vr_tampered_count := count_of is_tampered per_file; vr_missing_count := count_of is_missing per_file |}.

Definition report_to_classified_error (r : VerifyReport) : option ProvenanceError :=
  if negb (vr_merkle_root_ok r) then Some (Classified MerkleMismatch)
  else if bool_decide (vr_signature_ok r = Some false) then Some (Classified BadSignature)
  else if bool_decide (vr_timestamp_ok r = Some false) then Some (Classified BadTimestamp)
  else if 0 <? vr_tampered_count r then Some (Classified KTampered)
  else if 0 <? vr_missing_count r then Some (Classified KMissing)
  else None.

(** [freally provenance verify]: the exit code; [trusted] is the key file of
    the command line, [Some None] when it cannot be read. *)
Inductive ExitCode := Success | VerifyFailed | ConfigInvalid.

Definition cli_verify (mp : path) (trusted : option (option bytes)) : ExitCode :=
  match trusted with
  | Some None => ConfigInvalid
  | _ =>
      match verify_manifest mp (mjoin trusted) with
      | Err _ => ConfigInvalid
      | Ok r => if all_clean r then Success else VerifyFailed
      end
  end.
End provenance.

(** * What a clean verification report means

    A manifest that the sink has written verifies against the tree it
    describes, and a clean report with a trusted signature means that every
    recorded file still holds the bytes that were copied, up to a collision. *)

Section proof.
Context {E : ProvenanceEnv} {L : ProvenanceLaws E}.

(** ** What is recorded *)

Lemma foldl_update buffers : forall e, foldl encoder_update e buffers = {| en_bao := en_bao e; en_data := en_data e ++ concat buffers |}.
Proof.
  induction buffers as [|b buffers IH]; intros [bao data]; simpl; [by rewrite app_nil_r|].
  rewrite IH. unfold encoder_update. simpl. by rewrite <- app_assoc.
Qed.

Lemma encoder_root e : (encoder_finalize e).1 = blake3 (en_data e).
Proof using L. unfold encoder_finalize. destruct (en_bao e); [apply bao_root|done]. Qed.

(** The record of a copy, if its path is acceptable. *)
Definition recorded (c : SinkConfig) (x : path * path * list bytes) : option FileRecord :=
  let '(src, dst, buffers) := x in
  let rel := derive_rel_path (c_src_root c) src in
  let '(root, outboard) := encoder_finalize {| en_bao := c_bao_outboards c; en_data := concat buffers |} in
  match validate_rel_path rel with
  | Ok _ => Some {| fr_rel_path := rel; fr_size := Z.of_nat (length (concat buffers)); fr_root := root; fr_outboard := outboard |}
  | Err _ => None
  end.

Lemma foldl_record_copy cs : forall s,
  foldl record_copy s cs = set_files (sk_files s ++ omap (recorded (sk_config s)) cs) s.
Proof.
  induction cs as [|[[src dst] buffers] cs IH]; intros s; simpl.
  { rewrite app_nil_r. by destruct s. }
  rewrite foldl_update. simpl. destruct (encoder_finalize _) as [root outboard]. rewrite IH.
  unfold record_file. destruct (validate_rel_path _); simpl; [|done]. unfold set_files. simpl. f_equal. by rewrite <- app_assoc.
Qed.

Lemma recorded_valid c x r : recorded c x = Some r -> validate_rel_path (fr_rel_path r) = Ok tt.
Proof.
  destruct x as [[src dst] buffers]. simpl. destruct (encoder_finalize _) as [root outboard].
  destruct (validate_rel_path _) as [[]|] eqn:Hv; [|done]. intros [= <-]. done.
Qed.

Lemma recorded_root c src dst buffers r : recorded c (src, dst, buffers) = Some r ->
  fr_root r = blake3 (concat buffers) /\ fr_rel_path r = derive_rel_path (c_src_root c) src.
Proof using L.
  simpl. pose proof (encoder_root {| en_bao := c_bao_outboards c; en_data := concat buffers |}) as Hr.
  destruct (encoder_finalize _) as [root outboard]. simpl in Hr. destruct (validate_rel_path _); [|done]. by intros [= <-].
Qed.

Lemma validate_all_ok files : validate_all files = Ok tt <-> Forall (fun r => validate_rel_path (fr_rel_path r) = Ok tt) files.
Proof.
  induction files as [|r files IH]; simpl; [done|]. rewrite Forall_cons, <- IH.
  destruct (validate_rel_path (fr_rel_path r)) as [[]|e]; simpl; [tauto|]. split; [done|]. by intros [? _].
Qed.

(** ** Finalising *)

Definition fresh_manifest (s : Sink) (job_id : string) (now : Z) : Manifest :=
  let c := sk_config s in
  manifest_new job_id (c_src_root c) (c_dst_root c) (sk_started_at s) now (c_host c) (c_user c) (c_version c) (sk_files s).

Lemma finalize_ok s job_id now fault mp d m s' d' : finalize_to_path s job_id now fault mp d = (Ok m, s', d') ->
  let m0 := fresh_manifest s job_id now in
  exists b, cbor_encode m = Some b /\ d' = <[mp := b]> d /\ sk_files s' = [] /\
    match c_signing_key (sk_config s) with
    | None => m = m0
    | Some k => exists b0, manifest_signing_bytes m0 = Ok b0 /\
        m = with_signature (Some {| sg_public_key := public_key k; sg_sig := sign k b0 |}) m0
    end.
Proof.
  unfold finalize_to_path, sign_manifest, stamp_manifest, request_timestamp. cbv zeta.
  fold (fresh_manifest s job_id now). set (m0 := fresh_manifest s job_id now).
  assert (Hwrite : forall x, match (let? b := canonical_cbor_bytes x in Ok (x, b)) with
      | Err e => (Err e, set_files [] s, d)
      | Ok (m, b) => match write_file fault mp b d with (Ok _, d) => (Ok m, set_files [] s, d) | (Err e, d) => (Err e, set_files [] s, d) end
      end = (Ok m, s', d') -> x = m /\ exists b, cbor_encode m = Some b /\ d' = <[mp := b]> d /\ sk_files s' = []).
  { intros x. unfold canonical_cbor_bytes, ok_or. destruct (cbor_encode x) as [b|] eqn:Hb; [|done]. simpl.
    destruct fault as [[y|]|]; simpl; [done|done|]. intros [= <- <- <-]. split; [done|]. by exists b. }
  destruct (c_signing_key (sk_config s)) as [k|]; destruct (c_tsa_url (sk_config s)) as [u|]; simpl.
  - by destruct (manifest_signing_bytes m0).
  - destruct (manifest_signing_bytes m0) as [b0|] eqn:Hb0; [|done]. simpl. intros H.
    apply Hwrite in H as [<- (b & Hb & Hd & Hs)]. exists b. split_and!; [done..|]. by exists b0.
  - done.
  - intros H. apply Hwrite in H as [<- (b & Hb & Hd & Hs)]. by exists b.
Qed.

Lemma signed_shape s job_id now fault mp d m s' d' : finalize_to_path s job_id now fault mp d = (Ok m, s', d') ->
  stripped m = fresh_manifest s job_id now /\ m_timestamp m = None /\ m_files m = sort_by rel_leb (sk_files s) /\
  m_dst_root m = c_dst_root (sk_config s) /\ m_schema_version m = SCHEMA_VERSION /\ m_merkle_root m = manifest_root_blake3 (m_files m).
Proof.
  intros H. apply finalize_ok in H as (b & _ & _ & _ & H).
  destruct (c_signing_key (sk_config s)) as [k|]; [destruct H as (b0 & _ & ->)|subst m]; done.
Qed.

Lemma finalize_signs s job_id now fault mp d m s' d' : finalize_to_path s job_id now fault mp d = (Ok m, s', d') ->
  check_signature m None = Ok ((fun _ => true) <$> c_signing_key (sk_config s)).
Proof using L.
  intros H. pose proof (signed_shape _ _ _ _ _ _ _ _ _ H) as (Hs & _). apply finalize_ok in H as (b & _ & _ & _ & H).
  destruct (c_signing_key (sk_config s)) as [k|]; [destruct H as (b0 & Hb0 & Hm)|subst m; done].
  unfold check_signature. rewrite Hm. simpl. rewrite key_valid. simpl. rewrite <- Hm. unfold manifest_signing_bytes in *.
  rewrite Hs. change (canonical_cbor_bytes (fresh_manifest s job_id now)) with (manifest_signing_bytes (fresh_manifest s job_id now)).
  unfold manifest_signing_bytes. rewrite Hb0. simpl. by rewrite sign_valid.
Qed.

(** ** Verifying *)

Context (open_file : path -> option (list (option bytes))).

Lemma verify_one_ok p r : verify_one open_file p r = VOk <-> exists b, read_path open_file p = Some b /\ blake3 b = fr_root r.
Proof.
  unfold verify_one. destruct (read_path open_file p) as [b|]; [|by split; [|intros (b & ? & _)]].
  case_bool_decide as Hb; split; try done; [intros _; by exists b|]. by intros (x & [= <-] & Hx).
Qed.

Lemma counts_total l : Forall (fun x : path * VerificationOutcome => x.2 = VOk) l <-> count_of is_tampered l = 0 /\ count_of is_missing l = 0.
Proof.
  unfold count_of. induction l as [|[p o] l IH]; [done|]. rewrite Forall_cons, IH, !filter_cons. simpl.
  destruct o; simpl; repeat case_decide; try done; simpl; split; try (intros [? ?]); try done; lia.
Qed.

Lemma all_ok_count l : Forall (fun x : path * VerificationOutcome => x.2 = VOk) l -> count_of is_ok l = Z.of_nat (length l).
Proof.
  unfold count_of. induction 1 as [|[p o] l Ho _ IH]; [done|]. rewrite filter_cons. simpl in *. subst o. simpl. lia.
Qed.

Definition place (m : Manifest) (r : FileRecord) : path := m_dst_root m ++ rel_to_native (fr_rel_path r).

(** A clean report, taken apart. *)
Lemma clean_report mp expected rep : verify_manifest open_file mp expected = Ok rep -> all_clean rep = true ->
  exists b m, read_path open_file mp = Some b /\ parse_manifest_cbor b = Ok m /\
    m_merkle_root m = manifest_root_blake3 (m_files m) /\ check_signature m expected = Ok (vr_signature_ok rep) /\
    vr_per_file rep = (fun r => (place m r, VOk)) <$> m_files m /\
    forall r, r ∈ m_files m -> exists x, read_path open_file (place m r) = Some x /\ blake3 x = fr_root r.
Proof.
  unfold verify_manifest. destruct (read_path open_file mp) as [b|]; [|done]. simpl.
  destruct (parse_manifest_cbor b) as [m|] eqn:Hp; [|done]. simpl.
  destruct (check_signature m expected) as [sg|] eqn:Hs; [|done]. simpl. intros [= <-]. unfold all_clean. simpl.
  rewrite !andb_true_iff. intros ((((Hm & _) & _) & Ht) & Hmi). apply Z.eqb_eq in Ht, Hmi. apply bool_decide_eq_true in Hm.
  exists b, m. pose proof (proj2 (counts_total _) (conj Ht Hmi)) as Hall.
  assert (Hone : forall r, r ∈ m_files m -> verify_one open_file (place m r) r = VOk).
  { intros r Hr. rewrite Forall_fmap, Forall_forall in Hall. by apply Hall. }
  split_and!; [done..| |].
  - apply list_fmap_ext. intros i r Hr. f_equal. apply Hone. by apply list_elem_of_lookup_2 in Hr.
  - intros r Hr. by apply verify_one_ok, Hone.
Qed.

(** Acceptable relative paths lead nowhere but down. *)
Lemma rel_to_native_down rel : validate_rel_path rel = Ok tt -> ".." ∉ rel_to_native rel.
Proof.
  unfold validate_rel_path. repeat case_match; try done. intros _ Hin. unfold rel_to_native in Hin.
  apply list_elem_of_omap in Hin as (c & Hc & Hs).
  assert (Hok : component_ok c = true).
  { match goal with H : forallb component_ok _ = true |- _ => rewrite forallb_forall in H; apply H end. by apply list_elem_of_In. }
  destruct c as [| | |s]; try done. injection Hs as ->. unfold components in Hc.
  apply elem_of_app in Hc as [Hc|Hc].
  - destruct (starts_with "/" rel); [|case_bool_decide]; apply list_elem_of_In in Hc; simpl in Hc; intuition done.
  - apply list_elem_of_omap in Hc as (x & _ & Hx). unfold segment in Hx. case_bool_decide; [done|].
    destruct (String.eqb_spec x ".."); [done|]. by injection Hx.
Qed.
End proof.

(** C21: a manifest that the sink has written for the copies it was told of
    verifies clean against a tree that holds the copied bytes, and its
    signature counts as valid when the sink had a key, also when that key is
    the one the caller trusts. *)
Theorem finalized_manifest_verifies {E : ProvenanceEnv} {L : ProvenanceLaws E} open_file cfg started cs job_id now mp d m s' d' expected :
  finalize_to_path (foldl record_copy (sink_new cfg started) cs) job_id now None mp d = (Ok m, s', d') ->
  match c_signing_key cfg, expected with Some k, Some e => e = public_key k | _, _ => True end ->
  read_path open_file mp = d' !! mp ->
  (forall src dst buffers r, (src, dst, buffers) ∈ cs -> recorded cfg (src, dst, buffers) = Some r ->
     read_path open_file (c_dst_root cfg ++ rel_to_native (fr_rel_path r)) = Some (concat buffers)) ->
  exists rep, verify_manifest open_file mp expected = Ok rep /\ all_clean rep = true /\
    vr_signature_ok rep = (fun _ => true) <$> c_signing_key cfg /\
    vr_ok_count rep = Z.of_nat (length (omap (recorded cfg) cs)).
Proof.
  rewrite foldl_record_copy. simpl. set (s := set_files _ _). intros Hfin Hexp Hmp Htree.
  pose proof (signed_shape _ _ _ _ _ _ _ _ _ Hfin) as (_ & Ht & Hfiles & Hroot & Hver & Hmerkle).
  pose proof (finalize_signs _ _ _ _ _ _ _ _ _ Hfin) as Hsig. apply finalize_ok in Hfin as (b & Hb & -> & _ & Hm).
  simpl in Hroot, Hsig, Hm. rewrite lookup_insert_eq in Hmp.
  assert (Hrec : forall r, r ∈ m_files m -> exists x, x ∈ cs /\ recorded cfg x = Some r).
  { intros r Hr. rewrite Hfiles in Hr. apply elem_of_sort_by in Hr. by apply list_elem_of_omap in Hr. }
  assert (Hparse : parse_manifest_cbor b = Ok m).
  { unfold parse_manifest_cbor, ok_or. rewrite (decode_encode m b Hb). simpl. rewrite Hver. simpl.
    rewrite (proj2 (validate_all_ok (m_files m))); [done|]. apply Forall_forall. intros r Hr.
    destruct (Hrec r Hr) as (x & _ & Hx). by eapply recorded_valid. }
  assert (Hsig' : check_signature m expected = Ok ((fun _ => true) <$> c_signing_key cfg)).
  { rewrite <- Hsig. unfold check_signature. destruct (m_signature m) as [sg|] eqn:Hsg; [|done].
    destruct expected as [e|]; [|done]. destruct (c_signing_key cfg) as [k|]; [|by subst m].
    destruct Hm as (b0 & _ & ->). simpl in Hsg. injection Hsg as <-. simpl. rewrite bool_decide_eq_true_2 by done. done. }
  unfold verify_manifest, ok_or. rewrite Hmp. simpl. rewrite Hparse. simpl. rewrite Hsig'. simpl. eexists. split; [done|].
  set (per := (fun r => _) <$> m_files m).
  assert (Hall : Forall (fun x : path * VerificationOutcome => x.2 = VOk) per).
  { unfold per. rewrite Forall_fmap. apply Forall_forall. intros r Hr. simpl. apply verify_one_ok.
    destruct (Hrec r Hr) as ([[src dst] buffers] & Hin & Hx). exists (concat buffers). rewrite Hroot.
    split; [by eapply Htree|]. symmetry. by apply (recorded_root cfg src dst). }
  split_and!; [|done|].
  - unfold all_clean. simpl. unfold check_timestamp. rewrite Ht, <- Hmerkle, bool_decide_eq_true_2 by done.
    apply counts_total in Hall as [-> ->]. by destruct (c_signing_key cfg).
  - simpl. rewrite all_ok_count by done. unfold per. rewrite length_fmap, Hfiles, sort_by_perm. done.
Qed.

(** C20: whatever an adversary has put in place of the manifest and of the
    files, if the verifier, told which key to trust, reports everything clean
    and the signature valid, and that signature is one the key's owner made
    for this manifest, then every copy that was recorded reads back as the
    bytes that were copied or exhibits a collision of the digest, and nothing
    outside the recorded root was read. *)
Theorem clean_signed_report_means_unchanged {E : ProvenanceEnv} {L : ProvenanceLaws E} open_file cfg k started cs job_id now mp d m s' d' evil rep :
  c_signing_key cfg = Some k ->
  finalize_to_path (foldl record_copy (sink_new cfg started) cs) job_id now None mp d = (Ok m, s', d') ->
  verify_manifest open_file evil (Some (public_key k)) = Ok rep -> all_clean rep = true -> vr_signature_ok rep = Some true ->
  (forall b m' sg c, read_path open_file evil = Some b -> parse_manifest_cbor b = Ok m' -> m_signature m' = Some sg ->
     manifest_signing_bytes m' = Ok c -> verify_sig (public_key k) c (sg_sig sg) = true -> manifest_signing_bytes m = Ok c) ->
  (forall src dst buffers r, (src, dst, buffers) ∈ cs -> recorded cfg (src, dst, buffers) = Some r ->
     exists x, read_path open_file (c_dst_root cfg ++ rel_to_native (fr_rel_path r)) = Some x /\
       (x = concat buffers \/ x <> concat buffers /\ blake3 x = blake3 (concat buffers))) /\
  Forall (fun x => exists l, x.1 = c_dst_root cfg ++ l /\ ".." ∉ l) (vr_per_file rep).
Proof.
  intros Hk Hfin Hver Hclean Hsig Hhonest. rewrite foldl_record_copy in Hfin. simpl in Hfin.
  pose proof (signed_shape _ _ _ _ _ _ _ _ _ Hfin) as (_ & _ & Hfiles & Hroot & _ & _). simpl in Hroot, Hfiles.
  apply (clean_report open_file) in Hver as (b & m' & Hb & Hparse & _ & Hcs & Hper & Hread); [|done]. rewrite Hsig in Hcs.
  assert (Hsame : stripped m' = stripped m).
  { unfold check_signature in Hcs. destruct (m_signature m') as [sg|] eqn:Hsg; [|done].
    case_bool_decide as Heq; simpl in Hcs; [|done]. rewrite <- Heq in Hcs. destruct (key_ok _); [|done]. simpl in Hcs.
    destruct (manifest_signing_bytes m') as [c|] eqn:Hc; [|done]. simpl in Hcs. injection Hcs as Hv.
    specialize (Hhonest _ _ _ _ Hb Hparse Hsg Hc Hv). unfold manifest_signing_bytes, canonical_cbor_bytes, ok_or in Hc, Hhonest.
    destruct (cbor_encode (stripped m')) as [c1|] eqn:E1; [|done]. destruct (cbor_encode (stripped m)) as [c2|] eqn:E2; [|done].
    apply decode_encode in E1, E2. congruence. }
  assert (Hf : m_files m' = m_files m) by apply (f_equal m_files Hsame).
  assert (Hr : m_dst_root m' = c_dst_root cfg) by (rewrite <- Hroot; apply (f_equal m_dst_root Hsame)). split.
  - intros src dst buffers r Hin Hrec. destruct (Hread r) as (x & Hx & Hh).
    { rewrite Hf, Hfiles. apply elem_of_sort_by, list_elem_of_omap. by exists (src, dst, buffers). }
    exists x. unfold place in Hx. rewrite Hr in Hx. split; [done|]. destruct (recorded_root _ _ _ _ _ Hrec) as [Hroot' _].
    destruct (decide (x = concat buffers)) as [|Hne]; [by left|right]. split; [done|congruence].
  - rewrite Hper, Forall_fmap. apply Forall_forall. intros r Hin. simpl. unfold place. rewrite Hr.
    eexists. split; [done|]. apply rel_to_native_down. unfold parse_manifest_cbor in Hparse.
    destruct (ok_or _ _) as [m2|]; [|done]. simpl in Hparse. destruct (negb _); [done|].
    destruct (validate_all (m_files m2)) as [[]|] eqn:Hva; [|done]. simpl in Hparse. injection Hparse as ->.
    apply validate_all_ok in Hva. rewrite Forall_forall in Hva. by apply Hva.
Qed.

(** * Provenance manifests: a concrete world

    Instances of the crates the sources call, a job of two copies that is
    recorded, signed and verified, and what the recording and the verification
    do that their comments exclude. *)

(** ** The crates *)

#[export] Instance filerecord_eq_dec : EqDecision FileRecord.
Proof. solve_decision. Defined.
#[export] Instance signature_eq_dec : EqDecision Signature.
Proof. solve_decision. Defined.
#[export] Instance token_eq_dec : EqDecision Rfc3161Token.
Proof. solve_decision. Defined.
#[export] Instance provenance_manifest_eq_dec : EqDecision Provenance.Manifest.
Proof. solve_decision. Defined.

#[export] Instance filerecord_countable : Countable FileRecord.
Proof.
  by refine (inj_countable' (fun r => ((fr_rel_path r, fr_size r), (fr_root r, fr_outboard r)))
    (fun '((p, n), (h, o)) => {| fr_rel_path := p; fr_size := n; fr_root := h; fr_outboard := o |}) _); intros [].
Defined.
#[export] Instance signature_countable : Countable Signature.
Proof.
  by refine (inj_countable' (fun s => (sg_public_key s, sg_sig s)) (fun '(k, s) => {| sg_public_key := k; sg_sig := s |}) _); intros [].
Defined.
#[export] Instance token_countable : Countable Rfc3161Token.
Proof.
  by refine (inj_countable' (fun t => (tk_url t, tk_der t, tk_stamped_at t))
    (fun '(u, d, s) => {| tk_url := u; tk_der := d; tk_stamped_at := s |}) _); intros [].
Defined.
#[export] Instance provenance_manifest_countable : Countable Provenance.Manifest.
Proof.
  by refine (inj_countable' (fun m => ((m_schema_version m, m_job_id m, (m_src_root m, m_dst_root m)),
      ((m_started_at m, m_finished_at m), (m_host m, m_user m)),
      ((m_freally_version m, m_merkle_root m), (m_files m, m_signature m, m_timestamp m))))
    (fun '((v, j, (sr, dr)), ((st, fi), (h, u)), ((ve, mr), (fs, sg, ts))) =>
      {| m_schema_version := v; m_job_id := j; m_src_root := sr; m_dst_root := dr; m_started_at := st; m_finished_at := fi;
         m_host := h; m_user := u; m_freally_version := ve; m_merkle_root := mr; m_files := fs; m_signature := sg;
         m_timestamp := ts |}) _); intros [].
Defined.

(** The digest keeps everything, a signature is the key and the message. *)
#[export] Instance demo_crates : ProvenanceEnv := {|
  SigningKey := bytes;
  blake3 b := b;
  bao_outboard b := (b, [Byte.x07]);
  cbor_encode m := Some (pos_bytes (countable.encode m));
  cbor_decode b := countable.decode (bytes_pos b);
  public_key k := k;
  sign k b := k ++ b;
  key_ok _ := true;
  verify_sig k b s := bool_decide (s = k ++ b)
|}.

#[export] Instance demo_crate_laws : ProvenanceLaws demo_crates.
Proof.
  split; simpl.
  - intros m b [= <-]. by rewrite bytes_pos_bytes, countable.decode_encode.
  - done.
  - done.
  - intros k b. by apply bool_decide_eq_true_2.
Qed.

(** ** A job *)

Definition job_key : bytes := [Byte.x0b].
Definition job_config (key : option bytes) : SinkConfig := {|
  c_src_root := ["src"]; c_dst_root := ["dst"]; c_signing_key := key; c_tsa_url := None; c_bao_outboards := true;
  c_host := "h"; c_user := "u"; c_version := "1"
|}.
Definition job_copies : list (path * path * list bytes) :=
  [(["src"; "b"; "y"], ["dst"; "b"; "y"], [text "be"; text "ta"]); (["src"; "a"], ["dst"; "a"], [text "alpha"])].

Definition job_sink (key : option bytes) : Sink := foldl record_copy (sink_new (job_config key) 5) job_copies.
Definition manifest_path : path := ["dst"; ".freally-provenance.cbor"].
Definition job_end (key : option bytes) := finalize_to_path (job_sink key) "id" 9 None manifest_path ∅.

Definition job_manifest (key : option bytes) : Provenance.Manifest :=
  match (job_end key).1.1 with Ok m => m | Err _ => manifest_new "" [] [] 0 0 "" "" "" [] end.

(** The tree with the manifest, one read per file. *)
Definition job_files (key : option bytes) (p : path) : option (list (option bytes)) :=
  if bool_decide (p = manifest_path) then Some [(job_end key).2 !! manifest_path]
  else if bool_decide (p = ["dst"; "a"]) then Some [Some (text "al"); Some (text "pha"); Some []]
  else if bool_decide (p = ["dst"; "b"; "y"]) then Some [Some (text "beta")]
  else None.

Example job_paths : fr_rel_path <$> m_files (job_manifest None) = ["a"; "b/y"].
Proof. vm_compute. reflexivity. Qed.

Lemma job_ended key : job_end key = (Ok (job_manifest key), (job_end key).1.2, (job_end key).2).
Proof. by destruct key. Qed.

Lemma job_reads key src dst buffers r : (src, dst, buffers) ∈ job_copies -> recorded (job_config key) (src, dst, buffers) = Some r ->
  read_path (job_files key) (["dst"] ++ rel_to_native (fr_rel_path r)) = Some (concat buffers).
Proof.
  intros Hin Hr. repeat (apply elem_of_cons in Hin as [Hin|Hin]); [| |by apply not_elem_of_nil in Hin];
    injection Hin as -> -> ->; vm_compute in Hr; injection Hr as <-; vm_compute; reflexivity.
Qed.

Lemma job_manifest_reads key : read_path (job_files key) manifest_path = (job_end key).2 !! manifest_path.
Proof.
  unfold read_path, job_files. rewrite bool_decide_eq_true_2 by done.
  by destruct ((job_end key).2 !! manifest_path) as [[|b l]|].
Qed.

Lemma finalized_manifest_verifies_witness :
  exists rep, verify_manifest (job_files (Some job_key)) manifest_path (Some job_key) = Ok rep /\ all_clean rep = true /\
    vr_signature_ok rep = Some true /\ vr_ok_count rep = 2.
Proof.
  destruct (finalized_manifest_verifies (job_files (Some job_key)) (job_config (Some job_key)) 5 job_copies "id" 9 manifest_path ∅ _ _ _
    (Some job_key) (job_ended (Some job_key)) eq_refl (job_manifest_reads _) (job_reads _)) as (rep & H1 & H2 & H3 & H4).
  exists rep. split_and!; [exact H1|exact H2|exact H3|exact H4].
Defined.

Example job_verifies : match verify_manifest (job_files (Some job_key)) manifest_path (Some job_key) with
  Ok rep => (all_clean rep, vr_signature_ok rep) | Err _ => (false, None) end = (true, Some true).
Proof. vm_compute. reflexivity. Qed.

Lemma clean_signed_report_means_unchanged_witness :
  exists x, read_path (job_files (Some job_key)) ["dst"; "a"] = Some x /\ (x = text "alpha" \/ x <> text "alpha" /\ x = text "alpha").
Proof.
  pose proof job_verifies as Hrep. destruct (verify_manifest _ _ _) as [rep|] eqn:Hv; [|done]. injection Hrep as Hc Hs.
  assert (Hhonest : forall b m' sg c, read_path (job_files (Some job_key)) manifest_path = Some b ->
    parse_manifest_cbor b = Ok m' -> m_signature m' = Some sg -> manifest_signing_bytes m' = Ok c ->
    verify_sig (public_key job_key) c (sg_sig sg) = true -> manifest_signing_bytes (job_manifest (Some job_key)) = Ok c).
  { intros b m' sg c Hb Hp _ Hsb _. rewrite job_manifest_reads in Hb.
    destruct (finalize_ok _ _ _ _ _ _ _ _ _ (job_ended (Some job_key))) as (b2 & Hb2 & Hd & _).
    rewrite Hd, lookup_insert_eq in Hb. injection Hb as <-. unfold parse_manifest_cbor, ok_or in Hp.
    rewrite (decode_encode _ _ Hb2) in Hp. simpl in Hp. by injection Hp as <-. }
  destruct (clean_signed_report_means_unchanged (job_files (Some job_key)) (job_config (Some job_key)) job_key 5 job_copies "id" 9 manifest_path ∅
    _ _ _ manifest_path rep eq_refl (job_ended (Some job_key)) Hv Hc Hs Hhonest) as [H _].
  destruct (H ["src"; "a"] ["dst"; "a"] [text "alpha"] _ ltac:(right; left) eq_refl) as (x & Hx & Hor). exists x. split; [exact Hx|exact Hor].
Defined.

(** ** What differs from the comments *)

(** A trusted key does not make an unsigned manifest fail: who strips the
    signature (and rewrites the records) gets a clean report under any key. *)
Lemma unsigned_manifest_passes_any_trusted_key {E : ProvenanceEnv} m k :
  m_signature m = None -> check_signature m (Some k) = Ok None.
Proof. unfold check_signature. by intros ->. Qed.

Example unsigned_job_is_clean_under_a_trusted_key :
  match verify_manifest (job_files None) manifest_path (Some job_key) with Ok rep => all_clean rep | Err _ => false end = true /\
  cli_verify (job_files None) manifest_path (Some (Some job_key)) = Success.
Proof. split; vm_compute; reflexivity. Qed.

(** Finalising takes the records out of the sink: a second call, or the call
    after one that failed, writes a manifest of no files. *)
Lemma finalize_drains {E : ProvenanceEnv} s job_id now fault mp d : sk_files (finalize_to_path s job_id now fault mp d).1.2 = [].
Proof.
  unfold finalize_to_path. destruct (let? m := _ in _) as [[m b]|e]; [|done]. by destruct (write_file fault mp b d) as [[]].
Qed.

Lemma second_manifest_is_empty {E : ProvenanceEnv} s job_id now fault mp d id2 now2 mp2 d2 m2 s2 d3 :
  finalize_to_path (finalize_to_path s job_id now fault mp d).1.2 id2 now2 None mp2 d2 = (Ok m2, s2, d3) -> m_files m2 = [].
Proof.
  intros H. apply signed_shape in H as (_ & _ & -> & _). by rewrite finalize_drains.
Qed.

(** Asking for a time stamp always fails, and the records are lost. *)
Lemma time_stamp_always_fails {E : ProvenanceEnv} s job_id now fault mp d u : c_tsa_url (sk_config s) = Some u ->
  exists e, finalize_to_path s job_id now fault mp d = (Err e, set_files [] s, d).
Proof.
  intros Hu. unfold finalize_to_path. rewrite Hu. unfold sign_manifest, stamp_manifest.
  destruct (c_signing_key (sk_config s)); [|by eexists]. destruct (manifest_signing_bytes _); by eexists.
Qed.

(** The record names the source: a copy that arrived under another name is
    looked for at the old one. *)
Lemma record_ignores_the_destination {E : ProvenanceEnv} s src dst dst' size root outboard :
  record_file s src dst size root outboard = record_file s src dst' size root outboard.
Proof. done. Qed.

(** Files whose names Windows reserves are copied and not recorded. *)
Example reserved_name_is_not_recorded :
  sk_files (record_copy (job_sink None) (["src"; "aux.c"], ["dst"; "aux.c"], [text "x"])) = sk_files (job_sink None).
Proof. vm_compute. reflexivity. Qed.

(** [derive_rel_path] can return what [validate_rel_path] rejects. *)
Example derived_path_is_rejected : validate_rel_path (derive_rel_path ["src"] ["src"; "com1"]) = Err protocol.
Proof. vm_compute. reflexivity. Qed.
