(* ===== verification/Sidecar.v ===== *)
(** * Hash sidecars ([freally-hash/src/sidecar.rs])

    The lines [<hex>  <path>] of a sidecar file: the check on the paths, what is
    written, and the parser.  Paths are Unix paths, as bytes; the calls that store
    the file are not modelled, only what they store. *)
From S2P Require Import Prelude.
From S2P Require Import Text.
From S2P Require Import TextSearch.
From S2P Require Import Files.
From S2P Require Import AuditFormat.
From S2P Require Import Provenance.
From S2P Require Import Hash.
From stdpp Require Import options.

(** ** Entries *)

Record SidecarEntry := { hex_digest : string; relative_path : string }.

(** [char::is_whitespace], as UTF-8. *)
Definition utf8 (l : list N) : string := foldr (fun n s => String (ascii_of_N n) s) "" l.

Definition WHITESPACE : list string :=
  map utf8 [[9]; [10]; [11]; [12]; [13]; [32]; [194; 133]; [194; 160]; [225; 154; 128]; [226; 128; 128]; [226; 128; 129];
    [226; 128; 130]; [226; 128; 131]; [226; 128; 132]; [226; 128; 133]; [226; 128; 134]; [226; 128; 135]; [226; 128; 136];
    [226; 128; 137]; [226; 128; 138]; [226; 128; 168]; [226; 128; 169]; [226; 128; 175]; [226; 129; 159]; [227; 128; 128]]%N.

(** What follows one white space character at the start of a text. *)
Definition strip_ws (s : string) : option string := head (omap (fun w => str_strip_prefix w s) WHITESPACE).

(** The text before the first white space and the text after it. *)
Fixpoint split_ws (s : string) : option (string * string) :=
  match strip_ws s with
  | Some rest => Some (EmptyString, rest)
  | None => match s with
            | EmptyString => None
            | String a s' => match split_ws s' with Some (l, r) => Some (String a l, r) | None => None end
            end
  end.

Fixpoint trim_start_fuel (fuel : nat) (s : string) : string :=
  match fuel with
  | O => s
  | S fuel => match strip_ws s with Some rest => trim_start_fuel fuel rest | None => s end
  end.

Definition trim_start (s : string) : string := trim_start_fuel (String.length s) s.

Fixpoint trim_end (p : ascii -> bool) (s : string) : string :=
  match s with
  | EmptyString => EmptyString
  | String a s' => match trim_end p s' with
                   | EmptyString => if p a then EmptyString else String a EmptyString
                   | t => String a t
                   end
  end.

(** ** Writing *)

(** [to_string_lossy] over the bytes of a Unix path: a sequence that is no
    UTF-8 becomes U+FFFD, up to the first byte that does not belong to it. *)
Definition REPLACEMENT : string := utf8 [239; 191; 189]%N.

Definition continues (c : ascii) : bool := ascii_in 128 191 c.

Definition lead_width (a : ascii) : nat :=
  if ascii_in 0 127 a then 1
  else if ascii_in 194 223 a then 2
  else if ascii_in 224 239 a then 3
  else if ascii_in 240 244 a then 4
  else 0.

(** What may follow the lead byte. *)
Definition second_ok (a b : ascii) : bool :=
  match N_of_ascii a with
  | 224%N => ascii_in 160 191 b
  | 237%N => ascii_in 128 159 b
  | 240%N => ascii_in 144 191 b
  | 244%N => ascii_in 128 143 b
  | _ => continues b
  end.

Fixpoint utf8_tail (n : nat) (seen s : string) : string * string :=
  match n with
  | O => (seen, s)
  | S n => match s with
           | String c s' => if continues c then utf8_tail n (seen +:+ String c "") s' else (REPLACEMENT, s)
           | EmptyString => (REPLACEMENT, EmptyString)
           end
  end.

(** What the first character becomes, and what is left. *)
Definition utf8_step (a : ascii) (s : string) : string * string :=
  match lead_width a with
  | O => (REPLACEMENT, s)
  | S O => (String a "", s)
  | S (S n) => match s with
               | String b s' => if second_ok a b then utf8_tail n (String a (String b "")) s' else (REPLACEMENT, s)
               | EmptyString => (REPLACEMENT, EmptyString)
               end
  end.

Fixpoint lossy_fuel (fuel : nat) (s : string) : string :=
  match fuel, s with
  | S fuel, String a s => let '(c, s) := utf8_step a s in c +:+ lossy_fuel fuel s
  | _, _ => EmptyString
  end.

Definition to_string_lossy (s : string) : string := lossy_fuel (String.length s) s.

(** Not on Windows. *)
Definition display_forward (p : string) : string := to_string_lossy p.

(** [SidecarEntry]'s [Display]. *)
Definition entry_line (e : SidecarEntry) : string := hex_digest e +:+ "  " +:+ display_forward (relative_path e).

Inductive SidecarError := InvalidInput | Unsupported.

Definition is_forbidden (c : Component) : bool := match c with ParentDir | RootDir => true | _ => false end.

Definition NUL : ascii := ascii_of_N 0.

Definition validate_sidecar_relpath (p : string) : result SidecarError unit :=
  if starts_with "/" p then Err InvalidInput
  else if existsb is_forbidden (components p) then Err InvalidInput
  else if has_char (fun c => is_eol c || Ascii.eqb c NUL) (to_string_lossy p) then Err InvalidInput
  else if contains_char BACKSLASH (to_string_lossy p) then Err InvalidInput
  else Ok tt.

Fixpoint validate_entries (l : list SidecarEntry) : result SidecarError unit :=
  match l with
  | [] => Ok tt
  | e :: l => let? _ := validate_sidecar_relpath (relative_path e) in validate_entries l
  end.

Definition sidecar_text (l : list SidecarEntry) : string := str_join "" ((fun e => entry_line e +:+ String NL "") <$> l).

(** What [write_tree_sidecar] stores. *)
Definition write_tree_sidecar (l : list SidecarEntry) : result SidecarError string :=
  let? _ := validate_entries l in Ok (sidecar_text l).

(** [Path::file_name] *)
Definition path_file_name (p : string) : option string :=
  match last (components p) with Some (Normal n) => Some n | _ => None end.

Definition append_extension (p ext : string) : string := p +:+ "." +:+ ext.

(** Where [write_single_file_sidecar] stores what. *)
Definition write_single_file_sidecar (dst : string) (a : HashAlgorithm) (hex : string) : result SidecarError (string * string) :=
  let? ext := ok_or (sidecar_extension a) Unsupported in
  let? relative := ok_or (path_file_name dst) InvalidInput in
  let? _ := validate_sidecar_relpath relative in
  Ok (append_extension dst ext, entry_line {| hex_digest := hex; relative_path := relative |} +:+ String NL "").

(** ** Parsing *)

Definition parse_line (line : string) : option SidecarEntry :=
  let trimmed := trim_end is_eol line in
  if String.eqb trimmed "" || starts_with "#" trimmed then None
  else
    match split_ws trimmed with
    | None => None
    | Some (hex, rest) =>
        let rest := trim_start rest in
        let path_str := match str_strip_prefix "*" rest with Some r => r | None => rest end in
        if String.eqb hex "" || String.eqb path_str "" then None else Some {| hex_digest := hex; relative_path := path_str |}
    end.

Definition strip_cr (s : string) : string :=
  match rsplit_once CR s with Some (l, EmptyString) => l | _ => s end.

(** [str::lines] *)
Definition lines (s : string) : list string :=
  let l := split_on NL s in
  strip_cr <$> (match last l with Some EmptyString => take (length l - 1) l | _ => l end).

Definition parse_sidecar (contents : string) : list SidecarEntry := omap parse_line (lines contents).

(** ** What parses back *)

(** A digest of at least one hexadecimal digit. *)
Definition digested (e : SidecarEntry) : Prop := hex_digest e <> "" /\ hex_text (hex_digest e) = true.

(** A path that is not empty, is valid UTF-8 and starts neither with white
    space nor with an asterisk. *)
Definition plain (e : SidecarEntry) : Prop :=
  relative_path e <> "" /\ to_string_lossy (relative_path e) = relative_path e /\
  strip_ws (relative_path e) = None /\ starts_with "*" (relative_path e) = false.

(** *** Valid text *)

Lemma utf8_tail_spec n seen s c r : utf8_tail n seen s = (c, r) ->
  (String.length r <= String.length s)%nat /\
  (c = REPLACEMENT \/ exists t, c = seen +:+ t /\ forall x, utf8_tail n seen (t +:+ x) = (c, x)).
Proof.
  revert seen s. induction n as [|n IH]; intros seen s; cbn [utf8_tail].
  { intros [= <- <-]. split; [done|]. right. exists "". split; [by rewrite str_app_nil_r|done]. }
  destruct s as [|a s]; [intros [= <- <-]; split; [done|by left]|]. destruct (continues a) eqn:Ha.
  - intros [Hl [H|(t & -> & Ht)]]%IH; simpl; (split; [lia|]); [by left|right]. exists (String a t).
    rewrite str_app_assoc. split; [done|]. intros x. simpl. rewrite Ha. rewrite str_app_assoc in Ht. apply Ht.
  - intros [= <- <-]. split; [done|by left].
Qed.

(** What a character becomes is valid. *)
Lemma utf8_step_spec a s c r : utf8_step a s = (c, r) ->
  (String.length r <= String.length s)%nat /\ exists b t, c = String b t /\ forall x, utf8_step b (t +:+ x) = (c, x).
Proof.
  assert (Hbad : exists b t, REPLACEMENT = String b t /\ forall x, utf8_step b (t +:+ x) = (REPLACEMENT, x)) by by eexists _, _.
  unfold utf8_step at 1. destruct (lead_width a) as [|[|n]] eqn:Hw.
  - by intros [= <- <-].
  - intros [= <- <-]. split; [done|]. exists a, "". split; [done|]. intros x. unfold utf8_step. by rewrite Hw.
  - destruct s as [|b s]; [by intros [= <- <-]|]. destruct (second_ok a b) eqn:Hs; [|by intros [= <- <-]].
    intros [Hl [->|(t & -> & Ht)]]%utf8_tail_spec; simpl; (split; [lia|]); [done|].
    exists a, (String b t). split; [done|]. intros x. unfold utf8_step. rewrite Hw. cbn [String.append]. rewrite Hs. apply Ht.
Qed.

Lemma lossy_enough : forall n m s, (String.length s <= n)%nat -> (String.length s <= m)%nat -> lossy_fuel n s = lossy_fuel m s.
Proof.
  induction n as [|n IH]; intros m s Hn Hm.
  { destruct s; [by destruct m|simpl in Hn; lia]. }
  destruct s as [|a s]; [by destruct m|]. destruct m as [|m]; [simpl in Hm; lia|]. simpl in *.
  destruct (utf8_step a s) as [c r] eqn:Hu. apply utf8_step_spec in Hu as [Hl _]. f_equal. apply IH; lia.
Qed.

Lemma lossy_char b t s : utf8_step b (t +:+ s) = (String b t, s) ->
  to_string_lossy (String b t +:+ s) = String b t +:+ to_string_lossy s.
Proof.
  intros H. unfold to_string_lossy. change (String b t +:+ s) with (String b (t +:+ s)). cbn [String.length lossy_fuel].
  rewrite H. f_equal. apply utf8_step_spec in H as [H _]. by apply lossy_enough.
Qed.

Lemma lossy_valid s : to_string_lossy (to_string_lossy s) = to_string_lossy s.
Proof.
  unfold to_string_lossy at 2 3. generalize (String.length s). intros n. revert s.
  induction n as [|n IH]; intros s; [done|]. destruct s as [|a s]; [done|]. cbn [lossy_fuel].
  destruct (utf8_step a s) as [c r] eqn:Hu. apply utf8_step_spec in Hu as (_ & b & t & -> & Ht).
  rewrite lossy_char by done. by rewrite IH.
Qed.

(** White space and an asterisk are whole characters. *)
Lemma lossy_strip_ws s r : strip_ws s = Some r ->
  (String.length r < String.length s)%nat /\ (to_string_lossy s = s -> to_string_lossy r = r).
Proof.
  unfold strip_ws. intros H%head_Some_elem_of. apply list_elem_of_omap in H as (w & Hw & Hs). apply strip_prefix_spec in Hs as ->.
  assert (Hchar : exists b t, w = String b t /\ utf8_step b (t +:+ r) = (String b t, r)).
  { apply list_elem_of_In in Hw. unfold WHITESPACE in Hw. cbn [map In] in Hw.
    repeat (destruct Hw as [<-|Hw]; [eexists _, _; by split|]). done. }
  destruct Hchar as (b & t & -> & Ht). rewrite (lossy_char _ _ _ Ht), str_app_length. split; [simpl; lia|].
  intros H. by apply (inj (String.append (String b t))) in H.
Qed.

Lemma lossy_strip_star s r : str_strip_prefix "*" s = Some r ->
  (String.length r < String.length s)%nat /\ (to_string_lossy s = s -> to_string_lossy r = r).
Proof.
  intros ->%strip_prefix_spec. rewrite lossy_char by done. split; [simpl; lia|]. by intros [= ?].
Qed.

Lemma lossy_trim_start n s : (String.length (trim_start_fuel n s) <= String.length s)%nat /\
  (to_string_lossy s = s -> to_string_lossy (trim_start_fuel n s) = trim_start_fuel n s) /\
  (strip_ws s <> None -> n <> O -> (String.length (trim_start_fuel n s) < String.length s)%nat).
Proof.
  revert s. induction n as [|n IH]; intros s; cbn [trim_start_fuel]; [done|].
  destruct (strip_ws s) as [r|] eqn:Hr; [|done]. destruct (lossy_strip_ws _ _ Hr) as [Hl Hv], (IH r) as (H1 & H2 & _).
  split_and!; [lia|auto|lia].
Qed.

Lemma trim_end_none p s : has_char p s = false -> trim_end p s = s.
Proof.
  induction s as [|a s IH]; simpl; [done|]. intros [Ha Hs]%orb_false_iff. rewrite (IH Hs), Ha. by destruct s.
Qed.

(** A hexadecimal digit starts no white space. *)
Lemma strip_ws_hex c s : hex_char c = true -> strip_ws (String c s) = None.
Proof.
  intros Hc. unfold strip_ws. assert (H : forallb (fun w => match w with String a _ => negb (hex_char a) | _ => false end) WHITESPACE = true)
    by (vm_compute; reflexivity).
  revert H. generalize WHITESPACE. intros l. induction l as [|w l IH]; [done|]. cbn [forallb omap list_omap].
  intros [Hw Hl]%andb_true_iff. destruct w as [|a w]; [done|]. cbn [str_strip_prefix].
  destruct (Ascii.eqb_spec a c) as [->|]; [by rewrite Hc in Hw|]. by apply IH.
Qed.

Lemma split_ws_hex h s : hex_text h = true -> split_ws (h +:+ String " " s) = Some (h, s).
Proof.
  unfold hex_text. rewrite negb_true_iff. induction h as [|c h IH]; simpl has_char; intros H.
  - reflexivity.
  - apply orb_false_iff in H as [Hc Hh]. apply negb_false_iff in Hc.
    change (split_ws (String c (h +:+ String " " s)) = Some (String c h, s)). cbn [split_ws].
    by rewrite (strip_ws_hex c _ Hc), (IH Hh).
Qed.

Lemma trim_start_space p : trim_start (String " " p) = trim_start p.
Proof. reflexivity. Qed.

Lemma validate_entries_ok l : validate_entries l = Ok tt ->
  Forall (fun e => has_char (fun c => is_eol c || Ascii.eqb c NUL) (to_string_lossy (relative_path e)) = false) l.
Proof.
  induction l as [|e l IH]; simpl; [constructor|]. unfold validate_sidecar_relpath.
  destruct (starts_with _ _); [done|]. destruct (existsb _ _); [done|]. destruct (has_char _ _) eqn:He; [done|].
  destruct (contains_char _ _); [done|]. simpl. intros H. constructor; [done|by apply IH].
Qed.

Definition one_line (e : SidecarEntry) : Prop := has_eol (entry_line e) = false.

Lemma digested_one_line e : digested e -> has_char (fun c => is_eol c || Ascii.eqb c NUL) (to_string_lossy (relative_path e)) = false ->
  one_line e.
Proof.
  intros (_ & Hh) Hp. unfold one_line, entry_line, display_forward. rewrite !has_eol_app, (hex_no_eol _ Hh). simpl.
  unfold has_eol. apply (has_char_mono (fun c => is_eol c || Ascii.eqb c NUL)); [|done]. by intros c ->.
Qed.

(** What the parser makes of the path that was written. *)
Definition heard_path (p : string) : string :=
  let rest := trim_start (to_string_lossy p) in match str_strip_prefix "*" rest with Some r => r | None => rest end.

Lemma parse_entry_line e : digested e -> one_line e -> parse_line (entry_line e) =
  if String.eqb (heard_path (relative_path e)) "" then None
  else Some {| hex_digest := hex_digest e; relative_path := heard_path (relative_path e) |}.
Proof.
  intros (Hne & Hh) Hline. unfold parse_line. rewrite (trim_end_none _ _ Hline).
  destruct e as [h p]. unfold entry_line, display_forward in *. cbn [hex_digest relative_path] in *. destruct h as [|c h]; [done|].
  assert (Hc : hex_char c = true).
  { unfold hex_text in Hh. simpl in Hh. rewrite negb_orb, negb_involutive in Hh. by apply andb_true_iff in Hh as [? _]. }
  set (q := to_string_lossy p) in *.
  assert (Hhash : starts_with "#" (String c h +:+ String " " (String " " q)) = false).
  { unfold starts_with. change (String c h +:+ String " " (String " " q)) with (String c (h +:+ String " " (String " " q))).
    cbn [String.prefix]. destruct (ascii_dec "#" c) as [<-|]; [by vm_compute in Hc|done]. }
  change (String.append (String c h) (String.append "  " q)) with (String c h +:+ String " " (String " " q)).
  rewrite Hhash, (split_ws_hex (String c h) _ Hh), trim_start_space. unfold heard_path. subst q. cbv zeta. done.
Qed.

Lemma heard_plain p : heard_path p = p /\ p <> "" <->
  p <> "" /\ to_string_lossy p = p /\ strip_ws p = None /\ starts_with "*" p = false.
Proof.
  unfold heard_path, starts_with, trim_start. rewrite prefix_strip. split.
  - intros [Hp Hne]. set (q := to_string_lossy p) in *. pose proof (lossy_valid p : to_string_lossy q = q) as Hq.
    destruct (lossy_trim_start (String.length q) q) as (Hl & Hv & Hlt). specialize (Hv Hq).
    assert (Hval : to_string_lossy p = p).
    { rewrite <- Hp. destruct (str_strip_prefix "*" _) as [r|] eqn:Hr; [|done]. by apply (lossy_strip_star _ _ Hr). }
    subst q. rewrite Hval in *. split_and!; [done|done| |].
    + destruct (strip_ws p) eqn:Hws; [|done]. exfalso.
      assert (String.length (trim_start_fuel (String.length p) p) < String.length p)%nat.
      { apply Hlt; [done|]. destruct p; [done|]. simpl. lia. }
      destruct (str_strip_prefix "*" (trim_start_fuel _ _)) as [r|] eqn:Hr; [destruct (lossy_strip_star _ _ Hr)|];
        rewrite Hp in *; lia.
    + destruct (str_strip_prefix "*" p) as [r|] eqn:Hr; [|done]. exfalso.
      assert (Hws : strip_ws p = None). { apply strip_prefix_spec in Hr as ->. reflexivity. }
      assert (Htrim : trim_start_fuel (String.length p) p = p). { destruct p; [done|]. cbn [String.length trim_start_fuel]. by rewrite Hws. }
      rewrite Htrim, Hr in Hp. destruct (lossy_strip_star _ _ Hr) as [Hlen _]. rewrite Hp in Hlen. lia.
  - intros (Hne & Hval & Hws & Hstar). split; [|done]. rewrite Hval.
    assert (Htrim : trim_start_fuel (String.length p) p = p). { destruct p; [done|]. cbn [String.length trim_start_fuel]. by rewrite Hws. }
    rewrite Htrim. by destruct (str_strip_prefix "*" p).
Qed.

Lemma parse_entry_plain e : digested e -> one_line e -> parse_line (entry_line e) = Some e <-> plain e.
Proof.
  intros Hd Hl. rewrite (parse_entry_line _ Hd Hl). unfold plain. rewrite <- heard_plain. destruct e as [h p]. cbn [hex_digest relative_path].
  destruct (String.eqb_spec (heard_path p) "") as [He|He].
  - split; [done|]. rewrite He. by intros [<- ?].
  - split; [|by intros [-> _]]. intros [= Hp]. rewrite Hp. split; [done|]. by rewrite <- Hp.
Qed.

Lemma omap_of_fmap {A B C} (g : A -> B) (f : B -> option C) (l : list A) : omap f (g <$> l) = omap (fun x => f (g x)) l.
Proof. induction l as [|x l IH]; [done|]. cbn [fmap list_fmap omap list_omap]. destruct (f (g x)); [f_equal|]; apply IH. Qed.

(** A filter that changes nothing. *)
Lemma omap_fixed {A} (f : A -> option A) (l : list A) : omap f l = l <-> Forall (fun x => f x = Some x) l.
Proof.
  assert (Hlen : forall l, (length (omap f l) <= length l)%nat).
  { intros k. induction k as [|x k IH]; [done|]. cbn [omap list_omap]. destruct (f x); simpl in *; lia. }
  induction l as [|x l IH]; [by split|]. cbn [omap list_omap]. rewrite Forall_cons. split.
  - destruct (f x) as [y|] eqn:Hf; [intros [= -> H]; split; [done|by apply IH]|].
    intros H%(f_equal length). specialize (Hlen l). cbn [length] in H. unfold omap in Hlen, H. lia.
  - intros [-> H]. f_equal. by apply IH.
Qed.

(** ** The file *)

Lemma lines_text l : Forall one_line l -> lines (sidecar_text l) = entry_line <$> l.
Proof.
  intros Hl. unfold lines. assert (Hsplit : split_on NL (sidecar_text l) = (entry_line <$> l) ++ [""]).
  { induction Hl as [|e l He Hl IH]; [done|].
    assert (Happ : sidecar_text (e :: l) = entry_line e +:+ String NL (sidecar_text l)).
    { unfold sidecar_text. simpl. destruct l; simpl; rewrite ?str_app_assoc; simpl; done. }
    rewrite Happ, split_on_app, IH, split_on_none; [done|]. unfold contains_char. apply (has_char_mono is_eol); [|done].
    intros c. unfold is_eol. rewrite Ascii.eqb_sym. by intros ->. }
  rewrite Hsplit, last_snoc, length_app, Nat.add_sub, take_app_length.
  clear Hsplit. induction Hl as [|e l He Hl IH]; [done|]. rewrite !fmap_cons, IH. f_equal. unfold strip_cr.
  destruct (rsplit_once CR (entry_line e)) as [[a b]|] eqn:Hr; [|done]. exfalso. pose proof (rsplit_once_spec CR (entry_line e)) as Hspec. rewrite Hr in Hspec.
  clear Hr. destruct Hspec as [Hr _]. unfold one_line in He. rewrite Hr, has_eol_app in He. simpl in He.
  by rewrite orb_true_r in He.
Qed.

(** C22: a tree sidecar that is written (by Unix code) reads back entry by
    entry, byte for byte, when each path is not empty, is valid UTF-8 and
    begins neither with white space nor with an asterisk, and only then: each
    of these four conditions is needed.  The digests are lowercase hexadecimal
    and not empty. *)
Theorem written_sidecar_parses_back l text : write_tree_sidecar l = Ok text -> Forall digested l ->
  parse_sidecar text = l <-> Forall plain l.
Proof.
  unfold write_tree_sidecar. destruct (validate_entries l) as [[]|] eqn:Hv; [|done]. simpl. intros [= <-] Hp.
  apply validate_entries_ok in Hv.
  assert (Hl : Forall one_line l).
  { apply Forall_forall. intros e He. rewrite Forall_forall in Hv, Hp. by apply digested_one_line; [apply Hp|apply Hv]. }
  unfold parse_sidecar. rewrite (lines_text l Hl), omap_of_fmap, omap_fixed, !Forall_forall. rewrite Forall_forall in Hp, Hl.
  split; intros H e He; by apply (parse_entry_plain e (Hp e He) (Hl e He)), H.
Qed.

Definition demo_entries : list SidecarEntry :=
  [{| hex_digest := "00ff"; relative_path := "a b/c  d" |}; {| hex_digest := "0a"; relative_path := "./#x" |}].

Lemma written_sidecar_parses_back_witness : parse_sidecar (sidecar_text demo_entries) = demo_entries.
Proof. apply (written_sidecar_parses_back demo_entries); [reflexivity|repeat constructor; done|]. repeat constructor; done. Defined.

(** ** What differs from the comments *)

Definition starred : SidecarEntry := {| hex_digest := "0a"; relative_path := "*x" |}.
Definition spaced : SidecarEntry := {| hex_digest := "0a"; relative_path := " x" |}.

(** The parser takes the asterisk of a name, and the space in front of one,
    for a part of the format. *)
Example starred_name_is_lost :
  match write_tree_sidecar [starred; spaced] with Ok t => relative_path <$> parse_sidecar t | Err _ => [] end = ["x"; "x"].
Proof. vm_compute. reflexivity. Qed.

(** An empty path is written and not read. *)
Example empty_path_is_written :
  match write_tree_sidecar [{| hex_digest := "0a"; relative_path := "" |}] with Ok t => parse_sidecar t | Err _ => [starred] end = [].
Proof. vm_compute. reflexivity. Qed.

(** The bytes of a path that are no UTF-8 are replaced when it is written. *)
Example invalid_bytes_are_replaced :
  display_forward (utf8 [97; 195; 40; 240; 159; 152; 98; 226; 130; 172; 255]%N) =
    utf8 [97; 239; 191; 189; 40; 239; 191; 189; 98; 226; 130; 172; 239; 191; 189]%N.
Proof. vm_compute. reflexivity. Qed.

Example single_sidecar : write_single_file_sidecar "/d/f.bin" Sha256 "deadbeef" =
  Ok ("/d/f.bin.sha256", "deadbeef  f.bin" +:+ String NL "").
Proof. vm_compute. reflexivity. Qed.
