(* ===== verification/Shred.v ===== *)
(** * Secure deletion ([freally-secure-delete]: [method.rs], [pattern.rs], [engine.rs], [tree.rs])

    [shred_file] overwrites a file pass by pass, confirms each pass with
    [sync_all], re-reads it where the method says so, and only then truncates,
    renames and unlinks the file; [shred_tree] does so for every file below a
    directory.  Calls are numbered and decided by the environment, which also
    draws the random bytes and decides what the medium keeps of each byte.
    Rates, durations, messages and the events of whole-drive sanitising are
    left out, and so are devices and pipes. *)
From S2P Require Import Prelude.
From S2P Require Import Text.
From S2P Require Import Monad.
From S2P Require Import Files.
From S2P Require Import StdIo.
From S2P Require Import Control.
From S2P Require Import ChunkTypes.
From S2P Require Import Translate.
From S2P Require Import CopyFile.
From stdpp Require Import options.
Open Scope Z_scope.
#[local] Open Scope monad_scope.

(** ** Methods and patterns *)

Inductive PassPattern :=
| Fixed (b : byte) (verify : bool)
| Random (verify : bool)
| Tiled (pattern : bytes) (len : nat) (verify : bool).

Definition verifies (p : PassPattern) : bool :=
  match p with Fixed _ v | Random v | Tiled _ _ v => v end.

Definition is_random (p : PassPattern) : bool := match p with Random _ => true | _ => false end.

Definition fixed (b : byte) : PassPattern := Fixed b false.
Definition fixed_verify (b : byte) : PassPattern := Fixed b true.
Definition random : PassPattern := Random false.
Definition random_verify : PassPattern := Random true.
Definition tiled3 (a b c : byte) : PassPattern :=
  Tiled [a; b; c; Byte.x00; Byte.x00; Byte.x00; Byte.x00; Byte.x00] 3 false.

Definition CHUNK_SIZE : Z := 1024 * 1024.

Inductive ShredMethod :=
| Zero | RandomOnce | DoD3Pass | DoD7Pass | Gutmann35 | Schneier7 | Vsitr7 | Nist80088Clear | Nist80088Purge.

#[export] Instance ShredMethod_eq_dec : EqDecision ShredMethod.
Proof. solve_decision. Defined.

Definition method_name (m : ShredMethod) : string :=
  match m with
  | Zero => "zero" | RandomOnce => "random" | DoD3Pass => "dod3" | DoD7Pass => "dod7" | Gutmann35 => "gutmann35"
  | Schneier7 => "schneier7" | Vsitr7 => "vsitr7" | Nist80088Clear => "nist-clear" | Nist80088Purge => "nist-purge"
  end.

Definition pass_count (m : ShredMethod) : nat :=
  match m with
  | Zero | RandomOnce | Nist80088Clear => 1
  | DoD3Pass => 3
  | DoD7Pass => 7
  | Schneier7 | Vsitr7 => 7
  | Gutmann35 => 35
  | Nist80088Purge => 0
  end.

Definition tiled1 (a : byte) : PassPattern := tiled3 a a a.

Definition gutmann_sequence : list PassPattern :=
  [ random; random; random; random;
    tiled3 Byte.x55 Byte.x55 Byte.x55; tiled3 Byte.xaa Byte.xaa Byte.xaa; tiled3 Byte.x92 Byte.x49 Byte.x24;
    tiled3 Byte.x49 Byte.x24 Byte.x92; tiled3 Byte.x24 Byte.x92 Byte.x49;
    tiled1 Byte.x00; tiled1 Byte.x11; tiled1 Byte.x22; tiled1 Byte.x33; tiled1 Byte.x44; tiled1 Byte.x55;
    tiled1 Byte.x66; tiled1 Byte.x77; tiled1 Byte.x88; tiled1 Byte.x99; tiled1 Byte.xaa; tiled1 Byte.xbb;
    tiled1 Byte.xcc; tiled1 Byte.xdd; tiled1 Byte.xee; tiled1 Byte.xff;
    tiled3 Byte.x92 Byte.x49 Byte.x24; tiled3 Byte.x49 Byte.x24 Byte.x92; tiled3 Byte.x24 Byte.x92 Byte.x49;
    tiled3 Byte.x6d Byte.xb6 Byte.xdb; tiled3 Byte.xb6 Byte.xdb Byte.x6d; tiled3 Byte.xdb Byte.x6d Byte.xb6;
    random; random; random; random ].

Definition passes (m : ShredMethod) : list PassPattern :=
  match m with
  | Zero | Nist80088Clear => [fixed Byte.x00]
  | RandomOnce => [random]
  | DoD3Pass => [fixed Byte.x00; fixed Byte.xff; random_verify]
  | DoD7Pass => [fixed Byte.x00; fixed Byte.xff; random; fixed Byte.x00; fixed Byte.xff; random; random_verify]
  | Schneier7 => [fixed Byte.x00; fixed Byte.xff; random; random; random; random; random]
  | Vsitr7 => [fixed Byte.x00; fixed Byte.xff; fixed Byte.x00; fixed Byte.xff; fixed Byte.x00; fixed Byte.xff;
               fixed_verify Byte.xaa]
  | Gutmann35 => gutmann_sequence
  | Nist80088Purge => []
  end.

(** ** Errors, events, report *)

Inductive ShredErrorKind :=
| NotFound | PermissionDenied | Interrupted | VerifyFailed | PurgeNotSupported | ShredMeaningless | BadTarget | IoOther.

#[export] Instance ShredErrorKind_eq_dec : EqDecision ShredErrorKind.
Proof. solve_decision. Defined.

Record ShredError := { se_kind : ShredErrorKind; se_path : path; se_errno : option Z }.

Definition from_io (p : path) (e : IoError) : ShredError :=
  {| se_kind := match io_kind e with
                | EkNotFound => NotFound | EkPermissionDenied => PermissionDenied | EkInterrupted => Interrupted
                | _ => IoOther end;
     se_path := p; se_errno := io_errno e |}.

Definition shred_error (k : ShredErrorKind) (p : path) : ShredError := {| se_kind := k; se_path := p; se_errno := None |}.
Definition shred_cancelled (p : path) : ShredError := shred_error Interrupted p.

Definition is_cancelled (e : ShredError) : bool :=
  bool_decide (se_kind e = Interrupted) && match se_errno e with None => true | _ => false end.

Inductive ShredEvent :=
| Started (p : path) (m : ShredMethod) (total_passes : nat) (file_size : Z)
| SsdAdvisory (p : path)
| SsdAdvisoryUnknown (p : path)
| PassStarted (pass_index total_passes : nat) (pattern : string)
| PassProgress (pass_index total_passes : nat) (done total : Z)
| PassFlushFailed (pass_index total_passes : nat)
| PassCompleted (pass_index total_passes : nat) (done : Z) (verified : bool)
| EvPaused
| EvResumed
| Completed (p : path) (m : ShredMethod) (n_passes : nat) (bytes_per_pass : Z)
| EvFailed (e : ShredError)
| TreeStarted (root : path) (total_files total_bytes : Z)
| TreeProgress (files_done files_total bytes_done bytes_total : Z)
| TreeCompleted (root : path) (files done : Z).

Record ShredReport := {
  sr_path : path; sr_method : ShredMethod; sr_passes : nat; sr_bytes_per_pass : Z; sr_files : Z
}.

(** An error, the end of the process (a panic, a crash), or a loop out of
    fuel, which the theorems exclude. *)
Inductive ShredStop := SeErr (e : ShredError) | SeDied | SeStuck.

(** ** The environment and the world *)

Inductive CallOutcome := Works | Refused (e : IoError) | Crashes.

Class ShredEnv := {
  call_at : nat -> CallOutcome;
  part : nat -> nat;                      (** bytes of a refused write that reach the medium *)
  store : nat -> nat -> byte -> byte;     (** what the medium keeps of a byte *)
  rng : nat -> Z -> option bytes;         (** [OsRng] *)
  interval_due : nat -> bool;
  ssd_probe : path -> option bool;
  cow_probe : option (path -> option bool) (** [COW_PROBE], if one is installed *)
}.

(** [OsRng] fills what it is given. *)
Class RngLaw {E : ShredEnv} := rng_length : forall n k b, rng n k = Some b -> Z.of_nat (length b) = Z.max 0 k.

(** The medium keeps what is written. *)
Definition keeps_bytes {E : ShredEnv} : Prop := forall n i b, store n i b = b.

(** Regular files, directories and links; devices and pipes are left out. *)
Inductive Node := NFile (data : bytes) | NDir | NLink.
Abbreviation Disk := (gmap path Node) (only parsing).

Record World := {
  w_disk : Disk;
  w_calls : nat;
  w_flags : list Z;
  w_events : list ShredEvent;
  w_media : list (path * bytes)   (** the contents [sync_all] has confirmed *)
}.

#[local] Abbreviation M := (SM World ShredStop).

Definition set_disk (d : Disk) (w : World) : World :=
  {| w_disk := d; w_calls := w_calls w; w_flags := w_flags w; w_events := w_events w; w_media := w_media w |}.
Definition set_calls (n : nat) (w : World) : World :=
  {| w_disk := w_disk w; w_calls := n; w_flags := w_flags w; w_events := w_events w; w_media := w_media w |}.
Definition set_flags (l : list Z) (w : World) : World :=
  {| w_disk := w_disk w; w_calls := w_calls w; w_flags := l; w_events := w_events w; w_media := w_media w |}.
Definition add_event (e : ShredEvent) (w : World) : World :=
  {| w_disk := w_disk w; w_calls := w_calls w; w_flags := w_flags w; w_events := w_events w ++ [e]; w_media := w_media w |}.
Definition add_media (x : path * bytes) (w : World) : World :=
  {| w_disk := w_disk w; w_calls := w_calls w; w_flags := w_flags w; w_events := w_events w; w_media := w_media w ++ [x] |}.

Section shred.
Context {E : ShredEnv}.

Definition call : M (option IoError) :=
  let! n := gets w_calls in
  modify (set_calls (n + 1)) ;;
  match call_at n with Works => ret None | Refused e => ret (Some e) | Crashes => throw SeDied end.

Definition fail {A} (e : ShredError) : M A := throw (SeErr e).

Definition call_or (p : path) : M unit :=
  let! r := call in match r with None => ret tt | Some e => fail (from_io p e) end.

Definition emit (e : ShredEvent) : M unit := modify (add_event e).
Definition node_at (p : path) : M (option Node) := gets (fun w => w_disk w !! p).
Definition data_at (p : path) : M bytes := gets (fun w => match w_disk w !! p with Some (NFile b) => b | _ => [] end).

(** ** Steering *)

Definition load : M Z :=
  let! l := gets w_flags in
  match l with
  | [] => ret RUNNING
  | v :: r => if v =? CANCELLED then ret v else (modify (set_flags r) ;; ret v)
  end.

Definition wait_while_paused : M unit := modify (fun w => set_flags (wait_flags (w_flags w)) w).

(** The steering of a loop: whether it was paused, and the new [was_paused]. *)
Definition steer (p : path) (was_paused : bool) : M (bool * bool) :=
  let! c := load in
  if c =? CANCELLED then fail (shred_cancelled p)
  else
    let! v := load in
    if v =? PAUSED then
      (if was_paused then ret tt else emit EvPaused) ;;
      wait_while_paused ;;
      let! c := load in
      if c =? CANCELLED then fail (shred_cancelled p) else (emit EvResumed ;; ret (true, false))
    else ret (false, was_paused).

(** ** Patterns *)

(** [PassPattern::Tiled]: the pattern repeated from the start of the buffer. *)
Definition tile (pat : bytes) (n : nat) : bytes :=
  match pat with [] => replicate n Byte.x00 | b :: _ => (fun i => default b (pat !! (i mod length pat)%nat)) <$> seq 0 n end.

(** The first [n] bytes of the buffer that [fill_pattern] prepares. *)
Definition fill_pattern (p : PassPattern) (n : nat) : bytes :=
  match p with
  | Fixed b _ => replicate n b
  | Tiled pattern len _ => tile (take len pattern) n
  | Random _ => []
  end.

Definition hex_upper (b : bytes) : string := to_ascii_uppercase (hex_encode b).

Definition describe_pattern (p : PassPattern) : string :=
  match p with
  | Fixed Byte.x00 _ => "zero"
  | Fixed Byte.xff _ => "one"
  | Fixed b _ => "fixed-0x" +:+ hex_upper [b]
  | Random _ => "random"
  | Tiled pattern len _ => "tiled-" +:+ hex_upper (take len pattern)
  end.

(** ** One pass *)

Definition PROGRESS_MIN_BYTES : Z := 16 * 1024.

Definition put_bytes (p : path) (off : Z) (b : bytes) : M unit :=
  let! n := gets w_calls in
  modify (fun w => match w_disk w !! p with
                   | Some (NFile c) => set_disk (<[p := NFile (splice (Z.to_nat off) (imap (store n) b) c)]> (w_disk w)) w
                   | _ => w
                   end).

Definition write_all (p : path) (off : Z) (b : bytes) : M unit :=
  let! n := gets w_calls in
  let! r := call in
  match r with
  | None => put_bytes p off b
  | Some e => put_bytes p off (take (part n) b) ;; fail (from_io p e)
  end.

(** The bytes of one chunk. *)
Definition next_chunk (p : path) (pass : PassPattern) (n : Z) : M bytes :=
  if is_random pass then
    let! k := gets w_calls in
    let! _ := call in
    match rng k n with Some b => ret b | None => fail (from_io p {| io_kind := EkOther; io_errno := None |}) end
  else ret (fill_pattern pass (Z.to_nat n)).

Fixpoint write_pass (fuel : nat) (p : path) (pass : PassPattern) (size : Z) (index total : nat)
    (written last : Z) (was_paused : bool) : M bool :=
  match fuel with
  | O => throw SeStuck
  | S fuel =>
      if written <? size then
        let! (paused, was_paused) := steer p was_paused in
        if paused then write_pass fuel p pass size index total written last was_paused
        else
          let n := Z.min (size - written) CHUNK_SIZE in
          let! b := next_chunk p pass n in
          write_all p written b ;;
          let written := written + n in
          let! k := gets w_calls in
          if (PROGRESS_MIN_BYTES <=? sat_sub64 written last) && interval_due k then
            emit (PassProgress index total written size) ;;
            write_pass fuel p pass size index total written written was_paused
          else write_pass fuel p pass size index total written last was_paused
      else ret was_paused
  end.

(** [read_exact] at an offset. *)
Definition read_exact (p : path) (off n : Z) : M bytes :=
  call_or p ;;
  let! c := data_at p in
  let b := take (Z.to_nat n) (drop (Z.to_nat off) c) in
  if Z.of_nat (length b) =? n then ret b else fail (from_io p {| io_kind := EkOther; io_errno := None |}).

Fixpoint verify_loop (fuel : nat) (p : path) (pass : PassPattern) (size : Z) (read : Z) (saw_nonzero : bool) : M bool :=
  match fuel with
  | O => throw SeStuck
  | S fuel =>
      if read <? size then
        let! c := load in
        if c =? CANCELLED then fail (shred_cancelled p)
        else
          let n := Z.min (size - read) CHUNK_SIZE in
          let! b := read_exact p read n in
          if is_random pass
          then verify_loop fuel p pass size (read + n) (saw_nonzero || existsb (fun x => negb (bool_decide (x = Byte.x00))) b)
          else if bool_decide (b = fill_pattern pass (Z.to_nat n))
               then verify_loop fuel p pass size (read + n) saw_nonzero
               else fail (shred_error VerifyFailed p)
      else ret saw_nonzero
  end.

(** Enough for every byte and every flag. *)
Definition pass_fuel (size : Z) : M nat :=
  let! l := gets w_flags in ret (1 + Z.to_nat size + length l)%nat.

Definition verify_pass (p : path) (pass : PassPattern) (size : Z) : M unit :=
  call_or p ;;
  let! fuel := pass_fuel size in
  let! saw_nonzero := verify_loop fuel p pass size 0 false in
  if is_random pass && (0 <? size) && negb saw_nonzero then fail (shred_error VerifyFailed p) else ret tt.

(** The body of the loop over the passes. *)
Definition run_pass (p : path) (size : Z) (index total : nat) (pass : PassPattern) (was_paused : bool) : M bool :=
  let! (_, was_paused) := steer p was_paused in
  emit (PassStarted index total (describe_pattern pass)) ;;
  call_or p ;;
  (if is_random pass then
     let! k := gets w_calls in
     match rng k CHUNK_SIZE with Some _ => ret tt | None => throw SeDied end
   else ret tt) ;;
  let! fuel := pass_fuel size in
  let! was_paused := write_pass fuel p pass size index total 0 0 was_paused in
  call_or p ;;
  let! s := call in
  match s with
  | Some e => emit (PassFlushFailed index total) ;; fail (from_io p e)
  | None =>
      let! c := data_at p in
      modify (add_media (p, c)) ;;
      (if verifies pass then verify_pass p pass size else ret tt) ;;
      emit (PassCompleted index total size (verifies pass)) ;;
      ret was_paused
  end.

Fixpoint run_passes (p : path) (size : Z) (index total : nat) (ps : list PassPattern) (was_paused : bool) : M unit :=
  match ps with
  | [] => ret tt
  | pass :: ps =>
      let! was_paused := run_pass p size index total pass was_paused in
      run_passes p size (S index) total ps was_paused
  end.

(** ** The end of the file *)

Definition candidate (p : path) (b : bytes) : path := default [] (parent p) ++ [hex_encode b].

(** [rename] of a file; what stood under the new name is replaced, unless it
    is a directory. *)
Definition move_node (p q : path) : M unit :=
  modify (fun w => match w_disk w !! p with
                   | Some x => set_disk (<[q := x]> (delete p (w_disk w))) w
                   | None => w
                   end).

Fixpoint rename_to_scrubbed (tries : nat) (p : path) : M path :=
  match tries with
  | O => fail (shred_error BadTarget p)
  | S tries =>
      let! k := gets w_calls in
      match rng k 8 with
      | None => fail (from_io p {| io_kind := EkOther; io_errno := None |})
      | Some b =>
          let q := candidate p b in
          let! r := call in
          match r with
          | None =>
              let! y := node_at q in
              match y with Some NDir => fail (from_io p EISDIR) | _ => move_node p q ;; ret q end
          | Some e => match io_kind e with EkAlreadyExists => rename_to_scrubbed tries p | _ => fail (from_io p e) end
          end
      end
  end.

Definition remove_file (p : path) : M (option IoError) :=
  let! r := call in
  match r with
  | Some e => ret (Some e)
  | None =>
      let! x := node_at p in
      match x with
      | Some NDir => ret (Some EISDIR)
      | Some _ => modify (fun w => set_disk (delete p (w_disk w)) w) ;; ret None
      | None => ret (Some ENOENT)
      end
  end.

Definition truncate (p : path) : M unit :=
  call_or p ;;
  modify (fun w => match w_disk w !! p with Some (NFile _) => set_disk (<[p := NFile []]> (w_disk w)) w | _ => w end).

Definition finish_file (p : path) : M unit :=
  truncate p ;;
  call_or p ;;
  match parent p with
  | None => fail (shred_error BadTarget p)
  | Some _ =>
      let! q := rename_to_scrubbed 8 p in
      let! r := remove_file q in
      match r with None => ret tt | Some e => fail (from_io q e) end
  end.

(** ** One file *)

Definition hardware_purge_available (_ : path) : bool := false.

Definition is_cow_filesystem (p : path) : bool :=
  match cow_probe with Some probe => default false (probe p) | None => false end.

Definition shred_file_inner (p : path) (m : ShredMethod) : M ShredReport :=
  if bool_decide (m = Nist80088Purge) && negb (hardware_purge_available p) then fail (shred_error PurgeNotSupported p)
  else if is_cow_filesystem p then fail (shred_error ShredMeaningless p)
  else
    call_or p ;;
    let! x := node_at p in
    match x with
    | None => fail (from_io p ENOENT)
    | Some NLink | Some NDir => fail (shred_error BadTarget p)
    | Some (NFile c) =>
        let size := Z.of_nat (length c) in
        let ps := passes m in
        emit (Started p m (length ps) size) ;;
        match ssd_probe p with
        | Some true => emit (SsdAdvisory p)
        | None => emit (SsdAdvisoryUnknown p)
        | Some false => ret tt
        end ;;
        call_or p ;;
        run_passes p size 1 (length ps) ps false ;;
        finish_file p ;;
        emit (Completed p m (length ps) size) ;;
        ret {| sr_path := p; sr_method := m; sr_passes := length ps; sr_bytes_per_pass := size; sr_files := 1 |}
    end.

(** The outer function: an error is announced and returned. *)
Definition announced {A} (m : M A) : M A := fun w =>
  match m w with
  | (Err (SeErr e), w') => (Err (SeErr e), add_event (EvFailed e) w')
  | r => r
  end.

Definition shred_file (p : path) (m : ShredMethod) : M ShredReport := announced (shred_file_inner p m).

(** ** A tree *)

Record FileEntry := { fe_path : path; fe_is_symlink : bool }.

(** [enumerate], over the entries of the walk, an entry without metadata
    being [None]. *)
Fixpoint enumerate (root : path) (entries : list (path * option Node)) : list FileEntry * list path * Z :=
  match entries with
  | [] => ([], [], 0)
  | (p, meta) :: entries =>
      let '(files, dirs, total_bytes) := enumerate root entries in
      match meta with
      | Some NDir => (files, if bool_decide (p <> root) then p :: dirs else dirs, total_bytes)
      | Some (NFile c) => ({| fe_path := p; fe_is_symlink := false |} :: files, dirs, sat_add64 (Z.of_nat (length c)) total_bytes)
      | Some NLink => ({| fe_path := p; fe_is_symlink := true |} :: files, dirs, total_bytes)
      | None => (files, dirs, total_bytes)
      end
  end.

(** A call's outcome as a value. *)
Definition attempt {A} (m : M A) : M (result ShredError A) := fun w =>
  match m w with
  | (Ok a, w') => (Ok (Ok a), w')
  | (Err (SeErr e), w') => (Ok (Err e), w')
  | (Err x, w') => (Err x, w')
  end.

Fixpoint shred_entries (root : path) (m : ShredMethod) (files : list FileEntry) (files_total bytes_total : Z)
    (files_done bytes_done : Z) : M Z :=
  match files with
  | [] => ret bytes_done
  | f :: files =>
      let! c := load in
      if c =? CANCELLED then fail (shred_cancelled root)
      else if fe_is_symlink f then
        let! r := remove_file (fe_path f) in
        match r with
        | Some e => match io_kind e with EkNotFound => ret tt | _ => fail (from_io (fe_path f) e) end
        | None => ret tt
        end ;;
        emit (TreeProgress (files_done + 1) files_total bytes_done bytes_total) ;;
        shred_entries root m files files_total bytes_total (files_done + 1) bytes_done
      else
        let! r := attempt (shred_file (fe_path f) m) in
        let! bytes_done := match r with
                           | Ok rep => ret (sat_add64 bytes_done (sr_bytes_per_pass rep))
                           | Err e => if bool_decide (se_kind e = NotFound) then ret bytes_done else fail e
                           end in
        emit (TreeProgress (files_done + 1) files_total bytes_done bytes_total) ;;
        shred_entries root m files files_total bytes_total (files_done + 1) bytes_done
  end.

(** [remove_dir]: only an empty directory goes. *)
Definition remove_dir (d : path) : M (option IoError) :=
  let! r := call in
  match r with
  | Some e => ret (Some e)
  | None =>
      let! w := gets w_disk in
      match w !! d with
      | None => ret (Some ENOENT)
      | Some NDir =>
          if bool_decide (filter (fun x => parent x.1 = Some d) (map_to_list w) = [])
          then modify (set_disk (delete d w)) ;; ret None
          else ret (Some {| io_kind := EkOther; io_errno := Some 39 |})
      | Some _ => ret (Some {| io_kind := EkOther; io_errno := Some 20 |})
      end
  end.

Definition remove_dir_or (d : path) : M unit :=
  let! r := remove_dir d in
  match r with
  | None => ret tt
  | Some e => match io_kind e with EkNotFound => ret tt | _ => fail (from_io d e) end
  end.

Fixpoint remove_dirs (root : path) (dirs : list path) : M unit :=
  match dirs with
  | [] => ret tt
  | d :: dirs =>
      let! c := load in
      if c =? CANCELLED then fail (shred_cancelled root) else (remove_dir_or d ;; remove_dirs root dirs)
  end.

(** What [walkdir] finds at and below a root, contents first. *)
Context (walk : Disk -> path -> list (path * option Node)).

Definition shred_tree_inner (root : path) (m : ShredMethod) : M ShredReport :=
  call_or root ;;
  let! x := node_at root in
  match x with
  | None => fail (from_io root ENOENT)
  | Some NLink => fail (shred_error BadTarget root)
  | Some (NFile _) => shred_file root m
  | Some NDir =>
      let! d := gets w_disk in
      let '(files, dirs, bytes_total) := enumerate root (walk d root) in
      let files_total := Z.of_nat (length files) in
      emit (TreeStarted root files_total bytes_total) ;;
      let! bytes_done := shred_entries root m files files_total bytes_total 0 0 in
      remove_dirs root dirs ;;
      remove_dir_or root ;;
      emit (TreeCompleted root files_total bytes_done) ;;
      ret {| sr_path := root; sr_method := m; sr_passes := length (passes m); sr_bytes_per_pass := bytes_done;
             sr_files := files_total |}
  end.

Definition shred_tree (root : path) (m : ShredMethod) : M ShredReport := announced (shred_tree_inner root m).
End shred.
