(* ===== verification/ShredProof.v ===== *)
(** * What a shredded file has been through

    The section follows one file through the passes: until the last of them is
    confirmed the file stays where it is, at its length, and every confirmed
    pass left its pattern on every byte. *)
From S2P Require Import Prelude.
From S2P Require Import Text.
From S2P Require Import Monad.
From S2P Require Import Files.
From S2P Require Import StdIo.
From S2P Require Import Control.
From S2P Require Import ChunkTypes.
From S2P Require Import CopyFile.
From S2P Require Import Shred.
From stdpp Require Import options.
Open Scope Z_scope.
#[local] Open Scope monad_scope.

Section shred.
Context {E : ShredEnv} {R : RngLaw}.
#[local] Abbreviation M := (SM World ShredStop).

(** ** The calculus *)

Definition runs {A} (m : M A) (Q : A -> World -> Prop) (X : ShredStop -> World -> Prop) (w : World) : Prop :=
  wp m (fun r w' => match r with Ok a => Q a w' | Err e => X e w' end) w.

Lemma runs_bind {A B} (m : M A) (k : A -> M B) Q X w : runs m (fun a w' => runs (k a) Q X w') X w -> runs (bind m k) Q X w.
Proof. unfold runs, wp, bind. by destruct (m w) as [[a|e] w']. Qed.

Lemma runs_mono {A} (m : M A) (Q Q' : A -> World -> Prop) (X X' : ShredStop -> World -> Prop) w :
  runs m Q X w -> (forall a w', Q a w' -> Q' a w') -> (forall e w', X e w' -> X' e w') -> runs m Q' X' w.
Proof. unfold runs, wp. destruct (m w) as [[a|e] w']; simpl; auto. Qed.

Lemma runs_ret {A} (a : A) (Q : A -> World -> Prop) X w : Q a w -> runs (ret a) Q X w.
Proof. done. Qed.

Lemma runs_gets {A} (g : World -> A) (Q : A -> World -> Prop) X w : Q (g w) w -> runs (gets g) Q X w.
Proof. done. Qed.

Lemma runs_modify g (Q : unit -> World -> Prop) X w : Q tt (g w) -> runs (modify g) Q X w.
Proof. done. Qed.

(** Nothing on the disk or the medium has changed. *)
Definition calm (w w' : World) : Prop :=
  w_disk w' = w_disk w /\ w_media w' = w_media w /\ (length (w_flags w') <= length (w_flags w))%nat.

#[export] Instance calm_preorder : PreOrder calm.
Proof using Type.
  split; [done|]. intros a b c (H1 & H2 & H3) (H4 & H5 & H6). split_and!; [congruence..|lia].
Qed.

(** A call refused with [NotFound] is one whose path is missing; the model's
    disk answers those itself. *)
Definition honest_calls : Prop := forall n e, call_at n = Refused e -> io_kind e <> EkNotFound.

(** No lack of fuel, and no missing file. *)
Definition not_missing (e : ShredError) : Prop := honest_calls -> se_kind e <> NotFound.
Definition lawful (e : ShredStop) : Prop := match e with SeErr e => not_missing e | SeDied => True | SeStuck => False end.

Lemma from_io_not_missing p e : (honest_calls -> io_kind e <> EkNotFound) -> not_missing (from_io p e).
Proof using Type. intros H Hc Hk. apply (H Hc). simpl in Hk. by destruct (io_kind e). Qed.

(** Stopping here, for any lawful reason, is all right. *)
Definition may_stop (X : ShredStop -> World -> Prop) (w : World) : Prop := forall e w', calm w w' -> lawful e -> X e w'.

Lemma may_stop_calm X w w' : calm w w' -> may_stop X w -> may_stop X w'.
Proof. intros Hc H e w2 H2. apply H. by transitivity w'. Qed.

Lemma runs_fail {A} e (Q : A -> World -> Prop) X w : not_missing e -> may_stop X w -> runs (fail e) Q X w.
Proof. intros He H. by apply H. Qed.

#[local] Ltac stops := apply runs_fail; [solve [by intros ? ? | by apply from_io_not_missing; auto]|].

Lemma runs_call (Q : option IoError -> World -> Prop) X w :
  may_stop X w -> (forall r w', calm w w' -> (forall e, r = Some e -> honest_calls -> io_kind e <> EkNotFound) -> Q r w') ->
  runs call Q X w.
Proof.
  intros HX HQ. unfold call. apply runs_bind, runs_gets, runs_bind, runs_modify.
  assert (Hc : calm w (set_calls (w_calls w + 1) w)) by done.
  destruct (call_at _) eqn:Hcall; [apply runs_ret, HQ|apply runs_ret, HQ|apply HX]; try done.
  intros e' [= <-] Hl. by eapply Hl.
Qed.

Lemma runs_call_or p (Q : unit -> World -> Prop) X w :
  may_stop X w -> (forall w', calm w w' -> Q tt w') -> runs (call_or p) Q X w.
Proof.
  intros HX HQ. apply runs_bind, runs_call; [done|]. intros [e|] w' Hc He; [|by apply HQ].
  apply runs_fail; [by apply from_io_not_missing, He|]. by eapply may_stop_calm.
Qed.

Lemma runs_emit e (Q : unit -> World -> Prop) X w : (forall w', calm w w' -> Q tt w') -> runs (emit e) Q X w.
Proof. intros HQ. by apply HQ. Qed.

Lemma runs_load (Q : Z -> World -> Prop) X w :
  (forall v w', calm w w' -> (v = PAUSED -> (length (w_flags w') < length (w_flags w))%nat) -> Q v w') -> runs load Q X w.
Proof.
  intros HQ. unfold load. apply runs_bind, runs_gets. destruct (w_flags w) as [|v r] eqn:Ef; [by apply HQ|].
  destruct (Z.eqb_spec v CANCELLED) as [->|Hv]; [by apply HQ|]. apply runs_bind, runs_modify, HQ.
  - split_and!; [done..|]. simpl. rewrite Ef. simpl. lia.
  - intros _. simpl. lia.
Qed.

Lemma wait_flags_length l : (length (wait_flags l) <= length l)%nat.
Proof. induction l as [|v r IH]; simpl; [done|]. destruct (v =? PAUSED); [lia|]. destruct (v =? CANCELLED); simpl; lia. Qed.

Lemma runs_steer p b (Q : bool * bool -> World -> Prop) X w :
  may_stop X w ->
  (forall x b' w', calm w w' -> (x = true -> (length (w_flags w') < length (w_flags w))%nat) -> Q (x, b') w') ->
  runs (steer p b) Q X w.
Proof.
  intros HX HQ. unfold steer. apply runs_bind, runs_load. intros v w1 H1 _.
  destruct (v =? CANCELLED); [stops; by eapply may_stop_calm|].
  apply runs_bind, runs_load. intros u w2 H2 Hlt. destruct (Z.eqb_spec u PAUSED) as [Hp|Hp].
  2: { apply runs_ret, HQ; [by transitivity w1|done]. }
  specialize (Hlt Hp). apply runs_bind. 
  assert (Hgo : forall w3, calm w2 w3 -> runs (wait_while_paused ;; let! c := load in
      if c =? CANCELLED then fail (shred_cancelled p) else (emit EvResumed ;; ret (true, false))) Q X w3).
  { intros w3 H3. apply runs_bind, runs_modify, runs_bind, runs_load. intros c w4 H4 _.
    assert (Hw : calm w3 (set_flags (wait_flags (w_flags w3)) w3)) by (split_and!; [done..|apply wait_flags_length]).
    assert (Hc : calm w2 w4) by (do 2 (etransitivity; [eassumption|]); done).
    destruct (c =? CANCELLED); [stops; eapply may_stop_calm; [|done]; do 2 (etransitivity; [eassumption|]); done|].
    apply runs_bind, runs_emit. intros w5 H5. apply runs_ret, HQ; [do 3 (etransitivity; [eassumption|]); done|].
    intros _. destruct Hc as (_ & _ & Hc), H5 as (_ & _ & H5), H1 as (_ & _ & H1). lia. }
  destruct b; [by apply runs_ret, Hgo|]. by apply runs_emit.
Qed.

(** ** One file *)

Context (p : path) (D0 : Disk) (size : Z).
#[local] Abbreviation CH := (Z.to_nat CHUNK_SIZE).

(** What a pass leaves at an index. *)
Definition good (pass : PassPattern) (c : bytes) (i : nat) : Prop :=
  if is_random pass then exists k n b, rng k n = Some b /\ c !! i = b !! (i mod CH)%nat
  else c !! i = fill_pattern pass CH !! (i mod CH)%nat.

(** The file is where it was, at its length, and nothing else has changed. *)
Definition in_place (c : bytes) (w : World) : Prop := w_disk w = <[p := NFile c]> D0 /\ Z.of_nat (length c) = size.

Definition written (pass : PassPattern) (c : bytes) : Prop :=
  Z.of_nat (length c) = size /\ (keeps_bytes -> forall i, (i < length c)%nat -> good pass c i).

(** Not all of it is zero: what reading back a random pass establishes. *)
Definition scrambled (c : bytes) : Prop := exists i b, c !! i = Some b /\ b <> Byte.x00.

(** A pass that verifies was read back: a pattern is found byte for byte,
    whatever the medium does, and a random pass is not all zero. *)
Definition confirmed (pass : PassPattern) (c : bytes) : Prop :=
  written pass c /\
  (verifies pass = true -> is_random pass = false -> forall i, (i < length c)%nat -> good pass c i) /\
  (verifies pass = true -> is_random pass = true -> 0 < size -> scrambled c).

(** Stopping in the middle of the passes. *)
Definition halted (ms : list (path * bytes)) (e : ShredStop) (w : World) : Prop :=
  lawful e /\ (exists c, in_place c w) /\ w_media w = ms.

Lemma in_place_calm c w w' : calm w w' -> in_place c w -> in_place c w'.
Proof. intros (Hd & _) [H1 H2]. split; [congruence|done]. Qed.

Lemma halted_stop c ms w : in_place c w -> w_media w = ms -> may_stop (halted ms) w.
Proof. intros Hc Hm e w' Hw He. split_and!; [done|exists c; by eapply in_place_calm|]. destruct Hw as (_ & -> & _). done. Qed.

Lemma imap_keeps n (b : bytes) : keeps_bytes -> imap (store n) b = b.
Proof.
  intros Hk. apply list_eq. intros i. rewrite list_lookup_imap. destruct (b !! i); [|done]. simpl. by rewrite Hk.
Qed.

Lemma runs_put off b (Q : unit -> World -> Prop) X c w : in_place c w ->
  0 <= off -> off + Z.of_nat (length b) <= size ->
  (forall n w', in_place (splice (Z.to_nat off) (imap (store n) b) c) w' -> w_media w' = w_media w -> w_flags w' = w_flags w -> Q tt w') ->
  runs (put_bytes p off b) Q X w.
Proof.
  intros [Hd Hl] H0 Hb HQ. unfold put_bytes. apply runs_bind, runs_gets, runs_modify. rewrite Hd, lookup_insert_eq.
  apply (HQ (w_calls w)); [|done|done]. split; [simpl; by rewrite insert_insert_eq|].
  rewrite length_splice; [done|]. rewrite length_imap. lia.
Qed.

Lemma runs_write_all off b (Q : unit -> World -> Prop) c ms w : in_place c w -> w_media w = ms ->
  0 <= off -> off + Z.of_nat (length b) <= size ->
  (forall n w', in_place (splice (Z.to_nat off) (imap (store n) b) c) w' -> w_media w' = ms ->
     (length (w_flags w') <= length (w_flags w))%nat -> Q tt w') ->
  runs (write_all p off b) Q (halted ms) w.
Proof.
  intros Hc Hm H0 Hb HQ. unfold write_all. apply runs_bind, runs_gets, runs_bind, runs_call; [by eapply halted_stop|].
  intros r w1 H1 He. pose proof H1 as (_ & Hm1 & Hf1). pose proof (in_place_calm _ _ _ H1 Hc) as Hc1. destruct r as [e|].
  - apply runs_bind, (runs_put _ _ _ _ c); [done|done|rewrite length_take; lia|].
    intros n w2 H2 Hm2 _. stops. eapply halted_stop; [done|congruence].
  - apply (runs_put _ _ _ _ c); [done..|]. intros n w2 H2 Hm2 Hf2. apply (HQ n); [done|congruence|]. rewrite Hf2. done.
Qed.

(** ** Writing a pass *)

Lemma tile_lookup pat n i : (i < n)%nat -> tile pat n !! i = match pat with [] => Some Byte.x00 | b :: _ => Some (default b (pat !! (i mod length pat)%nat)) end.
Proof.
  intros H. unfold tile. destruct pat as [|b pat]; [by apply lookup_replicate_2|].
  rewrite list_lookup_fmap, (lookup_seq_lt 0 n i H). done.
Qed.

Lemma fill_lookup pass n i : is_random pass = false -> (i < n <= CH)%nat -> fill_pattern pass n !! i = fill_pattern pass CH !! i.
Proof.
  intros Hr H. destruct pass as [b v|v|pat len v]; [|done|]; cbn [fill_pattern].
  - rewrite !lookup_replicate_2 by lia. done.
  - rewrite !tile_lookup by lia. done.
Qed.

Lemma length_tile pat n : length (tile pat n) = n.
Proof. unfold tile. destruct pat; [by rewrite length_replicate|by rewrite length_fmap, length_seq]. Qed.

Lemma length_fill pass n : is_random pass = false -> length (fill_pattern pass n) = n.
Proof. intros H. destruct pass; [apply length_replicate|done|apply length_tile]. Qed.

(** A chunk of the pass. *)
Definition chunk_of (pass : PassPattern) (b : bytes) : Prop :=
  if is_random pass then exists k n, rng k n = Some b else b = fill_pattern pass (length b).

Lemma runs_next_chunk pass n (Q : bytes -> World -> Prop) X w : 0 < n -> may_stop X w ->
  (forall b w', calm w w' -> Z.of_nat (length b) = n -> chunk_of pass b -> Q b w') -> runs (next_chunk p pass n) Q X w.
Proof using R.
  intros Hn HX HQ. unfold next_chunk, chunk_of in *. destruct (is_random pass) eqn:Hr.
  - apply runs_bind, runs_gets, runs_bind, runs_call; [done|]. intros _ w1 H1 _.
    destruct (rng (w_calls w) n) as [b|] eqn:Hb; [|stops; by eapply may_stop_calm].
    apply runs_ret, HQ; [done| |by eexists _, _]. rewrite (rng_length _ _ _ Hb). lia.
  - apply runs_ret, HQ; [done| |]; rewrite (length_fill _ _ Hr); [lia|done].
Qed.

(** Up to [k] the bytes are those of the pass. *)
Definition good_to (pass : PassPattern) (c : bytes) (k : Z) : Prop :=
  keeps_bytes -> forall i, (i < Z.to_nat k)%nat -> good pass c i.

Lemma mod_chunk k i : 0 <= k -> (CHUNK_SIZE | k) -> k <= Z.of_nat i < k + CHUNK_SIZE -> (i mod CH = i - Z.to_nat k)%nat.
Proof.
  intros Hk [q Hq] Hi. assert (Hpos : 0 < CHUNK_SIZE) by done.
  symmetry. apply (Nat.mod_unique _ _ (Z.to_nat q)); [lia|]. rewrite <- Z2Nat.inj_mul by nia.
  replace (CHUNK_SIZE * q) with k by lia. lia.
Qed.

Lemma good_splice pass c b n k : 0 <= k -> (CHUNK_SIZE | k) -> Z.of_nat (length b) <= CHUNK_SIZE -> k + Z.of_nat (length b) <= Z.of_nat (length c) ->
  chunk_of pass b -> good_to pass c k -> good_to pass (splice (Z.to_nat k) (imap (store n) b) c) (k + Z.of_nat (length b)).
Proof.
  intros Hk Hdiv Hb Hc Hch Hg Hkeep i Hi. specialize (Hg Hkeep). rewrite imap_keeps by done.
  destruct (decide (i < Z.to_nat k)%nat) as [Hlt|Hge].
  - specialize (Hg i Hlt). unfold good in *. by rewrite splice_before by lia.
  - assert (Hmod : (i mod CH = i - Z.to_nat k)%nat) by (apply mod_chunk; [done|done|lia]).
    unfold good. rewrite splice_inside, Hmod by lia. unfold chunk_of in Hch. destruct (is_random pass) eqn:Hr.
    + destruct Hch as (m & l & Hrng). by exists m, l, b.
    + rewrite Hch at 1. apply fill_lookup; [done|lia].
Qed.

Lemma runs_write_pass pass index total : forall fuel k last b ms c w,
  in_place c w -> w_media w = ms -> 0 <= k <= size -> (CHUNK_SIZE | k) \/ k = size -> good_to pass c k ->
  (Z.to_nat (size - k) + length (w_flags w) < fuel)%nat ->
  runs (write_pass fuel p pass size index total k last b)
    (fun _ w' => exists c', in_place c' w' /\ w_media w' = ms /\ good_to pass c' size) (halted ms) w.
Proof using R.
  induction fuel as [|fuel IH]; intros k last b ms c w Hc Hm Hk Hdiv Hg Hfuel; [lia|]. cbn [write_pass].
  destruct (Z.ltb_spec k size) as [Hlt|Hge].
  2: { apply runs_ret. exists c. by replace size with k by lia. }
  destruct Hdiv as [Hdiv|]; [|lia].
  apply runs_bind, runs_steer; [by eapply halted_stop|]. intros paused b' w1 H1 Hp.
  pose proof (in_place_calm _ _ _ H1 Hc) as Hc1. assert (Hm1 : w_media w1 = ms) by (destruct H1 as (_ & -> & _); done).
  destruct paused; [eapply IH; [exact Hc1|done|done|by left|done|specialize (Hp eq_refl); lia]|].
  destruct H1 as (_ & _ & Hf1). set (n := Z.min (size - k) CHUNK_SIZE). assert (Hn : 0 < n <= CHUNK_SIZE /\ n <= size - k).
  { assert (0 < CHUNK_SIZE) by done. lia. }
  apply runs_bind, runs_next_chunk; [lia|by eapply halted_stop|]. intros x w2 H2 Hx Hch.
  pose proof (in_place_calm _ _ _ H2 Hc1) as Hc2. assert (Hm2 : w_media w2 = ms) by (destruct H2 as (_ & -> & _); done).
  destruct H2 as (_ & _ & Hf2). apply runs_bind, (runs_write_all _ _ _ c); [done|done|lia|lia|].
  intros j w3 Hc3 Hm3 Hf3. apply runs_bind, runs_gets.
  assert (Hg3 : good_to pass (splice (Z.to_nat k) (imap (store j) x) c) (k + n)).
  { rewrite <- Hx. destruct Hc1 as [_ Hlen]. apply good_splice; [lia|done|lia|lia|done|done]. }
  assert (Hdiv3 : (CHUNK_SIZE | k + n) \/ k + n = size).
  { destruct (Z.le_ge_cases (size - k) CHUNK_SIZE); [right; lia|left]. unfold n. rewrite Z.min_r by lia.
    apply Z.divide_add_r; [done|apply Z.divide_refl]. }
  destruct (_ && _); [apply runs_bind, runs_emit; intros w4 H4; pose proof H4 as (_ & Hm4 & Hf4)|].
  - eapply IH; [by eapply in_place_calm|congruence|lia|done|done|lia].
  - eapply IH; [done|done|lia|done|done|lia].
Qed.

(** ** Reading it back *)

Lemma runs_verify_loop pass : forall fuel k seen ms c w,
  in_place c w -> w_media w = ms -> 0 <= k <= size -> (CHUNK_SIZE | k) \/ k = size ->
  (is_random pass = false -> forall i, (i < Z.to_nat k)%nat -> good pass c i) ->
  (Z.to_nat (size - k) < fuel)%nat ->
  runs (verify_loop fuel p pass size k seen)
    (fun seen' w' => in_place c w' /\ w_media w' = ms /\ (is_random pass = false -> forall i, (i < length c)%nat -> good pass c i) /\
       (seen' = true -> seen = true \/ scrambled c))
    (halted ms) w.
Proof using Type.
  induction fuel as [|fuel IH]; intros k seen ms c w Hc Hm Hk Hdiv Hg Hfuel; [lia|]. cbn [verify_loop].
  destruct (Z.ltb_spec k size) as [Hlt|Hge].
  2: { apply runs_ret. split_and!; [done|done| |by left]. intros Hr i Hi. destruct Hc as [_ Hlen]. apply Hg; [done|lia]. }
  destruct Hdiv as [Hdiv|]; [|lia].
  apply runs_bind, runs_load. intros v w1 H1 _. pose proof (in_place_calm _ _ _ H1 Hc) as Hc1.
  assert (Hm1 : w_media w1 = ms) by (destruct H1 as (_ & -> & _); done).
  destruct (v =? CANCELLED); [stops; by eapply halted_stop|].
  set (n := Z.min (size - k) CHUNK_SIZE). assert (Hn : 0 < n <= CHUNK_SIZE /\ n <= size - k).
  { assert (0 < CHUNK_SIZE) by done. lia. }
  unfold read_exact. apply runs_bind, runs_bind, runs_call_or; [by eapply halted_stop|]. intros w2 H2.
  pose proof (in_place_calm _ _ _ H2 Hc1) as Hc2. assert (Hm2 : w_media w2 = ms) by (destruct H2 as (_ & -> & _); done).
  apply runs_bind, runs_gets. pose proof Hc2 as [Hd2 Hlen]. rewrite Hd2, lookup_insert_eq.
  destruct (_ =? n); [|stops; by eapply halted_stop]. apply runs_ret.
  assert (Hdiv3 : (CHUNK_SIZE | k + n) \/ k + n = size).
  { destruct (Z.le_ge_cases (size - k) CHUNK_SIZE); [right; lia|left]. unfold n. rewrite Z.min_r by lia.
    apply Z.divide_add_r; [done|apply Z.divide_refl]. }
  destruct (is_random pass) eqn:Hr.
  { eapply runs_mono; [by eapply IH; [done|done|lia|done|done|lia]| |done].
    intros seen' w3 (H3 & H4 & H5 & H6). split_and!; [done|done|by intros ?|].
    intros [[?|Hx]%orb_true_iff|?]%H6; [by left| |by right]. right.
    apply existsb_exists in Hx as (x & Hx%list_elem_of_In & Hnz). apply negb_true_iff, bool_decide_eq_false in Hnz.
    apply list_elem_of_lookup in Hx as [i Hi]. apply lookup_take_Some in Hi as [Hi _]. rewrite lookup_drop in Hi. by eexists _, x. }
  case_bool_decide as Hb; [|stops; by eapply halted_stop].
  eapply IH; [done|done|lia|done| |lia]. intros _ i Hi.
  destruct (decide (i < Z.to_nat k)%nat) as [Hlt2|Hge2]; [by apply Hg|].
  unfold good. rewrite Hr. rewrite (mod_chunk k i) by (done || lia).
  rewrite <- (fill_lookup pass (Z.to_nat n)) by (done || lia). rewrite <- Hb, lookup_take_lt, lookup_drop by lia. f_equal. lia.
Qed.

Lemma runs_pass_fuel (Q : nat -> World -> Prop) X w : Q (1 + Z.to_nat size + length (w_flags w))%nat w -> runs (pass_fuel size) Q X w.
Proof. done. Qed.

Lemma runs_verify_pass pass ms c w : in_place c w -> w_media w = ms ->
  runs (verify_pass p pass size)
    (fun _ w' => in_place c w' /\ w_media w' = ms /\ (is_random pass = false -> forall i, (i < length c)%nat -> good pass c i) /\
       (is_random pass = true -> 0 < size -> scrambled c))
    (halted ms) w.
Proof using Type.
  intros Hc Hm. unfold verify_pass. apply runs_bind, runs_call_or; [by eapply halted_stop|]. intros w1 H1.
  pose proof (in_place_calm _ _ _ H1 Hc) as Hc1. assert (Hm1 : w_media w1 = ms) by (destruct H1 as (_ & -> & _); done).
  apply runs_bind, runs_pass_fuel, runs_bind. pose proof Hc1 as [_ Hlen].
  eapply runs_mono; [apply (runs_verify_loop pass _ 0 false ms c)|intros seen w2 (Hc2 & Hm2 & Hg & Hs)|done]; try done; try lia.
  - left. apply Z.divide_0_r.
  - destruct (is_random pass && (0 <? size) && negb seen) eqn:Hf; [stops; by eapply halted_stop|].
    apply runs_ret. split_and!; [done..|]. intros Hr Hpos. rewrite Hr, (proj2 (Z.ltb_lt 0 size) Hpos) in Hf.
    destruct seen; [by destruct (Hs eq_refl)|done].
Qed.

(** ** A pass and all passes *)

(** Stopping during the passes [ps], some of them confirmed. *)
Definition stopped_in (ps : list PassPattern) (ms : list (path * bytes)) (e : ShredStop) (w : World) : Prop :=
  lawful e /\ (exists c, in_place c w) /\
  exists cs, w_media w = ms ++ (pair p <$> cs) /\ (length cs <= length ps)%nat /\ Forall2 written (take (length cs) ps) cs.

Lemma halted_in ps ms e w : halted ms e w -> stopped_in ps ms e w.
Proof using Type.
  intros (He & Hc & Hm). split_and!; [done..|]. exists []. simpl. rewrite app_nil_r. split_and!; [done|lia|constructor].
Qed.

Lemma runs_run_pass index total pass b ms c w : in_place c w -> w_media w = ms ->
  runs (run_pass p size index total pass b)
    (fun _ w' => exists c', in_place c' w' /\ w_media w' = ms ++ [(p, c')] /\ confirmed pass c') (stopped_in [pass] ms) w.
Proof using R.
  intros Hc Hm. unfold run_pass.
  assert (Hstop : forall c' w', in_place c' w' -> w_media w' = ms -> may_stop (stopped_in [pass] ms) w').
  { intros c' w' Hc' Hm' e w'' Hw He. apply halted_in. by apply (halted_stop c' ms w'). }
  apply runs_bind, runs_steer; [by apply (Hstop c)|]. intros x b' w1 H1 _. pose proof (in_place_calm _ _ _ H1 Hc) as Hc1.
  apply runs_bind, runs_emit. intros w2 H2. pose proof (in_place_calm _ _ _ H2 Hc1) as Hc2.
  assert (Hm2 : w_media w2 = ms) by (destruct H1 as (_ & E1 & _), H2 as (_ & E2 & _); congruence).
  apply runs_bind, runs_call_or; [by apply (Hstop c)|]. intros w3 H3. pose proof (in_place_calm _ _ _ H3 Hc2) as Hc3.
  assert (Hm3 : w_media w3 = ms) by (destruct H3 as (_ & E3 & _); congruence). apply runs_bind.
  assert (Hgo : runs (let! fuel := pass_fuel size in let! wp := write_pass fuel p pass size index total 0 0 b' in
      call_or p ;; let! s := call in
      match s with
      | Some e => emit (PassFlushFailed index total) ;; fail (from_io p e)
      | None => let! c := data_at p in modify (add_media (p, c)) ;; (if verifies pass then verify_pass p pass size else ret tt) ;;
                emit (PassCompleted index total size (verifies pass)) ;; ret wp
      end) (fun _ w' => exists c', in_place c' w' /\ w_media w' = ms ++ [(p, c')] /\ confirmed pass c') (stopped_in [pass] ms) w3).
  { apply runs_bind, runs_pass_fuel, runs_bind. pose proof Hc3 as [_ Hlen].
    eapply runs_mono; [apply (runs_write_pass pass index total _ 0 0 b' ms c)|intros y w4 (c4 & Hc4 & Hm4 & Hg)|intros; by apply halted_in];
      try done; try lia; [left; apply Z.divide_0_r|intros ? i Hi; lia|].
    apply runs_bind, runs_call_or; [by apply (Hstop c4)|]. intros w5 H5. pose proof (in_place_calm _ _ _ H5 Hc4) as Hc5.
    assert (Hm5 : w_media w5 = ms) by (destruct H5 as (_ & E5 & _); congruence).
    apply runs_bind, runs_call; [by apply (Hstop c4)|]. intros s w6 H6 He. pose proof (in_place_calm _ _ _ H6 Hc5) as Hc6.
    assert (Hm6 : w_media w6 = ms) by (destruct H6 as (_ & E6 & _); congruence). destruct s as [e|].
    { apply runs_bind, runs_emit. intros w7 H7. stops. apply (Hstop c4); [by eapply in_place_calm|].
      destruct H7 as (_ & E7 & _); congruence. }
    apply runs_bind, runs_gets. pose proof Hc6 as [Hd6 Hl6]. rewrite Hd6, lookup_insert_eq. apply runs_bind, runs_modify.
    set (w7 := add_media (p, c4) w6). assert (Hc7 : in_place c4 w7) by done.
    assert (Hm7 : w_media w7 = ms ++ [(p, c4)]) by (simpl; by rewrite Hm6).
    assert (Hw : written pass c4). { split; [done|]. intros Hk i Hi. apply Hg; [done|lia]. }
    assert (Hend : forall w8, in_place c4 w8 -> w_media w8 = ms ++ [(p, c4)] -> confirmed pass c4 ->
      runs (emit (PassCompleted index total size (verifies pass)) ;; ret y)
        (fun _ w' => exists c', in_place c' w' /\ w_media w' = ms ++ [(p, c')] /\ confirmed pass c') (stopped_in [pass] ms) w8).
    { intros w8 Hc8 Hm8 Hcf. apply runs_bind, runs_emit. intros w9 H9. apply runs_ret. exists c4.
      split_and!; [by eapply in_place_calm| |done]. destruct H9 as (_ & E9 & _); congruence. }
    apply runs_bind. destruct (verifies pass) eqn:Hv; [|by apply runs_ret, Hend; [..|split_and!; rewrite ?Hv]].
    eapply runs_mono; [by apply (runs_verify_pass pass (ms ++ [(p, c4)]) c4)|intros _ w8 (Hc8 & Hm8 & Hg8 & Hs8); by apply Hend|].
    intros e w8 (Hl1 & Hc8 & Hm8). split_and!; [done..|]. exists [c4]. split_and!; [done|done|]. simpl. by constructor. }
  destruct (is_random pass); [|by apply runs_ret]. apply runs_bind, runs_gets.
  destruct (rng _ _); [by apply runs_ret|]. by apply (Hstop c w3).
Qed.

Lemma runs_run_passes ps : forall index total b ms c w, in_place c w -> w_media w = ms ->
  runs (run_passes p size index total ps b)
    (fun _ w' => (exists c', in_place c' w') /\ exists cs, w_media w' = ms ++ (pair p <$> cs) /\ Forall2 confirmed ps cs)
    (stopped_in ps ms) w.
Proof using R.
  induction ps as [|pass ps IH]; intros index total b ms c w Hc Hm; cbn [run_passes].
  { apply runs_ret. split; [by exists c|]. exists []. simpl. rewrite app_nil_r. split; [done|constructor]. }
  apply runs_bind. eapply runs_mono; [by apply (runs_run_pass index total pass b ms c)| |].
  - intros b' w1 (c1 & Hc1 & Hm1 & Hcf). eapply runs_mono; [by eapply IH| |].
    + intros _ w2 (Hc2 & cs & Hm2 & Hcs). split; [done|]. exists (c1 :: cs). rewrite Hm2, <- app_assoc. split; [done|by constructor].
    + intros e w2 (He & Hc2 & cs & Hm2 & Hl & Hcs). split_and!; [done..|]. exists (c1 :: cs). rewrite Hm2, <- app_assoc.
      split_and!; [done|simpl; lia|]. simpl. constructor; [|done]. by destruct Hcf.
  - intros e w1 (He & Hc1 & cs & Hm1 & Hl & Hcs). split_and!; [done..|]. exists cs. split_and!; [done|simpl in *; lia|].
    destruct cs as [|c1 [|]]; simpl in *; [constructor| |lia]. by rewrite take_0.
Qed.

(** ** The end *)

(** A name that is drawn for the file before it is unlinked; what has that
    name and is not a directory is replaced. *)
Definition drawn_name (q : path) : Prop :=
  exists k b, rng k 8 = Some b /\ q = candidate p b /\ (<[p := NFile []]> D0) !! q <> Some NDir.

(** The data is gone, the name perhaps not. *)
Definition emptied (w : World) : Prop :=
  w_disk w = <[p := NFile []]> D0 \/ exists q, drawn_name q /\ w_disk w = <[q := NFile []]> (delete p D0).

Definition over (ms : list (path * bytes)) (e : ShredStop) (w : World) : Prop :=
  lawful e /\ ((exists c, in_place c w) \/ emptied w) /\ w_media w = ms.

Lemma over_stop ms w : ((exists c, in_place c w) \/ emptied w) -> w_media w = ms -> may_stop (over ms) w.
Proof using Type.
  intros Hw Hm e w' (Hd & Hm' & _) He. split_and!; [done| |congruence].
  unfold in_place, emptied. rewrite Hd. done.
Qed.

Lemma runs_rename tries ms (Q : path -> World -> Prop) : forall w, w_disk w = <[p := NFile []]> D0 -> w_media w = ms ->
  (forall q w', drawn_name q -> w_disk w' = <[q := NFile []]> (delete p D0) -> w_media w' = ms -> Q q w') ->
  runs (rename_to_scrubbed tries p) Q (over ms) w.
Proof using Type.
  induction tries as [|tries IH]; intros w Hd Hm HQ; cbn [rename_to_scrubbed].
  { stops. apply over_stop; [by right; left|done]. }
  apply runs_bind, runs_gets. destruct (rng (w_calls w) 8) as [b|] eqn:Hb; [|stops; apply over_stop; [by right; left|done]].
  apply runs_bind, runs_call; [apply over_stop; [by right; left|done]|]. intros r w1 (Hd1 & Hm1 & _) He. rewrite Hd in Hd1. rewrite Hm in Hm1.
  destruct r as [e|].
  - destruct (io_kind e); try (stops; apply over_stop; [by right; left|done]). by apply IH.
  - apply runs_bind, runs_gets. rewrite Hd1.
    assert (Hgo : (<[p := NFile []]> D0) !! candidate p b <> Some NDir ->
      runs (move_node p (candidate p b) ;; ret (candidate p b)) Q (over ms) w1).
    { intros Hnd. apply runs_bind, runs_modify. rewrite Hd1, lookup_insert_eq. apply runs_ret, HQ; [by exists (w_calls w), b| |done].
      simpl. by rewrite delete_insert_eq. }
    destruct ((<[p := NFile []]> D0) !! candidate p b) as [[]|] eqn:Hy; try (by apply Hgo).
    stops. apply over_stop; [by right; left|done].
Qed.

Lemma runs_finish ms c w : in_place c w -> w_media w = ms ->
  runs (finish_file p) (fun _ w' => (exists q, drawn_name q /\ w_disk w' = delete q (delete p D0)) /\ w_media w' = ms) (over ms) w.
Proof using Type.
  intros Hc Hm. unfold finish_file, truncate. apply runs_bind, runs_bind, runs_call_or; [apply over_stop; [by left; exists c|done]|].
  intros w1 (Hd1 & Hm1 & _). destruct Hc as [Hd Hlen]. rewrite Hd in Hd1. apply runs_modify. rewrite Hd1, lookup_insert_eq.
  set (w2 := set_disk _ w1). assert (Hd2 : w_disk w2 = <[p := NFile []]> D0) by (simpl; apply insert_insert_eq).
  apply runs_bind, runs_call_or; [apply over_stop; [by right; left|simpl; congruence]|]. intros w3 (Hd3 & Hm3 & _).
  rewrite Hd2 in Hd3. assert (Hms : w_media w3 = ms) by (rewrite Hm3; simpl; congruence).
  destruct (parent p); [|stops; apply over_stop; [by right; left|done]].
  apply runs_bind, runs_rename; [done|done|]. intros q w4 Hq Hd4 Hm4.
  assert (Hem : emptied w4) by (right; by exists q).
  apply runs_bind, runs_bind, runs_call; [apply over_stop; [by right|done]|]. intros r w5 (Hd5 & Hm5 & _) He. rewrite Hd4 in Hd5.
  assert (Hem5 : emptied w5) by (right; by exists q). rewrite Hm4 in Hm5.
  destruct r as [e|]; [apply runs_ret; stops; apply over_stop; [by right|done]|].
  apply runs_bind, runs_gets. rewrite Hd5, lookup_insert_eq. apply runs_bind, runs_modify, runs_ret, runs_ret.
  split; [|done]. exists q. split; [done|]. simpl. by rewrite Hd5, delete_insert_eq.
Qed.

End shred.

Section shred_file.
Context {E : ShredEnv} {R : RngLaw} (p : path) (D0 : Disk) (c0 : bytes) (m : ShredMethod).
Context (Hfile : D0 !! p = Some (NFile c0)).
#[local] Abbreviation size := (Z.of_nat (length c0)).

(** Every pass of the method, and there is one, has been confirmed. *)
Definition overwritten_by (cs : list bytes) : Prop := passes m <> [] /\ Forall2 (confirmed size) (passes m) cs.

Definition shredded (ms : list (path * bytes)) (r : ShredReport) (w : World) : Prop :=
  exists cs, w_media w = ms ++ (pair p <$> cs) /\ overwritten_by cs /\ (exists q, drawn_name p D0 q /\ w_disk w = delete q (delete p D0)) /\
  r = {| sr_path := p; sr_method := m; sr_passes := pass_count m; sr_bytes_per_pass := size; sr_files := 1 |}.

(** An error: the file stands at its length after some of the passes, or all
    of them are confirmed and only its name is left. *)
Definition unfinished (ms : list (path * bytes)) (e : ShredStop) (w : World) : Prop :=
  lawful e /\ exists cs, w_media w = ms ++ (pair p <$> cs) /\ Forall2 (written size) (take (length cs) (passes m)) cs /\
    ((exists c, in_place p D0 size c w) \/ (emptied p D0 w /\ overwritten_by cs)).

Lemma unfinished_calm ms e w w' : calm w w' -> unfinished ms e w -> unfinished ms e w'.
Proof using Type.
  intros (Hd & Hm & _) (He & cs & Hcs & Hw & Hend). split; [done|]. exists cs. rewrite Hm. split_and!; [done..|].
  unfold in_place, emptied in *. by rewrite Hd.
Qed.

Lemma unfinished_stop ms w : w_disk w = D0 -> w_media w = ms -> may_stop (unfinished ms) w.
Proof using Hfile.
  intros Hd Hm e w' (Hd' & Hm' & _) He. split; [done|]. exists []. simpl. rewrite app_nil_r, take_0.
  split_and!; [congruence|constructor|]. left. exists c0. split; [|done]. by rewrite Hd', Hd, insert_id.
Qed.

Lemma pass_count_length : pass_count m = length (passes m).
Proof using Type. by destruct m. Qed.

Lemma confirmed_written ps cs : Forall2 (confirmed size) ps cs -> Forall2 (written size) (take (length cs) ps) cs.
Proof using Type.
  intros H. rewrite firstn_all2 by (by rewrite (Forall2_length _ _ _ H)). eapply Forall2_impl; [done|]. by intros x y [? _].
Qed.

Lemma runs_shred_body ms w : passes m <> [] -> w_disk w = D0 -> w_media w = ms ->
  runs (run_passes p size 1 (length (passes m)) (passes m) false ;; finish_file p ;;
        emit (Completed p m (length (passes m)) size) ;;
        ret {| sr_path := p; sr_method := m; sr_passes := length (passes m); sr_bytes_per_pass := size; sr_files := 1 |})
    (shredded ms) (unfinished ms) w.
Proof using R Hfile.
  intros Hps Hd Hm. apply runs_bind. eapply runs_mono; [apply (runs_run_passes p D0 size _ _ _ _ ms c0)| |].
  - split; [|done]. by rewrite Hd, insert_id.
  - done.
  - intros _ w1 ((c1 & Hc1) & cs & Hm1 & Hcs). apply runs_bind.
    eapply runs_mono; [by eapply (runs_finish p D0 size _ c1)| |].
    + intros _ w2 (Hd2 & Hm2). apply runs_bind, runs_emit. intros w3 (Hd3 & Hm3 & _). apply runs_ret.
      exists cs. rewrite pass_count_length, Hd3. split_and!; [congruence|done|done|done].
    + intros e w2 (He & Hend & Hm2). split; [done|]. exists cs. split_and!; [congruence|by apply confirmed_written|].
      destruct Hend as [Hc|Hem]; [by left|by right].
  - intros e w1 (He & Hc & cs & Hm1 & _ & Hw). split; [done|]. exists cs. split_and!; [done..|by left].
Qed.

Lemma runs_shred_inner ms w : w_disk w = D0 -> w_media w = ms ->
  runs (shred_file_inner p m) (shredded ms) (unfinished ms) w.
Proof using R Hfile.
  intros Hd Hm. unfold shred_file_inner.
  assert (Hstop : forall w', calm w w' -> may_stop (unfinished ms) w').
  { intros w' (Hd' & Hm' & _). apply unfinished_stop; congruence. }
  assert (Hrefl : calm w w) by done.
  destruct (_ && _) eqn:Hpurge; [by apply runs_fail; [intros ? ?|apply Hstop]|]. destruct (is_cow_filesystem p); [by apply runs_fail; [intros ? ?|apply Hstop]|].
  apply runs_bind, runs_call_or; [by apply Hstop|]. intros w1 H1. apply runs_bind, runs_gets.
  assert (Hf : w_disk w1 !! p = Some (NFile c0)) by (destruct H1 as (-> & _); by rewrite Hd). rewrite Hf.
  apply runs_bind, runs_emit. intros w2 H2. apply runs_bind.
  assert (Hgo : forall w3, calm w2 w3 -> runs (call_or p ;; run_passes p size 1 (length (passes m)) (passes m) false ;;
      finish_file p ;; emit (Completed p m (length (passes m)) size) ;;
      ret {| sr_path := p; sr_method := m; sr_passes := length (passes m); sr_bytes_per_pass := size; sr_files := 1 |})
      (shredded ms) (unfinished ms) w3).
  { intros w3 H3. assert (Hps : passes m <> []) by (by destruct m). assert (Hw3 : calm w w3) by (do 2 (etransitivity; [eassumption|]); done).
    apply runs_bind, runs_call_or; [by apply Hstop|]. intros w4 H4.
    assert (Hw4 : calm w w4) by (etransitivity; eassumption). destruct Hw4 as (Hd4 & Hm4 & _).
    apply runs_shred_body; congruence. }
  destruct (ssd_probe p) as [[]|]; [apply runs_emit| apply runs_ret|apply runs_emit]; auto. by apply Hgo.
Qed.

Lemma runs_announced {A} (x : SM World ShredStop A) (Q : A -> World -> Prop) (X : ShredStop -> World -> Prop) w :
  (forall e w' w'', calm w' w'' -> X e w' -> X e w'') -> runs x Q X w -> runs (announced x) Q X w.
Proof using Type.
  intros HX. unfold runs, wp, announced. destruct (x w) as [[a|[e| |]] w']; try done. intros H. eapply HX; [|exact H]. done.
Qed.

Lemma runs_shred_file ms w : w_disk w = D0 -> w_media w = ms -> runs (shred_file p m) (shredded ms) (unfinished ms) w.
Proof using R Hfile.
  intros Hd Hm. apply runs_announced; [|by apply runs_shred_inner]. intros e w' w'' Hc. by apply unfinished_calm.
Qed.

End shred_file.

(** C8: when shredding a regular file succeeds, every pass of the method, and
    there is at least one, was written over the whole file and confirmed by
    [sync_all] before the name went ([w_media]): on a medium that keeps what
    is written each such content is the pattern or the random bytes of its
    pass.  Whatever the medium does, a pattern that verifies was read back and
    found byte for byte, and a random pass that verifies was read back and
    found not to be all zero, which is all the code asks for.  Nothing else on
    the disk has changed, except that a file or link that had the random name
    the file is given before it is unlinked is gone with it.  When shredding
    fails, the file stands where it was at its length after some of the
    passes, or all passes are confirmed and only an empty file, under the old
    or a drawn name, is left.  The random source fills what it is asked to
    fill. *)
Theorem shredded_file_was_overwritten {E : ShredEnv} {R : RngLaw} p c m w :
  w_disk w !! p = Some (NFile c) ->
  match shred_file p m w with
  | (Ok r, w') => shredded p (w_disk w) c m (w_media w) r w'
  | (Err e, w') => unfinished p (w_disk w) c m (w_media w) e w'
  end.
Proof.
  intros Hc. pose proof (runs_shred_file p (w_disk w) c m Hc (w_media w) w eq_refl eq_refl) as H.
  unfold runs, wp in H. by destruct (shred_file p m w) as [[r|e] w'].
Qed.
