(* ===== verification/ShredTree.v ===== *)
(** * What a shredded tree has been through

    A file leaves the tree only after every pass of the method was confirmed on
    it, whatever else happens, or because it has a name that was drawn for
    another file; a run that succeeds leaves nothing at or below the root and
    has not touched the rest of the disk.

    The second part runs the shredder on a small disk. *)
From S2P Require Import Prelude.
From S2P Require Import Text.
From S2P Require Import Monad.
From S2P Require Import Files.
From S2P Require Import StdIo.
From S2P Require Import Control.
From S2P Require Import CopyFile.
From S2P Require Import Shred.
From S2P Require Import ShredProof.
From S2P Require Import ChunkTypes.
From stdpp Require Import options.
Open Scope Z_scope.
#[local] Open Scope monad_scope.

(** What [walkdir] reports lies at or below the root and is what is there. *)
Definition walk_ok (walk : Disk -> path -> list (path * option Node)) : Prop := forall d root p meta,
  (p, meta) ∈ walk d root -> root `prefix_of` p /\ forall v, meta = Some v -> d !! p = Some v.

(** An entry's parent is a directory. *)
Definition tree_closed (d : Disk) : Prop := forall p n x, d !! (p ++ [n]) = Some x -> d !! p = Some NDir.

Lemma enumerate_listed root entries files dirs total : enumerate root entries = (files, dirs, total) ->
  (forall f, f ∈ files -> exists v, (fe_path f, Some v) ∈ entries /\ (fe_is_symlink f = true -> v = NLink)) /\
  (forall p, p ∈ dirs -> exists v, (p, Some v) ∈ entries).
Proof.
  revert files dirs total. induction entries as [|[p meta] entries IH]; intros files dirs total; simpl.
  { intros [= <- <- <-]. split; intros x Hx; by apply not_elem_of_nil in Hx. }
  destruct (enumerate root entries) as [[fs ds] t] eqn:He. destruct (IH _ _ _ eq_refl) as [Hf Hd].
  assert (Hf' : forall f, f ∈ fs -> exists v, (fe_path f, Some v) ∈ (p, meta) :: entries /\ (fe_is_symlink f = true -> v = NLink)).
  { intros f Hin. destruct (Hf f Hin) as (v & Hv & Hl). exists v. split; [by right|done]. }
  assert (Hd' : forall x, x ∈ ds -> exists v, (x, Some v) ∈ (p, meta) :: entries).
  { intros x Hin. destruct (Hd x Hin) as (v & Hv). exists v. by right. }
  destruct meta as [[c| |]|]; [| |intros [= <- <- <-]; split|intros [= <- <- <-]; by split].
  - intros [= <- <- <-]. split; [|done]. intros f [->|Hin]%elem_of_cons; [|by apply Hf']. exists (NFile c). split; [by left|done].
  - intros [= <- <- <-]. split; [done|]. intros x Hx. case_bool_decide; [|by apply Hd'].
    apply elem_of_cons in Hx as [->|Hin]; [|by apply Hd']. exists NDir. by left.
  - intros f [->|Hin]%elem_of_cons; [|by apply Hf']. exists NLink. split; [by left|done].
  - done.
Qed.

Section tree.
Context {E : ShredEnv} {R : RngLaw} (D0 : Disk) (root : path) (m : ShredMethod).

Definition overwritten (x : path) (c : bytes) (w : World) : Prop :=
  exists cs, overwritten_by c m cs /\ forall c', c' ∈ cs -> (x, c') ∈ w_media w.

(** A name below the root that the random source gave to a file before it was
    unlinked. *)
Definition namesake (x : path) : Prop := exists q k b, rng k 8 = Some b /\ x = candidate q b /\ root `prefix_of` q /\ q <> root.

Definition accounted (w : World) : Prop := forall x c, D0 !! x = Some (NFile c) ->
  (exists c', w_disk w !! x = Some (NFile c') /\ length c' = length c) \/ overwritten x c w \/ namesake x.

(** Between two entries. *)
Record settled (w : World) : Prop := {
  st_sub : w_disk w ⊆ D0;
  st_outside : forall x, ~ root `prefix_of` x -> w_disk w !! x = D0 !! x;
  st_files : forall x c, D0 !! x = Some (NFile c) -> w_disk w !! x = Some (NFile c) \/ overwritten x c w \/ namesake x;
  st_dirs : forall p n, D0 !! p = Some NDir -> w_disk w !! p = None -> w_disk w !! (p ++ [n]) = None
}.

Lemma overwritten_mono x c w w' : w_media w ⊆ w_media w' -> overwritten x c w -> overwritten x c w'.
Proof. intros Hm (cs & Hcs & Hin). exists cs. split; [done|]. intros c' Hc'. by apply Hm, Hin. Qed.

Lemma settled_calm w w' : calm w w' -> settled w -> settled w'.
Proof using Type.
  intros (Hd & Hm & _) [H1 H2 H3 H4]. split; rewrite ?Hd; try done. intros x c Hx. destruct (H3 x c Hx) as [|[Ho|]]; [by left| |by right; right].
  right; left. eapply overwritten_mono; [|done]. by rewrite Hm.
Qed.

Lemma settled_accounted w : settled w -> accounted w.
Proof using Type. intros [_ _ H _] x c Hx. destruct (H x c Hx) as [|]; [left; by exists c|by right]. Qed.

(** An entry leaves. *)
Lemma settled_delete x w w' : settled w -> root `prefix_of` x -> w_disk w' = delete x (w_disk w) -> w_media w ⊆ w_media w' ->
  (D0 !! x = Some NDir -> forall n, w_disk w !! (x ++ [n]) = None) ->
  (forall c, D0 !! x = Some (NFile c) -> overwritten x c w' \/ namesake x) -> settled w'.
Proof using Type.
  intros [H1 H2 H3 H4] Hx Hd Hm Hdir Hfile. split; rewrite Hd.
  - etransitivity; [apply delete_subseteq|done].
  - intros y Hy. rewrite lookup_delete_ne by (by intros ->). by apply H2.
  - intros y c Hy. destruct (decide (x = y)) as [<-|Hne]; [right; by apply Hfile|]. rewrite lookup_delete_ne by done.
    destruct (H3 y c Hy) as [|[Ho|]]; [by left|right; left|by right; right]. by eapply overwritten_mono.
  - intros y n Hy Hnone. destruct (decide (x = y ++ [n])) as [->|Hne2]; [apply lookup_delete_eq|]. rewrite lookup_delete_ne by done.
    destruct (decide (x = y)) as [<-|Hne]; [by apply Hdir|]. rewrite lookup_delete_ne in Hnone by done. by apply H4.
Qed.

(** Stopping at any point. *)
Definition tree_stop (e : ShredStop) (w : World) : Prop := e <> SeStuck /\ accounted w.

Lemma settled_stop w : settled w -> may_stop tree_stop w.
Proof using Type.
  intros Hw e w' Hc He. split; [by intros ->|]. by eapply settled_accounted, settled_calm.
Qed.

Lemma media_after (w w' : World) p cs : w_media w' = w_media w ++ (pair p <$> cs) -> w_media w ⊆ w_media w'.
Proof. intros -> x Hx. apply elem_of_app. by left. Qed.

Lemma media_listed (w w' : World) (p : path) cs : w_media w' = w_media w ++ (pair p <$> cs) -> forall c, c ∈ cs -> (p, c) ∈ w_media w'.
Proof. intros -> c Hc. apply elem_of_app. right. by apply list_elem_of_fmap_2. Qed.

(** ** A file of the tree *)

Context (Hroot : D0 !! root = Some NDir).

(** A name drawn for a file of the tree. *)
Lemma drawn_below p c q w : settled w -> root `prefix_of` p -> w_disk w !! p = Some (NFile c) ->
  drawn_name p (w_disk w) q -> namesake q /\ root `prefix_of` q /\ w_disk w !! q <> Some NDir.
Proof using Hroot.
  intros Hw Hp Hc (k & b & Hb & -> & Hnd).
  assert (Hne : p <> root) by (intros ->; pose proof (lookup_weaken _ _ _ _ Hc (st_sub _ Hw)); congruence).
  assert (Hpre : root `prefix_of` candidate p b).
  { destruct Hp as [l ->]. unfold candidate. destruct l as [|n l _] using rev_ind; [by rewrite app_nil_r in Hne|].
    rewrite app_assoc, parent_snoc. simpl. rewrite <- app_assoc. by eexists. }
  split; [by exists p, k, b|]. split; [done|]. intros Hd. apply Hnd. rewrite lookup_insert_ne; [done|]. intros E0. rewrite <- E0 in Hd. congruence.
Qed.

Lemma settled_shredded p c r w w' : settled w -> root `prefix_of` p -> w_disk w !! p = Some (NFile c) ->
  shredded p (w_disk w) c m (w_media w) r w' -> settled w'.
Proof using Hroot.
  intros Hw Hp Hc (cs & Hm & Hcs & (q & Hq & Hd) & _). pose proof (st_sub _ Hw) as Hsub.
  destruct (drawn_below _ _ _ _ Hw Hp Hc Hq) as (Hns & Hpre & Hnd).
  assert (Hw1 : settled (set_disk (delete p (w_disk w)) w')).
  { apply (settled_delete p w); [done|done|done|by eapply media_after| |].
    - intros Hdir. rewrite (lookup_weaken _ _ _ _ Hc Hsub) in Hdir. done.
    - intros c' Hc'. rewrite (lookup_weaken _ _ _ _ Hc Hsub) in Hc'. injection Hc' as <-. left. exists cs. split; [done|].
      by eapply media_listed. }
  apply (settled_delete q (set_disk (delete p (w_disk w)) w')); [done|done|done|done| |intros c' _; by right].
  intros Hdir n. apply (st_dirs _ Hw1); [done|]. simpl. destruct (delete p (w_disk w) !! q) as [v|] eqn:Hv; [|done].
  apply lookup_delete_Some in Hv as [_ Hv]. pose proof (lookup_weaken _ _ _ _ Hv Hsub). congruence.
Qed.

Lemma accounted_unfinished p c e w w' : settled w -> root `prefix_of` p -> w_disk w !! p = Some (NFile c) ->
  unfinished p (w_disk w) c m (w_media w) e w' -> accounted w'.
Proof using Hroot.
  intros Hw Hp Hc (_ & cs & Hm & _ & Hend) x cx Hx. pose proof (st_sub _ Hw) as Hsub.
  assert (Hpx : p = x -> c = cx).
  { intros <-. rewrite (lookup_weaken _ _ _ _ Hc Hsub) in Hx. by injection Hx. }
  assert (Hother : p <> x -> (w_disk w !! x = Some (NFile cx) -> w_disk w' !! x = Some (NFile cx) \/ namesake x) ->
    (exists c', w_disk w' !! x = Some (NFile c') /\ length c' = length cx) \/ overwritten x cx w' \/ namesake x).
  { intros Hne Hk. destruct (st_files _ Hw x cx Hx) as [Hin|[Ho|]]; [|right; left|by right; right].
    - destruct (Hk Hin); [left; by exists cx|by right; right].
    - eapply overwritten_mono; [|done]. by eapply media_after. }
  destruct Hend as [(c' & Hd & Hl)|[Hem Hcs]].
  - destruct (decide (p = x)) as [<-|Hne].
    + left. exists c'. rewrite Hd, lookup_insert_eq. split; [done|]. rewrite <- (Hpx eq_refl). lia.
    + apply Hother; [done|]. intros Hin. left. by rewrite Hd, lookup_insert_ne.
  - destruct (decide (p = x)) as [<-|Hne].
    + right; left. rewrite <- (Hpx eq_refl). exists cs. split; [done|]. by eapply media_listed.
    + apply Hother; [done|]. intros Hin. destruct Hem as [Hd|(q & Hq & Hd)].
      * left. by rewrite Hd, lookup_insert_ne.
      * destruct (drawn_below _ _ _ _ Hw Hp Hc Hq) as (Hns & _). destruct (decide (q = x)) as [<-|Hqx]; [by right|left].
        by rewrite Hd, lookup_insert_ne, lookup_delete_ne.
Qed.

(** Anything but a regular file is refused. *)
Lemma runs_shred_other p w : (forall c, w_disk w !! p <> Some (NFile c)) ->
  runs (shred_file p m) (fun _ _ => False) (fun e w' => e <> SeStuck /\ calm w w') w.
Proof using Type.
  intros Hp. apply runs_announced; [intros e w1 w2 H2 [He H1]; split; [done|by transitivity w1]|].
  assert (Hstop : forall w', calm w w' -> may_stop (fun e w' => e <> SeStuck /\ calm w w') w').
  { intros w' Hc e w2 H2 He. split; [by intros ->|by transitivity w']. }
  unfold shred_file_inner. destruct (_ && _); [by split|]. destruct (is_cow_filesystem p); [by split|].
  apply runs_bind, runs_call_or; [by apply Hstop|]. intros w1 H1. apply runs_bind, runs_gets.
  assert (Hn : forall c, w_disk w1 !! p <> Some (NFile c)) by (destruct H1 as (-> & _); done).
  destruct (w_disk w1 !! p) as [[c| |]|]; [by destruct (Hn c)|by split..].
Qed.

Lemma runs_attempt {A} (x : SM World ShredStop A) (Q : result ShredError A -> World -> Prop) (X : ShredStop -> World -> Prop) w :
  runs x (fun a => Q (Ok a)) (fun e w' => match e with SeErr e => Q (Err e) w' | _ => X e w' end) w -> runs (attempt x) Q X w.
Proof using Type. unfold runs, wp, attempt. by destruct (x w) as [[a|[e| |]] w']. Qed.

(** ** The loops *)

Context (Hcalls : honest_calls).

Lemma runs_remove_file p (Q : option IoError -> World -> Prop) X w : may_stop X w ->
  (forall r w', calm w w' -> (r <> None \/ w_disk w' !! p = None) -> Q r w') ->
  (forall w' v, v <> NDir -> w_disk w !! p = Some v -> w_disk w' = delete p (w_disk w) -> w_media w' = w_media w -> Q None w') ->
  runs (remove_file p) Q X w.
Proof using Type.
  intros HX Hno Hyes. apply runs_bind, runs_call; [done|]. intros [e|] w1 H1 _; [apply runs_ret, Hno; [done|by left]|].
  apply runs_bind, runs_gets. pose proof H1 as (Hd & Hm & _).
  destruct (w_disk w1 !! p) as [v|] eqn:Hv; [|apply runs_ret, Hno; [done|by left]].
  destruct v; [|apply runs_ret, Hno; [done|by left]|]; apply runs_bind, runs_modify, runs_ret;
    (eapply Hyes; [|by rewrite <- Hd| |]; [done|simpl; congruence|done]).
Qed.

Lemma runs_shred_entries ft bt : forall files fd bd w, settled w ->
  (forall f, f ∈ files -> root `prefix_of` fe_path f /\ (fe_is_symlink f = true -> D0 !! fe_path f = Some NLink)) ->
  runs (shred_entries root m files ft bt fd bd) (fun _ w' => settled w') tree_stop w.
Proof using R Hcalls Hroot.
  induction files as [|f files IH]; intros fd bd w Hw Hfs; cbn [shred_entries]; [by apply runs_ret|].
  destruct (Hfs f) as [Hpre Hlink]; [by left|]. assert (Hfs' : forall g, g ∈ files -> root `prefix_of` fe_path g /\
    (fe_is_symlink g = true -> D0 !! fe_path g = Some NLink)) by (intros g Hg; apply Hfs; by right).
  apply runs_bind, runs_load. intros v w1 H1 _. pose proof (settled_calm _ _ H1 Hw) as Hw1.
  destruct (v =? CANCELLED); [by apply runs_fail; [intros ? ?|apply settled_stop]|].
  assert (Hnext : forall n b w2, settled w2 -> runs (emit (TreeProgress n ft b bt) ;; shred_entries root m files ft bt n b)
    (fun _ w' => settled w') tree_stop w2).
  { intros n b w2 Hw2. apply runs_bind, runs_emit. intros w3 H3. apply IH; [by eapply settled_calm|done]. }
  destruct (fe_is_symlink f).
  - apply runs_bind, runs_remove_file; [by apply settled_stop| |].
    + intros r w2 H2 _. pose proof (settled_calm _ _ H2 Hw1) as Hw2. apply runs_bind.
      destruct r as [e|]; [|by apply runs_ret, Hnext].
      destruct (io_kind e) eqn:Hk; try (by apply runs_ret, Hnext);
        (apply runs_fail; [apply from_io_not_missing; by rewrite Hk|by apply settled_stop]).
    + intros w2 x Hx Hin Hd Hm. apply runs_bind, runs_ret, Hnext. apply (settled_delete (fe_path f) w1); [done|done|done|by rewrite Hm| |].
      * rewrite Hlink; done.
      * rewrite Hlink; done.
  - apply runs_bind, runs_attempt. destruct (w_disk w1 !! fe_path f) as [[c| |]|] eqn:Hc.
    1: { eapply runs_mono; [by apply (runs_shred_file _ (w_disk w1) c m Hc (w_media w1))|..].
      - intros rep w2 Hs. apply runs_bind, runs_ret, Hnext. by eapply settled_shredded.
      - intros e w2 Hs. pose proof (accounted_unfinished _ _ _ _ _ Hw1 Hpre Hc Hs) as Ha. destruct Hs as [He _].
        destruct e as [e| |]; [|by split|done]. apply runs_bind. rewrite bool_decide_eq_false_2 by (by apply He). by split. }
    all: eapply runs_mono; [by apply runs_shred_other; intros c'; rewrite Hc|done|].
    all: intros e w2 [He H2]; pose proof (settled_calm _ _ H2 Hw1) as Hw2.
    all: destruct e as [e| |]; [|by split; [|apply settled_accounted]|done]; apply runs_bind; case_bool_decide;
      [by apply runs_ret, Hnext|by split; [|apply settled_accounted]].
Qed.

Lemma runs_remove_dir_or d w (Q : unit -> World -> Prop) : settled w -> root `prefix_of` d ->
  (forall w', settled w' -> w_disk w' !! d = None -> Q tt w') -> runs (remove_dir_or d) Q tree_stop w.
Proof using Hcalls.
  intros Hw Hpre HQ. apply runs_bind. unfold remove_dir. apply runs_bind, runs_call; [by apply settled_stop|].
  intros [e|] w1 H1 He; pose proof (settled_calm _ _ H1 Hw) as Hw1.
  { apply runs_ret. specialize (He e eq_refl Hcalls). destruct (io_kind e) eqn:Hk; try done;
      (apply runs_fail; [apply from_io_not_missing; by rewrite Hk|by apply settled_stop]). }
  assert (Hno : forall n, runs (ret (Some {| io_kind := EkOther; io_errno := Some n |})) (fun a w' =>
    runs match a with None => ret tt | Some e => match io_kind e with EkNotFound => ret tt | _ => fail (from_io d e) end end
      Q tree_stop w') tree_stop w1).
  { intros n. apply runs_ret, runs_fail; [by intros ? ?|by apply settled_stop]. }
  apply runs_bind, runs_gets. destruct (w_disk w1 !! d) as [[c| |]|] eqn:Hd; [apply Hno| |apply Hno|by apply runs_ret, runs_ret, HQ].
  case_bool_decide as Hempty; [|apply Hno]. apply runs_bind, runs_modify, runs_ret, runs_ret.
  pose proof (lookup_weaken _ _ _ _ Hd (st_sub _ Hw1)) as HD. apply HQ; [|apply lookup_delete_eq].
  apply (settled_delete d w1); [done|done|done|done| |congruence]. intros _ n.
  destruct (w_disk w1 !! (d ++ [n])) as [v|] eqn:Hv; [|done]. exfalso.
  assert (Hin : (d ++ [n], v) ∈ filter (fun x : path * Node => parent x.1 = Some d) (map_to_list (w_disk w1))).
  { apply list_elem_of_filter. split; [apply parent_snoc|by apply elem_of_map_to_list]. }
  rewrite Hempty in Hin. by apply not_elem_of_nil in Hin.
Qed.

Lemma runs_remove_dirs : forall dirs w (Q : unit -> World -> Prop), settled w -> (forall d, d ∈ dirs -> root `prefix_of` d) ->
  (forall w', settled w' -> Q tt w') -> runs (remove_dirs root dirs) Q tree_stop w.
Proof using Hcalls.
  induction dirs as [|d dirs IH]; intros w Q Hw Hds HQ; cbn [remove_dirs]; [by apply runs_ret, HQ|].
  apply runs_bind, runs_load. intros v w1 H1 _. pose proof (settled_calm _ _ H1 Hw) as Hw1.
  destruct (v =? CANCELLED); [by apply runs_fail; [intros ? ?|apply settled_stop]|].
  apply runs_bind, runs_remove_dir_or; [done|apply Hds; by left|]. intros w2 Hw2 _. apply IH; [done| |done].
  intros x Hx. apply Hds. by right.
Qed.

(** ** The tree *)

Context (Hclosed : tree_closed D0).

(** Below a directory that is gone nothing is left. *)
Lemma settled_gone w : settled w -> w_disk w !! root = None -> w_disk w = filter (fun x => ~ root `prefix_of` x.1) D0.
Proof using Hclosed.
  intros Hw Hgone. assert (Hall : forall l, w_disk w !! (root ++ l) = None).
  { induction l as [|n l IH] using rev_ind; [by rewrite app_nil_r|]. rewrite app_assoc.
    destruct (w_disk w !! ((root ++ l) ++ [n])) as [v|] eqn:Hv; [|done]. exfalso.
    pose proof (Hclosed _ _ _ (lookup_weaken _ _ _ _ Hv (st_sub _ Hw))) as Hdir.
    by rewrite (st_dirs _ Hw _ _ Hdir IH) in Hv. }
  apply map_eq. intros x. destruct (decide (root `prefix_of` x)) as [Hx|Hx].
  - destruct Hx as [l ->]. rewrite Hall. symmetry. apply map_lookup_filter_None_2. right. intros v _ Hn. apply Hn. by exists l.
  - rewrite (st_outside _ Hw x Hx). destruct (D0 !! x) as [v|] eqn:Hv; symmetry.
    + by apply map_lookup_filter_Some_2.
    + by apply map_lookup_filter_None_2; left.
Qed.

Context (walk : Disk -> path -> list (path * option Node)) (Hwalk : walk_ok walk).

Lemma settled_start w : w_disk w = D0 -> settled w.
Proof using Hclosed.
  intros Hd. split; rewrite ?Hd; [done|done|by left|]. intros p n Hp Hnone. congruence.
Qed.

Lemma runs_shred_tree w : w_disk w = D0 ->
  runs (shred_tree walk root m)
    (fun _ w' => accounted w' /\ w_disk w' = filter (fun x => ~ root `prefix_of` x.1) D0) tree_stop w.
Proof using R Hcalls Hclosed Hwalk Hroot.
  intros Hd. pose proof (settled_start _ Hd) as Hw. apply runs_announced.
  { intros e w1 w2 (Hd2 & Hm2 & _) [He Ha]. split; [done|]. unfold accounted, overwritten in *. by rewrite Hd2, Hm2. }
  unfold shred_tree_inner. apply runs_bind, runs_call_or; [by apply settled_stop|]. intros w1 H1.
  assert (Hd1 : w_disk w1 = D0) by (destruct H1 as (-> & _); done). apply runs_bind, runs_gets. rewrite Hd1, Hroot.
  apply runs_bind, runs_gets. rewrite Hd1. destruct (enumerate root (walk D0 root)) as [[files dirs] total] eqn:He.
  destruct (enumerate_listed _ _ _ _ _ He) as [Hfs Hds].
  apply runs_bind, runs_emit. intros w2 H2. pose proof (settled_calm _ _ H2 (settled_start _ Hd1)) as Hw2.
  apply runs_bind. eapply runs_mono; [apply runs_shred_entries; [done|]| |done].
  { intros f Hf. destruct (Hfs f Hf) as (v & Hv & Hl). destruct (Hwalk D0 root _ _ Hv) as [Hpre Hin].
    split; [done|]. intros Hs. rewrite <- (Hl Hs). by apply Hin. } intros bytes w3 Hw3.
  apply runs_bind, runs_remove_dirs; [done| |].
  { intros x Hx. destruct (Hds x Hx) as (v & Hv). by destruct (Hwalk D0 root _ _ Hv). } intros w4 Hw4. apply runs_bind, runs_remove_dir_or; [done|done|].
  intros w5 Hw5 Hgone. apply runs_bind, runs_emit. intros w6 H6. pose proof (settled_calm _ _ H6 Hw5) as Hw6. apply runs_ret.
  split; [by apply settled_accounted|]. apply settled_gone; [done|]. by destruct H6 as (-> & _).
Qed.
End tree.

(** C9: shredding a directory tree, however it ends, each regular file of the
    disk is still in its place at its length, unless every pass of the method
    was confirmed on it (written over the whole of it and acknowledged by
    [sync_all]; on a medium that keeps what is written with the contents of
    the passes), or it has a random name that was drawn, below the root, for
    another file before that was unlinked, and was replaced by it.  When it
    succeeds the disk is the old one without what stood at or below the root.
    What the walk reports lies at or below the root and is what is there, the
    parent of each entry is a directory, a call refused with [NotFound] is one
    whose path is missing, and the random source fills what it is asked to
    fill. *)
Theorem shredded_tree_was_overwritten {E : ShredEnv} {R : RngLaw} walk root m w :
  walk_ok walk -> tree_closed (w_disk w) -> honest_calls -> w_disk w !! root = Some NDir ->
  match shred_tree walk root m w with
  | (Ok _, w') => accounted (w_disk w) root m w' /\ w_disk w' = filter (fun x => ~ root `prefix_of` x.1) (w_disk w)
  | (Err e, w') => e <> SeStuck /\ accounted (w_disk w) root m w'
  end.
Proof.
  intros Hwalk Hclosed Hcalls Hroot.
  pose proof (runs_shred_tree (w_disk w) root m Hroot Hcalls Hclosed walk Hwalk w eq_refl) as H.
  unfold runs, wp in H. by destruct (shred_tree walk root m w) as [[r|e] w'].
Qed.

(** * Secure deletion on a small disk

    Witnesses and examples: a directory with one file and a link, and the
    behaviours of the shredder that differ from its comments. *)

Definition demo_env (calls : nat -> CallOutcome) : ShredEnv := {|
  call_at := calls; part _ := O; store _ _ b := b; rng _ n := Some (replicate (Z.to_nat n) Byte.x01);
  interval_due _ := true; ssd_probe _ := None; cow_probe := None
|}.

Definition demo_file : path := ["r"; "f"].
Definition demo_data : bytes := [Byte.x41; Byte.x42; Byte.x43].

Definition demo_disk : Disk :=
  <[[] := NDir]> (<[["r"] := NDir]> (<[demo_file := NFile demo_data]> (<[["r"; "l"] := NLink]> ∅))).

Definition demo_world (l : list Z) : World :=
  {| w_disk := demo_disk; w_calls := 0; w_flags := l; w_events := []; w_media := [] |}.

Definition demo_walk (d : Disk) (root : path) : list (path * option Node) :=
  filter (fun x => root `prefix_of` x.1) (prod_map id Some <$> reverse (map_to_list d)).

Lemma demo_rng_law calls : @RngLaw (demo_env calls).
Proof. intros n k b [= <-]. rewrite length_replicate. lia. Qed.

Lemma demo_walk_ok : walk_ok demo_walk.
Proof.
  intros d root p meta H. apply list_elem_of_filter in H as [Hp H]. split; [done|].
  apply list_elem_of_fmap in H as ([q v] & [= -> ->] & Hin). apply elem_of_reverse, elem_of_map_to_list in Hin. by intros v' [= <-].
Qed.

Lemma demo_keys k v : demo_disk !! k = Some v -> k ∈ [[]; ["r"]; demo_file; ["r"; "l"]].
Proof.
  intros H. apply list_elem_of_In. unfold demo_disk in H.
  repeat (apply lookup_insert_Some in H as [[<- _]|[_ H]]; [simpl; tauto|]). by rewrite lookup_empty in H.
Qed.

Lemma demo_closed : tree_closed demo_disk.
Proof.
  intros p n x H%demo_keys. assert (Hs : forall q (b : string), p ++ [n] = q ++ [b] -> p = q) by (by intros q b [-> _]%app_inj_tail).
  repeat (apply elem_of_cons in H as [H|H]); [by destruct p| | | |by apply not_elem_of_nil in H].
  - by rewrite (Hs [] "r" H).
  - by rewrite (Hs ["r"] "f" H).
  - by rewrite (Hs ["r"] "l" H).
Qed.

(** ** A run *)

#[local] Abbreviation works := (demo_env (fun _ => Works)).

Definition run_file (m : ShredMethod) (l : list Z) :=
  let r := @shred_file works demo_file m (demo_world l) in
  (match r.1 with Ok rep => Some (sr_passes rep) | Err _ => None end, (w_disk r.2 !! demo_file), w_media r.2).

Example demo_vsitr : run_file Vsitr7 [] =
  (Some 7%nat, None, (fun b => (demo_file, [b; b; b])) <$> [Byte.x00; Byte.xff; Byte.x00; Byte.xff; Byte.x00; Byte.xff; Byte.xaa]).
Proof. vm_compute. reflexivity. Qed.

(** Cancelled during the second pass: the first is confirmed, the file is
    there. *)
Example demo_cancelled : run_file Zero [0; 0; CANCELLED] = (None, Some (NFile demo_data), []).
Proof. vm_compute. reflexivity. Qed.

Lemma shredded_file_was_overwritten_witness :
  match @shred_file works demo_file Vsitr7 (demo_world []) with
  | (Ok r, w') => @shredded works demo_file demo_disk demo_data Vsitr7 [] r w'
  | (Err e, w') => @unfinished works demo_file demo_disk demo_data Vsitr7 [] e w'
  end.
Proof.
  exact (@shredded_file_was_overwritten works (demo_rng_law _) demo_file demo_data Vsitr7 (demo_world [])
    eq_refl).
Defined.

Definition run_tree (calls : nat -> CallOutcome) (m : ShredMethod) :=
  let r := @shred_tree (demo_env calls) demo_walk ["r"] m (demo_world []) in
  (match r.1 with Ok rep => Some (sr_files rep, sr_bytes_per_pass rep) | Err _ => None end, map_to_list (w_disk r.2), w_media r.2).

Example demo_tree_shreds : run_tree (fun _ => Works) Schneier7 =
  (Some (2, 3), [([], NDir)],
   (fun b => (demo_file, [b; b; b])) <$> [Byte.x00; Byte.xff; Byte.x01; Byte.x01; Byte.x01; Byte.x01; Byte.x01]).
Proof. vm_compute. reflexivity. Qed.

Lemma shredded_tree_was_overwritten_witness :
  match @shred_tree works demo_walk ["r"] Schneier7 (demo_world []) with
  | (Ok _, w') => @accounted works demo_disk ["r"] Schneier7 w' /\ w_disk w' = filter (fun x => ~ ["r"] `prefix_of` x.1) demo_disk
  | (Err e, w') => e <> SeStuck /\ @accounted works demo_disk ["r"] Schneier7 w'
  end.
Proof.
  refine (@shredded_tree_was_overwritten works (demo_rng_law _) demo_walk ["r"] Schneier7 (demo_world [])
    demo_walk_ok demo_closed _ eq_refl). by intros n e.
Defined.

(** ** What differs from the comments *)

(** [rename] replaces a file that has the drawn name: the eight tries, which
    wait for [AlreadyExists], do not guard against it. *)
Lemma rename_replaces_the_namesake {E : ShredEnv} n p b x y w :
  rng (w_calls w) 8 = Some b -> call_at (w_calls w) = Works -> candidate p b <> p ->
  w_disk w !! p = Some x -> w_disk w !! candidate p b = Some y -> y <> NDir ->
  exists w', rename_to_scrubbed (S n) p w = (Ok (candidate p b), w') /\ w_disk w' = <[candidate p b := x]> (delete p (w_disk w)).
Proof.
  intros Hb Hcall Hne Hx Hy Hdir. cbn [rename_to_scrubbed]. unfold bind, gets, call, node_at, modify, move_node, ret. simpl. rewrite Hb. simpl.
  unfold bind, gets, call, node_at, modify, move_node, ret. simpl. rewrite Hcall. simpl. rewrite Hy.
  destruct y; [|done|]; simpl; rewrite Hx; by eexists.
Qed.

(** A tree that is a single file announces its error twice. *)
Example tree_fails_twice :
  w_events (@shred_tree works demo_walk demo_file Nist80088Purge (demo_world [])).2 =
    [EvFailed (shred_error PurgeNotSupported demo_file); EvFailed (shred_error PurgeNotSupported demo_file)].
Proof. vm_compute. reflexivity. Qed.

(** A pause that comes while a pass is read back is not honoured: the loop
    only asks for a cancellation. *)
Lemma verify_does_not_pause {E : ShredEnv} fuel p pass size k seen w l :
  w_flags w = PAUSED :: l -> k < size ->
  verify_loop (S fuel) p pass size k seen w =
  (let n := Z.min (size - k) CHUNK_SIZE in
   let! b := read_exact p k n in
   if is_random pass
   then verify_loop fuel p pass size (k + n) (seen || existsb (fun x => negb (bool_decide (x = Byte.x00))) b)
   else if bool_decide (b = fill_pattern pass (Z.to_nat n))
        then verify_loop fuel p pass size (k + n) seen
        else fail (shred_error VerifyFailed p)) (set_flags l w).
Proof.
  intros Hf Hk. cbn [verify_loop]. destruct (Z.ltb_spec k size) as [_|]; [|lia].
  unfold load, bind at 1 2 3, gets, modify, ret. by rewrite Hf.
Qed.
