(* ===== verification/Helper.v ===== *)
(** * The privileged helper ([freally-helper])

    The elevated process: its capabilities, the handler of one request, the
    loop over a session and the caller's side of the start.  A line of the
    session is a request, text that does not parse, or a broken read; the JSON
    between is [serde]'s.  Paths are those of Linux, where the last component
    of an open that must not follow links fails with [ELOOP] on one.  Files are
    read and written in pieces that an environment ([HelperEnv]) chooses, and
    it fails any call.

    The second part shows that it does only what it was granted. *)
From S2P Require Import Prelude.
From S2P Require Import Text.
From S2P Require Import TextSearch.
From S2P Require Import Files.
From S2P Require Import CopyFile.
From S2P Require Import ChunkTypes.
From stdpp Require Import pretty options.
Open Scope Z_scope.

(** ** Requests and responses ([rpc.rs]) *)

Definition PROTOCOL_VERSION : Z := 1.

Inductive Capability := Lifecycle | CElevatedRetry | CShellExtension | CHardwareErase.

#[export] Instance capability_eq : EqDecision Capability.
Proof. solve_decision. Defined.

Inductive ShellExtensionKind := WindowsExplorerCommand | MacosFinderSync | LinuxNautilus | LinuxDolphin | LinuxThunar.

Inductive Request :=
| Hello (version : Z)
| ElevatedRetry (src dst : path)
| InstallShellExtension (target : ShellExtensionKind)
| UninstallShellExtension (target : ShellExtensionKind)
| HardwareErase (device : path)
| Shutdown
| GrantCapabilities (capabilities : list Capability).

Inductive Response :=
| HelloOk (version : Z) (session_id : string)
| ProtocolMismatch (helper_version caller_version : Z)
| ElevatedRetryOk (bytes : Z)
| ElevatedRetryFailed (localized_key : string)
| ShellExtensionUnsupported (target : ShellExtensionKind) (native : bool)
| HardwareEraseUnavailable
| PathRejected (offending : path) (localized_key : string)
| CapabilityDenied (needed : Capability)
| RFailed (localized_key : string)
| ShuttingDown
| CapabilitiesGranted (granted : list Capability).

Definition cap_label (c : Capability) : string :=
  match c with
  | Lifecycle => "lifecycle" | CElevatedRetry => "elevated_retry" | CShellExtension => "shell_extension" | CHardwareErase => "hardware_erase"
  end.

Definition cap_parse (raw : string) : option Capability :=
  if String.eqb raw "lifecycle" then Some Lifecycle
  else if String.eqb raw "elevated_retry" then Some CElevatedRetry
  else if String.eqb raw "shell_extension" then Some CShellExtension
  else if String.eqb raw "hardware_erase" then Some CHardwareErase
  else None.

(** [is_native_to_current_host], on Linux. *)
Definition is_native (k : ShellExtensionKind) : bool :=
  match k with LinuxNautilus | LinuxDolphin | LinuxThunar => true | _ => false end.

Definition is_ascii_hexdigit (c : ascii) : bool := bool_decide (is_Some (from_hex c)).

(** [getrandom] gives the bytes. *)
Definition generate_pipe_name (prefix : string) (random : bytes) : string := prefix +:+ hex_encode random.

Definition parse_pipe_name (prefix full : string) : option string :=
  suffix ← str_strip_prefix prefix full;
  if negb (String.length suffix =? 64)%nat || has_char (fun c => negb (is_ascii_hexdigit c)) suffix then None else Some suffix.

(** ** Capabilities ([capability.rs]) *)

Definition required_for (req : Request) : option Capability :=
  match req with
  | Hello _ | Shutdown | GrantCapabilities _ => None
  | ElevatedRetry _ _ => Some CElevatedRetry
  | InstallShellExtension _ | UninstallShellExtension _ => Some CShellExtension
  | HardwareErase _ => Some CHardwareErase
  end.

Definition check (req : Request) (granted : list Capability) : result Capability unit :=
  match required_for req with
  | None => Ok tt
  | Some needed => if bool_decide (needed ∈ granted) then Ok tt else Err needed
  end.

(** The error is the unknown label. *)
Fixpoint parse_tokens (tokens : list string) (out : list Capability) : result string (list Capability) :=
  match tokens with
  | [] => Ok out
  | t :: tokens =>
      let t := trim t in
      if String.eqb t "" then parse_tokens tokens out
      else match cap_parse t with
           | None => Err t
           | Some c => parse_tokens tokens (if bool_decide (c ∈ out) then out else out ++ [c])
           end
  end.

Definition parse_capability_list (raw : string) : result string (list Capability) := parse_tokens (split_on "," raw) [].

(** ** The handler ([handler.rs]) *)

Inductive FsNode := HFile (content : bytes) | HLink | HDir.

#[export] Instance fs_node_eq : EqDecision FsNode.
Proof. solve_decision. Defined.

Class HelperEnv := {
  call_fails : nat -> option Z;
  read_size : nat -> nat;
  write_part : nat -> nat;
  session_bytes : nat -> option bytes;
}.

Record HelperWorld := { hw_fs : gmap path FsNode; hw_calls : nat }.

Definition ENOENT : Z := 2.
Definition EISDIR : Z := 21.
Definition ELOOP : Z := 40.
Definition BUF_LEN : nat := 65536.

(** What an errno says: [ErrorKind::PermissionDenied] is EPERM or EACCES. *)
Definition retry_key (errno : Z) : string :=
  if errno =? ELOOP then "err-path-escape"
  else if (errno =? 1) || (errno =? 13) then "err-permission-denied"
  else if errno =? ENOENT then "err-not-found"
  else "err-io-other".

Section helper.
Context {HE : HelperEnv}.

Definition tick (w : HelperWorld) : HelperWorld := {| hw_fs := hw_fs w; hw_calls := S (hw_calls w) |}.
Definition put_node (p : path) (n : FsNode) (w : HelperWorld) : HelperWorld := {| hw_fs := <[p := n]> (hw_fs w); hw_calls := hw_calls w |}.

Definition content_of (p : path) (w : HelperWorld) : bytes := match hw_fs w !! p with Some (HFile b) => b | _ => [] end.

(** [src_opts.open(src)]: directories open, but do not read. *)
Definition open_src (src : path) (w : HelperWorld) : result Z unit * HelperWorld :=
  match call_fails (hw_calls w) with
  | Some e => (Err e, tick w)
  | None => (match hw_fs w !! src with None => Err ENOENT | Some HLink => Err ELOOP | Some _ => Ok tt end, tick w)
  end.

(** [dst_opts.open(dst)]: created or truncated. *)
Definition open_dst (dst : path) (w : HelperWorld) : result Z unit * HelperWorld :=
  match call_fails (hw_calls w) with
  | Some e => (Err e, tick w)
  | None => match hw_fs w !! dst with
            | Some HLink => (Err ELOOP, tick w)
            | Some HDir => (Err EISDIR, tick w)
            | _ => (Ok tt, put_node dst (HFile []) (tick w))
            end
  end.

(** [sf.read(&mut buf)] at [pos]. *)
Definition read_piece (src : path) (pos : nat) (w : HelperWorld) : result Z bytes * HelperWorld :=
  match call_fails (hw_calls w) with
  | Some e => (Err e, tick w)
  | None => match hw_fs w !! src with
            | Some HDir => (Err EISDIR, tick w)
            | _ => (Ok (take (Nat.min BUF_LEN (S (read_size (hw_calls w)))) (drop pos (content_of src w))), tick w)
            end
  end.

(** [df.write_all(&buf[..n])]: a failure may leave a part. *)
Definition write_piece (dst : path) (b : bytes) (w : HelperWorld) : result Z unit * HelperWorld :=
  match call_fails (hw_calls w) with
  | Some e => (Err e, put_node dst (HFile (content_of dst w ++ take (write_part (hw_calls w)) b)) (tick w))
  | None => (Ok tt, put_node dst (HFile (content_of dst w ++ b)) (tick w))
  end.

(** The loop; [None] when the fuel runs out. *)
Fixpoint copy_pieces (fuel : nat) (src dst : path) (pos : nat) (total : Z) (w : HelperWorld) : option (result Z Z * HelperWorld) :=
  match fuel with
  | O => None
  | S fuel =>
      match read_piece src pos w with
      | (Err e, w) => Some (Err e, w)
      | (Ok [], w) => Some (Ok total, w)
      | (Ok b, w) =>
          match write_piece dst b w with
          | (Err e, w) => Some (Err e, w)
          | (Ok _, w) => copy_pieces fuel src dst (pos + length b) (sat_add64 total (Z.of_nat (length b))) w
          end
      end
  end.

Definition copy_no_follow (src dst : path) (w : HelperWorld) : option (result Z Z * HelperWorld) :=
  match open_src src w with
  | (Err e, w) => Some (Err e, w)
  | (Ok _, w) =>
      match open_dst dst w with
      | (Err e, w) => Some (Err e, w)
      | (Ok _, w) => copy_pieces (S (length (content_of src w))) src dst 0 0 w
      end
  end.

Definition path_key (e : PathSafetyError) : string := match e with EmptyPath => "err-destination-empty" | _ => "err-path-escape" end.

Definition handle_elevated_retry (src dst : path) (w : HelperWorld) : option (Response * HelperWorld) :=
  match validate_path_no_traversal dst with
  | Some e => Some (PathRejected dst (path_key e), w)
  | None =>
      '(r, w) ← copy_no_follow src dst w;
      Some (match r with Ok bytes => ElevatedRetryOk bytes | Err e => ElevatedRetryFailed (retry_key e) end, w)
  end.

Definition path_to_validate (req : Request) : option path :=
  match req with ElevatedRetry src _ => Some src | HardwareErase device => Some device | _ => None end.

Definition handle_request (req : Request) (granted : list Capability) (w : HelperWorld) : option (Response * HelperWorld) :=
  match path_to_validate req ≫= fun off => pair off <$> validate_path_no_traversal off with
  | Some (off, e) => Some (PathRejected off (path_key e), w)
  | None =>
      match check req granted with
      | Err needed => Some (CapabilityDenied needed, w)
      | Ok _ =>
          match req with
          | Hello version =>
              if version =? PROTOCOL_VERSION
              then Some (match session_bytes (hw_calls w) with
                         | Some b => HelloOk PROTOCOL_VERSION (hex_encode b)
                         | None => RFailed "err-randomness-unavailable"
                         end, tick w)
              else Some (ProtocolMismatch PROTOCOL_VERSION version, w)
          | Shutdown => Some (ShuttingDown, w)
          | ElevatedRetry src dst => handle_elevated_retry src dst w
          | InstallShellExtension target | UninstallShellExtension target => Some (ShellExtensionUnsupported target (is_native target), w)
          | HardwareErase _ => Some (HardwareEraseUnavailable, w)
          | GrantCapabilities _ => Some (RFailed "err-helper-grant-out-of-band", w)
          end
      end
  end.

(** ** The session ([bin/helper.rs]) *)

Inductive Line := LRequest (r : Request) | LMalformed | LBroken.

Definition effective_capabilities (argv_requested pipe_granted : list Capability) : list Capability :=
  filter (fun c => c ∈ argv_requested) pipe_granted.

(** The response to a line, and what is granted behind it; [None] when the
    read broke. *)
Definition serve (argv_requested pipe_granted : list Capability) (l : Line) (w : HelperWorld) : option (option Response * list Capability * HelperWorld) :=
  match l with
  | LBroken => Some (None, pipe_granted, w)
  | LMalformed => Some (Some (RFailed "err-helper-invalid-json"), pipe_granted, w)
  | LRequest (GrantCapabilities caps) => Some (Some (CapabilitiesGranted (effective_capabilities argv_requested caps)), caps, w)
  | LRequest r => '(resp, w) ← handle_request r (effective_capabilities argv_requested pipe_granted) w; Some (Some resp, pipe_granted, w)
  end.

Definition is_shutdown (l : Line) : bool := match l with LRequest Shutdown => true | _ => false end.

(** The responses written, whether the session ended well, and the world; the
    list ends where the caller closes the pipe, and [unwritable] says when a
    response cannot be written. *)
Fixpoint run_loop (unwritable : nat -> bool) (argv_requested pipe_granted : list Capability) (lines : list Line) (n : nat) (w : HelperWorld)
    : option (list Response * bool * HelperWorld) :=
  match lines with
  | [] => Some ([], true, w)
  | l :: lines =>
      '(resp, granted, w) ← serve argv_requested pipe_granted l w;
      match resp with
      | None => Some ([], false, w)
      | Some resp =>
          if unwritable n then Some ([], false, w)
          else if is_shutdown l then Some ([resp], true, w)
          else '(resps, ok, w) ← run_loop unwritable argv_requested granted lines (S n) w; Some (resp :: resps, ok, w)
      end
  end.
End helper.

Definition resolve_capabilities (args : list string) : result string (list Capability) :=
  match head (omap (str_strip_prefix "--capabilities=") args) with
  | Some raw => parse_capability_list raw
  | None => Ok []
  end.

Definition endpoint_of (args : list string) : option string :=
  head (omap (fun a => match str_strip_prefix "--pipe=" a with Some s => Some s | None => str_strip_prefix "--socket=" a end) args).

Definition endpoint_name_ok (endpoint : string) : bool :=
  let basename := default endpoint (last (split_on "/" (to_slashes endpoint))) in
  bool_decide (is_Some (parse_pipe_name "freally-helper-" basename)).

(** ** The caller ([spawn.rs]) *)

Definition should_escalate (r : Response) : bool :=
  match r with ElevatedRetryFailed key => String.eqb key "err-permission-denied" | _ => false end.

(** On Linux, through polkit. *)
Definition build_spawn_command (helper_path pipe_or_socket : string) (capabilities : list Capability) : string * list string :=
  ("pkexec", [helper_path; "--socket=" +:+ pipe_or_socket; "--capabilities=" +:+ str_join "," (cap_label <$> capabilities)]).

(** * The privileged helper does only what it was granted

    Every change of a file in a session is one that the caller asked for, on
    paths without traversal, under a capability both the command line and the
    session granted ([helper_acts_only_as_granted]); an elevated retry that is
    answered with success has copied the file ([elevated_retry_is_exact]); and
    the arguments the caller builds mean to the helper what it meant
    ([spawned_helper_is_as_asked]). *)

Section helper.
Context {HE : HelperEnv}.

(** ** One copy *)

(** Files other than [dst] stay, and so does a link. *)
Definition only (dst : path) (w w' : HelperWorld) : Prop :=
  (forall p, p <> dst -> hw_fs w' !! p = hw_fs w !! p) /\ (hw_fs w !! dst = Some HLink -> hw_fs w' !! dst = Some HLink).

Lemma only_refl dst w : only dst w w.
Proof using Type. done. Qed.

Lemma only_trans dst w1 w2 w3 : only dst w1 w2 -> only dst w2 w3 -> only dst w1 w3.
Proof using Type. intros [A1 A2] [B1 B2]. split; [intros p Hp; by rewrite B1, A1|auto]. Qed.

Lemma only_put dst n w : hw_fs w !! dst <> Some HLink -> only dst w (put_node dst n w).
Proof using Type. intros H. split; [intros p Hp; by apply lookup_insert_ne|done]. Qed.

Lemma read_piece_spec src pos w : exists r, read_piece src pos w = (r, tick w) /\
  match r with Ok b => exists n, (0 < n)%nat /\ b = take n (drop pos (content_of src w)) | Err _ => True end.
Proof using Type.
  unfold read_piece. destruct (call_fails (hw_calls w)); [by eexists|]. set (n := Nat.min BUF_LEN (S (read_size (hw_calls w)))).
  assert (Hb : (0 < BUF_LEN)%nat) by (apply Nat.ltb_lt; by vm_compute). assert (Hn : (0 < n)%nat) by (unfold n; lia). destruct (hw_fs w !! src) as [[]|]; by eexists; (split; [done|]); try (by exists n).
Qed.

Lemma write_piece_spec dst b c w : hw_fs w !! dst = Some (HFile c) -> exists r w', write_piece dst b w = (r, w') /\ only dst w w' /\
  match r with Ok _ => hw_fs w' = <[dst := HFile (c ++ b)]> (hw_fs w) | Err _ => True end.
Proof using Type.
  intros H. unfold write_piece. assert (Hc : content_of dst w = c) by (unfold content_of; by rewrite H). rewrite Hc.
  destruct (call_fails (hw_calls w)); eexists _, _; (split; [done|]); split; try done; apply (only_put dst _ (tick w)); cbn; by rewrite H.
Qed.

(** A loop that reads one file into another: it ends, and success means that
    all of it arrived. *)
Lemma copy_pieces_copies fuel : forall src dst b pos total w,
  src <> dst -> content_of src w = b -> hw_fs w !! dst = Some (HFile (take pos b)) -> (pos <= length b)%nat -> (length b - pos < fuel)%nat ->
  total = Z.min U64_MAX (Z.of_nat pos) ->
  exists r w', copy_pieces fuel src dst pos total w = Some (r, w') /\ only dst w w' /\
    match r with Ok n => hw_fs w' !! dst = Some (HFile b) /\ n = Z.min U64_MAX (Z.of_nat (length b)) | Err _ => True end.
Proof using Type.
  induction fuel as [|fuel IH]; intros src dst b pos total w Hne Hb Hd Hpos Hf Ht; [lia|]. cbn [copy_pieces].
  destruct (read_piece_spec src pos w) as ([p|e] & -> & Hr); [|by eexists _, _; split_and!; [done|split|]].
  destruct Hr as (n & Hn & ->). rewrite Hb. destruct (take n (drop pos b)) as [|x l] eqn:Ep.
  - assert (pos = length b) as ->. { apply (f_equal length) in Ep. rewrite length_take, length_drop in Ep. cbn in Ep. lia. }
    eexists _, (tick w). split_and!; [done|done|]. cbn [hw_fs tick]. rewrite Hd, take_ge by lia. done.
  - rewrite <- Ep. destruct (write_piece_spec dst (take n (drop pos b)) (take pos b) (tick w) Hd) as ([u|e] & w1 & -> & Ho & Hw).
    2: { by eexists _, _; split_and!; [done| |]. }
    assert (Hl : (length (take n (drop pos b)) = Nat.min n (length b - pos))%nat) by (by rewrite length_take, length_drop).
    assert (Hl' : (0 < length (take n (drop pos b)))%nat) by (rewrite Ep; cbn; lia).
    destruct (IH src dst b (pos + length (take n (drop pos b)))%nat (sat_add64 total (Z.of_nat (length (take n (drop pos b))))) w1) as (r & w' & E & Ho' & Hr).
    + done.
    + unfold content_of in *. rewrite Hw, lookup_insert_ne by done. done.
    + rewrite Hw, lookup_insert_eq. do 2 f_equal. rewrite Hl, take_take_drop.
      destruct (decide (n <= length b - pos)%nat); [by rewrite Nat.min_l by lia|]. by rewrite !take_ge by lia.
    + lia.
    + lia.
    + unfold sat_add64. lia.
    + exists r, w'. split_and!; [done| |done]. by eapply only_trans.
Qed.

Lemma open_src_spec src w : exists r, open_src src w = (r, tick w) /\
  match r with Ok _ => exists n, hw_fs w !! src = Some n /\ n <> HLink | Err _ => True end.
Proof using Type. unfold open_src. destruct (call_fails _); [by eexists|]. destruct (hw_fs w !! src) as [[]|]; eexists; (split; [done|]); try exact I; by eexists. Qed.

Lemma open_dst_spec dst w : (exists e, open_dst dst w = (Err e, tick w)) \/
  (open_dst dst w = (Ok tt, put_node dst (HFile []) (tick w)) /\ hw_fs w !! dst <> Some HLink /\ hw_fs w !! dst <> Some HDir).
Proof using Type. unfold open_dst. destruct (call_fails _); [by left; eexists|]. destruct (hw_fs w !! dst) as [[]|]; eauto. Qed.

Lemma copy_no_follow_spec src dst w : exists r w', copy_no_follow src dst w = Some (r, w') /\ only dst w w' /\
  match r with
  | Ok n => exists b, hw_fs w !! src = Some (HFile b) /\
      (src = dst -> hw_fs w' !! dst = Some (HFile [])) /\
      (src <> dst -> hw_fs w' !! dst = Some (HFile b) /\ n = Z.min U64_MAX (Z.of_nat (length b)))
  | Err _ => True
  end.
Proof using Type.
  unfold copy_no_follow. destruct (open_src_spec src w) as ([u|e] & -> & Hs); [|by eexists _, _; split_and!; [done|split|]].
  destruct Hs as (node & Hsrc & Hnl). destruct (open_dst_spec dst (tick w)) as [[e ->]|(-> & Hl & Hdir)]; [by eexists _, _; split_and!; [done|split|]|].
  cbn [hw_fs tick] in Hl, Hdir. set (w1 := put_node dst (HFile []) (tick (tick w))).
  assert (Ho1 : only dst w w1) by (apply (only_put dst _ (tick (tick w))); done).
  destruct (decide (src = dst)) as [<-|Hne].
  - assert (Hc : content_of src w1 = []) by (unfold content_of, w1; cbn; by rewrite lookup_insert_eq). rewrite Hc. cbn [length copy_pieces].
    destruct (read_piece_spec src 0 w1) as ([p|e] & -> & Hr); [|by eexists _, _].
    destruct Hr as (n & _ & ->). rewrite Hc. cbn [drop]. rewrite take_nil. eexists _, _. split_and!; [done|done|].
    destruct node as [b| |]; [|done..]. exists b. split_and!; [done|intros _; cbn; by rewrite lookup_insert_eq|done].
  - assert (Hsrc1 : hw_fs w1 !! src = Some node) by (cbn; by rewrite lookup_insert_ne). destruct node as [b| |]; [|done|].
    + assert (Hc : content_of src w1 = b) by (unfold content_of; by rewrite Hsrc1).
      destruct (copy_pieces_copies (S (length b)) src dst b 0 0 w1) as (r & w' & E & Ho & Hr); [done|done|cbn; by rewrite lookup_insert_eq|lia|lia|done|].
      rewrite Hc, E. exists r, w'. split_and!; [done|by eapply only_trans|]. destruct r; [|done]. exists b. split_and!; [done|done|]. by intros _.
    + cbn [copy_pieces]. unfold read_piece. destruct (call_fails (hw_calls w1)); [by eexists _, _|]. rewrite Hsrc1. by eexists _, _.
Qed.

(** An elevated retry is always answered, changes no file but its
    destination, and when it is answered with success the destination holds
    exactly the bytes of the source, whose number is reported; a rejected path
    or a missing capability changes nothing. *)
Theorem elevated_retry_is_exact (src dst : path) (granted : list Capability) (w : HelperWorld) :
  src <> dst ->
  exists resp w', handle_request (ElevatedRetry src dst) granted w = Some (resp, w') /\
    (forall p, p <> dst -> hw_fs w' !! p = hw_fs w !! p) /\
    match resp with
    | ElevatedRetryOk n => CElevatedRetry ∈ granted /\ exists b, hw_fs w !! src = Some (HFile b) /\ hw_fs w' !! dst = Some (HFile b) /\
        n = Z.min U64_MAX (Z.of_nat (length b))
    | ElevatedRetryFailed _ => CElevatedRetry ∈ granted
    | PathRejected p _ => validate_path_no_traversal p <> None /\ w' = w
    | CapabilityDenied c => c = CElevatedRetry /\ (CElevatedRetry ∉ granted) /\ w' = w
    | _ => False
    end.
Proof using Type.
  intros Hne. unfold handle_request. cbn [path_to_validate mbind option_bind].
  destruct (validate_path_no_traversal src) as [e|] eqn:E1; [by eexists _, _; split_and!; [done|done|by split; [rewrite E1|]]|]. cbn [fmap option_fmap option_map].
  unfold check. cbn [required_for]. case_bool_decide as Hc; [|by eexists _, _]. unfold handle_elevated_retry.
  destruct (validate_path_no_traversal dst) as [e|] eqn:E2; [by eexists _, _; split_and!; [done|done|by split; [rewrite E2|]]|].
  destruct (copy_no_follow_spec src dst w) as (r & w' & -> & [Ho _] & Hr). cbn [mbind option_bind]. eexists _, w'. split_and!; [done|done|].
  destruct r as [n|e]; [|done]. destruct Hr as (b & Hb & _ & Hn). destruct (Hn Hne) as [H1 H2]. eauto 8.
Qed.

(** ** A session *)

(** What the handler does to the files. *)
Lemma handle_request_only req granted w : exists resp w', handle_request req granted w = Some (resp, w') /\
  (hw_fs w' = hw_fs w \/ exists src dst, req = ElevatedRetry src dst /\ CElevatedRetry ∈ granted /\ validate_path_no_traversal src = None /\
     validate_path_no_traversal dst = None /\ only dst w w').
Proof using Type.
  unfold handle_request. destruct (path_to_validate req ≫= _) as [[off e]|] eqn:Ev; [by eexists _, _; split; [|left]|].
  unfold check. destruct (required_for req) as [c|] eqn:Er; [case_bool_decide as Hc; [|by eexists _, _; split; [|left]]|].
  - destruct req as [v|src dst|t|t|d| |caps]; try done; try (by eexists _, _; split; [|left]). injection Er as <-.
    unfold handle_elevated_retry. destruct (validate_path_no_traversal dst) as [e|] eqn:E2; [by eexists _, _; split; [|left]|].
    destruct (copy_no_follow_spec src dst w) as (r & w' & -> & Ho & _). cbn [mbind option_bind]. eexists _, w'. split; [done|right].
    exists src, dst. split_and!; [done|done| |done|done]. cbn in Ev. by destruct (validate_path_no_traversal src).
  - destruct req as [v|src dst|t|t|d| |caps]; try done; try (by eexists _, _; split; [|left]).
    destruct (v =? PROTOCOL_VERSION); by eexists _, _; split; [|left].
Qed.

(** The last grant of a part of a session. *)
Definition last_grant (lines : list Line) : option (list Capability) :=
  foldl (fun g l => match l with LRequest (GrantCapabilities caps) => Some caps | _ => g end) None lines.

Definition granted_by (lines : list Line) : list Capability := default [] (last_grant lines).

Lemma serve_spec argv pre l w : exists resp w', serve argv (granted_by pre) l w = Some (resp, granted_by (pre ++ [l]), w') /\
  (hw_fs w' = hw_fs w \/ exists src dst, l = LRequest (ElevatedRetry src dst) /\ CElevatedRetry ∈ effective_capabilities argv (granted_by pre) /\
     validate_path_no_traversal src = None /\ validate_path_no_traversal dst = None /\ only dst w w').
Proof using Type.
  assert (Hsnoc : granted_by (pre ++ [l]) = match l with LRequest (GrantCapabilities caps) => caps | _ => granted_by pre end).
  { unfold granted_by, last_grant. rewrite foldl_app. cbn [foldl]. by destruct l as [[]| |]. }
  rewrite Hsnoc. unfold serve. destruct l as [r| |]; [|by eexists _, w; split; [|left]..].
  destruct (handle_request_only r (effective_capabilities argv (granted_by pre)) w) as (resp & w' & E & Hw).
  destruct r; try (rewrite E; cbn [mbind option_bind]; eexists _, w'; split; [done|]; destruct Hw as [Hw|(src' & dst' & [= <- <-] & ?)]; [by left|by right; eauto]);
    try (rewrite E; cbn [mbind option_bind]; eexists _, w'; split; [done|]; destruct Hw as [Hw|(? & ? & ? & _)]; [by left|done]).
  by eexists _, w; split; [|left].
Qed.

Lemma run_loop_spec unwritable argv lines : forall pre n w, exists resps ok w',
  run_loop unwritable argv (granted_by pre) lines n w = Some (resps, ok, w') /\
  forall p, hw_fs w' !! p <> hw_fs w !! p -> hw_fs w !! p <> Some HLink /\
    exists mid src post, lines = mid ++ LRequest (ElevatedRetry src p) :: post /\
      CElevatedRetry ∈ effective_capabilities argv (granted_by (pre ++ mid)) /\ (LRequest Shutdown ∉ mid) /\
      validate_path_no_traversal src = None /\ validate_path_no_traversal p = None.
Proof using Type.
  induction lines as [|l lines IH]; intros pre n w; cbn [run_loop]; [by eexists _, _, w|].
  destruct (serve_spec argv pre l w) as (resp & w1 & -> & Hw). cbn [mbind option_bind].
  assert (Hone : forall p, hw_fs w1 !! p <> hw_fs w !! p -> hw_fs w !! p <> Some HLink /\ exists src, l = LRequest (ElevatedRetry src p) /\
      CElevatedRetry ∈ effective_capabilities argv (granted_by pre) /\ validate_path_no_traversal src = None /\ validate_path_no_traversal p = None).
  { intros p Hp. destruct Hw as [Hw|(src & dst & -> & Hc & H1 & H2 & [Ho Hl])]; [by rewrite Hw in Hp|].
    destruct (decide (p = dst)) as [->|Hne]; [|by destruct Hp; apply Ho]. split; [intros E; apply Hp; rewrite E; by apply Hl|eauto]. }
  assert (Hstop : forall (resps : list Response) (ok : bool), exists resps' ok' w', Some (resps, ok, w1) = Some (resps', ok', w') /\
    forall p, hw_fs w' !! p <> hw_fs w !! p -> hw_fs w !! p <> Some HLink /\
    exists mid src post, l :: lines = mid ++ LRequest (ElevatedRetry src p) :: post /\
      CElevatedRetry ∈ effective_capabilities argv (granted_by (pre ++ mid)) /\ (LRequest Shutdown ∉ mid) /\
      validate_path_no_traversal src = None /\ validate_path_no_traversal p = None).
  { intros resps ok. exists resps, ok, w1. split; [done|]. intros p Hp. destruct (Hone p Hp) as (? & src & -> & ? & ? & ?). split; [done|].
    exists [], src, lines. rewrite app_nil_r. split_and!; [done|done|apply not_elem_of_nil|done|done]. }
  destruct resp as [resp|]; [|apply Hstop]. destruct (unwritable n); [apply Hstop|]. destruct (is_shutdown l) eqn:Es; [apply Hstop|].
  destruct (IH (pre ++ [l]) (S n) w1) as (resps & ok & w' & E & Hp). rewrite E. cbn [mbind option_bind]. eexists _, _, w'. split; [done|].
  intros p Hne. destruct (decide (hw_fs w' !! p = hw_fs w1 !! p)) as [Ep|Ep].
  - rewrite Ep in Hne. destruct (Hone p Hne) as (? & src & -> & ? & ? & ?). split; [done|].
    exists [], src, lines. rewrite app_nil_r. split_and!; [done|done|apply not_elem_of_nil|done|done].
  - destruct (Hp p Ep) as (Hl & mid & src & post & -> & Hc & Hsh & H1 & H2). split.
    + destruct (decide (hw_fs w1 !! p = hw_fs w !! p)) as [<-|Hx]; [done|]. by apply Hone.
    + exists (l :: mid), src, post. rewrite <- app_assoc in Hc. split_and!; [done|done| |done|done]. intros [<-|?]%elem_of_cons; done.
Qed.

(** C26: whatever a session sends, in any order and with any calls failing,
    the helper gets to its end, and every path whose file is different
    afterwards was the destination of an elevated retry sent before any
    shutdown, with both paths free of traversal, while the capability for it
    was among those of the command line and of the last grant before it; and
    no such path was a symbolic link. *)
Theorem helper_acts_only_as_granted (unwritable : nat -> bool) (argv : list Capability) (lines : list Line) (w : HelperWorld) :
  exists resps ok w', run_loop unwritable argv [] lines 0 w = Some (resps, ok, w') /\
  forall p, hw_fs w' !! p <> hw_fs w !! p ->
    hw_fs w !! p <> Some HLink /\
    exists before src after caps, lines = before ++ LRequest (ElevatedRetry src p) :: after /\ (LRequest Shutdown ∉ before) /\
      last_grant before = Some caps /\ CElevatedRetry ∈ caps /\ CElevatedRetry ∈ argv /\
      validate_path_no_traversal src = None /\ validate_path_no_traversal p = None.
Proof using Type.
  destruct (run_loop_spec unwritable argv lines [] 0 w) as (resps & ok & w' & E & H). exists resps, ok, w'. split; [exact E|].
  intros p Hp. destruct (H p Hp) as (Hl & mid & src & post & -> & Hc & Hs & H1 & H2). split; [done|]. cbn [app] in Hc.
  apply list_elem_of_filter in Hc as [Ha Hg]. unfold granted_by in Hg. destruct (last_grant mid) as [caps|] eqn:Eg; [|by apply elem_of_nil in Hg].
  exists mid, src, post, caps. done.
Qed.

(** A file that is retried onto itself is emptied. *)
Lemma retry_onto_itself_empties src granted w w' n : handle_request (ElevatedRetry src src) granted w = Some (ElevatedRetryOk n, w') ->
  hw_fs w' !! src = Some (HFile []).
Proof using Type.
  unfold handle_request. cbn [path_to_validate mbind option_bind]. destruct (validate_path_no_traversal src) eqn:E; [done|]. cbn [fmap option_fmap option_map].
  unfold check. cbn [required_for]. case_bool_decide; [|done]. unfold handle_elevated_retry. rewrite E.
  destruct (copy_no_follow_spec src src w) as (r & w1 & -> & _ & Hr). cbn [mbind option_bind]. intros [= Er <-]. destruct r as [k|]; [|done].
  destruct Hr as (b & _ & Hs & _). by apply Hs.
Qed.
End helper.

(** ** What the caller starts *)

Lemma cap_parse_label c : cap_parse (cap_label c) = Some c.
Proof. by destruct c. Qed.

Lemma trim_label c : trim (cap_label c) = cap_label c.
Proof. by destruct c; vm_compute. Qed.

Lemma split_labels caps : caps <> [] -> split_on "," (str_join "," (cap_label <$> caps)) = cap_label <$> caps.
Proof.
  assert (Hc : forall c, contains_char "," (cap_label c) = false) by (by intros []; vm_compute).
  induction caps as [|c [|d caps] IH]; intros H; [done|cbn [fmap list_fmap str_join]; apply split_on_none, Hc|]. rewrite !fmap_cons, str_join_cons.
  change ("," +:+ ?s) with (String "," s). rewrite split_on_app, split_on_none by done. rewrite <- fmap_cons, IH by done. done.
Qed.

Lemma parse_labels caps out : NoDup (out ++ caps) -> parse_tokens (cap_label <$> caps) out = Ok (out ++ caps).
Proof.
  revert out. induction caps as [|c caps IH]; intros out Hd; [by rewrite app_nil_r|]. cbn [fmap list_fmap parse_tokens]. rewrite trim_label, cap_parse_label.
  replace (String.eqb (cap_label c) "") with false by (by destruct c). rewrite bool_decide_false.
  - rewrite IH, <- app_assoc; [done|]. by rewrite <- app_assoc.
  - apply NoDup_app in Hd as (_ & Hd & _). intros Hc. apply (Hd c Hc). by left.
Qed.

Lemma hexdigit_byte b : is_ascii_hexdigit (hex_digit (Z.land (Z.shiftr (byte_val b) 4) 15)) = true /\ is_ascii_hexdigit (hex_digit (Z.land (byte_val b) 15)) = true.
Proof. by destruct b; vm_compute. Qed.

Lemma hex_encode_digits l : has_char (fun c => negb (is_ascii_hexdigit c)) (hex_encode l) = false.
Proof. induction l as [|b l IH]; [done|]. cbn [hex_encode has_char]. destruct (hexdigit_byte b) as [-> ->]. by rewrite IH. Qed.

Lemma strip_prefix_app p r : str_strip_prefix p (p +:+ r) = Some r.
Proof. by apply strip_prefix_spec. Qed.

Lemma generated_name_parses prefix random : length random = 32%nat -> parse_pipe_name prefix (generate_pipe_name prefix random) = Some (hex_encode random).
Proof.
  intros H. unfold parse_pipe_name, generate_pipe_name. rewrite strip_prefix_app. cbn [mbind option_bind]. rewrite length_hex_encode, H, hex_encode_digits. done.
Qed.

Lemma hex_no_slash random : contains_char "/" (to_slashes (generate_pipe_name "freally-helper-" random)) = false.
Proof.
  unfold generate_pipe_name, contains_char. assert (H : forall s, has_char (fun c => negb (is_ascii_hexdigit c)) s = false -> has_char (Ascii.eqb "/") (to_slashes s) = false).
  { induction s as [|c s IH]; [done|]. cbn [has_char to_slashes replace_char]. fold (to_slashes s). intros [Hc Hs]%orb_false_iff. rewrite (IH Hs), orb_false_r.
    destruct (Ascii.eqb_spec c "\") as [->|_]; [by vm_compute in Hc|]. destruct (Ascii.eqb_spec "/" c) as [<-|]; [by vm_compute in Hc|done]. }
  cbn -[hex_encode to_slashes]. apply (H _ (hex_encode_digits random)).
Qed.

Lemma to_slashes_app a b : to_slashes (a +:+ b) = to_slashes a +:+ to_slashes b.
Proof. unfold to_slashes. induction a as [|c a IH]; [done|]. cbn. by rewrite IH. Qed.

(** What the caller builds means the same to the helper: started with
    the command for an endpoint whose name was generated, in any directory,
    and a list of distinct capabilities, the helper connects to that endpoint,
    whose name it accepts, and takes exactly those capabilities as its upper
    bound. *)
Theorem spawned_helper_is_as_asked (helper_path dir : string) (random : bytes) (caps : list Capability) :
  length random = 32%nat -> NoDup caps ->
  str_strip_prefix "--pipe=" helper_path = None -> str_strip_prefix "--socket=" helper_path = None -> str_strip_prefix "--capabilities=" helper_path = None ->
  let name := generate_pipe_name "freally-helper-" random in
  let endpoint := dir +:+ "/" +:+ name in
  let args := (build_spawn_command helper_path endpoint caps).2 in
  endpoint_of args = Some endpoint /\ endpoint_name_ok endpoint = true /\ resolve_capabilities args = Ok caps.
Proof.
  intros Hr Hd H1 H2 H3. cbv zeta. set (endpoint := dir +:+ "/" +:+ _). unfold build_spawn_command, endpoint_of, resolve_capabilities. cbn [snd omap list_omap].
  rewrite H1, H2, H3. assert (Hp : str_strip_prefix "--pipe=" ("--socket=" +:+ endpoint) = None) by done.
  assert (Hc : str_strip_prefix "--capabilities=" ("--socket=" +:+ endpoint) = None) by done.
  rewrite Hp, Hc, !strip_prefix_app. cbn [head hd_error]. split_and!; [done| |].
  - unfold endpoint_name_ok, endpoint. rewrite to_slashes_app. change (to_slashes ("/" +:+ ?s)) with (String "/" (to_slashes s)).
    rewrite split_on_app, (split_on_none _ _ (hex_no_slash random)), last_snoc. cbn [default from_option id].
    assert (Hs : to_slashes (generate_pipe_name "freally-helper-" random) = generate_pipe_name "freally-helper-" random).
    { unfold generate_pipe_name. cbn -[hex_encode]. assert (H : forall s, has_char (fun c => negb (is_ascii_hexdigit c)) s = false -> replace_char "\" "/" s = s).
      { induction s as [|c s IH]; [done|]. cbn [has_char replace_char]. intros [Hx Hs]%orb_false_iff. rewrite (IH Hs). destruct (Ascii.eqb_spec c "\") as [->|]; [by vm_compute in Hx|done]. }
      by rewrite (H _ (hex_encode_digits random)). }
    by rewrite Hs, generated_name_parses.
  - unfold parse_capability_list. destruct caps as [|c caps]; [done|]. rewrite split_labels by done. by apply (parse_labels (c :: caps) []).
Qed.

(** ** Witnesses *)

(** All calls work; reads give three bytes at a time. *)
#[local] Instance quiet : HelperEnv := {| call_fails _ := None; read_size _ := 2%nat; write_part _ := 0%nat; session_bytes _ := None |}.

Definition small_disk : HelperWorld :=
  {| hw_fs := {[ ["a"] := HFile [x01; x02; x03; x04; x05]; ["b"] := HFile [x07]; ["l"] := HLink ]}; hw_calls := 0%nat |}.

(** A retry before any grant, a grant that is too wide, a retry onto a link,
    one that works, and one behind the shutdown. *)
Definition small_session : list Line :=
  [LRequest (Hello 1); LRequest (ElevatedRetry ["a"] ["b"]); LMalformed; LRequest (GrantCapabilities [CHardwareErase; CElevatedRetry]);
   LRequest (ElevatedRetry ["a"] ["l"]); LRequest (HardwareErase ["dev"]); LRequest (ElevatedRetry ["a"] ["b"]); LRequest Shutdown;
   LRequest (ElevatedRetry ["b"] ["c"])].

Lemma helper_acts_only_as_granted_witness :
  exists resps w', run_loop (fun _ => false) [CElevatedRetry] [] small_session 0 small_disk = Some (resps, true, w') /\
    length resps = 8%nat /\ hw_fs w' !! ["b"] = hw_fs small_disk !! ["a"] /\ ["b"] <> ["l"] /\
    exists before src after, small_session = before ++ LRequest (ElevatedRetry src ["b"]) :: after /\ is_Some (last_grant before).
Proof.
  destruct (helper_acts_only_as_granted (fun _ => false) [CElevatedRetry] small_session small_disk) as (resps & ok & w' & E & H).
  assert (Hb : hw_fs w' !! ["b"] = hw_fs small_disk !! ["a"]) by (vm_compute in E; by injection E as _ _ <-).
  destruct (H ["b"]) as (_ & before & src & after & caps & E' & _ & Hg & _); [by rewrite Hb; vm_compute|].
  exists resps, w'. split_and!; [|vm_compute in E; by injection E as <- _ _|exact Hb|done|].
  - rewrite E. do 3 f_equal. vm_compute in E. by injection E as _ <- _.
  - exists before, src, after. split; [exact E'|]. rewrite Hg. by exists caps.
Defined.

Lemma elevated_retry_is_exact_witness :
  exists w', handle_request (ElevatedRetry ["a"] ["b"]) [CElevatedRetry] small_disk = Some (ElevatedRetryOk 5, w') /\
    hw_fs w' !! ["b"] = Some (HFile [x01; x02; x03; x04; x05]) /\ hw_fs w' !! ["a"] = hw_fs small_disk !! ["a"].
Proof.
  destruct (elevated_retry_is_exact ["a"] ["b"] [CElevatedRetry] small_disk ltac:(done)) as (resp & w' & E & Ho & Hr).
  assert (Er : resp = ElevatedRetryOk 5) by (vm_compute in E; by injection E as <- _).
  rewrite Er in E, Hr. exists w'. split; [exact E|]. destruct Hr as (_ & b & Hb & Hd & _). split; [|by apply Ho].
  rewrite Hd. vm_compute in Hb. by injection Hb as <-.
Defined.

Lemma spawned_helper_is_as_asked_witness :
  resolve_capabilities (build_spawn_command "/opt/freally-helper" ("/run/user/0" +:+ "/" +:+ generate_pipe_name "freally-helper-" (repeat x0a 32)) [CElevatedRetry; CShellExtension]).2
    = Ok [CElevatedRetry; CShellExtension].
Proof.
  assert (Hd : NoDup [CElevatedRetry; CShellExtension]) by (apply (bool_decide_unpack _); by vm_compute).
  destruct (spawned_helper_is_as_asked "/opt/freally-helper" "/run/user/0" (repeat x0a 32) [CElevatedRetry; CShellExtension] eq_refl Hd eq_refl eq_refl eq_refl) as (_ & _ & H).
  exact H.
Defined.
